(* ===== verification/_CoqProject ===== *)
-Q . S2P
Prelude.v
Arrow.v
Signal.v
BufferConfig.v
Frame.v
Ring.v
Watermark.v
Writer.v
Recovery.v
Backend.v
SinkBuffer.v
BufferSafety.v
DeadLetter.v
PartitionPath.v
ParquetError.v
Partition.v
Temporal.v
Text.v
Variant.v
Guard.v
Engine.v
Worker.v
HostCalls.v
GuestSdk.v
Cli.v
Dispatcher.v
Fleet.v
Transformer.v
Bulk.v
Serializer.v
Pipeline.v
ElasticsearchSink.v
Kafka.v
ParquetSink.v
VariantColumns.v
StarRocks.v
Attributes.v
OtlpDecode.v
Receiver.v
Compliance.v
Iceberg.v
IcebergSink.v
FileDlq.v
CoreConfig.v
Telemetry.v
ElasticsearchConfig.v
StarRocksConfig.v
ParquetConfig.v
Service.v
EsStartup.v
EsAws.v
Permits.v
Assembly.v
BufferMetrics.v
Upload.v
Reload.v
Handles.v
Main.v
