(* ===== verification/Prelude.v ===== *)
(** * opentelemetry-datalake: a verification development

    The program receives OpenTelemetry signals (logs, metrics, traces), turns them
    into Arrow record batches, passes them through an optional chain of
    WebAssembly transformers and hands them to a sink: Parquet files,
    Elasticsearch, Kafka, StarRocks, Iceberg.  Between a pipeline and a sink stands a buffer, in memory or on
    disk, that leases batches to the sink and takes each lease back acknowledged
    or returned.  What matters throughout is that no row is lost or delivered
    under a false account of it, whatever fails; most theorems say that of one
    component, in every interleaving and under every outcome of the calls it
    makes.

    ** Files

    Paths are under crates/, but for the binary's src/main.rs.  A definition keeps the name of the function or
    type it translates; a function that was cut in parts keeps its name for the
    whole, and a loop is a [Fixpoint] named after it.

    - Prelude: machine integers at their widths, [result] and [let?], byte
      strings, the pipeline's error type, lemmas and tactics.  Text: the text
      operations of the standard library on UTF-8 bytes.  Arrow: the classes
      that stand for the Arrow and CRC crates.
    - Signal (core/sort.rs): signal tags, the sort shorthand's parser, the
      pre-sorting engine.  BufferConfig (core/buffer/config.rs): defaults,
      resolution, the rules V1 to V5.
    - Frame (core/buffer/disk.rs): the OTLB frame, bisection of large batches,
      the decoder over a reader.  Watermark, Writer, Recovery (same file): the
      persisted watermark, the segment writer thread with group commit and
      rolling, the start-up scan and replay.  Backend: the handle and its thread,
      calls with their replies, timeouts and the shutdown.
    - Ring (core/buffer/memory.rs): the queue of one signal.  SinkBuffer
      (core/buffer/mod.rs, lease.rs): admission, eviction, leases, retries,
      shutdown, each critical section one definition.  BufferSafety: these
      sections as a step relation over a system of outstanding leases and
      reservations.  DeadLetter (core/buffer/dead_letter.rs): quarantine files.
      BufferMetrics (core/buffer/metrics.rs): gauges and counters, with the calls
      that OpenTelemetry's instruments get.  Handles (core/buffer/mod.rs): how
      a buffer is built, its instance identifier, its senders and receiver.
    - Attributes, OtlpDecode (arrow-codec/common.rs, logs.rs, traces.rs,
      metrics.rs): OTLP values as text, requests as columns.  Receiver
      (otlp-receiver/lib.rs): the gRPC services and the HTTP handlers, down to the
      channel.  Compliance (arrow-codec/compliance.rs): checking, tagging and
      remapping attributes against semantic conventions.
    - Pipeline (core/pipeline.rs, core/error.rs): fan-out; the text of errors,
      which some sinks decide on.
    - PartitionPath, ParquetError, Partition, Temporal, Variant, VariantColumns,
      ParquetSink, Upload (parquet-sink/): paths and file names, errors, the manager that
      routes rows to open files, the keys it reads from a batch's timestamps, the Variant encoding of attributes, the sink's loop, and
      below a file the encoder's thread, its channel and the upload task.
    - Guard, Engine, Worker, HostCalls, Dispatcher, Fleet, Transformer
      (wasm-transformer/): the schema guard, the compiled-module cache, one
      worker and its guest, the calls a guest makes, the dispatch of batches to
      workers, both sides joined from the start of the workers to their drain, assembly and hot reload.  Reload (wasm-transformer/reload.rs,
      src/main.rs): the reload endpoint and the routes of the admin server.  GuestSdk
      (wasm-sdk/): the guest's side of these calls and of a batch's memory.  Cli
      (wasm-cli/): the developers' tool, its conformance suite on the same guests.
    - Bulk, Serializer, ElasticsearchSink, EsStartup, EsAws, Permits (elasticsearch-sink/):
      the bulk client with its retries, the serialiser, a lease from preparation to
      acknowledgement; requests, the health and template checks of a start, the
      loop over leases; the signing of requests; the limit of requests that the tasks of
      all leases share.
    - Kafka (kafka-sink/lib.rs), StarRocks (starrocks-sink/lib.rs): error classes,
      slicing or labels, sending, the loop over leases.
    - Iceberg, IcebergSink (storage/): delivery tokens in a table's snapshots; the
      schema modes, partitioning, data files and the commit of a lease.
    - CoreConfig (core/config.rs, telemetry.rs, tls.rs), ElasticsearchConfig,
      StarRocksConfig, ParquetConfig (the sinks' config.rs or lib.rs): records with
      their defaults, resolution and validation.  Telemetry (core/telemetry.rs): its
      providers from their start to their shutdown.  FileDlq, Service (src/main.rs):
      the files of rerouted batches; the whole configuration, the choice of sink,
      buffers and transformers, readiness and the shutdown.  Assembly (src/main.rs,
      the sinks' constructors): the sinks of a configuration, with what those of the
      three signals share.  Main (src/main.rs): the process, from its arguments to its exit.

    Composition is as in the code: SinkBuffer runs on Ring and queues commands
    for Writer; Recovery reads what Writer wrote through Frame; the sinks run
    their preparations through [SinkBuffer.prepare] and Signal's sort; Dispatcher
    runs Worker, and Worker runs Guard; ParquetSink runs Partition; Receiver runs
    the decoders; Service validates with every sink's own validation and opens
    buffers with BufferConfig's resolution; Main runs Service, Assembly, Transformer
    and Telemetry in the order of the binary.

    ** Theorems

    - The buffer: every accepted row ends in exactly one of acknowledged,
      quarantined, dropped and counted, or still held, in any interleaving
      ([no_silent_loss], [buffer_invariant], [byte_budget]); it closes exactly
      when its last sender is gone, and instances are told apart
      ([drained_without_senders], [instance_id_unique]); leasing, flushing
      deadlines, retries and admission do what they promise ([lease_coalescing],
      [flush_deadline], [nack_transient_redelivers], [send_outcome]); the metrics
      are the history ([metrics_agree]); a quarantine is whole or absent,
      under a name no file had ([quarantine_all_or_nothing], [file_dlq_keeps]).
    - Reception: a request answered with success is on the channel, whole, and one
      that is refused is not; the columns are the records, one row each; the JSON
      of attributes reads back to the last value of each key
      ([accepted_request_handed_on], [decode_is_transposition],
      [attributes_read_back]); a batch is passed, tagged or refused as its mode
      says ([compliance_verdict]).
    - The disk: frames round trip, and any bytes decode as a specification of the wire
      format says that shares nothing with the decoder; an acknowledged append reads back; a restart replays exactly what
      was not acknowledged and removes nothing else ([decode_frame_refines],
      [acked_append_reads_back], [recovery_replays_unacked],
      [recovery_removes_only_acked], [watermark_durable]); the calls on the backend are
      served in order and get the thread's answers ([calls_served]).
    - Parquet: routing conserves rows, the manager keeps its limits, a flush
      closes everything, the sink drains, a row's key is the calendar's reading of its
      instant ([keys_of_instants], [routing_conserves_rows],
      [manager_invariant], [flush_closes_everything], [parquet_sink_drains]); an
      uploaded object is whole or absent, and without a fault it is whole
      ([upload_whole_or_absent], [faultless_upload_completes]); an encoded Variant
      decodes to its value, and the columns of a batch become columns of Variants with
      nothing else changed ([variant_encoding], [columns_become_variants]).
    - WebAssembly: no batch unaccounted for, whatever the guest does; dispatch
      to exactly one worker; reloading all or nothing, and every worker catches
      up; the registry is bounded ([execute_batch_accounts],
      [no_batch_unaccounted], [dispatch_exactly_once], [transform_accounts], [reload_all_or_nothing],
      [hot_reload_catches_up], [registry_bounded]); a request to reload is answered
      by what the reload did ([reload_endpoint]).  A batch whose column a guest
      nullified passes or fails the host's guard as the column is nullable, a metric a
      guest emits is recorded once, and a guest that passes the tool's suite is one the
      host starts ([nullified_batch_guarded], [emitted_metric_recorded],
      [suite_agrees_with_host]).
    - Sinks: an acknowledged lease was delivered, a returned one carries its
      reason ([lease_accounted_for], [send_bulk_accounts],
      [kafka_run_justified], [starrocks_run_settles]); chunks and slices cover the
      rows once ([chunks_cover], [partition_slices]); a StarRocks lease commits
      under one label at most in two-phase mode, as long as the sink knows which ([committed_at_most_once], [lease_labels]), an
      Iceberg lease in one snapshot at most, its batches conforming to the table
      and split without loss ([iceberg_commits_once], [committed_iff_covered],
      [schema_mode_conforms], [partition_complete]); an Elasticsearch start that
      succeeds has seen a healthy cluster and a data stream per signal, a sink
      that ends has ended its leases, and the tasks of all leases keep one limit of
      requests without blocking each other for good ([startup_confirms],
      [es_run_settles], [requests_share_limit]); a request leaves with the signature
      of its own method, URL and body ([sent_as_signed]).
    - The service: its check refuses exactly the configurations the process itself
      refuses before it touches anything; a checked one makes its sinks, wired signal by
      signal, unless something outside refuses or one of the settings that only a
      constructor reads is wrong, telemetry cannot be exported into the service's own
      receiver, the process exits with success only when it was asked to stop and no
      stage it awaited failed, and whatever it does first, telemetry is flushed before it
      ends ([check_tells], [checked_sinks_made], [no_feedback_loop], [clean_exit],
      [process_outcome], [telemetry_starts], [shutdown_once]); reloads keep a verified module
      ([sighup_keeps_verified]).

    ** Parameters

    Third-party code is a parameter, with what is relied on as the laws of a
    class or hypotheses of a section, and each has a concrete instance that the
    witnesses compute with: Arrow's batches, IPC, sorting and CRC ([Arrow],
    [ArrowLaws], [Crc], [Toy]); the Parquet encoder, clock, UUIDs and uploads
    ([Env]), below them OpenDAL's writers ([Opendal], [OpendalLaws]) and Arrow's
    file writer ([Encoder]); Wasmtime ([Wasm]) and its codecs ([Codec], [Tables]); files, hashing
    and compilation of modules ([Toolchain]); number and time formatters
    ([Formats]); serde_json ([Serde]); a cluster's answers to bulk requests; the
    Kafka producer's answers ([KafkaErrors], [Producer]); the StarRocks cluster,
    of which [committed_at_most_once] assumes that a label remembers a committed
    transaction and refuses another, that its answers are true, and that it opens a
    transaction only where a request names it, while an open one may end at any time
    and an aborted label can be used again ([StreamLoadContract]); the Iceberg crate
    and its catalogue, of which [iceberg_commits_once] assumes that a table's
    snapshots only grow, that a commit adds at most one, with its properties, and
    that a loaded table shows them ([IcebergCalls], [IcebergContract]), with
    Arrow's column kernels ([Kernels]); prost's and
    serde_json's decoders, hexadecimal and the printing of floats ([Hex],
    [ShowFloat]); batches and JSON values of the compliance check ([Batches],
    [Serde]); the answers of an Elasticsearch cluster to its checks ([Cluster]), the making of
    HTTP clients ([HttpStack]), of Kafka producers and of StarRocks managers,
    gzip; which addresses are the host's, which files exist and which log filters
    parse; the environment of the process ([Machine]); the module files a
    reload reads ([ModuleFiles]); arrays and dictionaries of Variants
    ([VariantArrays]); Arrow's calendar kernels, of which [keys_of_instants] asks that
    they keep rows and nulls ([TemporalKernels], [TemporalLaws]); the AWS SDK
    ([AwsSdk]); Wasmtime as the tool sees it ([Toolbox])
    and the batches the tool makes ([Literals]); the ports, exporters and signals a process
    meets ([World]).  Operating-system
    calls fail by a script or a flag the theorems quantify over.  Await points
    and locks delimit atomic steps; a channel is the list of what it delivers.

    ** Fuel and bounds

    Integers are [N] with the code's saturating, checked and wrapping
    operations at the code's width; [usize] has 64 bits.  Loops that are not
    structural have fuel and a theorem that it suffices: eviction by the length
    of the queue, routing by the rows left, bisection by the rows of the batch,
    the segment scan by the file's length, Variant decoding by the nesting
    depth, wildcard matching by the length of the text, draining by the number of
    tasks, reload and send loops by the 64-bit generation or attempt they count,
    StarRocks probes by the code's own limit of 64.

    ** Not modelled

    Sockets and clients of third-party protocols (tonic, axum, OpenDAL uploads,
    the HTTP stack with its TLS, OpenTelemetry's exporters); serde's, figment's and
    clap's decoding of configurations; log lines, and the capacities of scratch
    buffers.  They are third-party or have no effect the program reads back.  The manifest lists each part with its reason. *)

From stdpp Require Export prelude list gmap strings sorting.
From Stdlib Require Export NArith Lia.

(** ** Machine integers

    Every unsigned Rust integer is an [N]; the width is written out where it
    matters.  [usize] is the 64-bit one of the supported targets. *)

Definition u8_max : N := 255.
Definition u16_max : N := 65535.
Definition u32_max : N := 4294967295.
Definition u64_max : N := 18446744073709551615.
Definition usize_max : N := u64_max.

(** [saturating_add], [saturating_sub], [saturating_mul] at a width given by
    its largest value; truncated subtraction of [N] is [saturating_sub]. *)
Definition sat_add (mx a b : N) : N := N.min (a + b) mx.
Definition sat_sub (a b : N) : N := (a - b)%N.
Definition sat_mul (mx a b : N) : N := N.min (a * b) mx.

(** [checked_add], [checked_mul] and [try_from]. *)
Definition checked_add (mx a b : N) : option N :=
  if (a + b <=? mx)%N then Some (a + b)%N else None.
Definition checked_mul (mx a b : N) : option N :=
  if (a * b <=? mx)%N then Some (a * b)%N else None.
Definition try_from (mx a : N) : option N :=
  if (a <=? mx)%N then Some a else None.

Declare Scope otel_scope.
Delimit Scope otel_scope with otel.
Notation "a +u64 b" := (sat_add u64_max a b) (at level 50, left associativity) : otel_scope.
Notation "a *u64 b" := (sat_mul u64_max a b) (at level 40, left associativity) : otel_scope.
Notation "a +u32 b" := (sat_add u32_max a b) (at level 50, left associativity) : otel_scope.
Notation "a +us b" := (sat_add usize_max a b) (at level 50, left associativity) : otel_scope.
Notation "a -s b" := (sat_sub a b) (at level 50, left associativity) : otel_scope.
Open Scope otel_scope.

Lemma sat_add_exact mx a b : (a + b <= mx)%N -> sat_add mx a b = (a + b)%N.
Proof. unfold sat_add. lia. Qed.

Lemma sat_add_le mx a b : (sat_add mx a b <= mx)%N.
Proof. unfold sat_add. lia. Qed.

Lemma checked_add_Some mx a b c :
  checked_add mx a b = Some c <-> (c = a + b /\ a + b <= mx)%N.
Proof.
  unfold checked_add. destruct (N.leb_spec (a + b) mx); split;
    try (intros [= <-]; lia); intros [? ?]; try f_equal; lia.
Qed.

Lemma checked_mul_Some mx a b c :
  checked_mul mx a b = Some c <-> (c = a * b /\ a * b <= mx)%N.
Proof.
  unfold checked_mul. destruct (N.leb_spec (a * b) mx); split;
    try (intros [= <-]; lia); intros [? ?]; try f_equal; lia.
Qed.

Lemma try_from_Some mx a c : try_from mx a = Some c <-> (c = a /\ a <= mx)%N.
Proof.
  unfold try_from. destruct (N.leb_spec a mx); split;
    try (intros [= <-]; lia); intros [? ?]; try f_equal; lia.
Qed.

(** ** Results *)

Inductive result (A E : Type) : Type :=
| Ok (a : A)
| Err (e : E).
Arguments Ok {A E} a.
Arguments Err {A E} e.

Definition ok_or {A E} (o : option A) (e : E) : result A E :=
  match o with Some a => Ok a | None => Err e end.

Definition map_err {A E F} (f : E -> F) (r : result A E) : result A F :=
  match r with Ok a => Ok a | Err e => Err (f e) end.

Definition is_ok {A E} (r : result A E) : bool :=
  match r with Ok _ => true | Err _ => false end.

Notation "'let?' p ':=' c 'in' k" :=
  (match c with Ok p => k | Err e => Err e end)
  (at level 10, p pattern, c at level 200, k at level 200) : otel_scope.

(** Error values keep the constructor of the code's error type; the formatted
    diagnostic text is represented by a short fixed string naming the message. *)
Inductive PipelineError : Type :=
| MissingMetadata (msg : string)
| Configuration (msg : string)
| ArrowErr (msg : string)
| Storage (msg : string)
| Internal (msg : string)
| DownstreamClosed
| TopologicalSinkMissing (msg : string).

Global Instance PipelineError_eq_dec : EqDecision PipelineError.
Proof. solve_decision. Defined.

(** ** Record update

    [r <| f := v |>] replaces field [f]; a record opts in by giving the
    eta-expansion of its constructor as an instance of [RecordEta]. *)

Class RecordEta (R : Type) := record_eta : R -> R.
Class FieldUpdate {R T : Type} (proj : R -> T) := field_update : (T -> T) -> R -> R.

Ltac solve_field_update :=
  match goal with
  | |- @FieldUpdate ?R ?T ?proj =>
      let inst := constr:(_ : RecordEta R) in
      let e := eval hnf in inst in
      lazymatch (eval pattern proj in e) with
      | ?body _ => let t := eval cbv beta in (fun (f : T -> T) (r : R) => body (fun x => f (proj x)) r)
                   in exact t
      end
  end.
Global Hint Extern 1 (FieldUpdate _) => solve_field_update : typeclass_instances.

Notation "r <| f := v |>" := (field_update (proj := f) (fun _ => v) r)
  (at level 1, f at level 1, v at level 200, left associativity) : otel_scope.

(** ** Automation *)

(** Case analysis on the boolean tests and matches of a translated body. *)
Ltac split_ifs :=
  repeat match goal with
  | |- context [if ?b then _ else _] => let E := fresh "E" in destruct b eqn:E
  end.

Ltac split_match :=
  match goal with
  | |- context [match ?x with _ => _ end] => let E := fresh "E" in destruct x eqn:E
  end.

Ltac split_match_in H :=
  match type of H with
  | context [match ?x with _ => _ end] => let E := fresh "E" in destruct x eqn:E
  end.

(** Turn boolean comparisons on [N], [nat] into propositions, then [lia]. *)
Ltac bool_to_prop :=
  repeat match goal with
  | H : (_ <=? _)%N = true |- _ => apply N.leb_le in H
  | H : (_ <=? _)%N = false |- _ => apply N.leb_gt in H
  | H : (_ <? _)%N = true |- _ => apply N.ltb_lt in H
  | H : (_ <? _)%N = false |- _ => apply N.ltb_ge in H
  | H : (_ =? _)%N = true |- _ => apply N.eqb_eq in H
  | H : (_ =? _)%N = false |- _ => apply N.eqb_neq in H
  | H : (_ <=? _)%nat = true |- _ => apply Nat.leb_le in H
  | H : (_ <=? _)%nat = false |- _ => apply Nat.leb_gt in H
  | H : (_ <? _)%nat = true |- _ => apply Nat.ltb_lt in H
  | H : (_ <? _)%nat = false |- _ => apply Nat.ltb_ge in H
  | H : (_ && _)%bool = true |- _ => apply andb_true_iff in H; destruct H
  | H : (_ || _)%bool = false |- _ => apply orb_false_iff in H; destruct H
  | H : negb _ = true |- _ => apply negb_true_iff in H
  | H : negb _ = false |- _ => apply negb_false_iff in H
  | H : bool_decide _ = true |- _ => apply bool_decide_eq_true_1 in H
  | H : bool_decide _ = false |- _ => apply bool_decide_eq_false_1 in H
  end.
Ltac blia := bool_to_prop; unfold sat_sub in *; lia.

Create HintDb otel.
Create Rewrite HintDb otel.

(** ** Little-endian byte strings *)

Abbreviation byte := N.
Abbreviation bytes := (list N).

(** [x.to_le_bytes()] at [k] bytes and [from_le_bytes]. *)
Fixpoint le_bytes (k : nat) (x : N) : bytes :=
  match k with
  | O => []
  | S k => (x mod 256)%N :: le_bytes k (x / 256)%N
  end.

Fixpoint le_val (bs : bytes) : N :=
  match bs with
  | [] => 0
  | b :: bs => b + 256 * le_val bs
  end%N.

Lemma length_le_bytes k x : length (le_bytes k x) = k.
Proof. revert x. induction k as [|k IH]; intros x; simpl; [done | by rewrite IH]. Qed.

Lemma le_val_le_bytes k x : (x < 256 ^ N.of_nat k)%N -> le_val (le_bytes k x) = x.
Proof.
  revert x. induction k as [|k IH]; intros x Hx; simpl.
  - simpl in Hx. lia.
  - rewrite Nat2N.inj_succ, N.pow_succ_r' in Hx.
    rewrite IH; [pose proof (N.div_mod x 256); lia|].
    apply N.Div0.div_lt_upper_bound; lia.
Qed.

Lemma le_bytes_byte k x : Forall (fun b => b < 256)%N (le_bytes k x).
Proof.
  revert x. induction k as [|k IH]; intros x; simpl; constructor; [|done].
  apply N.mod_lt. lia.
Qed.

Lemma le_bytes_inj k x y :
  (x < 256 ^ N.of_nat k)%N -> (y < 256 ^ N.of_nat k)%N ->
  le_bytes k x = le_bytes k y -> x = y.
Proof.
  intros Hx Hy E.
  by rewrite <- (le_val_le_bytes k x), <- (le_val_le_bytes k y), E.
Qed.

(** [s[a..b]]: the sub-slice, total here; every use below is in range. *)
Definition slice {A} (a b : nat) (l : list A) : list A := take (b - a) (drop a l).

Lemma length_slice {A} a b (l : list A) :
  a <= b <= length l -> length (slice a b l) = b - a.
Proof. intros H. unfold slice. rewrite length_take, length_drop. lia. Qed.

Lemma slice_app_l {A} a b (l k : list A) :
  a <= b <= length l -> slice a b (l ++ k) = slice a b l.
Proof.
  intros H. unfold slice. rewrite drop_app_le by lia.
  rewrite take_app_le; [done|]. rewrite length_drop. lia.
Qed.

Lemma slice_app_r {A} a b (l k : list A) :
  length l <= a -> slice a b (l ++ k) = slice (a - length l) (b - length l) k.
Proof.
  intros H. unfold slice. rewrite drop_app_ge by lia. f_equal. lia.
Qed.

Lemma slice_all {A} n (l : list A) : length l = n -> slice 0 n l = l.
Proof. intros H. unfold slice. rewrite drop_0, Nat.sub_0_r, <- H. apply firstn_all. Qed.

(** [u32::from_le_bytes] of the four bytes at [i]. *)
Definition u32_at (i : nat) (b : bytes) : N := le_val (slice i (i + 4) b).

Lemma u32_at_le (pre : bytes) x post i : length pre = i -> (x <= u32_max)%N -> u32_at i (pre ++ le_bytes 4 x ++ post) = x.
Proof.
  intros Hi Hx. unfold u32_at. rewrite slice_app_r by lia. rewrite Hi, Nat.sub_diag. replace (i + 4 - i)%nat with 4%nat by lia.
  rewrite slice_app_l by (rewrite length_le_bytes; lia). rewrite slice_all by apply length_le_bytes.
  apply le_val_le_bytes. unfold u32_max in Hx. cbn. lia.
Qed.

(** A C structure of [u32] fields, and one of its fields. *)
Definition u32_layout (fields : list N) : bytes := concat (map (le_bytes 4) fields).

Lemma length_u32_layout fields : length (u32_layout fields) = 4 * length fields.
Proof.
  unfold u32_layout. induction fields as [|x fields IH]; [done|]. cbn [map concat]. rewrite length_app, length_le_bytes, IH. cbn. lia.
Qed.

Lemma u32_at_layout fields i x j :
  fields !! i = Some x -> j = 4 * i -> Forall (fun x => x <= u32_max)%N fields -> u32_at j (u32_layout fields) = x.
Proof.
  intros Hi -> Hall. rewrite <- (take_drop_middle fields i x Hi) at 1. unfold u32_layout.
  rewrite map_app, concat_app. cbn [map concat]. rewrite u32_at_le; [done| |].
  - fold (u32_layout (take i fields)). rewrite length_u32_layout, length_take. apply lookup_lt_Some in Hi. lia.
  - rewrite Forall_lookup in Hall. by eapply Hall.
Qed.

(** [dst[a..b].copy_from_slice(src)]. *)
Definition copy_at {A} (a : nat) (src dst : list A) : list A :=
  take a dst ++ src ++ drop (a + length src) dst.

Lemma length_copy_at {A} a (src dst : list A) :
  a + length src <= length dst -> length (copy_at a src dst) = length dst.
Proof. intros H. unfold copy_at. rewrite !length_app, length_take, length_drop. lia. Qed.

Lemma copy_at_app {A} a (pre old src post : list A) :
  length pre = a -> length old = length src ->
  copy_at a src (pre ++ old ++ post) = pre ++ src ++ post.
Proof.
  intros <- Hl. unfold copy_at. rewrite take_app_length.
  do 2 f_equal. rewrite drop_app_add, <- Hl. apply drop_app_length.
Qed.

(** ** Ordered maps

    A [BTreeMap<u64, V>] is a [gmap N V]; [first_key_value] is the least key. *)

Definition first_key {V} (m : gmap N V) : option N :=
  map_fold (fun k _ acc => Some (match acc with None => k | Some a => N.min k a end)) None m.

Lemma first_key_spec {V} (m : gmap N V) :
  match first_key m with
  | None => m = ∅
  | Some k => is_Some (m !! k) /\ forall j, is_Some (m !! j) -> (k <= j)%N
  end.
Proof.
  unfold first_key.
  apply (map_fold_weak_ind (fun acc m => match acc with
    | None => m = ∅
    | Some k => is_Some (m !! k) /\ forall j, is_Some (m !! j) -> (k <= j)%N end)); [done|].
  intros i x m' r Hi IH. destruct r as [a|]; simpl.
  - destruct IH as [[y Ha] Hmin]. split.
    + destruct (N.min_spec i a) as [[_ ->]|[_ ->]]; [by rewrite lookup_insert_eq; eauto|].
      rewrite lookup_insert_ne; [eauto | congruence].
    + intros j [z Hj]. destruct (decide (i = j)) as [->|Hne]; [lia|].
      rewrite lookup_insert_ne in Hj by done.
      pose proof (Hmin j ltac:(eauto)). lia.
  - subst m'. split; [by rewrite lookup_insert_eq; eauto|].
    intros j [z Hj]. destruct (decide (i = j)) as [->|Hne]; [lia|].
    by rewrite lookup_insert_ne, lookup_empty in Hj.
Qed.

Lemma first_key_None {V} (m : gmap N V) : first_key m = None <-> m = ∅.
Proof.
  pose proof (first_key_spec m) as H. destruct (first_key m) as [k|].
  - split; [done|]. intros ->. destruct H as [[? H] _]. by rewrite lookup_empty in H.
  - done.
Qed.

Lemma first_key_Some {V} (m : gmap N V) k :
  first_key m = Some k <-> is_Some (m !! k) /\ forall j, is_Some (m !! j) -> (k <= j)%N.
Proof.
  pose proof (first_key_spec m) as H. destruct (first_key m) as [k'|]; split.
  - intros [= ->]. done.
  - intros [Hk Hmin]. destruct H as [Hk' Hmin'].
    f_equal. pose proof (Hmin _ Hk'). pose proof (Hmin' _ Hk). lia.
  - done.
  - subst m. intros [[? Hk] _]. by rewrite lookup_empty in Hk.
Qed.

(** ** Sums over lists *)

Definition sum_N {A} (f : A -> N) (l : list A) : N := foldr (fun a s => f a + s)%N 0%N l.

Lemma sum_N_cons {A} (f : A -> N) a l : sum_N f (a :: l) = (f a + sum_N f l)%N.
Proof. done. Qed.

Lemma sum_N_map {A B} (f : B -> N) (g : A -> B) l : sum_N f (map g l) = sum_N (fun a => f (g a)) l.
Proof. induction l as [|a l IH]; [done|]. cbn [map]. by rewrite !sum_N_cons, IH. Qed.

Lemma sum_N_app {A} (f : A -> N) l k : sum_N f (l ++ k) = (sum_N f l + sum_N f k)%N.
Proof. induction l as [|a l IH]; simpl; [done | rewrite IH; lia]. Qed.

Lemma sum_N_perm {A} (f : A -> N) l k : l ≡ₚ k -> sum_N f l = sum_N f k.
Proof. induction 1; simpl; lia. Qed.

Lemma sum_N_ext {A} (f g : A -> N) l :
  (forall a, a ∈ l -> f a = g a) -> sum_N f l = sum_N g l.
Proof.
  induction l as [|a l IH]; intros H; simpl; [done|].
  rewrite (H a), IH; [done | | left]. intros b Hb. apply H. by right.
Qed.

Global Instance sum_N_proper {A} (f : A -> N) : Proper (Permutation ==> eq) (sum_N f).
Proof. intros l k. apply sum_N_perm. Qed.

Lemma list_elem_of_concat {A} (x : A) (ls : list (list A)) : x ∈ concat ls <-> exists l, x ∈ l /\ l ∈ ls.
Proof.
  induction ls as [|l ls IH]; cbn.
  - split; [intros Hx; by apply not_elem_of_nil in Hx | intros (? & _ & Hx); by apply not_elem_of_nil in Hx].
  - rewrite elem_of_app, IH. split.
    + intros [Hx|(k & Hx & Hk)]; [exists l; split; [done|left] | exists k; split; [done|by right]].
    + intros (k & Hx & [->|Hk]%elem_of_cons); [by left | right; by exists k].
Qed.

(** ** Sums over maps *)

Definition sum_map {V} (f : V -> N) (m : gmap N V) : N := map_fold (fun _ v s => f v + s)%N 0%N m.

Lemma sum_map_empty {V} (f : V -> N) : sum_map f ∅ = 0%N.
Proof. reflexivity. Qed.

Lemma sum_map_insert {V} (f : V -> N) m k v :
  m !! k = None -> sum_map f (<[k:=v]> m) = (f v + sum_map f m)%N.
Proof. intros Hk. unfold sum_map. rewrite map_fold_insert_L; [done| |done]. intros. lia. Qed.

Lemma sum_map_delete {V} (f : V -> N) m k v :
  m !! k = Some v -> sum_map f m = (f v + sum_map f (delete k m))%N.
Proof.
  intros Hk. rewrite <- (sum_map_insert f (delete k m) k v); [|apply lookup_delete_eq].
  by rewrite insert_delete_id.
Qed.

Lemma sum_map_lookup {V} (f : V -> N) m k v : m !! k = Some v -> (f v <= sum_map f m)%N.
Proof. intros Hk. rewrite (sum_map_delete f m k v Hk). lia. Qed.

#[export] Hint Rewrite @sum_map_empty : otel.

(** [Iterator::position]. *)
Fixpoint position {A} (f : A -> bool) (l : list A) : option nat :=
  match l with
  | [] => None
  | a :: l => if f a then Some O else option_map S (position f l)
  end.

(** Least value of a map under [f]. *)
Definition min_value {V} (f : V -> N) (m : gmap N V) : option N :=
  map_fold (fun _ v acc => Some (match acc with None => f v | Some a => N.min (f v) a end)) None m.

(** ** Loops with an early exit

    [loop_until p f a] turns [f] at most [p] times, [inl] going on and [inr]
    leaving; the fuel is binary, so a bound such as 2^64 costs nothing. *)
Fixpoint loop_until {A B} (p : positive) (f : A -> A + B) (a : A) : A + B :=
  match p with
  | xH => f a
  | xO p => match loop_until p f a with inl a => loop_until p f a | inr b => inr b end
  | xI p =>
      match f a with
      | inl a => match loop_until p f a with inl a => loop_until p f a | inr b => inr b end
      | inr b => inr b
      end
  end.

Lemma loop_until_invariant {A B} (f : A -> A + B) (P : A -> Prop) (Q : B -> Prop) p a :
  (forall a, P a -> match f a with inl a => P a | inr b => Q b end) -> P a ->
  match loop_until p f a with inl a => P a | inr b => Q b end.
Proof.
  intros Hf. revert a. induction p as [p IH|p IH|]; intros a Ha; cbn [loop_until]; [| |by apply Hf].
  - pose proof (Hf a Ha) as H1. destruct (f a) as [a1|]; [|done].
    pose proof (IH a1 H1) as H2. destruct (loop_until p f a1) as [a2|]; [|done]. by apply IH.
  - pose proof (IH a Ha) as H1. destruct (loop_until p f a) as [a1|]; [|done]. by apply IH.
Qed.

Lemma loop_until_measure {A B} (f : A -> A + B) (m : A -> N) p a a' :
  (forall a a', f a = inl a' -> (m a' < m a)%N) -> loop_until p f a = inl a' -> (m a' + Npos p <= m a)%N.
Proof.
  intros Hf. revert a a'. induction p as [p IH|p IH|]; intros a a'; cbn [loop_until].
  - destruct (f a) as [a1|] eqn:E1; [|done]. destruct (loop_until p f a1) as [a2|] eqn:E2; [|done]. intros E3.
    apply Hf in E1. apply IH in E2, E3. lia.
  - destruct (loop_until p f a) as [a2|] eqn:E2; [|done]. intros E3. apply IH in E2, E3. lia.
  - intros E. apply Hf in E. lia.
Qed.

(** Enough fuel for a loop with a decreasing measure. *)
Lemma loop_until_exits {A B} (f : A -> A + B) (m : A -> N) p a :
  (forall a a', f a = inl a' -> (m a' < m a)%N) -> (m a < Npos p)%N -> exists b, loop_until p f a = inr b.
Proof.
  intros Hf Hp. destruct (loop_until p f a) as [a'|b] eqn:E; [|by exists b].
  pose proof (loop_until_measure f m p a a' Hf E). lia.
Qed.

Lemma string_app_assoc (a b c : string) : (a +:+ (b +:+ c) = (a +:+ b) +:+ c)%string.
Proof. induction a as [|x a IH]; [done|]. exact (f_equal (String x) IH). Qed.
