(* ===== verification/Arrow.v ===== *)
(** The interface of the Arrow and CRC crates the program builds on.

    [arrow::RecordBatch], its IPC writers and readers and [crc32fast] are not
    part of the repository: they are parameters of the model, given here as
    type classes.  The operations are in [Arrow] and [Crc]; the documented
    behaviour the proofs rely on is in the law classes.  [Toy] instantiates
    both with concrete functions, which the witnesses evaluate. *)

From S2P Require Import Prelude.

(** Outcome of opening an IPC stream and reading its first batch. *)
Inductive ipc_read (RB : Type) : Type :=
| IpcError
| IpcNoBatch
| IpcBatch (b : RB).
Arguments IpcError {RB}.
Arguments IpcNoBatch {RB}.
Arguments IpcBatch {RB} b.

Class Arrow (RB Sch Row : Type) := {
  rb_rows : RB -> list Row;
  rb_schema : RB -> Sch;
  rb_memory_size : RB -> N;
  rb_slice : RB -> N -> N -> RB;
  ipc_encode : RB -> option bytes;
  ipc_decode : bytes -> ipc_read RB;
  ipc_file_encode : list RB -> option bytes;
  schema_eq_dec :: EqDecision Sch;
}.

(** [RecordBatch::num_rows]. *)
Definition num_rows {RB Sch Row} `{Arrow RB Sch Row} (b : RB) : N := N.of_nat (length (rb_rows b)).

(** What the code relies on: zero-copy slices hold the selected rows, a stream
    written by [StreamWriter] reads back as the batch that was written, and a
    memory size is a [usize]. *)
Class ArrowLaws (RB Sch Row : Type) `{Arrow RB Sch Row} := {
  rb_rows_slice : forall b off len, (off + len <= num_rows b)%N ->
    rb_rows (rb_slice b off len) = take (N.to_nat len) (drop (N.to_nat off) (rb_rows b));
  ipc_round_trip : forall b p, ipc_encode b = Some p -> ipc_decode p = IpcBatch b;
  rb_memory_size_bound : forall b, (rb_memory_size b <= usize_max)%N;
}.

Lemma num_rows_slice {RB Sch Row} `{ArrowLaws RB Sch Row} b off len :
  (off + len <= num_rows b)%N -> num_rows (rb_slice b off len) = len.
Proof.
  intros Hl. unfold num_rows in *. rewrite rb_rows_slice by done.
  rewrite length_take, length_drop. lia.
Qed.

(** [crc32fast::Hasher]: [update]s concatenate, [finalize] gives a [u32]. *)
Class Crc := {
  crc32 : bytes -> N;
  crc32_bound : forall bs, (crc32 bs <= u32_max)%N;
}.

Module Toy.
(** A batch is a schema number with its rows; the stream is the schema
    followed by the rows. *)
Definition batch : Type := N * list N.

#[export] Instance arrow : Arrow batch N N := {|
  rb_rows b := b.2;
  rb_schema b := b.1;
  rb_memory_size b := N.min (8 * N.of_nat (length b.2)) usize_max;
  rb_slice b off len := (b.1, take (N.to_nat len) (drop (N.to_nat off) b.2));
  ipc_encode b := Some (b.1 :: b.2);
  ipc_decode p := match p with [] => IpcNoBatch | s :: r => IpcBatch (s, r) end;
  ipc_file_encode bs := Some (concat (map (fun b => b.1 :: b.2) bs));
  schema_eq_dec := _;
|}.

#[export] Instance arrow_laws : ArrowLaws batch N N.
Proof.
  split.
  - done.
  - intros [s r] p [= <-]. done.
  - intros b. simpl. lia.
Qed.

#[export] Program Instance crc : Crc := {| crc32 bs := (sum_N id bs mod 4294967296)%N |}.
Next Obligation. intros bs. unfold u32_max. pose proof (N.mod_lt (sum_N id bs) 4294967296). lia. Qed.
End Toy.
