(* ===== verification/Signal.v ===== *)
(** Telemetry signals and the pre-sorting engine: crates/core/src/sort.rs.

    [SignalType] with its binary tag, the per-signal triple used for ring
    arrays and watermarks, the parser of sort shorthands, and [BatchSorter]. *)

From S2P Require Import Prelude Arrow.

Inductive SignalType : Type := Logs | Metrics | Traces.

Global Instance SignalType_eq_dec : EqDecision SignalType.
Proof. solve_decision. Defined.

(** [SignalType::as_u8], [from_u8], [as_str]. *)
Definition as_u8 (s : SignalType) : byte :=
  match s with Logs => 0 | Metrics => 1 | Traces => 2 end%N.

Definition from_u8 (v : byte) : option SignalType :=
  match v with
  | 0 => Some Logs
  | 1 => Some Metrics
  | 2 => Some Traces
  | _ => None
  end%N.

Definition as_str (s : SignalType) : string :=
  match s with Logs => "logs" | Metrics => "metrics" | Traces => "traces" end%string.

Lemma from_u8_as_u8 s : from_u8 (as_u8 s) = Some s.
Proof. by destruct s. Qed.

Lemma as_u8_from_u8 v s : from_u8 v = Some s -> as_u8 s = v.
Proof. destruct v as [|[[]|[]|]]; intros [= <-]; done. Qed.

(** A fixed array indexed by [SignalType]: the code's [[T; 3]] indexed by
    [as_u8]. *)
Record PerSignal (A : Type) := mkPerSignal { p_logs : A; p_metrics : A; p_traces : A }.
Arguments mkPerSignal {A} _ _ _.
Arguments p_logs {A} _.
Arguments p_metrics {A} _.
Arguments p_traces {A} _.

Definition sget {A} (p : PerSignal A) (s : SignalType) : A :=
  match s with Logs => p_logs p | Metrics => p_metrics p | Traces => p_traces p end.

Definition sset {A} (p : PerSignal A) (s : SignalType) (a : A) : PerSignal A :=
  match s with
  | Logs => mkPerSignal a (p_metrics p) (p_traces p)
  | Metrics => mkPerSignal (p_logs p) a (p_traces p)
  | Traces => mkPerSignal (p_logs p) (p_metrics p) a
  end.

Definition pconst {A} (a : A) : PerSignal A := mkPerSignal a a a.

Lemma sget_sset_eq {A} (p : PerSignal A) s a : sget (sset p s a) s = a.
Proof. by destruct s. Qed.

Lemma sget_sset_ne {A} (p : PerSignal A) s s' a : s <> s' -> sget (sset p s a) s' = sget p s'.
Proof. by destruct s, s'. Qed.

Lemma sget_sset {A} (p : PerSignal A) s s' a :
  sget (sset p s a) s' = if decide (s = s') then a else sget p s'.
Proof. case_decide; [subst; apply sget_sset_eq | by apply sget_sset_ne]. Qed.

Lemma sget_pconst {A} (a : A) s : sget (pconst a) s = a.
Proof. by destruct s. Qed.

Lemma PerSignal_eq {A} (p q : PerSignal A) : (forall s, sget p s = sget q s) -> p = q.
Proof.
  intros H. destruct p, q. pose proof (H Logs). pose proof (H Metrics). pose proof (H Traces).
  by simplify_eq/=.
Qed.

Global Instance PerSignal_eq_dec {A} `{EqDecision A} : EqDecision (PerSignal A).
Proof. solve_decision. Defined.

#[export] Hint Rewrite @sget_sset_eq @sget_pconst from_u8_as_u8 : otel.

(** ** Sort configuration *)

Inductive SortDirection := Asc | Desc.
Inductive NullsPosition := First | Last.
Inductive MissingColumnAction := Skip | ErrorOnMissing.

Inductive SortColumnDef :=
| Shorthand (s : string)
| Structured (column : string) (direction : SortDirection) (nulls : NullsPosition).

(** [arrow::compute::SortOptions]: a pair of flags. *)
Record SortOptions := mkSortOptions { descending : bool; nulls_first : bool }.

Record SortConfig := mkSortConfig {
  on_missing_column : MissingColumnAction;
  sc_logs : list SortColumnDef;
  sc_metrics : list SortColumnDef;
  sc_traces : list SortColumnDef;
}.

Record NormalizedSortKey := mkSortKey { key_column : string; key_options : SortOptions }.

(** *** [str::split_whitespace] and [to_ascii_uppercase] on ASCII text *)

Definition is_whitespace (a : Ascii.ascii) : bool :=
  let n := Ascii.N_of_ascii a in ((9 <=? n) && (n <=? 13) || (n =? 32))%N.

Definition emit_word (w : string) (ws : list string) : list string :=
  match w with EmptyString => ws | _ => w :: ws end.

(** The word at the head of the text and the words after it. *)
Fixpoint scan_words (s : string) : string * list string :=
  match s with
  | EmptyString => (EmptyString, [])
  | String a s' =>
      let '(w, ws) := scan_words s' in
      if is_whitespace a then (EmptyString, emit_word w ws) else (String a w, ws)
  end.

Definition split_whitespace (s : string) : list string :=
  let '(w, ws) := scan_words s in emit_word w ws.

Definition to_upper (a : Ascii.ascii) : Ascii.ascii :=
  let n := Ascii.N_of_ascii a in
  if ((97 <=? n) && (n <=? 122))%N then Ascii.ascii_of_N (n - 32) else a.

Fixpoint to_ascii_uppercase (s : string) : string :=
  match s with
  | EmptyString => EmptyString
  | String a s => String (to_upper a) (to_ascii_uppercase s)
  end.

(** *** [parse_shorthand] *)

(** The [while idx < tokens.len()] loop, on the tokens from [idx] on. *)
Fixpoint parse_sort_tokens (tokens : list string) (desc nf : bool)
  : result (bool * bool) PipelineError :=
  match tokens with
  | [] => Ok (desc, nf)
  | t :: rest =>
      let u := to_ascii_uppercase t in
      if bool_decide (u = "ASC"%string) then parse_sort_tokens rest false nf
      else if bool_decide (u = "DESC"%string) then parse_sort_tokens rest true nf
      else if bool_decide (u = "NULLS"%string) then
        match rest with
        | [] => Err (Internal "Expected 'FIRST' or 'LAST' after 'NULLS' in shorthand")
        | o :: rest' =>
            let v := to_ascii_uppercase o in
            if bool_decide (v = "FIRST"%string) then parse_sort_tokens rest' desc true
            else if bool_decide (v = "LAST"%string) then parse_sort_tokens rest' desc false
            else Err (Internal "Invalid NULLS option in shorthand")
        end
      else Err (Internal "Unexpected token in sort column shorthand")
  end.

Definition parse_shorthand (input : string) : result NormalizedSortKey PipelineError :=
  match split_whitespace input with
  | [] => Err (Internal "Sort column shorthand cannot be empty")
  | column :: opts =>
      let? (desc, nf) := parse_sort_tokens opts false false in
      Ok (mkSortKey column (mkSortOptions desc nf))
  end.

Definition normalize_def (def : SortColumnDef) : result NormalizedSortKey PipelineError :=
  match def with
  | Shorthand s => parse_shorthand s
  | Structured column direction nulls =>
      Ok (mkSortKey column (mkSortOptions
        (match direction with Desc => true | Asc => false end)
        (match nulls with First => true | Last => false end)))
  end.

Fixpoint normalize_column_defs (defs : list SortColumnDef)
  : result (list NormalizedSortKey) PipelineError :=
  match defs with
  | [] => Ok []
  | def :: defs =>
      let? k := normalize_def def in
      let? ks := normalize_column_defs defs in
      Ok (k :: ks)
  end.

Record BatchSorter := mkBatchSorter {
  bs_on_missing : MissingColumnAction;
  logs_keys : list NormalizedSortKey;
  metrics_keys : list NormalizedSortKey;
  traces_keys : list NormalizedSortKey;
}.

(** [BatchSorter::default]. *)
Definition default_sorter : BatchSorter := mkBatchSorter Skip [] [] [].

Definition from_config (c : SortConfig) : result BatchSorter PipelineError :=
  let? l := normalize_column_defs (sc_logs c) in
  let? m := normalize_column_defs (sc_metrics c) in
  let? t := normalize_column_defs (sc_traces c) in
  Ok (mkBatchSorter (on_missing_column c) l m t).

Definition signal_keys (bs : BatchSorter) (s : SignalType) : list NormalizedSortKey :=
  match s with Logs => logs_keys bs | Metrics => metrics_keys bs | Traces => traces_keys bs end.

(** ** Sorting a batch

    Column access, [lexsort_to_indices], [take] and [RecordBatch::try_new] are
    Arrow's. *)
Section Sort.
Context {RB Sch Row : Type} `{Arrow RB Sch Row} {Col : Type}.
Variable column_by_name : RB -> string -> option Col.
Variable columns : RB -> list Col.
Variable lexsort_to_indices : list (Col * SortOptions) -> option (list nat).
Variable take_column : Col -> list nat -> option Col.
Variable try_new : Sch -> list Col -> option RB.

(** One column pushed, skipped, or an error, as [on_missing_column] says. *)
Definition push_sort_column (action : MissingColumnAction) (batch : RB)
  (column : string) (opts : SortOptions) (cols : list (Col * SortOptions))
  : result (list (Col * SortOptions)) PipelineError :=
  match column_by_name batch column with
  | Some c => Ok (cols ++ [(c, opts)])
  | None =>
      match action with
      | ErrorOnMissing => Err (Internal "Missing configured sort column")
      | Skip => Ok cols
      end
  end.

Fixpoint push_sort_keys (action : MissingColumnAction) (batch : RB)
  (keys : list NormalizedSortKey) (cols : list (Col * SortOptions))
  : result (list (Col * SortOptions)) PipelineError :=
  match keys with
  | [] => Ok cols
  | k :: keys =>
      let? cols := push_sort_column action batch (key_column k) (key_options k) cols in
      push_sort_keys action batch keys cols
  end.

(** The tuple of sort columns: the lead column, then the signal's keys. *)
Definition select_sort_columns (bs : BatchSorter) (batch : RB) (s : SignalType)
  (lead : option string) : result (list (Col * SortOptions)) PipelineError :=
  let? cols :=
    match lead with
    | Some l => push_sort_column (bs_on_missing bs) batch l (mkSortOptions false false) []
    | None => Ok []
    end in
  push_sort_keys (bs_on_missing bs) batch (signal_keys bs s) cols.

Definition sort_with_extra_lead_column (bs : BatchSorter) (batch : RB) (s : SignalType)
  (lead : option string) : result RB PipelineError :=
  if (num_rows batch <=? 1)%N then Ok batch
  else
    let? cols := select_sort_columns bs batch s lead in
    match cols with
    | [] => Ok batch
    | _ =>
        let? indices := ok_or (lexsort_to_indices cols) (ArrowErr "lexsort") in
        let? cs := ok_or (mapM (fun c => take_column c indices) (columns batch)) (ArrowErr "take") in
        ok_or (try_new (rb_schema batch) cs) (ArrowErr "try_new")
    end.

Definition sort (bs : BatchSorter) (batch : RB) (s : SignalType) : result RB PipelineError :=
  sort_with_extra_lead_column bs batch s None.

(** The columns a key list selects when missing columns are skipped. *)
Definition present_keys (batch : RB) (keys : list NormalizedSortKey) : list (Col * SortOptions) :=
  omap (fun k => c ← column_by_name batch (key_column k); Some (c, key_options k)) keys.

Definition missing_key (batch : RB) (k : NormalizedSortKey) : bool :=
  match column_by_name batch (key_column k) with Some _ => false | None => true end.

Lemma push_sort_keys_skip batch keys cols :
  push_sort_keys Skip batch keys cols = Ok (cols ++ present_keys batch keys).
Proof.
  revert cols. induction keys as [|k keys IH]; intros cols; simpl; [by rewrite app_nil_r|].
  unfold push_sort_column. destruct (column_by_name batch (key_column k)) as [c|]; simpl.
  - rewrite IH. by rewrite <- (assoc_L (++)).
  - apply IH.
Qed.

Lemma push_sort_keys_error batch keys cols :
  push_sort_keys ErrorOnMissing batch keys cols =
    if existsb (missing_key batch) keys then Err (Internal "Missing configured sort column")
    else Ok (cols ++ present_keys batch keys).
Proof.
  revert cols. induction keys as [|k keys IH]; intros cols; simpl; [by rewrite app_nil_r|].
  unfold push_sort_column, missing_key at 1.
  destruct (column_by_name batch (key_column k)) as [c|]; simpl; [|done].
  rewrite IH. case_match; [done|]. by rewrite <- (assoc_L (++)).
Qed.

(** The lead column as a key of its own. *)
Definition lead_keys (lead : option string) : list NormalizedSortKey :=
  match lead with Some l => [mkSortKey l (mkSortOptions false false)] | None => [] end.

Lemma select_sort_columns_keys bs batch s lead :
  select_sort_columns bs batch s lead =
    push_sort_keys (bs_on_missing bs) batch (lead_keys lead ++ signal_keys bs s) [].
Proof. unfold select_sort_columns, lead_keys. by destruct lead. Qed.
End Sort.

(** ** Printing a key in the shorthand syntax *)

Definition print_shorthand (k : NormalizedSortKey) : string :=
  (key_column k +:+ " " +:+ (if descending (key_options k) then "DESC" else "ASC")
     +:+ " NULLS " +:+ (if nulls_first (key_options k) then "FIRST" else "LAST"))%string.

Definition space_char : Ascii.ascii := Ascii.ascii_of_N 32.

Fixpoint no_whitespace (s : string) : bool :=
  match s with EmptyString => true | String a s => negb (is_whitespace a) && no_whitespace s end.

(** A column name a shorthand can carry: one non-empty word. *)
Definition is_word (s : string) : bool :=
  match s with EmptyString => false | _ => no_whitespace s end.

Lemma scan_words_space w s :
  no_whitespace w = true ->
  scan_words (w +:+ String space_char s) = (w, split_whitespace s).
Proof.
  induction w as [|a w IH]; simpl; intros Hw.
  - unfold split_whitespace. by destruct (scan_words s).
  - apply andb_true_iff in Hw as [Ha Hw]. apply negb_true_iff in Ha.
    unfold String.app in *. by rewrite IH, Ha.
Qed.

Lemma split_whitespace_word w s :
  is_word w = true -> split_whitespace (w +:+ String space_char s) = w :: split_whitespace s.
Proof.
  intros Hw. unfold split_whitespace at 1.
  rewrite scan_words_space by (by destruct w). by destruct w.
Qed.

(** The parser keeps the last direction and the last null placement. *)
Lemma parse_sort_tokens_app ts ts' d n d' n' :
  parse_sort_tokens ts d n = Ok (d', n') ->
  parse_sort_tokens (ts ++ ts') d n = parse_sort_tokens ts' d' n'.
Proof.
  revert ts d n. fix IH 1. intros [|t ts] d n; simpl; [by intros [= -> ->]|].
  repeat case_bool_decide; [apply IH..| |done].
  destruct ts as [|o ts]; simpl; [done|]. repeat case_bool_decide; [apply IH..|done].
Qed.

(** ** Properties *)

(** Printing a normalized sort key in the shorthand syntax and
    parsing it again gives the same key, for every column name that is a
    single word. *)
Theorem shorthand_round_trip k :
  is_word (key_column k) = true -> parse_shorthand (print_shorthand k) = Ok k.
Proof.
  intros Hw. destruct k as [c [d n]]. unfold parse_shorthand, print_shorthand. simpl in *.
  change (" " +:+ ?s)%string with (String space_char s).
  rewrite (split_whitespace_word c) by done. by destruct d, n.
Qed.

Lemma shorthand_round_trip_witness :
  parse_shorthand (print_shorthand (mkSortKey "service_name" (mkSortOptions true false)))
    = Ok (mkSortKey "service_name" (mkSortOptions true false)).
Proof. apply (shorthand_round_trip (mkSortKey "service_name" (mkSortOptions true false))). reflexivity. Defined.

(** The sort tuple is the lead column followed by the signal's keys in
    configuration order, restricted to the columns the batch has; under
    [on_missing_column = error] one absent column (the lead included) makes
    the whole selection an error. *)
Theorem sort_columns_selected {RB Col : Type} (col : RB -> string -> option Col) bs batch s lead :
  let keys := lead_keys lead ++ signal_keys bs s in
  select_sort_columns col bs batch s lead =
    match bs_on_missing bs with
    | ErrorOnMissing =>
        if existsb (missing_key col batch) keys
        then Err (Internal "Missing configured sort column")
        else Ok (present_keys col batch keys)
    | Skip => Ok (present_keys col batch keys)
    end.
Proof.
  intros keys. rewrite select_sort_columns_keys. destruct (bs_on_missing bs).
  - by rewrite push_sort_keys_skip.
  - by rewrite push_sort_keys_error.
Qed.
