(* ===== verification/BufferConfig.v ===== *)
(** Buffer configuration: crates/core/src/buffer/config.rs.

    [BufferConfig], its defaults, the resolution of [[<sink>.buffer]] against
    the legacy [[<sink>.batching]] table, and the startup rules V1 to V5. *)

From S2P Require Import Prelude.
Local Open Scope N_scope.

Inductive BufferMode := Memory | Disk.
Inductive OverflowPolicy := Block | DropOldest.
Inductive DrainTimeoutPolicy := Persist | Discard.

Global Instance BufferMode_eq_dec : EqDecision BufferMode.
Proof. solve_decision. Defined.
Global Instance OverflowPolicy_eq_dec : EqDecision OverflowPolicy.
Proof. solve_decision. Defined.
Global Instance DrainTimeoutPolicy_eq_dec : EqDecision DrainTimeoutPolicy.
Proof. solve_decision. Defined.

Record LegacyBatchingConfig := mkLegacy {
  lb_max_batch_size_bytes : N;
  lb_max_batch_records : option N;
  lb_max_batch_interval_sec : N;
}.

Definition default_segment_size_bytes : N := 67108864.
Definition default_max_buffer_bytes : N := 805306368.
Definition default_max_batch_size_bytes : N := 33554432.
Definition default_max_batch_interval_sec : N := 60.
Definition default_max_inflight_leases : N := 1.
Definition default_initial_backoff_ms : N := 500.
Definition default_max_backoff_sec : N := 60.
Definition default_max_attempts : N := 3.
Definition default_max_dead_letter_bytes : N := 1073741824.
Definition default_drain_timeout_sec : N := 30.
Definition default_readiness_stall_sec : N := 10.

(** A [PathBuf] is its text. *)
Record BufferConfig := mkBufferConfig {
  mode : BufferMode;
  disk_path : option string;
  segment_size_bytes : N;
  sync_on_write : bool;
  max_buffer_bytes : N;
  overflow_policy : OverflowPolicy;
  max_batch_size_bytes : N;
  max_batch_records : option N;
  max_batch_interval_sec : N;
  max_inflight_leases : N;
  initial_backoff_ms : N;
  max_backoff_sec : N;
  max_attempts : N;
  max_transient_duration_sec : N;
  dead_letter_path : option string;
  max_dead_letter_bytes : N;
  drain_timeout_sec : N;
  on_drain_timeout : option DrainTimeoutPolicy;
  readiness_stall_sec : N;
}.

Global Instance BufferConfig_eta : RecordEta BufferConfig := fun r =>
  mkBufferConfig (mode r) (disk_path r) (segment_size_bytes r) (sync_on_write r)
    (max_buffer_bytes r) (overflow_policy r) (max_batch_size_bytes r) (max_batch_records r)
    (max_batch_interval_sec r) (max_inflight_leases r) (initial_backoff_ms r) (max_backoff_sec r)
    (max_attempts r) (max_transient_duration_sec r) (dead_letter_path r)
    (max_dead_letter_bytes r) (drain_timeout_sec r) (on_drain_timeout r) (readiness_stall_sec r).

Definition default_config : BufferConfig := {|
  mode := Memory;
  disk_path := None;
  segment_size_bytes := default_segment_size_bytes;
  sync_on_write := false;
  max_buffer_bytes := default_max_buffer_bytes;
  overflow_policy := Block;
  max_batch_size_bytes := default_max_batch_size_bytes;
  max_batch_records := None;
  max_batch_interval_sec := default_max_batch_interval_sec;
  max_inflight_leases := default_max_inflight_leases;
  initial_backoff_ms := default_initial_backoff_ms;
  max_backoff_sec := default_max_backoff_sec;
  max_attempts := default_max_attempts;
  max_transient_duration_sec := 0;
  dead_letter_path := None;
  max_dead_letter_bytes := default_max_dead_letter_bytes;
  drain_timeout_sec := default_drain_timeout_sec;
  on_drain_timeout := None;
  readiness_stall_sec := default_readiness_stall_sec;
|}.

Definition passthrough : BufferConfig :=
  default_config <| max_batch_records := Some 1 |> <| max_batch_interval_sec := 0 |>.

(** [per_signal_budget], [max_disk_frame_payload_bytes] and the effective
    policies. *)
Definition per_signal_budget (c : BufferConfig) : N := max_buffer_bytes c / 3.

Definition max_disk_frame_payload_bytes (c : BufferConfig) : N :=
  let doubled := segment_size_bytes c *u64 2 in
  if u32_max <? doubled then u32_max else doubled.

Definition effective_drain_policy (c : BufferConfig) : DrainTimeoutPolicy :=
  match on_drain_timeout c with
  | Some policy => policy
  | None => match mode c with Memory => Discard | Disk => Persist end
  end.

(** [Path::join] with a relative component. *)
Definition path_join (dir comp : string) : string := (dir +:+ "/" +:+ comp)%string.

Definition effective_dead_letter_path (c : BufferConfig) : string :=
  match dead_letter_path c with
  | Some p => p
  | None =>
      match mode c, disk_path c with
      | Disk, Some d => path_join d "dead-letter"
      | _, _ => "./dlq/buffer"%string
      end
  end.

Definition ensure_min_buffer_bytes (c : BufferConfig) : BufferConfig :=
  let slots := max_inflight_leases c +u64 1 in
  let min_per_signal := max_batch_size_bytes c *u64 slots in
  let min_total := min_per_signal *u64 3 in
  if max_buffer_bytes c <? min_total then c <| max_buffer_bytes := min_total |> else c.

(** The mode-specific part of [validate]: V3, V2 and the segment bound of V5. *)
Definition validate_mode (c : BufferConfig) : result unit PipelineError :=
  match mode c with
  | Disk =>
      let has_valid_path :=
        match disk_path c with Some p => negb (String.eqb p EmptyString) | None => false end in
      if negb has_valid_path then Err (Configuration "V3: disk mode requires disk_path")
      else if segment_size_bytes c <? max_batch_size_bytes c *u64 2
      then Err (Configuration "V2: segment_size_bytes")
      else if per_signal_budget c / 2 <? segment_size_bytes c
      then Err (Configuration "V5: segment_size_bytes")
      else Ok tt
  | Memory =>
      if bool_decide (on_drain_timeout c = Some Persist)
      then Err (Configuration "V3: persist requires disk")
      else Ok tt
  end.

Definition validate (c : BufferConfig) : result unit PipelineError :=
  if max_inflight_leases c =? 0 then Err (Configuration "V5: max_inflight_leases")
  else if max_attempts c =? 0 then Err (Configuration "V5: max_attempts")
  else if drain_timeout_sec c =? 0 then Err (Configuration "V5: drain_timeout_sec")
  else if max_batch_size_bytes c =? 0 then Err (Configuration "V5: max_batch_size_bytes")
  else if bool_decide (max_batch_records c = Some 0)
  then Err (Configuration "V5: max_batch_records")
  else
    let? slots_per_signal := ok_or (checked_add u64_max (max_inflight_leases c) 1)
      (Configuration "V1: slot count overflow") in
    let? min_per_signal := ok_or (checked_mul u64_max (max_batch_size_bytes c) slots_per_signal)
      (Configuration "V1: minimum overflow") in
    if per_signal_budget c <? min_per_signal then Err (Configuration "V1: max_buffer_bytes")
    else validate_mode c.

Definition resolve (buffer : option BufferConfig) (legacy_batching : option LegacyBatchingConfig)
  (default_passthrough : bool) : result BufferConfig PipelineError :=
  let? resolved :=
    match buffer, legacy_batching with
    | Some _, Some _ => Err (Configuration "V4: both buffer and batching")
    | Some cfg, None => Ok cfg
    | None, Some legacy =>
        Ok (ensure_min_buffer_bytes
          (default_config <| max_batch_size_bytes := lb_max_batch_size_bytes legacy |>
                          <| max_batch_records := lb_max_batch_records legacy |>
                          <| max_batch_interval_sec := lb_max_batch_interval_sec legacy |>))
    | None, None => Ok (if default_passthrough then passthrough else default_config)
    end in
  let? _ := validate resolved in
  Ok resolved.

(** What is resolved has passed the rules. *)
Lemma resolve_validated b l p cfg : resolve b l p = Ok cfg -> validate cfg = Ok tt.
Proof.
  unfold resolve. match goal with |- match ?r with _ => _ end = _ -> _ => generalize r end. intros [resolved|]; [|done].
  destruct (validate resolved) as [[]|] eqn:E; [|done]. by intros [= <-].
Qed.

(** ** Specification of the startup rules

    The rules over the integers, with no machine arithmetic. *)
Definition rules_V5 (c : BufferConfig) : Prop :=
  1 <= max_inflight_leases c /\ 1 <= max_attempts c /\ 1 <= drain_timeout_sec c /\
  1 <= max_batch_size_bytes c /\ max_batch_records c <> Some 0.

Definition rule_V1 (c : BufferConfig) : Prop :=
  3 * (max_batch_size_bytes c * (1 + max_inflight_leases c)) <= max_buffer_bytes c.

Definition rules_mode (c : BufferConfig) : Prop :=
  match mode c with
  | Disk =>
      (exists p, disk_path c = Some p /\ p <> EmptyString) /\
      2 * max_batch_size_bytes c <= segment_size_bytes c /\
      6 * segment_size_bytes c <= max_buffer_bytes c
  | Memory => on_drain_timeout c <> Some Persist
  end.

(** Field values are [u64]s (or narrower). *)
Definition config_in_range (c : BufferConfig) : Prop :=
  max_buffer_bytes c <= u64_max /\ segment_size_bytes c <= u64_max /\
  max_batch_size_bytes c <= usize_max /\ max_inflight_leases c <= usize_max.

Lemma div_le_iff a b k : 0 < k -> b <= a / k <-> k * b <= a.
Proof.
  intros Hk. split; intros H.
  - pose proof (N.Div0.mul_div_le a k). nia.
  - by apply N.div_le_lower_bound; lia.
Qed.

Lemma validate_mode_ok c :
  config_in_range c -> validate_mode c = Ok tt <-> rules_mode c.
Proof.
  intros (Hb & Hs & Hm & _). unfold validate_mode, rules_mode, per_signal_budget, sat_mul.
  destruct (mode c); [case_bool_decide; naive_solver|].
  destruct (disk_path c) as [p|]; simpl; [|naive_solver].
  destruct (String.eqb_spec p EmptyString) as [->|Hp]; simpl; [naive_solver|].
  rewrite N.Div0.div_div.
  pose proof (div_le_iff (max_buffer_bytes c) (segment_size_bytes c) (3 * 2)).
  unfold u64_max, usize_max in *.
  repeat match goal with |- context [?a <? ?b] => destruct (N.ltb_spec a b) end; split;
    try done; try (intros (_ & ? & ?); lia); intros _; split_and!; eauto; lia.
Qed.

(** The whole rule set against the checked arithmetic. *)
Lemma validate_ok_iff c :
  config_in_range c ->
  validate c = Ok tt <-> rules_V5 c /\ rule_V1 c /\ rules_mode c.
Proof.
  intros Hr. rewrite <- (validate_mode_ok c Hr). destruct Hr as (Hb & _ & Hm & Hl).
  unfold validate, rules_V5, rule_V1, per_signal_budget, usize_max in *.
  repeat match goal with |- context [?a =? ?b] => destruct (N.eqb_spec a b); [split; [done|]; lia|] end.
  case_bool_decide; [naive_solver|].
  destruct (checked_add _ _ _) as [s|] eqn:Ea; simpl.
  2:{ unfold checked_add in Ea. split; [done|]. destruct (N.leb_spec (max_inflight_leases c + 1) u64_max); [done|].
      nia. }
  apply checked_add_Some in Ea as [-> _].
  destruct (checked_mul _ _ _) as [m|] eqn:Em; simpl.
  2:{ unfold checked_mul in Em. destruct (N.leb_spec (max_batch_size_bytes c * (max_inflight_leases c + 1)) u64_max);
      [done|]. split; [done|]. lia. }
  apply checked_mul_Some in Em as [-> _].
  rewrite (N.add_comm (max_inflight_leases c)).
  pose proof (div_le_iff (max_buffer_bytes c) (max_batch_size_bytes c * (1 + max_inflight_leases c)) 3).
  destruct (N.ltb_spec (max_buffer_bytes c / 3) (max_batch_size_bytes c * (1 + max_inflight_leases c)));
    split; try done; try lia.
  - intros ->. split_and!; try lia; done.
  - by intros (_ & _ & ?).
Qed.

(** ** Properties *)

(** [BufferConfig::validate] accepts a configuration exactly when rules
    V1, V2, V3 and V5 hold of the mathematical integers: the checked and
    saturating arithmetic neither accepts an overflowing configuration nor
    rejects a representable valid one. *)
Theorem validate_iff c :
  config_in_range c ->
  validate c = Ok tt <-> rules_V5 c /\ rule_V1 c /\ rules_mode c.
Proof. apply validate_ok_iff. Qed.

Lemma validate_iff_witness :
  validate default_config = Ok tt <->
    rules_V5 default_config /\ rule_V1 default_config /\ rules_mode default_config.
Proof. apply (validate_iff default_config). repeat split; vm_compute; discriminate. Defined.

(** A legacy [batching] table with non-zero limits always resolves: the
    synthesized configuration passes V1 to V5 as long as three leases' worth of
    bytes fit a [u64]. *)
Theorem legacy_resolves l p :
  1 <= lb_max_batch_size_bytes l -> lb_max_batch_records l <> Some 0 ->
  6 * lb_max_batch_size_bytes l <= u64_max ->
  exists c, resolve None (Some l) p = Ok c /\
    rule_V1 c /\ max_batch_size_bytes c = lb_max_batch_size_bytes l.
Proof.
  intros Hb Hr Hfit. unfold u64_max in Hfit.
  set (c := default_config <| max_batch_size_bytes := lb_max_batch_size_bytes l |>
                          <| max_batch_records := lb_max_batch_records l |>
                          <| max_batch_interval_sec := lb_max_batch_interval_sec l |>).
  assert (Hrange : config_in_range (ensure_min_buffer_bytes c) /\ rule_V1 (ensure_min_buffer_bytes c)
     /\ rules_V5 (ensure_min_buffer_bytes c) /\ rules_mode (ensure_min_buffer_bytes c)
     /\ max_batch_size_bytes (ensure_min_buffer_bytes c) = lb_max_batch_size_bytes l).
  { unfold ensure_min_buffer_bytes, config_in_range, rule_V1, rules_V5, rules_mode, sat_add, sat_mul. subst c.
    cbn. unfold default_max_buffer_bytes, default_segment_size_bytes, default_max_inflight_leases,
      default_max_attempts, default_drain_timeout_sec, u64_max, usize_max, u64_max.
    case_match eqn:E; bool_to_prop; cbn; split_and!; try done;
      unfold default_max_inflight_leases, default_max_buffer_bytes; lia. }
  destruct Hrange as (Hrange & HV1 & HV5 & Hmode & Hsz).
  exists (ensure_min_buffer_bytes c). split; [|done].
  unfold resolve. fold c. by rewrite (proj2 (validate_ok_iff _ Hrange)).
Qed.

Lemma legacy_resolves_witness :
  exists c, resolve None (Some (mkLegacy 1000000000 None 5)) true = Ok c /\
    rule_V1 c /\ max_batch_size_bytes c = 1000000000.
Proof. apply (legacy_resolves (mkLegacy 1000000000 None 5)); [vm_compute; discriminate | discriminate | vm_compute; discriminate]. Defined.
