(* ===== verification/Frame.v ===== *)
(** The on-disk [OTLB] frame: crates/core/src/buffer/disk.rs, lines 13 to 344.

    A frame is a 28-byte little-endian header followed by an Arrow IPC stream.
    [encode_frame] appends one to a byte vector, [patch_frame_seq_id] rewrites
    its sequence number in place, [split_and_encode_frames_for_disk] bisects a
    batch until each frame fits, and [decode_frame] reads the next frame from a
    [std::io::Read].  [decodes] is the specification of decoding, by the layout
    of the bytes the reader delivers; [decode_bytes] is decoding as a function of
    these bytes. *)

From S2P Require Import Prelude Arrow Signal.
Local Open Scope N_scope.

(** [b"OTLB"]. *)
Definition FRAME_MAGIC : bytes := [79; 84; 76; 66].
Definition FRAME_VERSION : byte := 1.
Definition FRAME_HEADER_LEN : nat := 28.

Record FrameHeader := mkFrameHeader {
  fh_signal : SignalType;
  fh_seq_id : N;
  fh_row_count : N;
  fh_payload_len : N;
  fh_crc32 : N;
}.

Global Instance FrameHeader_eta : RecordEta FrameHeader := fun r =>
  mkFrameHeader (fh_signal r) (fh_seq_id r) (fh_row_count r) (fh_payload_len r) (fh_crc32 r).

Inductive FrameDecodeError : Type :=
| TornFrame
| InvalidHeader (reason : string)
| CrcMismatch (header : FrameHeader) (actual_crc : N)
| IpcDecode (header : FrameHeader)
| FrameIo.

Record PreEncodedFrame (RB : Type) := mkPreEncodedFrame {
  pf_header : FrameHeader;
  pf_bytes : bytes;
  pf_batch : RB;
}.
Arguments mkPreEncodedFrame {RB} _ _ _.
Arguments pf_header {RB} _.
Arguments pf_bytes {RB} _.
Arguments pf_batch {RB} _.

(** ** Readers

    What a [Read] delivers, one [read] call at a time: bytes that are
    available now, an [Interrupted] error, an [UnexpectedEof] error or another
    I/O error.  After the last event the reader is at end of file. *)
Inductive read_event : Type :=
| Chunk (bs : bytes)
| Interrupted
| UnexpectedEof
| IoError.

Abbreviation reader := (list read_event).

Inductive fill_outcome : Type :=
| Filled (bs : bytes)
| FillEof (bs : bytes)
| FillUnexpectedEof
| FillIoError.

(** The loop that fills a buffer of [need] more bytes: the header loop of
    [decode_frame], and [Read::read_exact], which retries the same way. *)
Fixpoint fill (evs : reader) (need : nat) (acc : bytes) : fill_outcome * reader :=
  match need with
  | O => (Filled acc, evs)
  | S _ =>
      match evs with
      | [] => (FillEof acc, [])
      | Chunk [] :: evs' => (FillEof acc, evs')
      | Chunk bs :: evs' =>
          if (length bs <=? need)%nat then fill evs' (need - length bs) (acc ++ bs)
          else (Filled (acc ++ take need bs), Chunk (drop need bs) :: evs')
      | Interrupted :: evs' => fill evs' need acc
      | UnexpectedEof :: evs' => (FillUnexpectedEof, evs')
      | IoError :: evs' => (FillIoError, evs')
      end
  end.

(** The bytes a reader without errors delivers. *)
Definition reader_bytes (evs : reader) : bytes :=
  flat_map (fun e => match e with Chunk bs => bs | _ => [] end) evs.

Definition healthy_event (e : read_event) : Prop :=
  match e with Chunk bs => bs <> [] | Interrupted => True | _ => False end.

(** Short reads and interruptions only. *)
Definition healthy (evs : reader) : Prop := Forall healthy_event evs.

Definition file_reader (content : bytes) : reader :=
  match content with [] => [] | _ => [Chunk content] end.

(** ** Encoding and decoding *)

Section Frame.
Context {RB Sch Row : Type} `{Arrow RB Sch Row} `{Crc}.

(** The bytes of a header, field by field. *)
Definition header_prefix (signal : SignalType) (seq_id rows plen : N) : bytes :=
  FRAME_MAGIC ++ [FRAME_VERSION; as_u8 signal] ++ le_bytes 2 0 ++ le_bytes 8 seq_id
    ++ le_bytes 4 rows ++ le_bytes 4 plen.

Definition header_bytes (h : FrameHeader) : bytes :=
  header_prefix (fh_signal h) (fh_seq_id h) (fh_row_count h) (fh_payload_len h)
    ++ le_bytes 4 (fh_crc32 h).

Definition encode_frame (signal : SignalType) (seq_id : N) (batch : RB) (out : bytes)
  : result (FrameHeader * bytes) PipelineError :=
  let? row_count := ok_or (try_from u32_max (num_rows batch))
    (Storage "RecordBatch row_count exceeds u32::MAX") in
  let header_start := length out in
  let out := out ++ repeat 0 FRAME_HEADER_LEN in
  let payload_start := length out in
  let? payload := ok_or (ipc_encode batch) (ArrowErr "ipc stream writer") in
  let out := out ++ payload in
  let? payload_len := ok_or (try_from u32_max (N.of_nat (length out) -s N.of_nat payload_start))
    (Storage "OTLB frame payload exceeds u32::MAX") in
  let hdr := slice header_start payload_start out in
  let hdr := copy_at 0 FRAME_MAGIC hdr in
  let hdr := copy_at 4 [FRAME_VERSION] hdr in
  let hdr := copy_at 5 [as_u8 signal] hdr in
  let hdr := copy_at 6 (le_bytes 2 0) hdr in
  let hdr := copy_at 8 (le_bytes 8 seq_id) hdr in
  let hdr := copy_at 16 (le_bytes 4 row_count) hdr in
  let hdr := copy_at 20 (le_bytes 4 payload_len) hdr in
  let out := copy_at header_start hdr out in
  let crc := crc32 (slice (header_start + 4) (header_start + 24) out ++ drop payload_start out) in
  let out := copy_at (header_start + 24) (le_bytes 4 crc) out in
  Ok (mkFrameHeader signal seq_id row_count payload_len crc, out).

Definition patch_frame_seq_id (frame : bytes) (header : FrameHeader) (seq_id : N)
  : result (bytes * FrameHeader) PipelineError :=
  let expected_len := N.of_nat FRAME_HEADER_LEN +us fh_payload_len header in
  let len := N.of_nat (length frame) in
  if (len <? N.of_nat FRAME_HEADER_LEN) || negb (len =? expected_len)
  then Err (Storage "cannot patch OTLB frame seq_id")
  else
    let frame := copy_at 8 (le_bytes 8 seq_id) frame in
    let crc := crc32 (slice 4 24 frame ++ drop FRAME_HEADER_LEN frame) in
    let frame := copy_at 24 (le_bytes 4 crc) frame in
    Ok (frame, header <| fh_seq_id := seq_id |> <| fh_crc32 := crc |>).

(** Row bisection; [fuel] bounds the depth of the recursion, [None] is running
    out of it.  [out] is the code's output vector. *)
Fixpoint split_and_encode_recursive (fuel : nat) (signal : SignalType) (batch : RB)
  (max_payload_len : N) (out : list (PreEncodedFrame RB))
  : option (result (list (PreEncodedFrame RB)) PipelineError) :=
  match fuel with
  | O => None
  | S fuel =>
      match encode_frame signal 0 batch [] with
      | Err e => Some (Err e)
      | Ok (header, frame) =>
          if fh_payload_len header <=? max_payload_len
          then Some (Ok (out ++ [mkPreEncodedFrame header frame batch]))
          else
            let rows := num_rows batch in
            if rows <=? 1
            then Some (Err (Storage "single-row RecordBatch exceeds max_payload_len"))
            else
              let mid := rows / 2 in
              match split_and_encode_recursive fuel signal (rb_slice batch 0 mid) max_payload_len out with
              | Some (Ok out) =>
                  split_and_encode_recursive fuel signal (rb_slice batch mid (rows - mid)) max_payload_len out
              | r => r
              end
      end
  end.

(** Row counts fit 32 bits where a split happens, so 33 levels are enough. *)
Definition split_fuel : nat := 33.

Definition split_and_encode_frames_for_disk (signal : SignalType) (batch : RB) (max_payload_len : N)
  : option (result (list (PreEncodedFrame RB)) PipelineError) :=
  split_and_encode_recursive split_fuel signal batch max_payload_len [].

(** The checks on a complete header. *)
Definition parse_header (hdr : bytes) (max_payload_len : N) : result FrameHeader FrameDecodeError :=
  if negb (bool_decide (slice 0 4 hdr = FRAME_MAGIC))
  then Err (InvalidHeader "unexpected frame magic")
  else if negb (bool_decide (hdr !! 4%nat = Some FRAME_VERSION))
  then Err (InvalidHeader "unsupported frame version")
  else
    match from_u8 (nth 5 hdr 0) with
    | None => Err (InvalidHeader "invalid signal type byte")
    | Some signal =>
        let seq_id := le_val (slice 8 16 hdr) in
        let row_count := le_val (slice 16 20 hdr) in
        let payload_len := le_val (slice 20 24 hdr) in
        let crc := le_val (slice 24 28 hdr) in
        if max_payload_len <? payload_len
        then Err (InvalidHeader "frame payload_len exceeds max_payload_len")
        else Ok (mkFrameHeader signal seq_id row_count payload_len crc)
    end.

(** The checks on a complete payload. *)
Definition check_payload (hdr : bytes) (header : FrameHeader) (payload : bytes)
  : result (option (FrameHeader * RB)) FrameDecodeError :=
  let actual_crc := crc32 (slice 4 24 hdr ++ payload) in
  if negb (actual_crc =? fh_crc32 header) then Err (CrcMismatch header actual_crc)
  else
    match ipc_decode payload with
    | IpcBatch b => Ok (Some (header, b))
    | IpcError => Err (IpcDecode header)
    | IpcNoBatch => Err (IpcDecode header)
    end.

Definition decode_frame (evs : reader) (max_payload_len : N)
  : result (option (FrameHeader * RB)) FrameDecodeError * reader :=
  match fill evs FRAME_HEADER_LEN [] with
  | (FillEof [], evs) => (Ok None, evs)
  | (FillEof _, evs) => (Err TornFrame, evs)
  | (FillUnexpectedEof, evs) => (Err TornFrame, evs)
  | (FillIoError, evs) => (Err FrameIo, evs)
  | (Filled hdr, evs) =>
      match parse_header hdr max_payload_len with
      | Err e => (Err e, evs)
      | Ok header =>
          match fill evs (N.to_nat (fh_payload_len header)) [] with
          | (Filled payload, evs) => (check_payload hdr header payload, evs)
          | (FillEof _, evs) => (Err TornFrame, evs)
          | (FillUnexpectedEof, evs) => (Err TornFrame, evs)
          | (FillIoError, evs) => (Err FrameIo, evs)
          end
      end
  end.

(** ** The frame on the wire

    What docs/buffer.md and the documentation of [FrameHeader] say of a frame,
    with literal values and none of the decoder's functions. *)

(** The fields of a header, in the order of their bytes. *)
Record Wire := mkWire {
  w_magic : bytes;
  w_version : byte;
  w_signal : byte;
  w_reserved : bytes;
  w_seq : bytes;
  w_rows : bytes;
  w_len : bytes;
  w_crc : bytes;
}.

Definition wire_bytes (w : Wire) : bytes :=
  w_magic w ++ [w_version w; w_signal w] ++ w_reserved w ++ w_seq w ++ w_rows w ++ w_len w ++ w_crc w.

Record well_sized (w : Wire) : Prop := {
  ws_magic : length (w_magic w) = 4%nat;
  ws_reserved : length (w_reserved w) = 2%nat;
  ws_seq : length (w_seq w) = 8%nat;
  ws_rows : length (w_rows w) = 4%nat;
  ws_len : length (w_len w) = 4%nat;
  ws_crc : length (w_crc w) = 4%nat;
}.

(** The number that little-endian bytes stand for: each byte by its weight. *)
Fixpoint weighted (weight : N) (bs : bytes) : N :=
  match bs with [] => 0 | b :: bs => b * weight + weighted (weight * 256) bs end.

Inductive signal_code : byte -> SignalType -> Prop :=
| code_logs : signal_code 0 Logs
| code_metrics : signal_code 1 Metrics
| code_traces : signal_code 2 Traces.

Definition wire_header (w : Wire) (signal : SignalType) : FrameHeader :=
  mkFrameHeader signal (weighted 1 (w_seq w)) (weighted 1 (w_rows w)) (weighted 1 (w_len w))
    (weighted 1 (w_crc w)).

(** The checksum of a frame covers bytes 4 to 24 of the header and the payload. *)
Definition wire_crc (w : Wire) (payload : bytes) : N :=
  crc32 ([w_version w; w_signal w] ++ w_reserved w ++ w_seq w ++ w_rows w ++ w_len w ++ payload).

Definition good_prefix (w : Wire) : Prop := w_magic w = [79; 84; 76; 66] /\ w_version w = 1.

(** [decodes max bs o rest]: reading the next frame of [bs] has outcome [o] and
    leaves [rest]. *)
Inductive decodes (max : N)
  : bytes -> result (option (FrameHeader * RB)) FrameDecodeError -> bytes -> Prop :=
| decodes_end : decodes max [] (Ok None) []
| decodes_torn_header bs : bs <> [] -> (length bs < 28)%nat -> decodes max bs (Err TornFrame) []
| decodes_magic w rest : well_sized w -> w_magic w <> [79; 84; 76; 66] ->
    decodes max (wire_bytes w ++ rest) (Err (InvalidHeader "unexpected frame magic")) rest
| decodes_version w rest : well_sized w -> w_magic w = [79; 84; 76; 66] -> w_version w <> 1 ->
    decodes max (wire_bytes w ++ rest) (Err (InvalidHeader "unsupported frame version")) rest
| decodes_signal w rest : well_sized w -> good_prefix w -> 2 < w_signal w ->
    decodes max (wire_bytes w ++ rest) (Err (InvalidHeader "invalid signal type byte")) rest
| decodes_too_long w signal rest : well_sized w -> good_prefix w -> signal_code (w_signal w) signal ->
    max < weighted 1 (w_len w) ->
    decodes max (wire_bytes w ++ rest)
      (Err (InvalidHeader "frame payload_len exceeds max_payload_len")) rest
| decodes_torn_payload w signal part : well_sized w -> good_prefix w ->
    signal_code (w_signal w) signal -> weighted 1 (w_len w) <= max ->
    N.of_nat (length part) < weighted 1 (w_len w) ->
    decodes max (wire_bytes w ++ part) (Err TornFrame) []
| decodes_crc w signal payload rest : well_sized w -> good_prefix w ->
    signal_code (w_signal w) signal -> weighted 1 (w_len w) <= max ->
    N.of_nat (length payload) = weighted 1 (w_len w) ->
    wire_crc w payload <> weighted 1 (w_crc w) ->
    decodes max (wire_bytes w ++ payload ++ rest)
      (Err (CrcMismatch (wire_header w signal) (wire_crc w payload))) rest
| decodes_ipc w signal payload rest : well_sized w -> good_prefix w ->
    signal_code (w_signal w) signal -> weighted 1 (w_len w) <= max ->
    N.of_nat (length payload) = weighted 1 (w_len w) ->
    wire_crc w payload = weighted 1 (w_crc w) ->
    ipc_decode payload = IpcError \/ ipc_decode payload = IpcNoBatch ->
    decodes max (wire_bytes w ++ payload ++ rest) (Err (IpcDecode (wire_header w signal))) rest
| decodes_batch w signal payload batch rest : well_sized w -> good_prefix w ->
    signal_code (w_signal w) signal -> weighted 1 (w_len w) <= max ->
    N.of_nat (length payload) = weighted 1 (w_len w) ->
    wire_crc w payload = weighted 1 (w_crc w) -> ipc_decode payload = IpcBatch batch ->
    decodes max (wire_bytes w ++ payload ++ rest) (Ok (Some (wire_header w signal, batch))) rest.

(** The same as a function of the bytes, with the decoder's checks: what the
    other files reason with. *)
Definition decode_bytes (bs : bytes) (max_payload_len : N)
  : result (option (FrameHeader * RB)) FrameDecodeError * bytes :=
  match bs with
  | [] => (Ok None, [])
  | _ =>
      if (length bs <? FRAME_HEADER_LEN)%nat then (Err TornFrame, [])
      else
        let hdr := take FRAME_HEADER_LEN bs in
        let rest := drop FRAME_HEADER_LEN bs in
        match parse_header hdr max_payload_len with
        | Err e => (Err e, rest)
        | Ok header =>
            let plen := N.to_nat (fh_payload_len header) in
            if (length rest <? plen)%nat then (Err TornFrame, [])
            else (check_payload hdr header (take plen rest), drop plen rest)
        end
  end.

(** ** Filling buffers *)

Lemma fill_healthy evs need acc :
  healthy evs ->
  let bs := reader_bytes evs in
  exists evs', healthy evs' /\ reader_bytes evs' = drop need bs /\
    fill evs need acc =
      (if (need <=? length bs)%nat then Filled (acc ++ take need bs) else FillEof (acc ++ bs), evs').
Proof.
  intros Hh. revert need acc. induction Hh as [|e evs He Hh IH]; intros need acc; simpl.
  - exists []. destruct need; simpl; rewrite app_nil_r; split_and!; constructor.
  - destruct need as [|need].
    { exists (e :: evs). simpl. rewrite take_0, app_nil_r. split_and!; [by constructor | done..]. }
    destruct e as [bs| | |]; try done.
    destruct bs as [|b bs]; [done|]. cbv zeta in IH.
    set (c := b :: bs) in *. destruct (Nat.leb_spec (length c) (S need)) as [Hle|Hgt].
    + destruct (IH (S need - length c)%nat (acc ++ c)) as (evs' & H1 & H2 & ->).
      exists evs'. rewrite H2, drop_app_ge by done. split_and!; [done..|].
      rewrite length_app, take_app_ge by done. rewrite <- !(assoc_L (++)).
      do 2 case_match; bool_to_prop; first [done | lia].
    + exists (Chunk (drop (S need) c) :: evs). split_and!.
      * constructor; [|done]. intros E. apply (f_equal length) in E. simpl in E.
        rewrite length_drop in E. unfold c in *. simpl in *. lia.
      * rewrite drop_app_le by lia. done.
      * rewrite take_app_le by lia. rewrite length_app. case_match; bool_to_prop; [done|lia].
Qed.

Lemma file_reader_healthy bs : healthy (file_reader bs).
Proof. destruct bs; repeat constructor. done. Qed.

Lemma file_reader_bytes bs : reader_bytes (file_reader bs) = bs.
Proof. destruct bs; [done|]. simpl. by rewrite app_nil_r. Qed.

(** ** The reference decoder *)

Lemma decode_frame_bytes evs max :
  healthy evs ->
  exists evs', healthy evs' /\ reader_bytes evs' = (decode_bytes (reader_bytes evs) max).2 /\
    decode_frame evs max = ((decode_bytes (reader_bytes evs) max).1, evs').
Proof.
  intros Hh. unfold decode_frame, decode_bytes.
  destruct (fill_healthy evs FRAME_HEADER_LEN [] Hh) as (e1 & Hh1 & Hb1 & ->).
  remember (reader_bytes evs) as bs eqn:Ebs. clear Ebs.
  destruct bs as [|b bs'] eqn:Eb; [exists e1; by rewrite Hb1|]. rewrite <- Eb in *.
  rewrite (Nat.leb_antisym (length bs)). destruct (length bs <? FRAME_HEADER_LEN)%nat eqn:Hl; simpl negb; cbv iota.
  - exists e1. rewrite Hb1. subst bs. split_and!; [done| |done]. bool_to_prop.
    apply drop_ge. simpl in *. lia.
  - rewrite app_nil_l. destruct (parse_header _ _) as [h|e]; [|by exists e1].
    destruct (fill_healthy e1 (N.to_nat (fh_payload_len h)) [] Hh1) as (e2 & Hh2 & Hb2 & ->).
    rewrite Hb1 in *. rewrite (Nat.leb_antisym (length (drop _ _))).
    destruct (length (drop _ _) <? _)%nat eqn:Hl2; simpl; exists e2; rewrite Hb2;
      split_and!; try done.
    bool_to_prop. apply drop_ge. lia.
Qed.

(** ** Decoding by the layout *)

Lemma weighted_le_val weight bs : weighted weight bs = weight * le_val bs.
Proof. revert weight. induction bs as [|b bs IH]; intros weight; simpl; [lia|]. rewrite IH. lia. Qed.

Lemma well_sized_length w : well_sized w -> length (wire_bytes w) = FRAME_HEADER_LEN.
Proof. intros []. unfold wire_bytes, FRAME_HEADER_LEN. rewrite !length_app. simpl length at 2. lia. Qed.

Lemma wire_exists bs :
  (28 <= length bs)%nat -> exists w rest, bs = wire_bytes w ++ rest /\ well_sized w.
Proof.
  intros Hl.
  exists (mkWire (slice 0 4 bs) (nth 4 bs 0) (nth 5 bs 0) (slice 6 8 bs) (slice 8 16 bs)
    (slice 16 20 bs) (slice 20 24 bs) (slice 24 28 bs)), (drop 28 bs).
  split; [|split; simpl; rewrite length_slice by lia; done].
  do 28 (destruct bs as [|? bs]; [simpl in Hl; lia|]). reflexivity.
Qed.

Lemma take_wire w rest : well_sized w -> take FRAME_HEADER_LEN (wire_bytes w ++ rest) = wire_bytes w.
Proof. intros Hw. rewrite <- (well_sized_length w Hw). by rewrite take_app_length. Qed.

Lemma drop_wire w rest : well_sized w -> drop FRAME_HEADER_LEN (wire_bytes w ++ rest) = rest.
Proof. intros Hw. rewrite <- (well_sized_length w Hw). by rewrite drop_app_length. Qed.

(** Cuts the lists of a well-sized header into their bytes. *)
Ltac cut_wire w Hw :=
  destruct w as [m v t r sq ro ln cr]; destruct Hw as [H1 H2 H3 H4 H5 H6]; simpl in *;
  destruct m as [|? [|? [|? [|? []]]]]; try discriminate H1;
  destruct r as [|? [|? []]]; try discriminate H2;
  destruct sq as [|? [|? [|? [|? [|? [|? [|? [|? []]]]]]]]]; try discriminate H3;
  destruct ro as [|? [|? [|? [|? []]]]]; try discriminate H4;
  destruct ln as [|? [|? [|? [|? []]]]]; try discriminate H5;
  destruct cr as [|? [|? [|? [|? []]]]]; try discriminate H6.

Lemma parse_wire w max : well_sized w ->
  parse_header (wire_bytes w) max =
    if negb (bool_decide (w_magic w = [79; 84; 76; 66]))
    then Err (InvalidHeader "unexpected frame magic")
    else if negb (bool_decide (w_version w = 1))
    then Err (InvalidHeader "unsupported frame version")
    else
      match from_u8 (w_signal w) with
      | None => Err (InvalidHeader "invalid signal type byte")
      | Some signal =>
          if max <? weighted 1 (w_len w)
          then Err (InvalidHeader "frame payload_len exceeds max_payload_len")
          else Ok (wire_header w signal)
      end.
Proof.
  intros Hw. unfold wire_header. rewrite !weighted_le_val, !N.mul_1_l. cut_wire w Hw.
  unfold parse_header, wire_bytes, slice. cbn [w_magic w_version w_signal w_reserved w_seq w_rows w_len w_crc
    app take drop Nat.sub nth lookup list_lookup firstn skipn].
  change FRAME_MAGIC with [79; 84; 76; 66]. destruct (bool_decide _); [|done]. simpl negb. cbv iota.
  rewrite (bool_decide_ext _ (v = 1)); [done|]. unfold FRAME_VERSION. naive_solver.
Qed.

Lemma crc_wire w payload : well_sized w -> crc32 (slice 4 24 (wire_bytes w) ++ payload) = wire_crc w payload.
Proof. intros Hw. cut_wire w Hw. reflexivity. Qed.

Lemma signal_code_from t s : signal_code t s <-> from_u8 t = Some s.
Proof.
  split; [by intros []|]. destruct t as [|[[]|[]|]]; intros [= <-]; constructor.
Qed.

Lemma signal_code_none t : 2 < t <-> from_u8 t = None.
Proof.
  split; [|destruct t as [|[[]|[]|]]; try done; lia].
  destruct t as [|[[]|[]|]]; simpl; try done; lia.
Qed.

(** Decoding the bytes of a header and what follows them. *)
Lemma decode_wire w tail max : well_sized w ->
  decode_bytes (wire_bytes w ++ tail) max =
    match parse_header (wire_bytes w) max with
    | Err e => (Err e, tail)
    | Ok header =>
        let plen := N.to_nat (fh_payload_len header) in
        if (length tail <? plen)%nat then (Err TornFrame, [])
        else (check_payload (wire_bytes w) header (take plen tail), drop plen tail)
    end.
Proof.
  intros Hw. pose proof (well_sized_length w Hw) as Hl. unfold decode_bytes.
  destruct (wire_bytes w ++ tail) as [|b bs] eqn:E.
  { apply (f_equal length) in E. rewrite length_app, Hl in E. discriminate E. }
  rewrite <- E, take_wire, drop_wire by done.
  destruct (Nat.ltb_spec (length (wire_bytes w ++ tail)) FRAME_HEADER_LEN); [|done].
  rewrite length_app in *. lia.
Qed.

Lemma decodes_sound bs max o rest : decodes max bs o rest -> decode_bytes bs max = (o, rest).
Proof.
  assert (forall w signal, good_prefix w -> well_sized w -> signal_code (w_signal w) signal ->
    weighted 1 (w_len w) <= max -> parse_header (wire_bytes w) max = Ok (wire_header w signal)) as Hp.
  { intros w signal [Hm Hv] Hw Hs Hle. apply signal_code_from in Hs.
    rewrite parse_wire, !bool_decide_true, Hs by done. simpl.
    destruct (N.ltb_spec max (weighted 1 (w_len w))); [lia | done]. }
  assert (forall w signal payload rest, well_sized w -> good_prefix w ->
    signal_code (w_signal w) signal -> weighted 1 (w_len w) <= max ->
    N.of_nat (length payload) = weighted 1 (w_len w) ->
    decode_bytes (wire_bytes w ++ payload ++ rest) max =
      (check_payload (wire_bytes w) (wire_header w signal) payload, rest)) as Hd.
  { intros w signal payload rest' Hw Hg Hs Hle Hlen. rewrite decode_wire, (Hp w signal) by done.
    simpl. rewrite <- Hlen, Nat2N.id, length_app, take_app_length, drop_app_length.
    destruct (Nat.ltb_spec (length payload + length rest') (length payload)); [lia | done]. }
  intros [|bs' Hne Hl|w tail Hw Hm|w tail Hw Hm Hv|w tail Hw [Hm Hv] Hs|w signal tail Hw [Hm Hv] Hs Hlt
    |w signal part Hw Hg Hs Hle Hlt|w signal payload tail Hw Hg Hs Hle Hlen Hc
    |w signal payload tail Hw Hg Hs Hle Hlen Hc Hi|w signal payload batch tail Hw Hg Hs Hle Hlen Hc Hi];
    try (rewrite (Hd w signal) by done; unfold check_payload; rewrite crc_wire by done; simpl).
  - done.
  - unfold decode_bytes. destruct bs' as [|b bs']; [done|].
    destruct (Nat.ltb_spec (length (b :: bs')) FRAME_HEADER_LEN) as [|Hge]; [done|].
    unfold FRAME_HEADER_LEN in Hge. lia.
  - by rewrite decode_wire, parse_wire, bool_decide_false.
  - rewrite decode_wire, parse_wire, bool_decide_true, bool_decide_false by done. done.
  - apply signal_code_none in Hs.
    by rewrite decode_wire, parse_wire, !bool_decide_true, Hs.
  - apply signal_code_from in Hs.
    rewrite decode_wire, parse_wire, !bool_decide_true, Hs by done. simpl.
    destruct (N.ltb_spec max (weighted 1 (w_len w))); [done | lia].
  - rewrite decode_wire, (Hp w signal) by done. simpl.
    destruct (Nat.ltb_spec (length part) (N.to_nat (weighted 1 (w_len w)))); [done | lia].
  - destruct (N.eqb_spec (wire_crc w payload) (weighted 1 (w_crc w))); done.
  - rewrite Hc, N.eqb_refl. simpl. by destruct Hi as [-> | ->].
  - rewrite Hc, N.eqb_refl. simpl. by rewrite Hi.
Qed.

Lemma decodes_complete bs max : decodes max bs (decode_bytes bs max).1 (decode_bytes bs max).2.
Proof.
  destruct (decide (28 <= length bs)%nat) as [Hl|Hl].
  2: { destruct bs as [|b bs]; [constructor|]. unfold decode_bytes.
    destruct (Nat.ltb_spec (length (b :: bs)) FRAME_HEADER_LEN) as [|Hge]; unfold FRAME_HEADER_LEN in *; [|lia].
    constructor; [done | lia]. }
  destruct (wire_exists bs Hl) as (w & tail & -> & Hw). rewrite decode_wire, parse_wire by done.
  case_bool_decide; simpl; [|by constructor]. case_bool_decide; simpl; [|by constructor].
  assert (good_prefix w) as Hg by done.
  destruct (from_u8 (w_signal w)) as [signal|] eqn:Es; simpl.
  2: { apply signal_code_none in Es. by constructor. }
  apply signal_code_from in Es.
  destruct (N.ltb_spec max (weighted 1 (w_len w))); simpl; [by eapply decodes_too_long|].
  destruct (Nat.ltb_spec (length tail) (N.to_nat (weighted 1 (w_len w)))); simpl.
  { eapply decodes_torn_payload; [done..|lia]. }
  rewrite <- (take_drop (N.to_nat (weighted 1 (w_len w))) tail) at 1.
  set (payload := take _ tail). set (rest := drop _ tail).
  assert (N.of_nat (length payload) = weighted 1 (w_len w)).
  { unfold payload. rewrite length_take. lia. }
  unfold check_payload. rewrite crc_wire by done. simpl.
  destruct (N.eqb_spec (wire_crc w payload) (weighted 1 (w_crc w))); simpl; [|by constructor].
  destruct (ipc_decode payload) eqn:Ei; first [by apply decodes_batch | apply decodes_ipc; auto].
Qed.

(** Reading from a file in memory leaves the rest of the file. *)
Lemma fill_file bs need :
  fill (file_reader bs) need [] =
    if (need <=? length bs)%nat then (Filled (take need bs), file_reader (drop need bs))
    else (FillEof bs, []).
Proof.
  destruct need as [|need]; [by destruct bs|]. destruct bs as [|b bs]; [done|].
  unfold file_reader. set (c := b :: bs). cbn [fill]. subst c.
  destruct (Nat.leb_spec (length (b :: bs)) (S need)) as [Hle|Hgt].
  - destruct (Nat.leb_spec (S need) (length (b :: bs))).
    + replace (S need) with (length (b :: bs)) by lia.
      by rewrite Nat.sub_diag, drop_all, firstn_all.
    + rewrite app_nil_l. destruct (S need - length (b :: bs))%nat eqn:E; [lia | done].
  - destruct (Nat.leb_spec (S need) (length (b :: bs))); [|lia]. f_equal.
    destruct (drop (S need) (b :: bs)) eqn:E; [|done].
    apply (f_equal length) in E. rewrite length_drop in E. simpl in *. lia.
Qed.

Lemma decode_file bs max :
  decode_frame (file_reader bs) max = ((decode_bytes bs max).1, file_reader (decode_bytes bs max).2).
Proof.
  unfold decode_frame, decode_bytes. rewrite fill_file.
  destruct bs as [|b bs'] eqn:Eb; [done|]. rewrite <- Eb.
  rewrite Nat.leb_antisym. destruct (length bs <? FRAME_HEADER_LEN)%nat; simpl negb; cbv iota.
  { by subst bs. }
  destruct (parse_header _ _) as [h|e]; [|done]. rewrite fill_file, Nat.leb_antisym. cbv zeta.
  by destruct (length (drop _ _) <? _)%nat.
Qed.

(** ** Headers *)

Definition header_in_range (h : FrameHeader) : Prop :=
  fh_seq_id h <= u64_max /\ fh_row_count h <= u32_max /\
  fh_payload_len h <= u32_max /\ fh_crc32 h <= u32_max.

Lemma le_val_le_bytes_8 x : x <= u64_max -> le_val (le_bytes 8 x) = x.
Proof. intros ?. apply le_val_le_bytes. unfold u64_max in *. change (256 ^ N.of_nat 8) with 18446744073709551616. lia. Qed.

Lemma le_val_le_bytes_4 x : x <= u32_max -> le_val (le_bytes 4 x) = x.
Proof. intros ?. apply le_val_le_bytes. unfold u32_max in *. change (256 ^ N.of_nat 4) with 4294967296. lia. Qed.

Lemma length_header_bytes h : length (header_bytes h) = FRAME_HEADER_LEN.
Proof. reflexivity. Qed.

Lemma parse_header_bytes h max :
  header_in_range h ->
  parse_header (header_bytes h) max =
    if max <? fh_payload_len h then Err (InvalidHeader "frame payload_len exceeds max_payload_len")
    else Ok h.
Proof.
  intros (Hs & Hr & Hp & Hc). unfold parse_header.
  change (slice 0 4 (header_bytes h)) with FRAME_MAGIC.
  change (header_bytes h !! 4%nat) with (Some FRAME_VERSION).
  rewrite !bool_decide_eq_true_2 by done. cbn [negb].
  change (nth 5 (header_bytes h) 0) with (as_u8 (fh_signal h)). rewrite from_u8_as_u8.
  change (slice 8 16 (header_bytes h)) with (le_bytes 8 (fh_seq_id h)).
  change (slice 16 20 (header_bytes h)) with (le_bytes 4 (fh_row_count h)).
  change (slice 20 24 (header_bytes h)) with (le_bytes 4 (fh_payload_len h)).
  change (slice 24 28 (header_bytes h)) with (le_bytes 4 (fh_crc32 h)).
  rewrite le_val_le_bytes_8, !le_val_le_bytes_4 by done. by destruct h.
Qed.

(** ** What encoding produces *)

(** A frame of [batch]: the header fields and the bytes. *)
Record is_frame (signal : SignalType) (seq_id : N) (batch : RB) (h : FrameHeader) (frame payload : bytes)
  : Prop := {
  isf_ipc : ipc_encode batch = Some payload;
  isf_signal : fh_signal h = signal;
  isf_seq : fh_seq_id h = seq_id;
  isf_rows : fh_row_count h = num_rows batch;
  isf_rows_bound : num_rows batch <= u32_max;
  isf_len : fh_payload_len h = N.of_nat (length payload);
  isf_len_bound : N.of_nat (length payload) <= u32_max;
  isf_crc : fh_crc32 h = crc32 (slice 4 24 (header_bytes h) ++ payload);
  isf_bytes : frame = header_bytes h ++ payload;
}.

Lemma encode_frame_ok signal seq_id batch out h out' :
  encode_frame signal seq_id batch out = Ok (h, out') ->
  exists frame payload, out' = out ++ frame /\ is_frame signal seq_id batch h frame payload.
Proof.
  unfold encode_frame. destruct (try_from u32_max (num_rows batch)) as [rows|] eqn:Er; cbn [ok_or]; [|done].
  apply try_from_Some in Er as [-> Hr].
  destruct (ipc_encode batch) as [p|] eqn:Ep; cbn [ok_or]; [|done].
  rewrite !length_app, repeat_length.
  replace (_ -s _) with (N.of_nat (length p)) by (unfold sat_sub; lia).
  destruct (try_from u32_max (N.of_nat (length p))) as [l|] eqn:El; cbn [ok_or]; [|done].
  apply try_from_Some in El as [-> Hl].
  set (hs := length out).
  replace (slice hs (hs + FRAME_HEADER_LEN) ((out ++ repeat 0 FRAME_HEADER_LEN) ++ p))
    with (repeat 0 FRAME_HEADER_LEN).
  2:{ rewrite <- (assoc_L (++)), slice_app_r by (subst hs; lia). fold hs.
      rewrite Nat.sub_diag, Nat.add_comm, Nat.add_sub.
      rewrite slice_app_l by (rewrite repeat_length; lia). by rewrite slice_all by apply repeat_length. }
  set (pre := header_prefix signal seq_id (num_rows batch) (N.of_nat (length p))).
  change (copy_at 20 _ _) with (pre ++ repeat 0 4).
  rewrite <- (assoc_L (++) out), copy_at_app by done.
  replace (slice (hs + 4) (hs + 24) (out ++ (pre ++ repeat 0 4) ++ p)) with (slice 4 24 pre).
  2:{ rewrite slice_app_r by (subst hs; lia). fold hs.
      rewrite !(Nat.add_comm hs), !Nat.add_sub. reflexivity. }
  replace (drop (hs + FRAME_HEADER_LEN) (out ++ (pre ++ repeat 0 4) ++ p)) with p.
  2:{ subst hs. rewrite drop_app_add. reflexivity. }
  set (crc := crc32 _).
  replace (copy_at (hs + 24) (le_bytes 4 crc) (out ++ (pre ++ repeat 0 4) ++ p))
    with (out ++ pre ++ le_bytes 4 crc ++ p).
  2:{ rewrite <- (assoc_L (++) pre), !(assoc_L (++) out pre).
      rewrite copy_at_app; [done | rewrite length_app; reflexivity | done]. }
  intros [= <- <-]. exists (pre ++ le_bytes 4 crc ++ p), p. split; [done|]. by split.
Qed.

Lemma is_frame_in_range signal seq_id batch h frame payload :
  seq_id <= u64_max -> is_frame signal seq_id batch h frame payload -> header_in_range h.
Proof.
  intros Hs F. destruct F. split_and!; try congruence; try lia.
  rewrite isf_crc0. apply crc32_bound.
Qed.

Lemma is_frame_length signal seq_id batch h frame payload :
  is_frame signal seq_id batch h frame payload ->
  length frame = (FRAME_HEADER_LEN + N.to_nat (fh_payload_len h))%nat.
Proof.
  intros F. destruct F as [_ _ _ _ _ Hl _ _ ->]. rewrite length_app, length_header_bytes, Hl. lia.
Qed.

Lemma decode_bytes_cons bs max :
  (0 < length bs)%nat ->
  decode_bytes bs max =
    if (length bs <? FRAME_HEADER_LEN)%nat then (Err TornFrame, [])
    else
      let rest := drop FRAME_HEADER_LEN bs in
      match parse_header (take FRAME_HEADER_LEN bs) max with
      | Err e => (Err e, rest)
      | Ok header =>
          let plen := N.to_nat (fh_payload_len header) in
          if (length rest <? plen)%nat then (Err TornFrame, [])
          else (check_payload (take FRAME_HEADER_LEN bs) header (take plen rest), drop plen rest)
      end.
Proof. destruct bs; simpl; [lia | done]. Qed.

(** A whole frame decodes, whatever follows it. *)
Lemma decode_bytes_frame `{!ArrowLaws RB Sch Row} signal seq_id batch h frame payload rest max :
  seq_id <= u64_max -> is_frame signal seq_id batch h frame payload -> fh_payload_len h <= max ->
  decode_bytes (frame ++ rest) max = (Ok (Some (h, batch)), rest).
Proof.
  intros Hs F Hmax. pose proof (is_frame_in_range _ _ _ _ _ _ Hs F) as Hr. destruct F.
  assert (Hb : frame ++ rest = header_bytes h ++ payload ++ rest).
  { by rewrite isf_bytes0, <- (assoc_L (++)). }
  rewrite Hb. rewrite decode_bytes_cons by (rewrite length_app; unfold header_bytes; simpl; lia).
  rewrite length_app, length_header_bytes.
  destruct (Nat.ltb_spec (FRAME_HEADER_LEN + length (payload ++ rest)) FRAME_HEADER_LEN); [lia|].
  rewrite (take_app_length' _ _ FRAME_HEADER_LEN), (drop_app_length' _ _ FRAME_HEADER_LEN) by done.
  rewrite parse_header_bytes by done. destruct (N.ltb_spec max (fh_payload_len h)); [lia|].
  cbv zeta. rewrite isf_len0, Nat2N.id, length_app.
  destruct (Nat.ltb_spec (length payload + length rest) (length payload)); [lia|].
  rewrite take_app_length, drop_app_length. unfold check_payload.
  rewrite <- isf_crc0, N.eqb_refl. simpl. by rewrite (ipc_round_trip _ _ isf_ipc0).
Qed.

(** A proper, non-empty prefix of a frame is torn. *)
Lemma decode_bytes_torn signal seq_id batch h frame payload max k :
  seq_id <= u64_max -> is_frame signal seq_id batch h frame payload -> fh_payload_len h <= max ->
  (0 < k < length frame)%nat ->
  decode_bytes (take k frame) max = (Err TornFrame, []).
Proof.
  intros Hs F Hmax Hk. pose proof (is_frame_in_range _ _ _ _ _ _ Hs F) as Hr. destruct F.
  rewrite decode_bytes_cons by (rewrite length_take; lia).
  rewrite length_take, Nat.min_l by lia. destruct (Nat.ltb_spec k FRAME_HEADER_LEN); [done|].
  subst frame. rewrite take_take, Nat.min_l by lia.
  rewrite (take_app_length' _ _ FRAME_HEADER_LEN) by done.
  rewrite parse_header_bytes by done. destruct (N.ltb_spec max (fh_payload_len h)); [lia|]. cbv zeta.
  rewrite length_app, length_header_bytes in Hk.
  rewrite length_drop, length_take, length_app, length_header_bytes, isf_len0, Nat2N.id.
  destruct (Nat.ltb_spec (k `min` (FRAME_HEADER_LEN + length payload) - FRAME_HEADER_LEN) (length payload));
    [done|lia].
Qed.

(** ** Patching *)

Lemma patch_is_frame signal q batch h frame payload seq_id :
  is_frame signal q batch h frame payload ->
  exists frame' h', patch_frame_seq_id frame h seq_id = Ok (frame', h') /\
    is_frame signal seq_id batch h' frame' payload.
Proof.
  intros F. pose proof (is_frame_length _ _ _ _ _ _ F) as Hlen. destruct F.
  unfold patch_frame_seq_id. rewrite sat_add_exact by (unfold FRAME_HEADER_LEN, u32_max, usize_max, u64_max in *; lia).
  rewrite Hlen. destruct (N.ltb_spec (N.of_nat (FRAME_HEADER_LEN + N.to_nat (fh_payload_len h)))
    (N.of_nat FRAME_HEADER_LEN)); [lia|].
  destruct (N.eqb_spec (N.of_nat (FRAME_HEADER_LEN + N.to_nat (fh_payload_len h)))
    (N.of_nat FRAME_HEADER_LEN + fh_payload_len h)); [|lia]. cbn [orb negb].
  subst frame. set (pre := header_prefix signal seq_id (num_rows batch) (N.of_nat (length payload))).
  replace (copy_at 8 (le_bytes 8 seq_id) (header_bytes h ++ payload))
    with (pre ++ le_bytes 4 (fh_crc32 h) ++ payload).
  2:{ subst pre. unfold header_bytes. rewrite isf_signal0, isf_rows0, isf_len0. reflexivity. }
  set (crc := crc32 _).
  exists (pre ++ le_bytes 4 crc ++ payload).
  exists (h <| fh_seq_id := seq_id |> <| fh_crc32 := crc |>). split; [reflexivity|].
  assert (Hh : header_bytes (h <| fh_seq_id := seq_id |> <| fh_crc32 := crc |>) = pre ++ le_bytes 4 crc).
  { change (header_prefix (fh_signal h) seq_id (fh_row_count h) (fh_payload_len h) ++ le_bytes 4 crc
      = pre ++ le_bytes 4 crc). subst pre. by rewrite isf_signal0, isf_rows0, isf_len0. }
  split; try done; rewrite Hh; [done | by rewrite <- (assoc_L (++))].
Qed.

(** ** Splitting *)

Definition frame_fits (signal : SignalType) (max : N) (f : PreEncodedFrame RB) : Prop :=
  exists payload, is_frame signal 0 (pf_batch f) (pf_header f) (pf_bytes f) payload /\
    fh_payload_len (pf_header f) <= max.

Lemma split_sound `{!ArrowLaws RB Sch Row} fuel signal batch max out out' :
  split_and_encode_recursive fuel signal batch max out = Some (Ok out') ->
  exists fs, out' = out ++ fs /\ Forall (frame_fits signal max) fs /\
    concat (map (fun f => rb_rows (pf_batch f)) fs) = rb_rows batch.
Proof.
  revert batch out out'. induction fuel as [|fuel IH]; intros batch out out'; simpl; [done|].
  destruct (encode_frame signal 0 batch []) as [[h fr]|e] eqn:Ee; [|done].
  destruct (encode_frame_ok _ _ _ _ _ _ Ee) as (frame & payload & -> & F).
  destruct (N.leb_spec (fh_payload_len h) max).
  { intros [= <-]. exists [mkPreEncodedFrame h frame batch]. split_and!; [done| |simpl; by rewrite app_nil_r].
    repeat constructor. by exists payload. }
  destruct (N.leb_spec (num_rows batch) 1); [done|].
  set (mid := num_rows batch / 2).
  assert (Hmid : mid <= num_rows batch) by (apply N.Div0.div_le_upper_bound; lia).
  destruct (split_and_encode_recursive fuel signal (rb_slice batch 0 mid) max out) as [[o1|]|] eqn:E1; try done.
  intros E2. apply IH in E1 as (f1 & -> & Hf1 & Hr1). apply IH in E2 as (f2 & -> & Hf2 & Hr2).
  exists (f1 ++ f2). split_and!; [by rewrite (assoc_L (++)) | by apply Forall_app |].
  rewrite map_app, concat_app, Hr1, Hr2, !rb_rows_slice by lia.
  rewrite drop_0, (take_ge (drop _ _)); [apply take_drop|].
  rewrite length_drop. unfold num_rows. lia.
Qed.

Lemma split_enough_fuel `{!ArrowLaws RB Sch Row} n signal batch max out :
  num_rows batch <= 2 ^ N.of_nat n ->
  split_and_encode_recursive (S n) signal batch max out <> None.
Proof.
  revert batch out. induction n as [|n IH]; intros batch out Hr.
  - cbn [split_and_encode_recursive]. destruct (encode_frame _ _ _ _) as [[h fr]|]; [|done]. case_match; [done|].
    simpl in Hr. destruct (N.leb_spec (num_rows batch) 1); [done|lia].
  - remember (S n) as m eqn:Em. cbn [split_and_encode_recursive].
    destruct (encode_frame _ _ _ _) as [[h fr]|]; [|done]. case_match; [done|].
    destruct (N.leb_spec (num_rows batch) 1); [done|].
    set (mid := num_rows batch / 2).
    rewrite Em, Nat2N.inj_succ, N.pow_succ_r' in Hr.
    assert (Hmid : mid <= 2 ^ N.of_nat n /\ num_rows batch - mid <= 2 ^ N.of_nat n /\ mid <= num_rows batch).
    { subst mid. pose proof (N.div_mod (num_rows batch) 2 ltac:(lia)).
      pose proof (N.mod_lt (num_rows batch) 2 ltac:(lia)).
      set (P := 2 ^ N.of_nat n) in *. clearbody P.
      generalize dependent (num_rows batch mod 2). generalize dependent (num_rows batch / 2).
      clear IH. intros. lia. }
    destruct Hmid as (Hm1 & Hm2 & Hm3).
    pose proof (IH (rb_slice batch 0 mid) out) as IH1.
    rewrite num_rows_slice in IH1 by lia. specialize (IH1 Hm1).
    destruct (split_and_encode_recursive m signal (rb_slice batch 0 mid) max out) as [[o|]|]; try done.
    apply IH. rewrite num_rows_slice by lia. done.
Qed.

Lemma split_too_many_rows n signal batch max out :
  u32_max < num_rows batch -> split_and_encode_recursive (S n) signal batch max out <> None.
Proof.
  intros Hr. cbn [split_and_encode_recursive]. unfold encode_frame.
  destruct (try_from u32_max (num_rows batch)) eqn:E; [|done].
  apply try_from_Some in E as [_ E]. lia.
Qed.

Lemma split_within_fuel `{!ArrowLaws RB Sch Row} signal batch max out :
  split_and_encode_recursive split_fuel signal batch max out <> None.
Proof.
  destruct (N.leb_spec (num_rows batch) (2 ^ N.of_nat 32)).
  - by apply (split_enough_fuel 32).
  - apply (split_too_many_rows 32). change (2 ^ N.of_nat 32) with (u32_max + 1) in *. lia.
Qed.

End Frame.

(** ** Properties *)

Section Properties.
Context {RB Sch Row : Type} `{ArrowLaws RB Sch Row} `{Crc}.


(** What [encode_frame] appends decodes to the header it returned and
    the batch it was given, from any healthy reader, leaving exactly the bytes
    that followed the frame. *)
Theorem frame_round_trip signal seq_id batch out h out' evs rest max :
  seq_id <= u64_max -> encode_frame signal seq_id batch out = Ok (h, out') ->
  fh_payload_len h <= max -> healthy evs -> reader_bytes evs = drop (length out) out' ++ rest ->
  exists evs', healthy evs' /\ reader_bytes evs' = rest /\
    decode_frame evs max = (Ok (Some (h, batch)), evs').
Proof.
  intros Hs He Hmax Hh Hb. destruct (encode_frame_ok _ _ _ _ _ _ He) as (fr & p & -> & F).
  rewrite drop_app_length in Hb. destruct (decode_frame_bytes evs max Hh) as (evs' & Hh' & Hb' & ->).
  exists evs'. rewrite Hb, (decode_bytes_frame _ _ _ _ _ _ _ _ Hs F Hmax) in *. done.
Qed.

(** A non-empty proper prefix of a written frame is reported as
    [TornFrame], at every cut point: it is never taken for a frame, for a
    clean end of file or for corruption. *)
Theorem torn_frame signal seq_id batch out h out' evs max k :
  seq_id <= u64_max -> encode_frame signal seq_id batch out = Ok (h, out') ->
  fh_payload_len h <= max -> healthy evs ->
  (0 < k < length out' - length out)%nat -> reader_bytes evs = take k (drop (length out) out') ->
  exists evs', decode_frame evs max = (Err TornFrame, evs').
Proof.
  intros Hs He Hmax Hh Hk Hb. destruct (encode_frame_ok _ _ _ _ _ _ He) as (fr & p & -> & F).
  rewrite length_app in Hk. rewrite drop_app_length in Hb.
  destruct (decode_frame_bytes evs max Hh) as (evs' & _ & _ & ->).
  exists evs'. rewrite Hb, (decode_bytes_torn _ _ _ _ _ _ _ k Hs F Hmax) by lia. done.
Qed.

(** Nothing is accepted that was not checked: a decoded header and batch
    come from 28 header bytes with the magic, the version and a known signal
    tag, a payload of the announced length within the limit, and a matching
    checksum. *)
Theorem decode_sound evs max h batch evs' :
  healthy evs -> decode_frame evs max = (Ok (Some (h, batch)), evs') ->
  exists hdr payload, reader_bytes evs = hdr ++ payload ++ reader_bytes evs' /\
    length hdr = FRAME_HEADER_LEN /\ slice 0 4 hdr = FRAME_MAGIC /\
    hdr !! 4%nat = Some FRAME_VERSION /\ nth 5 hdr 0 = as_u8 (fh_signal h) /\
    fh_seq_id h = le_val (slice 8 16 hdr) /\
    N.of_nat (length payload) = fh_payload_len h /\ fh_payload_len h <= max /\
    fh_crc32 h = crc32 (slice 4 24 hdr ++ payload) /\ ipc_decode payload = IpcBatch batch.
Proof.
  intros Hh. destruct (decode_frame_bytes evs max Hh) as (e & _ & Hb & ->). intros [= Hd <-].
  rewrite Hb. clear Hb. revert Hd. set (bs := reader_bytes evs). unfold decode_bytes.
  destruct bs as [|b bs'] eqn:Ebs; [done|]. rewrite <- Ebs. clearbody bs. clear Ebs.
  destruct (Nat.ltb_spec (length bs) FRAME_HEADER_LEN) as [|Hl]; [done|]. cbn zeta.
  set (hdr := take FRAME_HEADER_LEN bs). set (rest := drop FRAME_HEADER_LEN bs).
  destruct (parse_header hdr max) as [h'|] eqn:Ep; [|done].
  destruct (Nat.ltb_spec (length rest) (N.to_nat (fh_payload_len h'))) as [|Hl2]; [done|]. simpl.
  unfold check_payload. destruct (N.eqb_spec (crc32 (slice 4 24 hdr ++ take (N.to_nat (fh_payload_len h')) rest))
    (fh_crc32 h')) as [Hc|]; [|done]. simpl.
  destruct (ipc_decode _) as [| |b2] eqn:Ei; try done. intros [= -> ->].
  exists hdr, (take (N.to_nat (fh_payload_len h)) rest).
  rewrite (take_drop (N.to_nat (fh_payload_len h)) rest). unfold rest at 1. unfold hdr at 1. rewrite take_drop.
  revert Ep. unfold parse_header. do 2 (case_bool_decide; simpl; [|done]).
  destruct (from_u8 (nth 5 hdr 0)) as [s|] eqn:Es; [|done].
  destruct (N.ltb_spec max (le_val (slice 20 24 hdr))); [done|]. intros [= <-].
  split_and!; try done; [| simpl; by rewrite (as_u8_from_u8 _ _ Es) |].
  - unfold hdr. rewrite length_take. lia.
  - rewrite length_take. simpl in *. lia.
Qed.

(** Patching the placeholder sequence number of a pre-encoded frame and
    decoding the result gives the new sequence number, a valid checksum and the
    same batch, at the same length: no re-encoding is needed. *)
Theorem patch_round_trip signal batch h frame rest seq_id max :
  seq_id <= u64_max -> encode_frame signal 0 batch [] = Ok (h, frame) ->
  fh_payload_len h <= max ->
  exists frame' h', patch_frame_seq_id frame h seq_id = Ok (frame', h') /\
    length frame' = length frame /\ fh_seq_id h' = seq_id /\
    decode_frame (file_reader (frame' ++ rest)) max = (Ok (Some (h', batch)), file_reader rest).
Proof.
  intros Hs He Hmax. destruct (encode_frame_ok _ _ _ _ _ _ He) as (fr & p & E & F).
  simpl in E. subst fr. destruct (patch_is_frame _ _ _ _ _ _ seq_id F) as (fr' & h' & Hp & F').
  exists fr', h'. rewrite decode_file, (is_frame_length _ _ _ _ _ _ F), (is_frame_length _ _ _ _ _ _ F').
  assert (fh_payload_len h' = fh_payload_len h) as El by (destruct F, F'; congruence).
  rewrite (decode_bytes_frame _ _ _ _ _ _ _ _ Hs F') by lia. rewrite El. by destruct F'.
Qed.

(** Splitting always terminates within its fuel; when it succeeds, the
    frames hold consecutive row ranges that concatenate to the batch, and each
    frame's payload is within the limit and decodes to its rows. *)
Theorem split_covers signal batch max :
  match split_and_encode_frames_for_disk signal batch max with
  | None => False
  | Some (Err _) => True
  | Some (Ok fs) =>
      concat (map (fun f => rb_rows (pf_batch f)) fs) = rb_rows batch /\
      Forall (fun f => fh_payload_len (pf_header f) <= max /\
        decode_frame (file_reader (pf_bytes f)) max = (Ok (Some (pf_header f, pf_batch f)), [])) fs
  end.
Proof.
  unfold split_and_encode_frames_for_disk.
  destruct (split_and_encode_recursive split_fuel signal batch max []) as [[fs|e]|] eqn:Es; [|done|].
  - apply split_sound in Es as (fs' & -> & Hf & Hr). split; [done|].
    eapply Forall_impl; [exact Hf|]. intros f (p & F & Hle). split; [done|].
    rewrite decode_file, <- (app_nil_r (pf_bytes f)).
    by rewrite (decode_bytes_frame _ _ _ _ _ _ _ _ (N.le_0_l u64_max) F Hle).
  - by apply split_within_fuel in Es.
Qed.
End Properties.

(** ** Witnesses, on the concrete instance *)

Section Witnesses.
Import Toy.

Definition toy_batch : batch := (7, [10; 20; 30; 40; 50]).
Definition toy_frame : FrameHeader * bytes :=
  match encode_frame Traces 9 toy_batch [1; 2] with Ok r => r | Err _ => (mkFrameHeader Logs 0 0 0 0, []) end.

Definition toy_placeholder : FrameHeader * bytes :=
  match encode_frame Logs 0 toy_batch [] with Ok r => r | Err _ => toy_frame end.

(** A reader that delivers [bs] one byte at a time, interrupted before each. *)
Definition dribble (bs : bytes) : reader := flat_map (fun b => [Interrupted; Chunk [b]]) bs.

Lemma dribble_healthy bs : healthy (dribble bs).
Proof. induction bs; repeat constructor; done. Qed.

Lemma dribble_bytes bs : reader_bytes (dribble bs) = bs.
Proof. induction bs as [|b bs IH]; [done|]. simpl. by f_equal. Qed.


Lemma frame_round_trip_witness :
  exists evs', healthy evs' /\ reader_bytes evs' = [5; 5] /\
    decode_frame (dribble (drop 2 toy_frame.2 ++ [5; 5])) 100 = (Ok (Some (toy_frame.1, toy_batch)), evs').
Proof.
  apply (frame_round_trip Traces 9 toy_batch [1; 2] toy_frame.1 toy_frame.2 _ [5; 5]).
  - vm_compute; discriminate.
  - reflexivity.
  - vm_compute; discriminate.
  - apply dribble_healthy.
  - apply dribble_bytes.
Defined.

Lemma torn_frame_witness :
  exists evs', decode_frame (RB := batch) (dribble (take 30 (drop 2 toy_frame.2))) 100 = (Err TornFrame, evs').
Proof.
  apply (torn_frame Traces 9 toy_batch [1; 2] toy_frame.1 toy_frame.2 _ 100 30).
  - vm_compute; discriminate.
  - reflexivity.
  - vm_compute; discriminate.
  - apply dribble_healthy.
  - vm_compute; lia.
  - apply dribble_bytes.
Defined.

Lemma decode_sound_witness :
  exists hdr payload, drop 2 toy_frame.2 = hdr ++ payload ++ [] /\
    length hdr = FRAME_HEADER_LEN /\ slice 0 4 hdr = FRAME_MAGIC /\
    hdr !! 4%nat = Some FRAME_VERSION /\ nth 5 hdr 0 = 2 /\ 9 = le_val (slice 8 16 hdr) /\
    N.of_nat (length payload) = 6 /\ 6 <= 100 /\
    fh_crc32 toy_frame.1 = crc32 (slice 4 24 hdr ++ payload) /\ ipc_decode payload = IpcBatch toy_batch.
Proof.
  apply (decode_sound (file_reader (drop 2 toy_frame.2)) 100 toy_frame.1 toy_batch []).
  - apply file_reader_healthy.
  - reflexivity.
Defined.

Lemma patch_round_trip_witness :
  exists frame' h', patch_frame_seq_id toy_placeholder.2 toy_placeholder.1 77
    = Ok (frame', h') /\ length frame' = length toy_placeholder.2 /\ fh_seq_id h' = 77 /\
    decode_frame (file_reader (frame' ++ [1])) 6 = (Ok (Some (h', toy_batch)), [Chunk [1]]).
Proof.
  apply (patch_round_trip Logs toy_batch toy_placeholder.1 toy_placeholder.2 [1] 77 6).
  - vm_compute; discriminate.
  - reflexivity.
  - vm_compute; discriminate.
Defined.

Lemma split_covers_witness :
  (exists f1 f2 f3, split_and_encode_frames_for_disk Logs toy_batch 3 = Some (Ok [f1; f2; f3])) /\
  match split_and_encode_frames_for_disk Logs toy_batch 3 with
  | None => False
  | Some (Err _) => True
  | Some (Ok fs) =>
      concat (map (fun f => rb_rows (pf_batch f)) fs) = rb_rows toy_batch /\
      Forall (fun f => fh_payload_len (pf_header f) <= 3 /\
        decode_frame (file_reader (pf_bytes f)) 3 = (Ok (Some (pf_header f, pf_batch f)), [])) fs
  end.
Proof.
  split; [do 3 eexists; vm_compute; reflexivity | apply (split_covers Logs toy_batch 3)].
Defined.
End Witnesses.
