(* ===== verification/Ring.v ===== *)
(** Signal rings: crates/core/src/buffer/memory.rs.

    A ring holds the FIFO queue of unleased batches, the table of active
    sequence numbers, and the byte and row accounts.  [committed_seq] is the
    contiguous low watermark.  [ring_inv] is the representation invariant; its
    first argument is a ghost map from each active sequence number to the bytes
    and rows charged for it. *)

From S2P Require Import Prelude Arrow Signal.
Local Open Scope N_scope.

Inductive LeaseSlotState := Reserved | Queued | InFlight.

Global Instance LeaseSlotState_eq_dec : EqDecision LeaseSlotState.
Proof. solve_decision. Defined.

Inductive BatchPayload (RB Sch : Type) : Type :=
| InMemory (batch : RB)
| OnDisk (segment_id offset len rows : N) (schema : Sch).
Arguments InMemory {RB Sch} batch.
Arguments OnDisk {RB Sch} segment_id offset len rows schema.

(** Instants are nanoseconds on the monotonic clock. *)
Abbreviation instant := N.

Record QueuedBatch (RB Sch : Type) := mkQueuedBatch {
  qb_seq_id : N;
  qb_payload : BatchPayload RB Sch;
  qb_byte_size : N;
  qb_row_count : N;
  qb_enqueued_at : instant;
  qb_first_failed_at : option instant;
  qb_attempt : N;
  qb_ready_at : option instant;
}.
Arguments mkQueuedBatch {RB Sch} _ _ _ _ _ _ _ _.
Arguments qb_seq_id {RB Sch} _.
Arguments qb_payload {RB Sch} _.
Arguments qb_byte_size {RB Sch} _.
Arguments qb_row_count {RB Sch} _.
Arguments qb_enqueued_at {RB Sch} _.
Arguments qb_first_failed_at {RB Sch} _.
Arguments qb_attempt {RB Sch} _.
Arguments qb_ready_at {RB Sch} _.

Global Instance QueuedBatch_eta {RB Sch} : RecordEta (QueuedBatch RB Sch) := fun r =>
  mkQueuedBatch (qb_seq_id r) (qb_payload r) (qb_byte_size r) (qb_row_count r) (qb_enqueued_at r)
    (qb_first_failed_at r) (qb_attempt r) (qb_ready_at r).

Record LeasedBatchMeta := mkLeasedBatchMeta {
  lm_seq_id : N;
  lm_byte_size : N;
  lm_row_count : N;
  lm_enqueued_at : instant;
  lm_first_failed_at : option instant;
}.

Record SignalRing (RB Sch : Type) := mkSignalRing {
  queue : list (QueuedBatch RB Sch);
  slots : gmap N LeaseSlotState;
  inflight_enqueued_at : gmap N instant;
  next_seq : N;
  bytes_in_flight : N;
  rows_in_flight : N;
  inflight_leases : N;
  evicted_records : N;
  evicted_unreclaimed_bytes : gmap N N;
  unreclaimed_disk_bytes : N;
  closed : bool;
  receiver_dropped : bool;
  ring_fatal_error : option string;
}.
Arguments mkSignalRing {RB Sch} _ _ _ _ _ _ _ _ _ _ _ _ _.
Arguments queue {RB Sch} _.
Arguments slots {RB Sch} _.
Arguments inflight_enqueued_at {RB Sch} _.
Arguments next_seq {RB Sch} _.
Arguments bytes_in_flight {RB Sch} _.
Arguments rows_in_flight {RB Sch} _.
Arguments inflight_leases {RB Sch} _.
Arguments evicted_records {RB Sch} _.
Arguments evicted_unreclaimed_bytes {RB Sch} _.
Arguments unreclaimed_disk_bytes {RB Sch} _.
Arguments closed {RB Sch} _.
Arguments receiver_dropped {RB Sch} _.
Arguments ring_fatal_error {RB Sch} _.

Global Instance SignalRing_eta {RB Sch} : RecordEta (SignalRing RB Sch) := fun r =>
  mkSignalRing (queue r) (slots r) (inflight_enqueued_at r) (next_seq r) (bytes_in_flight r)
    (rows_in_flight r) (inflight_leases r) (evicted_records r) (evicted_unreclaimed_bytes r)
    (unreclaimed_disk_bytes r) (closed r) (receiver_dropped r) (ring_fatal_error r).

(** [SignalRingState]: the ring behind its mutex and the atomics beside it; the
    two [Notify] handles carry no data. *)
Record SignalRingState (RB Sch : Type) := mkSignalRingState {
  ring : SignalRing RB Sch;
  committed_seq : N;
  active_senders : N;
  corruption_drops : N;
  replayed_records : N;
  dead_letter_drops : N;
  shutdown_timeout_drops : N;
  blocked_senders : N;
  blocked_since_unix_ms : N;
  first_transient_failure_unix_ms : N;
}.
Arguments mkSignalRingState {RB Sch} _ _ _ _ _ _ _ _ _ _.
Arguments ring {RB Sch} _.
Arguments committed_seq {RB Sch} _.
Arguments active_senders {RB Sch} _.
Arguments corruption_drops {RB Sch} _.
Arguments replayed_records {RB Sch} _.
Arguments dead_letter_drops {RB Sch} _.
Arguments shutdown_timeout_drops {RB Sch} _.
Arguments blocked_senders {RB Sch} _.
Arguments blocked_since_unix_ms {RB Sch} _.
Arguments first_transient_failure_unix_ms {RB Sch} _.

Global Instance SignalRingState_eta {RB Sch} : RecordEta (SignalRingState RB Sch) := fun r =>
  mkSignalRingState (ring r) (committed_seq r) (active_senders r) (corruption_drops r)
    (replayed_records r) (dead_letter_drops r) (shutdown_timeout_drops r) (blocked_senders r)
    (blocked_since_unix_ms r) (first_transient_failure_unix_ms r).

Section Ring.
Context {RB Sch Row : Type} `{Arrow RB Sch Row}.

Definition payload_schema (p : BatchPayload RB Sch) : Sch :=
  match p with
  | InMemory batch => rb_schema batch
  | OnDisk _ _ _ _ schema => schema
  end.

Definition new_ring : SignalRing RB Sch :=
  mkSignalRing [] ∅ ∅ 1 0 0 0 0 ∅ 0 false false None.

Definition new_ring_state : SignalRingState RB Sch :=
  mkSignalRingState new_ring 0 0 0 0 0 0 0 0 0.

(** [enqueue_ordered] on the queue. *)
Definition enqueue_queue (item : QueuedBatch RB Sch) (q : list (QueuedBatch RB Sch))
  : list (QueuedBatch RB Sch) :=
  if (match last q with None => true | Some back => qb_seq_id back <? qb_seq_id item end)
  then q ++ [item]
  else if (match head q with Some front => qb_seq_id item <? qb_seq_id front | None => false end)
  then item :: q
  else
    let pos := match position (fun existing => qb_seq_id item <? qb_seq_id existing) q with
               | Some pos => pos
               | None => length q
               end in
    take pos q ++ item :: drop pos q.

Definition enqueue_ordered (r : SignalRing RB Sch) (item : QueuedBatch RB Sch) : SignalRing RB Sch :=
  r <| queue := enqueue_queue item (queue r) |>.

(** The [while let] of [advance_watermark]: one iteration per released entry. *)
Fixpoint release_evicted (fuel : nat) (watermark : N) (evicted : gmap N N) (unreclaimed : N)
  : gmap N N * N :=
  match fuel with
  | O => (evicted, unreclaimed)
  | S fuel =>
      match first_key evicted with
      | None => (evicted, unreclaimed)
      | Some seq =>
          if seq <=? watermark
          then
            match evicted !! seq with
            | Some n => release_evicted fuel watermark (delete seq evicted) (unreclaimed -s n)
            | None => release_evicted fuel watermark evicted unreclaimed
            end
          else (evicted, unreclaimed)
      end
  end.

Definition watermark_candidate (r : SignalRing RB Sch) : N :=
  match first_key (slots r) with
  | None => next_seq r -s 1
  | Some first_unacked => first_unacked -s 1
  end.

Definition advance_watermark (r : SignalRing RB Sch) (committed : N) : SignalRing RB Sch * N :=
  let candidate := watermark_candidate r in
  let watermark := N.max committed candidate in
  let '(evicted, unreclaimed) :=
    release_evicted (size (evicted_unreclaimed_bytes r)) watermark
      (evicted_unreclaimed_bytes r) (unreclaimed_disk_bytes r) in
  (r <| evicted_unreclaimed_bytes := evicted |> <| unreclaimed_disk_bytes := unreclaimed |>, watermark).

Definition is_on_disk (p : BatchPayload RB Sch) : bool :=
  match p with OnDisk _ _ _ _ _ => true | InMemory _ => false end.

Definition record_evicted_batch (r : SignalRing RB Sch) (evicted : QueuedBatch RB Sch) (committed : N)
  : SignalRing RB Sch * N * N :=
  let r := r <| bytes_in_flight := bytes_in_flight r -s qb_byte_size evicted |> in
  let r := r <| rows_in_flight := rows_in_flight r -s qb_row_count evicted |> in
  let rows := qb_row_count evicted in
  let r := r <| evicted_records := evicted_records r +u64 rows |> in
  let r := r <| slots := delete (qb_seq_id evicted) (slots r) |> in
  let r :=
    if is_on_disk (qb_payload evicted)
    then r <| evicted_unreclaimed_bytes :=
                <[qb_seq_id evicted := qb_byte_size evicted]> (evicted_unreclaimed_bytes r) |>
           <| unreclaimed_disk_bytes := unreclaimed_disk_bytes r +us qb_byte_size evicted |>
    else r in
  let '(r, committed) := advance_watermark r committed in
  (r, committed, rows).

(** One iteration of the loop of [requeue_at_head]. *)
Definition requeue_one (next_attempt : N) (ready_at : option instant)
  (st : SignalRing RB Sch * bool) (it : BatchPayload RB Sch * LeasedBatchMeta)
  : SignalRing RB Sch * bool :=
  let '(r, any_requeued) := st in
  let '(payload, item) := it in
  let r := r <| inflight_enqueued_at := delete (lm_seq_id item) (inflight_enqueued_at r) |> in
  if negb (bool_decide (slots r !! lm_seq_id item = Some InFlight)) then (r, any_requeued)
  else
    let r := r <| slots := <[lm_seq_id item := Queued]> (slots r) |> in
    (enqueue_ordered r (mkQueuedBatch (lm_seq_id item) payload (lm_byte_size item) (lm_row_count item)
       (lm_enqueued_at item) (lm_first_failed_at item) next_attempt ready_at), true).

Definition requeue_at_head (r : SignalRing RB Sch) (payloads : list (BatchPayload RB Sch))
  (meta : list LeasedBatchMeta) (next_attempt : N) (ready_at : option instant) : SignalRing RB Sch :=
  let '(r, any_requeued) :=
    foldl (requeue_one next_attempt ready_at) (r, false) (reverse (zip payloads meta)) in
  if any_requeued then r <| inflight_leases := inflight_leases r -s 1 |> else r.

(** One iteration of the loop of [ack_entries]. *)
Definition ack_one (st : SignalRing RB Sch * bool * N * N) (item : LeasedBatchMeta)
  : SignalRing RB Sch * bool * N * N :=
  let '(r, any_acked, acked_bytes, acked_rows) := st in
  let r := r <| inflight_enqueued_at := delete (lm_seq_id item) (inflight_enqueued_at r) |> in
  let removed := slots r !! lm_seq_id item in
  let r := r <| slots := delete (lm_seq_id item) (slots r) |> in
  if bool_decide (removed = Some InFlight)
  then (r, true, acked_bytes +us lm_byte_size item, acked_rows +us lm_row_count item)
  else (r, any_acked, acked_bytes, acked_rows).

Definition ack_entries (r : SignalRing RB Sch) (meta : list LeasedBatchMeta) (committed : N)
  : SignalRing RB Sch * N * N :=
  let '(r, any_acked, acked_bytes, acked_rows) := foldl ack_one (r, false, 0, 0) meta in
  if any_acked
  then
    let r := r <| bytes_in_flight := bytes_in_flight r -s acked_bytes |> in
    let r := r <| rows_in_flight := rows_in_flight r -s acked_rows |> in
    let r := r <| inflight_leases := inflight_leases r -s 1 |> in
    let '(r, committed) := advance_watermark r committed in
    (r, committed, acked_rows)
  else (r, committed, acked_rows).

(** [now] is the monotonic clock in nanoseconds, [unix_now] the wall clock in
    milliseconds. *)
Definition oldest_enqueued_unix_ms (r : SignalRing RB Sch) (now : instant) (unix_now : N) : N :=
  let oldest_queued := option_map qb_enqueued_at (head (queue r)) in
  let oldest_inflight := min_value id (inflight_enqueued_at r) in
  let age oldest := N.max (unix_now -s N.min ((now -s oldest) / 1000000) u64_max) 1 in
  match oldest_queued, oldest_inflight with
  | Some q, Some i => age (N.min q i)
  | Some q, None => age q
  | None, Some i => age i
  | None, None => 0
  end.

(** ** Ordered insertion *)

Definition seq_lt (a b : QueuedBatch RB Sch) : Prop := qb_seq_id a < qb_seq_id b.

Definition queue_seqs (q : list (QueuedBatch RB Sch)) : list N := map qb_seq_id q.

(** Reference for [enqueue_queue]. *)
Fixpoint ordered_insert (x : QueuedBatch RB Sch) (q : list (QueuedBatch RB Sch))
  : list (QueuedBatch RB Sch) :=
  match q with
  | [] => [x]
  | y :: q => if qb_seq_id x <? qb_seq_id y then x :: y :: q else y :: ordered_insert x q
  end.

Lemma ordered_insert_perm x q : ordered_insert x q ≡ₚ x :: q.
Proof.
  induction q as [|y q IH]; simpl; [done|]. case_match; [done|]. rewrite IH. constructor.
Qed.

Lemma ordered_insert_sorted x q :
  StronglySorted seq_lt q -> qb_seq_id x ∉ queue_seqs q -> StronglySorted seq_lt (ordered_insert x q).
Proof.
  induction 1 as [|y q Hq IH Hy]; intros Hx; simpl; [repeat constructor|].
  apply not_elem_of_cons in Hx as [Hne Hx].
  destruct (N.ltb_spec (qb_seq_id x) (qb_seq_id y)) as [Hlt|Hge].
  - constructor; [by constructor|]. constructor; [done|].
    eapply Forall_impl; [exact Hy|]. unfold seq_lt. intros z Hz. simpl in *. lia.
  - constructor; [by apply IH|]. rewrite ordered_insert_perm. constructor; [|done].
    unfold seq_lt. lia.
Qed.

Lemma ordered_insert_last x q :
  Forall (fun y => seq_lt y x) q -> ordered_insert x q = q ++ [x].
Proof.
  induction 1 as [|y q Hy Hq IH]; simpl; [done|]. unfold seq_lt in Hy.
  destruct (N.ltb_spec (qb_seq_id x) (qb_seq_id y)); [lia | by rewrite IH].
Qed.

Lemma ordered_insert_position x q :
  ordered_insert x q =
    let pos := default (length q) (position (fun e => qb_seq_id x <? qb_seq_id e) q) in
    take pos q ++ x :: drop pos q.
Proof.
  induction q as [|y q IH]; simpl; [done|]. destruct (qb_seq_id x <? qb_seq_id y); [done|].
  rewrite IH. by destruct (position _ q).
Qed.

Lemma enqueue_queue_ordered x q :
  StronglySorted seq_lt q -> enqueue_queue x q = ordered_insert x q.
Proof.
  intros Hq. unfold enqueue_queue. rewrite ordered_insert_position. cbv zeta.
  destruct (last q) as [b|] eqn:El.
  2:{ apply last_None in El. by subst q. }
  apply last_Some in El as [q' ->].
  destruct (N.ltb_spec (qb_seq_id b) (qb_seq_id x)) as [Hb|Hb].
  { rewrite <- ordered_insert_position. symmetry. apply ordered_insert_last. apply Forall_app. split.
    - apply Forall_forall. intros y Hy.
      assert (seq_lt y b) as Hyb. { eapply StronglySorted_app_1_elem_of; [exact Hq|exact Hy|by left]. }
      unfold seq_lt in *. simpl in *. lia.
    - by repeat constructor. }
  destruct (q' ++ [b]) as [|f l] eqn:Eq; [by destruct q'|]. simpl.
  destruct (qb_seq_id x <? qb_seq_id f); [done|].
  destruct (position _ l); done.
Qed.

(** ** The representation invariant

    [charge] maps each active sequence number to its bytes and rows.  [pb] and
    [pr] are bytes and rows already removed from [charge] but not yet from the
    accounts, as happens inside [ack_entries]; between operations both are 0. *)
Record ring_inv_pending (charge : gmap N (N * N)) (pb pr committed : N) (r : SignalRing RB Sch)
  : Prop := {
  ri_dom : forall s, is_Some (slots r !! s) <-> is_Some (charge !! s);
  ri_bound : forall s, is_Some (slots r !! s) -> committed < s < next_seq r;
  ri_committed : committed < next_seq r;
  ri_sorted : StronglySorted seq_lt (queue r);
  ri_queue : forall b, b ∈ queue r -> slots r !! qb_seq_id b = Some Queued /\
    charge !! qb_seq_id b = Some (qb_byte_size b, qb_row_count b);
  ri_queued : forall s, slots r !! s = Some Queued -> s ∈ queue_seqs (queue r);
  ri_inflight : forall s, is_Some (inflight_enqueued_at r !! s) <-> slots r !! s = Some InFlight;
  ri_bytes : bytes_in_flight r = pb + sum_map fst charge;
  ri_rows : rows_in_flight r = pr + sum_map snd charge;
  ri_bytes_bound : bytes_in_flight r + unreclaimed_disk_bytes r <= usize_max;
  ri_rows_bound : rows_in_flight r <= usize_max;
  ri_evicted : forall s, is_Some (evicted_unreclaimed_bytes r !! s) ->
    committed < s < next_seq r /\ slots r !! s = None;
  ri_unreclaimed : unreclaimed_disk_bytes r = sum_map id (evicted_unreclaimed_bytes r);
}.

Definition ring_inv (charge : gmap N (N * N)) (committed : N) (r : SignalRing RB Sch) : Prop :=
  ring_inv_pending charge 0 0 committed r.

Lemma ring_inv_new : ring_inv ∅ 0 new_ring.
Proof.
  split; simpl; try (unfold usize_max, u64_max; lia); try done;
    try (intros s; rewrite lookup_empty; by intros [? ?]).
  - intros s. rewrite !lookup_empty. split; by intros [? ?].
  - constructor.
  - intros b Hb. by apply not_elem_of_nil in Hb.
  - intros s. rewrite !lookup_empty. split; [by intros [? ?] | done].
Qed.

(** Bytes counted against the budget. *)
Definition held_bytes (r : SignalRing RB Sch) : N := bytes_in_flight r + unreclaimed_disk_bytes r.

(** ** Releasing evicted charges *)

Definition still_evicted (watermark : N) (m : gmap N N) : gmap N N :=
  filter (fun p => watermark < p.1) m.

Lemma release_evicted_filter fuel wm m n :
  (size m <= fuel)%nat -> n = sum_map id m ->
  release_evicted fuel wm m n = (still_evicted wm m, sum_map id (still_evicted wm m)).
Proof.
  revert m n. induction fuel as [|fuel IH]; intros m n Hs ->; simpl.
  { assert (m = ∅) as -> by (apply map_size_empty_inv; lia). done. }
  destruct (first_key m) as [k|] eqn:Ek.
  2:{ apply first_key_None in Ek as ->. done. }
  apply first_key_Some in Ek as [[v Hk] Hmin].
  destruct (N.leb_spec k wm) as [Hle|Hgt].
  - rewrite Hk. assert (still_evicted wm m = still_evicted wm (delete k m)) as Hf.
    { apply map_eq. intros i. unfold still_evicted. rewrite !map_lookup_filter.
      destruct (decide (i = k)) as [->|Hne].
      - rewrite lookup_delete_eq, Hk. simpl. case_guard; [|done]. simpl in *. lia.
      - by rewrite lookup_delete_ne. }
    rewrite IH, Hf; [done | |].
    + rewrite map_size_delete, Hk. assert (size m <> 0%nat). { intros E0. apply map_size_empty_inv in E0. subst m. by rewrite lookup_empty in Hk. }
      lia.
    + rewrite (sum_map_delete id m k v Hk). unfold sat_sub, id. lia.
  - assert (still_evicted wm m = m) as ->; [|done].
    apply map_filter_id. intros i x Hi. simpl. pose proof (Hmin i ltac:(eauto)). lia.
Qed.

Lemma still_evicted_Some wm m s :
  is_Some (still_evicted wm m !! s) <-> wm < s /\ is_Some (m !! s).
Proof.
  unfold still_evicted. split.
  - intros [v Hv]. apply map_lookup_filter_Some in Hv as [? ?]. eauto.
  - intros [? [v Hv]]. exists v. by apply map_lookup_filter_Some.
Qed.

Lemma still_evicted_le wm m : sum_map id (still_evicted wm m) <= sum_map id m.
Proof.
  induction m as [|k v m Hk IH] using map_ind; [done|]. rewrite sum_map_insert by done.
  unfold still_evicted in *. rewrite map_filter_insert. case_decide.
  - rewrite sum_map_insert; [lia|]. apply map_lookup_filter_None. by left.
  - rewrite map_filter_delete, delete_id by (apply map_lookup_filter_None; by left). lia.
Qed.

(** ** Advancing the watermark *)

Lemma watermark_candidate_spec charge pb pr committed r :
  ring_inv_pending charge pb pr committed r ->
  let c := watermark_candidate r in
  committed <= c < next_seq r /\
  (forall s, is_Some (slots r !! s) -> c < s) /\
  (c + 1 < next_seq r -> is_Some (slots r !! (c + 1))).
Proof.
  intros I. unfold watermark_candidate, sat_sub. pose proof (ri_committed _ _ _ _ _ I) as Hc.
  destruct (first_key (slots r)) as [k|] eqn:Ek; cbv zeta.
  - apply first_key_Some in Ek as [Hk Hmin]. pose proof (ri_bound _ _ _ _ _ I k Hk).
    split_and!; [lia | lia | |].
    + intros s Hs. pose proof (Hmin s Hs). lia.
    + intros _. replace (k - 1 + 1) with k by lia. done.
  - apply first_key_None in Ek. split_and!; [lia | lia | | lia].
    intros s Hs. rewrite Ek, lookup_empty in Hs. by destruct Hs.
Qed.

Lemma advance_watermark_eq charge pb pr committed r :
  ring_inv_pending charge pb pr committed r ->
  advance_watermark r committed =
    (r <| evicted_unreclaimed_bytes := still_evicted (watermark_candidate r) (evicted_unreclaimed_bytes r) |>
       <| unreclaimed_disk_bytes :=
            sum_map id (still_evicted (watermark_candidate r) (evicted_unreclaimed_bytes r)) |>,
     watermark_candidate r).
Proof.
  intros I. unfold advance_watermark. destruct (watermark_candidate_spec _ _ _ _ _ I) as [[Hle _] _].
  rewrite N.max_r by done. rewrite release_evicted_filter; [done | done |]. apply (ri_unreclaimed _ _ _ _ _ I).
Qed.

Lemma advance_watermark_inv charge pb pr committed r :
  ring_inv_pending charge pb pr committed r ->
  let '(r', c') := advance_watermark r committed in ring_inv_pending charge pb pr c' r'.
Proof.
  intros I. rewrite (advance_watermark_eq _ _ _ _ _ I).
  destruct (watermark_candidate_spec _ _ _ _ _ I) as (Hle & Hs & _). destruct I.
  split; simpl; try done.
  - intros s Hsome. specialize (Hs s Hsome). specialize (ri_bound0 s Hsome). lia.
  - lia.
  - pose proof (still_evicted_le (watermark_candidate r) (evicted_unreclaimed_bytes r)). lia.
  - intros s [? Hsome]%still_evicted_Some. specialize (ri_evicted0 s Hsome) as [? ?]. split; [lia|done].
Qed.

Lemma advance_watermark_held charge pb pr committed r :
  ring_inv_pending charge pb pr committed r ->
  held_bytes (advance_watermark r committed).1 <= held_bytes r.
Proof.
  intros I. rewrite (advance_watermark_eq _ _ _ _ _ I). unfold held_bytes. simpl.
  rewrite (ri_unreclaimed _ _ _ _ _ I).
  pose proof (still_evicted_le (watermark_candidate r) (evicted_unreclaimed_bytes r)). lia.
Qed.

(** ** Removing one active sequence number from every table *)

Lemma slots_delete_inv charge pb pr committed r s b n :
  ring_inv_pending charge pb pr committed r ->
  slots r !! s = Some InFlight \/ slots r !! s = Some Reserved -> charge !! s = Some (b, n) ->
  ring_inv_pending (delete s charge) (pb + b) (pr + n) committed
    (r <| inflight_enqueued_at := delete s (inflight_enqueued_at r) |> <| slots := delete s (slots r) |>).
Proof.
  intros I Hs Hc.
  assert (Hnq : slots r !! s <> Some Queued) by (destruct Hs as [-> | ->]; done).
  destruct I. split; simpl; try done.
  - intros k. destruct (decide (k = s)) as [->|Hne]; [by rewrite !lookup_delete_eq|].
    by rewrite !lookup_delete_ne.
  - intros k [st Hk]. apply lookup_delete_Some in Hk as [_ Hk]. eauto.
  - intros q Hq. destruct (ri_queue0 q Hq) as [H1 H2].
    assert (s <> qb_seq_id q) by congruence. by rewrite !lookup_delete_ne.
  - intros k Hk. apply lookup_delete_Some in Hk as [_ Hk]. eauto.
  - intros k. destruct (decide (k = s)) as [->|Hne]; [|by rewrite !lookup_delete_ne].
    rewrite !lookup_delete_eq. split; [by intros [? ?] | done].
  - rewrite ri_bytes0, (sum_map_delete fst charge s (b, n) Hc). simpl. lia.
  - rewrite ri_rows0, (sum_map_delete snd charge s (b, n) Hc). simpl. lia.
  - intros k Hk. destruct (ri_evicted0 k Hk) as [? Hn]. split; [done|]. apply lookup_delete_None; by right.
Qed.

(** Deleting the timestamp of a number that is not leased changes nothing. *)
Lemma inflight_delete_id charge pb pr committed r s :
  ring_inv_pending charge pb pr committed r -> slots r !! s <> Some InFlight ->
  delete s (inflight_enqueued_at r) = inflight_enqueued_at r.
Proof.
  intros I Hs. apply delete_id. destruct (inflight_enqueued_at r !! s) eqn:E; [|done].
  destruct Hs. apply (ri_inflight _ _ _ _ _ I). by rewrite E.
Qed.

Lemma SignalRing_inflight_id (r : SignalRing RB Sch) : r <| inflight_enqueued_at := inflight_enqueued_at r |> = r.
Proof. by destruct r. Qed.

Lemma SignalRing_slots_id (r : SignalRing RB Sch) : r <| slots := slots r |> = r.
Proof. by destruct r. Qed.

(** ** Acknowledging *)

(** A lease's entries: leased in the ring at the charge the lease recorded, or
    no longer active. *)
Definition meta_ok (charge : gmap N (N * N)) (r : SignalRing RB Sch) (item : LeasedBatchMeta) : Prop :=
  slots r !! lm_seq_id item = None \/
  (slots r !! lm_seq_id item = Some InFlight /\
   charge !! lm_seq_id item = Some (lm_byte_size item, lm_row_count item)).

Definition drop_charges (meta : list LeasedBatchMeta) (charge : gmap N (N * N)) : gmap N (N * N) :=
  foldl (fun c item => delete (lm_seq_id item) c) charge meta.

(** Rows of the entries still active. *)
Fixpoint active_rows (m : gmap N LeaseSlotState) (meta : list LeasedBatchMeta) : N :=
  match meta with
  | [] => 0
  | item :: meta =>
      (if bool_decide (m !! lm_seq_id item = Some InFlight) then lm_row_count item else 0)
      + active_rows (delete (lm_seq_id item) m) meta
  end.

(** Whether any entry is still leased. *)
Definition any_inflight (m : gmap N LeaseSlotState) (meta : list LeasedBatchMeta) : bool :=
  existsb (fun item => bool_decide (m !! lm_seq_id item = Some InFlight)) meta.

Lemma any_inflight_agree m m' k meta :
  (forall s, s <> k -> m' !! s = m !! s) -> m' !! k <> Some InFlight ->
  (bool_decide (m !! k = Some InFlight) || any_inflight m' meta)%bool =
  (bool_decide (m !! k = Some InFlight) || any_inflight m meta)%bool.
Proof.
  intros Hne Hk. unfold any_inflight. induction meta as [|it meta IH]; [done|]. cbn [existsb].
  destruct (decide (lm_seq_id it = k)) as [->|Hd].
  - rewrite (bool_decide_eq_false_2 (m' !! k = Some InFlight)) by done. rewrite orb_false_l, IH.
    by destruct (bool_decide _).
  - rewrite Hne by done. destruct (bool_decide (m !! lm_seq_id it = _)); [by rewrite !orb_true_r|].
    by rewrite !orb_false_l.
Qed.

Lemma any_inflight_ext m m' meta :
  (forall it, it ∈ meta -> m' !! lm_seq_id it = m !! lm_seq_id it) -> any_inflight m' meta = any_inflight m meta.
Proof.
  induction meta as [|it meta IH]; intros Hext; [done|]. cbn. rewrite Hext by left. f_equal.
  apply IH. intros x Hx. apply Hext. by right.
Qed.

Lemma any_inflight_perm m l k : l ≡ₚ k -> any_inflight m l = any_inflight m k.
Proof.
  unfold any_inflight. induction 1; cbn; [done | by f_equal | |congruence].
  by rewrite !orb_assoc, (orb_comm (bool_decide _)).
Qed.

Lemma any_inflight_true m meta :
  any_inflight m meta = true <-> exists it, it ∈ meta /\ m !! lm_seq_id it = Some InFlight.
Proof.
  unfold any_inflight. rewrite existsb_exists. split; intros (it & Hin & Hit).
  - exists it. rewrite bool_decide_eq_true in Hit. by rewrite list_elem_of_In.
  - exists it. by rewrite bool_decide_eq_true, <- list_elem_of_In.
Qed.

Lemma ack_one_inv charge pb pr committed r any item :
  ring_inv_pending charge pb pr committed r -> meta_ok charge r item ->
  exists any' pb' pr',
    ack_one (r, any, pb, pr) item =
      (r <| inflight_enqueued_at := delete (lm_seq_id item) (inflight_enqueued_at r) |>
         <| slots := delete (lm_seq_id item) (slots r) |>, any', pb', pr') /\
    (any' = any \/ any' = true) /\ (any' = false -> pb' = pb /\ pr' = pr) /\
    pr' = pr + (if bool_decide (slots r !! lm_seq_id item = Some InFlight) then lm_row_count item else 0) /\
    any' = (any || bool_decide (slots r !! lm_seq_id item = Some InFlight))%bool /\
    ring_inv_pending (delete (lm_seq_id item) charge) pb' pr' committed
      (r <| inflight_enqueued_at := delete (lm_seq_id item) (inflight_enqueued_at r) |>
         <| slots := delete (lm_seq_id item) (slots r) |>).
Proof.
  intros I [Hn | [Hs Hc]]; unfold ack_one; simpl.
  - rewrite Hn. rewrite bool_decide_eq_false_2 by done. exists any, pb, pr.
    rewrite orb_false_r, N.add_0_r. split_and!; [done|by left|done..|].
    rewrite (inflight_delete_id _ _ _ _ _ _ I) by congruence.
    rewrite SignalRing_inflight_id, (delete_id (slots r)), SignalRing_slots_id by done.
    rewrite delete_id; [done|]. apply eq_None_not_Some. rewrite <- (ri_dom _ _ _ _ _ I), Hn. by intros [? ?].
  - rewrite Hs, bool_decide_eq_true_2 by done.
    exists true, (pb + lm_byte_size item), (pr + lm_row_count item). split_and!; try done; try by right.
    + pose proof (sum_map_lookup fst _ _ _ Hc). pose proof (sum_map_lookup snd _ _ _ Hc). destruct I.
      simpl in *. by rewrite !sat_add_exact by lia.
    + by rewrite orb_true_r.
    + eapply slots_delete_inv; eauto.
Qed.

Definition leased_in (r : SignalRing RB Sch) (item : LeasedBatchMeta) : Prop :=
  slots r !! lm_seq_id item = Some InFlight.

Lemma ack_fold_inv meta charge pb pr committed r any :
  ring_inv_pending charge pb pr committed r -> Forall (meta_ok charge r) meta ->
  (any = false -> pb = 0 /\ pr = 0) ->
  exists r' any' pb' pr',
    foldl ack_one (r, any, pb, pr) meta = (r', any', pb', pr') /\
    ring_inv_pending (drop_charges meta charge) pb' pr' committed r' /\
    (any' = false -> pb' = 0 /\ pr' = 0) /\ pr' = pr + active_rows (slots r) meta /\
    slots r' = foldl (fun m item => delete (lm_seq_id item) m) (slots r) meta /\
    next_seq r' = next_seq r /\ queue r' = queue r /\ inflight_leases r' = inflight_leases r /\
    held_bytes r' = held_bytes r /\ any' = (any || any_inflight (slots r) meta)%bool.
Proof.
  revert charge pb pr r any. induction meta as [|item meta IH]; intros charge pb pr r any I Hm Hany.
  { exists r, any, pb, pr. simpl. split_and!; try done; try apply Hany; try lia.
    by rewrite orb_false_r. }
  apply Forall_cons in Hm as [Hi Hm].
  destruct (ack_one_inv _ _ _ _ _ any _ I Hi) as (any1 & pb1 & pr1 & E & Ha & Hf & Hpr & Hany1 & I1).
  change (drop_charges (item :: meta) charge) with (drop_charges meta (delete (lm_seq_id item) charge)).
  cbn [foldl active_rows]. rewrite E.
  edestruct (IH _ _ _ _ any1 I1) as (r' & any' & pb' & pr' & E' & I' & Hf' & Hpr' & Hs' & Hn' & Hq' & Hl' & Hh' & He').
  - eapply Forall_impl; [exact Hm|]. intros it [Hn|[Hs Hc]].
    + left. simpl. apply lookup_delete_None; by right.
    + unfold meta_ok. destruct (decide (lm_seq_id it = lm_seq_id item)) as [->|Hne].
      * left. simpl. apply lookup_delete_eq.
      * right. simpl. by rewrite !lookup_delete_ne.
  - intros ->. destruct (Hf eq_refl) as [-> ->]. destruct any; [by destruct Ha|]. by apply Hany.
  - exists r', any', pb', pr'. rewrite E'. split_and!; try done; [simpl in *; lia|].
    rewrite He', Hany1. rewrite <- !orb_assoc. f_equal. apply any_inflight_agree; simpl.
    + intros s Hne. by apply lookup_delete_ne.
    + by rewrite lookup_delete_eq.
Qed.

(** Settling the pending bytes and rows. *)
Lemma settle_inv charge pb pr committed r leases :
  ring_inv_pending charge pb pr committed r ->
  ring_inv charge committed
    (r <| bytes_in_flight := bytes_in_flight r -s pb |> <| rows_in_flight := rows_in_flight r -s pr |>
       <| inflight_leases := leases |>).
Proof. intros []. split; simpl; try done; unfold sat_sub; lia. Qed.

Lemma ack_entries_inv meta charge committed r :
  ring_inv charge committed r -> Forall (meta_ok charge r) meta ->
  exists r' c' n, ack_entries r meta committed = (r', c', n) /\
    ring_inv (drop_charges meta charge) c' r' /\ committed <= c' /\
    n = active_rows (slots r) meta /\
    slots r' = foldl (fun m item => delete (lm_seq_id item) m) (slots r) meta /\
    next_seq r' = next_seq r /\ queue r' = queue r /\
    (Exists (leased_in r) meta -> c' = watermark_candidate r') /\
    held_bytes r' <= held_bytes r /\
    inflight_leases r' = inflight_leases r - (if any_inflight (slots r) meta then 1 else 0).
Proof.
  intros I Hm. unfold ack_entries.
  destruct (ack_fold_inv meta charge 0 0 committed r false I Hm ltac:(done))
    as (r1 & any & pb & pr & -> & I1 & Hf & Hpr & Hs & Hn & Hq & Hl & Hh & Hex).
  rewrite orb_false_l in Hex. rewrite <- Hex. destruct any.
  - pose proof (settle_inv _ _ _ _ _ (inflight_leases r1 -s 1) I1) as I2. cbn zeta.
    change (r1 <| bytes_in_flight := bytes_in_flight r1 -s pb |>
      <| rows_in_flight := rows_in_flight (r1 <| bytes_in_flight := bytes_in_flight r1 -s pb |>) -s pr |>)
      with (r1 <| bytes_in_flight := bytes_in_flight r1 -s pb |> <| rows_in_flight := rows_in_flight r1 -s pr |>).
    set (r2 := _ <| inflight_leases := _ |>) in I2.
    change (_ <| inflight_leases := _ |>) with r2.
    pose proof (advance_watermark_inv _ _ _ _ _ I2) as I3.
    pose proof (advance_watermark_held _ _ _ _ _ I2) as Hh2.
    rewrite (advance_watermark_eq _ _ _ _ _ I2) in *. do 3 eexists. split; [done|].
    split_and!; try done; [eapply watermark_candidate_spec in I2; lia | |].
    + etrans; [exact Hh2|]. rewrite <- Hh. subst r2. unfold held_bytes, sat_sub. simpl. lia.
    + subst r2. simpl. by rewrite Hl.
  - destruct (Hf eq_refl) as [-> ->]. do 3 eexists. split; [done|]. split_and!; try done; try lia.
    intros He. symmetry in Hex. apply not_true_iff_false in Hex as []. apply any_inflight_true.
    apply Exists_exists in He as (it & Hin & Hit). by exists it.
Qed.

(** ** Requeueing *)

Definition requeue_ok (charge : gmap N (N * N)) (r : SignalRing RB Sch)
  (it : BatchPayload RB Sch * LeasedBatchMeta) : Prop :=
  slots r !! lm_seq_id it.2 = Some InFlight ->
  charge !! lm_seq_id it.2 = Some (lm_byte_size it.2, lm_row_count it.2).

Lemma requeue_one_inv charge committed r any att ra it :
  ring_inv charge committed r -> requeue_ok charge r it ->
  let '(r', any') := requeue_one att ra (r, any) it in
  ring_inv charge committed r' /\
  (forall s, slots r' !! s = slots r !! s \/ slots r' !! s = Some Queued) /\
  (forall s, s <> lm_seq_id it.2 -> slots r' !! s = slots r !! s) /\
  (slots r' !! lm_seq_id it.2 <> Some InFlight) /\
  next_seq r' = next_seq r /\ held_bytes r' = held_bytes r /\
  any' = (any || bool_decide (slots r !! lm_seq_id it.2 = Some InFlight))%bool /\
  bytes_in_flight r' = bytes_in_flight r /\ inflight_leases r' = inflight_leases r.
Proof.
  destruct it as [p item]. unfold requeue_ok. simpl. intros I Hok.
  case_bool_decide as Hs; simpl; [|].
  - specialize (Hok Hs). rewrite orb_true_r.
    assert (Hns : lm_seq_id item ∉ queue_seqs (queue r)).
    { intros Hin. apply list_elem_of_fmap in Hin as (b & Eb & Hb).
      destruct (ri_queue _ _ _ _ _ I b Hb) as [Hq _]. congruence. }
    split_and!; try done.
    + destruct I. unfold enqueue_ordered. split; simpl; try done.
      * intros s. destruct (decide (s = lm_seq_id item)) as [->|Hne]; [|by rewrite lookup_insert_ne].
        rewrite lookup_insert_eq, <- ri_dom0, Hs. split; eauto.
      * intros s Hsome. destruct (decide (s = lm_seq_id item)) as [->|Hne];
          [apply ri_bound0; eauto | rewrite lookup_insert_ne in Hsome by done; eauto].
      * rewrite enqueue_queue_ordered by done. by apply ordered_insert_sorted.
      * intros b. rewrite enqueue_queue_ordered by done. rewrite ordered_insert_perm.
        intros [->|Hb]%elem_of_cons; simpl; [by rewrite lookup_insert_eq|].
        destruct (ri_queue0 b Hb) as [H1 H2].
        rewrite lookup_insert_ne; [done|]. congruence.
      * intros s Hsome. rewrite enqueue_queue_ordered by done. unfold queue_seqs. rewrite ordered_insert_perm.
        simpl. destruct (decide (s = lm_seq_id item)) as [->|Hne]; [by left|].
        rewrite lookup_insert_ne in Hsome by done. right. eauto.
      * intros s. destruct (decide (s = lm_seq_id item)) as [->|Hne].
        -- rewrite lookup_delete_eq, lookup_insert_eq. split; [by intros [? ?] | done].
        -- by rewrite lookup_delete_ne, lookup_insert_ne.
      * intros s Hsome. destruct (ri_evicted0 s Hsome) as [? Hn]. split; [done|].
        rewrite lookup_insert_ne; [done|]. congruence.
    + intros s. destruct (decide (s = lm_seq_id item)) as [->|Hne];
        [right; apply lookup_insert_eq | left; by apply lookup_insert_ne].
    + intros s Hne. by apply lookup_insert_ne.
    + by rewrite lookup_insert_eq.
  - rewrite orb_false_r. rewrite (inflight_delete_id _ _ _ _ _ _ I Hs), SignalRing_inflight_id.
    split_and!; try done. by left.
Qed.

Lemma requeue_fold_inv charge committed att ra its r any :
  ring_inv charge committed r -> Forall (requeue_ok charge r) its ->
  let '(r', any') := foldl (requeue_one att ra) (r, any) its in
  ring_inv charge committed r' /\ next_seq r' = next_seq r /\
  held_bytes r' = held_bytes r /\
  bytes_in_flight r' = bytes_in_flight r /\ inflight_leases r' = inflight_leases r /\
  any' = (any || any_inflight (slots r) (map snd its))%bool /\
  (forall s, slots r' !! s = slots r !! s \/ slots r' !! s = Some Queued) /\
  (forall s, s ∉ map (fun it => lm_seq_id it.2) its -> slots r' !! s = slots r !! s) /\
  (forall s, s ∈ map (fun it => lm_seq_id it.2) its -> slots r' !! s <> Some InFlight).
Proof.
  revert r any. induction its as [|it its IH]; intros r any I Hok.
  { simpl. split_and!; try done; [by rewrite orb_false_r | by left|]. intros s Hs. by apply not_elem_of_nil in Hs. }
  apply Forall_cons in Hok as [Hi Hok]. cbn [foldl].
  pose proof (requeue_one_inv _ _ _ any att ra _ I Hi) as H1.
  destruct (requeue_one att ra (r, any) it) as [r1 any1].
  destruct H1 as (I1 & Hs & Hne & Hni & Hn & Hh & Ha & Hb & Hl).
  specialize (IH r1 any1 I1). destruct (foldl _ _ _) as [r' any'].
  rewrite <- Hn, <- Hb, <- Hl, <- Hh. destruct IH as (I' & Hn' & Hh' & Hb' & Hl' & Ha' & Hs' & Hne' & Hni').
  { eapply Forall_impl; [exact Hok|].
    intros x Hx Hsx. apply Hx. destruct (Hs (lm_seq_id x.2)) as [E|E]; congruence. }
  split_and!; try done.
  - rewrite Ha', Ha, <- orb_assoc. f_equal. by apply any_inflight_agree.
  - intros s. destruct (Hs' s) as [->|?]; [apply Hs | by right].
  - intros s [Hs1 Hs2]%not_elem_of_cons. rewrite Hne' by done. by apply Hne.
  - intros s [->|Hin]%elem_of_cons; [|by apply Hni'].
    destruct (Hs' (lm_seq_id it.2)) as [->| ->]; done.
Qed.

Lemma requeue_at_head_inv charge committed r payloads meta att ra :
  ring_inv charge committed r -> Forall (requeue_ok charge r) (zip payloads meta) ->
  ring_inv charge committed (requeue_at_head r payloads meta att ra) /\
  bytes_in_flight (requeue_at_head r payloads meta att ra) = bytes_in_flight r /\
  next_seq (requeue_at_head r payloads meta att ra) = next_seq r /\
  held_bytes (requeue_at_head r payloads meta att ra) = held_bytes r /\
  inflight_leases (requeue_at_head r payloads meta att ra) =
    inflight_leases r - (if any_inflight (slots r) (map snd (zip payloads meta)) then 1 else 0) /\
  (forall s, slots (requeue_at_head r payloads meta att ra) !! s = slots r !! s \/
     slots (requeue_at_head r payloads meta att ra) !! s = Some Queued) /\
  (forall s, s ∉ map lm_seq_id (map snd (zip payloads meta)) ->
     slots (requeue_at_head r payloads meta att ra) !! s = slots r !! s) /\
  (forall s, s ∈ map lm_seq_id (map snd (zip payloads meta)) ->
     slots (requeue_at_head r payloads meta att ra) !! s <> Some InFlight).
Proof.
  intros I Hok. unfold requeue_at_head.
  assert (Forall (requeue_ok charge r) (reverse (zip payloads meta))) as Hok' by by apply Forall_reverse.
  pose proof (requeue_fold_inv charge committed att ra _ r false I Hok') as H1.
  destruct (foldl _ _ _) as [r' any]. destruct H1 as (I' & Hn & Hh & Hb & Hl & Ha & Hs & Hne & Hni).
  rewrite orb_false_l, (any_inflight_perm _ _ (map snd (zip payloads meta))) in Ha
    by (apply Permutation_map, reverse_Permutation).
  rewrite <- Ha.
  assert (Hmem : forall s, s ∈ map lm_seq_id (map snd (zip payloads meta)) <->
    s ∈ map (fun it => lm_seq_id it.2) (reverse (zip payloads meta))).
  { intros s. rewrite map_map. change (fun x : BatchPayload RB Sch * LeasedBatchMeta => lm_seq_id x.2)
      with (fun it : BatchPayload RB Sch * LeasedBatchMeta => lm_seq_id it.2).
    change map with (@fmap list list_fmap). by rewrite fmap_reverse, elem_of_reverse. }
  destruct any; split_and!; try done; try (intros s; rewrite Hmem; auto); try (simpl; lia).
  - destruct I'. by split.
  - simpl. by rewrite Hl.
Qed.

(** ** Evicting the oldest queued batch *)

Lemma record_evicted_inv charge committed r ev q :
  ring_inv charge committed r -> queue r = ev :: q ->
  exists r' c', record_evicted_batch (r <| queue := q |>) ev committed = (r', c', qb_row_count ev) /\
    ring_inv (delete (qb_seq_id ev) charge) c' r' /\ committed <= c' /\
    slots r' = delete (qb_seq_id ev) (slots r) /\ queue r' = q /\ next_seq r' = next_seq r /\
    bytes_in_flight r' = bytes_in_flight r - qb_byte_size ev /\
    qb_byte_size ev <= bytes_in_flight r /\
    inflight_leases r' = inflight_leases r /\ held_bytes r' <= held_bytes r.
Proof.
  intros I Hq. destruct (ri_queue _ _ _ _ _ I ev) as [Hs Hc]; [rewrite Hq; by left|].
  pose proof (sum_map_delete fst _ _ _ Hc) as Hsum. pose proof (sum_map_delete snd _ _ _ Hc) as Hsumr.
  simpl in Hsum, Hsumr.
  pose proof (ri_sorted _ _ _ _ _ I) as Hsort. rewrite Hq in Hsort. apply StronglySorted_cons in Hsort as [Hlt Hsort].
  assert (Hdel : forall b, b ∈ q -> qb_seq_id ev <> qb_seq_id b).
  { intros b Hb E. rewrite Forall_forall in Hlt. specialize (Hlt b Hb). unfold seq_lt in Hlt. lia. }
  unfold record_evicted_batch. cbn zeta.
  set (r1 := if is_on_disk _ then _ else _).
  assert (I1 : ring_inv (delete (qb_seq_id ev) charge) committed r1 /\ slots r1 = delete (qb_seq_id ev) (slots r)
    /\ queue r1 = q /\ next_seq r1 = next_seq r /\ bytes_in_flight r1 = bytes_in_flight r - qb_byte_size ev
    /\ inflight_leases r1 = inflight_leases r /\ held_bytes r1 <= held_bytes r).
  { assert (Hev : evicted_unreclaimed_bytes r !! qb_seq_id ev = None).
    { destruct (evicted_unreclaimed_bytes r !! qb_seq_id ev) eqn:E; [|done].
      destruct (ri_evicted _ _ _ _ _ I (qb_seq_id ev)) as [_ Hx]; [eauto|congruence]. }
    subst r1. split; cycle 1.
    { split_and!; try by destruct (is_on_disk _). pose proof (ri_bytes_bound _ _ _ _ _ I).
      pose proof (ri_bytes _ _ _ _ _ I). unfold held_bytes, sat_sub.
      destruct (is_on_disk _); simpl; [rewrite sat_add_exact by lia|]; lia. }
    destruct I. rewrite Hsum in ri_bytes0. rewrite Hsumr in ri_rows0.
    destruct (is_on_disk (qb_payload ev)); split; simpl; unfold sat_sub; try done; try lia.
    all: try (intros s; destruct (decide (s = qb_seq_id ev)) as [->|Hne];
      [rewrite ?lookup_delete_eq, ?lookup_insert_eq | rewrite ?lookup_delete_ne, ?lookup_insert_ne by done; eauto]).
    all: try done; try (by intros [? ?]).
    all: try (intros b Hb; rewrite !lookup_delete_ne by auto; apply ri_queue0; rewrite Hq; by right).
    all: try (intros Hk; apply ri_queued0 in Hk; rewrite Hq in Hk; by apply elem_of_cons in Hk as [?|?]).
    - split; [|done]. rewrite ri_inflight0. congruence.
    - rewrite sat_add_exact by lia. lia.
    - intros _. split; [apply ri_bound0; eauto | done].
    - rewrite sat_add_exact by lia. rewrite sum_map_insert by done.
      change (id (qb_byte_size ev)) with (qb_byte_size ev). lia.
    - split; [|done]. rewrite ri_inflight0. congruence.
    - intros [x Hx]. congruence. }
  destruct I1 as (I1 & H1 & H2 & H3 & H4 & H5 & H6). clearbody r1.
  pose proof (advance_watermark_inv _ _ _ _ _ I1) as I2.
  pose proof (advance_watermark_held _ _ _ _ _ I1) as Hh.
  rewrite (advance_watermark_eq _ _ _ _ _ I1) in *. do 2 eexists. split; [reflexivity|].
  eapply watermark_candidate_spec in I1. split_and!; try done; [lia| |].
  - destruct I. lia.
  - etrans; [exact Hh | done].
Qed.

(** ** Admitting, committing, rolling back and leasing one sequence number *)

Ltac at_key k s :=
  destruct (decide (k = s)) as [->|];
  [rewrite ?lookup_insert_eq, ?lookup_delete_eq | rewrite ?lookup_insert_ne, ?lookup_delete_ne by done].

(** A fresh reservation. *)
Definition reserve_seq (r : SignalRing RB Sch) (st : LeaseSlotState) (b n : N) : SignalRing RB Sch :=
  r <| next_seq := next_seq r + 1 |> <| bytes_in_flight := bytes_in_flight r + b |>
    <| rows_in_flight := rows_in_flight r + n |> <| slots := <[next_seq r := st]> (slots r) |>.

Lemma fresh_seq charge pb pr committed r :
  ring_inv_pending charge pb pr committed r ->
  slots r !! next_seq r = None /\ charge !! next_seq r = None /\
  evicted_unreclaimed_bytes r !! next_seq r = None.
Proof.
  intros []. assert (slots r !! next_seq r = None) as Hn.
  { apply eq_None_not_Some. intros Hs. pose proof (ri_bound0 _ Hs). lia. }
  split_and!; [done | |].
  - apply eq_None_not_Some. rewrite <- ri_dom0, Hn. by intros [? ?].
  - apply eq_None_not_Some. intros Hs. pose proof (ri_evicted0 _ Hs). lia.
Qed.

Lemma reserve_inv charge committed r b n :
  ring_inv charge committed r ->
  bytes_in_flight r + unreclaimed_disk_bytes r + b <= usize_max -> rows_in_flight r + n <= usize_max ->
  ring_inv (<[next_seq r := (b, n)]> charge) committed (reserve_seq r Reserved b n).
Proof.
  intros I Hb Hn. destruct (fresh_seq _ _ _ _ _ I) as (Hs & Hc & He). destruct I.
  split; simpl; try done; try lia.
  - intros s. at_key s (next_seq r); [|done]. split; eauto.
  - intros s. at_key s (next_seq r); [lia|]. intros Hx. specialize (ri_bound0 _ Hx). lia.
  - intros q Hq. destruct (ri_queue0 q Hq) as [H1 H2].
    assert (next_seq r <> qb_seq_id q) by congruence. by rewrite !lookup_insert_ne.
  - intros s. at_key s (next_seq r); [done | eauto].
  - intros s. at_key s (next_seq r); [|done]. rewrite ri_inflight0, Hs. by split.
  - rewrite sum_map_insert by done. simpl. lia.
  - rewrite sum_map_insert by done. simpl. lia.
  - intros s Hx. assert (s <> next_seq r) by (intros ->; rewrite He in Hx; by destruct Hx).
    rewrite lookup_insert_ne by done. destruct (ri_evicted0 s Hx). split; [lia|done].
Qed.

(** A reservation becomes a queued batch of [b'] bytes. *)
Lemma commit_inv charge committed r item b n :
  ring_inv charge committed r -> slots r !! qb_seq_id item = Some Reserved ->
  charge !! qb_seq_id item = Some (b, n) -> qb_row_count item = n ->
  bytes_in_flight r - b + qb_byte_size item + unreclaimed_disk_bytes r <= usize_max ->
  ring_inv (<[qb_seq_id item := (qb_byte_size item, n)]> charge) committed
    (enqueue_ordered
      (r <| bytes_in_flight := bytes_in_flight r - b + qb_byte_size item |>
         <| slots := <[qb_seq_id item := Queued]> (slots r) |>) item).
Proof.
  intros I Hs Hc Hn Hfit.
  assert (Hns : qb_seq_id item ∉ queue_seqs (queue r)).
  { intros Hin. apply list_elem_of_fmap in Hin as (q & Eq & Hq).
    destruct (ri_queue _ _ _ _ _ I q Hq) as [Hq' _]. congruence. }
  pose proof (sum_map_delete fst _ _ _ Hc) as Hsum. pose proof (sum_map_delete snd _ _ _ Hc) as Hsumr.
  simpl in Hsum, Hsumr.
  assert (Hins : forall f : N * N -> N, sum_map f (<[qb_seq_id item := (qb_byte_size item, n)]> charge)
    = f (qb_byte_size item, n) + sum_map f (delete (qb_seq_id item) charge)).
  { intros f. rewrite <- insert_delete_eq, sum_map_insert; [done|apply lookup_delete_eq]. }
  destruct I. unfold enqueue_ordered.
  split; simpl; try done; try (rewrite Hins; simpl); try lia.
  - intros s. at_key s (qb_seq_id item); [split; eauto | done].
  - intros s. at_key s (qb_seq_id item); [|by eauto]. intros _. apply ri_bound0. eauto.
  - rewrite enqueue_queue_ordered by done. by apply ordered_insert_sorted.
  - intros q. rewrite enqueue_queue_ordered, ordered_insert_perm by done.
    intros [->|Hq]%elem_of_cons; [by rewrite !lookup_insert_eq, Hn|].
    destruct (ri_queue0 q Hq) as [H1 H2].
    assert (qb_seq_id item <> qb_seq_id q) by congruence. by rewrite !lookup_insert_ne.
  - intros s Hx. rewrite enqueue_queue_ordered by done. unfold queue_seqs. rewrite ordered_insert_perm.
    simpl. revert Hx. at_key s (qb_seq_id item); [by left | right; eauto].
  - intros s. at_key s (qb_seq_id item); [|done]. rewrite ri_inflight0. split; congruence.
  - intros s Hx. destruct (ri_evicted0 s Hx) as [? Hnone]. split; [done|].
    rewrite lookup_insert_ne; [done|congruence].
Qed.

(** The head of the queue is leased. *)
Definition lease_head (r : SignalRing RB Sch) (b : QueuedBatch RB Sch) (q : list (QueuedBatch RB Sch))
  : SignalRing RB Sch :=
  r <| queue := q |> <| slots := <[qb_seq_id b := InFlight]> (slots r) |>
    <| inflight_enqueued_at := <[qb_seq_id b := qb_enqueued_at b]> (inflight_enqueued_at r) |>.

Lemma lease_head_inv charge committed r b q :
  ring_inv charge committed r -> queue r = b :: q -> ring_inv charge committed (lease_head r b q).
Proof.
  intros I Hq. destruct (ri_queue _ _ _ _ _ I b) as [Hs Hc]; [rewrite Hq; by left|].
  destruct I. rewrite Hq in ri_sorted0. apply StronglySorted_cons in ri_sorted0 as [Hlt Hsort].
  assert (Hne : forall x, x ∈ q -> qb_seq_id b <> qb_seq_id x).
  { intros x Hx E. rewrite Forall_forall in Hlt. specialize (Hlt x Hx). unfold seq_lt in Hlt. lia. }
  split; simpl; try done.
  - intros s. at_key s (qb_seq_id b); [|done]. rewrite <- ri_dom0, Hs. split; eauto.
  - intros s. at_key s (qb_seq_id b); [|by eauto]. intros _. apply ri_bound0. eauto.
  - intros x Hx. rewrite lookup_insert_ne by auto. apply ri_queue0. rewrite Hq. by right.
  - intros s. at_key s (qb_seq_id b); [done|]. intros Hx. apply ri_queued0 in Hx. rewrite Hq in Hx.
    by apply elem_of_cons in Hx as [?|?].
  - intros s. at_key s (qb_seq_id b); [split; eauto | done].
  - intros s Hx. destruct (ri_evicted0 s Hx) as [? Hn]. split; [done|].
    rewrite lookup_insert_ne; [done|congruence].
Qed.

(** A reservation is rolled back. *)
Lemma rollback_inv charge committed r s b n :
  ring_inv charge committed r -> slots r !! s = Some Reserved -> charge !! s = Some (b, n) ->
  let r1 := r <| slots := delete s (slots r) |> <| bytes_in_flight := bytes_in_flight r -s b |>
              <| rows_in_flight := rows_in_flight r -s n |> in
  ring_inv (delete s charge) committed r1.
Proof.
  intros I Hs Hc. pose proof (slots_delete_inv _ _ _ _ _ _ _ _ I (or_intror Hs) Hc) as I1.
  rewrite (inflight_delete_id _ _ _ _ _ s I) in I1 by congruence.
  rewrite SignalRing_inflight_id in I1. apply (settle_inv _ _ _ _ _ (inflight_leases r)) in I1.
  by destruct r.
Qed.

Lemma discard_inv charge committed r :
  ring_inv charge committed r ->
  let '(r', c') := advance_watermark
    (r <| queue := [] |> <| bytes_in_flight := 0 |> <| rows_in_flight := 0 |> <| inflight_leases := 0 |>
       <| slots := ∅ |> <| inflight_enqueued_at := ∅ |> <| evicted_unreclaimed_bytes := ∅ |>
       <| unreclaimed_disk_bytes := 0 |>) committed in
  ring_inv ∅ c' r' /\ c' = next_seq r - 1 /\ slots r' = ∅ /\ queue r' = [] /\ next_seq r' = next_seq r /\
  inflight_leases r' = 0 /\ held_bytes r' = 0.
Proof.
  intros I. set (r1 := _ <| unreclaimed_disk_bytes := 0 |>).
  assert (I1 : ring_inv ∅ committed r1).
  { destruct I. subst r1. split; simpl; try (unfold usize_max, u64_max; lia); try done;
      try (intros s; rewrite lookup_empty; by intros [? ?]).
    - intros s. rewrite !lookup_empty. split; by intros [? ?].
    - constructor.
    - intros q Hq. by apply not_elem_of_nil in Hq.
    - intros s. rewrite !lookup_empty. split; [by intros [? ?] | done]. }
  pose proof (advance_watermark_inv _ _ _ _ _ I1) as I2.
  rewrite (advance_watermark_eq _ _ _ _ _ I1) in *. split_and!; done.
Qed.

End Ring.

(** ** A concrete ring for the witnesses *)

Definition demo_item (s : N) (b n : N) : QueuedBatch Toy.batch N :=
  mkQueuedBatch s (OnDisk 0 0 b n 7) b n 1000 None 0 None.

(** Three frames admitted, the first two queued, the first then leased. *)
Definition demo_admitted : SignalRing Toy.batch N :=
  reserve_seq (reserve_seq (reserve_seq new_ring Reserved 50 5) Reserved 60 6) Reserved 70 7.
Definition demo_commit (r : SignalRing Toy.batch N) (item : QueuedBatch Toy.batch N) :=
  enqueue_ordered (r <| bytes_in_flight := bytes_in_flight r - qb_byte_size item + qb_byte_size item |>
    <| slots := <[qb_seq_id item := Queued]> (slots r) |>) item.
Definition demo_queued : SignalRing Toy.batch N :=
  demo_commit (demo_commit demo_admitted (demo_item 2 60 6)) (demo_item 1 50 5).
Definition demo_leased : SignalRing Toy.batch N :=
  (lease_head demo_queued (demo_item 1 50 5) [demo_item 2 60 6]) <| inflight_leases := 1 |>.

Definition demo_charge : gmap N (N * N) := <[3 := (70, 7)]> (<[2 := (60, 6)]> (<[1 := (50, 5)]> ∅)).

Lemma demo_queued_inv : ring_inv demo_charge 0 demo_queued.
Proof.
  assert (I0 : ring_inv demo_charge 0 demo_admitted).
  { pose proof (reserve_inv (RB := Toy.batch) (Sch := N) ∅ 0 new_ring 50 5 ring_inv_new ltac:(by vm_compute) ltac:(by vm_compute)) as I1.
    pose proof (reserve_inv _ 0 _ 60 6 I1 ltac:(by vm_compute) ltac:(by vm_compute)) as I2.
    exact (reserve_inv _ 0 _ 70 7 I2 ltac:(by vm_compute) ltac:(by vm_compute)). }
  unfold demo_queued, demo_commit.
  eapply (commit_inv _ 0 _ (demo_item 2 60 6) 60 6) in I0; [|by vm_compute..].
  eapply (commit_inv _ 0 _ (demo_item 1 50 5) 50 5) in I0; [|by vm_compute..].
  replace demo_charge with (<[1 := (50, 5)]> (<[2 := (60, 6)]> demo_charge)); [exact I0|].
  by vm_compute.
Qed.

Lemma demo_leased_inv : ring_inv demo_charge 0 demo_leased.
Proof.
  pose proof (lease_head_inv _ _ _ (demo_item 1 50 5) [demo_item 2 60 6] demo_queued_inv eq_refl) as I.
  destruct I. by split.
Qed.

Definition demo_meta (s b n : N) : LeasedBatchMeta := mkLeasedBatchMeta s b n 1000 None.

(** ** Properties *)

Section Properties.
Context {RB Sch Row : Type} `{Arrow RB Sch Row}.
Implicit Types r : SignalRing RB Sch.

(** The three-way insertion of [enqueue_ordered] (push back, push front,
    positional insert) is insertion into a sorted list: it keeps the queue
    strictly sorted by sequence number and adds exactly the item. *)
Theorem enqueue_ordered_reference r item :
  StronglySorted seq_lt (queue r) -> qb_seq_id item ∉ queue_seqs (queue r) ->
  queue (enqueue_ordered r item) = ordered_insert item (queue r) /\
  StronglySorted seq_lt (queue (enqueue_ordered r item)) /\
  queue (enqueue_ordered r item) ≡ₚ item :: queue r.
Proof.
  intros Hs Hn. simpl. rewrite enqueue_queue_ordered by done.
  split_and!; [done | by apply ordered_insert_sorted | apply ordered_insert_perm].
Qed.

(** [advance_watermark] moves the watermark to the largest sequence number
    with no active slot at or below it, never back; it releases exactly the
    evicted charges at or below the new watermark, and the running total of
    unreclaimed bytes stays their sum. *)
Theorem watermark_contiguous charge committed r :
  ring_inv charge committed r ->
  let '(r', c') := advance_watermark r committed in
  committed <= c' < next_seq r /\
  (forall s, s <= c' -> slots r !! s = None) /\
  (c' + 1 = next_seq r \/ is_Some (slots r !! (c' + 1))) /\
  (forall s, evicted_unreclaimed_bytes r' !! s =
     if c' <? s then evicted_unreclaimed_bytes r !! s else None) /\
  unreclaimed_disk_bytes r' = sum_map id (evicted_unreclaimed_bytes r') /\
  ring_inv charge c' r'.
Proof.
  intros I. pose proof (advance_watermark_inv _ _ _ _ _ I) as I'.
  rewrite (advance_watermark_eq _ _ _ _ _ I) in *.
  destruct (watermark_candidate_spec _ _ _ _ _ I) as (Hc & Hs & Hn). split_and!; try done; try lia.
  - intros s Hle. apply eq_None_not_Some. intros Hx. specialize (Hs s Hx). lia.
  - destruct (decide (watermark_candidate r + 1 < next_seq r)); [right; by apply Hn | left; lia].
  - intros s. simpl. unfold still_evicted. rewrite map_lookup_filter.
    destruct (evicted_unreclaimed_bytes r !! s); simpl; [|by destruct (_ <? _)].
    destruct (N.ltb_spec (watermark_candidate r) s); case_guard; simpl in *; done || lia.
Qed.

(** Acknowledging a lease keeps the ring invariant with exactly the
    lease's charges gone, returns the rows that were still active, never moves
    the watermark back, and, when any entry was still leased, leaves the
    watermark just below the earliest active sequence number. *)
Theorem ack_entries_correct charge committed r meta :
  ring_inv charge committed r -> Forall (meta_ok charge r) meta ->
  let '(r', c', rows) := ack_entries r meta committed in
  ring_inv (drop_charges meta charge) c' r' /\ committed <= c' /\
  rows = active_rows (slots r) meta /\ queue r' = queue r /\
  (Exists (leased_in r) meta -> c' + 1 = next_seq r' \/ is_Some (slots r' !! (c' + 1))).
Proof.
  intros I Hm. destruct (ack_entries_inv _ _ _ _ I Hm)
    as (r' & c' & n & -> & I' & Hle & -> & Hs & Hn & Hq & Hex & _).
  split_and!; try done. intros He. specialize (Hex He).
  destruct (watermark_candidate_spec _ _ _ _ _ I') as (Hc & _ & Hnx).
  rewrite Hex. destruct (decide (watermark_candidate r' + 1 < next_seq r')); [right; by apply Hnx | left; lia].
Qed.

(** Evicting the oldest queued batch removes it from the active set and
    from the in-flight accounts; an on-disk frame that an earlier active slot
    pins keeps its bytes in the unreclaimed account, so that in-flight plus
    unreclaimed bytes never under-count what is on disk. *)
Theorem evict_moves_charge charge committed r ev q :
  ring_inv charge committed r -> queue r = ev :: q ->
  let '(r', c', rows) := record_evicted_batch (r <| queue := q |>) ev committed in
  ring_inv (delete (qb_seq_id ev) charge) c' r' /\ rows = qb_row_count ev /\ committed <= c' /\
  queue r' = q /\ slots r' !! qb_seq_id ev = None /\
  bytes_in_flight r' + qb_byte_size ev = bytes_in_flight r.
Proof.
  intros I Hq. destruct (record_evicted_inv _ _ _ _ _ I Hq)
    as (r' & c' & -> & I' & Hle & Hs & Hq' & Hn & Hb & Hge & Hl & _).
  split_and!; try done; [|lia]. rewrite Hs. apply lookup_delete_eq.
Qed.
End Properties.

Lemma enqueue_ordered_reference_witness :
  let r := demo_queued in let x := demo_item 3 70 7 in
  queue (enqueue_ordered r x) = ordered_insert x (queue r) /\
  StronglySorted seq_lt (queue (enqueue_ordered r x)) /\
  queue (enqueue_ordered r x) ≡ₚ x :: queue r.
Proof.
  apply enqueue_ordered_reference.
  - apply (ri_sorted _ _ _ _ _ demo_queued_inv).
  - vm_compute. intros Hin. repeat (apply elem_of_cons in Hin as [Hin|Hin]; [done|]).
    by apply not_elem_of_nil in Hin.
Defined.

Lemma watermark_contiguous_witness :
  let '(r', c') := advance_watermark demo_leased 0 in
  0 <= c' < 4 /\ (forall s, s <= c' -> slots demo_leased !! s = None) /\
  (c' + 1 = 4 \/ is_Some (slots demo_leased !! (c' + 1))) /\
  (forall s, evicted_unreclaimed_bytes r' !! s =
     if c' <? s then evicted_unreclaimed_bytes demo_leased !! s else None) /\
  unreclaimed_disk_bytes r' = sum_map id (evicted_unreclaimed_bytes r') /\
  ring_inv demo_charge c' r'.
Proof. apply (watermark_contiguous demo_charge 0 demo_leased demo_leased_inv). Defined.

Lemma ack_entries_correct_witness :
  let '(r', c', rows) := ack_entries demo_leased [demo_meta 1 50 5] 0 in
  ring_inv (drop_charges [demo_meta 1 50 5] demo_charge) c' r' /\ 0 <= c' /\
  rows = active_rows (slots demo_leased) [demo_meta 1 50 5] /\ queue r' = queue demo_leased /\
  (Exists (leased_in demo_leased) [demo_meta 1 50 5] -> c' + 1 = next_seq r' \/ is_Some (slots r' !! (c' + 1))).
Proof.
  apply (ack_entries_correct demo_charge 0 demo_leased [demo_meta 1 50 5] demo_leased_inv).
  constructor; [right; by vm_compute | constructor].
Defined.

Lemma evict_moves_charge_witness :
  let '(r', c', rows) := record_evicted_batch (demo_leased <| queue := [] |>) (demo_item 2 60 6) 0 in
  ring_inv (delete 2 demo_charge) c' r' /\ rows = 6 /\ 0 <= c' /\
  queue r' = [] /\ slots r' !! 2 = None /\ bytes_in_flight r' + 60 = bytes_in_flight demo_leased.
Proof. apply (evict_moves_charge demo_charge 0 demo_leased (demo_item 2 60 6) [] demo_leased_inv eq_refl). Defined.
