(* ===== verification/Watermark.v ===== *)
(** The persisted watermark: [DiskWatermark] of crates/core/src/buffer/disk.rs.

    Snapshots of the three [committed_seq] counters are taken outside any
    common lock and may reach the writer out of order; [merge_monotonic] makes
    that harmless, since it is the join of a semilattice. *)

From S2P Require Import Prelude Arrow Signal Ring.
Local Open Scope N_scope.

Record DiskWatermark := mkDiskWatermark {
  instance_id : N;
  wm_logs : N;
  wm_metrics : N;
  wm_traces : N;
}.

Global Instance DiskWatermark_eta : RecordEta DiskWatermark := fun w =>
  mkDiskWatermark (instance_id w) (wm_logs w) (wm_metrics w) (wm_traces w).

Global Instance DiskWatermark_eq_dec : EqDecision DiskWatermark.
Proof. solve_decision. Defined.

Definition default_watermark : DiskWatermark := mkDiskWatermark 0 0 0 0.

Definition for_signal (w : DiskWatermark) (s : SignalType) : N :=
  match s with Logs => wm_logs w | Metrics => wm_metrics w | Traces => wm_traces w end.

Definition from_rings {RB Sch} (id : N) (rings : PerSignal (SignalRingState RB Sch)) : DiskWatermark :=
  mkDiskWatermark id (committed_seq (sget rings Logs)) (committed_seq (sget rings Metrics))
    (committed_seq (sget rings Traces)).

Definition merge_monotonic (w incoming : DiskWatermark) : DiskWatermark * bool :=
  let prev := w in
  let w := if (instance_id w =? 0) && negb (instance_id incoming =? 0)
           then w <| instance_id := instance_id incoming |> else w in
  let w := if wm_logs w <? wm_logs incoming then w <| wm_logs := wm_logs incoming |> else w in
  let w := if wm_metrics w <? wm_metrics incoming then w <| wm_metrics := wm_metrics incoming |> else w in
  let w := if wm_traces w <? wm_traces incoming then w <| wm_traces := wm_traces incoming |> else w in
  (w, negb (instance_id w =? instance_id prev) || negb (wm_logs w =? wm_logs prev)
      || negb (wm_metrics w =? wm_metrics prev) || negb (wm_traces w =? wm_traces prev)).

(** Pointwise order of the three counters. *)
Definition wm_le (a b : DiskWatermark) : Prop := forall s, for_signal a s <= for_signal b s.

Global Instance wm_le_preorder : PreOrder wm_le.
Proof. split; [by intros a s | intros a b c H1 H2 s; etrans; eauto]. Qed.

Lemma merge_monotonic_signal w i s :
  for_signal (merge_monotonic w i).1 s = N.max (for_signal w s) (for_signal i s).
Proof.
  destruct w as [a l m t], i as [a' l' m' t']. unfold merge_monotonic. cbn [fst].
  destruct s; simpl; repeat (case_match; simpl in *); bool_to_prop; simpl in *; lia.
Qed.

Lemma merge_monotonic_instance w i :
  instance_id (merge_monotonic w i).1 =
    if instance_id w =? 0 then instance_id i else instance_id w.
Proof.
  destruct w as [a l m t], i as [a' l' m' t']. unfold merge_monotonic. cbn [fst].
  simpl. destruct (N.eqb_spec a 0); destruct (N.eqb_spec a' 0); simpl;
    repeat (case_match; simpl in * ); bool_to_prop; simpl in *; congruence.
Qed.

Lemma watermark_ext a b :
  instance_id a = instance_id b -> (forall s, for_signal a s = for_signal b s) -> a = b.
Proof.
  destruct a, b. simpl. intros -> H. pose proof (H Logs). pose proof (H Metrics). pose proof (H Traces).
  simpl in *. congruence.
Qed.

Lemma merge_monotonic_changed w i :
  (merge_monotonic w i).2 = negb (bool_decide ((merge_monotonic w i).1 = w)).
Proof.
  unfold merge_monotonic. cbn [fst snd].
  match goal with |- context [negb (instance_id ?x =? _)] => generalize x end. intros w'.
  destruct w' as [a' l' m' t'], w as [a l m t]. simpl.
  case_bool_decide as E; simpl.
  - injection E as -> -> -> ->. by rewrite !N.eqb_refl.
  - destruct (N.eqb_spec a' a), (N.eqb_spec l' l), (N.eqb_spec m' m), (N.eqb_spec t' t); try done; congruence.
Qed.

Lemma merge_monotonic_le_l w i : wm_le w (merge_monotonic w i).1.
Proof. intros s. rewrite merge_monotonic_signal. lia. Qed.

(** Folding snapshots in the order they arrive. *)
Definition merge_all (w : DiskWatermark) (l : list DiskWatermark) : DiskWatermark :=
  foldl (fun w i => (merge_monotonic w i).1) w l.

Lemma merge_all_signal w l s :
  for_signal (merge_all w l) s = foldr N.max (for_signal w s) (map (fun i => for_signal i s) l).
Proof.
  revert w. induction l as [|i l IH]; intros w; [done|].
  change (merge_all w (i :: l)) with (merge_all (merge_monotonic w i).1 l).
  rewrite IH, merge_monotonic_signal. simpl. clear IH. induction l as [|j l IH]; simpl; [lia | rewrite IH; lia].
Qed.

Global Instance max_perm_proper a : Proper (Permutation ==> eq) (foldr N.max a).
Proof. intros l k Hp. induction Hp; simpl; lia. Qed.

(** ** Properties *)

(** Watermark snapshots may arrive in any order: merging two
    permutations of the same snapshots, all from one buffer instance, gives the
    same watermark, it is at or above every snapshot in every signal, and
    merging any of them again changes nothing (and reports no change). *)
Theorem merge_order_irrelevant w l l' :
  instance_id w <> 0 -> l ≡ₚ l' ->
  merge_all w l = merge_all w l' /\
  (forall i, i ∈ l -> wm_le i (merge_all w l) /\
     (merge_monotonic (merge_all w l) i) = (merge_all w l, false)).
Proof.
  intros Hid Hp.
  assert (Hinst : forall k, instance_id (merge_all w k) = instance_id w).
  { intros k. induction k as [|i k IH] using rev_ind; [done|]. unfold merge_all in *.
    rewrite foldl_app. cbn [foldl]. rewrite merge_monotonic_instance, IH. by destruct (N.eqb_spec (instance_id w) 0). }
  assert (Hle : forall i, i ∈ l -> wm_le i (merge_all w l)).
  { intros i Hi s. rewrite merge_all_signal. clear -Hi. induction Hi; simpl; lia. }
  split.
  - apply watermark_ext; [by rewrite !Hinst|]. intros s. rewrite !merge_all_signal. by rewrite Hp.
  - intros i Hi. split; [by apply Hle|].
    assert (E : (merge_monotonic (merge_all w l) i).1 = merge_all w l).
    { apply watermark_ext.
      - rewrite merge_monotonic_instance, Hinst. by destruct (N.eqb_spec (instance_id w) 0).
      - intros s. rewrite merge_monotonic_signal. pose proof (Hle i Hi s). lia. }
    rewrite (surjective_pairing (merge_monotonic _ _)), merge_monotonic_changed, E.
    by rewrite bool_decide_eq_true_2.
Qed.

Lemma merge_order_irrelevant_witness :
  let w := mkDiskWatermark 9 0 0 0 in
  let a := mkDiskWatermark 9 5 0 2 in let b := mkDiskWatermark 9 3 4 2 in
  merge_all w [a; b] = merge_all w [b; a] /\
  (forall i, i ∈ [a; b] -> wm_le i (merge_all w [a; b]) /\
     merge_monotonic (merge_all w [a; b]) i = (merge_all w [a; b], false)).
Proof. apply merge_order_irrelevant; [discriminate | apply perm_swap]. Defined.
