(* ===== verification/Writer.v ===== *)
(** The segment writer: crates/core/src/buffer/disk.rs, the writer thread of
    [DiskBackend], segment file names, watermark persistence and segment GC.

    The directory is a map from segment id to file content plus the watermark
    file.  Every fallible system call consumes one entry of a fault script:
    [None] succeeds, [Some k] fails, a write after [k] bytes.  [log] is a ghost
    map from segment id to the frames written to it, in order. *)

From S2P Require Import Prelude Arrow Signal Frame Ring Watermark.
Local Open Scope N_scope.

(** ** Segment file names *)

(** [{:020}] of a [u64], which has at most 20 digits. *)
Fixpoint digits (k : nat) (n : N) (acc : list Ascii.ascii) : list Ascii.ascii :=
  match k with
  | O => acc
  | S k => digits k (n / 10) (Ascii.ascii_of_N (48 + n mod 10) :: acc)
  end.

Definition segment_prefix : list Ascii.ascii := String.list_ascii_of_string "segment-".
Definition segment_suffix : list Ascii.ascii := String.list_ascii_of_string ".bin".

Definition segment_file_name (id : N) : list Ascii.ascii :=
  segment_prefix ++ digits 20 id [] ++ segment_suffix.

Definition strip_prefix (p s : list Ascii.ascii) : option (list Ascii.ascii) :=
  if bool_decide (take (length p) s = p) then Some (drop (length p) s) else None.

Definition strip_suffix (p s : list Ascii.ascii) : option (list Ascii.ascii) :=
  let n := (length s - length p)%nat in
  if bool_decide (drop n s = p) && (length p <=? length s)%nat then Some (take n s) else None.

Definition is_ascii_digit (a : Ascii.ascii) : bool :=
  let n := Ascii.N_of_ascii a in (48 <=? n) && (n <=? 57).

Definition digits_value (ds : list Ascii.ascii) : N :=
  foldl (fun v a => 10 * v + (Ascii.N_of_ascii a - 48)) 0 ds.

Definition parse_segment_id (file_name : list Ascii.ascii) : option N :=
  rest ← strip_prefix segment_prefix file_name;
  ds ← strip_suffix segment_suffix rest;
  if negb (length ds =? 20)%nat || negb (forallb is_ascii_digit ds) then None
  else try_from u64_max (digits_value ds).

(** ** Writer state *)

Record WrittenFrame := mkWrittenFrame { wf_segment_id : N; wf_offset : N; wf_len : N }.

(** The path of an active or sealed segment is its id; the file handle's
    position is the end of the file, which is only ever appended to. *)
Record ActiveSegment := mkActiveSegment {
  as_segment_id : N;
  as_bytes_written : N;
  as_max_seq : PerSignal N;
  as_has_frames : bool;
}.

Record SealedSegmentMeta := mkSealedSegmentMeta {
  ss_segment_id : N;
  ss_max_seq : PerSignal N;
  ss_has_frames : bool;
}.

Definition is_fully_acked (m : SealedSegmentMeta) (w : DiskWatermark) : bool :=
  ss_has_frames m && (sget (ss_max_seq m) Logs <=? wm_logs w)
  && (sget (ss_max_seq m) Metrics <=? wm_metrics w)
  && (sget (ss_max_seq m) Traces <=? wm_traces w).

(** Replies go to the channel the tag names. *)
Inductive WriterCommand : Type :=
| AppendEncoded (signal : SignalType) (seq_id rows : N) (frame_bytes : bytes) (reply : N)
| UpdateWatermark (watermark : DiskWatermark) (reply : option N)
| FlushWatermarkAsync (watermark : DiskWatermark) (reply : N)
| FlushWatermarkSync (watermark : DiskWatermark) (reply : N)
| Shutdown.

Record WriterState := mkWriterState {
  files : gmap N bytes;
  watermark_file : option DiskWatermark;
  faults : list (option nat);
  active_segment : option ActiveSegment;
  sealed_segments : list SealedSegmentMeta;
  next_segment_id : N;
  persisted_watermark : DiskWatermark;
  staged_watermark : DiskWatermark;
}.

Global Instance WriterState_eta : RecordEta WriterState := fun w =>
  mkWriterState (files w) (watermark_file w) (faults w) (active_segment w) (sealed_segments w)
    (next_segment_id w) (persisted_watermark w) (staged_watermark w).

(** The outcome of the next fallible system call. *)
Definition syscall (w : WriterState) : option nat * WriterState :=
  match faults w with
  | [] => (None, w)
  | f :: fs => (f, w <| faults := fs |>)
  end.

(** Temporary file, sync, rename: the watermark file changes only on success. *)
Definition write_watermark_atomic (wm : DiskWatermark) (w : WriterState) : result unit string * WriterState :=
  let '(f, w) := syscall w in
  match f with
  | Some _ => (Err "failed to write watermark.json"%string, w)
  | None => (Ok tt, w <| watermark_file := Some wm |>)
  end.

(** [retain] with the removal of each fully acknowledged file; a failed removal
    is ignored and the entry is dropped all the same. *)
Fixpoint gc_loop (segs : list SealedSegmentMeta) (wm : DiskWatermark) (w : WriterState)
  : list SealedSegmentMeta * WriterState :=
  match segs with
  | [] => ([], w)
  | seg :: segs =>
      if is_fully_acked seg wm
      then
        let '(f, w) := syscall w in
        let w := match f with
                 | Some _ => w
                 | None => w <| files := delete (ss_segment_id seg) (files w) |>
                 end in
        gc_loop segs wm w
      else
        let '(kept, w) := gc_loop segs wm w in (seg :: kept, w)
  end.

Definition gc_sealed_segments (wm : DiskWatermark) (w : WriterState) : WriterState :=
  let '(kept, w) := gc_loop (sealed_segments w) wm w in w <| sealed_segments := kept |>.

(** Taking the active segment, syncing it and moving it to the sealed list. *)
Definition seal_active (seg : ActiveSegment) (wm : DiskWatermark) (w : WriterState)
  : result unit string * WriterState :=
  let w := w <| active_segment := None |> in
  let '(f, w) := syscall w in
  match f with
  | Some _ => (Err "failed to sync sealed segment"%string, w)
  | None =>
      let meta := mkSealedSegmentMeta (as_segment_id seg) (as_max_seq seg) (as_has_frames seg) in
      let w := w <| sealed_segments := sealed_segments w ++ [meta] |> in
      (Ok tt, gc_sealed_segments wm w)
  end.

(** A new, empty active segment. *)
Definition open_segment (w : WriterState) : result ActiveSegment string * WriterState :=
  let new_segment_num := next_segment_id w in
  let w := w <| next_segment_id := next_segment_id w +u64 1 |> in
  let '(f, w) := syscall w in
  match f with
  | Some _ => (Err "failed to create segment"%string, w)
  | None =>
      let seg := mkActiveSegment new_segment_num 0 (pconst 0) false in
      (Ok seg, w <| files := <[new_segment_num := []]> (files w) |> <| active_segment := Some seg |>)
  end.

(** [write_all] at the end of the segment's file. *)
Definition write_all (seg : ActiveSegment) (frame : bytes) (w : WriterState)
  : result unit string * WriterState :=
  let '(f, w) := syscall w in
  let content := default [] (files w !! as_segment_id seg) in
  match f with
  | Some k => (Err "failed to write to segment"%string,
      w <| files := <[as_segment_id seg := content ++ take k frame]> (files w) |>)
  | None => (Ok tt, w <| files := <[as_segment_id seg := content ++ frame]> (files w) |>)
  end.

Section Writer.
Context `{Crc}.

(** The checks and the patch at the head of [write_encoded_frame]. *)
Definition prepare_frame (max_payload_len : N) (signal : SignalType) (seq_id rows : N) (frame : bytes)
  : result bytes string :=
  if (length frame <? FRAME_HEADER_LEN)%nat then Err "encoded OTLB frame shorter than header"%string
  else
    let? payload_len := ok_or (try_from u32_max (N.of_nat (length frame - FRAME_HEADER_LEN)))
      "frame payload length overflow"%string in
    if max_payload_len <? payload_len then Err "OTLB frame payload_len exceeds max_payload_len"%string
    else
      let hdr_rows := le_val (slice 16 20 frame) in
      if negb (hdr_rows =? rows) then Err "OTLB frame header row_count mismatch"%string
      else
        let hdr := mkFrameHeader signal 0 hdr_rows payload_len 0 in
        let? (frame, _) := map_err (fun _ => "cannot patch OTLB frame"%string)
          (patch_frame_seq_id frame hdr seq_id) in
        let? _ := ok_or (try_from u32_max (N.of_nat (length frame))) "frame length overflow"%string in
        Ok frame.

(** Roll the active segment if the frame would exceed the segment size. *)
Definition roll_before (segment_size frame_len : N) (wm : DiskWatermark) (w : WriterState)
  : result unit string * WriterState :=
  match active_segment w with
  | Some seg =>
      if (0 <? as_bytes_written seg) && (segment_size <? as_bytes_written seg +u64 frame_len)
      then seal_active seg wm w
      else (Ok tt, w)
  | None => (Ok tt, w)
  end.

Definition ensure_active (w : WriterState) : result ActiveSegment string * WriterState :=
  match active_segment w with
  | Some seg => (Ok seg, w)
  | None => open_segment w
  end.

Definition write_encoded_frame (segment_size max_payload_len : N) (wm : DiskWatermark)
  (signal : SignalType) (seq_id rows : N) (frame : bytes) (w : WriterState)
  : result WrittenFrame string * WriterState :=
  match prepare_frame max_payload_len signal seq_id rows frame with
  | Err e => (Err e, w)
  | Ok frame =>
      let frame_len := N.of_nat (length frame) in
      match roll_before segment_size frame_len wm w with
      | (Err e, w) => (Err e, w)
      | (Ok _, w) =>
          match ensure_active w with
          | (Err e, w) => (Err e, w)
          | (Ok seg, w) =>
              let offset := as_bytes_written seg in
              match write_all seg frame w with
              | (Err e, w) => (Err e, w)
              | (Ok _, w) =>
                  let seg := mkActiveSegment (as_segment_id seg) (as_bytes_written seg +u64 frame_len)
                    (sset (as_max_seq seg) signal (N.max (sget (as_max_seq seg) signal) seq_id)) true in
                  let w := w <| active_segment := Some seg |> in
                  let written := mkWrittenFrame (as_segment_id seg) offset frame_len in
                  if segment_size <=? as_bytes_written seg
                  then
                    match seal_active seg wm w with
                    | (Err e, w) => (Err e, w)
                    | (Ok _, w) => (Ok written, w)
                    end
                  else (Ok written, w)
              end
          end
      end
  end.

(** What the command loop of one group commit accumulates. *)
Record Group := mkGroup {
  append_replies : list (N * result WrittenFrame string);
  wm_oneshot_replies : list N;
  wm_blocking_replies : list N;
  watermark_dirty : bool;
  force_sync_segment : bool;
  should_shutdown : bool;
}.

Definition run_command (segment_size max_payload_len : N) (st : Group * WriterState) (cmd : WriterCommand)
  : Group * WriterState :=
  let '(g, w) := st in
  match cmd with
  | AppendEncoded signal seq_id rows frame reply =>
      let '(res, w) := write_encoded_frame segment_size max_payload_len (persisted_watermark w)
        signal seq_id rows frame w in
      (mkGroup (append_replies g ++ [(reply, res)]) (wm_oneshot_replies g) (wm_blocking_replies g)
        (watermark_dirty g) (force_sync_segment g) (should_shutdown g), w)
  | UpdateWatermark watermark reply =>
      let '(staged, changed) := merge_monotonic (staged_watermark w) watermark in
      (mkGroup (append_replies g)
        (wm_oneshot_replies g ++ match reply with Some r => [r] | None => [] end)
        (wm_blocking_replies g) (watermark_dirty g || changed) (force_sync_segment g) (should_shutdown g),
       w <| staged_watermark := staged |>)
  | FlushWatermarkAsync watermark reply =>
      let '(staged, _) := merge_monotonic (staged_watermark w) watermark in
      (mkGroup (append_replies g) (wm_oneshot_replies g ++ [reply]) (wm_blocking_replies g)
        true true (should_shutdown g), w <| staged_watermark := staged |>)
  | FlushWatermarkSync watermark reply =>
      let '(staged, _) := merge_monotonic (staged_watermark w) watermark in
      (mkGroup (append_replies g) (wm_oneshot_replies g) (wm_blocking_replies g ++ [reply])
        true true (should_shutdown g), w <| staged_watermark := staged |>)
  | Shutdown =>
      (mkGroup (append_replies g) (wm_oneshot_replies g) (wm_blocking_replies g)
        (watermark_dirty g) (force_sync_segment g) true, w)
  end.

(** The group's sync of the active segment. *)
Definition group_sync (sync_on_write : bool) (g : Group) (w : WriterState)
  : option string * WriterState :=
  let wanted := (negb (bool_decide (append_replies g = [])) && sync_on_write) || force_sync_segment g in
  match active_segment w with
  | Some _ =>
      if wanted
      then
        let '(f, w) := syscall w in
        (match f with Some _ => Some "failed to sync active segment"%string | None => None end, w)
      else (None, w)
  | None => (None, w)
  end.

(** Replies of a group: the append results, then the watermark results. *)
Record GroupReplies := mkGroupReplies {
  gr_appends : list (N * result WrittenFrame string);
  gr_watermarks : list (N * result unit string);
}.

Definition finish_group (sync_on_write : bool) (g : Group) (w : WriterState)
  : GroupReplies * WriterState :=
  let '(sync_err, w) := group_sync sync_on_write g w in
  let appends := map (fun '(reply, res) =>
    (reply, match sync_err with Some err => Err err | None => res end)) (append_replies g) in
  if watermark_dirty g
  then
    let '(wm_res, w) :=
      match sync_err with
      | Some err => (Err err, w)
      | None => write_watermark_atomic (staged_watermark w) w
      end in
    let w :=
      if is_ok wm_res
      then gc_sealed_segments (staged_watermark w) (w <| persisted_watermark := staged_watermark w |>)
      else w <| staged_watermark := persisted_watermark w |> in
    (mkGroupReplies appends
       (map (fun r => (r, wm_res)) (wm_oneshot_replies g ++ wm_blocking_replies g)), w)
  else
    (mkGroupReplies appends (map (fun r => (r, Ok tt)) (wm_oneshot_replies g)), w).

(** One group commit: up to 64 commands drained from the channel. *)
Definition writer_batch (segment_size max_payload_len : N) (sync_on_write : bool)
  (cmds : list WriterCommand) (w : WriterState) : GroupReplies * bool * WriterState :=
  let '(g, w) := foldl (run_command segment_size max_payload_len)
    (mkGroup [] [] [] false false false, w) cmds in
  let '(replies, w) := finish_group sync_on_write g w in
  (replies, should_shutdown g, w).

(** The thread: groups as the channel delivered them, until a shutdown. *)
Fixpoint writer_loop (segment_size max_payload_len : N) (sync_on_write : bool)
  (groups : list (list WriterCommand)) (w : WriterState) : list GroupReplies * WriterState :=
  match groups with
  | [] => ([], w)
  | cmds :: groups =>
      let '(replies, stop, w) := writer_batch segment_size max_payload_len sync_on_write cmds w in
      if stop then ([replies], w)
      else
        let '(rest, w) := writer_loop segment_size max_payload_len sync_on_write groups w in
        (replies :: rest, w)
  end.
End Writer.

(** [read_frame_at]: open, seek, take [len] bytes and decode. *)
Definition read_frame_at {RB Sch Row} `{Arrow RB Sch Row} `{Crc} (dir : gmap N bytes)
  (segment_id offset len max_payload_len : N) : result RB PipelineError :=
  match dir !! segment_id with
  | None => Err (Storage "failed to open segment for lease prepare")
  | Some content =>
      let limited := take (N.to_nat len) (drop (N.to_nat offset) content) in
      let effective := N.max max_payload_len (len -s 28) in
      match (decode_frame (file_reader limited) effective).1 with
      | Ok (Some (_, batch)) => Ok batch
      | Ok None => Err (Storage "unexpected EOF reading frame")
      | Err _ => Err (Storage "failed to decode frame")
      end
  end.

(** ** Segment names parse back *)

Lemma digit_char n : n < 10 ->
  Ascii.N_of_ascii (Ascii.ascii_of_N (48 + n)) = 48 + n.
Proof. intros. apply Ascii.N_ascii_embedding. lia. Qed.

Lemma digits_app k n acc : digits k n acc = digits k n [] ++ acc.
Proof.
  revert n acc. induction k as [|k IH]; intros n acc; [done|]. simpl.
  rewrite IH, (IH _ [_]). by rewrite <- (assoc_L (++)).
Qed.

Lemma length_digits k n : length (digits k n []) = k.
Proof.
  revert n. induction k as [|k IH]; intros n; [done|]. simpl. rewrite digits_app, length_app, IH. simpl. lia.
Qed.

Lemma digits_are_digits k n : forallb is_ascii_digit (digits k n []) = true.
Proof.
  revert n. induction k as [|k IH]; intros n; [done|]. simpl. rewrite digits_app, forallb_app, IH. simpl.
  unfold is_ascii_digit. rewrite digit_char by (apply N.mod_lt; lia).
  pose proof (N.mod_lt n 10 ltac:(lia)) as Hd. rewrite andb_true_r. apply andb_true_iff.
  generalize dependent (n mod 10). intros d Hd. split; apply N.leb_le; lia.
Qed.

Lemma digits_value_digits k n : n < 10 ^ N.of_nat k -> digits_value (digits k n []) = n.
Proof.
  unfold digits_value. revert n. induction k as [|k IH]; intros n Hn; simpl.
  - change (10 ^ N.of_nat 0) with 1 in Hn. simpl. lia.
  - rewrite Nat2N.inj_succ, N.pow_succ_r' in Hn. rewrite digits_app, foldl_app. simpl.
    rewrite IH by (apply N.Div0.div_lt_upper_bound; lia).
    rewrite digit_char by (apply N.mod_lt; lia). pose proof (N.div_mod n 10 ltac:(lia)) as Hd.
    rewrite Hd at 3. generalize (n mod 10), (n / 10). intros. lia.
Qed.

Lemma strip_prefix_app p s : strip_prefix p (p ++ s) = Some s.
Proof. unfold strip_prefix. by rewrite take_app_length, drop_app_length, bool_decide_eq_true_2. Qed.

Lemma strip_suffix_app p s : strip_suffix p (s ++ p) = Some s.
Proof.
  unfold strip_suffix. rewrite length_app, Nat.add_sub, drop_app_length, take_app_length.
  rewrite bool_decide_eq_true_2 by done. destruct (Nat.leb_spec (length p) (length s + length p)); [done|lia].
Qed.

(** ** The ghost log *)

Record Entry := mkEntry { e_signal : SignalType; e_seq : N; e_frame : bytes }.

Definition content (es : list Entry) : bytes := concat (map e_frame es).

Definition bounded (ms : PerSignal N) (es : list Entry) : Prop :=
  Forall (fun e => e_seq e <= sget ms (e_signal e)) es.

Definition acked (w : DiskWatermark) (es : list Entry) : Prop :=
  Forall (fun e => e_seq e <= for_signal w (e_signal e)) es.

Lemma content_app es es' : content (es ++ es') = content es ++ content es'.
Proof. unfold content. by rewrite map_app, concat_app. Qed.

Lemma content_snoc es e : content (es ++ [e]) = content es ++ e_frame e.
Proof. rewrite content_app. unfold content at 2. simpl. by rewrite app_nil_r. Qed.

Lemma acked_mono w w' es : wm_le w w' -> acked w es -> acked w' es.
Proof. intros Hle Ha. eapply Forall_impl; [exact Ha|]. intros e He. specialize (Hle (e_signal e)). simpl in *. lia. Qed.

Lemma fully_acked_bounded m w es :
  is_fully_acked m w = true -> bounded (ss_max_seq m) es -> acked w es.
Proof.
  unfold is_fully_acked. intros Ha Hb. bool_to_prop. eapply Forall_impl; [exact Hb|].
  intros [s q f]. simpl. destruct s; simpl in *; lia.
Qed.

Record writer_inv (log : gmap N (list Entry)) (w : WriterState) : Prop := {
  wi_fresh : forall id, is_Some (log !! id) -> id < next_segment_id w;
  wi_sealed_fresh : forall m, m ∈ sealed_segments w -> ss_segment_id m < next_segment_id w;
  wi_active : forall a, active_segment w = Some a ->
    exists es, log !! as_segment_id a = Some es /\
      as_bytes_written a = N.of_nat (length (content es)) /\ bounded (as_max_seq a) es /\
      files w !! as_segment_id a = Some (content es) /\
      as_segment_id a ∉ map ss_segment_id (sealed_segments w);
  wi_sealed : forall m es, m ∈ sealed_segments w -> log !! ss_segment_id m = Some es ->
    bounded (ss_max_seq m) es;
  wi_files : forall id es, log !! id = Some es ->
    files w !! id = Some (content es) \/ acked (persisted_watermark w) es;
  wi_watermark : watermark_file w = Some (persisted_watermark w);
  wi_clean : Forall (fun f => f = None \/ f = Some 0%nat) (faults w);
}.

(** [w'] differs from [w] only in how many system calls were made. *)
Lemma syscall_inv log w f w' :
  writer_inv log w -> syscall w = (f, w') ->
  writer_inv log w' /\ (f = None \/ f = Some 0%nat) /\ exists fs, w' = w <| faults := fs |>.
Proof.
  unfold syscall. intros I. destruct (faults w) as [|f0 fs] eqn:Ef; intros [= <- <-].
  - split_and!; [done | by left |]. exists (faults w). by destruct w.
  - destruct I. rewrite Ef in wi_clean0. apply Forall_cons in wi_clean0 as [Hf Hfs].
    split_and!; [by split | done | by eexists].
Qed.

(** ** Garbage collection *)

Lemma gc_loop_spec segs wm w :
  exists fs fl, gc_loop segs wm w = (filter (fun m => is_fully_acked m wm = false) segs,
      w <| faults := fs |> <| files := fl |>) /\
    (exists used, faults w = used ++ fs) /\
    forall id, fl !! id = files w !! id \/
      (fl !! id = None /\ exists m, m ∈ segs /\ ss_segment_id m = id /\ is_fully_acked m wm = true).
Proof.
  revert w. induction segs as [|m segs IH]; intros w; simpl.
  - exists (faults w), (files w). split_and!; [by destruct w | by exists [] | by left].
  - destruct (is_fully_acked m wm) eqn:Ea.
    + unfold syscall. set (w1 := match (faults w) with [] => _ | _ => _ end).
      assert (exists f w1', w1 = (f, w1') /\ files w1' = files w /\ (exists u, faults w = u ++ faults w1')
        /\ w1' = w <| faults := faults w1' |>) as (f & w1' & -> & Hfl & [u Hu] & Hw1).
      { subst w1. destruct (faults w) as [|f fs] eqn:Ef.
        - exists None, w. rewrite Ef. split_and!; [done|done|by exists []|]. rewrite <- Ef. by destruct w.
        - exists f, (w <| faults := fs |>). split_and!; [done|done|by exists [f]|done]. }
      set (w2 := match f with Some _ => _ | None => _ end).
      destruct (IH w2) as (fs & fl & -> & [u' Hu'] & Hid).
      exists fs, fl. rewrite filter_cons_False by congruence. split_and!.
      * f_equal. subst w2. rewrite Hw1. by destruct f, w.
      * exists (u ++ u'). rewrite Hu, <- (assoc_L (++)), <- Hu'. by destruct f.
      * intros id. destruct (Hid id) as [E | (E & m' & Hm' & Hi & Ha')].
        -- rewrite E. subst w2. destruct f; simpl; rewrite Hfl; [by left|].
           destruct (decide (ss_segment_id m = id)) as [<-|Hne]; [|rewrite lookup_delete_ne by done; by left].
           rewrite lookup_delete_eq. right. split; [done|]. exists m. split_and!; [by left|done|done].
        -- right. split; [done|]. exists m'. split_and!; [by right|done|done].
    + destruct (IH w) as (fs & fl & -> & Hu & Hid). exists fs, fl.
      rewrite filter_cons_True by done. split_and!; [done | done |].
      intros id. destruct (Hid id) as [E | (E & m' & Hm' & Hi & Ha')]; [by left|].
      right. split; [done|]. exists m'. split_and!; [by right|done|done].
Qed.

Lemma gc_inv log w :
  writer_inv log w ->
  exists fs fl segs, gc_sealed_segments (persisted_watermark w) w =
      w <| faults := fs |> <| files := fl |> <| sealed_segments := segs |> /\
    writer_inv log (gc_sealed_segments (persisted_watermark w) w).
Proof.
  intros I. unfold gc_sealed_segments.
  destruct (gc_loop_spec (sealed_segments w) (persisted_watermark w) w) as (fs & fl & -> & [u Hu] & Hid).
  exists fs, fl, (filter (fun m => is_fully_acked m (persisted_watermark w) = false) (sealed_segments w)).
  split; [done|]. set (segs := filter _ _).
  assert (Hsub : forall m, m ∈ segs -> m ∈ sealed_segments w).
  { intros m Hm. by apply list_elem_of_filter in Hm as [_ ?]. }
  destruct I. split; simpl; eauto.
  - intros a Ha. destruct (wi_active0 a Ha) as (es & H1 & H2 & H3 & H4 & H5). exists es.
    split_and!; try done.
    + destruct (Hid (as_segment_id a)) as [-> | (_ & m & Hm & Hi & _)]; [done|].
      destruct H5. apply list_elem_of_fmap. by exists m.
    + intros Hin. apply H5. apply list_elem_of_fmap in Hin as (m & -> & Hm).
      apply list_elem_of_fmap. eauto.
  - intros id es Hl. destruct (wi_files0 id es Hl) as [Hf|]; [|by right].
    destruct (Hid id) as [-> | (_ & m & Hm & <- & Ha)]; [by left|].
    right. eapply fully_acked_bounded; eauto.
  - rewrite Hu in wi_clean0. by apply Forall_app in wi_clean0 as [_ ?].
Qed.

(** ** The writer's steps keep the invariant *)

(** What every step of the append path leaves alone. *)
Record same_marks (w w' : WriterState) : Prop := {
  sm_persisted : persisted_watermark w' = persisted_watermark w;
  sm_staged : staged_watermark w' = staged_watermark w;
  sm_file : watermark_file w' = watermark_file w;
}.

Global Instance same_marks_preorder : PreOrder same_marks.
Proof. split; [by intros w; split | intros a b c [] []; split; congruence]. Qed.

Lemma gc_marks w wm : same_marks w (gc_sealed_segments wm w) /\
  next_segment_id (gc_sealed_segments wm w) = next_segment_id w /\
  active_segment (gc_sealed_segments wm w) = active_segment w.
Proof.
  unfold gc_sealed_segments. destruct (gc_loop_spec (sealed_segments w) wm w) as (fs & fl & -> & _).
  by split_and!.
Qed.

Lemma seal_active_inv log w seg res w' :
  writer_inv log w -> active_segment w = Some seg ->
  seal_active seg (persisted_watermark w) w = (res, w') ->
  writer_inv log w' /\ same_marks w w' /\ next_segment_id w' = next_segment_id w /\
  active_segment w' = None.
Proof.
  intros I Ha. unfold seal_active. set (w0 := w <| active_segment := None |>).
  assert (I0 : writer_inv log w0) by (destruct I; by split).
  destruct (syscall w0) as [f w1] eqn:Es.
  destruct (syscall_inv _ _ _ _ I0 Es) as (I1 & _ & fs & Hw1).
  destruct (wi_active _ _ I seg Ha) as (es & Hl & _ & Hb & _ & _).
  pose proof (wi_fresh _ _ I (as_segment_id seg) ltac:(eauto)) as Hfresh.
  destruct f as [k|]; intros [= <- <-].
  { split_and!; [done | by subst w1; split | by subst w1 | by subst w1]. }
  set (meta := mkSealedSegmentMeta _ _ _).
  set (w2 := w1 <| sealed_segments := sealed_segments w1 ++ [meta] |>).
  assert (I2 : writer_inv log w2).
  { subst w1. destruct I1. split; simpl in *; try done.
    - intros m [Hm | ->%list_elem_of_singleton]%elem_of_app; [by apply wi_sealed_fresh0 | done].
    - intros m es' [Hm | ->%list_elem_of_singleton]%elem_of_app; [by apply wi_sealed0|].
      simpl. rewrite Hl. by intros [= <-]. }
  assert (Hp : persisted_watermark w = persisted_watermark w2) by (by subst w1).
  rewrite Hp. destruct (gc_inv _ _ I2) as (_ & _ & _ & _ & I3).
  destruct (gc_marks w2 (persisted_watermark w2)) as (Hs & Hn & Hact). split_and!; [done| | |].
  - etrans; [|exact Hs]. by subst w1.
  - rewrite Hn. by subst w1.
  - rewrite Hact. by subst w1.
Qed.

Lemma roll_before_inv log w size len res w' :
  writer_inv log w -> roll_before size len (persisted_watermark w) w = (res, w') ->
  writer_inv log w' /\ same_marks w w' /\ next_segment_id w' = next_segment_id w /\
  (forall seg, active_segment w' = Some seg -> is_ok res = true ->
     as_bytes_written seg = 0 \/ as_bytes_written seg +u64 len <= size).
Proof.
  intros I. unfold roll_before. destruct (active_segment w) as [seg|] eqn:Ea.
  2:{ intros [= <- <-]. split_and!; [done|done|done|]. rewrite Ea. done. }
  destruct ((0 <? as_bytes_written seg) && (size <? as_bytes_written seg +u64 len)) eqn:Ec.
  - intros Hs. destruct (seal_active_inv _ _ _ _ _ I Ea Hs) as (I' & Hm & Hn & Hact).
    split_and!; try done. by rewrite Hact.
  - intros [= <- <-]. split_and!; try done. rewrite Ea. intros s [= <-] _.
    apply andb_false_iff in Ec as [Ec|Ec]; bool_to_prop; [left; lia | by right].
Qed.

Lemma open_segment_inv log w res w' :
  writer_inv log w -> active_segment w = None -> next_segment_id w < u64_max ->
  open_segment w = (res, w') ->
  same_marks w w' /\ next_segment_id w' = next_segment_id w + 1 /\
  match res with
  | Err _ => writer_inv log w'
  | Ok seg => active_segment w' = Some seg /\ as_segment_id seg = next_segment_id w /\
      as_bytes_written seg = 0 /\ writer_inv (<[next_segment_id w := []]> log) w'
  end.
Proof.
  intros I Ha Hlt. unfold open_segment. rewrite sat_add_exact by lia.
  set (w0 := w <| next_segment_id := next_segment_id w + 1 |>).
  assert (I0 : writer_inv log w0).
  { destruct I. split; simpl; try done.
    - intros id Hid. specialize (wi_fresh0 id Hid). lia.
    - intros m Hm. specialize (wi_sealed_fresh0 m Hm). lia. }
  destruct (syscall w0) as [f w1] eqn:Es.
  destruct (syscall_inv _ _ _ _ I0 Es) as (I1 & _ & fs & ->).
  destruct f as [k|]; intros [= <- <-]; [by split_and!|]. split_and!; try done.
  assert (Hn : log !! next_segment_id w = None).
  { apply eq_None_not_Some. intros Hs. pose proof (wi_fresh _ _ I _ Hs). lia. }
  destruct I1. split; simpl in *; try done.
  - intros id. destruct (decide (id = next_segment_id w)) as [->|]; [lia|].
    rewrite lookup_insert_ne by done. apply wi_fresh0.
  - intros a [= <-]. exists []. simpl. rewrite !lookup_insert_eq. split_and!; try done; [constructor|].
    intros Hin. apply list_elem_of_fmap in Hin as (m & E & Hm). pose proof (wi_sealed_fresh _ _ I m Hm). lia.
  - intros m es Hm. pose proof (wi_sealed_fresh _ _ I m Hm).
    rewrite lookup_insert_ne by lia. by apply wi_sealed0.
  - intros id es. destruct (decide (id = next_segment_id w)) as [->|].
    + rewrite !lookup_insert_eq. intros [= <-]. by left.
    + rewrite !lookup_insert_ne by done. apply wi_files0.
Qed.

(** One frame at the end of the active segment. *)
Lemma write_all_inv log w seg frame es res w' :
  writer_inv log w -> active_segment w = Some seg -> log !! as_segment_id seg = Some es ->
  write_all seg frame w = (res, w') ->
  same_marks w w' /\ next_segment_id w' = next_segment_id w /\ active_segment w' = Some seg /\
  match res with
  | Err _ => writer_inv log w'
  | Ok _ => forall signal seq bw,
      bw = as_bytes_written seg + N.of_nat (length frame) ->
      writer_inv (<[as_segment_id seg := es ++ [mkEntry signal seq frame]]> log)
        (w' <| active_segment := Some (mkActiveSegment (as_segment_id seg) bw
           (sset (as_max_seq seg) signal (N.max (sget (as_max_seq seg) signal) seq)) true) |>)
  end.
Proof.
  intros I Ha Hl. unfold write_all. destruct (syscall w) as [f w1] eqn:Es.
  destruct (syscall_inv _ _ _ _ I Es) as (I1 & Hf & fs & ->).
  destruct (wi_active _ _ I seg Ha) as (es' & Hl' & Hbw & Hb & Hfile & Hns).
  rewrite Hl in Hl'. injection Hl' as <-.
  simpl. rewrite Hfile. simpl. destruct f as [k|]; intros [= <- <-]; split_and!; try done.
  - destruct Hf as [|[= ->]]; [done|]. rewrite take_0, app_nil_r.
    rewrite insert_id by done. destruct I1. by split.
  - intros signal seq bw ->. destruct I1. split; simpl in *; try done.
    + intros id. destruct (decide (id = as_segment_id seg)) as [->|].
      * intros _. apply wi_fresh0. eauto.
      * rewrite lookup_insert_ne by done. apply wi_fresh0.
    + intros a [= <-]. simpl. exists (es ++ [mkEntry signal seq frame]).
      rewrite !lookup_insert_eq, content_snoc. split_and!; try done.
      * rewrite Hbw, length_app. simpl. lia.
      * apply Forall_app. split.
        -- eapply Forall_impl; [exact Hb|]. intros e He. simpl in *. rewrite sget_sset.
           case_decide; [subst; lia | done].
        -- repeat constructor. simpl. rewrite sget_sset_eq. lia.
    + intros m es' Hm. rewrite lookup_insert_ne.
      * by apply wi_sealed0.
      * intros E. apply Hns. rewrite E. apply list_elem_of_fmap. eauto.
    + intros id es'. destruct (decide (id = as_segment_id seg)) as [->|].
      * rewrite !lookup_insert_eq. intros [= <-]. left. by rewrite content_snoc.
      * rewrite !lookup_insert_ne by done. apply wi_files0.
Qed.

(** ** Appending *)

Definition log_ext (log log' : gmap N (list Entry)) : Prop :=
  forall id es, log !! id = Some es -> exists es', log' !! id = Some (es ++ es').

Global Instance log_ext_preorder : PreOrder log_ext.
Proof.
  split.
  - intros log id es Hl. exists []. by rewrite app_nil_r.
  - intros a b c H1 H2 id es Hl. destruct (H1 _ _ Hl) as [e1 E1]. destruct (H2 _ _ E1) as [e2 E2].
    exists (e1 ++ e2). by rewrite (assoc_L (++)).
Qed.

Lemma log_ext_insert log id es e :
  log !! id = Some es -> log_ext log (<[id := es ++ [e]]> log).
Proof.
  intros Hl i es' Hi. destruct (decide (i = id)) as [->|Hne].
  - rewrite Hl in Hi. injection Hi as <-. exists [e]. by rewrite lookup_insert_eq.
  - exists []. by rewrite lookup_insert_ne, app_nil_r.
Qed.

Lemma log_ext_fresh log id es : log !! id = None -> log_ext log (<[id := es]> log).
Proof.
  intros Hn i es' Hi. exists []. rewrite app_nil_r, lookup_insert_ne; [done | congruence].
Qed.

(** [wf] is where entry [e] stands. *)
Definition located (log : gmap N (list Entry)) (wf : WrittenFrame) (e : Entry) : Prop :=
  exists pre post, log !! wf_segment_id wf = Some (pre ++ e :: post) /\
    wf_offset wf = N.of_nat (length (content pre)) /\ wf_len wf = N.of_nat (length (e_frame e)).

Lemma located_ext log log' wf e : log_ext log log' -> located log wf e -> located log' wf e.
Proof.
  intros Hx (pre & post & Hl & Ho & Hn). destruct (Hx _ _ Hl) as [es' E].
  exists pre, (post ++ es'). split_and!; [|done..]. by rewrite E, <- (assoc_L (++)).
Qed.

Section WriterProofs.
Context `{Crc}.

Lemma prepare_frame_length max signal seq rows frame f :
  prepare_frame max signal seq rows frame = Ok f -> N.of_nat (length f) <= u32_max.
Proof.
  unfold prepare_frame. repeat (case_match; try done). simplify_eq/=.
  repeat match goal with
  | H : ok_or (try_from _ _) _ = Ok _ |- _ =>
      unfold ok_or in H; destruct (try_from _ _) eqn:E in H; [|done]; apply try_from_Some in E as [-> E]
  end. intros [= <-]. done.
Qed.

Lemma ensure_active_inv log w res w' :
  writer_inv log w -> next_segment_id w < u64_max -> ensure_active w = (res, w') ->
  exists log', writer_inv log' w' /\ log_ext log log' /\ same_marks w w' /\
    next_segment_id w' <= next_segment_id w + 1 /\
    forall seg, res = Ok seg -> active_segment w' = Some seg /\
      (active_segment w = Some seg \/ as_bytes_written seg = 0).
Proof.
  intros I Hn. unfold ensure_active. destruct (active_segment w) as [seg|] eqn:Ea.
  - intros [= <- <-]. exists log. split_and!; [done|done|done|lia|]. intros s [= <-]. split; [done|by left].
  - intros Ho. destruct (open_segment_inv _ _ _ _ I Ea Hn Ho) as (Hm & Hnx & Hres).
    assert (Hnone : log !! next_segment_id w = None).
    { apply eq_None_not_Some. intros Hs. pose proof (wi_fresh _ _ I _ Hs). lia. }
    destruct res as [seg|e].
    + destruct Hres as (Ha & _ & Hb & I'). exists (<[next_segment_id w := []]> log).
      split_and!; [done| by apply log_ext_fresh |done|lia|]. intros s [= <-]. split; [done|by right].
    + exists log. split_and!; [done|done|done|lia|done].
Qed.

Lemma write_encoded_frame_inv log w size max signal seq rows frame res w' :
  writer_inv log w -> next_segment_id w < u64_max -> size < u64_max ->
  write_encoded_frame size max (persisted_watermark w) signal seq rows frame w = (res, w') ->
  exists log', writer_inv log' w' /\ log_ext log log' /\ same_marks w w' /\
    next_segment_id w' <= next_segment_id w + 1 /\
    forall wf, res = Ok wf -> exists f, prepare_frame max signal seq rows frame = Ok f /\
      located log' wf (mkEntry signal seq f).
Proof.
  intros I Hn Hsz. unfold write_encoded_frame.
  destruct (prepare_frame max signal seq rows frame) as [f|e] eqn:Ep.
  2:{ intros [= <- <-]. exists log. split_and!; [done|done|done|lia|done]. }
  pose proof (prepare_frame_length _ _ _ _ _ _ Ep) as Hlen.
  destruct (roll_before _ _ _ w) as [r1 w1] eqn:E1.
  destruct (roll_before_inv _ _ _ _ _ _ I E1) as (I1 & M1 & N1 & Hroom).
  destruct r1 as [u|e]; [|intros [= <- <-]; exists log; split_and!; [done|done|done|lia|done]].
  destruct (ensure_active w1) as [r2 w2] eqn:E2. rewrite <- N1 in Hn.
  destruct (ensure_active_inv _ _ _ _ I1 Hn E2) as (log2 & I2 & X2 & M2 & N2 & Hact).
  assert (M12 : same_marks w w2) by (by etrans).
  destruct r2 as [seg|e]; [|intros [= <- <-]; exists log2; split_and!; [done|done|done|lia|done]].
  destruct (Hact seg eq_refl) as [Ha Hb].
  destruct (wi_active _ _ I2 seg Ha) as (es & Hl & Hbw & _).
  destruct (write_all seg f w2) as [r3 w3] eqn:E3.
  destruct (write_all_inv _ _ _ _ _ _ _ I2 Ha Hl E3) as (M3 & N3 & _ & Hres).
  assert (M13 : same_marks w w3) by (by etrans).
  destruct r3 as [u3|e]; [|intros [= <- <-]; exists log2; split_and!; [done|done|done|lia|done]].
  assert (Hsat : as_bytes_written seg +u64 N.of_nat (length f)
    = as_bytes_written seg + N.of_nat (length f)).
  { apply sat_add_exact. unfold u32_max, u64_max in *. destruct Hb as [Hb | ->]; [|lia].
    specialize (Hroom seg Hb eq_refl). unfold sat_add, u64_max in Hroom. lia. }
  rewrite Hsat. specialize (Hres signal seq _ eq_refl).
  set (log3 := <[as_segment_id seg := es ++ [mkEntry signal seq f]]> log2) in *.
  set (seg' := mkActiveSegment _ _ _ _) in *. set (w4 := w3 <| active_segment := Some seg' |>) in *.
  assert (X3 : log_ext log log3) by (etrans; [exact X2 | by apply log_ext_insert]).
  assert (Hloc : located log3 (mkWrittenFrame (as_segment_id seg') (as_bytes_written seg) (N.of_nat (length f)))
    (mkEntry signal seq f)).
  { exists es, []. simpl. rewrite Hbw. split_and!; try done. apply lookup_insert_eq. }
  assert (M4 : same_marks w w4) by (etrans; [exact M13 | by split]).
  destruct (size <=? as_bytes_written seg').
  - rewrite <- (sm_persisted _ _ M4). destruct (seal_active seg' _ w4) as [r5 w5] eqn:E5.
    destruct (seal_active_inv _ _ _ _ _ Hres eq_refl E5) as (I5 & M5 & N5 & _).
    assert (next_segment_id w5 <= next_segment_id w + 1) by (rewrite N5; simpl; lia).
    destruct r5; intros [= <- <-]; exists log3; split_and!; try done; try (by etrans).
    intros wf [= <-]. eauto.
  - intros [= <- <-]. exists log3. split_and!; try done; [simpl; lia|]. intros wf [= <-]. eauto.
Qed.
End WriterProofs.

(** ** Group commit *)

Section Batch.
Context `{Crc}.
Variables segment_size max_payload_len : N.

Definition cmd_watermark (c : WriterCommand) : option DiskWatermark :=
  match c with
  | UpdateWatermark wm _ | FlushWatermarkAsync wm _ | FlushWatermarkSync wm _ => Some wm
  | _ => None
  end.

(** An append reply names a frame of the batch, standing where it says. *)
Definition append_ok (cmds : list WriterCommand) (log : gmap N (list Entry))
  (r : N * result WrittenFrame string) : Prop :=
  forall wf, r.2 = Ok wf -> exists signal seq rows frame f,
    AppendEncoded signal seq rows frame r.1 ∈ cmds /\
    prepare_frame max_payload_len signal seq rows frame = Ok f /\
    located log wf (mkEntry signal seq f).

Lemma append_ok_mono cmds cmds' log log' r :
  (forall c, c ∈ cmds -> c ∈ cmds') -> log_ext log log' -> append_ok cmds log r -> append_ok cmds' log' r.
Proof.
  intros Hc Hl Hr wf Hwf. destruct (Hr wf Hwf) as (s & q & n & fr & f & Hin & Hp & Hloc).
  exists s, q, n, fr, f. split_and!; [by apply Hc | done | by eapply located_ext].
Qed.

Record group_inv (w0 : WriterState) (log0 : gmap N (list Entry)) (cmds : list WriterCommand)
  (g : Group) (log : gmap N (list Entry)) (w : WriterState) : Prop := {
  gi_inv : writer_inv log w;
  gi_ext : log_ext log0 log;
  gi_persisted : persisted_watermark w = persisted_watermark w0;
  gi_next : next_segment_id w <= next_segment_id w0 + N.of_nat (length cmds);
  gi_staged : wm_le (persisted_watermark w) (staged_watermark w);
  gi_clean : watermark_dirty g = false -> staged_watermark w = persisted_watermark w;
  gi_marks : forall c wm, c ∈ cmds -> cmd_watermark c = Some wm -> wm_le wm (staged_watermark w);
  gi_appends : Forall (append_ok cmds log) (append_replies g);
}.

Lemma marks_snoc cmds cmd st st' :
  (forall c wm, c ∈ cmds -> cmd_watermark c = Some wm -> wm_le wm st) ->
  wm_le st st' -> (forall wm, cmd_watermark cmd = Some wm -> wm_le wm st') ->
  forall c wm, c ∈ cmds ++ [cmd] -> cmd_watermark c = Some wm -> wm_le wm st'.
Proof.
  intros H1 H2 H3 c wm [Hc | ->%list_elem_of_singleton]%elem_of_app Hw; [|by apply H3].
  etrans; [by eapply H1|done].
Qed.

Lemma merge_monotonic_le_r w i : wm_le i (merge_monotonic w i).1.
Proof. intros s. rewrite merge_monotonic_signal. lia. Qed.

(** Merging a snapshot into the staged watermark. *)
Lemma staged_group_inv w0 log0 cmds g log w cmd wm g' :
  group_inv w0 log0 cmds g log w -> cmd_watermark cmd = Some wm ->
  append_replies g' = append_replies g ->
  (watermark_dirty g' = false -> watermark_dirty g = false /\ (merge_monotonic (staged_watermark w) wm).2 = false) ->
  group_inv w0 log0 (cmds ++ [cmd]) g' log
    (w <| staged_watermark := (merge_monotonic (staged_watermark w) wm).1 |>).
Proof.
  intros [] Hc Ha Hd. split; cbn -[merge_monotonic]; try done.
  - destruct gi_inv0. by split.
  - rewrite length_app. simpl. lia.
  - etrans; [done | apply merge_monotonic_le_l].
  - intros Hdirty. destruct (Hd Hdirty) as [Hd1 Hd2].
    rewrite merge_monotonic_changed in Hd2. bool_to_prop. rewrite Hd2. by apply gi_clean0.
  - eapply marks_snoc; [done | apply merge_monotonic_le_l |]. intros wm' E.
    rewrite Hc in E. injection E as <-. apply merge_monotonic_le_r.
  - rewrite Ha. eapply Forall_impl; [done|]. intros r. apply append_ok_mono; [|done].
    intros c Hin. apply elem_of_app. by left.
Qed.

Lemma run_command_inv w0 log0 cmds g log w cmd :
  group_inv w0 log0 cmds g log w -> segment_size < u64_max ->
  next_segment_id w0 + N.of_nat (length cmds) < u64_max ->
  let '(g', w') := run_command segment_size max_payload_len (g, w) cmd in
  exists log', group_inv w0 log0 (cmds ++ [cmd]) g' log' w'.
Proof.
  intros G Hsz Hnx. destruct cmd as [signal seq rows frame reply|wm reply|wm reply|wm reply|]; cbn [run_command].
  - destruct (write_encoded_frame _ _ _ _ _ _ _ w) as [res w'] eqn:E.
    destruct G. edestruct write_encoded_frame_inv as (log' & I' & X' & M' & N' & Hok);
      [exact gi_inv0 | lia | exact Hsz | exact E |].
    destruct M'. exists log'. split; simpl; try done; try congruence.
    + by etrans.
    + rewrite length_app. simpl. lia.
    + intros Hd. rewrite sm_persisted0, sm_staged0. by apply gi_clean0.
    + rewrite sm_staged0. eapply marks_snoc; [done|done|by intros].
    + apply Forall_app. split.
      * eapply Forall_impl; [done|]. intros r. apply append_ok_mono; [|done].
        intros c Hin. apply elem_of_app. by left.
      * repeat constructor. intros wf Hwf. simpl in Hwf. destruct (Hok wf Hwf) as (f & Hp & Hloc).
        exists signal, seq, rows, frame, f. split_and!; [|done|done]. apply elem_of_app. right. by left.
  - pose proof (surjective_pairing (merge_monotonic (staged_watermark w) wm)) as ->. cbn zeta.
    exists log. eapply staged_group_inv; [exact G | done | done |]. intros Hd. by apply orb_false_iff in Hd.
  - pose proof (surjective_pairing (merge_monotonic (staged_watermark w) wm)) as ->. cbn zeta.
    exists log. by eapply staged_group_inv.
  - pose proof (surjective_pairing (merge_monotonic (staged_watermark w) wm)) as ->. cbn zeta.
    exists log. by eapply staged_group_inv.
  - exists log. destruct G. split; simpl; try done.
    + rewrite length_app. simpl. lia.
    + eapply marks_snoc; [done|done|by intros].
    + eapply Forall_impl; [done|]. intros r. apply append_ok_mono; [|done].
      intros c Hin. apply elem_of_app. by left.
Qed.

Lemma run_commands_inv w0 log0 todo : forall cmds g log w,
  group_inv w0 log0 cmds g log w -> segment_size < u64_max ->
  next_segment_id w0 + N.of_nat (length (cmds ++ todo)) <= u64_max ->
  let '(g', w') := foldl (run_command segment_size max_payload_len) (g, w) todo in
  exists log', group_inv w0 log0 (cmds ++ todo) g' log' w'.
Proof.
  induction todo as [|cmd todo IH]; intros cmds g log w G Hsz Hn.
  { exists log. by rewrite app_nil_r. }
  rewrite length_app in Hn. cbn [foldl length] in *.
  pose proof (run_command_inv _ _ _ _ _ _ cmd G Hsz ltac:(lia)) as Hstep.
  destruct (run_command _ _ (g, w) cmd) as [g1 w1]. destruct Hstep as [log1 G1].
  specialize (IH (cmds ++ [cmd]) g1 log1 w1 G1 Hsz).
  rewrite <- (assoc_L (++)) in IH. apply IH. rewrite length_app. simpl in *. lia.
Qed.

Lemma group_sync_inv log w sync g e w' :
  writer_inv log w -> group_sync sync g w = (e, w') ->
  writer_inv log w' /\ same_marks w w' /\ next_segment_id w' = next_segment_id w.
Proof.
  intros I. unfold group_sync. destruct (active_segment w); [|by intros [= <- <-]].
  case_match; [|by intros [= <- <-]]. destruct (syscall w) as [f w1] eqn:Es.
  destruct (syscall_inv _ _ _ _ I Es) as (I1 & _ & fs & ->). intros [= <- <-]. by split_and!.
Qed.

Lemma finish_group_inv w0 log0 cmds g log w sync :
  group_inv w0 log0 cmds g log w ->
  let '(replies, w') := finish_group sync g w in
  writer_inv log w' /\ staged_watermark w' = persisted_watermark w' /\
  wm_le (persisted_watermark w0) (persisted_watermark w') /\
  next_segment_id w' = next_segment_id w /\
  Forall (append_ok cmds log) (gr_appends replies) /\
  (forall tag c wm, (tag, Ok tt) ∈ gr_watermarks replies -> c ∈ cmds -> cmd_watermark c = Some wm ->
     wm_le wm (persisted_watermark w')).
Proof.
  intros G. unfold finish_group. destruct (group_sync sync g w) as [err w1] eqn:Es.
  destruct (group_sync_inv _ _ _ _ _ _ (gi_inv _ _ _ _ _ _ G) Es) as (I1 & M1 & N1).
  destruct M1 as [Mp Ms Mf]. destruct G as [_ _ Gp _ Gs Gc Gm Ga].
  set (appends := map _ (append_replies g)).
  assert (Happ : Forall (append_ok cmds log) appends).
  { apply Forall_fmap. eapply Forall_impl; [exact Ga|]. intros [tag res] Hr. simpl.
    intros wf. destruct err; simpl; [done|apply Hr]. }
  destruct (watermark_dirty g) eqn:Hd; cbv zeta.
  2:{ simpl. split_and!; try done; [by rewrite Mp, Ms, Gc | by rewrite Mp, Gp |].
    intros tag c wm _ Hc Hw. rewrite Mp, <- (Gc eq_refl). by eapply Gm. }
  assert (Hfail : forall w2 : WriterState, (exists fs, w2 = w1 <| faults := fs |>) -> writer_inv log w2 ->
    forall e : string,
    let w3 := w2 <| staged_watermark := persisted_watermark w2 |> in
    writer_inv log w3 /\ staged_watermark w3 = persisted_watermark w3 /\
    wm_le (persisted_watermark w0) (persisted_watermark w3) /\ next_segment_id w3 = next_segment_id w /\
    Forall (append_ok cmds log) appends /\
    (forall tag c wm, (tag, Ok tt) ∈ map (fun r => (r, Err e : result unit string)) (wm_oneshot_replies g ++ wm_blocking_replies g) ->
       c ∈ cmds -> cmd_watermark c = Some wm -> wm_le wm (persisted_watermark w3))).
  { intros w2 [fs ->] I2 e. simpl. split_and!; try done.
    - destruct I2. by split.
    - by rewrite Mp, Gp.
    - intros tag c wm Hin. apply list_elem_of_fmap in Hin as (r & [=] & _). }
  destruct err as [err|].
  - simpl. apply (Hfail w1); [by exists (faults w1); destruct w1 | done].
  - unfold write_watermark_atomic. destruct (syscall w1) as [f w2] eqn:Ef.
    destruct (syscall_inv _ _ _ _ I1 Ef) as (I2 & _ & fs & ->).
    destruct f as [k|]; cbn [is_ok].
    { apply Hfail; [by eexists | done]. }
    set (w3 := (w1 <| faults := fs |>) <| watermark_file := Some (staged_watermark (w1 <| faults := fs |>)) |>).
    set (w4 := w3 <| persisted_watermark := staged_watermark w3 |>).
    assert (I4 : writer_inv log w4).
    { destruct I2. split; simpl in *; try done. intros id es Hl.
      destruct (wi_files0 id es Hl) as [?|Ha]; [by left | right]. eapply acked_mono; [|exact Ha].
      by rewrite Mp, Ms. }
    match goal with |- context [gc_sealed_segments ?a ?b] =>
      change (gc_sealed_segments a b) with (gc_sealed_segments (persisted_watermark w4) w4) end.
    destruct (gc_inv _ _ I4) as (fs' & fl & segs & E & I5). rewrite E in *. simpl.
    split_and!; try done.
    + rewrite Ms. by etrans; [|exact Gs]; rewrite Gp.
    + intros tag c wm _ Hc Hw. rewrite Ms. by eapply Gm.
Qed.

Lemma writer_batch_inv log w cmds sync :
  writer_inv log w -> staged_watermark w = persisted_watermark w -> segment_size < u64_max ->
  next_segment_id w + N.of_nat (length cmds) <= u64_max ->
  let '(replies, _, w') := writer_batch segment_size max_payload_len sync cmds w in
  exists log', writer_inv log' w' /\ log_ext log log' /\
    staged_watermark w' = persisted_watermark w' /\
    wm_le (persisted_watermark w) (persisted_watermark w') /\
    next_segment_id w' <= next_segment_id w + N.of_nat (length cmds) /\
    Forall (append_ok cmds log') (gr_appends replies) /\
    (forall tag c wm, (tag, Ok tt) ∈ gr_watermarks replies -> c ∈ cmds -> cmd_watermark c = Some wm ->
       wm_le wm (persisted_watermark w')).
Proof.
  intros I Hs Hsz Hn. unfold writer_batch.
  assert (G0 : group_inv w log [] (mkGroup [] [] [] false false false) log w).
  { split; simpl; try done; [lia | by rewrite Hs | intros c wm Hc; by apply not_elem_of_nil in Hc]. }
  pose proof (run_commands_inv _ _ cmds [] _ _ _ G0 Hsz Hn) as Hrun.
  destruct (foldl _ _ cmds) as [g w1]. destruct Hrun as [log1 G1].
  pose proof (finish_group_inv _ _ _ _ _ _ sync G1) as Hf.
  destruct (finish_group sync g w1) as [replies w2].
  destruct Hf as (I2 & Hs2 & Hle & N2 & Ha & Hw). exists log1.
  split_and!; try done; [apply (gi_ext _ _ _ _ _ _ G1)|].
  rewrite N2. apply (gi_next _ _ _ _ _ _ G1).
Qed.
End Batch.

(** ** The whole thread *)

Lemma writer_loop_inv `{Crc} size max sync groups log w :
  writer_inv log w -> staged_watermark w = persisted_watermark w -> size < u64_max ->
  next_segment_id w + N.of_nat (length (concat groups)) <= u64_max ->
  let '(rs, w') := writer_loop size max sync groups w in
  exists log', writer_inv log' w' /\ log_ext log log' /\
    wm_le (persisted_watermark w) (persisted_watermark w') /\
    forall r, r ∈ rs -> Forall (append_ok max (concat groups) log') (gr_appends r).
Proof.
  revert log w. induction groups as [|cmds groups IH]; intros log w I Hs Hsz Hn; cbn [writer_loop].
  { exists log. split_and!; try done. intros r Hr. by apply not_elem_of_nil in Hr. }
  cbn [concat] in *. rewrite length_app in Hn.
  pose proof (writer_batch_inv size max log w cmds sync I Hs Hsz ltac:(lia)) as Hb.
  destruct (writer_batch size max sync cmds w) as [[r stop] w1].
  destruct Hb as (log1 & I1 & X1 & Hs1 & Hle1 & Hn1 & Ha1 & _).
  assert (Hmono : forall log', log_ext log1 log' -> Forall (append_ok max (cmds ++ concat groups) log') (gr_appends r)).
  { intros log' X. eapply Forall_impl; [exact Ha1|]. intros x. apply append_ok_mono; [|done].
    intros c Hc. apply elem_of_app. by left. }
  destruct stop.
  - exists log1. split_and!; try done. intros r' ->%list_elem_of_singleton. by apply Hmono.
  - specialize (IH log1 w1 I1 Hs1 Hsz ltac:(lia)). destruct (writer_loop size max sync groups w1) as [rs w2].
    destruct IH as (log2 & I2 & X2 & Hle2 & Ha2). exists log2.
    split_and!; [done | by etrans | by etrans |].
    intros r' [->|Hr]%elem_of_cons; [by apply Hmono|]. eapply Forall_impl; [by apply Ha2|].
    intros x. apply append_ok_mono; [|done]. intros c Hc. apply elem_of_app. by right.
Qed.

(** A located entry above the persisted watermark is in its file. *)
Lemma located_in_file log w wf e :
  writer_inv log w -> located log wf e -> for_signal (persisted_watermark w) (e_signal e) < e_seq e ->
  exists c, files w !! wf_segment_id wf = Some c /\
    take (N.to_nat (wf_len wf)) (drop (N.to_nat (wf_offset wf)) c) = e_frame e.
Proof.
  intros I (pre & post & Hl & Ho & Hn) Hlt. destruct (wi_files _ _ I _ _ Hl) as [Hf | Ha].
  - exists (content (pre ++ e :: post)). split; [done|].
    rewrite Ho, Hn, !Nat2N.id, content_app, drop_app_length. apply take_app_length.
  - apply Forall_app in Ha as [_ Ha]. apply Forall_cons in Ha as [Ha _]. simpl in Ha. lia.
Qed.

Lemma patch_frame_header `{Crc} frame h h' q frame' h1 :
  fh_payload_len h = fh_payload_len h' -> patch_frame_seq_id frame h q = Ok (frame', h1) ->
  exists h2, patch_frame_seq_id frame h' q = Ok (frame', h2).
Proof.
  unfold patch_frame_seq_id. intros <-. case_match; [done|]. intros [= <- _]. eauto.
Qed.

(** What the writer puts on disk for a pre-encoded frame is that batch's frame
    at the reserved sequence number. *)
Lemma prepare_is_frame {RB Sch Row} `{Arrow RB Sch Row} `{Crc} max signal seq rows batch h frame f :
  encode_frame signal 0 batch [] = Ok (h, frame) -> prepare_frame max signal seq rows frame = Ok f ->
  exists h' payload, is_frame signal seq batch h' f payload /\ fh_payload_len h' <= max.
Proof.
  intros He. destruct (encode_frame_ok _ _ _ _ _ _ He) as (fr & p & E & F). simpl in E. subst fr.
  pose proof (is_frame_length _ _ _ _ _ _ F) as Hlen.
  unfold prepare_frame. case_match; [done|].
  destruct (try_from u32_max _) as [pl|] eqn:Ep; simpl; [|done]. apply try_from_Some in Ep as [-> Hpl].
  destruct (N.ltb_spec max (N.of_nat (length frame - FRAME_HEADER_LEN))); [done|].
  case_match; [done|]. set (hdr := mkFrameHeader _ _ _ _ _).
  destruct (patch_is_frame _ _ _ _ _ _ seq F) as (f' & h' & Hp & F').
  destruct (patch_frame_header frame h hdr seq f' h') as [h2 ->]; [simpl; lia | done |].
  simpl. destruct (try_from u32_max _); [|done]. intros [= <-]. exists h', p. split; [done|].
  pose proof (isf_len _ _ _ _ _ _ F). pose proof (isf_len _ _ _ _ _ _ F'). lia.
Qed.

Lemma read_back {RB Sch Row} `{ArrowLaws RB Sch Row} `{Crc} log w wf signal seq batch h f payload max :
  writer_inv log w -> located log wf (mkEntry signal seq f) -> seq <= u64_max ->
  is_frame signal seq batch h f payload -> fh_payload_len h <= max ->
  for_signal (persisted_watermark w) signal < seq ->
  read_frame_at (files w) (wf_segment_id wf) (wf_offset wf) (wf_len wf) max = Ok batch.
Proof.
  intros I Hloc Hseq F Hmax Hlt. destruct (located_in_file _ _ _ _ I Hloc Hlt) as (c & Hc & Ht).
  unfold read_frame_at. rewrite Hc, Ht, decode_file. simpl e_frame.
  rewrite <- (app_nil_r f), (decode_bytes_frame _ _ _ _ _ _ _ _ Hseq F); [done|]. lia.
Qed.

(** ** Properties *)

(** A segment file name parses back to its id, for every [u64]; so the
    scan of the buffer directory finds every segment the writer created. *)
Theorem segment_name_round_trip id :
  id <= u64_max -> parse_segment_id (segment_file_name id) = Some id.
Proof.
  intros Hid. unfold parse_segment_id, segment_file_name.
  rewrite strip_prefix_app. cbn [mbind option_bind]. rewrite strip_suffix_app. cbn [mbind option_bind].
  rewrite length_digits, digits_are_digits. cbn [negb orb Nat.eqb].
  rewrite digits_value_digits; [by apply try_from_Some|].
  unfold u64_max in Hid. change (10 ^ N.of_nat 20) with 100000000000000000000. lia.
Qed.

Lemma segment_name_round_trip_witness :
  parse_segment_id (segment_file_name 18446744073709551615) = Some 18446744073709551615.
Proof. apply (segment_name_round_trip 18446744073709551615). reflexivity. Defined.

(** An acknowledged append reads back. *)
Lemma acked_append_spec {RB Sch Row} `{ArrowLaws RB Sch Row} `{Crc}
  size max sync groups log w rs w' r tag wf :
  writer_inv log w -> staged_watermark w = persisted_watermark w -> size < u64_max ->
  next_segment_id w + N.of_nat (length (concat groups)) <= u64_max ->
  writer_loop size max sync groups w = (rs, w') -> r ∈ rs -> (tag, Ok wf) ∈ gr_appends r ->
  exists signal seq rows frame, AppendEncoded signal seq rows frame tag ∈ concat groups /\
    forall (batch : RB) h, encode_frame signal 0 batch [] = Ok (h, frame) ->
      seq <= u64_max -> for_signal (persisted_watermark w') signal < seq ->
      read_frame_at (files w') (wf_segment_id wf) (wf_offset wf) (wf_len wf) max = Ok batch.
Proof.
  intros I Hs Hsz Hn E Hr Hin. pose proof (writer_loop_inv size max sync groups log w I Hs Hsz Hn) as Hl.
  rewrite E in Hl. destruct Hl as (log' & I' & _ & _ & Happ).
  specialize (Happ r Hr). rewrite Forall_forall in Happ.
  destruct (Happ _ Hin wf eq_refl) as (s & q & n & fr & f & Hc & Hp & Hloc).
  exists s, q, n, fr. split; [done|]. intros batch h He Hq Hlt.
  destruct (prepare_is_frame _ _ _ _ _ _ _ _ He Hp) as (h' & p & F & Hle).
  by eapply read_back.
Qed.

(** C4 (acked_append_reads_back). Whatever groups the writer thread processes and whichever
    system calls fail without a partial write, every append it acknowledged
    stands for one of the commands; while its sequence number is above the
    persisted watermark, the segment still exists and reading the returned
    location gives back the batch: garbage collection and rolling never lose an
    unacknowledged frame. *)
Theorem acked_append_reads_back {RB Sch Row} `{ArrowLaws RB Sch Row} `{Crc}
  size max sync groups log w rs w' r tag wf :
  writer_inv log w -> staged_watermark w = persisted_watermark w -> size < u64_max ->
  next_segment_id w + N.of_nat (length (concat groups)) <= u64_max ->
  writer_loop size max sync groups w = (rs, w') -> r ∈ rs -> (tag, Ok wf) ∈ gr_appends r ->
  exists signal seq rows frame, AppendEncoded signal seq rows frame tag ∈ concat groups /\
    forall (batch : RB) h, encode_frame signal 0 batch [] = Ok (h, frame) ->
      seq <= u64_max -> for_signal (persisted_watermark w') signal < seq ->
      read_frame_at (files w') (wf_segment_id wf) (wf_offset wf) (wf_len wf) max = Ok batch.
Proof. apply acked_append_spec. Qed.

(** In every group the persisted watermark never moves back, equals
    the content of watermark.json, and an [Ok] reply to any watermark command
    means that every snapshot of the group is at or below what is on disk; a
    failed write or sync rolls the staged watermark back to the persisted one. *)
Theorem watermark_durable `{Crc} size max sync cmds log w :
  writer_inv log w -> staged_watermark w = persisted_watermark w -> size < u64_max ->
  next_segment_id w + N.of_nat (length cmds) <= u64_max ->
  let '(replies, _, w') := writer_batch size max sync cmds w in
  wm_le (persisted_watermark w) (persisted_watermark w') /\
  watermark_file w' = Some (persisted_watermark w') /\
  staged_watermark w' = persisted_watermark w' /\
  (forall tag c wm, (tag, Ok tt) ∈ gr_watermarks replies -> c ∈ cmds -> cmd_watermark c = Some wm ->
     wm_le wm (persisted_watermark w')).
Proof.
  intros I Hs Hsz Hn. pose proof (writer_batch_inv size max log w cmds sync I Hs Hsz Hn) as Hb.
  destruct (writer_batch size max sync cmds w) as [[r stop] w1].
  destruct Hb as (log1 & I1 & _ & Hs1 & Hle1 & _ & _ & Hw).
  split_and!; try done. apply (wi_watermark _ _ I1).
Qed.

(** ** Witnesses *)

Definition demo_start (fs : list (option nat)) : WriterState :=
  mkWriterState ∅ (Some (mkDiskWatermark 5 0 0 0)) fs None [] 1
    (mkDiskWatermark 5 0 0 0) (mkDiskWatermark 5 0 0 0).

Lemma demo_start_inv fs : Forall (fun f => f = None \/ f = Some 0%nat) fs -> writer_inv ∅ (demo_start fs).
Proof.
  intros Hfs. split; simpl; try done.
  - intros id. rewrite lookup_empty. by intros [? ?].
  - intros m Hm. by apply not_elem_of_nil in Hm.
Qed.

Import Toy.
Definition demo_frame (s : SignalType) (b : batch) : bytes :=
  match encode_frame s 0 b [] with Ok (_, f) => f | Err _ => [] end.

(** Three appends in two groups, the watermark moved past the first between
    them; segments of 40 bytes roll on every frame. *)
Definition demo_groups : list (list WriterCommand) :=
  [[AppendEncoded Logs 1 2 (demo_frame Logs (7, [1; 2])) 100;
    UpdateWatermark (mkDiskWatermark 5 1 0 0) (Some 101)];
   [AppendEncoded Logs 2 3 (demo_frame Logs (7, [3; 4; 5])) 102;
    AppendEncoded Traces 1 1 (demo_frame Traces (8, [6])) 103; Shutdown]].

Definition demo_faults : list (option nat) := [None; None; Some 0%nat].
Definition demo_end : list GroupReplies * WriterState :=
  writer_loop 40 1000 true demo_groups (demo_start []).

Lemma acked_append_reads_back_witness :
  nth_error (map gr_appends demo_end.1) 1 =
    Some [(102, Ok (mkWrittenFrame 2 0 32)); (103, Ok (mkWrittenFrame 3 0 30))] /\
  exists signal seq rows frame, AppendEncoded signal seq rows frame 102 ∈ concat demo_groups /\
    forall (b : batch) h, encode_frame signal 0 b [] = Ok (h, frame) ->
      seq <= u64_max -> for_signal (persisted_watermark demo_end.2) signal < seq ->
      read_frame_at (files demo_end.2) 2 0 32 1000 = Ok b.
Proof.
  split; [vm_compute; reflexivity|].
  apply (acked_append_reads_back 40 1000 true demo_groups ∅ (demo_start []) demo_end.1 demo_end.2
    (mkGroupReplies [(102, Ok (mkWrittenFrame 2 0 32)); (103, Ok (mkWrittenFrame 3 0 30))] [])
    102 (mkWrittenFrame 2 0 32)).
  - apply demo_start_inv. constructor.
  - reflexivity.
  - reflexivity.
  - vm_compute. discriminate.
  - unfold demo_end. by destruct (writer_loop 40 1000 true demo_groups (demo_start [])).
  - vm_compute. right. left.
  - left.
Defined.

Lemma watermark_durable_witness :
  let '(replies, _, w') := writer_batch 40 1000 true
    (default [] (head demo_groups)) (demo_start demo_faults) in
  wm_le (mkDiskWatermark 5 0 0 0) (persisted_watermark w') /\
  watermark_file w' = Some (persisted_watermark w') /\
  staged_watermark w' = persisted_watermark w' /\
  (forall tag c wm, (tag, Ok tt) ∈ gr_watermarks replies -> c ∈ default [] (head demo_groups) ->
     cmd_watermark c = Some wm -> wm_le wm (persisted_watermark w')).
Proof.
  apply (watermark_durable 40 1000 true (default [] (head demo_groups)) ∅ (demo_start demo_faults)).
  - apply demo_start_inv. repeat first [apply Forall_nil_2 | apply Forall_cons_2; [first [by left | by right]|]].
  - reflexivity.
  - reflexivity.
  - vm_compute. discriminate.
Defined.

(** A partial write is not accounted for: the file position moves past the
    bytes that were written, [bytes_written] does not, and a later append of
    the same group is acknowledged at an offset where its frame does not
    stand. *)
Example partial_write_misplaces_next_append :
  let groups := [[AppendEncoded Logs 1 2 (demo_frame Logs (7, [1; 2])) 100;
                  AppendEncoded Traces 1 1 (demo_frame Traces (8, [6])) 101]] in
  let '(rs, w) := writer_loop 1000 1000 false groups (demo_start [None; Some 7%nat]) in
  map gr_appends rs = [[(100, Err "failed to write to segment"%string); (101, Ok (mkWrittenFrame 1 0 30))]] /\
  read_frame_at (RB := batch) (files w) 1 0 30 1000 = Err (Storage "failed to decode frame").
Proof. vm_compute. split; reflexivity. Qed.
