(* ===== verification/Recovery.v ===== *)
(** Crash recovery: crates/core/src/buffer/disk.rs, [open_and_recover] and the
    segment scan.

    A segment file is what the operating system lets the scan see of it: its
    length, the events a read from an offset delivers, and whether opening and
    truncating succeed.  [file_segment] is the file with a given content. *)

From S2P Require Import Prelude Arrow Signal BufferConfig Frame Ring Watermark Writer.
Local Open Scope N_scope.

Record SegmentFile := mkSegmentFile {
  sf_open_ok : bool;
  sf_len : N;
  sf_read_at : N -> reader;
  sf_truncate_ok : bool;
}.

Definition file_segment (c : bytes) : SegmentFile :=
  mkSegmentFile true (N.of_nat (length c)) (fun off => file_reader (drop (N.to_nat off) c)) true.

(** What the rest of the directory offers at startup: whether [disk_path] is
    set, created and locked, the parsed watermark file if there is one, the
    instance id to use when none is stored, the listing with the segment ids
    that [parse_segment_id] accepts, and whether each watermark write succeeds. *)
Record RecoveryEnv := mkRecoveryEnv {
  env_create_dir_ok : bool;
  env_lock_ok : bool;
  env_watermark_file : option (option DiskWatermark);
  env_generated_id : N;
  env_write_initial_ok : bool;
  env_segments : option (list (N * SegmentFile));
  env_write_recovered_ok : bool;
  env_spawn_ok : bool;
}.

Section Recovery.
Context {RB Sch Row : Type} `{Arrow RB Sch Row} `{Crc}.

Abbreviation rings_t := (PerSignal (SignalRingState RB Sch)).

(** [load_initial_watermark] on one ring. *)
Definition init_ring_state (wm_val : N) (rs : SignalRingState RB Sch) : SignalRingState RB Sch :=
  rs <| committed_seq := wm_val |> <| ring := (ring rs) <| next_seq := wm_val +u64 1 |> |>.

Definition load_initial_watermark (env : RecoveryEnv) (rings : rings_t)
  : result (DiskWatermark * rings_t) PipelineError :=
  let? watermark :=
    match env_watermark_file env with
    | Some (Some w) => Ok w
    | Some None => Err (Storage "failed to parse watermark.json")
    | None => Ok default_watermark
    end in
  let? watermark :=
    if instance_id watermark =? 0
    then
      let watermark := watermark <| instance_id := env_generated_id env |> in
      if env_write_initial_ok env then Ok watermark else Err (Storage "failed to write watermark.json")
    else Ok watermark in
  let rings := foldl (fun rings sig =>
    sset rings sig (init_ring_state (for_signal watermark sig) (sget rings sig))) rings
    [Logs; Metrics; Traces] in
  Ok (watermark, rings).

Definition record_recovered_frame (segment_num offset frame_len : N) (header : FrameHeader) (batch : RB)
  (watermark : DiskWatermark) (now : instant) (rs : SignalRingState RB Sch)
  : SignalRingState RB Sch * bool :=
  let r := ring rs in
  let r := r <| next_seq := N.max (next_seq r) (fh_seq_id header +u64 1) |> in
  if fh_seq_id header <=? for_signal watermark (fh_signal header)
  then (rs <| ring := r |>, false)
  else
    let byte_size := frame_len in
    let row_count := fh_row_count header in
    let r := r <| bytes_in_flight := bytes_in_flight r +us byte_size |> in
    let r := r <| rows_in_flight := rows_in_flight r +us row_count |> in
    let r := r <| slots := <[fh_seq_id header := Queued]> (slots r) |> in
    let r := enqueue_ordered r (mkQueuedBatch (fh_seq_id header)
      (OnDisk segment_num offset frame_len (fh_row_count header) (rb_schema batch))
      byte_size row_count now None 0 None) in
    (rs <| ring := r |>
        <| replayed_records := (replayed_records rs + fh_row_count header) mod (u64_max + 1) |>, true).

Definition record_corrupted_frame (header : FrameHeader) (watermark : DiskWatermark)
  (rs : SignalRingState RB Sch) : SignalRingState RB Sch :=
  let rs :=
    if for_signal watermark (fh_signal header) <? fh_seq_id header
    then rs <| corruption_drops := (corruption_drops rs + fh_row_count header) mod (u64_max + 1) |>
    else rs in
  let r := ring rs in
  rs <| ring := r <| next_seq := N.max (next_seq r) (fh_seq_id header +u64 1) |> |>.

(** The scan's local variables, with the offset the file was truncated to. *)
Record Scan := mkScan {
  sc_rings : rings_t;
  sc_max_seq : PerSignal N;
  sc_unacked_frames : N;
  sc_truncated : option N;
}.

(** Payload limit in force at an offset: never below what the file still holds. *)
Definition effective_max_payload (max_payload_len file_len offset : N) : N :=
  N.max max_payload_len
    (default u32_max (try_from u32_max ((file_len -s offset) -s N.of_nat FRAME_HEADER_LEN))).

Definition bump_max_seq (h : FrameHeader) (m : PerSignal N) : PerSignal N :=
  sset m (fh_signal h) (N.max (sget m (fh_signal h)) (fh_seq_id h)).

(** The scan loop of [recover_single_segment]; every iteration that continues
    consumes at least a header, so the file length bounds the fuel. *)
Fixpoint scan_loop (fuel : nat) (segment_num : N) (seg : SegmentFile) (max_payload_len : N)
  (watermark : DiskWatermark) (now : instant) (offset : N) (sc : Scan)
  : option (result Scan PipelineError) :=
  match fuel with
  | O => None
  | S fuel =>
      let effective := effective_max_payload max_payload_len (sf_len seg) offset in
      match (decode_frame (sf_read_at seg offset) effective).1 with
      | Ok None => Some (Ok sc)
      | Ok (Some (header, batch)) =>
          let frame_len := 28 +u32 fh_payload_len header in
          let sig := fh_signal header in
          let '(rs, unacked) := record_recovered_frame segment_num offset frame_len header batch
            watermark now (sget (sc_rings sc) sig) in
          scan_loop fuel segment_num seg max_payload_len watermark now (offset +u64 frame_len)
            (mkScan (sset (sc_rings sc) sig rs) (bump_max_seq header (sc_max_seq sc))
              (if unacked then sc_unacked_frames sc +us 1 else sc_unacked_frames sc) (sc_truncated sc))
      | Err TornFrame =>
          if sf_truncate_ok seg
          then Some (Ok (mkScan (sc_rings sc) (sc_max_seq sc) (sc_unacked_frames sc) (Some offset)))
          else Some (Err (Storage "failed to truncate torn segment"))
      | Err (CrcMismatch header _) | Err (IpcDecode header) =>
          let frame_len := 28 +u32 fh_payload_len header in
          let sig := fh_signal header in
          scan_loop fuel segment_num seg max_payload_len watermark now (offset +u64 frame_len)
            (mkScan (sset (sc_rings sc) sig (record_corrupted_frame header watermark (sget (sc_rings sc) sig)))
              (bump_max_seq header (sc_max_seq sc)) (sc_unacked_frames sc) (sc_truncated sc))
      | Err (InvalidHeader _) =>
          let rs := sget (sc_rings sc) Logs in
          Some (Ok (mkScan
            (sset (sc_rings sc) Logs
              (rs <| corruption_drops := (corruption_drops rs + 1) mod (u64_max + 1) |>))
            (sc_max_seq sc) (sc_unacked_frames sc) (sc_truncated sc)))
      | Err FrameIo => Some (Err (Storage "I/O error scanning segment"))
      end
  end.

Definition scan_fuel (seg : SegmentFile) : nat := S (N.to_nat (sf_len seg)).

Definition recover_single_segment (segment_num : N) (seg : SegmentFile) (max_payload_len : N)
  (watermark : DiskWatermark) (now : instant) (rings : rings_t)
  : option (result (option SealedSegmentMeta * rings_t * option N) PipelineError) :=
  if negb (sf_open_ok seg) then Some (Err (Storage "failed to open segment for recovery"))
  else
    match scan_loop (scan_fuel seg) segment_num seg max_payload_len watermark now 0
            (mkScan rings (pconst 0) 0 None) with
    | None => None
    | Some (Err e) => Some (Err e)
    | Some (Ok sc) =>
        let meta :=
          if 0 <? sc_unacked_frames sc
          then Some (mkSealedSegmentMeta segment_num (sc_max_seq sc) true)
          else None in
        Some (Ok (meta, sc_rings sc, sc_truncated sc))
    end.

(** The loop over the sorted segments: largest id, sealed and obsolete. *)
Fixpoint recover_each (segments : list (N * SegmentFile)) (max_payload_len : N)
  (watermark : DiskWatermark) (now : instant) (max_id : N) (sealed : list SealedSegmentMeta)
  (obsolete : list N) (truncated : list (N * N)) (rings : rings_t)
  : option (result (N * list SealedSegmentMeta * list N * list (N * N) * rings_t) PipelineError) :=
  match segments with
  | [] => Some (Ok (max_id, sealed, obsolete, truncated, rings))
  | (segment_num, seg) :: segments =>
      let max_id := N.max max_id segment_num in
      match recover_single_segment segment_num seg max_payload_len watermark now rings with
      | None => None
      | Some (Err e) => Some (Err e)
      | Some (Ok (meta, rings, cut)) =>
          let truncated := truncated ++ match cut with Some off => [(segment_num, off)] | None => [] end in
          match meta with
          | Some meta =>
              recover_each segments max_payload_len watermark now max_id (sealed ++ [meta]) obsolete
                truncated rings
          | None =>
              recover_each segments max_payload_len watermark now max_id sealed (obsolete ++ [segment_num])
                truncated rings
          end
      end
  end.

Definition segment_le (a b : N * SegmentFile) : Prop := a.1 <= b.1.
#[local] Instance segment_le_dec a b : Decision (segment_le a b) := decide (a.1 <= b.1).

Definition advance_ring_state (rs : SignalRingState RB Sch) : SignalRingState RB Sch :=
  let '(r, c) := advance_watermark (ring rs) (committed_seq rs) in
  rs <| ring := r |> <| committed_seq := c |>.

Record Recovered := mkRecovered {
  rc_max_segment_id : N;
  rc_sealed : list SealedSegmentMeta;
  rc_watermark : DiskWatermark;
  rc_removed : list N;
  rc_truncated : list (N * N);
  rc_rings : rings_t;
}.

Definition recover_segments (env : RecoveryEnv) (config : BufferConfig) (watermark : DiskWatermark)
  (now : instant) (rings : rings_t)
  : option (result Recovered PipelineError) :=
  match env_segments env with
  | None => Some (Err (Storage "failed to read buffer disk_path"))
  | Some segments =>
      match recover_each (merge_sort segment_le segments) (max_disk_frame_payload_bytes config)
              watermark now 0 [] [] [] rings with
      | None => None
      | Some (Err e) => Some (Err e)
      | Some (Ok (max_id, sealed, obsolete, truncated, rings)) =>
          let rings := mkPerSignal (advance_ring_state (sget rings Logs))
            (advance_ring_state (sget rings Metrics)) (advance_ring_state (sget rings Traces)) in
          let '(recovered, changed) :=
            merge_monotonic watermark (from_rings (instance_id watermark) rings) in
          if changed && negb (env_write_recovered_ok env)
          then Some (Err (Storage "failed to write watermark.json"))
          else Some (Ok (mkRecovered max_id sealed recovered obsolete truncated rings))
      end
  end.

(** The state the writer thread starts from; [disk] is the directory before. *)
Definition open_and_recover (env : RecoveryEnv) (config : BufferConfig) (now : instant)
  (disk : gmap N bytes) (rings : rings_t)
  : option (result (WriterState * rings_t) PipelineError) :=
  match disk_path config with
  | None => Some (Err (Storage "disk mode requires disk_path"))
  | Some _ =>
      if negb (env_create_dir_ok env) then Some (Err (Storage "failed to create buffer disk_path"))
      else if negb (env_lock_ok env) then Some (Err (Storage "buffer disk_path lock failed"))
      else
        match load_initial_watermark env rings with
        | Err e => Some (Err e)
        | Ok (watermark, rings) =>
            match recover_segments env config watermark now rings with
            | None => None
            | Some (Err e) => Some (Err e)
            | Some (Ok rc) =>
                if negb (env_spawn_ok env) then Some (Err (Storage "failed to spawn disk buffer writer"))
                else
                  let disk := foldl (fun d '(id, off) => alter (take (N.to_nat off)) id d) disk (rc_truncated rc) in
                  let disk := foldl (fun d id => delete id d) disk (rc_removed rc) in
                  Some (Ok (mkWriterState disk (Some (rc_watermark rc)) [] None (rc_sealed rc)
                    (rc_max_segment_id rc +u64 1) (rc_watermark rc) (rc_watermark rc), rc_rings rc))
            end
        end
  end.

(** ** One recovered frame on its ring *)

Definition all_queued (r : SignalRing RB Sch) : Prop :=
  forall s st, slots r !! s = Some st -> st = Queued.

Lemma next_seq_raise charge committed (r : SignalRing RB Sch) n :
  ring_inv charge committed r -> ring_inv charge committed (r <| next_seq := N.max (next_seq r) n |>).
Proof.
  intros []. split; simpl; try done; try lia.
  - intros s Hs. specialize (ri_bound s Hs). lia.
  - intros s Hs. destruct (ri_evicted s Hs). split; [lia | done].
Qed.

Lemma recovered_ring_inv charge committed (r : SignalRing RB Sch) item :
  ring_inv charge committed r -> slots r !! qb_seq_id item = None ->
  committed < qb_seq_id item < next_seq r ->
  evicted_unreclaimed_bytes r = ∅ ->
  bytes_in_flight r + unreclaimed_disk_bytes r + qb_byte_size item <= usize_max ->
  rows_in_flight r + qb_row_count item <= usize_max ->
  let r1 := r <| bytes_in_flight := bytes_in_flight r + qb_byte_size item |>
              <| rows_in_flight := rows_in_flight r + qb_row_count item |>
              <| slots := <[qb_seq_id item := Queued]> (slots r) |> in
  ring_inv (<[qb_seq_id item := (qb_byte_size item, qb_row_count item)]> charge) committed
    (enqueue_ordered r1 item) /\
  queue (enqueue_ordered r1 item) ≡ₚ item :: queue r.
Proof.
  intros I Hn Hb He Hbytes Hrows.
  assert (Hc : charge !! qb_seq_id item = None).
  { apply eq_None_not_Some. rewrite <- (ri_dom _ _ _ _ _ I), Hn. by intros [? ?]. }
  assert (Hns : qb_seq_id item ∉ queue_seqs (queue r)).
  { intros Hin. apply list_elem_of_fmap in Hin as (q & Eq & Hq).
    destruct (ri_queue _ _ _ _ _ I q Hq). congruence. }
  pose proof (ri_sorted _ _ _ _ _ I) as Hs.
  split; [|simpl; rewrite enqueue_queue_ordered by done; apply ordered_insert_perm].
  destruct I. unfold enqueue_ordered. split; simpl; try done; try lia.
  - intros s. destruct (decide (s = qb_seq_id item)) as [->|].
    + rewrite !lookup_insert_eq. split; eauto.
    + by rewrite !lookup_insert_ne.
  - intros s. destruct (decide (s = qb_seq_id item)) as [->|]; [lia|].
    rewrite lookup_insert_ne by done. apply ri_bound.
  - rewrite enqueue_queue_ordered by done. by apply ordered_insert_sorted.
  - intros q. rewrite enqueue_queue_ordered, ordered_insert_perm by done.
    intros [->|Hq]%elem_of_cons; [by rewrite !lookup_insert_eq|].
    destruct (ri_queue q Hq) as [H1 H2].
    assert (qb_seq_id item <> qb_seq_id q) by congruence. by rewrite !lookup_insert_ne.
  - intros s Hx. rewrite enqueue_queue_ordered by done. unfold queue_seqs. rewrite ordered_insert_perm. simpl.
    destruct (decide (s = qb_seq_id item)) as [->|]; [by left|].
    rewrite lookup_insert_ne in Hx by done. right. by apply ri_queued.
  - intros s. destruct (decide (s = qb_seq_id item)) as [->|]; [|by rewrite lookup_insert_ne].
    rewrite lookup_insert_eq, ri_inflight, Hn. by split.
  - rewrite sum_map_insert by done. simpl. lia.
  - rewrite sum_map_insert by done. simpl. lia.
  - intros s. rewrite He, lookup_empty. by intros [? ?].
Qed.

(** ** Segments as the writer left them *)

(** A frame in a segment: its header, batch and bytes. *)
Record Stored := mkStored { st_header : FrameHeader; st_batch : RB; st_frame : bytes }.

Definition stored_ok (st : Stored) : Prop :=
  (exists payload, is_frame (fh_signal (st_header st)) (fh_seq_id (st_header st)) (st_batch st)
     (st_header st) (st_frame st) payload) /\
  fh_seq_id (st_header st) < u64_max /\ N.of_nat (length (st_frame st)) <= u32_max.

Definition stored_bytes (ss : list Stored) : bytes := concat (map st_frame ss).

(** A frame with its place. *)
Record Located := mkLocated { lo_segment : N; lo_offset : N; lo_stored : Stored }.

Fixpoint locate (segment : N) (off : N) (ss : list Stored) : list Located :=
  match ss with
  | [] => []
  | st :: ss => mkLocated segment off st :: locate segment (off + N.of_nat (length (st_frame st))) ss
  end.

Definition lo_signal (l : Located) : SignalType := fh_signal (st_header (lo_stored l)).
Definition lo_seq (l : Located) : N := fh_seq_id (st_header (lo_stored l)).
Definition lo_len (l : Located) : N := N.of_nat (length (st_frame (lo_stored l))).
Definition lo_rows (l : Located) : N := fh_row_count (st_header (lo_stored l)).

(** The queue entry a replayed frame becomes. *)
Definition queued_of (now : instant) (l : Located) : QueuedBatch RB Sch :=
  mkQueuedBatch (lo_seq l)
    (OnDisk (lo_segment l) (lo_offset l) (lo_len l) (lo_rows l) (rb_schema (st_batch (lo_stored l))))
    (lo_len l) (lo_rows l) now None 0 None.

Definition replay_one (watermark : DiskWatermark) (now : instant) (rings : rings_t) (l : Located) : rings_t :=
  sset rings (lo_signal l)
    (record_recovered_frame (lo_segment l) (lo_offset l) (lo_len l) (st_header (lo_stored l))
      (st_batch (lo_stored l)) watermark now (sget rings (lo_signal l))).1.

Definition unacked (watermark : DiskWatermark) (l : Located) : bool :=
  for_signal watermark (lo_signal l) <? lo_seq l.

Lemma record_recovered_flag seg off len h b w now (rs : SignalRingState RB Sch) :
  (record_recovered_frame seg off len h b w now rs).2 = (for_signal w (fh_signal h) <? fh_seq_id h).
Proof.
  unfold record_recovered_frame. rewrite N.leb_antisym. by destruct (_ <? _).
Qed.

Lemma locate_app seg off ss ss' :
  locate seg off (ss ++ ss') = locate seg off ss ++ locate seg (off + N.of_nat (length (stored_bytes ss))) ss'.
Proof.
  revert off. induction ss as [|st ss IH]; intros off; simpl; [f_equal; lia|].
  f_equal. rewrite IH. do 2 f_equal. unfold stored_bytes. simpl. rewrite length_app. lia.
Qed.

(** What a scan of whole frames adds to the scan state. *)
Definition scan_step (watermark : DiskWatermark) (now : instant) (sc : Scan) (l : Located) : Scan :=
  mkScan (replay_one watermark now (sc_rings sc) l) (bump_max_seq (st_header (lo_stored l)) (sc_max_seq sc))
    (if unacked watermark l then sc_unacked_frames sc +us 1 else sc_unacked_frames sc) (sc_truncated sc).

(** What follows the last whole frame of a segment: nothing, or the part of a
    frame that reached the disk before a crash. *)
Inductive tail_of (max_payload_len : N) : bytes -> Prop :=
| TailEmpty : tail_of max_payload_len []
| TailTorn st k : stored_ok st -> fh_payload_len (st_header st) <= max_payload_len ->
    (0 < k < length (st_frame st))%nat -> tail_of max_payload_len (take k (st_frame st)).

Lemma stored_ok_length st :
  stored_ok st -> length (st_frame st) = (28 + N.to_nat (fh_payload_len (st_header st)))%nat.
Proof. intros [[p F] _]. apply (is_frame_length _ _ _ _ _ _ F). Qed.

Lemma effective_max_fits max len off n :
  n <= u32_max -> off + 28 + n <= len -> n <= effective_max_payload max len off.
Proof.
  intros Hn Hle. unfold effective_max_payload, FRAME_HEADER_LEN.
  destruct (try_from u32_max _) as [x|] eqn:E; simpl; [|lia].
  apply try_from_Some in E as [-> _]. unfold sat_sub. lia.
Qed.

Lemma scan_segment `{!ArrowLaws RB Sch Row} ss tail num max w now pre sc fuel :
  Forall stored_ok ss -> tail_of max tail ->
  let c := pre ++ stored_bytes ss ++ tail in
  N.of_nat (length c) < u64_max -> (length ss < fuel)%nat ->
  scan_loop fuel num (file_segment c) max w now (N.of_nat (length pre)) sc =
    let sc' := foldl (scan_step w now) sc (locate num (N.of_nat (length pre)) ss) in
    Some (Ok (match tail with
      | [] => sc'
      | _ => mkScan (sc_rings sc') (sc_max_seq sc') (sc_unacked_frames sc')
               (Some (N.of_nat (length pre + length (stored_bytes ss))))
      end)).
Proof.
  intros Hss Ht. revert pre sc fuel. induction Hss as [|st ss Hst Hss IH]; intros pre sc fuel c Hc Hf.
  - destruct fuel as [|fuel]; [lia|]. cbn [scan_loop]. unfold file_segment at 1. cbn [sf_read_at].
    rewrite decode_file. subst c. simpl stored_bytes in *. rewrite app_nil_l, Nat2N.id, drop_app_length.
    rewrite Nat.add_0_r. destruct Ht as [|st k Hst Hmax Hk]; [done|].
    destruct (Hst) as ([p F] & Hq & Hl).
    rewrite (decode_bytes_torn _ _ _ _ _ _ _ k (N.lt_le_incl _ _ Hq) F);
      [| unfold effective_max_payload; lia | done].
    cbn [fst]. destruct (take k (st_frame st)) eqn:E; [|done].
    apply (f_equal length) in E. rewrite length_take in E. simpl in E. lia.
  - destruct fuel as [|fuel]; [lia|]. cbn [scan_loop]. unfold file_segment at 1. cbn [sf_read_at].
    pose proof (stored_ok_length _ Hst) as Hlen.
    destruct Hst as ([p F] & Hq & Hl).
    assert (Ec : c = (pre ++ st_frame st) ++ stored_bytes ss ++ tail).
    { subst c. unfold stored_bytes. simpl. by rewrite <- !(assoc_L (++)). }
    rewrite decode_file. rewrite Ec at 1. rewrite Nat2N.id, <- (assoc_L (++) pre), drop_app_length.
    rewrite (decode_bytes_frame _ _ _ _ _ _ _ _ (N.lt_le_incl _ _ Hq) F).
    2:{ unfold file_segment. cbn [sf_len]. apply effective_max_fits; [lia|].
        rewrite Ec, !length_app. lia. }
    cbn [fst].
    assert (Hfl : 28 +u32 fh_payload_len (st_header st) = N.of_nat (length (st_frame st))).
    { rewrite sat_add_exact; lia. }
    rewrite Hfl.
    rewrite (surjective_pairing (record_recovered_frame _ _ _ _ _ _ _ _)), record_recovered_flag.
    rewrite sat_add_exact.
    2:{ rewrite Ec, !length_app in Hc. lia. }
    replace (N.of_nat (length pre) + N.of_nat (length (st_frame st)))
      with (N.of_nat (length (pre ++ st_frame st))) by (rewrite length_app; lia).
    rewrite Ec. rewrite IH; [| rewrite <- Ec; done | simpl in Hf; lia].
    cbn [locate foldl]. cbv zeta.
    replace (N.of_nat (length (pre ++ st_frame st)))
      with (N.of_nat (length pre) + N.of_nat (length (st_frame st))) by (rewrite length_app; lia).
    unfold stored_bytes at 2. cbn [map concat]. rewrite !length_app, Nat.add_assoc. done.
Qed.

(** ** Termination of the scan *)

Lemma scan_terminates_from c fuel num max w now off sc :
  N.of_nat (length c) < u64_max -> (N.to_nat (N.of_nat (length c) - off) < fuel)%nat ->
  scan_loop fuel num (file_segment c) max w now off sc <> None.
Proof.
  intros Hc. revert off sc. induction fuel as [|fuel IH]; intros off sc Hf; [lia|].
  cbn [scan_loop]. unfold file_segment at 1. cbn [sf_read_at]. rewrite decode_file. cbn [fst].
  destruct (decide (N.of_nat (length c) <= off)) as [Hle|Hlt].
  - rewrite drop_ge by lia. done.
  - assert (Hstep : forall n, (N.to_nat (N.of_nat (length c) - (off +u64 (28 +u32 n))) < fuel)%nat).
    { intros n. unfold sat_add, u64_max, u32_max in *. lia. }
    destruct (decode_bytes _ _).1 as [[[h b]|]|[| | | |]]; try done; try (by apply IH).
    destruct (record_recovered_frame _ _ _ _ _ _ _ _). by apply IH.
Qed.

(** ** Replaying frames onto the rings *)

Definition for_ring (w : DiskWatermark) (s : SignalType) (l : Located) : Prop :=
  lo_signal l = s /\ unacked w l = true.
#[local] Instance for_ring_dec w s l : Decision (for_ring w s l).
Proof. unfold for_ring. apply _. Defined.

Definition replayed (w : DiskWatermark) (s : SignalType) (items : list Located) : list Located :=
  filter (for_ring w s) items.

Lemma sum_N_filter {A} (P : A -> Prop) `{!forall x, Decision (P x)} (f : A -> N) (l : list A) :
  sum_N f (filter P l) <= sum_N f l.
Proof.
  induction l as [|a l IH]; [done|]. destruct (decide (P a)) as [Hp|Hp].
  - rewrite filter_cons_True by done. simpl. lia.
  - rewrite filter_cons_False by done. simpl. lia.
Qed.

Record ring_replayed (w : DiskWatermark) (now : instant) (s : SignalType) (items : list Located)
  (rs : SignalRingState RB Sch) : Prop := {
  rr_committed : committed_seq rs = for_signal w s;
  rr_queued : all_queued (ring rs);
  rr_evicted : evicted_unreclaimed_bytes (ring rs) = ∅;
  rr_queue : queue (ring rs) ≡ₚ map (queued_of now) (replayed w s items);
  rr_bytes : bytes_in_flight (ring rs) = sum_N lo_len (replayed w s items);
  rr_rows : rows_in_flight (ring rs) = sum_N lo_rows (replayed w s items);
  rr_inv : exists charge, ring_inv charge (for_signal w s) (ring rs);
}.

Definition key (l : Located) : SignalType * N := (lo_signal l, lo_seq l).

Lemma replayed_snoc w s items l :
  replayed w s (items ++ [l]) = replayed w s items ++ (if decide (for_ring w s l) then [l] else []).
Proof.
  unfold replayed. rewrite list.filter_app. case_decide.
  - by rewrite filter_cons_True.
  - by rewrite filter_cons_False.
Qed.

Lemma replay_one_inv w now items rings l :
  (forall s, ring_replayed w now s items (sget rings s)) ->
  key l ∉ map key items -> lo_seq l < u64_max ->
  sum_N lo_len (items ++ [l]) <= usize_max -> sum_N lo_rows (items ++ [l]) <= usize_max ->
  forall s, ring_replayed w now s (items ++ [l]) (sget (replay_one w now rings l) s).
Proof.
  intros HR Hk Hq Hlen Hrow s. unfold replay_one.
  destruct (decide (lo_signal l = s)) as [Hs|Hs].
  2:{ rewrite sget_sset_ne by done. destruct (HR s).
      assert (E : replayed w s (items ++ [l]) = replayed w s items).
      { rewrite replayed_snoc, decide_False; [apply app_nil_r | by intros [? _]]. }
      split; try done; by rewrite E. }
  rewrite <- Hs. rewrite sget_sset_eq. specialize (HR (lo_signal l)). destruct HR as [Hc Hall Hev Hqu Hb Hr [charge I]].
  unfold record_recovered_frame. set (rs := sget rings (lo_signal l)) in *.
  assert (Eseq : fh_seq_id (st_header (lo_stored l)) = lo_seq l) by done.
  assert (Esig : fh_signal (st_header (lo_stored l)) = lo_signal l) by done.
  assert (Erow : fh_row_count (st_header (lo_stored l)) = lo_rows l) by done.
  rewrite Eseq, Esig, Erow. clear Eseq Esig Erow.
  rewrite sat_add_exact by lia. rewrite N.leb_antisym.
  pose proof (next_seq_raise _ _ _ (lo_seq l + 1) I) as I1.
  pose proof (replayed_snoc w (lo_signal l) items l) as E.
  destruct (for_signal w (lo_signal l) <? lo_seq l) eqn:Eu; simpl negb; cbv iota.
  - rewrite decide_True in E by (by split). cbv zeta.
    set (r1 := (ring rs) <| next_seq := _ |>) in *.
    rewrite sum_N_app in Hlen, Hrow. simpl in Hlen, Hrow.
    pose proof (sum_N_filter (for_ring w (lo_signal l)) lo_len items) as HL.
    pose proof (sum_N_filter (for_ring w (lo_signal l)) lo_rows items) as HN.
    fold (replayed w (lo_signal l) items) in HL, HN.
    rewrite (sat_add_exact usize_max (bytes_in_flight r1)) by (simpl; lia).
    rewrite (sat_add_exact usize_max (rows_in_flight _)) by (simpl; lia).
    apply N.ltb_lt in Eu.
    destruct (recovered_ring_inv charge (for_signal w (lo_signal l)) r1 (queued_of now l) I1) as [I2 P2].
    + simpl. destruct (slots (ring rs) !! lo_seq l) as [st|] eqn:Est; [|done].
      pose proof (Hall _ _ Est) as ->. apply (ri_queued _ _ _ _ _ I) in Est.
      unfold queue_seqs in Est. rewrite Hqu in Est.
      apply list_elem_of_fmap in Est as (q & Eq & Hq').
      apply list_elem_of_fmap in Hq' as (l' & -> & Hl').
      apply list_elem_of_filter in Hl' as [[Hs' _] Hl']. destruct Hk.
      apply list_elem_of_fmap. exists l'. split; [|done]. unfold key. rewrite Hs'. f_equal. exact Eq.
    + simpl. lia.
    + done.
    + simpl. rewrite (ri_unreclaimed _ _ _ _ _ I), Hev, sum_map_empty. lia.
    + simpl. lia.
    + split; simpl; rewrite ?E.
      * done.
      * intros q st. simpl. destruct (decide (q = lo_seq l)) as [->|].
        -- rewrite lookup_insert_eq. congruence.
        -- rewrite lookup_insert_ne by done. apply Hall.
      * done.
      * simpl in P2. rewrite P2, map_app, Hqu. simpl. apply Permutation_cons_append.
      * rewrite sum_N_app. simpl. lia.
      * rewrite sum_N_app. simpl. lia.
      * eauto.
  - rewrite decide_False in E by (intros [_ Hu]; unfold unacked in Hu; congruence).
    rewrite app_nil_r in E. split; simpl; rewrite ?E; try done. eauto.
Qed.

Lemma replay_all_inv w now todo : forall items rings,
  (forall s, ring_replayed w now s items (sget rings s)) ->
  NoDup (map key (items ++ todo)) -> Forall (fun l => lo_seq l < u64_max) todo ->
  sum_N lo_len (items ++ todo) <= usize_max -> sum_N lo_rows (items ++ todo) <= usize_max ->
  forall s, ring_replayed w now s (items ++ todo) (sget (foldl (replay_one w now) rings todo) s).
Proof.
  induction todo as [|l todo IH]; intros items rings HR Hnd Hq Hlen Hrow.
  { by rewrite app_nil_r. }
  apply Forall_cons in Hq as [Hl Hq]. cbn [foldl].
  replace (items ++ l :: todo) with ((items ++ [l]) ++ todo) in * by (by rewrite <- (assoc_L (++))).
  apply IH; try done. apply replay_one_inv; try done.
  - rewrite !map_app in Hnd. apply NoDup_app in Hnd as (Hnd & _ & _).
    apply NoDup_app in Hnd as (_ & Hnd & _). intros Hin. by apply (Hnd _ Hin), list_elem_of_singleton.
  - rewrite sum_N_app in Hlen. lia.
  - rewrite sum_N_app in Hrow. lia.
Qed.

(** ** Whole segments and the whole directory *)

Record Segment := mkSegment { sg_id : N; sg_frames : list Stored; sg_tail : bytes }.

Definition sg_content (g : Segment) : bytes := stored_bytes (sg_frames g) ++ sg_tail g.
Definition sg_items (g : Segment) : list Located := locate (sg_id g) 0 (sg_frames g).
Definition sg_file (g : Segment) : N * SegmentFile := (sg_id g, file_segment (sg_content g)).
Definition all_items (segs : list Segment) : list Located := concat (map sg_items segs).

Record segment_ok (max : N) (g : Segment) : Prop := {
  so_frames : Forall stored_ok (sg_frames g);
  so_tail : tail_of max (sg_tail g);
  so_length : N.of_nat (length (sg_content g)) < u64_max;
}.

Definition has_unacked (w : DiskWatermark) (g : Segment) : bool := existsb (unacked w) (sg_items g).

Lemma scan_steps_rings w now items sc :
  sc_rings (foldl (scan_step w now) sc items) = foldl (replay_one w now) (sc_rings sc) items.
Proof. revert sc. induction items as [|l items IH]; intros sc; [done|]. simpl. by rewrite IH. Qed.

Lemma count_up_positive n : (0 <? n +us 1) = true.
Proof. apply N.ltb_lt. unfold sat_add. apply N.min_glb_lt; [lia | reflexivity]. Qed.

Lemma scan_steps_unacked w now items sc :
  (0 <? sc_unacked_frames (foldl (scan_step w now) sc items)) =
    (0 <? sc_unacked_frames sc) || existsb (unacked w) items.
Proof.
  revert sc. induction items as [|l items IH]; intros sc; [symmetry; apply orb_false_r|].
  cbn [foldl existsb]. rewrite IH. unfold scan_step. cbn [sc_unacked_frames].
  destruct (unacked w l); [|done]. by rewrite count_up_positive, orb_true_r.
Qed.

Lemma stored_bytes_length ss : Forall stored_ok ss -> (length ss <= length (stored_bytes ss))%nat.
Proof.
  induction 1 as [|st ss Hst Hss IH]; [done|]. unfold stored_bytes in *. simpl.
  rewrite length_app, (stored_ok_length _ Hst). lia.
Qed.

Lemma recover_single_ok `{!ArrowLaws RB Sch Row} max w now rings g :
  segment_ok max g ->
  exists meta cut, recover_single_segment (sg_id g) (file_segment (sg_content g)) max w now rings =
    Some (Ok (meta, foldl (replay_one w now) rings (sg_items g), cut)) /\
    meta = (if has_unacked w g
            then Some (mkSealedSegmentMeta (sg_id g)
              (sc_max_seq (foldl (scan_step w now) (mkScan rings (pconst 0) 0 None) (sg_items g))) true)
            else None).
Proof.
  intros [Hf Ht Hl]. unfold recover_single_segment. cbn [sf_open_ok file_segment negb].
  pose proof (scan_segment (sg_frames g) (sg_tail g) (sg_id g) max w now [] (mkScan rings (pconst 0) 0 None)
    (scan_fuel (file_segment (sg_content g))) Hf Ht) as Hscan.
  cbv zeta in Hscan. change ([] ++ stored_bytes (sg_frames g) ++ sg_tail g) with (sg_content g) in Hscan.
  change (N.of_nat (length ([] : bytes))) with 0 in Hscan. rewrite Hscan; clear Hscan.
  2:{ done. }
  2:{ unfold scan_fuel. simpl. rewrite Nat2N.id. pose proof (stored_bytes_length _ Hf).
      unfold sg_content. rewrite length_app. lia. }
  fold (sg_items g). pose proof (scan_steps_rings w now (sg_items g) (mkScan rings (pconst 0) 0 None)) as Hr.
  pose proof (scan_steps_unacked w now (sg_items g) (mkScan rings (pconst 0) 0 None)) as Hu.
  fold (has_unacked w g) in Hu. simpl in Hr, Hu.
  destruct (sg_tail g); cbn [sc_rings sc_max_seq sc_unacked_frames sc_truncated];
    rewrite Hu, Hr; do 2 eexists; split; reflexivity.
Qed.

Lemma recover_each_ok `{!ArrowLaws RB Sch Row} max w now segs : forall mid sealed obs cut rings,
  Forall (segment_ok max) segs ->
  exists sealed' cut', recover_each (map sg_file segs) max w now mid sealed obs cut rings =
    Some (Ok (foldl N.max mid (map sg_id segs), sealed ++ sealed',
      obs ++ map sg_id (filter (fun g => has_unacked w g = false) segs), cut ++ cut',
      foldl (replay_one w now) rings (all_items segs))) /\
    map ss_segment_id sealed' = map sg_id (filter (fun g => has_unacked w g = true) segs).
Proof.
  induction segs as [|g segs IH]; intros mid sealed obs cut rings Hok.
  { exists [], []. rewrite !app_nil_r. done. }
  apply Forall_cons in Hok as [Hg Hok]. cbn [map sg_file recover_each].
  destruct (recover_single_ok max w now rings g Hg) as (meta & c & -> & Hmeta).
  unfold all_items. cbn [map concat]. rewrite foldl_app. fold (all_items segs).
  destruct (has_unacked w g) eqn:Eu; rewrite Hmeta.
  - edestruct IH as (s' & c' & -> & Es); [done|].
    rewrite filter_cons_False by congruence. rewrite (filter_cons_True _ g) by done.
    eexists _, _. rewrite <- !(assoc_L (++)). split; [reflexivity|]. simpl. by f_equal.
  - edestruct IH as (s' & c' & -> & Es); [done|].
    rewrite (filter_cons_True _ g) by done. rewrite (filter_cons_False _ g) by congruence.
    eexists s', _. rewrite <- !(assoc_L (++)). split; [reflexivity|done].
Qed.

(** The rings [load_initial_watermark] hands over. *)
Definition fresh_rings (w : DiskWatermark) (rings : rings_t) : Prop :=
  forall s, sget rings s = init_ring_state (for_signal w s) new_ring_state.

Lemma fresh_ring_replayed w now s rs :
  for_signal w s < u64_max -> rs = init_ring_state (for_signal w s) new_ring_state ->
  ring_replayed w now s [] rs.
Proof.
  intros Hlt ->. assert (E : for_signal w s +u64 1 = for_signal w s + 1) by (apply sat_add_exact; lia).
  split; simpl; try done.
  - exists ∅. destruct (ring_inv_new (RB := RB) (Sch := Sch)) as []. rewrite E.
    split; simpl; try done; try lia.
    + intros q. rewrite lookup_empty. by intros [? ?].
    + intros q. rewrite lookup_empty. by intros [? ?].
Qed.

Lemma advance_ring_state_ok w now s items rs :
  ring_replayed w now s items rs ->
  let rs' := advance_ring_state rs in
  queue (ring rs') = queue (ring rs) /\ (exists charge, ring_inv charge (committed_seq rs') (ring rs')) /\
  for_signal w s <= committed_seq rs'.
Proof.
  intros [Hc _ _ _ _ _ [charge I]]. unfold advance_ring_state. rewrite Hc.
  pose proof (advance_watermark_inv _ _ _ _ _ I) as I'.
  rewrite (advance_watermark_eq _ _ _ _ _ I) in *. simpl.
  destruct (watermark_candidate_spec _ _ _ _ _ I) as (? & _). split_and!; [done | by exists charge | lia].
Qed.

Lemma all_items_perm segs segs' :
  segs ≡ₚ segs' -> all_items segs ≡ₚ all_items segs'.
Proof. intros Hp. unfold all_items. by rewrite Hp. Qed.

Lemma recover_segments_ok `{!ArrowLaws RB Sch Row} env config w now rings segs :
  env_segments env = Some (map sg_file segs) -> env_write_recovered_ok env = true ->
  Forall (segment_ok (max_disk_frame_payload_bytes config)) segs -> fresh_rings w rings ->
  (forall s, for_signal w s < u64_max) ->
  NoDup (map key (all_items segs)) -> Forall (fun l => lo_seq l < u64_max) (all_items segs) ->
  sum_N lo_len (all_items segs) <= usize_max -> sum_N lo_rows (all_items segs) <= usize_max ->
  exists rc segs', segs' ≡ₚ segs /\
    recover_segments env config w now rings = Some (Ok rc) /\
    rc_removed rc = map sg_id (filter (fun g => has_unacked w g = false) segs') /\
    map ss_segment_id (rc_sealed rc) = map sg_id (filter (fun g => has_unacked w g = true) segs') /\
    (forall s, exists rs, ring_replayed w now s (all_items segs') rs /\
       sget (rc_rings rc) s = advance_ring_state rs) /\
    rc_watermark rc = (merge_monotonic w (from_rings (instance_id w) (rc_rings rc))).1.
Proof.
  intros Henv Hw Hok Hfresh Hwm Hnd Hq Hlen Hrow. unfold recover_segments. rewrite Henv.
  destruct (Permutation_map_inv sg_file segs (merge_sort_Permutation segment_le (map sg_file segs)))
    as (segs' & Es & Hp).
  rewrite Es. assert (Hp' : all_items segs' ≡ₚ all_items segs) by (by apply all_items_perm).
  destruct (recover_each_ok (max_disk_frame_payload_bytes config) w now segs' 0 [] [] [] rings)
    as (sealed' & cut' & -> & Esealed); [by rewrite <- Hp|].
  cbv zeta. set (rings1 := foldl (replay_one w now) rings (all_items segs')).
  set (rings2 := mkPerSignal _ _ _).
  assert (HR : forall s, ring_replayed w now s (all_items segs') (sget rings1 s)).
  { apply (replay_all_inv w now (all_items segs') []); simpl; rewrite ?Hp'; try done.
    intros s. by apply fresh_ring_replayed. }
  destruct (merge_monotonic w (from_rings (instance_id w) rings2)) as [m ch] eqn:Em.
  rewrite Hw, andb_false_r. do 2 eexists. split; [symmetry; exact Hp|]. split; [reflexivity|].
  cbn [rc_removed rc_sealed rc_rings rc_watermark].
  split_and!; [done | done | | by rewrite Em].
  intros s. exists (sget rings1 s). split; [done|]. by destruct s.
Qed.

(** A located frame is where its location says. *)
Lemma locate_bytes ss tail seg l : forall pre,
  l ∈ locate seg (N.of_nat (length pre)) ss ->
  lo_segment l = seg /\
  take (N.to_nat (lo_len l)) (drop (N.to_nat (lo_offset l)) (pre ++ stored_bytes ss ++ tail))
    = st_frame (lo_stored l) /\ lo_stored l ∈ ss.
Proof.
  induction ss as [|st ss IH]; intros pre Hl; simpl in Hl; [by apply not_elem_of_nil in Hl|].
  apply elem_of_cons in Hl as [->|Hl].
  - simpl. unfold lo_len. simpl. rewrite !Nat2N.id, drop_app_length.
    unfold stored_bytes. simpl. rewrite <- (assoc_L (++)), take_app_length. split_and!; [done|done|by left].
  - replace (N.of_nat (length pre) + N.of_nat (length (st_frame st)))
      with (N.of_nat (length (pre ++ st_frame st))) in Hl by (rewrite length_app; lia).
    destruct (IH _ Hl) as (H1 & H2 & H3). split_and!; [done | | by right].
    rewrite <- H2. unfold stored_bytes. simpl. by rewrite <- !(assoc_L (++)).
Qed.

Lemma replayed_read_back `{!ArrowLaws RB Sch Row} max w s g l (dir : gmap N bytes) :
  segment_ok max g -> l ∈ replayed w s (sg_items g) -> dir !! sg_id g = Some (sg_content g) ->
  read_frame_at dir (lo_segment l) (lo_offset l) (lo_len l) max = Ok (st_batch (lo_stored l)).
Proof.
  intros [Hf _ _] Hl Hd. apply list_elem_of_filter in Hl as [_ Hl].
  destruct (locate_bytes (sg_frames g) (sg_tail g) (sg_id g) l [] Hl) as (Hseg & Hb & Hin).
  rewrite Forall_forall in Hf. destruct (Hf _ Hin) as ([p F] & Hq & Hlen).
  unfold read_frame_at. rewrite Hseg, Hd. unfold sg_content. rewrite app_nil_l in Hb. rewrite Hb, decode_file.
  rewrite <- (app_nil_r (st_frame _)), (decode_bytes_frame _ _ _ _ _ _ _ _ (N.lt_le_incl _ _ Hq) F); [done|].
  pose proof (is_frame_length _ _ _ _ _ _ F). unfold sat_sub, lo_len, FRAME_HEADER_LEN in *. lia.
Qed.

End Recovery.

(** ** Properties *)

Section Properties.
Context {RB Sch Row : Type} `{ArrowLaws RB Sch Row} `{Crc}.

(** The segment scan terminates on every file content, with the fuel
    [recover_single_segment] gives it: whatever bytes a crash left, recovery of
    a segment returns. *)
Theorem scan_terminates num c max w now (rings : PerSignal (SignalRingState RB Sch)) :
  N.of_nat (length c) < u64_max ->
  recover_single_segment num (file_segment c) max w now rings <> None.
Proof.
  intros Hc. unfold recover_single_segment. cbn [sf_open_ok file_segment negb].
  pose proof (scan_terminates_from c (scan_fuel (file_segment c)) num max w now 0
    (mkScan rings (pconst 0) 0 None) Hc) as Hs.
  unfold file_segment in *. destruct (scan_loop _ _ _ _ _ _ _ _) as [[|]|]; [done|done|].
  exfalso. apply Hs; [|done]. unfold scan_fuel. simpl. lia.
Qed.

(** C6 (recovery_replays_unacked). Recovery of a directory whose segments hold whole frames,
    each segment possibly followed by a torn one, succeeds; every signal's
    queue then holds exactly the frames above the persisted watermark, once
    each, sorted by sequence number and pointing at their place on disk, the
    ring invariant holds with exact accounts, and the recovered watermark is at
    or above the persisted one and equal to the rings'. *)
Theorem recovery_replays_unacked env config w now (rings : PerSignal (SignalRingState RB Sch)) segs :
  env_segments env = Some (map sg_file segs) -> env_write_recovered_ok env = true ->
  Forall (segment_ok (max_disk_frame_payload_bytes config)) segs -> fresh_rings w rings ->
  (forall s, for_signal w s < u64_max) ->
  NoDup (map key (all_items segs)) -> Forall (fun l => lo_seq l < u64_max) (all_items segs) ->
  sum_N lo_len (all_items segs) <= usize_max -> sum_N lo_rows (all_items segs) <= usize_max ->
  exists rc, recover_segments env config w now rings = Some (Ok rc) /\
    forall s, let rs := sget (rc_rings rc) s in
      queue (ring rs) ≡ₚ map (queued_of now) (replayed w s (all_items segs)) /\
      (exists charge, ring_inv charge (committed_seq rs) (ring rs)) /\
      for_signal w s <= committed_seq rs /\ for_signal (rc_watermark rc) s = committed_seq rs.
Proof.
  intros Henv Hw Hok Hfresh Hwm Hnd Hq Hlen Hrow.
  destruct (recover_segments_ok env config w now rings segs Henv Hw Hok Hfresh Hwm Hnd Hq Hlen Hrow)
    as (rc & segs' & Hp & Hrc & _ & _ & Hs & Hm).
  exists rc. split; [done|]. intros s. cbv zeta.
  assert (Hfs : for_signal (from_rings (instance_id w) (rc_rings rc)) s
    = committed_seq (sget (rc_rings rc) s)) by (by destruct s).
  rewrite Hm, merge_monotonic_signal, Hfs.
  destruct (Hs s) as (rs & HR & ->). destruct (advance_ring_state_ok _ _ _ _ _ HR) as (Hqu & Hi & Hle).
  split_and!; [|done|done|lia].
  rewrite Hqu, (rr_queue _ _ _ _ _ HR). unfold replayed. by rewrite (all_items_perm _ _ Hp).
Qed.

(** Startup deletes a segment file exactly when no frame in it is above the
    persisted watermark, keeps every other one under garbage collection, and
    each replayed frame reads back from its recorded place as the batch that
    was stored. *)
Theorem recovery_removes_only_acked env config w now (rings : PerSignal (SignalRingState RB Sch)) segs :
  env_segments env = Some (map sg_file segs) -> env_write_recovered_ok env = true ->
  Forall (segment_ok (max_disk_frame_payload_bytes config)) segs -> fresh_rings w rings ->
  (forall s, for_signal w s < u64_max) ->
  NoDup (map key (all_items segs)) -> Forall (fun l => lo_seq l < u64_max) (all_items segs) ->
  sum_N lo_len (all_items segs) <= usize_max -> sum_N lo_rows (all_items segs) <= usize_max ->
  exists rc, recover_segments env config w now rings = Some (Ok rc) /\
    rc_removed rc ≡ₚ map sg_id (filter (fun g => has_unacked w g = false) segs) /\
    map ss_segment_id (rc_sealed rc) ≡ₚ map sg_id (filter (fun g => has_unacked w g = true) segs) /\
    forall g s l (dir : gmap N bytes), g ∈ segs -> l ∈ replayed w s (sg_items g) ->
      dir !! sg_id g = Some (sg_content g) ->
      read_frame_at dir (lo_segment l) (lo_offset l) (lo_len l) (max_disk_frame_payload_bytes config)
        = Ok (st_batch (lo_stored l)).
Proof.
  intros Henv Hw Hok Hfresh Hwm Hnd Hq Hlen Hrow.
  destruct (recover_segments_ok env config w now rings segs Henv Hw Hok Hfresh Hwm Hnd Hq Hlen Hrow)
    as (rc & segs' & Hp & Hrc & Hrem & Hsealed & _ & _).
  exists rc. split_and!; [done | by rewrite Hrem, Hp | by rewrite Hsealed, Hp |].
  intros g s l dir Hg Hl Hd. rewrite Forall_forall in Hok. eapply replayed_read_back; eauto.
Qed.
End Properties.

(** ** Witnesses *)

Section Witnesses.
Import Toy.

Definition demo_stored (s : SignalType) (q : N) (b : batch) : Stored :=
  match encode_frame s q b [] with
  | Ok (h, f) => mkStored h b f
  | Err _ => mkStored (mkFrameHeader Logs 0 0 0 0) b []
  end.

Lemma demo_stored_ok s q b :
  is_ok (encode_frame s q b []) = true -> q < u64_max ->
  N.of_nat (length (st_frame (demo_stored s q b))) <= u32_max ->
  stored_ok (RB := batch) (demo_stored s q b).
Proof.
  unfold demo_stored. destruct (encode_frame s q b []) as [[h f]|e] eqn:E; [|done].
  intros _ Hq Hl.
  destruct (encode_frame_ok _ _ _ _ _ _ E) as (fr & p & Ef & F). simpl in Ef. subst fr.
  pose proof (isf_signal _ _ _ _ _ _ F) as Hs. pose proof (isf_seq _ _ _ _ _ _ F) as Hsq.
  split_and!; [exists p; cbn [st_header st_batch st_frame]; by rewrite Hs, Hsq | by cbn; rewrite Hsq | done].
Qed.

Ltac demo_ok := apply demo_stored_ok; [reflexivity | reflexivity | vm_compute; discriminate].

Definition demo_segments : list Segment :=
  [mkSegment 4 [demo_stored Logs 1 (7, [1]); demo_stored Traces 3 (8, [2; 3])] [];
   mkSegment 2 [demo_stored Logs 2 (7, [4; 5]); demo_stored Logs 4 (7, [6])]
     (take 29 (st_frame (demo_stored Metrics 1 (9, [7]))))].
Definition demo_wm : DiskWatermark := mkDiskWatermark 77 2 0 0.
Definition demo_env : RecoveryEnv :=
  mkRecoveryEnv true true (Some (Some demo_wm)) 1 true (Some (map sg_file demo_segments)) true true.
Definition demo_rings : PerSignal (SignalRingState batch N) :=
  mkPerSignal (init_ring_state 2 new_ring_state) (init_ring_state 0 new_ring_state)
    (init_ring_state 0 new_ring_state).

Lemma demo_segments_ok : Forall (segment_ok (max_disk_frame_payload_bytes default_config)) demo_segments.
Proof.
  repeat first [apply Forall_nil_2 | apply Forall_cons_2].
  - split; [| constructor | vm_compute; done].
    repeat first [apply Forall_nil_2 | apply Forall_cons_2; [demo_ok|]].
  - split; [| | vm_compute; done].
    + repeat first [apply Forall_nil_2 | apply Forall_cons_2; [demo_ok|]].
    + apply TailTorn; [demo_ok | vm_compute; done | vm_compute; lia].
Qed.

Lemma scan_terminates_witness :
  recover_single_segment 1 (file_segment [79; 84; 76; 66; 1]) 100 demo_wm 0 demo_rings <> None.
Proof. apply (scan_terminates 1 [79; 84; 76; 66; 1] 100 demo_wm 0 demo_rings). reflexivity. Defined.

Lemma recovery_replays_unacked_witness :
  (exists rc, recover_segments demo_env default_config demo_wm 55 demo_rings = Some (Ok rc) /\
     map qb_seq_id (queue (ring (sget (rc_rings rc) Logs))) = [4] /\
     rc_truncated rc = [(2, 61)]) /\
  exists rc, recover_segments demo_env default_config demo_wm 55 demo_rings = Some (Ok rc) /\
    forall s, let rs := sget (rc_rings rc) s in
      queue (ring rs) ≡ₚ map (queued_of 55) (replayed demo_wm s (all_items demo_segments)) /\
      (exists charge, ring_inv charge (committed_seq rs) (ring rs)) /\
      for_signal demo_wm s <= committed_seq rs /\ for_signal (rc_watermark rc) s = committed_seq rs.
Proof.
  split; [eexists; split_and!; vm_compute; reflexivity|].
  apply (recovery_replays_unacked demo_env default_config demo_wm 55 demo_rings demo_segments);
    [reflexivity | reflexivity | exact demo_segments_ok | by intros [] | by intros [] | | | vm_compute; discriminate | vm_compute; discriminate].
  - apply (bool_decide_eq_true_1 _). vm_compute. reflexivity.
  - apply (bool_decide_eq_true_1 _). vm_compute. reflexivity.
Defined.

Lemma recovery_removes_only_acked_witness :
  exists rc, recover_segments demo_env default_config demo_wm 55 demo_rings = Some (Ok rc) /\
    rc_removed rc ≡ₚ map sg_id (filter (fun g => has_unacked demo_wm g = false) demo_segments) /\
    map ss_segment_id (rc_sealed rc) ≡ₚ map sg_id (filter (fun g => has_unacked demo_wm g = true) demo_segments) /\
    forall g s l (dir : gmap N bytes), g ∈ demo_segments -> l ∈ replayed demo_wm s (sg_items g) ->
      dir !! sg_id g = Some (sg_content g) ->
      read_frame_at dir (lo_segment l) (lo_offset l) (lo_len l) (max_disk_frame_payload_bytes default_config)
        = Ok (st_batch (lo_stored l)).
Proof.
  apply (recovery_removes_only_acked demo_env default_config demo_wm 55 demo_rings demo_segments);
    [reflexivity | reflexivity | exact demo_segments_ok | by intros [] | by intros [] | | | vm_compute; discriminate | vm_compute; discriminate].
  - apply (bool_decide_eq_true_1 _). vm_compute. reflexivity.
  - apply (bool_decide_eq_true_1 _). vm_compute. reflexivity.
Defined.
End Witnesses.
