(* ===== verification/Backend.v ===== *)
(** The handle of the disk buffer and its writer thread:
    crates/core/src/buffer/disk.rs ([DiskBackend]).

    Callers send commands on one channel and await each its reply; the thread takes
    them in groups of up to 64 and answers a group after it is committed (Writer).
    A run is a list of events: a call begins, the thread serves a group, an awaited
    reply takes too long, the shutdown is asked for.  Each call has a number, which
    names the channel of its reply. *)

From S2P Require Import Prelude Arrow Signal Frame Watermark Writer.
Local Open Scope N_scope.

(** ** Calls *)

Inductive Call : Type :=
| CallAppend (signal : SignalType) (seq_id rows : N) (frame_bytes : bytes)
| CallUpdate (watermark : DiskWatermark)
| CallFlush (watermark : DiskWatermark)
| CallFlushAsync (watermark : DiskWatermark)
| CallShutdown.

Definition command (c : Call) (reply : N) : WriterCommand :=
  match c with
  | CallAppend signal seq_id rows frame_bytes => AppendEncoded signal seq_id rows frame_bytes reply
  | CallUpdate watermark => UpdateWatermark watermark (Some reply)
  | CallFlush watermark => FlushWatermarkSync watermark reply
  | CallFlushAsync watermark => FlushWatermarkAsync watermark reply
  | CallShutdown => Shutdown
  end.

(** The reply of the thread was lost: the thread ended, and took the channel with it. *)
Definition reply_dropped (c : Call) : PipelineError :=
  Storage match c with
  | CallAppend _ _ _ _ => "disk buffer writer thread dropped append reply"
  | CallUpdate _ => "disk buffer writer thread dropped watermark reply"
  | _ => "disk buffer writer thread dropped sync reply"
  end.

(** The reply took too long, for the calls that bound it. *)
Definition timed_out (c : Call) : option PipelineError :=
  match c with
  | CallFlush _ | CallFlushAsync _ => Some (Storage "disk buffer writer thread timed out syncing watermark")
  | CallShutdown => Some (Storage "disk buffer writer thread timed out during shutdown")
  | _ => None
  end.

(** What a call returns: where the frame stands, for an append. *)
Definition Outcome : Type := result (option WrittenFrame) PipelineError.

(** ** The handle and the thread *)

(** Serving commands; past its loop, with the channel still there; gone. *)
Inductive Thread : Type := Serving | Ending | Ended.

Global Instance Thread_eq_dec : EqDecision Thread.
Proof. solve_decision. Defined.

(** The three [Option]s of the handle, the channel, the thread with its state, the calls
    that await their reply and those that returned; and, of what happened, all the
    calls, the commands sent, the groups served and their replies. *)
Record System := mkSystem {
  sy_cmd_tx : bool; sy_shutdown_done_rx : bool; sy_writer_handle : bool;
  sy_channel : list WriterCommand; sy_thread : Thread; sy_writer : WriterState;
  sy_pending : gmap N Call; sy_returned : gmap N Outcome;
  sy_calls : list Call; sy_sent : list WriterCommand; sy_groups : list (list WriterCommand); sy_replies : list GroupReplies }.

Global Instance System_eta : RecordEta System := fun s =>
  mkSystem (sy_cmd_tx s) (sy_shutdown_done_rx s) (sy_writer_handle s) (sy_channel s) (sy_thread s) (sy_writer s)
    (sy_pending s) (sy_returned s) (sy_calls s) (sy_sent s) (sy_groups s) (sy_replies s).

(** [open_and_recover], the handle and the thread, with the writer's recovered state. *)
Definition opened (w : WriterState) : System := mkSystem true true true [] Serving w ∅ ∅ [] [] [] [].

(** A command on the channel, [None] where the channel has no receiver. *)
Definition push (cmd : WriterCommand) (s : System) : option System :=
  match sy_thread s with
  | Ended => None
  | _ => Some (s <| sy_channel := sy_channel s ++ [cmd] |> <| sy_sent := sy_sent s ++ [cmd] |>)
  end.

(** The number of the next call. *)
Definition next_call (s : System) : N := N.of_nat (length (sy_calls s)).

Definition returns (k : N) (o : Outcome) (s : System) : System := s <| sy_returned := <[k := o]> (sy_returned s) |>.
Definition awaits (k : N) (c : Call) (s : System) : System := s <| sy_pending := <[k := c]> (sy_pending s) |>.

(** The sender is taken and, if it was there, the shutdown is sent. *)
Definition take_sender (s : System) : System :=
  if sy_cmd_tx s then (default s (push Shutdown s)) <| sy_cmd_tx := false |> else s.

(** [append_encoded_frame], [update_watermark], [flush_and_sync_watermark] and its
    asynchronous form, up to the reply they await; [shutdown_async] up to the thread. *)
Definition begin_call (c : Call) (s : System) : System :=
  let k := next_call s in
  let s := s <| sy_calls := sy_calls s ++ [c] |> in
  match c with
  | CallShutdown =>
      let s := take_sender s in
      let idle := negb (sy_shutdown_done_rx s) && negb (sy_writer_handle s) in
      let s := s <| sy_shutdown_done_rx := false |> <| sy_writer_handle := false |> in
      if idle || bool_decide (sy_thread s = Ended) then returns k (Ok None) s else awaits k c s
  | _ =>
      if negb (sy_cmd_tx s) then returns k (Err (Storage "disk buffer writer thread is closed")) s
      else
        match push (command c k) s with
        | Some s => awaits k c s
        | None => returns k (Err (Storage "disk buffer writer thread exited")) s
        end
  end.

(** [update_watermark_nonblocking]. *)
Definition update_watermark_nonblocking (watermark : DiskWatermark) (s : System) : System :=
  if sy_cmd_tx s then default s (push (UpdateWatermark watermark None) s) else s.

(** A reply, to a call that still awaits it. *)
Definition settle (s : System) (reply : N * Outcome) : System :=
  match sy_pending s !! reply.1 with
  | Some _ => returns reply.1 reply.2 (s <| sy_pending := delete reply.1 (sy_pending s) |>)
  | None => s
  end.

Definition append_outcome (res : result WrittenFrame string) : Outcome := match res with Ok wf => Ok (Some wf) | Err e => Err (Storage e) end.
Definition watermark_outcome (res : result unit string) : Outcome := match res with Ok _ => Ok None | Err e => Err (Storage e) end.

Definition outcomes (r : GroupReplies) : list (N * Outcome) :=
  map (fun x => (x.1, append_outcome x.2)) (gr_appends r) ++ map (fun x => (x.1, watermark_outcome x.2)) (gr_watermarks r).

(** What a call gets when the thread is gone. *)
Definition ended_outcome (c : Call) : Outcome := match c with CallShutdown => Ok None | _ => Err (reply_dropped c) end.

Inductive Event : Type :=
| Begin (c : Call)
| Nonblocking (watermark : DiskWatermark)
| Serve
| Timeout (k : N)
| End
| DropHandle.

Section Steps.
Context `{Crc}.
Variables (segment_size max_payload_len : N) (sync_on_write : bool).

(** The thread takes what there is, up to 64 commands, commits and answers. *)
Definition serve (s : System) : System :=
  match sy_thread s, sy_channel s with
  | Serving, _ :: _ =>
      let cmds := take 64 (sy_channel s) in
      let '(replies, stop, w) := writer_batch segment_size max_payload_len sync_on_write cmds (sy_writer s) in
      let s := s <| sy_channel := drop 64 (sy_channel s) |> <| sy_writer := w |> <| sy_groups := sy_groups s ++ [cmds] |> <| sy_replies := sy_replies s ++ [replies] |> in
      let s := foldl settle s (outcomes replies) in
      if stop then s <| sy_thread := Ending |> else s
  | _, _ => s
  end.

Definition step (s : System) (ev : Event) : System :=
  match ev with
  | Begin c => begin_call c s
  | Nonblocking watermark => update_watermark_nonblocking watermark s
  | Serve => serve s
  | Timeout k => match sy_pending s !! k ≫= timed_out with Some e => settle s (k, Err e) | None => s end
  | End =>
      match sy_thread s with
      | Ending => s <| sy_thread := Ended |> <| sy_returned := (ended_outcome <$> sy_pending s) ∪ sy_returned s |> <| sy_pending := ∅ |>
      | _ => s
      end
  | DropHandle => (take_sender s) <| sy_shutdown_done_rx := false |> <| sy_writer_handle := false |>
  end.

Definition run (evs : list Event) (s : System) : System := foldl step s evs.
End Steps.

(** ** Tags of replies *)

Definition append_tag (cmd : WriterCommand) : option N := match cmd with AppendEncoded _ _ _ _ reply => Some reply | _ => None end.
Definition wm_tag (cmd : WriterCommand) : option N :=
  match cmd with UpdateWatermark _ reply => reply | FlushWatermarkAsync _ reply | FlushWatermarkSync _ reply => Some reply | _ => None end.
Definition reply_tag (cmd : WriterCommand) : option N := match append_tag cmd with Some k => Some k | None => wm_tag cmd end.
Definition is_shutdown (cmd : WriterCommand) : bool := match cmd with Shutdown => true | _ => false end.

Section Tags.
Context `{Crc}.
Variables (segment_size max_payload_len : N) (sync_on_write : bool).

(** What the loop over a group's commands has gathered. *)
Definition gathered (cmds : list WriterCommand) (g : Group) : Prop :=
  map fst (append_replies g) = omap append_tag cmds /\ wm_oneshot_replies g ++ wm_blocking_replies g ≡ₚ omap wm_tag cmds /\
  (wm_blocking_replies g <> [] -> watermark_dirty g = true) /\ should_shutdown g = existsb is_shutdown cmds.

Lemma run_command_gathered done cmd g w : gathered done g -> gathered (done ++ [cmd]) (run_command segment_size max_payload_len (g, w) cmd).1.
Proof.
  intros (Ha & Hw & Hd & Hs). unfold gathered. rewrite !omap_app, existsb_app.
  destruct cmd as [signal seq rows frame k|wm [k|]|wm k|wm k|]; cbn; rewrite ?orb_false_r, ?app_nil_r.
  - destruct (write_encoded_frame _ _ _ _ _ _ _ _) as [res w']. cbn. rewrite map_app, Ha. done.
  - destruct (merge_monotonic (staged_watermark w) wm) as [staged changed]. cbn. split_and!; [done | rewrite <- Hw; by solve_Permutation | intros E; by rewrite (Hd E) | done].
  - destruct (merge_monotonic (staged_watermark w) wm) as [staged changed]. cbn. rewrite ?app_nil_r. split_and!; [done | done | intros E; by rewrite (Hd E) | done].
  - destruct (merge_monotonic (staged_watermark w) wm) as [staged changed]. cbn. split_and!; [done | rewrite <- Hw; by solve_Permutation | done | done].
  - destruct (merge_monotonic (staged_watermark w) wm) as [staged changed]. cbn. split_and!; [done | by rewrite app_assoc, Hw | done | done].
  - split_and!; [done | done | done | by rewrite orb_true_r].
Qed.

Lemma run_commands_gathered cmds : forall done g w, gathered done g -> gathered (done ++ cmds) (foldl (run_command segment_size max_payload_len) (g, w) cmds).1.
Proof.
  induction cmds as [|cmd cmds IH]; intros done g w Hg; cbn [foldl]; [by rewrite app_nil_r|].
  pose proof (run_command_gathered done cmd g w Hg) as Hg'. destruct (run_command _ _ (g, w) cmd) as [g' w']. rewrite cons_middle, app_assoc. by apply IH.
Qed.

(** A group answers each of its commands that awaits a reply, once. *)
Lemma group_tags cmds w : let '(r, stop, _) := writer_batch segment_size max_payload_len sync_on_write cmds w in
  map fst (gr_appends r) = omap append_tag cmds /\ map fst (gr_watermarks r) ≡ₚ omap wm_tag cmds /\ stop = existsb is_shutdown cmds.
Proof.
  unfold writer_batch. pose proof (run_commands_gathered cmds [] (mkGroup [] [] [] false false false) w ltac:(done)) as Hg. cbn [app] in Hg.
  destruct (foldl _ _ cmds) as [g w1]. destruct Hg as (Ha & Hw & Hd & Hs). cbn [fst] in Ha, Hw, Hd, Hs. unfold finish_group. destruct (group_sync _ g w1) as [err w2].
  assert (Hfst : forall f : result WrittenFrame string -> result WrittenFrame string, map fst (map (fun '(reply, res) => (reply, f res)) (append_replies g)) = omap append_tag cmds).
  { intros f. rewrite <- Ha, map_map. apply map_ext. by intros []. }
  destruct (watermark_dirty g) eqn:Ed.
  - destruct (match err with Some e => (Err e, w2) | None => _ end) as [res w3]. cbn. split_and!; [by apply (Hfst (fun res => match err with Some e => Err e | None => res end)) | | done].
    rewrite map_map. cbn. by rewrite map_id.
  - cbn. split_and!; [by apply (Hfst (fun res => match err with Some e => Err e | None => res end)) | | done]. rewrite map_map. cbn. rewrite map_id, <- Hw.
    destruct (wm_blocking_replies g); [by rewrite app_nil_r | by discriminate (Hd ltac:(done))].
Qed.
End Tags.

(** ** What holds of the handle and the thread *)

Definition call_of (s : System) (k : N) : option Call := sy_calls s !! N.to_nat k.

(** What an answer rests on. *)
Definition justified (s : System) (k : N) (c : Call) (o : Outcome) : Prop :=
  match o with
  | Ok (Some wf) => exists r, r ∈ sy_replies s /\ (k, Ok wf) ∈ gr_appends r
  | Ok None => c = CallShutdown \/ exists r, r ∈ sy_replies s /\ (k, Ok tt) ∈ gr_watermarks r
  | Err _ => True
  end.

(** A call that waits: the thread is there, with its command or the shutdown ahead. *)
Definition waits (s : System) (k : N) (c : Call) : Prop :=
  sy_thread s <> Ended /\ match c with CallShutdown => Shutdown ∈ sy_sent s | _ => command c k ∈ sy_channel s end.

Section Invariant.
Context `{Crc}.
Variables (segment_size max_payload_len : N) (sync_on_write : bool) (w0 : WriterState).

Record system_ok (s : System) : Prop := {
  ok_loop : writer_loop segment_size max_payload_len sync_on_write (sy_groups s) w0 = (sy_replies s, sy_writer s);
  ok_sent : sy_sent s = concat (sy_groups s) ++ sy_channel s;
  ok_tags : NoDup (omap reply_tag (sy_sent s));
  ok_calls : forall cmd k, cmd ∈ sy_sent s -> reply_tag cmd = Some k -> exists c, call_of s k = Some c /\ cmd = command c k;
  ok_serving : sy_thread s = Serving <-> Shutdown ∉ concat (sy_groups s);
  ok_cmd_tx : sy_cmd_tx s = true <-> Shutdown ∉ sy_sent s;
  ok_pending : forall k c, sy_pending s !! k = Some c -> call_of s k = Some c /\ sy_returned s !! k = None /\ waits s k c;
  ok_returned : forall k o, sy_returned s !! k = Some o -> exists c, call_of s k = Some c /\ justified s k c o;
  ok_all : forall k c, call_of s k = Some c -> is_Some (sy_pending s !! k) \/ is_Some (sy_returned s !! k);
  ok_channel : forall cmd k, sy_thread s <> Ended -> cmd ∈ sy_channel s -> reply_tag cmd = Some k -> is_Some (sy_pending s !! k) \/
    exists c e, call_of s k = Some c /\ timed_out c = Some e /\ sy_returned s !! k = Some (Err e : Outcome);
  ok_answers : forall r k o, r ∈ sy_replies s -> (k, o) ∈ outcomes r -> exists c, call_of s k = Some c /\
    (sy_returned s !! k = Some o \/ exists e, timed_out c = Some e /\ sy_returned s !! k = Some (Err e : Outcome)) }.

Lemma backend_opened_ok : system_ok (opened w0).
Proof.
  split; cbn; try done.
  - constructor.
  - by intros cmd k ?%not_elem_of_nil.
  - split; [intros _; apply not_elem_of_nil | done].
  - split; [intros _; apply not_elem_of_nil | done].
  - by intros cmd k _ ?%not_elem_of_nil.
  - by intros r k o ?%not_elem_of_nil.
Qed.

Lemma call_of_lt s k c : call_of s k = Some c -> k < next_call s.
Proof. intros Hk%lookup_lt_Some. unfold next_call. lia. Qed.

Lemma call_of_next s c k c' : (sy_calls s ++ [c]) !! N.to_nat k = Some c' <-> call_of s k = Some c' \/ (k = next_call s /\ c' = c).
Proof.
  unfold call_of, next_call. rewrite lookup_snoc_Some. split.
  - intros [[_ ?]|[? ->]]; [by left | right; split; [lia | done]].
  - intros [Hk|[-> ->]]; [left; split; [by eapply lookup_lt_Some | done] | right; split; [lia | done]].
Qed.

(** A call that returns at once. *)
Lemma returns_ok s c o : system_ok s -> (forall r, justified r (next_call s) c o) ->
  system_ok (returns (next_call s) o (s <| sy_calls := sy_calls s ++ [c] |>)).
Proof.
  intros I Ho. destruct I as [Hl Hs Ht Hc Hsv Htx Hp Hr Ha Hch Hw]. split; try done.
  - intros cmd k Hin Hk. destruct (Hc cmd k Hin Hk) as (c' & Hc' & E). exists c'. split; [|done]. apply call_of_next. by left.
  - intros k c' Hk. destruct (Hp k c' Hk) as (Hc' & Hn & Hwt). pose proof (call_of_lt _ _ _ Hc'). split_and!; [apply call_of_next; by left | | done].
    cbn. rewrite lookup_insert_ne by lia. done.
  - intros k o' Hk. cbn in Hk. destruct (decide (k = next_call s)) as [->|Hne].
    + rewrite lookup_insert_eq in Hk. injection Hk as <-. exists c. split; [apply call_of_next; by right | exact (Ho _)].
    + rewrite lookup_insert_ne in Hk by done. destruct (Hr k o' Hk) as (c' & Hc' & J). exists c'. split; [apply call_of_next; by left | exact J].
  - intros k c' Hk. cbn. apply call_of_next in Hk as [Hk|[-> ->]]; [|right; by rewrite lookup_insert_eq]. pose proof (call_of_lt _ _ _ Hk). rewrite lookup_insert_ne by lia. by eapply Ha.
  - intros cmd k Hth Hin Hk. destruct (Hch cmd k Hth Hin Hk) as [?|(c' & e & Hc' & He & Hre)]; [by left|]. right. exists c', e. pose proof (call_of_lt _ _ _ Hc').
    split_and!; [apply call_of_next; by left | done|]. cbn. by rewrite lookup_insert_ne by lia.
  - intros r k o' Hin Ho'. destruct (Hw r k o' Hin Ho') as (c' & Hc' & E). pose proof (call_of_lt _ _ _ Hc'). exists c'. split; [apply call_of_next; by left|].
    cbn. rewrite !lookup_insert_ne by lia. exact E.
Qed.

(** A call that begins to wait, with the command it has sent, if any. *)
Lemma awaits_ok s c : system_ok s -> (forall s', sy_thread s' = sy_thread s -> sy_sent s' = sy_sent s -> sy_channel s' = sy_channel s -> waits s' (next_call s) c) ->
  system_ok (awaits (next_call s) c (s <| sy_calls := sy_calls s ++ [c] |>)).
Proof.
  intros I Ho. destruct I as [Hl Hs Ht Hc Hsv Htx Hp Hr Ha Hch Hw]. split; try done.
  - intros cmd k Hin Hk. destruct (Hc cmd k Hin Hk) as (c' & Hc' & E). exists c'. split; [|done]. apply call_of_next. by left.
  - intros k c' Hk. cbn in Hk. destruct (decide (k = next_call s)) as [->|Hne].
    + rewrite lookup_insert_eq in Hk. injection Hk as <-. split_and!; [apply call_of_next; by right | | by apply Ho].
      cbn. destruct (sy_returned s !! next_call s) as [o|] eqn:E; [|done]. destruct (Hr _ _ E) as (c' & Hc' & _). apply call_of_lt in Hc'. lia.
    + rewrite lookup_insert_ne in Hk by done. destruct (Hp k c' Hk) as (Hc' & Hn & Hwt). split_and!; [apply call_of_next; by left | done | done].
  - intros k o' Hk. destruct (Hr k o' Hk) as (c' & Hc' & J). exists c'. split; [apply call_of_next; by left | exact J].
  - intros k c' Hk. cbn. apply call_of_next in Hk as [Hk|[-> ->]]; [|left; by rewrite lookup_insert_eq]. pose proof (call_of_lt _ _ _ Hk). rewrite lookup_insert_ne by lia. by eapply Ha.
  - intros cmd k Hth Hin Hk. destruct (Hc cmd k) as (c1 & Hc1 & _); [cbn in Hin; rewrite Hs; apply elem_of_app; by right | done|]. pose proof (call_of_lt _ _ _ Hc1).
    destruct (Hch cmd k Hth Hin Hk) as [?|(c' & e & Hc' & He & Hre)]; [left; cbn; by rewrite lookup_insert_ne by lia|]. right. exists c', e.
    split_and!; [apply call_of_next; by left | done | done].
  - intros r k o' Hin Ho'. destruct (Hw r k o' Hin Ho') as (c' & Hc' & E). exists c'. split; [apply call_of_next; by left | exact E].
Qed.

(** One more command on the channel, and the sender kept or, for the shutdown, taken. *)
Definition sent_one (cmd : WriterCommand) (open_ : bool) (s : System) : System :=
  s <| sy_channel := sy_channel s ++ [cmd] |> <| sy_sent := sy_sent s ++ [cmd] |> <| sy_cmd_tx := open_ |>.

Lemma is_shutdown_spec cmd : is_shutdown cmd = true <-> cmd = Shutdown.
Proof. by destruct cmd. Qed.

Lemma shutdown_elem (cmds : list WriterCommand) : existsb is_shutdown cmds = true <-> Shutdown ∈ cmds.
Proof.
  rewrite existsb_exists. split.
  - intros (cmd & Hin & ->%is_shutdown_spec). by apply list_elem_of_In.
  - intros Hin%list_elem_of_In. by exists Shutdown.
Qed.

#[local] Instance shutdown_elem_dec (cmds : list WriterCommand) : Decision (Shutdown ∈ cmds).
Proof. refine (cast_if (decide (existsb is_shutdown cmds = true))); by rewrite <- shutdown_elem. Defined.

Lemma waits_more s s' k c : waits s k c -> sy_thread s' = sy_thread s -> (forall cmd, cmd ∈ sy_channel s -> cmd ∈ sy_channel s') -> (forall cmd, cmd ∈ sy_sent s -> cmd ∈ sy_sent s') -> waits s' k c.
Proof. intros [Ht Hw] Et Hc Hs. split; [by rewrite Et|]. destruct c; auto. Qed.

Lemma untagged_ok s cmd : system_ok s -> sy_cmd_tx s = true -> reply_tag cmd = None -> system_ok (sent_one cmd (negb (is_shutdown cmd)) s).
Proof.
  intros I Hopen Hcmd. destruct I as [Hl Hs Ht Hc Hsv Htx Hp Hr Ha Hch Hw]. split; try done; cbn.
  - by rewrite Hs, app_assoc.
  - rewrite omap_app. cbn. rewrite Hcmd. by rewrite app_nil_r.
  - intros cmd' k [Hin|Hin]%elem_of_app Hk; [by apply Hc|]. apply list_elem_of_singleton in Hin as ->. congruence.
  - rewrite negb_true_iff, not_elem_of_app, list_elem_of_singleton. destruct (is_shutdown cmd) eqn:E.
    + apply is_shutdown_spec in E as ->. split; [done | by intros [_ ?]].
    + split; [intros _ | done]. split; [by apply Htx | intros <-; done].
  - intros k c Hk. destruct (Hp k c Hk) as (? & ? & Hwt). split_and!; [done | done|]. eapply waits_more; [exact Hwt | done | |]; intros x Hx; cbn; apply elem_of_app; by left.
  - intros cmd' k Hth [Hin|Hin]%elem_of_app Hk; [by apply (Hch cmd')|]. apply list_elem_of_singleton in Hin as ->. congruence.
Qed.

(** A call that sends its command and waits. *)
Definition asked (c : Call) (s : System) : System :=
  awaits (next_call s) c (s <| sy_calls := sy_calls s ++ [c] |> <| sy_channel := sy_channel s ++ [command c (next_call s)] |> <| sy_sent := sy_sent s ++ [command c (next_call s)] |>).

Lemma command_tag c k : c <> CallShutdown -> reply_tag (command c k) = Some k /\ is_shutdown (command c k) = false.
Proof. by destruct c. Qed.

Lemma asked_ok s c : system_ok s -> sy_cmd_tx s = true -> sy_thread s <> Ended -> c <> CallShutdown -> system_ok (asked c s).
Proof.
  intros I Hopen Hth Hc0. pose proof (command_tag c (next_call s) Hc0) as [Htag Hsd]. set (k0 := next_call s) in *. pose proof I as [Hl Hs Ht Hc Hsv Htx Hp Hr Ha Hch Hw].
  assert (Hold : forall k c', call_of s k = Some c' -> k <> k0) by (intros k c' Hk%call_of_lt; unfold k0; lia).
  assert (Hkeep : forall k c', call_of s k = Some c' -> call_of (asked c s) k = Some c') by (intros k c' Hk; apply call_of_next; by left).
  split; try done; cbn; fold k0.
  - by rewrite Hs, app_assoc.
  - rewrite omap_app. cbn. rewrite Htag. apply NoDup_app. split_and!; [done | | apply NoDup_singleton]. intros k (cmd & Hin & Hk)%list_elem_of_omap ->%list_elem_of_singleton.
    destruct (Hc cmd k0 Hin Hk) as (c' & Hc' & _). by eapply Hold.
  - intros cmd k [Hin|Hin]%elem_of_app Hk.
    + destruct (Hc cmd k Hin Hk) as (c' & Hc' & E). exists c'. split; [by apply Hkeep | done].
    + apply list_elem_of_singleton in Hin as ->. rewrite Htag in Hk. injection Hk as <-. exists c. split; [apply call_of_next; by right | done].
  - rewrite not_elem_of_app, list_elem_of_singleton. rewrite Htx. split; [|by intros [? _]]. intros Hn. split; [done|]. intros E. by rewrite <- E in Hsd.
  - intros k c' Hk. destruct (decide (k = k0)) as [->|Hne].
    + rewrite lookup_insert_eq in Hk. injection Hk as <-. split_and!; [apply call_of_next; by right | |].
      * destruct (sy_returned s !! k0) as [o|] eqn:E; [|done]. destruct (Hr _ _ E) as (c' & Hc' & _). by apply Hold in Hc'.
      * split; [done|]. cbn. destruct c; try done; apply elem_of_app; right; by apply list_elem_of_singleton.
    + rewrite lookup_insert_ne in Hk by done. destruct (Hp k c' Hk) as (Hc' & Hn & Hwt). split_and!; [by apply Hkeep | done|].
      eapply waits_more; [exact Hwt | done | |]; intros x Hx; cbn; apply elem_of_app; by left.
  - intros k o Hk. destruct (Hr k o Hk) as (c' & Hc' & J). exists c'. split; [by apply Hkeep | exact J].
  - intros k c' Hk. apply call_of_next in Hk as [Hk|[-> ->]]; [|left; by rewrite lookup_insert_eq]. rewrite lookup_insert_ne by (apply not_eq_sym; by eapply Hold). by eapply Ha.
  - intros cmd k _ [Hin|Hin]%elem_of_app Hk.
    + destruct (Hc cmd k) as (c1 & Hc1 & _); [rewrite Hs; apply elem_of_app; by right | done|]. rewrite lookup_insert_ne by (apply not_eq_sym; by eapply Hold).
      destruct (Hch cmd k Hth Hin Hk) as [?|(c' & e & Hc' & He & Hre)]; [by left|]. right. exists c', e. split_and!; [by apply Hkeep | done | done].
    + apply list_elem_of_singleton in Hin as ->. rewrite Htag in Hk. injection Hk as <-. left. by rewrite lookup_insert_eq.
  - intros r k o Hin Ho. destruct (Hw r k o Hin Ho) as (c' & Hc' & E). exists c'. split; [by apply Hkeep | exact E].
Qed.

(** The handle's other fields hold nothing of this. *)
Lemma flags_ok s d h : system_ok s -> system_ok (s <| sy_shutdown_done_rx := d |> <| sy_writer_handle := h |>).
Proof. intros []. by split. Qed.

Lemma open_serving s : system_ok s -> sy_cmd_tx s = true -> sy_thread s = Serving.
Proof. intros I Ho. apply (ok_serving _ I). apply (ok_cmd_tx _ I) in Ho. rewrite (ok_sent _ I) in Ho. by apply not_elem_of_app in Ho as [? _]. Qed.

Lemma take_sender_ok s : system_ok s -> system_ok (take_sender s) /\ Shutdown ∈ sy_sent (take_sender s) /\ sy_calls (take_sender s) = sy_calls s /\
  sy_thread (take_sender s) = sy_thread s.
Proof.
  intros I. unfold take_sender. destruct (sy_cmd_tx s) eqn:Ho.
  - unfold push. rewrite (open_serving s I Ho). cbn [default]. split_and!; [exact (untagged_ok s Shutdown I Ho eq_refl) | | done | cbn; by apply open_serving].
    cbn. apply elem_of_app. right. by apply list_elem_of_singleton.
  - split_and!; try done. destruct (decide (Shutdown ∈ sy_sent s)) as [?|Hn]; [done|]. apply (ok_cmd_tx _ I) in Hn. congruence.
Qed.

Lemma begin_call_ok c s : system_ok s -> system_ok (begin_call c s).
Proof.
  intros I. assert (Hc : c = CallShutdown \/ c <> CallShutdown) by (destruct c; auto; by right). destruct Hc as [->|Hc].
  - destruct (take_sender_ok s I) as (I' & Hin & Ec & Et). unfold begin_call.
    assert (E : take_sender (s <| sy_calls := sy_calls s ++ [CallShutdown] |>) = (take_sender s) <| sy_calls := sy_calls (take_sender s) ++ [CallShutdown] |>).
    { unfold take_sender, push. destruct s as [[] ? ? ? [] ? ? ? ? ? ? ?]; done. }
    rewrite E. assert (Ek : next_call s = next_call (take_sender s)) by (unfold next_call; by rewrite Ec). rewrite Ek. cbv zeta. set (t := take_sender s) in *.
    set (idle := _ && _). destruct (idle || _) eqn:Ei.
    + exact (flags_ok _ false false (returns_ok t CallShutdown (Ok None) I' (fun r => or_introl eq_refl))).
    + apply orb_false_elim in Ei as [_ Ei]. apply bool_decide_eq_false in Ei.
      refine (flags_ok _ false false (awaits_ok t CallShutdown I' _)). intros s' Hth Hsent _. split; [by rewrite Hth | by rewrite Hsent].
  - assert (E : begin_call c s = if sy_cmd_tx s then match sy_thread s with Ended => returns (next_call s) (Err (Storage "disk buffer writer thread exited")) (s <| sy_calls := sy_calls s ++ [c] |>) | _ => asked c s end
      else returns (next_call s) (Err (Storage "disk buffer writer thread is closed")) (s <| sy_calls := sy_calls s ++ [c] |>)).
    { destruct s as [[] ? ? ? [] ? ? ? ? ? ? ?], c; done. }
    rewrite E. destruct (sy_cmd_tx s) eqn:Ho; [|by apply returns_ok]. pose proof (open_serving s I Ho) as Hth. rewrite Hth. apply asked_ok; [done | done | by rewrite Hth | done].
Qed.

Lemma nonblocking_ok wm s : system_ok s -> system_ok (update_watermark_nonblocking wm s).
Proof.
  intros I. unfold update_watermark_nonblocking, push. destruct (sy_cmd_tx s) eqn:Ho; [|done]. rewrite (open_serving s I Ho).
  pose proof (untagged_ok s (UpdateWatermark wm None) I Ho eq_refl) as I'. cbn [default]. destruct s. cbn in *. by rewrite Ho.
Qed.

(** *** Replies *)

(** Replies to calls of their own are delivered to those that wait. *)
Lemma settle_all os : forall s, NoDup (map fst os) -> exists P R, foldl settle s os = s <| sy_pending := P |> <| sy_returned := R |> /\
  (forall k, P !! k = if decide (k ∈ map fst os) then None else sy_pending s !! k) /\
  (forall k o, (k, o) ∈ os -> is_Some (sy_pending s !! k) -> R !! k = Some o) /\
  (forall k, sy_pending s !! k = None \/ k ∉ map fst os -> R !! k = sy_returned s !! k).
Proof.
  induction os as [|[k0 o0] os IH]; intros s Hnd; cbn [foldl map] in *.
  - exists (sy_pending s), (sy_returned s). split_and!; [by destruct s | | by intros k o ?%not_elem_of_nil | done].
    intros k. case_decide as Hk; [by apply not_elem_of_nil in Hk | done].
  - apply NoDup_cons in Hnd as [Hnin Hnd]. destruct (IH (settle s (k0, o0)) Hnd) as (P & R & E & HP & HR & HR').
    exists P, R. rewrite E. unfold settle in *. cbn [fst snd] in *. destruct (sy_pending s !! k0) as [c0|] eqn:Ep.
    + cbn in HP, HR, HR'. split_and!; [done | | |].
      * intros k. rewrite HP. destruct (decide (k = k0)) as [->|Hne].
        -- rewrite lookup_delete_eq. rewrite (decide_True _ _ (list_elem_of_here k0 _)). by case_decide.
        -- rewrite lookup_delete_ne by done. case_decide as H1; case_decide as H2; try done; exfalso; set_solver.
      * intros k o [Eq|Hin]%elem_of_cons Hp.
        -- injection Eq as -> ->. rewrite HR' by (right; done). by rewrite lookup_insert_eq.
        -- apply HR; [done|]. assert (k <> k0) by (intros ->; apply Hnin; apply list_elem_of_fmap; by exists (k0, o)). by rewrite lookup_delete_ne.
      * intros k Hk. destruct (decide (k = k0)) as [->|Hne]; [destruct Hk as [Hk|Hk]; [congruence | exfalso; apply Hk; by left]|].
        rewrite HR'; [by rewrite lookup_insert_ne|]. rewrite lookup_delete_ne by done. destruct Hk as [?|Hk]; [by left | right; set_solver].
    + split_and!; [done | | |].
      * intros k. rewrite HP. destruct (decide (k = k0)) as [->|Hne]; [rewrite (decide_True _ _ (list_elem_of_here k0 _)), Ep; by case_decide|].
        case_decide as H1; case_decide as H2; try done; exfalso; set_solver.
      * intros k o [Eq|Hin]%elem_of_cons Hp; [injection Eq as -> ->; by rewrite Ep in Hp; destruct Hp | by apply HR].
      * intros k [?|Hk]; apply HR'; [by left | right; set_solver].
Qed.

(** *** Serving *)

Abbreviation batch_ := (writer_batch segment_size max_payload_len sync_on_write).
Abbreviation loop_ := (writer_loop segment_size max_payload_len sync_on_write).

Lemma writer_loop_snoc groups cmds : forall w, Shutdown ∉ concat groups ->
  loop_ (groups ++ [cmds]) w = let '(rs, w1) := loop_ groups w in let '(r, _, w2) := batch_ cmds w1 in (rs ++ [r], w2).
Proof.
  induction groups as [|g groups IH]; intros w Hn; cbn [app writer_loop concat] in *.
  - destruct (batch_ cmds w) as [[r stop] w2]. by destruct stop.
  - apply not_elem_of_app in Hn as [Hg Hn]. pose proof (group_tags segment_size max_payload_len sync_on_write g w) as Ht. destruct (batch_ g w) as [[r stop] w1]. destruct Ht as (_ & _ & ->).
    destruct (existsb is_shutdown g) eqn:E; [by apply shutdown_elem in E|]. rewrite IH by done. destruct (loop_ groups w1) as [rs w2]. by destruct (batch_ cmds w2) as [[r' stop'] w3].
Qed.

Lemma outcome_keys r cmds : map fst (gr_appends r) = omap append_tag cmds -> map fst (gr_watermarks r) ≡ₚ omap wm_tag cmds -> map fst (outcomes r) ≡ₚ omap reply_tag cmds.
Proof.
  intros Ha Hw. unfold outcomes. rewrite map_app, !map_map. change (map (fun x => fst (x.1, append_outcome x.2)) (gr_appends r)) with (map fst (gr_appends r)).
  change (map (fun x => fst (x.1, watermark_outcome x.2)) (gr_watermarks r)) with (map fst (gr_watermarks r)). rewrite Ha, Hw. clear.
  induction cmds as [|cmd cmds IH]; [done|]. cbn. destruct cmd as [signal seq rows frame k|wm [k|]|wm k|wm k|]; cbn; rewrite <- IH; try done; by solve_Permutation.
Qed.

(** An answer of the group is justified by it. *)
Lemma outcome_justified s r k c o : r ∈ sy_replies s -> (k, o) ∈ outcomes r -> justified s k c o.
Proof.
  intros Hr. unfold outcomes. rewrite elem_of_app. intros [Hin|Hin]; apply list_elem_of_In, in_map_iff in Hin as ([k' res] & Eq & Hin); injection Eq as <- <-; apply list_elem_of_In in Hin.
  - destruct res as [wf|e]; [by exists r | done].
  - destruct res as [[]|e]; [right; by exists r | done].
Qed.

Lemma justified_more s s' k c o : (forall r, r ∈ sy_replies s -> r ∈ sy_replies s') -> justified s k c o -> justified s' k c o.
Proof. intros Hr. destruct o as [[wf|]|e]; cbn; [intros (r & ? & ?); exists r; auto | intros [?|(r & ? & ?)]; [by left | right; exists r; auto] | done]. Qed.

Lemma serve_ok s : system_ok s -> system_ok (serve segment_size max_payload_len sync_on_write s).
Proof.
  intros I. unfold serve. destruct (sy_thread s) eqn:Eth; [|done|done]. destruct (sy_channel s) as [|c0 rest0] eqn:Ech; [done|]. rewrite <- Ech. clear c0 rest0 Ech.
  set (cmds := take 64 (sy_channel s)). set (rest := drop 64 (sy_channel s)). assert (Hsplit : sy_channel s = cmds ++ rest) by (symmetry; apply take_drop).
  pose proof (group_tags segment_size max_payload_len sync_on_write cmds (sy_writer s)) as Htags. pose proof (writer_loop_snoc (sy_groups s) cmds w0) as Hsnoc.
  destruct I as [Hl Hs Ht Hc Hsv Htx Hp Hr Ha Hch Hw]. rewrite Hl in Hsnoc. destruct (batch_ cmds (sy_writer s)) as [[r stop] w']. destruct Htags as (Hta & Htw & Hstop).
  pose proof (outcome_keys r cmds Hta Htw) as Hkeys. assert (Hnd : NoDup (map fst (outcomes r))).
  { rewrite Hkeys. rewrite Hs, Hsplit, !omap_app in Ht. apply NoDup_app in Ht as (_ & _ & Ht). by apply NoDup_app in Ht as (? & _). }
  set (s1 := s <| sy_channel := rest |> <| sy_writer := w' |> <| sy_groups := sy_groups s ++ [cmds] |> <| sy_replies := sy_replies s ++ [r] |>).
  destruct (settle_all (outcomes r) s1 Hnd) as (P & R & E & HP & HR & HR'). rewrite E.
  assert (Hin_keys : forall cmd k, cmd ∈ cmds -> reply_tag cmd = Some k -> k ∈ map fst (outcomes r)).
  { intros cmd k Hin Hk. rewrite Hkeys. apply list_elem_of_omap. by exists cmd. }
  assert (Hkey_cmd : forall k, k ∈ map fst (outcomes r) -> exists cmd, cmd ∈ cmds /\ reply_tag cmd = Some k).
  { intros k Hk. rewrite Hkeys in Hk. by apply list_elem_of_omap in Hk. }
  assert (Hgen : forall th, th <> Ended -> (th = Serving <-> Shutdown ∉ concat (sy_groups s ++ [cmds])) -> system_ok (s1 <| sy_pending := P |> <| sy_returned := R |> <| sy_thread := th |>)).
  { intros th Hth Hths. split; cbn.
    - rewrite Hsnoc; [done | by apply Hsv].
    - rewrite Hs, Hsplit, concat_app. cbn. by rewrite app_nil_r, app_assoc.
    - done.
    - done.
    - done.
    - done.
    - intros k c Hk. rewrite HP in Hk. case_decide as Hnk; [done|]. destruct (Hp k c Hk) as (Hcall & Hret & Hwait & Hcmd). split_and!; [done | by rewrite HR' by (by right) | split; [done|]].
      destruct c; try done; rewrite Hsplit in Hcmd; apply elem_of_app in Hcmd as [Hcmd|Hcmd]; try done; exfalso; by eapply Hnk, Hin_keys.
    - intros k o Hk. destruct (decide (k ∈ map fst (outcomes r))) as [Hin|Hnin].
      + destruct (sy_pending s !! k) as [c|] eqn:Ep.
        * destruct (Hp k c Ep) as (Hcall & _). exists c. split; [done|]. apply list_elem_of_fmap in Hin as ([k' o'] & -> & Hin). cbn in *.
          rewrite (HR k' o' Hin) in Hk by (by rewrite Ep). injection Hk as <-. eapply outcome_justified; [|exact Hin]. cbn. apply elem_of_app. right. by apply list_elem_of_singleton.
        * rewrite HR' in Hk by (by left). destruct (Hr k o Hk) as (c & Hcall & J). exists c. split; [done|]. eapply justified_more; [|exact J]. intros r' Hr'. cbn. apply elem_of_app. by left.
      + rewrite HR' in Hk by (by right). destruct (Hr k o Hk) as (c & Hcall & J). exists c. split; [done|]. eapply justified_more; [|exact J]. intros r' Hr'. cbn. apply elem_of_app. by left.
    - intros k c Hk. rewrite HP. destruct (Ha k c Hk) as [[c' Hp']|Hret].
      + case_decide as Hin; [|left; by exists c']. right. apply list_elem_of_fmap in Hin as ([k' o'] & -> & Hin). cbn in *. rewrite (HR k' o' Hin) by (by exists c'). by eexists.
      + right. destruct (sy_pending s !! k) as [c'|] eqn:Ep; [|by rewrite HR' by (by left)]. destruct (Hp k c' Ep) as (_ & Hn & _). rewrite Hn in Hret. by destruct Hret.
    - intros cmd k _ Hin Hk. assert (Hnk : k ∉ map fst (outcomes r)).
      { intros (cmd' & Hin' & Hk')%Hkey_cmd. rewrite Hs, Hsplit, !omap_app in Ht. apply NoDup_app in Ht as (_ & _ & Ht). apply NoDup_app in Ht as (_ & Hdis & _).
        eapply Hdis; apply list_elem_of_omap; [by exists cmd' | by exists cmd]. }
      rewrite HP, decide_False, HR' by (done || by right). apply (Hch cmd); [by rewrite Eth | rewrite Hsplit; apply elem_of_app; by right | done].
    - intros r' k o [Hr'|Hr']%elem_of_app Ho.
      + destruct (Hw r' k o Hr' Ho) as (c & Hcall & Hans). exists c. split; [done|]. assert (Hnp : sy_pending s !! k = None).
        { destruct (sy_pending s !! k) as [c'|] eqn:Ep; [|done]. destruct (Hp k c' Ep) as (_ & Hn & _). by destruct Hans as [Hx|(e & _ & Hx)]; rewrite Hn in Hx. }
        by rewrite !HR' by (by left).
      + apply list_elem_of_singleton in Hr' as ->. assert (Hin : k ∈ map fst (outcomes r)) by (apply list_elem_of_fmap; by exists (k, o)).
        destruct (Hkey_cmd k Hin) as (cmd & Hcmd & Hk). assert (Hcmd' : cmd ∈ sy_channel s) by (rewrite Hsplit; apply elem_of_app; by left).
        destruct (Hc cmd k) as (c & Hcall & _); [rewrite Hs; apply elem_of_app; by right | done|]. exists c. split; [done|].
        destruct (Hch cmd k) as [Hpend|(c' & e & Hcall' & He & Hret)]; [by rewrite Eth | done | done | left; by apply HR|].
        right. exists e. unfold call_of in *. split; [congruence|]. rewrite HR'; [done|]. left. destruct (sy_pending s !! k) as [c1|] eqn:Ep; [|done]. destruct (Hp k c1 Ep) as (_ & Hn & _). congruence. }
  assert (Hsd : stop = true <-> Shutdown ∈ concat (sy_groups s ++ [cmds])).
  { rewrite Hstop, shutdown_elem, concat_app, elem_of_app. cbn. rewrite app_nil_r. split; [by right|]. intros [Hin|?]; [|done]. by apply Hsv in Eth. }
  destruct stop.
  - apply (Hgen Ending); [done|]. split; [done|]. intros Hn. exfalso. by apply Hn, Hsd.
  - apply (Hgen (sy_thread s)); rewrite Eth; [done|]. split; [|done]. intros _ Hin. by apply Hsd in Hin.
Qed.

(** *** The other steps *)

Lemma timeout_ok s k c e : system_ok s -> sy_pending s !! k = Some c -> timed_out c = Some e -> system_ok (settle s (k, Err e)).
Proof.
  intros I Ep He. unfold settle. cbn [fst snd]. rewrite Ep. destruct I as [Hl Hs Ht Hc Hsv Htx Hp Hr Ha Hch Hw]. destruct (Hp k c Ep) as (Hcall & Hret & Hwait).
  split; try done; cbn.
  - intros k' c' Hk. destruct (decide (k' = k)) as [->|Hne]; [by rewrite lookup_delete_eq in Hk|]. rewrite lookup_delete_ne in Hk by done. destruct (Hp k' c' Hk) as (? & ? & ?).
    split_and!; [done | by rewrite lookup_insert_ne | done].
  - intros k' o Hk. destruct (decide (k' = k)) as [->|Hne]; [rewrite lookup_insert_eq in Hk; injection Hk as <-; by exists c|]. rewrite lookup_insert_ne in Hk by done. by apply Hr.
  - intros k' c' Hk. destruct (decide (k' = k)) as [->|Hne]; [right; by rewrite lookup_insert_eq|]. rewrite lookup_insert_ne, lookup_delete_ne by done. by eapply Ha.
  - intros cmd k' Hth Hin Hk. destruct (decide (k' = k)) as [->|Hne]; [right; exists c, e; by rewrite lookup_insert_eq|].
    rewrite lookup_insert_ne, lookup_delete_ne by done. by apply (Hch cmd).
  - intros r k' o Hin Ho. destruct (Hw r k' o Hin Ho) as (c' & Hc' & Hans). exists c'. split; [done|].
    destruct (decide (k' = k)) as [->|Hne]; [by destruct Hans as [Hx|(e' & _ & Hx)]; rewrite Hret in Hx|]. by rewrite !lookup_insert_ne.
Qed.

Lemma end_ok s : system_ok s -> sy_thread s = Ending ->
  system_ok (s <| sy_thread := Ended |> <| sy_returned := (ended_outcome <$> sy_pending s) ∪ sy_returned s |> <| sy_pending := ∅ |>).
Proof.
  intros I Eth. destruct I as [Hl Hs Ht Hc Hsv Htx Hp Hr Ha Hch Hw]. split; try done; cbn.
  - split; [done|]. intros Hn. apply Hsv in Hn. congruence.
  - intros k o Hk. apply lookup_union_Some_raw in Hk as [Hk|[_ Hk]]; [|by apply Hr]. rewrite lookup_fmap in Hk. destruct (sy_pending s !! k) as [c|] eqn:Ep; [|done].
    injection Hk as <-. destruct (Hp k c Ep) as (Hcall & _). exists c. split; [done|]. destruct c; try done. by left.
  - intros k c Hk. right. rewrite lookup_union, lookup_fmap. destruct (Ha k c Hk) as [[c' Hp']|[o Hret]].
    + rewrite Hp'. cbn. destruct (sy_returned s !! k); by eexists.
    + rewrite Hret. destruct (ended_outcome <$> sy_pending s !! k); by eexists.
  - intros r k o Hin Ho. destruct (Hw r k o Hin Ho) as (c' & Hc' & Hans). exists c'. split; [done|].
    assert (Ep : sy_pending s !! k = None). { destruct (sy_pending s !! k) as [c|] eqn:Ep; [|done]. destruct (Hp k c Ep) as (_ & Hret & _). by destruct Hans as [Hx|(e' & _ & Hx)]; rewrite Hret in Hx. }
    by rewrite !lookup_union_r by (by rewrite lookup_fmap, Ep).
Qed.

Lemma step_ok s ev : system_ok s -> system_ok (step segment_size max_payload_len sync_on_write s ev).
Proof.
  intros I. destruct ev as [c|wm| |k| |]; cbn [step].
  - by apply begin_call_ok.
  - by apply nonblocking_ok.
  - by apply serve_ok.
  - destruct (sy_pending s !! k) as [c|] eqn:Ep; [|done]. cbn [mbind option_bind]. destruct (timed_out c) as [e|] eqn:He; [|done]. by eapply timeout_ok.
  - destruct (sy_thread s) eqn:Eth; [done | by apply end_ok | done].
  - exact (flags_ok _ false false (proj1 (take_sender_ok s I))).
Qed.

Lemma run_ok evs : forall s, system_ok s -> system_ok (run segment_size max_payload_len sync_on_write evs s).
Proof. induction evs as [|ev evs IH]; intros s I; [done|]. cbn. by apply IH, step_ok. Qed.

(** An append that returned is the group's own, and its command is the call's. *)
Lemma append_returned s k wf : system_ok s -> sy_returned s !! k = Some (Ok (Some wf)) ->
  exists r, r ∈ sy_replies s /\ (k, Ok wf) ∈ gr_appends r.
Proof. intros I Hk. by destruct (ok_returned _ I _ _ Hk) as (c & _ & J). Qed.
End Invariant.

(** ** What a caller is told *)

Section Callers.
Context {RB Sch Row : Type} `{ArrowLaws RB Sch Row} `{Crc}.
Variables (size max : N) (sync : bool).

(** An [Ok] reply to a watermark command holds for its group's commands, and stays true
    in later groups. *)
Lemma loop_watermarks groups : forall log w, writer_inv log w -> staged_watermark w = persisted_watermark w -> size < u64_max ->
  next_segment_id w + N.of_nat (length (concat groups)) <= u64_max ->
  let '(rs, w') := writer_loop size max sync groups w in
  wm_le (persisted_watermark w) (persisted_watermark w') /\
  forall r tag, r ∈ rs -> (tag, Ok tt) ∈ gr_watermarks r -> exists cmds, cmds ∈ groups /\ tag ∈ omap wm_tag cmds /\
    forall c wm, c ∈ cmds -> cmd_watermark c = Some wm -> wm_le wm (persisted_watermark w').
Proof.
  induction groups as [|cmds groups IH]; intros log w I Hs Hsz Hn; cbn [writer_loop concat] in *; [split; [done | by intros r tag ?%not_elem_of_nil]|].
  rewrite length_app in Hn. pose proof (writer_batch_inv size max log w cmds sync I Hs Hsz ltac:(lia)) as Hb. pose proof (group_tags size max sync cmds w) as Ht.
  destruct (writer_batch size max sync cmds w) as [[r stop] w1]. destruct Hb as (log1 & I1 & _ & Hs1 & Hle1 & Hn1 & _ & Hwm). destruct Ht as (_ & Htw & _).
  assert (Htag : forall tag, (tag, Ok tt) ∈ gr_watermarks r -> tag ∈ omap wm_tag cmds) by (intros tag Hin; rewrite <- Htw; apply list_elem_of_fmap; by exists (tag, Ok tt)).
  destruct stop.
  - split; [done|]. intros r' tag ->%list_elem_of_singleton Hin. exists cmds. split_and!; [by left | by apply Htag | intros c wm; apply (Hwm tag c wm Hin)].
  - specialize (IH log1 w1 I1 Hs1 Hsz ltac:(lia)). destruct (writer_loop size max sync groups w1) as [rs w2]. destruct IH as (Hle2 & Hall). split; [by etrans|].
    intros r' tag [->|Hr]%elem_of_cons Hin.
    + exists cmds. split_and!; [by left | by apply Htag|]. intros c wm Hc Hcw. etrans; [by eapply Hwm | done].
    + destruct (Hall r' tag Hr Hin) as (cmds' & Hc' & Ht' & Hw'). exists cmds'. split_and!; [by right | done | done].
Qed.

(** No event sends more than one command. *)
Lemma run_sent evs : forall s, (length (sy_sent (run size max sync evs s)) <= length (sy_sent s) + length evs)%nat.
Proof.
  induction evs as [|ev evs IH]; intros s; cbn [run foldl]; [lia|]. fold (run size max sync evs (step size max sync s ev)).
  etrans; [apply IH|]. cbn [length]. enough (length (sy_sent (step size max sync s ev)) <= S (length (sy_sent s)))%nat by lia.
  assert (Hsettle : forall os s, sy_sent (foldl settle s os) = sy_sent s).
  { induction os as [|[k o] os IHo]; intros s'; [done|]. cbn [foldl]. rewrite IHo. unfold settle. by destruct (sy_pending s' !! _). }
  assert (Htake : forall s, (length (sy_sent (take_sender s)) <= S (length (sy_sent s)))%nat).
  { intros s'. unfold take_sender, push. destruct (sy_cmd_tx s'), (sy_thread s'); cbn; rewrite ?length_app; cbn; lia. }
  destruct ev as [c|wm| |k| |]; cbn [step].
  - unfold begin_call. destruct c; cbn [sy_cmd_tx]; try (unfold push; cbn; destruct (sy_cmd_tx s), (sy_thread s); cbn; rewrite ?length_app; cbn; lia).
    pose proof (Htake (s <| sy_calls := sy_calls s ++ [CallShutdown] |>)) as Hx. cbv zeta. destruct (_ || _); exact Hx.
  - unfold update_watermark_nonblocking, push. destruct (sy_cmd_tx s), (sy_thread s); cbn; rewrite ?length_app; cbn; lia.
  - unfold serve. destruct (sy_thread s), (sy_channel s) eqn:Ec; try lia. destruct (writer_batch _ _ _ _ _) as [[r stop] w']. destruct stop; cbn; rewrite Hsettle; cbn; lia.
  - destruct (sy_pending s !! k ≫= timed_out) as [e|]; [|lia]. pose proof (Hsettle [(k, Err e)] s) as Hx. cbn [foldl] in Hx. rewrite Hx. lia.
  - destruct (sy_thread s); cbn; lia.
  - exact (Htake s).
Qed.

(** What the calls on a backend come to, in any run from its opening. *)
Record served (w0 : WriterState) (s : System) : Prop := {
  sv_groups : writer_loop size max sync (sy_groups s) w0 = (sy_replies s, sy_writer s);
  sv_order : sy_sent s = concat (sy_groups s) ++ sy_channel s;
  sv_calls : forall k c, call_of s k = Some c -> waits s k c \/ exists o, sy_returned s !! k = Some o;
  sv_append : forall k signal seq rows frame wf, call_of s k = Some (CallAppend signal seq rows frame) -> sy_returned s !! k = Some (Ok (Some wf)) ->
    forall (batch : RB) h, encode_frame signal 0 batch [] = Ok (h, frame) -> seq <= u64_max -> for_signal (persisted_watermark (sy_writer s)) signal < seq ->
    read_frame_at (files (sy_writer s)) (wf_segment_id wf) (wf_offset wf) (wf_len wf) max = Ok batch;
  sv_watermark : forall k c wm, call_of s k = Some c -> sy_returned s !! k = Some (Ok None) ->
    c = CallUpdate wm \/ c = CallFlush wm \/ c = CallFlushAsync wm -> wm_le wm (persisted_watermark (sy_writer s));
  sv_answered : forall r k o, r ∈ sy_replies s -> (k, o) ∈ outcomes r -> exists c, call_of s k = Some c /\
    (sy_returned s !! k = Some o \/ exists e, timed_out c = Some e /\ sy_returned s !! k = Some (Err e : Outcome)) }.

Lemma command_inj c c' k k' : c <> CallShutdown -> command c k = command c' k' -> c = c' /\ k = k'.
Proof. by destruct c, c'; intros Hc [=]; subst. Qed.

Lemma backend_served evs log w0 : writer_inv log w0 -> staged_watermark w0 = persisted_watermark w0 -> size < u64_max ->
  next_segment_id w0 + N.of_nat (length evs) <= u64_max -> served w0 (run size max sync evs (opened w0)).
Proof.
  intros I Hs Hsz Hn. set (s := run size max sync evs (opened w0)). assert (Ok_s : system_ok size max sync w0 s) by (apply run_ok, backend_opened_ok).
  pose proof (run_sent evs (opened w0)) as Hlen. fold s in Hlen. cbn in Hlen.
  assert (Hg : next_segment_id w0 + N.of_nat (length (concat (sy_groups s))) <= u64_max) by (rewrite (ok_sent _ _ _ _ _ Ok_s), length_app in Hlen; lia).
  pose proof (ok_loop _ _ _ _ _ Ok_s) as Hl.
  assert (Htagged : forall cmd k, cmd ∈ concat (sy_groups s) -> reply_tag cmd = Some k -> exists c, call_of s k = Some c /\ cmd = command c k).
  { intros cmd k Hin. apply (ok_calls _ _ _ _ _ Ok_s). rewrite (ok_sent _ _ _ _ _ Ok_s). apply elem_of_app. by left. }
  split; try apply Ok_s.
  - intros k c Hk. destruct (ok_all _ _ _ _ _ Ok_s k c Hk) as [[c' Hp]|[o Ho]]; [left | right; by exists o].
    destruct (ok_pending _ _ _ _ _ Ok_s k c' Hp) as (Hk' & _ & Hw). rewrite Hk in Hk'. by injection Hk' as ->.
  - intros k signal seq rows frame wf Hk Hr batch h He Hq Hlt. destruct (append_returned _ _ _ _ _ _ _ Ok_s Hr) as (r & Hin & Hap).
    destruct (acked_append_spec size max sync _ log w0 _ _ r k wf I Hs Hsz Hg Hl Hin Hap) as (sg & q & n & fr & Hc & Hread).
    destruct (Htagged _ k Hc eq_refl) as (c & Hk' & Ec). rewrite Hk in Hk'. injection Hk' as <-. injection Ec as -> -> -> ->. by eapply Hread.
  - intros k c wm Hk Hr Hc. destruct (ok_returned _ _ _ _ _ Ok_s k _ Hr) as (c' & Hk' & J). rewrite Hk in Hk'. injection Hk' as <-.
    destruct J as [->|(r & Hin & Hw)]; [by destruct Hc as [?|[?|?]]|]. pose proof (loop_watermarks _ log w0 I Hs Hsz Hg) as Hlw. rewrite Hl in Hlw. destruct Hlw as [_ Hlw].
    destruct (Hlw r k Hin Hw) as (cmds & Hcin & (cmd & Hcmd & Htag)%list_elem_of_omap & Hle). assert (Hrt : reply_tag cmd = Some k) by (by destruct cmd).
    destruct (Htagged cmd k) as (c' & Hk' & ->); [apply list_elem_of_In, in_concat; exists cmds; split; by apply list_elem_of_In | done|]. rewrite Hk in Hk'. injection Hk' as <-.
    apply (Hle _ wm Hcmd). by destruct Hc as [-> | [-> | ->]].
Qed.

(** C5 (calls_served). The handle and its thread serve calls in the order they are made, in any
    run of calls, groups, timeouts, shutdown and drop, if system calls fail without
    a partial write: the commands are those of the groups, in order, and of the
    channel; every call has returned or waits for a thread that will answer or end,
    and none waits for one that is gone; an append that returned stands where it was
    told while it is not acknowledged, and a watermark that was reported stored is;
    what the thread answers reaches its call, or finds it timed out; and a thread
    that serves leaves fewer commands on the channel. *)
Theorem calls_served evs log w0 : writer_inv log w0 -> staged_watermark w0 = persisted_watermark w0 -> size < u64_max ->
  next_segment_id w0 + N.of_nat (length evs) <= u64_max ->
  let s := run size max sync evs (opened w0) in
  served w0 s /\
  (sy_thread s = Ended -> forall k c, call_of s k = Some c -> exists o, sy_returned s !! k = Some o) /\
  (sy_thread s = Serving -> sy_channel s <> [] -> (length (sy_channel (serve size max sync s)) < length (sy_channel s))%nat).
Proof.
  intros I Hs Hsz Hn s. pose proof (backend_served evs log w0 I Hs Hsz Hn) as Hsv. fold s in Hsv. split_and!; [done | |].
  - intros Hend k c Hk. destruct (sv_calls _ _ Hsv k c Hk) as [[Hne _]|?]; [by destruct Hne | done].
  - intros Hth Hch. assert (Hsettle : forall os t, sy_channel (foldl settle t os) = sy_channel t).
    { induction os as [|[k o] os IHo]; intros t; [done|]. cbn [foldl]. rewrite IHo. unfold settle. by destruct (sy_pending t !! _). }
    unfold serve. rewrite Hth. destruct (sy_channel s) as [|c rest] eqn:Ec; [done|]. rewrite <- Ec. destruct (writer_batch _ _ _ _ _) as [[r stop] w'].
    destruct stop; cbn; rewrite Hsettle; cbn; rewrite length_drop, Ec; cbn; lia.
Qed.
End Callers.

Module BackendDemo.
Import Toy.

Definition append (seq_id : N) (rows : list N) : Event := Begin (CallAppend Logs seq_id (N.of_nat (length rows)) (demo_frame Logs (7, rows))).
Definition flush : Event := Begin (CallFlush (mkDiskWatermark 5 1 0 0)).

(** Two appends and a flush in a group; a second flush is given up before its answer
    comes; an append before the shutdown is served, one after it refused; a second
    shutdown returns at once. *)
Definition events : list Event :=
  [append 1 [1; 2]; append 2 [3]; flush; Serve; Begin (CallFlushAsync (mkDiskWatermark 5 1 0 0)); Timeout 3; append 3 [4]; Begin CallShutdown; append 4 [5]; Begin CallShutdown; Serve; End].
Abbreviation end_state := (run 40 1000 true events (opened (demo_start []))).

(** A second shutdown has nothing to wait for, and returns before the thread has ended. *)
Example second_shutdown_returns :
  let s := run 40 1000 true (take 10 events) (opened (demo_start [])) in
  sy_thread s = Serving /\ sy_returned s !! 5 = None /\ sy_returned s !! 7 = Some (Ok None) /\ length (sy_channel s) = 3%nat.
Proof. by vm_compute. Qed.

Lemma calls_served_witness :
  map (fun k => sy_returned end_state !! k) [0; 1; 2; 3; 4; 5; 6; 7] =
    [Some (Ok (Some (mkWrittenFrame 1 0 31))); Some (Ok (Some (mkWrittenFrame 2 0 30))); Some (Ok None); Some (Err (Storage "disk buffer writer thread timed out syncing watermark"));
     Some (Ok (Some (mkWrittenFrame 3 0 30))); Some (Ok None); Some (Err (Storage "disk buffer writer thread is closed")); Some (Ok None)] /\
  served (RB := batch) 40 1000 true (demo_start []) end_state.
Proof.
  split; [vm_compute; reflexivity|].
  refine (proj1 (calls_served (RB := batch) 40 1000 true events ∅ (demo_start []) (demo_start_inv [] ltac:(constructor)) eq_refl eq_refl _)). vm_compute. discriminate.
Defined.
End BackendDemo.
