(* ===== verification/SinkBuffer.v ===== *)
(** The shared buffer: crates/core/src/buffer/mod.rs and lease.rs.

    Each definition is one critical section or one handler of the code; awaits
    are the boundaries between them.  A wait loop ([reserve_or_enqueue_slot],
    [next_lease]) is modelled by its iteration, which reports whether the caller
    returns or waits.  Commands for the writer thread are appended to
    [writer_queue] in sending order; its replies are arguments.  Metrics,
    tracing and notifications change no state that is read back. *)

From S2P Require Import Prelude Arrow Signal BufferConfig Frame Ring Watermark Writer.
Local Open Scope N_scope.

Definition nanos_per_sec : N := 1000000000.
Definition nanos_per_ms : N := 1000000.

Record BufferInner (RB Sch : Type) := mkBufferInner {
  bi_instance_id : N;
  bi_config : BufferConfig;
  rings : PerSignal (SignalRingState RB Sch);
  has_disk : bool;
  writer_open : bool;
  writer_queue : list WriterCommand;
  fatal_error : option string;
}.
Arguments mkBufferInner {RB Sch} _ _ _ _ _ _ _.
Arguments bi_instance_id {RB Sch} _.
Arguments bi_config {RB Sch} _.
Arguments rings {RB Sch} _.
Arguments has_disk {RB Sch} _.
Arguments writer_open {RB Sch} _.
Arguments writer_queue {RB Sch} _.
Arguments fatal_error {RB Sch} _.

Global Instance BufferInner_eta {RB Sch} : RecordEta (BufferInner RB Sch) := fun b =>
  mkBufferInner (bi_instance_id b) (bi_config b) (rings b) (has_disk b) (writer_open b)
    (writer_queue b) (fatal_error b).

Record LeaseId := mkLeaseId {
  id_instance : N;
  id_signal : SignalType;
  id_first_seq : N;
  id_last_seq : N;
}.

Inductive FailureClass : Type :=
| Transient
| Rejected (reason : string)
| Fatal (reason : string).

Record Lease (RB Sch : Type) := mkLease {
  l_id : LeaseId;
  l_batches : list RB;
  l_payloads : list (BatchPayload RB Sch);
  l_meta : list LeasedBatchMeta;
  l_num_rows : N;
  l_quarantined_rows : N;
  l_byte_size : N;
  l_attempt : N;
  l_leased_at : instant;
}.
Arguments mkLease {RB Sch} _ _ _ _ _ _ _ _ _.
Arguments l_id {RB Sch} _.
Arguments l_batches {RB Sch} _.
Arguments l_payloads {RB Sch} _.
Arguments l_meta {RB Sch} _.
Arguments l_num_rows {RB Sch} _.
Arguments l_quarantined_rows {RB Sch} _.
Arguments l_byte_size {RB Sch} _.
Arguments l_attempt {RB Sch} _.
Arguments l_leased_at {RB Sch} _.

Definition l_signal {RB Sch} (l : Lease RB Sch) : SignalType := id_signal (l_id l).

Record AppendReservation (Sch : Type) := mkAppendReservation {
  ar_signal : SignalType;
  ar_seq_id : N;
  ar_frame_bytes_len : N;
  ar_batch_rows : N;
  ar_rows : N;
  ar_schema : Sch;
}.
Arguments mkAppendReservation {Sch} _ _ _ _ _ _.
Arguments ar_signal {Sch} _.
Arguments ar_seq_id {Sch} _.
Arguments ar_frame_bytes_len {Sch} _.
Arguments ar_batch_rows {Sch} _.
Arguments ar_rows {Sch} _.
Arguments ar_schema {Sch} _.

Section Buffer.
Context {RB Sch Row : Type} `{Arrow RB Sch Row}.

Abbreviation inner_t := (BufferInner RB Sch).
Abbreviation ring_state_t := (SignalRingState RB Sch).

Definition upd_ring_state (b : inner_t) (s : SignalType) (rs : ring_state_t) : inner_t :=
  b <| rings := sset (rings b) s rs |>.

Definition all_signals : list SignalType := [Logs; Metrics; Traces].

(** [DiskWatermark::from_rings(self.instance_id, &self.rings)]. *)
Definition snapshot (b : inner_t) : DiskWatermark := from_rings (bi_instance_id b) (rings b).

(** [update_watermark_nonblocking], ignored when there is no disk or the
    channel is closed. *)
Definition update_watermark_nonblocking (b : inner_t) : inner_t :=
  if has_disk b && writer_open b
  then b <| writer_queue := writer_queue b ++ [UpdateWatermark (snapshot b) None] |>
  else b.

(** ** Failure and readiness *)

Definition set_if_none (o : option string) (reason : string) : option string :=
  match o with Some r => Some r | None => Some reason end.

Definition record_storage_failure (b : inner_t) (s : SignalType) (reason : string) : inner_t :=
  let b := b <| fatal_error := set_if_none (fatal_error b) reason |> in
  let rs := sget (rings b) s in
  let r := ring rs in
  upd_ring_state b s (rs <| ring := r <| ring_fatal_error := set_if_none (ring_fatal_error r) reason |> |>).

Definition is_ready (b : inner_t) (now_ms : N) : bool :=
  match fatal_error b with
  | Some _ => false
  | None =>
      let stall := readiness_stall_sec (bi_config b) *u64 1000 in
      let transient := max_transient_duration_sec (bi_config b) *u64 1000 in
      forallb (fun sig =>
        let rs := sget (rings b) sig in
        negb ((0 <? stall) && (0 <? blocked_senders rs) && (0 <? blocked_since_unix_ms rs)
              && (stall <=? now_ms -s blocked_since_unix_ms rs))
        && negb ((0 <? transient) && (0 <? first_transient_failure_unix_ms rs)
              && (transient <=? now_ms -s first_transient_failure_unix_ms rs))) all_signals
  end.

(** ** Shutdown *)

Definition discard_ring (rs : ring_state_t) : ring_state_t * N :=
  let r := ring rs in
  let rows := rows_in_flight r in
  let r := r <| queue := [] |> <| bytes_in_flight := 0 |> <| rows_in_flight := 0 |> <| inflight_leases := 0 |>
             <| slots := ∅ |> <| inflight_enqueued_at := ∅ |> <| evicted_unreclaimed_bytes := ∅ |>
             <| unreclaimed_disk_bytes := 0 |> in
  let '(r, c) := advance_watermark r (committed_seq rs) in
  let rs := rs <| ring := r |> <| committed_seq := c |> in
  (if 0 <? rows
   then rs <| shutdown_timeout_drops := (shutdown_timeout_drops rs + rows) mod (u64_max + 1) |>
   else rs, rows).

Definition discard_remaining_rings (b : inner_t) : inner_t * N :=
  foldl (fun '(b, total) sig =>
    let '(rs, rows) := discard_ring (sget (rings b) sig) in
    (upd_ring_state b sig rs, if 0 <? rows then total +u64 rows else total)) (b, 0) all_signals.

(** [flush_and_sync_watermark]: the command sent and the reply awaited. *)
Definition flush_and_sync_watermark (b : inner_t) (reply : result unit PipelineError)
  : result unit PipelineError * inner_t :=
  if writer_open b
  then (reply, b <| writer_queue := writer_queue b ++ [FlushWatermarkSync (snapshot b) 0] |>)
  else (Err (Storage "disk buffer writer thread is closed"), b).

Definition finalize_shutdown_timeout (b : inner_t) (reply : result unit PipelineError)
  : result unit PipelineError * inner_t :=
  let sync b := if has_disk b then flush_and_sync_watermark b reply else (Ok tt, b) in
  match effective_drain_policy (bi_config b) with
  | Persist => sync b
  | Discard =>
      let '(b, _) := discard_remaining_rings b in
      match sync b with
      | (Err e, b) => (Err e, b)
      | (Ok _, b) => (Err (Storage "shutdown drain timed out under Discard policy"), b)
      end
  end.

(** [finalize_shutdown_timeout_async]: the same, then the writer is shut down;
    both replies are awaited before the first error is returned. *)
Definition finalize_shutdown_timeout_async (b : inner_t) (sync_reply shutdown_reply : result unit PipelineError)
  : result unit PipelineError * inner_t :=
  let sync b :=
    if has_disk b
    then
      let '(sync_res, b) :=
        if writer_open b
        then (sync_reply, b <| writer_queue := writer_queue b ++ [FlushWatermarkAsync (snapshot b) 0] |>)
        else (Err (Storage "disk buffer writer thread is closed"), b) in
      let b := if writer_open b
               then b <| writer_queue := writer_queue b ++ [Shutdown] |> <| writer_open := false |>
               else b in
      (let? _ := sync_res in shutdown_reply, b)
    else (Ok tt, b) in
  match effective_drain_policy (bi_config b) with
  | Persist => sync b
  | Discard =>
      let '(b, _) := discard_remaining_rings b in
      match sync b with
      | (Err e, b) => (Err e, b)
      | (Ok _, b) => (Err (Storage "shutdown drain timed out under Discard policy"), b)
      end
  end.

(** ** Senders *)

Definition scope_signals (scope : option SignalType) : list SignalType :=
  match scope with Some s => [s] | None => all_signals end.

Definition increment_senders (b : inner_t) (scope : option SignalType) : inner_t :=
  foldl (fun b sig =>
    let rs := sget (rings b) sig in
    upd_ring_state b sig (rs <| active_senders := (active_senders rs + 1) mod (u64_max + 1) |>))
    b (scope_signals scope).

Definition decrement_senders (b : inner_t) (scope : option SignalType) : inner_t :=
  foldl (fun b sig =>
    let rs := sget (rings b) sig in
    let prev := active_senders rs in
    let rs := rs <| active_senders := (prev + u64_max) mod (u64_max + 1) |> in
    upd_ring_state b sig (if prev =? 1 then rs <| ring := (ring rs) <| closed := true |> |> else rs))
    b (scope_signals scope).

(** Dropping the [SinkBuffer]. *)
Definition drop_receiver (b : inner_t) (scope : option SignalType) : inner_t :=
  foldl (fun b sig =>
    let rs := sget (rings b) sig in
    upd_ring_state b sig (rs <| ring := (ring rs) <| receiver_dropped := true |> |>))
    b (scope_signals scope).

(** [BlockedSendGuard]: the flag is [active]. *)
Definition mark_blocked (rs : ring_state_t) (active : bool) (unix_now : N) : ring_state_t * bool :=
  if active then (rs, active)
  else
    let prev := blocked_senders rs in
    let rs := rs <| blocked_senders := (prev + 1) mod (u64_max + 1) |> in
    (if prev =? 0 then rs <| blocked_since_unix_ms := N.max unix_now 1 |> else rs, true).

Definition mark_admitted (rs : ring_state_t) (active : bool) (unix_now : N) : ring_state_t * bool :=
  if active
  then
    let prev := blocked_senders rs in
    let rs := rs <| blocked_senders := (prev + u64_max) mod (u64_max + 1) |> in
    (if prev <=? 1 then rs <| blocked_since_unix_ms := 0 |>
     else
       let rs := rs <| blocked_since_unix_ms := N.max unix_now 1 |> in
       if blocked_senders rs =? 0 then rs <| blocked_since_unix_ms := 0 |> else rs, false)
  else (rs, active).

Definition drop_guard (rs : ring_state_t) (active : bool) : ring_state_t :=
  if active
  then
    let prev := blocked_senders rs in
    let rs := rs <| blocked_senders := (prev + u64_max) mod (u64_max + 1) |> in
    if prev <=? 1 then rs <| blocked_since_unix_ms := 0 |> else rs
  else rs.

(** ** Admission *)

Definition can_admit (r : SignalRing RB Sch) (batch_bytes budget : N) : bool :=
  let total_used := bytes_in_flight r +us unreclaimed_disk_bytes r in
  if bool_decide (queue r = []) && (total_used =? 0) then true
  else (total_used +u64 batch_bytes) <=? budget.

Definition front_is_pinned (r : SignalRing RB Sch) (front : QueuedBatch RB Sch) : bool :=
  is_on_disk (qb_payload front)
  && match first_key (slots r) with Some first_seq => first_seq <? qb_seq_id front | None => false end.

(** The [DropOldest] loop; every iteration shortens the queue. *)
Fixpoint evict_loop (fuel : nat) (r : SignalRing RB Sch) (committed batch_bytes budget evicted_rows : N)
  : SignalRing RB Sch * N * N :=
  match fuel with
  | O => (r, committed, evicted_rows)
  | S fuel =>
      if can_admit r batch_bytes budget then (r, committed, evicted_rows)
      else
        match queue r with
        | [] => (r, committed, evicted_rows)
        | front :: q =>
            if front_is_pinned r front then (r, committed, evicted_rows)
            else
              let '(r, committed, rows) := record_evicted_batch (r <| queue := q |>) front committed in
              evict_loop fuel r committed batch_bytes budget (evicted_rows +u64 rows)
        end
  end.

Inductive SendOutcome : Type :=
| SendFailed (e : PipelineError)
| SendAdmitted (seq : option N)
| SendBlocked.

(** One iteration of [reserve_or_enqueue_slot]; [active] is the blocked-send
    guard's flag, returned with the outcome. *)
Definition reserve_attempt (b : inner_t) (signal : SignalType) (batch_bytes batch_rows : N)
  (in_memory_batch : option RB) (active : bool) (now : instant) (unix_now : N)
  : SendOutcome * bool * inner_t :=
  let budget := per_signal_budget (bi_config b) in
  match fatal_error b with
  | Some reason => (SendFailed (Storage reason), active, b)
  | None =>
      let rs := sget (rings b) signal in
      let r := ring rs in
      match ring_fatal_error r with
      | Some reason => (SendFailed (Storage reason), active, b)
      | None =>
          if receiver_dropped r || closed r then (SendFailed DownstreamClosed, active, b)
          else
            let '(r, committed, evicted_rows) :=
              match overflow_policy (bi_config b) with
              | DropOldest => evict_loop (length (queue r)) r (committed_seq rs) batch_bytes budget 0
              | Block => (r, committed_seq rs, 0)
              end in
            let rs := rs <| ring := r |> <| committed_seq := committed |> in
            let b := upd_ring_state b signal rs in
            let b := if 0 <? evicted_rows then update_watermark_nonblocking b else b in
            if can_admit r batch_bytes budget
            then
              let seq_id := next_seq r in
              let r := r <| next_seq := next_seq r +u64 1 |>
                         <| bytes_in_flight := bytes_in_flight r +us batch_bytes |>
                         <| rows_in_flight := rows_in_flight r +us batch_rows |> in
              let '(r, out) :=
                match in_memory_batch with
                | Some record_batch =>
                    let item := mkQueuedBatch seq_id (InMemory record_batch) batch_bytes batch_rows now None 0 None in
                    (r <| slots := <[seq_id := Queued]> (slots r) |> <| queue := queue r ++ [item] |>, None)
                | None => (r <| slots := <[seq_id := Reserved]> (slots r) |>, Some seq_id)
                end in
              let '(rs, active) := mark_admitted (rs <| ring := r |>) active unix_now in
              (SendAdmitted out, active, upd_ring_state b signal rs)
            else
              let '(rs, active) := mark_blocked rs active unix_now in
              (SendBlocked, active, upd_ring_state b signal rs)
      end
  end.

(** [AppendReservation::rollback_slot], also its [Drop]. *)
Definition rollback_slot (b : inner_t) (a : AppendReservation Sch) : inner_t :=
  let rs := sget (rings b) (ar_signal a) in
  let r := ring rs in
  match slots r !! ar_seq_id a with
  | None => b
  | Some _ =>
      let r := r <| slots := delete (ar_seq_id a) (slots r) |>
                 <| bytes_in_flight := bytes_in_flight r -s ar_frame_bytes_len a |>
                 <| rows_in_flight := rows_in_flight r -s ar_batch_rows a |> in
      let '(r, committed) := advance_watermark r (committed_seq rs) in
      update_watermark_nonblocking
        (upd_ring_state b (ar_signal a) (rs <| ring := r |> <| committed_seq := committed |>))
  end.

(** [AppendReservation::finish], called by the writer thread. *)
Definition finish_reservation (b : inner_t) (a : AppendReservation Sch) (res : result WrittenFrame string)
  (now : instant) : inner_t :=
  match res with
  | Ok written =>
      let actual_bytes := wf_len written in
      let rs := sget (rings b) (ar_signal a) in
      let r := ring rs in
      if bool_decide (slots r !! ar_seq_id a = Some Reserved)
      then
        let r := r <| bytes_in_flight := (bytes_in_flight r -s ar_frame_bytes_len a) +us actual_bytes |> in
        let r := r <| slots := <[ar_seq_id a := Queued]> (slots r) |> in
        let r := enqueue_ordered r (mkQueuedBatch (ar_seq_id a)
          (OnDisk (wf_segment_id written) (wf_offset written) (wf_len written) (ar_rows a) (ar_schema a))
          actual_bytes (ar_batch_rows a) now None 0 None) in
        upd_ring_state b (ar_signal a) (rs <| ring := r |>)
      else b
  | Err err_msg => record_storage_failure (rollback_slot b a) (ar_signal a) err_msg
  end.

(** The disk part of a send once a slot is reserved: the command with its
    reservation goes to the writer; a closed channel drops the reservation. *)
Definition submit_frame (b : inner_t) (a : AppendReservation Sch) (frame : bytes) (reply : N)
  : result unit PipelineError * inner_t :=
  if negb (has_disk b) then (Err (Internal "disk backend missing on disk send path"), rollback_slot b a)
  else if negb (writer_open b)
  then (Err (Storage "disk buffer writer thread is closed"), rollback_slot b a)
  else (Ok tt, b <| writer_queue := writer_queue b
                     ++ [AppendEncoded (ar_signal a) (ar_seq_id a) (ar_rows a) frame reply] |>).

(** ** Leasing *)

Definition signal_drained (r : SignalRing RB Sch) : bool :=
  closed r && (inflight_leases r =? 0) && bool_decide (slots r = ∅).

(** The coalescing scan over the queue behind its head: how many batches the
    lease takes, its bytes and rows, and whether a boundary stopped the scan. *)
Fixpoint coalesce_scan (c : BufferConfig) (r : SignalRing RB Sch) (now : instant) (first_attempt : N)
  (first_schema : Sch) (rest : list (QueuedBatch RB Sch)) (last_seq bytes rows : N) (count : nat)
  : nat * N * N * bool :=
  match rest with
  | [] => (count, bytes, rows, false)
  | next :: rest =>
      let expected := last_seq +u64 1 in
      if negb (qb_seq_id next =? expected)
      then (count, bytes, rows, negb (bool_decide (slots r !! expected = Some Reserved)))
      else if (match qb_ready_at next with Some t => now <? t | None => false end)
              || negb (qb_attempt next =? first_attempt)
              || negb (bool_decide (payload_schema (qb_payload next) = first_schema))
              || (max_batch_size_bytes c <? bytes +us qb_byte_size next)
              || (match max_batch_records c with
                  | Some max_rec => (max_rec <=? 1) || (max_rec <? rows +us qb_row_count next)
                  | None => false
                  end)
      then (count, bytes, rows, true)
      else coalesce_scan c r now first_attempt first_schema rest (qb_seq_id next)
             (bytes +us qb_byte_size next) (rows +us qb_row_count next) (S count)
  end.

Definition meta_of (q : QueuedBatch RB Sch) : LeasedBatchMeta :=
  mkLeasedBatchMeta (qb_seq_id q) (qb_byte_size q) (qb_row_count q) (qb_enqueued_at q) (qb_first_failed_at q).

Definition in_memory_batches (p : BatchPayload RB Sch) : list RB :=
  match p with InMemory b => [b] | OnDisk _ _ _ _ _ => [] end.

(** Popping [n] batches off the queue into a lease. *)
Fixpoint pop_batches (n : nat) (r : SignalRing RB Sch) (popped : list (QueuedBatch RB Sch))
  : SignalRing RB Sch * list (QueuedBatch RB Sch) :=
  match n, queue r with
  | S n, q :: rest =>
      let r := r <| queue := rest |> in
      let r := r <| slots := <[qb_seq_id q := InFlight]> (slots r) |> in
      let r := r <| inflight_enqueued_at := <[qb_seq_id q := qb_enqueued_at q]> (inflight_enqueued_at r) |> in
      pop_batches n r (popped ++ [q])
  | _, _ => (r, popped)
  end.

Definition has_earlier_reserved (r : SignalRing RB Sch) (seq : N) : bool :=
  existsb (fun '(s, st) => (s <? seq) && bool_decide (st = Reserved)) (map_to_list (slots r)).

Definition lease_of (b : inner_t) (signal : SignalType) (popped : list (QueuedBatch RB Sch)) (now : instant)
  : Lease RB Sch :=
  let first_seq := match popped with q :: _ => qb_seq_id q | [] => 0 end in
  let last_seq := match last popped with Some q => qb_seq_id q | None => 0 end in
  mkLease (mkLeaseId (bi_instance_id b) signal first_seq last_seq)
    (concat (map (fun q => in_memory_batches (qb_payload q)) popped))
    (map qb_payload popped) (map meta_of popped)
    (foldl (fun n q => n +us qb_row_count q) 0 popped) 0
    (foldl (fun n q => n +us qb_byte_size q) 0 popped)
    (match popped with q :: _ => qb_attempt q | [] => 0 end) now.

(** A lease, a deadline, and whether the signal is drained. *)
Definition try_pop_signal_lease (b : inner_t) (signal : SignalType) (now : instant)
  : option (Lease RB Sch) * option instant * bool * inner_t :=
  let c := bi_config b in
  let rs := sget (rings b) signal in
  let r := ring rs in
  if max_inflight_leases c <=? inflight_leases r
  then (None, None, signal_drained r && bool_decide (queue r = []), b)
  else
    match queue r with
    | [] => (None, None, signal_drained r, b)
    | front :: rest =>
        if has_earlier_reserved r (qb_seq_id front) then (None, None, false, b)
        else if (match qb_ready_at front with Some t => now <? t | None => false end)
        then (None, qb_ready_at front, false, b)
        else
          let first_attempt := qb_attempt front in
          let '(coalesce_count, check_bytes, check_rows, boundary) :=
            coalesce_scan c r now first_attempt (payload_schema (qb_payload front)) rest
              (qb_seq_id front) (qb_byte_size front) (qb_row_count front) 1 in
          let interval_zero := max_batch_interval_sec c =? 0 in
          let bytes_reached := max_batch_size_bytes c <=? check_bytes in
          let records_reached :=
            match max_batch_records c with Some max_rec => max_rec <=? check_rows | None => false end in
          let sender_blocked := 0 <? blocked_senders rs in
          let flush_deadline := qb_enqueued_at front + max_batch_interval_sec c * nanos_per_sec in
          if negb interval_zero && negb (closed r) && (first_attempt =? 0) && negb bytes_reached
             && negb records_reached && negb boundary && negb sender_blocked && (now <? flush_deadline)
          then (None, Some flush_deadline, false, b)
          else
            let '(r, popped) := pop_batches coalesce_count r [] in
            let r := r <| inflight_leases := inflight_leases r +us 1 |> in
            let b := upd_ring_state b signal (rs <| ring := r |>) in
            (Some (lease_of b signal popped now), None, false, b)
    end.

(** [next_lease]: one pass of its loop. *)
Inductive NextLease : Type :=
| LeaseReady (l : Lease RB Sch)
| Drained
| WaitUntil (deadline : option instant)
| NextFailed (e : PipelineError).

Definition min_deadline (acc : option instant) (d : option instant) : option instant :=
  match d, acc with
  | Some d, Some a => Some (N.min a d)
  | Some d, None => Some d
  | None, _ => acc
  end.

(** The round robin over the signals still to try in this pass. *)
Fixpoint round_robin (b : inner_t) (now : instant) (todo : list nat) (earliest : option instant)
  (all_drained : bool) : NextLease * option nat * inner_t :=
  match todo with
  | [] => (if all_drained then Drained else WaitUntil earliest, None, b)
  | idx :: todo =>
      let sig := nth idx all_signals Logs in
      match try_pop_signal_lease b sig now with
      | (Some l, _, _, b) => (LeaseReady l, Some ((idx + 1) mod 3)%nat, b)
      | (None, ready_at, drained, b) =>
          round_robin b now todo (min_deadline earliest ready_at) (all_drained && drained)
      end
  end.

Definition next_lease_pass (b : inner_t) (scope : option SignalType) (rr_cursor : nat) (now : instant)
  : NextLease * nat * inner_t :=
  match fatal_error b with
  | Some reason => (NextFailed (Storage reason), rr_cursor, b)
  | None =>
      match scope with
      | Some sig =>
          match try_pop_signal_lease b sig now with
          | (Some l, _, _, b) => (LeaseReady l, rr_cursor, b)
          | (None, ready_at, drained, b) =>
              (if drained then Drained else WaitUntil ready_at, rr_cursor, b)
          end
      | None =>
          let todo := map (fun offset => (rr_cursor + offset) mod 3)%nat [0; 1; 2]%nat in
          let '(res, cursor, b) := round_robin b now todo None true in
          (res, default rr_cursor cursor, b)
      end
  end.

(** ** Acknowledging and failing leases *)

(** [ack_lease]; [reply] is the writer's answer to the watermark update. *)
Definition ack_lease (b : inner_t) (signal : SignalType) (meta : list LeasedBatchMeta)
  (reset_transient_streak : bool) (reply : result unit PipelineError)
  : result N PipelineError * inner_t :=
  let rs := sget (rings b) signal in
  let rs := if reset_transient_streak then rs <| first_transient_failure_unix_ms := 0 |> else rs in
  let '(r, committed, acked_rows) := ack_entries (ring rs) meta (committed_seq rs) in
  let b := upd_ring_state b signal (rs <| ring := r |> <| committed_seq := committed |>) in
  if has_disk b
  then
    let '(res, b) :=
      if writer_open b
      then (reply, b <| writer_queue := writer_queue b ++ [UpdateWatermark (snapshot b) (Some 0)] |>)
      else (Err (Storage "disk buffer writer thread is closed"), b) in
    match res with
    | Ok _ => (Ok acked_rows, b)
    | Err e => (Err e, record_storage_failure b signal "watermark update failed")
    end
  else (Ok acked_rows, b).

Definition requeue_lease (b : inner_t) (signal : SignalType) (payloads : list (BatchPayload RB Sch))
  (meta : list LeasedBatchMeta) (next_attempt : N) (ready_at : option instant) : inner_t :=
  let rs := sget (rings b) signal in
  upd_ring_state b signal (rs <| ring := requeue_at_head (ring rs) payloads meta next_attempt ready_at |>).

Definition fail_lease (b : inner_t) (signal : SignalType) (payloads : list (BatchPayload RB Sch))
  (meta : list LeasedBatchMeta) (reason : string) : inner_t :=
  let b := b <| fatal_error := set_if_none (fatal_error b) reason |> in
  let rs := sget (rings b) signal in
  let r := requeue_at_head (ring rs) payloads meta 0 None in
  upd_ring_state b signal (rs <| ring := r <| ring_fatal_error := set_if_none (ring_fatal_error r) reason |> |>).

(** [Lease::ack]: the rows reported as committed. *)
Definition lease_ack (b : inner_t) (l : Lease RB Sch) (reply : result unit PipelineError)
  : result N PipelineError * inner_t :=
  match ack_lease b (l_signal l) (l_meta l) true reply with
  | (Ok acked_rows, b) => (Ok (acked_rows -s l_quarantined_rows l), b)
  | (Err e, b) => (Err e, b)
  end.

(** [min(initial * 2^min(attempt, 16), max_backoff)] in milliseconds. *)
Definition backoff_ms (c : BufferConfig) (attempt : N) : N :=
  let factor := 2 ^ N.min attempt 16 in
  N.min (initial_backoff_ms c *u64 factor) (max_backoff_sec c *u64 1000).

Definition mark_failed_at (now : instant) (m : LeasedBatchMeta) : LeasedBatchMeta :=
  mkLeasedBatchMeta (lm_seq_id m) (lm_byte_size m) (lm_row_count m) (lm_enqueued_at m)
    (match lm_first_failed_at m with Some t => Some t | None => Some now end).

(** The compare-and-swap that starts a transient streak. *)
Definition start_streak (rs : ring_state_t) (now_ms : N) : ring_state_t :=
  if first_transient_failure_unix_ms rs =? 0
  then rs <| first_transient_failure_unix_ms := now_ms |> else rs.

Definition transient_expired (c : BufferConfig) (rs : ring_state_t) (meta : list LeasedBatchMeta)
  (now : instant) (now_ms : N) : bool :=
  (0 <? max_transient_duration_sec c)
  && (((0 <? first_transient_failure_unix_ms rs)
       && (max_transient_duration_sec c *u64 1000 <=? now_ms -s first_transient_failure_unix_ms rs))
      || existsb (fun m => match lm_first_failed_at m with
           | Some t => max_transient_duration_sec c * nanos_per_sec <=? now -s t
           | None => false
           end) meta).

Definition nack_transient (b : inner_t) (l : Lease RB Sch) (now : instant) (unix_now : N) : inner_t :=
  let c := bi_config b in
  let signal := l_signal l in
  let now_ms := N.max unix_now 1 in
  let rs := start_streak (sget (rings b) signal) now_ms in
  let b := upd_ring_state b signal rs in
  let meta := map (mark_failed_at now) (l_meta l) in
  if transient_expired c rs meta now now_ms
  then fail_lease b signal (l_payloads l) meta "transient retry duration exceeded"
  else
    let backoff := backoff_ms c (l_attempt l) in
    let ready_at := if 0 <? backoff then Some (now + backoff * nanos_per_ms) else None in
    requeue_lease b signal (l_payloads l) meta (l_attempt l +u32 1) ready_at.

(** [nack_rejected_exhausted]; [write_res] is the dead-letter write. *)
Definition nack_rejected_exhausted (b : inner_t) (l : Lease RB Sch)
  (write_res reply : result unit PipelineError) : result unit PipelineError * inner_t :=
  let signal := l_signal l in
  match write_res with
  | Err e => (Err e, fail_lease b signal (l_payloads l) (l_meta l) "dead-letter write failed")
  | Ok _ =>
      let rs := sget (rings b) signal in
      let rs := rs <| dead_letter_drops := (dead_letter_drops rs + l_num_rows l) mod (u64_max + 1) |> in
      let b := upd_ring_state b signal rs in
      match ack_lease b signal (l_meta l) false reply with
      | (Ok _, b) => (Ok tt, b)
      | (Err e, b) => (Err e, b)
      end
  end.

Definition lease_nack (b : inner_t) (l : Lease RB Sch) (class : FailureClass) (now : instant) (unix_now : N)
  (write_res reply : result unit PipelineError) : result unit PipelineError * inner_t :=
  let next_attempt := l_attempt l +u32 1 in
  match class with
  | Transient => (Ok tt, nack_transient b l now unix_now)
  | Rejected _ =>
      if next_attempt <? max_attempts (bi_config b)
      then (Ok tt, requeue_lease b (l_signal l) (l_payloads l) (l_meta l) next_attempt None)
      else nack_rejected_exhausted b l write_res reply
  | Fatal reason => (Ok tt, fail_lease b (l_signal l) (l_payloads l) (l_meta l) reason)
  end.

(** [Drop for Lease] without ack or nack. *)
Definition lease_drop (b : inner_t) (l : Lease RB Sch) (now : instant) (unix_now : N) : inner_t :=
  let signal := l_signal l in
  let b := upd_ring_state b signal (start_streak (sget (rings b) signal) (N.max unix_now 1)) in
  requeue_lease b signal (l_payloads l) (map (mark_failed_at now) (l_meta l)) (l_attempt l +u32 1) None.

(** [quarantine_batches]: rows of a rejected subset written to the dead-letter
    store, whose answer is [write_res]. *)
Definition quarantine_batches (b : inner_t) (signal : SignalType) (batches : list RB)
  (write_res : result string PipelineError) : result (option string) PipelineError * inner_t :=
  let row_count := sum_N num_rows batches in
  if bool_decide (batches = []) || (row_count =? 0) then (Ok None, b)
  else
    match write_res with
    | Err e => (Err e, b)
    | Ok path =>
        let rs := sget (rings b) signal in
        (Ok (Some path), upd_ring_state b signal
          (rs <| dead_letter_drops := (dead_letter_drops rs + row_count) mod (u64_max + 1) |>))
    end.

Definition lease_quarantine (b : inner_t) (l : Lease RB Sch) (batches : list RB)
  (write_res : result string PipelineError) : result (option string) PipelineError * Lease RB Sch * inner_t :=
  match quarantine_batches b (l_signal l) batches write_res with
  | (Ok path, b) =>
      (Ok path, mkLease (l_id l) (l_batches l) (l_payloads l) (l_meta l) (l_num_rows l)
        ((l_quarantined_rows l + sum_N num_rows batches) mod (usize_max + 1)) (l_byte_size l)
        (l_attempt l) (l_leased_at l), b)
  | (Err e, b) => (Err e, l, b)
  end.

(** [Lease::prepare]: decoding the payloads, in order, and concatenating. *)
Fixpoint decode_payloads `{Crc} (c : BufferConfig) (dir : gmap N bytes) (payloads : list (BatchPayload RB Sch))
  : result (list RB) PipelineError :=
  match payloads with
  | [] => Ok []
  | p :: payloads =>
      let? b :=
        match p with
        | InMemory b => Ok b
        | OnDisk segment_id offset len _ _ =>
            match disk_path c with
            | None => Err (Storage "OnDisk payload encountered without configured disk_path")
            | Some _ => read_frame_at dir segment_id offset len (max_disk_frame_payload_bytes c)
            end
        end in
      let? bs := decode_payloads c dir payloads in
      Ok (b :: bs)
  end.

Definition prepare `{Crc} {T} (concat_batches : Sch -> list RB -> option RB) (c : BufferConfig)
  (dir : gmap N bytes) (l : Lease RB Sch) (f : RB -> result T PipelineError) : result T PipelineError :=
  match l_payloads l with
  | [] => Err (Internal "Lease::prepare invoked on empty lease")
  | _ =>
      let? decoded := decode_payloads c dir (l_payloads l) in
      let? combined :=
        match decoded with
        | [b] => Ok b
        | [] => Err (Internal "empty lease batches")
        | b :: _ => ok_or (concat_batches (rb_schema b) decoded) (ArrowErr "concat_batches")
        end in
      f combined
  end.

(** [recv_passthrough] once a lease is held: one batch or the prepared one,
    then the acknowledgement; a failed preparation drops the lease. *)
Definition recv_passthrough `{Crc} (concat_batches : Sch -> list RB -> option RB) (b : inner_t)
  (dir : gmap N bytes) (l : Lease RB Sch) (reply : result unit PipelineError) (now : instant) (unix_now : N)
  : result (SignalType * RB) PipelineError * inner_t :=
  let batch :=
    match l_batches l with
    | [rb] => Ok rb
    | _ => prepare concat_batches (bi_config b) dir l Ok
    end in
  match batch with
  | Err e => (Err e, lease_drop b l now unix_now)
  | Ok rb =>
      match lease_ack b l reply with
      | (Ok _, b) => (Ok (l_signal l, rb), b)
      | (Err e, b) => (Err e, b)
      end
  end.

(** ** Sending

    The slots a send asks for: the batch itself in memory mode, its frames in
    order in disk mode. *)
Inductive SlotRequest : Type :=
| MemoryRequest (batch_bytes batch_rows : N) (batch : RB)
| DiskRequest (frame : PreEncodedFrame RB).

Definition send_plan `{Crc} (b : inner_t) (signal : SignalType) (batch : RB)
  : option (result (list SlotRequest) PipelineError) :=
  if has_disk b
  then
    match split_and_encode_frames_for_disk signal batch (max_disk_frame_payload_bytes (bi_config b)) with
    | None => None
    | Some (Err e) => Some (Err e)
    | Some (Ok frames) => Some (Ok (map DiskRequest frames))
    end
  else Some (Ok [MemoryRequest (rb_memory_size batch) (num_rows batch) batch]).

Definition attempt_request (b : inner_t) (signal : SignalType) (req : SlotRequest) (active : bool)
  (now : instant) (unix_now : N) : SendOutcome * bool * inner_t :=
  match req with
  | MemoryRequest bytes rows batch => reserve_attempt b signal bytes rows (Some batch) active now unix_now
  | DiskRequest f =>
      reserve_attempt b signal (N.of_nat (length (pf_bytes f))) (num_rows (pf_batch f)) None active now unix_now
  end.

(** The reservation [send_pre_encoded_disk_frame] makes of an admitted slot. *)
Definition reservation_of (signal : SignalType) (seq_id : N) (f : PreEncodedFrame RB) : AppendReservation Sch :=
  mkAppendReservation signal seq_id (N.of_nat (length (pf_bytes f))) (num_rows (pf_batch f))
    (fh_row_count (pf_header f)) (rb_schema (pf_batch f)).

Definition send_pre_encoded_disk_frame (b : inner_t) (signal : SignalType) (seq : option N)
  (f : PreEncodedFrame RB) (reply : N) : result unit PipelineError * inner_t :=
  match seq with
  | None => (Ok tt, b)
  | Some seq_id => submit_frame b (reservation_of signal seq_id f) (pf_bytes f) reply
  end.

(** ** Counters

    [shutdown_timeout_drops], [corruption_drops], [replayed_records] and
    [dead_letter_drops]: one signal's counter, or the saturating sum. *)
Definition scoped_counter (b : inner_t) (scope : option SignalType) (f : ring_state_t -> N) : N :=
  match scope with
  | Some sig => f (sget (rings b) sig)
  | None => foldl (fun acc sig => acc +u64 f (sget (rings b) sig)) 0 all_signals
  end.

Definition sink_committed_seq (b : inner_t) (signal : SignalType) : N := committed_seq (sget (rings b) signal).

Definition sink_flush_and_sync_watermark (b : inner_t) (reply : result unit PipelineError)
  : result unit PipelineError * inner_t :=
  if has_disk b then flush_and_sync_watermark b reply else (Ok tt, b).

(** ** Construction *)

Definition new_memory_buffer (c : BufferConfig) (generated_id : N) : inner_t :=
  mkBufferInner generated_id c (pconst new_ring_state) false false [] None.

Definition new_disk_buffer (c : BufferConfig) (w : WriterState) (recovered : PerSignal ring_state_t) : inner_t :=
  mkBufferInner (instance_id (persisted_watermark w)) c recovered true true [] None.

(** The batch of a lease: its payloads read back, in order, and put together. *)
Definition lease_batch `{Crc} (concat_batches : Sch -> list RB -> option RB) c dir lease (batch : RB) : Prop :=
  exists decoded, decode_payloads c dir (l_payloads lease) = Ok decoded /\
    (decoded = [batch] \/ exists first rest, decoded = first :: rest /\ concat_batches (rb_schema first) decoded = Some batch).

(** What a preparation gives was given for the batch of its lease. *)
Lemma prepare_inv `{Crc} {T} (concat_batches : Sch -> list RB -> option RB) c dir lease (f : RB -> result T PipelineError) x :
  prepare concat_batches c dir lease f = Ok x -> exists b, lease_batch concat_batches c dir lease b /\ f b = Ok x.
Proof.
  unfold prepare, lease_batch. destruct (l_payloads lease) as [|p ps]; [done|]. destruct (decode_payloads _ _ _) as [decoded|]; [|done].
  destruct decoded as [|b [|b' bs]]; cbn; [done | intros Hf; exists b; split; [by eexists; split; [|left] | done] |].
  destruct (concat_batches _ _) as [cb|] eqn:Ec; [|done]. intros Hf. exists cb. split; [|done]. eexists. split; [done|]. right. by exists b, (b' :: bs).
Qed.
End Buffer.
