(* ===== verification/BufferSafety.v ===== *)
(** Safety of the shared buffer: interleavings of the operations of SinkBuffer.

    A system state is the buffer with the leases and append reservations that
    are outstanding; a step is one critical section of the code run by any task
    (sender, sink, writer thread, controller).  The invariant [sys_inv] ties every
    active sequence number to the one holder that may resolve it, and the
    byte, row and lease accounts to the active sequence numbers. *)

From S2P Require Import Prelude Arrow Signal BufferConfig Frame Ring Watermark Writer SinkBuffer.
Local Open Scope N_scope.

Record Sys (RB Sch : Type) := mkSys {
  buf : BufferInner RB Sch;
  leases : list (Lease RB Sch);
  resvs : list (AppendReservation Sch);
}.
Arguments mkSys {RB Sch} _ _ _.
Arguments buf {RB Sch} _.
Arguments leases {RB Sch} _.
Arguments resvs {RB Sch} _.

(** ** Tokens: leases and reservations of one signal *)

Section Tokens.
Context {RB Sch Row : Type} `{Arrow RB Sch Row}.
Implicit Types (m : gmap N LeaseSlotState) (charge : gmap N (N * N)).
Implicit Types (ls : list (Lease RB Sch)) (ars : list (AppendReservation Sch)).

Definition lease_seqs (l : Lease RB Sch) : list N := map lm_seq_id (l_meta l).

Definition held_seqs ls ars : list N := concat (map lease_seqs ls) ++ map ar_seq_id ars.

Definition lease_entry_ok charge m (item : LeasedBatchMeta) : Prop :=
  m !! lm_seq_id item = None \/
  (m !! lm_seq_id item = Some InFlight /\
   charge !! lm_seq_id item = Some (lm_byte_size item, lm_row_count item)).

Definition resv_ok charge m (a : AppendReservation Sch) : Prop :=
  m !! ar_seq_id a = None \/
  (m !! ar_seq_id a = Some Reserved /\
   charge !! ar_seq_id a = Some (ar_frame_bytes_len a, ar_batch_rows a)).

Definition lease_ok charge m (l : Lease RB Sch) : Prop :=
  Forall (lease_entry_ok charge m) (l_meta l) /\ length (l_payloads l) = length (l_meta l).

(** Leases with an entry still leased in the ring. *)
Definition active_leases m ls : N :=
  sum_N (fun l => if any_inflight m (l_meta l) then 1 else 0) ls.

Lemma active_leases_cons m l ls :
  active_leases m (l :: ls) = (if any_inflight m (l_meta l) then 1 else 0) + active_leases m ls.
Proof. reflexivity. Qed.

Record tokens_inv charge m (next leases : N) ls ars : Prop := {
  ti_leases : Forall (lease_ok charge m) ls;
  ti_resvs : Forall (resv_ok charge m) ars;
  ti_nodup : NoDup (held_seqs ls ars);
  ti_fresh : forall x, x ∈ held_seqs ls ars -> x < next;
  ti_inflight : forall x, m !! x = Some InFlight -> x ∈ concat (map lease_seqs ls);
  ti_reserved : forall x, m !! x = Some Reserved -> x ∈ map ar_seq_id ars;
  ti_count : leases = active_leases m ls;
}.

Lemma lease_entry_ok_ext charge m charge' m' item :
  m' !! lm_seq_id item = m !! lm_seq_id item -> charge' !! lm_seq_id item = charge !! lm_seq_id item ->
  lease_entry_ok charge m item -> lease_entry_ok charge' m' item.
Proof. unfold lease_entry_ok. by intros -> ->. Qed.

Lemma lease_ok_ext charge m charge' m' l :
  (forall x, x ∈ lease_seqs l -> m' !! x = m !! x /\ charge' !! x = charge !! x) ->
  lease_ok charge m l -> lease_ok charge' m' l.
Proof.
  intros Hext [Hf Hl]. split; [|done]. rewrite Forall_forall in *. intros it Hin.
  destruct (Hext (lm_seq_id it)); [by apply list_elem_of_fmap_2|]. eapply lease_entry_ok_ext; eauto.
Qed.

Lemma active_leases_ext m m' ls :
  (forall x, x ∈ concat (map lease_seqs ls) -> m' !! x = m !! x) -> active_leases m' ls = active_leases m ls.
Proof.
  intros Hext. apply sum_N_ext. intros l Hl.
  rewrite (any_inflight_ext m m'); [done|]. intros it Hit. apply Hext.
  apply list_elem_of_concat. exists (lease_seqs l). split; [by apply list_elem_of_fmap_2|].
  apply list_elem_of_fmap. by exists l.
Qed.

Lemma held_seqs_lease ls ars l x : l ∈ ls -> x ∈ lease_seqs l -> x ∈ held_seqs ls ars.
Proof.
  intros Hl Hx. apply elem_of_app. left. apply list_elem_of_concat. exists (lease_seqs l).
  split; [done|]. apply list_elem_of_fmap. by exists l.
Qed.

Lemma held_seqs_resv ls ars a : a ∈ ars -> ar_seq_id a ∈ held_seqs ls ars.
Proof. intros Ha. apply elem_of_app. right. by apply list_elem_of_fmap_2. Qed.

(** A change of the ring that touches no held sequence number. *)
Lemma tokens_frame charge m n k ls ars charge' m' n' :
  tokens_inv charge m n k ls ars -> n <= n' ->
  (forall x, x ∈ held_seqs ls ars -> m' !! x = m !! x /\ charge' !! x = charge !! x) ->
  (forall x, m' !! x = Some InFlight -> m !! x = Some InFlight) ->
  (forall x, m' !! x = Some Reserved -> m !! x = Some Reserved) ->
  tokens_inv charge' m' n' k ls ars.
Proof.
  intros [Hl Hr Hnd Hf Hi Hres Hc] Hn Hext H1 H2. split; auto.
  - rewrite Forall_forall in *. intros l Hin. eapply lease_ok_ext; [|by apply Hl].
    intros x Hx. apply Hext. by eapply held_seqs_lease.
  - rewrite Forall_forall in *. intros a Hin. unfold resv_ok.
    destruct (Hext (ar_seq_id a)) as [-> ->]; [by apply held_seqs_resv | by apply Hr].
  - intros x Hx. specialize (Hf x Hx). lia.
  - rewrite Hc. symmetry. apply active_leases_ext. intros x Hx. apply Hext, elem_of_app. by left.
Qed.

Lemma held_seqs_cons_lease l ls ars : held_seqs (l :: ls) ars = lease_seqs l ++ held_seqs ls ars.
Proof. unfold held_seqs. cbn. by rewrite app_assoc. Qed.

Lemma held_seqs_cons_resv ls a ars : held_seqs ls (a :: ars) ≡ₚ ar_seq_id a :: held_seqs ls ars.
Proof. unfold held_seqs. cbn. symmetry. apply Permutation_middle. Qed.

(** A lease leaves: its entries are no longer leased. *)
Lemma tokens_drop_lease charge m n k l ls ars charge' m' n' :
  tokens_inv charge m n k (l :: ls) ars -> n <= n' ->
  (forall x, x ∉ lease_seqs l -> m' !! x = m !! x /\ charge' !! x = charge !! x) ->
  (forall x, x ∈ lease_seqs l -> m' !! x <> Some InFlight /\ m' !! x <> Some Reserved) ->
  tokens_inv charge' m' n' (k - (if any_inflight m (l_meta l) then 1 else 0)) ls ars.
Proof.
  intros [Hl Hr Hnd Hf Hi Hres Hc] Hn Hext Hin. rewrite held_seqs_cons_lease in Hnd, Hf.
  apply NoDup_app in Hnd as (Hnd1 & Hdis & Hnd). apply Forall_cons in Hl as [_ Hl].
  assert (Hkeep : forall x, x ∈ held_seqs ls ars -> m' !! x = m !! x /\ charge' !! x = charge !! x).
  { intros x Hx. apply Hext. intros Hx'. by apply (Hdis x). }
  split; auto.
  - rewrite Forall_forall in *. intros l' Hl'. eapply lease_ok_ext; [|by apply Hl].
    intros x Hx. apply Hkeep. by eapply held_seqs_lease.
  - rewrite Forall_forall in *. intros a Ha. unfold resv_ok.
    destruct (Hkeep (ar_seq_id a)) as [-> ->]; [by apply held_seqs_resv | by apply Hr].
  - intros x Hx. assert (x < n); [|lia]. apply Hf, elem_of_app. by right.
  - intros x Hx. destruct (decide (x ∈ lease_seqs l)) as [Hd|Hd]; [by apply Hin in Hd as []|].
    destruct (Hext x Hd) as [E _]. rewrite E in Hx. apply Hi in Hx. cbn in Hx.
    by apply elem_of_app in Hx as [?|?].
  - intros x Hx. destruct (decide (x ∈ lease_seqs l)) as [Hd|Hd]; [by apply Hin in Hd as []|].
    destruct (Hext x Hd) as [E _]. rewrite E in Hx. by apply Hres.
  - rewrite Hc, active_leases_cons, (active_leases_ext m m'); [lia|].
    intros x Hx. apply Hkeep, elem_of_app. by left.
Qed.

(** A reservation leaves. *)
Lemma tokens_drop_resv charge m n k ls a ars charge' m' n' :
  tokens_inv charge m n k ls (a :: ars) -> n <= n' ->
  (forall x, x <> ar_seq_id a -> m' !! x = m !! x /\ charge' !! x = charge !! x) ->
  m' !! ar_seq_id a <> Some InFlight -> m' !! ar_seq_id a <> Some Reserved ->
  tokens_inv charge' m' n' k ls ars.
Proof.
  intros [Hl Hr Hnd Hf Hi Hres Hc] Hn Hext H1 H2. setoid_rewrite held_seqs_cons_resv in Hnd.
  setoid_rewrite held_seqs_cons_resv in Hf. apply NoDup_cons in Hnd as [Hdis Hnd].
  apply Forall_cons in Hr as [_ Hr].
  assert (Hkeep : forall x, x ∈ held_seqs ls ars -> m' !! x = m !! x /\ charge' !! x = charge !! x).
  { intros x Hx. apply Hext. intros ->. done. }
  split; auto.
  - rewrite Forall_forall in *. intros l' Hl'. eapply lease_ok_ext; [|by apply Hl].
    intros x Hx. apply Hkeep. by eapply held_seqs_lease.
  - rewrite Forall_forall in *. intros a' Ha. unfold resv_ok.
    destruct (Hkeep (ar_seq_id a')) as [-> ->]; [by apply held_seqs_resv | by apply Hr].
  - intros x Hx. assert (x < n); [|lia]. apply Hf. by right.
  - intros x Hx. destruct (decide (x = ar_seq_id a)) as [->|Hd]; [done|].
    destruct (Hext x Hd) as [E _]. rewrite E in Hx. by apply Hi.
  - intros x Hx. destruct (decide (x = ar_seq_id a)) as [->|Hd]; [done|].
    destruct (Hext x Hd) as [E _]. rewrite E in Hx. apply Hres in Hx. cbn in Hx.
    by apply elem_of_cons in Hx as [?|?].
  - rewrite Hc. symmetry. apply active_leases_ext. intros x Hx. apply Hkeep, elem_of_app. by left.
Qed.

(** A fresh reservation. *)
Lemma tokens_add_resv charge m n k ls a ars b r :
  tokens_inv charge m n k ls ars -> ar_seq_id a = n -> ar_frame_bytes_len a = b -> ar_batch_rows a = r ->
  tokens_inv (<[n := (b, r)]> charge) (<[n := Reserved]> m) (n + 1) k ls (a :: ars).
Proof.
  intros I <- <- <-. set (n := ar_seq_id a) in *.
  assert (Hkeep : forall x, x ∈ held_seqs ls ars -> x <> n).
  { intros x Hx. apply (ti_fresh _ _ _ _ _ _ I) in Hx. lia. }
  destruct I as [Hl Hr Hnd Hf Hi Hres Hc]. split.
  - rewrite Forall_forall in *. intros l' Hl'. eapply lease_ok_ext; [|by apply Hl].
    intros x Hx. apply (held_seqs_lease ls ars) in Hx; [|done]. apply Hkeep in Hx.
    by rewrite !lookup_insert_ne.
  - apply Forall_cons. split; [right; by rewrite !lookup_insert_eq|].
    rewrite Forall_forall in *. intros a' Ha. unfold resv_ok.
    pose proof (Hkeep _ (held_seqs_resv ls _ _ Ha)). rewrite !lookup_insert_ne by done. by apply Hr.
  - rewrite held_seqs_cons_resv. constructor; [|done]. intros Hx. by apply Hkeep in Hx.
  - intros x. rewrite held_seqs_cons_resv. intros [->|Hx]%elem_of_cons; [lia|]. apply Hf in Hx. lia.
  - intros x. destruct (decide (x = n)) as [->|Hd]; [by rewrite lookup_insert_eq|].
    rewrite lookup_insert_ne by done. apply Hi.
  - intros x. destruct (decide (x = n)) as [->|Hd]; [by left|].
    rewrite lookup_insert_ne by done. right. by apply Hres.
  - rewrite Hc. symmetry. apply active_leases_ext. intros x Hx.
    rewrite lookup_insert_ne; [done|]. apply not_eq_sym, Hkeep, elem_of_app. by left.
Qed.

(** A lease of queued entries. *)
Lemma tokens_add_lease charge m n k ls ars l m' :
  tokens_inv charge m n k ls ars -> NoDup (lease_seqs l) -> l_meta l <> [] ->
  length (l_payloads l) = length (l_meta l) ->
  (forall it, it ∈ l_meta l -> m !! lm_seq_id it = Some Queued /\ lm_seq_id it < n /\
     charge !! lm_seq_id it = Some (lm_byte_size it, lm_row_count it)) ->
  (forall x, x ∈ lease_seqs l -> m' !! x = Some InFlight) ->
  (forall x, x ∉ lease_seqs l -> m' !! x = m !! x) ->
  tokens_inv charge m' n (k + 1) (l :: ls) ars.
Proof.
  intros I Hnd Hne Hlen Hq Hin Hout.
  assert (Hkeep : forall x, x ∈ held_seqs ls ars -> x ∉ lease_seqs l).
  { intros x Hx Hl. apply list_elem_of_fmap in Hl as (it & -> & Hit).
    destruct (Hq it Hit) as [E _]. apply elem_of_app in Hx as [Hx|Hx].
    - apply list_elem_of_concat in Hx as (xs & Hx & Hxs). apply list_elem_of_fmap in Hxs as (l' & -> & Hl').
      apply list_elem_of_fmap in Hx as (it' & E' & Hit').
      pose proof (ti_leases _ _ _ _ _ _ I) as F. rewrite Forall_forall in F. destruct (F l' Hl') as [F' _].
      rewrite Forall_forall in F'. destruct (F' it' Hit') as [?|[? _]]; congruence.
    - apply list_elem_of_fmap in Hx as (a & E' & Ha).
      pose proof (ti_resvs _ _ _ _ _ _ I) as F. rewrite Forall_forall in F.
      destruct (F a Ha) as [?|[? _]]; congruence. }
  destruct I as [Hl Hr Hnd' Hf Hi Hres Hc]. split.
  - apply Forall_cons. split.
    + split; [|done]. rewrite Forall_forall. intros it Hit. right.
      rewrite Hin by by apply list_elem_of_fmap_2. by destruct (Hq it Hit) as (_ & _ & ?).
    + rewrite Forall_forall in *. intros l' Hl'. eapply lease_ok_ext; [|by apply Hl].
      intros x Hx. split; [|done]. apply Hout, Hkeep. by eapply held_seqs_lease.
  - rewrite Forall_forall in *. intros a' Ha. unfold resv_ok.
    rewrite Hout by by apply Hkeep, held_seqs_resv. by apply Hr.
  - rewrite held_seqs_cons_lease. apply NoDup_app. split_and!; [done | |done].
    intros x Hx Hx'. by apply (Hkeep x).
  - intros x. rewrite held_seqs_cons_lease. intros [Hx|Hx]%elem_of_app; [|by apply Hf].
    apply list_elem_of_fmap in Hx as (it & -> & Hit). by apply Hq.
  - intros x Hx. cbn. apply elem_of_app. destruct (decide (x ∈ lease_seqs l)) as [Hd|Hd]; [by left|].
    right. rewrite Hout in Hx by done. by apply Hi.
  - intros x Hx. destruct (decide (x ∈ lease_seqs l)) as [Hd|Hd]; [by rewrite Hin in Hx|].
    rewrite Hout in Hx by done. by apply Hres.
  - rewrite active_leases_cons. assert (any_inflight m' (l_meta l) = true) as E.
    { apply any_inflight_true. destruct (l_meta l) as [|it ms] eqn:El; [done|]. exists it.
      split; [by left|]. apply Hin. unfold lease_seqs. rewrite El. by left. }
    rewrite E, (active_leases_ext m m'); [lia|].
    intros x Hx. apply Hout, Hkeep, elem_of_app. by left.
Qed.

(** ** The invariant of one signal *)

(** [M] bounds the bytes of a single admitted batch: an empty ring admits one
    batch above the budget. *)
Definition signal_inv (M : N) (c : BufferConfig) (rs : SignalRingState RB Sch) ls ars : Prop :=
  exists charge,
    ring_inv charge (committed_seq rs) (ring rs) /\
    tokens_inv charge (slots (ring rs)) (next_seq (ring rs)) (inflight_leases (ring rs)) ls ars /\
    inflight_leases (ring rs) <= max_inflight_leases c /\
    held_bytes (ring rs) <= N.max (per_signal_budget c) M.

(** The fields of a ring the invariant reads. *)
Definition same_core (r r' : SignalRing RB Sch) : Prop :=
  queue r' = queue r /\ slots r' = slots r /\ inflight_enqueued_at r' = inflight_enqueued_at r /\
  next_seq r' = next_seq r /\ bytes_in_flight r' = bytes_in_flight r /\
  rows_in_flight r' = rows_in_flight r /\ inflight_leases r' = inflight_leases r /\
  evicted_unreclaimed_bytes r' = evicted_unreclaimed_bytes r /\
  unreclaimed_disk_bytes r' = unreclaimed_disk_bytes r.

Lemma same_core_refl r : same_core r r.
Proof. by repeat split. Qed.

Lemma ring_inv_core charge committed r r' :
  same_core r r' -> ring_inv charge committed r -> ring_inv charge committed r'.
Proof.
  intros (E1 & E2 & E3 & E4 & E5 & E6 & E7 & E8 & E9) []. split; rewrite ?E1, ?E2, ?E3, ?E4, ?E5, ?E6, ?E8, ?E9; done.
Qed.

Lemma ring_inv_leases charge committed (r : SignalRing RB Sch) n :
  ring_inv charge committed r -> ring_inv charge committed (r <| inflight_leases := n |>).
Proof. intros []. by split. Qed.

Lemma signal_inv_core M c rs rs' ls ars :
  same_core (ring rs) (ring rs') -> committed_seq rs' = committed_seq rs ->
  signal_inv M c rs ls ars -> signal_inv M c rs' ls ars.
Proof.
  intros Hc Hs (charge & I & T & Hl & Hb). exists charge. rewrite Hs.
  split; [by eapply ring_inv_core|]. destruct Hc as (E1 & E2 & E3 & E4 & E5 & E6 & E7 & E8 & E9).
  unfold held_bytes in *. by rewrite E2, E4, E5, E7, E9.
Qed.

Lemma held_seqs_perm ls ls' ars ars' : ls ≡ₚ ls' -> ars ≡ₚ ars' -> held_seqs ls ars ≡ₚ held_seqs ls' ars'.
Proof.
  intros Hl Ha. unfold held_seqs. f_equiv; [|by apply Permutation_map].
  induction Hl; cbn; [done | by f_equiv | by rewrite !app_assoc, (Permutation_app_comm (lease_seqs y)) | by etrans].
Qed.

Lemma tokens_inv_perm charge m n k ls ls' ars ars' :
  ls ≡ₚ ls' -> ars ≡ₚ ars' -> tokens_inv charge m n k ls ars -> tokens_inv charge m n k ls' ars'.
Proof.
  intros Hl Ha [H1 H2 H3 H4 H5 H6 H7]. pose proof (held_seqs_perm _ _ _ _ Hl Ha) as Hh. split.
  - by rewrite <- Hl.
  - by rewrite <- Ha.
  - by rewrite <- Hh.
  - intros x. rewrite <- Hh. apply H4.
  - intros x Hx. apply H5, list_elem_of_concat in Hx as (xs & Hx & Hxs). apply list_elem_of_concat.
    exists xs. split; [done|]. change (map lease_seqs ls') with (lease_seqs <$> ls'). by rewrite <- Hl.
  - intros x Hx. change (map ar_seq_id ars') with (ar_seq_id <$> ars'). rewrite <- Ha. by apply H6.
  - rewrite H7. unfold active_leases. by rewrite Hl.
Qed.

Lemma signal_inv_perm M c rs ls ls' ars ars' :
  ls ≡ₚ ls' -> ars ≡ₚ ars' -> signal_inv M c rs ls ars -> signal_inv M c rs ls' ars'.
Proof. intros Hl Ha (charge & I & T & Hx). exists charge. split_and!; try apply Hx; [done|]. by eapply tokens_inv_perm. Qed.

(** ** Eviction and admission *)

Lemma tokens_evict charge committed (r : SignalRing RB Sch) k ls ars ev q (r' : SignalRing RB Sch) :
  ring_inv charge committed r -> queue r = ev :: q ->
  tokens_inv charge (slots r) (next_seq r) k ls ars ->
  slots r' = delete (qb_seq_id ev) (slots r) -> next_seq r' = next_seq r ->
  tokens_inv (delete (qb_seq_id ev) charge) (slots r') (next_seq r') k ls ars.
Proof.
  intros I Hq T -> ->. destruct (ri_queue _ _ _ _ _ I ev) as [Hs _]; [rewrite Hq; by left|].
  eapply tokens_frame; [exact T | done | |intros x; rewrite lookup_delete_Some; tauto..].
  intros x Hx. assert (Hne : qb_seq_id ev <> x).
  { intros <-. destruct T as [Tl Tr _ _ _ _ _]. rewrite Forall_forall in Tl. rewrite Forall_forall in Tr.
    apply elem_of_app in Hx as [Hx|Hx].
    - apply list_elem_of_concat in Hx as (xs & Hx & Hxs). apply list_elem_of_fmap in Hxs as (l & -> & Hl).
      apply list_elem_of_fmap in Hx as (it & E & Hit). destruct (Tl l Hl) as [F _].
      rewrite Forall_forall in F. destruct (F it Hit) as [?|[? _]]; congruence.
    - apply list_elem_of_fmap in Hx as (a & E & Ha). destruct (Tr a Ha) as [?|[? _]]; congruence. }
  by rewrite !lookup_delete_ne.
Qed.

(** What the [DropOldest] loop may do to a ring. *)
Lemma evict_loop_inv fuel charge (r : SignalRing RB Sch) committed bytes budget rows k ls ars :
  ring_inv charge committed r -> tokens_inv charge (slots r) (next_seq r) k ls ars ->
  let '(r', c', _) := evict_loop fuel r committed bytes budget rows in
  exists charge', ring_inv charge' c' r' /\ tokens_inv charge' (slots r') (next_seq r') k ls ars /\
    committed <= c' /\ next_seq r' = next_seq r /\ inflight_leases r' = inflight_leases r /\
    held_bytes r' <= held_bytes r /\ rows_in_flight r' <= rows_in_flight r /\
    (forall x, slots r' !! x = slots r !! x \/ (slots r !! x = Some Queued /\ slots r' !! x = None)).
Proof.
  revert charge r committed rows. induction fuel as [|fuel IH]; intros charge r committed rows I T; cbn.
  { exists charge. split_and!; try done. by left. }
  destruct (can_admit r bytes budget); [exists charge; split_and!; try done; by left|].
  destruct (queue r) as [|ev q] eqn:Hq; [exists charge; split_and!; try done; by left|].
  destruct (front_is_pinned r ev); [exists charge; split_and!; try done; by left|].
  destruct (record_evicted_inv _ _ _ _ _ I Hq)
    as (r1 & c1 & E1 & I1 & Hc1 & Hs1 & Hq1 & Hn1 & Hb1 & Hge1 & Hl1 & Hh1).
  rewrite E1. pose proof (tokens_evict _ _ _ _ _ _ _ _ r1 I Hq T Hs1 Hn1) as T1.
  specialize (IH _ _ _ (rows +u64 qb_row_count ev) I1 T1).
  destruct (evict_loop fuel r1 c1 bytes budget _) as [[r' c'] rows'].
  destruct IH as (charge' & I' & T' & Hc' & Hn' & Hl' & Hh' & Hr' & Hs').
  exists charge'. split_and!; try done; try lia; try congruence.
  - pose proof (ri_rows _ _ _ _ _ I1) as R1. pose proof (ri_rows _ _ _ _ _ I) as R.
    destruct (ri_queue _ _ _ _ _ I ev) as [_ Hcv]; [rewrite Hq; by left|].
    rewrite (sum_map_delete snd _ _ _ Hcv) in R. lia.
  - intros x. destruct (Hs' x) as [E|[E1' E2']]; rewrite Hs1 in *.
    + destruct (decide (x = qb_seq_id ev)) as [->|Hd].
      * right. split; [|rewrite E; apply lookup_delete_eq].
        destruct (ri_queue _ _ _ _ _ I ev) as [? _]; [rewrite Hq; by left|done].
      * left. rewrite E. by apply lookup_delete_ne.
    + right. split; [|done]. by apply lookup_delete_Some in E1' as [_ ?].
Qed.

Lemma can_admit_spec charge committed (r : SignalRing RB Sch) bytes budget M :
  ring_inv charge committed r -> can_admit r bytes budget = true -> budget < u64_max ->
  bytes <= M -> M <= usize_max -> held_bytes r <= N.max budget M ->
  held_bytes r + bytes <= N.max budget M.
Proof.
  intros I Ha Hb HM HMu Hh. unfold can_admit, held_bytes in *.
  pose proof (ri_bytes_bound _ _ _ _ _ I). rewrite sat_add_exact in Ha by done.
  destruct (bool_decide (queue r = []) && _) eqn:E.
  - apply andb_true_iff in E as [_ E%N.eqb_eq]. lia.
  - apply N.leb_le in Ha. unfold sat_add in Ha. lia.
Qed.

Lemma enqueue_queue_last (item : QueuedBatch RB Sch) q :
  StronglySorted seq_lt q -> (forall x, x ∈ q -> qb_seq_id x < qb_seq_id item) ->
  enqueue_queue item q = q ++ [item].
Proof.
  intros Hs Hlt. rewrite enqueue_queue_ordered by done. apply ordered_insert_last.
  rewrite Forall_forall. intros x Hx. by apply Hlt.
Qed.

(** The ring after a batch is admitted into memory. *)
Definition admit_memory (r : SignalRing RB Sch) (item : QueuedBatch RB Sch) : SignalRing RB Sch :=
  r <| next_seq := next_seq r + 1 |> <| bytes_in_flight := bytes_in_flight r + qb_byte_size item |>
    <| rows_in_flight := rows_in_flight r + qb_row_count item |>
    <| slots := <[next_seq r := Queued]> (slots r) |> <| queue := queue r ++ [item] |>.

Lemma admit_memory_inv charge committed r (item : QueuedBatch RB Sch) :
  ring_inv charge committed r -> qb_seq_id item = next_seq r ->
  held_bytes r + qb_byte_size item <= usize_max -> rows_in_flight r + qb_row_count item <= usize_max ->
  ring_inv (<[next_seq r := (qb_byte_size item, qb_row_count item)]> charge) committed (admit_memory r item).
Proof.
  intros I Hid Hb Hr. unfold held_bytes in Hb.
  pose proof (reserve_inv _ _ _ (qb_byte_size item) (qb_row_count item) I ltac:(lia) Hr) as I1.
  eapply (commit_inv _ _ _ item (qb_byte_size item) (qb_row_count item)) in I1.
  - rewrite Hid in I1. rewrite insert_insert_eq in I1. eapply ring_inv_core; [|exact I1].
    unfold same_core, enqueue_ordered, admit_memory, reserve_seq. simpl. split_and!; try done.
    + symmetry. apply enqueue_queue_last; [apply (ri_sorted _ _ _ _ _ I)|]. intros x Hx.
      destruct (ri_queue _ _ _ _ _ I x Hx) as [Hs _]. rewrite Hid.
      apply (ri_bound _ _ _ _ _ I). eauto.
    + by rewrite insert_insert_eq.
    + lia.
  - simpl. rewrite Hid. apply lookup_insert_eq.
  - rewrite Hid. apply lookup_insert_eq.
  - done.
  - simpl. lia.
Qed.

Lemma tokens_fresh_frame charge m n k ls ars st bn :
  tokens_inv charge m n k ls ars -> st = Queued ->
  tokens_inv (<[n := bn]> charge) (<[n := st]> m) (n + 1) k ls ars.
Proof.
  intros T ->. eapply tokens_frame; [exact T | lia | | |].
  - intros x Hx. pose proof (ti_fresh _ _ _ _ _ _ T x Hx). by rewrite !lookup_insert_ne by lia.
  - intros x. destruct (decide (x = n)) as [->|?]; [by rewrite lookup_insert_eq | by rewrite lookup_insert_ne].
  - intros x. destruct (decide (x = n)) as [->|?]; [by rewrite lookup_insert_eq | by rewrite lookup_insert_ne].
Qed.

Lemma mark_admitted_core (rs : SignalRingState RB Sch) active t :
  let '(rs', _) := mark_admitted rs active t in ring rs' = ring rs /\ committed_seq rs' = committed_seq rs.
Proof. unfold mark_admitted. repeat case_match; simplify_eq/=; done. Qed.

Lemma mark_blocked_core (rs : SignalRingState RB Sch) active t :
  let '(rs', _) := mark_blocked rs active t in ring rs' = ring rs /\ committed_seq rs' = committed_seq rs.
Proof. unfold mark_blocked. repeat case_match; simplify_eq/=; done. Qed.

Lemma update_watermark_nonblocking_rings (b : BufferInner RB Sch) :
  rings (update_watermark_nonblocking b) = rings b /\
  bi_config (update_watermark_nonblocking b) = bi_config b.
Proof. unfold update_watermark_nonblocking. by destruct (_ && _). Qed.

Lemma sget_upd (b : BufferInner RB Sch) s (rs : SignalRingState RB Sch) s' :
  sget (rings (upd_ring_state b s rs)) s' = if decide (s = s') then rs else sget (rings b) s'.
Proof. apply sget_sset. Qed.

(** The two-way fate of an active slot in a send. *)
Definition evicted_or_kept (m m' : gmap N LeaseSlotState) : Prop :=
  forall x, is_Some (m !! x) -> m' !! x = m !! x \/ (m !! x = Some Queued /\ m' !! x = None).

(** What one pass of [reserve_or_enqueue_slot] does to its signal. *)
Lemma reserve_attempt_spec M (b : BufferInner RB Sch) signal bytes rows mem active now t ls ars :
  let c := bi_config b in
  let rs := sget (rings b) signal in
  signal_inv M c rs ls ars ->
  bytes <= M -> M <= usize_max -> per_signal_budget c < u64_max ->
  rows_in_flight (ring rs) + rows <= usize_max -> next_seq (ring rs) < u64_max ->
  let '(out, _, b') := reserve_attempt b signal bytes rows mem active now t in
  let rs' := sget (rings b') signal in
  bi_config b' = c /\ (forall s, s <> signal -> sget (rings b') s = sget (rings b) s) /\
  committed_seq rs <= committed_seq rs' /\ next_seq (ring rs) <= next_seq (ring rs') /\
  evicted_or_kept (slots (ring rs)) (slots (ring rs')) /\
  (overflow_policy c = Block -> forall x, is_Some (slots (ring rs) !! x) ->
     slots (ring rs') !! x = slots (ring rs) !! x) /\
  match out with
  | SendAdmitted (Some q) =>
      q = next_seq (ring rs) /\
      forall a, ar_seq_id a = q -> ar_frame_bytes_len a = bytes -> ar_batch_rows a = rows ->
        signal_inv M c rs' ls (a :: ars)
  | _ => signal_inv M c rs' ls ars
  end.
Proof.
  intros c rs (charge & I & T & Hlb & Hheld) HbM HMu Hbud Hrows Hnext.
  assert (HU : usize_max = u64_max) by done.
  assert (Hrefl : forall b' o, b' = b -> bi_config b' = c /\ (forall s, s <> signal -> sget (rings b') s = sget (rings b) s) /\
    committed_seq rs <= committed_seq (sget (rings b') signal) /\ next_seq (ring rs) <= next_seq (ring (sget (rings b') signal)) /\
    evicted_or_kept (slots (ring rs)) (slots (ring (sget (rings b') signal))) /\
    (overflow_policy c = Block -> forall x, is_Some (slots (ring rs) !! x) ->
     slots (ring (sget (rings b') signal)) !! x = slots (ring rs) !! x) /\
    match SendFailed o with SendAdmitted (Some q) => False | _ => signal_inv M c (sget (rings b') signal) ls ars end).
  { intros b' o ->. split_and!; try done; [intros x _; by left|]. exists charge. done. }
  unfold reserve_attempt. fold c. fold rs.
  destruct (fatal_error b); [by apply (Hrefl b (Storage s))|].
  destruct (ring_fatal_error (ring rs)); [by apply (Hrefl b (Storage s))|].
  destruct (receiver_dropped (ring rs) || closed (ring rs)); [by apply (Hrefl b DownstreamClosed)|].
  clear Hrefl.
  set (ev := match overflow_policy c with Block => _ | DropOldest => _ end).
  assert (Hev : let '(r', c', _) := ev in
    exists charge', ring_inv charge' c' r' /\
      tokens_inv charge' (slots r') (next_seq r') (inflight_leases r') ls ars /\
      committed_seq rs <= c' /\ next_seq r' = next_seq (ring rs) /\
      inflight_leases r' <= max_inflight_leases c /\ held_bytes r' <= N.max (per_signal_budget c) M /\
      rows_in_flight r' <= rows_in_flight (ring rs) /\
      (forall x, slots r' !! x = slots (ring rs) !! x \/ (slots (ring rs) !! x = Some Queued /\ slots r' !! x = None)) /\
      (overflow_policy c = Block -> slots r' = slots (ring rs))).
  { subst ev. destruct (overflow_policy c).
    - exists charge. split_and!; try done. by left.
    - pose proof (evict_loop_inv (length (queue (ring rs))) _ _ _ bytes (per_signal_budget c) 0 _ _ _ I T) as H1.
      destruct (evict_loop _ _ _ _ _ _) as [[r' c'] ro].
      destruct H1 as (charge' & I' & T' & Hc' & Hn' & Hl' & Hh' & Hr' & Hs').
      exists charge'. rewrite Hl'. split_and!; try done. lia. }
  clearbody ev. destruct ev as [[r cm] ev_rows].
  destruct Hev as (charge' & I' & T' & Hc' & Hn' & Hl' & Hh' & Hr' & Hs' & Hblk).
  set (b1 := if 0 <? ev_rows then _ else _).
  assert (Hb1 : bi_config b1 = c /\ forall s, sget (rings b1) s =
    if decide (signal = s) then rs <| ring := r |> <| committed_seq := cm |> else sget (rings b) s).
  { subst b1. destruct (0 <? ev_rows).
    - destruct (update_watermark_nonblocking_rings (upd_ring_state b signal (rs <| ring := r |> <| committed_seq := cm |>))) as [-> ->].
      split; [done|]. intros s. apply sget_upd.
    - split; [done|]. intros s. apply sget_upd. }
  destruct Hb1 as [Hcfg Hget]. clearbody b1.
  destruct (can_admit r bytes (per_signal_budget c)) eqn:Ha.
  - pose proof (can_admit_spec _ _ _ _ _ M I' Ha Hbud HbM HMu Hh') as Hfit.
    pose proof (ri_rows_bound _ _ _ _ _ I'). unfold held_bytes in Hfit.
    destruct mem as [rb|].
    + set (rs1 := _ <| ring := _ |>). pose proof (mark_admitted_core rs1 active t) as Hm.
      destruct (mark_admitted rs1 active t) as [rs2 act2]. destruct Hm as [Hm1 Hm2].
      rewrite !sget_upd, decide_True by done.
      split; [done|]. split; [intros s Hne; rewrite sget_upd, decide_False, Hget, decide_False by done; done|].
      assert (Hr1 : ring rs1 = admit_memory r (mkQueuedBatch (next_seq r) (InMemory rb) bytes rows now None 0 None)).
      { subst rs1. simpl. unfold admit_memory. simpl. by rewrite !sat_add_exact by (unfold usize_max in *; lia). }
      rewrite Hm1, Hm2, Hr1. simpl. split; [done|]. split; [lia|]. split; [|split].
      * intros x Hx. assert (x <> next_seq r).
        { intros ->. rewrite Hn' in Hx. pose proof (ri_bound _ _ _ _ _ I _ Hx). lia. }
        rewrite lookup_insert_ne by done. apply Hs'.
      * intros Hb x Hx. rewrite Hblk by done. apply lookup_insert_ne. rewrite Hn'. intros <-.
        pose proof (ri_bound _ _ _ _ _ I _ Hx). lia.
      * eexists. rewrite Hm1, Hm2, Hr1. split; [|split].
        -- apply admit_memory_inv; [done | done | unfold held_bytes; simpl; lia | simpl; lia].
        -- simpl. by apply tokens_fresh_frame.
        -- split; [done|]. unfold held_bytes. simpl. lia.
    + set (rs1 := _ <| ring := _ |>). pose proof (mark_admitted_core rs1 active t) as Hm.
      destruct (mark_admitted rs1 active t) as [rs2 act2]. destruct Hm as [Hm1 Hm2].
      rewrite !sget_upd, decide_True by done.
      split; [done|]. split; [intros s Hne; rewrite sget_upd, decide_False, Hget, decide_False by done; done|].
      assert (Hr1 : ring rs1 = reserve_seq r Reserved bytes rows).
      { subst rs1. simpl. unfold reserve_seq. by rewrite !sat_add_exact by (unfold usize_max in *; lia). }
      rewrite Hm1, Hm2, Hr1. simpl. split; [done|]. split; [lia|]. split; [|split].
      * intros x Hx. assert (x <> next_seq r).
        { intros ->. rewrite Hn' in Hx. pose proof (ri_bound _ _ _ _ _ I _ Hx). lia. }
        rewrite lookup_insert_ne by done. apply Hs'.
      * intros Hb x Hx. rewrite Hblk by done. apply lookup_insert_ne. rewrite Hn'. intros <-.
        pose proof (ri_bound _ _ _ _ _ I _ Hx). lia.
      * split; [done|]. intros a Ea1 Ea2 Ea3. eexists. rewrite Hm1, Hm2, Hr1. split; [|split].
        -- apply reserve_inv; [done | lia | lia].
        -- simpl. apply tokens_add_resv; [exact T' | done..].
        -- split; [done|]. unfold held_bytes. simpl. lia.
  - set (rs1 := rs <| ring := r |> <| committed_seq := cm |>). pose proof (mark_blocked_core rs1 active t) as Hm.
    destruct (mark_blocked rs1 active t) as [rs2 act2]. destruct Hm as [Hm1 Hm2].
    rewrite !sget_upd, decide_True by done.
    split; [done|]. split; [intros s Hne; rewrite sget_upd, decide_False, Hget, decide_False by done; done|].
    rewrite Hm1, Hm2. simpl. split; [done|]. split; [lia|]. split; [intros x _; apply Hs'|].
    split; [intros Hb x _; by rewrite Hblk|]. exists charge'. rewrite Hm1, Hm2. by split_and!.
Qed.

Lemma advance_spec charge committed (r : SignalRing RB Sch) :
  ring_inv charge committed r ->
  let '(r', c') := advance_watermark r committed in
  ring_inv charge c' r' /\ committed <= c' /\ slots r' = slots r /\ next_seq r' = next_seq r /\
  inflight_leases r' = inflight_leases r /\ held_bytes r' <= held_bytes r.
Proof.
  intros I. pose proof (advance_watermark_inv _ _ _ _ _ I) as I'.
  pose proof (advance_watermark_held _ _ _ _ _ I) as Hh.
  rewrite (advance_watermark_eq _ _ _ _ _ I) in *.
  destruct (watermark_candidate_spec _ _ _ _ _ I) as [[Hc _] _]. by split_and!.
Qed.

(** ** Resolving a reservation *)

Lemma finish_ok_spec M (b : BufferInner RB Sch) a w now ls ars :
  let rs := sget (rings b) (ar_signal a) in
  let b' := finish_reservation b a (Ok w) now in
  signal_inv M (bi_config b) rs ls (a :: ars) -> wf_len w <= ar_frame_bytes_len a ->
  signal_inv M (bi_config b) (sget (rings b') (ar_signal a)) ls ars /\ bi_config b' = bi_config b /\
  (forall s, s <> ar_signal a -> sget (rings b') s = sget (rings b) s) /\
  committed_seq (sget (rings b') (ar_signal a)) = committed_seq rs /\
  (forall x, x <> ar_seq_id a -> slots (ring (sget (rings b') (ar_signal a))) !! x = slots (ring rs) !! x) /\
  (is_Some (slots (ring rs) !! ar_seq_id a) ->
   slots (ring (sget (rings b') (ar_signal a))) !! ar_seq_id a = Some Queued).
Proof.
  intros rs b' (charge & I & T & Hl & Hh) Hlen. subst b'. unfold finish_reservation. fold rs.
  pose proof (ti_resvs _ _ _ _ _ _ T) as Ha. apply Forall_cons in Ha as [[Hn|[Hs Hc]] _].
  - rewrite Hn, bool_decide_eq_false_2 by done. split; [|split_and!; try done; by intros [? ?]].
    exists charge. split_and!; try done.
    eapply tokens_drop_resv; [exact T | done | done | |]; unfold rs in Hn; by rewrite Hn.
  - rewrite Hs, bool_decide_eq_true_2 by done. set (item := mkQueuedBatch _ _ _ _ _ _ _ _).
    rewrite !sget_upd, decide_True by done. simpl.
    pose proof (sum_map_lookup fst _ _ _ Hc) as Hge. simpl in Hge.
    pose proof (ri_bytes _ _ _ _ _ I) as Hby. pose proof (ri_bytes_bound _ _ _ _ _ I) as Hbb.
    pose proof (commit_inv _ _ _ item _ _ I Hs Hc eq_refl ltac:(simpl; lia)) as I'.
    split; [|split_and!; try done].
    + eexists. split; [|split; [|split; [exact Hl|]]].
      * eapply ring_inv_core; [|exact I']. split_and!; simpl; try done.
        rewrite sat_add_exact by (unfold sat_sub; lia). done.
      * simpl. eapply tokens_drop_resv; [exact T | done | | |].
        -- intros x Hx. subst item; simpl. by rewrite !lookup_insert_ne by done.
        -- by rewrite lookup_insert_eq.
        -- by rewrite lookup_insert_eq.
      * unfold held_bytes in *. simpl. rewrite sat_add_exact; unfold sat_sub; lia.
    + intros s Hne. by apply sget_sset_ne.
    + intros x Hx. by rewrite lookup_insert_ne.
    + intros _. by rewrite lookup_insert_eq.
Qed.

Lemma rollback_spec M (b : BufferInner RB Sch) a ls ars :
  let rs := sget (rings b) (ar_signal a) in
  let b' := rollback_slot b a in
  signal_inv M (bi_config b) rs ls (a :: ars) ->
  signal_inv M (bi_config b) (sget (rings b') (ar_signal a)) ls ars /\ bi_config b' = bi_config b /\
  (forall s, s <> ar_signal a -> sget (rings b') s = sget (rings b) s) /\
  committed_seq rs <= committed_seq (sget (rings b') (ar_signal a)) /\
  (forall x, x <> ar_seq_id a -> slots (ring (sget (rings b') (ar_signal a))) !! x = slots (ring rs) !! x).
Proof.
  intros rs b' (charge & I & T & Hl & Hh). subst b'. unfold rollback_slot. fold rs.
  pose proof (ti_resvs _ _ _ _ _ _ T) as Ha. apply Forall_cons in Ha as [[Hn|[Hs Hc]] _].
  - rewrite Hn. split_and!; try done. exists charge. split_and!; try done.
    eapply tokens_drop_resv; [exact T | done | done | |]; unfold rs in Hn; by rewrite Hn.
  - rewrite Hs. pose proof (rollback_inv _ _ _ _ _ _ I Hs Hc) as I1. cbv zeta in I1.
    set (r1 := _ <| rows_in_flight := _ |>) in I1.
    change (_ <| rows_in_flight := _ |>) with r1.
    pose proof (advance_spec _ _ _ I1) as Hadv.
    destruct (advance_watermark r1 (committed_seq rs)) as [r' c'].
    destruct Hadv as (I' & Hc' & Hs' & Hn' & Hl' & Hh').
    destruct (update_watermark_nonblocking_rings (upd_ring_state b (ar_signal a) (rs <| ring := r' |> <| committed_seq := c' |>))) as [-> ->].
    rewrite !sget_upd, decide_True by done. simpl. split; [|split_and!; try done].
    + eexists. simpl. split; [exact I'|]. split; [|split].
      * rewrite Hs', Hn', Hl'. subst r1. simpl. eapply tokens_drop_resv; [exact T | done | | |].
        -- intros x Hx. by rewrite !lookup_delete_ne by done.
        -- by rewrite lookup_delete_eq.
        -- by rewrite lookup_delete_eq.
      * by rewrite Hl'.
      * etrans; [exact Hh'|]. etrans; [|exact Hh]. subst r1. unfold held_bytes, sat_sub. simpl. lia.
    + intros s Hne. by apply sget_sset_ne.
    + intros x Hx. rewrite Hs'. subst r1. simpl. by rewrite lookup_delete_ne.
Qed.

Lemma record_storage_failure_core (b : BufferInner RB Sch) s reason s' :
  same_core (ring (sget (rings b) s')) (ring (sget (rings (record_storage_failure b s reason)) s')) /\
  committed_seq (sget (rings (record_storage_failure b s reason)) s') = committed_seq (sget (rings b) s') /\
  bi_config (record_storage_failure b s reason) = bi_config b.
Proof.
  unfold record_storage_failure. rewrite sget_upd. simpl. case_decide as Hd; [subst s'|]; by repeat split.
Qed.

(** ** Leasing *)

Lemma pop_batches_spec n charge committed (r : SignalRing RB Sch) popped :
  ring_inv charge committed r ->
  let '(r', ps) := pop_batches n r popped in
  ps = popped ++ take n (queue r) /\ queue r' = drop n (queue r) /\ ring_inv charge committed r' /\
  next_seq r' = next_seq r /\ inflight_leases r' = inflight_leases r /\ held_bytes r' = held_bytes r /\
  (forall x, x ∈ queue_seqs (take n (queue r)) -> slots r' !! x = Some InFlight) /\
  (forall x, x ∉ queue_seqs (take n (queue r)) -> slots r' !! x = slots r !! x).
Proof.
  revert r popped. induction n as [|n IH]; intros r popped I; cbn [pop_batches].
  { split_and!; try done; [by rewrite app_nil_r|]. intros x Hx. by apply not_elem_of_nil in Hx. }
  destruct (queue r) as [|q rest] eqn:Hq.
  { split_and!; try done; [by rewrite app_nil_r|]. intros x Hx. by apply not_elem_of_nil in Hx. }
  cbn zeta. pose proof (lease_head_inv _ _ _ _ _ I Hq) as I1.
  change (_ <| inflight_enqueued_at := _ |>) with (lease_head r q rest).
  specialize (IH (lease_head r q rest) (popped ++ [q]) I1).
  destruct (pop_batches n (lease_head r q rest) (popped ++ [q])) as [r' ps].
  change (queue (lease_head r q rest)) with rest in IH.
  destruct IH as (Hps & Hq' & I' & Hn & Hl & Hh & Hin & Hout). split_and!; try done.
  - rewrite Hps. cbn [take]. by rewrite <- app_assoc.
  - intros x Hx. destruct (decide (x ∈ queue_seqs (take n rest))) as [Hd|Hd]; [by apply Hin|].
    rewrite Hout by done. cbn in Hx. apply elem_of_cons in Hx as [->|Hx]; [|done].
    simpl. apply lookup_insert_eq.
  - intros x [Hx1 Hx2]%not_elem_of_cons. rewrite Hout by done. simpl. by rewrite lookup_insert_ne.
Qed.

Lemma coalesce_count_bounds c (r : SignalRing RB Sch) now att sch rest last_seq bytes rows count n by' ro bd :
  coalesce_scan c r now att sch rest last_seq bytes rows count = (n, by', ro, bd) ->
  (count <= n <= count + length rest)%nat.
Proof.
  revert last_seq bytes rows count. induction rest as [|q rest IH]; cbn; intros last_seq bytes rows count E.
  { simplify_eq. lia. }
  repeat case_match; simplify_eq; try lia; apply IH in E; lia.
Qed.

Lemma lease_seqs_of (b : BufferInner RB Sch) signal (popped : list (QueuedBatch RB Sch)) now :
  lease_seqs (lease_of b signal popped now) = queue_seqs popped.
Proof. unfold lease_seqs, lease_of, queue_seqs. simpl. by rewrite map_map. Qed.

Lemma queue_seqs_NoDup charge committed (r : SignalRing RB Sch) :
  ring_inv charge committed r -> NoDup (queue_seqs (queue r)).
Proof.
  intros I. pose proof (ri_sorted _ _ _ _ _ I) as Hs. clear I.
  induction Hs as [|q l Hl IH Hall]; [constructor|]. cbn. constructor; [|done].
  intros Hin. apply list_elem_of_fmap in Hin as (x & E & Hx). rewrite Forall_forall in Hall.
  specialize (Hall x Hx). unfold seq_lt in Hall. lia.
Qed.

Definition config_ok (c : BufferConfig) : Prop :=
  per_signal_budget c < u64_max /\ max_inflight_leases c <= usize_max.

(** The leased prefix of the queue, when [try_pop_signal_lease] yields a lease. *)
Lemma try_pop_spec M (b : BufferInner RB Sch) signal now ls ars :
  let c := bi_config b in
  let rs := sget (rings b) signal in
  signal_inv M c rs ls ars -> config_ok c ->
  let '(res, _, _, b') := try_pop_signal_lease b signal now in
  let rs' := sget (rings b') signal in
  bi_config b' = c /\ (forall s, s <> signal -> sget (rings b') s = sget (rings b) s) /\
  match res with
  | None => b' = b
  | Some l =>
      exists n, (0 < n)%nat /\ l = lease_of b signal (take n (queue (ring rs))) now /\
      signal_inv M c rs' (l :: ls) ars /\ committed_seq rs' = committed_seq rs /\
      queue (ring rs') = drop n (queue (ring rs)) /\ next_seq (ring rs') = next_seq (ring rs) /\
      (forall x, x ∈ lease_seqs l -> slots (ring rs) !! x = Some Queued /\ slots (ring rs') !! x = Some InFlight) /\
      (forall x, x ∉ lease_seqs l -> slots (ring rs') !! x = slots (ring rs) !! x)
  end.
Proof.
  intros c rs (charge & I & T & Hl & Hh) [_ Hmax]. unfold try_pop_signal_lease. fold c. fold rs.
  destruct (N.leb_spec (max_inflight_leases c) (inflight_leases (ring rs))) as [|Hlt]; [done|].
  destruct (queue (ring rs)) as [|front rest] eqn:Hq; [done|].
  destruct (has_earlier_reserved _ _); [done|]. destruct (match qb_ready_at front with Some _ => _ | None => _ end); [done|].
  destruct (coalesce_scan _ _ _ _ _ _ _ _ _ _) as [[[n by'] ro] bd] eqn:Ec.
  apply coalesce_count_bounds in Ec.
  match goal with |- context [if ?g then _ else _] => destruct g; [done|] end.
  pose proof (pop_batches_spec n _ _ _ [] I) as Hp. rewrite Hq in Hp.
  destruct (pop_batches n (ring rs) []) as [r' ps].
  destruct Hp as (-> & Hq' & I' & Hn & Hil & Hhb & Hin & Hout). cbn [app] in *.
  set (ps := take n (front :: rest)) in *.
  rewrite !sget_upd, decide_True by done. split; [done|].
  split; [intros s Hne; by apply sget_sset_ne|].
  assert (Hsub : forall q, q ∈ ps -> q ∈ queue (ring rs)).
  { intros q Hx. rewrite Hq. eapply elem_of_submseteq; [exact Hx|].
    apply sublist_submseteq, sublist_take. }
  exists n. split; [lia|]. split; [done|]. rewrite lease_seqs_of. split; [|split_and!; try done].
  - exists charge. split; [|split; [|split]].
    + eapply ring_inv_core; [|exact (ring_inv_leases _ _ _ (inflight_leases r' +us 1) I')]. by split_and!.
    + simpl. rewrite Hil, Hn, sat_add_exact by lia. eapply tokens_add_lease; [exact T | | | | | |].
      * rewrite lease_seqs_of. pose proof (queue_seqs_NoDup _ _ _ I) as Hnd. rewrite Hq in Hnd.
        eapply sublist_NoDup; [exact Hnd|]. subst ps.
        unfold queue_seqs. rewrite <- firstn_map. apply sublist_take.
      * subst ps. destruct n; [lia|]. done.
      * unfold lease_of. simpl. by rewrite !length_map.
      * simpl. intros it Hit. apply list_elem_of_fmap in Hit as (q & -> & Hx). simpl.
        destruct (ri_queue _ _ _ _ _ I q (Hsub q Hx)) as [Hs Hc]. split_and!; try done.
        apply (ri_bound _ _ _ _ _ I). eauto.
      * intros x. rewrite lease_seqs_of. apply Hin.
      * intros x. rewrite lease_seqs_of. apply Hout.
    + simpl. rewrite Hil, sat_add_exact; lia.
    + unfold held_bytes in *. simpl. by rewrite Hhb.
  - intros x Hx. split; [|by apply Hin]. apply list_elem_of_fmap in Hx as (q & -> & Hx).
    by destruct (ri_queue _ _ _ _ _ I q (Hsub q Hx)).
Qed.

(** ** Resolving a lease *)

Lemma foldl_delete_lookup (meta : list LeasedBatchMeta) m x :
  foldl (fun m item => delete (lm_seq_id item) m) m meta !! x =
    if decide (x ∈ map lm_seq_id meta) then None else m !! x.
Proof.
  revert m. induction meta as [|it meta IH]; intros m; cbn [foldl map].
  { by rewrite decide_False by apply not_elem_of_nil. }
  rewrite IH. destruct (decide (x ∈ map lm_seq_id meta)) as [Hd|Hd].
  - by rewrite decide_True by (by right).
  - destruct (decide (x = lm_seq_id it)) as [->|Hne].
    + rewrite lookup_delete_eq, decide_True by by left. done.
    + rewrite lookup_delete_ne by done. rewrite decide_False; [done|].
      by intros [?|?]%elem_of_cons.
Qed.

Lemma drop_charges_lookup (meta : list LeasedBatchMeta) charge x :
  drop_charges meta charge !! x = if decide (x ∈ map lm_seq_id meta) then None else charge !! x.
Proof.
  unfold drop_charges. revert charge. induction meta as [|it meta IH]; intros charge; cbn [foldl map].
  { by rewrite decide_False by apply not_elem_of_nil. }
  rewrite IH. destruct (decide (x ∈ map lm_seq_id meta)) as [Hd|Hd].
  - by rewrite decide_True by (by right).
  - destruct (decide (x = lm_seq_id it)) as [->|Hne].
    + rewrite lookup_delete_eq, decide_True by by left. done.
    + rewrite lookup_delete_ne by done. rewrite decide_False; [done|].
      by intros [?|?]%elem_of_cons.
Qed.

Lemma ack_lease_spec M (b : BufferInner RB Sch) l reset reply ls ars :
  let c := bi_config b in
  let rs := sget (rings b) (l_signal l) in
  signal_inv M c rs (l :: ls) ars ->
  let '(_, b') := ack_lease b (l_signal l) (l_meta l) reset reply in
  let rs' := sget (rings b') (l_signal l) in
  signal_inv M c rs' ls ars /\ bi_config b' = c /\
  (forall s, s <> l_signal l -> sget (rings b') s = sget (rings b) s) /\
  committed_seq rs <= committed_seq rs' /\
  (forall x, slots (ring rs') !! x = if decide (x ∈ lease_seqs l) then None else slots (ring rs) !! x).
Proof.
  intros c rs (charge & I & T & Hl & Hh). unfold ack_lease. fold rs.
  set (rs0 := if reset then _ else _).
  assert (Hrs0 : ring rs0 = ring rs /\ committed_seq rs0 = committed_seq rs) by (subst rs0; by destruct reset).
  destruct Hrs0 as [-> ->]. clearbody rs0.
  pose proof (ti_leases _ _ _ _ _ _ T) as Hlk. apply Forall_cons in Hlk as [[Hmeta _] _].
  destruct (ack_entries_inv _ _ _ _ I Hmeta)
    as (r' & c' & n & -> & I' & Hc' & _ & Hs' & Hn' & _ & _ & Hh' & Hl').
  set (b1 := upd_ring_state b _ _).
  assert (Hslots : forall x, slots r' !! x = if decide (x ∈ lease_seqs l) then None else slots (ring rs) !! x).
  { intros x. rewrite Hs'. apply foldl_delete_lookup. }
  assert (Hinv : signal_inv M c (rs0 <| ring := r' |> <| committed_seq := c' |>) ls ars).
  { eexists. split; [exact I'|]. split; [|split].
    - simpl. rewrite Hl', Hn'. eapply tokens_drop_lease; [exact T | done | |].
      + intros x Hx. rewrite Hslots, drop_charges_lookup, !decide_False by done. done.
      + intros x Hx. rewrite Hslots, decide_True by done. done.
    - simpl. rewrite Hl'. lia.
    - simpl. lia. }
  assert (H1 : signal_inv M c (sget (rings b1) (l_signal l)) ls ars /\ bi_config b1 = c /\
    (forall s, s <> l_signal l -> sget (rings b1) s = sget (rings b) s) /\
    committed_seq (sget (rings b1) (l_signal l)) = c' /\ slots (ring (sget (rings b1) (l_signal l))) = slots r').
  { subst b1. rewrite sget_upd, decide_True by done. split_and!; try done. intros s Hne. by apply sget_sset_ne. }
  clearbody b1. destruct H1 as (Hi1 & Hcf & Ho & Hcm & Hsl).
  assert (Hres : forall b', rings b' = rings b1 -> bi_config b' = bi_config b1 ->
    signal_inv M c (sget (rings b') (l_signal l)) ls ars /\ bi_config b' = c /\
    (forall s, s <> l_signal l -> sget (rings b') s = sget (rings b) s) /\
    committed_seq rs <= committed_seq (sget (rings b') (l_signal l)) /\
    (forall x, slots (ring (sget (rings b') (l_signal l))) !! x =
       if decide (x ∈ lease_seqs l) then None else slots (ring rs) !! x)).
  { intros b' -> ->. rewrite Hcm, Hsl. by split_and!. }
  destruct (has_disk b1); [|by apply Hres].
  assert (Hfail : forall b2, rings b2 = rings b1 -> bi_config b2 = bi_config b1 ->
    let b' := record_storage_failure b2 (l_signal l) "watermark update failed" in
    signal_inv M c (sget (rings b') (l_signal l)) ls ars /\ bi_config b' = c /\
    (forall s, s <> l_signal l -> sget (rings b') s = sget (rings b) s) /\
    committed_seq rs <= committed_seq (sget (rings b') (l_signal l)) /\
    (forall x, slots (ring (sget (rings b') (l_signal l))) !! x =
       if decide (x ∈ lease_seqs l) then None else slots (ring rs) !! x)).
  { intros b2 Er Ec b'. destruct (Hres b2 Er Ec) as (R1 & R2 & R3 & R4 & R5).
    destruct (record_storage_failure_core b2 (l_signal l) "watermark update failed" (l_signal l)) as (K1 & K2 & K3).
    fold b' in K1, K2, K3. split_and!.
    - by eapply signal_inv_core.
    - congruence.
    - intros s Hne. rewrite <- R3 by done. subst b'. unfold record_storage_failure. by apply sget_sset_ne.
    - by rewrite K2.
    - intros x. destruct K1 as (_ & -> & _). apply R5. }
  destruct (writer_open b1); [destruct reply|]; cbv beta iota zeta;
    first [by apply Hres | by apply (Hfail _ eq_refl eq_refl) | by apply Hfail].
Qed.

(** Entries that name the same charge. *)
Definition entry_key (m : LeasedBatchMeta) : N * N * N := (lm_seq_id m, lm_byte_size m, lm_row_count m).

Lemma same_keys_spec (meta meta' : list LeasedBatchMeta) :
  map entry_key meta' = map entry_key meta ->
  length meta' = length meta /\ map lm_seq_id meta' = map lm_seq_id meta /\
  (forall m, any_inflight m meta' = any_inflight m meta) /\
  (forall charge m, Forall (lease_entry_ok charge m) meta -> Forall (lease_entry_ok charge m) meta').
Proof.
  revert meta. induction meta' as [|x meta' IH]; intros [|y meta] E; try done.
  cbn in E. injection E as E1 E2 E3 E. destruct (IH _ E) as (H1 & H2 & H3 & H4). split_and!.
  - cbn. by rewrite H1.
  - cbn. by rewrite E1, H2.
  - intros m. specialize (H3 m). unfold any_inflight in *. cbn [existsb]. by rewrite E1, H3.
  - intros charge m [Hy Hm]%Forall_cons. apply Forall_cons. split; [|by apply H4].
    unfold lease_entry_ok in *. by rewrite E1, E2, E3.
Qed.

Lemma mark_failed_keys now (meta : list LeasedBatchMeta) :
  map entry_key (map (mark_failed_at now) meta) = map entry_key meta.
Proof. rewrite map_map. by apply map_ext. Qed.

Lemma requeue_spec M c (rs rs' : SignalRingState RB Sch) l ls ars meta att ra :
  signal_inv M c rs (l :: ls) ars -> map entry_key meta = map entry_key (l_meta l) ->
  same_core (requeue_at_head (ring rs) (l_payloads l) meta att ra) (ring rs') ->
  committed_seq rs' = committed_seq rs ->
  signal_inv M c rs' ls ars /\
  (forall x, x ∉ lease_seqs l -> slots (ring rs') !! x = slots (ring rs) !! x) /\
  (forall x, is_Some (slots (ring rs) !! x) -> is_Some (slots (ring rs') !! x)).
Proof.
  intros (charge & I & T & Hl & Hh) Hk Hcore Hcm.
  destruct (same_keys_spec _ _ Hk) as (Hlen & Hseq & Hany & Hall).
  pose proof (ti_leases _ _ _ _ _ _ T) as Hlk. apply Forall_cons in Hlk as [[Hmeta Hpl] _].
  apply Hall in Hmeta.
  assert (Hsnd : map snd (zip (l_payloads l) meta) = meta).
  { apply snd_zip. lia. }
  assert (Hok : Forall (requeue_ok charge (ring rs)) (zip (l_payloads l) meta)).
  { rewrite Forall_forall. intros it Hit Hs.
    assert (Hin : it.2 ∈ meta) by (rewrite <- Hsnd; by apply list_elem_of_fmap_2).
    rewrite Forall_forall in Hmeta. destruct (Hmeta _ Hin) as [?|[_ ?]]; congruence. }
  destruct (requeue_at_head_inv _ _ _ _ _ att ra I Hok) as (I' & Hb & Hn & Hh' & Hil & Hs & Hout & Hin).
  rewrite Hsnd in *. rewrite Hseq in Hout, Hin. fold (lease_seqs l) in Hout, Hin. rewrite Hany in Hil.
  set (r' := requeue_at_head _ _ _ _ _) in *. clearbody r'.
  destruct Hcore as (E1 & E2 & E3 & E4 & E5 & E6 & E7 & E8 & E9).
  split; [|split].
  - exists charge. split; [|split; [|split]].
    + rewrite Hcm. eapply ring_inv_core; [|exact I']. by split_and!.
    + rewrite E2, E4, E7, Hil, Hn. eapply tokens_drop_lease; [exact T | done | |].
      * intros x Hx. by rewrite Hout.
      * intros x Hx. split; [by apply Hin|]. intros Hr.
        destruct (Hs x) as [E|E]; [|congruence]. rewrite E in Hr.
        apply list_elem_of_fmap in Hx as (it & -> & Hit).
        pose proof (ti_leases _ _ _ _ _ _ T) as Hlk. apply Forall_cons in Hlk as [[Hm _] _].
        rewrite Forall_forall in Hm. destruct (Hm it Hit) as [?|[? _]]; congruence.
    + rewrite E7, Hil. lia.
    + unfold held_bytes in *. rewrite E5, E9. lia.
  - intros x Hx. rewrite E2. by apply Hout.
  - intros x Hx. rewrite E2. destruct (Hs x) as [->| ->]; [done | by eexists].
Qed.

(** ** Discarding at the drain timeout *)

Lemma discard_ring_spec M c (rs : SignalRingState RB Sch) ls ars :
  signal_inv M c rs ls ars ->
  let rs' := (discard_ring rs).1 in
  signal_inv M c rs' ls ars /\ committed_seq rs <= committed_seq rs' /\ slots (ring rs') = ∅.
Proof.
  intros (charge & I & T & Hl & Hh). unfold discard_ring.
  pose proof (discard_inv _ _ _ I) as Hd.
  destruct (advance_watermark _ (committed_seq rs)) as [r' c'].
  destruct Hd as (I' & Hc' & Hs' & _ & Hn' & Hl' & Hh').
  pose proof (ri_committed _ _ _ _ _ I) as Hcm.
  assert (Hinv : forall rs', ring rs' = r' -> committed_seq rs' = c' ->
    signal_inv M c rs' ls ars /\ committed_seq rs <= committed_seq rs' /\ slots (ring rs') = ∅).
  { intros rs' E1 E2. unfold signal_inv. rewrite E1, E2. split_and!; [|lia|done].
    exists ∅. split; [done|]. rewrite Hs', Hn', Hl', Hh'.
    split; [|split; lia]. destruct T as [Tl Tr Tn Tf Ti Tre Tc]. split; try done.
    - rewrite Forall_forall in *. intros l Hin. destruct (Tl l Hin) as [F Hlen]. split; [|done].
      rewrite Forall_forall. intros it Hit. left. apply lookup_empty.
    - rewrite Forall_forall. intros a Ha. left. apply lookup_empty.
    - unfold active_leases. clear. induction ls as [|l ls IH]; [done|]. cbn [sum_N foldr].
      assert (any_inflight ∅ (l_meta l) = false) as ->; [|exact IH].
      apply not_true_iff_false. rewrite any_inflight_true. intros (it & _ & E). by rewrite lookup_empty in E. }
  case_match; apply Hinv; done.
Qed.

Lemma discard_remaining_rings_spec (b : BufferInner RB Sch) :
  let b' := (discard_remaining_rings b).1 in
  bi_config b' = bi_config b /\ (forall s, sget (rings b') s = (discard_ring (sget (rings b) s)).1).
Proof.
  destruct b as [id cf [r1 r2 r3] hd wo wq fe]. unfold discard_remaining_rings, all_signals. cbn -[discard_ring].
  destruct (discard_ring r1) as [r1' n1] eqn:E1. cbn -[discard_ring].
  destruct (discard_ring r2) as [r2' n2] eqn:E2. cbn -[discard_ring].
  destruct (discard_ring r3) as [r3' n3] eqn:E3. cbn -[discard_ring].
  split; [done|]. intros []; simpl; by rewrite ?E1, ?E2, ?E3.
Qed.
End Tokens.

(** ** The system *)

Section System.
Context {RB Sch Row : Type} `{Arrow RB Sch Row}.

(** What a step did, as far as active sequence numbers are concerned. *)
Inductive Event : Type :=
| ESend (signal : SignalType)
| EReservationFailed (a : AppendReservation Sch)
| EAcked (l : Lease RB Sch)
| ENacked (l : Lease RB Sch) (class : FailureClass) (write_res : result unit PipelineError)
| EFinalized
| ENeutral.

Abbreviation sys := (Sys RB Sch).

Definition ring_of (y : sys) (s : SignalType) : SignalRing RB Sch := ring (sget (rings (buf y)) s).
Definition committed_of (y : sys) (s : SignalType) : N := committed_seq (sget (rings (buf y)) s).

(** [step M y e y']: batches and frames are at most [M] bytes, and the premises
    of [step_send] keep the row count and the sequence numbers in range. *)
Inductive step (M : N) : sys -> Event -> sys -> Prop :=
| step_send b ls ars signal bytes rows mem active now t out active' b' frame_rows schema :
    reserve_attempt b signal bytes rows mem active now t = (out, active', b') ->
    bytes <= M -> rows_in_flight (ring (sget (rings b) signal)) + rows <= usize_max ->
    next_seq (ring (sget (rings b) signal)) < u64_max ->
    step M (mkSys b ls ars) (ESend signal)
      (mkSys b' ls (match out with
                    | SendAdmitted (Some q) => mkAppendReservation signal q bytes rows frame_rows schema :: ars
                    | _ => ars
                    end))
| step_submitted b ls ars a frame reply b' :
    a ∈ ars -> submit_frame b a frame reply = (Ok tt, b') ->
    step M (mkSys b ls ars) ENeutral (mkSys b' ls ars)
| step_submit_failed b ls ars a ars' frame reply e b' :
    ars ≡ₚ a :: ars' -> submit_frame b a frame reply = (Err e, b') ->
    step M (mkSys b ls ars) (EReservationFailed a) (mkSys b' ls ars')
| step_frame_written b ls ars a ars' w now :
    ars ≡ₚ a :: ars' -> wf_len w <= ar_frame_bytes_len a ->
    step M (mkSys b ls ars) ENeutral (mkSys (finish_reservation b a (Ok w) now) ls ars')
| step_frame_failed b ls ars a ars' err now :
    ars ≡ₚ a :: ars' ->
    step M (mkSys b ls ars) (EReservationFailed a) (mkSys (finish_reservation b a (Err err) now) ls ars')
| step_reservation_dropped b ls ars a ars' :
    ars ≡ₚ a :: ars' ->
    step M (mkSys b ls ars) (EReservationFailed a) (mkSys (rollback_slot b a) ls ars')
| step_leased b ls ars scope cursor cursor' now l b' :
    next_lease_pass b scope cursor now = (LeaseReady l, cursor', b') ->
    step M (mkSys b ls ars) ENeutral (mkSys b' (l :: ls) ars)
| step_acked b ls ars l ls' reply res b' :
    ls ≡ₚ l :: ls' -> lease_ack b l reply = (res, b') ->
    step M (mkSys b ls ars) (EAcked l) (mkSys b' ls' ars)
| step_nacked b ls ars l ls' class now t write_res reply res b' :
    ls ≡ₚ l :: ls' -> lease_nack b l class now t write_res reply = (res, b') ->
    step M (mkSys b ls ars) (ENacked l class write_res) (mkSys b' ls' ars)
| step_lease_dropped b ls ars l ls' now t :
    ls ≡ₚ l :: ls' ->
    step M (mkSys b ls ars) ENeutral (mkSys (lease_drop b l now t) ls' ars)
| step_quarantined b ls ars l ls' batches write_res res l' b' :
    ls ≡ₚ l :: ls' -> lease_quarantine b l batches write_res = (res, l', b') ->
    step M (mkSys b ls ars) ENeutral (mkSys b' (l' :: ls') ars)
| step_finalized b ls ars reply res b' :
    finalize_shutdown_timeout b reply = (res, b') ->
    step M (mkSys b ls ars) EFinalized (mkSys b' ls ars)
| step_finalized_async b ls ars sync_reply shutdown_reply res b' :
    finalize_shutdown_timeout_async b sync_reply shutdown_reply = (res, b') ->
    step M (mkSys b ls ars) EFinalized (mkSys b' ls ars)
| step_sender_cloned b ls ars scope :
    step M (mkSys b ls ars) ENeutral (mkSys (increment_senders b scope) ls ars)
| step_sender_dropped b ls ars scope :
    step M (mkSys b ls ars) ENeutral (mkSys (decrement_senders b scope) ls ars)
| step_receiver_dropped b ls ars scope :
    step M (mkSys b ls ars) ENeutral (mkSys (drop_receiver b scope) ls ars)
| step_guard_dropped b ls ars s active :
    step M (mkSys b ls ars) ENeutral
      (mkSys (upd_ring_state b s (drop_guard (sget (rings b) s) active)) ls ars)
| step_storage_failure b ls ars s reason :
    step M (mkSys b ls ars) ENeutral (mkSys (record_storage_failure b s reason) ls ars)
| step_flushed b ls ars reply res b' :
    sink_flush_and_sync_watermark b reply = (res, b') ->
    step M (mkSys b ls ars) ENeutral (mkSys b' ls ars).

(** A new buffer, or one rebuilt by recovery: every active batch is queued. *)
Definition initial (M : N) (c : BufferConfig) (y : sys) : Prop :=
  leases y = [] /\ resvs y = [] /\ bi_config (buf y) = c /\
  forall s, (exists charge, ring_inv charge (committed_of y s) (ring_of y s)) /\
    (forall x st, slots (ring_of y s) !! x = Some st -> st = Queued) /\
    inflight_leases (ring_of y s) = 0 /\ held_bytes (ring_of y s) <= N.max (per_signal_budget c) M.

Inductive reachable (M : N) (c : BufferConfig) : sys -> Prop :=
| reach_initial y : initial M c y -> reachable M c y
| reach_step y e y' : reachable M c y -> step M y e y' -> reachable M c y'.

Definition leases_of (s : SignalType) (ls : list (Lease RB Sch)) : list (Lease RB Sch) :=
  filter (fun l => l_signal l = s) ls.
Definition resvs_of (s : SignalType) (ars : list (AppendReservation Sch)) : list (AppendReservation Sch) :=
  filter (fun a => ar_signal a = s) ars.

Definition sys_inv (M : N) (c : BufferConfig) (y : sys) : Prop :=
  bi_config (buf y) = c /\
  forall s, signal_inv M c (sget (rings (buf y)) s) (leases_of s (leases y)) (resvs_of s (resvs y)).

(** Why an active sequence number may stop being active. *)
Definition resolution (c : BufferConfig) (y : sys) (e : Event) (s : SignalType) (x : N) : Prop :=
  match e with
  | EAcked l => l_signal l = s /\ x ∈ lease_seqs l
  | ENacked l class write_res =>
      l_signal l = s /\ x ∈ lease_seqs l /\ max_attempts c <= l_attempt l +u32 1 /\
      (exists reason, class = Rejected reason) /\ write_res = Ok tt
  | ESend signal => signal = s /\ overflow_policy c = DropOldest /\ slots (ring_of y s) !! x = Some Queued
  | EReservationFailed a => ar_signal a = s /\ ar_seq_id a = x
  | EFinalized => effective_drain_policy c = Discard
  | ENeutral => False
  end.

(** What a step guarantees beyond the invariant. *)
Definition step_ok (c : BufferConfig) (y : sys) (e : Event) (y' : sys) : Prop :=
  forall s, committed_of y s <= committed_of y' s /\
    forall x, is_Some (slots (ring_of y s) !! x) ->
      is_Some (slots (ring_of y' s) !! x) \/ resolution c y e s x.

Lemma sys_signal_inv M c b ls ars s :
  sys_inv M c (mkSys b ls ars) -> signal_inv M c (sget (rings b) s) (leases_of s ls) (resvs_of s ars).
Proof. intros [_ I]. exact (I s). Qed.

Lemma initial_inv M c y : initial M c y -> sys_inv M c y.
Proof.
  intros (Hl & Ha & Hc & Hs). split; [done|]. intros s. destruct (Hs s) as ((charge & I) & Hq & Hin & Hh).
  exists charge. rewrite Hl, Ha. unfold ring_of in *. split_and!; try done; [|lia].
  split; try done; try constructor.
  - intros x Hx. by apply not_elem_of_nil in Hx.
  - intros x Hx. by apply Hq in Hx.
  - intros x Hx. by apply Hq in Hx.
Qed.

(** ** One step *)

Lemma leases_of_cons s l ls :
  leases_of s (l :: ls) = if decide (l_signal l = s) then l :: leases_of s ls else leases_of s ls.
Proof. unfold leases_of. rewrite filter_cons. done. Qed.

Lemma resvs_of_cons s a ars :
  resvs_of s (a :: ars) = if decide (ar_signal a = s) then a :: resvs_of s ars else resvs_of s ars.
Proof. unfold resvs_of. rewrite filter_cons. done. Qed.

Global Instance leases_of_perm s : Proper (Permutation ==> Permutation) (leases_of s).
Proof. intros l k E. unfold leases_of. by rewrite E. Qed.

Global Instance resvs_of_perm s : Proper (Permutation ==> Permutation) (resvs_of s).
Proof. intros l k E. unfold resvs_of. by rewrite E. Qed.

Definition step_good (M : N) (c : BufferConfig) (y : sys) (e : Event) (y' : sys) : Prop :=
  sys_inv M c y' /\ step_ok c y e y'.

(** A step that changes one ring and that signal's holders. *)
Lemma step_one M c b ls ars e sig b' ls' ars' :
  sys_inv M c (mkSys b ls ars) -> bi_config b' = c ->
  (forall s, s <> sig -> sget (rings b') s = sget (rings b) s) ->
  (forall s, s <> sig -> leases_of s ls' ≡ₚ leases_of s ls) ->
  (forall s, s <> sig -> resvs_of s ars' ≡ₚ resvs_of s ars) ->
  signal_inv M c (sget (rings b') sig) (leases_of sig ls') (resvs_of sig ars') ->
  committed_seq (sget (rings b) sig) <= committed_seq (sget (rings b') sig) ->
  (forall x, is_Some (slots (ring (sget (rings b) sig)) !! x) ->
     is_Some (slots (ring (sget (rings b') sig)) !! x) \/ resolution c (mkSys b ls ars) e sig x) ->
  step_good M c (mkSys b ls ars) e (mkSys b' ls' ars').
Proof.
  intros [Hc I] Hc' Ho Hl Ha Hs Hm Hx. split; [split; [done|]|]; simpl in *.
  - intros s. destruct (decide (s = sig)) as [->|Hne]; [done|]. rewrite Ho by done.
    eapply signal_inv_perm; [symmetry; by apply Hl | symmetry; by apply Ha | apply I].
  - intros s. unfold committed_of, ring_of. simpl.
    destruct (decide (s = sig)) as [->|Hne]; [done|]. rewrite Ho by done. split; [done|]. by left.
Qed.

(** A step that changes no field the invariant reads. *)
Lemma step_neutral M c b ls ars e b' ls' :
  sys_inv M c (mkSys b ls ars) -> bi_config b' = bi_config b ->
  (forall s, leases_of s ls' ≡ₚ leases_of s ls) ->
  (forall s, same_core (ring (sget (rings b) s)) (ring (sget (rings b') s)) /\
     committed_seq (sget (rings b') s) = committed_seq (sget (rings b) s)) ->
  step_good M c (mkSys b ls ars) e (mkSys b' ls' ars).
Proof.
  intros [Hc I] Hc' Hl Hs. split; [split; [by rewrite <- Hc|]|]; simpl in *.
  - intros s. destruct (Hs s) as [H1 H2]. eapply signal_inv_core; [done..|].
    eapply signal_inv_perm; [symmetry; by apply Hl | done | apply I].
  - intros s. unfold committed_of, ring_of. simpl. destruct (Hs s) as [H1 H2]. rewrite H2. split; [done|].
    intros x Hx. left. by destruct H1 as (_ & -> & _).
Qed.

Lemma step_neutral_upd M c b ls ars e s rs :
  sys_inv M c (mkSys b ls ars) -> same_core (ring (sget (rings b) s)) (ring rs) ->
  committed_seq rs = committed_seq (sget (rings b) s) ->
  step_good M c (mkSys b ls ars) e (mkSys (upd_ring_state b s rs) ls ars).
Proof.
  intros I H1 H2. apply step_neutral; try done. intros s'. rewrite sget_upd. case_decide as Hd; [by subst s'|].
  split; [apply same_core_refl | done].
Qed.

Lemma foldl_neutral (f : BufferInner RB Sch -> SignalType -> BufferInner RB Sch) sigs b :
  (forall b s, bi_config (f b s) = bi_config b /\
     forall s', same_core (ring (sget (rings b) s')) (ring (sget (rings (f b s)) s')) /\
       committed_seq (sget (rings (f b s)) s') = committed_seq (sget (rings b) s')) ->
  bi_config (foldl f b sigs) = bi_config b /\
  forall s', same_core (ring (sget (rings b) s')) (ring (sget (rings (foldl f b sigs)) s')) /\
    committed_seq (sget (rings (foldl f b sigs)) s') = committed_seq (sget (rings b) s').
Proof.
  intros Hf. revert b. induction sigs as [|s sigs IH]; intros b; cbn.
  { split; [done|]. intros s'. split; [apply same_core_refl | done]. }
  destruct (IH (f b s)) as [H1 H2]. destruct (Hf b s) as [H3 H4]. split; [by rewrite H1|].
  intros s'. destruct (H2 s') as [(E1 & E2 & E3 & E4 & E5 & E6 & E7 & E8 & E9) K1].
  destruct (H4 s') as [(F1 & F2 & F3 & F4 & F5 & F6 & F7 & F8 & F9) K2].
  split; [split_and!; by etrans | by rewrite K1].
Qed.

Lemma upd_core (b : BufferInner RB Sch) s rs :
  same_core (ring (sget (rings b) s)) (ring rs) -> committed_seq rs = committed_seq (sget (rings b) s) ->
  bi_config (upd_ring_state b s rs) = bi_config b /\
  forall s', same_core (ring (sget (rings b) s')) (ring (sget (rings (upd_ring_state b s rs)) s')) /\
    committed_seq (sget (rings (upd_ring_state b s rs)) s') = committed_seq (sget (rings b) s').
Proof.
  intros H1 H2. split; [done|]. intros s'. rewrite sget_upd. case_decide as Hd; [by subst s'|].
  split; [apply same_core_refl | done].
Qed.

(** ** Each kind of step *)

Lemma good_failed_reservation M c b ls ars a ars' b' :
  sys_inv M c (mkSys b ls ars) -> ars ≡ₚ a :: ars' -> bi_config b' = c ->
  signal_inv M c (sget (rings b') (ar_signal a)) (leases_of (ar_signal a) ls) (resvs_of (ar_signal a) ars') ->
  (forall s, s <> ar_signal a -> sget (rings b') s = sget (rings b) s) ->
  committed_seq (sget (rings b) (ar_signal a)) <= committed_seq (sget (rings b') (ar_signal a)) ->
  (forall x, x <> ar_seq_id a -> slots (ring (sget (rings b') (ar_signal a))) !! x =
     slots (ring (sget (rings b) (ar_signal a))) !! x) ->
  step_good M c (mkSys b ls ars) (EReservationFailed a) (mkSys b' ls ars').
Proof.
  intros I Hp Hc Hs Ho Hm Hx. eapply (step_one _ _ _ _ _ _ (ar_signal a)); try done.
  - intros s Hne. rewrite Hp, resvs_of_cons, decide_False by congruence. done.
  - intros x Hsome. destruct (decide (x = ar_seq_id a)) as [->|Hne]; [by right|]. left. by rewrite Hx.
Qed.

Lemma sys_resv M c b ls ars a ars' :
  sys_inv M c (mkSys b ls ars) -> ars ≡ₚ a :: ars' ->
  signal_inv M c (sget (rings b) (ar_signal a)) (leases_of (ar_signal a) ls) (a :: resvs_of (ar_signal a) ars').
Proof.
  intros [_ I] Hp. eapply signal_inv_perm; [done | | apply (I (ar_signal a))].
  simpl. by rewrite Hp, resvs_of_cons, decide_True.
Qed.

Lemma sys_lease M c b ls ars l ls' :
  sys_inv M c (mkSys b ls ars) -> ls ≡ₚ l :: ls' ->
  signal_inv M c (sget (rings b) (l_signal l)) (l :: leases_of (l_signal l) ls') (resvs_of (l_signal l) ars).
Proof.
  intros [_ I] Hp. eapply signal_inv_perm; [ | done | apply (I (l_signal l))].
  simpl. by rewrite Hp, leases_of_cons, decide_True.
Qed.

Lemma good_rollback M c b ls ars a ars' :
  sys_inv M c (mkSys b ls ars) -> ars ≡ₚ a :: ars' ->
  step_good M c (mkSys b ls ars) (EReservationFailed a) (mkSys (rollback_slot b a) ls ars').
Proof.
  intros I Hp. pose proof (sys_resv _ _ _ _ _ _ _ I Hp) as Hs. pose proof (proj1 I) as Hc. simpl in Hc.
  rewrite <- Hc in Hs. destruct (rollback_spec _ _ _ _ _ Hs) as (R1 & R2 & R3 & R4 & R5).
  eapply good_failed_reservation; eauto; [congruence | by rewrite <- Hc].
Qed.

Lemma good_frame_failed M c b ls ars a ars' err now :
  sys_inv M c (mkSys b ls ars) -> ars ≡ₚ a :: ars' ->
  step_good M c (mkSys b ls ars) (EReservationFailed a) (mkSys (finish_reservation b a (Err err) now) ls ars').
Proof.
  intros I Hp. pose proof (sys_resv _ _ _ _ _ _ _ I Hp) as Hs. pose proof (proj1 I) as Hc. simpl in Hc.
  rewrite <- Hc in Hs. destruct (rollback_spec _ _ _ _ _ Hs) as (R1 & R2 & R3 & R4 & R5).
  destruct (record_storage_failure_core (rollback_slot b a) (ar_signal a) err (ar_signal a)) as (K1 & K2 & K3).
  cbn [finish_reservation]. eapply good_failed_reservation; eauto.
  - congruence.
  - rewrite <- Hc. by eapply signal_inv_core.
  - intros s Hne. rewrite <- R3 by done. unfold record_storage_failure. by apply sget_sset_ne.
  - by rewrite K2.
  - intros x Hx. destruct K1 as (_ & -> & _). by apply R5.
Qed.

Lemma good_frame_written M c b ls ars a ars' w now :
  sys_inv M c (mkSys b ls ars) -> ars ≡ₚ a :: ars' -> wf_len w <= ar_frame_bytes_len a ->
  step_good M c (mkSys b ls ars) ENeutral (mkSys (finish_reservation b a (Ok w) now) ls ars').
Proof.
  intros I Hp Hw. pose proof (sys_resv _ _ _ _ _ _ _ I Hp) as Hs. pose proof (proj1 I) as Hc. simpl in Hc.
  rewrite <- Hc in Hs. destruct (finish_ok_spec _ _ _ _ now _ _ Hs Hw) as (R1 & R2 & R3 & R4 & R5 & R6).
  eapply (step_one _ _ _ _ _ _ (ar_signal a)); try done.
  - congruence.
  - intros s Hne. rewrite Hp, resvs_of_cons, decide_False by congruence. done.
  - by rewrite <- Hc.
  - by rewrite R4.
  - intros x Hx. left. destruct (decide (x = ar_seq_id a)) as [->|Hne]; [|by rewrite R5].
    rewrite R6 by done. by eexists.
Qed.

Lemma good_requeue M c b ls ars l ls' e meta att ra b' :
  sys_inv M c (mkSys b ls ars) -> ls ≡ₚ l :: ls' -> map entry_key meta = map entry_key (l_meta l) ->
  bi_config b' = c -> (forall s, s <> l_signal l -> sget (rings b') s = sget (rings b) s) ->
  same_core (requeue_at_head (ring (sget (rings b) (l_signal l))) (l_payloads l) meta att ra)
    (ring (sget (rings b') (l_signal l))) ->
  committed_seq (sget (rings b') (l_signal l)) = committed_seq (sget (rings b) (l_signal l)) ->
  step_good M c (mkSys b ls ars) e (mkSys b' ls' ars).
Proof.
  intros I Hp Hk Hc' Ho Hcore Hm. pose proof (sys_lease _ _ _ _ _ _ _ I Hp) as Hs.
  destruct (requeue_spec _ _ _ _ _ _ _ _ _ _ Hs Hk Hcore Hm) as (R1 & _ & R3).
  eapply (step_one _ _ _ _ _ _ (l_signal l)); try done.
  - intros s Hne. rewrite Hp, leases_of_cons, decide_False by congruence. done.
  - by rewrite Hm.
  - intros x Hx. left. by apply R3.
Qed.

Lemma good_acked M c b ls ars l ls' e reset reply res b' b0 :
  sys_inv M c (mkSys b ls ars) -> ls ≡ₚ l :: ls' ->
  bi_config b0 = bi_config b ->
  (forall s, same_core (ring (sget (rings b) s)) (ring (sget (rings b0) s)) /\
     committed_seq (sget (rings b0) s) = committed_seq (sget (rings b) s)) ->
  ack_lease b0 (l_signal l) (l_meta l) reset reply = (res, b') ->
  (forall x, x ∈ lease_seqs l -> resolution c (mkSys b ls ars) e (l_signal l) x) ->
  step_good M c (mkSys b ls ars) e (mkSys b' ls' ars).
Proof.
  intros I Hp Hc0 Hs0 Eq Hres. pose proof (sys_lease _ _ _ _ _ _ _ I Hp) as Hs.
  pose proof (proj1 I) as Hc. simpl in Hc. rewrite <- Hc, <- Hc0 in Hs.
  eapply signal_inv_core in Hs; [|apply Hs0..].
  pose proof (ack_lease_spec _ _ _ reset reply _ _ Hs) as R. rewrite Eq in R.
  destruct R as (R1 & R2 & R3 & R4 & R5).
  assert (I0 : step_good M c (mkSys b ls ars) e (mkSys b0 ls ars)) by by apply step_neutral.
  destruct I0 as [I0 _]. rewrite Hc0, Hc in R1, R2.
  destruct (Hs0 (l_signal l)) as [(_ & K1 & _) K2].
  split.
  - eapply (step_one _ _ b0 ls ars e (l_signal l)); try done.
    + intros s Hne. rewrite Hp, leases_of_cons, decide_False by congruence. done.
    + intros x [st Hx]. rewrite R5. case_decide; [right | left; by eexists].
      specialize (Hres x ltac:(done)). destruct e; simpl in *; try done; try tauto.
      all: unfold ring_of in *; simpl in *; by rewrite K1.
  - intros s. unfold committed_of, ring_of. simpl. destruct (decide (s = l_signal l)) as [->|Hne].
    + rewrite <- K2, <- K1. split; [done|]. intros x Hx. rewrite R5.
      case_decide; [right; by apply Hres | by left].
    + rewrite R3 by done. destruct (Hs0 s) as [(_ & L1 & _) ->]. rewrite L1. split; [done|]. by left.
Qed.

Lemma fail_lease_good M c b ls ars l ls' e meta reason :
  sys_inv M c (mkSys b ls ars) -> ls ≡ₚ l :: ls' -> map entry_key meta = map entry_key (l_meta l) ->
  step_good M c (mkSys b ls ars) e
    (mkSys (fail_lease b (l_signal l) (l_payloads l) meta reason) ls' ars).
Proof.
  intros I Hp Hk. pose proof (proj1 I) as Hc. eapply good_requeue; try done; unfold fail_lease.
  - intros s Hne. by apply sget_sset_ne.
  - rewrite sget_upd, decide_True by done. apply same_core_refl || by split_and!.
  - by rewrite sget_upd, decide_True.
Qed.

Lemma requeue_lease_good M c b ls ars l ls' e meta att ra :
  sys_inv M c (mkSys b ls ars) -> ls ≡ₚ l :: ls' -> map entry_key meta = map entry_key (l_meta l) ->
  step_good M c (mkSys b ls ars) e
    (mkSys (requeue_lease b (l_signal l) (l_payloads l) meta att ra) ls' ars).
Proof.
  intros I Hp Hk. pose proof (proj1 I) as Hc. eapply good_requeue; try done; unfold requeue_lease.
  - intros s Hne. by apply sget_sset_ne.
  - rewrite sget_upd, decide_True by done. apply same_core_refl.
  - by rewrite sget_upd, decide_True.
Qed.

(** A neutral update of a ring's flags before the step proper. *)
Lemma good_after_upd M c b ls ars e s rs y' :
  sys_inv M c (mkSys b ls ars) -> same_core (ring (sget (rings b) s)) (ring rs) ->
  committed_seq rs = committed_seq (sget (rings b) s) ->
  (forall b0, b0 = upd_ring_state b s rs -> sys_inv M c (mkSys b0 ls ars) ->
     step_good M c (mkSys b0 ls ars) ENeutral y') ->
  step_good M c (mkSys b ls ars) e y'.
Proof.
  intros I H1 H2 Hy. destruct (step_neutral_upd M c b ls ars ENeutral s rs I H1 H2) as [I0 Hok0].
  destruct (Hy _ eq_refl I0) as [I' Hok]. split; [done|]. intros s'. destruct (Hok s') as [M1 X1].
  destruct (Hok0 s') as [M0 X0]. split; [etrans; eauto|]. intros x Hx.
  destruct (X0 x Hx) as [Hx0|[]]. destruct (X1 x Hx0) as [?|[]]. by left.
Qed.

Lemma start_streak_core (rs : SignalRingState RB Sch) t :
  ring (start_streak rs t) = ring rs /\ committed_seq (start_streak rs t) = committed_seq rs.
Proof. unfold start_streak. by case_match. Qed.

Lemma good_nack_transient M c b ls ars l ls' e now t :
  sys_inv M c (mkSys b ls ars) -> ls ≡ₚ l :: ls' ->
  step_good M c (mkSys b ls ars) e (mkSys (nack_transient b l now t) ls' ars).
Proof.
  intros I Hp. unfold nack_transient.
  destruct (start_streak_core (sget (rings b) (l_signal l)) (N.max t 1)) as [K1 K2].
  eapply (good_after_upd _ _ _ _ _ _ (l_signal l) (start_streak (sget (rings b) (l_signal l)) (N.max t 1)));
    [exact I | rewrite K1; apply same_core_refl | exact K2 |].
  intros b0 <- I0. case_match.
  - eapply fail_lease_good; [done..|]. apply mark_failed_keys.
  - eapply requeue_lease_good; [done..|]. apply mark_failed_keys.
Qed.

Lemma good_lease_drop M c b ls ars l ls' now t :
  sys_inv M c (mkSys b ls ars) -> ls ≡ₚ l :: ls' ->
  step_good M c (mkSys b ls ars) ENeutral (mkSys (lease_drop b l now t) ls' ars).
Proof.
  intros I Hp. unfold lease_drop.
  destruct (start_streak_core (sget (rings b) (l_signal l)) (N.max t 1)) as [K1 K2].
  eapply (good_after_upd _ _ _ _ _ _ (l_signal l) (start_streak (sget (rings b) (l_signal l)) (N.max t 1)));
    [exact I | rewrite K1; apply same_core_refl | exact K2 |].
  intros b0 <- I0. eapply requeue_lease_good; [done..|]. apply mark_failed_keys.
Qed.

Lemma good_nacked M c b ls ars l ls' class now t write_res reply res b' :
  sys_inv M c (mkSys b ls ars) -> ls ≡ₚ l :: ls' ->
  lease_nack b l class now t write_res reply = (res, b') ->
  step_good M c (mkSys b ls ars) (ENacked l class write_res) (mkSys b' ls' ars).
Proof.
  intros I Hp Eq. pose proof (proj1 I) as Hc. simpl in Hc.
  unfold lease_nack in Eq. destruct class as [|reason|reason].
  - injection Eq as _ <-. by apply good_nack_transient.
  - rewrite Hc in Eq. destruct (N.ltb_spec (l_attempt l +u32 1) (max_attempts c)) as [Hlt|Hge].
    { injection Eq as _ <-. by eapply requeue_lease_good. }
    unfold nack_rejected_exhausted in Eq. destruct write_res as [[]|err].
    2:{ injection Eq as _ <-. by eapply fail_lease_good. }
    destruct (ack_lease _ _ _ _ _) as [ares b''] eqn:Ea.
    assert (b'' = b') as -> by (destruct ares; congruence). clear Eq.
    eapply good_acked; [exact I | exact Hp | | | exact Ea |]; [done | |].
    + intros s. eapply upd_core; [apply same_core_refl | done].
    + intros x Hx. simpl. split_and!; try done. by eexists.
  - injection Eq as _ <-. by eapply fail_lease_good.
Qed.

Lemma good_lease_acked M c b ls ars l ls' reply res b' :
  sys_inv M c (mkSys b ls ars) -> ls ≡ₚ l :: ls' -> lease_ack b l reply = (res, b') ->
  step_good M c (mkSys b ls ars) (EAcked l) (mkSys b' ls' ars).
Proof.
  intros I Hp Eq. unfold lease_ack in Eq. destruct (ack_lease _ _ _ _ _) as [ares b''] eqn:Ea.
  assert (b'' = b') as -> by (destruct ares; congruence). clear Eq.
  eapply good_acked; [exact I | exact Hp | done | | exact Ea |]; [|done].
  intros s. split; [apply same_core_refl | done].
Qed.

Lemma next_lease_pass_lease (b : BufferInner RB Sch) scope cursor now l cursor' b' :
  next_lease_pass b scope cursor now = (LeaseReady l, cursor', b') ->
  exists sig d dr, try_pop_signal_lease b sig now = (Some l, d, dr, b').
Proof.
  unfold next_lease_pass. destruct (fatal_error b); [done|]. destruct scope as [sig|].
  - destruct (try_pop_signal_lease b sig now) as [[[[l'|] d] dr] b1] eqn:E; intros Eq.
    + injection Eq as -> _ ->. by eauto.
    + by destruct dr.
  - destruct (round_robin _ _ _ _ _) as [[res cur] b1] eqn:E. intros Eq. injection Eq as -> _ ->.
    revert E. generalize (@None instant) as ed. generalize true as ad.
    set (todo := map _ _). clearbody todo. revert cur b'.
    assert (Hnone : forall sig d dr b1, try_pop_signal_lease b sig now = (None, d, dr, b1) -> b1 = b).
    { intros sig d dr b1. unfold try_pop_signal_lease. repeat case_match; intros; simplify_eq; try done. }
    induction todo as [|i todo IH]; intros cur b' ad ed; cbn; [by destruct ad|].
    destruct (try_pop_signal_lease b _ now) as [[[[l'|] d] dr] b1] eqn:E; intros Eq.
    + injection Eq as -> _ ->. by eauto.
    + apply Hnone in E as ->. by eapply IH.
Qed.

Lemma good_leased M c b ls ars scope cursor now l cursor' b' :
  sys_inv M c (mkSys b ls ars) -> config_ok c ->
  next_lease_pass b scope cursor now = (LeaseReady l, cursor', b') ->
  step_good M c (mkSys b ls ars) ENeutral (mkSys b' (l :: ls) ars).
Proof.
  intros I Hok Eq. apply next_lease_pass_lease in Eq as (sig & d & dr & Eq).
  pose proof (proj1 I) as Hc. simpl in Hc. pose proof (proj2 I sig) as Hs. simpl in Hs.
  rewrite <- Hc in Hs, Hok. pose proof (try_pop_spec _ _ _ now _ _ Hs Hok) as R. rewrite Eq in R.
  destruct R as (R1 & R2 & n & Hn & Hl & R3 & R4 & _ & _ & R5 & R6).
  assert (Hsig : l_signal l = sig) by by rewrite Hl.
  eapply (step_one _ _ _ _ _ _ sig); try done.
  - congruence.
  - intros s Hne. by rewrite leases_of_cons, decide_False by congruence.
  - rewrite leases_of_cons, decide_True by done. by rewrite <- Hc.
  - by rewrite R4.
  - intros x Hx. left. destruct (decide (x ∈ lease_seqs l)) as [Hd|Hd].
    + destruct (R5 x Hd) as [_ ->]. by eexists.
    + by rewrite R6.
Qed.

Definition finalized_buffer (b : BufferInner RB Sch) : BufferInner RB Sch :=
  match effective_drain_policy (bi_config b) with
  | Persist => b
  | Discard => (discard_remaining_rings b).1
  end.

Lemma finalize_rings (b : BufferInner RB Sch) reply res b' :
  finalize_shutdown_timeout b reply = (res, b') ->
  rings b' = rings (finalized_buffer b) /\ bi_config b' = bi_config (finalized_buffer b).
Proof.
  unfold finalize_shutdown_timeout, finalized_buffer.
  destruct (effective_drain_policy _); [|destruct (discard_remaining_rings b) as [b1 n]; cbn [fst]];
    unfold flush_and_sync_watermark; intros Eq; repeat case_match; simplify_eq/=; done.
Qed.

Lemma finalize_async_rings (b : BufferInner RB Sch) r1 r2 res b' :
  finalize_shutdown_timeout_async b r1 r2 = (res, b') ->
  rings b' = rings (finalized_buffer b) /\ bi_config b' = bi_config (finalized_buffer b).
Proof.
  unfold finalize_shutdown_timeout_async, finalized_buffer.
  destruct (effective_drain_policy _); [|destruct (discard_remaining_rings b) as [b1 n]; cbn [fst]];
    intros Eq; repeat case_match; simplify_eq/=; done.
Qed.

Lemma good_finalized M c b ls ars b' :
  sys_inv M c (mkSys b ls ars) ->
  rings b' = rings (finalized_buffer b) -> bi_config b' = bi_config (finalized_buffer b) ->
  step_good M c (mkSys b ls ars) EFinalized (mkSys b' ls ars).
Proof.
  intros I Hr Hcf. pose proof (proj1 I) as Hc. simpl in Hc. unfold finalized_buffer in *.
  destruct (effective_drain_policy (bi_config b)) eqn:Ep.
  - apply step_neutral; try done. intros s. rewrite Hr. split; [apply same_core_refl | done].
  - destruct (discard_remaining_rings_spec b) as [D1 D2]. split; [split|].
    + simpl. congruence.
    + intros s. simpl. rewrite Hr, D2. apply (discard_ring_spec M c), (proj2 I s).
    + intros s. unfold committed_of, ring_of. simpl. rewrite Hr, D2.
      destruct (discard_ring_spec M c _ _ _ (proj2 I s)) as (_ & Hm & _). split; [done|].
      intros x _. right. simpl. by rewrite <- Hc.
Qed.

Lemma good_quarantined M c b ls ars l ls' batches write_res res l' b' :
  sys_inv M c (mkSys b ls ars) -> ls ≡ₚ l :: ls' ->
  lease_quarantine b l batches write_res = (res, l', b') ->
  step_good M c (mkSys b ls ars) ENeutral (mkSys b' (l' :: ls') ars).
Proof.
  intros I Hp Eq.
  assert (Hb : bi_config b' = bi_config b /\ (forall s, same_core (ring (sget (rings b) s)) (ring (sget (rings b') s)) /\
     committed_seq (sget (rings b') s) = committed_seq (sget (rings b) s)) /\
     l_signal l' = l_signal l /\ l_meta l' = l_meta l /\ l_payloads l' = l_payloads l).
  { assert (Hb0 : (forall s, same_core (ring (sget (rings b) s)) (ring (sget (rings b) s)) /\
     committed_seq (sget (rings b) s) = committed_seq (sget (rings b) s))) by (split; [apply same_core_refl|done]).
    unfold lease_quarantine, quarantine_batches in Eq. repeat case_match; simplify_eq/=; split_and!; try done.
    intros s. by eapply (upd_core b (l_signal l)). }
  destruct Hb as (H1 & H2 & H3 & H4 & H5).
  destruct (step_neutral M c b ls ars ENeutral b' ls I H1 ltac:(done) H2) as [[I1 I2] Hok]. split; [split; [done|]|exact Hok].
  intros s. specialize (I2 s). simpl in *. rewrite leases_of_cons.
  assert (Hls : leases_of s ls ≡ₚ leases_of s (l :: ls')) by by rewrite Hp. rewrite leases_of_cons in Hls.
  eapply signal_inv_perm in I2; [|exact Hls|done]. rewrite H3. case_decide; [|done].
  destruct I2 as (charge & J & T & K). exists charge. split; [done|]. split; [|done]. clear -T H4 H5.
  destruct T as [T1 T2 T3 T4 T5 T6 T7]. unfold held_seqs in *. cbn [map concat] in *.
  assert (Hs : lease_seqs l' = lease_seqs l) by (unfold lease_seqs; by rewrite H4).
  split; unfold held_seqs; cbn [map concat]; rewrite ?Hs; try done.
  - apply Forall_cons in T1 as [L1 L2]. apply Forall_cons. split; [|done].
    unfold lease_ok in *. by rewrite H4, H5.
  - rewrite T7. rewrite !active_leases_cons. by rewrite H4.
Qed.

Lemma good_send M c b ls ars signal bytes rows mem active now t out active' b' frame_rows schema :
  sys_inv M c (mkSys b ls ars) -> config_ok c -> M <= usize_max ->
  reserve_attempt b signal bytes rows mem active now t = (out, active', b') ->
  bytes <= M -> rows_in_flight (ring (sget (rings b) signal)) + rows <= usize_max ->
  next_seq (ring (sget (rings b) signal)) < u64_max ->
  step_good M c (mkSys b ls ars) (ESend signal)
      (mkSys b' ls (match out with
                    | SendAdmitted (Some q) => mkAppendReservation signal q bytes rows frame_rows schema :: ars
                    | _ => ars
                    end)).
Proof.
  intros I [Hb _] HM Eq Hby Hrows Hn. pose proof (proj1 I) as Hc. simpl in Hc.
  pose proof (proj2 I signal) as Hs. simpl in Hs. rewrite <- Hc in Hs, Hb.
  pose proof (reserve_attempt_spec M b signal bytes rows mem active now t _ _ Hs Hby HM Hb Hrows Hn) as R.
  rewrite Eq in R. cbv zeta in R. destruct R as (R1 & R2 & R3 & R4 & R5 & R6 & R7).
  eapply (step_one _ _ _ _ _ _ signal); try done.
  - congruence.
  - intros s Hne. destruct out as [e|[q|]|]; try done.
    by rewrite resvs_of_cons, decide_False by (simpl; congruence).
  - rewrite <- Hc. destruct out as [e|[q|]|]; try done.
    rewrite resvs_of_cons, decide_True by done. destruct R7 as [-> R7]. by apply R7.
  - intros x Hx. destruct (R5 x Hx) as [E|[E1 E2]]; [left; by rewrite E|].
    right. simpl. split_and!; try done. destruct (overflow_policy c) eqn:Ep; [|done].
    rewrite <- Hc in Ep. rewrite (R6 Ep x Hx), E1 in E2. done.
Qed.

Lemma step_preserves M c y e y' :
  sys_inv M c y -> config_ok c -> M <= usize_max -> step M y e y' -> step_good M c y e y'.
Proof.
  intros I Hok HM Hstep. destruct Hstep.
  - by eapply good_send.
  - apply step_neutral; [done | | done |];
      match goal with E : submit_frame _ _ _ _ = _ |- _ => unfold submit_frame in E end;
      repeat case_match; simplify_eq/=; done.
  - match goal with E : submit_frame _ _ _ _ = _ |- _ => unfold submit_frame in E end.
    repeat case_match; simplify_eq/=; by apply good_rollback.
  - by apply good_frame_written.
  - by apply good_frame_failed.
  - by apply good_rollback.
  - by eapply good_leased.
  - by eapply good_lease_acked.
  - by eapply good_nacked.
  - by apply good_lease_drop.
  - by eapply good_quarantined.
  - match goal with E : finalize_shutdown_timeout _ _ = _ |- _ => apply finalize_rings in E as [E1 E2] end.
    by apply good_finalized.
  - match goal with E : finalize_shutdown_timeout_async _ _ _ = _ |- _ => apply finalize_async_rings in E as [E1 E2] end.
    by apply good_finalized.
  - destruct (foldl_neutral (fun b sig => upd_ring_state b sig ((sget (rings b) sig)
      <| active_senders := (active_senders (sget (rings b) sig) + 1) mod (u64_max + 1) |>)) (scope_signals scope) b)
      as [H1 H2]; [intros; by apply upd_core|]. by apply step_neutral.
  - destruct (foldl_neutral (fun b sig =>
      let rs := sget (rings b) sig in
      let prev := active_senders rs in
      let rs := rs <| active_senders := (prev + u64_max) mod (u64_max + 1) |> in
      upd_ring_state b sig (if prev =? 1 then rs <| ring := (ring rs) <| closed := true |> |> else rs))
      (scope_signals scope) b) as [H1 H2]; [|by apply step_neutral].
    intros b0 s. apply upd_core; by case_match.
  - destruct (foldl_neutral (fun b sig =>
      let rs := sget (rings b) sig in
      upd_ring_state b sig (rs <| ring := (ring rs) <| receiver_dropped := true |> |>))
      (scope_signals scope) b) as [H1 H2]; [|by apply step_neutral].
    intros b0 s. by apply upd_core.
  - apply step_neutral_upd; [done| |]; unfold drop_guard; repeat case_match; simpl; try done; apply same_core_refl.
  - destruct (record_storage_failure_core b s reason s) as (_ & _ & H3). apply step_neutral; try done.
    intros s'. destruct (record_storage_failure_core b s reason s') as (H1 & H2 & _). done.
  - match goal with E : sink_flush_and_sync_watermark _ _ = _ |- _ => unfold sink_flush_and_sync_watermark, flush_and_sync_watermark in E end.
    repeat case_match; simplify_eq/=; apply step_neutral; try done; intros s; (split; [apply same_core_refl | done]).
Qed.

Lemma reachable_inv M c y : config_ok c -> M <= usize_max -> reachable M c y -> sys_inv M c y.
Proof.
  intros Hok HM Hr. induction Hr as [y Hi|y e y' Hr IH Hs]; [by apply initial_inv|].
  by apply (step_preserves _ _ _ _ _ IH Hok HM Hs).
Qed.
End System.

(** ** What one lease holds *)

Section LeaseContents.
Context {RB Sch Row : Type} `{Arrow RB Sch Row}.
Implicit Types (r : SignalRing RB Sch) (q : list (QueuedBatch RB Sch)).

Fixpoint contiguous_from (s : N) (xs : list N) : Prop :=
  match xs with [] => True | x :: xs => x = s /\ contiguous_from (s + 1) xs end.

(** The conditions a batch meets to join a lease. *)
Definition joins (now : instant) (att : N) (sch : Sch) (x : QueuedBatch RB Sch) : Prop :=
  qb_attempt x = att /\ payload_schema (qb_payload x) = sch /\
  match qb_ready_at x with Some t => t <= now | None => True end.

Definition within_limits (c : BufferConfig) (bytes rows : N) : Prop :=
  bytes <= max_batch_size_bytes c /\ forall max_rec, max_batch_records c = Some max_rec -> rows <= max_rec.

Lemma coalesce_scan_spec c r now att sch q last_seq bytes rows count n by' ro bd :
  coalesce_scan c r now att sch q last_seq bytes rows count = (n, by', ro, bd) ->
  last_seq < u64_max -> Forall (fun x => qb_seq_id x < u64_max) q ->
  bytes + sum_N qb_byte_size q <= usize_max -> rows + sum_N qb_row_count q <= usize_max ->
  exists k, n = (count + k)%nat /\ let p := take k q in
    contiguous_from (last_seq + 1) (queue_seqs p) /\ Forall (joins now att sch) p /\
    by' = bytes + sum_N qb_byte_size p /\ ro = rows + sum_N qb_row_count p /\
    (k = 0%nat \/ within_limits c by' ro).
Proof.
  revert last_seq bytes rows count. induction q as [|x q IH]; intros last_seq bytes rows count E Hl Hq Hb Hr.
  { injection E as <- <- <- _. exists 0%nat. cbn. split_and!; first [lia | done | by constructor | by left]. }
  assert (Hstop : (n, by', ro) = (count, bytes, rows) -> exists k, n = (count + k)%nat /\ let p := take k (x :: q) in
    contiguous_from (last_seq + 1) (queue_seqs p) /\ Forall (joins now att sch) p /\
    by' = bytes + sum_N qb_byte_size p /\ ro = rows + sum_N qb_row_count p /\
    (k = 0%nat \/ within_limits c by' ro)).
  { intros [= -> -> ->]. exists 0%nat. cbn. split_and!; first [lia | done | by constructor | by left]. }
  apply Forall_cons in Hq as [Hx Hq]. rewrite sum_N_cons in Hb. rewrite sum_N_cons in Hr. cbn [coalesce_scan] in E.
  rewrite sat_add_exact in E by lia.
  destruct (N.eqb_spec (qb_seq_id x) (last_seq + 1)) as [Heq|Hne]; cbn [negb] in E; [|apply Hstop; congruence].
  destruct (_ || _ || _ || _ || _) eqn:Ec in E; [apply Hstop; congruence|]. clear Hstop.
  rewrite !orb_false_iff in Ec. destruct Ec as ((((Hrd & Hat) & Hsc) & Hby) & Hrec).
  rewrite !sat_add_exact in E by lia. rewrite !sat_add_exact in Hby by lia.
  destruct (IH _ _ _ _ E Hx Hq ltac:(lia) ltac:(lia)) as (k & -> & Hc & Hj & -> & -> & Hk).
  exists (S k). split; [lia|]. cbn [take queue_seqs map contiguous_from]. rewrite !sum_N_cons. split_and!.
  - done.
  - by rewrite <- Heq.
  - constructor; [|done]. split_and!.
    + by apply negb_false_iff, N.eqb_eq in Hat.
    + by apply negb_false_iff, bool_decide_eq_true_1 in Hsc.
    + destruct (qb_ready_at x); [|done]. by apply N.ltb_ge in Hrd.
  - lia.
  - lia.
  - right. destruct Hk as [->|Hk]; [|done].
    cbn. rewrite !N.add_0_r. split; [by apply N.ltb_ge in Hby|]. intros mr Em. rewrite Em in Hrec.
    apply orb_false_iff in Hrec as [_ Hrec]. rewrite sat_add_exact in Hrec by lia. by apply N.ltb_ge in Hrec.
Qed.

Lemma sum_prefix_le (f : N * N -> N) (g : QueuedBatch RB Sch -> N) charge q :
  NoDup (queue_seqs q) ->
  (forall x, x ∈ q -> exists v, charge !! qb_seq_id x = Some v /\ f v = g x) ->
  sum_N g q <= sum_map f charge.
Proof.
  revert charge. induction q as [|x q IH]; intros charge Hnd Hx; [cbn; lia|]. rewrite sum_N_cons.
  apply NoDup_cons in Hnd as [Hni Hnd]. destruct (Hx x) as (v & Hv & Hg); [by left|].
  rewrite (sum_map_delete f charge _ _ Hv), Hg. specialize (IH (delete (qb_seq_id x) charge) Hnd).
  apply N.add_le_mono_l, IH. intros y Hy. destruct (Hx y) as (w & Hw & Hgw); [by right|].
  exists w. split; [|done]. rewrite lookup_delete_ne; [done|]. intros E. apply Hni. rewrite E.
  by apply list_elem_of_fmap_2.
Qed.

Lemma queue_sums charge committed r :
  ring_inv charge committed r ->
  sum_N qb_byte_size (queue r) <= usize_max /\ sum_N qb_row_count (queue r) <= usize_max.
Proof.
  intros I. pose proof (queue_seqs_NoDup _ _ _ I) as Hnd.
  pose proof (ri_bytes _ _ _ _ _ I). pose proof (ri_rows _ _ _ _ _ I).
  pose proof (ri_bytes_bound _ _ _ _ _ I). pose proof (ri_rows_bound _ _ _ _ _ I).
  pose proof (sum_prefix_le fst qb_byte_size charge (queue r) Hnd) as HA.
  pose proof (sum_prefix_le snd qb_row_count charge (queue r) Hnd) as HB.
  split; [etrans; [apply HA|lia] | etrans; [apply HB|lia]];
    intros x Hx; destruct (ri_queue _ _ _ _ _ I x Hx) as [_ ->]; by eexists.
Qed.

Lemma foldl_sat_sum (g : QueuedBatch RB Sch -> N) q n :
  n + sum_N g q <= usize_max -> foldl (fun n x => n +us g x) n q = n + sum_N g q.
Proof.
  revert n. induction q as [|x q IH]; intros n Hn; [cbn; lia|]. rewrite sum_N_cons in *. cbn [foldl].
  rewrite sat_add_exact by lia. rewrite IH; lia.
Qed.

Lemma contiguous_last (s d : N) xs : contiguous_from s xs -> xs <> [] ->
  default d (last xs) = s + N.of_nat (length xs) - 1.
Proof.
  revert s. induction xs as [|x xs IH]; intros s Hc Hne; [done|]. destruct Hc as [-> Hc].
  destruct xs as [|y xs]; [cbn; lia|]. change (last (s :: y :: xs)) with (last (y :: xs)).
  rewrite (IH (s + 1)); [|done..]. cbn [length]. lia.
Qed.

Lemma lease_of_sums (b : BufferInner RB Sch) signal x k q now :
  sum_N qb_byte_size (x :: q) <= usize_max -> sum_N qb_row_count (x :: q) <= usize_max ->
  let l := lease_of b signal (x :: take k q) now in
  l_byte_size l = sum_N lm_byte_size (l_meta l) /\ l_num_rows l = sum_N lm_row_count (l_meta l) /\
  id_last_seq (l_id l) = default 0 (last (queue_seqs (x :: take k q))) /\
  l_byte_size l = qb_byte_size x + sum_N qb_byte_size (take k q) /\
  l_num_rows l = qb_row_count x + sum_N qb_row_count (take k q).
Proof.
  intros Hb Hr l. set (p := take k q) in *.
  assert (Hsum : forall g : QueuedBatch RB Sch -> N, sum_N g (x :: q) <= usize_max ->
    foldl (fun n x => n +us g x) 0 (x :: p) = g x + sum_N g p).
  { intros g Hg. rewrite foldl_sat_sum; rewrite sum_N_cons in *; [lia|].
    assert (sum_N g p <= sum_N g q); [|lia]. rewrite <- (take_drop k q), sum_N_app. fold p. lia. }
  pose proof (Hsum _ Hb) as H1. pose proof (Hsum _ Hr) as H2.
  unfold l, lease_of. cbn [l_byte_size l_num_rows l_meta l_id id_last_seq]. rewrite H1, H2.
  split_and!; try (by rewrite sum_N_map, sum_N_cons); [|done..].
  change (queue_seqs (x :: p)) with (qb_seq_id <$> (x :: p)). rewrite fmap_last. by destruct (last (x :: p)).
Qed.

Lemma has_earlier_reserved_false r s :
  has_earlier_reserved r s = false -> forall x, x < s -> slots r !! x <> Some Reserved.
Proof.
  intros Her x Hx Hres. unfold has_earlier_reserved in Her. apply not_true_iff_false in Her. apply Her.
  apply existsb_exists. exists (x, Reserved). split.
  - apply list_elem_of_In. by apply elem_of_map_to_list.
  - rewrite bool_decide_eq_true_2 by done. apply andb_true_iff. split; [by apply N.ltb_lt | done].
Qed.

Lemma try_pop_prefix (b : BufferInner RB Sch) signal now charge committed l d dr b' :
  let r := ring (sget (rings b) signal) in
  ring_inv charge committed r -> next_seq r <= u64_max ->
  try_pop_signal_lease b signal now = (Some l, d, dr, b') ->
  exists k front rest, let p := take k rest in
    queue r = front :: rest /\ l = lease_of b signal (front :: p) now /\
    has_earlier_reserved r (qb_seq_id front) = false /\
    (match qb_ready_at front with Some t => now <? t | None => false end) = false /\
    contiguous_from (qb_seq_id front + 1) (queue_seqs p) /\
    Forall (joins now (qb_attempt front) (payload_schema (qb_payload front))) p /\
    (k = 0%nat \/ within_limits (bi_config b) (qb_byte_size front + sum_N qb_byte_size p)
                    (qb_row_count front + sum_N qb_row_count p)).
Proof.
  intros r I Hn Eq. unfold try_pop_signal_lease in Eq. fold r in Eq.
  destruct (_ <=? _); [done|]. destruct (queue r) as [|front rest] eqn:Hq; [done|].
  destruct (has_earlier_reserved r (qb_seq_id front)) eqn:Her; [done|].
  destruct (match qb_ready_at front with Some _ => _ | None => _ end) eqn:Erd; [done|].
  destruct (coalesce_scan _ _ _ _ _ _ _ _ _ _) as [[[n by'] ro] bd] eqn:Ec.
  match type of Eq with context [if ?g then _ else _] => destruct g; [done|] end.
  pose proof (pop_batches_spec n _ _ _ [] I) as Hp. rewrite Hq in Hp.
  destruct (pop_batches n r []) as [r' ps]. destruct Hp as (-> & _). cbn [app] in Eq.
  assert (El : l = lease_of b signal (take n (front :: rest)) now) by (by injection Eq as <- _ _ _). clear Eq.
  destruct (queue_sums _ _ _ I) as [Sb Sr]. rewrite Hq, sum_N_cons in Sb, Sr.
  assert (Hlt : forall x, x ∈ front :: rest -> qb_seq_id x < u64_max).
  { intros x Hx. rewrite <- Hq in Hx. destruct (ri_queue _ _ _ _ _ I x Hx) as [Hs _].
    pose proof (ri_bound _ _ _ _ _ I (qb_seq_id x) ltac:(eauto)). lia. }
  destruct (coalesce_scan_spec _ _ _ _ _ _ _ _ _ _ _ _ _ _ Ec) as (k & -> & Hc & Hj & -> & -> & Hk);
    [apply Hlt; by left | rewrite Forall_forall; intros x Hx; apply Hlt; by right | lia | lia |].
  by exists k, front, rest.
Qed.
End LeaseContents.

(** ** Requeued entries *)

Section Requeued.
Context {RB Sch Row : Type} `{Arrow RB Sch Row}.
Implicit Types (r : SignalRing RB Sch).

(** The queue entry a leased batch becomes again. *)
Definition requeued (att : N) (ra : option instant) (it : BatchPayload RB Sch * LeasedBatchMeta)
  : QueuedBatch RB Sch :=
  let '(p, m) := it in
  mkQueuedBatch (lm_seq_id m) p (lm_byte_size m) (lm_row_count m) (lm_enqueued_at m) (lm_first_failed_at m) att ra.

Lemma requeue_fold_queue charge committed att ra its r any :
  ring_inv charge committed r -> Forall (requeue_ok charge r) its ->
  NoDup (map (fun it => lm_seq_id it.2) its) ->
  Forall (fun it => slots r !! lm_seq_id it.2 = Some InFlight) its ->
  queue (foldl (requeue_one att ra) (r, any) its).1 ≡ₚ map (requeued att ra) its ++ queue r.
Proof.
  revert r any. induction its as [|[p m] its IH]; intros r any I Hok Hnd Hf; [done|].
  apply Forall_cons in Hok as [Hi Hok]. apply Forall_cons in Hf as [Hm Hf].
  apply NoDup_cons in Hnd as [Hni Hnd]. cbn [foldl].
  pose proof (requeue_one_inv _ _ _ any att ra _ I Hi) as H1. cbn [snd] in H1, Hm, Hni.
  assert (Hq : queue (requeue_one att ra (r, any) (p, m)).1 = ordered_insert (requeued att ra (p, m)) (queue r)).
  { unfold requeue_one. simpl. rewrite bool_decide_eq_true_2 by done. simpl.
    apply enqueue_queue_ordered, (ri_sorted _ _ _ _ _ I). }
  destruct (requeue_one att ra (r, any) (p, m)) as [r1 any1]. cbn [fst] in Hq.
  destruct H1 as (I1 & _ & Hne & _ & Hn & _).
  assert (Hkeep : forall it, it ∈ its -> slots r1 !! lm_seq_id it.2 = slots r !! lm_seq_id it.2).
  { intros it Hit. apply Hne. intros E. apply Hni. rewrite <- E. apply list_elem_of_fmap. by exists it. }
  rewrite IH; try done.
  - rewrite Hq, ordered_insert_perm. cbn [map]. rewrite <- Permutation_middle. done.
  - rewrite Forall_forall in *. intros it Hit. unfold requeue_ok in *. rewrite Hkeep by done. by apply Hok.
  - rewrite Forall_forall in *. intros it Hit. rewrite Hkeep by done. by apply Hf.
Qed.

Lemma requeue_at_head_queue charge committed att ra payloads meta r :
  ring_inv charge committed r -> Forall (lease_entry_ok charge (slots r)) meta ->
  NoDup (map lm_seq_id meta) -> length payloads = length meta ->
  Forall (fun m => is_Some (slots r !! lm_seq_id m)) meta ->
  queue (requeue_at_head r payloads meta att ra) ≡ₚ map (requeued att ra) (zip payloads meta) ++ queue r.
Proof.
  intros I Hok Hnd Hlen Hact. assert (Hsnd : map snd (zip payloads meta) = meta) by (apply snd_zip; lia).
  assert (Hin : forall it, it ∈ zip payloads meta -> slots r !! lm_seq_id it.2 = Some InFlight /\
    charge !! lm_seq_id it.2 = Some (lm_byte_size it.2, lm_row_count it.2)).
  { intros it Hit. assert (Hm : it.2 ∈ meta) by (rewrite <- Hsnd; by apply list_elem_of_fmap_2).
    rewrite Forall_forall in Hok. rewrite Forall_forall in Hact.
    destruct (Hok _ Hm) as [E|?]; [|done]. destruct (Hact _ Hm) as [? ?]. congruence. }
  unfold requeue_at_head.
  pose proof (requeue_fold_queue charge committed att ra (reverse (zip payloads meta)) r false I) as Hq.
  assert (E : forall x, queue (let '(r', any) := foldl (requeue_one att ra) (r, false) (reverse (zip payloads meta)) in
    if any then r' <| inflight_leases := x r' |> else r') =
    queue (foldl (requeue_one att ra) (r, false) (reverse (zip payloads meta))).1).
  { intros x. destruct (foldl _ _ _) as [r' []]; done. }
  rewrite (E (fun r' => inflight_leases r' -s 1)), Hq.
  - by rewrite (reverse_Permutation (zip payloads meta)).
  - apply Forall_reverse, Forall_forall. intros it Hit _. by apply Hin.
  - change (NoDup ((fun it => lm_seq_id it.2) <$> reverse (zip payloads meta))).
    rewrite (reverse_Permutation (zip payloads meta)). rewrite <- Hsnd in Hnd. by rewrite map_map in Hnd.
  - apply Forall_reverse, Forall_forall. intros it Hit. by apply Hin.
Qed.
End Requeued.

(** Enough fuel for the eviction loop is the length of the queue. *)
Lemma record_evicted_queue {RB Sch Row} `{Arrow RB Sch Row} (r : SignalRing RB Sch) ev committed :
  queue (record_evicted_batch r ev committed).1.1 = queue r.
Proof.
  unfold record_evicted_batch, advance_watermark. destruct (is_on_disk _);
    destruct (release_evicted _ _ _ _); done.
Qed.

Lemma evict_loop_stops {RB Sch Row} `{Arrow RB Sch Row} fuel (r : SignalRing RB Sch) committed bytes budget rows :
  (length (queue r) <= fuel)%nat ->
  let r' := (evict_loop fuel r committed bytes budget rows).1.1 in
  can_admit r' bytes budget = true \/ queue r' = [] \/
  exists front rest, queue r' = front :: rest /\ front_is_pinned r' front = true.
Proof.
  revert r committed rows. induction fuel as [|fuel IH]; intros r committed rows Hf; cbn.
  { right. left. destruct (queue r); [done|cbn in Hf; lia]. }
  destruct (can_admit r bytes budget) eqn:Ea; [by left|].
  destruct (queue r) as [|front q] eqn:Eq; [right; by left|].
  destruct (front_is_pinned r front) eqn:Ep; [right; right; by eauto|].
  pose proof (record_evicted_queue (r <| queue := q |>) front committed) as Hq.
  destruct (record_evicted_batch _ _ _) as [[r1 c1] n1]. cbn in Hq. apply IH. rewrite Hq. cbn in *. lia.
Qed.

(** ** Properties *)

Section Properties.
Context {RB Sch Row : Type} `{Arrow RB Sch Row}.

(** C2 (buffer_invariant). In every reachable state and for every signal: each active sequence
    number lies strictly above the committed watermark, and it is either in
    the queue, in exactly one outstanding lease, or in exactly one outstanding
    append reservation, as its slot says; the queue is sorted; the lease counter
    counts the leases that still hold an active batch. *)
Theorem buffer_invariant M c (y : Sys RB Sch) s :
  config_ok c -> M <= usize_max -> reachable M c y ->
  let r := ring_of y s in
  let ls := leases_of s (leases y) in
  let ars := resvs_of s (resvs y) in
  (forall x st, slots r !! x = Some st ->
     committed_of y s < x < next_seq r /\
     match st with
     | Queued => x ∈ queue_seqs (queue r)
     | InFlight => exists l, l ∈ ls /\ x ∈ lease_seqs l
     | Reserved => exists a, a ∈ ars /\ ar_seq_id a = x
     end) /\
  NoDup (held_seqs ls ars) /\ StronglySorted seq_lt (queue r) /\
  (forall q, q ∈ queue r -> slots r !! qb_seq_id q = Some Queued) /\
  inflight_leases r = active_leases (slots r) ls.
Proof.
  intros Hok HM Hr r ls ars. destruct (reachable_inv _ _ _ Hok HM Hr) as [_ I].
  destruct (I s) as (charge & J & T & _ & _). unfold ls, ars, r, ring_of, committed_of. split_and!.
  - intros x st Hx. split; [apply (ri_bound _ _ _ _ _ J); eauto|]. destruct st.
    + apply (ti_reserved _ _ _ _ _ _ T) in Hx. apply list_elem_of_fmap in Hx as (a & -> & Ha). eauto.
    + by apply (ri_queued _ _ _ _ _ J).
    + apply (ti_inflight _ _ _ _ _ _ T), list_elem_of_concat in Hx as (xs & Hx & Hxs).
      apply list_elem_of_fmap in Hxs as (l & -> & Hl). eauto.
  - apply T.
  - apply J.
  - intros q Hq. by apply (ri_queue _ _ _ _ _ J).
  - apply T.
Qed.

(** C3 (byte_budget). In every reachable state the bytes charged to a signal, those still on
    disk after an eviction included, stay within its budget or within the one
    oversized batch an empty ring admits; the byte and row counters equal the
    charges of the active sequence numbers, and a signal never has more leases
    out than [max_inflight_leases]. *)
Theorem byte_budget M c (y : Sys RB Sch) s :
  config_ok c -> M <= usize_max -> reachable M c y ->
  let r := ring_of y s in
  bytes_in_flight r + unreclaimed_disk_bytes r <= N.max (per_signal_budget c) M /\
  inflight_leases r <= max_inflight_leases c /\
  exists charge : gmap N (N * N),
    (forall x, is_Some (slots r !! x) <-> is_Some (charge !! x)) /\
    bytes_in_flight r = sum_map fst charge /\ rows_in_flight r = sum_map snd charge /\
    (forall q, q ∈ queue r -> charge !! qb_seq_id q = Some (qb_byte_size q, qb_row_count q)) /\
    (forall l it, l ∈ leases y -> l_signal l = s -> it ∈ l_meta l -> is_Some (slots r !! lm_seq_id it) ->
       charge !! lm_seq_id it = Some (lm_byte_size it, lm_row_count it)).
Proof.
  intros Hok HM Hr r. destruct (reachable_inv _ _ _ Hok HM Hr) as [_ I].
  destruct (I s) as (charge & J & T & Hl & Hh). unfold r, ring_of. split_and!; [done..|].
  exists charge. split_and!.
  - apply J.
  - apply (ri_bytes _ _ _ _ _ J).
  - apply (ri_rows _ _ _ _ _ J).
  - intros q Hq. by apply (ri_queue _ _ _ _ _ J).
  - intros l it Hin Hs Hit [st Hst]. pose proof (ti_leases _ _ _ _ _ _ T) as F.
    rewrite Forall_forall in F. destruct (F l) as [F' _].
    { unfold leases_of. by apply list_elem_of_filter. }
    rewrite Forall_forall in F'. destruct (F' it Hit) as [E|[_ ?]]; [congruence|done].
Qed.

(** C1 (no_silent_loss). A step never moves a watermark back, and a batch that was admitted
    stops being active only by being acknowledged, by a Rejected nack at
    [max_attempts] whose dead-letter write succeeded, by DropOldest eviction
    while queued, by its own append failing or being abandoned, or by the Discard
    policy at the drain timeout.  In particular transient and fatal failures, an
    unacknowledged lease dropped, and a failed dead-letter write keep it. *)
Theorem no_silent_loss M c (y : Sys RB Sch) e y' s :
  config_ok c -> M <= usize_max -> reachable M c y -> step M y e y' ->
  committed_of y s <= committed_of y' s /\
  forall x, is_Some (slots (ring_of y s) !! x) -> slots (ring_of y' s) !! x = None ->
    resolution c y e s x.
Proof.
  intros Hok HM Hr Hs. pose proof (reachable_inv _ _ _ Hok HM Hr) as I.
  destruct (step_preserves _ _ _ _ _ I Hok HM Hs) as [_ Hstep]. destruct (Hstep s) as [Hm Hx].
  split; [done|]. intros x Hsome Hnone. destruct (Hx x Hsome) as [[? ?]|?]; [congruence|done].
Qed.

(** Once the queue of a signal is empty and every lease and append
    reservation of it is resolved, nothing remains charged, and the consumer
    is told the signal is drained exactly when its senders are gone. *)
Theorem released_signal_drains M c (y : Sys RB Sch) s now :
  config_ok c -> M <= usize_max -> reachable M c y ->
  leases_of s (leases y) = [] -> resvs_of s (resvs y) = [] -> queue (ring_of y s) = [] ->
  slots (ring_of y s) = ∅ /\ bytes_in_flight (ring_of y s) = 0 /\ rows_in_flight (ring_of y s) = 0 /\
  inflight_leases (ring_of y s) = 0 /\
  try_pop_signal_lease (buf y) s now = (None, None, closed (ring_of y s), buf y).
Proof.
  intros Hok HM Hr Hls Hars Hq. destruct (reachable_inv _ _ _ Hok HM Hr) as [_ I].
  destruct (I s) as (charge & J & T & Hl & Hh). rewrite Hls, Hars in T. unfold ring_of in *.
  set (r := ring (sget (rings (buf y)) s)) in *.
  assert (Hs : slots r = ∅).
  { apply map_eq. intros x. rewrite lookup_empty. destruct (slots r !! x) as [[]|] eqn:E; [| | |done].
    - apply (ti_reserved _ _ _ _ _ _ T) in E. by apply not_elem_of_nil in E.
    - apply (ri_queued _ _ _ _ _ J) in E. rewrite Hq in E. by apply not_elem_of_nil in E.
    - apply (ti_inflight _ _ _ _ _ _ T) in E. by apply not_elem_of_nil in E. }
  assert (Hc : charge = ∅).
  { apply map_eq. intros x. rewrite lookup_empty. apply eq_None_not_Some.
    rewrite <- (ri_dom _ _ _ _ _ J), Hs, lookup_empty. by intros [? ?]. }
  assert (Hin : inflight_leases r = 0) by apply (ti_count _ _ _ _ _ _ T).
  split_and!; [done | rewrite (ri_bytes _ _ _ _ _ J); by rewrite Hc | rewrite (ri_rows _ _ _ _ _ J); by rewrite Hc | done |].
  unfold try_pop_signal_lease. fold r. unfold signal_drained. rewrite Hq, Hs, Hin.
  rewrite !bool_decide_eq_true_2, !N.eqb_refl, !andb_true_r by done. by destruct (_ <=? _).
Qed.

(** A lease is a prefix of the queue: consecutive sequence numbers from
    [first_seq] to [last_seq], all with the same attempt and schema and past
    their back-off, with no reservation below it; its byte size and row count are
    the sums over its entries, and a lease of more than one batch respects
    [max_batch_size_bytes] and [max_batch_records]. *)
Theorem lease_coalescing (b : BufferInner RB Sch) signal now charge committed l d dr b' :
  ring_inv charge committed (ring (sget (rings b) signal)) ->
  next_seq (ring (sget (rings b) signal)) <= u64_max ->
  try_pop_signal_lease b signal now = (Some l, d, dr, b') ->
  let r := ring (sget (rings b) signal) in
  exists n q0, let p := take n (queue r) in
    l = lease_of b signal p now /\ head p = Some q0 /\
    contiguous_from (id_first_seq (l_id l)) (lease_seqs l) /\
    id_last_seq (l_id l) = id_first_seq (l_id l) + N.of_nat (length (l_meta l)) - 1 /\
    Forall (joins now (l_attempt l) (payload_schema (qb_payload q0))) p /\
    (forall x, x < id_first_seq (l_id l) -> slots r !! x <> Some Reserved) /\
    l_byte_size l = sum_N lm_byte_size (l_meta l) /\ l_num_rows l = sum_N lm_row_count (l_meta l) /\
    (length (l_meta l) = 1%nat \/ within_limits (bi_config b) (l_byte_size l) (l_num_rows l)).
Proof.
  intros I Hn Eq r. fold r in I, Hn. destruct (try_pop_prefix _ _ _ _ _ _ _ _ _ I Hn Eq)
    as (k & front & rest & Hq & El & Her & Hrd & Hc & Hj & Hk). fold r in Hq, Her.
  exists (S k), front. rewrite Hq. cbn [take]. destruct (queue_sums _ _ _ I) as [Sb Sr]. rewrite Hq in Sb, Sr.
  destruct (lease_of_sums b signal front k rest now Sb Sr) as (E1 & E2 & E3 & E4 & E5).
  rewrite <- El in E1, E2, E3, E4, E5. set (p := take k rest) in *.
  assert (Hcf : contiguous_from (qb_seq_id front) (queue_seqs (front :: p))) by done.
  assert (Efirst : id_first_seq (l_id l) = qb_seq_id front) by by rewrite El.
  assert (Hlen : length (l_meta l) = S (length p)) by (rewrite El; simpl; by rewrite length_map).
  split_and!; try done.
  - rewrite Efirst, El, lease_seqs_of. done.
  - rewrite Efirst, E3, (contiguous_last _ 0 _ Hcf), Hlen by done. unfold queue_seqs. by rewrite length_map.
  - rewrite El. constructor; [|done]. split_and!; [done..|]. destruct (qb_ready_at front); [|done].
    by apply N.ltb_ge in Hrd.
  - intros x Hx Hres. rewrite Efirst in Hx. by apply (has_earlier_reserved_false _ _ Her x).
  - destruct Hk as [->|Hk]; [left; by rewrite Hlen | right; by rewrite E4, E5].
Qed.

(** When a lease slot is free and no reservation precedes the head of the
    queue, the consumer gets a lease starting with the head, or a deadline that
    is still in the future: the head's back-off, or its flush deadline when it is
    a first attempt of an open ring with no blocked sender.  So a batch waits
    for nothing else, and never past that deadline. *)
Theorem flush_deadline (b : BufferInner RB Sch) signal now front rest :
  let rs := sget (rings b) signal in
  inflight_leases (ring rs) < max_inflight_leases (bi_config b) ->
  queue (ring rs) = front :: rest -> has_earlier_reserved (ring rs) (qb_seq_id front) = false ->
  match try_pop_signal_lease b signal now with
  | (Some l, _, _, _) =>
      head (l_meta l) = Some (meta_of front) /\ head (l_payloads l) = Some (qb_payload front) /\
      forall t, qb_ready_at front = Some t -> t <= now
  | (None, d, drained, b') =>
      b' = b /\ drained = false /\ exists t, d = Some t /\ now < t /\
      (qb_ready_at front = Some t \/
       (t = qb_enqueued_at front + max_batch_interval_sec (bi_config b) * nanos_per_sec /\
        qb_attempt front = 0 /\ closed (ring rs) = false /\ blocked_senders rs = 0 /\
        max_batch_interval_sec (bi_config b) <> 0))
  end.
Proof.
  intros rs Hlt Hq Her. unfold try_pop_signal_lease. fold rs. apply N.leb_gt in Hlt. rewrite Hlt, Hq, Her.
  destruct (match qb_ready_at front with Some t => now <? t | None => false end) eqn:Erd.
  { destruct (qb_ready_at front) as [t|] eqn:Et; [|done]. apply N.ltb_lt in Erd. split_and!; try done. eauto. }
  destruct (coalesce_scan _ _ _ _ _ _ _ _ _ _) as [[[n by'] ro] bd] eqn:Ec.
  apply coalesce_count_bounds in Ec.
  match goal with |- context [if ?g then _ else _] => destruct g eqn:Eg end.
  - rewrite !andb_true_iff, !negb_true_iff in Eg. destruct Eg as (((((((E1 & E2) & E3) & _) & _) & _) & E4) & E5).
    split_and!; try done. eexists. split; [done|]. apply N.ltb_lt in E5. split; [done|]. right.
    apply N.eqb_eq in E3. apply N.ltb_ge in E4. apply N.eqb_neq in E1. split_and!; try done. lia.
  - destruct n as [|n]; [lia|]. cbn [pop_batches]. rewrite Hq. cbn [app].
    assert (Hp : forall m r ps, exists r' q, pop_batches m r (front :: ps) = (r', front :: q)).
    { clear. intros m. induction m as [|m IH]; intros r ps; cbn; [by eauto|].
      destruct (queue r); [by eauto|]. apply (IH _ (ps ++ [_])). }
    match goal with |- context [pop_batches n ?r0 _] => destruct (Hp n r0 []) as (r' & q & ->) end.
    unfold lease_of. cbn. split_and!; [done..|]. intros t Et. rewrite Et in Erd. by apply N.ltb_ge in Erd.
Qed.

(** A transient nack within the retry budget puts every batch of the
    lease back in the queue, in sequence order, as the same payload and charge
    with the attempt counter incremented, the first failure time kept or set,
    and a back-off of [initial_backoff_ms * 2^min(attempt,16)] capped by
    [max_backoff_sec]. *)
Theorem nack_transient_redelivers M (b : BufferInner RB Sch) l ls ars now t :
  let c := bi_config b in
  let rs := sget (rings b) (l_signal l) in
  signal_inv M c rs (l :: ls) ars ->
  Forall (fun m => is_Some (slots (ring rs) !! lm_seq_id m)) (l_meta l) ->
  transient_expired c (start_streak rs (N.max t 1)) (map (mark_failed_at now) (l_meta l)) now (N.max t 1) = false ->
  initial_backoff_ms c * 65536 <= u64_max -> max_backoff_sec c * 1000 <= u64_max ->
  let r' := ring (sget (rings (nack_transient b l now t)) (l_signal l)) in
  let backoff := N.min (initial_backoff_ms c * 2 ^ N.min (l_attempt l) 16) (max_backoff_sec c * 1000) in
  let ready_at := if 0 <? backoff then Some (now + backoff * nanos_per_ms) else None in
  queue r' ≡ₚ map (requeued (l_attempt l +u32 1) ready_at)
                 (zip (l_payloads l) (map (mark_failed_at now) (l_meta l))) ++ queue (ring rs) /\
  StronglySorted seq_lt (queue r').
Proof.
  intros c rs Hinv Hact Hexp Hi Hm r' backoff ready_at.
  assert (Hbo : backoff_ms c (l_attempt l) = backoff).
  { unfold backoff_ms, backoff, sat_mul.
    assert (2 ^ N.min (l_attempt l) 16 <= 65536).
    { change 65536 with (2 ^ 16). apply N.pow_le_mono_r; lia. }
    assert (initial_backoff_ms c * 2 ^ N.min (l_attempt l) 16 <= initial_backoff_ms c * 65536)
      by by apply N.mul_le_mono_l.
    lia. }
  destruct (start_streak_core rs (N.max t 1)) as [K1 K2].
  assert (Er : r' = requeue_at_head (ring rs) (l_payloads l) (map (mark_failed_at now) (l_meta l))
    (l_attempt l +u32 1) ready_at).
  { unfold r', nack_transient. fold c. fold rs. rewrite Hexp. unfold requeue_lease. rewrite !sget_upd, !decide_True by done.
    cbn [ring]. by rewrite Hbo, <- K1. }
  destruct Hinv as (charge & I & T & _). pose proof (ti_leases _ _ _ _ _ _ T) as F.
  apply Forall_cons in F as [[Fm Fl] _]. destruct (same_keys_spec _ _ (mark_failed_keys now (l_meta l))) as (L1 & L2 & _ & L4).
  rewrite Er. split.
  - eapply requeue_at_head_queue; [exact I | by apply L4 | rewrite L2 | by rewrite L1 |].
    + pose proof (ti_nodup _ _ _ _ _ _ T) as Hnd. rewrite held_seqs_cons_lease in Hnd. by apply NoDup_app in Hnd as [? _].
    + rewrite Forall_fmap. eapply Forall_impl; [exact Hact|]. done.
  - eapply requeue_at_head_inv; [exact I|]. rewrite Forall_forall. intros it Hit Hs.
    assert (Hin : it.2 ∈ map (mark_failed_at now) (l_meta l)).
    { rewrite <- (snd_zip (l_payloads l) (map (mark_failed_at now) (l_meta l))) by lia. by apply list_elem_of_fmap_2. }
    pose proof (L4 _ _ Fm) as F'. rewrite Forall_forall in F'. destruct (F' _ Hin) as [?|[_ ?]]; congruence.
Qed.

(** What one pass of a send decides.  It fails exactly when the buffer or the
    ring has failed or is closed.  Otherwise, under Block it evicts nothing and
    waits exactly when the batch does not fit; an empty ring with nothing charged
    admits any batch; and under DropOldest it waits only when nothing queued can
    be evicted: the queue is empty, or its head is pinned on disk by an earlier
    active batch. *)
Theorem send_outcome (b : BufferInner RB Sch) signal bytes rows mem active now t :
  let c := bi_config b in
  let rs := sget (rings b) signal in
  let '(out, _, b') := reserve_attempt b signal bytes rows mem active now t in
  let r' := ring (sget (rings b') signal) in
  ((exists e, out = SendFailed e) <->
   is_Some (fatal_error b) \/ is_Some (ring_fatal_error (ring rs)) \/
   receiver_dropped (ring rs) = true \/ closed (ring rs) = true) /\
  (out = SendBlocked ->
   can_admit (ring rs) bytes (per_signal_budget c) = false /\
   match overflow_policy c with
   | Block => queue r' = queue (ring rs) /\ slots r' = slots (ring rs)
   | DropOldest => queue r' = [] \/
       exists front rest, queue r' = front :: rest /\ front_is_pinned r' front = true
   end) /\
  (queue (ring rs) = [] -> held_bytes (ring rs) = 0 -> out <> SendBlocked).
Proof.
  intros c rs. unfold reserve_attempt. fold c. fold rs.
  destruct (fatal_error b) as [e|]; [split_and!; [split; eauto | done | done]|].
  destruct (ring_fatal_error (ring rs)) as [e|]; [split_and!; [split; eauto | done | done]|].
  destruct (receiver_dropped (ring rs)) eqn:Erd; [cbn; split_and!; [split; eauto | done | done]|].
  destruct (closed (ring rs)) eqn:Ecl; [cbn; split_and!; [split; eauto | done | done]|]. cbn [orb].
  set (ev := match overflow_policy c with Block => _ | DropOldest => _ end).
  assert (Hev : match overflow_policy c with
    | Block => ev.1.1 = ring rs
    | DropOldest => (can_admit (ring rs) bytes (per_signal_budget c) = true -> ev.1.1 = ring rs) /\
        (can_admit ev.1.1 bytes (per_signal_budget c) = true \/ queue ev.1.1 = [] \/
         exists front rest, queue ev.1.1 = front :: rest /\ front_is_pinned ev.1.1 front = true) end).
  { subst ev. destruct (overflow_policy c); [done|]. split; [|by apply evict_loop_stops].
    intros Ha. destruct (queue (ring rs)) as [|f q] eqn:E; [done|]. cbn. by rewrite Ha. }
  clearbody ev. destruct ev as [[r cm] er]. cbn [fst] in Hev.
  set (b1 := if 0 <? er then _ else _). clearbody b1.
  assert (Hadm : can_admit (ring rs) bytes (per_signal_budget c) = true -> can_admit r bytes (per_signal_budget c) = true).
  { intros Ha. destruct (overflow_policy c); [by subst r|]. destruct Hev as [He _]. by rewrite He. }
  destruct (can_admit r bytes (per_signal_budget c)) eqn:Ea.
  - assert (Hf : forall o : option N, (exists e, SendAdmitted o = SendFailed e) <->
      is_Some (None : option string) \/ is_Some (None : option string) \/ false = true \/ false = true).
    { intros o. split; [by intros [? ?] | intros [[? ?]|[[? ?]|[?|?]]]; done]. }
    destruct mem as [rb|]; match goal with |- context [mark_admitted ?a ?x ?y] => destruct (mark_admitted a x y) end;
      (split_and!; [apply Hf | done | done]).
  - pose proof (mark_blocked_core (rs <| ring := r |> <| committed_seq := cm |>) active t) as Hm.
    destruct (mark_blocked _ _ _) as [rs2 act2]. destruct Hm as [Hm _].
    rewrite sget_upd, decide_True by done. rewrite Hm. cbn [ring].
    assert (Hna : can_admit (ring rs) bytes (per_signal_budget c) = false).
    { apply not_true_iff_false. intros Ha. apply Hadm in Ha. done. }
    split_and!.
    + split; [by intros [? ?] | intros [[? ?]|[[? ?]|[?|?]]]; done].
    + intros _. split; [done|]. destruct (overflow_policy c).
      * subst r. done.
      * destruct Hev as [_ [?|?]]; [congruence|done].
    + intros Hq Hh. unfold can_admit, held_bytes in Hna, Hh. rewrite Hq in Hna.
      assert (bytes_in_flight (ring rs) = 0) as E1 by lia. assert (unreclaimed_disk_bytes (ring rs) = 0) as E2 by lia.
      rewrite E1, E2 in Hna. done.
Qed.

(** At the drain timeout, Persist leaves every ring as it is for the next
    start; Discard empties them, moves each watermark to the last sequence
    number handed out, adds the dropped rows to the signal's counter, and
    always reports an error. *)
Theorem timeout_policies M (b : BufferInner RB Sch) ls ars reply res b' :
  sys_inv M (bi_config b) (mkSys b ls ars) -> finalize_shutdown_timeout b reply = (res, b') ->
  match effective_drain_policy (bi_config b) with
  | Persist => rings b' = rings b /\ (has_disk b = true -> writer_open b = true -> res = reply)
  | Discard =>
      (exists e, res = Err e) /\ forall s,
      let rs := sget (rings b) s in let rs' := sget (rings b') s in
      queue (ring rs') = [] /\ slots (ring rs') = ∅ /\ bytes_in_flight (ring rs') = 0 /\
      rows_in_flight (ring rs') = 0 /\ committed_seq rs' = next_seq (ring rs) - 1 /\
      (shutdown_timeout_drops rs < 2 ^ 64 ->
       shutdown_timeout_drops rs' = (shutdown_timeout_drops rs + rows_in_flight (ring rs)) mod 2 ^ 64)
  end.
Proof.
  intros [_ I] Eq. pose proof (finalize_rings _ _ _ _ Eq) as [Er _]. unfold finalized_buffer in Er.
  destruct (effective_drain_policy (bi_config b)) eqn:Ep.
  - split; [done|]. intros Hd Hw. unfold finalize_shutdown_timeout, flush_and_sync_watermark in Eq.
    rewrite Ep, Hd, Hw in Eq. congruence.
  - split.
    + unfold finalize_shutdown_timeout in Eq. rewrite Ep in Eq. destruct (discard_remaining_rings b).
      repeat case_match; simplify_eq; by eexists.
    + intros s. rewrite Er. destruct (discard_remaining_rings_spec b) as [_ ->].
      destruct (I s) as (charge & J & _). simpl in J. unfold discard_ring. pose proof (discard_inv _ _ _ J) as Hd.
      destruct (advance_watermark _ (committed_seq (sget (rings b) s))) as [r' c'].
      destruct Hd as (J' & -> & Hs & Hq & _ & _ & Hh). unfold held_bytes in Hh.
      pose proof (ri_rows _ _ _ _ _ J') as Hr. rewrite sum_map_empty in Hr.
      destruct (N.ltb_spec 0 (rows_in_flight (ring (sget (rings b) s)))) as [Hlt|Hge]; cbn; split_and!; try done; try lia.
      intros Hb. replace (rows_in_flight _) with 0 by lia. rewrite N.add_0_r. symmetry. by apply N.mod_small.
Qed.
End Properties.

(** ** A concrete run for the witnesses: two batches sent, one lease taken *)

#[local] Existing Instance Toy.arrow.

Module Demo.
Abbreviation demo_sys := (Sys Toy.batch N).

Definition demo_config : BufferConfig := default_config <| max_batch_records := Some 1 |>.

Definition b0 : BufferInner Toy.batch N := new_memory_buffer demo_config 7.
Definition b1 : BufferInner Toy.batch N :=
  (reserve_attempt b0 Logs 50 5 (Some (1, [1; 2; 3; 4; 5])) false 1000 1).2.
Definition b2 : BufferInner Toy.batch N :=
  (reserve_attempt b1 Logs 60 6 (Some (1, [1; 2; 3; 4; 5; 6])) false 2000 1).2.
Definition lease1 : Lease Toy.batch N := lease_of b2 Logs (take 1 (queue (ring (sget (rings b2) Logs)))) 3000.
Definition b3 : BufferInner Toy.batch N := (next_lease_pass b2 None 0 3000).2.
Definition b4 : BufferInner Toy.batch N := (lease_ack b3 lease1 (Ok tt)).2.

Definition q1 : QueuedBatch Toy.batch N := mkQueuedBatch 1 (InMemory (1, [1; 2; 3; 4; 5])) 50 5 1000 None 0 None.
Definition q2 : QueuedBatch Toy.batch N := mkQueuedBatch 2 (InMemory (1, [1; 2; 3; 4; 5; 6])) 60 6 2000 None 0 None.

Abbreviation y0 := (mkSys b0 [] []).
Abbreviation y2 := (mkSys b2 [] [] : demo_sys).
Abbreviation y3 := (mkSys b3 [lease1] [] : demo_sys).
Abbreviation y4 := (mkSys b4 [] [] : demo_sys).

Lemma config_ok_demo : config_ok demo_config.
Proof. by split; vm_compute. Qed.

Lemma initial_demo : initial 1000 demo_config y0.
Proof.
  split_and!; [done..|]. intros s. unfold ring_of, committed_of.
  change (sget (rings (buf y0)) s) with (sget (pconst (new_ring_state : SignalRingState Toy.batch N)) s). rewrite sget_pconst.
  split_and!; [exists ∅; apply ring_inv_new | | done | by vm_compute].
  intros x st. simpl. by rewrite lookup_empty.
Qed.

Lemma reach2 : reachable 1000 demo_config y2.
Proof.
  assert (R1 : reachable 1000 demo_config (mkSys b1 [] [])).
  { eapply reach_step; [apply reach_initial, initial_demo|].
    apply (step_send 1000 b0 [] [] Logs 50 5 (Some (1, [1; 2; 3; 4; 5])) false 1000 1 (SendAdmitted None) false b1 0 0);
      by vm_compute. }
  eapply reach_step; [exact R1|].
  apply (step_send 1000 b1 [] [] Logs 60 6 (Some (1, [1; 2; 3; 4; 5; 6])) false 2000 1 (SendAdmitted None) false b2 0 0);
    by vm_compute.
Qed.

Lemma reach3 : reachable 1000 demo_config y3.
Proof.
  eapply reach_step; [exact reach2|]. apply (step_leased 1000 b2 [] [] None 0 1 3000 lease1 b3). by vm_compute.
Qed.

Lemma step4 : step 1000 y3 (EAcked lease1) y4.
Proof. eapply (step_acked 1000 b3 [lease1] [] lease1 [] (Ok tt) (Ok 5) b4); [done|]. by vm_compute. Qed.

Lemma reach4 : reachable 1000 demo_config y4.
Proof. eapply reach_step; [exact reach3 | exact step4]. Qed.
End Demo.

Lemma buffer_invariant_witness :
  (forall x st, slots (ring_of Demo.y3 Logs) !! x = Some st -> 0 < x < 3) /\
  exists l, l ∈ [Demo.lease1] /\ 1 ∈ lease_seqs l.
Proof.
  pose proof (buffer_invariant 1000 Demo.demo_config Demo.y3 Logs Demo.config_ok_demo ltac:(by vm_compute) Demo.reach3)
    as (Hx & _). split.
  - intros x st E. destruct (Hx x st E) as [Hb _]. exact Hb.
  - destruct (Hx 1 InFlight ltac:(by vm_compute)) as [_ Hl]. exact Hl.
Defined.

Lemma byte_budget_witness :
  bytes_in_flight (ring_of Demo.y3 Logs) + unreclaimed_disk_bytes (ring_of Demo.y3 Logs)
    <= N.max (per_signal_budget Demo.demo_config) 1000 /\
  inflight_leases (ring_of Demo.y3 Logs) <= max_inflight_leases Demo.demo_config.
Proof.
  destruct (byte_budget 1000 Demo.demo_config Demo.y3 Logs Demo.config_ok_demo ltac:(by vm_compute) Demo.reach3)
    as (H1 & H2 & _). by split.
Defined.

Lemma no_silent_loss_witness :
  committed_of Demo.y3 Logs <= committed_of Demo.y4 Logs /\
  resolution Demo.demo_config Demo.y3 (EAcked Demo.lease1) Logs 1.
Proof.
  destruct (no_silent_loss 1000 Demo.demo_config Demo.y3 (EAcked Demo.lease1) Demo.y4 Logs Demo.config_ok_demo
    ltac:(by vm_compute) Demo.reach3 Demo.step4) as [H1 H2].
  split; [exact H1|]. apply H2; [eexists; by vm_compute | by vm_compute].
Defined.

Lemma released_signal_drains_witness :
  slots (ring_of Demo.y0 Traces) = ∅ /\
  try_pop_signal_lease (buf Demo.y0) Traces 5 = (None, None, false, buf Demo.y0).
Proof.
  destruct (released_signal_drains 1000 Demo.demo_config Demo.y0 Traces 5 Demo.config_ok_demo ltac:(by vm_compute)
    (reach_initial _ _ _ Demo.initial_demo) eq_refl eq_refl eq_refl) as (H1 & _ & _ & _ & H2).
  by split.
Defined.

Lemma demo_b2_inv : exists charge, ring_inv charge 0 (ring (sget (rings Demo.b2) Logs)).
Proof.
  destruct (reachable_inv 1000 Demo.demo_config Demo.y2 Demo.config_ok_demo ltac:(by vm_compute) Demo.reach2) as [_ I].
  destruct (I Logs) as (charge & J & _). exists charge.
  assert (E : committed_seq (sget (rings (buf Demo.y2)) Logs) = 0) by by vm_compute.
  rewrite E in J. exact J.
Qed.

Lemma lease_coalescing_witness :
  exists n q0, head (take n (queue (ring (sget (rings Demo.b2) Logs)))) = Some q0 /\
    contiguous_from 1 (lease_seqs Demo.lease1).
Proof.
  destruct demo_b2_inv as [charge I].
  destruct (lease_coalescing Demo.b2 Logs 3000 charge 0 Demo.lease1 None false
    (try_pop_signal_lease Demo.b2 Logs 3000).2 I ltac:(by vm_compute) ltac:(by vm_compute))
    as (n & q0 & _ & H1 & H2 & _). exists n, q0. split; [exact H1 | exact H2].
Defined.

Lemma flush_deadline_witness :
  exists l, try_pop_signal_lease Demo.b2 Logs 3000 = (Some l, None, false, Demo.b3) /\
    head (l_meta l) = Some (meta_of Demo.q1).
Proof.
  assert (E : try_pop_signal_lease Demo.b2 Logs 3000 = (Some Demo.lease1, None, false, Demo.b3)) by by vm_compute.
  pose proof (flush_deadline Demo.b2 Logs 3000 Demo.q1 [Demo.q2] ltac:(by vm_compute) ltac:(by vm_compute)
    ltac:(by vm_compute)) as F.
  rewrite E in F. exists Demo.lease1. split; [exact E | exact (proj1 F)].
Defined.

Lemma demo_sys_inv : sys_inv 1000 (bi_config Demo.b3) Demo.y3.
Proof.
  assert (E : bi_config Demo.b3 = Demo.demo_config) by by vm_compute. rewrite E.
  exact (reachable_inv 1000 Demo.demo_config Demo.y3 Demo.config_ok_demo ltac:(by vm_compute) Demo.reach3).
Qed.

Lemma demo_signal_inv :
  signal_inv 1000 (bi_config Demo.b3) (sget (rings Demo.b3) (l_signal Demo.lease1)) [Demo.lease1] [].
Proof.
  pose proof (sys_signal_inv _ _ _ _ _ Logs demo_sys_inv) as I.
  assert (E1 : leases_of Logs [Demo.lease1] = [Demo.lease1]) by by vm_compute.
  assert (E0 : resvs_of Logs ([] : list (AppendReservation N)) = []) by by vm_compute.
  rewrite E1, E0 in I. assert (E2 : l_signal Demo.lease1 = Logs) by by vm_compute. rewrite E2. exact I.
Qed.

Lemma nack_transient_redelivers_witness :
  StronglySorted seq_lt (queue (ring (sget (rings (nack_transient Demo.b3 Demo.lease1 4000 1)) Logs))).
Proof.
  apply (nack_transient_redelivers 1000 Demo.b3 Demo.lease1 [] [] 4000 1).
  - exact demo_signal_inv.
  - constructor; [eexists; by vm_compute | constructor].
  - by vm_compute.
  - by vm_compute.
  - by vm_compute.
Defined.

Lemma timeout_policies_witness :
  (exists e, (finalize_shutdown_timeout Demo.b3 (Ok tt)).1 = Err e) /\
  committed_seq (sget (rings (finalize_shutdown_timeout Demo.b3 (Ok tt)).2) Logs) =
    next_seq (ring (sget (rings Demo.b3) Logs)) - 1.
Proof.
  pose proof (timeout_policies 1000 Demo.b3 [Demo.lease1] [] (Ok tt)
    (finalize_shutdown_timeout Demo.b3 (Ok tt)).1 (finalize_shutdown_timeout Demo.b3 (Ok tt)).2
    demo_sys_inv (surjective_pairing _)) as P.
  assert (E : effective_drain_policy (bi_config Demo.b3) = Discard) by by vm_compute.
  rewrite E in P. destruct P as [H1 H2]. split; [exact H1|].
  destruct (H2 Logs) as (_ & _ & _ & _ & H3 & _). exact H3.
Defined.
