(* ===== verification/DeadLetter.v ===== *)
(** The dead-letter store: crates/core/src/buffer/dead_letter.rs.

    The store's directory is a map of sink directories, each a map from file
    name to content, beside files lying directly in it.  The outcome of every
    fallible system call of one file write is a [FileFaults] argument.  JSON
    encoding of the manifest is serde's and a parameter; so is the IPC file
    writer ([ipc_file_encode]).  Directory syncs have no modelled effect. *)

From S2P Require Import Prelude Arrow Signal.
From stdpp Require Import pretty.
Local Open Scope N_scope.

(** ** Path components *)

Inductive Component :=
| RootDir
| CurDir
| ParentDir
| Normal (s : string).

Global Instance Component_eq_dec : EqDecision Component.
Proof. solve_decision. Defined.

Definition str_contains (c : Ascii.ascii) (s : string) : bool :=
  existsb (fun x => bool_decide (x = c)) (String.list_ascii_of_string s).

Definition slash : Ascii.ascii := Ascii.ascii_of_nat 47.
Definition backslash : Ascii.ascii := Ascii.ascii_of_nat 92.
Definition nul : Ascii.ascii := Ascii.zero.

(** Segments between separators. *)
Fixpoint split_on (c : Ascii.ascii) (s : string) : list string :=
  match s with
  | EmptyString => [EmptyString]
  | String x s =>
      if bool_decide (x = c) then EmptyString :: split_on c s
      else match split_on c s with
           | [] => [String x EmptyString]
           | seg :: segs => String x seg :: segs
           end
  end.

Definition segment_component (seg : string) : list Component :=
  if bool_decide (seg = "" \/ seg = ".")%string then []
  else if bool_decide (seg = "..")%string then [ParentDir] else [Normal seg].

(** [Path::components] on Unix: empty segments and inner dots disappear, a
    leading dot is kept. *)
Definition components (s : string) : list Component :=
  match split_on slash s with
  | [] => []
  | seg :: segs =>
      (if bool_decide (seg = "" /\ segs <> [])%string then [RootDir]
       else if bool_decide (seg = ".")%string then [CurDir] else segment_component seg)
      ++ concat (map segment_component segs)
  end.

Definition is_safe_path_component (val : string) : bool :=
  if bool_decide (val = "")%string || str_contains slash val || str_contains backslash val
     || str_contains nul val
  then false
  else match components val with Normal _ :: [] => true | _ => false end.

(** ** State *)

Record DeadLetterMetadata := mkDeadLetterMetadata {
  dlm_sink : string;
  dlm_signal : SignalType;
  dlm_first_seq : N;
  dlm_last_seq : N;
  dlm_row_count : N;
  dlm_attempts : N;
  dlm_reason : string;
  dlm_timestamp_unix_ms : N;
}.

Abbreviation dir_files := (gmap string bytes).

Record StoreFs := mkStoreFs { loose_files : dir_files; sink_dirs : gmap string dir_files }.

Record DeadLetterStore := mkDeadLetterStore {
  dls_max_bytes : N;
  dls_current_bytes : N;
  dls_file_seq : N;
}.

Global Instance DeadLetterStore_eta : RecordEta DeadLetterStore := fun s =>
  mkDeadLetterStore (dls_max_bytes s) (dls_current_bytes s) (dls_file_seq s).

(** Which system calls fail, and how much a failing write leaves behind. *)
Record FileFaults := mkFileFaults {
  ff_open : bool;
  ff_write : option nat;
  ff_sync : bool;
  ff_rename : bool;
  ff_cleanup : bool;
}.

Definition no_faults : FileFaults := mkFileFaults false None false false false.

Definition file_len (bs : bytes) : N := N.of_nat (length bs).

(** ** Quota *)

Inductive ReserveOutcome := Reserved_ (next : N) | QuotaExceeded (current : N) | StillTrying (current : N).

(** One turn of the loop of [reserve_bytes]: [current] is the value last loaded,
    [mem] the one in memory when [compare_exchange_weak] runs. *)
Definition cas_attempt (max_bytes added current mem : N) (spurious : bool) : ReserveOutcome :=
  let next := current +u64 added in
  if max_bytes <? next then QuotaExceeded current
  else if (mem =? current) && negb spurious then Reserved_ next else StillTrying mem.

(** The loop, over what each of its turns meets. *)
Fixpoint reserve_loop (max_bytes added current : N) (trace : list (N * bool)) : ReserveOutcome :=
  match trace with
  | [] => StillTrying current
  | (mem, spurious) :: trace =>
      match cas_attempt max_bytes added current mem spurious with
      | StillTrying actual => reserve_loop max_bytes added actual trace
      | o => o
      end
  end.

Definition reserve_bytes (s : DeadLetterStore) (added : N) : result unit PipelineError * DeadLetterStore :=
  match reserve_loop (dls_max_bytes s) added (dls_current_bytes s) [(dls_current_bytes s, false)] with
  | Reserved_ next => (Ok tt, s <| dls_current_bytes := next |>)
  | _ => (Err (Storage "dead-letter store quota exceeded"), s)
  end.

(** ** Writing *)

Definition tmp_name (file_name : string) (pid seq : N) : string :=
  (".tmp_" +:+ file_name +:+ "_" +:+ pretty pid +:+ "_" +:+ pretty seq)%string.

Definition cleanup (f : FileFaults) (name : string) (d : dir_files) : dir_files :=
  if ff_cleanup f then d else delete name d.

Definition write_file_atomic (pid : N) (d : dir_files) (file_name : string) (bs : bytes) (seq : N)
  (f : FileFaults) : result unit PipelineError * dir_files :=
  let tmp := tmp_name file_name pid seq in
  if ff_open f || bool_decide (is_Some (d !! tmp))
  then (Err (Storage "failed to create temporary dead-letter file"), d)
  else
    match ff_write f with
    | Some n =>
        (Err (Storage "failed to write temporary dead-letter file"), cleanup f tmp (<[tmp := take n bs]> d))
    | None =>
        let d1 := <[tmp := bs]> d in
        if ff_sync f then (Err (Storage "failed to sync temporary dead-letter file"), cleanup f tmp d1)
        else if ff_rename f then (Err (Storage "failed to rename"), cleanup f tmp d1)
        else (Ok tt, <[file_name := bs]> (delete tmp d1))
    end.

Definition base_stem (m : DeadLetterMetadata) : string :=
  (as_str (dlm_signal m) +:+ "_" +:+ pretty (dlm_first_seq m) +:+ "_" +:+ pretty (dlm_last_seq m)
   +:+ "_" +:+ pretty (dlm_timestamp_unix_ms m))%string.

Definition quarantine_stem (m : DeadLetterMetadata) (d : dir_files) (seq : N) : string :=
  if bool_decide (is_Some (d !! (base_stem m +:+ ".arrow")%string))
  then (base_stem m +:+ "_" +:+ pretty seq)%string else base_stem m.

Definition persist_pair (pid : N) (s : DeadLetterStore) (fs : StoreFs) (m : DeadLetterMetadata)
  (arrow_bytes json_bytes : bytes) (create_fails : bool) (fa fj : FileFaults) (remove_fails : bool)
  : result (string * string) PipelineError * DeadLetterStore * StoreFs :=
  if create_fails then (Err (Storage "failed to create sink dead-letter directory"), s, fs)
  else
    let d := default ∅ (sink_dirs fs !! dlm_sink m) in
    let put d := mkStoreFs (loose_files fs) (<[dlm_sink m := d]> (sink_dirs fs)) in
    let seq := dls_file_seq s in
    let s := s <| dls_file_seq := (dls_file_seq s + 1) mod (u64_max + 1) |> in
    let stem := quarantine_stem m d seq in
    let arrow_name := (stem +:+ ".arrow")%string in
    let json_name := (stem +:+ ".json")%string in
    match write_file_atomic pid d arrow_name arrow_bytes seq fa with
    | (Err e, d) => (Err e, s, put d)
    | (Ok _, d) =>
        match write_file_atomic pid d json_name json_bytes seq fj with
        | (Err e, d) => (Err e, s, put (if remove_fails then d else delete arrow_name d))
        | (Ok _, d) => (Ok (dlm_sink m, arrow_name), s, put d)
        end
    end.

Section Quarantine.
Context {RB Sch Row : Type} `{Arrow RB Sch Row}.
Context (manifest_json : DeadLetterMetadata -> option bytes).

Definition write_quarantine (pid : N) (s : DeadLetterStore) (fs : StoreFs) (m : DeadLetterMetadata)
  (batches : list RB) (create_fails : bool) (fa fj : FileFaults) (remove_fails : bool)
  : result (string * string) PipelineError * DeadLetterStore * StoreFs :=
  if negb (is_safe_path_component (dlm_sink m))
  then (Err (Storage "dead-letter sink name contains unsafe path components"), s, fs)
  else
    match batches with
    | [] => (Err (Storage "cannot quarantine empty RecordBatch slice to dead-letter store"), s, fs)
    | _ =>
        match ipc_file_encode batches with
        | None => (Err (ArrowErr "ipc file writer"), s, fs)
        | Some arrow_bytes =>
            match manifest_json m with
            | None => (Err (Storage "failed to serialize dead-letter manifest"), s, fs)
            | Some json_bytes =>
                let added := file_len arrow_bytes +u64 file_len json_bytes in
                match reserve_bytes s added with
                | (Err e, s) => (Err e, s, fs)
                | (Ok _, s) =>
                    match persist_pair pid s fs m arrow_bytes json_bytes create_fails fa fj remove_fails with
                    | (Ok path, s, fs) => (Ok path, s, fs)
                    | (Err e, s, fs) =>
                        (Err e, s <| dls_current_bytes :=
                           (dls_current_bytes s + (u64_max + 1) - added) mod (u64_max + 1) |>, fs)
                    end
                end
            end
        end
    end.
End Quarantine.

(** ** Startup scan *)

Definition pid_tag (pid : N) : string := ("_" +:+ pretty pid +:+ "_")%string.

Definition is_stale_tmp_file (pid : N) (name : string) : bool :=
  if negb (String.prefix ".tmp_" name) then false
  else negb (bool_decide (String.index 0 (pid_tag pid) name <> None)).

(** The total and what stays after the stale temporary files are removed; an
    undeletable one is skipped all the same. *)
Definition scan_files (pid : N) (d : dir_files) : N :=
  foldl (fun total '(name, bs) => if is_stale_tmp_file pid name then total else total +u64 file_len bs) 0
    (map_to_list d).

Definition remove_stale (pid : N) (d : dir_files) : dir_files :=
  filter (fun '(name, _) => is_stale_tmp_file pid name = false) d.

Definition scan_existing_bytes (pid : N) (fs : StoreFs) : N * StoreFs :=
  let total := scan_files pid (loose_files fs) in
  let total := foldl (fun total '(name, d) =>
    if is_stale_tmp_file pid name then total else total +u64 scan_files pid d) total (map_to_list (sink_dirs fs)) in
  (total, mkStoreFs (remove_stale pid (loose_files fs))
     (map_imap (fun name d => Some (if is_stale_tmp_file pid name then d else remove_stale pid d)) (sink_dirs fs))).

Definition new_store (pid : N) (fs : StoreFs) (max_bytes : N) : DeadLetterStore * StoreFs :=
  let '(existing, fs) := scan_existing_bytes pid fs in (mkDeadLetterStore max_bytes existing 1, fs).

Definition empty_fallback (max_bytes : N) : DeadLetterStore := mkDeadLetterStore max_bytes 0 1.

(** ** Safe components *)

Lemma str_contains_cons c x s :
  str_contains c (String x s) = (bool_decide (x = c) || str_contains c s)%bool.
Proof. done. Qed.

Lemma split_on_none c s : str_contains c s = false -> split_on c s = [s].
Proof.
  induction s as [|x s IH]; [done|]. rewrite str_contains_cons. intros [Hx Hs]%orb_false_iff.
  cbn. rewrite Hx, IH by done. done.
Qed.

Lemma components_single s :
  str_contains slash s = false -> (s <> "" -> s <> "." -> s <> ".." -> components s = [Normal s])%string.
Proof.
  intros Hs H1 H2 H3. unfold components. rewrite split_on_none by done.
  rewrite bool_decide_eq_false_2 by (by intros [? ?]). rewrite bool_decide_eq_false_2 by done.
  unfold segment_component. rewrite bool_decide_eq_false_2 by (by intros [?|?]).
  by rewrite bool_decide_eq_false_2.
Qed.

(** ** One file *)

Lemma write_file_atomic_spec pid d name bs seq f :
  match write_file_atomic pid d name bs seq f with
  | (Ok _, d') => d' = <[name := bs]> d
  | (Err _, d') => ff_cleanup f = false -> d' = d
  end.
Proof.
  unfold write_file_atomic, cleanup. set (tmp := tmp_name name pid seq).
  destruct (ff_open f); [done|]. case_bool_decide as Ht; [done|].
  assert (Hn : d !! tmp = None) by (by apply eq_None_not_Some).
  assert (Hd : forall x : bytes, delete tmp (<[tmp := x]> d) = d) by (intros x; by rewrite delete_insert_id).
  destruct (ff_write f); [intros ->; apply Hd|]. destruct (ff_sync f); [intros ->; apply Hd|].
  destruct (ff_rename f); [intros ->; apply Hd|]. by rewrite Hd.
Qed.

(** ** Totals *)

Definition map_total {V} (g : string * V -> N) (m : gmap string V) : N := sum_N g (map_to_list m).

Lemma map_total_insert {V} (g : string * V -> N) m k v :
  m !! k = None -> map_total g (<[k := v]> m) = g (k, v) + map_total g m.
Proof. intros Hk. unfold map_total. by rewrite (map_to_list_insert m k v Hk), sum_N_cons. Qed.

Lemma map_total_empty {V} (g : string * V -> N) : map_total g ∅ = 0.
Proof. unfold map_total. by rewrite map_to_list_empty. Qed.

Lemma map_total_overwrite {V} (g : string * V -> N) m k v w :
  m !! k = Some v -> map_total g (<[k := w]> m) + g (k, v) = g (k, w) + map_total g m.
Proof.
  intros Hk. rewrite <- (insert_delete_id m k v Hk) at 2.
  rewrite <- insert_delete_eq, !map_total_insert by apply lookup_delete_eq. lia.
Qed.

Lemma foldl_total {A} (p : A -> bool) (f : A -> N) l a :
  a <= u64_max ->
  foldl (fun t x => if p x then t else t +u64 f x) a l =
    N.min (a + sum_N (fun x => if p x then 0 else f x) l) u64_max.
Proof.
  revert a. induction l as [|x l IH]; intros a Ha; cbn [foldl].
  - cbn. lia.
  - rewrite sum_N_cons, IH; destruct (p x); unfold sat_add; lia.
Qed.

Lemma foldl_ext' {A B} (f g : B -> A -> B) l b : (forall b a, f b a = g b a) -> foldl f b l = foldl g b l.
Proof. intros E. revert b. induction l as [|a l IH]; intros b; cbn; [done|]. by rewrite E, IH. Qed.

Definition file_weight (pid : N) (x : string * bytes) : N :=
  if is_stale_tmp_file pid x.1 then 0 else file_len x.2.

Definition dir_weight (pid : N) (x : string * dir_files) : N :=
  if is_stale_tmp_file pid x.1 then 0 else N.min (map_total (file_weight pid) x.2) u64_max.

(** Bytes of the files a restart counts. *)
Definition stored_bytes (pid : N) (fs : StoreFs) : N :=
  map_total (file_weight pid) (loose_files fs) + map_total (dir_weight pid) (sink_dirs fs).

Lemma scan_files_total pid d : scan_files pid d = N.min (map_total (file_weight pid) d) u64_max.
Proof.
  unfold scan_files, map_total.
  rewrite (foldl_ext' _ (fun t (x : string * bytes) => if is_stale_tmp_file pid x.1 then t else t +u64 file_len x.2))
    by (by intros ? []).
  rewrite foldl_total by done. by rewrite N.add_0_l.
Qed.

Lemma scan_total pid fs : (scan_existing_bytes pid fs).1 = N.min (stored_bytes pid fs) u64_max.
Proof.
  unfold scan_existing_bytes, stored_bytes, map_total at 2. cbn [fst].
  rewrite (foldl_ext' _ (fun t (x : string * dir_files) => if is_stale_tmp_file pid x.1 then t else t +u64 scan_files pid x.2))
    by (by intros ? []).
  rewrite foldl_total; rewrite scan_files_total; [|lia].
  rewrite (sum_N_ext _ (dir_weight pid)); [lia|]. intros x _. unfold dir_weight. by rewrite scan_files_total.
Qed.

Lemma string_app_inj_l (s a b : string) : (s +:+ a = s +:+ b)%string -> a = b.
Proof. induction s as [|x s IH]; cbn; [done|]. intros [= E]. auto. Qed.

Lemma arrow_ne_json stem : (stem +:+ ".arrow" <> stem +:+ ".json")%string.
Proof. intros E. by apply string_app_inj_l in E. Qed.

Lemma stem_not_stale pid m d seq suffix :
  is_stale_tmp_file pid (quarantine_stem m d seq +:+ suffix)%string = false.
Proof.
  unfold quarantine_stem, base_stem, is_stale_tmp_file.
  case_bool_decide; by destruct (dlm_signal m).
Qed.

Lemma reserve_bytes_spec s added :
  match reserve_bytes s added with
  | (Ok _, s') => s' = s <| dls_current_bytes := dls_current_bytes s +u64 added |> /\
      dls_current_bytes s +u64 added <= dls_max_bytes s
  | (Err _, s') => s' = s
  end.
Proof.
  unfold reserve_bytes, reserve_loop, cas_attempt. rewrite N.eqb_refl. cbn [andb negb].
  destruct (N.ltb_spec (dls_max_bytes s) (dls_current_bytes s +u64 added)); [done|]. done.
Qed.

(** The directory of a sink. *)
Definition dir_of (fs : StoreFs) (sink : string) : dir_files := default ∅ (sink_dirs fs !! sink).

Lemma dir_of_insert l k d m : dir_of (mkStoreFs l (<[k := d]> m)) k = d.
Proof. unfold dir_of. cbn [sink_dirs]. by rewrite lookup_insert_eq. Qed.

Lemma dir_of_insert_ne fs l k k' d : k' <> k -> dir_of (mkStoreFs l (<[k := d]> (sink_dirs fs))) k' = dir_of fs k'.
Proof. intros Hne. unfold dir_of. cbn [sink_dirs]. by rewrite lookup_insert_ne by congruence. Qed.

Definition same_files (fs fs' : StoreFs) : Prop :=
  loose_files fs' = loose_files fs /\ forall sink, dir_of fs' sink = dir_of fs sink.

Lemma same_files_put fs sink d :
  d = dir_of fs sink -> same_files fs (mkStoreFs (loose_files fs) (<[sink := d]> (sink_dirs fs))).
Proof.
  intros ->. split; [done|]. intros k. unfold dir_of. cbn [sink_dirs].
  destruct (decide (k = sink)) as [->|Hne]; [by rewrite lookup_insert_eq | by rewrite lookup_insert_ne].
Qed.

Lemma persist_pair_spec pid s fs m ab jb cf fa fj :
  ff_cleanup fa = false -> ff_cleanup fj = false ->
  let d := dir_of fs (dlm_sink m) in
  let stem := quarantine_stem m d (dls_file_seq s) in
  d !! (stem +:+ ".arrow")%string = None ->
  let '(res, s', fs') := persist_pair pid s fs m ab jb cf fa fj false in
  dls_current_bytes s' = dls_current_bytes s /\ dls_max_bytes s' = dls_max_bytes s /\
  match res with
  | Ok path => path = (dlm_sink m, stem +:+ ".arrow")%string /\
      fs' = mkStoreFs (loose_files fs)
        (<[dlm_sink m := <[(stem +:+ ".json")%string := jb]> (<[(stem +:+ ".arrow")%string := ab]> d)]> (sink_dirs fs))
  | Err _ => same_files fs fs'
  end.
Proof.
  intros Ha Hj d stem Hfresh. unfold persist_pair. destruct cf; [done|].
  fold (dir_of fs (dlm_sink m)). fold d. fold stem.
  pose proof (write_file_atomic_spec pid d (stem +:+ ".arrow")%string ab (dls_file_seq s) fa) as Hw.
  destruct (write_file_atomic pid d _ ab _ fa) as [[[]|e] d1].
  2:{ rewrite (Hw Ha). split_and!; [done..|]. by apply same_files_put. }
  subst d1. pose proof (write_file_atomic_spec pid (<[(stem +:+ ".arrow")%string := ab]> d)
    (stem +:+ ".json")%string jb (dls_file_seq s) fj) as Hw.
  destruct (write_file_atomic pid _ (stem +:+ ".json")%string jb _ fj) as [[[]|e] d2].
  - subst d2. done.
  - rewrite (Hw Hj). split_and!; [done..|]. apply same_files_put. by rewrite delete_insert_id.
Qed.

(** ** Names

    What makes a stem fresh: the metadata's numbers hold no separator, so a
    name tells its parts. *)

Lemma str_contains_app c a b : str_contains c (a +:+ b)%string = str_contains c a || str_contains c b.
Proof.
  induction a as [|x a IH]; [done|]. change (String x a +:+ b)%string with (String x (a +:+ b))%string.
  by rewrite !str_contains_cons, IH, orb_assoc.
Qed.

Lemma str_contains_pretty c (n : N) :
  (forall x, pretty_N_char x <> c) -> str_contains c (pretty n) = false.
Proof.
  intros Hc. unfold pretty, pretty_N. destruct (decide (n = 0)).
  { rewrite str_contains_cons, bool_decide_eq_false_2; [done | apply (Hc 0)]. }
  assert (G : forall s, str_contains c s = false -> str_contains c (pretty_N_go n s) = false); [|by apply G].
  induction (N.lt_wf_0 n) as [x _ IH]. intros s Hs. destruct (decide (0 < x)).
  2:{ assert (x = 0) as -> by lia. by rewrite pretty_N_go_0. }
  rewrite pretty_N_go_step by done.
  assert (Hs' : str_contains c (String (pretty_N_char (x mod 10)) s) = false)
    by (rewrite str_contains_cons, bool_decide_eq_false_2; [done | apply Hc]).
  destruct (decide (x / 10 = 0)) as [->|]; [by rewrite pretty_N_go_0|]. apply IH; [by apply N.div_lt|done|done].
Qed.

Definition underscore : Ascii.ascii := Ascii.ascii_of_nat 95.
Definition dot : Ascii.ascii := Ascii.ascii_of_nat 46.

Lemma digit_not_underscore x : pretty_N_char x <> underscore.
Proof. destruct x as [|p]; [done|]. do 4 (destruct p as [p|p|]; try done). Qed.

Lemma digit_not_dot x : pretty_N_char x <> dot.
Proof. destruct x as [|p]; [done|]. do 4 (destruct p as [p|p|]; try done). Qed.

Lemma split_before c a b r r' :
  str_contains c a = false -> str_contains c b = false ->
  (a +:+ String c r = b +:+ String c r')%string -> a = b /\ r = r'.
Proof.
  revert b. induction a as [|x a IH]; intros [|y b]; rewrite ?str_contains_cons, ?orb_false_iff; cbn [String.append].
  - intros _ _ [= E]. done.
  - intros _ [Hy%bool_decide_eq_false _] [= E1 E2]. done.
  - intros [Hx%bool_decide_eq_false _] _ [= E1 E2]. done.
  - intros [_ Ha] [_ Hb] [= -> E]. by destruct (IH b Ha Hb E) as [-> ->].
Qed.

Lemma signal_no_underscore sig : str_contains underscore (as_str sig) = false.
Proof. by destruct sig. Qed.

Lemma number_no_underscore (n : N) : str_contains underscore (pretty n) = false.
Proof. apply str_contains_pretty, digit_not_underscore. Qed.

Lemma number_no_dot (n : N) : str_contains dot (pretty n) = false.
Proof. apply str_contains_pretty, digit_not_dot. Qed.

Definition extension (e : string) : Prop := e = ".arrow"%string \/ e = ".json"%string.

(** The parts of a name after its stem's first three: the timestamp, and the
    number a taken stem gets. *)
Lemma base_stem_tail m m' r r' :
  (base_stem m +:+ r = base_stem m' +:+ r')%string ->
  (pretty (dlm_timestamp_unix_ms m) +:+ r = pretty (dlm_timestamp_unix_ms m') +:+ r')%string.
Proof.
  unfold base_stem. rewrite <- !string_app_assoc. intros E.
  do 3 (apply split_before in E as [_ E]; [|first [apply signal_no_underscore | apply number_no_underscore]..]).
  exact E.
Qed.

Lemma numbered_inj m m' (k k' : N) e e' : extension e -> extension e' ->
  (base_stem m +:+ "_" +:+ pretty k +:+ e = base_stem m' +:+ "_" +:+ pretty k' +:+ e')%string -> k = k' /\ e = e'.
Proof.
  intros He He' E%base_stem_tail. apply split_before in E as [_ E]; [|apply number_no_underscore..].
  assert (D : forall e, extension e -> exists r, e = String dot r) by (intros ? [->| ->]; by eexists).
  destruct (D e He) as [r ->], (D e' He') as [r' ->].
  apply split_before in E as [E1 E2]; [|apply number_no_dot..]. subst r'. split; [|done].
  by apply (inj pretty) in E1.
Qed.

Lemma plain_ne_numbered m m' (k : N) e e' : extension e ->
  (base_stem m +:+ e <> base_stem m' +:+ "_" +:+ pretty k +:+ e')%string.
Proof.
  intros He E%base_stem_tail. apply (f_equal (str_contains underscore)) in E.
  rewrite !str_contains_app, !number_no_underscore in E. by destruct He as [->| ->].
Qed.

Lemma plain_inj m m' e e' : extension e -> extension e' ->
  (base_stem m +:+ e = base_stem m' +:+ e')%string -> e = e'.
Proof.
  intros He He' E%base_stem_tail.
  assert (D : forall e, extension e -> exists r, e = String dot r) by (intros ? [->| ->]; by eexists).
  destruct (D e He) as [r ->], (D e' He') as [r' ->].
  by apply split_before in E as [_ ->]; [|apply number_no_dot..].
Qed.

Lemma plain_stem_inj m m' e : extension e ->
  (base_stem m +:+ e = base_stem m' +:+ e)%string -> base_stem m = base_stem m'.
Proof.
  intros He E. apply (f_equal String.list_ascii_of_string) in E.
  assert (L : forall a b, String.list_ascii_of_string (a +:+ b)%string =
    String.list_ascii_of_string a ++ String.list_ascii_of_string b)
    by (induction a as [|x a IH]; intros b; [done|]; exact (f_equal (cons x) (IH b))).
  rewrite !L in E. apply app_inv_tail in E.
  apply (f_equal String.string_of_list_ascii) in E. by rewrite !String.string_of_list_ascii_of_string in E.
Qed.

(** A directory no file of which, among those stamped from [since] on, has a
    number the store has yet to draw, nor a manifest without its payload. *)
Record numbered_dir (since seq : N) (d : dir_files) : Prop := {
  undrawn : forall m k e, since <= dlm_timestamp_unix_ms m -> seq <= k -> extension e ->
    d !! (base_stem m +:+ "_" +:+ pretty k +:+ e)%string = None;
  paired : forall m, since <= dlm_timestamp_unix_ms m ->
    d !! (base_stem m +:+ ".arrow")%string = None -> d !! (base_stem m +:+ ".json")%string = None;
}.

Definition numbered (since : N) (s : DeadLetterStore) (fs : StoreFs) : Prop :=
  forall sink, numbered_dir since (dls_file_seq s) (dir_of fs sink).

Lemma numbered_dir_mono since seq seq' d : seq <= seq' -> numbered_dir since seq d -> numbered_dir since seq' d.
Proof. intros Hle [A B]. split; [|done]. intros m k e Hm Hk. apply A; [done|lia]. Qed.

(** The stem a quarantine takes is fresh for both of its files, and keeps the
    directory numbered. *)
Lemma quarantine_stem_fresh since seq d m e :
  numbered_dir since seq d -> since <= dlm_timestamp_unix_ms m -> extension e ->
  d !! (quarantine_stem m d seq +:+ e)%string = None.
Proof.
  intros [A B] Hm He. unfold quarantine_stem. case_bool_decide as Ht.
  - rewrite <- !string_app_assoc. apply A; [done|lia|done].
  - apply eq_None_not_Some in Ht. destruct He as [->| ->]; [done | by apply B].
Qed.

Lemma numbered_dir_put since seq d m ab jb :
  numbered_dir since seq d -> since <= dlm_timestamp_unix_ms m ->
  let stem := quarantine_stem m d seq in
  numbered_dir since (seq + 1) (<[(stem +:+ ".json")%string := jb]> (<[(stem +:+ ".arrow")%string := ab]> d)).
Proof.
  intros [A B] Hm. cbn zeta. unfold quarantine_stem. case_bool_decide as Ht; rewrite <- ?string_app_assoc.
  - split.
    + intros m' k e Hm' Hk He. rewrite !lookup_insert_ne; [apply A; [done|lia|done]|..];
        intros E; apply numbered_inj in E as [E _]; try lia; first [done | by left | by right].
    + intros m' Hm'. rewrite !lookup_insert_ne; [by apply B|..];
        intros E; symmetry in E; revert E; apply plain_ne_numbered; first [by left | by right].
  - split.
    + intros m' k e Hm' Hk He. rewrite !lookup_insert_ne; [apply A; [done|lia|done]|..];
        apply plain_ne_numbered; first [by left | by right].
    + intros m' Hm'. destruct (decide (base_stem m' = base_stem m)) as [->|Hne].
      * rewrite lookup_insert_ne by (apply not_eq_sym, arrow_ne_json). by rewrite lookup_insert_eq.
      * assert (E1 : (base_stem m +:+ ".arrow")%string <> (base_stem m' +:+ ".arrow")%string)
          by (intros E; apply plain_stem_inj in E; [done | by left]).
        assert (E2 : (base_stem m +:+ ".json")%string <> (base_stem m' +:+ ".json")%string)
          by (intros E; apply plain_stem_inj in E; [done | by right]).
        assert (E3 : (base_stem m +:+ ".json")%string <> (base_stem m' +:+ ".arrow")%string)
          by (intros E; apply plain_inj in E; [done | by right | by left]).
        assert (E4 : (base_stem m +:+ ".arrow")%string <> (base_stem m' +:+ ".json")%string)
          by (intros E; apply plain_inj in E; [done | by left | by right]).
        rewrite !lookup_insert_ne by done. by apply B.
Qed.

(** A store opened on a directory that holds no file stamped since [since] is
    numbered from the start: the removed files are stale temporary ones. *)
Lemma numbered_of_older since s fs :
  (forall sink m r, since <= dlm_timestamp_unix_ms m ->
     dir_of fs sink !! (base_stem m +:+ r)%string = None) ->
  numbered since s fs.
Proof. intros Hold sink. split; intros m *; intros; by apply Hold. Qed.

(** ** Concurrent writers

    Each writer holds its loaded value, then its reservation, until its files
    are persisted or the reservation is given back. *)
Inductive WriterPhase := Trying (added current : N) | Holding (added : N).

Inductive quota_step (max_bytes : N) : N * N * list WriterPhase -> N * N * list WriterPhase -> Prop :=
| quota_start mem kept ws added : quota_step max_bytes (mem, kept, ws) (mem, kept, Trying added mem :: ws)
| quota_exceeded mem kept ws ws' added current spurious c :
    ws ≡ₚ Trying added current :: ws' ->
    cas_attempt max_bytes added current mem spurious = QuotaExceeded c ->
    quota_step max_bytes (mem, kept, ws) (mem, kept, ws')
| quota_retry mem kept ws ws' added current spurious actual :
    ws ≡ₚ Trying added current :: ws' ->
    cas_attempt max_bytes added current mem spurious = StillTrying actual ->
    quota_step max_bytes (mem, kept, ws) (mem, kept, Trying added actual :: ws')
| quota_reserved mem kept ws ws' added current spurious next :
    ws ≡ₚ Trying added current :: ws' ->
    cas_attempt max_bytes added current mem spurious = Reserved_ next ->
    quota_step max_bytes (mem, kept, ws) (next, kept, Holding added :: ws')
| quota_persisted mem kept ws ws' added :
    ws ≡ₚ Holding added :: ws' ->
    quota_step max_bytes (mem, kept, ws) (mem, kept + added, ws')
| quota_released mem kept ws ws' added :
    ws ≡ₚ Holding added :: ws' ->
    quota_step max_bytes (mem, kept, ws) ((mem + (u64_max + 1) - added) mod (u64_max + 1), kept, ws').

Inductive quota_reachable (max_bytes base : N) : N * N * list WriterPhase -> Prop :=
| quota_init : quota_reachable max_bytes base (base, base, [])
| quota_next st st' : quota_reachable max_bytes base st -> quota_step max_bytes st st' ->
    quota_reachable max_bytes base st'.

Definition held (w : WriterPhase) : N := match w with Trying _ _ => 0 | Holding added => added end.

Lemma cas_reserved max_bytes added current mem spurious next :
  cas_attempt max_bytes added current mem spurious = Reserved_ next ->
  mem = current /\ next = mem +u64 added /\ next <= max_bytes.
Proof.
  unfold cas_attempt. destruct (N.ltb_spec max_bytes (current +u64 added)); [done|].
  destruct (N.eqb_spec mem current) as [->|]; [|done]. destruct spurious; [done|]. by intros [= <-].
Qed.

(** ** Properties *)

(** A sink name is accepted as a directory name exactly when it is one
    ordinary path component: not empty, not [.] or [..], with no separator and
    no null byte; so a quarantine file cannot leave the store's directory. *)
Theorem safe_component_iff val :
  is_safe_path_component val = true <->
  components val = [Normal val] /\ (val <> "" /\ val <> "." /\ val <> "..")%string /\
  str_contains slash val = false /\ str_contains backslash val = false /\ str_contains nul val = false.
Proof.
  unfold is_safe_path_component. split.
  - destruct (bool_decide (val = "")%string || _ || _ || _) eqn:E; [done|].
    rewrite !orb_false_iff in E. destruct E as (((E1 & E2) & E3) & E4).
    apply bool_decide_eq_false in E1. intros Hc.
    assert (Hd : val <> "."%string) by (intros ->; by vm_compute in Hc).
    assert (Hdd : val <> ".."%string) by (intros ->; by vm_compute in Hc).
    split_and!; try done. by apply components_single.
  - intros (Hc & (H1 & _ & _) & H2 & H3 & H4). rewrite bool_decide_eq_false_2, H2, H3, H4, Hc by done. done.
Qed.

(** However writers interleave, with failed and spuriously failing
    compare-and-swaps, the tracked total is exactly the bytes found at startup
    plus those persisted plus those reserved, and it never exceeds the quota (or
    what was found at startup, when that was already more). *)
Theorem quota_respected max_bytes base mem kept ws :
  max_bytes < u64_max -> base <= u64_max ->
  quota_reachable max_bytes base (mem, kept, ws) ->
  mem = kept + sum_N held ws /\ mem <= N.max base max_bytes.
Proof.
  intros Hm Hb Hr. remember (mem, kept, ws) as st eqn:E. revert mem kept ws E.
  induction Hr as [|st st' Hr IH Hs]; intros mem kept ws E; [simplify_eq; cbn; lia|].
  destruct Hs as [m k w a|m k w w' a c sp x Hp Hc|m k w w' a c sp x Hp Hc|m k w w' a c sp x Hp Hc|m k w w' a Hp|m k w w' a Hp];
    injection E as <- <- <-; destruct (IH _ _ _ eq_refl) as [H1 H2];
    try (rewrite (sum_N_perm held _ _ Hp) in H1); rewrite ?sum_N_cons in *; cbn [held] in *; try lia.
  - apply cas_reserved in Hc as (-> & -> & Hle). unfold sat_add in *. lia.
  - assert (E : m + (u64_max + 1) - a = (m - a) + 1 * (u64_max + 1)) by lia.
    rewrite E, N.Div0.mod_add, N.mod_small by lia. lia.
Qed.

Section QuarantineProperties.
Context {RB Sch Row : Type} `{Arrow RB Sch Row}.
Context (manifest_json : DeadLetterMetadata -> option bytes).

Lemma write_quarantine_spec pid s fs m (batches : list RB) cf fa fj :
  ff_cleanup fa = false -> ff_cleanup fj = false -> dls_max_bytes s < u64_max ->
  let d := dir_of fs (dlm_sink m) in
  let stem := quarantine_stem m d (dls_file_seq s) in
  d !! (stem +:+ ".arrow")%string = None ->
  let '(res, s', fs') := write_quarantine manifest_json pid s fs m batches cf fa fj false in
  dls_max_bytes s' = dls_max_bytes s /\
  match res with
  | Ok path => exists ab jb,
      ipc_file_encode batches = Some ab /\ manifest_json m = Some jb /\
      is_safe_path_component (dlm_sink m) = true /\ path = (dlm_sink m, stem +:+ ".arrow")%string /\
      fs' = mkStoreFs (loose_files fs)
        (<[dlm_sink m := <[(stem +:+ ".json")%string := jb]> (<[(stem +:+ ".arrow")%string := ab]> d)]> (sink_dirs fs)) /\
      dls_current_bytes s' = dls_current_bytes s + file_len ab + file_len jb /\
      dls_current_bytes s' <= dls_max_bytes s
  | Err _ => same_files fs fs' /\ (dls_current_bytes s <= u64_max -> dls_current_bytes s' = dls_current_bytes s)
  end.
Proof.
  intros Ha Hj Hmax d stem Hfresh. unfold write_quarantine.
  destruct (is_safe_path_component (dlm_sink m)); [|done]. cbn [negb].
  destruct batches as [|b0 bs]; [done|]. destruct (ipc_file_encode (b0 :: bs)) as [ab|]; [|done].
  destruct (manifest_json m) as [jb|]; [|done].
  pose proof (reserve_bytes_spec s (file_len ab +u64 file_len jb)) as Hr.
  destruct (reserve_bytes s _) as [[[]|e] s1]; [destruct Hr as [Es Hle]|by subst s1].
  assert (Eq : dls_file_seq s1 = dls_file_seq s) by by subst s1.
  pose proof (persist_pair_spec pid s1 fs m ab jb cf fa fj Ha Hj) as Hp.
  rewrite Eq in Hp. specialize (Hp Hfresh). clear Eq.
  destruct (persist_pair _ _ _ _ _ _ _ _ _ _) as [[[path|e] s2] fs2];
    destruct Hp as (Hc & Hm & Hp); subst s1.
  - split; [done|]. exists ab, jb. destruct Hp as [Hpath Hfs]. rewrite Hc. cbn in Hle |- *.
    unfold sat_add in *. split_and!; try done; lia.
  - split; [done|]. split; [done|]. intros Hu. cbn [dls_current_bytes]. rewrite Hc. cbn in Hle |- *.
    set (a := file_len ab +u64 file_len jb) in *.
    assert (E : dls_current_bytes s +u64 a + (u64_max + 1) - a = dls_current_bytes s + 1 * (u64_max + 1))
      by (unfold sat_add in *; lia).
    rewrite E, N.Div0.mod_add, N.mod_small by lia. done.
Qed.

(** The number a quarantine draws, unless it gives up before drawing one. *)
Lemma write_quarantine_seq pid s fs m (batches : list RB) cf fa fj :
  dls_file_seq s < u64_max ->
  let '(res, s', _) := write_quarantine manifest_json pid s fs m batches cf fa fj false in
  dls_file_seq s <= dls_file_seq s' /\ (forall path, res = Ok path -> dls_file_seq s' = dls_file_seq s + 1).
Proof.
  intros Hlt. unfold write_quarantine.
  destruct (is_safe_path_component (dlm_sink m)); [|done]. cbn [negb].
  destruct batches as [|b0 bs]; [done|]. destruct (ipc_file_encode (b0 :: bs)) as [ab|]; [|done].
  destruct (manifest_json m) as [jb|]; [|done].
  pose proof (reserve_bytes_spec s (file_len ab +u64 file_len jb)) as Hr.
  destruct (reserve_bytes s _) as [[[]|e] s1]; [destruct Hr as [-> _]|by subst s1].
  assert (E : (dls_file_seq s + 1) mod (u64_max + 1) = dls_file_seq s + 1) by (apply N.mod_small; lia).
  unfold persist_pair. destruct cf; [done|].
  destruct (write_file_atomic _ _ _ ab _ fa) as [[?|?] ?];
    [destruct (write_file_atomic _ _ _ jb _ fj) as [[?|?] ?]|]; cbn; rewrite E; split; first [lia | done].
Qed.

(** C37 (quarantine_all_or_nothing). In a directory whose files stamped since some moment this store wrote, one
    quarantine at a time, a quarantine stamped since then either persists the
    batches' IPC file and its manifest under one stem that no file of either
    kind had, changes no other file and charges exactly their sizes within the
    quota; or, whichever step failed, it leaves every file as it was and gives
    the reserved bytes back (when the clean-up calls succeed).  Either way the
    directory is one the next quarantine can rely on, until the 64-bit file
    counter is spent. *)
Theorem quarantine_all_or_nothing since pid s fs m (batches : list RB) cf fa fj :
  ff_cleanup fa = false -> ff_cleanup fj = false ->
  dls_max_bytes s < u64_max -> dls_current_bytes s <= u64_max -> dls_file_seq s < u64_max ->
  since <= dlm_timestamp_unix_ms m -> numbered since s fs ->
  let '(res, s', fs') := write_quarantine manifest_json pid s fs m batches cf fa fj false in
  numbered since s' fs' /\ loose_files fs' = loose_files fs /\
  match res with
  | Ok (sink, name) => exists stem ab jb,
      (stem = base_stem m \/ exists k : N, stem = (base_stem m +:+ "_" +:+ pretty k)%string) /\
      sink = dlm_sink m /\ name = (stem +:+ ".arrow")%string /\
      dir_of fs sink !! name = None /\ dir_of fs sink !! (stem +:+ ".json")%string = None /\
      ipc_file_encode batches = Some ab /\ manifest_json m = Some jb /\ is_safe_path_component sink = true /\
      dir_of fs' sink !! name = Some ab /\ dir_of fs' sink !! (stem +:+ ".json")%string = Some jb /\
      (forall sink' name', sink' <> sink \/ (name' <> name /\ name' <> (stem +:+ ".json")%string) ->
         dir_of fs' sink' !! name' = dir_of fs sink' !! name') /\
      dls_current_bytes s' = dls_current_bytes s + file_len ab + file_len jb /\
      dls_current_bytes s' <= dls_max_bytes s
  | Err _ => (forall sink, dir_of fs' sink = dir_of fs sink) /\ dls_current_bytes s' = dls_current_bytes s
  end.
Proof.
  intros Ha Hj Hm Hu Hq Ht Hn.
  set (d := dir_of fs (dlm_sink m)). set (stem := quarantine_stem m d (dls_file_seq s)).
  assert (Hfresh : forall e, extension e -> d !! (stem +:+ e)%string = None)
    by (intros e; apply (quarantine_stem_fresh since); [apply Hn | done]).
  pose proof (write_quarantine_spec pid s fs m batches cf fa fj Ha Hj Hm (Hfresh _ (or_introl eq_refl))) as H1.
  pose proof (write_quarantine_seq pid s fs m batches cf fa fj Hq) as H2.
  destruct (write_quarantine _ _ _ _ _ _ _ _ _ _) as [[[[sink name]|e] s'] fs'].
  2:{ destruct H1 as (_ & (H3 & H4) & H5). split_and!; auto.
      intros sink. rewrite H4. eapply numbered_dir_mono; [apply H2 | apply Hn]. }
  destruct H1 as (_ & ab & jb & E1 & E2 & E3 & Ep & -> & E4 & E5). injection Ep as -> ->.
  fold d. fold stem. destruct H2 as [_ H2]. specialize (H2 _ eq_refl). split; [|split; [done|]].
  - intros k. rewrite H2. destruct (decide (k = dlm_sink m)) as [->|Hne].
    + rewrite dir_of_insert. apply numbered_dir_put; [apply Hn | done].
    + rewrite (dir_of_insert_ne _ _ _ _ _ Hne). eapply numbered_dir_mono; [|apply Hn]. lia.
  - exists stem, ab, jb. rewrite !dir_of_insert. fold d. split_and!; try done.
    + unfold stem, quarantine_stem. case_bool_decide; [right; by eexists | by left].
    + apply Hfresh. by left.
    + apply Hfresh. by right.
    + rewrite lookup_insert_ne by (apply not_eq_sym, arrow_ne_json). apply lookup_insert_eq.
    + apply lookup_insert_eq.
    + intros k n Hkn. destruct (decide (k = dlm_sink m)) as [->|Hne].
      * rewrite dir_of_insert. destruct Hkn as [?|[Hn1 Hn2]]; [done|]. by rewrite !lookup_insert_ne by congruence.
      * by rewrite (dir_of_insert_ne _ _ _ _ _ Hne).
Qed.

Lemma map_total_lookup_le {V} (g : string * V -> N) m k v : m !! k = Some v -> g (k, v) <= map_total g m.
Proof.
  intros Hk. rewrite <- (insert_delete_id m k v Hk), map_total_insert by apply lookup_delete_eq. lia.
Qed.

(** When the tracked total equals the bytes on disk, it still does
    after a successful quarantine: a store reopened on the resulting directory
    starts with the same total. *)
Theorem tracked_bytes_survive_restart pid s fs m (batches : list RB) cf fa fj path s' fs' :
  ff_cleanup fa = false -> ff_cleanup fj = false -> dls_max_bytes s < u64_max ->
  let d := dir_of fs (dlm_sink m) in
  let stem := quarantine_stem m d (dls_file_seq s) in
  d !! (stem +:+ ".arrow")%string = None -> d !! (stem +:+ ".json")%string = None ->
  is_stale_tmp_file pid (dlm_sink m) = false ->
  dls_current_bytes s = (new_store pid fs (dls_max_bytes s)).1.(dls_current_bytes) ->
  write_quarantine manifest_json pid s fs m batches cf fa fj false = (Ok path, s', fs') ->
  dls_current_bytes s' = (new_store pid fs' (dls_max_bytes s)).1.(dls_current_bytes).
Proof.
  intros Ha Hj Hm d stem F1 F2 Hst Hcur Eq.
  pose proof (write_quarantine_spec pid s fs m batches cf fa fj Ha Hj Hm F1) as H1. rewrite Eq in H1.
  destruct H1 as (_ & ab & jb & _ & _ & _ & _ & -> & E4 & E5).
  assert (Hnew : forall fs0, (new_store pid fs0 (dls_max_bytes s)).1.(dls_current_bytes) = N.min (stored_bytes pid fs0) u64_max).
  { intros fs0. unfold new_store. rewrite <- scan_total. by destruct (scan_existing_bytes pid fs0). }
  rewrite Hnew in *. fold d. fold stem. unfold stored_bytes in *. cbn [loose_files sink_dirs].
  set (d' := <[_ := jb]> _).
  assert (Hd' : map_total (file_weight pid) d' = file_len jb + (file_len ab + map_total (file_weight pid) d)).
  { subst d'. rewrite !map_total_insert; try done.
    - unfold file_weight at 1 2. cbn [fst snd]. unfold stem. by rewrite !stem_not_stale.
    - rewrite lookup_insert_ne; [done | apply arrow_ne_json]. }
  assert (Hw : forall x, dir_weight pid (dlm_sink m, x) = N.min (map_total (file_weight pid) x) u64_max).
  { intros x. unfold dir_weight. cbn [fst snd]. by rewrite Hst. }
  assert (Ht : map_total (dir_weight pid) (<[dlm_sink m := d']> (sink_dirs fs)) + dir_weight pid (dlm_sink m, d) =
    dir_weight pid (dlm_sink m, d') + map_total (dir_weight pid) (sink_dirs fs)).
  { destruct (sink_dirs fs !! dlm_sink m) as [d0|] eqn:E.
    - assert (d = d0) as -> by (unfold d, dir_of; by rewrite E). by apply map_total_overwrite.
    - assert (d = ∅) as -> by (unfold d, dir_of; by rewrite E).
      rewrite map_total_insert by done. rewrite (Hw ∅), map_total_empty. unfold u64_max. lia. }
  assert (Hle : dir_weight pid (dlm_sink m, d) <= map_total (dir_weight pid) (sink_dirs fs)).
  { destruct (sink_dirs fs !! dlm_sink m) as [d0|] eqn:E.
    - assert (d = d0) as -> by (unfold d, dir_of; by rewrite E). by apply map_total_lookup_le.
    - assert (d = ∅) as -> by (unfold d, dir_of; by rewrite E). rewrite Hw, map_total_empty. unfold u64_max. lia. }
  rewrite !Hw, Hd' in *. lia.
Qed.
End QuarantineProperties.

(** ** Witnesses *)

#[local] Existing Instance Toy.arrow.

Module Demo.
Definition meta : DeadLetterMetadata := mkDeadLetterMetadata "kafka" Logs 4 6 2 5 "bad row" 1700.
Definition json (m : DeadLetterMetadata) : option bytes := Some [dlm_first_seq m; dlm_last_seq m].
Definition store : DeadLetterStore := mkDeadLetterStore 1000 0 1.
Definition fs0 : StoreFs := mkStoreFs ∅ ∅.
Definition batches : list Toy.batch := [(7, [1; 2; 3])].
Definition result_ := write_quarantine json 99 store fs0 meta batches false no_faults no_faults false.
(** The same quarantine again: the stem is taken. *)
Definition twice := write_quarantine json 99 result_.1.2 result_.2 meta batches false no_faults no_faults false.
End Demo.

Lemma quota_respected_witness :
  50 = 10 + sum_N held [Holding 40] /\ 50 <= N.max 10 100.
Proof.
  apply (quota_respected 100 10 50 10 [Holding 40]).
  - by vm_compute.
  - by vm_compute.
  - eapply quota_next; [eapply quota_next; [eapply quota_next; [apply quota_init|]|]|].
    + apply (quota_start _ _ _ _ 40).
    + eapply (quota_retry 100 10 10 _ [] 40 10 true 10); [done | by vm_compute].
    + eapply (quota_reserved 100 10 10 _ [] 40 10 false 50); [done | by vm_compute].
Defined.

Lemma quarantine_all_or_nothing_witness :
  Demo.twice.1.1 = Ok ("kafka", "logs_4_6_1700_2.arrow")%string /\
  numbered 1700 Demo.twice.1.2 Demo.twice.2 /\
  dir_of Demo.twice.2 "kafka" !! "logs_4_6_1700.arrow"%string =
    dir_of Demo.result_.2 "kafka" !! "logs_4_6_1700.arrow"%string /\
  is_Some (dir_of Demo.twice.2 "kafka" !! "logs_4_6_1700.arrow"%string).
Proof.
  assert (N0 : numbered 1700 Demo.store Demo.fs0)
    by (apply numbered_of_older; intros sink m r _; done).
  pose proof (quarantine_all_or_nothing Demo.json 1700 99 Demo.store Demo.fs0 Demo.meta Demo.batches false
    no_faults no_faults eq_refl eq_refl ltac:(by vm_compute) ltac:(by vm_compute) ltac:(by vm_compute)
    ltac:(by vm_compute) N0) as P.
  fold Demo.result_ in P.
  assert (N1 : numbered 1700 Demo.result_.1.2 Demo.result_.2) by (destruct Demo.result_ as [[r1 s1] f1]; apply P).
  clear P.
  pose proof (quarantine_all_or_nothing Demo.json 1700 99 Demo.result_.1.2 Demo.result_.2 Demo.meta Demo.batches false
    no_faults no_faults eq_refl eq_refl ltac:(by vm_compute) ltac:(by vm_compute) ltac:(by vm_compute)
    ltac:(by vm_compute) N1) as P.
  fold Demo.twice in P.
  assert (N2 : numbered 1700 Demo.twice.1.2 Demo.twice.2) by (destruct Demo.twice as [[r1 s1] f1]; apply P).
  split; [by vm_compute|]. split; [exact N2|]. split; [by vm_compute | eexists; by vm_compute].
Defined.

Lemma tracked_bytes_survive_restart_witness :
  dls_current_bytes Demo.result_.1.2 = (new_store 99 Demo.result_.2 1000).1.(dls_current_bytes).
Proof.
  apply (tracked_bytes_survive_restart Demo.json 99 Demo.store Demo.fs0 Demo.meta Demo.batches false
    no_faults no_faults ("kafka", "logs_4_6_1700.arrow")%string Demo.result_.1.2 Demo.result_.2).
  - done.
  - done.
  - by vm_compute.
  - by vm_compute.
  - by vm_compute.
  - by vm_compute.
  - by vm_compute.
  - by vm_compute.
Defined.
