(* ===== verification/PartitionPath.v ===== *)
(** Partition directories and file names: crates/parquet-sink/src/partition.rs
    ([format_partition_path]) and naming.rs.

    Text is scanned for ASCII braces and slashes only, so strings are compared
    byte by byte as the code does.  The wall clock and the UUID source are
    arguments. *)

From S2P Require Import Prelude Writer.
From stdpp Require Import pretty.
Local Open Scope N_scope.

(** ** Zero-padded integers *)

Fixpoint zeros (n : nat) : string :=
  match n with O => "" | S n => String (Ascii.ascii_of_nat 48) (zeros n) end.

Definition pad_zero (width : nat) (s : string) : string := (zeros (width - String.length s) +:+ s)%string.

(** [{n:0w}] of an [i32]: the sign counts in the width. *)
Definition fmt_i32 (width : nat) (z : Z) : string :=
  if (z <? 0)%Z then ("-" +:+ pad_zero (width - 1) (pretty (Z.to_N (- z))))%string
  else pad_zero width (pretty (Z.to_N z)).

Record PartitionKey := mkPartitionKey { pk_year : Z; pk_month : Z; pk_day : Z; pk_hour : Z }.

Global Instance PartitionKey_eq_dec : EqDecision PartitionKey.
Proof. solve_decision. Defined.

(** ** [format_partition_path] *)

Definition open_brace : Ascii.ascii := Ascii.ascii_of_nat 123.
Definition close_brace : Ascii.ascii := Ascii.ascii_of_nat 125.

(** [str::find] with the text before and after the first occurrence. *)
Fixpoint split_at_char (c : Ascii.ascii) (s : string) : option (string * string) :=
  match s with
  | EmptyString => None
  | String x s =>
      if bool_decide (x = c) then Some (EmptyString, s)
      else option_map (fun '(pre, post) => (String x pre, post)) (split_at_char c s)
  end.

Definition fmt_date (k : PartitionKey) : string :=
  (fmt_i32 4 (pk_year k) +:+ "-" +:+ fmt_i32 2 (pk_month k) +:+ "-" +:+ fmt_i32 2 (pk_day k))%string.

Definition expand_token (signal : string) (k : PartitionKey) (token : string) : string :=
  (if bool_decide (token = "signal") then signal
   else if bool_decide (token = "date") then fmt_date k
   else if bool_decide (token = "hour") then fmt_i32 2 (pk_hour k)
   else if bool_decide (token = "year") then fmt_i32 4 (pk_year k)
   else if bool_decide (token = "month") then fmt_i32 2 (pk_month k)
   else if bool_decide (token = "day") then fmt_i32 2 (pk_day k)
   else String open_brace (token +:+ String close_brace ""))%string.

(** The scanning loop; each turn consumes at least the opening brace. *)
Fixpoint format_loop (fuel : nat) (signal : string) (k : PartitionKey) (chars result : string) : string :=
  match fuel with
  | O => result
  | S fuel =>
      match split_at_char open_brace chars with
      | None => (result +:+ chars)%string
      | Some (pre, after_open) =>
          let result := (result +:+ pre)%string in
          match split_at_char close_brace after_open with
          | Some (token, rest) => format_loop fuel signal k rest (result +:+ expand_token signal k token)%string
          | None => ((result +:+ String open_brace after_open) +:+ chars)%string
          end
      end
  end.

Definition hive_template : string := "signal={signal}/date={date}/hour={hour}".

Definition format_partition_path (pattern signal : string) (k : PartitionKey) : string :=
  if bool_decide (pattern = hive_template)
  then ("signal=" +:+ signal +:+ "/date=" +:+ fmt_date k +:+ "/hour=" +:+ fmt_i32 2 (pk_hour k))%string
  else format_loop (S (String.length pattern)) signal k pattern "".

(** ** [FileNamer] *)

Definition i64_max : N := 9223372036854775807.

Record FileNamer := mkFileNamer { fn_node_id : string; fn_last_nanos : N }.

(** [try_update] on [last_nanos]; [now] is already clamped to be non-negative. *)
Definition next_nanos (prev now : N) : N := if prev <? now then now else sat_add i64_max prev 1.

Definition digit_string (k : nat) (n : N) : string := String.string_of_list_ascii (digits k n []).

Fixpoint trim_end_slash (s : list Ascii.ascii) : list Ascii.ascii :=
  match s with
  | [] => []
  | x :: s =>
      match trim_end_slash s with
      | [] => if bool_decide (x = Ascii.ascii_of_nat 47) then [] else [x]
      | s => x :: s
      end
  end.

Definition trim_end_matches_slash (s : string) : string :=
  String.string_of_list_ascii (trim_end_slash (String.list_ascii_of_string s)).

(** [generate_filename]; a timestamp is below 2^63, so 20 digits hold it and
    [{sequence:04}] of a [u16] is padded to four. *)
Definition generate_filename (f : FileNamer) (partition_prefix : string) (sequence now : N) (uuid : string)
  : string * FileNamer :=
  let ts := next_nanos (fn_last_nanos f) now in
  let prefix := trim_end_matches_slash partition_prefix in
  let name := (digit_string 20 ts +:+ "_" +:+ fn_node_id f +:+ "_" +:+ uuid +:+ "_"
               +:+ pad_zero 4 (pretty sequence) +:+ ".parquet")%string in
  ((if bool_decide (prefix = "") then name else prefix +:+ "/" +:+ name)%string,
   mkFileNamer (fn_node_id f) ts).

(** ** Templates

    A template is a list of literal text and token pairs, then a tail. *)

Definition print_tokens (ps : list (string * string)) : string :=
  foldr (fun p s => (p.1 +:+ String open_brace (p.2 +:+ String close_brace s))%string) ""%string ps.

Definition expand_tokens (signal : string) (k : PartitionKey) (ps : list (string * string)) : string :=
  foldr (fun p s => (p.1 +:+ expand_token signal k p.2 +:+ s)%string) ""%string ps.

Definition free_of (c : Ascii.ascii) (s : string) : bool :=
  forallb (fun x => bool_decide (x <> c)) (String.list_ascii_of_string s).

Definition tokens_ok (ps : list (string * string)) : Prop :=
  Forall (fun p => free_of open_brace p.1 = true /\ free_of close_brace p.2 = true) ps.

Lemma free_of_cons c x s : free_of c (String x s) = (bool_decide (x <> c) && free_of c s)%bool.
Proof. done. Qed.

Lemma string_app_nil s : ("" +:+ s)%string = s.
Proof. done. Qed.

Lemma string_app_cons x s t : (String x s +:+ t)%string = String x (s +:+ t)%string.
Proof. done. Qed.

Lemma split_at_char_free c s : free_of c s = true -> split_at_char c s = None.
Proof.
  induction s as [|x s IH]; [done|]. rewrite free_of_cons. intros [Hx Hs]%andb_true_iff.
  apply bool_decide_eq_true in Hx. cbn [split_at_char]. rewrite bool_decide_eq_false_2 by done. by rewrite IH.
Qed.

Lemma split_at_char_app c s t : free_of c s = true -> split_at_char c (s +:+ String c t)%string = Some (s, t).
Proof.
  induction s as [|x s IH]; intros Hf; rewrite ?string_app_nil, ?string_app_cons; cbn [split_at_char].
  - by rewrite bool_decide_eq_true_2.
  - rewrite free_of_cons in Hf. apply andb_true_iff in Hf as [Hx Hs]. apply bool_decide_eq_true in Hx.
    rewrite bool_decide_eq_false_2 by done. by rewrite IH.
Qed.

Lemma string_app_empty_r s : (s +:+ "")%string = s.
Proof. induction s as [|x s IH]; [done|]. rewrite string_app_cons. by rewrite IH. Qed.

Lemma print_tokens_cons l t ps tail :
  (print_tokens ((l, t) :: ps) +:+ tail = l +:+ String open_brace (t +:+ String close_brace (print_tokens ps +:+ tail)))%string.
Proof.
  unfold print_tokens. cbn [foldr fst snd]. fold (print_tokens ps).
  by rewrite <- string_app_assoc, string_app_cons, <- string_app_assoc, string_app_cons.
Qed.

Lemma string_app_length a b : String.length (a +:+ b)%string = (String.length a + String.length b)%nat.
Proof. induction a as [|x a IH]; [done|]. rewrite string_app_cons. cbn. by rewrite IH. Qed.

(** The loop over the tokens of a template. *)
Lemma format_loop_tokens signal k ps tail result fuel :
  tokens_ok ps -> (String.length (print_tokens ps +:+ tail)%string < fuel)%nat ->
  exists fuel', (String.length tail < fuel')%nat /\
    format_loop fuel signal k (print_tokens ps +:+ tail)%string result =
    format_loop fuel' signal k tail (result +:+ expand_tokens signal k ps)%string.
Proof.
  revert result fuel. induction ps as [|[l t] ps IH]; intros result fuel Hok Hf.
  { exists fuel. cbn in *. rewrite string_app_empty_r. done. }
  apply Forall_cons in Hok as [[Hl Ht] Hok]. destruct fuel as [|fuel]; [lia|]. cbn [fst snd] in Hl, Ht.
  rewrite print_tokens_cons in *. cbn [format_loop]. rewrite (split_at_char_app _ _ _ Hl), (split_at_char_app _ _ _ Ht).
  destruct (IH ((result +:+ l) +:+ expand_token signal k t)%string fuel Hok) as (fuel' & Hf' & E).
  { rewrite string_app_length in Hf. cbn in Hf. rewrite string_app_length in Hf. cbn in Hf. lia. }
  exists fuel'. split; [done|]. rewrite E. f_equal. unfold expand_tokens. cbn [foldr fst snd].
    by rewrite <- !string_app_assoc.
Qed.

Lemma hive_general signal k :
  format_loop (S (String.length hive_template)) signal k hive_template "" =
  format_partition_path hive_template signal k.
Proof.
  unfold format_partition_path. rewrite bool_decide_eq_true_2 by done.
  set (ps := [("signal=", "signal"); ("/date=", "date"); ("/hour=", "hour")]%string).
  assert (E : hive_template = (print_tokens ps +:+ "")%string) by done.
  destruct (format_loop_tokens signal k ps "" "" (S (String.length hive_template))) as (fuel' & Hf & Hl).
  - by repeat constructor.
  - rewrite <- E. lia.
  - rewrite <- E in Hl. rewrite Hl. destruct fuel' as [|fuel']; [lia|]. cbn [format_loop split_at_char].
    rewrite string_app_nil, string_app_empty_r. unfold expand_tokens. cbn [foldr fst snd ps].
    by rewrite string_app_empty_r.
Qed.

Lemma format_partition_path_loop pattern signal k :
  format_partition_path pattern signal k = format_loop (S (String.length pattern)) signal k pattern "".
Proof.
  destruct (decide (pattern = hive_template)) as [->|Hne]; [by rewrite hive_general|].
  unfold format_partition_path. by rewrite bool_decide_eq_false_2.
Qed.

(** ** Order of file names *)

Inductive lex_lt : list Ascii.ascii -> list Ascii.ascii -> Prop :=
| lex_head a b s t : Ascii.N_of_ascii a < Ascii.N_of_ascii b -> lex_lt (a :: s) (b :: t)
| lex_tail a s t : lex_lt s t -> lex_lt (a :: s) (a :: t).

Lemma lex_lt_app_l p s t : lex_lt s t -> lex_lt (p ++ s) (p ++ t).
Proof. induction p as [|a p IH]; [done|]. intros Hl. cbn. apply lex_tail. auto. Qed.

Lemma lex_lt_app_r s t u v : length s = length t -> lex_lt s t -> lex_lt (s ++ u) (t ++ v).
Proof.
  intros Hlen Hl. induction Hl as [a b s t Hab|a s t Hl IH]; cbn; [by constructor|].
  apply lex_tail. apply IH. by injection Hlen.
Qed.

Lemma digits_lt k n m : n < m -> m < 10 ^ N.of_nat k -> lex_lt (digits k n []) (digits k m []).
Proof.
  revert n m. induction k as [|k IH]; intros n m Hlt Hm.
  { change (10 ^ N.of_nat 0) with 1 in Hm. lia. }
  rewrite Nat2N.inj_succ, N.pow_succ_r' in Hm. cbn [digits]. rewrite (digits_app k (n / 10)), (digits_app k (m / 10)).
  pose proof (N.div_mod n 10 ltac:(lia)) as En. pose proof (N.div_mod m 10 ltac:(lia)) as Em.
  pose proof (N.mod_lt n 10 ltac:(lia)) as Ln. pose proof (N.mod_lt m 10 ltac:(lia)) as Lm.
  generalize dependent (n mod 10). generalize dependent (m mod 10). generalize dependent (n / 10).
  generalize dependent (m / 10). intros qm qn rm Em Lm rn En Ln.
  destruct (N.eq_dec qn qm) as [->|Hne].
  - apply lex_lt_app_l. constructor. rewrite !digit_char by done. lia.
  - apply lex_lt_app_r; [by rewrite !length_digits|]. apply IH; lia.
Qed.

Lemma list_ascii_app a b :
  String.list_ascii_of_string (a +:+ b)%string = String.list_ascii_of_string a ++ String.list_ascii_of_string b.
Proof. induction a as [|x a IH]; [done|]. rewrite string_app_cons. cbn. by rewrite IH. Qed.

Lemma digit_string_ascii k n : String.list_ascii_of_string (digit_string k n) = digits k n [].
Proof. apply String.list_ascii_of_string_of_list_ascii. Qed.

(** ** Properties *)

(** A partition pattern of literal text and [{token}]s becomes the same
    text with every known token replaced by its value and every unknown one kept
    as written; the fast path for the default pattern gives the same directory;
    and the scan ends within its fuel. *)
Theorem template_expansion ps tail signal k :
  tokens_ok ps -> free_of open_brace tail = true ->
  format_partition_path (print_tokens ps +:+ tail)%string signal k = (expand_tokens signal k ps +:+ tail)%string.
Proof.
  intros Hok Ht. rewrite format_partition_path_loop.
  destruct (format_loop_tokens signal k ps tail "" _ Hok (Nat.lt_succ_diag_r _)) as (fuel & Hf & ->).
  destruct fuel as [|fuel]; [lia|]. cbn [format_loop]. by rewrite split_at_char_free, string_app_nil.
Qed.

(** After an unclosed brace the text since the last token is emitted twice:
    [break] leaves [chars] at that text, and the final [push_str] adds it again. *)
Theorem unclosed_brace_duplicates ps lit rest signal k :
  tokens_ok ps -> free_of open_brace lit = true -> free_of close_brace rest = true ->
  let tail := (lit +:+ String open_brace rest)%string in
  format_partition_path (print_tokens ps +:+ tail)%string signal k =
    (expand_tokens signal k ps +:+ tail +:+ tail)%string.
Proof.
  intros Hok Hl Hr tail. rewrite format_partition_path_loop.
  destruct (format_loop_tokens signal k ps tail "" _ Hok (Nat.lt_succ_diag_r _)) as (fuel & Hf & ->).
  destruct fuel as [|fuel]; [lia|]. cbn [format_loop]. unfold tail at 1.
  rewrite split_at_char_app, split_at_char_free, string_app_nil by done.
  unfold tail. by rewrite <- !string_app_assoc.
Qed.

(** Two file names made one after the other for the same directory are in
    strictly increasing lexicographic order, even when the clock stands still
    or goes back, as long as the timestamp counter is below [i64::MAX]. *)
Theorem filenames_ordered f dir seq1 seq2 now1 now2 uuid1 uuid2 :
  fn_last_nanos f < i64_max - 1 -> now1 < i64_max - 1 -> now2 < i64_max ->
  let '(name1, f1) := generate_filename f dir seq1 now1 uuid1 in
  let '(name2, f2) := generate_filename f1 dir seq2 now2 uuid2 in
  lex_lt (String.list_ascii_of_string name1) (String.list_ascii_of_string name2) /\
  fn_last_nanos f < fn_last_nanos f1 < fn_last_nanos f2.
Proof.
  intros Hf H1 H2. unfold generate_filename. cbn [fn_last_nanos fn_node_id].
  set (t1 := next_nanos (fn_last_nanos f) now1). set (t2 := next_nanos t1 now2).
  assert (Ht1 : fn_last_nanos f < t1 < i64_max).
  { subst t1. unfold next_nanos, sat_add. destruct (N.ltb_spec (fn_last_nanos f) now1); lia. }
  assert (Ht2 : t1 < t2 <= i64_max).
  { subst t2. unfold next_nanos, sat_add. destruct (N.ltb_spec t1 now2); lia. }
  clearbody t1 t2. split; [|lia].
  assert (Hd : forall u v, lex_lt (String.list_ascii_of_string (digit_string 20 t1 +:+ u)%string)
    (String.list_ascii_of_string (digit_string 20 t2 +:+ v)%string)).
  { intros u v. rewrite !list_ascii_app, !digit_string_ascii. apply lex_lt_app_r; [by rewrite !length_digits|].
    apply digits_lt; [lia|]. change (10 ^ N.of_nat 20) with 100000000000000000000. unfold i64_max in *. lia. }
  case_bool_decide; [apply Hd|]. set (p := trim_end_matches_slash dir).
  rewrite !(list_ascii_app p), !(list_ascii_app "/"%string). apply lex_lt_app_l, lex_lt_app_l, Hd.
Qed.

Lemma template_expansion_witness :
  format_partition_path "env=prod/{year}/{month}/{what}" "logs" (mkPartitionKey 2026 3 9 5) = "env=prod/2026/03/{what}"%string.
Proof.
  apply (template_expansion [("env=prod/", "year"); ("/", "month"); ("/", "what")]%string "" "logs" (mkPartitionKey 2026 3 9 5)).
  - by repeat constructor.
  - done.
Defined.

Lemma unclosed_brace_duplicates_witness :
  format_partition_path "abc{def" "logs" (mkPartitionKey 2026 3 9 5) = "abc{defabc{def"%string.
Proof. by apply (unclosed_brace_duplicates [] "abc" "def" "logs" (mkPartitionKey 2026 3 9 5)); [constructor|..]. Defined.

Lemma filenames_ordered_witness :
  let f := mkFileNamer "n1" 500 in
  let '(name1, f1) := generate_filename f "signal=logs/" 0 400 "u1" in
  let '(name2, f2) := generate_filename f1 "signal=logs/" 1 300 "u2" in
  lex_lt (String.list_ascii_of_string name1) (String.list_ascii_of_string name2) /\ 500 < fn_last_nanos f1 < fn_last_nanos f2.
Proof. by apply (filenames_ordered (mkFileNamer "n1" 500) "signal=logs/" 0 1 400 300 "u1" "u2"). Defined.
