(* ===== verification/ParquetError.v ===== *)
(** The error type of the Parquet sink: crates/parquet-sink/src/error.rs.

    Messages are kept as fixed texts that name the code's message; the errors of
    third-party crates carry none. *)

From S2P Require Import Prelude.

Inductive ParquetSinkError : Type :=
| POpenDal
| PParquet
| PArrow
| PVariantEncoding (msg : string)
| PConfig (msg : string)
| PInternal (msg : string).

Global Instance ParquetSinkError_eq_dec : EqDecision ParquetSinkError.
Proof. solve_decision. Defined.

(** Conversion to the pipeline's error. *)
Definition pipeline_error (e : ParquetSinkError) : PipelineError := Storage "parquet sink error".
