(* ===== verification/Partition.v ===== *)
(** The partition manager: crates/parquet-sink/src/partition.rs and the
    accounting of writer.rs.

    The manager runs on a multi-threaded runtime, which sink.rs requires, so the
    runtime look-ups succeed.  The Parquet encoder, the clock, the UUID source
    and the uploads are outside the code and are parameters ([Env]); successive
    readings are told apart by the counter [pm_tick].  [pw_slices] and
    [pm_retired] are ghost: what was written to a file, and the files closed. *)

From S2P Require Import Prelude Arrow Writer ParquetError PartitionPath.
Local Open Scope N_scope.

Abbreviation PartitionId := (string * string)%type.

Record ParquetSinkConfig := mkParquetSinkConfig {
  partition_pattern : string;
  node_id : string;
  max_records : N;
  max_file_size_bytes : N;
  max_file_interval_sec : N;
  max_open_partitions : N;
  max_concurrent_uploads : N;
  global_memory_limit_bytes : N;
}.

(** What the environment answers: the encoder after a history of slices
    (success, bytes written, bytes in progress), closing a file, filtering,
    the row keys of the timestamp column, time, and the uploads. *)
Class Env (RB Sch : Type) := {
  uploader_start : string -> result unit ParquetSinkError;
  pq_new : Sch -> option (N * N);
  pq_write : list RB -> RB -> bool * N * N;
  pq_close : list RB -> bool;
  filter_record_batch : RB -> list bool -> option RB;
  temporal_components : RB -> option (list (option PartitionKey));
  utc_now : nat -> PartitionKey;
  clock_secs : nat -> N;
  clock_nanos : nat -> N;
  uuid_v7 : nat -> string;
  upload_finished : nat -> N -> bool;
  upload_result : N -> result unit ParquetSinkError;
}.

(** The documented behaviour the routing relies on: filtering keeps the rows
    whose mask bit is set, and a key is computed for every row. *)
Class EnvLaws (RB Sch Row : Type) `{Arrow RB Sch Row} `{Env RB Sch} := {
  filter_rows : forall b mask sub, length mask = length (rb_rows b) ->
    filter_record_batch b mask = Some sub ->
    rb_rows sub = map snd (filter (fun p => p.1 = true) (zip mask (rb_rows b)));
  temporal_length : forall b keys, temporal_components b = Some keys -> length keys = length (rb_rows b);
}.

Record PartitionWriter (RB : Type) := mkPartitionWriter {
  pw_slices : list RB;
  pw_records_written : N;
  pw_bytes_written : N;
  pw_in_progress_size : N;
}.
Arguments mkPartitionWriter {RB} _ _ _ _.
Arguments pw_slices {RB} _.
Arguments pw_records_written {RB} _.
Arguments pw_bytes_written {RB} _.
Arguments pw_in_progress_size {RB} _.

Record ActiveWriter (RB : Type) := mkActiveWriter {
  aw_writer : PartitionWriter RB;
  aw_file : string;
  aw_opened_at : N;
  aw_buffered_memory : N;
}.
Arguments mkActiveWriter {RB} _ _ _ _.
Arguments aw_writer {RB} _.
Arguments aw_file {RB} _.
Arguments aw_opened_at {RB} _.
Arguments aw_buffered_memory {RB} _.

(** A closed file: its partition, name, slices and whether [close] succeeded. *)
Record RetiredFile (RB : Type) := mkRetiredFile {
  rf_partition : PartitionId;
  rf_name : string;
  rf_slices : list RB;
  rf_closed_ok : bool;
}.
Arguments mkRetiredFile {RB} _ _ _ _.
Arguments rf_partition {RB} _.
Arguments rf_name {RB} _.
Arguments rf_slices {RB} _.
Arguments rf_closed_ok {RB} _.

Record PartitionManager (RB : Type) := mkPartitionManager {
  pm_config : ParquetSinkConfig;
  pm_namer : FileNamer;
  pm_writers : gmap PartitionId (ActiveWriter RB);
  pm_lru : list PartitionId;
  pm_global_memory : N;
  pm_file_sequence : N;
  pm_in_flight : list N;
  pm_next_upload : N;
  pm_retired : list (RetiredFile RB);
  pm_tick : nat;
}.
Arguments mkPartitionManager {RB} _ _ _ _ _ _ _ _ _ _.
Arguments pm_config {RB} _.
Arguments pm_namer {RB} _.
Arguments pm_writers {RB} _.
Arguments pm_lru {RB} _.
Arguments pm_global_memory {RB} _.
Arguments pm_file_sequence {RB} _.
Arguments pm_in_flight {RB} _.
Arguments pm_next_upload {RB} _.
Arguments pm_retired {RB} _.
Arguments pm_tick {RB} _.

Global Instance PartitionManager_eta {RB} : RecordEta (PartitionManager RB) := fun m =>
  mkPartitionManager (pm_config m) (pm_namer m) (pm_writers m) (pm_lru m) (pm_global_memory m)
    (pm_file_sequence m) (pm_in_flight m) (pm_next_upload m) (pm_retired m) (pm_tick m).

Section Manager.
Context {RB Sch Row : Type} `{Arrow RB Sch Row} `{Env RB Sch}.

Abbreviation manager := (PartitionManager RB).
Abbreviation active := (ActiveWriter RB).

Definition new_manager (c : ParquetSinkConfig) : manager :=
  mkPartitionManager c (mkFileNamer (node_id c) 0) ∅ [] 0 0 [] 0 [] 0.

Definition tick (m : manager) : nat * manager := (pm_tick m, m <| pm_tick := S (pm_tick m) |>).

(** ** The Parquet writer *)

Definition try_new (schema : Sch) : result (PartitionWriter RB) ParquetSinkError :=
  match pq_new schema with
  | Some (bytes, in_progress) => Ok (mkPartitionWriter [] 0 bytes in_progress)
  | None => Err PParquet
  end.

Definition write_batch (w : PartitionWriter RB) (batch : RB) : result unit ParquetSinkError * PartitionWriter RB :=
  let '(ok, bytes, in_progress) := pq_write (pw_slices w) batch in
  if ok
  then (Ok tt, mkPartitionWriter (pw_slices w ++ [batch]) (pw_records_written w + num_rows batch) bytes in_progress)
  else (Err PParquet, mkPartitionWriter (pw_slices w) (pw_records_written w) bytes in_progress).

Definition estimated_writer_bytes (w : PartitionWriter RB) : N :=
  pw_bytes_written w +us pw_in_progress_size w.

(** ** Uploads *)

Definition first_err (a : option ParquetSinkError) (e : ParquetSinkError) : option ParquetSinkError :=
  match a with Some a => Some a | None => Some e end.

(** The scan of [check_background_errors]: finished uploads leave the queue. *)
Fixpoint check_uploads (t : nat) (ids : list N) (first_error : option ParquetSinkError)
  : list N * option ParquetSinkError :=
  match ids with
  | [] => ([], first_error)
  | id :: ids =>
      if upload_finished t id
      then
        check_uploads t ids (match upload_result id with Ok _ => first_error | Err e => first_err first_error e end)
      else let '(kept, err) := check_uploads t ids first_error in (id :: kept, err)
  end.

Definition check_background_errors (m : manager) : result unit ParquetSinkError * manager :=
  let '(t, m) := tick m in
  let '(kept, err) := check_uploads t (pm_in_flight m) None in
  (match err with Some e => Err e | None => Ok tt end, m <| pm_in_flight := kept |>).

Definition wait_oldest_in_flight_upload (m : manager) : result unit ParquetSinkError * manager :=
  match pm_in_flight m with
  | [] => (Ok tt, m)
  | oldest :: rest =>
      let m := m <| pm_in_flight := rest |> in
      match upload_result oldest with
      | Ok _ => check_background_errors m
      | Err e => (Err e, m)
      end
  end.

(** The wait loop of [retire_active_writer]; every turn shortens the queue. *)
Fixpoint wait_for_slot (fuel : nat) (m : manager) (wait_err : option ParquetSinkError)
  : option ParquetSinkError * manager :=
  match fuel with
  | O => (wait_err, m)
  | S fuel =>
      let limit := max_concurrent_uploads (pm_config m) in
      if (0 <? limit) && (limit <=? N.of_nat (length (pm_in_flight m)))
      then
        let '(res, m) := wait_oldest_in_flight_upload m in
        wait_for_slot fuel m (match res with Ok _ => wait_err | Err e => first_err wait_err e end)
      else (wait_err, m)
  end.

(** ** Closing files *)

Definition retire_active_writer (m : manager) (pid : PartitionId) (a : active)
  : result unit ParquetSinkError * manager :=
  let m := m <| pm_global_memory := pm_global_memory m -s aw_buffered_memory a |> in
  let '(wait_err, m) := wait_for_slot (S (length (pm_in_flight m))) m None in
  let closed_ok := pq_close (pw_slices (aw_writer a)) in
  let m := m <| pm_in_flight := pm_in_flight m ++ [pm_next_upload m] |>
             <| pm_next_upload := pm_next_upload m + 1 |>
             <| pm_retired := pm_retired m
                  ++ [mkRetiredFile pid (aw_file a) (pw_slices (aw_writer a)) closed_ok] |> in
  if negb closed_ok then (Err PParquet, m)
  else
    match wait_err with
    | Some e => (Err e, m)
    | None => check_background_errors m
    end.

(** [VecDeque::remove] at the first position of the key. *)
Fixpoint lru_remove (pid : PartitionId) (lru : list PartitionId) : list PartitionId :=
  match lru with
  | [] => []
  | k :: lru => if bool_decide (k = pid) then lru else k :: lru_remove pid lru
  end.

Definition res_and (a b : result unit ParquetSinkError) : result unit ParquetSinkError :=
  match a with Ok _ => b | Err e => Err e end.

Definition close_writer (m : manager) (pid : PartitionId) : result unit ParquetSinkError * manager :=
  let m := m <| pm_lru := lru_remove pid (pm_lru m) |> in
  let '(retire_res, m) :=
    match pm_writers m !! pid with
    | Some a => retire_active_writer (m <| pm_writers := delete pid (pm_writers m) |>) pid a
    | None => (Ok tt, m)
    end in
  let '(bg_res, m) := check_background_errors m in
  (res_and retire_res bg_res, m).

Definition abort_writer (m : manager) (pid : PartitionId) : manager :=
  let m := m <| pm_lru := lru_remove pid (pm_lru m) |> in
  match pm_writers m !! pid with
  | Some a => m <| pm_writers := delete pid (pm_writers m) |>
                <| pm_global_memory := pm_global_memory m -s aw_buffered_memory a |>
  | None => m
  end.

(** Closing the least recently used writer while a condition holds; every turn
    shortens [pm_lru], or fails when it is empty. *)
Fixpoint evict_while (fuel : nat) (cond : manager -> bool) (m : manager) : result unit ParquetSinkError * manager :=
  match fuel with
  | O => (Ok tt, m)
  | S fuel =>
      if cond m && negb (bool_decide (pm_writers m = ∅))
      then
        match pm_lru m with
        | [] => (Err (PInternal "LRU order out of sync with active writers"), m)
        | oldest :: _ =>
            match close_writer m oldest with
            | (Ok _, m) => evict_while fuel cond m
            | (Err e, m) => (Err e, m)
            end
        end
      else (Ok tt, m)
  end.

Definition evict_lru_while (cond : manager -> bool) (m : manager) : result unit ParquetSinkError * manager :=
  evict_while (S (length (pm_lru m))) cond m.

(** ** Routing one partition *)

Definition next_sequence (m : manager) : N * manager :=
  (pm_file_sequence m, m <| pm_file_sequence := (pm_file_sequence m + 1) mod 65536 |>).

Definition file_full (c : ParquetSinkConfig) (w : PartitionWriter RB) : bool :=
  ((0 <? max_records c) && (max_records c <=? pw_records_written w))
  || ((0 <? max_file_size_bytes c) && (max_file_size_bytes c <=? estimated_writer_bytes w)).

Definition should_roll (m : manager) (a : active) : bool * manager :=
  let c := pm_config m in
  if (0 <? max_file_size_bytes c) && (max_file_size_bytes c <=? estimated_writer_bytes (aw_writer a))
  then (true, m)
  else if 0 <? max_file_interval_sec c
  then let '(t, m) := tick m in (max_file_interval_sec c <=? clock_secs t -s aw_opened_at a, m)
  else (false, m).

(** How many rows the next slice takes; [None]: the open file is full. *)
Definition slice_len (m : manager) (pid : PartitionId) (n : N) : option N :=
  let limit := max_records (pm_config m) in
  if 0 <? limit
  then
    match pm_writers m !! pid with
    | Some a =>
        let remaining := limit -s pw_records_written (aw_writer a) in
        if remaining =? 0 then None else Some (if remaining <? n then remaining else n)
    | None => Some (if limit <? n then limit else n)
    end
  else Some n.

Inductive TurnResult := Turn (next : option RB) | Again | Stop (e : ParquetSinkError).

Definition open_writer (m : manager) (pid : PartitionId) (slice : RB) (slice_memory : N)
  : result unit ParquetSinkError * manager :=
  let limit m := max_open_partitions (pm_config m) <=? N.of_nat (size (pm_writers m)) in
  match evict_lru_while limit m with
  | (Err e, m) => (Err e, m)
  | (Ok _, m) =>
      let '(seq, m) := next_sequence m in
      let '(t, m) := tick m in
      let '(filename, namer) := generate_filename (pm_namer m) pid.2 seq (clock_nanos t) (uuid_v7 t) in
      let m := m <| pm_namer := namer |> in
      match (match uploader_start filename with Err e => Err e | Ok _ => try_new (rb_schema slice) end) with
      | Err e => (Err e, m)
      | Ok w =>
          match write_batch w slice with
          | (Err e, _) => (Err e, m)
          | (Ok _, w) =>
              let '(t, m) := tick m in
              let a := mkActiveWriter w filename (clock_secs t) slice_memory in
              let m := m <| pm_global_memory := pm_global_memory m + slice_memory |> in
              if file_full (pm_config m) w
              then
                match retire_active_writer m pid a with
                | (Ok _, m) => check_background_errors m
                | (Err e, m) => (Err e, m)
                end
              else (Ok tt, m <| pm_writers := <[pid := a]> (pm_writers m) |> <| pm_lru := pm_lru m ++ [pid] |>)
          end
      end
  end.

Definition append_writer (m : manager) (pid : PartitionId) (a : active) (slice : RB) (slice_memory : N)
  : result unit ParquetSinkError * manager :=
  match write_batch (aw_writer a) slice with
  | (Err e, _) => (Err e, abort_writer m pid)
  | (Ok _, w) =>
      let a := mkActiveWriter w (aw_file a) (aw_opened_at a) (aw_buffered_memory a + slice_memory) in
      let m := m <| pm_lru := lru_remove pid (pm_lru m) ++ [pid] |>
                 <| pm_writers := <[pid := a]> (pm_writers m) |>
                 <| pm_global_memory := pm_global_memory m + slice_memory |> in
      if file_full (pm_config m) w then close_writer m pid else (Ok tt, m)
  end.

(** A slice's share of the batch's memory, in 64-bit arithmetic. *)
Definition slice_share (total_memory write_len total_rows : N) : N :=
  (total_memory * write_len) mod 18446744073709551616 / total_rows.

(** One turn of the loop of [route_sub_batch]. *)
Definition route_turn (m : manager) (pid : PartitionId) (total_memory total_rows : N) (current : RB)
  : TurnResult * manager :=
  let n := num_rows current in
  match slice_len m pid n with
  | None =>
      match close_writer m pid with
      | (Ok _, m) => (Again, m)
      | (Err e, m) => (Stop e, m)
      end
  | Some write_len =>
      let slice := if write_len =? n then current else rb_slice current 0 write_len in
      let slice_memory := slice_share total_memory write_len total_rows in
      let next := if write_len =? n then None else Some (rb_slice current write_len (n - write_len)) in
      match pm_writers m !! pid with
      | Some a =>
          let '(roll, m) := should_roll m a in
          if roll
          then
            match close_writer m pid with
            | (Ok _, m) => (Again, m)
            | (Err e, m) => (Stop e, m)
            end
          else
            match append_writer m pid a slice slice_memory with
            | (Ok _, m) => (Turn next, m)
            | (Err e, m) => (Stop e, m)
            end
      | None =>
          match open_writer m pid slice slice_memory with
          | (Ok _, m) => (Turn next, m)
          | (Err e, m) => (Stop e, m)
          end
      end
  end.

(** The loop: [None] when the fuel runs out. *)
Fixpoint route_loop (fuel : nat) (m : manager) (pid : PartitionId) (total_memory total_rows : N) (current : RB)
  : option (result unit ParquetSinkError * manager) :=
  match fuel with
  | O => None
  | S fuel =>
      if num_rows current =? 0 then Some (Ok tt, m)
      else
        match route_turn m pid total_memory total_rows current with
        | (Turn None, m) => Some (Ok tt, m)
        | (Turn (Some rest), m) => route_loop fuel m pid total_memory total_rows rest
        | (Again, m) => route_loop fuel m pid total_memory total_rows current
        | (Stop e, m) => Some (Err e, m)
        end
  end.

Definition over_memory (total_batch_memory : N) (m : manager) : bool :=
  (0 <? global_memory_limit_bytes (pm_config m))
  && (global_memory_limit_bytes (pm_config m) <? pm_global_memory m +us total_batch_memory).

(** Each row costs at most two turns, one of which closes a file. *)
Definition route_fuel (batch : RB) : nat := S (2 * N.to_nat (num_rows batch)).

Definition route_sub_batch (m : manager) (pid : PartitionId) (batch : RB)
  : option (result unit ParquetSinkError * manager) :=
  if num_rows batch =? 0 then Some (Ok tt, m)
  else
    let total_memory := rb_memory_size batch in
    let limit := global_memory_limit_bytes (pm_config m) in
    if (0 <? limit) && (limit <? total_memory)
    then Some (Err (PConfig "RecordBatch size exceeds global memory limit"), m)
    else
      match evict_lru_while (over_memory total_memory) m with
      | (Err e, m) => Some (Err e, m)
      | (Ok _, m) => route_loop (route_fuel batch) m pid total_memory (num_rows batch) batch
      end.

(** ** Routing a batch *)

(** [row_key]: a row's own key, or the current time's. *)
Definition row_keys (fallback : PartitionKey) (batch : RB) : list PartitionKey :=
  match temporal_components batch with
  | None => repeat fallback (N.to_nat (num_rows batch))
  | Some keys => map (default fallback) keys
  end.

Fixpoint distinct_keys (seen : list PartitionKey) (keys : list PartitionKey) : list PartitionKey :=
  match keys with
  | [] => seen
  | k :: keys => distinct_keys (if bool_decide (k ∈ seen) then seen else seen ++ [k]) keys
  end.

Definition partition_id (m : manager) (signal : string) (k : PartitionKey) : PartitionId :=
  (signal, format_partition_path (partition_pattern (pm_config m)) signal k).

Fixpoint route_keys (m : manager) (signal : string) (batch : RB) (rows todo : list PartitionKey)
  : option (result unit ParquetSinkError * manager) :=
  match todo with
  | [] => Some (Ok tt, m)
  | k :: todo =>
      match filter_record_batch batch (map (fun x => bool_decide (x = k)) rows) with
      | None => Some (Err PArrow, m)
      | Some sub =>
          match route_sub_batch m (partition_id m signal k) sub with
          | Some (Ok _, m) => route_keys m signal batch rows todo
          | other => other
          end
      end
  end.

Definition route_batch (m : manager) (batch : RB) (signal : string)
  : option (result unit ParquetSinkError * manager) :=
  match check_background_errors m with
  | (Err e, m) => Some (Err e, m)
  | (Ok _, m) =>
      if num_rows batch =? 0 then Some (Ok tt, m)
      else
        let '(t, m) := tick m in
        let rows := row_keys (utc_now t) batch in
        match rows with
        | [] => Some (Ok tt, m)
        | first_key :: others =>
            if forallb (fun k => bool_decide (k = first_key)) others
            then route_sub_batch m (partition_id m signal first_key) batch
            else route_keys m signal batch rows (distinct_keys [] rows)
        end
  end.

(** ** Sweeping and flushing *)

Definition res_err (r : result unit ParquetSinkError) : option ParquetSinkError :=
  match r with Ok _ => None | Err e => Some e end.

Fixpoint close_each (m : manager) (keys : list PartitionId) (first_error : option ParquetSinkError)
  : option ParquetSinkError * manager :=
  match keys with
  | [] => (first_error, m)
  | k :: keys =>
      let '(res, m) := close_writer m k in
      close_each m keys (match res with Ok _ => first_error | Err e => first_err first_error e end)
  end.

Definition finish_closing (first_error : option ParquetSinkError) (m : manager)
  : result unit ParquetSinkError * manager :=
  let '(res, m) := check_background_errors m in
  (match (match res with Ok _ => first_error | Err e => first_err first_error e end) with
   | Some e => Err e
   | None => Ok tt
   end, m).

Definition sweep_idle_writers (m : manager) : result unit ParquetSinkError * manager :=
  let '(res, m) := check_background_errors m in
  let c := pm_config m in
  if max_file_interval_sec c =? 0 then (res, m)
  else
    let '(t, m) := tick m in
    let idle := filter (fun p => max_file_interval_sec c <= clock_secs t -s aw_opened_at p.2)
                  (map_to_list (pm_writers m)) in
    let '(err, m) := close_each m (map fst idle) (res_err res) in
    finish_closing err m.

Definition flush_all (m : manager) : result unit ParquetSinkError * manager :=
  let '(res, m) := check_background_errors m in
  let '(err, m) := close_each m (map fst (map_to_list (pm_writers m))) (res_err res) in
  finish_closing err m.

(** Draining every in-flight upload in order. *)
Definition wait_for_all_uploads (m : manager) : result unit ParquetSinkError * manager :=
  (match foldl (fun err id => match upload_result id with Ok _ => err | Err e => first_err err e end) None
           (pm_in_flight m) with
   | Some e => Err e
   | None => Ok tt
   end, m <| pm_in_flight := [] |>).

(** ** Rows of a partition

    Everything written to a partition, in order: its closed files, then its open
    one. *)

Definition slice_rows (slices : list RB) : list Row := concat (map rb_rows slices).

Definition retired_rows (pid : PartitionId) (files : list (RetiredFile RB)) : list Row :=
  concat (map (fun f => if decide (rf_partition f = pid) then slice_rows (rf_slices f) else []) files).

Definition open_rows (pid : PartitionId) (ws : gmap PartitionId active) : list Row :=
  match ws !! pid with Some a => slice_rows (pw_slices (aw_writer a)) | None => [] end.

Definition rows_of (m : manager) (pid : PartitionId) : list Row :=
  retired_rows pid (pm_retired m) ++ open_rows pid (pm_writers m).

Definition slices_len (slices : list RB) : N := sum_N num_rows slices.

Definition total_buffered (ws : gmap PartitionId active) : N :=
  sum_N (fun p => aw_buffered_memory p.2) (map_to_list ws).

(** [ext] is the memory other managers charged to a shared tracker. *)
Record manager_inv (ext : N) (m : manager) : Prop := {
  mi_lru : pm_lru m ≡ₚ map fst (map_to_list (pm_writers m));
  mi_memory : pm_global_memory m = ext + total_buffered (pm_writers m);
  mi_open : forall pid a, pm_writers m !! pid = Some a ->
    pw_records_written (aw_writer a) = slices_len (pw_slices (aw_writer a)) /\
    file_full (pm_config m) (aw_writer a) = false;
  mi_retired : forall f, f ∈ pm_retired m -> 0 < max_records (pm_config m) ->
    slices_len (rf_slices f) <= max_records (pm_config m);
  mi_pool : N.of_nat (size (pm_writers m)) <= N.max 1 (max_open_partitions (pm_config m));
  mi_uploads : 0 < max_concurrent_uploads (pm_config m) ->
    N.of_nat (length (pm_in_flight m)) <= max_concurrent_uploads (pm_config m);
}.

(** Two states that differ only in uploads and the environment counter. *)
Definition quiet (m m' : manager) : Prop :=
  pm_config m' = pm_config m /\ pm_writers m' = pm_writers m /\ pm_lru m' = pm_lru m /\
  pm_global_memory m' = pm_global_memory m /\ pm_retired m' = pm_retired m /\
  (length (pm_in_flight m') <= length (pm_in_flight m))%nat.

Lemma quiet_refl m : quiet m m.
Proof. by repeat split. Qed.

Lemma quiet_trans m1 m2 m3 : quiet m1 m2 -> quiet m2 m3 -> quiet m1 m3.
Proof. unfold quiet. intuition (congruence || lia). Qed.

Lemma quiet_inv ext m m' : quiet m m' -> manager_inv ext m -> manager_inv ext m'.
Proof.
  intros (E1 & E2 & E3 & E4 & E5 & E6) [L1 L2 L3 L4 L5 L6]. split; rewrite ?E1, ?E2, ?E3, ?E4, ?E5; try done.
  intros Hpos. specialize (L6 Hpos). lia.
Qed.

Lemma quiet_rows m m' pid : quiet m m' -> rows_of m' pid = rows_of m pid.
Proof. intros (_ & E2 & _ & _ & E5 & _). unfold rows_of. by rewrite E2, E5. Qed.

Lemma check_uploads_length t ids e : (length (check_uploads t ids e).1 <= length ids)%nat.
Proof.
  revert e. induction ids as [|id ids IH]; intros e; cbn; [lia|]. destruct (upload_finished t id).
  - etrans; [apply IH | lia].
  - specialize (IH e). destruct (check_uploads t ids e). cbn in *. lia.
Qed.

Lemma check_background_errors_quiet m : quiet m (check_background_errors m).2.
Proof.
  unfold check_background_errors, tick. cbn. pose proof (check_uploads_length (pm_tick m) (pm_in_flight m) None).
  destruct (check_uploads _ _ _). by repeat split.
Qed.

Lemma wait_oldest_quiet m : quiet m (wait_oldest_in_flight_upload m).2.
Proof.
  unfold wait_oldest_in_flight_upload. destruct (pm_in_flight m) as [|o rest] eqn:E; [apply quiet_refl|].
  set (m1 := m <| pm_in_flight := rest |>).
  assert (Q : quiet m m1) by (repeat split; rewrite E; cbn; lia).
  destruct (upload_result o); [|exact Q].
  eapply quiet_trans; [exact Q | apply check_background_errors_quiet].
Qed.

Lemma wait_oldest_shortens m :
  (0 < length (pm_in_flight m))%nat ->
  (length (pm_in_flight (wait_oldest_in_flight_upload m).2) < length (pm_in_flight m))%nat.
Proof.
  unfold wait_oldest_in_flight_upload. destruct (pm_in_flight m) as [|o rest]; cbn; [lia|]. intros _.
  destruct (upload_result o); cbn; [|lia].
  unfold check_background_errors, tick. cbn.
  pose proof (check_uploads_length (pm_tick m) rest None). destruct (check_uploads _ _ _). cbn in *. lia.
Qed.

Lemma wait_for_slot_quiet fuel m e : quiet m (wait_for_slot fuel m e).2.
Proof.
  revert m e. induction fuel as [|fuel IH]; intros m e; cbn; [apply quiet_refl|].
  destruct (_ && _); [|apply quiet_refl]. pose proof (wait_oldest_quiet m) as Hq.
  destruct (wait_oldest_in_flight_upload m) as [res m1]. eapply quiet_trans; [exact Hq | apply IH].
Qed.

(** The wait loop ends with room for one more upload. *)
Lemma wait_for_slot_room fuel m e :
  (length (pm_in_flight m) < fuel)%nat -> let m' := (wait_for_slot fuel m e).2 in
  0 < max_concurrent_uploads (pm_config m) ->
  N.of_nat (length (pm_in_flight m')) < max_concurrent_uploads (pm_config m).
Proof.
  revert m e. induction fuel as [|fuel IH]; intros m e Hf; [lia|]. cbn. intros Hpos.
  destruct ((0 <? max_concurrent_uploads (pm_config m)) && _) eqn:Ec.
  - apply andb_true_iff in Ec as [_ Ec]. apply N.leb_le in Ec.
    pose proof (wait_oldest_shortens m ltac:(lia)) as Hs. pose proof (wait_oldest_quiet m) as (Hc & _).
    destruct (wait_oldest_in_flight_upload m) as [res m1]. cbn in *. rewrite <- Hc in *. apply IH; [lia | done].
  - apply andb_false_iff in Ec as [Ec|Ec]; [apply N.ltb_ge in Ec; lia | by apply N.leb_gt in Ec].
Qed.

(** ** Bookkeeping of the writer table *)

Lemma total_buffered_insert ws pid a :
  ws !! pid = None -> total_buffered (<[pid := a]> ws) = aw_buffered_memory a + total_buffered ws.
Proof. intros Hn. unfold total_buffered. by rewrite (map_to_list_insert ws pid a Hn), sum_N_cons. Qed.

Lemma total_buffered_delete ws pid a :
  ws !! pid = Some a -> total_buffered ws = aw_buffered_memory a + total_buffered (delete pid ws).
Proof.
  intros Hs. rewrite <- (total_buffered_insert _ pid) by apply lookup_delete_eq. by rewrite insert_delete_id.
Qed.

Lemma keys_delete (ws : gmap PartitionId active) pid a :
  ws !! pid = Some a -> map fst (map_to_list ws) ≡ₚ pid :: map fst (map_to_list (delete pid ws)).
Proof.
  intros Hs. rewrite <- (insert_delete_id ws pid a Hs) at 1.
  change (fst <$> map_to_list (<[pid := a]> (delete pid ws)) ≡ₚ pid :: (fst <$> map_to_list (delete pid ws))).
  by rewrite (map_to_list_insert (delete pid ws) pid a (lookup_delete_eq _ _)).
Qed.

Lemma keys_elem (ws : gmap PartitionId active) pid :
  pid ∈ map fst (map_to_list ws) <-> is_Some (ws !! pid).
Proof.
  rewrite list_elem_of_fmap. split.
  - intros ([k a] & -> & Hin). apply elem_of_map_to_list in Hin. by exists a.
  - intros [a Ha]. exists (pid, a). split; [done|]. by apply elem_of_map_to_list.
Qed.

Lemma lru_remove_perm pid lru k : lru ≡ₚ pid :: k -> lru_remove pid lru ≡ₚ k.
Proof.
  intros Hp. assert (Hin : pid ∈ lru) by (rewrite Hp; by left). revert k Hp.
  induction lru as [|x lru IH]; intros k Hp; [by apply not_elem_of_nil in Hin|]. cbn [lru_remove].
  case_bool_decide as Hx; [subst x; by apply Permutation_cons_inv in Hp|].
  apply elem_of_cons in Hin as [->|Hin]; [done|].
  assert (Hpid : exists k', lru ≡ₚ pid :: k').
  { apply list_elem_of_split in Hin as (l1 & l2 & ->). exists (l1 ++ l2). symmetry. apply Permutation_middle. }
  destruct Hpid as [k' Hk']. rewrite (IH Hin k' Hk'). apply (Permutation_cons_inv (a := pid)). rewrite <- Hp, Hk'.
  apply Permutation_swap.
Qed.

Lemma lru_remove_notin pid lru : pid ∉ lru -> lru_remove pid lru = lru.
Proof.
  induction lru as [|x lru IH]; [done|]. intros [Hne Hni]%not_elem_of_cons. cbn [lru_remove].
  rewrite bool_decide_eq_false_2 by congruence. by rewrite IH.
Qed.

Lemma retired_rows_app pid l1 l2 : retired_rows pid (l1 ++ l2) = retired_rows pid l1 ++ retired_rows pid l2.
Proof. unfold retired_rows. by rewrite map_app, concat_app. Qed.

(** ** Closing a file *)

Lemma retire_spec ext m pid a :
  manager_inv ext m -> pm_writers m !! pid = None ->
  pw_records_written (aw_writer a) = slices_len (pw_slices (aw_writer a)) ->
  (0 < max_records (pm_config m) -> pw_records_written (aw_writer a) <= max_records (pm_config m)) ->
  let m' := (retire_active_writer (m <| pm_global_memory := pm_global_memory m + aw_buffered_memory a |>) pid a).2 in
  manager_inv ext m' /\ pm_config m' = pm_config m /\ pm_writers m' = pm_writers m /\ pm_lru m' = pm_lru m /\
  rows_of m' pid = rows_of m pid ++ slice_rows (pw_slices (aw_writer a)) /\
  (forall p, p <> pid -> rows_of m' p = rows_of m p).
Proof.
  intros I Hn Hr Hmax. unfold retire_active_writer.
  set (m0 := _ <| pm_global_memory := _ -s _ |>).
  assert (Q0 : quiet m m0) by (repeat split; subst m0; cbn; unfold sat_sub; lia).
  pose proof (wait_for_slot_quiet (S (length (pm_in_flight m0))) m0 None) as Q1.
  pose proof (wait_for_slot_room (S (length (pm_in_flight m0))) m0 None ltac:(lia)) as Hroom.
  destruct (wait_for_slot _ m0 None) as [we m1]. cbn [snd] in Q1, Hroom. change (pm_config m0) with (pm_config m) in Hroom.
  pose proof (quiet_trans _ _ _ Q0 Q1) as Q. clear Q0 Q1 m0.
  set (file := mkRetiredFile pid _ _ _). set (m2 := _ <| pm_retired := _ |>).
  assert (H2 : manager_inv ext m2 /\ pm_config m2 = pm_config m /\ pm_writers m2 = pm_writers m /\ pm_lru m2 = pm_lru m /\
    rows_of m2 pid = rows_of m pid ++ slice_rows (pw_slices (aw_writer a)) /\
    (forall p, p <> pid -> rows_of m2 p = rows_of m p)).
  { pose proof (quiet_inv ext _ _ Q I) as I1. pose proof Q as (E1 & E2 & E3 & E4 & E5 & E6).
    assert (Er : pm_retired m2 = pm_retired m ++ [file]) by by rewrite <- E5.
    assert (Ew : pm_writers m2 = pm_writers m) by done.
    assert (Ec : pm_config m2 = pm_config m) by done.
    split_and!; try done.
    - destruct I1 as [L1 L2 L3 L4 L5 _]. split; rewrite ?Ew, ?Ec.
      + by rewrite <- E2.
      + rewrite <- E2. apply L2.
      + rewrite <- E1, <- E2. apply L3.
      + intros f. rewrite Er. intros [Hf|Hf]%elem_of_app Hpos.
        * rewrite <- E1 in *. apply L4; [by rewrite E5 | done].
        * apply list_elem_of_singleton in Hf as ->. change (rf_slices file) with (pw_slices (aw_writer a)).
          rewrite <- Hr. by apply Hmax.
      + rewrite <- E1, <- E2. exact L5.
      + intros Hpos. specialize (Hroom Hpos).
        change (pm_in_flight m2) with (pm_in_flight m1 ++ [pm_next_upload m1]). rewrite length_app. cbn. lia.
    - unfold rows_of. rewrite Er, Ew, retired_rows_app. unfold open_rows. rewrite Hn, !app_nil_r.
      f_equal. unfold retired_rows. cbn [map concat rf_partition rf_slices file]. rewrite decide_True by done.
      by rewrite app_nil_r.
    - intros p Hp. unfold rows_of. rewrite Er, Ew, retired_rows_app. f_equal.
      unfold retired_rows at 2. cbn [map concat rf_partition rf_slices file].
      rewrite decide_False by congruence. by rewrite !app_nil_r. }
  assert (Hdone : forall m3, quiet m2 m3 -> manager_inv ext m3 /\ pm_config m3 = pm_config m /\
    pm_writers m3 = pm_writers m /\ pm_lru m3 = pm_lru m /\
    rows_of m3 pid = rows_of m pid ++ slice_rows (pw_slices (aw_writer a)) /\
    (forall p, p <> pid -> rows_of m3 p = rows_of m p)).
  { intros m3 Q3. destruct H2 as (I2 & F1 & F2 & F3 & F4 & F5). pose proof Q3 as (G1 & G2 & G3 & _ & _).
    split; [by eapply quiet_inv|]. rewrite G1, G2, G3, (quiet_rows _ _ _ Q3). split_and!; try done.
    intros p Hp. rewrite (quiet_rows _ _ _ Q3). by apply F5. }
  destruct (negb _); [apply Hdone, quiet_refl|]. destruct we; [apply Hdone, quiet_refl|].
  apply Hdone, check_background_errors_quiet.
Qed.

(** [m] without the writer of [pid]. *)
Definition without (m : manager) (pid : PartitionId) (a : active) : manager :=
  m <| pm_lru := lru_remove pid (pm_lru m) |> <| pm_writers := delete pid (pm_writers m) |>
    <| pm_global_memory := pm_global_memory m - aw_buffered_memory a |>.

Lemma without_inv ext m pid a :
  manager_inv ext m -> pm_writers m !! pid = Some a ->
  manager_inv ext (without m pid a) /\ aw_buffered_memory a <= pm_global_memory m.
Proof.
  intros [L1 L2 L3 L4 L5 L6] Ha. pose proof (total_buffered_delete _ _ _ Ha) as Ht. split; [|lia].
  assert (E1 : pm_lru (without m pid a) = lru_remove pid (pm_lru m)) by done.
  assert (E2 : pm_writers (without m pid a) = delete pid (pm_writers m)) by done.
  assert (E3 : pm_global_memory (without m pid a) = pm_global_memory m - aw_buffered_memory a) by done.
  split; rewrite ?E1, ?E2, ?E3.
  - apply lru_remove_perm. etrans; [exact L1|]. by apply (keys_delete _ _ a).
  - lia.
  - intros p b Hb. apply lookup_delete_Some in Hb as [_ Hb]. by apply (L3 p).
  - exact L4.
  - rewrite map_size_delete, Ha. change (pm_config (without m pid a)) with (pm_config m). lia.
  - exact L6.
Qed.

Definition written_ok (m : manager) (a : active) : Prop :=
  pw_records_written (aw_writer a) = slices_len (pw_slices (aw_writer a)) /\
  (0 < max_records (pm_config m) -> pw_records_written (aw_writer a) <= max_records (pm_config m)).

Lemma open_written_ok ext m pid a : manager_inv ext m -> pm_writers m !! pid = Some a -> written_ok m a.
Proof.
  intros I Ha. destruct (mi_open _ _ I _ _ Ha) as [H1 H2]. split; [done|]. intros Hpos.
  unfold file_full in H2. apply orb_false_iff in H2 as [H2 _]. apply andb_false_iff in H2 as [H2|H2].
  - apply N.ltb_ge in H2. lia.
  - apply N.leb_gt in H2. lia.
Qed.

Lemma set_global_eq (m m' : manager) g :
  m <| pm_global_memory := 0 |> = m' <| pm_global_memory := 0 |> -> pm_global_memory m = g ->
  m = m' <| pm_global_memory := g |>.
Proof. destruct m, m'. intros E <-. injection E as -> -> -> -> -> -> -> -> ->. done. Qed.

Lemma close_writer_some ext m pid a :
  pm_writers m !! pid = Some a -> manager_inv ext (without m pid a) ->
  aw_buffered_memory a <= pm_global_memory m -> written_ok m a ->
  let m' := (close_writer m pid).2 in
  manager_inv ext m' /\ pm_config m' = pm_config m /\ pm_writers m' = delete pid (pm_writers m) /\
  pm_lru m' = lru_remove pid (pm_lru m) /\ forall p, rows_of m' p = rows_of m p.
Proof.
  intros Ha I Hle [Hw1 Hw2]. unfold close_writer. cbn zeta. change (pm_writers (m <| pm_lru := _ |>)) with (pm_writers m).
  rewrite Ha. set (m0 := _ <| pm_writers := _ |>).
  pose proof (retire_spec ext (without m pid a) pid a I (lookup_delete_eq _ _) Hw1 Hw2) as R. cbv zeta in R.
  assert (E0 : m0 = (without m pid a) <| pm_global_memory := pm_global_memory (without m pid a) + aw_buffered_memory a |>).
  { apply set_global_eq; try done. change (pm_global_memory m = pm_global_memory m - aw_buffered_memory a + aw_buffered_memory a). lia. }
  rewrite <- E0 in R. destruct (retire_active_writer m0 pid a) as [res m1]. cbn [snd] in R.
  destruct R as (R1 & R2 & R3 & R4 & R5 & R6).
  pose proof (check_background_errors_quiet m1) as Q. destruct (check_background_errors m1) as [bg m2]. cbn [snd] in *.
  pose proof Q as (Q1 & Q2 & Q3 & _ & _). split; [by eapply quiet_inv|]. rewrite Q1, Q2, Q3, R2, R3, R4.
  split_and!; try done. intros p. rewrite (quiet_rows _ _ _ Q). destruct (decide (p = pid)) as [->|Hp].
  - rewrite R5. unfold rows_of, open_rows. rewrite Ha.
    change (pm_writers (without m pid a)) with (delete pid (pm_writers m)). rewrite lookup_delete_eq.
    change (pm_retired (without m pid a)) with (pm_retired m). by rewrite app_nil_r.
  - rewrite R6 by done. unfold rows_of, open_rows.
    change (pm_writers (without m pid a)) with (delete pid (pm_writers m)). by rewrite lookup_delete_ne.
Qed.

Lemma close_writer_spec ext m pid :
  manager_inv ext m ->
  let m' := (close_writer m pid).2 in
  manager_inv ext m' /\ pm_config m' = pm_config m /\ pm_writers m' = delete pid (pm_writers m) /\
  pm_lru m' = lru_remove pid (pm_lru m) /\ forall p, rows_of m' p = rows_of m p.
Proof.
  intros I. destruct (pm_writers m !! pid) as [a|] eqn:Ha.
  - destruct (without_inv _ _ _ _ I Ha) as [I' Hle]. apply (close_writer_some ext m pid a); try done.
    by eapply open_written_ok.
  - unfold close_writer. cbn zeta. change (pm_writers (m <| pm_lru := _ |>)) with (pm_writers m). rewrite Ha.
    set (m1 := _ <| pm_lru := _ |>). pose proof (check_background_errors_quiet m1) as Q.
    destruct (check_background_errors m1) as [bg m2]. cbn [snd] in *.
    assert (Hni : pid ∉ pm_lru m).
    { rewrite (mi_lru _ _ I), keys_elem, Ha. by intros [? ?]. }
    assert (E : m1 = m). { subst m1. rewrite lru_remove_notin by done. by destruct m. }
    rewrite E in Q. pose proof Q as (Q1 & Q2 & Q3 & _ & _). split; [by eapply quiet_inv|].
    rewrite Q1, Q2, Q3, lru_remove_notin, delete_id by done. split_and!; try done.
    intros p. by apply quiet_rows.
Qed.

(** ** Eviction *)

Lemma inv_global_delete ext m m' pid :
  manager_inv ext m -> manager_inv ext m' -> pm_writers m' = delete pid (pm_writers m) ->
  pm_global_memory m' <= pm_global_memory m.
Proof.
  intros I I' E. rewrite (mi_memory _ _ I), (mi_memory _ _ I'), E. destruct (pm_writers m !! pid) as [a|] eqn:Ha.
  - rewrite (total_buffered_delete _ _ _ Ha). lia.
  - by rewrite delete_id.
Qed.

(** What eviction leaves alone. *)
Record evicted (ext : N) (m m' : manager) : Prop := {
  ev_inv : manager_inv ext m';
  ev_config : pm_config m' = pm_config m;
  ev_rows : forall p, rows_of m' p = rows_of m p;
  ev_gone : forall p, pm_writers m !! p = None -> pm_writers m' !! p = None;
  ev_memory : pm_global_memory m' <= pm_global_memory m;
}.

Lemma evicted_refl ext m : manager_inv ext m -> evicted ext m m.
Proof. by split. Qed.

Lemma evicted_trans ext m1 m2 m3 : evicted ext m1 m2 -> evicted ext m2 m3 -> evicted ext m1 m3.
Proof. intros [] []. split; try done; [congruence | intros p; congruence | naive_solver | lia]. Qed.

Lemma quiet_evicted ext m m' : quiet m m' -> manager_inv ext m -> evicted ext m m'.
Proof.
  intros Q I. pose proof Q as (E1 & E2 & E3 & E4 & E5). split; rewrite ?E2, ?E4; try done.
  - by eapply quiet_inv.
  - intros p. by apply quiet_rows.
Qed.

Lemma close_writer_evicted ext m pid : manager_inv ext m -> evicted ext m (close_writer m pid).2.
Proof.
  intros I. pose proof (close_writer_spec ext m pid I) as (C1 & C2 & C3 & C4 & C5). split; try done.
  - intros p Hp. rewrite C3. apply lookup_delete_None. by right.
  - by apply (inv_global_delete ext m _ pid).
Qed.

Lemma evict_while_spec ext fuel cond m :
  manager_inv ext m -> (length (pm_lru m) < fuel)%nat ->
  let r := evict_while fuel cond m in
  evicted ext m r.2 /\ (r.1 = Ok tt -> cond r.2 = false \/ pm_writers r.2 = ∅).
Proof.
  revert m. induction fuel as [|fuel IH]; intros m I Hf; [lia|]. cbn [evict_while].
  pose proof (evicted_refl ext m I) as Ir.
  destruct (cond m) eqn:Ec; cbn [andb]; [|by split; [|intros; left]].
  case_bool_decide as Hw; cbn [negb]; [by split; [|intros; right]|].
  destruct (pm_lru m) as [|oldest lru] eqn:El; [by split|].
  pose proof (close_writer_spec ext m oldest I) as (C1 & _ & _ & C4 & _).
  pose proof (close_writer_evicted ext m oldest I) as Ce.
  destruct (close_writer m oldest) as [[[]|e] m1]; cbn [snd] in *; [|by split].
  assert (Hlen : (length (pm_lru m1) < fuel)%nat).
  { rewrite C4, El. cbn [lru_remove]. rewrite bool_decide_eq_true_2 by done. cbn in Hf. lia. }
  destruct (IH m1 C1 Hlen) as [F1 F2]. split; [by eapply evicted_trans | done].
Qed.

Lemma evict_lru_while_spec ext cond m :
  manager_inv ext m -> let r := evict_lru_while cond m in
  evicted ext m r.2 /\ (r.1 = Ok tt -> cond r.2 = false \/ pm_writers r.2 = ∅).
Proof. intros I. by apply evict_while_spec; [|lia]. Qed.

(** ** Writing a slice *)

Lemma write_batch_ok w slice w' :
  write_batch w slice = (Ok tt, w') ->
  pw_slices w' = pw_slices w ++ [slice] /\ pw_records_written w' = pw_records_written w + num_rows slice.
Proof. unfold write_batch. destruct (pq_write _ _) as [[[] ?] ?]; [by intros [= <-] | done]. Qed.

Lemma slices_len_app l1 l2 : slices_len (l1 ++ l2) = slices_len l1 + slices_len l2.
Proof. apply sum_N_app. Qed.

Lemma slice_rows_snoc l b : slice_rows (l ++ [b]) = slice_rows l ++ rb_rows b.
Proof. unfold slice_rows. rewrite map_app, concat_app. cbn. by rewrite app_nil_r. Qed.

(** Work on one partition that charges at most [mem] bytes. *)
Record worked (ext : N) (pid : PartitionId) (mem : N) (m m' : manager) : Prop := {
  wk_inv : manager_inv ext m';
  wk_config : pm_config m' = pm_config m;
  wk_others : forall p, p <> pid -> rows_of m' p = rows_of m p;
  wk_memory : pm_global_memory m' <= pm_global_memory m + mem;
}.

Lemma evicted_worked ext pid mem m m' : evicted ext m m' -> worked ext pid mem m m'.
Proof. intros []. split; try done. lia. Qed.

Lemma worked_trans ext pid mem1 mem2 m1 m2 m3 :
  worked ext pid mem1 m1 m2 -> worked ext pid mem2 m2 m3 -> worked ext pid (mem1 + mem2) m1 m3.
Proof. intros [] []. split; try done; [congruence | intros p Hp; rewrite wk_others1, wk_others0; done | lia]. Qed.

Lemma worked_evicted ext pid mem m1 m2 m3 : worked ext pid mem m1 m2 -> evicted ext m2 m3 -> worked ext pid mem m1 m3.
Proof. intros W E. rewrite <- (N.add_0_r mem). eapply worked_trans; [exact W|]. by apply evicted_worked. Qed.

Lemma without_rows m pid a p : p <> pid -> rows_of (without m pid a) p = rows_of m p.
Proof.
  intros Hp. unfold rows_of, open_rows.
  change (pm_writers (without m pid a)) with (delete pid (pm_writers m)). by rewrite lookup_delete_ne.
Qed.

Lemma abort_writer_spec ext m pid a mem :
  manager_inv ext m -> pm_writers m !! pid = Some a -> worked ext pid mem m (abort_writer m pid).
Proof.
  intros I Ha. destruct (without_inv _ _ _ _ I Ha) as [I' Hle].
  assert (E : abort_writer m pid = without m pid a).
  { unfold abort_writer. cbn zeta. change (pm_writers (m <| pm_lru := _ |>)) with (pm_writers m). by rewrite Ha. }
  rewrite E. split; try done.
  - intros p Hp. by apply without_rows.
  - change (pm_global_memory m - aw_buffered_memory a <= pm_global_memory m + mem). lia.
Qed.

(** A writer put into (or back into) the table, at the recent end of the LRU. *)
Definition store (m : manager) (pid : PartitionId) (a : active) : manager :=
  m <| pm_lru := pm_lru m ++ [pid] |> <| pm_writers := <[pid := a]> (pm_writers m) |>
    <| pm_global_memory := pm_global_memory m + aw_buffered_memory a |>.

Lemma store_inv ext m pid a :
  manager_inv ext m -> pm_writers m !! pid = None -> N.of_nat (size (pm_writers m)) < N.max 1 (max_open_partitions (pm_config m)) ->
  pw_records_written (aw_writer a) = slices_len (pw_slices (aw_writer a)) ->
  file_full (pm_config m) (aw_writer a) = false -> manager_inv ext (store m pid a).
Proof.
  intros [L1 L2 L3 L4 L5 L6] Hn Hsz Hr Hf.
  assert (E1 : pm_lru (store m pid a) = pm_lru m ++ [pid]) by done.
  assert (E2 : pm_writers (store m pid a) = <[pid := a]> (pm_writers m)) by done.
  assert (E3 : pm_global_memory (store m pid a) = pm_global_memory m + aw_buffered_memory a) by done.
  split; rewrite ?E1, ?E2, ?E3.
  - rewrite (Permutation_app_comm _ [pid]). change (pid :: pm_lru m ≡ₚ (fst <$> map_to_list (<[pid := a]> (pm_writers m)))).
    rewrite (map_to_list_insert _ _ _ Hn). cbn. by constructor.
  - rewrite total_buffered_insert by done. lia.
  - intros p b [[<- <-]|[_ Hb]]%lookup_insert_Some; [done | by apply (L3 p)].
  - exact L4.
  - rewrite map_size_insert_None by done. change (pm_config (store m pid a)) with (pm_config m). lia.
  - exact L6.
Qed.

Lemma store_rows m pid a p :
  pm_writers m !! pid = None ->
  rows_of (store m pid a) p = rows_of m p ++ (if decide (p = pid) then slice_rows (pw_slices (aw_writer a)) else []).
Proof.
  intros Hn. unfold rows_of, open_rows.
  change (pm_writers (store m pid a)) with (<[pid := a]> (pm_writers m)).
  change (pm_retired (store m pid a)) with (pm_retired m). destruct (decide (p = pid)) as [->|Hp].
  - by rewrite lookup_insert_eq, Hn, app_nil_r.
  - by rewrite lookup_insert_ne, app_nil_r by congruence.
Qed.

Lemma without_rows_self m pid a :
  pm_writers m !! pid = Some a ->
  rows_of m pid = rows_of (without m pid a) pid ++ slice_rows (pw_slices (aw_writer a)).
Proof.
  intros Ha. unfold rows_of, open_rows. rewrite Ha.
  change (pm_writers (without m pid a)) with (delete pid (pm_writers m)).
  by rewrite lookup_delete_eq, app_nil_r.
Qed.

Lemma without_store ext m pid a :
  manager_inv ext m -> pm_writers m !! pid = None -> without (store m pid a) pid a = m.
Proof.
  intros I Hn. assert (Hni : pid ∉ pm_lru m) by (rewrite (mi_lru _ _ I), keys_elem, Hn; by intros [? ?]).
  assert (El : lru_remove pid (pm_lru m ++ [pid]) = pm_lru m).
  { clear I Hn. induction (pm_lru m) as [|x l IH]; cbn [lru_remove app].
    - by rewrite bool_decide_eq_true_2.
    - apply not_elem_of_cons in Hni as [Hne Hni]. rewrite bool_decide_eq_false_2 by congruence. by rewrite IH. }
  destruct m as [c nm ws lru g fs fl nu re tk]. cbn in El, Hn.
  change (mkPartitionManager c nm (delete pid (<[pid := a]> ws)) (lru_remove pid (lru ++ [pid]))
    (g + aw_buffered_memory a - aw_buffered_memory a) fs fl nu re tk = mkPartitionManager c nm ws lru g fs fl nu re tk).
  rewrite El, delete_insert_id by done. f_equal. lia.
Qed.

(** Closing the writer that was just stored: what happens when it is full. *)
Lemma close_stored ext m pid a :
  manager_inv ext m -> pm_writers m !! pid = None -> written_ok m a ->
  let m' := (close_writer (store m pid a) pid).2 in
  manager_inv ext m' /\ pm_config m' = pm_config m /\ pm_writers m' = pm_writers m /\
  forall p, rows_of m' p = rows_of (store m pid a) p.
Proof.
  intros I Hn Hw.
  pose proof (close_writer_some ext (store m pid a) pid a) as C.
  rewrite (without_store ext) in C by done. destruct C as (C1 & C2 & C3 & C4 & C5); try done.
  - apply lookup_insert_eq.
  - change (aw_buffered_memory a <= pm_global_memory m + aw_buffered_memory a). lia.
  - cbv zeta. rewrite C3. split_and!; try done.
    change (delete pid (<[pid := a]> (pm_writers m)) = pm_writers m). by rewrite delete_insert_id.
Qed.

Lemma append_writer_spec ext m pid a slice mem :
  manager_inv ext m -> pm_writers m !! pid = Some a ->
  (0 < max_records (pm_config m) -> pw_records_written (aw_writer a) + num_rows slice <= max_records (pm_config m)) ->
  let r := append_writer m pid a slice mem in
  worked ext pid mem m r.2 /\ (r.1 = Ok tt -> rows_of r.2 pid = rows_of m pid ++ rb_rows slice).
Proof.
  intros I Ha Hmax. unfold append_writer. destruct (write_batch (aw_writer a) slice) as [[[]|e] w] eqn:Ew; cycle 1.
  { split; [by eapply abort_writer_spec | done]. }
  apply write_batch_ok in Ew as [Es Er]. set (a' := mkActiveWriter w _ _ _). set (m0 := without m pid a).
  destruct (without_inv _ _ _ _ I Ha) as [I0 Hle]. pose proof (mi_open _ _ I _ _ Ha) as [Hl _].
  assert (Hn : pm_writers m0 !! pid = None) by apply lookup_delete_eq.
  set (m1 := _ <| pm_global_memory := _ |>).
  assert (E1 : m1 = store m0 pid a').
  { subst m1 m0. clear Hn. destruct m as [c nm ws lru g fs fl nu re tk]. cbn in Hle.
    change (mkPartitionManager c nm (<[pid := a']> ws) (lru_remove pid lru ++ [pid]) (g + mem) fs fl nu re tk =
      mkPartitionManager c nm (<[pid := a']> (delete pid ws)) (lru_remove pid lru ++ [pid])
        (g - aw_buffered_memory a + (aw_buffered_memory a + mem)) fs fl nu re tk).
    rewrite insert_delete_eq. f_equal. lia. }
  assert (Hr : pw_records_written (aw_writer a') = slices_len (pw_slices (aw_writer a'))).
  { cbn. rewrite Es, Er, Hl, slices_len_app. unfold slices_len at 3. by rewrite sum_N_cons, N.add_0_r. }
  assert (Hw : written_ok m0 a').
  { split; [done|]. change (pm_config m0) with (pm_config m). cbn. rewrite Er. exact Hmax. }
  assert (Hrows : forall p, rows_of (store m0 pid a') p = rows_of m p ++ (if decide (p = pid) then rb_rows slice else [])).
  { intros p. rewrite store_rows by done. destruct (decide (p = pid)) as [->|Hp].
    - rewrite (without_rows_self m pid a Ha). cbn. by rewrite Es, slice_rows_snoc, app_assoc.
    - unfold m0. by rewrite without_rows. }
  assert (Hg : pm_global_memory (store m0 pid a') = pm_global_memory m + mem).
  { change (pm_global_memory m - aw_buffered_memory a + (aw_buffered_memory a + mem) = pm_global_memory m + mem). lia. }
  rewrite E1. change (pm_config (store m0 pid a')) with (pm_config m0). destruct (file_full (pm_config m0) w) eqn:Ef.
  - destruct (close_stored ext m0 pid a' I0 Hn Hw) as (C1 & C2 & C3 & C4). split; [split|]; try done.
    + intros p Hp. rewrite C4, Hrows. rewrite decide_False by done. by rewrite app_nil_r.
    + rewrite (mi_memory _ _ C1), C3. fold m0 in I0. rewrite <- (mi_memory _ _ I0), <- Hg.
      change (pm_global_memory m0 <= pm_global_memory m0 + aw_buffered_memory a'). lia.
    + intros _. rewrite C4, Hrows. by rewrite decide_True.
  - split; [split|]; cbn [fst snd]; try done.
    + apply store_inv; try done. subst m0. change (pm_writers (without m pid a)) with (delete pid (pm_writers m)).
      change (pm_config (without m pid a)) with (pm_config m).
      pose proof (mi_pool _ _ I). rewrite map_size_delete, Ha.
      assert (size (pm_writers m) <> 0)%nat by (intros Hz%map_size_empty_inv; by rewrite Hz in Ha). lia.
    + intros p Hp. rewrite Hrows, decide_False by done. by rewrite app_nil_r.
    + by rewrite Hg.
    + intros _. rewrite Hrows. by rewrite decide_True.
Qed.

(** A freshly opened file is either retired at once or stored. *)
Lemma retire_opened ext m pid a :
  manager_inv ext m -> pm_writers m !! pid = None -> written_ok m a ->
  let m' := (retire_active_writer (m <| pm_global_memory := pm_global_memory m + aw_buffered_memory a |>) pid a).2 in
  worked ext pid 0 m m' /\ rows_of m' pid = rows_of m pid ++ slice_rows (pw_slices (aw_writer a)).
Proof.
  intros I Hn [Hw1 Hw2]. pose proof (retire_spec ext m pid a I Hn Hw1 Hw2) as (R1 & R2 & R3 & R4 & R5 & R6).
  cbv zeta. split; [split|]; try done.
  rewrite (mi_memory _ _ R1), R3, <- (mi_memory _ _ I). lia.
Qed.

Lemma open_writer_spec ext m pid slice mem :
  manager_inv ext m -> pm_writers m !! pid = None ->
  (0 < max_records (pm_config m) -> num_rows slice <= max_records (pm_config m)) ->
  let r := open_writer m pid slice mem in
  worked ext pid mem m r.2 /\ (r.1 = Ok tt -> rows_of r.2 pid = rows_of m pid ++ rb_rows slice).
Proof.
  intros I Hn Hmax. unfold open_writer. set (limit := fun m : manager => _ : bool).
  pose proof (evict_lru_while_spec ext limit m I) as [Ev Hroom]. fold limit.
  destruct (evict_lru_while limit m) as [[[]|e] m1]; cbn [fst snd] in *; cycle 1.
  { split; [by apply evicted_worked | done]. }
  specialize (Hroom eq_refl). unfold next_sequence, tick. cbn beta iota zeta.
  destruct (generate_filename _ _ _ _ _) as [filename namer]. set (m2 := _ <| pm_namer := namer |>).
  assert (Q : quiet m1 m2) by by repeat split.
  pose proof (evicted_trans _ _ _ _ Ev (quiet_evicted ext _ _ Q (ev_inv _ _ _ Ev))) as E2.
  destruct (match uploader_start filename with Ok _ => _ | Err e => _ end) as [w|e] eqn:Et; cycle 1.
  { split; [by apply evicted_worked | done]. }
  assert (Hnew : pw_slices w = [] /\ pw_records_written w = 0).
  { destruct (uploader_start filename); [|done]. unfold try_new in Et.
    destruct (pq_new _) as [[? ?]|]; [by injection Et as <- | done]. }
  destruct Hnew as [Hs0 Hr0].
  destruct (write_batch w slice) as [[[]|e] w'] eqn:Ew; cycle 1.
  { split; [by apply evicted_worked | done]. }
  apply write_batch_ok in Ew as [Es Er]. rewrite Hs0 in Es. rewrite Hr0 in Er. cbn [app] in Es.
  set (a := mkActiveWriter w' _ _ _). set (m3 := m2 <| pm_tick := _ |>).
  assert (Q3 : quiet m2 m3) by by repeat split.
  pose proof (evicted_trans _ _ _ _ E2 (quiet_evicted ext _ _ Q3 (ev_inv _ _ _ E2))) as E3.
  pose proof E3 as [I3 C3 R3 G3 M3]. specialize (G3 _ Hn).
  assert (Hw : written_ok m3 a).
  { split.
    - cbn. rewrite Es, Er. unfold slices_len. rewrite sum_N_cons. cbn. lia.
    - rewrite C3. cbn. rewrite Er. exact Hmax. }
  set (m4 := m3 <| pm_global_memory := _ |>). change (pm_config m4) with (pm_config m3).
  assert (Hrows : slice_rows (pw_slices (aw_writer a)) = rb_rows slice).
  { cbn. rewrite Es. apply app_nil_r. }
  destruct (file_full (pm_config m3) w') eqn:Ef.
  - pose proof (retire_opened ext m3 pid a I3 G3 Hw) as [W Wr]. cbv zeta in W, Wr.
    change (m3 <| pm_global_memory := pm_global_memory m3 + aw_buffered_memory a |>) with m4 in W, Wr.
    assert (W' : forall m5, quiet (retire_active_writer m4 pid a).2 m5 ->
      worked ext pid mem m m5 /\ rows_of m5 pid = rows_of m pid ++ rb_rows slice).
    { intros m5 Q5. pose proof (quiet_evicted ext _ _ Q5 (wk_inv _ _ _ _ _ W)) as E5. split.
      - eapply worked_evicted; [|exact E5]. rewrite <- (N.add_0_r mem).
        eapply worked_trans; [by apply evicted_worked | exact W].
      - by rewrite (ev_rows _ _ _ E5), Wr, R3, Hrows. }
    destruct (retire_active_writer m4 pid a) as [[[]|e] m5]; cbn [fst snd] in *.
    + destruct (W' (check_background_errors m5).2) as [W1 W2]; [apply check_background_errors_quiet|]. done.
    + destruct (W' m5) as [W1 W2]; [apply quiet_refl|]. done.
  - set (m5 := _ <| pm_lru := _ |>). assert (E5 : m5 = store m3 pid a) by done. cbn [fst snd]. rewrite E5.
    assert (Hsz : N.of_nat (size (pm_writers m3)) < N.max 1 (max_open_partitions (pm_config m3))).
    { change (pm_writers m3) with (pm_writers m1). change (pm_config m3) with (pm_config m1). destruct Hroom as [Hl|He].
      - unfold limit in Hl. apply N.leb_gt in Hl. lia.
      - rewrite He, map_size_empty. lia. }
    split; [split|].
    + apply store_inv; try done. apply Hw.
    + exact C3.
    + intros p Hp. rewrite store_rows, decide_False, app_nil_r by done. apply R3.
    + change (pm_global_memory m3 + mem <= pm_global_memory m + mem). lia.
    + intros _. rewrite store_rows, decide_True by done. by rewrite R3, Hrows.
Qed.

(** ** One turn of the routing loop *)

Context `{!ArrowLaws RB Sch Row}.

Definition next_rows (next : option RB) : list Row := match next with Some b => rb_rows b | None => [] end.

Lemma slice_len_range m pid n k :
  0 < n -> slice_len m pid n = Some k -> 0 < k <= n.
Proof.
  unfold slice_len. intros Hn. destruct (0 <? _) eqn:El; [apply N.ltb_lt in El|by intros [= <-]; lia].
  destruct (pm_writers m !! pid) as [a|].
  - destruct (_ =? 0) eqn:E0; [done|]. apply N.eqb_neq in E0. destruct (_ <? n) eqn:E1.
    + apply N.ltb_lt in E1. intros [= <-]. lia.
    + intros [= <-]. lia.
  - destruct (_ <? n) eqn:E1; [apply N.ltb_lt in E1|]; intros [= <-]; lia.
Qed.

(** No slice takes a file past [max_records]. *)
Lemma slice_len_bound m pid n k :
  slice_len m pid n = Some k -> 0 < max_records (pm_config m) ->
  match pm_writers m !! pid with
  | Some a => pw_records_written (aw_writer a) + k <= max_records (pm_config m)
  | None => k <= max_records (pm_config m)
  end.
Proof.
  unfold slice_len. intros Hs Hpos. apply N.ltb_lt in Hpos as Hb. rewrite Hb in Hs.
  destruct (pm_writers m !! pid) as [a|].
  - unfold sat_sub in Hs. destruct (_ =? 0) eqn:E0; [done|]. apply N.eqb_neq in E0.
    destruct (_ <? n) eqn:E1; [apply N.ltb_lt in E1|apply N.ltb_ge in E1]; injection Hs as <-; lia.
  - destruct (_ <? n) eqn:E1; [apply N.ltb_lt in E1|apply N.ltb_ge in E1]; injection Hs as <-; lia.
Qed.

Lemma slice_cut (b : RB) k :
  0 < k <= num_rows b ->
  let slice := if k =? num_rows b then b else rb_slice b 0 k in
  let next := if k =? num_rows b then None else Some (rb_slice b k (num_rows b - k)) in
  num_rows slice = k /\ rb_rows slice ++ next_rows next = rb_rows b /\
  (forall r, next = Some r -> 0 < num_rows r /\ num_rows r + k = num_rows b).
Proof.
  intros Hk. destruct (k =? num_rows b) eqn:E; cbn zeta.
  - apply N.eqb_eq in E as ->. split_and!; [done | apply app_nil_r | done].
  - apply N.eqb_neq in E. split_and!.
    + apply num_rows_slice. lia.
    + cbn [next_rows]. rewrite !rb_rows_slice by lia. rewrite drop_0.
      rewrite (take_ge (drop _ _)), take_drop; [done|]. rewrite length_drop. unfold num_rows in *. lia.
    + intros r [= <-]. rewrite num_rows_slice by lia. lia.
Qed.

(** The share a slice charges, scaled: the whole batch never charges more than
    its memory size. *)
Lemma slice_share_le total k rows : 0 < rows -> slice_share total k rows * rows <= total * k.
Proof.
  intros Hr. unfold slice_share. set (x := _ mod _).
  assert (x <= total * k) by (apply N.Div0.mod_le). pose proof (N.Div0.mul_div_le x rows). lia.
Qed.

Lemma should_roll_quiet m a : quiet m (should_roll m a).2 /\ pm_writers (should_roll m a).2 = pm_writers m.
Proof. unfold should_roll. destruct (_ && _); [done|]. destruct (0 <? _); by repeat split. Qed.

(** What a turn does to the partition [pid]: a slice went to a file and [next]
    rows remain, or a full or aged file was closed, or the turn failed. *)
Definition turn_ok (pid : PartitionId) (current : RB) (m : manager) (r : TurnResult * manager) : Prop :=
  match r.1 with
  | Turn next =>
      rows_of r.2 pid ++ next_rows next = rows_of m pid ++ rb_rows current /\
      forall b, next = Some b -> 0 < num_rows b < num_rows current
  | Again => is_Some (pm_writers m !! pid) /\ pm_writers r.2 !! pid = None /\ rows_of r.2 pid = rows_of m pid
  | Stop _ => True
  end.

(** The budget of a turn, scaled by the batch's rows. *)
Definition turn_budget (total rows : N) (current : RB) (m : manager) (r : TurnResult * manager) : Prop :=
  pm_global_memory r.2 * rows + match r.1 with Turn (Some b) => total * num_rows b | Again => total * num_rows current | _ => 0 end
  <= pm_global_memory m * rows + total * num_rows current.

Lemma close_turn ext m pid a total rows current :
  manager_inv ext m -> pm_writers m !! pid = Some a ->
  let r := match close_writer m pid with (Ok _, m) => (Again, m) | (Err e, m) => (Stop e, m) end in
  worked ext pid 0 m r.2 /\ turn_ok pid current m r /\ turn_budget total rows current m r.
Proof.
  intros I Ha. pose proof (close_writer_evicted ext m pid I) as E.
  pose proof (close_writer_spec ext m pid I) as (_ & _ & Cw & _).
  pose proof (evicted_worked ext pid 0 _ _ E) as W. pose proof (ev_memory _ _ _ E) as Hg.
  assert (Hb : pm_global_memory (close_writer m pid).2 * rows <= pm_global_memory m * rows) by (apply N.mul_le_mono_r; done).
  destruct (close_writer m pid) as [[[]|e] m1]; cbn [snd] in *; split_and!; try done.
  - cbn. split_and!; [by exists a | rewrite Cw; apply lookup_delete_eq | apply (ev_rows _ _ _ E)].
  - unfold turn_budget. cbn [fst snd]. lia.
  - unfold turn_budget. cbn [fst snd]. lia.
Qed.

Lemma route_turn_spec ext m pid total rows current :
  manager_inv ext m -> 0 < num_rows current -> 0 < rows ->
  let r := route_turn m pid total rows current in
  manager_inv ext r.2 /\ pm_config r.2 = pm_config m /\ (forall p, p <> pid -> rows_of r.2 p = rows_of m p) /\
  turn_ok pid current m r /\ turn_budget total rows current m r.
Proof.
  intros I Hn Hr. unfold route_turn.
  assert (Hclose : forall a, pm_writers m !! pid = Some a ->
    let r := match close_writer m pid with (Ok _, m) => (Again, m) | (Err e, m) => (Stop e, m) end in
    manager_inv ext r.2 /\ pm_config r.2 = pm_config m /\ (forall p, p <> pid -> rows_of r.2 p = rows_of m p) /\
    turn_ok pid current m r /\ turn_budget total rows current m r).
  { intros a Ha. pose proof (close_turn ext m pid a total rows current I Ha) as ([] & T & B). by split_and!. }
  destruct (slice_len m pid (num_rows current)) as [k|] eqn:Ek; cycle 1.
  { destruct (pm_writers m !! pid) as [a|] eqn:Ha; [by apply (Hclose a)|].
    unfold slice_len in Ek. rewrite Ha in Ek. by destruct (0 <? _). }
  pose proof (slice_len_range _ _ _ _ Hn Ek) as Hk. pose proof (slice_len_bound _ _ _ _ Ek) as Hmax.
  pose proof (slice_cut current k Hk) as (Sn & Srows & Snext). cbn zeta in Sn, Srows, Snext.
  set (slice := if k =? _ then current else _) in *. set (next := if k =? _ then None else _) in *.
  set (mem := slice_share total k rows). pose proof (slice_share_le total k rows Hr) as Hmem. fold mem in Hmem.
  assert (Hdone : forall r : result unit ParquetSinkError * manager,
    worked ext pid mem m r.2 -> (r.1 = Ok tt -> rows_of r.2 pid = rows_of m pid ++ rb_rows slice) ->
    let r' := match r with (Ok _, m) => (Turn next, m) | (Err e, m) => (Stop e, m) end in
    manager_inv ext r'.2 /\ pm_config r'.2 = pm_config m /\ (forall p, p <> pid -> rows_of r'.2 p = rows_of m p) /\
    turn_ok pid current m r' /\ turn_budget total rows current m r').
  { intros [[[]|e] m1] [W1 W2 W3 W4] Wr; cbn [fst snd] in *; split_and!; try done; unfold turn_budget; cbn [fst snd].
    - cbn. rewrite Wr, <- app_assoc, Srows by done. split; [done|]. intros b Hb. specialize (Snext b Hb). lia.
    - destruct next as [b|]; [specialize (Snext b eq_refl); nia | nia].
    - nia. }
  destruct (pm_writers m !! pid) as [a|] eqn:Ha.
  - pose proof (should_roll_quiet m a) as [Q Qw]. destruct (should_roll m a) as [roll m1]. cbn [snd] in Q, Qw.
    pose proof (quiet_evicted ext _ _ Q I) as E. pose proof Q as (Qc & _ & _ & Qg & _).
    assert (Hw1 : pm_writers m1 !! pid = Some a) by by rewrite Qw. destruct roll.
    + pose proof (close_turn ext m1 pid a total rows current (ev_inv _ _ _ E) Hw1) as ([] & T & B).
      assert (T' : turn_ok pid current m (match close_writer m1 pid with (Ok _, m) => (Again, m) | (Err e, m) => (Stop e, m) end)).
      { destruct (close_writer m1 pid) as [[[]|e] m2]; [|done]. cbn in *. rewrite (ev_rows _ _ _ E) in T.
        destruct T as (_ & T2 & T3). by rewrite Ha. }
      unfold turn_budget in *. rewrite Qg in B. rewrite Qc in *. split_and!; try done.
      intros p Hp. rewrite wk_others0 by done. apply (ev_rows _ _ _ E).
    + pose proof (append_writer_spec ext m1 pid a slice mem (ev_inv _ _ _ E) Hw1) as [W Wr].
      { rewrite Qc, Sn. exact Hmax. }
      rewrite (ev_rows _ _ _ E) in Wr. apply (Hdone (append_writer m1 pid a slice mem)); [|done].
      rewrite <- (N.add_0_l mem). eapply worked_trans; [by apply evicted_worked | exact W].
  - pose proof (open_writer_spec ext m pid slice mem I Ha) as [W Wr]; [rewrite Sn; exact Hmax|].
    by apply (Hdone (open_writer m pid slice mem)).
Qed.

(** ** The routing loop *)

Definition is_open (m : manager) (pid : PartitionId) : nat :=
  match pm_writers m !! pid with Some _ => 1%nat | None => 0%nat end.

(** The loop ends: every row costs one turn that writes, and every written file
    at most one turn that closes it. *)
Lemma route_loop_spec ext fuel m pid total rows current :
  manager_inv ext m -> 0 < num_rows current -> 0 < rows ->
  (2 * N.to_nat (num_rows current) + is_open m pid <= fuel)%nat ->
  exists res m', route_loop fuel m pid total rows current = Some (res, m') /\
    manager_inv ext m' /\ pm_config m' = pm_config m /\ (forall p, p <> pid -> rows_of m' p = rows_of m p) /\
    (res = Ok tt -> rows_of m' pid = rows_of m pid ++ rb_rows current) /\
    pm_global_memory m' * rows <= pm_global_memory m * rows + total * num_rows current.
Proof.
  revert m current. induction fuel as [|fuel IH]; intros m current I Hn Hr Hf; [lia|]. cbn [route_loop].
  assert (E0 : (num_rows current =? 0) = false) by (apply N.eqb_neq; lia). rewrite E0.
  pose proof (route_turn_spec ext m pid total rows current I Hn Hr) as (I1 & C1 & O1 & T & B).
  destruct (route_turn m pid total rows current) as [[[rest|]| |e] m1]; unfold turn_budget in B; cbn in I1, C1, O1, T, B.
  - destruct T as [T1 T2]. specialize (T2 rest eq_refl).
    destruct (IH m1 rest I1) as (res & m' & E & I' & C' & O' & R' & G'); [lia | done | |].
    { unfold is_open. destruct (pm_writers m1 !! pid); lia. }
    exists res, m'. split_and!; try done; [congruence | | | lia].
    + intros p Hp. by rewrite O', O1.
    + intros Hres. by rewrite R', T1.
  - destruct T as [T1 _]. rewrite app_nil_r in T1. exists (Ok tt), m1. split_and!; try done. lia.
  - destruct T as ([a Ha] & T2 & T3).
    destruct (IH m1 current I1) as (res & m' & E & I' & C' & O' & R' & G'); [done | done | |].
    { unfold is_open in *. rewrite Ha in Hf. rewrite T2. lia. }
    exists res, m'. split_and!; try done; [congruence | | | lia].
    + intros p Hp. by rewrite O', O1.
    + intros Hres. by rewrite R', T3.
  - exists (Err e), m1. split_and!; try done. lia.
Qed.

(** ** A whole sub-batch *)

(** The memory limit, for a manager that does not share its tracker. *)
Definition within_limit (ext : N) (m : manager) : Prop :=
  ext = 0 -> 0 < global_memory_limit_bytes (pm_config m) < usize_max ->
  pm_global_memory m <= global_memory_limit_bytes (pm_config m).

Lemma evicted_limit ext m m' : evicted ext m m' -> within_limit ext m -> within_limit ext m'.
Proof. intros E Hl Hz. rewrite (ev_config _ _ _ E). intros Hp. pose proof (ev_memory _ _ _ E). specialize (Hl Hz Hp). lia. Qed.

Lemma route_sub_batch_spec ext m pid batch :
  manager_inv ext m -> within_limit ext m ->
  exists res m', route_sub_batch m pid batch = Some (res, m') /\
    manager_inv ext m' /\ within_limit ext m' /\ pm_config m' = pm_config m /\
    (forall p, p <> pid -> rows_of m' p = rows_of m p) /\
    (res = Ok tt -> rows_of m' pid = rows_of m pid ++ rb_rows batch).
Proof.
  intros I Hl. unfold route_sub_batch. destruct (num_rows batch =? 0) eqn:E0.
  { apply N.eqb_eq in E0. exists (Ok tt), m. split_and!; try done. intros _.
    destruct (rb_rows batch) eqn:Er; [by rewrite app_nil_r|]. unfold num_rows in E0. rewrite Er in E0. done. }
  apply N.eqb_neq in E0. destruct (_ && _) eqn:Eg.
  { eexists _, m. by split_and!. }
  pose proof (evict_lru_while_spec ext (over_memory (rb_memory_size batch)) m I) as [Ev Hroom].
  pose proof (evicted_limit _ _ _ Ev Hl) as Hl1. pose proof Ev as [I1 C1 R1 G1 M1].
  destruct (evict_lru_while _ m) as [[[]|e] m1]; cbn [fst snd] in *; [|eexists _, m1; by split_and!].
  destruct (route_loop_spec ext (route_fuel batch) m1 pid (rb_memory_size batch) (num_rows batch) batch)
    as (res & m' & E & I' & C' & O' & R' & G'); try done; [lia | lia | |].
  { unfold route_fuel, is_open. destruct (pm_writers m1 !! pid); lia. }
  exists res, m'. split_and!; try done; [| congruence | intros p Hp; by rewrite O' | intros Hr; by rewrite R', R1].
  intros Hz. rewrite C', C1. intros Hp.
  assert (Hg : pm_global_memory m' <= pm_global_memory m1 + rb_memory_size batch).
  { apply (N.mul_le_mono_pos_r _ _ (num_rows batch)); [lia|]. lia. }
  destruct (Hroom eq_refl) as [Hc|Hw].
  - unfold over_memory in Hc. rewrite C1 in Hc. apply andb_false_iff in Hc as [Hc|Hc]; [apply N.ltb_ge in Hc; lia|].
    apply N.ltb_ge in Hc. unfold sat_add in Hc. lia.
  - assert (pm_global_memory m1 = 0) by (by rewrite (mi_memory _ _ I1), Hw, Hz).
    apply andb_false_iff in Eg as [Eg|Eg]; apply N.ltb_ge in Eg; lia.
Qed.

(** ** Rows by partition key *)

Definition rows_with (k : PartitionKey) (keys : list PartitionKey) (rows : list Row) : list Row :=
  map snd (filter (fun p => p.1 = k) (zip keys rows)).

(** The rows of a batch that belong to partition [pid]. *)
Definition rows_for (m : manager) (signal : string) (pid : PartitionId) (keys : list PartitionKey)
  (rows : list Row) : list Row :=
  map snd (filter (fun p => partition_id m signal p.1 = pid) (zip keys rows)).

(** The rows a list of keys sends to [pid], key by key. *)
Definition sent_to (m : manager) (signal : string) (pid : PartitionId) (keys : list PartitionKey)
  (rows : list Row) (todo : list PartitionKey) : list Row :=
  concat (map (fun k => if decide (partition_id m signal k = pid) then rows_with k keys rows else []) todo).

Lemma distinct_keys_nodup seen keys : NoDup seen -> NoDup (distinct_keys seen keys).
Proof.
  revert seen. induction keys as [|k keys IH]; intros seen Hs; [done|]. cbn. apply IH.
  case_bool_decide; [done|]. apply NoDup_app. split_and!; [done | | apply NoDup_singleton].
  intros x Hx ->%list_elem_of_singleton. done.
Qed.

Lemma distinct_keys_elem seen keys k : k ∈ distinct_keys seen keys <-> k ∈ seen \/ k ∈ keys.
Proof.
  revert seen. induction keys as [|x keys IH]; intros seen; cbn; [set_solver|]. rewrite IH.
  case_bool_decide; set_solver.
Qed.

Lemma sent_to_cons m signal pid k keys r rows todo :
  NoDup todo -> k ∈ todo ->
  sent_to m signal pid (k :: keys) (r :: rows) todo ≡ₚ
  (if decide (partition_id m signal k = pid) then [r] else []) ++ sent_to m signal pid keys rows todo.
Proof.
  assert (Hno : forall todo, k ∉ todo -> sent_to m signal pid (k :: keys) (r :: rows) todo = sent_to m signal pid keys rows todo).
  { induction todo0 as [|x todo0 IH]; [done|]. intros [Hne Hni]%not_elem_of_cons. unfold sent_to in *. cbn [map concat].
    rewrite IH by done. unfold rows_with. cbn [zip zip_with]. by rewrite filter_cons_False by (cbn; congruence). }
  induction todo as [|x todo IH]; intros Hnd Hin; [by apply not_elem_of_nil in Hin|].
  apply NoDup_cons in Hnd as [Hx Hnd]. unfold sent_to in *. cbn [map concat].
  destruct (decide (x = k)) as [->|Hne].
  - rewrite Hno by done. rewrite app_assoc. apply Permutation_app_tail. case_decide; [|done].
    unfold rows_with. cbn [zip zip_with]. by rewrite filter_cons_True.
  - apply elem_of_cons in Hin as [->|Hin]; [done|]. rewrite IH by done.
    rewrite !app_assoc. apply Permutation_app_tail. rewrite Permutation_app_comm. apply Permutation_app_head.
    unfold rows_with. cbn [zip zip_with]. by rewrite filter_cons_False by (cbn; congruence).
Qed.

(** Taking the rows key by key reorders them but loses and repeats none. *)
Lemma sent_to_perm m signal pid keys rows todo :
  NoDup todo -> (forall k, k ∈ keys -> k ∈ todo) ->
  sent_to m signal pid keys rows todo ≡ₚ rows_for m signal pid keys rows.
Proof.
  intros Hnd. revert rows. induction keys as [|k keys IH]; intros rows Hk.
  - unfold sent_to, rows_for, rows_with. cbn. clear. induction todo as [|x todo IH]; [done|]. cbn. by case_decide.
  - destruct rows as [|r rows].
    + unfold sent_to, rows_for, rows_with. cbn. clear. induction todo as [|x todo IH]; [done|]. cbn. by case_decide.
    + rewrite sent_to_cons by (try done; apply Hk; by left). rewrite IH by (intros x Hx; apply Hk; by right).
      unfold rows_for. cbn [zip zip_with]. rewrite filter_cons. cbn [fst]. by case_decide.
Qed.

(** ** A whole batch *)

Context `{!EnvLaws RB Sch Row}.

Lemma masked_rows k keys (rows : list Row) :
  map snd (filter (fun p => p.1 = true) (zip (map (fun x => bool_decide (x = k)) keys) rows)) = rows_with k keys rows.
Proof.
  unfold rows_with. revert rows. induction keys as [|x keys IH]; intros [|r rows]; [done..|].
  cbn [map zip zip_with]. specialize (IH rows). destruct (decide (x = k)) as [->|Hne].
  - rewrite !filter_cons_True by (cbn; by rewrite ?bool_decide_eq_true). cbn [map snd]. by f_equal.
  - rewrite !filter_cons_False by (cbn; by rewrite ?bool_decide_eq_true). done.
Qed.

Lemma partition_id_config m m' signal k : pm_config m' = pm_config m -> partition_id m' signal k = partition_id m signal k.
Proof. unfold partition_id. by intros ->. Qed.

Lemma sent_to_config m m' signal pid keys rows todo :
  pm_config m' = pm_config m -> sent_to m' signal pid keys rows todo = sent_to m signal pid keys rows todo.
Proof. unfold sent_to, partition_id. by intros ->. Qed.

Lemma row_keys_length fallback batch : length (row_keys fallback batch) = length (rb_rows batch).
Proof.
  unfold row_keys. destruct (temporal_components batch) as [keys|] eqn:E.
  - rewrite length_map. by apply temporal_length.
  - rewrite repeat_length. unfold num_rows. lia.
Qed.

Lemma route_keys_spec ext m signal batch keys todo :
  manager_inv ext m -> within_limit ext m -> length keys = length (rb_rows batch) ->
  exists res m', route_keys m signal batch keys todo = Some (res, m') /\
    manager_inv ext m' /\ within_limit ext m' /\ pm_config m' = pm_config m /\
    (forall p, p ∉ map (partition_id m signal) todo -> rows_of m' p = rows_of m p) /\
    (res = Ok tt -> forall p, rows_of m' p = rows_of m p ++ sent_to m signal p keys (rb_rows batch) todo).
Proof.
  revert m. induction todo as [|k todo IH]; intros m I Hl Hlen; cbn [route_keys].
  { exists (Ok tt), m. split_and!; try done. intros _ p. symmetry. apply app_nil_r. }
  destruct (filter_record_batch _ _) as [sub|] eqn:Ef; [|eexists _, m; by split_and!].
  apply filter_rows in Ef; [|by rewrite length_map]. rewrite masked_rows in Ef.
  destruct (route_sub_batch_spec ext m (partition_id m signal k) sub I Hl) as (res & m1 & -> & I1 & L1 & C1 & O1 & R1).
  destruct res as [[]|e]; cycle 1.
  { eexists _, m1. split_and!; try done. intros p [Hne _]%not_elem_of_cons. by apply O1. }
  destruct (IH m1 I1 L1 Hlen) as (res & m' & E & I' & L' & C' & O' & R').
  exists res, m'. split_and!; try done; [congruence | | ].
  - intros p [Hne Hni]%not_elem_of_cons. assert (Em : map (partition_id m1 signal) todo = map (partition_id m signal) todo).
    { apply map_ext. intros x. by apply partition_id_config. }
    by rewrite O', O1 by (rewrite ?Em; done).
  - intros Hres p. rewrite R' by done. rewrite (sent_to_config m m1) by done. unfold sent_to. cbn [map concat].
    rewrite app_assoc. f_equal. case_decide as Hp.
    + rewrite <- Hp, R1, Ef by done. done.
    + by rewrite O1, app_nil_r by congruence.
Qed.

Lemma distinct_keys_same k keys : Forall (fun x => x = k) keys -> distinct_keys [k] keys = [k].
Proof.
  induction 1 as [|x keys -> _ IH]; [done|]. cbn. by rewrite bool_decide_eq_true_2 by (by left).
Qed.

Lemma rows_with_all k keys (rows : list Row) :
  Forall (fun x => x = k) keys -> length keys = length rows -> rows_with k keys rows = rows.
Proof.
  intros Hf. revert rows. induction Hf as [|x keys -> _ IH]; intros [|r rows] Hlen; try done.
  unfold rows_with in *. cbn [zip zip_with]. rewrite filter_cons_True by done. cbn. f_equal. apply IH. by injection Hlen.
Qed.

(** The keys of a batch, with the clock reading its routing makes. *)
Definition batch_keys (m : manager) (batch : RB) : list PartitionKey := row_keys (utc_now (S (pm_tick m))) batch.

Lemma route_batch_spec ext m batch signal :
  manager_inv ext m -> within_limit ext m ->
  let keys := batch_keys m batch in
  exists res m', route_batch m batch signal = Some (res, m') /\
    manager_inv ext m' /\ within_limit ext m' /\ pm_config m' = pm_config m /\
    (forall p, p ∉ map (partition_id m signal) keys -> rows_of m' p = rows_of m p) /\
    (res = Ok tt -> forall p, rows_of m' p = rows_of m p ++ sent_to m signal p keys (rb_rows batch) (distinct_keys [] keys)).
Proof.
  intros I Hl keys. unfold route_batch.
  pose proof (check_background_errors_quiet m) as Q. pose proof (quiet_evicted ext _ _ Q I) as E0.
  assert (Ht : pm_tick (check_background_errors m).2 = S (pm_tick m)).
  { unfold check_background_errors, tick. cbn zeta. by destruct (check_uploads _ _ _). }
  destruct (check_background_errors m) as [[[]|e] m1]; cbn [fst snd] in *; cycle 1.
  { eexists _, m1. destruct E0. split_and!; try done. by eapply evicted_limit. }
  pose proof (evicted_limit _ _ _ E0 Hl) as L0. destruct E0 as [I1 C1 R1 _ _].
  pose proof (row_keys_length (utc_now (S (pm_tick m))) batch) as Hlen.
  change (length keys = length (rb_rows batch)) in Hlen.
  destruct (num_rows batch =? 0) eqn:En.
  { apply N.eqb_eq in En. unfold num_rows in En. exists (Ok tt), m1. split_and!; try done.
    intros _ p. assert (Ek : keys = []) by (apply nil_length_inv; lia). rewrite Ek, R1. symmetry. apply app_nil_r. }
  apply N.eqb_neq in En. unfold num_rows in En. unfold tick. cbn beta iota zeta. rewrite Ht.
  change (row_keys (utc_now (S (pm_tick m))) batch) with keys. set (m2 := m1 <| pm_tick := _ |>).
  assert (Q2 : quiet m1 m2) by by repeat split. pose proof (quiet_evicted ext _ _ Q2 I1) as E2.
  pose proof (evicted_limit _ _ _ E2 L0) as L2. destruct E2 as [I2 C2 R2 _ _].
  clearbody keys. destruct keys as [|k others]; [cbn in Hlen; lia|]. destruct (forallb _ others) eqn:Eh.
  - assert (Hall : Forall (fun x => x = k) others).
    { apply Forall_forall. intros x Hx. apply list_elem_of_In in Hx.
      apply (proj1 (forallb_forall _ _) Eh) in Hx. by apply bool_decide_eq_true in Hx. }
    destruct (route_sub_batch_spec ext m2 (partition_id m2 signal k) batch I2 L2) as (res & m' & E & I' & L' & C' & O' & R').
    assert (Hpid : partition_id m2 signal k = partition_id m signal k) by (apply partition_id_config; congruence).
    rewrite Hpid in *. exists res, m'. split_and!; try done; [congruence | |].
    + intros p [Hne _]%not_elem_of_cons. by rewrite O', R2, R1.
    + intros Hres p. cbn [distinct_keys]. rewrite bool_decide_eq_false_2 by apply not_elem_of_nil. cbn [app].
      rewrite distinct_keys_same by done. unfold sent_to. cbn [map concat]. rewrite app_nil_r.
      rewrite rows_with_all by (try done; by constructor). case_decide as Hp.
      * by rewrite <- Hp, R', R2, R1.
      * rewrite O', R2, R1 by congruence. by rewrite app_nil_r.
  - destruct (route_keys_spec ext m2 signal batch (k :: others) (distinct_keys [] (k :: others)) I2 L2 Hlen)
      as (res & m' & E & I' & L' & C' & O' & R').
    assert (Cm : pm_config m2 = pm_config m) by congruence.
    exists res, m'. split_and!; try done; [congruence | |].
    + intros p Hp. rewrite O', R2, R1; [done|]. intros Hin. apply Hp. apply list_elem_of_fmap in Hin as (x & -> & Hx).
      apply distinct_keys_elem in Hx as [Hx|Hx]; [by apply not_elem_of_nil in Hx|].
      rewrite (partition_id_config m) by done. by apply list_elem_of_fmap_2.
    + intros Hres p. rewrite R', R2, R1 by done. by rewrite (sent_to_config m).
Qed.

(** ** Sweeping and flushing *)

Lemma close_each_spec ext m keys err :
  manager_inv ext m -> let r := close_each m keys err in
  evicted ext m r.2 /\ forall p, p ∈ keys -> pm_writers r.2 !! p = None.
Proof.
  revert m err. induction keys as [|k keys IH]; intros m err I; cbn [close_each].
  { split; [by apply evicted_refl|]. intros p Hp. by apply not_elem_of_nil in Hp. }
  pose proof (close_writer_evicted ext m k I) as E. pose proof (close_writer_spec ext m k I) as (_ & _ & Cw & _).
  destruct (close_writer m k) as [res m1]. cbn [snd] in E, Cw.
  destruct (IH m1 (match res with Ok _ => err | Err e => first_err err e end) (ev_inv _ _ _ E)) as [E' G'].
  split; [by eapply evicted_trans|]. intros p [->|Hp]%elem_of_cons; [|by apply G'].
  apply (ev_gone _ _ _ E'). rewrite Cw. apply lookup_delete_eq.
Qed.

Lemma finish_closing_quiet err m : quiet m (finish_closing err m).2.
Proof.
  unfold finish_closing. pose proof (check_background_errors_quiet m) as Q.
  destruct (check_background_errors m) as [[?|?] ?]; destruct err; exact Q.
Qed.

Lemma sweep_evicted ext m : manager_inv ext m -> evicted ext m (sweep_idle_writers m).2.
Proof.
  intros I. unfold sweep_idle_writers. pose proof (check_background_errors_quiet m) as Q.
  destruct (check_background_errors m) as [res m1]. cbn [snd] in Q.
  pose proof (quiet_evicted ext _ _ Q I) as E1. destruct (_ =? 0); [done|]. unfold tick. cbn beta iota zeta.
  set (m2 := m1 <| pm_tick := _ |>). assert (Q2 : quiet m1 m2) by by repeat split.
  pose proof (evicted_trans _ _ _ _ E1 (quiet_evicted ext _ _ Q2 (ev_inv _ _ _ E1))) as E2.
  set (keys := map fst _). destruct (close_each_spec ext m2 keys (res_err res) (ev_inv _ _ _ E2)) as [E3 _].
  destruct (close_each m2 keys (res_err res)) as [err m3]. cbn [snd] in E3.
  eapply evicted_trans; [exact E2|]. eapply evicted_trans; [exact E3|].
  apply quiet_evicted; [apply finish_closing_quiet | apply E3].
Qed.

Lemma flush_evicted ext m :
  manager_inv ext m -> evicted ext m (flush_all m).2 /\ pm_writers (flush_all m).2 = ∅.
Proof.
  intros I. unfold flush_all. pose proof (check_background_errors_quiet m) as Q.
  destruct (check_background_errors m) as [res m1]. cbn [snd] in Q.
  pose proof (quiet_evicted ext _ _ Q I) as E1. set (keys := map fst _).
  destruct (close_each_spec ext m1 keys (res_err res) (ev_inv _ _ _ E1)) as [E3 G3].
  destruct (close_each m1 keys (res_err res)) as [err m3]. cbn [snd] in E3, G3.
  pose proof (finish_closing_quiet err m3) as Q4. split.
  - eapply evicted_trans; [exact E1|]. eapply evicted_trans; [exact E3|]. by apply quiet_evicted; [|apply E3].
  - destruct Q4 as (_ & -> & _). apply map_empty. intros p. destruct (pm_writers m1 !! p) as [a|] eqn:Ha.
    + apply G3, keys_elem. by exists a.
    + by apply (ev_gone _ _ _ E3).
Qed.

Lemma wait_all_quiet m : quiet m (wait_for_all_uploads m).2.
Proof. unfold wait_for_all_uploads. cbn [snd]. repeat split. cbn. lia. Qed.

(** A successful closing closed every file successfully. *)
Definition all_closed (m : manager) : Prop := Forall (fun f => rf_closed_ok f = true) (pm_retired m).

Lemma quiet_closed m m' : quiet m m' -> all_closed m -> all_closed m'.
Proof. intros (_ & _ & _ & _ & E & _). unfold all_closed. by rewrite E. Qed.

Lemma retire_closed m pid a :
  all_closed m -> (retire_active_writer m pid a).1 = Ok tt -> all_closed (retire_active_writer m pid a).2.
Proof.
  intros Ha. unfold retire_active_writer. set (m0 := m <| pm_global_memory := _ |>).
  pose proof (wait_for_slot_quiet (S (length (pm_in_flight m0))) m0 None) as Q1.
  destruct (wait_for_slot _ m0 None) as [we m1]. cbn [snd] in Q1.
  assert (A1 : all_closed m1) by by apply (quiet_closed m0).
  destruct (pq_close _) eqn:Ec; cbn [negb]; [|done]. set (m2 := m1 <| pm_in_flight := _ |> <| pm_next_upload := _ |> <| pm_retired := _ |>).
  assert (A2 : all_closed m2).
  { apply Forall_app. split; [exact A1|]. by constructor. }
  destruct we; [done|]. intros _. by eapply quiet_closed; [apply check_background_errors_quiet|].
Qed.

Lemma close_writer_closed m pid :
  all_closed m -> (close_writer m pid).1 = Ok tt -> all_closed (close_writer m pid).2.
Proof.
  intros Ha. unfold close_writer. cbn zeta. set (m0 := m <| pm_lru := _ |>).
  assert (Hd : forall r : result unit ParquetSinkError * manager, (r.1 = Ok tt -> all_closed r.2) ->
    (let '(retire_res, m) := r in let '(bg_res, m) := check_background_errors m in (res_and retire_res bg_res, m)).1 = Ok tt ->
    all_closed (let '(retire_res, m) := r in let '(bg_res, m) := check_background_errors m in (res_and retire_res bg_res, m)).2).
  { intros [[[]|e] m1] Hr; cbn [fst snd] in Hr; pose proof (check_background_errors_quiet m1) as Q;
      destruct (check_background_errors m1) as [bg m2]; [|done]. intros _. eapply quiet_closed; [exact Q | by apply Hr]. }
  apply Hd. destruct (pm_writers m0 !! pid) as [a|]; [|done]. by apply retire_closed.
Qed.

Lemma close_each_closed m keys err :
  all_closed m -> (close_each m keys err).1 = None -> err = None /\ all_closed (close_each m keys err).2.
Proof.
  revert m err. induction keys as [|k keys IH]; intros m err Ha; cbn [close_each]; [done|].
  pose proof (close_writer_closed m k Ha) as Hc. destruct (close_writer m k) as [[[]|e] m1]; cbn [fst snd] in Hc.
  - by apply IH, Hc.
  - assert (Hs : forall keys m, (close_each m keys (first_err err e)).1 <> None).
    { intros keys0. assert (Hne : forall e', (exists x, e' = Some x) -> forall m, (close_each m keys0 e').1 <> None).
      { induction keys0 as [|x ks IHk]; intros e' [y ->] m2; [done|]. cbn [close_each].
        destruct (close_writer m2 x) as [[[]|z] m3]; apply IHk; by exists y. }
      apply Hne. destruct err; by eexists. }
    intros Hn. by apply Hs in Hn.
Qed.

Lemma flush_closed m : all_closed m -> (flush_all m).1 = Ok tt -> all_closed (flush_all m).2.
Proof.
  intros Ha. unfold flush_all. pose proof (check_background_errors_quiet m) as Q.
  destruct (check_background_errors m) as [res m1]. cbn [snd] in Q.
  pose proof (close_each_closed m1 (map fst (map_to_list (pm_writers m1))) (res_err res) (quiet_closed _ _ Q Ha)) as Hc.
  destruct (close_each m1 _ _) as [err m2]. cbn [fst snd] in Hc.
  unfold finish_closing. pose proof (check_background_errors_quiet m2) as Q2.
  destruct (check_background_errors m2) as [[[]|e] m3]; cbn [fst snd] in *.
  - destruct err; [done|]. intros _. eapply quiet_closed; [exact Q2|]. by apply Hc.
  - destruct err; done.
Qed.

(** ** Reachable managers *)

Inductive mstep : manager -> manager -> Prop :=
| step_route m batch signal res m' : route_batch m batch signal = Some (res, m') -> mstep m m'
| step_sweep m : mstep m (sweep_idle_writers m).2
| step_flush m : mstep m (flush_all m).2
| step_wait m : mstep m (wait_for_all_uploads m).2
| step_check m : mstep m (check_background_errors m).2.

Definition reachable_manager (c : ParquetSinkConfig) : manager -> Prop := rtc mstep (new_manager c).

Lemma new_manager_inv c : manager_inv 0 (new_manager c).
Proof.
  split; cbn; try done; try lia.
  - intros f Hf. by apply not_elem_of_nil in Hf.
  - rewrite map_size_empty. lia.
Qed.

Lemma manager_reachable_inv c m :
  reachable_manager c m -> manager_inv 0 m /\ within_limit 0 m /\ pm_config m = c.
Proof.
  intros Hr. apply (rtc_ind_r (R := mstep) (fun m => manager_inv 0 m /\ within_limit 0 m /\ pm_config m = c) (new_manager c)); [| |exact Hr].
  { split_and!; [apply new_manager_inv | | done]. intros _ Hp. cbn in *. lia. }
  assert (Hev : forall x y, evicted 0 x y -> manager_inv 0 x /\ within_limit 0 x /\ pm_config x = c ->
    manager_inv 0 y /\ within_limit 0 y /\ pm_config y = c).
  { intros x y E (I & L & C). split_and!; [apply E | by eapply evicted_limit | by rewrite (ev_config _ _ _ E)]. }
  intros x y _ Hs (I & L & C). destruct Hs as [x batch signal res y Hb|x|x|x|x].
  - destruct (route_batch_spec 0 x batch signal I L) as (res' & m' & E & I' & L' & C' & _).
    rewrite E in Hb. injection Hb as -> ->. split_and!; try done. congruence.
  - by apply (Hev x); [apply sweep_evicted|].
  - by apply (Hev x); [apply flush_evicted|].
  - by apply (Hev x); [apply quiet_evicted; [apply wait_all_quiet|]|].
  - by apply (Hev x); [apply quiet_evicted; [apply check_background_errors_quiet|]|].
Qed.

(** ** Theorems *)

(** C7 (routing_conserves_rows). Routing a batch always ends (the loop's fuel is
    enough).  When it reports success, every partition has received, after the
    rows it had, exactly the batch's rows whose key maps to its path, each once
    and grouped by key; partitions no row maps to are untouched even when
    routing fails.  Rolling, splitting at [max_records] and evicting other
    writers move rows between open and closed files but lose and repeat none. *)
Theorem routing_conserves_rows (c : ParquetSinkConfig) (m : manager) (batch : RB) (signal : string) :
  reachable_manager c m ->
  let keys := batch_keys m batch in
  exists res m', route_batch m batch signal = Some (res, m') /\
    (forall p, p ∉ map (partition_id m signal) keys -> rows_of m' p = rows_of m p) /\
    (res = Ok tt -> forall p, exists new,
      rows_of m' p = rows_of m p ++ new /\
      new = sent_to m signal p keys (rb_rows batch) (distinct_keys [] keys) /\
      new ≡ₚ rows_for m signal p keys (rb_rows batch)).
Proof.
  intros Hr keys. apply manager_reachable_inv in Hr as (I & L & _).
  destruct (route_batch_spec 0 m batch signal I L) as (res & m' & E & _ & _ & _ & O & R).
  exists res, m'. split_and!; try done. intros Hres p. eexists. split_and!; [by apply R | done |].
  apply sent_to_perm; [apply distinct_keys_nodup; constructor|].
  intros k Hk. apply distinct_keys_elem. by right.
Qed.

(** C8 (manager_invariant). In every state reached by routing, sweeping, flushing,
    waiting and checking uploads: the LRU order lists exactly the open writers;
    the memory counter is the sum of their buffered memory and never exceeds the
    configured limit; at most [max_open_partitions] writers (at least one) are
    open and at most [max_concurrent_uploads] uploads are in flight; no file,
    open or closed, holds more than [max_records] rows. *)
Theorem manager_invariant (c : ParquetSinkConfig) (m : manager) :
  reachable_manager c m ->
  pm_lru m ≡ₚ map fst (map_to_list (pm_writers m)) /\
  pm_global_memory m = total_buffered (pm_writers m) /\
  (0 < global_memory_limit_bytes c < usize_max -> pm_global_memory m <= global_memory_limit_bytes c) /\
  N.of_nat (size (pm_writers m)) <= N.max 1 (max_open_partitions c) /\
  (0 < max_concurrent_uploads c -> N.of_nat (length (pm_in_flight m)) <= max_concurrent_uploads c) /\
  (0 < max_records c ->
    (forall p a, pm_writers m !! p = Some a -> slices_len (pw_slices (aw_writer a)) <= max_records c) /\
    (forall f, f ∈ pm_retired m -> slices_len (rf_slices f) <= max_records c)).
Proof.
  intros Hr. apply manager_reachable_inv in Hr as (I & L & <-). pose proof I as [L1 L2 L3 L4 L5 L6].
  split_and!; try done; [by apply L|]. intros Hpos. split; [|by intros f Hf; apply L4].
  intros p a Ha. destruct (open_written_ok _ _ _ _ I Ha) as [<- Hw]. by apply Hw.
Qed.

(** Flushing closes every open file whatever errors
    it meets: no writer is left, the memory counter returns to zero, and all rows
    ever routed are in closed files, in order.  It reports success only if every
    file it closed was finalised without error. *)
Theorem flush_closes_everything (c : ParquetSinkConfig) (m : manager) :
  reachable_manager c m ->
  let r := flush_all m in
  pm_writers r.2 = ∅ /\ pm_lru r.2 = [] /\ pm_global_memory r.2 = 0 /\
  (forall p, retired_rows p (pm_retired r.2) = rows_of m p) /\
  (all_closed m -> r.1 = Ok tt -> all_closed r.2).
Proof.
  intros Hr r. apply manager_reachable_inv in Hr as (I & L & _). destruct (flush_evicted 0 m I) as [E Ew].
  fold r in E, Ew. pose proof (ev_inv _ _ _ E) as I'. split_and!; try done.
  - pose proof (mi_lru _ _ I') as Hp. rewrite Ew in Hp. by apply Permutation_nil_r in Hp.
  - by rewrite (mi_memory _ _ I'), Ew.
  - intros p. rewrite <- (ev_rows _ _ _ E p). unfold rows_of, open_rows. rewrite Ew, lookup_empty. by rewrite app_nil_r.
  - apply flush_closed.
Qed.

End Manager.

Module Demo.
#[local] Existing Instance Toy.arrow.
#[local] Existing Instance Toy.arrow_laws.

(** Rows are years; row 0 has no timestamp. *)
#[local] Instance env : Env Toy.batch N := {|
  uploader_start _ := Ok tt;
  pq_new _ := Some (4, 0);
  pq_write hist b := (true, 4 + 8 * sum_N num_rows (hist ++ [b]), 0);
  pq_close _ := true;
  filter_record_batch (b : Toy.batch) mask := Some (b.1, map snd (filter (fun p => p.1 = true) (zip mask b.2)));
  temporal_components (b : Toy.batch) :=
    Some (map (fun y => if y =? 0 then None else Some (mkPartitionKey (Z.of_N y) 1 2 3)) b.2);
  utc_now _ := mkPartitionKey 2026 5 6 7;
  clock_secs t := N.of_nat t;
  clock_nanos t := N.of_nat t;
  uuid_v7 _ := "u"%string;
  upload_finished t id := Nat.even t;
  upload_result _ := Ok tt;
|}.

#[local] Instance env_laws : EnvLaws Toy.batch N N.
Proof.
  split.
  - intros b mask sub _ [= <-]. done.
  - intros b keys [= <-]. apply length_map.
Qed.

(** At most two rows per file, two open files, one upload, 100 bytes. *)
Definition config : ParquetSinkConfig := mkParquetSinkConfig "{signal}/{year}" "n1" 2 0 0 2 1 100.

Definition routed (m : PartitionManager Toy.batch) (b : Toy.batch) : PartitionManager Toy.batch :=
  match route_batch m b "logs" with Some (_, m) => m | None => m end.

Abbreviation first := (routed (new_manager config) (0, [2024; 2025; 2024; 2024])).
Abbreviation second := (0, [2025; 0; 2025; 2023]).

Lemma first_reachable : reachable_manager config first.
Proof. apply rtc_once. eapply (step_route _ (0, [2024; 2025; 2024; 2024]) "logs" (Ok tt)). vm_compute. reflexivity. Defined.

Example routes_again :
  option_map fst (route_batch first second "logs") = Some (Ok tt) /\
  rows_of (routed first second) ("logs", "logs/2025")%string = [2025; 2025; 2025] /\
  rows_of (routed first second) ("logs", "logs/2026")%string = [0] /\
  map rf_slices (pm_retired (routed first second)) =
    [[(0, [2024; 2024])]; [(0, [2025]); (0, [2025])]; [(0, [2024])]; [(0, [2025])]].
Proof. vm_compute. split_and!; reflexivity. Qed.

Lemma routing_conserves_rows_witness :
  exists res m', route_batch first second "logs" = Some (res, m') /\ res = Ok tt /\
    exists new, rows_of m' ("logs", "logs/2025")%string = rows_of first ("logs", "logs/2025")%string ++ new /\
      new ≡ₚ [2025; 2025].
Proof.
  destruct (routing_conserves_rows config first second "logs" first_reachable) as (res & m' & E & _ & R).
  assert (Hres : res = Ok tt).
  { assert (Ho : option_map fst (route_batch first second "logs") = Some (Ok tt)) by (vm_compute; reflexivity).
    rewrite E in Ho. by injection Ho. }
  exists res, m'. split; [exact E|]. split; [exact Hres|].
  destruct (R Hres ("logs", "logs/2025")%string) as (new & Hn & _ & Hp). exists new. split; [exact Hn|].
  rewrite Hp. vm_compute. reflexivity.
Defined.

Lemma manager_invariant_witness :
  pm_lru first = [("logs", "logs/2024"); ("logs", "logs/2025")]%string /\
  pm_lru first ≡ₚ map fst (map_to_list (pm_writers first)) /\
  pm_global_memory first = total_buffered (pm_writers first) /\ pm_global_memory first <= 100.
Proof.
  destruct (manager_invariant config first first_reachable) as (L & M & G & _). split; [vm_compute; reflexivity|].
  split; [exact L|]. split; [exact M|]. apply G. split; vm_compute; reflexivity.
Defined.

Lemma flush_closes_everything_witness :
  (flush_all first).1 = Ok tt /\ pm_writers (flush_all first).2 = ∅ /\ all_closed (flush_all first).2 /\
  retired_rows ("logs", "logs/2024")%string (pm_retired (flush_all first).2) = [2024; 2024; 2024].
Proof.
  destruct (flush_closes_everything config first first_reachable) as (W & _ & _ & R & C).
  split; [vm_compute; reflexivity|]. split; [exact W|]. split.
  - apply C; [|vm_compute; reflexivity]. vm_compute. repeat constructor.
  - rewrite R. vm_compute. reflexivity.
Defined.

End Demo.
