(* ===== verification/Temporal.v ===== *)
(** The partition keys of a batch: crates/parquet-sink/src/partition.rs, from the
    timestamp column to a key per row.

    Arrow's cast and date-part kernels are parameters ([TemporalKernels]); what
    is relied on ([TemporalLaws]) is that they keep rows and nulls and read the
    calendar, which is a parameter too. *)

From S2P Require Import Prelude Arrow Writer ParquetError PartitionPath Partition.
Local Open Scope N_scope.

Inductive ColumnKind : Type := TimestampColumn | Int64Column | OtherColumn.
Inductive DatePart : Type := Year | Month | Day | Hour.

(** A row of an [Int32Array]: its validity and its slot, which a null has too. *)
Abbreviation int32s := (list (bool * Z)).

Class TemporalKernels (RB Col : Type) := {
  column_named : RB -> string -> option Col;
  column_kind : Col -> ColumnKind;
  cast_to_nanos : Col -> option Col;
  date_part : Col -> DatePart -> option Col;
  as_int32_array : Col -> option int32s;
}.

Section Extraction.
Context {RB Col Sch Row : Type} `{TemporalKernels RB Col} `{Arrow RB Sch Row}.

Record TemporalComponents := mkTemporalComponents { years : int32s; months : int32s; days : int32s; hours : int32s }.

Definition int32_part (col : Col) (part : DatePart) : option int32s := date_part col part ≫= as_int32_array.

(** The four parts are computed before the first is downcast; a failure of any
    gives nothing. *)
Definition extract_temporal_components (col : Col) : option TemporalComponents :=
  timestamp_col ← match column_kind col with
                  | TimestampColumn => Some col
                  | Int64Column => cast_to_nanos col
                  | OtherColumn => None
                  end;
  ys ← int32_part timestamp_col Year;
  ms ← int32_part timestamp_col Month;
  ds ← int32_part timestamp_col Day;
  hs ← int32_part timestamp_col Hour;
  Some (mkTemporalComponents ys ms ds hs).

Definition is_valid (a : int32s) (i : nat) : bool := match a !! i with Some (v, _) => v | None => false end.
Definition value (a : int32s) (i : nat) : Z := match a !! i with Some (_, z) => z | None => 0%Z end.

(** A row's key, where its year is valid. *)
Definition component_key (c : TemporalComponents) (i : nat) : option PartitionKey :=
  if is_valid (years c) i then Some (mkPartitionKey (value (years c) i) (value (months c) i) (value (days c) i) (value (hours c) i))
  else None.

Definition batch_components (batch : RB) : option TemporalComponents := column_named batch "timestamp" ≫= extract_temporal_components.

(** The keys the manager routes by, a null standing for the fallback key. *)
Definition batch_keys (batch : RB) : option (list (option PartitionKey)) :=
  option_map (fun c => map (component_key c) (seq 0 (length (rb_rows batch)))) (batch_components batch).

(** A key for every row, by construction: what the routing asks of its
    environment. *)
Lemma batch_keys_length batch keys : batch_keys batch = Some keys -> length keys = length (rb_rows batch).
Proof. unfold batch_keys. destruct (batch_components batch); [|done]. intros [= <-]. by rewrite length_map, length_seq. Qed.

(** The manager's environment with its keys taken from the columns. *)
Definition with_columns (E : Env RB Sch) : Env RB Sch := {|
  uploader_start := @uploader_start _ _ E; pq_new := @pq_new _ _ E; pq_write := @pq_write _ _ E; pq_close := @pq_close _ _ E;
  filter_record_batch := @filter_record_batch _ _ E; temporal_components := batch_keys; utc_now := @utc_now _ _ E;
  clock_secs := @clock_secs _ _ E; clock_nanos := @clock_nanos _ _ E; uuid_v7 := @uuid_v7 _ _ E;
  upload_finished := @upload_finished _ _ E; upload_result := @upload_result _ _ E |}.

(** The laws of the routing then ask Arrow's filter only. *)
Lemma with_columns_laws (E : Env RB Sch) :
  (forall b mask sub, length mask = length (rb_rows b) -> @filter_record_batch _ _ E b mask = Some sub ->
    rb_rows sub = map snd (filter (fun p => p.1 = true) (zip mask (rb_rows b)))) ->
  @EnvLaws RB Sch Row _ (with_columns E).
Proof. intros Hf. split; [exact Hf | apply batch_keys_length]. Qed.

End Extraction.

(** ** The calendar *)

(** The instants of a column, null or a count, and the calendar that reads one. *)
Class TemporalLaws (RB Col Sch Row : Type) `{TemporalKernels RB Col} `{Arrow RB Sch Row} := {
  instants : Col -> list (option Z);
  calendar : DatePart -> Z -> Z;
  column_rows : forall b name col, column_named b name = Some col -> length (instants col) = length (rb_rows b);
  cast_keeps : forall col col', cast_to_nanos col = Some col' -> instants col' = instants col;
  date_part_reads : forall col part col', date_part col part = Some col' -> exists a, as_int32_array col' = Some a /\
    Forall2 (fun t r => match t with Some t => r = (true, calendar part t) | None => r.1 = false end) (instants col) a;
}.

Section Calendar.
Context {RB Col Sch Row : Type} `{TemporalLaws RB Col Sch Row}.

(** The key of an instant. *)
Definition key_of (t : Z) : PartitionKey := mkPartitionKey (calendar Year t) (calendar Month t) (calendar Day t) (calendar Hour t).

Lemma int32_part_reads col part a i t :
  int32_part col part = Some a -> instants col !! i = Some t ->
  is_valid a i = match t with Some _ => true | None => false end /\ forall t', t = Some t' -> value a i = calendar part t'.
Proof.
  unfold int32_part, is_valid, value. destruct (date_part col part) as [col'|] eqn:Ed; [|done]. cbn. intros Ha Ht.
  destruct (date_part_reads _ _ _ Ed) as (a' & Ha' & Hf). assert (a' = a) as -> by congruence.
  destruct (Forall2_lookup_l _ _ _ _ _ Hf Ht) as ([v z] & Hr & Hx). rewrite Hr. destruct t as [t|]; cbn in Hx; [|by split].
  injection Hx as -> ->. split; [done|]. by intros t' [= ->].
Qed.

(** A batch with a timestamp column the kernels take has, for each row, the
    calendar's key of its instant, and none exactly for the nulls; without such a
    column every row takes the fallback key. *)
Theorem keys_of_instants (batch : RB) keys :
  batch_keys batch = Some keys ->
  exists col, column_named batch "timestamp" = Some col /\ column_kind col <> OtherColumn /\ keys = map (option_map key_of) (instants col).
Proof.
  unfold batch_keys, batch_components. destruct (column_named batch "timestamp") as [col|] eqn:Ec; [|done]. cbn.
  destruct (extract_temporal_components col) as [c|] eqn:Ee; [|done]. cbn. intros [= <-]. exists col. split; [done|].
  unfold extract_temporal_components in Ee.
  assert (Hts : exists ts, match column_kind col with TimestampColumn => Some col | Int64Column => cast_to_nanos col | OtherColumn => None end = Some ts /\
    column_kind col <> OtherColumn /\ instants ts = instants col).
  { destruct (column_kind col); [by exists col | | done]. destruct (cast_to_nanos col) as [ts|] eqn:Et; [|done]. exists ts. by split_and!; [| |apply cast_keeps]. }
  destruct Hts as (ts & Ets & Hk & Hins). rewrite Ets in Ee. split; [done|]. cbn in Ee.
  destruct (int32_part ts Year) as [ys|] eqn:Ey; [|done]. destruct (int32_part ts Month) as [ms|] eqn:Em; [|done].
  destruct (int32_part ts Day) as [ds|] eqn:Edd; [|done]. destruct (int32_part ts Hour) as [hs|] eqn:Eh; [|done]. injection Ee as <-.
  rewrite <- (column_rows _ _ _ Ec), <- Hins. apply list_eq. intros i. rewrite !list_lookup_fmap.
  destruct (decide (i < length (instants ts))%nat) as [Hi|Hi]; cycle 1.
  { rewrite !lookup_ge_None_2; [done | lia | rewrite length_seq; lia]. }
  rewrite lookup_seq_lt by done. destruct (lookup_lt_is_Some_2 _ _ Hi) as [t Ht]. rewrite Ht. cbn. unfold component_key. cbn.
  destruct (int32_part_reads _ _ _ _ _ Ey Ht) as [Hv Hy]. destruct (int32_part_reads _ _ _ _ _ Em Ht) as [_ Hm].
  destruct (int32_part_reads _ _ _ _ _ Edd Ht) as [_ Hd]. destruct (int32_part_reads _ _ _ _ _ Eh Ht) as [_ Hh].
  rewrite Hv. destruct t as [t|]; [|done]. cbn. unfold key_of. by rewrite (Hy t), (Hm t), (Hd t), (Hh t).
Qed.

End Calendar.

Module TemporalDemo.
Import Toy.

(** A toy column is its rows as hours since the epoch, of which a zero is a null, or
    the [Int32Array] a part of it gives. *)
Inductive TCol : Type := Instants (rows : list N) | Ints (a : int32s).

Definition instants_of (c : TCol) : list (option Z) :=
  match c with Instants rows => map (fun r => if r =? 0 then None else Some (Z.of_N r)) rows | Ints _ => [] end.

Definition toy_calendar (part : DatePart) (t : Z) : Z :=
  match part with Year => 1970 | Month => 1 | Day => 1 + t / 24 | Hour => t mod 24 end%Z.

#[local] Instance kernels : TemporalKernels Toy.batch TCol := {|
  column_named b name := if bool_decide (name = "timestamp"%string) then Some (Instants (rb_rows b)) else None;
  column_kind c := match c with Instants _ => Int64Column | Ints _ => OtherColumn end;
  cast_to_nanos c := match c with Instants _ => Some c | Ints _ => None end;
  date_part c part :=
    match c with
    | Instants _ => Some (Ints (map (fun t => match t with Some t => (true, toy_calendar part t) | None => (false, 7%Z) end) (instants_of c)))
    | Ints _ => None
    end;
  as_int32_array c := match c with Ints a => Some a | Instants _ => None end |}.

#[local] Program Instance laws : TemporalLaws Toy.batch TCol N N := {| instants := instants_of; calendar := toy_calendar |}.
Next Obligation. intros b name col. cbn. case_bool_decide; [|done]. intros [= <-]. cbn. by rewrite length_map. Qed.
Next Obligation. intros [rows|a] col'; cbn; by intros [= <-]. Qed.
Next Obligation.
  intros [rows|a] part col'; [|done]. cbn. intros [= <-]. eexists. split; [done|].
  apply Forall2_fmap_r, Forall_Forall2_diag, Forall_forall. by intros [t|] _.
Qed.

(** The second row has no timestamp: it takes the fallback key. *)
Example keys_by_hour :
  batch_keys (0, [30; 0; 47]) = Some [Some (mkPartitionKey 1970 1 2 6); None; Some (mkPartitionKey 1970 1 2 23)].
Proof. vm_compute. reflexivity. Qed.

End TemporalDemo.
