(* ===== verification/Text.v ===== *)
(** The text operations of the standard library the components use, on UTF-8
    byte strings. *)

From Stdlib Require Import DecimalN.
From S2P Require Import Prelude.
Local Open Scope N_scope.

(** [str::trim]: the UTF-8 forms of the White_Space characters. *)
Definition whitespace : list bytes :=
  [[9]; [10]; [11]; [12]; [13]; [32]; [194; 133]; [194; 160]; [225; 154; 128]; [226; 128; 168];
   [226; 128; 169]; [226; 128; 175]; [226; 129; 159]; [227; 128; 128]] ++
  map (fun b => [226; 128; b]) [128; 129; 130; 131; 132; 133; 134; 135; 136; 137; 138].

Definition strip_one (forms : list bytes) (s : bytes) : option bytes :=
  match List.find (fun w => bool_decide (take (length w) s = w)) forms with
  | Some w => Some (drop (length w) s)
  | None => None
  end.

Fixpoint strip_all (fuel : nat) (forms : list bytes) (s : bytes) : bytes :=
  match fuel with
  | O => s
  | S fuel => match strip_one forms s with Some s => strip_all fuel forms s | None => s end
  end.

Definition trim (s : bytes) : bytes :=
  let s := strip_all (length s) whitespace s in
  reverse (strip_all (length s) (map reverse whitespace) (reverse s)).

(** [str::strip_suffix]. *)
Definition strip_suffix (p s : bytes) : option bytes :=
  if (length p <=? length s)%nat && bool_decide (drop (length s - length p) s = p)
  then Some (take (length s - length p) s) else None.

(** The ASCII bytes of a literal. *)
Definition text (s : string) : bytes := map Ascii.N_of_ascii (String.list_ascii_of_string s).

(** Bytes as a text of the development. *)
Definition string_of_bytes (s : bytes) : string := String.string_of_list_ascii (map Ascii.ascii_of_N s).

(** [str::to_ascii_lowercase] and [str::eq_ignore_ascii_case]. *)
Definition to_ascii_lowercase (b : N) : N := if (65 <=? b) && (b <=? 90) then b + 32 else b.

Definition eq_ignore_ascii_case (a b : bytes) : bool :=
  bool_decide (map to_ascii_lowercase a = map to_ascii_lowercase b).

(** [str::starts_with] and [str::contains]. *)
Definition bytes_prefix (p s : bytes) : bool := bool_decide (take (length p) s = p).

Fixpoint bytes_contain (s sub : bytes) : bool :=
  bytes_prefix sub s || match s with [] => false | _ :: s => bytes_contain s sub end.

(** The first word of [str::split_whitespace], for a trimmed text. *)
Fixpoint first_word (s : bytes) : bytes :=
  match s with
  | [] => []
  | b :: s' => match strip_one whitespace s with Some _ => [] | None => b :: first_word s' end
  end.

(** [{}] and [{:016x}] of an unsigned integer. *)
Fixpoint uint_bytes (u : Decimal.uint) : bytes :=
  match u with
  | Decimal.Nil => []
  | Decimal.D0 u => 48 :: uint_bytes u
  | Decimal.D1 u => 49 :: uint_bytes u
  | Decimal.D2 u => 50 :: uint_bytes u
  | Decimal.D3 u => 51 :: uint_bytes u
  | Decimal.D4 u => 52 :: uint_bytes u
  | Decimal.D5 u => 53 :: uint_bytes u
  | Decimal.D6 u => 54 :: uint_bytes u
  | Decimal.D7 u => 55 :: uint_bytes u
  | Decimal.D8 u => 56 :: uint_bytes u
  | Decimal.D9 u => 57 :: uint_bytes u
  end.

Definition decimal (n : N) : bytes := uint_bytes (N.to_uint n).

Definition hex_digit (n : N) : N := if n <? 10 then 48 + n else 87 + n.

Fixpoint hex_fixed (width : nat) (n : N) : bytes :=
  match width with
  | O => []
  | S width => hex_digit (N.land (N.shiftr n (4 * N.of_nat width)) 15) :: hex_fixed width n
  end.

(** [str::parse] to an unsigned integer whose largest value is [mx]. *)
Fixpoint parse_digits (mx : N) (s : bytes) (acc : N) : option N :=
  match s with
  | [] => Some acc
  | b :: s =>
      if (48 <=? b) && (b <=? 57)
      then
        match checked_mul mx acc 10 with
        | None => None
        | Some acc => match checked_add mx acc (b - 48) with None => None | Some acc => parse_digits mx s acc end
        end
      else None
  end.

Definition parse_unsigned (mx : N) (s : bytes) : option N :=
  match s with
  | [] => None
  | 43 :: [] => None
  | 43 :: s => parse_digits mx s 0
  | s => parse_digits mx s 0
  end.

Lemma parse_digits_le mx s acc n : acc <= mx -> parse_digits mx s acc = Some n -> n <= mx.
Proof.
  revert acc. induction s as [|b s IH]; intros acc Ha; cbn [parse_digits]; [by intros [= <-]|].
  destruct (_ && _); [|done]. destruct (checked_mul mx acc 10) as [m|]; [|done].
  destruct (checked_add mx m (b - 48)) as [k|] eqn:Ek; [|done]. apply IH.
  apply checked_add_Some in Ek as [-> ?]. done.
Qed.

Lemma parse_unsigned_le mx s n : parse_unsigned mx s = Some n -> n <= mx.
Proof.
  unfold parse_unsigned. intros Hp. repeat case_match; try done; eapply parse_digits_le; try exact Hp; lia.
Qed.

(** ** [String::from_utf8_lossy]

    One step on a non-empty input: the bytes consumed, and whether they form a
    character; an ill-formed chunk is a maximal prefix of a valid sequence. *)

Definition within (b lo hi : N) : bool := (lo <=? b) && (b <=? hi).
Definition continuation (b : N) : bool := within b 128 191.

(** The width of the character a byte starts, and the range of its second byte. *)
Definition lead (b : N) : option (nat * N * N) :=
  if b <? 128 then Some (1%nat, 0, 0)
  else if within b 194 223 then Some (2%nat, 128, 191)
  else if b =? 224 then Some (3%nat, 160, 191)
  else if b =? 237 then Some (3%nat, 128, 159)
  else if within b 225 239 then Some (3%nat, 128, 191)
  else if b =? 240 then Some (4%nat, 144, 191)
  else if within b 241 243 then Some (4%nat, 128, 191)
  else if b =? 244 then Some (4%nat, 128, 143)
  else None.

Definition utf8_step (b : N) (rest : bytes) : nat * bool :=
  match lead b with
  | None => (1%nat, false)
  | Some (1%nat, _, _) => (1%nat, true)
  | Some (w, lo, hi) =>
      match rest with
      | b1 :: rest =>
          if negb (within b1 lo hi) then (1%nat, false)
          else if (w =? 2)%nat then (2%nat, true)
          else
            match rest with
            | b2 :: rest =>
                if negb (continuation b2) then (2%nat, false)
                else if (w =? 3)%nat then (3%nat, true)
                else match rest with
                     | b3 :: _ => if continuation b3 then (4%nat, true) else (3%nat, false)
                     | [] => (3%nat, false)
                     end
            | [] => (2%nat, false)
            end
      | [] => (1%nat, false)
      end
  end.

(** U+FFFD. *)
Definition replacement : bytes := [239; 191; 189].

Fixpoint utf8_lossy (fuel : nat) (s : bytes) : bytes :=
  match fuel, s with
  | S fuel, b :: rest =>
      let '(n, ok) := utf8_step b rest in
      (if ok then take n s else replacement) ++ utf8_lossy fuel (drop n s)
  | _, _ => []
  end.

Definition from_utf8_lossy (s : bytes) : bytes := utf8_lossy (length s) s.

(** [str::from_utf8]. *)
Fixpoint utf8_valid (fuel : nat) (s : bytes) : bool :=
  match fuel, s with
  | S fuel, b :: rest => let '(n, ok) := utf8_step b rest in ok && utf8_valid fuel (drop n s)
  | _, _ => true
  end.

Definition from_utf8 (s : bytes) : option bytes := if utf8_valid (length s) s then Some s else None.

Lemma utf8_step_pos b rest : (1 <= (utf8_step b rest).1)%nat.
Proof. unfold utf8_step. repeat case_match; cbn; lia. Qed.

Lemma utf8_lossy_valid fuel s : (length s <= fuel)%nat -> utf8_valid fuel s = true -> utf8_lossy fuel s = s.
Proof.
  revert s. induction fuel as [|fuel IH]; intros [|b rest] Hl; cbn [utf8_valid utf8_lossy]; [done | cbn in Hl; lia | done|].
  pose proof (utf8_step_pos b rest) as Hp. destruct (utf8_step b rest) as [n ok]. intros Hv.
  apply andb_prop in Hv as [-> Hv]. rewrite IH; [apply take_drop | | done]. rewrite length_drop. cbn in *. lia.
Qed.

(** Well-formed text is kept as it is. *)
Lemma from_utf8_lossy_valid s : from_utf8 s = Some s -> from_utf8_lossy s = s.
Proof. unfold from_utf8. destruct (utf8_valid _ _) eqn:Ev; [|done]. intros _. by apply utf8_lossy_valid. Qed.

Example lossy_examples :
  from_utf8_lossy [104; 255; 105] = [104; 239; 191; 189; 105] /\
  from_utf8_lossy [226; 130; 65] = [239; 191; 189; 65] /\
  from_utf8_lossy [240; 159; 146; 150] = [240; 159; 146; 150] /\
  from_utf8_lossy [237; 160; 128] = replacement ++ replacement ++ replacement.
Proof. by vm_compute. Qed.

(** ** Printed numbers *)

Lemma uint_bytes_digits u : Forall (fun b => 48 <= b <= 57) (uint_bytes u).
Proof. induction u; cbn; repeat constructor; try lia; done. Qed.

Lemma decimal_digits n : Forall (fun b => 48 <= b <= 57) (decimal n).
Proof. apply uint_bytes_digits. Qed.

Lemma uint_bytes_inj u v : uint_bytes u = uint_bytes v -> u = v.
Proof. revert v. induction u; intros [] E; cbn in E; try done; injection E as E; f_equal; auto. Qed.

Lemma decimal_inj n m : decimal n = decimal m -> n = m.
Proof. intros E. apply DecimalN.Unsigned.to_uint_inj. by apply uint_bytes_inj. Qed.

Lemma of_uint_acc_ge u : forall acc, N.pos acc * 10 ^ N.of_nat (length (uint_bytes u)) <= N.pos (Pos.of_uint_acc u acc).
Proof.
  induction u as [|u IH|u IH|u IH|u IH|u IH|u IH|u IH|u IH|u IH|u IH]; intros acc; cbn [uint_bytes length Pos.of_uint_acc]; [cbn; lia|..];
    rewrite Nat2N.inj_succ, N.pow_succ_r'; (etransitivity; [|apply IH]);
    rewrite (N.mul_assoc (N.pos acc) 10); apply N.mul_le_mono_r; lia.
Qed.

Lemma nzhead_no_zero u v : Decimal.nzhead u <> Decimal.D0 v.
Proof. induction u; cbn; try done. Qed.

(** A number below 10^k has at most k digits. *)
Lemma length_decimal n k : n < 10 ^ N.of_nat k -> (0 < k)%nat -> (length (decimal n) <= k)%nat.
Proof.
  intros Hn Hk. unfold decimal. pose proof (DecimalN.Unsigned.of_to n) as Ho. pose proof (DecimalN.Unsigned.to_of (N.to_uint n)) as Hu. rewrite Ho in Hu.
  assert (Hlen : forall u acc, n = N.pos (Pos.of_uint_acc u acc) -> (S (length (uint_bytes u)) <= k)%nat).
  { intros u acc ->. pose proof (of_uint_acc_ge u acc) as Hge. assert (Hlt : 10 ^ N.of_nat (length (uint_bytes u)) < 10 ^ N.of_nat k) by nia.
    apply N.pow_lt_mono_r_iff in Hlt; lia. }
  destruct (N.to_uint n) as [|u|u|u|u|u|u|u|u|u|u]; cbn [uint_bytes length]; [lia| |by eapply Hlen; rewrite <- Ho; cbn..].
  unfold Decimal.unorm in Hu. destruct (Decimal.nzhead (Decimal.D0 u)) eqn:E; try done; [|by apply nzhead_no_zero in E]. injection Hu as ->. cbn. lia.
Qed.

Lemma length_hex_fixed w n : length (hex_fixed w n) = w.
Proof. induction w as [|w IH]; cbn; [done | by rewrite IH]. Qed.

Lemma hex_digit_range n : n < 16 -> 48 <= hex_digit n <= 57 \/ 97 <= hex_digit n <= 102.
Proof. intros Hn. unfold hex_digit. destruct (N.ltb_spec n 10); lia. Qed.

Lemma nibble_range n : N.land n 15 < 16.
Proof. change 15 with (N.ones 4). rewrite N.land_ones. by apply N.mod_lt. Qed.

Lemma hex_digit_inj n m : n < 16 -> m < 16 -> hex_digit n = hex_digit m -> n = m.
Proof. intros Hn Hm. unfold hex_digit. destruct (N.ltb_spec n 10), (N.ltb_spec m 10); lia. Qed.

(** The digits of a number of that width say which number it is. *)
Lemma hex_fixed_inj w : forall n m, n < 2 ^ (4 * N.of_nat w) -> m < 2 ^ (4 * N.of_nat w) -> hex_fixed w n = hex_fixed w m -> n = m.
Proof.
  assert (Hgen : forall n m, hex_fixed w n = hex_fixed w m -> forall i, i < 4 * N.of_nat w -> N.testbit n i = N.testbit m i).
  { induction w as [|w IH]; intros n m E i Hi; [lia|]. cbn [hex_fixed] in E. injection E as Ed E.
    destruct (N.lt_ge_cases i (4 * N.of_nat w)) as [Hlt|Hge]; [by apply IH|].
    apply hex_digit_inj in Ed; [|apply nibble_range..]. apply (f_equal (fun x => N.testbit x (i - 4 * N.of_nat w))) in Ed.
    rewrite !N.land_spec, !N.shiftr_spec' in Ed. replace (i - 4 * N.of_nat w + 4 * N.of_nat w) with i in Ed by lia.
    assert (E15 : N.testbit 15 (i - 4 * N.of_nat w) = true).
    { change 15 with (N.ones 4). apply N.ones_spec_low. lia. }
    by rewrite E15, !andb_true_r in Ed. }
  intros n m Hn Hm E. apply N.bits_inj. intros i. destruct (N.lt_ge_cases i (4 * N.of_nat w)) as [Hlt|Hge]; [by apply Hgen|].
  assert (Hhigh : forall x, x < 2 ^ (4 * N.of_nat w) -> N.testbit x i = false).
  { intros x Hx. destruct (N.eq_dec x 0) as [->|Hne]; [apply N.bits_0|]. apply N.bits_above_log2. apply N.log2_lt_pow2; [lia|].
    eapply N.lt_le_trans; [exact Hx|]. apply N.pow_le_mono_r; lia. }
  by rewrite !Hhigh.
Qed.

(** ** Numbers read back *)

Lemma of_uint_acc_le u acc : N.pos acc <= N.pos (Pos.of_uint_acc u acc).
Proof.
  pose proof (of_uint_acc_ge u acc) as Hge. assert (1 <= 10 ^ N.of_nat (length (uint_bytes u))) by (pose proof (N.pow_nonzero 10 (N.of_nat (length (uint_bytes u)))); lia).
  nia.
Qed.

Lemma parse_digit mx c s acc d : c = 48 + d -> d <= 9 -> 10 * acc + d <= mx -> parse_digits mx (c :: s) acc = parse_digits mx s (10 * acc + d).
Proof.
  intros -> Hd Hle. cbn [parse_digits]. destruct (N.leb_spec 48 (48 + d)); [|lia]. destruct (N.leb_spec (48 + d) 57); [|lia]. cbn [andb].
  unfold checked_mul. destruct (N.leb_spec (acc * 10) mx); [|lia]. unfold checked_add. destruct (N.leb_spec (acc * 10 + (48 + d - 48)) mx); [|lia]. f_equal. lia.
Qed.

Lemma parse_digits_acc mx u : forall acc, N.pos (Pos.of_uint_acc u acc) <= mx -> parse_digits mx (uint_bytes u) (N.pos acc) = Some (N.pos (Pos.of_uint_acc u acc)).
Proof.
  induction u as [|u IH|u IH|u IH|u IH|u IH|u IH|u IH|u IH|u IH|u IH]; intros acc Hle; cbn [uint_bytes Pos.of_uint_acc] in *; [done|..];
    match goal with |- parse_digits _ (?c :: _) _ = Some (N.pos (Pos.of_uint_acc _ ?a)) =>
      pose proof (of_uint_acc_le u a); rewrite (parse_digit mx c _ _ (c - 48)) by lia;
      replace (10 * N.pos acc + (c - 48)) with (N.pos a) by lia; by apply IH
    end.
Qed.

(** Leading zeros and all. *)
Lemma parse_digits_uint mx u : N.of_uint u <= mx -> parse_digits mx (uint_bytes u) 0 = Some (N.of_uint u).
Proof.
  induction u as [|u IH|u IH|u IH|u IH|u IH|u IH|u IH|u IH|u IH|u IH]; intros Hle; cbn [uint_bytes]; [done|..];
    (rewrite (parse_digit mx _ _ _ 0) by lia; by apply IH) ||
    match goal with |- parse_digits _ (?c :: _) _ = Some (N.of_uint ?v) =>
      let p := eval cbn in (N.of_uint v) in match p with N.pos (Pos.of_uint_acc _ ?a) =>
        change (N.of_uint v) with (N.pos (Pos.of_uint_acc u a)) in *; pose proof (of_uint_acc_le u a);
        rewrite (parse_digit mx c _ _ (c - 48)) by lia; change (10 * 0 + (c - 48)) with (N.pos a); by apply parse_digits_acc
      end
    end.
Qed.

Lemma parse_unsigned_decimal mx n : n <= mx -> parse_unsigned mx (decimal n) = Some n.
Proof.
  intros Hn. assert (Hp : parse_digits mx (decimal n) 0 = Some n).
  { unfold decimal. rewrite parse_digits_uint; rewrite DecimalN.Unsigned.of_to; done. }
  unfold parse_unsigned. pose proof (decimal_digits n) as Hd. destruct (decimal n) as [|c s] eqn:E.
  - unfold decimal in E. apply (f_equal (@length N)) in E. destruct n as [|p]; [done|]. exfalso. pose proof (DecimalN.Unsigned.of_to (Npos p)) as Ho.
    destruct (N.to_uint (Npos p)); cbn in E, Ho; done.
  - apply Forall_cons in Hd as [Hc _]. destruct (N.eqb_spec c 43) as [->|Hne]; [lia|].
    repeat case_match; simplify_eq; try done; lia.
Qed.

(** ** Parts told apart by a separator *)

Lemma app_sep_inj {A} (X Y d1 d2 : list A) c : c ∉ d1 -> c ∉ d2 -> X ++ c :: d1 = Y ++ c :: d2 -> X = Y /\ d1 = d2.
Proof.
  intros H1 H2. revert Y. induction X as [|x X IH]; intros [|y Y] E; cbn in E.
  - by injection E.
  - injection E as <- E. destruct H1. rewrite E. apply elem_of_app. right. apply list_elem_of_here.
  - injection E as -> E. destruct H2. rewrite <- E. apply elem_of_app. right. apply list_elem_of_here.
  - injection E as -> E. by destruct (IH Y E) as [-> ->].
Qed.

Lemma decimal_free n c : ~ (48 <= c <= 57) -> c ∉ decimal n.
Proof. intros Hc Hin. pose proof (decimal_digits n) as Hd. rewrite Forall_forall in Hd. by apply Hc, Hd. Qed.
