(* ===== verification/Variant.v ===== *)
(** The Variant encoder: crates/parquet-sink/src/variant.rs.

    Strings are their UTF-8 bytes and compare byte by byte, as [str] does.  The
    JSON parser is [serde_json], a parameter ([Serde]); a [serde_json::Map] is a
    list of entries.  The scratch buffers are cleared before every use, so an
    encoder is the function of the bytes it leaves in them; buffer capacities are
    not modelled.  The Variant format itself is given by the reference reader
    [decode_variant], which the encoders are proved against. *)

From S2P Require Import Prelude Text ParquetError.
Local Open Scope N_scope.

(** ** JSON values *)

(** [serde_json::Number]; a float is its 64 bits. *)
Inductive Number : Type :=
| PosInt (n : N)
| NegInt (z : Z)
| Float (bits : N).

Inductive Json : Type :=
| JNull
| JBool (b : bool)
| JNumber (n : Number)
| JString (s : bytes)
| JArray (l : list Json)
| JObject (m : list (bytes * Json)).

(** The parser, and what it guarantees: [None] is a syntax error. *)
Class Serde := { from_str : bytes -> option Json }.

Section JsonInd.
Variable P : Json -> Prop.
Hypothesis Hnull : P JNull.
Hypothesis Hbool : forall b, P (JBool b).
Hypothesis Hnumber : forall n, P (JNumber n).
Hypothesis Hstring : forall s, P (JString s).
Hypothesis Harray : forall l, Forall P l -> P (JArray l).
Hypothesis Hobject : forall m, Forall (fun e => P e.2) m -> P (JObject m).

Fixpoint Json_nested_ind (v : Json) : P v :=
  match v with
  | JNull => Hnull
  | JBool b => Hbool b
  | JNumber n => Hnumber n
  | JString s => Hstring s
  | JArray l =>
      Harray l ((fix go l : Forall P l :=
        match l with [] => Forall_nil_2 P | v :: l => Forall_cons_2 P v l (Json_nested_ind v) (go l) end) l)
  | JObject m =>
      Hobject m ((fix go m : Forall (fun e => P e.2) m :=
        match m with [] => Forall_nil_2 _ | e :: m => Forall_cons_2 _ e m (Json_nested_ind e.2) (go m) end) m)
  end.
End JsonInd.

(** ** Keys *)

(** [str::cmp]: byte-wise lexicographic order. *)
Fixpoint bytes_cmp (a b : bytes) : comparison :=
  match a, b with
  | [], [] => Eq
  | [], _ :: _ => Lt
  | _ :: _, [] => Gt
  | x :: a, y :: b => match x ?= y with Eq => bytes_cmp a b | c => c end
  end.

Definition bytes_leb (a b : bytes) : bool := match bytes_cmp a b with Gt => false | _ => true end.

(** Sorting by key: the keys decide, so any sort gives this list up to entries
    with equal keys, of which [dedup_by] keeps the first. *)
Fixpoint insert_entry {V} (e : bytes * V) (l : list (bytes * V)) : list (bytes * V) :=
  match l with
  | [] => [e]
  | x :: l => if bytes_leb e.1 x.1 then e :: x :: l else x :: insert_entry e l
  end.

Definition sort_entries {V} (l : list (bytes * V)) : list (bytes * V) := foldr insert_entry [] l.

Fixpoint dedup_entries {V} (l : list (bytes * V)) : list (bytes * V) :=
  match l with
  | [] => []
  | e :: l =>
      match dedup_entries l with
      | [] => [e]
      | x :: l => if bool_decide (x.1 = e.1) then e :: l else e :: x :: l
      end
  end.

(** [collect_all_keys], in the order the code pushes them. *)
Fixpoint collect_all_keys (v : Json) : list bytes :=
  match v with
  | JObject m => concat (map (fun e => e.1 :: collect_all_keys e.2) m)
  | JArray l => concat (map collect_all_keys l)
  | _ => []
  end.

(** [sort_unstable] and [dedup] of the collected keys. *)
Definition dictionary_of (keys : list bytes) : list bytes :=
  map fst (dedup_entries (sort_entries (map (fun k => (k, tt)) keys))).

(** [binary_search_by] on a sorted dictionary without repetition. *)
Definition dictionary_index (dict : list bytes) (k : bytes) : option N :=
  option_map N.of_nat (position (fun e => bool_decide (e = k)) dict).

(** ** Integers in the buffers *)

Definition write_int_to_buf (val size : N) : result bytes ParquetSinkError :=
  if size =? 1 then if val <=? u8_max then Ok [val] else Err (PVariantEncoding "offset/id exceeds 1 byte")
  else if size =? 2 then if val <=? u16_max then Ok (le_bytes 2 val) else Err (PVariantEncoding "offset/id exceeds 2 bytes")
  else if val <=? u32_max then Ok (le_bytes 4 val) else Err (PVariantEncoding "offset/id exceeds 4 bytes").

Fixpoint collect {A E} (l : list (result A E)) : result (list A) E :=
  match l with
  | [] => Ok []
  | r :: l => match r with
              | Ok a => match collect l with Ok k => Ok (a :: k) | Err e => Err e end
              | Err e => Err e
              end
  end.

(** The running lengths [val_offsets], from [acc] on. *)
Fixpoint offsets_from (acc : N) (values : list bytes) : list N :=
  acc :: match values with [] => [] | v :: values => offsets_from (acc + N.of_nat (length v)) values end.

Definition field_id_size (dict_len : N) : N := if dict_len <=? 256 then 1 else if dict_len <=? 65536 then 2 else 4.
Definition field_offset_size (total : N) : N := if total <=? 255 then 1 else if total <=? 65535 then 2 else 4.
Definition size_minus_one (size : N) : N := if size =? 1 then 0 else if size =? 2 then 1 else 3.

Definition count_bytes (n : N) (is_large : bool) : result bytes ParquetSinkError :=
  if is_large
  then if n <=? u32_max then Ok (le_bytes 4 n) else Err (PVariantEncoding "element count exceeds u32::MAX")
  else Ok [n].

(** ** Values *)

Definition i64_max_N : N := 9223372036854775807.

(** [u as f64]: round to nearest, ties to even, as the 64 bits of the result. *)
Definition u64_as_f64 (u : N) : N :=
  if u =? 0 then 0
  else
    let e := N.log2 u in
    let m :=
      if e <=? 52 then N.shiftl u (52 - e)
      else
        let q := N.shiftr u (e - 52) in
        let r := u - N.shiftl q (e - 52) in
        let half := N.shiftl 1 (e - 53) in
        if (half <? r) || ((r =? half) && N.odd q) then q + 1 else q in
    N.shiftl (1023 + e) 52 + (m - 4503599627370496).

Definition signed_bytes (k : nat) (z : Z) : bytes := le_bytes k (Z.to_N (z mod 256 ^ Z.of_nat k)).

Definition in_range (bits : Z) (z : Z) : bool := ((- 2 ^ (bits - 1) <=? z) && (z <? 2 ^ (bits - 1)))%Z.

Definition encode_i64 (i : Z) : bytes :=
  if in_range 8 i then 12 :: signed_bytes 1 i
  else if in_range 16 i then 16 :: signed_bytes 2 i
  else if in_range 32 i then 20 :: signed_bytes 4 i
  else 24 :: signed_bytes 8 i.

Definition encode_number (n : Number) : bytes :=
  match n with
  | NegInt z => encode_i64 z
  | PosInt u => if u <=? i64_max_N then encode_i64 (Z.of_N u) else 28 :: le_bytes 8 (u64_as_f64 u)
  | Float bits => 28 :: le_bytes 8 bits
  end.

Definition encode_string (s : bytes) : result bytes ParquetSinkError :=
  let len := N.of_nat (length s) in
  if len <? 64 then Ok (N.lor (N.shiftl len 2) 1 :: s)
  else if len <=? u32_max then Ok (64 :: le_bytes 4 len ++ s)
  else Err (PVariantEncoding "string length exceeds u32::MAX").

Definition object_metadata (id_size offset_size : N) (is_large : bool) : N :=
  let header :=
    N.lor (N.lor (N.land (size_minus_one offset_size) 3) (N.shiftl (N.land (size_minus_one id_size) 3) 2))
      (N.shiftl (N.land (if is_large then 1 else 0) 1) 4) in
  N.lor (N.shiftl header 2) 2.

Definition encode_object (dict : list bytes) (entries : list (bytes * result bytes ParquetSinkError))
  : result bytes ParquetSinkError :=
  let entries := dedup_entries (sort_entries entries) in
  let n := N.of_nat (length entries) in
  let? values := collect (map snd entries) in
  let staging := concat values in
  let is_large := 255 <? n in
  let id_size := field_id_size (N.of_nat (length dict)) in
  let offset_size := field_offset_size (N.of_nat (length staging)) in
  let? count := count_bytes n is_large in
  let? ids := collect (map (fun e =>
    match dictionary_index dict e.1 with
    | Some id => write_int_to_buf id id_size
    | None => Err (PVariantEncoding "dictionary key missing during value encoding")
    end) entries) in
  let? offsets := collect (map (fun o => write_int_to_buf o offset_size) (offsets_from 0 values)) in
  Ok (object_metadata id_size offset_size is_large :: count ++ concat ids ++ concat offsets ++ staging).

Definition array_metadata (offset_size : N) (is_large : bool) : N :=
  let header := N.lor (N.land (size_minus_one offset_size) 3) (N.shiftl (N.land (if is_large then 1 else 0) 1) 2) in
  N.lor (N.shiftl header 2) 3.

Definition encode_array (elements : list (result bytes ParquetSinkError)) : result bytes ParquetSinkError :=
  let n := N.of_nat (length elements) in
  let is_large := 255 <? n in
  let? values := collect elements in
  let staging := concat values in
  let offset_size := field_offset_size (N.of_nat (length staging)) in
  let? count := count_bytes n is_large in
  let? offsets := collect (map (fun o => write_int_to_buf o offset_size) (offsets_from 0 values)) in
  Ok (array_metadata offset_size is_large :: count ++ concat offsets ++ staging).

(** [encode_json_value]: the bytes pushed to the buffer. *)
Fixpoint encode_json_value (dict : list bytes) (v : Json) : result bytes ParquetSinkError :=
  match v with
  | JNull => Ok [0]
  | JBool true => Ok [4]
  | JBool false => Ok [8]
  | JNumber n => Ok (encode_number n)
  | JString s => encode_string s
  | JArray l => encode_array (map (encode_json_value dict) l)
  | JObject m => encode_object dict (map (fun e => (e.1, encode_json_value dict e.2)) m)
  end.

(** ** Metadata *)

(** The bytes [str::from_utf8] accepts. *)
Definition is_cont (b : N) : bool := (128 <=? b) && (b <=? 191).

Definition second_ok (b0 b1 : N) : bool :=
  if b0 =? 224 then (160 <=? b1) && (b1 <=? 191)
  else if b0 =? 237 then (128 <=? b1) && (b1 <=? 159)
  else if b0 =? 240 then (144 <=? b1) && (b1 <=? 191)
  else if b0 =? 244 then (128 <=? b1) && (b1 <=? 143)
  else is_cont b1.

Fixpoint utf8_valid (s : bytes) : bool :=
  match s with
  | [] => true
  | b0 :: s =>
      if b0 <? 128 then utf8_valid s
      else
        match s with
        | [] => false
        | b1 :: s =>
            if (194 <=? b0) && (b0 <=? 223) then is_cont b1 && utf8_valid s
            else
              match s with
              | [] => false
              | b2 :: s =>
                  if (224 <=? b0) && (b0 <=? 239) then second_ok b0 b1 && is_cont b2 && utf8_valid s
                  else
                    match s with
                    | [] => false
                    | b3 :: s =>
                        (240 <=? b0) && (b0 <=? 244) && second_ok b0 b1 && is_cont b2 && is_cont b3 && utf8_valid s
                    end
              end
        end
  end.

Definition STATIC_EMPTY_METADATA : bytes := [1; 0; 0].
Definition STATIC_EMPTY_VALUE : bytes := [2; 0; 0].

Definition metadata_offset_size (max_val : N) : N :=
  if max_val <=? u8_max then 1 else if max_val <=? u16_max then 2 else if max_val <=? 16777215 then 3 else 4.

Definition encode_dictionary_metadata (keys : list bytes) : result bytes ParquetSinkError :=
  let count := N.of_nat (length keys) in
  let total_len := sum_N (fun k => N.of_nat (length k)) keys in
  if usize_max <? total_len then Err (PVariantEncoding "dictionary key offset overflow")
  else
    let offset_size := metadata_offset_size (N.max total_len count) in
    let write v := le_bytes (N.to_nat offset_size) v in
    Ok (N.lor (N.lor 1 (N.shiftl 1 4)) (N.shiftl (offset_size - 1) 6)
        :: write count ++ concat (map write (offsets_from 0 keys)) ++ concat keys).

Definition read_int_le (bs : bytes) (pos size : nat) : N := le_val (slice pos (pos + size) bs).

(** [n] integers from [pos] on; [None] when the buffer is too short. *)
Fixpoint read_offsets (n : nat) (bs : bytes) (pos size : nat) : option (list N) :=
  match n with
  | O => Some []
  | S n =>
      if (length bs <? pos + size)%nat then None
      else option_map (cons (read_int_le bs pos size)) (read_offsets n bs (pos + size) size)
  end.

(** The key loop; [None] is the panic of a slice whose start is past its end. *)
Fixpoint read_keys (bs : bytes) (pos : nat) (offsets : list N) (keys : list bytes) : option (list bytes) :=
  match offsets with
  | o1 :: ((o2 :: _) as rest) =>
      let start := (pos + N.to_nat o1)%nat in
      let stop := (pos + N.to_nat o2)%nat in
      if (length bs <? stop)%nat then Some []
      else if (stop <? start)%nat then None
      else
        let key := slice start stop bs in
        read_keys bs pos rest (if utf8_valid key then keys ++ [key] else keys)
  | _ => Some keys
  end.

Definition parse_dictionary_keys (metadata : bytes) : option (list bytes) :=
  match metadata with
  | [] => Some []
  | header :: _ =>
      if negb (N.land header 15 =? 1) then Some []
      else
        let size := N.to_nat (N.land (N.shiftr header 6) 3 + 1) in
        if (length metadata <? 1 + size)%nat then Some []
        else
          let count := N.to_nat (read_int_le metadata 1 size) in
          if (count =? 0)%nat then Some []
          else
            match read_offsets (S count) metadata (1 + size) size with
            | None => Some []
            | Some offsets => read_keys metadata (1 + size + S count * size) offsets []
            end
  end.

(** ** A document *)

Definition null_text : bytes := [110; 117; 108; 108].
Definition empty_object_text : bytes := [123; 125].

Definition encode_json_internal `{Serde} (trimmed : bytes) : result (bytes * bytes) ParquetSinkError :=
  match from_str trimmed with
  | None =>
      if bool_decide (head trimmed = Some 123 \/ head trimmed = Some 91)
      then Err (PVariantEncoding "invalid JSON payload")
      else let? value := encode_string trimmed in Ok (STATIC_EMPTY_METADATA, value)
  | Some (JObject []) => Ok (STATIC_EMPTY_METADATA, STATIC_EMPTY_VALUE)
  | Some ((JObject _ | JArray _) as parsed) =>
      let all_keys := dictionary_of (collect_all_keys parsed) in
      let? metadata := encode_dictionary_metadata all_keys in
      let? value := encode_json_value all_keys parsed in
      Ok (metadata, value)
  | Some primitive =>
      let? value := encode_json_value [] primitive in Ok (STATIC_EMPTY_METADATA, value)
  end.

Definition encode_json_str `{Serde} (json : bytes) : result (option (bytes * bytes)) ParquetSinkError :=
  let trimmed := trim json in
  if bool_decide (trimmed = [] \/ trimmed = null_text) then Ok None
  else if bool_decide (trimmed = empty_object_text) then Ok (Some (STATIC_EMPTY_METADATA, STATIC_EMPTY_VALUE))
  else let? encoded := encode_json_internal trimmed in Ok (Some encoded).

(** ** The format's reader

    What a consumer of the format reads back, field by field. *)

Inductive Variant : Type :=
| VNull
| VBool (b : bool)
| VInt (z : Z)
| VDouble (bits : N)
| VString (s : bytes)
| VArray (l : list Variant)
| VObject (m : list (bytes * Variant)).

Definition read_le (bs : bytes) (pos size : nat) : option N :=
  if (pos + size <=? length bs)%nat then Some (le_val (slice pos (pos + size) bs)) else None.

Definition signed (k : nat) (u : N) : Z :=
  let z := Z.of_N u in
  if (z <? 256 ^ Z.of_nat k / 2)%Z then z else (z - 256 ^ Z.of_nat k)%Z.

Definition read_primitive (id : N) (bs : bytes) : option Variant :=
  match id with
  | 0 => Some VNull
  | 1 => Some (VBool true)
  | 2 => Some (VBool false)
  | 3 => option_map (fun u => VInt (signed 1 u)) (read_le bs 0 1)
  | 4 => option_map (fun u => VInt (signed 2 u)) (read_le bs 0 2)
  | 5 => option_map (fun u => VInt (signed 4 u)) (read_le bs 0 4)
  | 6 => option_map (fun u => VInt (signed 8 u)) (read_le bs 0 8)
  | 7 => option_map VDouble (read_le bs 0 8)
  | 16 =>
      match read_le bs 0 4 with
      | Some len =>
          if (4 + N.to_nat len <=? length bs)%nat then Some (VString (slice 4 (4 + N.to_nat len) bs)) else None
      | None => None
      end
  | _ => None
  end.

(** The bytes of field [i] of a container, given where its offsets and its values
    start. *)
Definition field_bytes (bs : bytes) (offsets_at offset_size values_at i : nat) : option bytes :=
  option_map (fun o => drop (values_at + N.to_nat o) bs) (read_le bs (offsets_at + i * offset_size) offset_size).

Fixpoint decode_variant (fuel : nat) (dict : list bytes) (bs : bytes) : option Variant :=
  match fuel, bs with
  | O, _ | _, [] => None
  | S fuel, h :: bs =>
      let header := N.shiftr h 2 in
      let offset_size := N.to_nat (N.land header 3 + 1) in
      match N.land h 3 with
      | 0 => read_primitive header bs
      | 1 => if (N.to_nat header <=? length bs)%nat then Some (VString (take (N.to_nat header) bs)) else None
      | 2 =>
          let id_size := N.to_nat (N.land (N.shiftr header 2) 3 + 1) in
          let count_size := if N.testbit header 4 then 4%nat else 1%nat in
          match read_le bs 0 count_size with
          | None => None
          | Some n =>
              let n := N.to_nat n in
              let offsets_at := (count_size + n * id_size)%nat in
              let values_at := (offsets_at + S n * offset_size)%nat in
              option_map VObject (mapM (fun i =>
                match read_le bs (count_size + i * id_size) id_size with
                | Some id =>
                    match dict !! N.to_nat id, field_bytes bs offsets_at offset_size values_at i with
                    | Some k, Some field => option_map (pair k) (decode_variant fuel dict field)
                    | _, _ => None
                    end
                | None => None
                end) (seq 0 n))
          end
      | _ =>
          let count_size := if N.testbit header 2 then 4%nat else 1%nat in
          match read_le bs 0 count_size with
          | None => None
          | Some n =>
              let n := N.to_nat n in
              let values_at := (count_size + S n * offset_size)%nat in
              option_map VArray (mapM (fun i =>
                match field_bytes bs count_size offset_size values_at i with
                | Some field => decode_variant fuel dict field
                | None => None
                end) (seq 0 n))
          end
      end
  end.

(** What a JSON value denotes in the format: numbers in their stored form, the
    fields of an object sorted by key. *)
Definition variant_of_number (n : Number) : Variant :=
  match n with
  | NegInt z => VInt z
  | PosInt u => if u <=? i64_max_N then VInt (Z.of_N u) else VDouble (u64_as_f64 u)
  | Float bits => VDouble bits
  end.

Fixpoint variant_of (v : Json) : Variant :=
  match v with
  | JNull => VNull
  | JBool b => VBool b
  | JNumber n => variant_of_number n
  | JString s => VString s
  | JArray l => VArray (map variant_of l)
  | JObject m => VObject (dedup_entries (sort_entries (map (fun e => (e.1, variant_of e.2)) m)))
  end.

Fixpoint depth (v : Json) : nat :=
  match v with
  | JArray l => S (list_max (map depth l))
  | JObject m => S (list_max (map (fun e => depth e.2) m))
  | _ => 1
  end.

(** Numbers as [serde_json] holds them. *)
Definition number_ok (n : Number) : Prop :=
  match n with
  | PosInt u => u <= u64_max
  | NegInt z => (- 2 ^ 63 <= z < 0)%Z
  | Float bits => bits <= u64_max
  end.

Fixpoint json_ok (v : Json) : Prop :=
  match v with
  | JNumber n => number_ok n
  | JArray l => foldr (fun v P => json_ok v /\ P) True l
  | JObject m => foldr (fun e P => json_ok e.2 /\ P) True m
  | _ => True
  end.

(** ** Reading back what was written *)

Lemma collect_ok {A E} (l : list (result A E)) k :
  collect l = Ok k -> Forall2 (fun r a => r = Ok a) l k.
Proof.
  revert k. induction l as [|r l IH]; intros k; cbn.
  - intros [= <-]. constructor.
  - destruct r as [a|e]; [|done]. destruct (collect l) as [k'|e]; [|done]. intros [= <-]. by constructor; [|apply IH].
Qed.

Lemma write_int_ok val size b :
  write_int_to_buf val size = Ok b -> size = 1 \/ size = 2 \/ size = 4 ->
  b = le_bytes (N.to_nat size) val /\ val < 256 ^ size.
Proof.
  unfold write_int_to_buf. intros Hw [-> | [-> | ->]]; cbn [N.eqb Pos.eqb] in Hw;
    destruct (val <=? _) eqn:E in Hw; try done; apply N.leb_le in E; injection Hw as <-.
  - split; [|unfold u8_max in E; change (256 ^ 1) with 256; lia].
    change (N.to_nat 1) with 1%nat. cbn [le_bytes]. rewrite N.mod_small; [done|]. unfold u8_max in E. lia.
  - split; [done|]. unfold u16_max in E. change (256 ^ 2) with 65536. lia.
  - split; [done|]. unfold u32_max in E. change (256 ^ 4) with 4294967296. lia.
Qed.

Lemma length_concat_bytes (k : nat) (xs : list N) : length (concat (map (le_bytes k) xs)) = (length xs * k)%nat.
Proof. induction xs as [|x xs IH]; [done|]. cbn [map concat]. rewrite length_app, length_le_bytes, IH. cbn. lia. Qed.

(** The [i]-th integer of a run of fixed-width integers. *)
Lemma read_le_run pre xs post (k i : nat) x :
  xs !! i = Some x -> x < 256 ^ N.of_nat k ->
  read_le (pre ++ concat (map (le_bytes k) xs) ++ post) (length pre + i * k) k = Some x.
Proof.
  intros Hx Hlt. pose proof (lookup_lt_Some _ _ _ Hx) as Hi. unfold read_le.
  assert (Hlen : (length pre + i * k + k <= length (pre ++ concat (map (le_bytes k) xs) ++ post))%nat).
  { rewrite !length_app, length_concat_bytes. nia. }
  apply Nat.leb_le in Hlen as ->. f_equal. rewrite <- (le_val_le_bytes k x Hlt). f_equal.
  apply list_elem_of_split_length in Hx as (l1 & l2 & -> & ->).
  rewrite map_app, concat_app. cbn [map concat].
  assert (E : pre ++ (concat (map (le_bytes k) l1) ++ le_bytes k x ++ concat (map (le_bytes k) l2)) ++ post =
    (pre ++ concat (map (le_bytes k) l1)) ++ le_bytes k x ++ (concat (map (le_bytes k) l2) ++ post)) by by rewrite <- !app_assoc.
  rewrite E. rewrite slice_app_r by (rewrite length_app, length_concat_bytes; lia).
  rewrite length_app, length_concat_bytes. unfold slice.
  replace (length pre + length l1 * k - (length pre + length l1 * k))%nat with 0%nat by lia.
  rewrite drop_0. replace (_ - _)%nat with k by lia. rewrite take_app_le by (rewrite length_le_bytes; lia).
  apply take_ge. rewrite length_le_bytes. lia.
Qed.

Lemma read_le_one (k : nat) x post : x < 256 ^ N.of_nat k -> read_le (le_bytes k x ++ post) 0 k = Some x.
Proof.
  intros Hx. pose proof (read_le_run [] [x] post k 0 x eq_refl Hx) as R. cbn [map concat app length] in R.
  rewrite app_nil_r in R. exact R.
Qed.

Lemma offsets_from_length acc values : length (offsets_from acc values) = S (length values).
Proof. revert acc. induction values as [|v values IH]; intros acc; cbn; [done|]. by rewrite IH. Qed.

Lemma offsets_from_lookup acc values i :
  (i <= length values)%nat ->
  offsets_from acc values !! i = Some (acc + N.of_nat (length (concat (take i values)))).
Proof.
  revert acc i. induction values as [|v values IH]; intros acc [|i] Hi; cbn [length] in Hi; try lia.
  - cbn. f_equal. lia.
  - cbn. f_equal. lia.
  - cbn [offsets_from]. change ((acc :: offsets_from (acc + N.of_nat (length v)) values) !! S i)
      with (offsets_from (acc + N.of_nat (length v)) values !! i).
    rewrite IH by lia. cbn [take concat]. rewrite length_app. f_equal. lia.
Qed.

Lemma drop_concat (values : list bytes) i v rest :
  values !! i = Some v ->
  drop (length (concat (take i values))) (concat values ++ rest) = v ++ concat (drop (S i) values) ++ rest.
Proof.
  intros Hv. rewrite <- (take_drop_middle values i v Hv) at 2.
  rewrite concat_app. cbn [concat]. rewrite <- !app_assoc. by rewrite drop_app_length.
Qed.

Lemma mapM_seq {A} (f : nat -> option A) (xs : list A) :
  (forall i x, xs !! i = Some x -> f i = Some x) -> mapM f (seq 0 (length xs)) = Some xs.
Proof.
  intros Hf. apply mapM_Some. apply Forall2_same_length_lookup_2; [by rewrite length_seq|].
  intros i j x Hj Hx. apply lookup_seq in Hj as [-> _]. by apply Hf.
Qed.

(** One field of a container laid out as [pre], the offsets, the values. *)
Lemma field_bytes_at pre values rest (k i : nat) v :
  values !! i = Some v -> N.of_nat (length (concat values)) < 256 ^ N.of_nat k ->
  field_bytes (pre ++ concat (map (le_bytes k) (offsets_from 0 values)) ++ concat values ++ rest)
    (length pre) k (length pre + S (length values) * k) i = Some (v ++ concat (drop (S i) values) ++ rest).
Proof.
  intros Hv Hk. pose proof (lookup_lt_Some _ _ _ Hv) as Hi. unfold field_bytes.
  set (o := N.of_nat (length (concat (take i values)))).
  assert (Ho : offsets_from 0 values !! i = Some o) by (rewrite offsets_from_lookup by lia; f_equal; lia).
  assert (Hle : (length (concat (take i values)) <= length (concat values))%nat).
  { rewrite <- (take_drop i values) at 2. rewrite concat_app, length_app. lia. }
  rewrite (read_le_run pre _ _ k i o Ho) by (subst o; lia). cbn [option_map]. f_equal.
  rewrite <- (drop_concat values i v rest Hv). unfold o. rewrite Nat2N.id.
  rewrite app_assoc, drop_app_ge by (rewrite length_app, length_concat_bytes, offsets_from_length; lia).
  f_equal. rewrite length_app, length_concat_bytes, offsets_from_length. lia.
Qed.

(** ** Headers *)

Definition is_size (s : N) : Prop := s = 1 \/ s = 2 \/ s = 4.

Lemma field_id_size_ok n : is_size (field_id_size n).
Proof. unfold field_id_size, is_size. destruct (_ <=? 256); [|destruct (_ <=? 65536)]; auto. Qed.

Lemma field_offset_size_ok n : is_size (field_offset_size n).
Proof. unfold field_offset_size, is_size. destruct (_ <=? 255); [|destruct (_ <=? 65535)]; auto. Qed.

Lemma object_metadata_fields id off large :
  is_size id -> is_size off ->
  let h := object_metadata id off large in
  N.land h 3 = 2 /\ N.land (N.shiftr h 2) 3 + 1 = off /\
  N.land (N.shiftr (N.shiftr h 2) 2) 3 + 1 = id /\ N.testbit (N.shiftr h 2) 4 = large.
Proof. intros [-> | [-> | ->]] [-> | [-> | ->]]; destruct large; vm_compute; auto. Qed.

Lemma array_metadata_fields off large :
  is_size off -> let h := array_metadata off large in
  N.land h 3 = 3 /\ N.land (N.shiftr h 2) 3 + 1 = off /\ N.testbit (N.shiftr h 2) 2 = large.
Proof. intros [-> | [-> | ->]]; destruct large; vm_compute; auto. Qed.

Lemma short_string_header len : N.land (N.lor (N.shiftl len 2) 1) 3 = 1 /\ N.shiftr (N.lor (N.shiftl len 2) 1) 2 = len.
Proof.
  split.
  - rewrite N.land_lor_distr_l. change 3 with (N.ones 2). rewrite N.land_ones, N.shiftl_mul_pow2.
    rewrite N.Div0.mod_mul. done.
  - rewrite N.shiftr_lor, N.shiftr_shiftl_l by lia. change (2 - 2) with 0. change (N.shiftr 1 2) with 0.
    by rewrite N.shiftl_0_r, N.lor_0_r.
Qed.

Lemma count_bytes_read n large b post :
  count_bytes n large = Ok b -> large = (255 <? n) ->
  read_le (b ++ post) 0 (if large then 4%nat else 1%nat) = Some n /\ length b = (if large then 4%nat else 1%nat).
Proof.
  unfold count_bytes. intros Hb ->. destruct (255 <? n) eqn:E.
  - destruct (n <=? u32_max) eqn:E'; [|done]. apply N.leb_le in E'. injection Hb as <-. split; [|done].
    apply (read_le_one 4). unfold u32_max in E'. change (256 ^ N.of_nat 4) with 4294967296. lia.
  - apply N.ltb_ge in E. injection Hb as <-. split; [|done].
    assert (El : [n] = le_bytes 1 n) by (cbn [le_bytes]; rewrite N.mod_small by lia; done).
    rewrite El. apply read_le_one. change (256 ^ N.of_nat 1) with 256. lia.
Qed.

(** ** Numbers and strings *)

Lemma signed_bytes_read (k : nat) (z : Z) post :
  (0 < k)%nat -> (- 256 ^ Z.of_nat k / 2 <= z < 256 ^ Z.of_nat k / 2)%Z ->
  option_map (fun u => VInt (signed k u)) (read_le (signed_bytes k z ++ post) 0 k) = Some (VInt z).
Proof.
  intros Hk Hz. set (M := (256 ^ Z.of_nat k)%Z) in *.
  assert (HM : (M = 2 * (M / 2) /\ 0 < M)%Z).
  { unfold M. destruct k as [|k]; [lia|]. rewrite Nat2Z.inj_succ, Z.pow_succ_r by lia.
    assert (0 < 256 ^ Z.of_nat k)%Z by (apply Z.pow_pos_nonneg; lia).
    replace (256 * 256 ^ Z.of_nat k)%Z with (128 * 256 ^ Z.of_nat k * 2)%Z by lia. rewrite Z.div_mul by lia. lia. }
  assert (Hneg : (- M / 2 = - (M / 2))%Z).
  { replace (- M)%Z with (- (M / 2) * 2)%Z by lia. by rewrite Z.div_mul. }
  pose proof (Z.mod_pos_bound z M ltac:(lia)) as Hm.
  unfold signed_bytes. rewrite read_le_one.
  - cbn [option_map]. do 2 f_equal. unfold signed. fold M. rewrite Z2N.id by lia.
    destruct (Z.ltb_spec (z mod M) (M / 2)) as [Hl|Hl].
    + destruct (Z.neg_nonneg_cases z) as [Hn|Hn]; [|apply Z.mod_small; lia].
      rewrite <- (Z_mod_plus_full z 1 M), Z.mod_small in Hl by lia. lia.
    + destruct (Z.neg_nonneg_cases z) as [Hn|Hn].
      * rewrite <- (Z_mod_plus_full z 1 M), Z.mod_small by lia. lia.
      * rewrite Z.mod_small in Hl by lia. lia.
  - apply N2Z.inj_lt. rewrite N2Z.inj_pow, nat_N_Z. change (Z.of_N 256) with 256%Z. fold M. rewrite Z2N.id; lia.
Qed.

Lemma encode_i64_read (z : Z) fuel dict post :
  (- 2 ^ 63 <= z < 2 ^ 63)%Z -> decode_variant (S fuel) dict (encode_i64 z ++ post) = Some (VInt z).
Proof.
  intros Hz. unfold encode_i64, in_range.
  repeat match goal with
  | |- context [if (?a <=? z)%Z && (z <? ?b)%Z then _ else _] =>
      destruct ((a <=? z)%Z && (z <? b)%Z) eqn:?
  end; repeat match goal with
  | H : (_ && _)%bool = true |- _ => apply andb_true_iff in H as [?%Z.leb_le ?%Z.ltb_lt]
  end; cbn [app decode_variant].
  - apply (signed_bytes_read 1); [lia|]. change (256 ^ Z.of_nat 1 / 2)%Z with 128%Z. change (- 256 ^ Z.of_nat 1 / 2)%Z with (-128)%Z. lia.
  - apply (signed_bytes_read 2); [lia|]. change (256 ^ Z.of_nat 2 / 2)%Z with 32768%Z. change (- 256 ^ Z.of_nat 2 / 2)%Z with (-32768)%Z. lia.
  - apply (signed_bytes_read 4); [lia|]. change (256 ^ Z.of_nat 4 / 2)%Z with (2 ^ 31)%Z. change (- 256 ^ Z.of_nat 4 / 2)%Z with (- 2 ^ 31)%Z. lia.
  - apply (signed_bytes_read 8); [lia|]. change (256 ^ Z.of_nat 8 / 2)%Z with (2 ^ 63)%Z. change (- 256 ^ Z.of_nat 8 / 2)%Z with (- 2 ^ 63)%Z. lia.
Qed.

Lemma u64_as_f64_bound u : u <= u64_max -> u64_as_f64 u < 256 ^ 8.
Proof.
  intros Hu. unfold u64_as_f64. destruct (u =? 0) eqn:E0; [done|]. apply N.eqb_neq in E0.
  destruct (N.log2_spec u ltac:(lia)) as [Hl Hh]. set (e := N.log2 u) in *.
  assert (He : e <= 63).
  { assert (2 ^ e < 2 ^ 64) by (unfold u64_max in Hu; lia). assert (e < 64) by (by apply (N.pow_lt_mono_r_iff 2)). lia. }
  cbv zeta. set (m := if e <=? 52 then _ else _).
  assert (Hm : m <= 2 ^ 53).
  { subst m. destruct (N.leb_spec e 52) as [Hle|Hgt].
    - rewrite N.shiftl_mul_pow2. assert (E : 2 ^ 53 = 2 ^ N.succ e * 2 ^ (52 - e)) by (rewrite <- N.pow_add_r; f_equal; lia).
      rewrite E. apply N.mul_le_mono_r. lia.
    - set (q := N.shiftr u (e - 52)). assert (Hq : q < 2 ^ 53).
      { unfold q. rewrite N.shiftr_div_pow2. apply N.Div0.div_lt_upper_bound. rewrite <- N.pow_add_r.
        replace (e - 52 + 53) with (N.succ e) by lia. done. }
      destruct (_ || _); lia. }
  rewrite N.shiftl_mul_pow2. change (256 ^ 8) with (2 ^ 64). change (2 ^ 53) with 9007199254740992 in Hm.
  change (2 ^ 52) with 4503599627370496. change (2 ^ 64) with 18446744073709551616. nia.
Qed.

Lemma encode_number_read n fuel dict post :
  number_ok n -> decode_variant (S fuel) dict (encode_number n ++ post) = Some (variant_of_number n).
Proof.
  assert (Hd : forall bits, bits < 256 ^ 8 -> decode_variant (S fuel) dict ((28 :: le_bytes 8 bits) ++ post) = Some (VDouble bits)).
  { intros bits Hb. cbn [app decode_variant]. change (N.land 28 3) with 0. cbn beta iota.
    change (N.shiftr 28 2) with 7. cbn [read_primitive]. by rewrite read_le_one. }
  destruct n as [u|z|bits]; cbn [number_ok encode_number variant_of_number].
  - intros Hu. destruct (u <=? i64_max_N) eqn:E.
    + apply N.leb_le in E. apply encode_i64_read. unfold i64_max_N in E. lia.
    + apply Hd. by apply u64_as_f64_bound.
  - intros Hz. apply encode_i64_read. lia.
  - intros Hb. apply Hd. unfold u64_max in Hb. change (256 ^ 8) with 18446744073709551616. lia.
Qed.

Lemma encode_string_read s b fuel dict post :
  encode_string s = Ok b -> decode_variant (S fuel) dict (b ++ post) = Some (VString s).
Proof.
  unfold encode_string. set (len := N.of_nat (length s)). destruct (len <? 64) eqn:E.
  - intros [= <-]. destruct (short_string_header len) as [H1 H2]. cbn [app decode_variant]. rewrite H1, H2.
    cbn beta iota. unfold len. rewrite Nat2N.id, length_app.
    destruct (Nat.leb_spec (length s) (length s + length post)); [|lia]. by rewrite take_app_length.
  - destruct (len <=? u32_max) eqn:E'; [|done]. apply N.leb_le in E'. intros Hb.
    assert (Eb : b = 64 :: le_bytes 4 len ++ s) by congruence. rewrite Eb.
    cbn [app decode_variant]. change (N.land 64 3) with 0. change (N.shiftr 64 2) with 16. cbn beta iota.
    rewrite <- app_assoc. cbn [read_primitive]. rewrite read_le_one.
    2:{ unfold u32_max in E'. change (256 ^ N.of_nat 4) with 4294967296. lia. }
    unfold len. rewrite Nat2N.id, !length_app, length_le_bytes.
    destruct (Nat.leb_spec (4 + length s) (4 + (length s + length post))); [|lia].
    rewrite slice_app_r by (rewrite length_le_bytes; lia). rewrite length_le_bytes.
    replace (4 - 4)%nat with 0%nat by lia. replace (4 + length s - 4)%nat with (length s) by lia.
    unfold slice. rewrite drop_0, Nat.sub_0_r. by rewrite take_app_length.
Qed.

(** ** Containers *)

Lemma writes_ok xs size bs :
  collect (map (fun o => write_int_to_buf o size) xs) = Ok bs -> is_size size ->
  bs = map (le_bytes (N.to_nat size)) xs /\ Forall (fun x => x < 256 ^ size) xs.
Proof.
  intros Hc Hs. apply collect_ok in Hc. revert bs Hc.
  induction xs as [|x xs IH]; intros bs Hc; cbn [map] in *.
  - apply Forall2_nil_inv_l in Hc as ->. by split; constructor.
  - apply Forall2_cons_inv_l in Hc as (b & bs' & Hb & Hbs & ->). destruct (write_int_ok _ _ _ Hb Hs) as [-> Hx].
    destruct (IH _ Hbs) as [-> Hxs]. by split; [|constructor].
Qed.

Lemma offsets_bound values size :
  Forall (fun x => x < 256 ^ size) (offsets_from 0 values) -> N.of_nat (length (concat values)) < 256 ^ size.
Proof.
  intros Hf. assert (Hl : offsets_from 0 values !! length values = Some (0 + N.of_nat (length (concat (take (length values) values))))).
  { by apply offsets_from_lookup. }
  rewrite take_ge in Hl by lia. exact (Forall_lookup_1 _ _ _ _ Hf Hl).
Qed.

(** An element reads back as [v] wherever it stands. *)
Definition reads (fuel : nat) (dict : list bytes) (r : result bytes ParquetSinkError) (v : Variant) : Prop :=
  forall bs rest, r = Ok bs -> decode_variant fuel dict (bs ++ rest) = Some v.

Lemma reads_field fuel dict elements values vs i v :
  Forall2 (reads fuel dict) elements vs -> Forall2 (fun r a => r = Ok a) elements values -> vs !! i = Some v ->
  exists bs, values !! i = Some bs /\ forall rest, decode_variant fuel dict (bs ++ rest) = Some v.
Proof.
  intros Hr Hv Hi. destruct (Forall2_lookup_r _ _ _ _ _ Hr Hi) as (r & Hri & Hrv).
  destruct (Forall2_lookup_l _ _ _ _ _ Hv Hri) as (bs & Hbs & ->). exists bs. split; [done|]. intros rest. by apply Hrv.
Qed.

Lemma encode_array_read fuel dict elements vs out post :
  encode_array elements = Ok out -> Forall2 (reads fuel dict) elements vs ->
  decode_variant (S fuel) dict (out ++ post) = Some (VArray vs).
Proof.
  unfold encode_array. intros He Hr. destruct (collect elements) as [values|] eqn:Ev; [|done].
  apply collect_ok in Ev. pose proof (Forall2_length _ _ _ Ev) as Hlv. pose proof (Forall2_length _ _ _ Hr) as Hlr.
  set (size := field_offset_size _) in He. set (large := 255 <? _) in He.
  destruct (count_bytes _ large) as [cb|] eqn:Ec; [|done].
  destruct (collect (map _ (offsets_from 0 values))) as [offs|] eqn:Eo; [|done].
  pose proof (field_offset_size_ok (N.of_nat (length (concat values)))) as Hs. fold size in Hs.
  destruct (writes_ok _ _ _ Eo Hs) as [-> Hf]. apply offsets_bound in Hf.
  assert (Eout : out = array_metadata size large ::
    cb ++ concat (map (le_bytes (N.to_nat size)) (offsets_from 0 values)) ++ concat values) by congruence.
  rewrite Eout. clear He Eout. destruct (array_metadata_fields size large Hs) as (H1 & H2 & H3).
  destruct (count_bytes_read _ _ _ (concat (map (le_bytes (N.to_nat size)) (offsets_from 0 values)) ++ concat values ++ post)
    Ec eq_refl) as [Hn Hcb].
  cbn [app decode_variant]. rewrite H1, H2, H3. cbn beta iota. rewrite <- !app_assoc, Hn, Nat2N.id, <- Hcb.
  rewrite Hlr. erewrite mapM_seq; [done|]. intros i v Hi.
  destruct (reads_field _ _ _ _ _ _ _ Hr Ev Hi) as (bs & Hbs & Hd).
  rewrite <- Hlr, Hlv. rewrite (field_bytes_at cb values post (N.to_nat size) i bs Hbs) by (by rewrite N2Nat.id).
  apply Hd.
Qed.

Lemma dictionary_index_lookup dict k id : dictionary_index dict k = Some id -> dict !! N.to_nat id = Some k.
Proof.
  unfold dictionary_index. revert id. induction dict as [|e dict IH]; intros id; [done|]. cbn [position].
  case_bool_decide as He; cbn [option_map].
  - intros [= <-]. by rewrite He.
  - destruct (position _ dict) as [j|]; [|done]. cbn [option_map] in *. intros Hid.
    assert (Eid : id = N.of_nat (S j)) by congruence. rewrite Eid, Nat2N.id.
    rewrite <- (IH (N.of_nat j) eq_refl), Nat2N.id. done.
Qed.

(** The field identifiers written for the keys of [entries]. *)
Lemma ids_ok {V} (dict : list bytes) size (entries : list (bytes * V)) ids :
  is_size size ->
  collect (map (fun e => match dictionary_index dict e.1 with
                         | Some id => write_int_to_buf id size
                         | None => Err (PVariantEncoding "dictionary key missing during value encoding")
                         end) entries) = Ok ids ->
  exists ns, ids = map (le_bytes (N.to_nat size)) ns /\ Forall (fun x => x < 256 ^ size) ns /\
    Forall2 (fun n e => dict !! N.to_nat n = Some e.1) ns entries.
Proof.
  intros Hs Hc. apply collect_ok in Hc. revert ids Hc. induction entries as [|e entries IH]; intros ids Hc; cbn [map] in *.
  - apply Forall2_nil_inv_l in Hc as ->. exists []. by repeat constructor.
  - apply Forall2_cons_inv_l in Hc as (b & bs' & Hb & Hbs & ->). destruct (IH _ Hbs) as (ns & -> & Hf & H2).
    destruct (dictionary_index dict e.1) as [id|] eqn:Ei; [|done].
    destruct (write_int_ok _ _ _ Hb Hs) as [-> Hid]. exists (id :: ns). split_and!; [done | by constructor |].
    constructor; [by apply dictionary_index_lookup | done].
Qed.

Lemma encode_object_read fuel dict entries (vs : list (bytes * Variant)) out post :
  encode_object dict entries = Ok out ->
  Forall2 (fun e f => e.1 = f.1 /\ reads fuel dict e.2 f.2) (dedup_entries (sort_entries entries)) vs ->
  decode_variant (S fuel) dict (out ++ post) = Some (VObject vs).
Proof.
  unfold encode_object. intros He Hr. set (es := dedup_entries (sort_entries entries)) in *. clearbody es. clear entries.
  destruct (collect (map snd es)) as [values|] eqn:Ev; [|done].
  apply collect_ok in Ev. pose proof (Forall2_length _ _ _ Ev) as Hlv. rewrite length_map in Hlv.
  pose proof (Forall2_length _ _ _ Hr) as Hlr.
  set (off := field_offset_size _) in He. set (id := field_id_size _) in He. set (large := 255 <? _) in He.
  destruct (count_bytes _ large) as [cb|] eqn:Ec; [|done].
  pose proof (field_id_size_ok (N.of_nat (length dict))) as Hid. fold id in Hid.
  pose proof (field_offset_size_ok (N.of_nat (length (concat values)))) as Hoff. fold off in Hoff.
  destruct (collect (map _ es)) as [ids|] eqn:Ei; [|done]. destruct (ids_ok _ _ _ _ Hid Ei) as (ns & -> & Hns & Hkeys).
  destruct (collect (map _ (offsets_from 0 values))) as [offs|] eqn:Eo; [|done].
  destruct (writes_ok _ _ _ Eo Hoff) as [-> Hf]. apply offsets_bound in Hf.
  pose proof (Forall2_length _ _ _ Hkeys) as Hln.
  set (idb := concat (map (le_bytes (N.to_nat id)) ns)) in *.
  assert (Eout : out = object_metadata id off large ::
    cb ++ idb ++ concat (map (le_bytes (N.to_nat off)) (offsets_from 0 values)) ++ concat values) by congruence.
  rewrite Eout. clear He Eout. destruct (object_metadata_fields id off large Hid Hoff) as (H1 & H2 & H3 & H4).
  set (tail := concat (map (le_bytes (N.to_nat off)) (offsets_from 0 values)) ++ concat values ++ post).
  destruct (count_bytes_read _ _ _ (idb ++ tail) Ec eq_refl) as [Hn Hcb].
  cbn [app decode_variant]. rewrite H1, H2, H3, H4. cbn beta iota. rewrite <- !app_assoc. fold tail.
  rewrite Hn, Nat2N.id, <- Hcb. rewrite Hlr. erewrite mapM_seq; [done|]. intros i [k v] Hi.
  destruct (Forall2_lookup_r _ _ _ _ _ Hr Hi) as ([k' r] & Hei & Hk & Hrv). cbn in Hk, Hrv. subst k'.
  destruct (Forall2_lookup_r _ _ _ _ _ Hkeys Hei) as (n & Hni & Hdict). cbn in Hdict.
  assert (Hvi : map snd es !! i = Some r) by (rewrite list_lookup_fmap, Hei; done).
  destruct (Forall2_lookup_l _ _ _ _ _ Ev Hvi) as (bs & Hbs & ->).
  unfold idb. rewrite (read_le_run cb ns tail _ _ n Hni) by (rewrite N2Nat.id; exact (Forall_lookup_1 _ _ _ _ Hns Hni)).
  rewrite Hdict. fold idb. unfold tail. rewrite app_assoc.
  assert (Hpre : (length cb + length vs * N.to_nat id)%nat = length (cb ++ idb)).
  { unfold idb. rewrite length_app, length_concat_bytes. lia. }
  rewrite Hpre, <- Hlr, Hlv.
  rewrite (field_bytes_at (cb ++ idb) values post (N.to_nat off) i bs Hbs) by (by rewrite N2Nat.id).
  by rewrite Hrv.
Qed.

(** ** Whole values *)

Definition map_values {V W} (f : V -> W) (e : bytes * V) : bytes * W := (e.1, f e.2).

Lemma insert_entry_map {V W} (f : V -> W) e l :
  insert_entry (map_values f e) (map (map_values f) l) = map (map_values f) (insert_entry e l).
Proof.
  induction l as [|x l IH]; [done|]. cbn [map insert_entry].
  change ((map_values f e).1) with e.1. change ((map_values f x).1) with x.1.
  destruct (bytes_leb e.1 x.1); [done|]. cbn [map]. by rewrite IH.
Qed.

Lemma sort_entries_map {V W} (f : V -> W) m : sort_entries (map (map_values f) m) = map (map_values f) (sort_entries m).
Proof.
  unfold sort_entries. induction m as [|e m IH]; [done|]. cbn [map foldr]. by rewrite IH, insert_entry_map.
Qed.

Lemma dedup_entries_map {V W} (f : V -> W) m : dedup_entries (map (map_values f) m) = map (map_values f) (dedup_entries m).
Proof.
  induction m as [|e m IH]; [done|]. cbn [map dedup_entries]. rewrite IH.
  destruct (dedup_entries m) as [|x l]; [done|]. cbn [map].
  change ((map_values f e).1) with e.1. change ((map_values f x).1) with x.1. by case_bool_decide.
Qed.

Lemma insert_entry_perm {V} (e : bytes * V) l : insert_entry e l ≡ₚ e :: l.
Proof.
  induction l as [|x l IH]; [done|]. cbn [insert_entry]. destruct (bytes_leb _ _); [done|].
  rewrite IH. apply Permutation_swap.
Qed.

Lemma sort_entries_perm {V} (l : list (bytes * V)) : sort_entries l ≡ₚ l.
Proof.
  unfold sort_entries. induction l as [|e l IH]; [done|]. cbn [foldr]. by rewrite insert_entry_perm, IH.
Qed.

Lemma dedup_entries_sub {V} (l : list (bytes * V)) : dedup_entries l ⊆ l.
Proof.
  induction l as [|e l IH]; [done|]. cbn [dedup_entries]. destruct (dedup_entries l) as [|x k].
  - intros y Hy. apply list_elem_of_singleton in Hy as ->. by left.
  - case_bool_decide; intros y Hy; apply elem_of_cons in Hy as [->|Hy]; [by left | | by left |]; right; apply IH; [by right | done].
Qed.

Lemma sorted_entries_sub {V} (l : list (bytes * V)) : dedup_entries (sort_entries l) ⊆ l.
Proof. intros x Hx. apply dedup_entries_sub in Hx. by rewrite sort_entries_perm in Hx. Qed.

Lemma foldr_and_Forall {A} (P : A -> Prop) l : foldr (fun x Q => P x /\ Q) True l -> Forall P l.
Proof. induction l as [|x l IH]; cbn; [constructor|]. intros [H1 H2]. constructor; auto. Qed.

Lemma list_max_bound l n x : (list_max l <= n)%nat -> x ∈ l -> (x <= n)%nat.
Proof.
  intros Hl Hx. apply list_max_le in Hl. apply list_elem_of_In in Hx. by apply (proj1 (List.Forall_forall _ _) Hl).
Qed.

Lemma encode_value_read v : forall fuel dict out post,
  encode_json_value dict v = Ok out -> json_ok v -> (depth v <= fuel)%nat ->
  decode_variant fuel dict (out ++ post) = Some (variant_of v).
Proof.
  induction v as [| b | n | s | l IH | m IH] using Json_nested_ind; intros [|fuel] dict out post He Hok Hd; try (cbn in Hd; lia).
  - cbn in He. injection He as <-. done.
  - cbn in He. destruct b; injection He as <-; done.
  - cbn in He. injection He as <-. by apply encode_number_read.
  - by apply encode_string_read.
  - cbn [encode_json_value] in He. cbn [depth] in Hd. cbn [variant_of]. cbn [json_ok] in Hok. apply foldr_and_Forall in Hok.
    apply (encode_array_read fuel dict _ _ _ _ He). apply Forall2_fmap_2, Forall_Forall2_diag.
    apply Forall_forall. intros v Hv bs rest Hbs. rewrite Forall_forall in IH. rewrite Forall_forall in Hok.
    apply IH; [done | done | by apply Hok |]. apply (list_max_bound (map depth l)); [lia | by apply list_elem_of_fmap_2].
  - cbn [encode_json_value] in He. cbn [depth] in Hd. cbn [variant_of]. cbn [json_ok] in Hok. apply foldr_and_Forall in Hok.
    apply (encode_object_read fuel dict _ _ _ _ He).
    change (map (fun e => (e.1, encode_json_value dict e.2)) m) with (map (map_values (encode_json_value dict)) m).
    change (map (fun e => (e.1, variant_of e.2)) m) with (map (map_values variant_of) m).
    rewrite !sort_entries_map, !dedup_entries_map. apply Forall2_fmap_2, Forall_Forall2_diag.
    apply Forall_forall. intros e Hin. apply sorted_entries_sub in Hin. split; [done|]. intros bs rest Hbs.
    rewrite Forall_forall in IH. rewrite Forall_forall in Hok. cbn [map_values snd] in *.
    apply IH; [done | done | by apply Hok |]. apply (list_max_bound (map (fun e => depth e.2) m)); [lia|].
    by apply (list_elem_of_fmap_2 (fun e => depth e.2)).
Qed.

(** ** The dictionary *)

Lemma read_le_int bs pos size x : read_le bs pos size = Some x -> read_int_le bs pos size = x /\ (pos + size <= length bs)%nat.
Proof. unfold read_le, read_int_le. destruct (Nat.leb_spec (pos + size) (length bs)); [|done]. by intros [= <-]. Qed.

Lemma read_offsets_run pre xs post k :
  Forall (fun x => x < 256 ^ N.of_nat k) xs ->
  read_offsets (length xs) (pre ++ concat (map (le_bytes k) xs) ++ post) (length pre) k = Some xs.
Proof.
  intros Hf. revert pre. induction Hf as [|x xs Hx _ IH]; intros pre; [done|]. cbn [length read_offsets].
  pose proof (read_le_run pre (x :: xs) post k 0 x eq_refl Hx) as R. rewrite Nat.mul_0_l, Nat.add_0_r in R.
  apply read_le_int in R as [R Hlen]. rewrite R.
  destruct (Nat.ltb_spec (length (pre ++ concat (map (le_bytes k) (x :: xs)) ++ post)) (length pre + k)); [lia|].
  specialize (IH (pre ++ le_bytes k x)). rewrite length_app, length_le_bytes in IH.
  cbn [map concat]. rewrite <- !app_assoc in *. by rewrite IH.
Qed.

Lemma read_keys_run pre done_keys keys acc :
  Forall (fun k => utf8_valid k = true) keys ->
  read_keys (pre ++ concat done_keys ++ concat keys) (length pre)
    (offsets_from (N.of_nat (length (concat done_keys))) keys) acc = Some (acc ++ keys).
Proof.
  revert done_keys acc. induction keys as [|k keys IH]; intros done_keys acc Hu.
  - cbn. by rewrite app_nil_r.
  - apply Forall_cons in Hu as [Hk Hu]. specialize (IH (done_keys ++ [k]) (acc ++ [k]) Hu).
    rewrite concat_app in IH. cbn [concat] in IH. rewrite app_nil_r, length_app, Nat2N.inj_add in IH.
    set (a := N.of_nat (length (concat done_keys))) in *.
    set (bs := pre ++ concat done_keys ++ concat (k :: keys)).
    assert (Eb : pre ++ (concat done_keys ++ k) ++ concat keys = bs) by (unfold bs; cbn [concat]; by rewrite <- !app_assoc).
    rewrite Eb in IH.
    assert (Hstep : forall rest, read_keys bs (length pre) (a :: (a + N.of_nat (length k)) :: rest) acc =
      read_keys bs (length pre) ((a + N.of_nat (length k)) :: rest) (acc ++ [k])).
    { intros rest. cbn [read_keys]. unfold a. rewrite N2Nat.inj_add, !Nat2N.id.
      destruct (Nat.ltb_spec (length bs) (length pre + (length (concat done_keys) + length k))) as [Hl|_].
      { unfold bs in Hl. cbn [concat] in Hl. rewrite !length_app in Hl. lia. }
      destruct (Nat.ltb_spec (length pre + (length (concat done_keys) + length k)) (length pre + length (concat done_keys))); [lia|].
      assert (Es : slice (length pre + length (concat done_keys)) (length pre + (length (concat done_keys) + length k)) bs = k).
      { unfold slice, bs. cbn [concat]. rewrite app_assoc, <- (length_app pre), drop_app_length.
        rewrite length_app. replace (_ - _)%nat with (length k) by lia. by rewrite take_app_length. }
      rewrite Es, Hk. done. }
    cbn [offsets_from]. destruct keys as [|k' keys]; cbn [offsets_from] in *.
    + rewrite Hstep. rewrite IH. by rewrite <- app_assoc.
    + rewrite Hstep. rewrite IH. by rewrite <- app_assoc.
Qed.

Lemma metadata_offset_size_spec n :
  n <= u32_max -> let s := metadata_offset_size n in
  n < 256 ^ s /\ N.land (N.lor (N.lor 1 (N.shiftl 1 4)) (N.shiftl (s - 1) 6)) 15 = 1 /\
  N.land (N.shiftr (N.lor (N.lor 1 (N.shiftl 1 4)) (N.shiftl (s - 1) 6)) 6) 3 + 1 = s.
Proof.
  intros Hn. cbv zeta. unfold metadata_offset_size, u8_max, u16_max, u32_max in *.
  destruct (N.leb_spec n 255); [|destruct (N.leb_spec n 65535); [|destruct (N.leb_spec n 16777215)]];
    (split; [|by vm_compute]).
  - change (256 ^ 1) with 256. lia.
  - change (256 ^ 2) with 65536. lia.
  - change (256 ^ 3) with 16777216. lia.
  - change (256 ^ 4) with 4294967296. lia.
Qed.

Lemma offsets_from_bound acc keys n :
  acc + sum_N (fun k => N.of_nat (length k)) keys < n -> Forall (fun x => x < n) (offsets_from acc keys).
Proof.
  revert acc. induction keys as [|k keys IH]; intros acc Hs; cbn [offsets_from] in *.
  - cbn in Hs. by constructor; [lia|].
  - rewrite sum_N_cons in Hs. constructor; [lia|]. apply IH. lia.
Qed.

Lemma dictionary_round_trip_gen keys md :
  encode_dictionary_metadata keys = Ok md -> Forall (fun k => utf8_valid k = true) keys ->
  N.of_nat (length keys) <= u32_max -> sum_N (fun k => N.of_nat (length k)) keys <= u32_max ->
  parse_dictionary_keys md = Some keys.
Proof.
  unfold encode_dictionary_metadata. intros Hm Hu Hc Ht.
  set (count := N.of_nat (length keys)) in *. set (total := sum_N _ keys) in *.
  destruct (usize_max <? total) eqn:E; [done|]. clear E.
  destruct (metadata_offset_size_spec (N.max total count) ltac:(lia)) as (Hlt & Hv & Hs).
  set (size := metadata_offset_size (N.max total count)) in *.
  set (header := N.lor (N.lor 1 (N.shiftl 1 4)) (N.shiftl (size - 1) 6)) in *.
  set (k := N.to_nat size) in *. assert (Ek : N.of_nat k = size) by apply N2Nat.id.
  set (run := concat (map (le_bytes k) (offsets_from 0 keys))) in *.
  assert (Emd : md = header :: le_bytes k count ++ run ++ concat keys) by congruence. rewrite Emd. clear Hm Emd.
  cbn [parse_dictionary_keys]. rewrite Hv. cbn [N.eqb negb]. rewrite Pos.eqb_refl. cbn [negb]. rewrite Hs. fold k.
  pose proof (read_le_run [header] [count] (run ++ concat keys) k 0 count eq_refl ltac:(rewrite Ek; lia)) as R.
  cbn [map concat app length] in R. rewrite app_nil_r, Nat.mul_0_l, Nat.add_0_r in R.
  apply read_le_int in R as [R Hlen]. rewrite R. cbn [app] in Hlen.
  destruct (Nat.ltb_spec (length (header :: le_bytes k count ++ run ++ concat keys)) (1 + k)); [lia|].
  assert (Hcn : N.to_nat count = length keys) by apply Nat2N.id. rewrite Hcn.
  destruct (Nat.eqb_spec (length keys) 0) as [E0|_].
  { apply nil_length_inv in E0. by rewrite E0. }
  set (pre := header :: le_bytes k count).
  assert (Hpre : length pre = (1 + k)%nat) by (unfold pre; cbn; by rewrite length_le_bytes).
  change (header :: le_bytes k count ++ run ++ concat keys) with (pre ++ run ++ concat keys).
  assert (Hro : read_offsets (S (length keys)) (pre ++ run ++ concat keys) (1 + k) k = Some (offsets_from 0 keys)).
  { rewrite <- Hpre, <- (offsets_from_length 0 keys). apply read_offsets_run, offsets_from_bound. rewrite Ek. fold total. lia. }
  rewrite Hro.
  pose proof (read_keys_run (pre ++ run) [] keys [] Hu) as K. cbn [concat app length] in K. rewrite <- app_assoc in K.
  rewrite length_app, Hpre in K. unfold run in K at 2. rewrite length_concat_bytes, offsets_from_length in K. exact K.
Qed.

(** ** Size and totality

    [doc_size] bounds the encoded value and, with the key lengths, the
    dictionary. *)

Fixpoint doc_size (v : Json) : N :=
  match v with
  | JNumber _ => 9
  | JString s => 5 + N.of_nat (length s)
  | JArray l => 9 + foldr (fun v n => 4 + doc_size v + n) 0 l
  | JObject m => 9 + foldr (fun e n => 8 + N.of_nat (length e.1) + doc_size e.2 + n) 0 m
  | _ => 1
  end.

Definition entry_size (e : bytes * Json) : N := 8 + N.of_nat (length e.1) + doc_size e.2.

Lemma doc_size_array l : doc_size (JArray l) = 9 + sum_N (fun v => 4 + doc_size v) l.
Proof. done. Qed.

Lemma doc_size_object m : doc_size (JObject m) = 9 + sum_N entry_size m.
Proof. done. Qed.

Lemma sum_N_elem {A} (f : A -> N) l x : x ∈ l -> f x <= sum_N f l.
Proof. induction 1; rewrite sum_N_cons; lia. Qed.

Lemma sum_N_dedup {V} (f : bytes * V -> N) l : sum_N f (dedup_entries l) <= sum_N f l.
Proof.
  induction l as [|e l IH]; [done|]. cbn [dedup_entries]. rewrite sum_N_cons.
  destruct (dedup_entries l) as [|x k]; [rewrite sum_N_cons; cbn in *; lia|]. rewrite sum_N_cons in IH.
  case_bool_decide; rewrite !sum_N_cons; lia.
Qed.

Lemma sum_N_entries {V} (f : bytes * V -> N) l : sum_N f (dedup_entries (sort_entries l)) <= sum_N f l.
Proof. rewrite <- (sum_N_perm f _ _ (sort_entries_perm l)). apply sum_N_dedup. Qed.

Lemma write_int_fits val size : is_size size -> val < 256 ^ size -> exists b, write_int_to_buf val size = Ok b /\ N.of_nat (length b) <= 4.
Proof.
  intros [-> | [-> | ->]] Hv; unfold write_int_to_buf; cbn [N.eqb Pos.eqb].
  - change (256 ^ 1) with 256 in Hv. destruct (N.leb_spec val u8_max); [|unfold u8_max in *; lia]. eexists. split; [done|]. cbn. lia.
  - change (256 ^ 2) with 65536 in Hv. destruct (N.leb_spec val u16_max); [|unfold u16_max in *; lia]. eexists. split; [done|]. rewrite length_le_bytes. lia.
  - change (256 ^ 4) with 4294967296 in Hv. destruct (N.leb_spec val u32_max); [|unfold u32_max in *; lia]. eexists. split; [done|]. rewrite length_le_bytes. lia.
Qed.

(** Running a list of writers that all succeed. *)
Lemma collect_total {A} (f : A -> result bytes ParquetSinkError) (w : A -> N) l :
  (forall x, x ∈ l -> exists b, f x = Ok b /\ N.of_nat (length b) <= w x) ->
  exists bs, collect (map f l) = Ok bs /\ N.of_nat (length (concat bs)) <= sum_N w l /\ length bs = length l.
Proof.
  induction l as [|x l IH]; intros Hf; [exists []; done|].
  destruct (Hf x ltac:(by left)) as (b & Hb & Hl). destruct IH as (bs & Hbs & Hls & Hn); [intros y Hy; apply Hf; by right|].
  exists (b :: bs). cbn [map collect concat length]. rewrite Hb, Hbs, sum_N_cons, length_app. split_and!; [done | lia | by rewrite Hn].
Qed.

Lemma sum_N_const {A} (c : N) (l : list A) : sum_N (fun _ => c) l = c * N.of_nat (length l).
Proof. induction l as [|x l IH]; [by rewrite N.mul_0_r|]. rewrite sum_N_cons, IH. cbn [length]. lia. Qed.

Lemma field_offset_fits total x : total <= u32_max -> x <= total -> x < 256 ^ field_offset_size total.
Proof.
  intros Ht Hx. unfold field_offset_size, u32_max in *. destruct (N.leb_spec total 255); [|destruct (N.leb_spec total 65535)].
  - change (256 ^ 1) with 256. lia.
  - change (256 ^ 2) with 65536. lia.
  - change (256 ^ 4) with 4294967296. lia.
Qed.

Lemma field_id_fits n x : n <= u32_max -> x < n -> x < 256 ^ field_id_size n.
Proof.
  intros Ht Hx. unfold field_id_size, u32_max in *. destruct (N.leb_spec n 256); [|destruct (N.leb_spec n 65536)].
  - change (256 ^ 1) with 256. lia.
  - change (256 ^ 2) with 65536. lia.
  - change (256 ^ 4) with 4294967296. lia.
Qed.

Lemma count_bytes_total n large : n <= u32_max -> exists b, count_bytes n large = Ok b /\ N.of_nat (length b) <= 4.
Proof.
  intros Hn. unfold count_bytes. destruct large; [|eexists; split; [done|cbn; lia]].
  destruct (N.leb_spec n u32_max); [|lia]. eexists. split; [done|]. rewrite length_le_bytes. lia.
Qed.

Lemma length_concat_values (values : list bytes) acc x :
  x ∈ offsets_from acc values -> x <= acc + N.of_nat (length (concat values)).
Proof.
  revert acc. induction values as [|v values IH]; intros acc; cbn [offsets_from concat].
  - intros ->%list_elem_of_singleton. cbn. lia.
  - intros [->|Hx]%elem_of_cons; [lia|]. apply IH in Hx. rewrite length_app. lia.
Qed.

Lemma offsets_total values :
  N.of_nat (length (concat values)) <= u32_max ->
  exists offs, collect (map (fun o => write_int_to_buf o (field_offset_size (N.of_nat (length (concat values))))) (offsets_from 0 values)) = Ok offs /\
    N.of_nat (length (concat offs)) <= 4 * N.of_nat (S (length values)).
Proof.
  intros Ht. destruct (collect_total (fun o => write_int_to_buf o (field_offset_size (N.of_nat (length (concat values)))))
    (fun _ => 4) (offsets_from 0 values)) as (offs & Ho & Hl & _).
  { intros x Hx. apply write_int_fits; [apply field_offset_size_ok|]. apply field_offset_fits; [done|].
    apply length_concat_values in Hx. lia. }
  exists offs. split; [exact Ho|]. by rewrite sum_N_const, offsets_from_length in Hl.
Qed.

Lemma dictionary_index_total dict k :
  k ∈ dict -> exists id, dictionary_index dict k = Some id /\ id < N.of_nat (length dict).
Proof.
  unfold dictionary_index. induction dict as [|e dict IH]; intros Hin; [by apply not_elem_of_nil in Hin|].
  cbn [position]. case_bool_decide as He; [exists 0; split; [done|cbn; lia]|].
  apply elem_of_cons in Hin as [->|Hin]; [done|]. destruct (IH Hin) as (id & Hid & Hlt).
  destruct (position _ dict) as [j|]; [|done]. injection Hid as <-. cbn [option_map]. eexists. split; [done|]. cbn [length]. lia.
Qed.

Lemma encode_array_total {A} (f : A -> result bytes ParquetSinkError) (w : A -> N) l :
  (forall x, x ∈ l -> exists b, f x = Ok b /\ N.of_nat (length b) <= w x) ->
  9 + sum_N (fun x => 4 + w x) l <= u32_max ->
  exists out, encode_array (map f l) = Ok out /\ N.of_nat (length out) <= 9 + sum_N (fun x => 4 + w x) l.
Proof.
  intros Hf Hw. destruct (collect_total f w l Hf) as (values & Hv & Hl & Hn).
  assert (Hs : sum_N (fun x => 4 + w x) l = 4 * N.of_nat (length l) + sum_N w l).
  { clear. induction l as [|x l IH]; [done|]. rewrite !sum_N_cons, IH. cbn [length]. lia. }
  rewrite Hs in *. unfold encode_array. rewrite Hv, length_map.
  destruct (count_bytes_total (N.of_nat (length l)) (255 <? N.of_nat (length l))) as (cb & Hcb & Hc); [lia|].
  destruct (offsets_total values) as (offs & Ho & Hol); [lia|]. rewrite Hcb, Ho. eexists. split; [done|].
  cbn [length]. rewrite !length_app, Nat2N.inj_succ, !Nat2N.inj_add. lia.
Qed.

Lemma encode_object_total (dict : list bytes) (f : Json -> result bytes ParquetSinkError) (w : Json -> N) m :
  (forall e, e ∈ m -> e.1 ∈ dict /\ exists b, f e.2 = Ok b /\ N.of_nat (length b) <= w e.2) ->
  N.of_nat (length dict) <= u32_max ->
  9 + sum_N (fun e => 8 + w e.2) m <= u32_max ->
  exists out, encode_object dict (map (map_values f) m) = Ok out /\
    N.of_nat (length out) <= 9 + sum_N (fun e => 8 + w e.2) m.
Proof.
  intros Hf Hd Hw. unfold encode_object. rewrite sort_entries_map, dedup_entries_map.
  pose proof (sum_N_entries (fun e => 8 + w e.2) m) as Hsum. set (es := dedup_entries (sort_entries m)) in *.
  assert (Hes : forall e, e ∈ es -> e.1 ∈ dict /\ exists b, f e.2 = Ok b /\ N.of_nat (length b) <= w e.2).
  { intros e He. apply Hf. by apply sorted_entries_sub in He. }
  clearbody es. assert (Hs : sum_N (fun e => 8 + w e.2) es = 8 * N.of_nat (length es) + sum_N (fun e => w e.2) es).
  { clear. induction es as [|x l IH]; [done|]. rewrite !sum_N_cons, IH. cbn [length]. lia. }
  assert (Em : map snd (map (map_values f) es) = map (fun e => f e.2) es) by by rewrite map_map.
  destruct (collect_total (fun e => f e.2) (fun e => w e.2) es) as (values & Hv & Hl & Hn).
  { intros e He. by apply Hes. }
  rewrite Em, Hv, length_map.
  destruct (count_bytes_total (N.of_nat (length es)) (255 <? N.of_nat (length es))) as (cb & Hcb & Hc); [lia|].
  rewrite Hcb. set (idw := fun e : bytes * result bytes ParquetSinkError => match dictionary_index dict e.1 with _ => _ end).
  destruct (collect_total idw (fun _ => 4) (map (map_values f) es)) as (ids & Hi & Hil & _).
  { intros e He. apply list_elem_of_fmap in He as (e' & -> & He'). destruct (Hes e' He') as [Hk _].
    destruct (dictionary_index_total dict e'.1 Hk) as (id & Hid & Hlt). unfold idw. cbn [map_values fst]. rewrite Hid.
    apply write_int_fits; [apply field_id_size_ok | by apply field_id_fits]. }
  rewrite Hi. destruct (offsets_total values) as (offs & Ho & Hol); [lia|]. rewrite Ho. eexists. split; [done|].
  rewrite sum_N_const, length_map in Hil. cbn [length]. rewrite !length_app, Nat2N.inj_succ, !Nat2N.inj_add. lia.
Qed.

Lemma length_encode_number n : N.of_nat (length (encode_number n)) <= 9.
Proof.
  assert (Hi : forall z, N.of_nat (length (encode_i64 z)) <= 9).
  { intros z. unfold encode_i64, signed_bytes. split_ifs; cbn [length]; rewrite length_le_bytes; lia. }
  destruct n as [u|z|b]; cbn [encode_number]; [|apply Hi|cbn [length]; rewrite length_le_bytes; lia].
  destruct (_ <=? _); [apply Hi | cbn [length]; rewrite length_le_bytes; lia].
Qed.

Lemma encode_string_total s :
  5 + N.of_nat (length s) <= u32_max -> exists b, encode_string s = Ok b /\ N.of_nat (length b) <= 5 + N.of_nat (length s).
Proof.
  intros Hs. unfold encode_string. destruct (_ <? 64); [eexists; split; [done | cbn [length]; lia]|].
  destruct (N.leb_spec (N.of_nat (length s)) u32_max); [|lia]. eexists. split; [done|].
  cbn [length]. rewrite length_app, length_le_bytes. lia.
Qed.

Lemma encode_value_total dict v :
  N.of_nat (length dict) <= u32_max -> doc_size v <= u32_max -> (forall k, k ∈ collect_all_keys v -> k ∈ dict) ->
  exists out, encode_json_value dict v = Ok out /\ N.of_nat (length out) <= doc_size v.
Proof.
  intros Hd. induction v as [| b | n | s | l IH | m IH] using Json_nested_ind; intros Hs Hk; cbn [encode_json_value].
  - eexists. split; [done|]. cbn. lia.
  - destruct b; (eexists; split; [done|]; cbn; lia).
  - eexists. split; [done|]. apply length_encode_number.
  - by apply encode_string_total.
  - rewrite doc_size_array in *. apply encode_array_total; [|done]. intros v Hv. rewrite Forall_forall in IH.
    apply IH; [done | |].
    + pose proof (sum_N_elem (fun v => 4 + doc_size v) l v Hv) as Hse. cbv beta in Hse. lia.
    + intros k Hin. apply Hk. cbn [collect_all_keys]. apply list_elem_of_concat. exists (collect_all_keys v).
      split; [done | by apply list_elem_of_fmap_2].
  - rewrite doc_size_object in *.
    assert (Hw : sum_N (fun e => 8 + doc_size e.2) m <= sum_N entry_size m).
    { clear. induction m as [|e m IH]; [done|]. rewrite !sum_N_cons. unfold entry_size at 1. lia. }
    destruct (encode_object_total dict (encode_json_value dict) doc_size m) as (out & Ho & Hl); [|done|lia|].
    + intros e He. rewrite Forall_forall in IH.
      assert (Hsub : forall k, k ∈ e.1 :: collect_all_keys e.2 -> k ∈ dict).
      { intros k Hin. apply Hk. cbn [collect_all_keys]. apply list_elem_of_concat. eexists. split; [exact Hin|].
        by apply (list_elem_of_fmap_2 (fun e => e.1 :: collect_all_keys e.2)). }
      split; [apply Hsub; by left|]. apply IH; [done | | intros k Hin; apply Hsub; by right].
      pose proof (sum_N_elem entry_size m e He) as Hse. unfold entry_size in Hse at 1. lia.
    + exists out. split; [exact Ho | lia].
Qed.

(** ** The dictionary of a document *)

Lemma dedup_entries_keys {V} (l : list (bytes * V)) k : k ∈ map fst l -> k ∈ map fst (dedup_entries l).
Proof.
  induction l as [|e l IH]; [done|]. cbn [map dedup_entries]. intros [->|Hin]%elem_of_cons.
  - destruct (dedup_entries l) as [|x k']; [by left|]. case_bool_decide; by left.
  - specialize (IH Hin). destruct (dedup_entries l) as [|x k']; [by apply not_elem_of_nil in IH|].
    case_bool_decide as Hx; cbn [map] in *; [|by right]. rewrite Hx in IH. done.
Qed.

Lemma dictionary_of_elem keys k : k ∈ dictionary_of keys <-> k ∈ keys.
Proof.
  unfold dictionary_of. set (es := map (fun k => (k, tt)) keys).
  assert (Hkeys : map fst es = keys) by (unfold es; rewrite map_map; apply map_id). split; intros Hk.
  - apply list_elem_of_fmap in Hk as (e & -> & He). apply sorted_entries_sub in He. rewrite <- Hkeys. by apply list_elem_of_fmap_2.
  - apply dedup_entries_keys. assert (Hp : map fst (sort_entries es) ≡ₚ map fst es) by (apply fmap_Permutation, sort_entries_perm).
    rewrite Hp, Hkeys. done.
Qed.

Lemma dictionary_of_sum f keys : sum_N f (dictionary_of keys) <= sum_N f keys.
Proof.
  unfold dictionary_of. rewrite sum_N_map. etrans; [apply sum_N_entries|]. by rewrite sum_N_map.
Qed.

Lemma sum_N_concat {A} (f : A -> N) ls : sum_N f (concat ls) = sum_N (sum_N f) ls.
Proof. induction ls as [|l ls IH]; [done|]. cbn [concat]. by rewrite sum_N_app, IH, sum_N_cons. Qed.

Lemma sum_N_le {A} (f g : A -> N) l : (forall x, x ∈ l -> f x <= g x) -> sum_N f l <= sum_N g l.
Proof.
  induction l as [|x l IH]; intros Hl; [done|]. rewrite !sum_N_cons.
  pose proof (Hl x ltac:(by left)). specialize (IH (fun y Hy => Hl y ltac:(by right))). lia.
Qed.

(** The keys of a document, with one byte each for their count. *)
Lemma doc_size_keys v : sum_N (fun k => 1 + N.of_nat (length k)) (collect_all_keys v) <= doc_size v.
Proof.
  induction v as [| b | n | s | l IH | m IH] using Json_nested_ind; cbn [collect_all_keys]; try (cbn; lia).
  - rewrite doc_size_array, sum_N_concat, sum_N_map. rewrite Forall_forall in IH. etrans; [|apply N.le_add_l].
    apply sum_N_le. intros v Hv. specialize (IH v Hv). lia.
  - rewrite doc_size_object, sum_N_concat, sum_N_map. rewrite Forall_forall in IH. etrans; [|apply N.le_add_l].
    apply sum_N_le. intros e He. specialize (IH e He). rewrite sum_N_cons. unfold entry_size. lia.
Qed.

Lemma dictionary_fits v :
  doc_size v <= u32_max -> let d := dictionary_of (collect_all_keys v) in
  N.of_nat (length d) <= u32_max /\ sum_N (fun k => N.of_nat (length k)) d <= u32_max.
Proof.
  intros Hs d. pose proof (dictionary_of_sum (fun k => 1 + N.of_nat (length k)) (collect_all_keys v)) as H1. fold d in H1.
  pose proof (doc_size_keys v) as H2.
  assert (E : sum_N (fun k => 1 + N.of_nat (length k)) d = N.of_nat (length d) + sum_N (fun k => N.of_nat (length k)) d).
  { clear. induction d as [|k d IH]; [done|]. rewrite !sum_N_cons, IH. cbn [length]. lia. }
  lia.
Qed.

(** ** Documents *)

(** What the parser guarantees: strings are UTF-8, numbers fit their Rust types,
    and the two characters of an empty object parse to it. *)
Class SerdeLaws `{Serde} := {
  from_str_ok : forall s v, from_str s = Some v ->
    json_ok v /\ Forall (fun k => utf8_valid k = true) (collect_all_keys v);
  from_str_empty : from_str empty_object_text = Some (JObject []);
}.

Section Documents.
Context `{SerdeLaws}.

(** The document a text stands for: plain text is a string. *)
Definition document (text : bytes) : Json :=
  match from_str (trim text) with Some v => v | None => JString (trim text) end.

(** The encoder against the format's reader. *)
Definition encodes (v : Json) (encoded : bytes * bytes) : Prop :=
  exists keys, parse_dictionary_keys encoded.1 = Some keys /\
    decode_variant (depth v) keys encoded.2 = Some (variant_of v).

Lemma encode_value_encodes v value :
  encode_json_value [] v = Ok value -> json_ok v -> encodes v (STATIC_EMPTY_METADATA, value).
Proof.
  intros He Hok. exists []. split; [by vm_compute|]. cbn [snd]. rewrite <- (app_nil_r value).
  by apply encode_value_read.
Qed.

Lemma encode_container_encodes v :
  json_ok v -> Forall (fun k => utf8_valid k = true) (collect_all_keys v) -> doc_size v <= u32_max ->
  exists metadata value,
    encode_dictionary_metadata (dictionary_of (collect_all_keys v)) = Ok metadata /\
    encode_json_value (dictionary_of (collect_all_keys v)) v = Ok value /\ encodes v (metadata, value).
Proof.
  intros Hok Hu Hs. destruct (dictionary_fits v Hs) as [Hc Ht]. set (d := dictionary_of (collect_all_keys v)) in *.
  destruct (encode_value_total d v Hc Hs) as (value & Hv & _); [intros k Hk; by apply dictionary_of_elem|].
  assert (Hm : exists metadata, encode_dictionary_metadata d = Ok metadata).
  { unfold encode_dictionary_metadata. destruct (N.ltb_spec usize_max (sum_N (fun k => N.of_nat (length k)) d)) as [Hl|Hl]; [|by eexists].
    unfold usize_max, u64_max, u32_max in *. lia. }
  destruct Hm as [metadata Hm]. exists metadata, value. split_and!; [done..|]. exists d. cbn [fst snd]. split.
  - apply dictionary_round_trip_gen; try done. rewrite Forall_forall in Hu. apply Forall_forall.
    intros k Hk. apply Hu. exact (proj1 (dictionary_of_elem _ _) Hk).
  - rewrite <- (app_nil_r value). by apply encode_value_read.
Qed.

Lemma encode_internal_encodes t :
  doc_size (match from_str t with Some v => v | None => JString t end) <= u32_max ->
  ~ (from_str t = None /\ (head t = Some 123 \/ head t = Some 91)) ->
  exists encoded, encode_json_internal t = Ok encoded /\
    encodes (match from_str t with Some v => v | None => JString t end) encoded.
Proof.
  unfold encode_json_internal. intros Hs Hn. destruct (from_str t) as [v|] eqn:Ef; cycle 1.
  { rewrite bool_decide_eq_false_2 by (intros Hh; by apply Hn).
    destruct (encode_string_total t Hs) as (value & Hv & _). rewrite Hv. eexists. split; [done|].
    by apply encode_value_encodes. }
  destruct (from_str_ok _ _ Ef) as [Hok Hu].
  assert (Hprim : collect_all_keys v = [] ->
    exists encoded, (let? value := encode_json_value [] v in Ok (STATIC_EMPTY_METADATA, value)) = Ok encoded /\ encodes v encoded).
  { intros Hk. destruct (encode_value_total [] v) as (value & Hv & _); [done | done | by rewrite Hk|].
    rewrite Hv. eexists. split; [done|]. by apply encode_value_encodes. }
  assert (Hcont : exists encoded, (let? metadata := encode_dictionary_metadata (dictionary_of (collect_all_keys v)) in
    let? value := encode_json_value (dictionary_of (collect_all_keys v)) v in Ok (metadata, value)) = Ok encoded /\ encodes v encoded).
  { destruct (encode_container_encodes v Hok Hu Hs) as (metadata & value & Hm & Hv & He). rewrite Hm, Hv. by eexists. }
  destruct v as [| b | n | s | l | [|e m]]; [by apply Hprim..| exact Hcont | | exact Hcont].
  exists (STATIC_EMPTY_METADATA, STATIC_EMPTY_VALUE). split; [done|]. exists []. split; by vm_compute.
Qed.

(** Encoding a text either leaves a null (empty text or
    [null]), or rejects it, exactly when it opens like an object or array and is
    not JSON, or yields metadata and a value that read back, by the dictionary
    parser and the format's reader, as the document the text stands for: every
    string and number with its stored type, every array in order, every object
    with its fields in key order.  Below 4 GiB nothing else can fail. *)
Theorem variant_encoding (text : bytes) :
  doc_size (document text) <= u32_max ->
  match encode_json_str text with
  | Ok None => trim text = [] \/ trim text = null_text
  | Err e => e = PVariantEncoding "invalid JSON payload" /\ from_str (trim text) = None /\
      (head (trim text) = Some 123 \/ head (trim text) = Some 91)
  | Ok (Some encoded) => trim text <> [] /\ trim text <> null_text /\ encodes (document text) encoded
  end.
Proof.
  intros Hs. unfold encode_json_str. cbv zeta. case_bool_decide as Hn; [done|].
  assert (Hne : trim text <> [] /\ trim text <> null_text) by tauto.
  case_bool_decide as He.
  { destruct Hne. split_and!; try done. unfold document. rewrite He, from_str_empty. exists []. split; by vm_compute. }
  destruct (decide (from_str (trim text) = None /\ (head (trim text) = Some 123 \/ head (trim text) = Some 91))) as [[Hf Hh]|Hok].
  - unfold encode_json_internal. rewrite Hf, bool_decide_eq_true_2 by done. done.
  - destruct (encode_internal_encodes (trim text) Hs Hok) as (encoded & -> & Henc). tauto.
Qed.

End Documents.

(** Decreasing offsets make the dictionary parser take a slice that starts past
    its end, which panics; every other malformed metadata gives no keys. *)
Example decreasing_offsets_panic : parse_dictionary_keys [17; 1; 5; 0] = None.
Proof. reflexivity. Qed.

Module Demo.
(** The text [{"k":{"b":-5,"a":[300]}}] and its value. *)
Definition text : bytes :=
  [123; 34; 107; 34; 58; 123; 34; 98; 34; 58; 45; 53; 44; 34; 97; 34; 58; 91; 51; 48; 48; 93; 125; 125].

Definition value : Json :=
  JObject [([107], JObject [([98], JNumber (NegInt (-5))); ([97], JArray [JNumber (PosInt 300)])])].

#[local] Instance serde : Serde := {|
  from_str s :=
    if bool_decide (s = text) then Some value
    else if bool_decide (s = empty_object_text) then Some (JObject [])
    else None
|}.

#[local] Instance serde_laws : SerdeLaws.
Proof.
  split; [|by vm_compute]. intros s v. cbn [from_str serde].
  case_bool_decide as E1; [|case_bool_decide as E2]; [intros [= <-].. | done]; split; cbn; repeat constructor; try lia; done.
Qed.

Lemma variant_encoding_witness :
  encode_json_str (10 :: text ++ [32]) =
    Ok (Some ([17; 3; 0; 1; 2; 3; 97; 98; 107],
              [2; 1; 2; 0; 16; 2; 2; 0; 1; 0; 7; 9; 3; 1; 0; 3; 16; 44; 1; 12; 251])) /\
  encodes value ([17; 3; 0; 1; 2; 3; 97; 98; 107],
              [2; 1; 2; 0; 16; 2; 2; 0; 1; 0; 7; 9; 3; 1; 0; 3; 16; 44; 1; 12; 251]).
Proof.
  assert (E : encode_json_str (10 :: text ++ [32]) =
    Ok (Some ([17; 3; 0; 1; 2; 3; 97; 98; 107],
              [2; 1; 2; 0; 16; 2; 2; 0; 1; 0; 7; 9; 3; 1; 0; 3; 16; 44; 1; 12; 251]))) by (vm_compute; reflexivity).
  split; [exact E|].
  assert (D : document (10 :: text ++ [32]) = value) by (vm_compute; reflexivity).
  assert (S : doc_size (document (10 :: text ++ [32])) <= u32_max) by (rewrite D; vm_compute; discriminate).
  pose proof (variant_encoding (10 :: text ++ [32]) S) as T.
  rewrite E, D in T. exact (proj2 (proj2 T)).
Defined.

End Demo.
