(* ===== verification/Guard.v ===== *)
(** The schema guard: crates/wasm-transformer/src/guard.rs.

    Arrow's schemas are data the guard inspects and builds; arrays and record
    batches are Arrow's, parameters of the model ([Tables]) with the documented
    invariant of a record batch ([TablesLaws]). *)

From S2P Require Import Prelude Arrow.
Local Open Scope N_scope.

(** [WasmTransformError]; the texts of third-party errors are dropped. *)
Inductive WasmTransformError : Type :=
| WWasmtime
| Oom (module_path : bytes) (inst : N)
| AbiVersionMismatch (version : N)
| MissingExport (name : string)
| Sha256Mismatch (expected actual : string)
| InitFailed (msg : string)
| ExecutionTimeout (ms : N)
| WIo
| Pipeline (msg : string)
| ArrowIpc
| InvalidMemoryBounds (ptr len mem_size : N)
| Unrecoverable (msg : string).

(** ** Schemas *)

(** The data types the guard looks into; every other one is a [Scalar]. *)
Inductive DataType : Type :=
| Scalar (tag : N)
| Struct (fields : list Field)
| ListOf (child : Field)
| LargeList (child : Field)
| FixedSizeList (child : Field) (size : Z)
| ListView (child : Field)
| LargeListView (child : Field)
| MapOf (child : Field) (keys_sorted : bool)
with Field : Type :=
| mkField (name : string) (data_type : DataType) (nullable : bool) (metadata : gmap string string).

Definition f_name (f : Field) : string := match f with mkField n _ _ _ => n end.
Definition f_type (f : Field) : DataType := match f with mkField _ t _ _ => t end.
Definition f_nullable (f : Field) : bool := match f with mkField _ _ b _ => b end.
Definition f_metadata (f : Field) : gmap string string := match f with mkField _ _ _ m => m end.

Fixpoint DataType_dec (a b : DataType) {struct a} : {a = b} + {a <> b}
with Field_dec (a b : Field) {struct a} : {a = b} + {a <> b}.
Proof.
  - destruct a as [t|fs|c|c|c n|c|c|c k], b as [t'|fs'|c'|c'|c' n'|c'|c'|c' k']; try (right; discriminate).
    + destruct (decide (t = t')) as [->|Hn]; [by left | right; congruence].
    + destruct (List.list_eq_dec Field_dec fs fs') as [->|Hn]; [by left | right; congruence].
    + destruct (Field_dec c c') as [->|Hn]; [by left | right; congruence].
    + destruct (Field_dec c c') as [->|Hn]; [by left | right; congruence].
    + destruct (decide (n = n')) as [->|Hn]; [|right; congruence].
      destruct (Field_dec c c') as [->|Hn]; [by left | right; congruence].
    + destruct (Field_dec c c') as [->|Hn]; [by left | right; congruence].
    + destruct (Field_dec c c') as [->|Hn]; [by left | right; congruence].
    + destruct (decide (k = k')) as [->|Hn]; [|right; congruence].
      destruct (Field_dec c c') as [->|Hn]; [by left | right; congruence].
  - destruct a as [n t b0 m], b as [n' t' b' m'].
    destruct (decide (n = n')) as [->|Hn]; [|right; congruence].
    destruct (decide (b0 = b')) as [->|Hn]; [|right; congruence].
    destruct (decide (m = m')) as [->|Hn]; [|right; congruence].
    destruct (DataType_dec t t') as [->|Hn]; [by left | right; congruence].
Defined.

Global Instance DataType_eq_dec : EqDecision DataType := DataType_dec.
Global Instance Field_eq_dec : EqDecision Field := Field_dec.

Record Schema := mkSchema { s_fields : list Field; s_metadata : gmap string string }.

Global Instance Schema_eq_dec : EqDecision Schema.
Proof. solve_decision. Defined.

Fixpoint make_field_recursively_nullable (f : Field) : Field :=
  match f with mkField n t _ m => mkField n (nullable_type t) true m end
with nullable_type (t : DataType) : DataType :=
  match t with
  | Scalar tag => Scalar tag
  | Struct fs => Struct (map make_field_recursively_nullable fs)
  | ListOf c => ListOf (make_field_recursively_nullable c)
  | LargeList c => LargeList (make_field_recursively_nullable c)
  | FixedSizeList c n => FixedSizeList (make_field_recursively_nullable c) n
  | ListView c => ListView (make_field_recursively_nullable c)
  | LargeListView c => LargeListView (make_field_recursively_nullable c)
  | MapOf c k => MapOf (make_field_recursively_nullable c) k
  end.

(** ** Arrays and batches *)

Class Tables (RB Arr : Type) := {
  arr_type : Arr -> DataType;
  arr_len : Arr -> N;
  arr_null_count : Arr -> N;
  new_null_array : DataType -> N -> Arr;
  t_schema : RB -> Schema;
  t_columns : RB -> list Arr;
  t_rows : RB -> N;
  t_try_new : Schema -> list Arr -> option RB;
}.

(** A column fits a field of a batch with [rows] rows. *)
Definition fits {RB Arr} `{Tables RB Arr} (rows : N) (f : Field) (c : Arr) : Prop :=
  arr_type c = f_type f /\ arr_len c = rows /\ (f_nullable f = false -> arr_null_count c = 0).

Class TablesLaws (RB Arr : Type) `{Tables RB Arr} := {
  table_fits : forall b, Forall2 (fits (t_rows b)) (s_fields (t_schema b)) (t_columns b);
  null_array_type : forall t n, arr_type (new_null_array t n) = t;
  null_array_len : forall t n, arr_len (new_null_array t n) = n;
  try_new_ok : forall s cs b, t_try_new s cs = Some b ->
    t_schema b = s /\ t_columns b = cs /\ forall c, c ∈ cs -> t_rows b = arr_len c;
  try_new_total : forall s cs rows, cs <> [] -> Forall2 (fits rows) (s_fields s) cs -> is_Some (t_try_new s cs);
}.

Section Guard.
Context {RB Arr : Type} `{Tables RB Arr}.

(** [Schema::index_of]: the first field of that name. *)
Definition index_of (s : Schema) (name : string) : option nat :=
  position (fun f => bool_decide (f_name f = name)) (s_fields s).

Definition IMMUTABLE_COLUMNS : list string :=
  ["trace_id"; "span_id"; "timestamp"; "observed_timestamp"; "name"; "type"]%string.

Definition all_null (c : Arr) : bool := arr_null_count c =? arr_len c.

(** One turn of the loop over the immutable columns. *)
Definition check_column (input output : RB) (col_name : string) : result unit WasmTransformError :=
  let? input_info :=
    match index_of (t_schema input) col_name with
    | Some idx =>
        match t_columns input !! idx with
        | Some c => Ok (Some (arr_type c, all_null c))
        | None => Err (Pipeline "Column index out of bounds in input")
        end
    | None => Ok None
    end in
  let input_was_null := match input_info with Some (_, was_null) => was_null | None => true end in
  match index_of (t_schema output) col_name with
  | Some idx =>
      match t_columns output !! idx with
      | None => Err (Pipeline "Column index out of bounds in output")
      | Some c =>
          if match input_info with Some (t, _) => negb (bool_decide (arr_type c = t)) | None => false end
          then Err (Pipeline "Immutability violation: data type mutated")
          else if all_null c && negb (arr_len c =? 0) && negb input_was_null
          then Err (Pipeline "Immutability violation: entirely null in output")
          else Ok tt
      end
  | None =>
      if negb input_was_null && (0 <? t_rows output)
      then Err (Pipeline "Immutability violation: dropped by guest")
      else Ok tt
  end.

Fixpoint check_columns (input output : RB) (cols : list string) : result unit WasmTransformError :=
  match cols with
  | [] => Ok tt
  | c :: cols => let? _ := check_column input output c in check_columns input output cols
  end.

Definition verify_structural_immutability (input output : RB) : result unit WasmTransformError :=
  check_columns input output IMMUTABLE_COLUMNS.

Definition verify_strict_schema_equality (input output : RB) : result unit WasmTransformError :=
  if negb (bool_decide (t_schema input = t_schema output))
  then Err (Pipeline "Strict schema guard violation")
  else Ok tt.

(** ** Backfilling *)

(** The [HashMap] from names to indices: a later field of the same name wins. *)
Fixpoint last_index (fs : list Field) (i : nat) (name : string) : option nat :=
  match fs with
  | [] => None
  | f :: fs =>
      match last_index fs (S i) name with
      | Some j => Some j
      | None => if bool_decide (f_name f = name) then Some i else None
      end
  end.

Definition backfill_field (output : RB) (f : Field) : result (Field * Arr) WasmTransformError :=
  match last_index (s_fields (t_schema output)) 0 (f_name f) with
  | Some idx =>
      match s_fields (t_schema output) !! idx with
      | None => Err (Pipeline "Field index out of bounds in output schema")
      | Some out_field =>
          if negb (bool_decide (f_type out_field = f_type f))
          then Err (Pipeline "Defensive schema guard violation: data type mutated")
          else if negb (bool_decide (f_nullable f = f_nullable out_field))
          then Err (Pipeline "Defensive schema guard violation: nullability mutated")
          else
            match t_columns output !! idx with
            | None => Err (Pipeline "Column index out of bounds in output")
            | Some c => Ok (out_field, c)
            end
      end
  | None =>
      let backfilled := make_field_recursively_nullable f in
      Ok (backfilled, new_null_array (f_type backfilled) (t_rows output))
  end.

Fixpoint backfill_fields (output : RB) (fs : list Field) : result (list (Field * Arr)) WasmTransformError :=
  match fs with
  | [] => Ok []
  | f :: fs =>
      let? p := backfill_field output f in
      let? rest := backfill_fields output fs in
      Ok (p :: rest)
  end.

(** The columns the guest added, with their index. *)
Fixpoint added_fields (input_schema : Schema) (output : RB) (fs : list Field) (idx : nat)
  : result (list (Field * Arr)) WasmTransformError :=
  match fs with
  | [] => Ok []
  | f :: fs =>
      match index_of input_schema (f_name f) with
      | Some _ => added_fields input_schema output fs (S idx)
      | None =>
          if negb (f_nullable f)
          then Err (Pipeline "Defensive schema guard violation: newly added column must be nullable")
          else
            match t_columns output !! idx with
            | None => Err (Pipeline "Column index out of bounds in output")
            | Some c =>
                let? rest := added_fields input_schema output fs (S idx) in Ok ((f, c) :: rest)
            end
      end
  end.

Definition compliance_prefix : string := "otel::compliance::".

Definition is_compliance (k : string) : bool := String.prefix compliance_prefix k.

(** A compliance key of the guest that contradicts the upstream value. *)
Definition compliance_mutated (up out : gmap string string) : Prop :=
  map_Exists (fun k v => is_compliance k = true /\ exists u, up !! k = Some u /\ u <> v) out.

Global Instance compliance_mutated_dec up out : Decision (compliance_mutated up out).
Proof.
  unfold compliance_mutated.
  assert (D : forall k v, Decision (is_compliance k = true /\ exists u, up !! k = Some u /\ u <> v)).
  { intros k v. destruct (decide (is_compliance k = true)) as [Hk|Hk]; [|right; tauto].
    destruct (up !! k) as [u|] eqn:Hu; [|right; naive_solver].
    destruct (decide (u = v)) as [->|Hn]; [right; naive_solver | left; naive_solver]. }
  apply _.
Defined.

Definition merge_metadata (up out : gmap string string) : gmap string string :=
  up ∪ filter (fun p => is_compliance p.1 = false) out.

Definition backfill_missing_columns (input_schema : Schema) (output : RB) : result RB WasmTransformError :=
  let out_schema := t_schema output in
  let? kept := backfill_fields output (s_fields input_schema) in
  let? added := added_fields input_schema output (s_fields out_schema) 0 in
  if bool_decide (compliance_mutated (s_metadata input_schema) (s_metadata out_schema))
  then Err (Pipeline "Defensive schema guard violation: compliance metadata mutated")
  else
    let pairs := kept ++ added in
    let merged := merge_metadata (s_metadata input_schema) (s_metadata out_schema) in
    let missing := existsb (fun f => match last_index (s_fields out_schema) 0 (f_name f) with None => true | Some _ => false end)
                     (s_fields input_schema) in
    if negb missing && bool_decide (s_fields out_schema = map fst pairs) && bool_decide (s_metadata out_schema = merged)
    then Ok output
    else
      match t_try_new (mkSchema (map fst pairs) merged) (map snd pairs) with
      | Some b => Ok b
      | None => Err (Pipeline "record batch reconstruction failed")
      end.


(** ** Lookup by name *)

Context `{!TablesLaws RB Arr}.

Definition column (b : RB) (name : string) : option Arr :=
  match index_of (t_schema b) name with Some idx => t_columns b !! idx | None => None end.

Lemma position_Some {A} (f : A -> bool) l i : position f l = Some i -> exists x, l !! i = Some x /\ f x = true.
Proof.
  revert i. induction l as [|x l IH]; intros i; [done|]. cbn [position]. destruct (f x) eqn:Ex.
  - intros [= <-]. by exists x.
  - destruct (position f l) as [j|]; [|done]. intros Hi. injection Hi as <-. by apply IH.
Qed.

Lemma position_None {A} (f : A -> bool) l : position f l = None -> forall x, x ∈ l -> f x = false.
Proof.
  induction l as [|y l IH]; intros Hp x Hx; [by apply not_elem_of_nil in Hx|]. cbn [position] in Hp.
  destruct (f y) eqn:Ey; [done|]. destruct (position f l); [done|].
  apply elem_of_cons in Hx as [->|Hx]; [done | by apply IH].
Qed.

Lemma index_of_Some s name i : index_of s name = Some i -> exists f, s_fields s !! i = Some f /\ f_name f = name.
Proof. intros Hi. apply position_Some in Hi as (f & Hf & Hn). exists f. split; [done|]. by apply bool_decide_eq_true in Hn. Qed.

Lemma index_of_None s name : index_of s name = None -> forall f, f ∈ s_fields s -> f_name f <> name.
Proof. intros Hi f Hf. pose proof (position_None _ _ Hi f Hf) as Hn. by apply bool_decide_eq_false in Hn. Qed.

Lemma field_column b i f : s_fields (t_schema b) !! i = Some f -> exists c, t_columns b !! i = Some c /\ fits (t_rows b) f c.
Proof. intros Hf. apply (Forall2_lookup_l _ _ _ _ _ (table_fits b) Hf). Qed.

Lemma index_of_column b name i : index_of (t_schema b) name = Some i -> exists c, t_columns b !! i = Some c /\ column b name = Some c.
Proof.
  intros Hi. destruct (index_of_Some _ _ _ Hi) as (f & Hf & _). destruct (field_column _ _ _ Hf) as (c & Hc & _).
  exists c. split; [done|]. unfold column. by rewrite Hi.
Qed.

Lemma column_None b name : index_of (t_schema b) name = None -> column b name = None.
Proof. unfold column. by intros ->. Qed.

(** ** Structural immutability *)

(** A protected column survives: it keeps its type, and it is not wiped or
    dropped unless it carried nothing or no row is left. *)
Definition column_kept (input output : RB) (name : string) : Prop :=
  match column input name with
  | None => True
  | Some i =>
      match column output name with
      | Some o => arr_type o = arr_type i /\ (all_null i = true \/ all_null o = false \/ arr_len o = 0)
      | None => all_null i = true \/ t_rows output = 0
      end
  end.

Lemma check_column_iff input output name : check_column input output name = Ok tt <-> column_kept input output name.
Proof.
  unfold check_column, column_kept.
  destruct (index_of (t_schema input) name) as [i|] eqn:Ei.
  - destruct (index_of_column _ _ _ Ei) as (ci & -> & ->).
    destruct (index_of (t_schema output) name) as [o|] eqn:Eo.
    + destruct (index_of_column _ _ _ Eo) as (co & -> & ->). case_bool_decide as Ht; cbn [negb].
      * destruct (all_null co) eqn:Eco; cbn [andb]; [|naive_solver].
        destruct (N.eqb_spec (arr_len co) 0); cbn [negb andb]; [naive_solver|].
        destruct (all_null ci); cbn [negb]; naive_solver.
      * naive_solver.
    + rewrite (column_None _ _ Eo). destruct (all_null ci); cbn [negb andb]; [naive_solver|].
      destruct (N.ltb_spec 0 (t_rows output)); split; try done; [intros [|]; [done|lia] | intros _; right; lia].
  - rewrite (column_None _ _ Ei). destruct (index_of (t_schema output) name) as [o|] eqn:Eo; [|done].
    destruct (index_of_column _ _ _ Eo) as (co & -> & _). by rewrite andb_false_r.
Qed.

Lemma check_columns_iff input output cols :
  check_columns input output cols = Ok tt <-> Forall (column_kept input output) cols.
Proof.
  induction cols as [|c cols IH]; cbn [check_columns]; [by split|]. rewrite Forall_cons, <- IH, <- check_column_iff.
  destruct (check_column input output c) as [[]|e]; naive_solver.
Qed.

(** The immutability check accepts exactly the
    outputs in which every protected column the input carries is still there
    with its type, and is not entirely null, except where the input column was
    entirely null already or no row is left. *)
Theorem structural_immutability (input output : RB) :
  verify_structural_immutability input output = Ok tt <-> Forall (column_kept input output) IMMUTABLE_COLUMNS.
Proof. apply check_columns_iff. Qed.

(** ** Backfilling *)

Definition names (fs : list Field) : list string := map f_name fs.

Lemma last_index_position fs i name :
  NoDup (names fs) -> last_index fs i name = option_map (Nat.add i) (position (fun f => bool_decide (f_name f = name)) fs).
Proof.
  revert i. induction fs as [|f fs IH]; intros i Hnd; [done|]. cbn [names map] in Hnd.
  apply NoDup_cons in Hnd as [Hni Hnd]. cbn [last_index position]. rewrite IH by done.
  case_bool_decide as Hf.
  - assert (Hp : position (fun f => bool_decide (f_name f = name)) fs = None).
    { destruct (position _ fs) as [j|] eqn:Ej; [|done]. apply position_Some in Ej as (g & Hg & Hn).
      apply bool_decide_eq_true in Hn. apply list_elem_of_lookup_2 in Hg. destruct Hni. rewrite Hf, <- Hn.
      by apply list_elem_of_fmap_2. }
    rewrite Hp. cbn [option_map]. f_equal. lia.
  - destruct (position _ fs) as [j|]; [|done]. cbn [option_map]. f_equal. lia.
Qed.

(** The field of [b] of a given name. *)
Definition field (b : RB) (name : string) : option Field :=
  match index_of (t_schema b) name with Some i => s_fields (t_schema b) !! i | None => None end.

Lemma field_None b name : field b name = None <-> index_of (t_schema b) name = None.
Proof.
  unfold field. destruct (index_of (t_schema b) name) as [i|] eqn:Ei; [|done].
  destruct (index_of_Some _ _ _ Ei) as (f & Hf & _). by rewrite Hf.
Qed.

(** The column an input field becomes. *)
Definition backfilled (output : RB) (f : Field) (p : Field * Arr) : Prop :=
  match field output (f_name f), column output (f_name f) with
  | Some g, Some c => p = (g, c) /\ f_type g = f_type f /\ f_nullable g = f_nullable f
  | _, _ => p = (make_field_recursively_nullable f, new_null_array (f_type (make_field_recursively_nullable f)) (t_rows output))
  end.

(** What the guard refuses. *)
Definition mutated (output : RB) (f : Field) : Prop :=
  exists g, field output (f_name f) = Some g /\ (f_type g <> f_type f \/ f_nullable g <> f_nullable f).

Lemma backfill_field_spec output f :
  NoDup (names (s_fields (t_schema output))) ->
  match backfill_field output f with Ok p => backfilled output f p /\ ~ mutated output f | Err _ => mutated output f end.
Proof.
  intros Hnd. unfold backfill_field, backfilled, mutated. rewrite last_index_position by done.
  change (position (fun f0 => bool_decide (f_name f0 = f_name f)) (s_fields (t_schema output)))
    with (index_of (t_schema output) (f_name f)).
  unfold field. destruct (index_of (t_schema output) (f_name f)) as [i|] eqn:Ei; cbn [option_map]; [|naive_solver].
  rewrite Nat.add_0_l. destruct (index_of_Some _ _ _ Ei) as (g & Hg & _).
  destruct (index_of_column _ _ _ Ei) as (c & Hc & ->). rewrite Hg, Hc.
  case_bool_decide as Ht; cbn [negb]; [|naive_solver]. case_bool_decide as Hn; cbn [negb]; naive_solver.
Qed.

Lemma backfill_fields_spec output fs :
  NoDup (names (s_fields (t_schema output))) ->
  match backfill_fields output fs with
  | Ok kept => Forall2 (backfilled output) fs kept /\ Forall (fun f => ~ mutated output f) fs
  | Err _ => Exists (mutated output) fs
  end.
Proof.
  intros Hnd. induction fs as [|f fs IH]; cbn [backfill_fields]; [by split; constructor|].
  pose proof (backfill_field_spec output f Hnd) as Hf. destruct (backfill_field output f) as [p|e]; [|by left].
  destruct (backfill_fields output fs) as [rest|e]; [|by right]. destruct Hf, IH. by split; constructor.
Qed.

(** The fields only the guest's output has. *)
Definition is_added (input_schema : Schema) (f : Field) : Prop := index_of input_schema (f_name f) = None.

Lemma added_fields_spec input_schema output pre fs :
  s_fields (t_schema output) = pre ++ fs ->
  match added_fields input_schema output fs (length pre) with
  | Ok added =>
      map fst added = filter (is_added input_schema) fs /\
      Forall (fun p => f_nullable p.1 = true /\ exists i, s_fields (t_schema output) !! i = Some p.1 /\ t_columns output !! i = Some p.2) added
  | Err _ => exists f, f ∈ fs /\ is_added input_schema f /\ f_nullable f = false
  end.
Proof.
  revert pre. induction fs as [|f fs IH]; intros pre Hpre; cbn [added_fields]; [by split|].
  assert (Hf : s_fields (t_schema output) !! length pre = Some f) by (rewrite Hpre; by rewrite list_lookup_middle).
  specialize (IH (pre ++ [f]) ltac:(by rewrite <- app_assoc)). rewrite length_app, Nat.add_comm in IH. cbn [length Nat.add] in IH.
  destruct (index_of input_schema (f_name f)) as [j|] eqn:Ej.
  - destruct (added_fields input_schema output fs (S (length pre))) as [added|e].
    + rewrite filter_cons_False by (unfold is_added; by rewrite Ej). done.
    + destruct IH as (g & Hg & Hr). exists g. split; [by right | done].
  - destruct (f_nullable f) eqn:Ef; cbn [negb]; [|exists f; split_and!; [by left | done | done]].
    destruct (field_column _ _ _ Hf) as (c & Hc & _). rewrite Hc.
    destruct (added_fields input_schema output fs (S (length pre))) as [added|e].
    + destruct IH as [IH1 IH2]. rewrite filter_cons_True by done. cbn [map fst]. rewrite IH1. split; [done|].
      constructor; [|done]. cbn. split; [done|]. by exists (length pre).
    + destruct IH as (g & Hg & Hr). exists g. split; [by right | done].
Qed.

Lemma nullable_field_nullable f : f_nullable (make_field_recursively_nullable f) = true.
Proof. by destruct f. Qed.

Lemma nullable_field_name f : f_name (make_field_recursively_nullable f) = f_name f.
Proof. by destruct f. Qed.

Lemma field_Some b name g : field b name = Some g -> f_name g = name /\ exists i, s_fields (t_schema b) !! i = Some g /\
  exists c, t_columns b !! i = Some c /\ column b name = Some c.
Proof.
  unfold field. destruct (index_of (t_schema b) name) as [i|] eqn:Ei; [|done]. intros Hg.
  destruct (index_of_Some _ _ _ Ei) as (f & Hf & Hn). rewrite Hf in Hg. injection Hg as ->. split; [done|].
  exists i. split; [done|]. destruct (index_of_column _ _ _ Ei) as (c & Hc & Hcol). by exists c.
Qed.

Lemma backfilled_fits output f p : backfilled output f p -> fits (t_rows output) p.1 p.2.
Proof.
  unfold backfilled. destruct (field output (f_name f)) as [g|] eqn:Eg.
  - destruct (field_Some _ _ _ Eg) as (_ & i & Hi & c & Hc & Hcol). rewrite Hcol. intros (-> & _).
    destruct (field_column _ _ _ Hi) as (c' & Hc' & Hfit). rewrite Hc in Hc'. by injection Hc' as <-.
  - intros ->.
    cbn [fst snd]. split_and!; [apply null_array_type | apply null_array_len |]. by rewrite nullable_field_nullable.
Qed.

Lemma backfilled_name output f p : backfilled output f p -> f_name p.1 = f_name f.
Proof.
  unfold backfilled. destruct (field output (f_name f)) as [g|] eqn:Eg.
  - destruct (field_Some _ _ _ Eg) as (Hn & i & Hi & c & Hc & Hcol). rewrite Hcol. by intros (-> & _).
  - intros ->. apply nullable_field_name.
Qed.

(** A field of [output] with its own column. *)
Definition own_column (output : RB) (p : Field * Arr) : Prop :=
  exists i, s_fields (t_schema output) !! i = Some p.1 /\ t_columns output !! i = Some p.2.

(** An output the defensive guard refuses. *)
Definition refused (input_schema : Schema) (output : RB) : Prop :=
  Exists (mutated output) (s_fields input_schema) \/
  Exists (fun f => is_added input_schema f /\ f_nullable f = false) (s_fields (t_schema output)) \/
  compliance_mutated (s_metadata input_schema) (s_metadata (t_schema output)).

(** The batch the guard lets through. *)
Record repaired (input_schema : Schema) (output b : RB) (kept added : list (Field * Arr)) : Prop := {
  rep_fields : s_fields (t_schema b) = map fst (kept ++ added);
  rep_columns : t_columns b = map snd (kept ++ added);
  rep_rows : t_rows b = t_rows output;
  rep_kept : Forall2 (backfilled output) (s_fields input_schema) kept;
  rep_added : map fst added = filter (is_added input_schema) (s_fields (t_schema output));
  rep_added_nullable : Forall (fun p => f_nullable p.1 = true /\ own_column output p) added;
  rep_metadata : forall k, s_metadata (t_schema b) !! k =
    match s_metadata input_schema !! k with
    | Some v => Some v
    | None => if is_compliance k then None else s_metadata (t_schema output) !! k
    end;
}.

Lemma backfilled_own output f p : backfilled output f p -> is_Some (field output (f_name f)) -> own_column output p.
Proof.
  intros Hb [g Hg]. unfold backfilled in Hb. rewrite Hg in Hb.
  destruct (field_Some _ _ _ Hg) as (_ & i & Hi & c & Hc & Hcol). rewrite Hcol in Hb. destruct Hb as (-> & _). by exists i.
Qed.

Lemma own_columns_identity output (pairs : list (Field * Arr)) :
  NoDup (names (s_fields (t_schema output))) -> Forall (own_column output) pairs ->
  s_fields (t_schema output) = map fst pairs -> t_columns output = map snd pairs.
Proof.
  intros Hnd Hown Hf. apply list_eq. intros j. rewrite list_lookup_fmap.
  destruct (pairs !! j) as [p|] eqn:Ep; cbn [fmap option_fmap option_map].
  - rewrite Forall_lookup in Hown. destruct (Hown _ _ Ep) as (i & Hi & Hc).
    assert (Hj : s_fields (t_schema output) !! j = Some p.1) by (rewrite Hf, list_lookup_fmap, Ep; done).
    assert (i = j) as <-; [|done]. eapply NoDup_lookup; [exact Hnd | |].
    + unfold names. rewrite list_lookup_fmap, Hi. reflexivity.
    + unfold names. rewrite list_lookup_fmap, Hj. reflexivity.
  - apply lookup_ge_None. apply lookup_ge_None in Ep. rewrite <- (Forall2_length _ _ _ (table_fits output)), Hf.
    by rewrite length_map.
Qed.

Lemma merge_metadata_lookup up out k :
  merge_metadata up out !! k = match up !! k with Some v => Some v | None => if is_compliance k then None else out !! k end.
Proof.
  unfold merge_metadata. destruct (up !! k) as [v|] eqn:Hu; [by apply lookup_union_Some_l|].
  rewrite lookup_union_r by done. destruct (is_compliance k) eqn:Ek.
  - apply map_lookup_filter_None. right. intros v _ Hf. change (is_compliance k = false) in Hf. congruence.
  - destruct (out !! k) as [v|] eqn:Ho; [by apply map_lookup_filter_Some | apply map_lookup_filter_None; by left].
Qed.

Lemma missing_false output fs :
  NoDup (names (s_fields (t_schema output))) ->
  existsb (fun f => match last_index (s_fields (t_schema output)) 0 (f_name f) with None => true | Some _ => false end) fs = false ->
  Forall (fun f => is_Some (field output (f_name f))) fs.
Proof.
  intros Hnd. induction fs as [|f fs IH]; intros He; [by constructor|]. cbn [existsb] in He.
  apply orb_false_iff in He as [He1 He2]. constructor; [|by apply IH]. rewrite last_index_position in He1 by done.
  change (position (fun f0 => bool_decide (f_name f0 = f_name f)) (s_fields (t_schema output)))
    with (index_of (t_schema output) (f_name f)) in He1.
  destruct (field output (f_name f)) as [g|] eqn:Eg; [done|]. apply field_None in Eg. by rewrite Eg in He1.
Qed.

Lemma added_fits output p : f_nullable p.1 = true -> own_column output p -> fits (t_rows output) p.1 p.2.
Proof.
  intros _ (i & Hi & Hc). destruct (field_column _ _ _ Hi) as (c & Hc' & Hfit). rewrite Hc in Hc'. by injection Hc' as ->.
Qed.

Lemma pairs_fit output fs kept added :
  Forall2 (backfilled output) fs kept -> Forall (fun p => f_nullable p.1 = true /\ own_column output p) added ->
  Forall2 (fits (t_rows output)) (map fst (kept ++ added)) (map snd (kept ++ added)).
Proof.
  intros Hk Ha. apply Forall2_fmap, Forall_Forall2_diag, Forall_app. split.
  - clear Ha. induction Hk as [|f p fs kept Hp Hk IH]; constructor; [by eapply backfilled_fits | done].
  - apply (Forall_impl _ _ _ Ha). intros p [Hn Ho]. by apply added_fits.
Qed.

Lemma refused_dec_Ok input_schema output kept added :
  Forall (fun f => ~ mutated output f) (s_fields input_schema) ->
  map fst added = filter (is_added input_schema) (s_fields (t_schema output)) ->
  Forall (fun p : Field * Arr => f_nullable p.1 = true /\ own_column output p) added ->
  ~ compliance_mutated (s_metadata input_schema) (s_metadata (t_schema output)) ->
  Forall2 (backfilled output) (s_fields input_schema) kept ->
  ~ refused input_schema output.
Proof.
  intros Hm Hadd Hnull Hc _ [Hr | [Hr | Hr]]; [|clear Hm|done].
  - apply Exists_exists in Hr as (f & Hf & Hr). rewrite Forall_forall in Hm. by eapply Hm.
  - apply Exists_exists in Hr as (f & Hf & Hi & Hn).
    assert (Hin : f ∈ map fst added) by (rewrite Hadd; by apply list_elem_of_filter).
    apply list_elem_of_fmap in Hin as (p & -> & Hp). rewrite Forall_forall in Hnull. destruct (Hnull _ Hp). congruence.
Qed.

Lemma backfill_missing_columns_spec (input_schema : Schema) (output : RB) :
  NoDup (names (s_fields (t_schema output))) -> s_fields input_schema <> [] ->
  match backfill_missing_columns input_schema output with
  | Ok b => ~ refused input_schema output /\ exists kept added, repaired input_schema output b kept added
  | Err _ => refused input_schema output
  end.
Proof.
  intros Hnd Hne. unfold backfill_missing_columns.
  pose proof (backfill_fields_spec output (s_fields input_schema) Hnd) as Hk.
  destruct (backfill_fields output (s_fields input_schema)) as [kept|e]; [|by left]. destruct Hk as [Hk Hm].
  pose proof (added_fields_spec input_schema output [] _ eq_refl) as Ha. cbn [length] in Ha.
  destruct (added_fields input_schema output (s_fields (t_schema output)) 0) as [added|e].
  2: { destruct Ha as (f & Hf & Hi & Hn). right; left. apply Exists_exists. by exists f. }
  destruct Ha as [Ha Hn]. case_bool_decide as Hc; [by right; right|].
  assert (Hok : ~ refused input_schema output) by (by eapply refused_dec_Ok).
  pose proof (pairs_fit _ _ _ _ Hk Hn) as Hfit.
  assert (Hkne : exists p kept', kept = p :: kept') by (destruct Hk; [done | by eauto]).
  destruct (negb _ && _ && _) eqn:Eid.
  - apply andb_prop in Eid as [Eid Emeta]. apply andb_prop in Eid as [Emiss Efields].
    apply bool_decide_eq_true in Efields, Emeta. apply negb_true_iff, missing_false in Emiss; [|done].
    split; [done|]. exists kept, added. split; try done.
    + apply own_columns_identity; [done| |done]. apply Forall_app. split; [|by apply (Forall_impl _ _ _ Hn); intros p []].
      clear -Hk Emiss TablesLaws0. induction Hk as [|f p fs kept Hp Hk IH]; [by constructor|].
      inversion_clear Emiss. constructor; [by eapply backfilled_own | by apply IH].
    + intros k. by rewrite <- merge_metadata_lookup, <- Emeta.
  - destruct (t_try_new _ _) as [b|] eqn:Eb.
    + apply try_new_ok in Eb as (Hs & Hcs & Hrows). split; [done|]. exists kept, added. split; rewrite ?Hs; try done.
      * destruct Hkne as (p & kept' & ->). rewrite (Hrows p.2) by (by left). cbn in Hfit. inversion_clear Hfit as [|? ? ? ? Hp _].
        by destruct Hp as (_ & -> & _).
      * intros k. apply merge_metadata_lookup.
    + assert (Hcs : map snd (kept ++ added) <> []) by (by destruct Hkne as (p & kept' & ->)).
      set (s := mkSchema _ _) in Eb. destruct (try_new_total s _ _ Hcs Hfit) as [b Hb].
      congruence.
Qed.

(** In defensive mode, the guard decides exactly: it refuses
    a guest's batch only when the guest changed the type or the nullability of
    an upstream column, added a non-nullable one, or contradicted an upstream
    compliance key, and whatever it accepts has the upstream columns first, in
    the upstream order (the guest's column, or a null column of the upstream
    type where the guest dropped it), then the guest's own nullable columns, the
    same number of rows, and the upstream metadata with the guest's additions,
    none of them under the compliance prefix. *)
Theorem defensive_guard (input_schema : Schema) (output : RB) :
  NoDup (names (s_fields (t_schema output))) -> s_fields input_schema <> [] ->
  match backfill_missing_columns input_schema output with
  | Ok b => ~ refused input_schema output /\ exists kept added, repaired input_schema output b kept added
  | Err _ => refused input_schema output
  end.
Proof. apply backfill_missing_columns_spec. Qed.

End Guard.

(** ** A concrete instance *)

Module Demo.

Record TArr := mkTArr { ta_type : DataType; ta_len : N; ta_nulls : N }.

Definition tfits (rows : N) (f : Field) (c : TArr) : Prop :=
  ta_type c = f_type f /\ ta_len c = rows /\ (f_nullable f = false -> ta_nulls c = 0).

Record TBatch := mkTBatch {
  tb_schema : Schema; tb_cols : list TArr; tb_rows : N;
  tb_ok : Forall2 (tfits tb_rows) (s_fields tb_schema) tb_cols }.

Definition tb_new (s : Schema) (cs : list TArr) : option TBatch :=
  match cs with
  | [] => None
  | c :: _ =>
      match decide (Forall2 (tfits (ta_len c)) (s_fields s) cs) with
      | left Hok => Some (mkTBatch s cs (ta_len c) Hok)
      | right _ => None
      end
  end.

#[export] Instance toy : Tables TBatch TArr := {
  arr_type := ta_type; arr_len := ta_len; arr_null_count := ta_nulls;
  new_null_array := fun t n => mkTArr t n n;
  t_schema := tb_schema; t_columns := tb_cols; t_rows := tb_rows;
  t_try_new := tb_new }.

#[export] Instance toy_laws : TablesLaws TBatch TArr.
Proof.
  split; try done; [by intros [] | |].
  - intros s cs b. cbn. unfold tb_new. destruct cs as [|c cs]; [done|]. destruct (decide _) as [Hok|]; [|done].
    intros [= <-]. cbn. split_and!; [done..|]. intros c' Hc'.
    apply list_elem_of_lookup in Hc' as [i Hi]. destruct (Forall2_lookup_r _ _ _ _ _ Hok Hi) as (f & _ & _ & <- & _). done.
  - intros s cs rows Hne Hfit. cbn. unfold tb_new. destruct cs as [|c cs]; [done|].
    assert (ta_len c = rows) as -> by (inversion_clear Hfit as [|? ? ? ? Hc _]; by destruct Hc as (_ & Hl & _)).
    destruct (decide _) as [Hok|Hn]; [done | by destruct Hn].
Qed.

Definition trace_id : Field := mkField "trace_id" (Scalar 1) false ∅.
Definition body : Field := mkField "body" (Struct [mkField "text" (Scalar 2) false ∅]) false ∅.
Definition risk : Field := mkField "risk" (Scalar 3) true ∅.

Definition upstream : Schema := mkSchema [trace_id; body] {[ "otel::compliance::status" := "verified" ]}%string.

Definition batch (s : Schema) (cs : list TArr) : TBatch :=
  match tb_new s cs with Some b => b | None => mkTBatch (mkSchema [] ∅) [] 0 (List.Forall2_nil _) end.

(** A guest that keeps the trace ids, drops the bodies and adds a score. *)
Definition guest : TBatch :=
  batch (mkSchema [risk; trace_id] {[ "guest" := "1" ]}%string) [mkTArr (Scalar 3) 2 1; mkTArr (Scalar 1) 2 0].

Definition original : TBatch :=
  batch upstream [mkTArr (Scalar 1) 3 0; mkTArr (f_type body) 3 0].

(** The witness: the trace ids survive. *)
Lemma structural_immutability_witness :
  verify_structural_immutability original guest = Ok tt /\ Forall (column_kept original guest) IMMUTABLE_COLUMNS.
Proof. split; [vm_compute; reflexivity | apply (structural_immutability original guest); vm_compute; reflexivity]. Defined.

(** The witness: the bodies come back as nulls, after the trace ids. *)
Lemma defensive_guard_witness :
  match backfill_missing_columns upstream guest with
  | Ok b => names (s_fields (t_schema b)) = ["trace_id"; "body"; "risk"]%string /\
            map arr_null_count (t_columns b) = [0; 2; 1]
  | Err _ => False
  end /\
  match backfill_missing_columns upstream guest with
  | Ok b => ~ refused upstream guest /\ exists kept added, repaired upstream guest b kept added
  | Err _ => refused upstream guest
  end.
Proof.
  split; [vm_compute; by split | apply (defensive_guard upstream guest)].
  - cbn. apply (bool_decide_unpack _). vm_compute. reflexivity.
  - discriminate.
Defined.

(** A guest that retypes a column is refused. *)
Example retyped_refused :
  backfill_missing_columns upstream (batch (mkSchema [mkField "trace_id" (Scalar 9) false ∅] ∅) [mkTArr (Scalar 9) 1 0])
  = Err (Pipeline "Defensive schema guard violation: data type mutated").
Proof. vm_compute. reflexivity. Qed.

End Demo.
