(* ===== verification/Engine.v ===== *)
(** The compiled-module cache: crates/wasm-transformer/src/engine.rs.

    The cache is shared by the workers and the reloader.  A publication takes
    the write lock, and the generation counter is stored inside it, so every
    operation is one atomic step for the readers; [engine_step] is that step
    relation.  The Wasmtime engine and the epoch ticker carry no modelled
    state; compiled modules are a type parameter [M]. *)

From S2P Require Import Prelude.
Local Open Scope N_scope.

Section Engine.
Context {M : Type}.

Record ModuleSnapshot := mkModuleSnapshot { ms_module : M; ms_generation : N }.

Record EngineCache := mkEngineCache { ec_snapshot : option ModuleSnapshot; ec_generation : N }.

#[export] Instance ModuleSnapshot_eta : RecordEta ModuleSnapshot := fun s => mkModuleSnapshot (ms_module s) (ms_generation s).

(** [EngineCache::new_pooling], the part that is state. *)
Definition new_pooling : EngineCache := mkEngineCache None 0.

(** The pool: twice as many slots as active instances, [u32]. *)
Definition pool_slots (concurrency : N) : N :=
  let active_slots := match try_from u32_max (N.max concurrency 1) with Some n => n | None => 4 end in
  sat_mul u32_max active_slots 2.

(** A pool holds the cache it was made with; nothing takes a slot of it. *)
Record InstancePool := mkInstancePool { ip_engine : EngineCache; ip_module : M; ip_available : N }.

Definition instance_pool_new (engine : EngineCache) (module : M) (size : N) : InstancePool := mkInstancePool engine module size.

Definition available_slots (p : InstancePool) : N := ip_available p.

(** [u64] addition of the release build. *)
Definition wrapping_succ (x : N) : N := (x + 1) mod (u64_max + 1).

Definition publish_module (m : M) (c : EngineCache) : EngineCache * N :=
  let new_gen := wrapping_succ (ec_generation c) in
  (mkEngineCache (Some (mkModuleSnapshot m new_gen)) new_gen, new_gen).

Definition advance_generation (c : EngineCache) : EngineCache * N :=
  let new_gen := wrapping_succ (ec_generation c) in
  (mkEngineCache (match ec_snapshot c with Some s => Some (s <| ms_generation := new_gen |>) | None => None end) new_gen,
   new_gen).

Definition current_snapshot (c : EngineCache) : option ModuleSnapshot := ec_snapshot c.

Definition module (c : EngineCache) : option M := option_map ms_module (current_snapshot c).

Definition current_module (c : EngineCache) : option M * N :=
  match ec_snapshot c with
  | Some s => (Some (ms_module s), ms_generation s)
  | None => (None, ec_generation c)
  end.

Definition module_generation (c : EngineCache) : N := ec_generation c.

(** What other threads may do to the cache between two reads of this one. *)
Inductive engine_step : EngineCache -> EngineCache -> Prop :=
| step_publish m c : engine_step c (publish_module m c).1
| step_advance c : engine_step c (advance_generation c).1.

(** A snapshot carries the cache's generation. *)
Definition coherent (c : EngineCache) : Prop :=
  match ec_snapshot c with Some s => ms_generation s = ec_generation c | None => True end.

Lemma coherent_new : coherent new_pooling.
Proof. done. Qed.

Lemma engine_step_coherent c c' : engine_step c c' -> coherent c -> coherent c'.
Proof.
  unfold coherent. intros [m c0|c0] Hc; [done|]. cbn. by destruct (ec_snapshot c0).
Qed.

Lemma wrapping_succ_exact x : x < u64_max -> wrapping_succ x = x + 1.
Proof. intros Hx. unfold wrapping_succ. apply N.mod_small. lia. Qed.

Lemma engine_step_generation c c' : engine_step c c' -> ec_generation c < u64_max -> ec_generation c' = ec_generation c + 1.
Proof. intros [] Hc; cbn; by apply wrapping_succ_exact. Qed.

(** A published module is there until the next publication. *)
Definition holds (m : M) (c : EngineCache) : Prop := module c = Some m.

Lemma publish_holds m c : holds m (publish_module m c).1.
Proof. done. Qed.

Lemma advance_holds m c : holds m c -> holds m (advance_generation c).1.
Proof. unfold holds, module, current_snapshot. cbn. by destruct (ec_snapshot c). Qed.

(** The generation and the module of one read belong together. *)
Lemma current_module_coherent c : coherent c -> current_module c = (module c, module_generation c).
Proof.
  unfold coherent, current_module, module, current_snapshot, module_generation.
  destruct (ec_snapshot c) as [s|]; [intros E; cbn; by rewrite E | done].
Qed.

End Engine.
Arguments ModuleSnapshot M : clear implicits.
Arguments EngineCache M : clear implicits.
