(* ===== verification/Worker.v ===== *)
(** The WebAssembly worker: crates/wasm-transformer/src/worker.rs.

    Wasmtime is a parameter ([Wasm]): a guest instance is a state of type [G]
    whose calls may do anything to that state and return anything or fail; the
    host reads its linear memory as bytes, in bounds or not at all.  Arrow's
    IPC streams and the JSON serialiser are parameters too ([Codec]).  The
    other threads' publications are the sequence [views] of the values the
    shared module cache takes at each read. *)

From S2P Require Import Prelude Text Signal Guard Engine.
Local Open Scope N_scope.

(** [SignalBatch]: the constructor is the signal. *)
Record SignalBatch (RB : Type) := mkBatch { sb_signal : SignalType; sb_rb : RB }.
Arguments mkBatch {RB}.
Arguments sb_signal {RB}.
Arguments sb_rb {RB}.

Inductive WorkerOutcome (RB : Type) : Type :=
| Emitted (batches : list (SignalBatch RB))
| Discarded
| Rejected (reason : bytes) (original : SignalBatch RB)
| Errored (reason : bytes) (original : SignalBatch RB).
Arguments Emitted {RB}.
Arguments Discarded {RB}.
Arguments Rejected {RB}.
Arguments Errored {RB}.

Inductive SchemaGuardMode : Type := Defensive | Strict.
Inductive OnErrorPolicy : Type := ErrReroute | ErrDrop | ErrPassthrough.
Inductive OnRejectPolicy : Type := RejReroute | RejDrop.

Global Instance OnRejectPolicy_eq_dec : EqDecision OnRejectPolicy.
Proof. solve_decision. Defined.

(** [WasmTransformerConfig], the fields the components read; [J] is a JSON value. *)
Record WasmTransformerConfig (J : Type) := mkWasmConfig {
  wc_id : bytes;
  wc_module_path : bytes;
  wc_sha256 : option bytes;
  wc_max_execution_duration : bytes;
  wc_drain_timeout : bytes;
  wc_max_batch_rows : N;
  wc_concurrency : N;
  wc_worker_channel_capacity : N;
  wc_max_memory : bytes;
  wc_rejuvenate_threshold : bytes;
  wc_rejuvenate_batches : N;
  wc_init_timeout : bytes;
  wc_on_error : OnErrorPolicy;
  wc_allow_unmasked_passthrough : bool;
  wc_on_reject : OnRejectPolicy;
  wc_schema_guard : SchemaGuardMode;
  wc_env_whitelist : list bytes;
  wc_env : gmap bytes bytes;
  wc_config : option J;
}.
Arguments wc_id {J}.
Arguments wc_module_path {J}.
Arguments wc_sha256 {J}.
Arguments wc_max_execution_duration {J}.
Arguments wc_drain_timeout {J}.
Arguments wc_max_batch_rows {J}.
Arguments wc_concurrency {J}.
Arguments wc_worker_channel_capacity {J}.
Arguments wc_max_memory {J}.
Arguments wc_rejuvenate_threshold {J}.
Arguments wc_rejuvenate_batches {J}.
Arguments wc_init_timeout {J}.
Arguments wc_on_error {J}.
Arguments wc_allow_unmasked_passthrough {J}.
Arguments wc_on_reject {J}.
Arguments wc_schema_guard {J}.
Arguments wc_env_whitelist {J}.
Arguments wc_env {J}.
Arguments wc_config {J}.

Definition RESPONSE_HEADER_SIZE : N := 20.
Definition MAX_GUEST_MESSAGE_LEN : N := 64 * 1024.
Definition MAX_GUEST_BATCH_COUNT : N := 1024.
Definition ABI_VERSION : N := 1.

(** ** Sizes and durations *)

Definition parse_scaled (mx : N) (num : bytes) (unit : N) : option N :=
  match parse_unsigned mx (trim num) with Some n => checked_mul mx n unit | None => None end.

Definition parse_byte_size (s : bytes) : option N :=
  let trimmed := trim s in
  match strip_suffix (text "GiB") trimmed with
  | Some num => parse_scaled usize_max num (1024 * 1024 * 1024)
  | None =>
  match strip_suffix (text "GB") trimmed with
  | Some num => parse_scaled usize_max num (1000 * 1000 * 1000)
  | None =>
  match strip_suffix (text "MiB") trimmed with
  | Some num => parse_scaled usize_max num (1024 * 1024)
  | None =>
  match strip_suffix (text "MB") trimmed with
  | Some num => parse_scaled usize_max num (1000 * 1000)
  | None =>
  match strip_suffix (text "KiB") trimmed with
  | Some num => parse_scaled usize_max num 1024
  | None =>
  match strip_suffix (text "KB") trimmed with
  | Some num => parse_scaled usize_max num 1000
  | None =>
  match strip_suffix (text "B") trimmed with
  | Some num => parse_unsigned usize_max (trim num)
  | None => parse_unsigned usize_max trimmed
  end end end end end end end.

(** [parse_duration]: the [Duration] as its milliseconds; [from_secs] holds any
    [u64] of seconds, so the product is not bounded by [u64]. *)
Definition parse_duration (s : bytes) : option N :=
  let trimmed := trim s in
  match strip_suffix (text "ms") trimmed with
  | Some num => parse_unsigned u64_max (trim num)
  | None =>
  match strip_suffix (text "s") trimmed with
  | Some num => option_map (N.mul 1000) (parse_unsigned u64_max (trim num))
  | None =>
  match strip_suffix (text "m") trimmed with
  | Some num => option_map (N.mul 1000) (parse_scaled u64_max num 60)
  | None => option_map (N.mul 1000) (parse_unsigned u64_max trimmed)
  end end end.

Definition parse_duration_ms (s : bytes) : option N :=
  let trimmed := trim s in
  match strip_suffix (text "ms") trimmed with
  | Some num => parse_unsigned u64_max (trim num)
  | None =>
  match strip_suffix (text "s") trimmed with
  | Some num => parse_scaled u64_max num 1000
  | None => parse_unsigned u64_max trimmed
  end end.

(** The 10 ms epochs of a deadline. *)
Definition ticks_of (millis : N) : N :=
  N.max (match try_from u64_max ((millis + 9) / 10) with Some n => n | None => u64_max end) 1.

(** ** The guest *)

Record CallError := mkCallError { ce_chain : bytes; ce_interrupt : bool }.

Inductive HostPhase : Type := Init | Execution.

Inductive TransformKind : Type := V1 | Legacy.

Class Wasm (M G : Type) := {
  mem : G -> bytes;
  mem_write : G -> N -> bytes -> option G;
  set_epoch_deadline : N -> G -> G;
  set_phase : HostPhase -> G -> G;
  instantiate : nat -> N -> M -> option G;
  exports_abi_version : G -> bool;
  exports_alloc : G -> bool;
  exports_dealloc : G -> bool;
  exports_transform : G -> option TransformKind;
  exports_memory : G -> bool;
  exports_init : G -> bool;
  call_abi_version : G -> G * result N CallError;
  call_init : G -> N -> N -> G * result Z CallError;
  call_alloc : G -> N -> G * result N CallError;
  call_dealloc : G -> N -> N -> G * result unit CallError;
  call_transform_v1 : G -> N -> N -> N -> G * result N CallError;
  call_transform_legacy : G -> N -> N -> G * result N CallError;
}.

(** Arrow IPC streams, [serde_json], and the process environment. *)
Class Codec (RB J : Type) := {
  ipc_serialize : RB -> option bytes;
  ipc_open : bytes -> option (list (option RB));
  init_json : bytes -> gmap bytes bytes -> option J -> option bytes;
  ambient_env : bytes -> option bytes;
}.

(** [str::contains]. *)
Fixpoint contains (pat s : bytes) : bool :=
  bool_decide (take (length pat) s = pat) || match s with [] => false | _ :: s => contains pat s end.

Section Worker.
Context {RB Arr M G J : Type} `{Tables RB Arr} `{Wasm M G} `{Codec RB J}.

Abbreviation Batch := (SignalBatch RB).
Abbreviation Outcome := (WorkerOutcome RB).

(** [wasi_env::filter_environment_variables]; the warnings are dropped. *)
Definition filter_environment_variables (whitelist : list bytes) (static_env : gmap bytes bytes) : gmap bytes bytes :=
  static_env ∪
  foldl (fun env key => match ambient_env key with Some value => <[key:=value]> env | None => env end) ∅ whitelist.

(** [Memory::read] of [len] bytes at [off]. *)
Definition mem_read (g : G) (off len : N) : option bytes :=
  if off + len <=? N.of_nat (length (mem g))
  then Some (slice (N.to_nat off) (N.to_nat (off + len)) (mem g))
  else None.

Definition data_size (g : G) : N := N.of_nat (length (mem g)).

Definition push_in_bounds_alloc (allocs : list (N * N)) (ptr len mem_size : N) : list (N * N) :=
  if (0 <? ptr) && (0 <? len) && (ptr +us len <=? mem_size) then allocs ++ [(ptr, len)] else allocs.

Record ParsedHeader := mkParsedHeader {
  ph_status : N;
  ph_batch_count : N;
  ph_batches_ptr : N;
  ph_message_ptr : N;
  ph_message_len : N;
}.

Definition read_response_header (g : G) (header_ptr : N) : result ParsedHeader WasmTransformError :=
  match mem_read g header_ptr RESPONSE_HEADER_SIZE with
  | None => Err (Pipeline "memory access")
  | Some b => Ok (mkParsedHeader (u32_at 0 b) (u32_at 4 b) (u32_at 8 b) (u32_at 12 b) (u32_at 16 b))
  end.

Definition read_guest_message (g : G) (message_ptr message_len : N) : bytes :=
  if (message_ptr =? 0) || (message_len =? 0) then []
  else
    match mem_read g message_ptr (N.min message_len MAX_GUEST_MESSAGE_LEN) with
    | None => []
    | Some b => from_utf8_lossy b
    end.

(** ** Output batches *)

(** The batches of one stream, pushed onto those decoded so far. *)
Fixpoint push_decoded (signal : SignalType) (out : list Batch) (items : list (option RB))
  : result (list Batch) WasmTransformError :=
  match items with
  | [] => Ok out
  | item :: items =>
      if MAX_GUEST_BATCH_COUNT <=? N.of_nat (length out)
      then Err (Pipeline "Aggregate decoded batch count exceeds maximum allowed limit")
      else
        match item with
        | None => Err ArrowIpc
        | Some rb => push_decoded signal (out ++ [mkBatch signal rb]) items
        end
  end.

(** The descriptors from the [i]-th on, [n] of them. *)
Fixpoint extract_loop (g : G) (batches_ptr mem_size : N) (signal : SignalType) (ipc_ptr : N) (n : nat) (i : N)
    (total_bytes : N) (out : list Batch) (allocs : list (N * N))
  : list (N * N) * result (list Batch) WasmTransformError :=
  match n with
  | O => (allocs, Ok out)
  | S n =>
      match checked_add usize_max batches_ptr (i * 8) with
      | None => (allocs, Err (Pipeline "Batch descriptor offset overflow"))
      | Some offset =>
          match mem_read g offset 8 with
          | None => (allocs, Err (Pipeline "memory access"))
          | Some desc =>
              let output_ptr := u32_at 0 desc in
              let output_len := u32_at 4 desc in
              if output_ptr =? 0
              then (allocs, Err (Pipeline "Protocol error: batch descriptor contained null IPC buffer pointer"))
              else
                let total_bytes := total_bytes +us output_len in
                if 64 * 1024 * 1024 <? total_bytes
                then (allocs, Err (Pipeline "Cumulative batch output size exceeds maximum allowed 64MiB limit"))
                else if negb (match checked_add usize_max output_ptr output_len with Some e => e <=? mem_size | None => false end)
                then (allocs, Err (InvalidMemoryBounds output_ptr output_len mem_size))
                else
                  let allocs := if negb (output_ptr =? ipc_ptr) then push_in_bounds_alloc allocs output_ptr output_len mem_size else allocs in
                  match mem_read g output_ptr output_len with
                  | None => (allocs, Err (InvalidMemoryBounds output_ptr output_len mem_size))
                  | Some stream =>
                      match ipc_open stream with
                      | None => (allocs, Err ArrowIpc)
                      | Some items =>
                          match push_decoded signal out items with
                          | Err e => (allocs, Err e)
                          | Ok out => extract_loop g batches_ptr mem_size signal ipc_ptr n (i + 1) total_bytes out allocs
                          end
                      end
                  end
          end
      end
  end.

Definition extract_output_batches (g : G) (batches_ptr batch_count : N) (input_batch : Batch) (allocs : list (N * N)) (ipc_ptr : N)
  : list (N * N) * result (list Batch) WasmTransformError :=
  if MAX_GUEST_BATCH_COUNT <? batch_count
  then (allocs, Err (Pipeline "Guest batch count exceeds maximum allowed limit"))
  else
    let mem_size := data_size g in
    if mem_size <? batches_ptr +us sat_mul usize_max batch_count 8
    then (allocs, Err (Pipeline "Batch descriptors array bounds exceed guest memory size"))
    else extract_loop g batches_ptr mem_size (sb_signal input_batch) ipc_ptr (N.to_nat batch_count) 0 0 [] allocs.

(** ** The outcome *)

(** The guard on one output batch. *)
Definition guard_batch (mode : SchemaGuardMode) (in_rb : RB) (out_batch : Batch) : result Batch WasmTransformError :=
  let? _ := verify_structural_immutability in_rb (sb_rb out_batch) in
  match mode with
  | Strict => let? _ := verify_strict_schema_equality in_rb (sb_rb out_batch) in Ok out_batch
  | Defensive =>
      let? backfilled := backfill_missing_columns (t_schema in_rb) (sb_rb out_batch) in
      Ok (mkBatch (sb_signal out_batch) backfilled)
  end.

Fixpoint guard_batches (mode : SchemaGuardMode) (in_rb : RB) (out_batches : list Batch) : result (list Batch) WasmTransformError :=
  match out_batches with
  | [] => Ok []
  | b :: bs =>
      let? b := guard_batch mode in_rb b in
      let? bs := guard_batches mode in_rb bs in
      Ok (b :: bs)
  end.

Definition default_reason (message : bytes) (reason : bytes) : bytes :=
  if bool_decide (message = []) then reason else message.

Definition dispatch_outcome (g : G) (header : ParsedHeader) (message : bytes) (batch : Batch) (schema_guard : SchemaGuardMode)
    (allocs : list (N * N)) (ipc_ptr : N)
  : list (N * N) * result Outcome (Batch * WasmTransformError) :=
  match ph_status header with
  | 0 =>
      if ph_batch_count header =? 0 then (allocs, Ok (Emitted []))
      else if ph_batches_ptr header =? 0
      then (allocs, Err (batch, Pipeline "Protocol error: guest returned status 0 with batch_count > 0 but null batches_ptr"))
      else
        let '(allocs, extracted) := extract_output_batches g (ph_batches_ptr header) (ph_batch_count header) batch allocs ipc_ptr in
        (allocs,
         match extracted with
         | Err e => Err (batch, e)
         | Ok out_batches =>
             match guard_batches schema_guard (sb_rb batch) out_batches with
             | Err e => Err (batch, e)
             | Ok out_batches => Ok (Emitted out_batches)
             end
         end)
  | 1 => (allocs, Ok Discarded)
  | 2 => (allocs, Ok (Rejected (default_reason message (text "Guest rejected batch")) batch))
  | _ => (allocs, Ok (Errored (default_reason message (text "Guest returned error status")) batch))
  end.

(** ** Instances *)

Record GuestComponents := mkGuest { gc_store : G; gc_transform_fn : TransformKind }.

(** [datalake_init], when exported. *)
Definition init_guest (config : WasmTransformerConfig J) (g : G) : result G WasmTransformError :=
  if negb (exports_init g) then Ok g
  else
    let signal := match wc_env config !! text "signal" with Some s => s | None => text "unknown" end in
    match init_json signal (filter_environment_variables (wc_env_whitelist config) (wc_env config)) (wc_config config) with
    | None => Err (InitFailed "json")
    | Some init_bytes =>
        match try_from u32_max (N.of_nat (length init_bytes)) with
        | None => Err (InitFailed "Config JSON exceeds u32 limit")
        | Some len =>
            let '(g, allocated) := call_alloc g len in
            match allocated with
            | Err _ => Err (InitFailed "datalake_alloc failed")
            | Ok ptr =>
                if ptr =? 0 then Err (InitFailed "datalake_alloc returned null pointer during initialization")
                else
                  match mem_write g ptr init_bytes with
                  | None => Err (InitFailed "memory access")
                  | Some g =>
                      let '(g, status) := call_init g ptr len in
                      match status with
                      | Err _ => Err (InitFailed "datalake_init failed")
                      | Ok init_status =>
                          let '(g, _) := call_dealloc g ptr len in
                          if negb (init_status =? 0)%Z then Err (InitFailed "datalake_init returned non-zero status") else Ok g
                      end
                  end
            end
        end
    end.

Definition instantiate_guest (attempt : nat) (module : M) (config : WasmTransformerConfig J) : result GuestComponents WasmTransformError :=
  let init_timeout := match parse_duration (wc_init_timeout config) with Some d => d | None => 2000 end in
  match instantiate attempt (ticks_of init_timeout) module with
  | None => Err WWasmtime
  | Some g =>
      if negb (exports_abi_version g) then Err (MissingExport "datalake_abi_version")
      else
        let '(g, version) := call_abi_version g in
        match version with
        | Err _ => Err (InitFailed "Failed to call datalake_abi_version")
        | Ok version =>
            if negb (version =? ABI_VERSION) then Err (AbiVersionMismatch version)
            else if negb (exports_alloc g) then Err (MissingExport "datalake_alloc")
            else if negb (exports_dealloc g) then Err (MissingExport "datalake_dealloc")
            else
              match exports_transform g with
              | None => Err (MissingExport "datalake_transform")
              | Some kind =>
                  if negb (exports_memory g) then Err (MissingExport "memory")
                  else let? g := init_guest config g in Ok (mkGuest (set_phase Execution g) kind)
              end
        end
  end.

Definition probe_candidate (attempt : nat) (module : M) (config : WasmTransformerConfig J) : result unit WasmTransformError :=
  let? _ := instantiate_guest attempt module config in Ok tt.

(** [WasmWorker]; [w_attempts] numbers the instantiations and [w_reads] the
    reads of the shared cache. *)
Record WasmWorker := mkWorker {
  w_id : N;
  w_module : M;
  w_config : WasmTransformerConfig J;
  w_guest : option GuestComponents;
  w_batches_processed : N;
  w_local_generation : N;
  w_rejuvenate_threshold_bytes : N;
  w_attempts : nat;
  w_reads : nat;
}.

#[export] Instance WasmWorker_eta : RecordEta WasmWorker := fun w =>
  mkWorker (w_id w) (w_module w) (w_config w) (w_guest w) (w_batches_processed w) (w_local_generation w)
    (w_rejuvenate_threshold_bytes w) (w_attempts w) (w_reads w).

(** The cache at each read: other threads publish in between. *)
Variable views : nat -> EngineCache M.

Definition rejuvenate (w : WasmWorker) : WasmWorker * result unit WasmTransformError :=
  match instantiate_guest (w_attempts w) (w_module w) (w_config w) with
  | Ok g => (w <| w_attempts := S (w_attempts w) |> <| w_guest := Some g |> <| w_batches_processed := 0 |>, Ok tt)
  | Err _ =>
      (w <| w_attempts := S (w_attempts w) |> <| w_batches_processed := 0 |>,
       Err (Unrecoverable "Worker failed rejuvenation replacement"))
  end.

(** One turn of the reload loop. *)
Definition reload_turn (w : WasmWorker) : WasmWorker + WasmWorker :=
  let generation := module_generation (views (w_reads w)) in
  if negb (w_local_generation w <? generation) then inr (w <| w_reads := S (w_reads w) |>)
  else
    let snapshot := current_snapshot (views (S (w_reads w))) in
    let seen := w <| w_reads := S (S (w_reads w)) |> in
    match snapshot with
    | None => inr seen
    | Some snapshot =>
        if ms_generation snapshot <=? w_local_generation w then inr seen
        else
          match instantiate_guest (w_attempts w) (ms_module snapshot) (w_config w) with
          | Ok new_guest =>
              inl (seen <| w_attempts := S (w_attempts w) |> <| w_guest := Some new_guest |> <| w_module := ms_module snapshot |>
                     <| w_local_generation := ms_generation snapshot |> <| w_batches_processed := 0 |>)
          | Err _ =>
              inr (seen <| w_attempts := S (w_attempts w) |> <| w_local_generation := ms_generation snapshot |>)
          end
    end.

(** Every turn that goes on raises a [u64]: 2^64 turns are enough. *)
Definition reload_fuel : positive := 18446744073709551616.

Definition check_hot_reload (w : WasmWorker) : WasmWorker :=
  match loop_until reload_fuel reload_turn w with inl w => w | inr w => w end.

Definition check_rejuvenation (w : WasmWorker) : WasmWorker * result unit WasmTransformError :=
  let memory_exceeded :=
    match w_guest w with
    | Some guest => (0 <? w_rejuvenate_threshold_bytes w) && (w_rejuvenate_threshold_bytes w <=? data_size (gc_store guest))
    | None => false
    end in
  if ((0 <? wc_rejuvenate_batches (w_config w)) && (wc_rejuvenate_batches (w_config w) <=? w_batches_processed w)) || memory_exceeded
  then rejuvenate w else (w, Ok tt).

(** [WasmWorker::new]. *)
Definition worker_new (id : N) (module : M) (config : WasmTransformerConfig J) (attempts reads : nat) : result WasmWorker WasmTransformError :=
  let trimmed := trim (wc_rejuvenate_threshold config) in
  let? threshold := if bool_decide (trimmed = []) then Ok 0 else ok_or (parse_byte_size trimmed) (Pipeline "Invalid memory threshold") in
  let '(target_module, initial_generation, reads) :=
    match current_snapshot (views reads) with
    | Some snap => (ms_module snap, ms_generation snap, S reads)
    | None => (module, module_generation (views (S reads)), S (S reads))
    end in
  let? guest := instantiate_guest attempts target_module config in
  Ok (check_hot_reload (mkWorker id target_module config (Some guest) 0 initial_generation threshold (S attempts) reads)).

(** ** A batch *)

Definition call_failure (timeout_ms : N) (e : CallError) : WasmTransformError :=
  if contains (text "interrupt") (ce_chain e) || contains (text "epoch deadline") (ce_chain e)
     || contains (text "deadline") (ce_chain e) || ce_interrupt e
  then ExecutionTimeout timeout_ms else WWasmtime.

Definition signal_code (s : SignalType) : N := match s with Logs => 0 | Metrics => 1 | Traces => 2 end.

(** The response header's pointer and length, or the input buffer freed. *)
Definition run_transform (guest : GuestComponents) (g : G) (signal_type ipc_ptr ipc_len timeout_ms : N) : G * result (N * N) WasmTransformError :=
  match gc_transform_fn guest with
  | V1 =>
      let '(g, called) := call_transform_v1 g signal_type ipc_ptr ipc_len in
      match called with
      | Err e => (g, Err (call_failure timeout_ms e))
      | Ok packed =>
          let ptr := match try_from u32_max (N.shiftr packed 32) with Some p => p | None => 0 end in
          let len := match try_from u32_max (N.land packed 4294967295) with Some l => l | None => 0 end in
          let mem_size := data_size g in
          if ptr =? 0
          then ((call_dealloc g ipc_ptr ipc_len).1, Err (Pipeline "Malformed C-ABI v1 response header: ptr=0"))
          else if len <? 20
          then ((call_dealloc g ipc_ptr ipc_len).1, Err (Pipeline "Malformed C-ABI v1 response header: len"))
          else if negb (match checked_add usize_max ptr len with Some e => e <=? mem_size | None => false end)
          then ((call_dealloc g ipc_ptr ipc_len).1, Err (InvalidMemoryBounds ptr len mem_size))
          else (g, Ok (ptr, len))
      end
  | Legacy =>
      let '(g, called) := call_transform_legacy g ipc_ptr ipc_len in
      match called with
      | Err e => (g, Err (call_failure timeout_ms e))
      | Ok ptr =>
          let mem_size := data_size g in
          if negb (match checked_add usize_max ptr 20 with Some e => e <=? mem_size | None => false end)
          then ((call_dealloc g ipc_ptr ipc_len).1, Err (InvalidMemoryBounds ptr 20 mem_size))
          else (g, Ok (ptr, 20))
      end
  end.

(** Free the collected allocations; whether one of them failed. *)
Fixpoint free_all (g : G) (allocs : list (N * N)) : G * bool :=
  match allocs with
  | [] => (g, false)
  | (ptr, len) :: allocs =>
      let '(g, freed) := call_dealloc g ptr len in
      let '(g, failed) := free_all g allocs in
      (g, negb (is_ok freed) || failed)
  end.

(** The regions the host frees whatever the outcome. *)
Definition response_allocs (header : ParsedHeader) (ipc_ptr ipc_len header_ptr header_len mem_size : N) : list (N * N) :=
  let allocs := push_in_bounds_alloc [] ipc_ptr ipc_len mem_size in
  let allocs := push_in_bounds_alloc allocs header_ptr header_len mem_size in
  let allocs := push_in_bounds_alloc allocs (ph_message_ptr header) (ph_message_len header) mem_size in
  push_in_bounds_alloc allocs (ph_batches_ptr header) (sat_mul u32_max (ph_batch_count header) 8) mem_size.

(** The guest's part of a batch: allocation, transfer, transformation, the
    response, and the release of its memory. *)
Definition guest_batch (w_id : N) (config : WasmTransformerConfig J) (guest : GuestComponents) (batch : Batch) (ipc_buf : bytes) (ipc_len : N)
  : G * result Outcome (Batch * WasmTransformError) :=
  let timeout := match parse_duration (wc_max_execution_duration config) with Some d => d | None => 500 end in
  let timeout_ms := match try_from u64_max timeout with Some t => t | None => 500 end in
  let ticks := ticks_of timeout in
  let g := set_epoch_deadline ticks (gc_store guest) in
  let '(g, allocated) := call_alloc g ipc_len in
  match allocated with
  | Err e => (g, Err (batch, call_failure timeout_ms e))
  | Ok ipc_ptr =>
      if (ipc_ptr =? 0) && (0 <? ipc_len) then (g, Err (batch, Oom (wc_module_path config) w_id))
      else
        match mem_write g ipc_ptr ipc_buf with
        | None => ((call_dealloc g ipc_ptr ipc_len).1, Err (batch, WWasmtime))
        | Some g =>
            let g := set_epoch_deadline ticks g in
            let '(g, response) := run_transform guest g (signal_code (sb_signal batch)) ipc_ptr ipc_len timeout_ms in
            match response with
            | Err e => (g, Err (batch, e))
            | Ok (header_ptr, header_len) =>
                match read_response_header g header_ptr with
                | Err e => (g, Err (batch, e))
                | Ok header =>
                    let message := read_guest_message g (ph_message_ptr header) (ph_message_len header) in
                    let allocs := response_allocs header ipc_ptr ipc_len header_ptr header_len (data_size g) in
                    let '(allocs, outcome) := dispatch_outcome g header message batch (wc_schema_guard config) allocs ipc_ptr in
                    let '(g, failed) := free_all g allocs in
                    (g, match outcome with
                        | Ok o => if failed then Err (batch, WWasmtime) else Ok o
                        | Err e => Err e
                        end)
                end
            end
        end
  end.

Definition execute_batch (w : WasmWorker) (batch : Batch) : WasmWorker * result Outcome (Batch * WasmTransformError) :=
  let w := check_hot_reload w in
  let num_rows := t_rows (sb_rb batch) in
  let max_rows := wc_max_batch_rows (w_config w) in
  if (0 <? max_rows) && (max_rows <? num_rows)
  then (w, Ok (Rejected (text "Batch row count exceeds configured maximum") batch))
  else
    match ipc_serialize (sb_rb batch) with
    | None => (w, Err (batch, ArrowIpc))
    | Some ipc_buf =>
        match try_from u32_max (N.of_nat (length ipc_buf)) with
        | None => (w, Err (batch, Pipeline "IPC payload exceeds u32::MAX"))
        | Some ipc_len =>
            match w_guest w with
            | None => (w, Err (batch, Pipeline "WASM worker guest components missing"))
            | Some guest =>
                let '(g, outcome) := guest_batch (w_id w) (w_config w) guest batch ipc_buf ipc_len in
                let w := w <| w_guest := Some (mkGuest g (gc_transform_fn guest)) |> in
                match outcome with
                | Err e => (w, Err e)
                | Ok o =>
                    let w := w <| w_batches_processed := w_batches_processed w +u64 1 |> in
                    let '(w, _) := check_rejuvenation w in
                    (w, Ok o)
                end
            end
        end
    end.

(** ** No guest can lose or forge a batch *)

Context `{!TablesLaws RB Arr}.

(** What the host lets out in the name of the guest. *)
Definition vetted (mode : SchemaGuardMode) (in_rb raw out : RB) : Prop :=
  Forall (column_kept in_rb raw) IMMUTABLE_COLUMNS /\
  match mode with
  | Strict => out = raw /\ t_schema raw = t_schema in_rb
  | Defensive =>
      backfill_missing_columns (t_schema in_rb) raw = Ok out /\
      (NoDup (names (s_fields (t_schema raw))) -> s_fields (t_schema in_rb) <> [] ->
       exists kept added, repaired (t_schema in_rb) raw out kept added)
  end.

(** The batch has more rows than the configuration lets through. *)
Definition over_limit (w : WasmWorker) (batch : Batch) : Prop :=
  0 < wc_max_batch_rows (w_config w) < t_rows (sb_rb batch).

(** The transformation ran to its end on guest [g] and gave the place of its
    answer: packed with its length, or alone. *)
Inductive transformed (kind : TransformKind) (g : G) (signal ipc_ptr ipc_len : N) (g' : G) (header_ptr : N) : Prop :=
| transformed_v1 packed :
    kind = V1 -> call_transform_v1 g signal ipc_ptr ipc_len = (g', Ok packed) ->
    header_ptr = N.shiftr packed 32 -> 0 < header_ptr -> 20 <= N.land packed 4294967295 ->
    transformed kind g signal ipc_ptr ipc_len g' header_ptr
| transformed_legacy :
    kind = Legacy -> call_transform_legacy g ipc_ptr ipc_len = (g', Ok header_ptr) ->
    transformed kind g signal ipc_ptr ipc_len g' header_ptr.

(** The guest of [w] was given the whole batch, within the limit of rows and under its
    deadline, and answered: [header] stands in its memory [g']. *)
Inductive answered (w : WasmWorker) (batch : Batch) (g' : G) (header : ParsedHeader) : Prop :=
| answered_with guest buf ticks ipc_ptr g1 g2 header_ptr words :
    ~ over_limit w batch -> w_guest w = Some guest -> ipc_serialize (sb_rb batch) = Some buf ->
    call_alloc (set_epoch_deadline ticks (gc_store guest)) (N.of_nat (length buf)) = (g1, Ok ipc_ptr) ->
    mem_write g1 ipc_ptr buf = Some g2 ->
    transformed (gc_transform_fn guest) (set_epoch_deadline ticks g2) (signal_code (sb_signal batch))
      ipc_ptr (N.of_nat (length buf)) g' header_ptr ->
    mem_read g' header_ptr 20 = Some words ->
    header = mkParsedHeader (u32_at 0 words) (u32_at 4 words) (u32_at 8 words) (u32_at 12 words) (u32_at 16 words) ->
    answered w batch g' header.

(** The guest's table at [batches_ptr] has a descriptor per stream, and the streams
    hold these batches. *)
Definition described (g : G) (batches_ptr : N) (streams : list (list RB)) : Prop :=
  forall i rbs, streams !! i = Some rbs -> exists descriptor stream,
    mem_read g (batches_ptr + 8 * N.of_nat i) 8 = Some descriptor /\
    mem_read g (u32_at 0 descriptor) (u32_at 4 descriptor) = Some stream /\
    ipc_open stream = Some (map Some rbs).

(** Every batch the guest answered with went through the guard, in their order. *)
Definition emission (mode : SchemaGuardMode) (batch : Batch) (g : G) (header : ParsedHeader) (outs : list Batch) : Prop :=
  exists streams, N.of_nat (length streams) = ph_batch_count header /\ described g (ph_batches_ptr header) streams /\
    Forall2 (fun raw o => sb_signal o = sb_signal batch /\ vetted mode (sb_rb batch) raw (sb_rb o)) (concat streams) outs /\
    (length outs <= 1024)%nat.

(** An outcome that accounts for its input: what the guest of [w] answered, or
    the batch itself. *)
Definition accounted (w : WasmWorker) (batch : Batch) (r : result Outcome (Batch * WasmTransformError)) : Prop :=
  match r with
  | Err (b, _) => b = batch
  | Ok (Emitted outs) => exists g header, answered w batch g header /\ ph_status header = 0 /\
      emission (wc_schema_guard (w_config w)) batch g header outs
  | Ok Discarded => exists g header, answered w batch g header /\ ph_status header = 1
  | Ok (Rejected _ b) => b = batch /\ (over_limit w batch \/ exists g header, answered w batch g header /\ ph_status header = 2)
  | Ok (Errored _ b) => b = batch /\ exists g header, answered w batch g header /\ 2 < ph_status header
  end.

Lemma push_decoded_spec signal items out out' :
  push_decoded signal out items = Ok out' -> (length out <= 1024)%nat ->
  (length out' <= 1024)%nat /\ exists rbs, items = map Some rbs /\ out' = out ++ map (mkBatch signal) rbs.
Proof.
  revert out. induction items as [|item items IH]; intros out; cbn [push_decoded].
  - intros [= <-] Hl. split; [done|]. exists []. by rewrite app_nil_r.
  - destruct (N.leb_spec MAX_GUEST_BATCH_COUNT (N.of_nat (length out))) as [|Hlt]; [done|].
    destruct item as [rb|]; [|done]. unfold MAX_GUEST_BATCH_COUNT in Hlt. intros Hp _.
    destruct (IH _ Hp) as (Hl & rbs & -> & ->); [rewrite length_app; cbn; lia|]. split; [done|].
    exists (rb :: rbs). by rewrite <- app_assoc.
Qed.

Lemma extract_loop_described g bp ms signal ip n i tot out allocs allocs' out' :
  extract_loop g bp ms signal ip n i tot out allocs = (allocs', Ok out') -> (length out <= 1024)%nat ->
  exists streams, length streams = n /\ out' = out ++ map (mkBatch signal) (concat streams) /\ (length out' <= 1024)%nat /\
    described g (bp + 8 * i) streams.
Proof.
  revert i tot out allocs. induction n as [|n IH]; intros i tot out allocs; cbn [extract_loop].
  { intros [= _ <-] Hl. exists []. cbn. rewrite app_nil_r. split_and!; [done..|]. by intros ? ? ?. }
  intros He Hl. destruct (checked_add _ _ _) as [offset|] eqn:Eo; [|done]. apply checked_add_Some in Eo as [-> _].
  destruct (mem_read g _ 8) as [desc|] eqn:Ed; [|done].
  assert (exists tot1 allocs1 out1 stream items, mem_read g (u32_at 0 desc) (u32_at 4 desc) = Some stream /\
    ipc_open stream = Some items /\ push_decoded signal out items = Ok out1 /\
    extract_loop g bp ms signal ip n (i + 1) tot1 out1 allocs1 = (allocs', Ok out')) as (tot1 & allocs1 & out1 & stream & items & Em & Eo & Ep & He1).
  { repeat (case_match; try done); do 5 eexists; eauto. }
  clear He. rename He1 into He. destruct (push_decoded_spec _ _ _ _ Ep Hl) as (Hl' & rbs & -> & ->).
  destruct (IH _ _ _ _ He Hl') as (streams & <- & -> & Hl2 & Hd). exists (rbs :: streams).
  split_and!; [done | by cbn [concat]; rewrite map_app, app_assoc | done |].
  intros [|j] rbs' Hj; cbn in Hj.
  - injection Hj as <-. exists desc, stream. split_and!; [|done..]. rewrite <- Ed. f_equal. lia.
  - destruct (Hd j rbs' Hj) as (desc' & stream' & Hm1 & Hm2 & Hm3). exists desc', stream'. split_and!; [|done..].
    rewrite <- Hm1. f_equal. lia.
Qed.

Lemma guard_batch_vetted mode in_rb b b' :
  guard_batch mode in_rb b = Ok b' -> sb_signal b' = sb_signal b /\ vetted mode in_rb (sb_rb b) (sb_rb b').
Proof.
  unfold guard_batch, vetted. destruct (verify_structural_immutability in_rb (sb_rb b)) as [[]|e] eqn:Ev; [|done].
  apply check_columns_iff in Ev. destruct mode.
  - destruct (backfill_missing_columns (t_schema in_rb) (sb_rb b)) as [o|e] eqn:Eb; [|done]. intros [= <-].
    split_and!; try done. intros Hnd Hne. pose proof (backfill_missing_columns_spec _ _ Hnd Hne) as Hs. rewrite Eb in Hs.
    by destruct Hs as [_ Hs].
  - unfold verify_strict_schema_equality. case_bool_decide as Heq; cbn [negb]; [|done]. by intros [= <-].
Qed.

Lemma guard_batches_vetted mode in_rb bs bs' :
  guard_batches mode in_rb bs = Ok bs' ->
  Forall2 (fun b b' => sb_signal b' = sb_signal b /\ vetted mode in_rb (sb_rb b) (sb_rb b')) bs bs'.
Proof.
  revert bs'. induction bs as [|b bs IH]; intros bs'; cbn [guard_batches]; [intros [= <-]; constructor|].
  destruct (guard_batch mode in_rb b) as [b'|] eqn:Eb; [|done].
  destruct (guard_batches mode in_rb bs) as [bs1|] eqn:Es; [|done]. intros [= <-].
  constructor; [by apply guard_batch_vetted | by apply IH].
Qed.

Lemma extract_described g bp count batch allocs ip allocs' outs :
  extract_output_batches g bp count batch allocs ip = (allocs', Ok outs) ->
  exists streams, N.of_nat (length streams) = count /\ described g bp streams /\
    outs = map (mkBatch (sb_signal batch)) (concat streams) /\ (length outs <= 1024)%nat.
Proof.
  unfold extract_output_batches. destruct (_ <? count); [done|]. destruct (data_size g <? _); [done|]. intros He.
  apply extract_loop_described in He as (streams & Hn & -> & Hl & Hd); [|cbn; lia].
  rewrite N.mul_0_r, N.add_0_r in Hd. exists streams. split_and!; [lia | done..].
Qed.

Lemma extracted_emission mode batch g header outs outs' streams :
  N.of_nat (length streams) = ph_batch_count header -> described g (ph_batches_ptr header) streams ->
  outs = map (mkBatch (sb_signal batch)) (concat streams) -> (length outs <= 1024)%nat ->
  guard_batches mode (sb_rb batch) outs = Ok outs' -> emission mode batch g header outs'.
Proof.
  intros Hn Hd -> Hl Hg. apply guard_batches_vetted in Hg. exists streams. split_and!; [done..| |].
  - apply Forall2_fmap_l in Hg. exact Hg.
  - by rewrite <- (Forall2_length _ _ _ Hg).
Qed.

(** The dispatch of an answer of the guest accounts for its batch. *)
Lemma dispatch_outcome_accounted w g header message batch allocs ip :
  answered w batch g header ->
  accounted w batch (dispatch_outcome g header message batch (wc_schema_guard (w_config w)) allocs ip).2.
Proof.
  intros Ha. unfold dispatch_outcome. set (mode := wc_schema_guard (w_config w)).
  destruct (ph_status header) as [|p] eqn:Es.
  2: { destruct p as [[p|p|]|[p|p|]|]; cbn [snd accounted];
    try (split; [done|]); first [exists g, header | right; exists g, header]; (split; [done | lia]). }
  destruct (N.eqb_spec (ph_batch_count header) 0) as [E0|].
  { exists g, header. split_and!; [done..|]. exists []. rewrite E0. split_and!; [done | by intros ? ? ? | constructor | cbn; lia]. }
  destruct (ph_batches_ptr header =? 0); [done|].
  destruct (extract_output_batches _ _ _ _ _ _) as [allocs' [outs|e]] eqn:Ex; cbn [snd]; [|done].
  destruct (guard_batches mode (sb_rb batch) outs) as [outs'|e] eqn:Eg; cbn; [|done].
  exists g, header. split_and!; [done..|]. apply extract_described in Ex as (streams & Hn & Hd & Ho & Hl).
  by eapply extracted_emission.
Qed.

(** A transformation with an answer. *)
Lemma run_transform_transformed guest g signal ipc_ptr ipc_len timeout g' header_ptr header_len :
  run_transform guest g signal ipc_ptr ipc_len timeout = (g', Ok (header_ptr, header_len)) ->
  transformed (gc_transform_fn guest) g signal ipc_ptr ipc_len g' header_ptr.
Proof.
  unfold run_transform. destruct (gc_transform_fn guest).
  - destruct (call_transform_v1 _ _ _ _) as [g1 [packed|e]] eqn:Ec; [|done].
    destruct (try_from u32_max (N.shiftr packed 32)) as [p|] eqn:Ep; [|done].
    destruct (N.eqb_spec p 0) as [|Hp]; [done|]. apply try_from_Some in Ep as [-> _].
    destruct (try_from u32_max (N.land _ _)) as [l|] eqn:El; [|done]. apply try_from_Some in El as [-> _].
    destruct (N.ltb_spec (N.land packed 4294967295) 20); [done|].
    destruct (negb _); [done|]. intros [= <- <- <-]. eapply transformed_v1; [done..|lia|done].
  - destruct (call_transform_legacy _ _ _) as [g1 [ptr|e]] eqn:Ec; [|done].
    destruct (negb _); [done|]. intros [= <- <- <-]. by apply transformed_legacy.
Qed.

Lemma guest_batch_accounted w guest batch ipc_buf ipc_len :
  ~ over_limit w batch -> w_guest w = Some guest -> ipc_serialize (sb_rb batch) = Some ipc_buf ->
  ipc_len = N.of_nat (length ipc_buf) ->
  accounted w batch (guest_batch (w_id w) (w_config w) guest batch ipc_buf ipc_len).2.
Proof.
  intros Hno Hg Hs ->. unfold guest_batch. set (ticks := ticks_of _).
  destruct (call_alloc _ _) as [g1 [ipc_ptr|e]] eqn:Ea; [|done].
  destruct (_ && _); [done|]. destruct (mem_write g1 ipc_ptr ipc_buf) as [g2|] eqn:Ew; [|done].
  destruct (run_transform _ _ _ _ _ _) as [g3 [[header_ptr header_len]|e]] eqn:Et; [|done].
  destruct (read_response_header g3 header_ptr) as [header|e] eqn:Eh; [|done].
  assert (Ha : answered w batch g3 header).
  { unfold read_response_header in Eh. destruct (mem_read _ _ _) as [words|] eqn:Em; [|done]. injection Eh as <-.
    eapply answered_with; [done..| | exact Em | done]. by eapply run_transform_transformed. }
  match goal with |- context [dispatch_outcome ?g ?h ?m ?b ?md ?al ?ip] =>
    pose proof (dispatch_outcome_accounted w g h m b al ip Ha) as Hacc; destruct (dispatch_outcome g h m b md al ip) as [allocs outcome] end.
  destruct (free_all g3 allocs) as [g4 failed]. cbn [snd] in *. destruct outcome as [o|e]; [|done]. by destruct failed.
Qed.

Lemma reload_turn_config w : match reload_turn w with inl w' | inr w' => w_config w' = w_config w end.
Proof.
  unfold reload_turn. destruct (negb _); [done|]. destruct (current_snapshot _) as [snap|]; [|done].
  destruct (_ <=? _); [done|]. by destruct (instantiate_guest _ _ _).
Qed.

Lemma check_hot_reload_config w : w_config (check_hot_reload w) = w_config w.
Proof.
  unfold check_hot_reload.
  pose proof (loop_until_invariant reload_turn (fun w' => w_config w' = w_config w) (fun w' => w_config w' = w_config w) reload_fuel w) as Hi.
  destruct (loop_until reload_fuel reload_turn w); apply Hi; try done; intros a <-; apply reload_turn_config.
Qed.

Lemma execute_batch_accounted (w : WasmWorker) (batch : Batch) :
  accounted (check_hot_reload w) batch (execute_batch w batch).2.
Proof.
  unfold execute_batch. set (w' := check_hot_reload w).
  destruct (_ && _) eqn:El; [cbn; split; [done|]; left; unfold over_limit; blia|].
  assert (Hno : ~ over_limit w' batch).
  { unfold over_limit. intros [Hlo Hhi]. apply N.ltb_lt in Hlo, Hhi. by rewrite Hlo, Hhi in El. }
  destruct (ipc_serialize _) as [buf|] eqn:Eb; [|done].
  destruct (try_from _ _) as [len|] eqn:Ef; [|done]. destruct (w_guest w') as [guest|] eqn:Eg; [|done].
  apply try_from_Some in Ef as [-> _].
  pose proof (guest_batch_accounted w' guest batch buf _ Hno Eg Eb eq_refl) as Hacc.
  destruct (guest_batch _ _ _ _ _ _) as [g [o|e]]; cbn [snd] in Hacc; [|done].
  destruct (check_rejuvenation _) as [w'' r]. done.
Qed.

Lemma execute_batch_config w batch : w_config (execute_batch w batch).1 = w_config w.
Proof.
  unfold execute_batch. rewrite <- (check_hot_reload_config w). set (w' := check_hot_reload w).
  destruct (_ && _); [done|]. destruct (ipc_serialize _); [|done]. destruct (try_from _ _); [|done].
  destruct (w_guest w') as [guest|]; [|done]. destruct (guest_batch _ _ _ _ _ _) as [g1 [o|e1]]; [|done].
  unfold check_rejuvenation. destruct (_ || _); [|done]. unfold rejuvenate. by destruct (instantiate_guest _ _ _).
Qed.

Lemma rejuvenate_config w : w_config (rejuvenate w).1 = w_config w.
Proof. unfold rejuvenate. by destruct (instantiate_guest _ _ _). Qed.

(** C11 (execute_batch_accounts). Whatever the guest does (it may trap, time out,
    return wild pointers or garbage), the input batch is never lost: an execution that
    fails hands back the input batch itself, and an outcome that is not a failure is
    what the guest of the worker, after its check for a new module, answered to this very batch once
    it was allocated, written and transformed without a trap.  A batch counts as discarded only when the
    answer's status is 1; as rejected, with the batch, only when it is 2 or the
    batch has too many rows; as a guest error, with the batch, only when it is above 2.
    Only status 0 emits, and it emits every batch of every stream
    the answer's table describes, in order, at most 1,024, under the input's signal,
    each checked for immutability and, in strict mode, of the input's
    schema or, in defensive mode, repaired by the guard. *)
Theorem execute_batch_accounts (w : WasmWorker) (batch : Batch) :
  accounted (check_hot_reload w) batch (execute_batch w batch).2.
Proof. apply execute_batch_accounted. Qed.

(** ** Reloading *)

(** The generations are [u64]s. *)
Definition views_u64 : Prop := forall t s, current_snapshot (views t) = Some s -> ms_generation s <= u64_max.

(** [b] kept [a]'s guest, or runs one started from a snapshot seen since. *)
Definition adopted (a b : WasmWorker) : Prop :=
  (w_module b = w_module a /\ w_guest b = w_guest a /\ w_batches_processed b = w_batches_processed a) \/
  exists t s k g, (w_reads a <= t < w_reads b)%nat /\ current_snapshot (views t) = Some s /\ w_module b = ms_module s /\
    instantiate_guest k (ms_module s) (w_config a) = Ok g /\ w_guest b = Some g /\ w_batches_processed b = 0.

Definition reloading (a b : WasmWorker) : Prop :=
  w_config b = w_config a /\ (w_reads a <= w_reads b)%nat /\ w_local_generation a <= w_local_generation b /\ adopted a b.

(** No one publishes any more, and the cache holds a module. *)
Definition quiet_since (t : nat) (c : EngineCache M) : Prop :=
  coherent c /\ is_Some (ec_snapshot c) /\ forall t', (t <= t')%nat -> views t' = c.

Lemma reloading_skip a b b' :
  reloading a b -> (w_reads b <= w_reads b')%nat -> w_local_generation b <= w_local_generation b' -> w_config b' = w_config b ->
  w_module b' = w_module b -> w_guest b' = w_guest b -> w_batches_processed b' = w_batches_processed b -> reloading a b'.
Proof.
  intros (Hc & Hr & Hl & [(E1 & E2 & E3)|(t & s & k & g & Ht & Hs & Em & Hg & Eg & Ep)]) Hr' Hl' Hc' Hm Hgu Hp;
    (repeat split; [congruence | lia | lia |]).
  - left. split_and!; congruence.
  - right. exists t, s, k, g. split_and!; try congruence; lia.
Qed.

Lemma reload_turn_step a b c :
  reloading a b ->
  match reload_turn b with
  | inl b' => reloading a b'
  | inr b' => reloading a b' /\ (quiet_since (w_reads a) c -> ec_generation c <= w_local_generation b')
  end.
Proof.
  intros Hab. pose proof Hab as (_ & Hr0 & _ & _). unfold reload_turn.
  destruct (N.ltb_spec (w_local_generation b) (module_generation (views (w_reads b)))) as [Hlt|Hge]; cbn [negb].
  2: { split; [apply (reloading_skip a b); cbn; try done; lia|].
       intros (_ & _ & Hq). rewrite (Hq (w_reads b)) in Hge by done. exact Hge. }
  destruct (current_snapshot _) as [snap|] eqn:Es.
  2: { split; [apply (reloading_skip a b); cbn; try done; lia|].
       intros (_ & [s Hs] & Hq). rewrite (Hq (S (w_reads b))) in Es by lia. unfold current_snapshot in Es. congruence. }
  destruct (N.leb_spec (ms_generation snap) (w_local_generation b)) as [Hle|Hgt]; cbn -[reloading instantiate_guest].
  { split; [apply (reloading_skip a b); cbn; try done; lia|].
    intros (Hco & _ & Hq). rewrite (Hq (S (w_reads b))) in Es by lia. unfold coherent in Hco. unfold current_snapshot in Es.
    rewrite Es in Hco. lia. }
  destruct (instantiate_guest _ _ _) as [g|e] eqn:Eg.
  - destruct Hab as (Hc & Hr & Hl & _). repeat split; cbn in *; [done | lia | lia |]. right. exists (S (w_reads b)), snap, (w_attempts b), g. rewrite Hc in Eg.
    split_and!; try done; cbn; lia.
  - split; [apply (reloading_skip a b); cbn; try done; lia|].
    intros (Hco & _ & Hq). rewrite (Hq (S (w_reads b))) in Es by lia. unfold coherent in Hco. unfold current_snapshot in Es.
    rewrite Es in Hco. cbn. lia.
Qed.

Lemma reload_turn_measure : views_u64 -> forall a a', reload_turn a = inl a' ->
  u64_max - w_local_generation a' < u64_max - w_local_generation a.
Proof.
  intros Hv a a'. unfold reload_turn. destruct (negb _); [done|].
  destruct (current_snapshot _) as [snap|] eqn:Es; [|done]. apply Hv in Es.
  destruct (N.leb_spec (ms_generation snap) (w_local_generation a)) as [|Hgt]; [done|].
  destruct (instantiate_guest _ _ _) as [g|e]; [|done]. intros [= <-]. cbn in *. lia.
Qed.

(** C35 (hot_reload_catches_up). Checking for a new module always ends (every turn
    raises the worker's 64-bit generation), never lowers the generation, and
    leaves the worker either with the guest it had, batch counter included, or
    with a fresh guest that was instantiated successfully from a module published
    in the meantime; and once publications stop, one check brings the worker to
    the published generation, so a module that cannot be started is not tried
    again for every batch. *)
Theorem hot_reload_catches_up (w : WasmWorker) (c : EngineCache M) :
  views_u64 ->
  loop_until reload_fuel reload_turn w = inr (check_hot_reload w) /\
  w_config (check_hot_reload w) = w_config w /\
  w_local_generation w <= w_local_generation (check_hot_reload w) /\
  adopted w (check_hot_reload w) /\
  (quiet_since (w_reads w) c -> ec_generation c <= w_local_generation (check_hot_reload w)).
Proof.
  intros Hv. unfold check_hot_reload.
  destruct (loop_until_exits reload_turn (fun a => u64_max - w_local_generation a) reload_fuel w) as [w' Hw].
  { intros a a'. by apply reload_turn_measure. }
  { unfold u64_max, reload_fuel. lia. }
  pose proof (loop_until_invariant reload_turn (reloading w)
    (fun b => reloading w b /\ (quiet_since (w_reads w) c -> ec_generation c <= w_local_generation b)) reload_fuel w) as Hi.
  rewrite Hw in Hi |- *. destruct Hi as [(Hc & _ & Hl & Ha) Hq]; [| |by split_and!].
  - intros a Ha. pose proof (reload_turn_step w a c Ha) as Hs. by destruct (reload_turn a).
  - repeat split; [done..|]. by left.
Qed.

(** ** The worker's invariant *)

(** The worker has a guest, and its count of batches is below the limit. *)
Definition worker_ok (w : WasmWorker) : Prop :=
  is_Some (w_guest w) /\
  (0 < wc_rejuvenate_batches (w_config w) -> w_batches_processed w < wc_rejuvenate_batches (w_config w)).

Lemma reload_turn_ok w : worker_ok w -> match reload_turn w with inl w' | inr w' => worker_ok w' end.
Proof.
  intros Hok. unfold reload_turn. destruct (negb _); [done|]. destruct (current_snapshot _) as [snap|]; [|done].
  destruct (_ <=? _); [done|]. destruct (instantiate_guest _ _ _); [|done]. split; cbn; [done | lia].
Qed.

Lemma check_hot_reload_ok w : worker_ok w -> worker_ok (check_hot_reload w).
Proof.
  intros Hok. unfold check_hot_reload.
  pose proof (loop_until_invariant reload_turn worker_ok worker_ok reload_fuel w reload_turn_ok Hok) as Hi.
  by destruct (loop_until reload_fuel reload_turn w).
Qed.

Lemma rejuvenate_ok w : is_Some (w_guest w) -> worker_ok (rejuvenate w).1.
Proof. intros Hg. unfold rejuvenate. destruct (instantiate_guest _ _ _); (split; cbn; [done | lia]). Qed.

Lemma check_rejuvenation_ok w : is_Some (w_guest w) -> worker_ok (check_rejuvenation w).1.
Proof.
  intros Hg. unfold check_rejuvenation.
  destruct (_ && _) eqn:El; cbn [orb]; [by apply rejuvenate_ok|].
  destruct (match w_guest w with Some _ => _ | None => _ end); [by apply rejuvenate_ok|].
  split; [done|]. cbn [fst]. intros Hpos. apply N.ltb_lt in Hpos. rewrite Hpos in El. cbn in El. by apply N.leb_gt in El.
Qed.

Lemma worker_new_ok w id module config attempts reads :
  worker_new id module config attempts reads = Ok w -> worker_ok w.
Proof.
  unfold worker_new. destruct (if bool_decide _ then _ else _) as [threshold|]; [|done].
  destruct (current_snapshot _); (destruct (instantiate_guest _ _ _); [|done]; intros [= <-]; apply check_hot_reload_ok; split; cbn; [done | lia]).
Qed.

Lemma execute_batch_ok w batch : worker_ok w -> worker_ok (execute_batch w batch).1.
Proof.
  intros Hok. apply check_hot_reload_ok in Hok. unfold execute_batch.
  set (w' := check_hot_reload w) in *. destruct (_ && _); [done|]. destruct (ipc_serialize _); [|done].
  destruct (try_from _ _); [|done]. destruct (w_guest w') as [guest|] eqn:Eg; [|done].
  destruct (guest_batch _ _ _ _ _ _) as [g [o|e]].
  - match goal with |- context [check_rejuvenation ?x] =>
      pose proof (check_rejuvenation_ok x ltac:(done)); by destruct (check_rejuvenation x) end.
  - destruct Hok as [_ Hok]. split; [done | exact Hok].
Qed.

(** A guest is to be replaced: its batches or its memory reached their limit. *)
Definition replacement_due (w : WasmWorker) : Prop :=
  0 < wc_rejuvenate_batches (w_config w) <= w_batches_processed w \/
  exists guest, w_guest w = Some guest /\ 0 < w_rejuvenate_threshold_bytes w <= data_size (gc_store guest).

(** [w'] follows [w], the worker when its batch ended: it is [w] itself, or it
    tried to replace the guest that was due, started counting anew, and has the new
    guest or, if that one cannot be started, still the old one. *)
Definition followed (w w' : WasmWorker) : Prop :=
  (w' = w /\ ~ replacement_due w) \/
  (replacement_due w /\ w_batches_processed w' = 0 /\
   match instantiate_guest (w_attempts w) (w_module w) (w_config w) with
   | Ok fresh => w_guest w' = Some fresh
   | Err _ => w_guest w' = w_guest w
   end).

Lemma rejuvenation_followed w : followed w (check_rejuvenation w).1.
Proof.
  unfold check_rejuvenation.
  destruct (_ || _) eqn:Ed.
  - right. split_and!; [|unfold rejuvenate; by destruct (instantiate_guest _ _ _)..].
    apply orb_true_iff in Ed as [Ed|Ed]; [left; blia|right]. destruct (w_guest w) as [guest|]; [|done]. exists guest. split; [done | blia].
  - left. split; [done|]. apply orb_false_iff in Ed as [Eb Em]. intros [[H1' H2']|(guest & Hg & H1' & H2')].
    + apply N.ltb_lt in H1'. apply N.leb_le in H2'. by rewrite H1', H2' in Eb.
    + rewrite Hg in Em. apply N.ltb_lt in H1'. apply N.leb_le in H2'. by rewrite H1', H2' in Em.
Qed.

(** How a batch moves the worker's count of batches, from [w] to [w']. *)
Definition counted (w w' : WasmWorker) (r : result Outcome (Batch * WasmTransformError)) : Prop :=
  w_batches_processed w' = w_batches_processed w \/
  (is_ok r = true /\ exists ended, w_batches_processed ended = w_batches_processed w +u64 1 /\
     w_module ended = w_module w /\ w_config ended = w_config w /\ followed ended w').

Lemma execute_batch_counted w batch :
  counted (check_hot_reload w) (execute_batch w batch).1 (execute_batch w batch).2.
Proof.
  unfold execute_batch. set (w' := check_hot_reload w). destruct (_ && _); [by left|].
  destruct (ipc_serialize _); [|by left]. destruct (try_from _ _); [|by left].
  destruct (w_guest w') as [guest|]; [|by left]. destruct (guest_batch _ _ _ _ _ _) as [g [o|e]]; [|by left].
  right. match goal with |- context [check_rejuvenation ?x] =>
    pose proof (rejuvenation_followed x) as Hf; destruct (check_rejuvenation x) end.
  split; [done|]. eexists. by split_and!; [..|exact Hf].
Qed.


(** ** The SDK's response

    crates/wasm-sdk/src/abi.rs: the structures are [repr(C)] on a little-endian
    target, so their bytes are their fields in order. *)

Definition header_fields (h : ParsedHeader) : list N :=
  [ph_status h; ph_batch_count h; ph_batches_ptr h; ph_message_ptr h; ph_message_len h].

Definition header_layout (h : ParsedHeader) : bytes := u32_layout (header_fields h).

Record BatchDescriptor := mkDescriptor { bd_ptr : N; bd_len : N }.

Definition descriptor_layout (d : BatchDescriptor) : bytes := u32_layout [bd_ptr d; bd_len d].

Definition header_u32 (h : ParsedHeader) : Prop := Forall (fun x => x <= u32_max) (header_fields h).

(** The guest holds a table at [ptr] whose streams carry the batches [streams]. *)
Record laid_out (g : G) (ptr : N) (ds : list BatchDescriptor) (streams : list (list RB)) : Prop := {
  lo_table : mem_read g ptr (8 * N.of_nat (length ds)) = Some (concat (map descriptor_layout ds));
  lo_streams : Forall2 (fun d rbs => 0 < bd_ptr d <= u32_max /\ bd_len d <= u32_max /\
    exists stream, mem_read g (bd_ptr d) (bd_len d) = Some stream /\ ipc_open stream = Some (map Some rbs)) ds streams;
  lo_count : (length ds <= 1024)%nat;
  lo_bytes : sum_N bd_len ds <= 64 * 1024 * 1024;
  lo_batches : (length (concat streams) <= 1024)%nat;
}.

Lemma read_header_layout g ptr h :
  header_u32 h -> mem_read g ptr RESPONSE_HEADER_SIZE = Some (header_layout h) -> read_response_header g ptr = Ok h.
Proof.
  intros Hu Hm. unfold read_response_header. rewrite Hm. unfold header_layout.
  pose proof (fun i x j Hi E => u32_at_layout (header_fields h) i x j Hi E Hu) as Hat.
  rewrite (Hat 0%nat _ 0%nat eq_refl eq_refl), (Hat 1%nat _ 4%nat eq_refl eq_refl), (Hat 2%nat _ 8%nat eq_refl eq_refl), (Hat 3%nat _ 12%nat eq_refl eq_refl), (Hat 4%nat _ 16%nat eq_refl eq_refl).
  by destruct h.
Qed.

Lemma descriptor_layout_length d : length (descriptor_layout d) = 8%nat.
Proof. apply (length_u32_layout [_; _]). Qed.

Lemma descriptor_fields d : bd_ptr d <= u32_max -> bd_len d <= u32_max ->
  u32_at 0 (descriptor_layout d) = bd_ptr d /\ u32_at 4 (descriptor_layout d) = bd_len d.
Proof.
  intros Hp Hl. assert (Hu : Forall (fun x => x <= u32_max) [bd_ptr d; bd_len d]) by (by repeat constructor).
  split; [apply (u32_at_layout [bd_ptr d; bd_len d] 0 _ 0%nat eq_refl eq_refl Hu) | apply (u32_at_layout [bd_ptr d; bd_len d] 1 _ 4%nat eq_refl eq_refl Hu)].
Qed.

(** Part of what was read. *)
Lemma mem_read_mid g ptr pre mid post :
  mem_read g ptr (N.of_nat (length (pre ++ mid ++ post))) = Some (pre ++ mid ++ post) ->
  mem_read g (ptr + N.of_nat (length pre)) (N.of_nat (length mid)) = Some mid.
Proof.
  unfold mem_read. rewrite !length_app. destruct (N.leb_spec (ptr + N.of_nat (length pre + (length mid + length post))) (N.of_nat (length (mem g)))) as [Hin|]; [|done].
  intros Hs. injection Hs as Hs. destruct (N.leb_spec (ptr + N.of_nat (length pre) + N.of_nat (length mid)) (N.of_nat (length (mem g)))) as [_|]; [|lia].
  f_equal. unfold slice in *. replace (N.to_nat _ - N.to_nat _)%nat with (length mid) by lia.
  replace (N.to_nat (ptr + N.of_nat (length pre))) with (N.to_nat ptr + length pre)%nat by lia. rewrite <- drop_drop.
  replace (N.to_nat (ptr + N.of_nat (length pre + (length mid + length post))) - N.to_nat ptr)%nat with (length pre + (length mid + length post))%nat in Hs by lia.
  apply (f_equal (fun l => take (length mid) (drop (length pre) l))) in Hs. rewrite drop_app_length, take_app_length in Hs.
  rewrite <- Hs at 2. rewrite <- take_drop_commute. rewrite take_take. f_equal. lia.
Qed.

Lemma push_decoded_ok signal rbs out :
  (length out + length rbs <= 1024)%nat -> push_decoded signal out (map Some rbs) = Ok (out ++ map (mkBatch signal) rbs).
Proof.
  revert out. induction rbs as [|rb rbs IH]; intros out Hl; cbn [map push_decoded]; [by rewrite app_nil_r|].
  cbn [length] in Hl. destruct (N.leb_spec MAX_GUEST_BATCH_COUNT (N.of_nat (length out))) as [Hx|_].
  { unfold MAX_GUEST_BATCH_COUNT in Hx. lia. }
  rewrite IH by (rewrite length_app; cbn; lia). by rewrite <- app_assoc.
Qed.

Lemma mem_read_bound g off len b : mem_read g off len = Some b -> off + len <= data_size g.
Proof. unfold mem_read, data_size. by destruct (N.leb_spec (off + len) (N.of_nat (length (mem g)))). Qed.

Lemma extract_loop_layout g ptr signal ip pre ds streams out tot allocs :
  ptr <= u32_max -> (length (pre ++ ds) <= 1024)%nat ->
  mem_read g ptr (8 * N.of_nat (length (pre ++ ds))) = Some (concat (map descriptor_layout (pre ++ ds))) ->
  Forall2 (fun d rbs => 0 < bd_ptr d <= u32_max /\ bd_len d <= u32_max /\
    exists stream, mem_read g (bd_ptr d) (bd_len d) = Some stream /\ ipc_open stream = Some (map Some rbs)) ds streams ->
  tot + sum_N bd_len ds <= 64 * 1024 * 1024 -> (length out + length (concat streams) <= 1024)%nat ->
  (extract_loop g ptr (data_size g) signal ip (length ds) (N.of_nat (length pre)) tot out allocs).2
  = Ok (out ++ map (mkBatch signal) (concat streams)).
Proof.
  intros Hptr. revert pre streams out tot allocs. induction ds as [|d ds IH]; intros pre streams out tot allocs Hc Ht Hs Hb Ho.
  { inversion Hs; subst. cbn. by rewrite app_nil_r. }
  inversion Hs as [|? rbs ? streams' (Hp & Hl & stream & Hm & Hop) Hs']; subst. cbn [extract_loop length].
  assert (Hoff : checked_add usize_max ptr (N.of_nat (length pre) * 8) = Some (ptr + N.of_nat (length pre) * 8)).
  { apply checked_add_Some. split; [done|]. rewrite length_app in Hc. unfold u32_max in Hptr. unfold usize_max, u64_max. lia. }
  rewrite Hoff.
  assert (Hlen : forall l, length (concat (map descriptor_layout l)) = (8 * length l)%nat).
  { induction l as [|x l IHl]; [done|]. cbn [map concat]. rewrite length_app, descriptor_layout_length, IHl. cbn. lia. }
  rewrite map_app in Ht. cbn [map] in Ht. rewrite concat_app in Ht. cbn [concat] in Ht.
  assert (Hd : mem_read g (ptr + N.of_nat (length pre) * 8) 8 = Some (descriptor_layout d)).
  { pose proof (mem_read_mid g ptr (concat (map descriptor_layout pre)) (descriptor_layout d) (concat (map descriptor_layout ds))) as Hmid.
    rewrite Hlen, descriptor_layout_length in Hmid. rewrite <- (Hmid ltac:(rewrite !length_app, !Hlen, descriptor_layout_length; rewrite length_app in Ht; cbn [length] in Ht; rewrite <- Ht; f_equal; lia)).
    f_equal; lia. }
  rewrite Hd. destruct (descriptor_fields d ltac:(lia) Hl) as [-> ->].
  destruct (N.eqb_spec (bd_ptr d) 0) as [|_]; [lia|]. rewrite sum_N_cons in Hb.
  assert (Htot : tot +us bd_len d = tot + bd_len d) by (apply sat_add_exact; unfold usize_max, u64_max; lia). rewrite Htot.
  destruct (N.ltb_spec (64 * 1024 * 1024) (tot + bd_len d)) as [|_]; [lia|].
  assert (Hadd : checked_add usize_max (bd_ptr d) (bd_len d) = Some (bd_ptr d + bd_len d)).
  { apply checked_add_Some. split; [done|]. unfold u32_max in *. unfold usize_max, u64_max. lia. }
  rewrite Hadd. pose proof (mem_read_bound _ _ _ _ Hm) as Hin. apply N.leb_le in Hin. rewrite Hin. cbn [negb].
  rewrite Hm, Hop. cbn [concat] in Ho. rewrite length_app in Ho. rewrite push_decoded_ok by lia.
  replace (N.of_nat (length pre) + 1) with (N.of_nat (length (pre ++ [d]))) by (rewrite length_app; cbn; lia).
  rewrite (IH (pre ++ [d]) streams').
  - cbn [concat]. by rewrite map_app, app_assoc.
  - by rewrite <- app_assoc.
  - rewrite <- app_assoc. cbn [app]. rewrite map_app, concat_app. exact Ht.
  - done.
  - lia.
  - rewrite length_app, length_map. lia.
Qed.

(** A response laid out in guest memory as the SDK's
    C structures say (a 20-byte header, a table of 8-byte descriptors, the
    streams they point to) is read back by the host exactly: the header's fields,
    and every batch of every stream in order, as long as the guest stays within
    1,024 descriptors, 64 MiB and 1,024 batches. *)
Theorem sdk_response_understood (g : G) (header_ptr : N) (h : ParsedHeader) (ds : list BatchDescriptor) (streams : list (list RB))
    (batch : Batch) (allocs : list (N * N)) (ipc_ptr : N) :
  header_u32 h -> ph_batch_count h = N.of_nat (length ds) ->
  mem_read g header_ptr RESPONSE_HEADER_SIZE = Some (header_layout h) ->
  laid_out g (ph_batches_ptr h) ds streams ->
  read_response_header g header_ptr = Ok h /\
  (extract_output_batches g (ph_batches_ptr h) (ph_batch_count h) batch allocs ipc_ptr).2
    = Ok (map (mkBatch (sb_signal batch)) (concat streams)).
Proof.
  intros Hu Hn Hm [Ht Hs Hc Hb Hd]. split; [by apply read_header_layout|].
  assert (Hp : ph_batches_ptr h <= u32_max) by (by apply (Forall_lookup_1 _ _ 2 _ Hu)).
  unfold extract_output_batches. rewrite Hn.
  destruct (N.ltb_spec MAX_GUEST_BATCH_COUNT (N.of_nat (length ds))) as [Hx|_]; [unfold MAX_GUEST_BATCH_COUNT in Hx; lia|].
  pose proof (mem_read_bound _ _ _ _ Ht) as Hin.
  assert (Hend : ph_batches_ptr h +us sat_mul usize_max (N.of_nat (length ds)) 8 = ph_batches_ptr h + 8 * N.of_nat (length ds)).
  { unfold sat_mul, sat_add, usize_max, u64_max. unfold u32_max in Hp. lia. }
  rewrite Hend. destruct (N.ltb_spec (data_size g) (ph_batches_ptr h + 8 * N.of_nat (length ds))) as [|_]; [lia|].
  rewrite Nat2N.id. by apply (extract_loop_layout g (ph_batches_ptr h) (sb_signal batch) ipc_ptr [] ds streams [] 0 allocs).
Qed.

End Worker.

(** ** A concrete guest *)

Module WorkerDemo.
Import Guard.Demo.

(** 128 bytes of memory; what the transformation answers. *)
Record TGuest := mkTGuest { tg_mem : bytes; tg_answer : result N CallError }.

(** Module 0 cannot be started; any other one answers with the header at 32. *)
Definition tg_memory : bytes :=
  replicate 32 0 ++
  (le_bytes 4 0 ++ le_bytes 4 1 ++ le_bytes 4 64 ++ le_bytes 4 0 ++ le_bytes 4 0) ++ replicate 12 0 ++
  (le_bytes 4 80 ++ le_bytes 4 2) ++ replicate 8 0 ++ [7; 7] ++ replicate 46 0.

#[local] Instance wasm : Wasm N TGuest := {|
  mem := tg_mem;
  mem_write g off bs :=
    if (N.to_nat off + length bs <=? length (tg_mem g))%nat
    then Some (mkTGuest (copy_at (N.to_nat off) bs (tg_mem g)) (tg_answer g)) else None;
  set_epoch_deadline _ g := g;
  set_phase _ g := g;
  instantiate _ _ m :=
    if m =? 0 then None
    else Some (mkTGuest tg_memory (if m =? 9 then Err (mkCallError (text "wasm trap: interrupt") true) else Ok (32 * 2 ^ 32 + 20)));
  exports_abi_version _ := true;
  exports_alloc _ := true;
  exports_dealloc _ := true;
  exports_transform _ := Some V1;
  exports_memory _ := true;
  exports_init _ := false;
  call_abi_version g := (g, Ok 1);
  call_init g _ _ := (g, Ok 0%Z);
  call_alloc g _ := (g, Ok 100);
  call_dealloc g _ _ := (g, Ok tt);
  call_transform_v1 g _ _ _ := (g, tg_answer g);
  call_transform_legacy g _ _ := (g, Ok 32);
|}.

(** A stream of sevens carries the guest's batch. *)
#[local] Instance codec : Codec TBatch unit := {|
  ipc_serialize _ := Some [1; 2; 3];
  ipc_open s := match s with 7 :: _ => Some [Some guest] | _ => None end;
  init_json _ _ _ := Some [];
  ambient_env _ := None;
|}.

Definition config : WasmTransformerConfig unit :=
  mkWasmConfig unit (text "t") (text "t.wasm") None (text "500ms") (text "10s") 10 1 1 (text "64MiB") (text "1KiB") 2
    (text "2s") ErrReroute false RejReroute Defensive [] ∅ None.

(** Module 1 at generation 1; module 2 is published later. *)
Definition views (t : nat) : EngineCache N :=
  if (t <? 3)%nat then (publish_module 1 new_pooling).1 else (publish_module 2 (publish_module 1 new_pooling).1).1.

Definition worker (m : N) : WasmWorker :=
  match instantiate_guest 0 m config with
  | Ok g => mkWorker 0 m config (Some g) 1 1 1024 1 0
  | Err _ => mkWorker 0 m config None 0 0 1024 1 0
  end.

Definition input : SignalBatch TBatch := mkBatch Logs original.

(** The witness: the guest's batch comes out repaired, the bodies as nulls. *)
Lemma execute_batch_accounts_witness :
  match (execute_batch views (worker 1) input).2 with
  | Ok (Emitted [o]) => sb_signal o = Logs /\ names (s_fields (t_schema (sb_rb o))) = ["trace_id"; "body"; "risk"]%string
  | _ => False
  end /\
  accounted (check_hot_reload views (worker 1)) input (execute_batch views (worker 1) input).2.
Proof. split; [vm_compute; by split | apply (execute_batch_accounts views (worker 1) input)]. Defined.

(** A guest that is interrupted gives the batch back. *)
Example interrupted : (execute_batch views (worker 9) input).2 = Err (input, ExecutionTimeout 500).
Proof. vm_compute. reflexivity. Qed.

(** The witness: the third read finds module 2, and the next check starts it. *)
Lemma hot_reload_catches_up_witness :
  w_module (check_hot_reload views ((worker 1) <| w_reads := 3%nat |>)) = 2 /\
  (let w := (worker 1) <| w_reads := 3%nat |> in
   loop_until reload_fuel (reload_turn views) w = inr (check_hot_reload views w) /\
   w_config (check_hot_reload views w) = w_config w /\
   w_local_generation w <= w_local_generation (check_hot_reload views w) /\
   adopted views w (check_hot_reload views w) /\
   (quiet_since views (w_reads w) (views 3) -> ec_generation (views 3) <= w_local_generation (check_hot_reload views w))).
Proof.
  split; [vm_compute; reflexivity|]. cbv zeta. apply (hot_reload_catches_up views ((worker 1) <| w_reads := 3%nat |>) (views 3)).
  intros t s. unfold views. destruct (t <? 3)%nat; intros [= <-]; vm_compute; discriminate.
Defined.


(** The witness: the header at 32, its table at 64 and the stream at 80. *)
Lemma sdk_response_understood_witness :
  read_response_header (mkTGuest tg_memory (Ok 0)) 32 = Ok (mkParsedHeader 0 1 64 0 0) /\
  (extract_output_batches (mkTGuest tg_memory (Ok 0)) 64 1 input [] 100).2 = Ok (map (mkBatch Logs) (concat [[guest]])).
Proof.
  apply (sdk_response_understood (mkTGuest tg_memory (Ok 0)) 32 (mkParsedHeader 0 1 64 0 0) [mkDescriptor 80 2] [[guest]] input [] 100).
  - repeat constructor; vm_compute; discriminate.
  - reflexivity.
  - vm_compute. reflexivity.
  - split; [vm_compute; reflexivity | | cbn; lia | vm_compute; discriminate | cbn; lia].
    constructor; [|constructor]. split; [vm_compute; split; [reflexivity | discriminate]|].
    split; [vm_compute; discriminate|]. exists [7; 7]. split; [vm_compute; reflexivity | reflexivity].
Defined.

End WorkerDemo.
