(* ===== verification/HostCalls.v ===== *)
(** The host functions a guest may call: crates/wasm-transformer/src/host_calls.rs
    and the guest's side of them in crates/wasm-sdk/src/metrics.rs, abi.rs.

    A registry's two maps are shared by the worker threads; each update of one
    map is one atomic step (the double-checked registration lock makes the
    look-up and the insertion one), and a recording takes two: the value, then
    the instrument.  [registry_run] interleaves them freely.  OpenTelemetry
    instruments are named values here; what is recorded on them is returned.
    A gauge is its bit pattern. *)

From S2P Require Import Prelude Text.
Local Open Scope N_scope.

Definition MAX_METRIC_NAME_LEN : N := 256.
Definition MAX_LOG_MESSAGE_LEN : N := 65536.
Definition MAX_METRIC_ENTRIES : nat := 50.

Definition METRIC_TYPE_COUNTER : N := 0.
Definition METRIC_TYPE_GAUGE : N := 1.
Definition METRIC_TYPE_DURATION : N := 2.

(** [char::is_ascii_alphanumeric] or an underscore; in UTF-8 every byte of a
    character outside ASCII is 128 or more, so bytes are enough. *)
Definition is_name_byte (c : N) : bool :=
  ((48 <=? c) && (c <=? 57)) || ((65 <=? c) && (c <=? 90)) || ((97 <=? c) && (c <=? 122)) || (c =? 95).

Definition is_valid_metric_name (name : bytes) : bool :=
  negb (bool_decide (name = [])) && (N.of_nat (length name) <=? MAX_METRIC_NAME_LEN) && forallb is_name_byte name.

(** ** The registry *)

Record DurationSummary := mkSummary {
  ds_count : N; ds_sum_nanos : N; ds_min_nanos : N; ds_max_nanos : N; ds_last_nanos : N }.

Inductive MetricValue : Type :=
| Counter (c : N)
| Gauge (bits : N)
| Duration (d : DurationSummary).

(** An instrument, by its name. *)
Inductive MetricHandle : Type :=
| HCounter (instrument : bytes)
| HGauge (instrument : bytes)
| HHistogram (instrument : bytes).

Record MetricRegistry := mkRegistry {
  mr_component_id : bytes;
  mr_prefix : bytes;
  mr_signal : bytes;
  mr_metrics : gmap bytes MetricValue;
  mr_handles : gmap bytes MetricHandle;
}.

#[export] Instance MetricRegistry_eta : RecordEta MetricRegistry := fun r =>
  mkRegistry (mr_component_id r) (mr_prefix r) (mr_signal r) (mr_metrics r) (mr_handles r).

Definition with_signal (component_id signal : bytes) : MetricRegistry :=
  mkRegistry component_id (text "datalake_transformers_" ++ component_id ++ text "_") signal ∅ ∅.

Definition set_signal (signal : bytes) (r : MetricRegistry) : MetricRegistry := r <| mr_signal := signal |>.

Definition format_key (r : MetricRegistry) (name : bytes) : bytes := mr_prefix r ++ name.

(** [with_key]: the stack buffer, when the key fits and is text, or the heap. *)
Definition with_key {R} (r : MetricRegistry) (name : bytes) (f : bytes -> R) : R :=
  let required_len := (length (mr_prefix r) + length name)%nat in
  let buf := copy_at (length (mr_prefix r)) name (copy_at 0 (mr_prefix r) (replicate 512 0)) in
  if (required_len <=? 512)%nat
  then match from_utf8 (slice 0 required_len buf) with Some s => f s | None => f (mr_prefix r ++ name) end
  else f (mr_prefix r ++ name).

Definition update_or_register_metric (r : MetricRegistry) (name : bytes) (update : MetricValue -> MetricValue) (create : MetricValue)
  : MetricRegistry :=
  with_key r name (fun key =>
    match mr_metrics r !! key with
    | Some val => r <| mr_metrics := <[key:=update val]> (mr_metrics r) |>
    | None =>
        if (MAX_METRIC_ENTRIES <=? size (mr_metrics r))%nat then r
        else r <| mr_metrics := <[key:=create]> (mr_metrics r) |>
    end).

Definition get_or_register_handle (r : MetricRegistry) (name : bytes) (create : MetricHandle) : MetricRegistry * option MetricHandle :=
  match mr_handles r !! name with
  | Some handle => (r, Some handle)
  | None =>
      if (MAX_METRIC_ENTRIES <=? size (mr_handles r))%nat then (r, None)
      else (r <| mr_handles := <[name:=create]> (mr_handles r) |>, Some create)
  end.

Inductive MetricKind : Type := KCounter | KGauge | KDuration.

Definition new_summary (nanos : N) : DurationSummary := mkSummary 1 nanos nanos nanos nanos.

Definition update_value (kind : MetricKind) (v : N) (val : MetricValue) : MetricValue :=
  match kind, val with
  | KCounter, Counter c => Counter (c +u64 v)
  | KCounter, _ => Counter v
  | KGauge, _ => Gauge v
  | KDuration, Duration d =>
      Duration (mkSummary (ds_count d +u64 1) (ds_sum_nanos d +u64 v) (N.min (ds_min_nanos d) v) (N.max (ds_max_nanos d) v) v)
  | KDuration, _ => Duration (new_summary v)
  end.

Definition create_value (kind : MetricKind) (v : N) : MetricValue :=
  match kind with KCounter => Counter v | KGauge => Gauge v | KDuration => Duration (new_summary v) end.

Definition duration_suffix : bytes := text "_duration_seconds".

Definition create_handle (r : MetricRegistry) (kind : MetricKind) (name : bytes) : MetricHandle :=
  match kind with
  | KCounter => HCounter (mr_prefix r ++ name)
  | KGauge => HGauge (mr_prefix r ++ name)
  | KDuration =>
      match strip_suffix duration_suffix name with
      | Some _ => HHistogram (mr_prefix r ++ name)
      | None => HHistogram (mr_prefix r ++ name ++ duration_suffix)
      end
  end.

(** The first step of [record_counter], [record_gauge], [record_duration]. *)
Definition record_value (kind : MetricKind) (name : bytes) (v : N) (r : MetricRegistry) : MetricRegistry :=
  update_or_register_metric r name (update_value kind v) (create_value kind v).

(** The second: what is recorded on the instrument, when it is of the kind. *)
Definition record_instrument (kind : MetricKind) (name : bytes) (v : N) (r : MetricRegistry) : MetricRegistry * option (MetricHandle * N) :=
  let '(r, handle) := get_or_register_handle r name (create_handle r kind name) in
  (r, match kind, handle with
      | KCounter, Some (HCounter i) => Some (HCounter i, v)
      | KGauge, Some (HGauge i) => Some (HGauge i, v)
      | KDuration, Some (HHistogram i) => Some (HHistogram i, v)
      | _, _ => None
      end).

Definition record (kind : MetricKind) (name : bytes) (v : N) (r : MetricRegistry) : MetricRegistry * option (MetricHandle * N) :=
  if negb (is_valid_metric_name name) then (r, None)
  else record_instrument kind name v (record_value kind name v r).

Definition read_counter (r : MetricRegistry) (name : bytes) : N :=
  with_key r name (fun key => match mr_metrics r !! key with Some (Counter c) => c | _ => 0 end).

Definition read_gauge (r : MetricRegistry) (name : bytes) : option N :=
  with_key r name (fun key => match mr_metrics r !! key with Some (Gauge bits) => Some bits | _ => None end).

Definition read_duration (r : MetricRegistry) (name : bytes) : option DurationSummary :=
  with_key r name (fun key => match mr_metrics r !! key with Some (Duration d) => Some d | _ => None end).

(** ** Guest strings *)

(** [memory]: what [get_export("memory")] gives. *)
Definition with_guest_str {R} (memory : option bytes) (ptr len max_len : N) (f : bytes -> R) : option R :=
  match memory with
  | None => None
  | Some mem_data =>
      match checked_add u32_max ptr len with
      | None => None
      | Some total_end =>
          if N.of_nat (length mem_data) <? total_end then None
          else
            let read_len := N.min len max_len in
            let slice := slice (N.to_nat ptr) (N.to_nat (ptr +us read_len)) mem_data in
            match from_utf8 slice with
            | Some s => Some (f s)
            | None => Some (f (from_utf8_lossy slice))
            end
      end
  end.

Definition read_str_from_mem (mem_data : bytes) (ptr len max_len : N) : option bytes :=
  if len =? 0 then Some []
  else
    match checked_add u32_max ptr len with
    | None => None
    | Some total_end =>
        if N.of_nat (length mem_data) <? total_end then None
        else
          let read_len := N.min len max_len in
          let slice := slice (N.to_nat ptr) (N.to_nat (ptr + read_len)) mem_data in
          Some (match from_utf8 slice with Some s => s | None => from_utf8_lossy slice end)
    end.

(** ** The host functions *)

Definition handle_host_metric_emit (memory : option bytes) (metric_type name_ptr name_len value : N) (r : MetricRegistry)
  : MetricRegistry * option (MetricHandle * N) :=
  match with_guest_str memory name_ptr name_len MAX_METRIC_NAME_LEN (fun name =>
    if bool_decide (name = []) then (r, None)
    else if metric_type =? METRIC_TYPE_COUNTER then record KCounter name value r
    else if metric_type =? METRIC_TYPE_GAUGE then record KGauge name value r
    else if metric_type =? METRIC_TYPE_DURATION then record KDuration name value r
    else (r, None)) with
  | Some out => out
  | None => (r, None)
  end.

Inductive Level : Type := ERROR | WARN | INFO | DEBUG | TRACE.

(** The level of a guest's number, 5 and every unknown one being [TRACE]. *)
Definition level_of (level : N) : Level :=
  match level with 1 => ERROR | 2 => WARN | 3 => INFO | 4 => DEBUG | _ => TRACE end.

(** An event on the target [wasm_guest]. *)
Record Event := mkEvent {
  ev_level : Level; ev_component : bytes; ev_target : option bytes; ev_file : option bytes; ev_line : option N; ev_msg : bytes }.

Definition handle_legacy_host_log (memory : option bytes) (level msg_ptr msg_len : N) (r : MetricRegistry) : option Event :=
  with_guest_str memory msg_ptr msg_len MAX_LOG_MESSAGE_LEN (fun msg =>
    mkEvent (level_of level) (mr_component_id r) None None None msg).

Record HostLogRecord := mkLogRecord {
  hl_level : N; hl_msg_ptr : N; hl_msg_len : N; hl_target_ptr : N; hl_target_len : N; hl_file_ptr : N; hl_file_len : N; hl_line : N }.

Definition decode_log_record (mem_data : bytes) (record_ptr : N) : option HostLogRecord :=
  match checked_add u32_max record_ptr 32 with
  | None => None
  | Some total_record_end =>
      if N.of_nat (length mem_data) <? total_record_end then None
      else
        let b := slice (N.to_nat record_ptr) (N.to_nat total_record_end) mem_data in
        Some (mkLogRecord (u32_at 0 b) (u32_at 4 b) (u32_at 8 b) (u32_at 12 b) (u32_at 16 b) (u32_at 20 b) (u32_at 24 b) (u32_at 28 b))
  end.

Definition emit_structured_event (level : N) (comp_id target file : bytes) (line : N) (msg : bytes) : Event :=
  mkEvent (level_of level) comp_id (Some target) (Some file) (Some line) msg.

Definition handle_structured_host_log (memory : option bytes) (record_ptr : N) (r : MetricRegistry) : option Event :=
  match memory with
  | None => None
  | Some mem_data =>
      match decode_log_record mem_data record_ptr with
      | None => None
      | Some record =>
          match read_str_from_mem mem_data (hl_msg_ptr record) (hl_msg_len record) MAX_LOG_MESSAGE_LEN,
                read_str_from_mem mem_data (hl_target_ptr record) (hl_target_len record) MAX_METRIC_NAME_LEN,
                read_str_from_mem mem_data (hl_file_ptr record) (hl_file_len record) MAX_METRIC_NAME_LEN with
          | Some msg, Some target, Some file =>
              Some (emit_structured_event (hl_level record) (mr_component_id r) target file (hl_line record) msg)
          | _, _, _ => None
          end
      end
  end.

(** No capability exists yet: every answer is 0. *)
Definition handle_host_has_capability (phase_is_init : bool) (memory : option bytes) (cap_name_ptr cap_name_len : N) : N :=
  if negb phase_is_init then 0
  else match with_guest_str memory cap_name_ptr cap_name_len MAX_METRIC_NAME_LEN (fun _ => 0) with Some n => n | None => 0 end.

(** The wall clock, [None] before the epoch, in nanoseconds. *)
Definition handle_host_now_nanos (since_epoch : option N) : N :=
  match since_epoch with Some d => match try_from u64_max d with Some n => n | None => u64_max end | None => 0 end.

(** ** Keys *)

Lemma with_key_format {R} r name (f : bytes -> R) : with_key r name f = f (format_key r name).
Proof.
  unfold with_key, format_key. destruct (Nat.leb_spec (length (mr_prefix r) + length name) 512) as [Hl|]; [|done].
  set (buf := copy_at _ name _).
  assert (Hs : slice 0 (length (mr_prefix r) + length name) buf = mr_prefix r ++ name).
  { subst buf. replace (copy_at 0 (mr_prefix r) (replicate 512 0)) with
      (mr_prefix r ++ replicate (length name) 0 ++ replicate (512 - length (mr_prefix r) - length name) 0).
    - rewrite copy_at_app by (by rewrite ?length_replicate). rewrite app_assoc. unfold slice. rewrite drop_0, Nat.sub_0_r.
      rewrite <- length_app. apply take_app_length.
    - unfold copy_at. rewrite Nat.add_0_l. change (take 0 (replicate 512 0)) with (@nil N). cbn [app]. f_equal.
      rewrite drop_replicate, <- replicate_add. f_equal. lia. }
  rewrite Hs. unfold from_utf8. by destruct (utf8_valid _ _).
Qed.

Lemma format_key_inj r n m : format_key r n = format_key r m -> n = m.
Proof. apply app_inv_head. Qed.

(** ** Bounds of the registry *)

(** What concurrent recordings of any guests may do. *)
Inductive registry_step : MetricRegistry -> MetricRegistry -> Prop :=
| step_value kind name v r : is_valid_metric_name name = true -> registry_step r (record_value kind name v r)
| step_instrument kind name v r : is_valid_metric_name name = true -> registry_step r (record_instrument kind name v r).1
| step_signal s r : registry_step r (set_signal s r).

Definition registry_run : MetricRegistry -> MetricRegistry -> Prop := rtc registry_step.

Record registry_ok (r : MetricRegistry) : Prop := {
  ro_metrics : (size (mr_metrics r) <= MAX_METRIC_ENTRIES)%nat;
  ro_handles : (size (mr_handles r) <= MAX_METRIC_ENTRIES)%nat;
  ro_keys : forall key, is_Some (mr_metrics r !! key) -> exists name, key = format_key r name /\ is_valid_metric_name name = true;
  ro_names : forall name, is_Some (mr_handles r !! name) -> is_valid_metric_name name = true;
}.

Lemma insert_bounded {K V} `{Countable K} (m : gmap K V) k v n :
  (size m <= n)%nat -> (is_Some (m !! k) \/ (size m < n)%nat) -> (size (<[k:=v]> m) <= n)%nat.
Proof.
  intros Hn [[x Hk]|Hlt]; [by rewrite (map_size_insert_Some k v m (mk_is_Some _ _ Hk))|].
  destruct (m !! k) as [x|] eqn:Hk; [by rewrite (map_size_insert_Some k v m (mk_is_Some _ _ Hk))|].
  rewrite map_size_insert_None by done. lia.
Qed.

Lemma lookup_insert_is_Some_inv {K V} `{Countable K} (m : gmap K V) k v j : is_Some (<[k:=v]> m !! j) -> j = k \/ is_Some (m !! j).
Proof. rewrite lookup_insert_is_Some. intros [->|[_ Hj]]; auto. Qed.

Lemma registry_step_ok r r' : registry_step r r' -> registry_ok r -> registry_ok r'.
Proof.
  intros Hs [Hm Hh Hk Hn]. destruct Hs as [kind name v r Hv|kind name v r Hv|s r]; [| |by split].
  - unfold record_value, update_or_register_metric. rewrite with_key_format.
    assert (Hins : forall val, (is_Some (mr_metrics r !! format_key r name) \/ (size (mr_metrics r) < MAX_METRIC_ENTRIES)%nat) ->
      registry_ok (r <| mr_metrics := <[format_key r name:=val]> (mr_metrics r) |>)).
    { intros val Hroom. split; cbn; [by apply insert_bounded | done | | done].
      intros key Hkey. apply lookup_insert_is_Some_inv in Hkey as [->|Hkey]; [by exists name | by apply Hk]. }
    destruct (mr_metrics r !! format_key r name) as [val|]; [apply Hins; by left; eexists|].
    destruct (Nat.leb_spec MAX_METRIC_ENTRIES (size (mr_metrics r))); [by split | apply Hins; by right].
  - unfold record_instrument, get_or_register_handle. destruct (mr_handles r !! name) as [h|]; [by split|].
    destruct (Nat.leb_spec MAX_METRIC_ENTRIES (size (mr_handles r))); [by split|]. split; cbn; [done | | done |].
    + apply insert_bounded; [done | by right].
    + intros key Hkey. apply lookup_insert_is_Some_inv in Hkey as [->|Hkey]; [done | by apply Hn].
Qed.

Lemma record_runs kind name v r : registry_run r (record kind name v r).1.
Proof.
  unfold record. destruct (is_valid_metric_name name) eqn:Ev; [|apply rtc_refl]. cbn [negb].
  eapply rtc_l; [by apply (step_value kind name v)|]. apply rtc_once. by apply step_instrument.
Qed.

Lemma metric_emit_runs memory ty ptr len v r : registry_run r (handle_host_metric_emit memory ty ptr len v r).1.
Proof.
  unfold handle_host_metric_emit, with_guest_str. destruct memory as [mem_data|]; [|apply rtc_refl].
  destruct (checked_add _ _ _); [|apply rtc_refl]. destruct (_ <? _); [apply rtc_refl|].
  destruct (from_utf8 _); repeat (case_bool_decide || split_match); first [apply rtc_refl | apply record_runs].
Qed.

(** However the recordings of any number of guests
    interleave, starting from a new registry, it never holds more than 50 values
    or 50 instruments, every value is kept under the registry's prefix followed
    by a valid name, and every instrument under a valid name; and a metric call
    of a guest, whatever memory, pointers and type it passes, is such a
    recording or nothing. *)
Theorem registry_bounded component_id signal r :
  registry_run (with_signal component_id signal) r ->
  registry_ok r /\
  forall memory ty ptr len v, registry_run r (handle_host_metric_emit memory ty ptr len v r).1.
Proof.
  intros Hrun. split; [|intros; apply metric_emit_runs].
  assert (H0 : registry_ok (with_signal component_id signal)).
  { split; cbn; [rewrite map_size_empty; unfold MAX_METRIC_ENTRIES; lia.. | |]; intros ? Hx; rewrite lookup_empty in Hx; by destruct Hx. }
  revert H0. induction Hrun; [done|]. intros Hok. eauto using registry_step_ok.
Qed.

(** ** Values *)

Definition op : Type := MetricKind * bytes * N.

Definition record_all (ops : list op) (r : MetricRegistry) : MetricRegistry :=
  foldl (fun r '(kind, name, v) => (record kind name v r).1) r ops.

Definition value_of (r : MetricRegistry) (name : bytes) : option MetricValue := mr_metrics r !! format_key r name.

Lemma record_value_lookup kind name v r other val :
  value_of r other = Some val ->
  value_of (record_value kind name v r) other = Some (if bool_decide (name = other) then update_value kind v val else val) /\
  mr_prefix (record_value kind name v r) = mr_prefix r.
Proof.
  unfold value_of, record_value, update_or_register_metric. rewrite with_key_format. intros Ho.
  case_bool_decide as Hname.
  - subst other. rewrite Ho. split; [|done]. apply lookup_insert_eq.
  - assert (Hne : format_key r name <> format_key r other) by (intros E; by apply format_key_inj in E).
    destruct (mr_metrics r !! format_key r name) as [w|] eqn:Ew; [|destruct (Nat.leb MAX_METRIC_ENTRIES (size (mr_metrics r)))]; (split; [|done]);
      unfold format_key in *; cbn; by rewrite ?lookup_insert_ne.
Qed.

Lemma record_lookup kind name v r other val :
  value_of r other = Some val -> is_valid_metric_name other = true ->
  value_of (record kind name v r).1 other = Some (if bool_decide (name = other) then update_value kind v val else val).
Proof.
  intros Ho Hv. unfold record. destruct (is_valid_metric_name name) eqn:En; cbn [negb fst].
  - destruct (record_value_lookup kind name v r other val Ho) as [Hval _]. revert Hval.
    set (r' := record_value kind name v r). intros Hval.
    unfold record_instrument, get_or_register_handle. destruct (mr_handles r' !! name); [done|]. by destruct (_ <=? _)%nat.
  - case_bool_decide as Hname; [congruence | done].
Qed.

(** The operations on one name, in order. *)
Definition ops_on (name : bytes) (ops : list op) : list (MetricKind * N) :=
  omap (fun '(kind, n, v) => if bool_decide (n = name) then Some (kind, v) else None) ops.

(** The total of increments, and the summary of observations, as they are meant. *)
Definition counter_total (c : N) (vs : list N) : N := N.min (c + sum_N id vs) u64_max.

Definition summary_of (d : DurationSummary) (vs : list N) : DurationSummary :=
  mkSummary (N.min (ds_count d + N.of_nat (length vs)) u64_max) (N.min (ds_sum_nanos d + sum_N id vs) u64_max)
    (foldr N.min (ds_min_nanos d) vs) (foldr N.max (ds_max_nanos d) vs) (default (ds_last_nanos d) (last vs)).

Lemma counter_fold c vs : c <= u64_max ->
  foldl (fun val '(k, v) => update_value k v val) (Counter c) (map (pair KCounter) vs) = Counter (counter_total c vs).
Proof.
  revert c. unfold counter_total. induction vs as [|v vs IH]; intros c Hc; cbn [map foldl update_value]; [cbn; f_equal; lia|].
  rewrite IH by apply sat_add_le. f_equal. rewrite sum_N_cons. unfold sat_add, id. lia.
Qed.

Lemma foldr_min_start vs a b : foldr N.min (N.min a b) vs = N.min a (foldr N.min b vs).
Proof. induction vs as [|v vs IH]; cbn; [done | rewrite IH; lia]. Qed.

Lemma foldr_max_start vs a b : foldr N.max (N.max a b) vs = N.max a (foldr N.max b vs).
Proof. induction vs as [|v vs IH]; cbn; [done | rewrite IH; lia]. Qed.

Lemma duration_fold d vs : ds_count d <= u64_max -> ds_sum_nanos d <= u64_max ->
  foldl (fun val '(k, v) => update_value k v val) (Duration d) (map (pair KDuration) vs) = Duration (summary_of d vs).
Proof.
  revert d. unfold summary_of. induction vs as [|v vs IH]; intros d Hc Hs; cbn [map foldl update_value].
  - destruct d as [c s mi ma la]. cbn in *. do 2 f_equal; lia.
  - rewrite IH by apply sat_add_le. cbn -[sum_N]. rewrite sum_N_cons. do 2 f_equal.
    + unfold sat_add. lia.
    + unfold sat_add, id. lia.
    + rewrite (N.min_comm (ds_min_nanos d)). apply foldr_min_start.
    + rewrite (N.max_comm (ds_max_nanos d)). apply foldr_max_start.
    + destruct vs as [|w vs]; [done|]. cbn [last]. by destruct (last (w :: vs)) eqn:El; [|apply last_None in El].
Qed.

Lemma record_all_lookup ops r name val :
  value_of r name = Some val -> is_valid_metric_name name = true ->
  value_of (record_all ops r) name = Some (foldl (fun val '(k, v) => update_value k v val) val (ops_on name ops)).
Proof.
  revert r val. induction ops as [|[[kind n] v] ops IH]; intros r val Hr Hv; [done|].
  cbn [record_all foldl ops_on omap list_omap]. fold (record_all ops (record kind n v r).1).
  pose proof (record_lookup kind n v r name val Hr Hv) as H1. rewrite (IH _ _ H1 Hv).
  case_bool_decide as Hn; reflexivity.
Qed.

(** A registered metric is exactly the history of its own
    recordings, whatever is recorded under other names in between: a counter
    holds the sum of its increments, capped at the largest 64-bit integer, and a
    duration holds the number of its observations, their sum, their least,
    greatest and last. *)
Theorem metric_values_exact (r : MetricRegistry) (ops : list op) (name : bytes) (vs : list N) :
  is_valid_metric_name name = true ->
  (forall c, value_of r name = Some (Counter c) -> c <= u64_max -> ops_on name ops = map (pair KCounter) vs ->
    read_counter (record_all ops r) name = counter_total c vs) /\
  (forall d, value_of r name = Some (Duration d) -> ds_count d <= u64_max -> ds_sum_nanos d <= u64_max ->
    ops_on name ops = map (pair KDuration) vs ->
    read_duration (record_all ops r) name = Some (summary_of d vs)).
Proof.
  intros Hv. split.
  - intros c Hr Hc Ho. pose proof (record_all_lookup ops r name _ Hr Hv) as Hval. rewrite Ho, counter_fold in Hval by done.
    unfold read_counter. rewrite with_key_format. unfold value_of in Hval. by rewrite Hval.
  - intros d Hr Hc Hs Ho. pose proof (record_all_lookup ops r name _ Hr Hv) as Hval. rewrite Ho, duration_fold in Hval by done.
    unfold read_duration. rewrite with_key_format. unfold value_of in Hval. by rewrite Hval.
Qed.

(** ** Log records

    The SDK's [HostLogRecord] is eight [u32] fields in order. *)

Definition record_fields (l : HostLogRecord) : list N :=
  [hl_level l; hl_msg_ptr l; hl_msg_len l; hl_target_ptr l; hl_target_len l; hl_file_ptr l; hl_file_len l; hl_line l].

Definition record_layout (l : HostLogRecord) : bytes := u32_layout (record_fields l).

(** Memory holds [bs] at [ptr]. *)
Definition holds_at (mem_data : bytes) (ptr : N) (bs : bytes) : Prop :=
  ptr + N.of_nat (length bs) <= u32_max /\ (N.to_nat ptr + length bs <= length mem_data)%nat /\
  slice (N.to_nat ptr) (N.to_nat ptr + length bs) mem_data = bs.

Lemma read_str_holds mem_data ptr s max_len :
  holds_at mem_data ptr s -> from_utf8 s = Some s -> N.of_nat (length s) <= max_len ->
  read_str_from_mem mem_data ptr (N.of_nat (length s)) max_len = Some s.
Proof.
  intros (Hu & Hin & Hs) Hv Hmax. unfold read_str_from_mem.
  destruct (N.eqb_spec (N.of_nat (length s)) 0) as [E|_]; [destruct s; [done | cbn in E; lia]|].
  replace (checked_add u32_max ptr (N.of_nat (length s))) with (Some (ptr + N.of_nat (length s))) by (symmetry; by apply checked_add_Some).
  destruct (N.ltb_spec (N.of_nat (length mem_data)) (ptr + N.of_nat (length s))) as [|_]; [lia|].
  rewrite N.min_l by done. replace (N.to_nat (ptr + N.of_nat (length s))) with (N.to_nat ptr + length s)%nat by lia.
  by rewrite Hs, Hv.
Qed.

Lemma decode_log_record_layout mem_data ptr l :
  Forall (fun x => x <= u32_max) (record_fields l) -> holds_at mem_data ptr (record_layout l) ->
  decode_log_record mem_data ptr = Some l.
Proof.
  intros Hu (Hp & Hin & Hs). unfold decode_log_record. unfold record_layout in *. rewrite length_u32_layout in *. cbn [length record_fields] in Hp, Hin.
  replace (checked_add u32_max ptr 32) with (Some (ptr + 32)) by (symmetry; apply checked_add_Some; lia).
  destruct (N.ltb_spec (N.of_nat (length mem_data)) (ptr + 32)) as [|_]; [lia|].
  replace (N.to_nat (ptr + 32)) with (N.to_nat ptr + 4 * length (record_fields l))%nat by (cbn; lia). rewrite Hs.
  pose proof (fun i x j Hi E => u32_at_layout (record_fields l) i x j Hi E Hu) as Hat.
  rewrite (Hat 0%nat _ 0%nat eq_refl eq_refl), (Hat 1%nat _ 4%nat eq_refl eq_refl), (Hat 2%nat _ 8%nat eq_refl eq_refl), (Hat 3%nat _ 12%nat eq_refl eq_refl), (Hat 4%nat _ 16%nat eq_refl eq_refl),
    (Hat 5%nat _ 20%nat eq_refl eq_refl), (Hat 6%nat _ 24%nat eq_refl eq_refl), (Hat 7%nat _ 28%nat eq_refl eq_refl). by destruct l.
Qed.

(** A log record the guest SDK lays out in memory, with
    its message, target and file somewhere in the guest's memory as UTF-8 text
    within the caps, becomes exactly one event: that message, target, file and
    line, at the level of its number (an unknown one being a trace). *)
Theorem log_record_understood (mem_data : bytes) (ptr : N) (l : HostLogRecord) (msg target file : bytes) (r : MetricRegistry) :
  Forall (fun x => x <= u32_max) (record_fields l) -> holds_at mem_data ptr (record_layout l) ->
  hl_msg_len l = N.of_nat (length msg) -> hl_target_len l = N.of_nat (length target) -> hl_file_len l = N.of_nat (length file) ->
  holds_at mem_data (hl_msg_ptr l) msg -> holds_at mem_data (hl_target_ptr l) target -> holds_at mem_data (hl_file_ptr l) file ->
  from_utf8 msg = Some msg -> from_utf8 target = Some target -> from_utf8 file = Some file ->
  N.of_nat (length msg) <= MAX_LOG_MESSAGE_LEN -> N.of_nat (length target) <= MAX_METRIC_NAME_LEN ->
  N.of_nat (length file) <= MAX_METRIC_NAME_LEN ->
  handle_structured_host_log (Some mem_data) ptr r
    = Some (mkEvent (level_of (hl_level l)) (mr_component_id r) (Some target) (Some file) (Some (hl_line l)) msg).
Proof.
  intros Hu Hrec Em Et Ef Hm Ht Hf Vm Vt Vf Lm Lt Lf. unfold handle_structured_host_log.
  rewrite (decode_log_record_layout _ _ _ Hu Hrec), Em, Et, Ef. by rewrite !read_str_holds.
Qed.

(** A guest string is refused exactly when memory is missing or the range is
    not inside it. *)
Lemma with_guest_str_None {R} memory ptr len max_len (f : bytes -> R) :
  with_guest_str memory ptr len max_len f = None <->
  match memory with None => True | Some mem_data => u32_max < ptr + len \/ N.of_nat (length mem_data) < ptr + len end.
Proof.
  unfold with_guest_str, checked_add. destruct memory as [mem_data|]; [|done].
  destruct (N.leb_spec (ptr + len) u32_max); [|naive_solver lia].
  destruct (N.ltb_spec (N.of_nat (length mem_data)) (ptr + len)); [naive_solver|].
  destruct (from_utf8 _); (split; [done | lia]).
Qed.

Module HostDemo.

Definition registry : MetricRegistry := with_signal (text "pii") (text "logs").

Definition mem_data : bytes := record_layout (mkLogRecord 2 32 2 34 3 0 0 7) ++ text "hi" ++ text "app".

(** The witness: one counter, two increments. *)
Lemma registry_bounded_witness :
  let r := (record KCounter (text "hits") 5 (record KCounter (text "hits") 2 registry).1).1 in
  read_counter r (text "hits") = 7 /\ registry_ok r.
Proof.
  cbv zeta. split; [vm_compute; reflexivity|]. apply (registry_bounded (text "pii") (text "logs")).
  eapply transitivity; apply record_runs.
Defined.

(** The witness: a counter that saturates while a gauge is recorded. *)
Lemma metric_values_exact_witness :
  let r := (record KCounter (text "hits") 3 registry).1 in
  read_counter (record_all [(KCounter, text "hits", u64_max); (KGauge, text "load", 9); (KCounter, text "hits", 1)] r) (text "hits")
  = counter_total 3 [u64_max; 1].
Proof.
  cbv zeta. apply (proj1 (metric_values_exact _ [(KCounter, text "hits", u64_max); (KGauge, text "load", 9); (KCounter, text "hits", 1)]
    (text "hits") [u64_max; 1] eq_refl)); [vm_compute; reflexivity | vm_compute; discriminate | vm_compute; reflexivity].
Defined.

(** The witness: a warning without a file. *)
Lemma log_record_understood_witness :
  handle_structured_host_log (Some mem_data) 0 registry
  = Some (mkEvent WARN (text "pii") (Some (text "app")) (Some []) (Some 7) (text "hi")).
Proof.
  pose proof (log_record_understood mem_data 0 (mkLogRecord 2 32 2 34 3 0 0 7) (text "hi") (text "app") [] registry) as Hl.
  apply Hl; clear Hl; unfold holds_at.
  1: repeat constructor; vm_compute; discriminate.
  all: repeat split; vm_compute; first [reflexivity | discriminate | lia].
Defined.

(** A name longer than the cap is cut, not refused: two of them share a value. *)
Example long_names_alias :
  let long c := replicate 256 97 ++ [c] in
  let call c := handle_host_metric_emit (Some (long c)) METRIC_TYPE_COUNTER 0 257 1 in
  read_counter (call 99 (call 98 registry).1).1 (replicate 256 97) = 2.
Proof. vm_compute. reflexivity. Qed.

(** A name that changes its kind keeps the instrument of its first one, and
    nothing more is recorded on it. *)
Example kind_change_stops_export :
  let r := (record KCounter (text "x") 1 registry).1 in
  (record KGauge (text "x") 2 r).2 = None /\ read_gauge (record KGauge (text "x") 2 r).1 (text "x") = Some 2.
Proof. by vm_compute. Qed.

End HostDemo.
