(* ===== verification/GuestSdk.v ===== *)
(** The guest's side of the WebAssembly interface: crates/wasm-sdk.

    [nullify_column] (helpers.rs) runs over the schemas and the tables of Guard,
    so that what it makes can be put through the host's guard; the calls of
    metrics.rs and panic.rs are imports with their operands, which HostCalls'
    handlers take over a memory; the exported allocators (abi.rs) run on a map
    from pointers to capacities, where the Rust allocator chooses the pointer. *)

From S2P Require Import Prelude Text Guard HostCalls.
Local Open Scope N_scope.

(** ** Nullifying a column *)

Inductive SdkError : Type :=
| ImmutableFieldViolation (name : string)
| SdkArrow
| ColumnNotFound (name : string)
| SchemaMismatch (msg : string).

Definition is_immutable_column (column : string) : bool := bool_decide (column ∈ IMMUTABLE_COLUMNS).

Definition count_mismatch : SdkError := SchemaMismatch "Column count mismatch".
Definition name_mismatch : SdkError := SchemaMismatch "Field mismatch: names".
Definition type_mismatch : SdkError := SchemaMismatch "Field mismatch: data types".
Definition nullability_changed : SdkError := SchemaMismatch "Field mismatch: nullability cannot be changed".
Definition target_not_nullable : SdkError := SchemaMismatch "Target schema field must be nullable".

Definition compare_field (column_name : string) (batch_field target_field : Field) : result unit SdkError :=
  if negb (bool_decide (f_name batch_field = f_name target_field)) then Err name_mismatch
  else if negb (bool_decide (f_type batch_field = f_type target_field)) then Err type_mismatch
  else if negb (bool_decide (f_name batch_field = column_name)) && negb (Bool.eqb (f_nullable batch_field) (f_nullable target_field))
  then Err nullability_changed
  else Ok tt.

(** The loop over the indices of both schemas, which are as long. *)
Fixpoint compare_fields (column_name : string) (pairs : list (Field * Field)) : result unit SdkError :=
  match pairs with
  | [] => Ok tt
  | (batch_field, target_field) :: pairs =>
      let? _ := compare_field column_name batch_field target_field in compare_fields column_name pairs
  end.

Section Nullify.
Context {RB Arr : Type} `{Tables RB Arr}.

Definition nullify_column (batch : RB) (target_schema : Schema) (column_name : string) : result RB SdkError :=
  if is_immutable_column column_name then Err (ImmutableFieldViolation column_name)
  else if negb (length (t_columns batch) =? length (s_fields target_schema))%nat then Err count_mismatch
  else
    let batch_schema := t_schema batch in
    let? _ := compare_fields column_name (zip (s_fields batch_schema) (s_fields target_schema)) in
    match index_of batch_schema column_name with
    | None => Err (ColumnNotFound column_name)
    | Some src_idx =>
        match s_fields target_schema !! src_idx with
        | None => Err target_not_nullable
        | Some target_field =>
            if negb (f_nullable target_field) then Err target_not_nullable
            else
              let columns := <[src_idx := new_null_array (f_type target_field) (t_rows batch)]> (t_columns batch) in
              let merged_metadata := s_metadata target_schema ∪ s_metadata batch_schema in
              let final_schema :=
                if bool_decide (s_metadata target_schema = merged_metadata) then target_schema
                else mkSchema (s_fields target_schema) merged_metadata in
              match t_try_new final_schema columns with
              | Some b => Ok b
              | None => Err SdkArrow
              end
        end
    end.

End Nullify.

(** ** Metrics

    What an import is given: the type, the name's place, and the value. *)

Record MetricCall := mkMetricCall { mc_type : N; mc_name_ptr : N; mc_name_len : N; mc_value : N }.

(** An [f64] is its bits, so the bit cast is the identity on them. *)
Definition gauge_to_bits (bits : N) : N := bits.

(** A [Duration] as its seconds and the nanoseconds below one. *)
Definition duration_to_nanos (secs nanos : N) : N :=
  match try_from u64_max (secs * 1000000000 + nanos) with Some n => n | None => u64_max end.

Definition counter (name_ptr name_len value : N) : MetricCall := mkMetricCall METRIC_TYPE_COUNTER name_ptr name_len value.
Definition gauge (name_ptr name_len bits : N) : MetricCall := mkMetricCall METRIC_TYPE_GAUGE name_ptr name_len (gauge_to_bits bits).
Definition duration (name_ptr name_len secs nanos : N) : MetricCall :=
  mkMetricCall METRIC_TYPE_DURATION name_ptr name_len (duration_to_nanos secs nanos).

(** The import as the host runs it. *)
Definition call_host (memory : option bytes) (c : MetricCall) (r : MetricRegistry) : MetricRegistry * option (MetricHandle * N) :=
  handle_host_metric_emit memory (mc_type c) (mc_name_ptr c) (mc_name_len c) (mc_value c) r.

(** ** Panics *)

Definition LOG_LEVEL_ERROR : N := 1.

Definition panic_target : bytes := text "wasm_guest::panic".

(** The record of a panic; the place of the texts is the guest's memory. *)
Definition panic_record (msg_ptr msg_len target_ptr file_ptr file_len line : N) : HostLogRecord :=
  mkLogRecord LOG_LEVEL_ERROR msg_ptr msg_len target_ptr (N.of_nat (length panic_target)) file_ptr file_len line.

(** ** The exported allocator

    The buffers forgotten by [datalake_alloc], by pointer; [place] is what
    [try_reserve_exact] answers: a pointer to a buffer of that capacity, where a
    capacity of zero gets a dangling one. *)

Abbreviation GuestHeap := (gmap N N).

Section Alloc.
Variable place : GuestHeap -> N -> option N.

Definition datalake_alloc (h : GuestHeap) (size : N) : N * GuestHeap :=
  match place h size with
  | None => (0, h)
  | Some ptr => (ptr, if size =? 0 then h else <[ptr := size]> h)
  end.

(** [from_raw_parts] and the drop behind it: undefined ([None]) for anything but
    a live buffer with its capacity. *)
Definition datalake_dealloc (h : GuestHeap) (ptr size : N) : option GuestHeap :=
  if negb (ptr =? 0) && negb (size =? 0) then
    match h !! ptr with
    | Some capacity => if capacity =? size then Some (delete ptr h) else None
    | None => None
    end
  else Some h.

End Alloc.

(** The allocator of native builds: handles that count up, and a map of them. *)
Record NativeAllocs := mkNativeAllocs { na_next_id : N; na_map : gmap N N }.

Definition native_alloc (a : NativeAllocs) (size : N) : N * NativeAllocs :=
  let id := na_next_id a in
  (id, mkNativeAllocs ((id + 1) mod 2 ^ 32) (<[id := size]> (na_map a))).

Definition native_dealloc (a : NativeAllocs) (ptr _size : N) : NativeAllocs :=
  if negb (ptr =? 0) then mkNativeAllocs (na_next_id a) (delete ptr (na_map a)) else a.

(** ** What a nullified batch is to the host *)

Section Guarded.
Context {RB Arr : Type} `{TablesLaws RB Arr}.

(** A field of the batch and the field at its place in the target schema. *)
Definition compatible (column_name : string) (f g : Field) : Prop :=
  f_name f = f_name g /\ f_type f = f_type g /\ (f_name f = column_name \/ f_nullable f = f_nullable g).

Lemma compare_fields_spec column_name fs gs :
  length fs = length gs ->
  match compare_fields column_name (zip fs gs) with
  | Ok _ => Forall2 (compatible column_name) fs gs
  | Err e => ~ Forall2 (compatible column_name) fs gs /\ e <> SdkArrow
  end.
Proof.
  intros Hl. revert gs Hl. induction fs as [|f fs IH]; intros [|g gs] Hl; try done; [constructor|]. cbn [zip zip_with compare_fields].
  unfold compare_field. injection Hl as Hl. specialize (IH gs Hl).
  assert (Hno : ~ compatible column_name f g -> ~ Forall2 (compatible column_name) (f :: fs) (g :: gs)).
  { intros Hc Hf. inversion Hf; subst. contradiction. }
  case_bool_decide as Hn; cbn [negb]; [|split; [apply Hno; intros (? & _); contradiction | done]].
  case_bool_decide as Ht; cbn [negb]; [|split; [apply Hno; intros (_ & ? & _); contradiction | done]].
  destruct (negb (bool_decide (f_name f = column_name)) && negb (Bool.eqb (f_nullable f) (f_nullable g))) eqn:E.
  - apply andb_true_iff in E as [E1 E2]. apply negb_true_iff, bool_decide_eq_false in E1. apply negb_true_iff, eqb_false_iff in E2.
    split; [apply Hno; intros (_ & _ & [?|?]); contradiction | done].
  - assert (Hc : compatible column_name f g).
    { split_and!; [done..|]. apply andb_false_iff in E as [E|E]; apply negb_false_iff in E.
      - left. by apply bool_decide_eq_true in E.
      - right. by apply eqb_prop in E. }
    destruct (compare_fields column_name (zip fs gs)) as [|e]; [by constructor|]. destruct IH as [Hn' He].
    split; [|done]. intros Hf. inversion Hf; subst. contradiction.
Qed.

(** What [nullify_column] asks of its arguments. *)
Definition nullifiable (batch : RB) (target_schema : Schema) (column_name : string) : Prop :=
  (column_name ∉ IMMUTABLE_COLUMNS) /\
  Forall2 (compatible column_name) (s_fields (t_schema batch)) (s_fields target_schema) /\
  exists i g, index_of (t_schema batch) column_name = Some i /\ s_fields target_schema !! i = Some g /\ f_nullable g = true.

(** What it makes of them. *)
Definition nullified (batch : RB) (target_schema : Schema) (i : nat) (g : Field) (b : RB) : Prop :=
  t_rows b = t_rows batch /\ s_fields (t_schema b) = s_fields target_schema /\
  s_metadata (t_schema b) = s_metadata target_schema ∪ s_metadata (t_schema batch) /\
  t_columns b = <[i := new_null_array (f_type g) (t_rows batch)]> (t_columns batch).

Lemma columns_length batch : length (s_fields (t_schema batch)) = length (t_columns batch).
Proof. apply (Forall2_length _ _ _ (table_fits batch)). Qed.

(** The new columns fit the target's fields. *)
Lemma nullified_fits batch target_schema column_name i g :
  NoDup (names (s_fields (t_schema batch))) -> index_of (t_schema batch) column_name = Some i ->
  s_fields target_schema !! i = Some g -> f_nullable g = true ->
  Forall2 (compatible column_name) (s_fields (t_schema batch)) (s_fields target_schema) ->
  Forall2 (fits (t_rows batch)) (s_fields target_schema) (<[i := new_null_array (f_type g) (t_rows batch)]> (t_columns batch)).
Proof.
  intros Hnd Hi Hg Hnull Hc. apply Forall2_same_length_lookup_2.
  { rewrite length_insert, <- columns_length. symmetry. by eapply Forall2_length. }
  intros j g' c Hj Hcol. destruct (decide (i = j)) as [<-|Hne].
  - rewrite list_lookup_insert_eq in Hcol; cycle 1.
    { rewrite <- columns_length, (Forall2_length _ _ _ Hc). by eapply lookup_lt_Some. }
    injection Hcol as <-. rewrite Hg in Hj. injection Hj as <-. split_and!; [apply null_array_type | apply null_array_len | congruence].
  - rewrite list_lookup_insert_ne in Hcol by done. destruct (Forall2_lookup_r _ _ _ _ _ Hc Hj) as (f & Hf & Hn & Ht & Hor).
    destruct (field_column _ _ _ Hf) as (c' & Hc' & Hty & Hlen & Hnn). assert (c' = c) as -> by congruence.
    split_and!; [congruence | done |]. intros Hz. apply Hnn. destruct Hor as [Hname|Hsame]; [|congruence].
    destruct (index_of_Some _ _ _ Hi) as (f' & Hf' & Hname').
    destruct Hne. eapply (NoDup_lookup _ i j column_name Hnd); unfold names; rewrite list_lookup_fmap, ?Hf, ?Hf'; cbn; congruence.
Qed.

Lemma nullify_column_spec batch target_schema column_name :
  NoDup (names (s_fields (t_schema batch))) ->
  match nullify_column batch target_schema column_name with
  | Ok b => nullifiable batch target_schema column_name /\
      exists i g, index_of (t_schema batch) column_name = Some i /\ s_fields target_schema !! i = Some g /\ f_nullable g = true /\
        nullified batch target_schema i g b
  | Err e => ~ nullifiable batch target_schema column_name /\ e <> SdkArrow
  end.
Proof.
  intros Hnd. unfold nullify_column, is_immutable_column. case_bool_decide as Him; [split; [intros (? & _); contradiction | done]|].
  destruct (Nat.eqb_spec (length (t_columns batch)) (length (s_fields target_schema))) as [Hl|Hl]; cbn [negb]; cycle 1.
  { split; [|done]. intros (_ & Hf & _). apply Forall2_length in Hf. rewrite columns_length in Hf. contradiction. }
  rewrite <- columns_length in Hl. pose proof (compare_fields_spec column_name _ _ Hl) as Hc.
  destruct (compare_fields column_name _) as [_|e]; [|split; [intros (_ & Hf & _); by destruct Hc | by destruct Hc]].
  destruct (index_of (t_schema batch) column_name) as [i|] eqn:Ei; cycle 1.
  { split; [|done]. intros (_ & _ & i & g & Hi & _). congruence. }
  destruct (index_of_Some _ _ _ Ei) as (f & Hf & _). destruct (Forall2_lookup_l _ _ _ _ _ Hc Hf) as (g & Hg & _). rewrite Hg.
  destruct (f_nullable g) eqn:Enull; cbn [negb]; cycle 1.
  { split; [|done]. intros (_ & _ & i' & g' & Hi & Hg' & Hn'). congruence. }
  set (schema := if bool_decide _ then _ else _).
  assert (Es : schema = mkSchema (s_fields target_schema) (s_metadata target_schema ∪ s_metadata (t_schema batch))).
  { unfold schema. case_bool_decide as Em; [|done]. rewrite <- Em. by destruct target_schema. }
  pose proof (nullified_fits _ _ _ _ _ Hnd Ei Hg Enull Hc) as Hfit. rewrite Es.
  assert (Hne : <[i := new_null_array (f_type g) (t_rows batch)]> (t_columns batch) <> []).
  { intros E. apply (f_equal length) in E. rewrite length_insert, <- columns_length in E. apply lookup_lt_Some in Hf. cbn in E. lia. }
  destruct (try_new_total (mkSchema (s_fields target_schema) (s_metadata target_schema ∪ s_metadata (t_schema batch))) _ (t_rows batch) Hne Hfit)
    as [b Hb]. rewrite Hb.
  split; [split_and!; [done..|by exists i, g]|]. exists i, g. split_and!; [done..|].
  destruct (try_new_ok _ _ _ Hb) as (Hs & Hcols & Hrows). unfold nullified. rewrite Hs, Hcols. split_and!; [|done..].
  destruct (Forall2_lookup_l _ _ _ _ _ Hfit Hg) as (c & Hcc & _ & Hlen & _). rewrite (Hrows c); [done | by eapply list_elem_of_lookup_2].
Qed.

Lemma compatible_names column_name fs gs : Forall2 (compatible column_name) fs gs -> names gs = names fs.
Proof. induction 1 as [|f g fs gs (Hn & _) _ IH]; [done|]. unfold names in *. cbn. by rewrite IH, Hn. Qed.

(** The lookups of a nullified batch by name. *)
Lemma nullified_index batch target_schema column_name i g b name :
  Forall2 (compatible column_name) (s_fields (t_schema batch)) (s_fields target_schema) ->
  nullified batch target_schema i g b -> index_of (t_schema b) name = index_of (t_schema batch) name.
Proof.
  intros Hc (_ & Hs & _). unfold index_of. rewrite Hs. clear Hs. induction Hc as [|f g' fs gs (Hn & _) _ IH]; [done|]. cbn [position].
  by rewrite <- Hn, IH.
Qed.

Lemma nullified_keeps batch target_schema column_name i g b name :
  Forall2 (compatible column_name) (s_fields (t_schema batch)) (s_fields target_schema) ->
  nullified batch target_schema i g b -> index_of (t_schema batch) column_name = Some i -> name <> column_name ->
  column b name = column batch name.
Proof.
  intros Hc Hb Hi Hne. unfold column. rewrite (nullified_index _ _ _ _ _ _ name Hc Hb).
  destruct (index_of (t_schema batch) name) as [j|] eqn:Ej; [|done]. destruct Hb as (_ & _ & _ & ->).
  rewrite list_lookup_insert_ne; [done|]. intros <-. destruct (index_of_Some _ _ _ Hi) as (f & Hf & Hn).
  destruct (index_of_Some _ _ _ Ej) as (f' & Hf' & Hn'). congruence.
Qed.

Lemma same_column_kept (a b : RB) name : column b name = column a name -> column_kept a b name.
Proof. unfold column_kept. intros ->. destruct (column a name) as [c|]; [|done]. split; [done|]. destruct (all_null c); tauto. Qed.

Lemma nullified_structure batch target_schema column_name i g b :
  nullifiable batch target_schema column_name -> nullified batch target_schema i g b ->
  index_of (t_schema batch) column_name = Some i -> verify_structural_immutability batch b = Ok tt.
Proof.
  intros (Him & Hc & _) Hb Hi. apply structural_immutability, Forall_forall. intros name Hin. apply same_column_kept.
  eapply nullified_keeps; [done..|]. intros ->. contradiction.
Qed.

Lemma field_of_lookup batch i f : NoDup (names (s_fields (t_schema batch))) -> s_fields (t_schema batch) !! i = Some f ->
  field batch (f_name f) = Some f.
Proof.
  intros Hnd Hf. unfold field. destruct (index_of (t_schema batch) (f_name f)) as [j|] eqn:Ej; cycle 1.
  { destruct (index_of_None _ _ Ej f); [by eapply list_elem_of_lookup_2 | done]. }
  destruct (index_of_Some _ _ _ Ej) as (f' & Hf' & Hn). assert (j = i) as ->; [|done].
  eapply (NoDup_lookup _ j i (f_name f) Hnd); unfold names; rewrite list_lookup_fmap, ?Hf, ?Hf'; cbn; congruence.
Qed.

(** The guard takes a field for mutated exactly when its nullability was relaxed. *)
Lemma nullified_mutated batch target_schema column_name i f g b :
  NoDup (names (s_fields (t_schema batch))) ->
  Forall2 (compatible column_name) (s_fields (t_schema batch)) (s_fields target_schema) ->
  nullified batch target_schema i g b -> index_of (t_schema batch) column_name = Some i ->
  s_fields (t_schema batch) !! i = Some f -> s_fields target_schema !! i = Some g -> f_nullable g = true ->
  Exists (mutated b) (s_fields (t_schema batch)) <-> f_nullable f = false.
Proof.
  intros Hnd Hc Hb Hi Hf Hg Hnull.
  assert (Hfs : s_fields (t_schema b) = s_fields target_schema) by apply Hb.
  assert (Hndb : NoDup (names (s_fields (t_schema b)))) by (rewrite Hfs, (compatible_names _ _ _ Hc); done).
  assert (Hfield : forall j f' g', s_fields (t_schema batch) !! j = Some f' -> s_fields target_schema !! j = Some g' -> field b (f_name f') = Some g').
  { intros j f' g' Hf' Hg'. destruct (Forall2_lookup_lr _ _ _ _ _ _ Hc Hf' Hg') as (-> & _). eapply field_of_lookup; [done|]. by rewrite Hfs. }
  rewrite Exists_exists. split.
  - intros (f' & Hin & g' & Hg' & Hmut). apply list_elem_of_lookup in Hin as [j Hf'].
    destruct (Forall2_lookup_l _ _ _ _ _ Hc Hf') as (g'' & Hg'' & Hn & Ht & Hor).
    rewrite (Hfield _ _ _ Hf' Hg'') in Hg'. injection Hg' as ->. destruct Hmut as [Hmut|Hmut]; [congruence|].
    destruct Hor as [Hname|Hsame]; [|congruence]. destruct (index_of_Some _ _ _ Hi) as (f0 & Hf0 & Hn0).
    assert (j = i) as -> by (eapply (NoDup_lookup _ j i column_name Hnd); unfold names; rewrite list_lookup_fmap, ?Hf', ?Hf0; cbn; congruence).
    assert (f' = f) as -> by congruence. assert (g' = g) as -> by congruence. destruct (f_nullable f); congruence.
  - intros Hz. exists f. split; [by eapply list_elem_of_lookup_2|]. exists g. split; [by eapply Hfield|]. right. congruence.
Qed.

Lemma nullified_compliance (bm tm : gmap string string) : compliance_mutated bm (tm ∪ bm) <-> compliance_mutated bm tm.
Proof.
  unfold compliance_mutated, map_Exists. split; intros (k & v & Hk & Hc & u & Hu & Hne).
  - exists k, v. apply lookup_union_Some_raw in Hk as [Hk|[_ Hk]]; [by split_and!; [done..|exists u]|]. congruence.
  - exists k, v. split; [by apply lookup_union_Some_l|]. split; [done|]. by exists u.
Qed.

Lemma nullified_refused batch target_schema column_name i f g b :
  NoDup (names (s_fields (t_schema batch))) -> nullifiable batch target_schema column_name ->
  nullified batch target_schema i g b -> index_of (t_schema batch) column_name = Some i ->
  s_fields (t_schema batch) !! i = Some f -> s_fields target_schema !! i = Some g -> f_nullable g = true ->
  refused (t_schema batch) b <-> f_nullable f = false \/ compliance_mutated (s_metadata (t_schema batch)) (s_metadata target_schema).
Proof.
  intros Hnd (_ & Hc & _) Hb Hi Hf Hg Hnull. unfold refused. pose proof (nullified_mutated _ _ _ _ _ _ _ Hnd Hc Hb Hi Hf Hg Hnull) as Hm.
  assert (Hfs : s_fields (t_schema b) = s_fields target_schema) by apply Hb.
  assert (Hmeta : s_metadata (t_schema b) = s_metadata target_schema ∪ s_metadata (t_schema batch)) by apply Hb.
  rewrite Hm, Hmeta, nullified_compliance. split; [|tauto]. intros [?|[Hadd|?]]; [tauto | | tauto].
  apply Exists_exists in Hadd as (f' & Hin & Hadd & _). rewrite Hfs in Hin. apply list_elem_of_lookup in Hin as [j Hj].
  destruct (Forall2_lookup_r _ _ _ _ _ Hc Hj) as (f0 & Hf0 & Hn & _). unfold is_added in Hadd.
  destruct (index_of_None _ _ Hadd f0); [by eapply list_elem_of_lookup_2 | done].
Qed.

(** C38 (nullified_batch_guarded). The SDK's [nullify_column] makes a batch exactly when the column is
    not protected, exists, is nullable in the target schema, and the target
    schema has the batch's names and types with no other nullability changed; it
    then empties that column, keeps every other, and merges the metadata.  What
    it makes passes the host's immutability check, and it passes the defensive
    guard exactly when the column was nullable before and the target schema does
    not contradict the compliance metadata: relaxing a column, which the SDK
    permits, is refused by the host. *)
Theorem nullified_batch_guarded (batch : RB) (target_schema : Schema) (column_name : string) :
  NoDup (names (s_fields (t_schema batch))) ->
  match nullify_column batch target_schema column_name with
  | Ok b => nullifiable batch target_schema column_name /\
      exists i f g, index_of (t_schema batch) column_name = Some i /\
        s_fields (t_schema batch) !! i = Some f /\ s_fields target_schema !! i = Some g /\ nullified batch target_schema i g b /\
        verify_structural_immutability batch b = Ok tt /\
        (is_ok (backfill_missing_columns (t_schema batch) b) = true <->
         f_nullable f = true /\ ~ compliance_mutated (s_metadata (t_schema batch)) (s_metadata target_schema))
  | Err e => ~ nullifiable batch target_schema column_name /\ e <> SdkArrow
  end.
Proof.
  intros Hnd. pose proof (nullify_column_spec batch target_schema column_name Hnd) as Hs.
  destruct (nullify_column batch target_schema column_name) as [b|e]; [|exact Hs].
  destruct Hs as (Hok & i & g & Hi & Hg & Hnull & Hb). split; [done|]. destruct (index_of_Some _ _ _ Hi) as (f & Hf & _).
  exists i, f, g. split_and!; [done..|by eapply nullified_structure|]. pose proof Hok as (_ & Hc & _).
  assert (Hndb : NoDup (names (s_fields (t_schema b)))) by (destruct Hb as (_ & -> & _); by rewrite (compatible_names _ _ _ Hc)).
  assert (Hne : s_fields (t_schema batch) <> []) by (intros E; by rewrite E in Hf).
  pose proof (nullified_refused _ _ _ _ _ _ _ Hnd Hok Hb Hi Hf Hg Hnull) as Hr.
  pose proof (backfill_missing_columns_spec (t_schema batch) b Hndb Hne) as Hg'.
  destruct (backfill_missing_columns (t_schema batch) b) as [b'|e]; cbn [is_ok].
  - destruct Hg' as [Hg' _]. rewrite Hr in Hg'. split; [intros _|done].
    split; [destruct (f_nullable f); [done | by destruct Hg'; left] | intros Hc'; apply Hg'; by right].
  - rewrite Hr in Hg'. split; [done|]. intros [Hf1 Hf2]. destruct Hg'; [congruence | tauto].
Qed.

End Guarded.

(** ** Metrics and panics in the host *)

(** The operands of an import fit the 32-bit address space the guest runs in. *)
Lemma with_guest_str_holds {R} mem_data ptr s max_len (f : bytes -> R) :
  holds_at mem_data ptr s -> from_utf8 s = Some s -> N.of_nat (length s) <= max_len ->
  with_guest_str (Some mem_data) ptr (N.of_nat (length s)) max_len f = Some (f s).
Proof.
  intros (Hu & Hin & Hs) Hv Hmax. unfold with_guest_str.
  replace (checked_add u32_max ptr (N.of_nat (length s))) with (Some (ptr + N.of_nat (length s))) by (symmetry; by apply checked_add_Some).
  destruct (N.ltb_spec (N.of_nat (length mem_data)) (ptr + N.of_nat (length s))) as [|_]; [lia|].
  rewrite N.min_l by done. replace (N.to_nat (ptr +us N.of_nat (length s))) with (N.to_nat ptr + length s)%nat; cycle 1.
  { unfold sat_add, usize_max, u64_max, u32_max in *. lia. }
  by rewrite Hs, Hv.
Qed.

(** A metric the SDK emits is recorded by the host under its name with its kind:
    a gauge by the bits of its float, a duration in nanoseconds that saturate. *)
Theorem emitted_metric_recorded (mem_data : bytes) (name : bytes) (ptr value secs nanos : N) (r : MetricRegistry) :
  holds_at mem_data ptr name -> from_utf8 name = Some name -> name <> [] -> N.of_nat (length name) <= MAX_METRIC_NAME_LEN ->
  let len := N.of_nat (length name) in
  call_host (Some mem_data) (counter ptr len value) r = record KCounter name value r /\
  call_host (Some mem_data) (gauge ptr len value) r = record KGauge name value r /\
  call_host (Some mem_data) (duration ptr len secs nanos) r = record KDuration name (N.min (secs * 1000000000 + nanos) u64_max) r.
Proof.
  intros Hh Hv Hne Hl len. unfold call_host, handle_host_metric_emit, counter, gauge, duration. cbn [mc_type mc_name_ptr mc_name_len mc_value].
  unfold len. rewrite !(with_guest_str_holds _ _ _ _ _ Hh Hv Hl), bool_decide_eq_false_2 by done. split_and!; [done..|].
  cbn. f_equal. unfold duration_to_nanos, try_from. destruct (N.leb_spec (secs * 1000000000 + nanos) u64_max); lia.
Qed.

(** A panic of a guest becomes one error event with its message and place. *)
Theorem panic_reported (mem_data : bytes) (ptr msg_ptr target_ptr file_ptr line : N) (msg file : bytes) (r : MetricRegistry) :
  let l := panic_record msg_ptr (N.of_nat (length msg)) target_ptr file_ptr (N.of_nat (length file)) line in
  Forall (fun x => x <= u32_max) (record_fields l) -> holds_at mem_data ptr (record_layout l) ->
  holds_at mem_data msg_ptr msg -> holds_at mem_data target_ptr panic_target -> holds_at mem_data file_ptr file ->
  from_utf8 msg = Some msg -> from_utf8 file = Some file ->
  N.of_nat (length msg) <= MAX_LOG_MESSAGE_LEN -> N.of_nat (length file) <= MAX_METRIC_NAME_LEN ->
  handle_structured_host_log (Some mem_data) ptr r
    = Some (mkEvent ERROR (mr_component_id r) (Some panic_target) (Some file) (Some line) msg).
Proof.
  intros l Hu Hrec Hm Ht Hf Vm Vf Lm Lf. by rewrite (log_record_understood mem_data ptr l msg panic_target file r).
Qed.

(** ** The exported allocator *)

(** What a Rust allocator answers: a pointer that is not null, and not that of a
    live buffer unless nothing is asked for. *)
Definition places (place : gmap N N -> N -> option N) : Prop :=
  forall h size ptr, place h size = Some ptr -> ptr <> 0 /\ (size <> 0 -> h !! ptr = None).

(** Whatever the host asked for, giving it back is defined and leaves the heap as
    it was, also for nothing and for a refusal. *)
Theorem alloc_given_back place h size :
  places place -> datalake_dealloc (datalake_alloc place h size).2 (datalake_alloc place h size).1 size = Some h.
Proof.
  intros Hp. unfold datalake_alloc, datalake_dealloc. destruct (place h size) as [ptr|] eqn:E; [|done]. cbn [fst snd].
  destruct (Hp _ _ _ E) as [Hnz Hfree]. destruct (N.eqb_spec ptr 0); [done|]. destruct (N.eqb_spec size 0); [done|]. cbn [negb andb].
  rewrite lookup_insert_eq, N.eqb_refl. by rewrite delete_insert_id by auto.
Qed.

(** The same of the native handles, until they wrap. *)
Theorem native_given_back a size :
  na_next_id a <> 0 -> na_map a !! na_next_id a = None ->
  na_map (native_dealloc (native_alloc a size).2 (native_alloc a size).1 size) = na_map a.
Proof.
  intros Hnz Hn. unfold native_alloc, native_dealloc. cbn [fst snd]. destruct (N.eqb_spec (na_next_id a) 0); [done|]. cbn.
  by rewrite delete_insert_id.
Qed.

Module GuestSdkDemo.
Import Guard.Demo.

Definition note (nullable : bool) : Field := mkField "note" (Scalar 3) nullable ∅.

(** Two rows, of which one has a note. *)
Definition notes (nullable : bool) : TBatch :=
  batch (mkSchema [trace_id; note nullable] ∅) [mkTArr (Scalar 1) 2 0; mkTArr (Scalar 3) 2 (if nullable then 1 else 0)].

Definition target : Schema := mkSchema [trace_id; note true] {[ "masked" := "note" ]}%string.

Definition nulls_of (r : result TBatch SdkError) : option (list N) :=
  match r with Ok b => Some (map arr_null_count (t_columns b)) | Err _ => None end.

Lemma nullified_batch_guarded_witness :
  nulls_of (nullify_column (notes true) target "note") = Some [0; 2] /\
  match nullify_column (notes true) target "note" with
  | Ok b => verify_structural_immutability (notes true) b = Ok tt
  | Err _ => False
  end.
Proof.
  split; [vm_compute; reflexivity|].
  pose proof (nullified_batch_guarded (notes true) target "note" ltac:(apply (bool_decide_unpack _); vm_compute; reflexivity)) as T.
  destruct (nullify_column (notes true) target "note") as [b|e] eqn:E; [|vm_compute in E; discriminate E].
  destruct T as (_ & i & f & g & _ & _ & _ & _ & Hv & _). exact Hv.
Defined.

(** The SDK relaxes a column the host then refuses. *)
Example relaxed_column_refused :
  match nullify_column (notes false) target "note" with
  | Ok b => verify_structural_immutability (notes false) b = Ok tt /\
      backfill_missing_columns (t_schema (notes false)) b = Err (Pipeline "Defensive schema guard violation: nullability mutated")
  | Err _ => False
  end.
Proof. vm_compute. split; reflexivity. Qed.

(** A gauge whose name is in the guest's memory. *)
Definition gauge_memory : bytes := [0; 0] ++ text "load".

Lemma emitted_metric_recorded_witness :
  call_host (Some gauge_memory) (gauge 2 4 4607182418800017408) (with_signal (text "pii") (text "logs")) =
    record KGauge (text "load") 4607182418800017408 (with_signal (text "pii") (text "logs")).
Proof.
  destruct (emitted_metric_recorded gauge_memory (text "load") 2 4607182418800017408 0 0 (with_signal (text "pii") (text "logs"))) as (_ & Hg & _).
  - split_and!; [vm_compute; discriminate | apply (bool_decide_unpack _); vm_compute; reflexivity | vm_compute; reflexivity].
  - vm_compute. reflexivity.
  - discriminate.
  - vm_compute. discriminate.
  - exact Hg.
Defined.

End GuestSdkDemo.
