(* ===== verification/Cli.v ===== *)
(** The developers' tool for guest modules: crates/wasm-cli.

    Wasmtime is the parameter the worker runs on ([Wasm]), with what the tool
    reads of a compiled module and of its linkers ([Toolbox]); a guest that runs
    out of fuel is a call that fails.  Errors of [anyhow] are fixed texts.  The
    floating-point throughput, the clock and the printed tables are not
    modelled. *)

From S2P Require Import Prelude Text Signal Guard Engine Worker HostCalls.
Local Open Scope N_scope.

(** ** Modules and linkers *)

Inductive ValType : Type := I32 | I64 | OtherVal.

Global Instance ValType_eq_dec : EqDecision ValType.
Proof. solve_decision. Defined.

Inductive ExternType : Type :=
| FuncOf (params results : list ValType)
| MemoryOf
| OtherExtern.

Global Instance ExternType_eq_dec : EqDecision ExternType.
Proof. solve_decision. Defined.

Record Import := mkImport { im_module : string; im_name : string; im_type : ExternType }.

Global Instance Import_eq_dec : EqDecision Import.
Proof. solve_decision. Defined.

Definition func (module name : string) (params results : list ValType) : Import := mkImport module name (FuncOf params results).

(** The functions of [build_host_linker] beside WASI, with their types. *)
Definition host_functions : list Import :=
  [ func "datalake_host_v1" "datalake_host_metric_emit" [I32; I32; I32; I64] [];
    func "datalake_host_v1" "datalake_host_log" [I32] [];
    func "datalake_host_v1" "datalake_host_has_capability" [I32; I32] [I32];
    func "datalake_host_v1" "datalake_host_now_nanos" [] [I64];
    func "env" "datalake_host_metric_emit" [I32; I32; I32; I64] [];
    func "env" "datalake_host_log" [I32; I32; I32] [];
    func "env" "datalake_host_has_capability" [I32; I32] [I32];
    func "env" "datalake_host_now_nanos" [] [I64] ]%string.

(** Those of [build_cli_linker]. *)
Definition cli_functions : list Import :=
  [ func "env" "datalake_host_metric_emit" [I32; I32; I32; I64] [];
    func "env" "datalake_host_log" [I32; I32; I32] [];
    func "env" "datalake_host_has_capability" [I32; I32] [I32];
    func "env" "datalake_host_now_nanos" [] [I64] ]%string.

Class Toolbox (M G : Type) := {
  engine_starts : bool;
  compile_module : bytes -> option M;
  module_exports : M -> list (string * ExternType);
  module_imports : M -> list Import;
  (** [Linker::instantiate], of WASI and these functions, in a store with that fuel. *)
  link : list Import -> N -> M -> option G;
}.

Definition parse_signal_type (signal : bytes) : N :=
  if eq_ignore_ascii_case signal (text "metrics") then 1
  else if eq_ignore_ascii_case signal (text "traces") then 2
  else 0.

(** ** Validation *)

Inductive ValidationError : Type :=
| InvalidWasm
| VMissingExport (name : string)
| InvalidExportKind (name expected found : string)
| InvalidSignature (name expected : string)
| InstantiationFailed
| AbiFunctionMissing
| AbiTrap
| AbiMismatch (expected got : N)
| EngineInit.

Definition REQUIRED_EXPORTS : list string :=
  ["datalake_abi_version"; "datalake_alloc"; "datalake_dealloc"; "datalake_transform"; "memory"]%string.

(** The signature of each function of the interface, with its text. *)
Definition signature_of (name : string) : option (list ValType * list ValType * string) :=
  if bool_decide (name = "datalake_abi_version"%string) then Some ([], [I32], "() -> i32"%string)
  else if bool_decide (name = "datalake_alloc"%string) then Some ([I32], [I32], "(i32) -> i32"%string)
  else if bool_decide (name = "datalake_dealloc"%string) then Some ([I32; I32], [], "(i32, i32) -> ()"%string)
  else if bool_decide (name = "datalake_transform"%string) then Some ([I32; I32; I32], [I64], "(i32, i32, i32) -> i64"%string)
  else if bool_decide (name = "datalake_init"%string) then Some ([I32; I32], [I32], "(i32, i32) -> i32"%string)
  else None.

Fixpoint check_required (exports : list (string * ExternType)) (required : list string) : result unit ValidationError :=
  match required with
  | [] => Ok tt
  | name :: required =>
      if existsb (fun e => bool_decide (e.1 = name)) exports then check_required exports required
      else Err (VMissingExport name)
  end.

Definition check_export (name : string) (ty : ExternType) : result unit ValidationError :=
  if bool_decide (name = "memory"%string) then
    match ty with MemoryOf => Ok tt | _ => Err (InvalidExportKind name "memory" "non-memory") end
  else
    match signature_of name with
    | None => Ok tt
    | Some (params, results, expected) =>
        match ty with
        | FuncOf ps rs =>
            if bool_decide (ps = params) && bool_decide (rs = results) then Ok tt else Err (InvalidSignature name expected)
        | _ => Err (InvalidExportKind name "function" "non-function")
        end
    end.

Fixpoint check_exports (exports : list (string * ExternType)) : result unit ValidationError :=
  match exports with
  | [] => Ok tt
  | (name, ty) :: exports => let? _ := check_export name ty in check_exports exports
  end.

Section Tool.
Context {RB Arr M G J : Type} `{Tables RB Arr} `{Wasm M G} `{Codec RB J} `{Toolbox M G}.

Definition check_abi_version (g : G) : result unit ValidationError :=
  if negb (exports_abi_version g) then Err AbiFunctionMissing
  else
    match (call_abi_version g).2 with
    | Err _ => Err AbiTrap
    | Ok version => if version =? ABI_VERSION then Ok tt else Err (AbiMismatch ABI_VERSION version)
    end.

Definition validate_wasm_bytes (bs : bytes) : result unit ValidationError :=
  if negb engine_starts then Err EngineInit
  else
    match compile_module bs with
    | None => Err InvalidWasm
    | Some module =>
        let? _ := check_required (module_exports module) REQUIRED_EXPORTS in
        let? _ := check_exports (module_exports module) in
        match link cli_functions 100000 module with
        | None => Err InstantiationFailed
        | Some g => check_abi_version g
        end
    end.

(** ** The conformance suite *)

Inductive TesterError : Type := ValueMismatch (name : string) | MissingColumn (name : string).

Inductive ToolError : Type := Anyhow (msg : string) | Violated (e : TesterError).

(** Values of arrays compare, and literals make them. *)
Class Literals := {
  same_array : Arr -> Arr -> bool;
  Utf8 : DataType;
  Int64 : DataType;
  utf8_array : list (option bytes) -> Arr;
  int64_array : list Z -> Arr;
}.
Context `{Literals}.
(** [serde_json::from_str]. *)
Variable parse_json : bytes -> option J.

Definition synthetic_schema : Schema :=
  mkSchema [mkField "trace_id" Utf8 false ∅; mkField "span_id" Utf8 false ∅; mkField "timestamp" Int64 false ∅;
            mkField "observed_timestamp" Int64 false ∅; mkField "name" Utf8 false ∅; mkField "type" Utf8 false ∅;
            mkField "attributes" Utf8 true ∅]%string ∅.

Definition quote : N := 34.

(** The JSON of the attributes. *)
Definition synthetic_attributes : bytes :=
  text "{" ++ [quote] ++ text "service.name" ++ [quote] ++ text ":" ++ [quote] ++ text "auth-svc" ++ [quote] ++ text "," ++
  [quote] ++ text "http.status" ++ [quote] ++ text ":200}".

Definition create_synthetic_batch : result RB ToolError :=
  match t_try_new synthetic_schema
    [utf8_array [Some (text "0123456789abcdef0123456789abcdef")]; utf8_array [Some (text "0123456789abcdef")];
     int64_array [1700000000000000000%Z]; int64_array [1700000000001000000%Z];
     utf8_array [Some (text "HTTP GET /api/v1/resource")]; utf8_array [Some (text "span")];
     utf8_array [Some synthetic_attributes]] with
  | Some b => Ok b
  | None => Err (Anyhow "arrow")
  end.

Definition serialize_batch_to_ipc (batch : RB) : result bytes ToolError :=
  ok_or (ipc_serialize batch) (Anyhow "Failed to write RecordBatch to Arrow IPC stream").

(** One turn of the loop over the immutable columns. *)
Definition verify_column (input output : RB) (col_name : string) : result unit TesterError :=
  match index_of (t_schema input) col_name, index_of (t_schema output) col_name with
  | Some i_idx, Some o_idx =>
      match t_columns input !! i_idx, t_columns output !! o_idx with
      | Some in_col, Some out_col => if same_array in_col out_col then Ok tt else Err (ValueMismatch col_name)
      | _, _ => Err (ValueMismatch col_name)
      end
  | Some _, None => Err (MissingColumn col_name)
  | None, _ => Ok tt
  end.

Fixpoint verify_columns (input output : RB) (cols : list string) : result unit TesterError :=
  match cols with
  | [] => Ok tt
  | c :: cols => let? _ := verify_column input output c in verify_columns input output cols
  end.

Definition verify_batch_immutability (input output : RB) : result unit TesterError :=
  verify_columns input output IMMUTABLE_COLUMNS.

(** A call whose failure ends the run. *)
Definition calling {A} (out : G * result A CallError) (msg : string) : result (G * A) ToolError :=
  match out with (g, Ok a) => Ok (g, a) | (_, Err _) => Err (Anyhow msg) end.

(** Room in the guest for these bytes, with the bytes in it. *)
Definition hand_over (g : G) (bs : bytes) : result (G * N * N) ToolError :=
  let? len := ok_or (try_from u32_max (N.of_nat (length bs))) (Anyhow "payload size exceeds u32 limit") in
  let? (g, ptr) := calling (call_alloc g len) "datalake_alloc failed" in
  if ptr =? 0 then Err (Anyhow "datalake_alloc returned null pointer")
  else
    let? g := ok_or (mem_write g ptr bs) (Anyhow "Failed to write payload to guest memory") in
    Ok (g, ptr, len).

(** The module is compiled and instantiated again, with its own fuel. *)
Definition prepare_instance (bs : bytes) (fuel : N) : result G ToolError :=
  if negb engine_starts then Err (Anyhow "Failed to initialize wasmtime engine")
  else
    let? module := ok_or (compile_module bs) (Anyhow "Failed to compile WebAssembly module") in
    let? g := ok_or (link cli_functions fuel module) (Anyhow "Failed to instantiate WebAssembly module") in
    if negb (exports_alloc g) then Err (Anyhow "Missing 'datalake_alloc' export")
    else if negb (exports_dealloc g) then Err (Anyhow "Missing 'datalake_dealloc' export")
    else if negb (exports_memory g) then Err (Anyhow "Missing 'memory' export")
    else Ok g.

(** [datalake_init], of a guest that exports it, with the signal, no
    environment and the configuration. *)
Definition run_init (g : G) (signal : bytes) (config : J) : result G ToolError :=
  if negb (exports_init g) then Ok g
  else
    let? init_bytes := ok_or (init_json signal ∅ (Some config)) (Anyhow "Failed to serialize init payload") in
    let? (g, init_ptr, init_len) := hand_over g init_bytes in
    let? (g, status) := calling (call_init g init_ptr init_len) "datalake_init trapped during initialization" in
    let g := (call_dealloc g init_ptr init_len).1 in
    if negb (status =? 0)%Z then Err (Anyhow "datalake_init returned non-zero status code") else Ok g.

(** The guest with the synthetic batch in its memory. *)
Definition provide_input (g : G) : result (G * RB * N * N) ToolError :=
  let? input_batch := create_synthetic_batch in
  let? ipc_bytes := serialize_batch_to_ipc input_batch in
  let? (g, ipc_ptr, ipc_len) := hand_over g ipc_bytes in
  Ok (g, input_batch, ipc_ptr, ipc_len).

(** [datalake_transform] with its packed answer, in bounds. *)
Definition transform (g : G) (signal_type ipc_ptr ipc_len : N) : result (G * N * N) ToolError :=
  let? (g, packed) := calling (call_transform_v1 g signal_type ipc_ptr ipc_len) "datalake_transform execution trapped or failed" in
  let header_ptr := N.shiftr packed 32 in
  let header_len := N.land packed 4294967295 in
  if header_ptr =? 0 then Err (Anyhow "datalake_transform returned a null pointer for response header")
  else if header_len <? 20 then Err (Anyhow "datalake_transform returned header length < 20")
  else if data_size g <? header_ptr +us header_len then Err (Anyhow "Transform response header out of guest memory bounds")
  else Ok (g, header_ptr, header_len).

Definition read_header (g : G) (header_ptr : N) : result ParsedHeader ToolError :=
  match mem_read g header_ptr 20 with
  | None => Err (Anyhow "Failed to read TransformResponseHeader from guest memory")
  | Some b => Ok (mkParsedHeader (u32_at 0 b) (u32_at 4 b) (u32_at 8 b) (u32_at 12 b) (u32_at 16 b))
  end.

(** A message in bounds. *)
Definition has_message (h : ParsedHeader) (mem_size : N) : bool :=
  negb (ph_message_ptr h =? 0) && (0 <? ph_message_len h) && (ph_message_ptr h +us ph_message_len h <=? mem_size).

(** The batches of one stream against the input; those verified so far. *)
Fixpoint verify_stream (input : RB) (verified : list RB) (items : list (option RB)) : result (list RB) ToolError :=
  match items with
  | [] => Ok verified
  | None :: _ => Err (Anyhow "Failed to read output RecordBatch from IPC stream")
  | Some out_batch :: items =>
      match verify_batch_immutability input out_batch with
      | Err e => Err (Violated e)
      | Ok _ => verify_stream input (verified ++ [out_batch]) items
      end
  end.

(** The descriptors from the [i]-th on, [n] of them. *)
Fixpoint verify_loop (g : G) (input : RB) (batches_ptr mem_size ipc_ptr : N) (n : nat) (i : N) (verified : list RB)
  : result (G * list RB) ToolError :=
  match n with
  | O => Ok (g, verified)
  | S n =>
      let offset := batches_ptr +us i * 8 in
      let? desc := ok_or (mem_read g offset 8) (Anyhow "Failed to read BatchDescriptor") in
      let b_ptr := u32_at 0 desc in
      let b_len := u32_at 4 desc in
      if (b_ptr =? 0) || (b_len =? 0) then Err (Anyhow "BatchDescriptor contains null or empty pointer")
      else if mem_size <? b_ptr +us b_len then Err (Anyhow "Batch IPC buffer exceeds guest memory bounds")
      else
        let? out_ipc_bytes := ok_or (mem_read g b_ptr b_len) (Anyhow "Failed to read batch IPC bytes") in
        let g := if negb (b_ptr =? ipc_ptr) then (call_dealloc g b_ptr b_len).1 else g in
        let? reader := ok_or (ipc_open out_ipc_bytes) (Anyhow "Failed to initialize Arrow StreamReader on output batch") in
        let? verified := verify_stream input verified reader in
        verify_loop g input batches_ptr mem_size ipc_ptr n (i + 1) verified
  end.

(** The answer of the transform, once its header is read. *)
Definition verify_response (g : G) (input : RB) (ipc_ptr mem_size : N) (h : ParsedHeader) : result (G * list RB) ToolError :=
  if negb (ph_status h =? 0) then Err (Anyhow "Transform failed with status")
  else if ph_batch_count h =? 0 then Err (Anyhow "Transform returned 0 output batches; unable to verify immutability")
  else if mem_size <? ph_batches_ptr h +us (ph_batch_count h * 8) then Err (Anyhow "Batch descriptor array exceeds guest memory bounds")
  else verify_loop g input (ph_batches_ptr h) mem_size ipc_ptr (N.to_nat (ph_batch_count h)) 0 [].

(** The buffers given back at the end. *)
Definition clean_up (g : G) (h : ParsedHeader) (mem_size header_ptr header_len ipc_ptr ipc_len : N) : G :=
  let g := if has_message h mem_size then (call_dealloc g (ph_message_ptr h) (ph_message_len h)).1 else g in
  let g := if (0 <? ph_batch_count h) && negb (ph_batches_ptr h =? 0)
           then (call_dealloc g (ph_batches_ptr h) (sat_mul u32_max (ph_batch_count h) 8)).1 else g in
  let g := (call_dealloc g header_ptr header_len).1 in
  (call_dealloc g ipc_ptr ipc_len).1.

Definition is_v1 (kind : option TransformKind) : bool := match kind with Some V1 => true | _ => false end.

(** The batches that were verified, of which the tool prints the number. *)
Definition run_immutability_suite (bs signal config_json : bytes) : result (list RB) ToolError :=
  match validate_wasm_bytes bs with
  | Err _ => Err (Anyhow "Module validation failed")
  | Ok _ =>
      let? parsed_config := ok_or (parse_json config_json) (Anyhow "Invalid JSON provided for --config") in
      let? g := prepare_instance bs 1000000 in
      let? g := run_init g signal parsed_config in
      let? (g, input_batch, ipc_ptr, ipc_len) := provide_input g in
      if negb (is_v1 (exports_transform g)) then Err (Anyhow "Module must implement ABI v1 datalake_transform signature")
      else
        let? (g, header_ptr, header_len) := transform g (parse_signal_type signal) ipc_ptr ipc_len in
        let mem_size := data_size g in
        let? h := read_header g header_ptr in
        let? (g, verified) := verify_response g input_batch ipc_ptr mem_size h in
        let g := clean_up g h mem_size header_ptr header_len ipc_ptr ipc_len in
        Ok verified
  end.

(** ** The benchmark *)

Record BenchResult := mkBenchResult {
  iterations : N; payload_bytes : N; total_bytes : N; elapsed : N; avg_latency : N; allocated_memory_bytes : N }.

(** Ten million units of fuel per turn, and no less than a hundred million. *)
Definition bench_fuel (iters : N) : N := N.max (sat_mul u64_max (N.max iters 1) 10000000) 100000000.

(** The buffers of a descriptor table, but for the input's. *)
Fixpoint free_batches (g : G) (ipc_ptr : N) (table : bytes) (n : nat) (i : nat) : G :=
  match n with
  | O => g
  | S n =>
      let b_ptr := u32_at (8 * i) table in
      let b_len := u32_at (8 * i + 4) table in
      let g := if negb (b_ptr =? 0) && (0 <? b_len) && negb (b_ptr =? ipc_ptr) then (call_dealloc g b_ptr b_len).1 else g in
      free_batches g ipc_ptr table n (S i)
  end.

(** What a turn gives back of the guest's answer. *)
Definition free_response (g : G) (h : ParsedHeader) (header_ptr header_len ipc_ptr : N) : G :=
  let mem_size := data_size g in
  let g := if has_message h mem_size then (call_dealloc g (ph_message_ptr h) (ph_message_len h)).1 else g in
  let desc_table_len := ph_batch_count h * 8 in
  let g :=
    if (0 <? ph_batch_count h) && negb (ph_batches_ptr h =? 0) && (ph_batches_ptr h +us desc_table_len <=? mem_size) then
      let g :=
        match mem_read g (ph_batches_ptr h) desc_table_len with
        | Some table => free_batches g ipc_ptr table (N.to_nat (ph_batch_count h)) 0
        | None => g
        end in
      (call_dealloc g (ph_batches_ptr h) (sat_mul u32_max (ph_batch_count h) 8)).1
    else g in
  (call_dealloc g header_ptr header_len).1.

Fixpoint bench_loop (g : G) (signal_type ipc_ptr ipc_len : N) (turns : nat) : result G ToolError :=
  match turns with
  | O => Ok g
  | S turns =>
      let? (g, header_ptr, header_len) := transform g signal_type ipc_ptr ipc_len in
      let? h := read_header g header_ptr in
      if negb (ph_status h =? 0) then Err (Anyhow "datalake_transform returned non-zero status during benchmark")
      else bench_loop (free_response g h header_ptr header_len ipc_ptr) signal_type ipc_ptr ipc_len turns
  end.

(** [took] is what the clock measures, in nanoseconds. *)
Definition run_benchmark (bs : bytes) (iters : N) (signal config_json : bytes) (took : N) : result BenchResult ToolError :=
  match validate_wasm_bytes bs with
  | Err _ => Err (Anyhow "Module validation failed")
  | Ok _ =>
      let? parsed_config := ok_or (parse_json config_json) (Anyhow "Invalid JSON provided for --config") in
      let? g := prepare_instance bs (bench_fuel iters) in
      let? g := run_init g signal parsed_config in
      let? (g, input_batch, ipc_ptr, ipc_len) := provide_input g in
      if negb (is_v1 (exports_transform g)) then Err (Anyhow "Module must implement ABI v1 datalake_transform signature")
      else
        let? g := bench_loop g (parse_signal_type signal) ipc_ptr ipc_len (N.to_nat iters) in
        let g := (call_dealloc g ipc_ptr ipc_len).1 in
        let avg := if 0 <? iters then took / N.min iters u32_max else 0 in
        Ok (mkBenchResult iters ipc_len (sat_mul usize_max ipc_len iters) took avg (data_size g))
  end.

(** ** The command line *)

Inductive Commands : Type :=
| Validate (path : bytes)
| TestCommand (path signal config : bytes)
| Bench (path signal config : bytes).

Definition default_signal : bytes := text "unknown".
Definition default_config : bytes := text "{}".

(** The exit of the tool; [read] gives the files, [took] the clock's measure. *)
Definition main (read : bytes -> option bytes) (took : N) (cli : Commands) : bool :=
  match cli with
  | Validate path => match read path with Some bs => is_ok (validate_wasm_bytes bs) | None => false end
  | TestCommand path signal config =>
      match read path with Some bs => is_ok (run_immutability_suite bs signal config) | None => false end
  | Bench path signal config =>
      match read path with Some bs => is_ok (run_benchmark bs 10000 signal config took) | None => false end
  end.

End Tool.

(** ** What Wasmtime promises of them *)

(** An instance runs one module, which its calls do not change; a typed function
    is there when the module exports it with that type; a module links when its
    imports are WASI's or the linker's. *)
Class ToolboxLaws (M G : Type) `{Wasm M G} `{Toolbox M G} := {
  instance_of : G -> M;
  link_instance : forall l fuel m g, link l fuel m = Some g -> instance_of g = m;
  instantiate_instance : forall k ticks m g, instantiate k ticks m = Some g -> instance_of g = m;
  call_abi_instance : forall g, instance_of (call_abi_version g).1 = instance_of g;
  abi_version_typed : forall g, ("datalake_abi_version"%string, FuncOf [] [I32]) ∈ module_exports (instance_of g) -> exports_abi_version g = true;
  alloc_typed : forall g, ("datalake_alloc"%string, FuncOf [I32] [I32]) ∈ module_exports (instance_of g) -> exports_alloc g = true;
  dealloc_typed : forall g, ("datalake_dealloc"%string, FuncOf [I32; I32] []) ∈ module_exports (instance_of g) -> exports_dealloc g = true;
  transform_typed : forall g, ("datalake_transform"%string, FuncOf [I32; I32; I32] [I64]) ∈ module_exports (instance_of g) ->
    exports_transform g = Some V1;
  memory_typed : forall g, ("memory"%string, MemoryOf) ∈ module_exports (instance_of g) -> exports_memory g = true;
  link_imports : forall l fuel m g, link l fuel m = Some g ->
    Forall (fun i => im_module i = "wasi_snapshot_preview1"%string \/ i ∈ l) (module_imports m);
}.

(** Equal arrays agree in what the host's guard looks at. *)
Class LiteralsLaws (Arr RB : Type) `{Tables RB Arr} `{!Literals (Arr := Arr)} := {
  same_array_alike : forall c d, same_array c d = true -> arr_type d = arr_type c /\ arr_len d = arr_len c /\ arr_null_count d = arr_null_count c;
}.

(** The functions of the tool's linker are the host's, under the same names with
    the same types; the host has another four. *)
Lemma cli_functions_host : Forall (fun i => i ∈ host_functions) cli_functions.
Proof. apply (bool_decide_unpack _). vm_compute. reflexivity. Qed.

Section Validation.
Context {M G : Type} `{Wm : Wasm M G} `{Tb : !Toolbox M G}.

(** What the interface asks of an export of this name. *)
Definition export_ok (e : string * ExternType) : Prop :=
  (e.1 = "memory"%string -> e.2 = MemoryOf) /\
  (e.1 <> "memory"%string -> forall params results expected, signature_of e.1 = Some (params, results, expected) -> e.2 = FuncOf params results).

Lemma check_required_ok exports required :
  check_required exports required = Ok tt <-> forall name, name ∈ required -> exists ty, (name, ty) ∈ exports.
Proof.
  induction required as [|r required IH]; cbn [check_required].
  { split; [|done]. intros _ name Hin. by apply not_elem_of_nil in Hin. }
  destruct (existsb (fun e => bool_decide (e.1 = r)) exports) eqn:Ee.
  - apply existsb_exists in Ee as ([n ty] & Hin & He). apply bool_decide_eq_true in He. cbn in He. subst n. rewrite IH. split.
    + intros Hall name Hn. apply elem_of_cons in Hn as [->|Hn]; [|by apply Hall]. exists ty. by apply list_elem_of_In.
    + intros Hall name Hn. apply Hall. by right.
  - split; [done|]. intros Hall. destruct (Hall r) as [ty Hty]; [by left|]. exfalso.
    assert (existsb (fun e => bool_decide (e.1 = r)) exports = true); [|congruence].
    apply existsb_exists. exists (r, ty). split; [by apply list_elem_of_In | by apply bool_decide_eq_true].
Qed.

Lemma check_export_ok name ty : check_export name ty = Ok tt <-> export_ok (name, ty).
Proof.
  unfold check_export, export_ok. cbn [fst snd]. case_bool_decide as Hm.
  - split; [|intros [Hy _]; by rewrite (Hy Hm)]. by destruct ty.
  - destruct (signature_of name) as [[[params results] expected]|]; cycle 1.
    { split; [intros _; split; [contradiction | done] | done]. }
    destruct ty as [ps rs| |]; cycle 1.
    { split; [done|]. intros [_ Hy]. by specialize (Hy Hm _ _ _ eq_refl). }
    { split; [done|]. intros [_ Hy]. by specialize (Hy Hm _ _ _ eq_refl). }
    case_bool_decide as Hp; [case_bool_decide as Hr|]; cbn [andb].
    + subst. split; [|done]. intros _. split; [contradiction|]. intros _ ? ? ? [= <- <- _]. done.
    + split; [done|]. intros [_ Hy]. specialize (Hy Hm _ _ _ eq_refl). congruence.
    + split; [done|]. intros [_ Hy]. specialize (Hy Hm _ _ _ eq_refl). congruence.
Qed.

Lemma check_exports_ok exports : check_exports exports = Ok tt <-> Forall export_ok exports.
Proof.
  induction exports as [|[name ty] exports IH]; cbn [check_exports]; [by split|].
  rewrite Forall_cons, <- IH, <- check_export_ok. destruct (check_export name ty) as [[]|e]; naive_solver.
Qed.

(** A module is valid exactly when it compiles, exports what the interface
    requires, every export of an interface name has its type, it links with the
    tool's functions, and its instance answers with the version. *)
Lemma validate_ok bs :
  validate_wasm_bytes bs = Ok tt <->
  engine_starts = true /\ exists m g, compile_module bs = Some m /\
    (forall name, name ∈ REQUIRED_EXPORTS -> exists ty, (name, ty) ∈ module_exports m) /\ Forall export_ok (module_exports m) /\
    link cli_functions 100000 m = Some g /\ exports_abi_version g = true /\ (call_abi_version g).2 = Ok ABI_VERSION.
Proof.
  unfold validate_wasm_bytes, check_abi_version. destruct engine_starts; cbn [negb]; [|by split; [|intros [? _]]].
  destruct (compile_module bs) as [m|]; [|by split; [|intros (_ & m & g & ? & _)]].
  pose proof (check_required_ok (module_exports m) REQUIRED_EXPORTS) as Hr.
  pose proof (check_exports_ok (module_exports m)) as Hx.
  destruct (check_required _ _) as [[]|e]; cycle 1.
  { split; [done|]. intros (_ & m' & g & [= <-] & Hreq & _). by apply Hr in Hreq. }
  destruct (check_exports _) as [[]|e]; cycle 1.
  { split; [done|]. intros (_ & m' & g & [= <-] & _ & Hok & _). by apply Hx in Hok. }
  destruct (link cli_functions 100000 m) as [g|] eqn:El; cycle 1.
  { split; [done|]. intros (_ & m' & g & [= <-] & _ & _ & Hg & _). congruence. }
  transitivity (exports_abi_version g = true /\ (call_abi_version g).2 = Ok ABI_VERSION).
  - destruct (exports_abi_version g); cbn [negb]; [|by split; [|intros [? _]]].
    destruct ((call_abi_version g).2) as [v|ce]; [|by split; [|intros [_ ?]]].
    destruct (N.eqb_spec v ABI_VERSION) as [->|Hn]; [done|]. split; [done|]. intros [_ [= ?]]. contradiction.
  - split.
    + intros [Ha Hv]. split; [done|]. exists m, g. split_and!; try done; [by apply Hr | by apply Hx].
    + intros (_ & m' & g' & [= <-] & _ & _ & Hg & Ha & Hv). rewrite El in Hg. by injection Hg as <-.
Qed.

(** An export the module must have, at its type. *)
Lemma required_typed m name params results expected :
  (forall name, name ∈ REQUIRED_EXPORTS -> exists ty, (name, ty) ∈ module_exports m) -> Forall export_ok (module_exports m) ->
  name ∈ REQUIRED_EXPORTS -> name <> "memory"%string -> signature_of name = Some (params, results, expected) ->
  (name, FuncOf params results) ∈ module_exports m.
Proof.
  intros Hreq Hok Hin Hne Hs. destruct (Hreq name Hin) as [ty Hty]. rewrite Forall_forall in Hok.
  destruct (Hok _ Hty) as [_ Hf]. cbn in Hf. by rewrite (Hf Hne _ _ _ Hs) in Hty.
Qed.

End Validation.

Section Suite.
Context {RB Arr M G J : Type} `{TablesLaws RB Arr} `{Wm : Wasm M G} `{Cd : Codec RB J} `{Tb : !Toolbox M G}.
Context `{Lt : !Literals (Arr := Arr)} `{!LiteralsLaws Arr RB} `{!ToolboxLaws M G}.
Variable parse_json : bytes -> option J.

(** ** The check of a batch *)

(** A protected column the input has is in the output, with the same values. *)
Definition unchanged (input output : RB) (name : string) : Prop :=
  match column input name with
  | None => True
  | Some i => exists o, column output name = Some o /\ same_array i o = true
  end.

Lemma verify_column_ok input output name : verify_column input output name = Ok tt <-> unchanged input output name.
Proof.
  unfold verify_column, unchanged. destruct (index_of (t_schema input) name) as [i|] eqn:Ei; cycle 1.
  { by rewrite (column_None _ _ Ei). }
  destruct (index_of_column _ _ _ Ei) as (ci & -> & ->). destruct (index_of (t_schema output) name) as [o|] eqn:Eo; cycle 1.
  { rewrite (column_None _ _ Eo). split; [done|]. by intros (o & ? & _). }
  destruct (index_of_column _ _ _ Eo) as (co & -> & ->). destruct (same_array ci co) eqn:E; split; try done.
  - intros _. by exists co.
  - intros (o' & [= <-] & ?). congruence.
Qed.

Lemma verify_columns_ok input output cols : verify_columns input output cols = Ok tt <-> Forall (unchanged input output) cols.
Proof.
  induction cols as [|c cols IH]; cbn [verify_columns]; [by split|]. rewrite Forall_cons, <- IH, <- verify_column_ok.
  destruct (verify_column input output c) as [[]|e]; [tauto|]. split; [done|]. by intros [? _].
Qed.

(** The tool is stricter than the host. *)
Lemma unchanged_kept input output name : unchanged input output name -> column_kept input output name.
Proof.
  unfold unchanged, column_kept. destruct (column input name) as [i|]; [|done]. intros (o & -> & Hs).
  destruct (same_array_alike _ _ Hs) as (Ht & Hl & Hn). split; [done|]. unfold all_null. rewrite Hl, Hn.
  destruct (arr_null_count i =? arr_len i); tauto.
Qed.

Lemma verified_passes_host input output :
  verify_batch_immutability input output = Ok tt -> verify_structural_immutability input output = Ok tt.
Proof.
  intros Hv. apply verify_columns_ok in Hv. apply structural_immutability. eapply Forall_impl; [exact Hv | apply unchanged_kept].
Qed.

(** ** What passes *)

Definition passes (input output : RB) : Prop := verify_batch_immutability input output = Ok tt.

Lemma verify_stream_ok input verified items verified' :
  verify_stream input verified items = Ok verified' -> Forall (passes input) verified -> Forall (passes input) verified'.
Proof.
  revert verified. induction items as [|[out|] items IH]; intros verified Hv Hp; cbn [verify_stream] in Hv; [by injection Hv as <- | | done].
  destruct (verify_batch_immutability input out) as [[]|e] eqn:E; [|done]. apply (IH _ Hv). apply Forall_app. by split; [|constructor].
Qed.

Lemma verify_loop_ok g input batches_ptr mem_size ipc_ptr n i verified g' verified' :
  verify_loop g input batches_ptr mem_size ipc_ptr n i verified = Ok (g', verified') ->
  Forall (passes input) verified -> Forall (passes input) verified'.
Proof.
  revert g i verified. induction n as [|n IH]; intros g i verified Hv Hp; cbn [verify_loop] in Hv; [by injection Hv as _ <-|].
  destruct (mem_read g (batches_ptr +us i * 8) 8) as [desc|]; [|done]. cbn [ok_or] in Hv.
  destruct (_ || _); [done|]. destruct (mem_size <? _); [done|].
  destruct (mem_read g _ _) as [out|]; [|done]. cbn [ok_or] in Hv. destruct (ipc_open out) as [reader|]; [|done]. cbn [ok_or] in Hv.
  destruct (verify_stream input verified reader) as [v|e] eqn:Es; [|done]. eapply IH; [exact Hv|]. by eapply verify_stream_ok.
Qed.

Lemma suite_verified bs signal config verified :
  run_immutability_suite parse_json bs signal config = Ok verified ->
  validate_wasm_bytes bs = Ok tt /\ exists input, create_synthetic_batch = Ok input /\ Forall (passes input) verified.
Proof.
  unfold run_immutability_suite. destruct (validate_wasm_bytes bs) as [[]|e]; [|done]. intros Hr. split; [done|].
  destruct (ok_or (parse_json config) _) as [cfg|]; [|done]. destruct (prepare_instance bs 1000000) as [g|]; [|done].
  destruct (run_init g signal cfg) as [g1|]; [|done]. unfold provide_input in Hr.
  destruct create_synthetic_batch as [input|]; [|done]. exists input. split; [done|].
  destruct (serialize_batch_to_ipc input) as [ipc|]; [|done]. destruct (hand_over g1 ipc) as [[[g2 p] l]|]; [|done].
  destruct (negb _); [done|]. destruct (transform g2 _ p l) as [[[g3 hp] hl]|]; [|done].
  destruct (read_header g3 hp) as [h|]; [|done]. unfold verify_response in Hr.
  destruct (negb (ph_status h =? 0)); [done|]. destruct (ph_batch_count h =? 0); [done|]. destruct (_ <? _); [done|].
  destruct (verify_loop _ _ _ _ _ _ _ _) as [[g4 v]|] eqn:El; [|done]. injection Hr as <-.
  by eapply verify_loop_ok.
Qed.

(** ** A valid module in the host *)

Lemma valid_exports m :
  (forall name, name ∈ REQUIRED_EXPORTS -> exists ty, (name, ty) ∈ module_exports m) -> Forall export_ok (module_exports m) ->
  forall g, instance_of g = m ->
  exports_abi_version g = true /\ exports_alloc g = true /\ exports_dealloc g = true /\ exports_transform g = Some V1 /\
  exports_memory g = true.
Proof.
  intros Hreq Hok g Hg.
  assert (Ht : forall n ps rs ex, n ∈ REQUIRED_EXPORTS -> n <> "memory"%string -> signature_of n = Some (ps, rs, ex) ->
    (n, FuncOf ps rs) ∈ module_exports (instance_of g)).
  { intros n ps rs ex. rewrite Hg. by apply required_typed. }
  split_and!.
  - apply abi_version_typed. eapply Ht; [by apply (bool_decide_unpack _) | done | reflexivity].
  - apply alloc_typed. eapply Ht; [by apply (bool_decide_unpack _) | done | reflexivity].
  - apply dealloc_typed. eapply Ht; [by apply (bool_decide_unpack _) | done | reflexivity].
  - apply transform_typed. eapply Ht; [by apply (bool_decide_unpack _) | done | reflexivity].
  - apply memory_typed. rewrite Hg. destruct (Hreq "memory"%string) as [ty Hty]; [by apply (bool_decide_unpack _)|].
    rewrite Forall_forall in Hok. destruct (Hok _ Hty) as [Hm _]. cbn in Hm. by rewrite (Hm eq_refl) in Hty.
Qed.

Lemma init_guest_error (config : WasmTransformerConfig J) g e name : init_guest config g = Err e -> e <> MissingExport name.
Proof.
  unfold init_guest. destruct (exports_init g); cbn [negb]; [|done]. destruct (init_json _ _ _) as [bs|]; [|congruence].
  destruct (try_from _ _) as [len|]; [|congruence]. destruct (call_alloc g len) as [g1 [ptr|]]; [|congruence].
  destruct (ptr =? 0); [congruence|]. destruct (mem_write g1 ptr bs) as [g2|]; [|congruence].
  destruct (call_init g2 ptr len) as [g3 [st|]]; [|congruence]. destruct (call_dealloc g3 ptr len) as [g4 r].
  destruct (negb _); congruence.
Qed.

Lemma valid_module_instantiates m attempt (config : WasmTransformerConfig J) name :
  (forall name, name ∈ REQUIRED_EXPORTS -> exists ty, (name, ty) ∈ module_exports m) -> Forall export_ok (module_exports m) ->
  instantiate_guest attempt m config <> Err (MissingExport name).
Proof.
  intros Hreq Hok. unfold instantiate_guest. destruct (instantiate attempt _ m) as [g|] eqn:Ei; [|congruence].
  apply instantiate_instance in Ei. destruct (valid_exports m Hreq Hok g Ei) as (-> & _). cbn [negb].
  pose proof (call_abi_instance g) as Hc. destruct (call_abi_version g) as [g' [v|]]; [|congruence]. cbn [fst] in Hc. rewrite Ei in Hc.
  destruct (negb _); [congruence|]. destruct (valid_exports m Hreq Hok g' Hc) as (_ & -> & -> & -> & ->). cbn [negb].
  destruct (init_guest config g') as [g2|e] eqn:Eg; [congruence|]. intros [= ->]. by eapply init_guest_error.
Qed.

(** C39 (suite_agrees_with_host). A guest module that passes the tool's suite is one the host can run:
    its imports are WASI's or among the functions the host links, with their
    types, its start is never refused for a missing or mistyped export, whatever
    the configuration, and every batch the suite verified has each protected
    column of the input unchanged, so that it passes the host's structural check
    as well. *)
Theorem suite_agrees_with_host (bs signal config_json : bytes) (verified : list RB) :
  run_immutability_suite parse_json bs signal config_json = Ok verified ->
  exists m input, compile_module bs = Some m /\ create_synthetic_batch = Ok input /\
    Forall (fun i => im_module i = "wasi_snapshot_preview1"%string \/ i ∈ host_functions) (module_imports m) /\
    (forall attempt (config : WasmTransformerConfig J) name, instantiate_guest attempt m config <> Err (MissingExport name)) /\
    Forall (fun out => Forall (unchanged input out) IMMUTABLE_COLUMNS /\ verify_structural_immutability input out = Ok tt) verified.
Proof.
  intros Hr. apply suite_verified in Hr as (Hv & input & Hin & Hp). apply validate_ok in Hv as (_ & m & g & Hm & Hreq & Hok & Hl & _).
  exists m, input. split_and!; [done..| | |].
  - eapply Forall_impl; [exact (link_imports _ _ _ _ Hl)|]. intros i [Hi|Hi]; [by left|]. right.
    pose proof cli_functions_host as Hc. rewrite Forall_forall in Hc. by apply Hc.
  - intros attempt config name. by apply valid_module_instantiates.
  - eapply Forall_impl; [exact Hp|]. intros out Ho. split; [by apply verify_columns_ok | by apply verified_passes_host].
Qed.

(** Not the other way round: a guest that calls the host as the SDK does imports
    [datalake_host_v1], which the tool does not link, so the tool refuses it. *)
Theorem sdk_imports_refused (bs : bytes) (m : M) (i : Import) :
  compile_module bs = Some m -> i ∈ module_imports m -> im_module i = "datalake_host_v1"%string ->
  validate_wasm_bytes bs <> Ok tt.
Proof.
  intros Hm Hi Hmod Hv. apply validate_ok in Hv as (_ & m' & g & Hm' & _ & _ & Hl & _). assert (m' = m) as -> by congruence.
  pose proof (link_imports _ _ _ _ Hl) as Hf. rewrite Forall_forall in Hf. destruct (Hf i Hi) as [Hw|Hc]; [congruence|].
  assert (Hn : Forall (fun i => im_module i <> "datalake_host_v1"%string) cli_functions) by (apply (bool_decide_unpack _); vm_compute; reflexivity).
  rewrite Forall_forall in Hn. by apply (Hn i Hc).
Qed.

End Suite.

(** ** A concrete guest *)

Module CliDemo.
Import Guard.Demo.

(** Module 1 echoes the input, module 2 answers with a stream without a batch,
    module 3 imports a function of the SDK. *)
Record CGuest := mkCGuest { cg_module : N; cg_mem : bytes }.

(** The header at 32, one descriptor at 64, its stream at 80. *)
Definition cg_memory (m : N) : bytes :=
  replicate 32 0 ++ (le_bytes 4 0 ++ le_bytes 4 1 ++ le_bytes 4 64 ++ le_bytes 4 0 ++ le_bytes 4 0) ++ replicate 12 0 ++
  (le_bytes 4 80 ++ le_bytes 4 2) ++ replicate 8 0 ++ [m; m] ++ replicate 46 0.

Definition start (m : N) : option CGuest := if (0 <? m) && (m <? 4) then Some (mkCGuest m (cg_memory m)) else None.

#[local] Instance cli_wasm : Wasm N CGuest := {|
  mem := cg_mem;
  mem_write g off bs :=
    if (N.to_nat off + length bs <=? length (cg_mem g))%nat
    then Some (mkCGuest (cg_module g) (copy_at (N.to_nat off) bs (cg_mem g))) else None;
  set_epoch_deadline _ g := g;
  set_phase _ g := g;
  instantiate _ _ m := start m;
  exports_abi_version _ := true;
  exports_alloc _ := true;
  exports_dealloc _ := true;
  exports_transform _ := Some V1;
  exports_memory _ := true;
  exports_init _ := true;
  call_abi_version g := (g, Ok 1);
  call_init g _ _ := (g, Ok 0%Z);
  call_alloc g _ := (g, Ok 100);
  call_dealloc g _ _ := (g, Ok tt);
  call_transform_v1 g _ _ _ := (g, Ok (32 * 2 ^ 32 + 20));
  call_transform_legacy g _ _ := (g, Ok 32);
|}.

Definition interface_exports : list (string * ExternType) :=
  [("memory", MemoryOf); ("datalake_abi_version", FuncOf [] [I32]); ("datalake_alloc", FuncOf [I32] [I32]);
   ("datalake_dealloc", FuncOf [I32; I32] []); ("datalake_transform", FuncOf [I32; I32; I32] [I64]);
   ("datalake_init", FuncOf [I32; I32] [I32])]%string.

Definition imports_of (m : N) : list Import :=
  if m =? 3 then [func "datalake_host_v1" "datalake_host_metric_emit" [I32; I32; I32; I64] []]%string
  else [func "env" "datalake_host_now_nanos" [] [I64]]%string.

#[local] Instance cli_toolbox : Toolbox N CGuest := {|
  engine_starts := true;
  compile_module bs := match bs with [m] => Some m | _ => None end;
  module_exports _ := interface_exports;
  module_imports := imports_of;
  link l _ m := if bool_decide (Forall (fun i => i ∈ l) (imports_of m)) then start m else None;
|}.

Lemma start_module m g : start m = Some g -> cg_module g = m.
Proof. unfold start. destruct (_ && _); [|done]. by intros [= <-]. Qed.

#[local] Instance cli_toolbox_laws : ToolboxLaws N CGuest.
Proof.
  unshelve esplit; [exact cg_module|..]; try done.
  - intros l fuel m g. cbn. case_bool_decide; [apply start_module | done].
  - intros k t m g. apply start_module.
  - intros l fuel m g. cbn. case_bool_decide as Hl; [|done]. intros _. eapply Forall_impl; [exact Hl|]. intros i Hi. by right.
Qed.

#[local] Instance cli_literals : Literals (Arr := TArr) := {|
  same_array c d := bool_decide (ta_type c = ta_type d) && (ta_len c =? ta_len d) && (ta_nulls c =? ta_nulls d);
  Utf8 := Scalar 1;
  Int64 := Scalar 2;
  utf8_array vs := mkTArr (Scalar 1) (N.of_nat (length vs)) (N.of_nat (length (List.filter (fun v => bool_decide (v = None)) vs)));
  int64_array vs := mkTArr (Scalar 2) (N.of_nat (length vs)) 0;
|}.

#[local] Instance cli_literals_laws : LiteralsLaws TArr TBatch.
Proof.
  split. intros c d. cbn. case_bool_decide as Ht; [|done].
  destruct (N.eqb_spec (ta_len c) (ta_len d)) as [Hl|]; [|done]. destruct (N.eqb_spec (ta_nulls c) (ta_nulls d)) as [Hn|]; [|done].
  intros _. by rewrite Ht, Hl, Hn.
Qed.

Definition synthetic : TBatch :=
  match create_synthetic_batch (RB := TBatch) with Ok b => b | Err _ => original end.

(** A stream of ones is the synthetic batch, one of twos is empty. *)
#[local] Instance cli_codec : Codec TBatch unit := {|
  ipc_serialize _ := Some [1; 1];
  ipc_open s := match s with 1 :: _ => Some [Some synthetic] | 2 :: _ => Some [] | _ => None end;
  init_json _ _ _ := Some [123; 125];
  ambient_env _ := None;
|}.

Definition parse (bs : bytes) : option unit := if bool_decide (bs = default_config) then Some tt else None.

Lemma suite_agrees_with_host_witness :
  run_immutability_suite parse [1] (text "logs") default_config = Ok [synthetic] /\
  verify_structural_immutability synthetic synthetic = Ok tt.
Proof.
  assert (E : run_immutability_suite parse [1] (text "logs") default_config = Ok [synthetic]) by (vm_compute; reflexivity).
  split; [exact E|]. destruct (suite_agrees_with_host parse [1] (text "logs") default_config [synthetic] E)
    as (m & input & _ & Hin & _ & _ & Hp).
  assert (Hi : input = synthetic) by (vm_compute in Hin; injection Hin as <-; vm_compute; reflexivity).
  subst input. apply Forall_cons in Hp as [[_ Hp] _]. exact Hp.
Defined.

(** The suite passes a guest that returned no batch, after it refused one that
    says so. *)
Example empty_stream_passes : run_immutability_suite parse [2] (text "logs") default_config = Ok [].
Proof. vm_compute. reflexivity. Qed.

(** The host links a guest of the SDK, the tool does not. *)
Example sdk_guest_refused :
  validate_wasm_bytes [3] = Err InstantiationFailed /\ Forall (fun i => i ∈ host_functions) (module_imports 3).
Proof. split; [vm_compute; reflexivity | apply (bool_decide_unpack _); vm_compute; reflexivity]. Qed.

End CliDemo.
