(* ===== verification/Dispatcher.v ===== *)
(** The dispatcher and the worker tasks: crates/wasm-transformer/src/dispatcher.rs.

    A worker's channel is a bounded queue that its task empties and may close;
    [evolve] is what the tasks do to the channels while the dispatcher is
    suspended in one of its awaits.  A worker task is the sequence of batches it
    receives; the outcome of every send it makes is an oracle. *)

From S2P Require Import Prelude Text Signal Guard Engine Worker.
Local Open Scope N_scope.

(** ** Channels *)

Section Channels.
Context {B : Type}.

(** [ch_received] is what the task has taken out. *)
Record Channel := mkChannel { ch_queue : list B; ch_received : list B; ch_capacity : nat; ch_closed : bool }.

#[export] Instance Channel_eta : RecordEta Channel := fun c =>
  mkChannel (ch_queue c) (ch_received c) (ch_capacity c) (ch_closed c).

Inductive TrySend : Type := Sent (c : Channel) | Full | Closed.

(** [mpsc::Sender::try_send]. *)
Definition try_send (b : B) (c : Channel) : TrySend :=
  if ch_closed c then Closed
  else if (length (ch_queue c) <? ch_capacity c)%nat then Sent (c <| ch_queue := ch_queue c ++ [b] |>)
  else Full.

(** The tasks, during the [t]-th await. *)
Variable evolve : nat -> list Channel -> list Channel.

(** [mpsc::Sender::send]: resumes when the channel has room or is closed. *)
Definition send (t i : nat) (b : B) (chans : list Channel) : list Channel * bool :=
  let chans := evolve t chans in
  match chans !! i with
  | None => (chans, false)
  | Some c => match try_send b c with Sent c => (<[i:=c]> chans, true) | _ => (chans, false) end
  end.

(** One pass of [try_send] over the given workers: the first that takes the
    batch, or the first that was full. *)
Fixpoint try_pass (b : B) (idxs : list nat) (chans : list Channel) (first_full : option nat) : list Channel * option nat * option nat :=
  match idxs with
  | [] => (chans, None, first_full)
  | i :: idxs =>
      match chans !! i with
      | None => try_pass b idxs chans first_full
      | Some c =>
          match try_send b c with
          | Sent c => (<[i:=c]> chans, Some i, first_full)
          | Full => try_pass b idxs chans (match first_full with None => Some i | Some f => Some f end)
          | Closed => try_pass b idxs chans first_full
          end
      end
  end.

(** The workers from [start] on, [from] being 0 or 1. *)
Definition ring_from (start from concurrency : nat) : list nat :=
  map (fun offset => ((start + offset) mod concurrency)%nat) (seq from (concurrency - from)).

(** [dispatch_batch]; the state is the channels, the next worker and the number
    of awaits so far. *)
Definition dispatch_batch (b : B) (chans : list Channel) (next_worker t concurrency : nat) : list Channel * nat * nat * bool :=
  let after i := (S i mod concurrency)%nat in
  match try_pass b (ring_from next_worker 0 concurrency) chans None with
  | (chans, Some i, _) => (chans, after i, t, true)
  | (chans, None, None) => (chans, next_worker, t, false)
  | (chans, None, Some full_idx) =>
      match send t full_idx b chans with
      | (chans, true) => (chans, after full_idx, S t, true)
      | (chans, false) =>
          match try_pass b (ring_from full_idx 1 concurrency) chans None with
          | (chans, Some i, _) => (chans, after i, S t, true)
          | (chans, None, None) => (chans, next_worker, S t, false)
          | (chans, None, Some survivor_idx) =>
              match send (S t) survivor_idx b chans with
              | (chans, true) => (chans, after survivor_idx, S (S t), true)
              | (chans, false) => (chans, next_worker, S (S t), false)
              end
          end
      end
  end.

(** The receive loop of [run]; the batches left unread, when it aborts. *)
Fixpoint dispatch_loop (input : list B) (chans : list Channel) (next_worker t concurrency : nat)
  : list Channel * result unit (B * list B) :=
  match input with
  | [] => (chans, Ok tt)
  | b :: input =>
      match dispatch_batch b chans next_worker t concurrency with
      | (chans, next_worker, t, true) => dispatch_loop input chans next_worker t concurrency
      | (chans, _, _, false) => (chans, Err (b, input))
      end
  end.

(** [WasmDispatcher::run]: the initialisation results, then the loop; an empty
    [Err] is the dispatcher that never started. *)
Definition run (concurrency capacity : nat) (inits : nat -> bool) (input : list B) : list Channel * result unit (option (B * list B)) :=
  let concurrency := Nat.max concurrency 1 in
  let cap := Nat.max capacity 1 in
  let chans := map (fun worker_id => mkChannel [] [] cap (negb (inits worker_id))) (seq 0 concurrency) in
  if forallb (fun worker_id => negb (inits worker_id)) (seq 0 concurrency) then (chans, Err None)
  else
    let '(chans, r) := dispatch_loop input chans 0 0 concurrency in
    (chans, map_err Some r).

(** ** Every batch in exactly one channel *)

(** What a channel was given. *)
Definition accepted (c : Channel) : list B := ch_received c ++ ch_queue c.

Definition all_accepted (chans : list Channel) : list B := concat (map accepted chans).

Definition channel_ok (c : Channel) : Prop := (length (ch_queue c) <= ch_capacity c)%nat.

(** A task only takes batches from the front, and closes. *)
Definition progressed (c c' : Channel) : Prop :=
  accepted c' = accepted c /\ ch_capacity c' = ch_capacity c /\ (length (ch_queue c') <= length (ch_queue c))%nat /\
  (ch_closed c = true -> ch_closed c' = true).

Hypothesis evolve_progress : forall t chans, Forall2 progressed chans (evolve t chans).

Lemma all_accepted_progress chans chans' : Forall2 progressed chans chans' -> all_accepted chans' = all_accepted chans.
Proof.
  unfold all_accepted. induction 1 as [|c c' chans chans' Hc Hcs IH]; [done|]. cbn [map concat].
  destruct Hc as (-> & _). by rewrite IH.
Qed.

Lemma ok_progress chans chans' : Forall2 progressed chans chans' -> Forall channel_ok chans -> Forall channel_ok chans'.
Proof.
  induction 1 as [|c c' chans chans' (_ & Hcap & Hlen & _) Hcs IH]; intros Hok; [done|].
  inversion_clear Hok. constructor; [unfold channel_ok in *; lia | by apply IH].
Qed.

Lemma try_send_Sent b c c' : try_send b c = Sent c' -> accepted c' = accepted c ++ [b] /\ channel_ok c' /\ ch_closed c = false.
Proof.
  unfold try_send, accepted, channel_ok. destruct (ch_closed c); [done|]. destruct (Nat.ltb_spec (length (ch_queue c)) (ch_capacity c)); [|done].
  intros Hs. injection Hs as <-. cbn. rewrite app_assoc, length_app. cbn. split_and!; [done | lia | done].
Qed.

Lemma insert_accepted b (chans : list Channel) i c c' :
  chans !! i = Some c -> accepted c' = accepted c ++ [b] -> all_accepted (<[i:=c']> chans) ≡ₚ b :: all_accepted chans.
Proof.
  intros Hi Ha. unfold all_accepted. rewrite <- (take_drop_middle chans i c Hi) at 2. rewrite insert_take_drop by (by eapply lookup_lt_Some).
  rewrite !map_app, !concat_app. cbn [map concat]. rewrite Ha. solve_Permutation.
Qed.

(** The batch went to one channel, or nowhere. *)
Definition delivered (b : B) (chans chans' : list Channel) (ok : bool) : Prop :=
  all_accepted chans' ≡ₚ (if ok then [b] else []) ++ all_accepted chans /\ Forall channel_ok chans' /\ length chans' = length chans.

Lemma try_pass_delivered b idxs chans ff :
  Forall channel_ok chans ->
  let '(chans', sent, _) := try_pass b idxs chans ff in delivered b chans chans' (match sent with Some _ => true | None => false end).
Proof.
  intros Hok. revert ff. induction idxs as [|i idxs IH]; intros ff; cbn [try_pass]; [by split_and!|].
  destruct (chans !! i) as [c|] eqn:Ei; [|apply IH]. destruct (try_send b c) as [c'| |] eqn:Es; [|apply IH..].
  apply try_send_Sent in Es as (Ha & Hc & _). split_and!; [by eapply insert_accepted | by apply Forall_insert | apply length_insert].
Qed.

Lemma send_delivered t i b chans : Forall channel_ok chans -> let '(chans', ok) := send t i b chans in delivered b chans chans' ok.
Proof.
  intros Hok. unfold send. pose proof (evolve_progress t chans) as Hp.
  pose proof (all_accepted_progress _ _ Hp) as Ha. pose proof (ok_progress _ _ Hp Hok) as Hok'. pose proof (Forall2_length _ _ _ Hp) as Hl.
  set (chans' := evolve t chans) in *. unfold delivered. rewrite <- Ha.
  destruct (chans' !! i) as [c|] eqn:Ei; [|by split_and!].
  destruct (try_send b c) as [c'| |] eqn:Es; [|by split_and!..].
  apply try_send_Sent in Es as (Hac & Hc & _). split_and!; [by eapply insert_accepted | by apply Forall_insert | by rewrite length_insert].
Qed.

Lemma delivered_trans b chans chans' chans'' ok :
  delivered b chans chans' false -> delivered b chans' chans'' ok -> delivered b chans chans'' ok.
Proof. intros (H1 & _ & L1) (H2 & O2 & L2). split_and!; [by rewrite H2, H1 | done | congruence]. Qed.

Lemma dispatch_batch_delivered b chans next t n :
  Forall channel_ok chans -> let '(chans', _, _, ok) := dispatch_batch b chans next t n in delivered b chans chans' ok.
Proof.
  intros Hok. unfold dispatch_batch.
  pose proof (try_pass_delivered b (ring_from next 0 n) chans None Hok) as H1. destruct (try_pass _ _ _ _) as [[c1 [i|]] [f|]]; try done.
  pose proof (send_delivered t f b c1 ltac:(apply H1)) as H2. destruct (send t f b c1) as [c2 [|]]; [by eapply delivered_trans|].
  pose proof (delivered_trans _ _ _ _ _ H1 H2) as H12.
  pose proof (try_pass_delivered b (ring_from f 1 n) c2 None ltac:(apply H12)) as H3.
  destruct (try_pass _ _ _ _) as [[c3 [i|]] [f'|]]; try (by eapply delivered_trans).
  pose proof (delivered_trans _ _ _ _ _ H12 H3) as H13.
  pose proof (send_delivered (S t) f' b c3 ltac:(apply H13)) as H4. destruct (send (S t) f' b c3) as [c4 [|]]; by eapply delivered_trans.
Qed.

(** A channel whose task never ran takes nothing. *)
Definition shut (i : nat) (chans : list Channel) : Prop := exists c, chans !! i = Some c /\ ch_closed c = true /\ accepted c = [].

Lemma shut_insert i j c c' (chans : list Channel) : chans !! j = Some c -> ch_closed c = false -> shut i chans -> shut i (<[j:=c']> chans).
Proof.
  intros Hj Hc (d & Hd & Hcl & Ha). exists d. split; [|done]. rewrite list_lookup_insert_ne; [done|]. intros ->. congruence.
Qed.

Lemma try_pass_shut i b idxs chans ff : shut i chans -> shut i (try_pass b idxs chans ff).1.1.
Proof.
  intros Hs. revert ff. induction idxs as [|j idxs IH]; intros ff; cbn [try_pass]; [done|].
  destruct (chans !! j) as [c|] eqn:Ej; [|apply IH]. destruct (try_send b c) as [c'| |] eqn:Es; [|apply IH..].
  apply try_send_Sent in Es as (_ & _ & Hc). by eapply shut_insert.
Qed.

Lemma send_shut i t j b chans : shut i chans -> shut i (send t j b chans).1.
Proof.
  intros (c & Hc & Hcl & Ha). unfold send. pose proof (evolve_progress t chans) as Hp.
  destruct (Forall2_lookup_l _ _ _ _ _ Hp Hc) as (d & Hd & Had & _ & _ & Hkeep).
  assert (Hs : shut i (evolve t chans)) by (exists d; rewrite Had; split_and!; [done | by apply Hkeep | done]).
  destruct (evolve t chans !! j) as [e|] eqn:Ej; [|done]. destruct (try_send b e) as [e'| |] eqn:Es; [|done..].
  apply try_send_Sent in Es as (_ & _ & He). by eapply shut_insert.
Qed.

Lemma dispatch_batch_shut i b chans next t n : shut i chans -> shut i (dispatch_batch b chans next t n).1.1.1.
Proof.
  intros Hs. unfold dispatch_batch. pose proof (try_pass_shut i b (ring_from next 0 n) chans None Hs) as H1.
  destruct (try_pass _ _ _ _) as [[c1 [w|]] [f|]]; try done. cbn [fst] in H1.
  pose proof (send_shut i t f b c1 H1) as H2. destruct (send t f b c1) as [c2 [|]]; [done|]. cbn [fst] in H2.
  pose proof (try_pass_shut i b (ring_from f 1 n) c2 None H2) as H3. destruct (try_pass _ _ _ _) as [[c3 [w|]] [f'|]]; try done.
  cbn [fst] in H3. pose proof (send_shut i (S t) f' b c3 H3) as H4. by destruct (send (S t) f' b c3) as [c4 [|]].
Qed.

Lemma dispatch_loop_shut i input chans next t n : shut i chans -> shut i (dispatch_loop input chans next t n).1.
Proof.
  revert chans next t. induction input as [|b input IH]; intros chans next t Hs; cbn [dispatch_loop]; [done|].
  pose proof (dispatch_batch_shut i b chans next t n Hs) as Hd. destruct (dispatch_batch b chans next t n) as [[[chans' next'] t'] [|]]; [by apply IH | done].
Qed.

Lemma run_started concurrency capacity inits input :
  (run concurrency capacity inits input).2 = Err None <->
  forallb (fun worker_id => negb (inits worker_id)) (seq 0 (Nat.max concurrency 1)) = true.
Proof.
  unfold run. destruct (forallb _ _); [done|]. destruct (dispatch_loop _ _ _ _ _) as [chans [[]|[b unread]]]; by split.
Qed.

Lemma dispatch_loop_length input chans next t n : Forall channel_ok chans -> length (dispatch_loop input chans next t n).1 = length chans.
Proof.
  revert chans next t. induction input as [|b input IH]; intros chans next t Hok; cbn [dispatch_loop]; [done|].
  pose proof (dispatch_batch_delivered b chans next t n Hok) as Hd.
  destruct (dispatch_batch b chans next t n) as [[[chans' next'] t'] [|]]; destruct Hd as (_ & Hok' & <-); [by apply IH | done].
Qed.

Lemma run_length concurrency capacity inits input : length (run concurrency capacity inits input).1 = Nat.max concurrency 1.
Proof.
  unfold run. set (chans := map _ _).
  assert (Hl : length chans = Nat.max concurrency 1) by (unfold chans; by rewrite length_map, length_seq).
  assert (Hok : Forall channel_ok chans) by (apply Forall_map, Forall_true; intros worker_id; unfold channel_ok; cbn; lia).
  destruct (forallb _ _); [done|]. pose proof (dispatch_loop_length input chans 0 0 (Nat.max concurrency 1) Hok) as Hd.
  destruct (dispatch_loop _ _ _ _ _). cbn [fst] in *. congruence.
Qed.

Lemma run_shut concurrency capacity inits input i :
  (i < Nat.max concurrency 1)%nat -> inits i = false -> shut i (run concurrency capacity inits input).1.
Proof.
  intros Hi Hf. unfold run. set (chans := map _ _).
  assert (Hs : shut i chans).
  { exists (mkChannel [] [] (Nat.max capacity 1) true). split; [|done]. unfold chans.
    rewrite list_lookup_fmap, lookup_seq_lt by done. cbn. by rewrite Hf. }
  destruct (forallb _ _); [done|]. pose proof (dispatch_loop_shut i input chans 0 0 (Nat.max concurrency 1) Hs) as Hd.
  by destruct (dispatch_loop _ _ _ _ _).
Qed.

(** Whatever the workers do meanwhile, the dispatcher
    hands every batch it reads to exactly one worker channel, in which it never
    exceeds the capacity; when it stops early, every batch read before was handed
    over once, the one it gave up on is in no channel, and the rest were not
    read. *)
Theorem dispatch_exactly_once (concurrency capacity : nat) (inits : nat -> bool) (input : list B) :
  let '(chans, r) := run concurrency capacity inits input in
  Forall channel_ok chans /\
  match r with
  | Ok _ => all_accepted chans ≡ₚ input
  | Err (Some (b, unread)) => exists sent, input = sent ++ b :: unread /\ all_accepted chans ≡ₚ sent
  | Err None => all_accepted chans = []
  end.
Proof.
  assert (Hloop : forall input chans next t n, Forall channel_ok chans ->
    let '(chans', r) := dispatch_loop input chans next t n in
    Forall channel_ok chans' /\
    match r with
    | Ok _ => all_accepted chans' ≡ₚ input ++ all_accepted chans
    | Err (b, unread) => exists sent, input = sent ++ b :: unread /\ all_accepted chans' ≡ₚ sent ++ all_accepted chans
    end).
  { clear input. intros input. induction input as [|b input IH]; intros chans next t n Hok; cbn [dispatch_loop]; [by split|].
    pose proof (dispatch_batch_delivered b chans next t n Hok) as Hd.
    destruct (dispatch_batch b chans next t n) as [[[chans' next'] t'] [|]]; destruct Hd as (Ha & Hok' & _).
    - specialize (IH chans' next' t' n Hok'). destruct (dispatch_loop input chans' next' t' n) as [chans'' [[]|[b' unread]]].
      + destruct IH as [Ho IH]. split; [done|]. rewrite IH, Ha. solve_Permutation.
      + destruct IH as (Ho & sent & -> & IH). split; [done|]. exists (b :: sent). split; [done|]. rewrite IH, Ha. solve_Permutation.
    - split; [done|]. exists []. by split. }
  unfold run. set (n := Nat.max concurrency 1). set (chans := map _ _).
  assert (Hok : Forall channel_ok chans) by (apply Forall_map, Forall_true; intros worker_id; unfold channel_ok; cbn; lia).
  assert (Hempty : all_accepted chans = []).
  { unfold all_accepted, chans. clear. induction (seq 0 n) as [|i l IH]; [done | exact IH]. }
  destruct (forallb _ _); [by split|]. specialize (Hloop input chans 0%nat 0%nat n Hok).
  destruct (dispatch_loop _ _ _ _ _) as [chans' [[]|[b unread]]]; cbn [map_err].
  - destruct Hloop as [Ho Hl]. split; [done|]. by rewrite Hl, Hempty, app_nil_r.
  - destruct Hloop as (Ho & sent & -> & Hl). split; [done|]. exists sent. by rewrite Hl, Hempty, app_nil_r.
Qed.

(** ** Which worker *)

(** An open channel with room. *)
Definition accepts (chans : list Channel) (i : nat) : bool :=
  match chans !! i with Some c => negb (ch_closed c) && (length (ch_queue c) <? ch_capacity c)%nat | None => false end.

Definition open (chans : list Channel) (i : nat) : bool :=
  match chans !! i with Some c => negb (ch_closed c) | None => false end.

Definition enqueued (b : B) (chans : list Channel) (i : nat) : list Channel :=
  match chans !! i with Some c => <[i:=c <| ch_queue := ch_queue c ++ [b] |>]> chans | None => chans end.

Lemma try_pass_spec b idxs chans ff :
  match List.find (accepts chans) idxs with
  | Some i => (try_pass b idxs chans ff).1 = (enqueued b chans i, Some i)
  | None => try_pass b idxs chans ff = (chans, None, match ff with Some f => Some f | None => List.find (open chans) idxs end)
  end.
Proof.
  revert ff. induction idxs as [|i idxs IH]; intros ff; cbn [try_pass List.find]; [by destruct ff|].
  unfold accepts at 1, open at 1, try_send. destruct (chans !! i) as [c|] eqn:Ei; [|apply IH].
  destruct (ch_closed c) eqn:Ec; cbn [negb andb]; [apply IH|].
  destruct (length (ch_queue c) <? ch_capacity c)%nat.
  - cbn [fst]. unfold enqueued. by rewrite Ei.
  - specialize (IH (match ff with None => Some i | Some f => Some f end)). destruct (List.find (accepts chans) idxs); [done|].
    rewrite IH. by destruct ff.
Qed.

(** One dispatch tries the workers in ring order from the one
    after the last choice: the first open channel with room takes the batch at
    once, without waiting; when every channel is closed the dispatcher gives up;
    and only when the open ones are all full does it wait, for the first of
    them. *)
Theorem dispatch_choice (b : B) (chans : list Channel) (next_worker t concurrency : nat) :
  let order := ring_from next_worker 0 concurrency in
  match List.find (accepts chans) order with
  | Some i => dispatch_batch b chans next_worker t concurrency = (enqueued b chans i, (S i mod concurrency)%nat, t, true)
  | None =>
      match List.find (open chans) order with
      | None => dispatch_batch b chans next_worker t concurrency = (chans, next_worker, t, false)
      | Some f =>
          forall chans', send t f b chans = (chans', true) ->
          dispatch_batch b chans next_worker t concurrency = (chans', (S f mod concurrency)%nat, S t, true)
      end
  end.
Proof.
  cbv zeta. pose proof (try_pass_spec b (ring_from next_worker 0 concurrency) chans None) as Hp. unfold dispatch_batch.
  destruct (List.find (accepts chans) _) as [i|].
  - destruct (try_pass _ _ _ _) as [[c s] f]. cbn [fst] in Hp. by injection Hp as -> ->.
  - rewrite Hp. destruct (List.find (open chans) _) as [f|]; [|done]. by intros chans' ->.
Qed.

Lemma ring_covers next n i : (i < n)%nat -> i ∈ ring_from next 0 n.
Proof.
  intros Hi. unfold ring_from. apply list_elem_of_In, in_map_iff.
  exists ((n + i - next mod n) mod n)%nat. pose proof (Nat.mod_upper_bound next n ltac:(lia)).
  split; [|apply in_seq; pose proof (Nat.mod_upper_bound (n + i - next mod n) n ltac:(lia)); lia].
  rewrite Nat.Div0.add_mod_idemp_r, <- Nat.Div0.add_mod_idemp_l.
  replace (next mod n + (n + i - next mod n))%nat with (i + 1 * n)%nat by lia.
  rewrite Nat.Div0.mod_add. by apply Nat.mod_small.
Qed.

(** A batch is given up on only if no worker could take it at once. *)
Lemma given_up_full b chans next t n :
  (dispatch_batch b chans next t n).2 = false -> forall i, (i < n)%nat -> accepts chans i = false.
Proof.
  unfold dispatch_batch. intros Hd i Hi. pose proof (try_pass_spec b (ring_from next 0 n) chans None) as Hp.
  destruct (List.find (accepts chans) (ring_from next 0 n)) as [j|] eqn:Ef.
  - destruct (try_pass _ _ _ _) as [[c o] f]. cbn [fst] in Hp. by injection Hp as -> ->.
  - eapply List.find_none; [exact Ef|]. by apply list_elem_of_In, ring_covers.
Qed.

Lemma dispatch_loop_gives_up input chans next t n chans' b unread :
  Forall channel_ok chans -> dispatch_loop input chans next t n = (chans', Err (b, unread)) ->
  exists sent before, input = sent ++ b :: unread /\ all_accepted before ≡ₚ sent ++ all_accepted chans /\
    all_accepted chans' ≡ₚ all_accepted before /\ length before = length chans /\ forall i, (i < n)%nat -> accepts before i = false.
Proof.
  revert chans next t. induction input as [|x input IH]; intros chans next t Hok; cbn [dispatch_loop]; [done|].
  pose proof (dispatch_batch_delivered x chans next t n Hok) as Hd. pose proof (given_up_full x chans next t n) as Hg.
  destruct (dispatch_batch x chans next t n) as [[[c1 next1] t1] [|]]; destruct Hd as (Ha & Hok1 & Hl); intros E.
  - destruct (IH _ _ _ Hok1 E) as (sent & before & -> & Hb & Hc & Hlen & Hf). exists (x :: sent), before.
    split_and!; [done | | done | congruence | done]. rewrite Hb, Ha. solve_Permutation.
  - injection E as -> -> ->. exists [], chans. split_and!; [done | done | by rewrite Ha | done | by apply Hg].
Qed.

Lemma run_gives_up concurrency capacity inits input chans' b unread :
  run concurrency capacity inits input = (chans', Err (Some (b, unread))) ->
  exists sent before, input = sent ++ b :: unread /\ all_accepted before ≡ₚ sent /\
    length before = Nat.max concurrency 1 /\ forall i, (i < Nat.max concurrency 1)%nat -> accepts before i = false.
Proof.
  unfold run. set (n := Nat.max concurrency 1). set (chans := map _ (seq 0 n)).
  assert (Hok : Forall channel_ok chans) by (apply Forall_map, Forall_true; intros worker_id; unfold channel_ok; cbn; lia).
  assert (Hempty : all_accepted chans = []).
  { unfold all_accepted, chans. clear. induction (seq 0 n) as [|i l IH]; [done | exact IH]. }
  destruct (forallb _ _); [done|]. destruct (dispatch_loop _ _ _ _ _) as [c [[]|[x u]]] eqn:El; [done|]. cbn [map_err].
  intros E. injection E as -> -> ->. destruct (dispatch_loop_gives_up _ _ _ _ _ _ _ _ Hok El) as (sent & before & -> & Hb & _ & Hl & Hf).
  exists sent, before. rewrite Hempty, app_nil_r in Hb. unfold chans in Hl. rewrite length_map, length_seq in Hl. done.
Qed.

End Channels.
Arguments Channel B : clear implicits.

(** ** The worker tasks *)

Section Tasks.
Context {RB Arr M G J : Type} `{Tables RB Arr} `{Wasm M G} `{Codec RB J}.
Variable views : nat -> EngineCache M.

Abbreviation Batch := (SignalBatch RB).

(** What the task has sent to the output and to the two dead-letter outputs,
    and the number of its awaits. *)
Record Sinks := mkSinks { sk_output : list Batch; sk_errors : list Batch; sk_rejects : list Batch; sk_awaits : nat }.

#[export] Instance Sinks_eta : RecordEta Sinks := fun s => mkSinks (sk_output s) (sk_errors s) (sk_rejects s) (sk_awaits s).

(** Whether a send, at its await, succeeds; whether a blocking task is joined. *)
Variables output_ok errors_ok rejects_ok joins : nat -> bool.

Definition send_output (b : Batch) (s : Sinks) : Sinks * bool :=
  let s' := s <| sk_awaits := S (sk_awaits s) |> in
  if output_ok (sk_awaits s) then (s' <| sk_output := sk_output s ++ [b] |>, true) else (s', false).

Definition send_errors (b : Batch) (s : Sinks) : Sinks * bool :=
  let s' := s <| sk_awaits := S (sk_awaits s) |> in
  if errors_ok (sk_awaits s) then (s' <| sk_errors := sk_errors s ++ [b] |>, true) else (s', false).

Definition send_rejects (b : Batch) (s : Sinks) : Sinks * bool :=
  let s' := s <| sk_awaits := S (sk_awaits s) |> in
  if rejects_ok (sk_awaits s) then (s' <| sk_rejects := sk_rejects s ++ [b] |>, true) else (s', false).

(** [err_tx], [rej_tx]: whether the dead-letter outputs are configured. *)
Variable tf_cfg : WasmTransformerConfig J.
Variables err_tx rej_tx : bool.

Definition handle_rejected (original : Batch) (s : Sinks) : Sinks * bool :=
  match wc_on_reject tf_cfg with
  | RejReroute => if rej_tx then send_rejects original s else (s, true)
  | RejDrop => (s, true)
  end.

Definition handle_errored (original : Batch) (s : Sinks) : Sinks * bool :=
  match wc_on_error tf_cfg with
  | ErrReroute => if err_tx then send_errors original s else (s, true)
  | ErrPassthrough => if wc_allow_unmasked_passthrough tf_cfg then send_output original s else (s, true)
  | ErrDrop => (s, true)
  end.

Fixpoint send_emitted (batches : list Batch) (s : Sinks) : Sinks * bool :=
  match batches with
  | [] => (s, true)
  | b :: batches => match send_output b s with (s, true) => send_emitted batches s | (s, false) => (s, false) end
  end.

Definition handle_worker_outcome (outcome : WorkerOutcome RB) (s : Sinks) : Sinks * bool :=
  match outcome with
  | Emitted batches => send_emitted batches s
  | Discarded => (s, true)
  | Rejected _ original => handle_rejected original s
  | Errored _ original => handle_errored original s
  end.

(** The buffered batches when the output is closed. *)
Definition drain_to_errors (batches : list Batch) (s : Sinks) : Sinks :=
  foldl (fun s b => if err_tx then (send_errors b s).1 else s) s batches.

(** The buffered batches when the worker cannot be restarted. *)
Definition drain_as_errored (batches : list Batch) (s : Sinks) : Sinks :=
  foldl (fun s b => (handle_errored b s).1) s batches.

(** The receive loop over the batches the channel will deliver; at a break,
    [buffered] of those left are in the channel.  The last component is what
    nobody receives any more. *)
Variable buffered : nat -> nat.

Fixpoint worker_loop (w : WasmWorker) (batches : list Batch) (s : Sinks) : WasmWorker * Sinks * list Batch :=
  match batches with
  | [] => (w, s, [])
  | batch :: rest =>
      let '(w, res) := execute_batch views w batch in
      let '(w, rejuv_res) := match res with Err _ => let '(w, r) := rejuvenate w in (w, Some r) | Ok _ => (w, None) end in
      let t := sk_awaits s in
      let s := s <| sk_awaits := S t |> in
      if negb (joins t) then (w, s, rest)
      else
        let waiting := take (buffered t) rest in
        let lost := drop (buffered t) rest in
        match res with
        | Ok outcome =>
            match handle_worker_outcome outcome s with
            | (s, true) => worker_loop w rest s
            | (s, false) => (w, drain_to_errors waiting s, lost)
            end
        | Err (original_batch, _) =>
            let '(s, errored_handled) := handle_errored original_batch s in
            match rejuv_res with
            | Some (Err _) => (w, drain_as_errored waiting s, lost)
            | _ => if errored_handled then worker_loop w rest s else (w, drain_to_errors waiting s, lost)
            end
        end
  end.

(** The policy checks of [WasmTransformer::with_engine] (crates/wasm-transformer/src/lib.rs). *)
Definition MAX_CONCURRENCY : N := 10000.

Definition validate_policies : result unit PipelineError :=
  match wc_on_error tf_cfg, err_tx with
  | ErrReroute, false => Err (TopologicalSinkMissing "__reroute_errored")
  | _, _ =>
      match wc_on_reject tf_cfg, rej_tx with
      | RejReroute, false => Err (TopologicalSinkMissing "__reroute_rejected")
      | _, _ =>
          if (wc_concurrency tf_cfg =? 0) || (MAX_CONCURRENCY <? wc_concurrency tf_cfg)
          then Err (Internal "wasm_transformer.concurrency")
          else
            match wc_on_error tf_cfg, wc_allow_unmasked_passthrough tf_cfg with
            | ErrPassthrough, false => Err (Internal "on_error passthrough without allow_unmasked_passthrough")
            | _, _ => Ok tt
            end
      end
  end.

(** ** What becomes of a batch *)

Context `{!TablesLaws RB Arr}.

Abbreviation Execution := (result (WorkerOutcome RB) (Batch * WasmTransformError)).

(** Where the policy on errors lets a batch go: what it adds to the output and to
    the dead-letter output of errors. *)
Inductive error_fate (batch : Batch) : list Batch -> list Batch -> Prop :=
| error_rerouted : wc_on_error tf_cfg = ErrReroute -> error_fate batch [] [batch]
| error_dropped : wc_on_error tf_cfg = ErrDrop -> error_fate batch [] []
| error_passed : wc_on_error tf_cfg = ErrPassthrough -> wc_allow_unmasked_passthrough tf_cfg = true -> error_fate batch [batch] [].

(** What a batch whose execution ended so adds to the output and to the two
    dead-letter outputs. *)
Inductive fate (batch : Batch) : Execution -> list Batch -> list Batch -> list Batch -> Prop :=
| fate_emitted outs : fate batch (Ok (Emitted outs)) outs [] []
| fate_discarded : fate batch (Ok Discarded) [] [] []
| fate_rejected reason : wc_on_reject tf_cfg = RejReroute -> fate batch (Ok (Rejected reason batch)) [] [] [batch]
| fate_reject_dropped reason : wc_on_reject tf_cfg = RejDrop -> fate batch (Ok (Rejected reason batch)) [] [] []
| fate_errored reason o e : error_fate batch o e -> fate batch (Ok (Errored reason batch)) o e []
| fate_failed err o e : error_fate batch o e -> fate batch (Err (batch, err)) o e [].

Definition adds (s s' : Sinks) (o e r : list Batch) : Prop :=
  sk_output s' = sk_output s ++ o /\ sk_errors s' = sk_errors s ++ e /\ sk_rejects s' = sk_rejects s ++ r.

(** Batches nobody executes any more go where the policy on errors says. *)
Inductive drained : list Batch -> Sinks -> Sinks -> Prop :=
| drained_all s s' : adds s s' [] [] [] -> drained [] s s'
| drained_next b bs s s1 s' o e : error_fate b o e -> adds s s1 o e [] -> drained bs s1 s' -> drained (b :: bs) s s'.

(** How the worker [w] goes on after a batch: a failed execution has it restarted. *)
Definition goes_on (w : WasmWorker) (r : Execution) (next : WasmWorker) : Prop :=
  match r with Ok _ => next = w | Err _ => rejuvenate w = (next, Ok tt) end.

(** Worker [w] served its batches, one after the other, each executed by the worker the
    last one left, and none received [lost]: nothing, unless that worker could not be restarted. *)
Inductive served : WasmWorker -> list Batch -> Sinks -> list Batch -> Sinks -> Prop :=
| served_all w s s' : adds s s' [] [] [] -> served w [] s [] s'
| served_next w batch rest s lost s' w1 res next s1 o e r :
    execute_batch views w batch = (w1, res) -> accounted (check_hot_reload views w) batch res ->
    fate batch res o e r -> adds s s1 o e r -> goes_on w1 res next ->
    served next rest s1 lost s' -> served w (batch :: rest) s lost s'
| served_stopped w batch waiting lost s s' w1 err reason s1 o e :
    execute_batch views w batch = (w1, Err (batch, err)) -> error_fate batch o e -> adds s s1 o e [] ->
    (rejuvenate w1).2 = Err reason -> drained waiting s1 s' ->
    served w (batch :: waiting ++ lost) s lost s'.

(** Every output stays open and every blocking task is joined. *)
Definition healthy : Prop :=
  forall t, output_ok t = true /\ errors_ok t = true /\ rejects_ok t = true /\ joins t = true.

Lemma send_emitted_healthy : healthy -> forall outs s, exists s',
  send_emitted outs s = (s', true) /\ sk_output s' = sk_output s ++ outs /\ sk_errors s' = sk_errors s /\ sk_rejects s' = sk_rejects s.
Proof.
  intros Hh outs. induction outs as [|b outs IH]; intros s; cbn [send_emitted]; [exists s; by rewrite app_nil_r|].
  unfold send_output. destruct (Hh (sk_awaits s)) as (-> & _).
  match goal with |- context [send_emitted outs ?x] => destruct (IH x) as (s' & -> & Ho & He & Hr) end.
  exists s'. cbn in *. by rewrite Ho, <- app_assoc.
Qed.

(** With the policies checked and the sinks healthy, an errored batch goes
    where the policy says. *)
Lemma handle_errored_fate s b : healthy -> validate_policies = Ok tt -> exists s' o e,
  handle_errored b s = (s', true) /\ error_fate b o e /\ adds s s' o e [].
Proof.
  intros Hh. unfold validate_policies, handle_errored, send_errors, send_output, adds. destruct (Hh (sk_awaits s)) as (-> & -> & _).
  destruct (wc_on_error tf_cfg) eqn:Ee.
  - destruct err_tx; [|done]. intros _. do 3 eexists. split_and!; [done | by apply error_rerouted | cbn; by rewrite ?app_nil_r..].
  - intros _. do 3 eexists. split_and!; [done | by apply error_dropped | by rewrite app_nil_r..].
  - destruct (wc_on_reject tf_cfg), rej_tx; try done; destruct (_ || _); try done;
      destruct (wc_allow_unmasked_passthrough tf_cfg) eqn:Ea; try done; intros _; do 3 eexists;
      (split_and!; [done | by apply error_passed | cbn; by rewrite ?app_nil_r..]).
Qed.

Lemma handle_rejected_fate reason s b : healthy -> validate_policies = Ok tt -> exists s' r,
  handle_rejected b s = (s', true) /\ fate b (Ok (Rejected reason b)) [] [] r /\ adds s s' [] [] r.
Proof.
  intros Hh. unfold validate_policies, handle_rejected, send_rejects, adds. destruct (Hh (sk_awaits s)) as (_ & _ & -> & _).
  destruct (wc_on_reject tf_cfg) eqn:Er.
  - destruct rej_tx.
    + intros _. do 2 eexists. split_and!; [done | by apply fate_rejected | cbn; by rewrite ?app_nil_r..].
    + by destruct (wc_on_error tf_cfg), err_tx.
  - intros _. do 2 eexists. split_and!; [done | by apply fate_reject_dropped | by rewrite app_nil_r..].
Qed.

Lemma drain_drained : healthy -> validate_policies = Ok tt -> forall bs s, drained bs s (drain_as_errored bs s).
Proof.
  intros Hh Hv bs. induction bs as [|b bs IH]; intros s; [constructor; unfold adds; by rewrite !app_nil_r|].
  unfold drain_as_errored. cbn [foldl].
  destruct (handle_errored_fate s b Hh Hv) as (s1 & o & e & Hs & Hf & Ha). rewrite Hs.
  by eapply drained_next; [exact Hf | exact Ha | apply IH].
Qed.

(** An outcome that accounts for its batch meets its fate. *)
Lemma outcome_fate w batch s (res : Execution) : healthy -> validate_policies = Ok tt -> accounted w batch res ->
  exists s' o e r, fate batch res o e r /\ adds s s' o e r /\
    match res with
    | Ok outcome => handle_worker_outcome outcome s = (s', true)
    | Err (b, _) => b = batch /\ error_fate batch o e /\ r = [] /\ handle_errored b s = (s', true)
    end.
Proof.
  intros Hh Hv Hacc. destruct res as [[outs| |reason b|reason b]|[b err]]; cbn in Hacc.
  - destruct (send_emitted_healthy Hh outs s) as (s' & Hs & Ho & He & Hr).
    exists s', outs, [], []. unfold adds. rewrite !app_nil_r. split_and!; try done. by constructor.
  - exists s, [], [], []. unfold adds. rewrite !app_nil_r. split_and!; try done. apply fate_discarded.
  - destruct Hacc as [-> _]. destruct (handle_rejected_fate reason s batch Hh Hv) as (s' & r & Hs & Hf & Ha).
    by exists s', [], [], r.
  - destruct Hacc as [-> _]. destruct (handle_errored_fate s batch Hh Hv) as (s' & o & e & Hs & Hf & Ha).
    exists s', o, e, []. split_and!; [by constructor | done..].
  - subst b. destruct (handle_errored_fate s batch Hh Hv) as (s' & o & e & Hs & Hf & Ha).
    exists s', o, e, []. split_and!; [by constructor | done..].
Qed.

Lemma worker_loop_served (w : WasmWorker) (batches : list Batch) (s : Sinks) :
  healthy -> validate_policies = Ok tt ->
  let '(w', s', lost) := worker_loop w batches s in served w batches s lost s'.
Proof.
  intros Hh Hv. revert w s. induction batches as [|batch rest IH]; intros w s; cbn [worker_loop].
  { constructor. unfold adds. by rewrite !app_nil_r. }
  pose proof (execute_batch_accounted views w batch) as Hacc. destruct (execute_batch views w batch) as [w1 res] eqn:Ex. cbn [snd] in Hacc.
  destruct (outcome_fate _ batch (s <| sk_awaits := S (sk_awaits s) |>) res Hh Hv Hacc) as (s1 & o & e & r & Hf & Ha & Hres).
  change (adds s s1 o e r) in Ha. destruct (Hh (sk_awaits s)) as (_ & _ & _ & Hj).
  destruct res as [outcome|[b err]].
  - rewrite Hj. cbn [negb]. rewrite Hres. specialize (IH w1 s1).
    destruct (worker_loop w1 rest s1) as [[w' s'] lost]. by eapply served_next.
  - destruct Hres as (-> & He & -> & Hres). destruct (rejuvenate w1) as [w2 rejuv] eqn:Erj. rewrite Hj. cbn [negb]. rewrite Hres.
    destruct rejuv as [[]|reason].
    + specialize (IH w2 s1). destruct (worker_loop w2 rest s1) as [[w' s'] lost]. by eapply served_next.
    + rewrite <- (take_drop (buffered (sk_awaits s)) rest) at 1.
      eapply served_stopped; [exact Ex | exact He | exact Ha | by rewrite Erj | by apply drain_drained].
Qed.

(** C31 (no_batch_unaccounted). With a configuration the transformer accepts, and
    outputs that stay open, a worker executes the batches it receives one after the
    other, each on the worker the last one left, and each meets the fate of its own execution's result,
    added to the outputs in order: what its guest answered is emitted, or counts as discarded only if
    the guest discarded it; a rejected batch goes to its dead-letter output or is
    dropped, as that policy says; a failed one, or one the guest calls an error, goes to the other
    dead-letter output, through, or is dropped, as the policy on errors says.  It serves
    them all, unless it could not be restarted right after a failure: then those waiting in its channel go
    where the policy on errors says, and only those behind them are received by nobody. *)
Theorem no_batch_unaccounted (w : WasmWorker) (batches : list Batch) (s : Sinks) :
  healthy -> validate_policies = Ok tt ->
  let '(w', s', lost) := worker_loop w batches s in served w batches s lost s'.
Proof. exact (worker_loop_served w batches s). Qed.

End Tasks.
Arguments Sinks RB : clear implicits.

Module DispatcherDemo.

(** Every task takes one batch during each await. *)
Definition take_one (c : Channel N) : Channel N :=
  match ch_queue c with
  | [] => c
  | b :: q => c <| ch_queue := q |> <| ch_received := ch_received c ++ [b] |>
  end.

Definition evolve (_ : nat) (chans : list (Channel N)) : list (Channel N) := map take_one chans.

Lemma evolve_progressed t chans : Forall2 progressed chans (evolve t chans).
Proof.
  unfold evolve. induction chans as [|c chans IH]; constructor; [|exact IH].
  unfold take_one, progressed, accepted. destruct c as [[|b q] r cap cl]; [done|]. cbn. rewrite <- app_assoc. split_and!; try done. lia.
Qed.

(** The witness: two workers with one slot each, one of which never started. *)
Lemma dispatch_exactly_once_witness :
  (run evolve 2 1 (fun id => (id =? 1)%nat) [7; 8; 9]).1 = [mkChannel [] [] 1 true; mkChannel [9] [7; 8] 1 false] /\
  let '(chans, r) := run evolve 2 1 (fun id => (id =? 1)%nat) [7; 8; 9] in
  Forall channel_ok chans /\
  match r with
  | Ok _ => all_accepted chans ≡ₚ [7; 8; 9]
  | Err (Some (b, unread)) => exists sent, [7; 8; 9] = sent ++ b :: unread /\ all_accepted chans ≡ₚ sent
  | Err None => all_accepted chans = []
  end.
Proof.
  split; [vm_compute; reflexivity|].
  apply (dispatch_exactly_once evolve evolve_progressed 2 1 (fun id => (id =? 1)%nat) [7; 8; 9]).
Defined.

(** The witness: the first worker is full, the second takes the batch. *)
Lemma dispatch_choice_witness :
  dispatch_batch evolve 5 [mkChannel [1] [] 1 false; mkChannel [] [] 1 false] 0 0 2
  = ([mkChannel [1] [] 1 false; mkChannel [5] [] 1 false], 0%nat, 0%nat, true).
Proof.
  exact (dispatch_choice evolve 5 [mkChannel [1] [] 1 false; mkChannel [] [] 1 false] 0 0 2).
Defined.

(** The choice is by turns, not by load: a worker with three batches waiting is
    preferred to an idle one. *)
Example not_least_loaded :
  (dispatch_batch evolve 5 [mkChannel [1; 2; 3] [] 4 false; mkChannel [] [] 4 false] 0 0 2).1.1.1
  = [mkChannel [1; 2; 3; 5] [] 4 false; mkChannel [] [] 4 false].
Proof. vm_compute. reflexivity. Qed.

(** Two workers that stop one after the other while the dispatcher waits for
    them end it, although the third one is idle by then. *)
Definition two_stop (t : nat) (chans : list (Channel N)) : list (Channel N) :=
  match t, chans with
  | 0%nat, c :: chans => c <| ch_closed := true |> :: chans
  | 1%nat, [c; d; e] => [c; d <| ch_closed := true |>; take_one e]
  | _, _ => chans
  end.

Example idle_survivor_ignored :
  let full := mkChannel [1] [] 1 false in
  let '(chans, _, _, ok) := dispatch_batch two_stop 5 [full; full; full] 0 0 3 in
  ok = false /\ accepts chans 2 = true.
Proof. by vm_compute. Qed.

(** A worker over the guest of [WorkerDemo], rerouting errors. *)
Import Guard.Demo WorkerDemo.
#[local] Existing Instances WorkerDemo.wasm WorkerDemo.codec.

(** The witness: both batches are emitted. *)
Lemma no_batch_unaccounted_witness :
  let all_ok := fun _ : nat => true in
  let '(w', s', lost) := worker_loop views all_ok all_ok all_ok all_ok config true true (fun _ => 0%nat) (worker 1) [input; input] (mkSinks [] [] [] 0) in
  served views config (worker 1) [input; input] (mkSinks [] [] [] 0) lost s'.
Proof.
  cbv zeta. apply (no_batch_unaccounted views (fun _ => true) (fun _ => true) (fun _ => true) (fun _ => true) config true true
    (fun _ => 0%nat) (worker 1) [input; input] (mkSinks [] [] [] 0)).
  - by intros t.
  - reflexivity.
Defined.

Example two_emitted :
  let all_ok := fun _ : nat => true in
  let '(_, s, lost) := worker_loop views all_ok all_ok all_ok all_ok config true true (fun _ => 0%nat) (worker 1) [input; input] (mkSinks [] [] [] 0) in
  length (sk_output s) = 2%nat /\ sk_errors s = [] /\ lost = [].
Proof. by vm_compute. Qed.

End DispatcherDemo.
