(* ===== verification/Fleet.v ===== *)
(** A WASM transformer at work: crates/wasm-transformer/src/dispatcher.rs
    ([spawn_workers], [run], [drain_workers]) and lib.rs ([transform]).

    Dispatcher models the two sides of the workers' channels apart; here they are
    joined.  A worker is started, gets its share of the input through its channel,
    and is waited for when the input ends.  A drain that takes too long aborts the
    tasks that still run; how far these came is not said. *)

From S2P Require Import Prelude Text Signal Guard Engine Worker Dispatcher.
Local Open Scope N_scope.

(** Why a worker did not start. *)
Inductive InitFailure : Type := NotInstantiated (e : WasmTransformError) | NotJoined.

(** The answers of the workers, in their order: how many started, and the last
    failure.  No sender is dropped before it answers. *)
Definition await_inits (init_rxs : list (result unit InitFailure)) : nat * option InitFailure :=
  foldl (fun '(successful, last_err) res =>
    match res with Ok _ => (S successful, last_err) | Err e => (successful, Some e) end) (0%nat, None) init_rxs.

(** [drain_workers], of tasks that would end so long after the input; [None] never
    does.  The flags are the tasks that are aborted: aborting one that has ended
    does nothing. *)
Definition ended (timeout_dur : N) (task : option N) : bool := match task with Some t => t <=? timeout_dur | None => false end.

Definition drain_workers (handles : list (option N)) (drain_timeout : bytes) : list bool :=
  let timeout_dur := match parse_duration drain_timeout with Some d => d | None => 10000 end in
  if forallb (ended timeout_dur) handles then map (fun _ => false) handles
  else map (fun h => negb (ended timeout_dur h)) handles.

Lemma drain_workers_spec handles drain_timeout i :
  drain_workers handles drain_timeout !! i =
  option_map (fun h => negb (ended (match parse_duration drain_timeout with Some d => d | None => 10000 end) h)) (handles !! i).
Proof.
  unfold drain_workers. set (d := match parse_duration _ with Some d => d | None => 10000 end).
  destruct (forallb (ended d) handles) eqn:E; rewrite list_lookup_fmap; [|by destruct (handles !! i)].
  destruct (handles !! i) as [h|] eqn:Eh; [|done]. cbn. rewrite forallb_forall in E.
  apply list_elem_of_lookup_2, list_elem_of_In, E in Eh. by rewrite Eh.
Qed.

(** Why [run] fails. *)
Inductive RunFailure (B : Type) : Type :=
| AllWorkersFailed (last_err : option InitFailure)
| WorkerChannelClosed (given_up : B) (unread : list B).
Arguments AllWorkersFailed {B}.
Arguments WorkerChannelClosed {B}.

Section Fleet.
Context {RB Arr M G J : Type} `{Tables RB Arr} `{Wasm M G} `{Codec RB J}.
Abbreviation Batch := (SignalBatch RB).
Variables (module : M) (tf_cfg : WasmTransformerConfig J) (err_tx rej_tx : bool).

(** What the [id]-th worker meets: the module cache at its reads, the joining of its
    start, the sends and joins of its task, and what its channel holds when it
    stops. *)
Variable views : nat -> nat -> EngineCache M.
Variable init_joins : nat -> bool.
Variables attempts reads : nat -> nat.
Variables output_ok errors_ok rejects_ok joins : nat -> nat -> bool.
Variable buffered : nat -> nat -> nat.
Variable ends_after : nat -> option N.
Variable evolve : nat -> list (Channel Batch) -> list (Channel Batch).

(** The start of a worker in [spawn_workers]. *)
Definition worker_init (id : nat) : result WasmWorker InitFailure :=
  if init_joins id
  then map_err NotInstantiated (worker_new (views id) (N.of_nat id) module tf_cfg (attempts id) (reads id))
  else Err NotJoined.

(** The task of a worker, which ends at once where it did not start; what it sent
    and what nobody receives. *)
Definition worker_task (id : nat) (delivered : list Batch) : Sinks RB * list Batch :=
  match worker_init id with
  | Err _ => (mkSinks [] [] [] 0, delivered)
  | Ok w =>
      let '(_, s, lost) := worker_loop (views id) (output_ok id) (errors_ok id) (rejects_ok id) (joins id) tf_cfg err_tx rej_tx
                             (buffered id) w delivered (mkSinks [] [] [] 0) in
      (s, lost)
  end.

Definition init_statuses (n : nat) : list (result unit InitFailure) :=
  map (fun id => match worker_init id with Ok _ => Ok tt | Err e => Err e end) (seq 0 n).

(** [transform]: a dispatcher from the configuration, run to its end.  A worker's
    part is [None] when the drain aborted it; none is drained when none started. *)
Definition transform (input : list Batch) : list (list Batch * option (Sinks RB * list Batch)) * result unit (RunFailure Batch) :=
  let concurrency := N.to_nat (wc_concurrency tf_cfg) in
  let capacity := N.to_nat (wc_worker_channel_capacity tf_cfg) in
  let '(chans, r) := run evolve concurrency capacity (fun id => is_ok (worker_init id)) input in
  let aborted := drain_workers (imap (fun id _ => ends_after id) chans) (wc_drain_timeout tf_cfg) in
  (imap (fun id c => (accepted c, if default false (aborted !! id) then None else Some (worker_task id (accepted c)))) chans,
   map_err (fun e => match e with
                     | None => AllWorkersFailed (await_inits (init_statuses (Nat.max concurrency 1))).2
                     | Some (b, unread) => WorkerChannelClosed b unread
                     end) r).

(** ** What becomes of the input *)

Context `{!TablesLaws RB Arr}.
Hypothesis evolve_progress : forall t chans, Forall2 progressed chans (evolve t chans).

(** A worker that started served its share, from the state it was started in; one that
    did not has none. *)
Definition dealt_with (id : nat) (share : list Batch) (s : Sinks RB) (lost : list Batch) : Prop :=
  match worker_init id with
  | Ok w => served (views id) tf_cfg w share (mkSinks [] [] [] 0) lost s
  | Err _ => share = [] /\ s = mkSinks [] [] [] 0 /\ lost = []
  end.

Lemma worker_task_deals id share s lost :
  healthy (output_ok id) (errors_ok id) (rejects_ok id) (joins id) -> validate_policies tf_cfg err_tx rej_tx = Ok tt ->
  (is_ok (worker_init id) = false -> share = []) -> worker_task id share = (s, lost) -> dealt_with id share s lost.
Proof.
  intros Hh Hv Hs. unfold worker_task, dealt_with. destruct (worker_init id) as [w|e] eqn:Ei.
  - pose proof (worker_loop_served (views id) _ _ _ _ tf_cfg err_tx rej_tx (buffered id) w share (mkSinks [] [] [] 0) Hh Hv) as Hf.
    destruct (worker_loop _ _ _ _ _ _ _ _ _ _ _ _) as [[w' s'] lost']. by intros [= <- <-].
  - rewrite Hs by done. by intros [= <- <-].
Qed.

Lemma await_inits_spec (rs : list (result unit InitFailure)) :
  (await_inits rs).1 = length (filter (fun r => is_ok r = true) rs) /\
  (Forall (fun r => is_ok r = false) rs -> forall e, last rs = Some (Err e) -> (await_inits rs).2 = Some e).
Proof.
  unfold await_inits. induction rs as [|r rs [IH1 IH2]] using rev_ind; [done|]. rewrite foldl_snoc, filter_app, length_app.
  destruct (foldl _ _ rs) as [n l]. cbn [fst snd] in *. subst n. split.
  - rewrite filter_cons, filter_nil. destruct r; cbn [is_ok]; case_decide; done || (cbn; lia).
  - intros _ e. rewrite last_snoc. by intros [= ->].
Qed.

Lemma some_started n inits : forallb (fun worker_id => negb (inits worker_id)) (seq 0 n) = true <-> forall id, (id < n)%nat -> inits id = false.
Proof.
  rewrite forallb_forall. split.
  - intros Hf id Hid. specialize (Hf id ltac:(apply in_seq; lia)). by apply negb_true_iff in Hf.
  - intros Hf id Hid. apply in_seq in Hid. apply negb_true_iff, Hf. lia.
Qed.


End Fleet.

Module FleetDemo.
Import Guard.Demo WorkerDemo.
#[local] Existing Instances WorkerDemo.wasm WorkerDemo.codec.

Abbreviation TB := (SignalBatch TBatch).

Definition take_one (c : Channel TB) : Channel TB :=
  match ch_queue c with
  | [] => c
  | b :: q => mkChannel q (ch_received c ++ [b]) (ch_capacity c) (ch_closed c)
  end.

Definition evolve (_ : nat) (chans : list (Channel TB)) : list (Channel TB) := map take_one chans.

Lemma fleet_progressed t chans : Forall2 progressed chans (evolve t chans).
Proof.
  unfold evolve. induction chans as [|c chans IH]; constructor; [|exact IH].
  unfold take_one, progressed, accepted. destruct c as [[|b q] r cap cl]; [done|]. cbn. rewrite <- app_assoc. split_and!; try done. lia.
Qed.

(** Three workers: one whose start is not joined, one that serves, one whose drain
    is aborted. *)
Definition three : WasmTransformerConfig unit :=
  mkWasmConfig unit (text "t") (text "t.wasm") None (text "500ms") (text "10s") 10 3 1 (text "64MiB") (text "1KiB") 2
    (text "2s") ErrReroute false RejReroute Defensive [] ∅ None.

Definition yes (_ : nat) : bool := true.

Definition fleet (init_joins : nat -> bool) (ends_after : nat -> option N) (input : list TB) :=
  transform 1 three true true (fun _ => views) init_joins (fun _ => 0%nat) (fun _ => 0%nat) (fun _ => yes) (fun _ => yes) (fun _ => yes) (fun _ => yes)
    (fun _ _ => 0%nat) ends_after evolve input.

Definition not_first (id : nat) : bool := (0 <? id)%nat.
Definition third_hangs (id : nat) : option N := match id with 2%nat => None | _ => Some 5 end.

Example shared_out :
  let '(parts, r) := fleet not_first third_hangs [input; input; input] in
  map (fun p => length p.1) parts = [0; 2; 1]%nat /\
  map (fun p => match p.2 with Some (s, lost) => Some (length (sk_output s), lost) | None => None end) parts = [Some (0%nat, []); Some (2%nat, []); None] /\
  r = Ok tt.
Proof. vm_compute. done. Qed.

Example none_starts : (fleet (fun _ => false) third_hangs [input]).2 = Err (AllWorkersFailed (Some NotJoined)).
Proof. by vm_compute. Qed.


End FleetDemo.
