(* ===== verification/Transformer.v ===== *)
(** Building and reloading a transformer: crates/wasm-transformer/src/lib.rs,
    the compiling operations of engine.rs, and reload.rs.

    Reading a file, hashing and compiling are the standard library's, sha2's and
    Wasmtime's: parameters.  [k] numbers the instantiations so far. *)

From S2P Require Import Prelude Text Signal Guard Engine Worker Dispatcher.
Local Open Scope N_scope.

Class Toolchain (M : Type) := {
  read_file : bytes -> option bytes;
  sha256_hex : bytes -> bytes;
  compile : bytes -> option M;
  engine_new : N -> N -> bool;
}.

Section Transformer.
Context {RB Arr M G J : Type} `{Tables RB Arr} `{Wasm M G} `{Codec RB J} `{Toolchain M}.

(** The expected hash; the text of the actual one is dropped from the error. *)
Definition verify_sha256 (b : bytes) (expected : option bytes) : bool :=
  match expected with Some e => eq_ignore_ascii_case (sha256_hex b) e | None => true end.

(** ** Operations of the cache *)

Definition compile_module (b : bytes) (c : EngineCache M) : EngineCache M * result M WasmTransformError :=
  match compile b with
  | None => (c, Err WWasmtime)
  | Some m => ((publish_module m c).1, Ok m)
  end.

Definition compile_module_with_sha256 (b : bytes) (expected_sha256 : option bytes) (c : EngineCache M)
  : EngineCache M * result M WasmTransformError :=
  if negb (verify_sha256 b (option_map trim expected_sha256)) then (c, Err (Sha256Mismatch "" ""))
  else compile_module b c.

(** The configuration of the probe. *)
Definition probe_cfg : WasmTransformerConfig J :=
  mkWasmConfig J (text "probe") [] None (text "5s") (text "5s") 1000 1 10 (text "64MiB") (text "50MiB") 1000
    (text "5s") ErrReroute false RejReroute Defensive [] ∅ None.

Definition compile_and_probe_candidate (k : nat) (new_bytes : bytes) (expected_sha : option bytes) : result M WasmTransformError :=
  if negb (verify_sha256 new_bytes (option_map trim expected_sha)) then Err (Sha256Mismatch "" "")
  else
    match compile new_bytes with
    | None => Err WWasmtime
    | Some new_module => let? _ := probe_candidate k new_module probe_cfg in Ok new_module
    end.

Definition reload_from_bytes (k : nat) (new_bytes : bytes) (expected_sha : option bytes) (c : EngineCache M)
  : EngineCache M * result N WasmTransformError :=
  match compile_and_probe_candidate k new_bytes expected_sha with
  | Err e => (c, Err e)
  | Ok new_module => let '(c, next_gen) := publish_module new_module c in (c, Ok next_gen)
  end.

(** ** reload.rs *)

Fixpoint stage_candidates (k : nat) (engines : list (EngineCache M)) (b : bytes) : result (list M) WasmTransformError :=
  match engines with
  | [] => Ok []
  | _ :: engines =>
      let? m := compile_and_probe_candidate k b None in
      let? ms := stage_candidates (S k) engines b in
      Ok (m :: ms)
  end.

Fixpoint publish_candidates (engines : list (EngineCache M)) (candidates : list M) (last_gen : N) : list (EngineCache M) * N :=
  match engines, candidates with
  | c :: engines, m :: candidates =>
      let '(c, gen) := publish_module m c in
      let '(engines, last_gen) := publish_candidates engines candidates gen in
      (c :: engines, last_gen)
  | engines, _ => (engines, last_gen)
  end.

Definition stage_and_publish_module (k : nat) (engines : list (EngineCache M)) (b : bytes) (expected_sha : option bytes)
  : list (EngineCache M) * result N WasmTransformError :=
  if negb (verify_sha256 b expected_sha) then (engines, Err (Sha256Mismatch "" ""))
  else
    match stage_candidates k engines b with
    | Err e => (engines, Err e)
    | Ok candidates => let '(engines, last_gen) := publish_candidates engines candidates 0 in (engines, Ok last_gen)
    end.

(** One SIGHUP of [spawn_sighup_listener_multi]. *)
Definition on_sighup (k : nat) (engines : list (EngineCache M)) (module_path : bytes) (expected_sha : option bytes) : list (EngineCache M) :=
  let expected_sha := match expected_sha with Some s => if bool_decide (trim s = []) then None else Some s | None => None end in
  match read_file module_path with
  | Some b => (stage_and_publish_module k engines b expected_sha).1
  | None => engines
  end.

(** ** lib.rs *)

Definition with_signal_env (config : WasmTransformerConfig J) (signal : bytes) : WasmTransformerConfig J :=
  mkWasmConfig J (wc_id config) (wc_module_path config) (wc_sha256 config) (wc_max_execution_duration config) (wc_drain_timeout config)
    (wc_max_batch_rows config) (wc_concurrency config) (wc_worker_channel_capacity config) (wc_max_memory config)
    (wc_rejuvenate_threshold config) (wc_rejuvenate_batches config) (wc_init_timeout config) (wc_on_error config)
    (wc_allow_unmasked_passthrough config) (wc_on_reject config) (wc_schema_guard config) (wc_env_whitelist config)
    (<[text "signal":=signal]> (wc_env config)) (wc_config config).

Fixpoint probe_each (k : nat) (module : M) (configs : list (WasmTransformerConfig J)) : result unit PipelineError :=
  match configs with
  | [] => Ok tt
  | c :: configs =>
      match probe_candidate k module c with
      | Err _ => Err (Internal "WASM worker initialization failed")
      | Ok _ => probe_each (S k) module configs
      end
  end.

(** The configurations a module is probed with. *)
Definition probe_configs (config : WasmTransformerConfig J) : list (WasmTransformerConfig J) :=
  match wc_env config !! text "signal" with
  | Some _ => [config]
  | None => map (with_signal_env config) [text "logs"; text "traces"; text "metrics"]
  end.

(** [WasmTransformer::with_engine]; the transformer is its module. *)
Definition with_engine (k : nat) (config : WasmTransformerConfig J) (reroute_error reroute_reject : bool) (c : EngineCache M)
  : EngineCache M * result M PipelineError :=
  match validate_policies config reroute_error reroute_reject with
  | Err e => (c, Err e)
  | Ok _ =>
      match read_file (wc_module_path config) with
      | None => (c, Err (Internal "Failed to read WASM module"))
      | Some wasm_bytes =>
          if negb (verify_sha256 wasm_bytes (wc_sha256 config)) then (c, Err (Internal "SHA256 mismatch for WASM module"))
          else
            let '(c, compiled) :=
              match module c with
              | Some existing => (c, Ok existing)
              | None => let '(c, r) := compile_module wasm_bytes c in (c, map_err (fun _ => Internal "compile") r)
              end in
            (c, let? m := compiled in let? _ := probe_each k m (probe_configs config) in Ok m)
      end
  end.

(** The engine for a concurrency: its pool capacity, then [EngineCache::new_pooling]. *)
Definition pool_capacity (concurrency : N) : option N :=
  match checked_mul usize_max (N.max concurrency 1) 2 with Some n => checked_add usize_max n 1 | None => None end.

Definition make_engine (concurrency max_memory_bytes : N) : result (EngineCache M) PipelineError :=
  let? capacity := ok_or (pool_capacity concurrency) (Internal "overflows pool capacity calculation") in
  if engine_new (pool_slots capacity) max_memory_bytes then Ok new_pooling else Err (Internal "engine").

(** [WasmTransformer::new]. *)
Definition transformer_new (k : nat) (config : WasmTransformerConfig J) (reroute_error reroute_reject : bool) : result M PipelineError :=
  if (wc_concurrency config =? 0) || (MAX_CONCURRENCY <? wc_concurrency config)
  then Err (Internal "wasm_transformer.concurrency")
  else
    let max_memory_bytes := match parse_byte_size (wc_max_memory config) with Some n => n | None => 64 * 1024 * 1024 end in
    let? c := make_engine (wc_concurrency config) max_memory_bytes in
    (with_engine k config reroute_error reroute_reject c).2.

Definition validate_guest_module (k : nat) (config : WasmTransformerConfig J) (wasm_bytes : bytes) (max_memory_bytes : N) : result unit PipelineError :=
  let? c := make_engine (wc_concurrency config) max_memory_bytes in
  let? m := map_err (fun _ => Internal "compile") (compile_module wasm_bytes c).2 in
  probe_each k m (probe_configs config).

Definition validate_config (k : nat) (config : WasmTransformerConfig J) : result unit PipelineError :=
  if bool_decide (wc_module_path config = []) then Err (Internal "wasm_transformer.module_path cannot be empty")
  else if (wc_concurrency config =? 0) || (MAX_CONCURRENCY <? wc_concurrency config)
  then Err (Internal "wasm_transformer.concurrency")
  else
    match wc_on_error config, wc_allow_unmasked_passthrough config with
    | ErrPassthrough, false => Err (Internal "on_error passthrough without allow_unmasked_passthrough")
    | _, _ =>
        let? max_memory_bytes := ok_or (parse_byte_size (wc_max_memory config)) (Internal "Invalid wasm_transformer.max_memory") in
        let? _ := ok_or (parse_byte_size (wc_rejuvenate_threshold config)) (Internal "Invalid wasm_transformer.rejuvenate_threshold") in
        let? _ := ok_or (parse_duration (wc_max_execution_duration config)) (Internal "Invalid wasm_transformer.max_execution_duration") in
        let? _ := ok_or (parse_duration (wc_drain_timeout config)) (Internal "Invalid wasm_transformer.drain_timeout") in
        let? _ := ok_or (parse_duration (wc_init_timeout config)) (Internal "Invalid wasm_transformer.init_timeout") in
        let? wasm_bytes := ok_or (read_file (wc_module_path config)) (Internal "Failed to read WASM module") in
        if negb (verify_sha256 wasm_bytes (wc_sha256 config)) then Err (Internal "SHA256 mismatch for WASM module")
        else validate_guest_module k config wasm_bytes max_memory_bytes
    end.

Definition reload_module (k : nat) (config : WasmTransformerConfig J) (c : EngineCache M) : EngineCache M * result N PipelineError :=
  match read_file (wc_module_path config) with
  | None => (c, Err (Internal "Failed to read WASM module for reload"))
  | Some wasm_bytes =>
      if negb (verify_sha256 wasm_bytes (wc_sha256 config)) then (c, Err (Internal "SHA256 mismatch during reload"))
      else
        match compile wasm_bytes with
        | None => (c, Err (Internal "Failed to compile reloaded module"))
        | Some new_mod =>
            match probe_each k new_mod (probe_configs config) with
            | Err e => (c, Err e)
            | Ok _ => let '(c, new_gen) := publish_module new_mod c in (c, Ok new_gen)
            end
        end
  end.

(** ** A reload is all or nothing *)

(** The module of verified bytes that started in a probe. *)
Definition verified (b : bytes) (expected_sha : option bytes) (m : M) : Prop :=
  verify_sha256 b expected_sha = true /\ compile b = Some m /\ exists k, probe_candidate k m probe_cfg = Ok tt.

Lemma compile_and_probe_Ok k b sha m :
  compile_and_probe_candidate k b sha = Ok m -> verified b (option_map trim sha) m.
Proof.
  unfold compile_and_probe_candidate, verified. destruct (verify_sha256 _ _); cbn [negb]; [|done].
  destruct (compile b) as [m'|]; [|done]. destruct (probe_candidate k m' probe_cfg) as [[]|] eqn:Ep; [|done].
  intros Hm. injection Hm as ->. split_and!; [done..|]. by exists k.
Qed.

Lemma stage_candidates_Ok k engines b ms :
  stage_candidates k engines b = Ok ms -> length ms = length engines /\ Forall (verified b None) ms.
Proof.
  revert k ms. induction engines as [|c engines IH]; intros k ms; cbn [stage_candidates]; [by intros [= <-]|].
  destruct (compile_and_probe_candidate k b None) as [m|] eqn:Em; [|done].
  destruct (stage_candidates (S k) engines b) as [ms'|] eqn:Es; [|done]. intros Hms. injection Hms as <-.
  apply compile_and_probe_Ok in Em. destruct (IH _ _ Es) as [Hl Hv]. split; [cbn; by rewrite Hl | by constructor].
Qed.

Lemma publish_candidates_spec engines ms gen0 : length ms = length engines ->
  Forall2 (fun p c' => c' = (publish_module p.1 p.2).1) (zip ms engines) (publish_candidates engines ms gen0).1.
Proof.
  revert engines gen0. induction ms as [|m ms IH]; intros [|c engines] gen0 Hl; [constructor | done | done|].
  cbn [publish_candidates zip zip_with]. destruct (publish_module m c) as [c1 gen] eqn:Ep. specialize (IH engines gen ltac:(by injection Hl)).
  destruct (publish_candidates engines ms gen) as [engines' last]. constructor; [|exact IH].
  change (c1 = (publish_module m c).1). by rewrite Ep.
Qed.

(** A reload over several module caches publishes only
    bytes whose hash matches, that compile, and that start in a probe on every
    cache; it then gives every cache the new module under the next generation,
    and if anything fails on any of them no cache changes. *)
Theorem reload_all_or_nothing (k : nat) (engines : list (EngineCache M)) (b : bytes) (expected_sha : option bytes) :
  match stage_and_publish_module k engines b expected_sha with
  | (engines', Err _) => engines' = engines
  | (engines', Ok _) =>
      Forall2 (fun c c' => exists m, verified b expected_sha m /\ holds m c' /\ coherent c' /\
        (ec_generation c < u64_max -> ec_generation c' = ec_generation c + 1)) engines engines'
  end.
Proof.
  unfold stage_and_publish_module. destruct (verify_sha256 b expected_sha) eqn:Esha; cbn [negb]; [|done].
  destruct (stage_candidates k engines b) as [ms|] eqn:Es; [|done]. apply stage_candidates_Ok in Es as [Hl Hv].
  pose proof (publish_candidates_spec engines ms 0 Hl) as Hp. destruct (publish_candidates engines ms 0) as [engines' gen].
  cbn [fst] in Hp. revert engines engines' Hl Hp. induction Hv as [|m ms Hm Hv IH]; intros [|c engines] engines' Hl Hp; try done; inversion Hp; subst; constructor.
  - exists m. destruct Hm as (_ & Hc & Hpr). split_and!; try done. intros Hlt. by apply wrapping_succ_exact.
  - apply IH; [by injection Hl | done].
Qed.

(** An accepted transformer satisfies the policy checks its workers rely on. *)
Lemma with_engine_policies k config e r c m :
  (with_engine k config e r c).2 = Ok m -> validate_policies config e r = Ok tt.
Proof. unfold with_engine. by destruct (validate_policies config e r) as [[]|]. Qed.

(** Configured bytes that fail the hash are never run. *)
Lemma transformer_new_verified k config e r m :
  transformer_new k config e r = Ok m ->
  validate_policies config e r = Ok tt /\
  exists b, read_file (wc_module_path config) = Some b /\ verify_sha256 b (wc_sha256 config) = true /\ compile b = Some m.
Proof.
  unfold transformer_new. destruct (_ || _); [done|]. unfold make_engine. destruct (ok_or _ _) as [cap|]; [|done].
  destruct (engine_new _ _); [|done]. intros Hm. split; [by eapply with_engine_policies|]. revert Hm. unfold with_engine. destruct (validate_policies config e r); [|done].
  destruct (read_file _) as [b|]; [|done]. destruct (verify_sha256 b _) eqn:Ev; cbn [negb]; [|done].
  unfold module, current_snapshot, new_pooling, compile_module. cbn. destruct (compile b) as [m'|] eqn:Ec; [|done]. cbn.
  destruct (probe_each _ _ _); [|done]. intros Hm. injection Hm as ->. by exists b.
Qed.

(** ** The defaults of the configuration *)

Definition default_max_execution_duration : bytes := text "500ms".
Definition default_drain_timeout : bytes := text "10s".
Definition default_max_batch_rows : N := 5000.
Definition default_concurrency : N := 4.
Definition default_worker_channel_capacity : N := 1.
Definition default_max_memory : bytes := text "64MiB".
Definition default_rejuvenate_threshold : bytes := text "16MiB".
Definition default_rejuvenate_batches : N := 10000.
Definition default_init_timeout : bytes := text "2s".
Definition default_on_error : OnErrorPolicy := ErrReroute.
Definition default_on_reject : OnRejectPolicy := RejReroute.

(** A configuration that gives an id and a module only. *)
Definition wasm_defaults (id module_path : bytes) : WasmTransformerConfig J :=
  mkWasmConfig J id module_path None default_max_execution_duration default_drain_timeout default_max_batch_rows default_concurrency
    default_worker_channel_capacity default_max_memory default_rejuvenate_threshold default_rejuvenate_batches default_init_timeout
    default_on_error false default_on_reject Defensive [] ∅ None.

(** With the defaults, only a missing path, a file that cannot be read or the module
    itself can be refused: their sizes and durations parse, the concurrency is in
    its limits and the policies need no unmasked passthrough. *)
Theorem defaults_validate k id module_path :
  validate_config k (wasm_defaults id module_path) =
    if bool_decide (module_path = []) then Err (Internal "wasm_transformer.module_path cannot be empty")
    else
      match read_file module_path with
      | None => Err (Internal "Failed to read WASM module")
      | Some wasm_bytes => validate_guest_module k (wasm_defaults id module_path) wasm_bytes (64 * 1024 * 1024)
      end.
Proof.
  unfold validate_config. cbn [wc_module_path wasm_defaults]. case_bool_decide; [done|].
  destruct (read_file module_path) as [b|]; reflexivity.
Qed.

End Transformer.

Module TransformerDemo.
Import Guard.Demo WorkerDemo.
#[local] Existing Instances WorkerDemo.wasm WorkerDemo.codec.

(** A module's bytes are its number. *)
#[local] Instance toolchain : Toolchain N := {|
  read_file _ := Some [2];
  sha256_hex b := text "ab" ++ map (N.add 48) b;
  compile b := head b;
  engine_new _ _ := true;
|}.

(** The witness: two caches move to module 2, and a bad hash moves none. *)
Lemma reload_all_or_nothing_witness :
  map module (stage_and_publish_module (RB := TBatch) (J := unit) 0 [new_pooling; (publish_module 1 new_pooling).1] [2] (Some (text "AB2"))).1 = [Some 2; Some 2] /\
  match stage_and_publish_module (RB := TBatch) (J := unit) 0 [new_pooling; (publish_module 1 new_pooling).1] [2] (Some (text "ac2")) with
  | (engines', Err _) => engines' = [new_pooling; (publish_module 1 new_pooling).1]
  | (engines', Ok _) =>
      Forall2 (fun c c' => exists m, verified (RB := TBatch) (J := unit) [2] (Some (text "ac2")) m /\ holds m c' /\ coherent c' /\
        (ec_generation c < u64_max -> ec_generation c' = ec_generation c + 1)) [new_pooling; (publish_module 1 new_pooling).1] engines'
  end.
Proof.
  split; [vm_compute; reflexivity|].
  apply (reload_all_or_nothing (RB := TBatch) (J := unit) 0 [new_pooling; (publish_module 1 new_pooling).1] [2] (Some (text "ac2"))).
Defined.

End TransformerDemo.
