(* ===== verification/Bulk.v ===== *)
(** Bulk requests to Elasticsearch: crates/elasticsearch-sink/src/client.rs.

    The HTTP stack (reqwest, TLS, compression, signing) and the cluster behind
    it are one parameter: what the [n]-th request to an endpoint with a payload
    is answered.  A bulk item keeps the fields the code decides on: its index,
    identifier, status, and error type and reason. *)

From stdpp Require Import pretty.
From S2P Require Import Prelude Text.
Local Open Scope N_scope.

Inductive ElasticsearchError : Type :=
| EsStartupValidation (msg : string)
| EsAuthenticationFailed (msg : string)
| EsSerialization (msg : string)
| EsBulkFailed (retries : N) (msg : string)
| EsHttp (msg : string)
| EsPayloadTooLarge (actual limit : N).

Record BulkItemError := mkItemError { bie_type : bytes; bie_reason : bytes }.

Record BulkItem := mkBulkItem {
  bi_index : option bytes; bi_id : option bytes; bi_status : N; bi_error : option BulkItemError }.

Record BulkItemWrapper := mkWrapper {
  biw_create : option BulkItem; biw_index : option BulkItem; biw_update : option BulkItem; biw_delete : option BulkItem }.

Definition item (w : BulkItemWrapper) : option BulkItem :=
  match biw_create w with Some i => Some i | None =>
  match biw_index w with Some i => Some i | None =>
  match biw_update w with Some i => Some i | None => biw_delete w end end end.

Definition status (w : BulkItemWrapper) : option N := option_map bi_status (item w).

Definition is_recoverable (w : BulkItemWrapper) : bool :=
  match status w with Some s => (s =? 429) || (s =? 500) || (s =? 503) | None => false end.

Definition is_unrecoverable (w : BulkItemWrapper) : bool :=
  match status w with
  | Some s => (400 <=? s) && negb (s =? 429) && negb (s =? 500) && negb (s =? 503)
  | None => false
  end.

Record BulkResponse := mkBulkResponse { br_took : N; br_errors : bool; br_items : list BulkItemWrapper }.

Definition recoverable_count (r : BulkResponse) : nat := length (List.filter is_recoverable (br_items r)).
Definition unrecoverable_count (r : BulkResponse) : nat := length (List.filter is_unrecoverable (br_items r)).

(** ** Sub-payloads *)

Definition is_blank_byte (c : N) : bool := (c =? 13) || (c =? 10) || (c =? 32) || (c =? 9).

Definition line_if_any (payload : bytes) (line_start line_end : nat) : list (nat * nat) :=
  if forallb is_blank_byte (slice line_start line_end payload) then [] else [(line_start, line_end)].

(** The ranges of the lines that are not blank. *)
Fixpoint scan_lines (payload rest : bytes) (idx line_start : nat) : list (nat * nat) :=
  match rest with
  | [] => if (line_start <? length payload)%nat then line_if_any payload line_start (length payload) else []
  | b :: rest =>
      if b =? 10 then line_if_any payload line_start (S idx) ++ scan_lines payload rest (S idx) (S idx)
      else scan_lines payload rest (S idx) line_start
  end.

Definition ends_with_newline (s : bytes) : bool := bool_decide (last s = Some 10).

(** The bytes of one selected item, with the newline it may lack. *)
Definition select_item (payload : bytes) (line_ranges : list (nat * nat)) (total_items idx : nat) : result bytes ElasticsearchError :=
  if (total_items <=? idx)%nat then Err (EsSerialization "item index out of bounds")
  else
    match line_ranges !! (2 * idx)%nat, line_ranges !! (2 * idx + 1)%nat with
    | Some (action_start, _), Some (_, doc_end) =>
        let slice := slice action_start doc_end payload in
        Ok (if ends_with_newline slice then slice else slice ++ [10])
    | _, _ => Err (EsSerialization "missing line range")
    end.

Fixpoint select_items (payload : bytes) (line_ranges : list (nat * nat)) (total_items : nat) (item_indices : list nat)
  : result bytes ElasticsearchError :=
  match item_indices with
  | [] => Ok []
  | idx :: item_indices =>
      let? b := select_item payload line_ranges total_items idx in
      let? rest := select_items payload line_ranges total_items item_indices in
      Ok (b ++ rest)
  end.

Definition extract_sub_payload (payload : bytes) (item_indices : list nat) : result bytes ElasticsearchError :=
  if bool_decide (item_indices = []) then Ok []
  else
    let line_ranges := scan_lines payload payload 0 0 in
    if negb (length line_ranges mod 2 =? 0)%nat then Err (EsSerialization "payload has an odd number of lines")
    else select_items payload line_ranges (length line_ranges / 2) item_indices.

(** ** Endpoints *)

Record Endpoints := mkEndpoints { ep_urls : list bytes; ep_cooldowns : list N; ep_current : N }.

#[export] Instance Endpoints_eta : RecordEta Endpoints := fun e => mkEndpoints (ep_urls e) (ep_cooldowns e) (ep_current e).

(** The first endpoint from [start] on whose cooldown is over. *)
Fixpoint first_warm (cooldowns : list N) (now : N) (start count : nat) (offsets : list nat) : option nat :=
  match offsets with
  | [] => None
  | offset :: offsets =>
      let candidate := ((start + offset) mod count)%nat in
      if (default 0 (cooldowns !! candidate)) <=? now then Some candidate
      else first_warm cooldowns now start count offsets
  end.

Definition next_endpoint (now : N) (e : Endpoints) : Endpoints * bytes :=
  let count := length (ep_urls e) in
  let url i := default [] (ep_urls e !! i) in
  if (count =? 0)%nat then (e, [])
  else if (count =? 1)%nat then (e, url 0%nat)
  else
    let start_idx := N.to_nat (ep_current e mod N.of_nat count) in
    let e := e <| ep_current := (ep_current e + 1) mod (usize_max + 1) |> in
    match first_warm (ep_cooldowns e) now start_idx count (seq 0 count) with
    | Some candidate => (e, url candidate)
    | None => (e, url start_idx)
    end.

(** [trim().trim_end_matches('/')]. *)
Fixpoint drop_slashes (s : bytes) : bytes := match s with 47 :: s => drop_slashes s | _ => s end.
Definition normalise_endpoint (s : bytes) : bytes := reverse (drop_slashes (reverse (trim s))).

Definition endpoint_position (e : Endpoints) (endpoint : bytes) : option nat :=
  position (fun ep => bool_decide (ep = normalise_endpoint endpoint)) (ep_urls e).

Definition mark_endpoint_failed (now : N) (endpoint : bytes) (e : Endpoints) : Endpoints :=
  match endpoint_position e endpoint with
  | Some pos => e <| ep_cooldowns := <[pos := now +u64 10]> (ep_cooldowns e) |>
  | None => e
  end.

Definition is_endpoint_in_cooldown (now : N) (endpoint : bytes) (e : Endpoints) : bool :=
  match endpoint_position e endpoint with
  | Some pos => match ep_cooldowns e !! pos with Some c => now <? c | None => false end
  | None => false
  end.

(** [HttpClient::try_new], the endpoints. *)
Definition try_new_endpoints (endpoints : list bytes) (insecure : bool) : result Endpoints ElasticsearchError :=
  if bool_decide (endpoints = []) then Err (EsStartupValidation "at least one endpoint must be configured")
  else
    let urls := map normalise_endpoint endpoints in
    if existsb (fun u => bool_decide (u = [])) urls then Err (EsStartupValidation "endpoint URL cannot be empty")
    else if insecure then Err (EsStartupValidation "disabling TLS certificate verification is prohibited")
    else Ok (mkEndpoints urls (replicate (length urls) 0) 0).

(** ** Retries *)

Definition is_transient_http_status (s : N) : bool :=
  (s =? 500) || (s =? 429) || (s =? 503) || (s =? 502) || (s =? 504).

Fixpoint merge_retry_items (final_items : list BulkItemWrapper) (active_indices : list nat) (retry_items : list BulkItemWrapper)
  : list BulkItemWrapper :=
  match active_indices, retry_items with
  | orig_idx :: active_indices, w :: retry_items =>
      let final_items := if (orig_idx <? length final_items)%nat then <[orig_idx:=w]> final_items else final_items in
      merge_retry_items final_items active_indices retry_items
  | _, _ => final_items
  end.

(** The positions of the recoverable items, from [sub_idx] on. *)
Fixpoint inspect_active_items (final_items : list BulkItemWrapper) (active_indices : list nat) (sub_idx : nat) : list nat :=
  match active_indices with
  | [] => []
  | orig_idx :: active_indices =>
      match final_items !! orig_idx with
      | Some w => (if is_recoverable w then [sub_idx] else []) ++ inspect_active_items final_items active_indices (S sub_idx)
      | None => inspect_active_items final_items active_indices (S sub_idx)
      end
  end.

Definition prepare_sub_payload_retry (current_payload : bytes) (final_items : list BulkItemWrapper) (active_indices : list nat)
  : result (option (bytes * list nat)) ElasticsearchError :=
  let recoverable := inspect_active_items final_items active_indices 0 in
  if bool_decide (recoverable = []) then Ok None
  else
    let? next_payload := extract_sub_payload current_payload recoverable in
    Ok (Some (next_payload, omap (fun sub_idx => active_indices !! sub_idx) recoverable)).

(** An answer: its status code with the reason phrase, its body as text, and as
    the JSON of a bulk response, or the error of the decoder. *)
Inductive HttpReply : Type :=
| NetworkError (err : string)
| Reply (http_status : N) (phrase err_text : string) (body : result BulkResponse string).

Definition is_success (s : N) : bool := (200 <=? s) && (s <? 300).

(** The [Display] of a status code. *)
Definition status_text (s : N) (phrase : string) : string := (pretty s +:+ " " +:+ phrase)%string.

Definition check_bulk_status (s : N) (phrase err_text : string) (attempt : N) : result unit ElasticsearchError :=
  if (s =? 401) || (s =? 403) then Err (EsAuthenticationFailed ("HTTP " +:+ status_text s phrase +:+ ": " +:+ err_text)%string)
  else if negb (is_success s) then Err (EsBulkFailed attempt ("HTTP " +:+ status_text s phrase +:+ ": " +:+ err_text)%string)
  else Ok tt.

(** The milliseconds of [sleep_backoff], before jitter; 0 is a yield. *)
Definition backoff_ms (retry_interval_secs attempt : N) : N :=
  if retry_interval_secs =? 0 then 0
  else
    let base_ms := N.max (retry_interval_secs *u64 1000) 100 in
    base_ms *u64 N.shiftl 1 (N.min (attempt -s 1) 6).

(** The seconds of [Retry-After]: an integer, or a date [http_date] knows,
    relative to now. *)
Definition parse_retry_after (http_date : bytes -> option N) (header : option bytes) : option N :=
  match header with
  | None => None
  | Some value =>
      let s := trim value in
      match parse_unsigned u64_max s with Some seconds => Some seconds | None => http_date s end
  end.

(** The delay before a retry of a transient answer, at most a minute. *)
Definition transient_delay_ms (retry_after : option N) (retry_interval_secs attempt : N) : N :=
  match retry_after with Some seconds => 1000 * N.min seconds 60 | None => backoff_ms retry_interval_secs attempt end.

(** ** Wildcards

    Strings are their characters here. *)

Fixpoint skip_stars (p : list N) : list N := match p with 42 :: p => skip_stars p | _ => p end.

(** Some suffix of the target, the empty one last. *)
Fixpoint any_suffix (f : list N -> bool) (t : list N) : bool :=
  f t || match t with [] => false | _ :: t => any_suffix f t end.

Fixpoint match_recursive (fuel : nat) (p t : list N) : bool :=
  match fuel with
  | O => false
  | S fuel =>
      match p with
      | [] => bool_decide (t = [])
      | c :: p' =>
          if c =? 42 then
            match skip_stars p' with [] => true | p => any_suffix (match_recursive fuel p) t end
          else if c =? 63 then match t with [] => false | _ :: t => match_recursive fuel p' t end
          else match t with [] => false | d :: t => if d =? c then match_recursive fuel p' t else false end
      end
  end.

Definition pattern_matches (pattern target : list N) : bool :=
  if bool_decide (pattern = [42]) then true else match_recursive (S (length pattern)) pattern target.

Section SendBulk.
(** The answer to the [n]-th request, and the clock at that time. *)
Variable post : nat -> bytes -> bytes -> HttpReply.
Variable clock : nat -> N.
Variable max_retries : N.

Definition max_attempts : N := max_retries +us 1.

(** The state of the loop; [sb_requests] counts the requests made. *)
Record BulkState := mkBulkState {
  sb_endpoints : Endpoints;
  sb_requests : nat;
  sb_attempt : N;
  sb_payload : bytes;
  sb_active : list nat;
  sb_items : list BulkItemWrapper;
  sb_took : N;
}.

#[export] Instance BulkState_eta : RecordEta BulkState := fun s =>
  mkBulkState (sb_endpoints s) (sb_requests s) (sb_attempt s) (sb_payload s) (sb_active s) (sb_items s) (sb_took s).

Abbreviation Outcome := (Endpoints * result BulkResponse ElasticsearchError)%type.

(** One more attempt, or the end of them with a message about the last one. *)
Definition next_attempt (message : N -> string) (s : BulkState) : BulkState + Outcome :=
  let s := s <| sb_attempt := sb_attempt s +us 1 |> in
  if max_attempts <=? sb_attempt s then inr (sb_endpoints s, Err (EsBulkFailed max_retries (message (sb_attempt s)))) else inl s.

Definition status_message (s : N) (phrase : string) (attempt : N) : string :=
  ("HTTP " +:+ status_text s phrase +:+ " after " +:+ pretty attempt +:+ " attempts")%string.

Definition network_message (err : string) (attempt : N) : string :=
  ("network error after " +:+ pretty attempt +:+ " attempts: " +:+ err)%string.

Definition items_message (next_indices : list nat) : string :=
  (pretty (length next_indices) +:+ " items failed with recoverable status (429/500/503) after " +:+ pretty max_retries +:+ " retries")%string.

(** A parsed bulk answer. *)
Definition handle_bulk (bulk_resp : BulkResponse) (s : BulkState) : BulkState + Outcome :=
  let s := s <| sb_took := sb_took s +u64 br_took bulk_resp |> in
  if bool_decide (sb_items s = []) && negb (br_errors bulk_resp) then inr (sb_endpoints s, Ok bulk_resp)
  else
    let s :=
      if bool_decide (sb_items s = [])
      then s <| sb_items := br_items bulk_resp |> <| sb_active := seq 0 (length (br_items bulk_resp)) |>
      else s <| sb_items := merge_retry_items (sb_items s) (sb_active s) (br_items bulk_resp) |> in
    match prepare_sub_payload_retry (sb_payload s) (sb_items s) (sb_active s) with
    | Err e => inr (sb_endpoints s, Err e)
    | Ok None => inr (sb_endpoints s, Ok (mkBulkResponse (sb_took s) (existsb is_unrecoverable (sb_items s)) (sb_items s)))
    | Ok (Some (next_payload, next_indices)) =>
        match next_attempt (fun _ => items_message next_indices) s with
        | inl s => inl (s <| sb_payload := next_payload |> <| sb_active := next_indices |>)
        | inr out => inr out
        end
    end.

Definition send_turn (s : BulkState) : BulkState + Outcome :=
  let n := sb_requests s in
  let '(endpoints, endpoint) := next_endpoint (clock n) (sb_endpoints s) in
  let s := s <| sb_endpoints := endpoints |> <| sb_requests := S n |> in
  let failed := s <| sb_endpoints := mark_endpoint_failed (clock n) endpoint endpoints |> in
  match post n endpoint (sb_payload s) with
  | NetworkError err => next_attempt (network_message err) failed
  | Reply http_status phrase err_text body =>
      if is_transient_http_status http_status then next_attempt (status_message http_status phrase) failed
      else
        match check_bulk_status http_status phrase err_text (sb_attempt s) with
        | Err e => inr (sb_endpoints s, Err e)
        | Ok _ =>
            match body with
            | Err e => inr (sb_endpoints s, Err (EsHttp e))
            | Ok bulk_resp => handle_bulk bulk_resp s
            end
        end
  end.

(** Every turn that goes on is one more attempt of a [usize]: 2^64 are enough. *)
Definition send_fuel : positive := 18446744073709551616.

Definition bulk_start (e : Endpoints) (payload : bytes) : BulkState := mkBulkState e 0 0 payload [] [] 0.

Definition send_bulk (e : Endpoints) (payload : bytes) : BulkState + Outcome :=
  loop_until send_fuel send_turn (bulk_start e payload).

End SendBulk.

(** ** Sub-payloads are the selected documents *)

(** A document is its action line and its source line. *)
Definition doc : Type := bytes * bytes.

Definition line_ok (l : bytes) : Prop := (10 ∉ l) /\ forallb is_blank_byte l = false.

Definition doc_ok (d : doc) : Prop := line_ok d.1 /\ line_ok d.2.

Definition render_doc (d : doc) : bytes := (d.1 ++ [10]) ++ (d.2 ++ [10]).

Definition render (docs : list doc) : bytes := concat (map render_doc docs).

Definition pick (docs : list doc) (idxs : list nat) : list doc := omap (fun i => docs !! i) idxs.

(** The ranges of lines that follow each other from [start] on. *)
Fixpoint spans (start : nat) (lines : list bytes) : list (nat * nat) :=
  match lines with
  | [] => []
  | l :: lines => (start, (start + length l + 1)%nat) :: spans (start + length l + 1) lines
  end.

Definition doc_lines (docs : list doc) : list bytes := concat (map (fun d => [d.1; d.2]) docs).

Lemma render_lines docs : render docs = concat (map (fun l => l ++ [10]) (doc_lines docs)).
Proof.
  unfold render, doc_lines. induction docs as [|d docs IH]; [done|]. cbn [map concat app]. rewrite IH. unfold render_doc. by rewrite <- !app_assoc.
Qed.

Lemma scan_line payload l rest idx ls :
  10 ∉ l -> scan_lines payload (l ++ 10 :: rest) idx ls
  = line_if_any payload ls (S (idx + length l)) ++ scan_lines payload rest (S (idx + length l)) (S (idx + length l)).
Proof.
  revert idx. induction l as [|b l IH]; intros idx Hl; cbn [app scan_lines length].
  - by rewrite Nat.add_0_r.
  - apply not_elem_of_cons in Hl as [Hb Hl]. destruct (N.eqb_spec b 10) as [->|_]; [done|]. rewrite IH by done.
    by rewrite <- Nat.add_succ_comm.
Qed.

Lemma scan_lines_spans pre lines :
  Forall line_ok lines -> let text := concat (map (fun l => l ++ [10]) lines) in
  scan_lines (pre ++ text) text (length pre) (length pre) = spans (length pre) lines.
Proof.
  cbv zeta. revert pre. induction lines as [|l lines IH]; intros pre Hok; cbn [map concat].
  - rewrite app_nil_r. cbn [scan_lines]. by rewrite Nat.ltb_irrefl.
  - inversion_clear Hok as [|? ? [Hn Hb] Hok']. rewrite <- app_assoc. cbn [app]. rewrite scan_line by done.
    set (text := concat (map (fun l0 => l0 ++ [10]) lines)). unfold line_if_any.
    replace (slice (length pre) (S (length pre + length l)) (pre ++ l ++ 10 :: text)) with (l ++ [10]).
    + rewrite forallb_app, Hb. cbn [andb app spans]. f_equal; [f_equal; lia|].
      specialize (IH (pre ++ l ++ [10]) Hok'). rewrite !length_app in IH. cbn [length] in IH. fold text in IH.
      replace (S (length pre + length l)) with (length pre + (length l + 1))%nat by lia.
      replace (length pre + length l + 1)%nat with (length pre + (length l + 1))%nat by lia.
      rewrite <- IH. by rewrite <- !app_assoc.
    + rewrite slice_app_r by lia. rewrite Nat.sub_diag. replace (S (length pre + length l) - length pre)%nat with (length (l ++ [10])).
      2: { rewrite length_app. cbn. lia. }
      change (l ++ 10 :: text) with (l ++ [10] ++ text). rewrite app_assoc. rewrite slice_app_l by lia. by rewrite slice_all.
Qed.

Lemma length_spans start lines : length (spans start lines) = length lines.
Proof. revert start. induction lines as [|l lines IH]; intros start; cbn; [done | by rewrite IH]. Qed.

Lemma spans_lookup start pre l post :
  spans start (pre ++ l :: post) !! length pre
  = Some ((start + length (concat (map (fun l => l ++ [10%N]) pre)))%nat, (start + length (concat (map (fun l => l ++ [10%N]) pre)) + length l + 1)%nat).
Proof.
  revert start. induction pre as [|x pre IH]; intros start; cbn [app length spans map concat].
  - by rewrite Nat.add_0_r.
  - change (spans (start + length x + 1) (pre ++ l :: post) !! length pre = Some
      ((start + length ((x ++ [10%N]) ++ concat (map (fun l => l ++ [10%N]) pre)))%nat,
       (start + length ((x ++ [10%N]) ++ concat (map (fun l => l ++ [10%N]) pre)) + length l + 1)%nat)).
    rewrite IH, !length_app. cbn [length]. do 2 f_equal; lia.
Qed.

Lemma doc_lines_length docs : length (doc_lines docs) = (2 * length docs)%nat.
Proof. unfold doc_lines. induction docs as [|d docs IH]; [done|]. cbn [map concat]. rewrite length_app, IH. cbn. lia. Qed.

Lemma doc_lines_ok docs : Forall doc_ok docs -> Forall line_ok (doc_lines docs).
Proof. unfold doc_lines. induction 1 as [|d docs [H1 H2] Hd IH]; [constructor|]. cbn [map concat]. apply Forall_app. split; [by rewrite !Forall_cons | done]. Qed.

Lemma select_item_render docs i d :
  Forall doc_ok docs -> docs !! i = Some d ->
  select_item (render docs) (spans 0 (doc_lines docs)) (length docs) i = Ok (render_doc d).
Proof.
  intros Hok Hi. unfold select_item. pose proof (lookup_lt_Some _ _ _ Hi) as Hlt. destruct (Nat.leb_spec (length docs) i); [lia|].
  pose proof (take_drop_middle docs i d Hi) as Hdocs. set (pre := take i docs) in *. set (post := drop (S i) docs) in *.
  assert (Hpre : length pre = i) by (unfold pre; rewrite length_take; lia).
  assert (Hlines : doc_lines docs = doc_lines pre ++ d.1 :: d.2 :: doc_lines post).
  { rewrite <- Hdocs. unfold doc_lines. rewrite map_app, concat_app. done. }
  rewrite Hlines. pose proof (doc_lines_length pre) as Hlen. rewrite Hpre in Hlen. rewrite <- Hlen.
  rewrite spans_lookup. replace (length (doc_lines pre) + 1)%nat with (length (doc_lines pre ++ [d.1])) by (rewrite length_app; done).
  change (doc_lines pre ++ d.1 :: d.2 :: doc_lines post) with (doc_lines pre ++ [d.1] ++ d.2 :: doc_lines post). rewrite app_assoc, spans_lookup.
  rewrite map_app, concat_app, length_app, <- !render_lines. cbn [map concat app]. rewrite app_nil_r, !Nat.add_0_l, length_app. cbn [length].
  assert (Hslice : slice (length (render pre)) (length (render pre) + (length d.1 + 1) + length d.2 + 1) (render docs) = render_doc d).
  { rewrite <- Hdocs. unfold render at 3. rewrite map_app, concat_app. cbn [map concat]. fold (render pre). fold (render post).
    rewrite slice_app_r by lia. rewrite Nat.sub_diag.
    replace (length (render pre) + (length d.1 + 1) + length d.2 + 1 - length (render pre))%nat with (length (render_doc d)).
    2: { unfold render_doc. rewrite !length_app. cbn. lia. }
    rewrite slice_app_l by lia. by rewrite slice_all. }
  rewrite Hslice. unfold ends_with_newline, render_doc. rewrite app_assoc, last_snoc. by rewrite bool_decide_true.
Qed.

Lemma extract_sub_payload_render docs idxs :
  Forall doc_ok docs -> Forall (fun i => (i < length docs)%nat) idxs ->
  extract_sub_payload (render docs) idxs = Ok (render (pick docs idxs)).
Proof.
  intros Hok Hi. unfold extract_sub_payload. case_bool_decide as He; [by subst|]. clear He.
  pose proof (scan_lines_spans [] (doc_lines docs) (doc_lines_ok docs Hok)) as Hs. cbv zeta in Hs. rewrite <- render_lines in Hs.
  cbn [app length] in Hs. rewrite Hs, length_spans, doc_lines_length.
  replace (2 * length docs)%nat with (length docs * 2)%nat by lia. rewrite Nat.Div0.mod_mul, Nat.div_mul by done. cbn [Nat.eqb negb].
  induction Hi as [|i idxs Hlt Hi IH]; [done|]. cbn [select_items pick omap list_omap].
  destruct (lookup_lt_is_Some_2 docs i Hlt) as [d Hd]. rewrite (select_item_render docs i d Hok Hd), IH, Hd. reflexivity.
Qed.

(** ** Retries follow the documents *)

Definition recoverable_at (items : list BulkItemWrapper) (i : nat) : bool :=
  match items !! i with Some w => is_recoverable w | None => false end.

Lemma filter_omap_positions items pre active :
  omap (fun p => (pre ++ active) !! p) (inspect_active_items items active (length pre)) = List.filter (recoverable_at items) active.
Proof.
  revert pre. induction active as [|i active IH]; intros pre; [done|]. cbn [inspect_active_items List.filter].
  specialize (IH (pre ++ [i])). rewrite <- app_assoc in IH. cbn [app] in IH. rewrite length_app, Nat.add_1_r in IH.
  unfold recoverable_at at 1. destruct (items !! i) as [w|]; [|exact IH]. destruct (is_recoverable w); [|exact IH].
  cbn [app omap list_omap]. rewrite list_lookup_middle by done. f_equal. exact IH.
Qed.

Lemma inspect_positions items active k : Forall (fun p => (k <= p < k + length active)%nat) (inspect_active_items items active k).
Proof.
  revert k. induction active as [|i active IH]; intros k; [constructor|]. cbn [inspect_active_items length].
  assert (Hr : Forall (fun p => (k <= p < k + S (length active))%nat) (inspect_active_items items active (S k))).
  { eapply Forall_impl; [apply IH|]. cbn. lia. }
  destruct (items !! i) as [w|]; [|done]. apply Forall_app. split; [|done]. destruct (is_recoverable w); repeat constructor; lia.
Qed.

Lemma inspect_nil items active : inspect_active_items items active 0 = [] <-> List.filter (recoverable_at items) active = [].
Proof.
  pose proof (filter_omap_positions items [] active) as Hf. cbn [app length] in Hf. rewrite <- Hf.
  split; [by intros ->|]. pose proof (inspect_positions items active 0) as Hp.
  destruct (inspect_active_items items active 0) as [|p ps]; [done|]. inversion_clear Hp as [|? ? Hlt _]. cbn [omap list_omap].
  destruct (lookup_lt_is_Some_2 active p ltac:(lia)) as [i Hi]. by rewrite Hi.
Qed.

Lemma pick_lookup docs idxs p : Forall (fun i => (i < length docs)%nat) idxs -> pick docs idxs !! p = (idxs !! p) ≫= (fun i => docs !! i).
Proof.
  intros Hi. revert p. induction Hi as [|i idxs Hlt Hi IH]; intros p; [done|]. cbn [pick omap list_omap].
  destruct (lookup_lt_is_Some_2 docs i Hlt) as [d Hd]. rewrite Hd. destruct p as [|p]; [by cbn; rewrite Hd | apply IH].
Qed.

Lemma pick_length docs idxs : Forall (fun i => (i < length docs)%nat) idxs -> length (pick docs idxs) = length idxs.
Proof.
  induction 1 as [|i idxs Hlt Hi IH]; [done|]. cbn [pick omap list_omap].
  destruct (lookup_lt_is_Some_2 docs i Hlt) as [d Hd]. rewrite Hd. cbn. by rewrite <- IH.
Qed.

Lemma pick_pick docs active ps : Forall (fun i => (i < length docs)%nat) active ->
  pick (pick docs active) ps = pick docs (omap (fun p => active !! p) ps).
Proof.
  intros Ha. induction ps as [|p ps IH]; [done|]. cbn [pick omap list_omap]. rewrite pick_lookup by done.
  destruct (active !! p) as [i|] eqn:Ei; cbn [mbind option_bind]; [|exact IH]. cbn [omap list_omap].
  destruct (docs !! i); [f_equal; exact IH | exact IH].
Qed.

Lemma pick_all docs : pick docs (seq 0 (length docs)) = docs.
Proof.
  apply list_eq. intros p. rewrite pick_lookup by (apply Forall_forall; intros i Hi; apply list_elem_of_In, List.in_seq in Hi; lia).
  destruct (decide (p < length docs)%nat) as [Hp|Hp]; [by rewrite lookup_seq_lt|].
  rewrite (lookup_seq_ge 0) by lia. cbn. symmetry. apply lookup_ge_None_2. lia.
Qed.

Lemma pick_ok docs idxs : Forall doc_ok docs -> Forall doc_ok (pick docs idxs).
Proof.
  intros Hd. apply Forall_forall. intros d Hin. unfold pick in Hin. apply list_elem_of_omap in Hin as (i & _ & Hi).
  rewrite Forall_lookup in Hd. by eapply Hd.
Qed.

Lemma merge_lookup final active retry i :
  NoDup active -> Forall (fun j => (j < length final)%nat) active -> length retry = length active ->
  length (merge_retry_items final active retry) = length final /\
  (i ∉ active -> merge_retry_items final active retry !! i = final !! i) /\
  (forall p, active !! p = Some i -> merge_retry_items final active retry !! i = retry !! p).
Proof.
  revert final retry. induction active as [|j active IH]; intros final [|w retry] Hnd Hlt Hl; try done.
  apply NoDup_cons in Hnd as [Hj Hnd]. inversion_clear Hlt as [|? ? Hjl Hlt']. cbn [merge_retry_items].
  destruct (Nat.ltb_spec j (length final)) as [_|]; [|lia].
  assert (Hlt2 : Forall (fun j0 => (j0 < length (<[j:=w]> final))%nat) active) by (rewrite length_insert; done).
  destruct (IH (<[j:=w]> final) retry Hnd Hlt2 ltac:(by injection Hl)) as (H1 & H2 & H3). rewrite length_insert in H1. split_and!; [done| |].
  - intros Hi. apply not_elem_of_cons in Hi as [Hij Hi]. rewrite H2 by done. by apply list_lookup_insert_ne.
  - intros [|p] Hp; cbn in Hp |- *; [|by apply H3]. injection Hp as ->. rewrite H2 by done. by apply list_lookup_insert_eq.
Qed.

Lemma prepare_spec docs items active :
  Forall doc_ok docs -> Forall (fun i => (i < length docs)%nat) active ->
  prepare_sub_payload_retry (render (pick docs active)) items active =
  let next := List.filter (recoverable_at items) active in
  if bool_decide (next = []) then Ok None else Ok (Some (render (pick docs next), next)).
Proof.
  intros Hd Ha. unfold prepare_sub_payload_retry. cbv zeta.
  pose proof (filter_omap_positions items [] active) as Hf. cbn [app length] in Hf. pose proof (inspect_nil items active) as Hn.
  do 2 case_bool_decide; try tauto. rewrite extract_sub_payload_render.
  - by rewrite pick_pick, Hf.
  - by apply pick_ok.
  - rewrite pick_length by done. eapply Forall_impl; [apply inspect_positions|]. cbn. lia.
Qed.

Lemma filter_refine {A} (f g : A -> bool) l : (forall x, x ∈ l -> f x = true -> g x = true) -> List.filter f (List.filter g l) = List.filter f l.
Proof.
  induction l as [|x l IH]; intros Hfg; [done|]. cbn. specialize (IH (fun y Hy => Hfg y (list_elem_of_further _ _ _ Hy))).
  pose proof (Hfg x (list_elem_of_here _ _)) as Hx. destruct (g x) eqn:Eg; cbn; [by rewrite IH|]. destruct (f x); [|done]. by specialize (Hx eq_refl).
Qed.

Section SendBulkProofs.
Variable post : nat -> bytes -> bytes -> HttpReply.
Variable clock : nat -> N.
Variable max_retries : N.

(** The cluster's contract: a bulk request is answered item by item, in the
    order of its documents, and no item has failed when [errors] is false. *)
Hypothesis cluster : forall n endpoint ds s ph tx resp,
  Forall doc_ok ds -> post n endpoint (render ds) = Reply s ph tx (Ok resp) -> is_success s = true ->
  length (br_items resp) = length ds /\
  (br_errors resp = false -> Forall (fun w => is_recoverable w = false /\ is_unrecoverable w = false) (br_items resp)).

Variable docs : list doc.
Hypothesis docs_nonempty : docs <> [].
Hypothesis docs_ok : Forall doc_ok docs.

(** The cluster gave [w] for document [i]: some request carried it and was
    answered with [w] in its place. *)
Definition answered (i : nat) (w : BulkItemWrapper) : Prop :=
  exists n endpoint idxs s ph tx resp p,
    post n endpoint (render (pick docs idxs)) = Reply s ph tx (Ok resp) /\ is_success s = true /\
    idxs !! p = Some i /\ br_items resp !! p = Some w.

Definition in_range (idxs : list nat) : Prop := Forall (fun i => (i < length docs)%nat) idxs.

(** The next request carries the whole payload, or, once the cluster has
    answered, exactly the documents whose last answer was recoverable. *)
Definition carries (s : BulkState) : Prop :=
  (sb_items s = [] /\ sb_payload s = render docs) \/
  (length (sb_items s) = length docs /\ (forall i w, sb_items s !! i = Some w -> answered i w) /\
   sb_active s = List.filter (recoverable_at (sb_items s)) (seq 0 (length docs)) /\
   sb_payload s = render (pick docs (sb_active s))).

Definition settled (r : result BulkResponse ElasticsearchError) : Prop :=
  match r with
  | Ok resp =>
      length (br_items resp) = length docs /\
      (forall i w, br_items resp !! i = Some w -> answered i w /\ is_recoverable w = false) /\
      br_errors resp = existsb is_unrecoverable (br_items resp)
  | Err _ => True
  end.

Lemma seq_in_range : in_range (seq 0 (length docs)).
Proof. apply Forall_forall. intros i Hi. apply list_elem_of_In, List.in_seq in Hi. lia. Qed.

Lemma filter_in_range f : in_range (List.filter f (seq 0 (length docs))).
Proof. apply Forall_forall. intros i Hi. apply list_elem_of_In, List.filter_In in Hi as [Hi _]. apply List.in_seq in Hi. lia. Qed.

(** The two ways a step ends, for its use in [send_turn]. *)
Definition turn_ok (r : BulkState + (Endpoints * result BulkResponse ElasticsearchError)) : Prop :=
  match r with inl s => carries s | inr (_, r) => settled r end.

Lemma next_attempt_ok m s s' : carries s' -> sb_payload s' = sb_payload s -> sb_active s' = sb_active s -> sb_items s' = sb_items s ->
  turn_ok (next_attempt max_retries m s).
Proof.
  intros Hc Hp Ha Hi. unfold next_attempt, turn_ok. destruct (max_attempts max_retries <=? _); [done|].
  unfold carries in *. cbn. by rewrite <- Hp, <- Ha, <- Hi.
Qed.

(** After the answers are recorded, the rest of the step is right. *)
Lemma recorded_ok s active0 :
  length (sb_items s) = length docs -> (forall i w, sb_items s !! i = Some w -> answered i w) ->
  sb_active s = active0 -> in_range active0 -> sb_payload s = render (pick docs active0) ->
  List.filter (recoverable_at (sb_items s)) active0 = List.filter (recoverable_at (sb_items s)) (seq 0 (length docs)) ->
  turn_ok (match prepare_sub_payload_retry (sb_payload s) (sb_items s) (sb_active s) with
    | Err e => inr (sb_endpoints s, Err e)
    | Ok None => inr (sb_endpoints s, Ok (mkBulkResponse (sb_took s) (existsb is_unrecoverable (sb_items s)) (sb_items s)))
    | Ok (Some (next_payload, next_indices)) =>
        match next_attempt max_retries (fun _ => items_message max_retries next_indices) s with
        | inl s => inl (s <| sb_payload := next_payload |> <| sb_active := next_indices |>)
        | inr out => inr out
        end
    end).
Proof.
  intros Hl Hans Hact Hr Hpay Hf. rewrite Hact, Hpay, prepare_spec by done. cbv zeta. rewrite Hf. case_bool_decide as Hnil.
  - cbn. split_and!; [done| |done]. intros i w Hw. split; [by apply Hans|].
    pose proof (lookup_lt_Some _ _ _ Hw) as Hlt. rewrite Hl in Hlt.
    assert (Hni : recoverable_at (sb_items s) i = false).
    { destruct (recoverable_at (sb_items s) i) eqn:Er; [|done].
      assert (Hin : In i (List.filter (recoverable_at (sb_items s)) (seq 0 (length docs)))) by (apply List.filter_In; split; [apply List.in_seq; lia | done]).
      by rewrite Hnil in Hin. }
    unfold recoverable_at in Hni. by rewrite Hw in Hni.
  - unfold next_attempt. destruct (max_attempts max_retries <=? _); [done|]. right. cbn. by split_and!.
Qed.

Lemma handle_bulk_ok n endpoint s st ph tx resp :
  carries s -> post n endpoint (sb_payload s) = Reply st ph tx (Ok resp) -> is_success st = true ->
  turn_ok (handle_bulk max_retries resp s).
Proof.
  intros Hc Hpost Hst. unfold handle_bulk. cbv zeta. change (sb_items (s <| sb_took := _ |>)) with (sb_items s).
  destruct Hc as [[Hnil Hpay]|(Hl & Hans & Hact & Hpay)].
  - rewrite Hnil, bool_decide_true by done. cbn [andb]. rewrite Hpay in Hpost.
    destruct (cluster _ _ _ _ _ _ _ docs_ok Hpost Hst) as [Hlen Herr].
    assert (Hans : forall i w, br_items resp !! i = Some w -> answered i w).
    { intros i w Hw. exists n, endpoint, (seq 0 (length docs)), st, ph, tx, resp, i. rewrite pick_all. split_and!; try done.
      apply lookup_seq_lt. apply lookup_lt_Some in Hw. lia. }
    destruct (br_errors resp) eqn:Ee; cbn [negb].
    + rewrite Hlen. apply (recorded_ok _ (seq 0 (length docs))); try done; [apply seq_in_range | cbn; by rewrite pick_all].
    + specialize (Herr eq_refl). rewrite Forall_lookup in Herr. cbn. split_and!; [done | |].
      * intros i w Hw. split; [by apply Hans|]. by apply (Herr i w Hw).
      * symmetry. rewrite Ee. apply not_true_is_false. intros Hx. apply List.existsb_exists in Hx as (w & Hin & Hu).
        apply list_elem_of_In, list_elem_of_lookup in Hin as [i Hi]. destruct (Herr i w Hi). congruence.
  - assert (Hne : sb_items s <> []) by (intros E; rewrite E in Hl; destruct docs; done).
    rewrite bool_decide_false by done. cbn [andb]. rewrite Hpay in Hpost. rewrite Hact in Hpost.
    destruct (cluster _ _ _ _ _ _ _ (pick_ok docs _ docs_ok) Hpost Hst) as [Hlen _]. rewrite pick_length in Hlen by apply filter_in_range.
    assert (Hnd : NoDup (sb_active s)) by (rewrite Hact; apply NoDup_ListNoDup, List.NoDup_filter, NoDup_ListNoDup, NoDup_seq).
    assert (Hrange : Forall (fun j => (j < length (sb_items s))%nat) (sb_active s)) by (rewrite Hact, Hl; apply filter_in_range).
    rewrite <- Hact in Hlen. pose proof (fun i => merge_lookup (sb_items s) (sb_active s) (br_items resp) i Hnd Hrange Hlen) as Hm.
    change (sb_items (s <| sb_took := sb_took s +u64 br_took resp |>)) with (sb_items s).
    change (sb_active (s <| sb_took := sb_took s +u64 br_took resp |>)) with (sb_active s).
    set (items' := merge_retry_items (sb_items s) (sb_active s) (br_items resp)) in *. clearbody items'.
    apply (recorded_ok _ (sb_active s)); cbn; try done.
    + destruct (Hm 0%nat) as (Hl1 & _). etransitivity; [exact Hl1 | exact Hl].
    + intros i w Hw. destruct (Hm i) as (_ & Hout & Hin). destruct (decide (i ∈ sb_active s)) as [Hi|Hi].
      * apply list_elem_of_lookup in Hi as [p Hp]. rewrite (Hin p Hp) in Hw.
        exists n, endpoint, (sb_active s), st, ph, tx, resp, p. rewrite Hact in *. by split_and!.
      * rewrite (Hout Hi) in Hw. by apply Hans.
    + rewrite Hact. apply filter_in_range.
    + rewrite Hact at 1. apply filter_refine. intros i _ Hrec. unfold recoverable_at in *.
      destruct (Hm i) as (_ & Hout & _). destruct (decide (i ∈ sb_active s)) as [Hi|Hi]; [|by rewrite <- (Hout Hi)].
      rewrite Hact in Hi. apply list_elem_of_In, List.filter_In in Hi as [_ Hi]. exact Hi.
Qed.

Lemma send_turn_ok s : carries s -> turn_ok (send_turn post clock max_retries s).
Proof.
  intros Hc. unfold send_turn. destruct (next_endpoint _ _) as [eps endpoint].
  destruct (post _ endpoint _) as [err|st ph tx body] eqn:Ep; [by eapply next_attempt_ok|].
  destruct (is_transient_http_status st); [by eapply next_attempt_ok|].
  unfold check_bulk_status. destruct (_ || _); [done|]. destruct (is_success st) eqn:Es; cbn [negb]; [|done].
  destruct body as [resp|]; [|done]. by eapply handle_bulk_ok.
Qed.

Lemma send_turn_measure s s' : send_turn post clock max_retries s = inl s' ->
  max_attempts max_retries - sb_attempt s' < max_attempts max_retries - sb_attempt s.
Proof.
  assert (Hna : forall m s1 s2, next_attempt max_retries m s1 = inl s2 -> sb_attempt s2 < max_attempts max_retries /\ sb_attempt s1 < sb_attempt s2).
  { intros m s1 s2. unfold next_attempt. destruct (N.leb_spec (max_attempts max_retries) (sb_attempt (s1 <| sb_attempt := sb_attempt s1 +us 1 |>))) as [|Hlt]; [done|].
    intros E. injection E as <-. cbn in *. unfold max_attempts, sat_add in *. lia. }
  assert (Hend : forall m s1 s2, sb_attempt s1 = sb_attempt s -> next_attempt max_retries m s1 = inl s2 ->
    max_attempts max_retries - sb_attempt s2 < max_attempts max_retries - sb_attempt s) by (intros m s1 s2 E Hs; apply Hna in Hs; lia).
  unfold send_turn. destruct (next_endpoint _ _) as [eps endpoint]. destruct (post _ endpoint _) as [err|st ph tx body]; [by apply Hend|].
  destruct (is_transient_http_status st); [by apply Hend|]. destruct (check_bulk_status _ _ _ _); [|done]. destruct body as [resp|]; [|done].
  unfold handle_bulk. destruct (_ && _); [done|]. cbv zeta. set (s1 := if bool_decide _ then _ else _).
  assert (E1 : sb_attempt s1 = sb_attempt s) by (subst s1; by case_bool_decide).
  destruct (prepare_sub_payload_retry _ _ _) as [[[p idxs]|]|]; try done.
  destruct (next_attempt max_retries _ s1) as [s2|] eqn:E2; [|done]. intros E. injection E as <-. cbn. by eapply (Hend _ s1).
Qed.

Lemma send_bulk_settled (e : Endpoints) :
  (forall s, rtc (fun s s' => send_turn post clock max_retries s = inl s') (bulk_start e (render docs)) s -> carries s) /\
  exists e' r, send_bulk post clock max_retries e (render docs) = inr (e', r) /\ settled r.
Proof.
  assert (Hstart : carries (bulk_start e (render docs))) by (by left).
  split.
  - intros s Hs. revert Hstart. induction Hs as [|s s' s'' Hs _ IH]; [done|]. intros Hc. apply IH.
    pose proof (send_turn_ok s Hc) as Ht. by rewrite Hs in Ht.
  - unfold send_bulk. destruct (loop_until_exits (send_turn post clock max_retries)
      (fun s => max_attempts max_retries - sb_attempt s) send_fuel (bulk_start e (render docs))) as [[e' r] Hr].
    { apply send_turn_measure. }
    { pose proof (sat_add_le usize_max max_retries 1) as Hb. unfold max_attempts, send_fuel, usize_max, u64_max in *. cbn [sb_attempt bulk_start]. lia. }
    exists e', r. split; [done|].
    pose proof (loop_until_invariant (send_turn post clock max_retries) carries (fun out => settled out.2) send_fuel (bulk_start e (render docs))) as Hi.
    rewrite Hr in Hi. apply Hi; [|done]. intros s Hs. pose proof (send_turn_ok s Hs) as Ht. unfold turn_ok in Ht.
    by destruct (send_turn post clock max_retries s) as [|[]].
Qed.

(** C14 (send_bulk_accounts). Sending a payload always comes to an end. Every request
    after the first bulk answer carries exactly the documents whose last answer
    asked for a retry, so that no stored or refused document is sent again; and a
    success returns one item per document, each the cluster's own answer to that
    very document and none of them asking for a retry, with the error flag set
    exactly when some document was refused. *)
Theorem send_bulk_accounts (e : Endpoints) :
  (forall s, rtc (fun s s' => send_turn post clock max_retries s = inl s') (bulk_start e (render docs)) s -> carries s) /\
  exists e' r, send_bulk post clock max_retries e (render docs) = inr (e', r) /\ settled r.
Proof. apply send_bulk_settled. Qed.

End SendBulkProofs.

(** ** Wildcards match what they say *)

(** [*] is any text, [?] one character, anything else itself. *)
Inductive glob : list N -> list N -> Prop :=
| glob_nil : glob [] []
| glob_star p t1 t2 : glob p t2 -> glob (42 :: p) (t1 ++ t2)
| glob_one p c t : glob p t -> glob (63 :: p) (c :: t)
| glob_char p c t : c <> 42 -> c <> 63 -> glob p t -> glob (c :: p) (c :: t).

Lemma glob_star_iff p t : glob (42 :: p) t <-> exists t1 t2, t = t1 ++ t2 /\ glob p t2.
Proof.
  split; [|intros (t1 & t2 & -> & Hg); by constructor]. inversion 1; subst; [by eexists _, _|done].
Qed.

Lemma glob_stars p t : glob (42 :: p) t <-> exists t1 t2, t = t1 ++ t2 /\ glob (skip_stars p) t2.
Proof.
  revert t. induction p as [|c p IH]; intros t; [by rewrite glob_star_iff|].
  destruct (decide (c = 42)) as [->|Hc].
  - cbn [skip_stars]. rewrite glob_star_iff. split.
    + intros (t1 & t2 & -> & Hg). apply IH in Hg as (t3 & t4 & -> & Hg). exists (t1 ++ t3), t4. by rewrite app_assoc.
    + intros (t1 & t2 & -> & Hg). exists [], (t1 ++ t2). split; [done|]. apply IH. by exists t1, t2.
  - replace (skip_stars (c :: p)) with (c :: p); [by rewrite glob_star_iff|].
    cbn. repeat case_match; done.
Qed.

Lemma skip_stars_length p : (length (skip_stars p) <= length p)%nat.
Proof.
  induction p as [|c p IH]; [done|]. destruct (decide (c = 42)) as [->|Hc]; [cbn [skip_stars length]; lia|].
  replace (skip_stars (c :: p)) with (c :: p); [done|]. cbn. repeat case_match; done.
Qed.

Lemma any_suffix_true f t : any_suffix f t = true <-> exists t1 t2, t = t1 ++ t2 /\ f t2 = true.
Proof.
  induction t as [|c t IH]; cbn [any_suffix]; rewrite orb_true_iff.
  - split; [intros [Hf|?]; [by exists [], [] | done] | intros ([|] & t2 & Ht & Hf); cbn in Ht; [left; by subst | done]].
  - rewrite IH. split.
    + intros [Hf|(t1 & t2 & -> & Hf)]; [by exists [], (c :: t) | by exists (c :: t1), t2].
    + intros ([|d t1] & t2 & Ht & Hf); cbn in Ht; [left; by subst|]. injection Ht as -> ->. right. by exists t1, t2.
Qed.

Lemma match_recursive_glob fuel p t : (length p < fuel)%nat -> match_recursive fuel p t = true <-> glob p t.
Proof.
  revert p t. induction fuel as [|fuel IH]; intros p t Hf; [lia|]. destruct p as [|c p]; cbn [match_recursive].
  - rewrite bool_decide_eq_true. split; [intros ->; constructor | by inversion 1].
  - cbn [length] in Hf. destruct (N.eqb_spec c 42) as [->|H42].
    + rewrite glob_stars. pose proof (skip_stars_length p) as Hl. destruct (skip_stars p) as [|d q] eqn:Eq.
      * split; [|done]. intros _. exists t, []. rewrite app_nil_r. split; [done | constructor].
      * rewrite any_suffix_true. split; intros (t1 & t2 & -> & Hg); exists t1, t2; (split; [done|]); apply IH; try done; cbn [length] in *; lia.
    + destruct (N.eqb_spec c 63) as [->|H63].
      * destruct t as [|d t]; [split; [done | by inversion 1]|]. rewrite IH by lia. split; [by constructor|]. inversion 1; subst; done.
      * destruct t as [|d t]; [split; [done | by inversion 1]|]. destruct (N.eqb_spec d c) as [->|Hd].
        -- rewrite IH by lia. split; [by constructor|]. inversion 1; subst; done.
        -- split; [done|]. inversion 1; subst; done.
Qed.

(** An index pattern matches a data stream exactly when
    the stream's name can be cut along it: [*] any run of characters, [?] exactly
    one, every other character itself; the matcher's recursion always ends. *)
Theorem pattern_matches_iff (pattern target : list N) : pattern_matches pattern target = true <-> glob pattern target.
Proof.
  unfold pattern_matches. case_bool_decide as Hp; [|apply match_recursive_glob; lia].
  split; [intros _ | done]. subst. rewrite <- (app_nil_r target). apply glob_star. constructor.
Qed.

(** ** Endpoints *)

Definition warm (e : Endpoints) (now : N) (i : nat) : bool := (default 0 (ep_cooldowns e !! i)) <=? now.

Lemma first_warm_find cds now start count offsets :
  first_warm cds now start count offsets
  = List.find (fun i => (default 0 (cds !! i)) <=? now) (map (fun offset => (start + offset) mod count)%nat offsets).
Proof. induction offsets as [|o offsets IH]; [done|]. cbn [first_warm map List.find]. by destruct (_ <=? _); [|apply IH]. Qed.

(** The next endpoint is the first warm one from the turn on, and the turn's own
    when none is warm. *)
Lemma next_endpoint_spec now e : (2 <= length (ep_urls e))%nat ->
  let n := length (ep_urls e) in
  let start := N.to_nat (ep_current e mod N.of_nat n) in
  let order := map (fun offset => (start + offset) mod n)%nat (seq 0 n) in
  (next_endpoint now e).2 = default [] (ep_urls e !! default start (List.find (warm e now) order)).
Proof.
  intros Hn. cbv zeta. unfold next_endpoint. destruct (Nat.eqb_spec (length (ep_urls e)) 0) as [|_]; [lia|].
  destruct (Nat.eqb_spec (length (ep_urls e)) 1) as [|_]; [lia|]. cbn [ep_cooldowns]. rewrite first_warm_find.
  unfold warm. change (ep_cooldowns (e <| ep_current := _ |>)) with (ep_cooldowns e).
  by destruct (List.find _ _).
Qed.

(** The exponential part of the backoff is at most 64 times the interval. *)
Lemma backoff_bounded interval attempt : 100 <= interval *u64 1000 -> backoff_ms interval attempt <= 64 * (interval *u64 1000).
Proof.
  intros Hi. unfold backoff_ms. destruct (interval =? 0); [lia|]. rewrite N.max_l by done.
  assert (N.shiftl 1 (N.min (attempt -s 1) 6) <= 64).
  { rewrite N.shiftl_1_l. change 64 with (2 ^ 6). apply N.pow_le_mono_r; lia. }
  unfold sat_mul at 1. nia.
Qed.

Module BulkDemo.

Definition stored : BulkItemWrapper := mkWrapper (Some (mkBulkItem None None 201 None)) None None None.
Definition busy : BulkItemWrapper := mkWrapper (Some (mkBulkItem None None 429 None)) None None None.
Definition refused : BulkItemWrapper := mkWrapper (Some (mkBulkItem None None 400 None)) None None None.

Definition d1 : doc := (text "{a}", text "1").
Definition d2 : doc := (text "{a}", text "2").
Definition d3 : doc := (text "{a}", text "3").

(** The number of documents of a rendered payload. *)
Definition count_docs (payload : bytes) : nat := (length (scan_lines payload payload 0 0) / 2)%nat.

(** The first request finds two documents busy and one refused; the second one
    stores what it is sent. *)
Definition post (n : nat) (_ : bytes) (payload : bytes) : HttpReply :=
  let k := count_docs payload in
  match n with
  | 0%nat => Reply 200 "OK" "" (Ok (mkBulkResponse 5 true (match k with 3%nat => [busy; refused; busy] | _ => replicate k busy end)))
  | 1%nat => Reply 503 "Service Unavailable" "" (Err "no JSON")
  | _ => Reply 200 "OK" "" (Ok (mkBulkResponse 7 false (replicate k stored)))
  end.

Lemma count_docs_render ds : Forall doc_ok ds -> count_docs (render ds) = length ds.
Proof.
  intros Hd. unfold count_docs. pose proof (scan_lines_spans [] (doc_lines ds) (doc_lines_ok ds Hd)) as Hs. cbv zeta in Hs.
  rewrite <- render_lines in Hs. cbn [app length] in Hs. rewrite Hs, length_spans, doc_lines_length.
  replace (2 * length ds)%nat with (length ds * 2)%nat by lia. by rewrite Nat.div_mul.
Qed.

Lemma post_cluster n endpoint ds s ph tx resp :
  Forall doc_ok ds -> post n endpoint (render ds) = Reply s ph tx (Ok resp) -> is_success s = true ->
  length (br_items resp) = length ds /\
  (br_errors resp = false -> Forall (fun w => is_recoverable w = false /\ is_unrecoverable w = false) (br_items resp)).
Proof.
  intros Hd Hp _. unfold post in Hp. rewrite (count_docs_render ds Hd) in Hp.
  destruct n as [|[|n]]; [|done|]; injection Hp as <- <- <- <-; cbn [br_items br_errors]; (split; [|try done]).
  - destruct (length ds) as [|[|[|[|m]]]]; cbn; rewrite ?length_replicate; done.
  - apply length_replicate.
  - intros _. apply Forall_replicate. by vm_compute.
Qed.

Definition endpoints : Endpoints := mkEndpoints [text "http://a"; text "http://b"] [0; 0] 0.

Lemma docs_fine : Forall doc_ok [d1; d2; d3].
Proof. apply (bool_decide_unpack _). vm_compute. reflexivity. Qed.

(** The witness: the two busy documents are stored by the third request. *)
Lemma send_bulk_accounts_witness :
  match send_bulk post (fun n => N.of_nat n) 3 endpoints (render [d1; d2; d3]) with
  | inr (_, Ok resp) => br_items resp = [stored; refused; stored] /\ br_errors resp = true
  | _ => False
  end /\
  (forall s, rtc (fun s s' => send_turn post (fun n => N.of_nat n) 3 s = inl s') (bulk_start endpoints (render [d1; d2; d3])) s -> carries post [d1; d2; d3] s) /\
  exists e' r, send_bulk post (fun n => N.of_nat n) 3 endpoints (render [d1; d2; d3]) = inr (e', r) /\ settled post [d1; d2; d3] r.
Proof.
  split; [by vm_compute|].
  apply (send_bulk_accounts post (fun n => N.of_nat n) 3 post_cluster [d1; d2; d3] ltac:(done) docs_fine endpoints).
Defined.

(** An answer that reports errors without its items is turned into a success
    without errors. *)
Example errors_without_items :
  let post := fun _ _ _ => Reply 200 "OK" "" (Ok (mkBulkResponse 1 true [])) in
  match send_bulk post (fun _ => 0) 3 endpoints (render [d1]) with
  | inr (_, Ok resp) => br_errors resp = false /\ br_items resp = []
  | _ => False
  end.
Proof. by vm_compute. Qed.

End BulkDemo.
