(* ===== verification/Serializer.v ===== *)
(** Bulk serialisation: crates/elasticsearch-sink/src/serializer.rs.

    A cell is the value the code dispatches on.  The number and time formatters
    (itoa, ryu, chrono), serde_json and Arrow's display are parameters
    ([Formats]); the one fact relied on is that none of them writes a line
    break. *)

From S2P Require Import Prelude Text Bulk.
Local Open Scope N_scope.

Inductive TimeUnit : Type := Second | Millisecond | Microsecond | Nanosecond.

(** A value of a column of the given type; floats are their bits, finite or not. *)
Inductive Cell : Type :=
| CMissing
| CTimestamp (unit : TimeUnit) (value : Z)
| CString (s : bytes)
| CBoolean (b : bool)
| CInt (value : Z)
| CFloat (finite : bool) (bits : N)
| CNullType
| COther (display : option bytes).

Class Formats := {
  itoa : Z -> bytes;
  ryu : N -> bytes;
  (** [DateTime::from_timestamp] and its ISO 8601 text. *)
  iso8601 : Z -> N -> option bytes;
  json_valid : bytes -> bool;
  (** What [serde_json::to_writer] writes of the parsed text. *)
  json_rewrite : bytes -> bytes;
}.

Class FormatsLaws `{Formats} := {
  itoa_line : forall z, 10 ∉ itoa z;
  ryu_line : forall b, 10 ∉ ryu b;
  iso_line : forall s n t, iso8601 s n = Some t -> 10 ∉ t;
  rewrite_line : forall s, 10 ∉ json_rewrite s;
}.

Section Serializer.
Context `{Formats}.

Definition quote : N := 34.
Definition backslash : N := 92.

Definition escape_byte (b : N) : bytes :=
  if b =? 34 then [92; 34]
  else if b =? 92 then [92; 92]
  else if b =? 10 then [92; 110]
  else if b =? 13 then [92; 114]
  else if b =? 9 then [92; 116]
  else if b <? 32 then [92; 117; 48; 48; hex_digit (N.shiftr b 4); hex_digit (N.land b 15)]
  else [b].

Definition write_escaped_string (s : bytes) : bytes := [34] ++ concat (map escape_byte s) ++ [34].

Definition null_text : bytes := text "null".

Definition write_timestamp (secs : Z) (subsec_nanos : N) : bytes :=
  match iso8601 secs subsec_nanos with Some t => [34] ++ t ++ [34] | None => null_text end.

(** [div_euclid] and [rem_euclid] by the units of a second. *)
Definition write_timestamp_col (unit : TimeUnit) (value : Z) : bytes :=
  match unit with
  | Nanosecond => write_timestamp (value / 1000000000)%Z (Z.to_N (value mod 1000000000)%Z)
  | Microsecond => write_timestamp (value / 1000000)%Z (Z.to_N (value mod 1000000 * 1000)%Z)
  | Millisecond => write_timestamp (value / 1000)%Z (Z.to_N (value mod 1000 * 1000000)%Z)
  | Second => write_timestamp value 0
  end.

Definition has_line_break (s : bytes) : bool := existsb (fun b => (b =? 10) || (b =? 13)) s.

Definition write_string_col (val : bytes) (unpack_json : bool) : bytes :=
  if unpack_json && (bool_decide (head val = Some 123) || bool_decide (head val = Some 91)) then
    if has_line_break val then if json_valid val then json_rewrite val else write_escaped_string val
    else if json_valid val then val
    else write_escaped_string val
  else write_escaped_string val.

Definition write_value (c : Cell) (unpack_json : bool) : result bytes ElasticsearchError :=
  match c with
  | CMissing | CNullType => Ok null_text
  | CTimestamp unit v => Ok (write_timestamp_col unit v)
  | CString s => Ok (write_string_col s unpack_json)
  | CBoolean b => Ok (if b then text "true" else text "false")
  | CInt z => Ok (itoa z)
  | CFloat finite bits => Ok (if finite then ryu bits else null_text)
  | COther (Some display) => Ok (write_escaped_string display)
  | COther None => Err (EsSerialization "formatter")
  end.

(** A row: its fields by name, in the schema's order. *)
Definition Row : Type := list (bytes * Cell).

Definition output_name (name : bytes) : bytes :=
  if bool_decide (name = text "timestamp") then text "@timestamp" else name.

Definition is_attr_field (name : bytes) : bool :=
  bool_decide (name = text "attributes") || bool_decide (name = text "resource_attributes").

(** The fields of a row that have a value. *)
Fixpoint write_fields (row : Row) (unpack_attributes first_field : bool) : result bytes ElasticsearchError :=
  match row with
  | [] => Ok []
  | (_, CMissing) :: row => write_fields row unpack_attributes first_field
  | (name, c) :: row =>
      let? v := write_value c (unpack_attributes && is_attr_field name) in
      let? rest := write_fields row unpack_attributes false in
      Ok ((if first_field then [] else [44]) ++ [34] ++ output_name name ++ [34; 58] ++ v ++ rest)
  end.

Definition BULK_ACTION : bytes := text "{" ++ [34] ++ text "create" ++ [34] ++ text ":{}}" ++ [10].

Definition write_row (row : Row) (unpack_attributes : bool) : result bytes ElasticsearchError :=
  let? fields := write_fields row unpack_attributes true in
  Ok (BULK_ACTION ++ [123] ++ fields ++ [125; 10]).

(** ** Chunks *)

Record BulkChunk := mkChunk { bc_start_row : nat; bc_row_count : nat; bc_payload : bytes }.

(** The state of the loop over the rows. *)
Record ChunkState := mkChunkState {
  cs_current : bytes; cs_start : nat; cs_count : nat; cs_chunks : list BulkChunk; cs_oversized : list (nat * N) }.

Definition seal (s : ChunkState) : ChunkState :=
  if bool_decide (cs_current s = []) then s
  else mkChunkState [] (cs_start s) 0 (cs_chunks s ++ [mkChunk (cs_start s) (cs_count s) (cs_current s)]) (cs_oversized s).

Definition add_row (max_payload_bytes : N) (row : nat) (row_buf : bytes) (s : ChunkState) : ChunkState :=
  if max_payload_bytes <? N.of_nat (length row_buf) then
    let s := seal s in
    mkChunkState (cs_current s) (cs_start s) (cs_count s) (cs_chunks s) (cs_oversized s ++ [(row, N.of_nat (length row_buf))])
  else
    let s :=
      if max_payload_bytes <? N.of_nat (length (cs_current s)) +us N.of_nat (length row_buf) then seal s else s in
    mkChunkState (cs_current s ++ row_buf) (if (cs_count s =? 0)%nat then row else cs_start s) (S (cs_count s)) (cs_chunks s) (cs_oversized s).

Fixpoint chunk_rows (rows : list Row) (unpack_attributes : bool) (max_payload_bytes : N) (row : nat) (s : ChunkState)
  : result ChunkState ElasticsearchError :=
  match rows with
  | [] => Ok s
  | r :: rows =>
      let? row_buf := write_row r unpack_attributes in
      chunk_rows rows unpack_attributes max_payload_bytes (S row) (add_row max_payload_bytes row row_buf s)
  end.

Definition serialize_batch_chunks_internal (rows : list Row) (unpack_attributes : bool) (max_payload_bytes : N)
  : result (list BulkChunk * list (nat * N)) ElasticsearchError :=
  if bool_decide (rows = []) then Ok ([], [])
  else
    let? s := chunk_rows rows unpack_attributes max_payload_bytes 0 (mkChunkState [] 0 0 [] []) in
    let s := seal s in
    Ok (cs_chunks s, cs_oversized s).

Definition serialize_batch_chunks_with_ranges rows unpack max_bytes : result (list BulkChunk) ElasticsearchError :=
  let? r := serialize_batch_chunks_internal rows unpack max_bytes in Ok r.1.

Definition serialize_batch_chunks rows unpack max_bytes : result (list bytes) ElasticsearchError :=
  let? r := serialize_batch_chunks_internal rows unpack max_bytes in Ok (map bc_payload r.1).

Definition serialize_batch rows unpack max_bytes : result bytes ElasticsearchError :=
  let? chunks := serialize_batch_chunks rows unpack max_bytes in
  match chunks with
  | [] => Ok []
  | [c] => Ok c
  | _ => Err (EsPayloadTooLarge (sum_N (fun c => N.of_nat (length c)) chunks) max_bytes)
  end.

(** ** The chunks cover the rows *)

(** A chunk is a run of rows, none oversized, within the limit. *)
Definition chunk_of (bufs : list bytes) (max_bytes : N) (c : BulkChunk) : Prop :=
  (0 < bc_row_count c)%nat /\ (bc_start_row c + bc_row_count c <= length bufs)%nat /\
  bc_payload c = concat (slice (bc_start_row c) (bc_start_row c + bc_row_count c) bufs) /\
  N.of_nat (length (bc_payload c)) <= max_bytes.

Definition chunk_indices (c : BulkChunk) : list nat := seq (bc_start_row c) (bc_row_count c).

Definition fits_alone (bufs : list bytes) (max_bytes : N) (i : nat) : bool :=
  match bufs !! i with Some b => N.of_nat (length b) <=? max_bytes | None => false end.

(** What the loop knows after [k] rows. *)
Record chunked (bufs : list bytes) (max_bytes : N) (k : nat) (s : ChunkState) : Prop := {
  ck_chunks : Forall (chunk_of bufs max_bytes) (cs_chunks s);
  ck_empty : cs_count s = 0%nat <-> cs_current s = [];
  ck_open : (0 < cs_count s)%nat -> (cs_start s + cs_count s = k)%nat;
  ck_current : cs_current s = concat (slice (k - cs_count s) k bufs);
  ck_count : (cs_count s <= k)%nat;
  ck_limit : N.of_nat (length (cs_current s)) <= max_bytes;
  ck_covered : concat (map chunk_indices (cs_chunks s)) ++ seq (k - cs_count s) (cs_count s) = List.filter (fits_alone bufs max_bytes) (seq 0 k);
  ck_oversized : cs_oversized s = omap (fun i => match bufs !! i with
    | Some b => if max_bytes <? N.of_nat (length b) then Some (i, N.of_nat (length b)) else None | None => None end) (seq 0 k);
}.

Lemma seal_chunked bufs max_bytes k s : (k <= length bufs)%nat -> chunked bufs max_bytes k s ->
  chunked bufs max_bytes k (seal s) /\ cs_count (seal s) = 0%nat /\ cs_current (seal s) = [].
Proof.
  intros Hk [Hc He Ho Hcur Hn Hl Hcov Hov]. unfold seal. case_bool_decide as Hnil.
  - split; [by split|]. split; [by apply He | done].
  - assert (Hpos : (0 < cs_count s)%nat) by (destruct (cs_count s) eqn:E; [by destruct Hnil; apply He | lia]). specialize (Ho Hpos).
    split; [|done]. split; cbn [cs_current cs_start cs_count cs_chunks cs_oversized]; try done.
    + apply Forall_app. split; [done|]. constructor; [|constructor]. split_and!; cbn; [done | lia | | done].
      rewrite Hcur. replace (cs_start s) with (k - cs_count s)%nat by lia. by replace (k - cs_count s + cs_count s)%nat with k by lia.
    + lia.
    + rewrite Nat.sub_0_r. unfold slice. by rewrite Nat.sub_diag.
    + lia.
    + cbn. lia.
    + rewrite map_app, concat_app. cbn. rewrite !app_nil_r.
      replace (cs_start s) with (k - cs_count s)%nat by lia. exact Hcov.
Qed.

Lemma concat_slice_snoc (bufs : list bytes) j k b : (j <= k)%nat -> bufs !! k = Some b ->
  concat (slice j (S k) bufs) = concat (slice j k bufs) ++ b.
Proof.
  intros Hj Hb. unfold slice. replace (S k - j)%nat with (S (k - j)) by lia.
  rewrite (take_S_r _ _ b); [by rewrite concat_app; cbn; rewrite app_nil_r|]. rewrite lookup_drop. by replace (j + (k - j))%nat with k by lia.
Qed.

Lemma filter_fits_S bufs max_bytes k b : bufs !! k = Some b ->
  List.filter (fits_alone bufs max_bytes) (seq 0 (S k))
  = List.filter (fits_alone bufs max_bytes) (seq 0 k) ++ (if N.of_nat (length b) <=? max_bytes then [k] else []).
Proof. intros Hb. rewrite seq_S, List.filter_app. cbn. unfold fits_alone at 2. rewrite Hb. by destruct (_ <=? _). Qed.

Lemma add_row_chunked bufs max_bytes k s b :
  bufs !! k = Some b -> b <> [] -> max_bytes < usize_max -> chunked bufs max_bytes k s -> chunked bufs max_bytes (S k) (add_row max_bytes k b s).
Proof.
  intros Hb Hne Hmx Hs. pose proof (lookup_lt_Some _ _ _ Hb) as Hk. pose proof (seal_chunked bufs max_bytes k s ltac:(lia) Hs) as (Hseal & Hs0 & Hsn).
  unfold add_row. destruct (N.ltb_spec max_bytes (N.of_nat (length b))) as [Hbig|Hfit]; cbv zeta.
  - destruct Hseal as [Hc He Ho Hcur Hn Hl Hcov Hov]. rewrite Hs0, Hsn in *.
    split; cbn [cs_current cs_start cs_count cs_chunks cs_oversized]; try done.
    + lia.
    + rewrite Nat.sub_0_r. unfold slice. by rewrite Nat.sub_diag.
    + lia.
    + rewrite (filter_fits_S _ _ _ b) by done. destruct (N.leb_spec (N.of_nat (length b)) max_bytes); [lia|].
      rewrite !app_nil_r, <- Hcov. by rewrite app_nil_r.
    + rewrite Hov, seq_S, omap_app. cbn. rewrite Hb. by destruct (N.ltb_spec max_bytes (N.of_nat (length b))); [|lia].
  - assert (Hadd : forall s', chunked bufs max_bytes k s' -> N.of_nat (length (cs_current s')) + N.of_nat (length b) <= max_bytes ->
      chunked bufs max_bytes (S k) (mkChunkState (cs_current s' ++ b) (if (cs_count s' =? 0)%nat then k else cs_start s') (S (cs_count s')) (cs_chunks s') (cs_oversized s'))).
    { intros s' [Hc He Ho Hcur Hn Hl Hcov Hov] Hroom. split; cbn [cs_current cs_start cs_count cs_chunks cs_oversized]; try done.
      + split; [done|]. intros E. apply app_eq_nil in E as [_ E]. done.
      + intros _. destruct (Nat.eqb_spec (cs_count s') 0); [lia|]. specialize (Ho ltac:(lia)). lia.
      + replace (S k - S (cs_count s'))%nat with (k - cs_count s')%nat by lia. rewrite (concat_slice_snoc _ _ _ b) by (done || lia). by rewrite Hcur.
      + lia.
      + rewrite length_app. lia.
      + rewrite (filter_fits_S _ _ _ b) by done. destruct (N.leb_spec (N.of_nat (length b)) max_bytes); [|lia]. rewrite <- Hcov. replace (S k - S (cs_count s'))%nat with (k - cs_count s')%nat by lia.
        rewrite seq_S. replace (k - cs_count s' + cs_count s')%nat with k by lia. by rewrite app_assoc.
      + rewrite Hov, seq_S, omap_app. cbn. rewrite Hb. destruct (N.ltb_spec max_bytes (N.of_nat (length b))); [lia|]. by rewrite app_nil_r. }
    destruct (N.ltb_spec max_bytes (N.of_nat (length (cs_current s)) +us N.of_nat (length b))) as [Hover|Hroom].
    + apply Hadd; [done|]. rewrite Hsn. cbn. lia.
    + apply Hadd; [done|]. unfold sat_add in Hroom. destruct (N.min_spec (N.of_nat (length (cs_current s)) + N.of_nat (length b)) usize_max) as [[_ E]|[Hge E]]; rewrite E in Hroom; [done|].
      lia.
Qed.

(** The rows whose own text is over the limit, with its length. *)
Definition oversized_of (bufs : list bytes) (max_bytes : N) (k : nat) : list (nat * N) :=
  omap (fun i => match bufs !! i with
    | Some b => if max_bytes <? N.of_nat (length b) then Some (i, N.of_nat (length b)) else None | None => None end) (seq 0 k).

Lemma write_row_nonempty r unpack b : write_row r unpack = Ok b -> b <> [].
Proof. unfold write_row. destruct (write_fields r unpack true); [|done]. intros E. injection E as <-. discriminate. Qed.

Lemma chunk_rows_chunked bufs unpack max_bytes rows : max_bytes < usize_max -> forall k s,
  (k + length rows = length bufs)%nat -> chunked bufs max_bytes k s ->
  Forall2 (fun r b => write_row r unpack = Ok b) rows (drop k bufs) ->
  exists s', chunk_rows rows unpack max_bytes k s = Ok s' /\ chunked bufs max_bytes (length bufs) s'.
Proof.
  intros Hmx. induction rows as [|r rows IH]; intros k s Hk Hs Hf.
  - exists s. cbn in Hk |- *. rewrite Nat.add_0_r in Hk. by rewrite <- Hk.
  - inversion Hf as [|? b ? bs Hb Hf' Ht E]; subst. cbn [chunk_rows]. rewrite Hb.
    assert (Hbk : bufs !! k = Some b) by (rewrite <- (Nat.add_0_r k), <- lookup_drop, <- E; done).
    apply IH; [cbn in Hk; lia | |].
    + apply add_row_chunked; [done | by eapply write_row_nonempty | done | done].
    + rewrite (drop_S bufs b k Hbk) in E. by injection E as ->.
Qed.

Lemma chunks_cover_rows rows bufs unpack max_bytes : max_bytes < usize_max ->
  Forall2 (fun r b => write_row r unpack = Ok b) rows bufs ->
  exists chunks, serialize_batch_chunks_internal rows unpack max_bytes = Ok (chunks, oversized_of bufs max_bytes (length bufs)) /\
    Forall (chunk_of bufs max_bytes) chunks /\
    concat (map chunk_indices chunks) = List.filter (fits_alone bufs max_bytes) (seq 0 (length bufs)).
Proof.
  intros Hmx Hf. unfold serialize_batch_chunks_internal. case_bool_decide as Hn.
  - subst. inversion Hf; subst. by exists [].
  - destruct (chunk_rows_chunked bufs unpack max_bytes rows Hmx 0 (mkChunkState [] 0 0 [] [])) as (s & E & Hs).
    + by apply Forall2_length in Hf.
    + split; cbn; try done; lia.
    + by rewrite drop_0.
    + rewrite E. destruct (seal_chunked bufs max_bytes (length bufs) s ltac:(lia) Hs) as ([Hc _ _ _ _ _ Hcov Hov] & H0 & _).
      exists (cs_chunks (seal s)). rewrite Hov. split_and!; [done | done|]. rewrite H0 in Hcov. cbn in Hcov. by rewrite app_nil_r in Hcov.
Qed.

(** A serialised batch has all its rows written. *)
Lemma serialized_rows rows unpack max_bytes r : serialize_batch_chunks_internal rows unpack max_bytes = Ok r ->
  exists bufs, Forall2 (fun r b => write_row r unpack = Ok b) rows bufs.
Proof.
  unfold serialize_batch_chunks_internal. case_bool_decide as Hn; [subst; intros _; by exists []|].
  destruct (chunk_rows _ _ _ _ _) as [s'|] eqn:E; [intros _|done]. clear Hn. revert E. generalize 0%nat (mkChunkState [] 0 0 [] []).
  induction rows as [|row rows IH]; intros k s E; [by exists []|]. cbn [chunk_rows] in E. destruct (write_row row unpack) as [b|] eqn:Eb; [|done].
  destruct (IH _ _ E) as [bufs Hb]. exists (b :: bufs). by constructor.
Qed.

(** The first row that cannot be written fails the batch with its error. *)
Lemma chunks_first_error rows1 r rows2 unpack max_bytes e : Forall (fun r => is_ok (write_row r unpack) = true) rows1 ->
  write_row r unpack = Err e -> serialize_batch_chunks_internal (rows1 ++ r :: rows2) unpack max_bytes = Err e.
Proof.
  intros Hok He. unfold serialize_batch_chunks_internal. rewrite bool_decide_false by (by destruct rows1).
  enough (Hc : forall k s, chunk_rows (rows1 ++ r :: rows2) unpack max_bytes k s = Err e) by by rewrite Hc.
  induction Hok as [|r1 rows1 Hr1 Hok IH]; intros k s; cbn [app chunk_rows]; [by rewrite He|]. destruct (write_row r1 unpack); [apply IH | done].
Qed.

(** ** Rows are two lines *)

Lemma escape_byte_line b e : e < 32 -> e ∉ escape_byte b.
Proof.
  intros He. assert (Hh : forall n, e <> hex_digit n) by (intros n; unfold hex_digit; destruct (N.ltb_spec n 10); lia).
  assert (Hs : forall l, Forall (fun x => e <> x) l -> e ∉ l).
  { intros l Hl Hin. rewrite Forall_forall in Hl. by apply (Hl e Hin). }
  apply Hs. unfold escape_byte. destruct (b =? 34), (b =? 92), (b =? 10), (b =? 13), (b =? 9); try (repeat constructor; lia).
  destruct (N.ltb_spec b 32); repeat constructor; try lia; apply Hh.
Qed.

Lemma escaped_line s e : e < 32 -> e ∉ write_escaped_string s.
Proof.
  intros He. unfold write_escaped_string. rewrite !not_elem_of_app. split_and!; try (intros Hin; apply list_elem_of_singleton in Hin; lia).
  intros Hin. apply list_elem_of_In, List.in_concat in Hin as (l & Hl & Hin). apply List.in_map_iff in Hl as (b & <- & _).
  apply list_elem_of_In in Hin. by apply escape_byte_line in Hin.
Qed.

(** Reading a JSON string back, from after its opening quote: its bytes and
    what follows the closing quote. *)
Definition unescape (c : N) : option N :=
  if c =? 34 then Some 34 else if c =? 92 then Some 92 else if c =? 47 then Some 47 else if c =? 98 then Some 8
  else if c =? 102 then Some 12 else if c =? 110 then Some 10 else if c =? 114 then Some 13 else if c =? 116 then Some 9 else None.

Definition hex_value (c : N) : option N :=
  if (48 <=? c) && (c <=? 57) then Some (c - 48)
  else if (97 <=? c) && (c <=? 102) then Some (c - 87) else if (65 <=? c) && (c <=? 70) then Some (c - 55) else None.

Fixpoint read_string (s : bytes) : option (bytes * bytes) :=
  match s with
  | [] => None
  | c :: s =>
      if c =? 34 then Some ([], s)
      else if c <? 32 then None
      else if c =? 92 then
        match s with
        | [] => None
        | e :: s =>
            if e =? 117 then
              match s with
              | a :: b :: h :: l :: s =>
                  match hex_value h, hex_value l with
                  | Some hv, Some lv =>
                      if (a =? 48) && (b =? 48) && (16 * hv + lv <? 128)
                      then match read_string s with Some (t, rest) => Some (16 * hv + lv :: t, rest) | None => None end
                      else None
                  | _, _ => None
                  end
              | _ => None
              end
            else
              match unescape e, read_string s with
              | Some x, Some (t, rest) => Some (x :: t, rest)
              | _, _ => None
              end
        end
      else match read_string s with Some (t, rest) => Some (c :: t, rest) | None => None end
  end.

Lemma hex_value_digit n : n < 16 -> hex_value (hex_digit n) = Some n.
Proof.
  intros Hn. assert (Hall : forallb (fun n => bool_decide (hex_value (hex_digit n) = Some n)) (map N.of_nat (seq 0 16)) = true) by by vm_compute.
  rewrite forallb_forall in Hall. apply (bool_decide_eq_true_1 (hex_value (hex_digit n) = Some n)), Hall.
  rewrite <- (N2Nat.id n). apply in_map, List.in_seq. lia.
Qed.

Lemma read_escaped b s : read_string (escape_byte b ++ s) = match read_string s with Some (t, rest) => Some (b :: t, rest) | None => None end.
Proof.
  unfold escape_byte. destruct (N.eqb_spec b 34) as [->|H34]; [done|]. destruct (N.eqb_spec b 92) as [->|H92]; [done|].
  destruct (N.eqb_spec b 10) as [->|H10]; [done|]. destruct (N.eqb_spec b 13) as [->|H13]; [done|]. destruct (N.eqb_spec b 9) as [->|H9]; [done|].
  destruct (N.ltb_spec b 32) as [Hlt|Hge].
  - assert (Hhi : N.shiftr b 4 < 16) by (rewrite N.shiftr_div_pow2; apply N.Div0.div_lt_upper_bound; cbn; lia).
    assert (Hlo : N.land b 15 = b mod 16) by (apply (N.land_ones b 4)).
    pose proof (N.mod_lt b 16 ltac:(lia)) as Hm.
    cbn [app read_string N.eqb N.ltb Pos.eqb]. change (92 <? 32) with false. cbn match.
    rewrite Hlo, !hex_value_digit by done. rewrite N.shiftr_div_pow2. change (2 ^ 4) with 16.
    pose proof (N.div_mod b 16 ltac:(lia)) as Hd. rewrite <- Hd. cbn [andb N.eqb Pos.eqb].
    by destruct (N.ltb_spec b 128); [|lia].
  - cbn [app read_string]. destruct (N.eqb_spec b 34); [done|]. destruct (N.ltb_spec b 32); [lia|]. by destruct (N.eqb_spec b 92).
Qed.

(** An escaped string is one quoted text without a line
    break, and a JSON reader gets the string back and stops at its closing quote. *)
Theorem escape_round_trip s rest :
  (10 ∉ write_escaped_string s) /\ (13 ∉ write_escaped_string s) /\
  exists body, write_escaped_string s ++ rest = 34 :: body /\ read_string body = Some (s, rest).
Proof.
  split_and!; [by apply escaped_line | by apply escaped_line |].
  exists (concat (map escape_byte s) ++ (34 :: rest)). split; [unfold write_escaped_string; cbn; by rewrite <- !app_assoc|].
  induction s as [|b s IH]; [done|]. cbn [map concat]. by rewrite <- app_assoc, read_escaped, IH.
Qed.

(** ** A row is one document *)

Context `{!FormatsLaws}.

Lemma text_line (s : bytes) : bool_decide (10 ∈ s) = false -> 10 ∉ s.
Proof. by intros ?%bool_decide_eq_false. Qed.

Lemma timestamp_line secs nanos : 10 ∉ write_timestamp secs nanos.
Proof.
  unfold write_timestamp. destruct (iso8601 secs nanos) as [t|] eqn:E; [|by apply text_line].
  rewrite !not_elem_of_app. split_and!; [by apply text_line | by eapply iso_line | by apply text_line].
Qed.

Lemma value_line c unpack v : write_value c unpack = Ok v -> 10 ∉ v.
Proof.
  assert (Hstr : forall s, 10 ∉ write_string_col s unpack).
  { intros s. unfold write_string_col. destruct (_ && _); [|by apply escaped_line].
    destruct (has_line_break s) eqn:Eb; (destruct (json_valid s); [|by apply escaped_line]); [apply rewrite_line|].
    intros Hin. unfold has_line_break in Eb. apply not_true_iff_false in Eb. apply Eb, List.existsb_exists.
    exists 10. split; [by apply list_elem_of_In | done]. }
  destruct c as [|unit z|s|b|z|fin bits| |[d|]]; cbn; intros E; try (injection E as <-); try done; try (by apply text_line).
  - destruct unit; apply timestamp_line.
  - destruct b; by apply text_line.
  - apply itoa_line.
  - destruct fin; [apply ryu_line | by apply text_line].
  - by apply escaped_line.
Qed.

(** The names of a row hold no line break. *)
Definition names_ok (r : Row) : Prop := Forall (fun f => 10 ∉ f.1) r.

Lemma fields_line r unpack first v : names_ok r -> write_fields r unpack first = Ok v -> 10 ∉ v.
Proof.
  intros Hn. revert first v. induction Hn as [|[name c] r Hname Hn IH]; intros first v E; [injection E as <-; apply not_elem_of_nil|].
  cbn [write_fields] in E. assert (Hstep : c = CMissing \/ exists v0 rest, write_value c (unpack && is_attr_field name) = Ok v0 /\
    write_fields r unpack false = Ok rest /\ v = (if first then [] else [44]) ++ [34] ++ output_name name ++ [34; 58] ++ v0 ++ rest).
  { destruct c; [by left|..]; right; cbn in E; repeat case_match; try done; injection E as <-; by eexists _, _. }
  destruct Hstep as [->|(v0 & rest & Hv & Hr & ->)]; [by eapply IH|]. rewrite !not_elem_of_app. split_and!.
  - destruct first; by apply text_line.
  - by apply text_line.
  - unfold output_name. case_bool_decide; [by apply text_line | done].
  - by apply text_line.
  - by eapply value_line.
  - by eapply IH.
Qed.

Definition action_line : bytes := text "{" ++ [34] ++ text "create" ++ [34] ++ text ":{}}".

(** The document of a written row. *)
Definition row_doc (fields : bytes) : doc := (action_line, [123] ++ fields ++ [125]).

Lemma write_row_doc r unpack b : names_ok r -> write_row r unpack = Ok b -> exists d, doc_ok d /\ b = render_doc d.
Proof.
  intros Hn. unfold write_row. destruct (write_fields r unpack true) as [fields|] eqn:E; [|done]. intros Eb. injection Eb as <-.
  exists (row_doc fields). split.
  - split; (split; [|done]); cbn [row_doc fst snd]; [by apply text_line|]. rewrite !not_elem_of_app.
    split_and!; [by apply text_line | by eapply fields_line | by apply text_line].
  - unfold render_doc, row_doc. cbn [fst snd]. rewrite <- !app_assoc. reflexivity.
Qed.

Lemma write_rows_docs rows unpack bufs : Forall names_ok rows ->
  Forall2 (fun r b => write_row r unpack = Ok b) rows bufs -> exists docs, Forall doc_ok docs /\ bufs = map render_doc docs.
Proof.
  intros Hn Hf. induction Hf as [|r b rows bufs Hb Hf IH]; [by exists []|]. inversion_clear Hn as [|? ? Hr Hn'].
  destruct (IH Hn') as (docs & Hd & ->). destruct (write_row_doc r unpack b Hr Hb) as (d & Hd1 & ->). exists (d :: docs). by split; [constructor|].
Qed.

Lemma chunks_cover_docs rows bufs unpack max_bytes : max_bytes < usize_max -> Forall names_ok rows ->
  Forall2 (fun r b => write_row r unpack = Ok b) rows bufs ->
  exists docs chunks, Forall doc_ok docs /\ bufs = map render_doc docs /\
    serialize_batch_chunks_internal rows unpack max_bytes = Ok (chunks, oversized_of bufs max_bytes (length bufs)) /\
    concat (map chunk_indices chunks) = List.filter (fits_alone bufs max_bytes) (seq 0 (length bufs)) /\
    Forall (fun c => (0 < bc_row_count c)%nat /\ N.of_nat (length (bc_payload c)) <= max_bytes /\
      bc_payload c = render (slice (bc_start_row c) (bc_start_row c + bc_row_count c) docs) /\
      length (slice (bc_start_row c) (bc_start_row c + bc_row_count c) docs) = bc_row_count c) chunks.
Proof.
  intros Hmx Hn Hf. destruct (write_rows_docs rows unpack bufs Hn Hf) as (docs & Hd & Hbufs).
  destruct (chunks_cover_rows rows bufs unpack max_bytes Hmx Hf) as (chunks & Hc & Hall & Hcov).
  exists docs, chunks. do 4 (split; [done|]). eapply Forall_impl; [exact Hall|]. intros c (H1 & H2 & H3 & H4). do 2 (split; [done|]). split.
  - rewrite H3, Hbufs. unfold render, slice. by rewrite <- firstn_map, <- skipn_map.
  - rewrite Hbufs, length_map in H2. rewrite length_slice by lia. lia.
Qed.

(** C29 (chunks_cover). The chunks of a batch are runs of consecutive rows, in
    order: together they hold exactly the rows that fit the limit alone, each
    once; every chunk keeps within the limit and its payload is the newline
    framed documents of its own rows; and exactly the other rows are listed as
    oversized, with their lengths. *)
Theorem chunks_cover rows bufs unpack max_bytes : max_bytes < usize_max -> Forall names_ok rows ->
  Forall2 (fun r b => write_row r unpack = Ok b) rows bufs ->
  exists docs chunks, Forall doc_ok docs /\ bufs = map render_doc docs /\
    serialize_batch_chunks_internal rows unpack max_bytes = Ok (chunks, oversized_of bufs max_bytes (length bufs)) /\
    concat (map chunk_indices chunks) = List.filter (fits_alone bufs max_bytes) (seq 0 (length bufs)) /\
    Forall (fun c => (0 < bc_row_count c)%nat /\ N.of_nat (length (bc_payload c)) <= max_bytes /\
      bc_payload c = render (slice (bc_start_row c) (bc_start_row c + bc_row_count c) docs) /\
      length (slice (bc_start_row c) (bc_start_row c + bc_row_count c) docs) = bc_row_count c) chunks.
Proof. apply chunks_cover_docs. Qed.

End Serializer.

Module SerializerDemo.

(** Concrete formatters: one digit numbers, a fixed time. *)
#[export] Instance formats : Formats := {|
  itoa z := [48 + Z.to_N (z mod 10)]; ryu _ := text "0.5"; iso8601 _ _ := Some (text "2024-09-16T15:20:00.000000000Z");
  json_valid s := bool_decide (last s = Some 125); json_rewrite _ := text "{}" |}.

#[export] Instance formats_laws : FormatsLaws.
Proof.
  split; cbn [itoa ryu iso8601 json_rewrite formats].
  - intros z Hin. apply list_elem_of_singleton in Hin. pose proof (Z.mod_pos_bound z 10 eq_refl). lia.
  - intros _. by apply text_line.
  - intros _ _ t Ht. injection Ht as <-. by apply text_line.
  - intros _. by apply text_line.
Qed.

Definition row (body : string) : Row :=
  [(text "timestamp", CTimestamp Nanosecond (-1)); (text "severity", CInt 9); (text "trace", CMissing); (text "body", CString (text body))].

Definition rows : list Row := [row "a"; row "b"; row "a very long body, much longer than the limit allows"; row "c"].

Definition bufs : list bytes := map (fun r => match write_row r true with Ok b => b | Err _ => [] end) rows.

Lemma rows_ok : Forall names_ok rows.
Proof. apply (bool_decide_unpack _). vm_compute. reflexivity. Qed.

Lemma bufs_ok : Forall2 (fun r b => write_row r true = Ok b) rows bufs.
Proof. repeat constructor. Qed.

(** The third row is over the limit; the first two do not fit one chunk. *)
Lemma chunks_cover_witness :
  match serialize_batch_chunks_internal rows true 120 with
  | Ok (chunks, oversized) => map chunk_indices chunks = [[0%nat]; [1%nat]; [3%nat]] /\ map fst oversized = [2%nat]
  | Err _ => False
  end /\
  exists docs chunks, Forall doc_ok docs /\ bufs = map render_doc docs /\
    serialize_batch_chunks_internal rows true 120 = Ok (chunks, oversized_of bufs 120 (length bufs)) /\
    concat (map chunk_indices chunks) = List.filter (fits_alone bufs 120) (seq 0 (length bufs)) /\
    Forall (fun c => (0 < bc_row_count c)%nat /\ N.of_nat (length (bc_payload c)) <= 120 /\
      bc_payload c = render (slice (bc_start_row c) (bc_start_row c + bc_row_count c) docs) /\
      length (slice (bc_start_row c) (bc_start_row c + bc_row_count c) docs) = bc_row_count c) chunks.
Proof. split; [by vm_compute | exact (chunks_cover rows bufs true 120 eq_refl rows_ok bufs_ok)]. Defined.

(** A field's name is written as it is: one with a quote ends its own key. *)
Example name_not_escaped :
  match write_row [(text "a" ++ [34] ++ text "b", CBoolean true)] false with
  | Ok b => exists pre post, b = pre ++ [34] ++ text "a" ++ [34] ++ text "b" ++ post
  | Err _ => False
  end.
Proof. exists (BULK_ACTION ++ [123]), ([34; 58] ++ text "true" ++ [125; 10]). by vm_compute. Qed.

End SerializerDemo.
