(* ===== verification/Pipeline.v ===== *)
(** The pipeline's shared pieces: crates/core/src/error.rs and
    crates/core/src/pipeline.rs.

    The text of an error decides what some sinks do with it, so it is written
    out.  [Fanout] hands a batch to each of its outputs in turn; an output is
    what its [send] answers. *)

From S2P Require Import Prelude.

(** The [Display] of the pipeline's errors, over the text of what they wrap. *)
Definition pipeline_to_string (e : PipelineError) : string :=
  match e with
  | MissingMetadata m => "missing metadata: " +:+ m
  | Configuration m => "configuration error: " +:+ m
  | ArrowErr _ => "arrow operation failed"
  | Storage m => "storage error: " +:+ m
  | Internal m => "internal error: " +:+ m
  | DownstreamClosed => "downstream channel closed"
  | TopologicalSinkMissing m => "Topological DLQ sink missing: " +:+ m
  end.

(** The test the sinks make for a preparation that panicked. *)
Definition is_prepare_join_error (err : PipelineError) : bool :=
  String.prefix "Lease::prepare join error" (pipeline_to_string err).

(** What [Lease::prepare] makes of a panicked task. *)
Definition prepare_join_error (e : string) : PipelineError := Internal ("Lease::prepare join error: " +:+ e).

(** ** Fan-out *)
Section Fanout.
Context {Batch Buf : Type}.
(** An output's [send], on the state of its buffer. *)
Variable send_output : Buf -> Batch -> result unit PipelineError * Buf.

Definition fanout_try_new (outputs : list Buf) : result (list Buf) PipelineError :=
  if bool_decide (length outputs = 0) then Err (Internal "Fanout requires at least one output") else Ok outputs.

(** The outputs but the last get a clone each, the last one the batch; the
    first failure ends it. *)
Fixpoint send_each (outputs : list Buf) (batch : Batch) : result unit PipelineError * list Buf :=
  match outputs with
  | [] => (Ok tt, [])
  | output :: outputs =>
      match send_output output batch with
      | (Err _, output) => (Err DownstreamClosed, output :: outputs)
      | (Ok _, output) => let '(r, outputs) := send_each outputs batch in (r, output :: outputs)
      end
  end.

Definition fanout_send (outputs : list Buf) (batch : Batch) : result unit PipelineError * list Buf :=
  match last outputs with
  | None => (Ok tt, outputs)
  | Some l =>
      match send_each (removelast outputs) batch with
      | (Err e, rest) => (Err e, rest ++ [l])
      | (Ok _, rest) =>
          match send_output l batch with
          | (Err _, l) => (Err DownstreamClosed, rest ++ [l])
          | (Ok _, l) => (Ok tt, rest ++ [l])
          end
      end
  end.

Lemma send_each_app outputs1 outputs2 batch :
  send_each (outputs1 ++ outputs2) batch =
  match send_each outputs1 batch with
  | (Err e, rest) => (Err e, rest ++ outputs2)
  | (Ok _, rest) => let '(r, rest2) := send_each outputs2 batch in (r, rest ++ rest2)
  end.
Proof.
  induction outputs1 as [|o os IH]; cbn [app send_each]; [by destruct (send_each outputs2 batch)|].
  destruct (send_output o batch) as [[|] o']; [|done]. rewrite IH. destruct (send_each os batch) as [[|] rest]; [|done].
  by destruct (send_each outputs2 batch).
Qed.

(** Sending to the last output apart is sending to each in turn. *)
Lemma fanout_send_each outputs batch : fanout_send outputs batch = send_each outputs batch.
Proof.
  unfold fanout_send. destruct outputs as [|o os] using rev_ind; [done|]. rewrite last_snoc, removelast_last, send_each_app. cbn.
  destruct (send_each os batch) as [[|] rest]; [|done]. by destruct (send_output o batch) as [[|] o'].
Qed.

(** A batch reaches the outputs in order: all of them, or those up to the first
    that refuses it and none after. *)
Lemma fanout_reaches outputs batch :
  let '(r, outputs') := fanout_send outputs batch in
  match r with
  | Ok _ => Forall2 (fun o o' => send_output o batch = (Ok tt, o')) outputs outputs'
  | Err e => e = DownstreamClosed /\ exists before o o' e0 after before', outputs = before ++ o :: after /\ outputs' = before' ++ o' :: after /\
      Forall2 (fun o o' => send_output o batch = (Ok tt, o')) before before' /\ send_output o batch = (Err e0, o')
  end.
Proof.
  rewrite fanout_send_each. induction outputs as [|o os IH]; cbn [send_each]; [constructor|].
  destruct (send_output o batch) as [[[]|e] o'] eqn:Eo.
  - destruct (send_each os batch) as [[[]|e] os'].
    + by constructor.
    + destruct IH as (-> & before & x & x' & e0 & after & before' & -> & -> & Hb & Hx). split; [done|].
      exists (o :: before), x, x', e0, after, (o' :: before'). split_and!; try done. by constructor.
  - split; [done|]. exists [], o, o', e, os, []. by split_and!.
Qed.

End Fanout.

(** ** The test for a panicked preparation never succeeds *)

(** The text of every error starts with its own label. *)
Lemma join_error_never_recognised err : is_prepare_join_error err = false.
Proof. by destruct err. Qed.

Lemma panicked_preparation_not_recognised e : is_prepare_join_error (prepare_join_error e) = false.
Proof. apply join_error_never_recognised. Qed.
