(* ===== verification/ElasticsearchSink.v ===== *)
(** The Elasticsearch sink: crates/elasticsearch-sink/src/lib.rs.

    A lease is prepared (sorted and cut in chunks), its chunks are sent by
    tasks that end in any order, and the lease is acknowledged or returned.  The
    tasks' order is a list of picks; what each request is answered is the
    [post] of Bulk, one per chunk, so the chunks' requests may interleave.  The
    calls a lease receives are recorded in order; SinkBuffer gives their
    effects on the buffer. *)

From stdpp Require Import pretty sorting.
From S2P Require Import Prelude Pipeline Arrow Signal Frame Ring SinkBuffer Text Bulk Serializer.
Local Open Scope N_scope.

(** The [Display] of an error. *)
Definition es_to_string (err : ElasticsearchError) : string :=
  match err with
  | EsHttp msg => "HTTP error: " +:+ msg
  | EsBulkFailed retries message => "bulk request failed after " +:+ pretty retries +:+ " retries: " +:+ message
  | EsAuthenticationFailed msg => "authentication failed: " +:+ msg
  | EsStartupValidation msg => "startup validation failed: " +:+ msg
  | EsSerialization msg => "serialization error: " +:+ msg
  | EsPayloadTooLarge actual limit => "payload size " +:+ pretty actual +:+ " bytes exceeds limit " +:+ pretty limit +:+ " bytes"
  end.

(** [impl From<ElasticsearchError> for PipelineError]. *)
Definition es_pipeline_error (err : ElasticsearchError) : PipelineError := Storage (es_to_string err).

Definition str_contains (s sub : string) : bool := match String.index 0 sub s with Some _ => true | None => false end.

Definition classify_elasticsearch_error (err : ElasticsearchError) : FailureClass :=
  match err with
  | EsAuthenticationFailed _ => Fatal (es_to_string err)
  | EsHttp _ => Transient
  | EsBulkFailed _ message =>
      if String.prefix "HTTP 429" message || String.prefix "HTTP 500" message || String.prefix "HTTP 502" message
         || String.prefix "HTTP 503" message || String.prefix "HTTP 504" message || String.prefix "network error" message
         || str_contains message "recoverable status (429/500/503)"
      then Transient
      else Rejected (es_to_string err)
  | EsSerialization _ | EsPayloadTooLarge _ _ | EsStartupValidation _ => Rejected (es_to_string err)
  end.

Definition failure_class_severity (class : FailureClass) : N :=
  match class with Transient => 1 | Rejected _ => 2 | Fatal _ => 3 end.

(** What a chunk's task ends with: its answer, or a panic. *)
Inductive ChunkTask : Type :=
| TaskDone (start_row row_count : nat) (res : result BulkResponse ElasticsearchError)
| TaskPanicked (msg : string).

Definition outcome_t : Type := nat * nat * BulkResponse.

(** The accumulators of the joined tasks. *)
Record Joined := mkJoined { jd_outcomes : list outcome_t; jd_es_err : option ElasticsearchError; jd_join_err : option PipelineError }.

Definition no_outcomes : Joined := mkJoined [] None None.

Definition replaces (existing : option ElasticsearchError) (es_err : ElasticsearchError) : bool :=
  match existing with
  | None => true
  | Some existing =>
      failure_class_severity (classify_elasticsearch_error existing) <? failure_class_severity (classify_elasticsearch_error es_err)
  end.

Definition record_task_result (res : ChunkTask) (j : Joined) : Joined :=
  match res with
  | TaskDone start_row row_count (Ok resp) => mkJoined (jd_outcomes j ++ [(start_row, row_count, resp)]) (jd_es_err j) (jd_join_err j)
  | TaskDone _ _ (Err es_err) =>
      mkJoined (jd_outcomes j) (if replaces (jd_es_err j) es_err then Some es_err else jd_es_err j) (jd_join_err j)
  | TaskPanicked msg =>
      mkJoined (jd_outcomes j) (jd_es_err j)
        (match jd_join_err j with None => Some (Internal ("Bulk dispatch task failed: " +:+ msg)) | e => e end)
  end.

(** [join_next]: some task of the set, the one [pick] says. *)
Definition join_next (pick : nat) (join_set : list ChunkTask) : option (ChunkTask * list ChunkTask) :=
  let i := (pick mod length join_set)%nat in
  match join_set !! i with Some t => Some (t, delete i join_set) | None => None end.

Fixpoint join_some (picks : list nat) (join_set : list ChunkTask) (j : Joined) : list ChunkTask * Joined :=
  match picks with
  | [] => (join_set, j)
  | pick :: picks =>
      match join_next pick join_set with
      | Some (t, join_set) => join_some picks join_set (record_task_result t j)
      | None => (join_set, j)
      end
  end.

(** [drain_join_set]: as many joins as there are tasks. *)
Fixpoint drain_join_set (fuel : nat) (picks : list nat) (join_set : list ChunkTask) (j : Joined) : Joined :=
  match fuel with
  | O => j
  | S fuel =>
      match join_next (hd 0%nat picks) join_set with
      | Some (t, join_set) => drain_join_set fuel (tl picks) join_set (record_task_result t j)
      | None => j
      end
  end.

(** The calls on a lease. *)
Inductive LeaseCall (RB : Type) : Type :=
| CallQuarantine (reason : string) (batches : list RB)
| CallAck
| CallNack (class : FailureClass).
Arguments CallQuarantine {RB} _ _.
Arguments CallAck {RB}.
Arguments CallNack {RB} _.

(** What the calls on the lease return. *)
Record LeaseReplies := mkLeaseReplies {
  lr_quarantine : result unit PipelineError; lr_ack : result unit PipelineError; lr_nack : result unit PipelineError }.

Section Sink.
Context {RB Sch Col : Type} `{Arrow RB Sch Row} `{Crc} `{Formats}.
Variable column_by_name : RB -> string -> option Col.
Variable columns : RB -> list Col.
Variable lexsort_to_indices : list (Col * SortOptions) -> option (list nat).
Variable take_column : Col -> list nat -> option Col.
Variable try_new : Sch -> list Col -> option RB.
Variable concat_batches : Sch -> list RB -> option RB.

(** A sink's configuration, as [process_lease] receives it. *)
Variables (sorter : BatchSorter) (unpack_attributes : bool) (max_payload_bytes : N) (max_retries : N).
(** The answers to each chunk's requests (by its first row), its clock and the
    endpoints its task starts from; and the tasks that panic. *)
Variables (post : nat -> nat -> bytes -> bytes -> HttpReply) (clock : nat -> nat -> N) (endpoints : nat -> Endpoints) (panics : nat -> option string).

Definition prepare_chunks (signal_type : SignalType) (batch : RB)
  : result (RB * list BulkChunk * list (nat * N)) PipelineError :=
  if num_rows batch =? 0 then Ok (batch, [], [])
  else
    let? sorted_batch := Signal.sort column_by_name columns lexsort_to_indices take_column try_new sorter batch signal_type in
    let? r := map_err es_pipeline_error (serialize_batch_chunks_internal (rb_rows sorted_batch) unpack_attributes max_payload_bytes) in
    Ok (sorted_batch, r.1, r.2).

Definition run_chunk (chunk : BulkChunk) : ChunkTask :=
  let i := bc_start_row chunk in
  match panics i with
  | Some msg => TaskPanicked msg
  | None =>
      match send_bulk (post i) (clock i) max_retries (endpoints i) (bc_payload chunk) with
      | inr (_, res) => TaskDone i (bc_row_count chunk) res
      | inl _ => TaskPanicked "no answer"
      end
  end.

(** [dispatch], with the tasks joined before the chunk's own is spawned. *)
Definition dispatch (picks : list nat) (chunk : BulkChunk) (s : list ChunkTask * Joined) : list ChunkTask * Joined :=
  if bool_decide (bc_payload chunk = []) || (bc_row_count chunk =? 0)%nat then s
  else
    let '(join_set, j) := join_some picks s.1 s.2 in
    (join_set ++ [run_chunk chunk], j).

Fixpoint dispatch_all (schedule : list (list nat)) (chunks : list BulkChunk) (s : list ChunkTask * Joined) : list ChunkTask * Joined :=
  match chunks with
  | [] => s
  | chunk :: chunks => dispatch_all (tl schedule) chunks (dispatch (hd [] schedule) chunk s)
  end.

(** All the chunks sent and all their tasks joined. *)
Definition send_chunks (schedule : list (list nat)) (picks : list nat) (chunks : list BulkChunk) : Joined :=
  let '(join_set, j) := dispatch_all schedule chunks ([], no_outcomes) in
  drain_join_set (length join_set) picks join_set j.

Definition oversized_reason (record_bytes : N) : string :=
  ("oversized record (" +:+ pretty record_bytes +:+ " bytes > max_payload_bytes " +:+ pretty max_payload_bytes +:+ ")")%string.

(** The slices to quarantine so far, with the first reason. *)
Definition Rejects : Type := list RB * option string.

Definition first_of (o : option string) (reason : string) : option string := match o with None => Some reason | _ => o end.

Definition push_row (sorted_batch : RB) (row_idx : N) (slices : list RB) : list RB :=
  if row_idx <? num_rows sorted_batch then slices ++ [rb_slice sorted_batch row_idx 1] else slices.

Fixpoint push_oversized (sorted_batch : RB) (oversized_rows : list (nat * N)) (r : Rejects) : Rejects :=
  match oversized_rows with
  | [] => r
  | (row_idx, record_bytes) :: oversized_rows =>
      push_oversized sorted_batch oversized_rows
        (push_row sorted_batch (N.of_nat row_idx) r.1, first_of r.2 (oversized_reason record_bytes))
  end.

Definition item_reason (w : BulkItemWrapper) : string :=
  let err := item w ≫= bi_error in
  let show (b : bytes) : string := String.string_of_list_ascii (map Ascii.ascii_of_N b) in
  "item " +:+ pretty (default 400 (status w)) +:+ ": " +:+ from_option (fun e => show (bie_type e)) "unknown" err +:+ ": "
  +:+ from_option (fun e => show (bie_reason e)) "unrecoverable bulk item error" err.

Fixpoint push_items (sorted_batch : RB) (start_row row_count item_idx : nat) (items : list BulkItemWrapper) (r : Rejects) : Rejects :=
  match items with
  | [] => r
  | w :: items =>
      let r :=
        if is_unrecoverable w
        then (if (item_idx <? row_count)%nat then push_row sorted_batch (N.of_nat start_row +us N.of_nat item_idx) r.1 else r.1,
              first_of r.2 (item_reason w))
        else r in
      push_items sorted_batch start_row row_count (S item_idx) items r
  end.

Fixpoint push_outcomes (sorted_batch : RB) (outcomes : list outcome_t) (r : Rejects) : Rejects :=
  match outcomes with
  | [] => r
  | (start_row, row_count, resp) :: outcomes =>
      push_outcomes sorted_batch outcomes (push_items sorted_batch start_row row_count 0 (br_items resp) r)
  end.

(** The quarantine of the rejected slices, if any, and the end of the lease. *)
Definition quarantine_and_ack (replies : LeaseReplies) (default_reason : string) (r : Rejects) : list (LeaseCall RB) * result unit PipelineError :=
  if bool_decide (r.1 = []) then ([CallAck], lr_ack replies)
  else
    let reason := default default_reason r.2 in
    match lr_quarantine replies with
    | Err dlq_err => ([CallQuarantine reason r.1; CallNack (Fatal (pipeline_to_string dlq_err))], Err dlq_err)
    | Ok _ => ([CallQuarantine reason r.1; CallAck], lr_ack replies)
    end.

Definition start_le (x y : outcome_t) : Prop := (x.1.1 <= y.1.1)%nat.

#[export] Instance start_le_dec : RelDecision start_le := fun x y => decide (x.1.1 <= y.1.1)%nat.

(** After all tasks ended. *)
Definition settle_lease (replies : LeaseReplies) (sorted_batch : RB) (oversized_rows : list (nat * N)) (j : Joined)
  : list (LeaseCall RB) * result unit PipelineError :=
  match jd_join_err j with
  | Some join_err => ([CallNack (Fatal (pipeline_to_string join_err))], Err join_err)
  | None =>
      match jd_es_err j with
      | Some es_err =>
          let class := classify_elasticsearch_error es_err in
          ([CallNack class],
           match lr_nack replies with
           | Err e => Err e
           | Ok _ => match class with Fatal _ => Err (es_pipeline_error es_err) | _ => Ok tt end
           end)
      | None =>
          let outcomes := merge_sort start_le (jd_outcomes j) in
          if existsb (fun o => (0 <? recoverable_count o.2)%nat) outcomes then ([CallNack Transient], lr_nack replies)
          else quarantine_and_ack replies "item 400: unrecoverable bulk item error"
                 (push_outcomes sorted_batch outcomes (push_oversized sorted_batch oversized_rows ([], None)))
      end
  end.

Definition process_lease (c : BufferConfig.BufferConfig) (dir : gmap N bytes) (replies : LeaseReplies)
  (schedule : list (list nat)) (picks : list nat) (lease : Lease RB Sch) : list (LeaseCall RB) * result unit PipelineError :=
  if l_num_rows lease =? 0 then ([CallAck], lr_ack replies)
  else
    match prepare concat_batches c dir lease (prepare_chunks (l_signal lease)) with
    | Err err => ([CallNack (Fatal (pipeline_to_string err))], Err err)
    | Ok (sorted_batch, chunks, oversized_rows) =>
        if bool_decide (chunks = [])
        then quarantine_and_ack replies "oversized bulk item record" (push_oversized sorted_batch oversized_rows ([], None))
        else settle_lease replies sorted_batch oversized_rows (send_chunks schedule picks chunks)
    end.

(** ** Every task is joined once *)

Definition record_all (tasks : list ChunkTask) (j : Joined) : Joined := foldl (fun j t => record_task_result t j) j tasks.

Lemma join_next_Permutation pick js t js' : join_next pick js = Some (t, js') -> js ≡ₚ t :: js'.
Proof.
  unfold join_next. destruct (js !! _) as [x|] eqn:E; [|done]. intros Eq. injection Eq as -> <-. by apply delete_Permutation.
Qed.

Lemma join_some_spec picks js j : exists joined,
  js ≡ₚ joined ++ (join_some picks js j).1 /\ (join_some picks js j).2 = record_all joined j.
Proof.
  revert js j. induction picks as [|pick picks IH]; intros js j; [by exists []|]. cbn [join_some].
  destruct (join_next pick js) as [[t js']|] eqn:E; [|by exists []].
  destruct (IH js' (record_task_result t j)) as (joined & Hp & Hj). exists (t :: joined).
  rewrite (join_next_Permutation _ _ _ _ E), Hp at 1. by split.
Qed.

Lemma drain_join_set_spec n picks js j : length js = n -> exists joined, joined ≡ₚ js /\ drain_join_set n picks js j = record_all joined j.
Proof.
  revert picks js j. induction n as [|n IH]; intros picks js j Hn; [destruct js; [by exists []|done]|]. cbn [drain_join_set].
  destruct (join_next (hd 0%nat picks) js) as [[t js']|] eqn:E.
  - pose proof (join_next_Permutation _ _ _ _ E) as Hp. apply Permutation_length in Hp as Hl. cbn in Hl.
    destruct (IH (tl picks) js' (record_task_result t j) ltac:(lia)) as (joined & Hj & Hr). exists (t :: joined). split; [by rewrite Hj, Hp | exact Hr].
  - exfalso. unfold join_next in E. destruct (lookup_lt_is_Some_2 js (hd 0 picks mod length js)%nat) as [t Ht]; [|by rewrite Ht in E].
    apply Nat.mod_upper_bound. lia.
Qed.

Lemma record_all_app ts us j : record_all (ts ++ us) j = record_all us (record_all ts j).
Proof. apply foldl_app. Qed.

Definition live (chunk : BulkChunk) : bool := negb (bool_decide (bc_payload chunk = []) || (bc_row_count chunk =? 0)%nat).

Lemma dispatch_all_spec chunks : forall schedule joined js,
  let s := dispatch_all schedule chunks (js, record_all joined no_outcomes) in
  exists joined', joined' ++ s.1 ≡ₚ (joined ++ js) ++ map run_chunk (List.filter live chunks) /\ s.2 = record_all joined' no_outcomes.
Proof.
  induction chunks as [|c chunks IH]; intros schedule joined js; cbv zeta; [exists joined; cbn; by rewrite app_nil_r|].
  cbn [dispatch_all]. unfold dispatch. cbn [List.filter]. unfold live at 1. destruct (_ || _); cbn [negb].
  - apply IH.
  - cbn [fst snd]. destruct (join_some_spec (hd [] schedule) js (record_all joined no_outcomes)) as (more & Hp & Hj).
    destruct (join_some _ js _) as [js' j'] eqn:E. cbn in Hp, Hj. subst j'. rewrite <- record_all_app.
    destruct (IH (tl schedule) (joined ++ more) (js' ++ [run_chunk c])) as (joined' & Hp' & Hj'). exists joined'. split; [|done].
    rewrite Hp', Hp. cbn [map]. by rewrite <- !app_assoc.
Qed.

(** All the chunks' tasks are recorded, each once, in some order. *)
Lemma send_chunks_spec schedule picks chunks : exists order,
  order ≡ₚ map run_chunk (List.filter live chunks) /\ send_chunks schedule picks chunks = record_all order no_outcomes.
Proof.
  unfold send_chunks. destruct (dispatch_all_spec chunks schedule [] []) as (joined & Hp & Hj).
  change (record_all [] no_outcomes) with no_outcomes in *. destruct (dispatch_all schedule chunks _) as [js j]. cbn in Hp, Hj. subst j.
  destruct (drain_join_set_spec (length js) picks js (record_all joined no_outcomes) eq_refl) as (rest & Hr & ->).
  exists (joined ++ rest). split; [by rewrite Hr | by rewrite record_all_app].
Qed.

Definition outcome_of (t : ChunkTask) : option outcome_t :=
  match t with TaskDone start_row row_count (Ok resp) => Some (start_row, row_count, resp) | _ => None end.

Definition task_error (t : ChunkTask) : option ElasticsearchError := match t with TaskDone _ _ (Err e) => Some e | _ => None end.

Definition severity (e : ElasticsearchError) : N := failure_class_severity (classify_elasticsearch_error e).

(** What is recorded: the answers, whether a task panicked, and an error none is
    more severe than. *)
Lemma record_all_spec order :
  jd_outcomes (record_all order no_outcomes) = omap outcome_of order /\
  (jd_join_err (record_all order no_outcomes) = None <-> forall msg, TaskPanicked msg ∉ order) /\
  match jd_es_err (record_all order no_outcomes) with
  | None => omap task_error order = []
  | Some e => e ∈ omap task_error order /\ Forall (fun e' => severity e' <= severity e) (omap task_error order)
  end.
Proof.
  induction order as [|t order IH] using rev_ind.
  - split_and!; try done. split; [|done]. intros _ msg. apply not_elem_of_nil.
  - rewrite record_all_app. set (j := record_all order no_outcomes) in *. destruct IH as (Ho & Hp & He). cbn [record_all foldl].
    rewrite !omap_app. destruct t as [start count [resp|e]|msg]; cbn [record_task_result jd_outcomes jd_es_err jd_join_err omap list_omap outcome_of task_error].
    + rewrite Ho, !app_nil_r. split_and!; [done| |done]. rewrite Hp. split; intros Hx m Hin; apply (Hx m).
      * apply elem_of_app in Hin as [Hin|Hin]; [done|]. by apply list_elem_of_singleton in Hin.
      * apply elem_of_app. by left.
    + rewrite Ho, !app_nil_r. split_and!; [done| |].
      * rewrite Hp. split; intros Hx m Hin; apply (Hx m).
        -- apply elem_of_app in Hin as [Hin|Hin]; [done|]. by apply list_elem_of_singleton in Hin.
        -- apply elem_of_app. by left.
      * destruct (jd_es_err j) as [e0|]; cbn [replaces].
        -- destruct He as [Hin Hall]. fold (severity e) (severity e0). destruct (N.ltb_spec (severity e0) (severity e)) as [Hlt|Hge].
           ++ split; [apply elem_of_app; right; by apply list_elem_of_singleton|]. apply Forall_app. split; [|by repeat constructor].
              eapply Forall_impl; [exact Hall|]. cbn. lia.
           ++ split; [apply elem_of_app; by left|]. apply Forall_app. split; [done|]. by repeat constructor.
        -- rewrite He. cbn. split; [apply list_elem_of_here | by repeat constructor].
    + rewrite Ho, !app_nil_r. split_and!; [done| |done]. split.
      * intros Hn. by destruct (jd_join_err j).
      * intros Hx. exfalso. apply (Hx msg), elem_of_app. right. by apply list_elem_of_singleton.
Qed.

(** ** The quarantined rows *)

Definition row_slice (sorted_batch : RB) (i : nat) : RB := rb_slice sorted_batch (N.of_nat i) 1.

(** The positions from [i] on whose items were refused for good. *)
Fixpoint refused_from (i : nat) (items : list BulkItemWrapper) : list nat :=
  match items with
  | [] => []
  | w :: items => (if is_unrecoverable w then [i] else []) ++ refused_from (S i) items
  end.

Lemma refused_from_elem i items k : k ∈ refused_from i items <-> exists p w, items !! p = Some w /\ is_unrecoverable w = true /\ k = (i + p)%nat.
Proof.
  revert i. induction items as [|w items IH]; intros i; cbn [refused_from].
  - split; [by intros ?%not_elem_of_nil | by intros (p & w & Hw & _)].
  - rewrite elem_of_app, IH. split.
    + intros [Hk|(p & w' & Hw & Hu & ->)]; [|exists (S p), w'; split_and!; [done | done | lia]].
      destruct (is_unrecoverable w) eqn:Eu; [|by apply not_elem_of_nil in Hk]. apply list_elem_of_singleton in Hk as ->.
      exists 0%nat, w. split_and!; [done | done | lia].
    + intros ([|p] & w' & Hw & Hu & ->); cbn in Hw.
      * injection Hw as ->. left. rewrite Hu, Nat.add_0_r. by apply list_elem_of_singleton.
      * right. exists p, w'. split_and!; [done | done | lia].
Qed.

Lemma refused_from_sublist i items : refused_from i items `sublist_of` seq i (length items).
Proof.
  revert i. induction items as [|w items IH]; intros i; [done|]. cbn [refused_from length seq].
  destruct (is_unrecoverable w); cbn [app]; [by apply sublist_skip | by apply sublist_cons].
Qed.

Lemma push_row_in sorted_batch i slices : (i < length (rb_rows sorted_batch))%nat ->
  push_row sorted_batch (N.of_nat i) slices = slices ++ [row_slice sorted_batch i].
Proof. intros Hi. unfold push_row, num_rows. destruct (N.ltb_spec (N.of_nat i) (N.of_nat (length (rb_rows sorted_batch)))); [done | lia]. Qed.

Lemma push_oversized_slices sorted_batch oversized r : Forall (fun o => (o.1 < length (rb_rows sorted_batch))%nat) oversized ->
  (push_oversized sorted_batch oversized r).1 = r.1 ++ map (row_slice sorted_batch) (map fst oversized).
Proof.
  intros Ho. revert r. induction Ho as [|[i n] oversized Hi Ho IH]; intros r; cbn [push_oversized map]; [by rewrite app_nil_r|].
  rewrite IH. cbn [fst]. rewrite push_row_in by done. by rewrite <- app_assoc.
Qed.

Lemma push_items_slices sorted_batch start count : num_rows sorted_batch <= usize_max -> forall items idx r,
  (start + idx + length items <= length (rb_rows sorted_batch))%nat -> (idx + length items <= count)%nat ->
  (push_items sorted_batch start count idx items r).1 = r.1 ++ map (row_slice sorted_batch) (refused_from (start + idx) items).
Proof.
  intros Hmax. induction items as [|w items IH]; intros idx r Hrows Hcount; cbn [push_items refused_from]; [by rewrite app_nil_r|].
  cbn [length] in Hrows, Hcount. rewrite IH by lia. replace (start + S idx)%nat with (S (start + idx)) by lia.
  destruct (is_unrecoverable w); [|done]. cbn [fst app map]. destruct (Nat.ltb_spec idx count); [|lia].
  replace (N.of_nat start +us N.of_nat idx) with (N.of_nat (start + idx)) by (unfold sat_add, num_rows in *; lia).
  rewrite push_row_in by lia. by rewrite <- app_assoc.
Qed.

Definition outcome_in (sorted_batch : RB) (o : outcome_t) : Prop :=
  (o.1.1 + o.1.2 <= length (rb_rows sorted_batch))%nat /\ length (br_items o.2) = o.1.2.

Definition outcome_refused (o : outcome_t) : list nat := refused_from o.1.1 (br_items o.2).

Lemma push_outcomes_slices sorted_batch outcomes r : num_rows sorted_batch <= usize_max -> Forall (outcome_in sorted_batch) outcomes ->
  (push_outcomes sorted_batch outcomes r).1 = r.1 ++ map (row_slice sorted_batch) (concat (map outcome_refused outcomes)).
Proof.
  intros Hmax Ho. revert r. induction Ho as [|[[start count] resp] outcomes [Ha Hb] Ho IH]; intros r; cbn [push_outcomes map concat]; [by rewrite app_nil_r|].
  cbn in Ha, Hb. rewrite IH, push_items_slices by (done || lia). rewrite Nat.add_0_r, map_app, <- app_assoc. done.
Qed.

(** The rows of chunks are apart when together they are listed once. *)
Lemma chunk_unique chunks c c' i : NoDup (concat (map chunk_indices chunks)) -> c ∈ chunks -> c' ∈ chunks ->
  i ∈ chunk_indices c -> i ∈ chunk_indices c' -> c = c'.
Proof.
  induction chunks as [|x chunks IH]; intros Hnd Hc Hc' Hi Hi'; [by apply not_elem_of_nil in Hc|].
  cbn [map concat] in Hnd. apply NoDup_app in Hnd as (_ & Hsep & Hnd).
  assert (Hin : forall d, d ∈ chunks -> i ∈ chunk_indices d -> i ∈ concat (map chunk_indices chunks)).
  { intros d Hd Hid. apply list_elem_of_In, List.in_concat. exists (chunk_indices d). split; [by apply in_map, list_elem_of_In | by apply list_elem_of_In]. }
  apply elem_of_cons in Hc as [->|Hc]; apply elem_of_cons in Hc' as [->|Hc']; [done| | |by apply IH].
  - exfalso. by apply (Hsep i Hi), (Hin c').
  - exfalso. by apply (Hsep i Hi'), (Hin c).
Qed.

Lemma concat_sublist {A B} (f g : A -> list B) l : Forall (fun x => f x `sublist_of` g x) l -> concat (map f l) `sublist_of` concat (map g l).
Proof. induction 1 as [|x l Hx Hl IH]; [done|]. cbn. by apply sublist_app. Qed.

Lemma oversized_elem bufs max_bytes k i n : (i, n) ∈ oversized_of bufs max_bytes k <->
  (i < k)%nat /\ exists b, bufs !! i = Some b /\ max_bytes < N.of_nat (length b) /\ n = N.of_nat (length b).
Proof.
  unfold oversized_of. rewrite list_elem_of_omap. split.
  - intros (j & Hj & Hx). apply list_elem_of_In, List.in_seq in Hj. destruct (bufs !! j) as [b|] eqn:Eb; [|done].
    revert Hx. destruct (N.ltb_spec max_bytes (N.of_nat (length b))); [|done]. intros Hx. injection Hx as -> <-. split; [lia|]. by exists b.
  - intros (Hi & b & Hb & Hbig & ->). exists i. split; [apply list_elem_of_In, List.in_seq; lia|]. rewrite Hb.
    cbn. case_match eqn:E; [done|]. apply N.ltb_ge in E. lia.
Qed.

Lemma oversized_fst bufs max_bytes k : map fst (oversized_of bufs max_bytes k) `sublist_of` seq 0 k.
Proof.
  unfold oversized_of. induction (seq 0 k) as [|i l IH]; [done|]. cbn [omap list_omap]. destruct (bufs !! i) as [b|]; [|by apply sublist_cons].
  destruct (max_bytes <? _); [by apply sublist_skip | by apply sublist_cons].
Qed.

(** ** Every row of an acknowledged lease is stored or quarantined *)

Context `{!FormatsLaws}.

(** Each chunk's requests are answered item by item. *)
Hypothesis cluster : forall i n endpoint ds s ph tx resp,
  Forall doc_ok ds -> post i n endpoint (render ds) = Reply s ph tx (Ok resp) -> is_success s = true ->
  length (br_items resp) = length ds /\
  (br_errors resp = false -> Forall (fun w => is_recoverable w = false /\ is_unrecoverable w = false) (br_items resp)).
Hypothesis limit : max_payload_bytes < usize_max.

Definition chunk_docs (docs : list doc) (c : BulkChunk) : list doc := slice (bc_start_row c) (bc_start_row c + bc_row_count c) docs.

(** The cluster's answer to row [i], recorded by its chunk's task, is a success. *)
Definition stored (docs : list doc) (chunks : list BulkChunk) (i : nat) : Prop :=
  exists c resp w, c ∈ chunks /\ i ∈ chunk_indices c /\ run_chunk c = TaskDone (bc_start_row c) (bc_row_count c) (Ok resp) /\
    br_items resp !! (i - bc_start_row c)%nat = Some w /\ is_recoverable w = false /\ is_unrecoverable w = false /\
    answered (post (bc_start_row c)) (chunk_docs docs c) (i - bc_start_row c)%nat w.

(** What [chunks_cover] states of a chunk. *)
Definition chunk_ok (docs : list doc) (c : BulkChunk) : Prop :=
  (0 < bc_row_count c)%nat /\ N.of_nat (length (bc_payload c)) <= max_payload_bytes /\
  bc_payload c = render (chunk_docs docs c) /\ length (chunk_docs docs c) = bc_row_count c.

Lemma chunk_docs_ok docs c : Forall doc_ok docs -> Forall doc_ok (chunk_docs docs c).
Proof. intros Hd. unfold chunk_docs, slice. by apply Forall_take, Forall_drop. Qed.

Lemma chunk_live docs c : chunk_ok docs c -> live c = true.
Proof.
  intros (Hpos & _ & Hp & Hl). unfold live. rewrite bool_decide_false; [by destruct (Nat.eqb_spec (bc_row_count c) 0); [lia|]|].
  rewrite Hp. destruct (chunk_docs docs c) as [|d ds]; [cbn in Hl; lia|]. unfold render, render_doc. cbn. rewrite <- !app_assoc. by destruct d.1.
Qed.

Lemma all_live docs chunks : Forall (chunk_ok docs) chunks -> List.filter live chunks = chunks.
Proof. induction 1 as [|c chunks Hc Hok IH]; [done|]. cbn. by rewrite (chunk_live docs c Hc), IH. Qed.

Lemma run_chunk_settled docs c start count resp : Forall doc_ok docs -> chunk_ok docs c ->
  run_chunk c = TaskDone start count (Ok resp) ->
  start = bc_start_row c /\ count = bc_row_count c /\ settled (post (bc_start_row c)) (chunk_docs docs c) (Ok resp).
Proof.
  intros Hd (Hpos & _ & Hp & Hl) Hr. unfold run_chunk in Hr. destruct (panics _); [done|]. rewrite Hp in Hr.
  assert (Hne : chunk_docs docs c <> []) by (intros E; rewrite E in Hl; cbn in Hl; lia).
  destruct (send_bulk_settled (post (bc_start_row c)) (clock (bc_start_row c)) max_retries (cluster (bc_start_row c)) (chunk_docs docs c)
    Hne (chunk_docs_ok docs c Hd) (endpoints (bc_start_row c))) as (_ & e' & r & Hs & Hset).
  rewrite Hs in Hr. injection Hr as <- <- ->. done.
Qed.

(** When no task failed, the outcomes are those of the chunks, in some order. *)
Lemma outcomes_of_chunks docs schedule picks chunks : Forall doc_ok docs -> Forall (chunk_ok docs) chunks ->
  let j := send_chunks schedule picks chunks in
  jd_join_err j = None -> jd_es_err j = None ->
  exists resps, Forall2 (fun c resp => run_chunk c = TaskDone (bc_start_row c) (bc_row_count c) (Ok resp)) chunks resps /\
    jd_outcomes j ≡ₚ zip_with (fun c resp => (bc_start_row c, bc_row_count c, resp)) chunks resps.
Proof.
  intros Hd Hok. cbv zeta. destruct (send_chunks_spec schedule picks chunks) as (order & Hp & ->).
  rewrite (all_live docs chunks Hok) in Hp. destruct (record_all_spec order) as (Ho & Hj & He). rewrite Ho, Hj. intros Hnp Hne. rewrite Hne in He.
  assert (Hall : Forall (fun c => exists resp, run_chunk c = TaskDone (bc_start_row c) (bc_row_count c) (Ok resp)) chunks).
  { apply Forall_forall. intros c Hc. assert (Hin : run_chunk c ∈ order) by (rewrite Hp; by apply list_elem_of_In, in_map, list_elem_of_In).
    destruct (run_chunk c) as [start count [resp|e]|msg] eqn:Er.
    - rewrite Forall_forall in Hok. destruct (run_chunk_settled docs c start count resp Hd (Hok c Hc) Er) as (-> & -> & _). by exists resp.
    - exfalso. assert (Hx : e ∈ omap task_error order) by (apply list_elem_of_omap; by eexists). rewrite He in Hx. by apply not_elem_of_nil in Hx.
    - by destruct (Hnp msg). }
  apply Forall_exists_Forall2_l in Hall as [resps Hr]. exists resps. split; [done|]. rewrite Hp. clear - Hr.
  induction Hr as [|c resp chunks resps Hc Hr IH]; [done|]. cbn [map omap list_omap zip_with]. rewrite Hc. cbn. by rewrite IH.
Qed.

Lemma elem_of_concat_map {A} (f : A -> list nat) l i : i ∈ concat (map f l) <-> exists x, x ∈ l /\ i ∈ f x.
Proof.
  rewrite list_elem_of_In, List.in_concat. setoid_rewrite List.in_map_iff. split.
  - intros (k & (x & <- & Hx) & Hi). exists x. by rewrite !list_elem_of_In.
  - intros (x & Hx & Hi). rewrite !list_elem_of_In in *. by exists (f x); split; [exists x|].
Qed.

Lemma fits_elem bufs n i : i ∈ List.filter (fits_alone bufs max_payload_bytes) (seq 0 n) <-> (i < n)%nat /\ fits_alone bufs max_payload_bytes i = true.
Proof. rewrite list_elem_of_In, List.filter_In, List.in_seq. intuition lia. Qed.

Lemma chunk_indices_elem c i : i ∈ chunk_indices c <-> (bc_start_row c <= i < bc_start_row c + bc_row_count c)%nat.
Proof. unfold chunk_indices. by rewrite list_elem_of_In, List.in_seq. Qed.

Section Account.
Variables (docs : list doc) (bufs : list bytes) (chunks : list BulkChunk) (resps : list BulkResponse) (outcomes : list outcome_t).
Hypothesis docs_fine : Forall doc_ok docs.
Hypothesis chunks_fine : Forall (chunk_ok docs) chunks.
Hypothesis cover : concat (map chunk_indices chunks) = List.filter (fits_alone bufs max_payload_bytes) (seq 0 (length bufs)).
Hypothesis answers : Forall2 (fun c resp => run_chunk c = TaskDone (bc_start_row c) (bc_row_count c) (Ok resp)) chunks resps.
Hypothesis outcomes_all : outcomes ≡ₚ zip_with (fun c resp => (bc_start_row c, bc_row_count c, resp)) chunks resps.

Definition quarantined : list nat :=
  map fst (oversized_of bufs max_payload_bytes (length bufs)) ++ concat (map outcome_refused outcomes).

Lemma answer_of c : c ∈ chunks -> exists resp, run_chunk c = TaskDone (bc_start_row c) (bc_row_count c) (Ok resp) /\
  settled (post (bc_start_row c)) (chunk_docs docs c) (Ok resp) /\ length (br_items resp) = bc_row_count c /\
  (bc_start_row c, bc_row_count c, resp) ∈ outcomes.
Proof.
  intros Hc. pose proof (proj1 (Forall_forall _ _) chunks_fine c Hc) as Hok. apply list_elem_of_lookup in Hc as [k Hk].
  destruct (Forall2_lookup_l _ _ _ _ _ answers Hk) as (resp & Hr & Hrun). exists resp.
  destruct (run_chunk_settled docs c _ _ resp docs_fine Hok Hrun) as (_ & _ & Hs). split_and!; [done | done | |].
  - destruct Hs as (Hl & _ & _). rewrite Hl. apply Hok.
  - rewrite outcomes_all. apply list_elem_of_lookup. exists k. by rewrite lookup_zip_with, Hk, Hr.
Qed.

Lemma outcome_chunk o : o ∈ outcomes -> exists c, c ∈ chunks /\ run_chunk c = TaskDone (bc_start_row c) (bc_row_count c) (Ok o.2) /\
  o = (bc_start_row c, bc_row_count c, o.2).
Proof.
  rewrite outcomes_all, list_elem_of_lookup. intros [k Hk]. rewrite lookup_zip_with in Hk.
  destruct (chunks !! k) as [c|] eqn:Ec; [|done]. destruct (resps !! k) as [resp|] eqn:Er; [|done]. cbn in Hk. injection Hk as <-.
  exists c. split_and!; [by eapply list_elem_of_lookup_2 | | done]. by apply (Forall2_lookup_lr _ _ _ _ _ _ answers Ec Er).
Qed.

Lemma refused_elem i : i ∈ concat (map outcome_refused outcomes) <->
  exists c resp w, c ∈ chunks /\ i ∈ chunk_indices c /\ run_chunk c = TaskDone (bc_start_row c) (bc_row_count c) (Ok resp) /\
    br_items resp !! (i - bc_start_row c)%nat = Some w /\ is_unrecoverable w = true.
Proof.
  rewrite elem_of_concat_map. split.
  - intros (o & Ho & Hi). destruct (outcome_chunk o Ho) as (c & Hc & Hrun & Eo). rewrite Eo in Hi. unfold outcome_refused in Hi. cbn [fst snd] in Hi.
    apply refused_from_elem in Hi as (p & w & Hw & Hu & ->). exists c, o.2, w.
    destruct (answer_of c Hc) as (resp & Hrun' & _ & Hl & _). rewrite Hrun in Hrun'. injection Hrun' as E. rewrite <- E in Hl.
    pose proof (lookup_lt_Some _ _ _ Hw) as Hlt. split_and!; [done | apply chunk_indices_elem; lia | done | | done].
    by replace (bc_start_row c + p - bc_start_row c)%nat with p by lia.
  - intros (c & resp & w & Hc & Hi & Hrun & Hw & Hu). destruct (answer_of c Hc) as (resp' & Hrun' & _ & _ & Ho).
    rewrite Hrun in Hrun'. injection Hrun' as <-. exists (bc_start_row c, bc_row_count c, resp). split; [done|].
    apply refused_from_elem. exists (i - bc_start_row c)%nat, w. apply chunk_indices_elem in Hi. split_and!; [done | done | cbn; lia].
Qed.

Lemma refused_nodup : NoDup (concat (map outcome_refused outcomes)).
Proof.
  assert (Hp : concat (map outcome_refused outcomes) ≡ₚ
    concat (map outcome_refused (zip_with (fun c resp => (bc_start_row c, bc_row_count c, resp)) chunks resps))).
  { rewrite <- !List.flat_map_concat_map. by apply Permutation_flat_map. }
  rewrite Hp. eapply sublist_NoDup; [apply NoDup_ListNoDup, (List.NoDup_filter (fits_alone bufs max_payload_bytes)), (List.seq_NoDup (length bufs) 0)|]. rewrite <- cover.
  clear Hp outcomes_all cover. induction answers as [|c resp cs rs Hc Hr IH]; [done|]. cbn [zip_with map concat].
  inversion_clear chunks_fine as [|? ? Hok Hoks]. apply sublist_app; [|by apply IH]. unfold outcome_refused, chunk_indices. cbn [fst snd].
  destruct (run_chunk_settled docs c _ _ resp docs_fine Hok Hc) as (_ & _ & Hl & _ & _).
  replace (bc_row_count c) with (length (br_items resp)) by (rewrite Hl; apply Hok). apply refused_from_sublist.
Qed.

Lemma oversized_index i : i ∈ map fst (oversized_of bufs max_payload_bytes (length bufs)) <-> (i < length bufs)%nat /\ fits_alone bufs max_payload_bytes i = false.
Proof.
  rewrite list_elem_of_In, List.in_map_iff. setoid_rewrite <- list_elem_of_In. unfold fits_alone. split.
  - intros ((j & n) & Hj & Hin). cbn in Hj. subst j. apply oversized_elem in Hin as (Hi & b & Hb & Hbig & _). split; [done|].
    rewrite Hb. by apply N.leb_gt.
  - intros [Hi Hf]. destruct (lookup_lt_is_Some_2 bufs i Hi) as [b Hb]. rewrite Hb in Hf. apply N.leb_gt in Hf.
    exists (i, N.of_nat (length b)). split; [done|]. apply oversized_elem. split; [done|]. by exists b.
Qed.

(** Exactly the rows that are not stored are quarantined, each once. *)
Lemma quarantined_exactly : NoDup quarantined /\ forall i, i ∈ quarantined <-> (i < length bufs)%nat /\ ~ stored docs chunks i.
Proof.
  assert (Hin : forall c i, c ∈ chunks -> i ∈ chunk_indices c -> (i < length bufs)%nat /\ fits_alone bufs max_payload_bytes i = true).
  { intros c i Hc Hi. apply fits_elem. rewrite <- cover. apply elem_of_concat_map. by exists c. }
  assert (Hnd : NoDup (concat (map chunk_indices chunks))) by (rewrite cover; apply NoDup_ListNoDup, List.NoDup_filter, List.seq_NoDup).
  split.
  - apply NoDup_app. split_and!; [|intros i Hi Hr|apply refused_nodup].
    + eapply sublist_NoDup; [apply NoDup_ListNoDup, List.seq_NoDup | apply oversized_fst].
    + apply oversized_index in Hi as [_ Hf]. apply refused_elem in Hr as (c & _ & _ & Hc & Hi & _). destruct (Hin c i Hc Hi). congruence.
  - intros i. unfold quarantined. rewrite elem_of_app, oversized_index, refused_elem. split.
    + intros [[Hi Hf]|(c & resp & w & Hc & Hi & Hrun & Hw & Hu)].
      * split; [done|]. intros (c & resp & w & Hc & Hic & _). destruct (Hin c i Hc Hic). congruence.
      * destruct (Hin c i Hc Hi) as [Hlt _]. split; [done|]. intros (c' & resp' & w' & Hc' & Hi' & Hrun' & Hw' & _ & Hu' & _).
        assert (c' = c) as -> by (eapply chunk_unique; eauto). rewrite Hrun in Hrun'. injection Hrun' as <-. congruence.
    + intros [Hi Hns]. destruct (fits_alone bufs max_payload_bytes i) eqn:Ef; [|by left]. right.
      assert (Hcov : i ∈ concat (map chunk_indices chunks)) by (rewrite cover; by apply fits_elem).
      apply elem_of_concat_map in Hcov as (c & Hc & Hic). destruct (answer_of c Hc) as (resp & Hrun & (_ & Hset & _) & Hl & _).
      pose proof (proj1 (chunk_indices_elem c i) Hic) as Hr.
      destruct (lookup_lt_is_Some_2 (br_items resp) (i - bc_start_row c)%nat ltac:(lia)) as [w Hw]. destruct (Hset _ _ Hw) as [Hans Hrec].
      destruct (is_unrecoverable w) eqn:Eu; [by exists c, resp, w|]. destruct Hns. by exists c, resp, w.
Qed.

End Account.

(** How a lease with these rejected slices is closed. *)
Definition lease_closed (replies : LeaseReplies) (slices : list RB) (calls : list (LeaseCall RB)) : Prop :=
  match slices, lr_quarantine replies with
  | [], _ => calls = [CallAck]
  | _, Ok _ => exists reason, calls = [CallQuarantine reason slices; CallAck]
  | _, Err e => exists reason, calls = [CallQuarantine reason slices; CallNack (Fatal (pipeline_to_string e))]
  end.

Lemma quarantine_and_ack_closed replies reason r : lease_closed replies r.1 (quarantine_and_ack replies reason r).1.
Proof. unfold lease_closed, quarantine_and_ack. destruct r.1; [done|]. destruct (lr_quarantine replies); by eexists. Qed.

(** Why a lease is returned: it could not be prepared, a task panicked, or a
    chunk failed; the class is that of the most severe error. *)
Definition lease_returned (prepared : result (RB * list BulkChunk * list (nat * N)) PipelineError) (class : FailureClass) : Prop :=
  match prepared with
  | Err e => class = Fatal (pipeline_to_string e)
  | Ok (_, chunks, _) =>
      (exists c msg reason, c ∈ chunks /\ run_chunk c = TaskPanicked msg /\ class = Fatal reason) \/
      (exists c i n e, c ∈ chunks /\ run_chunk c = TaskDone i n (Err e) /\ class = classify_elasticsearch_error e /\
        forall c' i' n' e', c' ∈ chunks -> run_chunk c' = TaskDone i' n' (Err e') -> severity e' <= severity e)
  end.

(** What a lease came to: one return of the whole lease, without any quarantine,
    or its end with every row stored or quarantined. *)
Definition lease_accounted (replies : LeaseReplies) (prepared : result (RB * list BulkChunk * list (nat * N)) PipelineError)
  (calls : list (LeaseCall RB)) : Prop :=
  (exists class, calls = [CallNack class] /\ lease_returned prepared class) \/
  exists sorted_batch chunks oversized_rows docs rows,
    prepared = Ok (sorted_batch, chunks, oversized_rows) /\
    Forall2 (fun r d => write_row r unpack_attributes = Ok (render_doc d)) (rb_rows sorted_batch) docs /\
    NoDup rows /\ (forall i, i ∈ rows <-> (i < length (rb_rows sorted_batch))%nat /\ ~ stored docs chunks i) /\
    lease_closed replies (map (row_slice sorted_batch) rows) calls.

Section Settle.
Variables (sorted_batch : RB) (docs : list doc) (bufs : list bytes) (chunks : list BulkChunk).
Hypothesis rows_max : num_rows sorted_batch <= usize_max.
Hypothesis docs_fine : Forall doc_ok docs.
Hypothesis bufs_docs : bufs = map render_doc docs.
Hypothesis rows_written : Forall2 (fun r b => write_row r unpack_attributes = Ok b) (rb_rows sorted_batch) bufs.
Hypothesis chunks_fine : Forall (chunk_ok docs) chunks.
Hypothesis cover : concat (map chunk_indices chunks) = List.filter (fits_alone bufs max_payload_bytes) (seq 0 (length bufs)).

Lemma outcomes_accounted replies resps outcomes reason :
  Forall2 (fun c resp => run_chunk c = TaskDone (bc_start_row c) (bc_row_count c) (Ok resp)) chunks resps ->
  outcomes ≡ₚ zip_with (fun c resp => (bc_start_row c, bc_row_count c, resp)) chunks resps ->
  let oversized := oversized_of bufs max_payload_bytes (length bufs) in
  lease_accounted replies (Ok (sorted_batch, chunks, oversized))
    (quarantine_and_ack replies reason (push_outcomes sorted_batch outcomes (push_oversized sorted_batch oversized ([], None)))).1.
Proof.
  intros Hans Hperm. cbv zeta. right. pose proof (Forall2_length _ _ _ rows_written) as Hlen.
  destruct (quarantined_exactly docs bufs chunks resps outcomes docs_fine chunks_fine cover Hans Hperm) as [Hnd Hiff].
  exists sorted_batch, chunks, (oversized_of bufs max_payload_bytes (length bufs)), docs, (quarantined bufs outcomes).
  split; [done|]. split; [by subst bufs; apply Forall2_fmap_r in rows_written|]. split; [done|]. rewrite Hlen. split; [done|].
  assert (Hin : Forall (outcome_in sorted_batch) outcomes).
  { apply Forall_forall. intros o Ho. destruct (outcome_chunk chunks resps outcomes Hans Hperm o Ho) as (c & Hc & Hrun & Eo).
    destruct (answer_of docs chunks resps outcomes docs_fine chunks_fine Hans Hperm c Hc) as (resp & Hrun' & _ & Hl & _).
    rewrite Hrun in Hrun'. injection Hrun' as E. rewrite Eo. split; cbn; [|by rewrite E]. rewrite Hlen, bufs_docs, length_map.
    rewrite Forall_forall in chunks_fine. destruct (chunks_fine c Hc) as (Hpos & _ & _ & Hdl).
    unfold chunk_docs, slice in Hdl. rewrite length_take, length_drop in Hdl. lia. }
  assert (Hslices : (push_outcomes sorted_batch outcomes (push_oversized sorted_batch (oversized_of bufs max_payload_bytes (length bufs)) ([], None))).1
    = map (row_slice sorted_batch) (quarantined bufs outcomes)).
  { rewrite push_outcomes_slices, push_oversized_slices
      by (done || (apply Forall_forall; intros [i n] Hi; apply oversized_elem in Hi as [Hi _]; cbn; lia)).
    unfold quarantined. by rewrite map_app. }
  rewrite <- Hslices. apply quarantine_and_ack_closed.
Qed.

Lemma tasks_of_chunks order t : order ≡ₚ map run_chunk (List.filter live chunks) -> t ∈ order <-> exists c, c ∈ chunks /\ run_chunk c = t.
Proof.
  intros Hp. rewrite Hp, (all_live docs chunks chunks_fine), list_elem_of_In, List.in_map_iff. setoid_rewrite list_elem_of_In. split; intros (c & ? & ?); by exists c.
Qed.

Definition panicked (t : ChunkTask) : bool := match t with TaskPanicked _ => true | _ => false end.

Lemma failed_tasks schedule picks : let j := send_chunks schedule picks chunks in
  (jd_join_err j <> None -> exists c msg, c ∈ chunks /\ run_chunk c = TaskPanicked msg) /\
  (forall e, jd_es_err j = Some e -> exists c i n, c ∈ chunks /\ run_chunk c = TaskDone i n (Err e) /\
    forall c' i' n' e', c' ∈ chunks -> run_chunk c' = TaskDone i' n' (Err e') -> severity e' <= severity e).
Proof.
  cbv zeta. destruct (send_chunks_spec schedule picks chunks) as (order & Hp & ->). destruct (record_all_spec order) as (_ & Hj & He). split.
  - intros Hne. destruct (existsb panicked order) eqn:Ex.
    + apply List.existsb_exists in Ex as ([|msg] & Hin & Hpan); [done|]. apply list_elem_of_In in Hin.
      apply (tasks_of_chunks order _ Hp) in Hin as (c & Hc & Hr). by exists c, msg.
    + destruct Hne. apply Hj. intros msg Hin. apply not_true_iff_false in Ex. apply Ex, List.existsb_exists.
      exists (TaskPanicked msg). by rewrite <- list_elem_of_In.
  - intros e E. rewrite E in He. destruct He as [Hin Hmax].
    assert (Herr : forall e', e' ∈ omap task_error order <-> exists c i n, c ∈ chunks /\ run_chunk c = TaskDone i n (Err e')).
    { intros e'. rewrite list_elem_of_omap. split.
      - intros (t & Ht & Hte). apply (tasks_of_chunks order _ Hp) in Ht as (c & Hc & <-).
        destruct (run_chunk c) as [i n [|]|] eqn:Er; cbn in Hte; try done. injection Hte as ->. by exists c, i, n.
      - intros (c & i & n & Hc & Hr). exists (TaskDone i n (Err e')). split; [|done]. apply (tasks_of_chunks order _ Hp). by exists c. }
    destruct (proj1 (Herr e) Hin) as (c & i & n & Hc & Hr). exists c, i, n. split_and!; [done | done|].
    intros c' i' n' e' Hc' Hr'. rewrite Forall_forall in Hmax. apply Hmax, Herr. by exists c', i', n'.
Qed.

Lemma no_recoverable_left resps outcomes :
  Forall2 (fun c resp => run_chunk c = TaskDone (bc_start_row c) (bc_row_count c) (Ok resp)) chunks resps ->
  outcomes ≡ₚ zip_with (fun c resp => (bc_start_row c, bc_row_count c, resp)) chunks resps ->
  existsb (fun o : outcome_t => (0 <? recoverable_count o.2)%nat) outcomes = false.
Proof.
  intros Hans Hperm. apply not_true_is_false. intros Hx. apply List.existsb_exists in Hx as (o & Ho & Hrec). apply list_elem_of_In in Ho.
  destruct (outcome_chunk chunks resps outcomes Hans Hperm o Ho) as (c & Hc & Hrun & _).
  destruct (answer_of docs chunks resps outcomes docs_fine chunks_fine Hans Hperm c Hc) as (resp & Hrun' & (_ & Hset & _) & _).
  rewrite Hrun in Hrun'. injection Hrun' as E. rewrite E in Hrec. unfold recoverable_count in Hrec.
  destruct (List.filter is_recoverable (br_items resp)) as [|w ws] eqn:Ef; [done|].
  assert (Hw : In w (List.filter is_recoverable (br_items resp))) by (rewrite Ef; by left).
  apply List.filter_In in Hw as [Hw Hr]. apply list_elem_of_In, list_elem_of_lookup in Hw as [k Hk]. destruct (Hset k w Hk). congruence.
Qed.

Lemma settle_lease_accounted replies schedule picks :
  let oversized := oversized_of bufs max_payload_bytes (length bufs) in
  lease_accounted replies (Ok (sorted_batch, chunks, oversized)) (settle_lease replies sorted_batch oversized (send_chunks schedule picks chunks)).1.
Proof.
  cbv zeta. unfold settle_lease. pose proof (outcomes_of_chunks docs schedule picks chunks docs_fine chunks_fine) as Hout. cbv zeta in Hout.
  destruct (failed_tasks schedule picks) as [Hpan Herr]. set (j := send_chunks _ _ _) in *. clearbody j.
  destruct (jd_join_err j) as [e|].
  { left. eexists. split; [done|]. left. destruct (Hpan ltac:(done)) as (c & msg & Hc & Hr). by eexists c, msg, _. }
  destruct (jd_es_err j) as [e|].
  { left. eexists. split; [done|]. right. destruct (Herr e eq_refl) as (c & i & n & Hc & Hr & Hmax). by exists c, i, n, e. }
  destruct (Hout eq_refl eq_refl) as (resps & Hans & Hp). cbv zeta.
  assert (Hperm : merge_sort start_le (jd_outcomes j) ≡ₚ zip_with (fun c resp => (bc_start_row c, bc_row_count c, resp)) chunks resps) by by rewrite merge_sort_Permutation.
  rewrite (no_recoverable_left resps) by done. by apply (outcomes_accounted replies resps).
Qed.

End Settle.

(** C12 (lease_accounted_for). Every lease comes to an end in exactly one way: it is
    returned whole, with nothing quarantined and as its most severe failure says,
    or every row of its sorted batch is
    accounted for: the rows the cluster did not store (over the size limit, or
    refused by an item's status) are quarantined, each once and no other row
    is, before the lease is acknowledged; a quarantine that fails returns the
    lease instead.  No order in which the chunks' tasks end changes this. *)
Theorem lease_accounted_for c dir replies schedule picks lease :
  l_num_rows lease <> 0 ->
  (forall sorted_batch chunks oversized, prepare concat_batches c dir lease (prepare_chunks (l_signal lease)) = Ok (sorted_batch, chunks, oversized) ->
    Forall names_ok (rb_rows sorted_batch) /\ num_rows sorted_batch <= usize_max) ->
  lease_accounted replies (prepare concat_batches c dir lease (prepare_chunks (l_signal lease)))
    (process_lease c dir replies schedule picks lease).1.
Proof.
  intros Hn Hbatch. unfold process_lease. rewrite (proj2 (N.eqb_neq _ _) Hn).
  destruct (prepare _ _ _ _ _) as [[[sorted_batch chunks] oversized]|e] eqn:Ep; [|left; by eexists].
  destruct (Hbatch _ _ _ eq_refl) as [Hnames Hmax]. clear Hbatch. destruct (prepare_inv _ _ _ _ _ _ Ep) as (b & _ & Hb). clear Ep.
  assert (Hser : serialize_batch_chunks_internal (rb_rows sorted_batch) unpack_attributes max_payload_bytes = Ok (chunks, oversized)).
  { unfold prepare_chunks in Hb. destruct (N.eqb_spec (num_rows b) 0) as [E0|_].
    - injection Hb as <- <- <-. unfold num_rows in E0. destruct (rb_rows b) as [|? ?]; [done|]. cbn in E0. lia.
    - destruct (Signal.sort _ _ _ _ _ _ _ _) as [sb|]; [|done]. destruct (serialize_batch_chunks_internal (rb_rows sb) _ _) as [[ch ov]|] eqn:Es; [|done].
      cbn in Hb. injection Hb as <- <- <-. done. }
  destruct (serialized_rows _ _ _ _ Hser) as [bufs Hrows].
  destruct (chunks_cover_docs (rb_rows sorted_batch) bufs unpack_attributes max_payload_bytes limit Hnames Hrows) as (docs & chunks' & Hdocs & Hbufs & Hser' & Hcov & Hok).
  rewrite Hser in Hser'. injection Hser' as <- ->.
  case_bool_decide as Hnil; [|by eapply settle_lease_accounted].
  subst chunks. by apply (outcomes_accounted sorted_batch docs bufs [] Hmax Hdocs Hbufs Hrows Hok Hcov replies [] []).
Qed.

End Sink.

Module ElasticsearchSinkDemo.
Import SerializerDemo.

#[export] Instance arrow : Arrow (list Row) unit Row := {|
  rb_rows b := b; rb_schema _ := tt; rb_memory_size b := N.min (N.of_nat (length b)) usize_max;
  rb_slice b off len := take (N.to_nat len) (drop (N.to_nat off) b);
  ipc_encode _ := None; ipc_decode _ := IpcError; ipc_file_encode _ := None; schema_eq_dec := _ |}.

Definition lease : Lease (list Row) unit :=
  mkLease (mkLeaseId 1 Logs 1 1) [rows] [InMemory rows] [] 4 0 0 0 0.

(** The first chunk's first document is refused, everything else is stored. *)
Definition post (i n : nat) (_ : bytes) (payload : bytes) : HttpReply :=
  let k := BulkDemo.count_docs payload in
  match i, k with
  | O, S k => Reply 200 "OK" "" (Ok (mkBulkResponse 5 true (BulkDemo.refused :: replicate k BulkDemo.stored)))
  | _, _ => Reply 200 "OK" "" (Ok (mkBulkResponse 5 false (replicate k BulkDemo.stored)))
  end.

Lemma chunk_post_cluster i n endpoint ds s ph tx resp :
  Forall doc_ok ds -> post i n endpoint (render ds) = Reply s ph tx (Ok resp) -> is_success s = true ->
  length (br_items resp) = length ds /\
  (br_errors resp = false -> Forall (fun w => is_recoverable w = false /\ is_unrecoverable w = false) (br_items resp)).
Proof.
  intros Hd Hp _. unfold post in Hp. rewrite (BulkDemo.count_docs_render ds Hd) in Hp.
  assert (Hall : forall k, Forall (fun w => is_recoverable w = false /\ is_unrecoverable w = false) (replicate k BulkDemo.stored))
    by (intros k; by apply Forall_replicate).
  destruct i, (length ds) as [|k]; injection Hp as <- <- <- <-; (split; [cbn; by rewrite ?length_replicate | intros ?; try done; cbn; repeat constructor; apply Hall]).
Qed.

Definition sorter : BatchSorter := mkBatchSorter Skip [] [] [].

Abbreviation prep := (prepare (fun _ _ => None) BufferConfig.default_config ∅ lease (prepare_chunks (Col := unit) (fun _ _ => None) (fun _ => []) (fun _ => None) (fun _ _ => None) (fun _ _ => None) sorter true 120 (l_signal lease))).

Abbreviation run replies := (process_lease (Col := unit) (fun _ _ => None) (fun _ => []) (fun _ => None) (fun _ _ => None) (fun _ _ => None) (fun _ _ => None)
  sorter true 120 3 post (fun _ n => N.of_nat n) (fun _ => BulkDemo.endpoints) (fun _ => None) BufferConfig.default_config ∅ replies [[]; [0%nat]] [] lease).

#[local] Existing Instance Toy.crc.

Definition replies : LeaseReplies := mkLeaseReplies (Ok tt) (Ok tt) (Ok tt).

(** The first row is refused, the third one too large; the others are stored. *)
Lemma lease_accounted_for_witness :
  (exists reason, (run replies).1 = [CallQuarantine reason [[default [] (rows !! 2%nat)]; [default [] (rows !! 0%nat)]]; CallAck]) /\
  lease_accounted (Sch := unit) true 3 post (fun _ n => N.of_nat n) (fun _ => BulkDemo.endpoints) (fun _ => None) replies prep (run replies).1.
Proof.
  split; [eexists; vm_compute; reflexivity|].
  apply (lease_accounted_for _ _ _ _ _ _ sorter true 120 3 post _ _ _ chunk_post_cluster eq_refl); [done|].
  intros sorted_batch chunks oversized Hp. vm_compute in Hp. injection Hp as <- _ _. split; [|done].
  apply (bool_decide_unpack _). vm_compute. reflexivity.
Defined.

End ElasticsearchSinkDemo.
