(* ===== verification/Kafka.v ===== *)
(** The Kafka sink: crates/kafka-sink/src/lib.rs.

    The producer (librdkafka) is a parameter: what each call is answered.  Its
    errors are opaque values, of which the code reads the shape, the code and
    the text. *)

From S2P Require Import Prelude Pipeline Arrow Signal Frame Ring SinkBuffer Text.
Local Open Scope N_scope.

(** The error codes the sink names, and any other. *)
Inductive RDKafkaErrorCode : Type :=
| KcAuthentication | KcSaslAuthenticationFailed | KcTopicAuthorizationFailed | KcGroupAuthorizationFailed
| KcClusterAuthorizationFailed | KcTransactionalIdAuthorizationFailed | KcDelegationTokenAuthorizationFailed
| KcDelegationTokenAuthDisabled | KcDelegationTokenExpired | KcUnsupportedSASLMechanism | KcIllegalSASLState
| KcSecurityDisabled | KcSSL | KcFatal | KcFenced | KcProducerFenced | KcTransactionCoordinatorFenced
| KcInvalidConfig | KcInvalidArgument | KcNotConfigured
| KcMessageSizeTooLarge | KcMessageBatchTooLarge | KcInvalidMessage | KcInvalidMessageSize | KcInvalidRecord
| KcInvalidDifferentRecord | KcBadMessage | KcBadCompression | KcUnsupportedCompressionType
| KcUnsupportedForMessageFormat | KcInvalidTimestamp | KcKeySerialization | KcValueSerialization
| KcPolicyViolation | KcInvalidTopic | KcUnknownTopic | KcUnknownPartition
| KcQueueFull | KcOther (n : Z).

#[export] Instance RDKafkaErrorCode_eq_dec : EqDecision RDKafkaErrorCode.
Proof. solve_decision. Defined.

(** The forms of [KafkaError] the sink matches on. *)
Inductive KafkaShape : Type :=
| ShClientConfig | ShClientCreation | ShMessageConsumptionFatal | ShTransaction (is_fatal : bool) | ShNul
| ShMessageProduction (code : RDKafkaErrorCode) | ShOther.

Class KafkaErrors (KafkaError : Type) := {
  ke_shape : KafkaError -> KafkaShape;
  rdkafka_error_code : KafkaError -> option RDKafkaErrorCode;
  ke_to_string : KafkaError -> string;
}.

Inductive SerializationFormat : Type := Ipc | Json.

Definition lower_ascii (c : Ascii.ascii) : Ascii.ascii :=
  let n := Ascii.N_of_ascii c in if (65 <=? n) && (n <=? 90) then Ascii.ascii_of_N (n + 32) else c.

(** [SerializationFormat::from_str]; only ASCII letters have these lower cases. *)
Definition format_from_str (s : string) : result SerializationFormat PipelineError :=
  let lower := String.string_of_list_ascii (map lower_ascii (String.list_ascii_of_string s)) in
  if bool_decide (lower = "ipc"%string) then Ok Ipc
  else if bool_decide (lower = "json"%string) then Ok Json
  else Err (Internal ("Unknown serialization format: " +:+ s)).

Definition DEFAULT_FLUSH_TIMEOUT_MS : N := 10000.

(** [KafkaSink::try_new], the flush timeout of the client's options. *)
Definition flush_timeout_of (options : gmap string string) : N :=
  let o := match options !! "delivery.timeout.ms"%string with Some v => Some v | None => options !! "message.timeout.ms"%string end in
  match o ≫= (fun v => parse_unsigned u64_max (text v)) with
  | Some ms => if 0 <? ms then ms else DEFAULT_FLUSH_TIMEOUT_MS
  | None => DEFAULT_FLUSH_TIMEOUT_MS
  end.

Record KafkaSinkConfig := mkKafkaSinkConfig {
  kc_brokers : string; kc_logs_topic : string; kc_traces_topic : string; kc_metrics_topic : string;
  kc_logs_format : string; kc_traces_format : string; kc_metrics_format : string;
  kc_logs_partition_key : option string; kc_metrics_partition_key : option string; kc_traces_partition_key : option string;
  kc_order_by : option SortConfig;
  kc_flush_timeout_ms : option N;
  kc_buffer : option BufferConfig.BufferConfig;
  kc_batching : option BufferConfig.LegacyBatchingConfig;
  kc_options : gmap string string;
}.

Definition kafka_resolved_buffer_config (c : KafkaSinkConfig) : result BufferConfig.BufferConfig PipelineError :=
  BufferConfig.resolve (kc_buffer c) (kc_batching c) true.

Definition kafka_validate (c : KafkaSinkConfig) : result unit PipelineError :=
  if bool_decide (kc_flush_timeout_ms c = Some 0) then Err (Internal "kafka.flush_timeout_ms must be greater than 0")
  else
    let? _ := match kc_order_by c with Some sort_cfg => let? _ := from_config sort_cfg in Ok tt | None => Ok tt end in
    let? _ := kafka_resolved_buffer_config c in
    Ok tt.

(** *** The sink *)

Record KafkaSink (Producer : Type) := mkKafkaSink {
  ks_producer : Producer; ks_topic : string; ks_format : SerializationFormat; ks_sorter : BatchSorter; ks_partition_key : option string; ks_flush_timeout : N }.
Arguments mkKafkaSink {Producer} _ _ _ _ _ _.
Arguments ks_producer {Producer} _.
Arguments ks_topic {Producer} _.
Arguments ks_format {Producer} _.
Arguments ks_sorter {Producer} _.
Arguments ks_partition_key {Producer} _.
Arguments ks_flush_timeout {Producer} _.


(** The settings of the client: an option takes the place of the brokers, too. *)
Definition client_config (brokers : string) (options : gmap string string) : gmap string string :=
  options ∪ {["bootstrap.servers"%string := brokers]}.

Section Construct.
(** [ClientConfig::create]. *)
Context {Producer : Type} (create : gmap string string -> result Producer string).

Definition kafka_try_new (brokers topic : string) (format : SerializationFormat) (options : gmap string string) : result (KafkaSink Producer) PipelineError :=
  let? producer := map_err (fun e => Internal ("Failed to create Kafka producer: " +:+ e)) (create (client_config brokers options)) in
  Ok (mkKafkaSink producer topic format default_sorter None (flush_timeout_of options)).

Definition with_sorting (k : KafkaSink Producer) (sorter : BatchSorter) (partition_key : option string) : KafkaSink Producer :=
  mkKafkaSink (ks_producer k) (ks_topic k) (ks_format k) sorter partition_key (ks_flush_timeout k).

Definition with_flush_timeout (k : KafkaSink Producer) (timeout : N) : KafkaSink Producer :=
  mkKafkaSink (ks_producer k) (ks_topic k) (ks_format k) (ks_sorter k) (ks_partition_key k) timeout.
End Construct.

Section Kafka.
Context {RB Sch Col KafkaError : Type} `{Arrow RB Sch Row} `{Crc} `{KafkaErrors KafkaError}.

Definition code_is_fatal (c : RDKafkaErrorCode) : bool :=
  match c with
  | KcAuthentication | KcSaslAuthenticationFailed | KcTopicAuthorizationFailed | KcGroupAuthorizationFailed
  | KcClusterAuthorizationFailed | KcTransactionalIdAuthorizationFailed | KcDelegationTokenAuthorizationFailed
  | KcDelegationTokenAuthDisabled | KcDelegationTokenExpired | KcUnsupportedSASLMechanism | KcIllegalSASLState
  | KcSecurityDisabled | KcSSL | KcFatal | KcFenced | KcProducerFenced | KcTransactionCoordinatorFenced
  | KcInvalidConfig | KcInvalidArgument | KcNotConfigured => true
  | _ => false
  end.

Definition code_is_rejected (c : RDKafkaErrorCode) : bool :=
  match c with
  | KcMessageSizeTooLarge | KcMessageBatchTooLarge | KcInvalidMessage | KcInvalidMessageSize | KcInvalidRecord
  | KcInvalidDifferentRecord | KcBadMessage | KcBadCompression | KcUnsupportedCompressionType
  | KcUnsupportedForMessageFormat | KcInvalidTimestamp | KcKeySerialization | KcValueSerialization
  | KcPolicyViolation | KcInvalidTopic | KcUnknownTopic | KcUnknownPartition => true
  | _ => false
  end.

Definition classify_kafka_error (err : KafkaError) : FailureClass :=
  let by_code :=
    match rdkafka_error_code err with
    | Some c => if code_is_fatal c then Fatal (ke_to_string err) else if code_is_rejected c then Rejected (ke_to_string err) else Transient
    | None => Transient
    end in
  match ke_shape err with
  | ShClientConfig | ShClientCreation | ShMessageConsumptionFatal => Fatal (ke_to_string err)
  | ShTransaction true => Fatal (ke_to_string err)
  | ShNul => Rejected (ke_to_string err)
  | ShTransaction false | ShMessageProduction _ | ShOther => by_code
  end.

Definition failure_severity (class : FailureClass) : N :=
  match class with Transient => 1 | Rejected _ => 2 | Fatal _ => 3 end.

Definition merge_failure_class (current : option FailureClass) (next : FailureClass) : FailureClass :=
  match current with
  | Some existing => if failure_severity next <=? failure_severity existing then existing else next
  | None => next
  end.

(** ** Slices *)

Record PreparedSlice := mkPreparedSlice { ps_partition_key : option string; ps_payload : bytes }.

Variable column_by_name : RB -> string -> option Col.
Variable columns : RB -> list Col.
Variable lexsort_to_indices : list (Col * SortOptions) -> option (list nat).
Variable take_column : Col -> list nat -> option Col.
Variable try_new : Sch -> list Col -> option RB.
Variable concat_batches : Sch -> list RB -> option RB.
(** The values of a column that is a [StringArray]. *)
Variable as_utf8 : Col -> option (list (option string)).
(** [LineDelimitedWriter]. *)
Variable json_encode : RB -> option bytes.

Definition serialize_record_batch (batch : RB) (format : SerializationFormat) : result bytes PipelineError :=
  match format with
  | Ipc => ok_or (ipc_encode batch) (Internal "ipc")
  | Json => ok_or (json_encode batch) (Internal "json")
  end.

(** The loop over the rows from [i] on: [start] and [current_val] are those of
    the open run. *)
Fixpoint slice_loop (batch : RB) (keys : list (option string)) (i start : nat) (current_val : option string) : list (option string * RB) :=
  match keys with
  | [] => [(current_val, rb_slice batch (N.of_nat start) (N.of_nat (i - start)))]
  | val :: keys =>
      if bool_decide (val = current_val) then slice_loop batch keys (S i) start current_val
      else (current_val, rb_slice batch (N.of_nat start) (N.of_nat (i - start))) :: slice_loop batch keys (S i) i val
  end.

Definition extract_partition_slices (batch : RB) (key_column : string) : result (list (option string * RB)) PipelineError :=
  let? col := ok_or (column_by_name batch key_column) (Internal "Missing partition key column") in
  let? keys := ok_or (as_utf8 col) (Internal "Partition key column must be Utf8") in
  if num_rows batch =? 0 then Ok []
  else
    match keys with
    | [] => Ok []
    | key :: keys => Ok (slice_loop batch keys 1 0 key)
    end.

Fixpoint serialize_slices (raw_slices : list (option string * RB)) (format : SerializationFormat) : result (list PreparedSlice) PipelineError :=
  match raw_slices with
  | [] => Ok []
  | (key_opt, sub_batch) :: raw_slices =>
      let? payload := serialize_record_batch sub_batch format in
      let? rest := serialize_slices raw_slices format in
      Ok (mkPreparedSlice key_opt payload :: rest)
  end.

Definition prepare_kafka_slices (batch : RB) (signal : SignalType) (sorter : BatchSorter) (partition_key : option string) (format : SerializationFormat)
  : result (list PreparedSlice) PipelineError :=
  if num_rows batch =? 0 then Ok []
  else
    let? sorted_batch := sort_with_extra_lead_column column_by_name columns lexsort_to_indices take_column try_new sorter batch signal partition_key in
    let? raw_slices :=
      match partition_key with
      | Some key_col => extract_partition_slices sorted_batch key_col
      | None => Ok [(None, sorted_batch)]
      end in
    serialize_slices raw_slices format.

(** ** Sending *)

Inductive Delivery : Type := Delivered | DeliveryFailed (e : KafkaError) | DeliveryCanceled (msg : string).

Inductive Enqueued : Type := Queued (delivery : Delivery) | Refused (e : KafkaError).

(** What [send_result] and the awaited [send] return for the [n]-th slice. *)
Record Producer := mkProducer { send_result : nat -> PreparedSlice -> Enqueued; send : nat -> PreparedSlice -> option KafkaError }.

Definition is_queue_full (e : KafkaError) : bool :=
  match ke_shape e with ShMessageProduction KcQueueFull => true | _ => false end.

Definition merge_error (failure : option FailureClass) (e : KafkaError) : option FailureClass :=
  Some (merge_failure_class failure (classify_kafka_error e)).

(** The submission of the slices in order: the deliveries to await and the
    failure so far; [n] counts the slices before. *)
Fixpoint enqueue_slices (producer : Producer) (n : nat) (slices : list PreparedSlice) (delivery_futs : list Delivery) (failure : option FailureClass)
  : list Delivery * option FailureClass :=
  match slices with
  | [] => (delivery_futs, failure)
  | slice :: slices =>
      match send_result producer n slice with
      | Queued d => enqueue_slices producer (S n) slices (delivery_futs ++ [d]) failure
      | Refused e =>
          if is_queue_full e
          then
            match send producer n slice with
            | None => enqueue_slices producer (S n) slices delivery_futs failure
            | Some e => enqueue_slices producer (S n) slices delivery_futs (merge_error failure e)
            end
          else enqueue_slices producer (S n) slices delivery_futs (merge_error failure e)
      end
  end.

Fixpoint await_deliveries (delivery_futs : list Delivery) (failure : option FailureClass) : result (option FailureClass) PipelineError :=
  match delivery_futs with
  | [] => Ok failure
  | Delivered :: futs => await_deliveries futs failure
  | DeliveryFailed e :: futs => await_deliveries futs (merge_error failure e)
  | DeliveryCanceled msg :: _ => Err (Internal ("Kafka delivery future cancelled: " +:+ msg))
  end.

Definition send_prepared_slices (producer : Producer) (slices : list PreparedSlice) : result (option FailureClass) PipelineError :=
  match slices with
  | [slice] =>
      match send producer 0 slice with
      | Some e => Ok (Some (classify_kafka_error e))
      | None => Ok None
      end
  | _ => let '(delivery_futs, failure) := enqueue_slices producer 0 slices [] None in await_deliveries delivery_futs failure
  end.

(** ** The loop over leases *)

Variables (sorter : BatchSorter) (partition_key : option string) (format : SerializationFormat) (config : BufferConfig.BufferConfig).

(** A lease with what its handling meets: the segment files, a panic of the
    preparation, the producer, and what the calls on the lease return. *)
Record KafkaTurn := mkKafkaTurn {
  kt_lease : Lease RB Sch; kt_dir : gmap N bytes; kt_panic : option string; kt_producer : Producer;
  kt_ack : result unit PipelineError; kt_nack : result unit PipelineError }.

(** What becomes of the lease. *)
Inductive LeaseEnd : Type := LeaseAcked | LeaseNacked (class : FailureClass) | LeaseDropped.

Definition prepare_slices (t : KafkaTurn) : result (list PreparedSlice) PipelineError :=
  match kt_panic t with
  | Some e => Err (prepare_join_error e)
  | None =>
      prepare concat_batches config (kt_dir t) (kt_lease t)
        (fun batch => prepare_kafka_slices batch (l_signal (kt_lease t)) sorter partition_key format)
  end.

Definition handle_lease (t : KafkaTurn) : LeaseEnd * result unit PipelineError :=
  if l_num_rows (kt_lease t) =? 0 then (LeaseAcked, kt_ack t)
  else
    match prepare_slices t with
    | Ok [] => (LeaseAcked, kt_ack t)
    | Err (Storage e) => (LeaseDropped, Err (Storage e))
    | Err err =>
        if is_prepare_join_error err then (LeaseDropped, Err err)
        else (LeaseNacked (Rejected (pipeline_to_string err)), kt_nack t)
    | Ok slices =>
        match send_prepared_slices (kt_producer t) slices with
        | Err e => (LeaseDropped, Err e)
        | Ok (Some class) => (LeaseNacked class, kt_nack t)
        | Ok None => (LeaseAcked, kt_ack t)
        end
    end.

(** The leases in order; [closed] is what [next_lease] says after them and
    [flushed] what the final flush of the producer does. *)
Fixpoint kafka_run (turns : list KafkaTurn) (closed flushed : result unit PipelineError) : list LeaseEnd * result unit PipelineError :=
  match turns with
  | [] => ([], match closed with Err e => Err e | Ok _ => flushed end)
  | t :: turns =>
      match handle_lease t with
      | (e, Err err) => ([e], Err err)
      | (e, Ok _) => let '(es, r) := kafka_run turns closed flushed in (e :: es, r)
      end
  end.

(** ** The slices are the runs of equal keys *)

Context `{!ArrowLaws RB Sch Row}.

Definition slice_keys (slices : list (option string * RB)) : list (option string) :=
  concat (map (fun s => replicate (length (rb_rows s.2)) s.1) slices).

Definition slice_rows (slices : list (option string * RB)) : list Row := concat (map (fun s => rb_rows s.2) slices).

Definition next_key (slices : list (option string * RB)) : option (option string) := option_map fst (head slices).

(** Neighbours have different keys. *)
Fixpoint keys_change (slices : list (option string * RB)) : Prop :=
  match slices with
  | [] => True
  | s :: slices => next_key slices <> Some s.1 /\ keys_change slices
  end.

Lemma rows_of_slice (b : RB) start len : (start + len <= length (rb_rows b))%nat ->
  rb_rows (rb_slice b (N.of_nat start) (N.of_nat len)) = take len (drop start (rb_rows b)).
Proof. intros Hl. rewrite rb_rows_slice by (unfold num_rows; lia). by rewrite !Nat2N.id. Qed.

Lemma slice_loop_spec batch keys : forall i start current_val, (start < i)%nat -> (i + length keys = length (rb_rows batch))%nat ->
  let slices := slice_loop batch keys i start current_val in
  slice_rows slices = drop start (rb_rows batch) /\ slice_keys slices = replicate (i - start) current_val ++ keys /\
  Forall (fun s => rb_rows s.2 <> []) slices /\ keys_change slices /\ next_key slices = Some current_val.
Proof.
  induction keys as [|val keys IH]; intros i start cur Hi Hl; cbn [slice_loop length] in *; cbv zeta.
  - pose proof (rows_of_slice batch start (i - start) ltac:(lia)) as Hr.
    assert (Hlen : length (rb_rows (rb_slice batch (N.of_nat start) (N.of_nat (i - start)))) = (i - start)%nat) by (rewrite Hr, length_take, length_drop; lia).
    unfold slice_rows, slice_keys. cbn [map concat fst snd]. rewrite !app_nil_r, Hlen. split_and!; try done.
    + rewrite Hr. apply take_ge. rewrite length_drop. lia.
    + constructor; [|constructor]. cbn. intros E. rewrite E in Hlen. cbn in Hlen. lia.
  - case_bool_decide as Hv.
    + subst val. destruct (IH (S i) start cur ltac:(lia) ltac:(lia)) as (Hr & Hk & Hrest). split; [done|]. split; [|done].
      rewrite Hk. replace (S i - start)%nat with (i - start + 1)%nat by lia. rewrite replicate_add. by rewrite <- app_assoc.
    + destruct (IH (S i) i val ltac:(lia) ltac:(lia)) as (Hr & Hk & Hne & Hc & Hn).
      pose proof (rows_of_slice batch start (i - start) ltac:(lia)) as Hs.
      assert (Hlen : length (rb_rows (rb_slice batch (N.of_nat start) (N.of_nat (i - start)))) = (i - start)%nat) by (rewrite Hs, length_take, length_drop; lia).
      unfold slice_rows, slice_keys in *. cbn [map concat fst snd]. rewrite Hlen, Hk, Hr. split_and!.
      * rewrite Hs. rewrite <- (take_drop (i - start) (drop start (rb_rows batch))) at 2. rewrite drop_drop. do 2 f_equal. lia.
      * replace (S i - i)%nat with 1%nat by lia. done.
      * constructor; [|done]. cbn. intros E. rewrite E in Hlen. cbn in Hlen. lia.
      * cbn [keys_change fst]. split; [rewrite Hn; congruence | done].
      * done.
Qed.

(** Cutting a batch by its partition key gives, in order,
    the runs of rows with the same key: the slices are not empty, together they
    are the batch's rows, every row is under its own key (rows without a key
    under none), and a slice ends only where the key changes. *)
Theorem partition_slices batch key_column col keys :
  column_by_name batch key_column = Some col -> as_utf8 col = Some keys -> length keys = length (rb_rows batch) ->
  exists slices, extract_partition_slices batch key_column = Ok slices /\
    slice_rows slices = rb_rows batch /\ slice_keys slices = keys /\ Forall (fun s => rb_rows s.2 <> []) slices /\ keys_change slices.
Proof.
  intros Hc Hk Hl. unfold extract_partition_slices. rewrite Hc. cbn [ok_or]. rewrite Hk. cbn [ok_or].
  unfold num_rows. destruct (N.eqb_spec (N.of_nat (length (rb_rows batch))) 0) as [E|_].
  - exists []. destruct (rb_rows batch); [|done]. destruct keys; [|done]. by split_and!.
  - destruct keys as [|key keys].
    + exists []. destruct (rb_rows batch); [|done]. by split_and!.
    + destruct (slice_loop_spec batch keys 1 0 key ltac:(lia) ltac:(done)) as (Hr & Hs & Hne & Hch & _). by eexists.
Qed.

(** ** What a send says *)

(** What became of one slice. *)
Definition slice_delivery (producer : Producer) (n : nat) (slice : PreparedSlice) : Delivery :=
  match send_result producer n slice with
  | Queued d => d
  | Refused e =>
      if is_queue_full e then match send producer n slice with None => Delivered | Some e => DeliveryFailed e end
      else DeliveryFailed e
  end.

Definition deliveries (producer : Producer) (slices : list PreparedSlice) : list Delivery :=
  match slices with
  | [slice] => [match send producer 0 slice with None => Delivered | Some e => DeliveryFailed e end]
  | _ => imap (slice_delivery producer) slices
  end.

Definition error_severity (e : KafkaError) : N := failure_severity (classify_kafka_error e).

(** [failure] is the class of the worst of the errors. *)
Definition worst (failure : option FailureClass) (errors : list KafkaError) : Prop :=
  match failure with
  | None => errors = []
  | Some c => (exists e, e ∈ errors /\ c = classify_kafka_error e) /\ Forall (fun e => error_severity e <= failure_severity c) errors
  end.

Lemma worst_merge failure errors e : worst failure errors -> worst (merge_error failure e) (errors ++ [e]).
Proof.
  intros Hw. unfold merge_error, merge_failure_class. destruct failure as [c|]; cbn in Hw.
  - destruct Hw as ((e0 & Hin & Hc) & Hall). destruct (N.leb_spec (failure_severity (classify_kafka_error e)) (failure_severity c)) as [Hle|Hgt]; split.
    + exists e0. split; [apply elem_of_app; by left | done].
    + apply Forall_app. split; [done|]. by repeat constructor.
    + exists e. split; [apply elem_of_app; right; by apply list_elem_of_singleton | done].
    + apply Forall_app. split; [|by repeat constructor]. eapply Forall_impl; [exact Hall|]. unfold error_severity. cbn. lia.
  - subst errors. split; [exists e; split; [by apply list_elem_of_singleton | done] | by repeat constructor].
Qed.

(** The outcomes that are not deliveries are those of [futs] and the errors. *)
Definition undelivered (outs futs : list Delivery) (errors : list KafkaError) : Prop :=
  forall d, d <> Delivered -> (d ∈ outs <-> d ∈ futs \/ exists e, e ∈ errors /\ d = DeliveryFailed e).

Lemma undelivered_step outs futs errors d :
  undelivered outs futs errors -> undelivered (outs ++ [d]) (futs ++ [d]) errors.
Proof. intros Hu d' Hd'. rewrite !elem_of_app, (Hu d' Hd'). tauto. Qed.

Lemma undelivered_error outs futs errors e :
  undelivered outs futs errors -> undelivered (outs ++ [DeliveryFailed e]) futs (errors ++ [e]).
Proof.
  intros Hu d' Hd'. rewrite elem_of_app, (Hu d' Hd'), list_elem_of_singleton. setoid_rewrite elem_of_app. setoid_rewrite list_elem_of_singleton.
  split; [intros [[?|(x & ? & ?)]| ->]; [by left | right; eauto | right; eauto] | intros [?|(x & [?| ->] & ?)]; [tauto | left; right; eauto | by right]].
Qed.

Lemma undelivered_sent outs futs errors : undelivered outs futs errors -> undelivered (outs ++ [Delivered]) futs errors.
Proof. intros Hu d' Hd'. rewrite elem_of_app, (Hu d' Hd'), list_elem_of_singleton. tauto. Qed.

Lemma enqueue_spec producer slices : forall n outs futs failure errors,
  undelivered outs futs errors -> worst failure errors ->
  let '(futs', failure') := enqueue_slices producer n slices futs failure in
  exists errors', undelivered (outs ++ imap (fun k => slice_delivery producer (n + k)) slices) futs' errors' /\ worst failure' errors'.
Proof.
  induction slices as [|slice slices IH]; intros n outs futs failure errors Hu Hw; cbn [enqueue_slices]; [cbn; rewrite app_nil_r; by exists errors|].
  assert (Heq : outs ++ imap (fun k => slice_delivery producer (n + k)) (slice :: slices)
    = (outs ++ [slice_delivery producer n slice]) ++ imap (fun k => slice_delivery producer (S n + k)) slices).
  { rewrite imap_cons, Nat.add_0_r, <- app_assoc. cbn [app]. do 2 f_equal. apply imap_ext. intros k x _. cbn. by rewrite Nat.add_succ_r. }
  rewrite Heq. unfold slice_delivery at 1. destruct (send_result producer n slice) as [d|e].
  - apply (IH _ _ _ _ errors); [by apply undelivered_step | done].
  - destruct (is_queue_full e).
    + destruct (send producer n slice) as [e'|].
      * apply (IH _ _ _ _ (errors ++ [e'])); [by apply undelivered_error | by apply worst_merge].
      * apply (IH _ _ _ _ errors); [by apply undelivered_sent | done].
    + apply (IH _ _ _ _ (errors ++ [e])); [by apply undelivered_error | by apply worst_merge].
Qed.

(** What the outcomes say: all delivered, the worst failure, or a cancelled one. *)
Definition send_reports (outs : list Delivery) (r : result (option FailureClass) PipelineError) : Prop :=
  match r with
  | Ok None => Forall (eq Delivered) outs
  | Ok (Some c) =>
      (exists e, DeliveryFailed e ∈ outs /\ c = classify_kafka_error e) /\
      (forall d, d ∈ outs -> match d with DeliveryFailed e => error_severity e <= failure_severity c | DeliveryCanceled _ => False | Delivered => True end)
  | Err _ => exists msg, DeliveryCanceled msg ∈ outs
  end.

Lemma await_spec futs : forall failure errors outs, worst failure errors -> undelivered outs futs errors -> send_reports outs (await_deliveries futs failure).
Proof.
  induction futs as [|d futs IH]; intros failure errors outs Hw Hu; cbn [await_deliveries].
  - destruct failure as [c|]; cbn in Hw |- *.
    + destruct Hw as ((e & Hin & Hc) & Hall). split.
      * exists e. split; [|done]. apply Hu; [done|]. right. by exists e.
      * intros d Hd. destruct d as [|e'|msg]; [done| |].
        -- apply Hu in Hd as [Hd|(x & Hx & Ed)]; [by apply not_elem_of_nil in Hd| |done]. injection Ed as ->. rewrite Forall_forall in Hall. by apply Hall.
        -- apply Hu in Hd as [Hd|(x & Hx & Ed)]; [by apply not_elem_of_nil in Hd| done | done].
    + subst errors. apply Forall_forall. intros d Hd. destruct d as [|e|msg]; [done|exfalso|exfalso];
      (apply Hu in Hd as [Hd|(x & Hx & _)]; [by apply not_elem_of_nil in Hd | by apply not_elem_of_nil in Hx | done]).
  - destruct d as [|e|msg].
    + apply (IH _ errors); [done|]. intros d Hd. rewrite (Hu d Hd), elem_of_cons. split; [intros [[-> |?]|?]; [done | by left | by right] | tauto].
    + apply (IH _ (errors ++ [e])); [by apply worst_merge|]. intros d Hd. rewrite (Hu d Hd), elem_of_cons. setoid_rewrite elem_of_app. setoid_rewrite list_elem_of_singleton.
      split; [intros [[-> |?]|(x & ? & ?)]; [right; eauto | by left | right; eauto] | intros [?|(x & [?| ->] & ?)]; [tauto | right; eauto | left; by left]].
    + exists msg. apply Hu; [done|]. left. apply list_elem_of_here.
Qed.

Lemma send_prepared_spec producer slices : send_reports (deliveries producer slices) (send_prepared_slices producer slices).
Proof.
  assert (Hmulti : send_reports (imap (slice_delivery producer) slices)
    (let '(futs, failure) := enqueue_slices producer 0 slices [] None in await_deliveries futs failure)).
  { pose proof (enqueue_spec producer slices 0 [] [] None []) as He. destruct (enqueue_slices producer 0 slices [] None) as [futs failure].
    destruct He as (errors & Hu & Hw); [|done|by eapply await_spec].
    intros d _. split; [by intros ?%not_elem_of_nil | intros [?%not_elem_of_nil|(e & ?%not_elem_of_nil & _)]; done]. }
  destruct slices as [|slice [|slice' slices]]; try exact Hmulti. cbn. destruct (send producer 0 slice) as [e|]; cbn; [|by repeat constructor].
  split; [exists e; split; [apply list_elem_of_here | done]|]. intros d Hd. apply list_elem_of_singleton in Hd as ->. unfold error_severity. done.
Qed.

(** ** An acknowledged lease is delivered *)

(** A column of a batch has its rows' values. *)
Hypothesis column_lengths : forall batch name col keys,
  column_by_name batch name = Some col -> as_utf8 col = Some keys -> length keys = length (rb_rows batch).

(** The messages read back as batches that hold these rows, in order. *)
Definition carry_rows (slices : list PreparedSlice) (rows : list Row) : Prop :=
  exists batches, Forall2 (fun s b => ipc_decode (ps_payload s) = IpcBatch b) slices batches /\ concat (map rb_rows batches) = rows.

Lemma serialize_slices_ipc raw ps : serialize_slices raw Ipc = Ok ps ->
  Forall2 (fun p b => ipc_decode (ps_payload p) = IpcBatch b) ps (map snd raw) /\ map ps_partition_key ps = map fst raw.
Proof.
  revert ps. induction raw as [|[key b] raw IH]; intros ps E; cbn [serialize_slices] in E; [injection E as <-; by split|].
  unfold serialize_record_batch in E. destruct (ipc_encode b) as [payload|] eqn:Ep; [|done]. cbn [ok_or] in E.
  destruct (serialize_slices raw Ipc) as [rest|]; [|done]. injection E as <-. destruct (IH rest eq_refl) as [Hf Hk].
  cbn [map fst snd]. split; [|by rewrite Hk]. constructor; [|done]. by apply ipc_round_trip.
Qed.

Lemma prepared_slices_rows batch signal ps : prepare_kafka_slices batch signal sorter partition_key Ipc = Ok ps ->
  (num_rows batch = 0 /\ ps = []) \/
  exists sorted_batch, sort_with_extra_lead_column column_by_name columns lexsort_to_indices take_column try_new sorter batch signal partition_key = Ok sorted_batch /\
    carry_rows ps (rb_rows sorted_batch).
Proof.
  unfold prepare_kafka_slices. destruct (N.eqb_spec (num_rows batch) 0) as [E0|_]; [intros E; injection E as <-; by left|].
  destruct (sort_with_extra_lead_column _ _ _ _ _ _ _ _ _) as [sb|] eqn:Es; [|done]. intros Hp. right. exists sb. split; [done|].
  destruct partition_key as [key_col|].
  - destruct (extract_partition_slices sb key_col) as [raw|] eqn:Er; [|done]. destruct (serialize_slices_ipc raw ps Hp) as [Hf _].
    exists (map snd raw). split; [done|]. unfold extract_partition_slices in Er.
    destruct (column_by_name sb key_col) as [col|] eqn:Ec; [|done]. cbn [ok_or] in Er. destruct (as_utf8 col) as [keys|] eqn:Ek; [|done]. cbn [ok_or] in Er.
    pose proof (column_lengths sb key_col col keys Ec Ek) as Hl. rewrite map_map. fold (slice_rows raw). unfold num_rows in Er.
    destruct (N.eqb_spec (N.of_nat (length (rb_rows sb))) 0) as [E|_].
    + injection Er as <-. by destruct (rb_rows sb).
    + destruct keys as [|key keys]; [injection Er as <-; by destruct (rb_rows sb)|]. injection Er as <-.
      by destruct (slice_loop_spec sb keys 1 0 key ltac:(lia) ltac:(done)) as (Hr & _).
  - destruct (serialize_slices_ipc [(None, sb)] ps Hp) as [Hf _]. exists [sb]. split; [done|]. cbn. by rewrite app_nil_r.
Qed.

(** Why a lease ended as it did; [r] is what the loop goes on with. *)
Definition lease_justified (t : KafkaTurn) (e : LeaseEnd) (r : result unit PipelineError) : Prop :=
  match e with
  | LeaseAcked =>
      l_num_rows (kt_lease t) = 0 \/
      exists slices, prepare_slices t = Ok slices /\ Forall (eq Delivered) (deliveries (kt_producer t) slices) /\
        (format = Ipc -> exists batch, lease_batch concat_batches config (kt_dir t) (kt_lease t) batch /\
          ((num_rows batch = 0 /\ slices = []) \/ exists sorted_batch,
            sort_with_extra_lead_column column_by_name columns lexsort_to_indices take_column try_new sorter batch (l_signal (kt_lease t)) partition_key = Ok sorted_batch /\
            carry_rows slices (rb_rows sorted_batch)))
  | LeaseNacked class =>
      (exists err, prepare_slices t = Err err /\ class = Rejected (pipeline_to_string err)) \/
      exists slices, prepare_slices t = Ok slices /\ send_reports (deliveries (kt_producer t) slices) (Ok (Some class))
  | LeaseDropped => is_ok r = false
  end.

Lemma handle_lease_justified t : lease_justified t (handle_lease t).1 (handle_lease t).2.
Proof.
  unfold handle_lease. destruct (N.eqb_spec (l_num_rows (kt_lease t)) 0) as [E0|_]; [by left|].
  destruct (prepare_slices t) as [slices|err] eqn:Ep.
  - assert (Hrows : format = Ipc -> exists batch, lease_batch concat_batches config (kt_dir t) (kt_lease t) batch /\
          ((num_rows batch = 0 /\ slices = []) \/ exists sorted_batch,
            sort_with_extra_lead_column column_by_name columns lexsort_to_indices take_column try_new sorter batch (l_signal (kt_lease t)) partition_key = Ok sorted_batch /\
            carry_rows slices (rb_rows sorted_batch))).
    { intros Hf. unfold prepare_slices in Ep. destruct (kt_panic t); [done|]. destruct (prepare_inv _ _ _ _ _ _ Ep) as (b & Hlb & Hb). rewrite Hf in Hb.
      exists b. split; [done|]. by apply prepared_slices_rows in Hb. }
    destruct slices as [|slice slices]; [right; exists []; by split_and!|].
    pose proof (send_prepared_spec (kt_producer t) (slice :: slices)) as Hs.
    destruct (send_prepared_slices (kt_producer t) (slice :: slices)) as [[class|]|err]; cbn [fst snd lease_justified].
    + right. exists (slice :: slices). by split.
    + right. exists (slice :: slices). by split_and!.
    + done.
  - destruct err; try (rewrite join_error_never_recognised); cbn [fst snd lease_justified]; try done; left; by eexists.
Qed.

(** A preparation that panics is returned as rejected, like any other failure. *)
Lemma panicked_lease_rejected t e : kt_panic t = Some e -> l_num_rows (kt_lease t) <> 0 ->
  handle_lease t = (LeaseNacked (Rejected (pipeline_to_string (prepare_join_error e))), kt_nack t).
Proof.
  intros Hp Hn. unfold handle_lease, prepare_slices. rewrite Hp. destruct (N.eqb_spec (l_num_rows (kt_lease t)) 0); [done|].
  cbn [prepare_join_error]. by rewrite panicked_preparation_not_recognised.
Qed.

(** C22 (kafka_run_justified). The Kafka sink takes its leases in order and goes on
    past every one it acknowledged or returned.  A lease is acknowledged only
    when every message of it was delivered, and as Arrow streams those messages
    read back as batches with exactly the rows of the lease's batch as sorted, in
    order; it is returned with the reason its preparation failed, or with the class of its
    most severe delivery failure; it is left alone only when the sink stops
    with an error. *)
Theorem kafka_run_justified turns closed flushed :
  let '(ends, r) := kafka_run turns closed flushed in
  exists handled rest, turns = handled ++ rest /\ Forall2 (fun t e => exists r, lease_justified t e r /\ handle_lease t = (e, r)) handled ends /\
    (is_ok r = true -> rest = [] /\ is_ok closed = true /\ is_ok flushed = true /\ LeaseDropped ∉ ends).
Proof.
  induction turns as [|t turns IH]; cbn [kafka_run].
  - exists [], []. split_and!; [done | constructor|]. destruct closed; [|done]. intros Hf. split_and!; try done. apply not_elem_of_nil.
  - pose proof (handle_lease_justified t) as Ht. destruct (handle_lease t) as [e [[]|err]] eqn:Eh; cbn [fst snd] in Ht.
    + destruct (kafka_run turns closed flushed) as [ends r]. destruct IH as (handled & rest & -> & Hf & Hok).
      exists (t :: handled), rest. split; [done|]. split; [constructor; [by eexists | done]|]. intros Hr. destruct (Hok Hr) as (-> & Hc & Hfl & Hd).
      split_and!; try done. apply not_elem_of_cons. split; [|done]. intros <-. done.
    + exists [t], turns. split; [done|]. split; [|done]. constructor; [by eexists | constructor].
Qed.

End Kafka.

Lemma flush_timeout_positive options : 0 < flush_timeout_of options.
Proof.
  unfold flush_timeout_of. destruct (_ ≫= _) as [ms|]; [|done]. destruct (N.ltb_spec 0 ms); [done | done].
Qed.

Module KafkaDemo.
Import Toy.

(** Errors are their codes. *)
#[export] Instance errors : KafkaErrors RDKafkaErrorCode := {|
  ke_shape c := ShMessageProduction c; rdkafka_error_code c := Some c; ke_to_string _ := "kafka"%string |}.

Definition key_of (n : N) : option string := if n <? 10 then None else if n <? 20 then Some "a"%string else Some "b"%string.

(** A batch has one column, its rows; sorting leaves it as it is. *)
Definition column_by_name (b : batch) (name : string) : option (list N) := if bool_decide (name = "k"%string) then Some b.2 else None.
Definition as_utf8 (col : list N) : option (list (option string)) := Some (map key_of col).
Definition lexsort (cols : list (list N * SortOptions)) : option (list nat) := match cols with (c, _) :: _ => Some (seq 0 (length c)) | [] => None end.
Definition take_column (c : list N) (idx : list nat) : option (list N) := Some (omap (fun i => c !! i) idx).
Definition try_new (s : N) (cs : list (list N)) : option batch := match cs with [c] => Some (s, c) | _ => None end.

Lemma partition_slices_witness :
  let b : batch := (7, [1; 2; 11; 12; 25; 13]) in
  exists slices, extract_partition_slices column_by_name as_utf8 b "k" = Ok slices /\
    slice_rows slices = rb_rows b /\ slice_keys slices = map key_of b.2 /\ Forall (fun s => rb_rows s.2 <> []) slices /\ keys_change slices.
Proof. exact (partition_slices column_by_name as_utf8 (7, [1; 2; 11; 12; 25; 13]) "k" [1; 2; 11; 12; 25; 13] _ eq_refl eq_refl eq_refl). Defined.

Definition lease (b : batch) : Lease batch N := mkLease (mkLeaseId 1 Logs 1 1) [b] [InMemory b] [] (num_rows b) 0 0 0 0.

Abbreviation producer_t := (Producer (KafkaError := RDKafkaErrorCode)).

(** The first lease meets a full queue and then a delivery that fails; the
    second is delivered; the preparation of the third panics. *)
Definition flaky : producer_t := mkProducer
  (fun n s => match n with 0%nat => Refused KcQueueFull | 1%nat => Queued (DeliveryFailed KcMessageSizeTooLarge) | _ => Queued Delivered end) (fun _ _ => None).
Definition healthy : producer_t := mkProducer (fun _ _ => Queued Delivered) (fun _ _ => None).

Abbreviation turn_t := (KafkaTurn (RB := batch) (Sch := N) (KafkaError := RDKafkaErrorCode)).

Definition turn (b : batch) (panic : option string) (producer : producer_t) : turn_t := mkKafkaTurn (lease b) ∅ panic producer (Ok tt) (Ok tt).

Definition turns : list turn_t := [turn (7, [1; 2; 11; 25]) None flaky; turn (7, [3; 12]) None healthy; turn (7, [4]) (Some "panic"%string) healthy].

Definition sorter : BatchSorter := mkBatchSorter Skip [] [] [].

Abbreviation run := (kafka_run column_by_name (fun b => [b.2]) lexsort take_column try_new (fun _ _ => None) as_utf8 (fun _ => None)
  sorter (Some "k"%string) Ipc BufferConfig.default_config turns (Ok tt) (Ok tt)).

Lemma demo_columns (b : batch) name col keys : column_by_name b name = Some col -> as_utf8 col = Some keys -> length keys = length (rb_rows b).
Proof.
  intros Hc Hk. unfold column_by_name in Hc. case_bool_decide; [|done]. injection Hc as <-. injection Hk as <-. by rewrite length_map.
Qed.

Lemma kafka_run_justified_witness :
  (match run with
   | ([LeaseNacked (Rejected _); LeaseAcked; LeaseNacked (Rejected _)], Ok _) => True
   | _ => False
   end) /\
  let '(ends, r) := run in
  exists handled rest, turns = handled ++ rest /\
    Forall2 (fun t e => exists r, lease_justified column_by_name (fun b => [b.2]) lexsort take_column try_new (fun _ _ => None) as_utf8 (fun _ => None)
        sorter (Some "k"%string) Ipc BufferConfig.default_config t e r /\
      handle_lease column_by_name (fun b => [b.2]) lexsort take_column try_new (fun _ _ => None) as_utf8 (fun _ => None)
        sorter (Some "k"%string) Ipc BufferConfig.default_config t = (e, r)) handled ends /\
    (is_ok r = true -> rest = [] /\ is_ok (E := PipelineError) (Ok tt) = true /\ is_ok (E := PipelineError) (Ok tt) = true /\ LeaseDropped ∉ ends).
Proof.
  split; [by vm_compute|].
  exact (kafka_run_justified column_by_name (fun b => [b.2]) lexsort take_column try_new (fun _ _ => None) as_utf8 (fun _ => None)
    sorter (Some "k"%string) Ipc BufferConfig.default_config demo_columns turns (Ok tt) (Ok tt)).
Defined.

End KafkaDemo.
