(* ===== verification/ParquetSink.v ===== *)
(** The Parquet sink's loop: crates/parquet-sink/src/sink.rs and router.rs.

    What the select of [run] meets is a list of events; the runtime's flavour is
    a flag.  Rebuilding the schema of a batch with Variant columns is an argument
    ([transform_to_variant]), which VariantColumns defines over Arrow's arrays. *)

From S2P Require Import Prelude Arrow Signal ParquetError PartitionPath Partition.
Local Open Scope N_scope.

Section Sink.
Context {RB Sch Row : Type} `{Arrow RB Sch Row} `{Env RB Sch}.
(** A column of the schema of type [Utf8] or [LargeUtf8]. *)
Variable is_string_column : Sch -> string -> bool.
Variable transform_to_variant : RB -> list string -> result RB ParquetSinkError.
Variable variant_enabled : bool.
(** [Handle::try_current] gives a multi-threaded runtime. *)
Variable is_multithread : bool.

Abbreviation manager := (PartitionManager RB).

(** ** The router *)

Definition VARIANT_CANDIDATE_COLUMNS : list string := ["attributes"; "resource_attributes"]%string.

Record PreparedBatch := mkPreparedBatch { pb_signal : string; pb_batch : RB }.

Definition prepare_batch (signal : string) (batch : RB) (candidate_columns : list string) : result PreparedBatch ParquetSinkError :=
  if negb variant_enabled then Ok (mkPreparedBatch signal batch)
  else
    let columns := List.filter (is_string_column (rb_schema batch)) candidate_columns in
    let? transformed_batch := if bool_decide (columns = []) then Ok batch else transform_to_variant batch columns in
    Ok (mkPreparedBatch signal transformed_batch).

Definition route_and_prepare (signal : SignalType) (batch : RB) : result PreparedBatch ParquetSinkError :=
  match signal with
  | Logs => prepare_batch "logs" batch VARIANT_CANDIDATE_COLUMNS
  | Traces => prepare_batch "traces" batch VARIANT_CANDIDATE_COLUMNS
  | Metrics => prepare_batch "metrics" batch VARIANT_CANDIDATE_COLUMNS
  end.

Definition route_prepared_batch (m : manager) (prepared : PreparedBatch) : option (result unit ParquetSinkError * manager) :=
  route_batch m (pb_batch prepared) (pb_signal prepared).

(** ** The loop *)

Definition requires_multithread : PipelineError := Internal "ParquetSink requires a multi-threaded Tokio runtime".

(** [run_blocking] and the three ways its result is read. *)
Definition run_blocking (f : manager -> option (result unit ParquetSinkError * manager)) (m : manager)
  : option (result unit PipelineError * manager) :=
  if negb is_multithread then Some (Err requires_multithread, m)
  else
    match f m with
    | None => None
    | Some (Ok _, m) => Some (Ok tt, m)
    | Some (Err e, m) => Some (Err (pipeline_error e), m)
    end.

(** What the select meets: a batch, an error of the buffer, its end, or the timer. *)
Inductive SinkEvent : Type :=
| BatchReceived (signal : SignalType) (batch : RB)
| ReceiveFailed (e : PipelineError)
| Ticked
| Closed.

Definition route_event (signal : SignalType) (batch : RB) (m : manager) : option (result unit ParquetSinkError * manager) :=
  match route_and_prepare signal batch with
  | Err e => Some (Err e, m)
  | Ok prepared => route_prepared_batch m prepared
  end.

(** The loop; [final_res] of its end.  No event left is the end of the input. *)
Fixpoint sink_loop (m : manager) (events : list SinkEvent) : option (result unit PipelineError * manager) :=
  match events with
  | [] | Closed :: _ => Some (Ok tt, m)
  | ReceiveFailed e :: _ => Some (Err e, m)
  | BatchReceived signal batch :: events =>
      match run_blocking (route_event signal batch) m with
      | Some (Ok _, m) => sink_loop m events
      | other => other
      end
  | Ticked :: events =>
      match run_blocking (fun m => Some (sweep_idle_writers m)) m with
      | Some (Ok _, m) => sink_loop m events
      | other => other
      end
  end.

Definition keep_first (final_res res : result unit PipelineError) : result unit PipelineError :=
  match final_res with Ok _ => res | Err _ => final_res end.

Definition sink_run (m : manager) (events : list SinkEvent) : option (result unit PipelineError * manager) :=
  match sink_loop m events with
  | None => None
  | Some (final_res, m) =>
      match run_blocking (fun m => Some (flush_all m)) m with
      | None => None
      | Some (flush_res, m) =>
          let final_res := keep_first final_res flush_res in
          let '(wait_res, m) := wait_for_all_uploads m in
          Some (keep_first final_res (map_err pipeline_error wait_res), m)
      end
  end.

(** The seconds between sweeps. *)
Definition sweep_interval (max_file_interval_sec : N) : N :=
  if 0 <? max_file_interval_sec then N.min (N.max max_file_interval_sec 1) 5 else 60.

(** ** Draining *)

Context `{!ArrowLaws RB Sch Row} `{!EnvLaws RB Sch Row}.
Hypothesis multithread : is_multithread = true.

Definition good (c : ParquetSinkConfig) (m : manager) : Prop := reachable_manager c m.

(** What a batch adds to each partition: its prepared rows, by their keys. *)
Definition batch_adds (c : ParquetSinkConfig) (signal : SignalType) (batch : RB) (new : PartitionId -> list Row) : Prop :=
  exists prepared keys (m : manager), route_and_prepare signal batch = Ok prepared /\ length keys = length (rb_rows (pb_batch prepared)) /\ pm_config m = c /\
    forall p, new p ≡ₚ rows_for m (pb_signal prepared) p keys (rb_rows (pb_batch prepared)).

Fixpoint batches_of (events : list SinkEvent) : list (SignalType * RB) :=
  match events with
  | [] | Closed :: _ | ReceiveFailed _ :: _ => []
  | BatchReceived signal batch :: events => (signal, batch) :: batches_of events
  | Ticked :: events => batches_of events
  end.

Lemma run_blocking_multi f m : run_blocking f m =
  match f m with
  | None => None
  | Some (Ok _, m) => Some (Ok tt, m)
  | Some (Err e, m) => Some (Err (pipeline_error e), m)
  end.
Proof. unfold run_blocking. by rewrite multithread. Qed.

Lemma route_event_ok c m signal batch : good c m ->
  exists res m', route_event signal batch m = Some (res, m') /\ good c m' /\
    (res = Ok tt -> exists new, batch_adds c signal batch new /\ forall p, rows_of m' p = rows_of m p ++ new p).
Proof.
  intros Hg. unfold route_event. destruct (route_and_prepare signal batch) as [prepared|e] eqn:Ep; [|by eexists _, m].
  unfold route_prepared_batch. pose proof (manager_reachable_inv c m Hg) as (I & L & Hc).
  destruct (route_batch_spec 0 m (pb_batch prepared) (pb_signal prepared) I L) as (res & m' & E & _ & _ & _ & _ & R).
  exists res, m'. split; [done|]. split; [eapply rtc_r; [exact Hg | by eapply step_route]|]. intros Hres.
  set (keys := batch_keys m (pb_batch prepared)) in *.
  exists (fun p => sent_to m (pb_signal prepared) p keys (rb_rows (pb_batch prepared)) (distinct_keys [] keys)).
  split; [|by apply R]. exists prepared, keys, m. split_and!; try done; [apply row_keys_length|].
  intros p. apply sent_to_perm; [apply distinct_keys_nodup; constructor|]. intros k Hk. apply distinct_keys_elem. by right.
Qed.

(** Sweeping, flushing and waiting move rows to closed files only. *)
Lemma evicted_rows (m m' : manager) : evicted 0 m m' -> forall p, rows_of m' p = rows_of m p.
Proof. intros E p. apply (ev_rows _ _ _ E). Qed.

Lemma sink_loop_ok c events : forall m, good c m -> exists r m', sink_loop m events = Some (r, m') /\ good c m' /\
  (r = Ok tt -> exists news, Forall2 (fun b new => batch_adds c b.1 b.2 new) (batches_of events) news /\
    forall p, rows_of m' p = rows_of m p ++ concat (map (fun new => new p) news)).
Proof.
  induction events as [|ev events IH]; intros m Hg; cbn [sink_loop batches_of].
  { exists (Ok tt), m. split_and!; try done. intros _. exists []. split; [constructor|]. intros p. cbn. by rewrite app_nil_r. }
  destruct ev as [signal batch|e| |].
  - rewrite run_blocking_multi. destruct (route_event_ok c m signal batch Hg) as (res & m1 & E & Hg1 & Hrows). rewrite E.
    destruct res as [[]|e]; [|by eexists _, m1]. destruct (Hrows eq_refl) as (new & Hnew & Hr).
    destruct (IH m1 Hg1) as (r & m' & El & Hg' & Hl). exists r, m'. split_and!; try done. intros Hok. destruct (Hl Hok) as (news & Hf & Hrest).
    exists (new :: news). split; [by constructor|]. intros p. cbn. by rewrite Hrest, Hr, app_assoc.
  - by eexists _, m.
  - rewrite run_blocking_multi. pose proof (manager_reachable_inv c m Hg) as (I & _ & _). pose proof (evicted_rows _ _ (sweep_evicted 0 m I)) as Hr.
    assert (Hg1 : good c (sweep_idle_writers m).2) by (eapply rtc_r; [exact Hg | apply step_sweep]).
    destruct (sweep_idle_writers m) as [[[]|e] m1]; cbn [snd] in *; [|by eexists _, m1].
    destruct (IH m1 Hg1) as (r & m' & El & Hg' & Hl). exists r, m'. split_and!; try done. intros Hok. destruct (Hl Hok) as (news & Hf & Hrest).
    exists news. split; [done|]. intros p. by rewrite Hrest, Hr.
  - exists (Ok tt), m. split_and!; try done. intros _. exists []. split; [constructor|]. intros p. cbn. by rewrite app_nil_r.
Qed.

(** However the Parquet sink's loop ends, it returns with
    no writer open, no upload in flight and no memory charged; and when it returns
    success, every batch it received before the end was routed, and the closed files
    of each partition hold, in order, exactly the rows of those batches whose
    keys map to it. *)
Theorem parquet_sink_drains c events :
  exists r m', sink_run (new_manager c) events = Some (r, m') /\
    pm_writers m' = ∅ /\ pm_in_flight m' = [] /\ pm_global_memory m' = 0 /\
    (r = Ok tt -> exists news, Forall2 (fun b new => batch_adds c b.1 b.2 new) (batches_of events) news /\
      forall p, retired_rows p (pm_retired m') = concat (map (fun new => new p) news)).
Proof.
  assert (Hg0 : good c (new_manager c)) by apply rtc_refl.
  unfold sink_run. destruct (sink_loop_ok c events (new_manager c) Hg0) as (r & m & -> & Hg & Hl). rewrite run_blocking_multi.
  pose proof (manager_reachable_inv c m Hg) as (I & _ & _). destruct (flush_evicted 0 m I) as [Ev Hw].
  pose proof (evicted_rows _ _ Ev) as Hr. pose proof (mi_memory _ _ (ev_inv _ _ _ Ev)) as Hmem.
  destruct (flush_all m) as [fr m1]. cbn [snd] in *.
  pose proof (wait_all_quiet m1) as (_ & Qw & _ & Qg & Qr & _). assert (Hfl : pm_in_flight (wait_for_all_uploads m1).2 = []) by done.
  assert (Hend : forall fres, exists r' m', (let '(wait_res, m2) := wait_for_all_uploads m1 in
      Some (keep_first (keep_first r fres) (map_err pipeline_error wait_res), m2)) = Some (r', m') /\
    pm_writers m' = ∅ /\ pm_in_flight m' = [] /\ pm_global_memory m' = 0 /\
    (r' = Ok tt -> exists news, Forall2 (fun b new => batch_adds c b.1 b.2 new) (batches_of events) news /\
      forall p, retired_rows p (pm_retired m') = concat (map (fun new => new p) news))).
  { intros fres. destruct (wait_for_all_uploads m1) as [wr m2]. cbn [snd] in *. eexists _, m2. split; [done|].
    split; [congruence|]. split; [done|]. split; [by rewrite Qg, Hmem, Hw|]. intros Hok. destruct r as [[]|e]; [|done].
    destruct (Hl eq_refl) as (news & Hf & Hrows). exists news. split; [done|]. intros p. rewrite Qr.
    specialize (Hr p). rewrite Hrows in Hr. unfold rows_of at 1 in Hr. unfold open_rows in Hr. rewrite Hw, lookup_empty, app_nil_r in Hr. by rewrite Hr. }
  destruct fr as [[]|e]; apply Hend.
Qed.

End Sink.

Module ParquetSinkDemo.
#[local] Existing Instances Toy.arrow Toy.arrow_laws Partition.Demo.env Partition.Demo.env_laws.

(** The batch after the end of the input is not read. *)
Definition events : list (SinkEvent (RB := Toy.batch)) :=
  [BatchReceived Logs (0, [2024; 2025; 2024; 2024]); Ticked; BatchReceived Logs (0, [2025; 0; 2025; 2023]); Closed; BatchReceived Logs (0, [2030])].

Abbreviation run := (sink_run (RB := Toy.batch) (fun _ _ => false) (fun b _ => Ok b) true true (new_manager Partition.Demo.config) events).

Lemma parquet_sink_drains_witness :
  match run with
  | Some (Ok _, m) => retired_rows ("logs", "logs/2025")%string (pm_retired m) = [2025; 2025; 2025]
  | _ => False
  end /\
  exists r m', run = Some (r, m') /\
    pm_writers m' = ∅ /\ pm_in_flight m' = [] /\ pm_global_memory m' = 0 /\
    (r = Ok tt -> exists news, Forall2 (fun b new => batch_adds (fun _ _ => false) (fun b _ => Ok b) true Partition.Demo.config b.1 b.2 new) (batches_of events) news /\
      forall p, retired_rows p (pm_retired m') = concat (map (fun new => new p) news)).
Proof. split; [by vm_compute | exact (parquet_sink_drains (fun _ _ => false) (fun b _ => Ok b) true true eq_refl Partition.Demo.config events)]. Defined.

End ParquetSinkDemo.
