(* ===== verification/VariantColumns.v ===== *)
(** The rewriting of JSON columns as Variant columns: crates/parquet-sink/src/variant.rs,
    the [VariantTransformer].

    Schemas are data ([Guard]); string arrays, the builders of binary arrays and
    struct arrays are Arrow's ([VariantArrays], with what is relied on of them
    in [VariantArraysLaws]).  The thread's encoder is reused from row to row; a
    row reads only what it wrote itself, and the capacities of its buffers are
    not modelled. *)

From S2P Require Import Prelude Arrow Signal Text ParquetError PartitionPath Partition Variant Guard ParquetSink.
Local Open Scope N_scope.

(** ** The arrays *)

Class VariantArrays (RB Arr : Type) `{Tables RB Arr} := {
  utf8 : DataType;
  large_utf8 : DataType;
  binary : DataType;
  (** The downcasts, with the rows of the array, null or a text. *)
  as_string_array : Arr -> option (list (option bytes));
  as_large_string_array : Arr -> option (list (option bytes));
  (** [BinaryBuilder::finish] after these values. *)
  binary_array : list bytes -> Arr;
  binary_values : Arr -> list bytes;
  (** [StructArray::try_new] with its children and validity. *)
  struct_array : list Field -> list Arr -> option (list bool) -> option Arr;
  struct_parts : Arr -> option (list Arr * option (list bool));
}.

Definition invalid_rows (validity : list bool) : N := N.of_nat (length (List.filter negb validity)).

Class VariantArraysLaws (RB Arr : Type) `{VariantArrays RB Arr} := {
  string_array_ok : forall c, arr_type c = utf8 ->
    exists rows, as_string_array c = Some rows /\ N.of_nat (length rows) = arr_len c;
  large_string_array_ok : forall c, arr_type c = large_utf8 ->
    exists rows, as_large_string_array c = Some rows /\ N.of_nat (length rows) = arr_len c;
  binary_array_ok : forall vs, arr_type (binary_array vs) = binary /\ arr_len (binary_array vs) = N.of_nat (length vs) /\
    arr_null_count (binary_array vs) = 0 /\ binary_values (binary_array vs) = vs;
  struct_array_ok : forall fields arrays nulls rows, fields <> [] -> Forall2 (fits rows) fields arrays ->
    (forall bs, nulls = Some bs -> N.of_nat (length bs) = rows) ->
    exists a, struct_array fields arrays nulls = Some a /\ arr_type a = Struct fields /\ arr_len a = rows /\
      arr_null_count a = match nulls with Some bs => invalid_rows bs | None => 0 end /\
      struct_parts a = Some (arrays, nulls);
}.

Section Transformer.
Context {RB Arr : Type} `{VariantArrays RB Arr} `{!Serde}.

(** ** A column *)

(** The encoder's answer, in its own buffers. *)
Definition encode_to_scratch (json : bytes) : result (option (bytes * bytes)) ParquetSinkError :=
  let trimmed := trim json in
  if bool_decide (trimmed = [] \/ trimmed = null_text) then Ok None
  else if bool_decide (trimmed = empty_object_text) then Ok (Some (STATIC_EMPTY_METADATA, STATIC_EMPTY_VALUE))
  else let? scratch := encode_json_internal trimmed in Ok (Some scratch).

(** What the loop builds. *)
Record Builders := mkBuilders { meta_builder : list bytes; val_builder : list bytes; validity : list bool; null_count : N }.

Definition empty_builders : Builders := mkBuilders [] [] [] 0.

Definition append_row (b : Builders) (row : option bytes) : result Builders ParquetSinkError :=
  let? slices :=
    match row with
    | Some str_val =>
        let? encoded := encode_to_scratch str_val in
        Ok (match encoded with Some (m, v) => (m, v, true) | None => ([], [], false) end)
    | None => Ok ([], [], false)
    end in
  let '(meta_slice, val_slice, is_valid) := slices in
  Ok (mkBuilders (meta_builder b ++ [meta_slice]) (val_builder b ++ [val_slice]) (validity b ++ [is_valid])
        (if is_valid then null_count b else null_count b + 1)).

Fixpoint append_rows (b : Builders) (rows : list (option bytes)) : result Builders ParquetSinkError :=
  match rows with
  | [] => Ok b
  | row :: rows => let? b := append_row b row in append_rows b rows
  end.

Definition convert_string_column (struct_fields : list Field) (rows : list (option bytes)) : result Arr ParquetSinkError :=
  let? b := append_rows empty_builders rows in
  let null_buffer := if null_count b =? 0 then None else Some (validity b) in
  match struct_array struct_fields [binary_array (meta_builder b); binary_array (val_builder b)] null_buffer with
  | Some a => Ok a
  | None => Err PArrow
  end.

(** ** A batch *)

Definition extension_meta : gmap string string :=
  <["ARROW:extension:metadata" := ""]> {[ "ARROW:extension:name" := "arrow.parquet.variant" ]}%string.

Definition struct_fields : list Field := [mkField "metadata" binary false ∅; mkField "value" binary false ∅].

Definition column_not_found : ParquetSinkError := PVariantEncoding "column not found in record batch schema".
Definition failed_downcasting : ParquetSinkError := PVariantEncoding "failed downcasting column".
Definition not_a_string_array : ParquetSinkError := PVariantEncoding "column is not a Utf8 or LargeUtf8 string array".

(** The columns exist, checked in the order they are requested. *)
Definition check_requested (s : Schema) (column_names : list string) : result unit ParquetSinkError :=
  if bool_decide (Forall (fun req_col => is_Some (index_of s req_col)) column_names) then Ok tt else Err column_not_found.

Definition transform_column (col : Arr) : result Arr ParquetSinkError :=
  if bool_decide (arr_type col = utf8) then
    match as_string_array col with Some rows => convert_string_column struct_fields rows | None => Err failed_downcasting end
  else if bool_decide (arr_type col = large_utf8) then
    match as_large_string_array col with Some rows => convert_string_column struct_fields rows | None => Err failed_downcasting end
  else Err not_a_string_array.

(** The loop over the fields with their columns. *)
Fixpoint transform_fields (column_names : list string) (cols : list (Field * Arr)) : result (list (Field * Arr)) ParquetSinkError :=
  match cols with
  | [] => Ok []
  | (field, col) :: cols =>
      let? turned :=
        if bool_decide (f_name field ∈ column_names) then
          let? a := transform_column col in
          Ok (mkField (f_name field) (Struct struct_fields) (f_nullable field) extension_meta, a)
        else Ok (field, col) in
      let? rest := transform_fields column_names cols in
      Ok (turned :: rest)
  end.

(** The batch's fields with their columns: they are as many. *)
Definition columns_of (batch : RB) : list (Field * Arr) := zip (s_fields (t_schema batch)) (t_columns batch).

Definition transform_to_variant (batch : RB) (column_names : list string) : result RB ParquetSinkError :=
  if bool_decide (column_names = []) then Ok batch
  else
    let? _ := check_requested (t_schema batch) column_names in
    let? cols := transform_fields column_names (columns_of batch) in
    match t_try_new (mkSchema cols.*1 (s_metadata (t_schema batch))) cols.*2 with
    | Some b => Ok b
    | None => Err PArrow
    end.

(** ** The router's test of a candidate: the first field of that name holds text. *)
Definition is_string_column (s : Schema) (name : string) : bool :=
  match index_of s name with
  | Some i =>
      match s_fields s !! i with
      | Some field => bool_decide (f_type field = utf8 \/ f_type field = large_utf8)
      | None => false
      end
  | None => false
  end.

(** ** Reading a column back *)

(** The texts of a string column. *)
Definition string_rows (c : Arr) : option (list (option bytes)) :=
  if bool_decide (arr_type c = utf8) then as_string_array c
  else if bool_decide (arr_type c = large_utf8) then as_large_string_array c
  else None.

Definition cell (is_valid : bool) (mv : bytes * bytes) : option (bytes * bytes) := if is_valid then Some mv else None.

(** The rows of a struct array: null where it is not valid. *)
Definition variant_rows (a : Arr) : option (list (option (bytes * bytes))) :=
  match struct_parts a with
  | Some ([m; v], nulls) =>
      let pairs := zip (binary_values m) (binary_values v) in
      Some (zip_with cell (default (replicate (length pairs) true) nulls) pairs)
  | _ => None
  end.

End Transformer.

(** ** What a row stands for *)

Section Rows.
Context `{!Serde}.

(** A text the encoder refuses: it opens like an object or an array and is not
    JSON. *)
Definition text_refused (text : bytes) : Prop :=
  from_str (trim text) = None /\ (head (trim text) = Some 123 \/ head (trim text) = Some 91).

(** A row that becomes a null. *)
Definition row_null (row : option bytes) : Prop :=
  match row with Some text => trim text = [] \/ trim text = null_text | None => True end.

(** A row and its cell in the struct array. *)
Definition row_stands (row : option bytes) (encoded : option (bytes * bytes)) : Prop :=
  match encoded with
  | None => row_null row
  | Some e => ~ row_null row /\ match row with Some text => encodes (document text) e | None => False end
  end.

(** Every document of the rows is below 4 GiB. *)
Definition rows_small (rows : list (option bytes)) : Prop :=
  forall text, Some text ∈ rows -> doc_size (document text) <= u32_max.

Definition value_of (c : option (bytes * bytes)) : bytes * bytes := default ([], []) c.
Definition is_valid (c : option (bytes * bytes)) : bool := match c with Some _ => true | None => false end.

(** The builders after these cells. *)
Definition built (b : Builders) (cells : list (option (bytes * bytes))) : Builders :=
  mkBuilders (meta_builder b ++ map (fun c => (value_of c).1) cells) (val_builder b ++ map (fun c => (value_of c).2) cells)
    (validity b ++ map is_valid cells) (null_count b + invalid_rows (map is_valid cells)).

Lemma built_nil b : built b [] = b.
Proof. destruct b. unfold built, invalid_rows. cbn. by rewrite !app_nil_r, N.add_0_r. Qed.

Lemma built_cons b c cells : built (built b [c]) cells = built b (c :: cells).
Proof.
  unfold built, invalid_rows. cbn. rewrite <- !app_assoc. f_equal.
  destruct (is_valid c); cbn; lia.
Qed.

Lemma append_row_spec `{!SerdeLaws} b row :
  (forall text, row = Some text -> doc_size (document text) <= u32_max) ->
  match append_row b row with
  | Ok b' => exists c, b' = built b [c] /\ row_stands row c
  | Err e => e = PVariantEncoding "invalid JSON payload" /\ exists text, row = Some text /\ text_refused text
  end.
Proof.
  intros Hs. unfold append_row. destruct row as [text|]; cbn iota beta.
  - specialize (Hs text eq_refl). pose proof (variant_encoding text Hs) as He. change (encode_to_scratch text) with (encode_json_str text).
    destruct (encode_json_str text) as [[[m v]|]|e]; cbn.
    + exists (Some (m, v)). unfold built, invalid_rows. cbn. rewrite N.add_0_r. split; [done|].
      destruct He as (Hn & Hn' & He). split; [|done]. intros [?|?]; contradiction.
    + exists None. by unfold built.
    + destruct He as (-> & Hf & Hh). split; [done|]. by exists text.
  - exists None. by unfold built.
Qed.

Lemma append_rows_spec `{!SerdeLaws} rows : forall b,
  rows_small rows ->
  match append_rows b rows with
  | Ok b' => exists cells, b' = built b cells /\ Forall2 row_stands rows cells
  | Err e => e = PVariantEncoding "invalid JSON payload" /\ exists text, Some text ∈ rows /\ text_refused text
  end.
Proof.
  induction rows as [|row rows IH]; intros b Hs; cbn [append_rows].
  { exists []. by rewrite built_nil. }
  assert (Hr : forall text, row = Some text -> doc_size (document text) <= u32_max) by (intros t ->; apply Hs; constructor).
  pose proof (append_row_spec b row Hr) as Hrow. destruct (append_row b row) as [b'|e]; cbn iota beta.
  - destruct Hrow as (c & -> & Hc). assert (Hs' : rows_small rows) by (intros t Ht; apply Hs; by constructor).
    specialize (IH (built b [c]) Hs'). destruct (append_rows _ rows) as [b'|e].
    + destruct IH as (cells & -> & Hf). exists (c :: cells). rewrite built_cons. split; [done|]. by constructor.
    + destruct IH as (-> & text & Ht & Hx). split; [done|]. exists text. split; [by constructor | done].
  - destruct Hrow as (-> & text & -> & Ht). split; [done|]. exists text. split; [constructor | done].
Qed.

End Rows.

(** ** What a column becomes *)

Section Columns.
Context {RB Arr : Type} `{VariantArraysLaws RB Arr} `{SerdeLaws}.

Lemma cells_read cells :
  zip_with cell (map is_valid cells) (zip (map (fun c => (value_of c).1) cells) (map (fun c => (value_of c).2) cells)) = cells.
Proof. induction cells as [|[[m v]|] cells IH]; [done|..]; cbn in *; by rewrite IH. Qed.

Lemma all_valid cells : invalid_rows (map is_valid cells) = 0 -> map is_valid cells = replicate (length cells) true.
Proof.
  unfold invalid_rows. induction cells as [|c cells IH]; [done|]. cbn. destruct (is_valid c); cbn; [|lia].
  intros Hn. by rewrite (IH Hn).
Qed.

Lemma binary_fits n f vs :
  f_type f = binary -> N.of_nat (length vs) = n -> fits n f (binary_array vs).
Proof. intros Ht Hl. destruct (binary_array_ok vs) as (Ht' & Hl' & Hn & _). unfold fits. rewrite Ht, Hl', Hl. by split_and!. Qed.

Definition column_reads (rows : list (option bytes)) (a : Arr) (cells : list (option (bytes * bytes))) : Prop :=
  Forall2 row_stands rows cells /\ variant_rows a = Some cells /\ arr_type a = Struct struct_fields /\
  arr_len a = N.of_nat (length rows) /\ arr_null_count a = invalid_rows (map is_valid cells).

Lemma convert_string_column_spec rows :
  rows_small rows ->
  match convert_string_column struct_fields rows with
  | Ok a => exists cells, column_reads rows a cells
  | Err e => e = PVariantEncoding "invalid JSON payload" /\ exists text, Some text ∈ rows /\ text_refused text
  end.
Proof.
  intros Hs. unfold convert_string_column. pose proof (append_rows_spec rows empty_builders Hs) as Hb.
  destruct (append_rows empty_builders rows) as [b|e]; [|exact Hb]. destruct Hb as (cells & -> & Hf).
  unfold built. cbn [empty_builders meta_builder val_builder validity null_count app]. rewrite N.add_0_l. cbv zeta.
  pose proof (Forall2_length _ _ _ Hf) as Hl.
  set (ms := map (fun c => (value_of c).1) cells). set (vs := map (fun c => (value_of c).2) cells).
  set (nulls := if invalid_rows (map is_valid cells) =? 0 then None else Some (map is_valid cells)).
  destruct (struct_array_ok struct_fields [binary_array ms; binary_array vs] nulls (N.of_nat (length rows)))
    as (a & Ha & Ht & Hla & Hn & Hp).
  { done. }
  { constructor; [|constructor; [|constructor]]; (apply binary_fits; [done|]); unfold ms, vs; rewrite length_map; lia. }
  { unfold nulls. intros bs. destruct (_ =? 0); [done|]. intros [= <-]. rewrite length_map. lia. }
  fold ms vs nulls. rewrite Ha. exists cells. unfold column_reads, variant_rows. rewrite Hp, Hn.
  destruct (binary_array_ok ms) as (_ & _ & _ & ->). destruct (binary_array_ok vs) as (_ & _ & _ & ->).
  split_and!; [done | | done.. |].
  - f_equal. transitivity (zip_with cell (map is_valid cells) (zip ms vs)); [f_equal | apply cells_read]. unfold nulls.
    destruct (N.eqb_spec (invalid_rows (map is_valid cells)) 0) as [Hz|Hz]; [|done]. cbn.
    rewrite all_valid by done. f_equal. unfold ms, vs. rewrite length_zip_with, !length_map. lia.
  - unfold nulls. destruct (N.eqb_spec (invalid_rows (map is_valid cells)) 0) as [Hz|Hz]; by rewrite ?Hz.
Qed.

Lemma transform_column_spec c :
  (forall rows, string_rows c = Some rows -> rows_small rows) ->
  match transform_column c with
  | Ok a => exists rows cells, string_rows c = Some rows /\ arr_len a = arr_len c /\ column_reads rows a cells
  | Err e => (arr_type c <> utf8 /\ arr_type c <> large_utf8 /\ e = not_a_string_array) \/
      (e = PVariantEncoding "invalid JSON payload" /\
       exists rows text, string_rows c = Some rows /\ Some text ∈ rows /\ text_refused text)
  end.
Proof.
  unfold transform_column, string_rows. intros Hs.
  assert (Hrows : forall rows, N.of_nat (length rows) = arr_len c -> rows_small rows ->
    match convert_string_column struct_fields rows with
    | Ok a => exists rows' cells, Some rows = Some rows' /\ arr_len a = arr_len c /\ column_reads rows' a cells
    | Err e => e = PVariantEncoding "invalid JSON payload" /\ exists rows' text, Some rows = Some rows' /\ Some text ∈ rows' /\ text_refused text
    end).
  { intros rows Hl Hsm. pose proof (convert_string_column_spec rows Hsm) as Hc. destruct (convert_string_column _ rows).
    - destruct Hc as (cells & Hr). exists rows, cells. split_and!; [done | | done]. destruct Hr as (_ & _ & _ & -> & _). done.
    - destruct Hc as (-> & text & Ht). split; [done|]. by exists rows, text. }
  case_bool_decide as Hu; [|case_bool_decide as Hl].
  - destruct (string_array_ok c Hu) as (rows & Er & Hlen). rewrite Er in *. specialize (Hrows rows Hlen (Hs rows eq_refl)).
    destruct (convert_string_column _ rows); [done | by right].
  - destruct (large_string_array_ok c Hl) as (rows & Er & Hlen). rewrite Er in *. specialize (Hrows rows Hlen (Hs rows eq_refl)).
    destruct (convert_string_column _ rows); [done | by right].
  - by left.
Qed.

(** ** What a batch becomes *)

Lemma some_row_null rows cells :
  Forall2 row_stands rows cells -> invalid_rows (map is_valid cells) <> 0 -> exists row, row ∈ rows /\ row_null row.
Proof.
  unfold invalid_rows. induction 1 as [|row c rows cells Hr _ IH]; [done|]. destruct c as [e|]; cbn; intros Hn.
  - destruct (IH Hn) as (r & Hin & Hnull). exists r. split; [by constructor | done].
  - exists row. split; [constructor | done].
Qed.

(** The metadata of a Variant's field; comments and code of the crate differ on the
    extension's name, which is left open here. *)
Definition variant_meta (extension : string) : gmap string string :=
  <["ARROW:extension:metadata" := ""]> {[ "ARROW:extension:name" := extension ]}%string.

(** A requested column is rewritten in its place, every other one is kept. *)
Definition column_becomes (extension : string) (column_names : list string) (before after : Field * Arr) : Prop :=
  if bool_decide (f_name before.1 ∈ column_names) then
    after.1 = mkField (f_name before.1) (Struct struct_fields) (f_nullable before.1) (variant_meta extension) /\
    exists rows cells, string_rows before.2 = Some rows /\ arr_len after.2 = arr_len before.2 /\ column_reads rows after.2 cells
  else after = before.

(** The name the code writes. *)
Definition variant_name : string := "arrow.parquet.variant".

(** Why a column is refused. *)
Definition column_refused (f : Field) (c : Arr) (e : ParquetSinkError) : Prop :=
  (arr_type c <> utf8 /\ arr_type c <> large_utf8 /\ e = not_a_string_array) \/
  (exists rows, string_rows c = Some rows /\
    ((e = PVariantEncoding "invalid JSON payload" /\ exists text, Some text ∈ rows /\ text_refused text) \/
     (e = PArrow /\ f_nullable f = false /\ exists row, row ∈ rows /\ row_null row))).

(** Every document of the requested columns is below 4 GiB. *)
Definition texts_small (column_names : list string) (cols : list (Field * Arr)) : Prop :=
  forall f c rows, (f, c) ∈ cols -> f_name f ∈ column_names -> string_rows c = Some rows -> rows_small rows.

Lemma transform_fields_spec column_names cols :
  texts_small column_names cols ->
  match transform_fields column_names cols with
  | Ok cols' => Forall2 (column_becomes variant_name column_names) cols cols'
  | Err e => exists f c, (f, c) ∈ cols /\ f_name f ∈ column_names /\ column_refused f c e
  end.
Proof.
  induction cols as [|[f c] cols IH]; intros Hs; cbn [transform_fields]; [constructor|].
  assert (Hs' : texts_small column_names cols) by (intros f' c' rows Hin; apply Hs; by constructor). specialize (IH Hs').
  assert (Hrest : forall fc, column_becomes variant_name column_names (f, c) fc ->
    match (let? rest := transform_fields column_names cols in Ok (fc :: rest)) with
    | Ok cols' => Forall2 (column_becomes variant_name column_names) ((f, c) :: cols) cols'
    | Err e => exists f' c', (f', c') ∈ (f, c) :: cols /\ f_name f' ∈ column_names /\ column_refused f' c' e
    end).
  { intros fc Hfc. destruct (transform_fields column_names cols) as [cols'|e]; [by constructor|].
    destruct IH as (f' & c' & Hin & Hr). exists f', c'. split; [by constructor | done]. }
  case_bool_decide as Hn; cycle 1.
  { apply Hrest. unfold column_becomes. by rewrite bool_decide_eq_false_2. }
  pose proof (transform_column_spec c (fun rows => Hs f c rows ltac:(constructor) Hn)) as Hc.
  destruct (transform_column c) as [a|e].
  - apply Hrest. unfold column_becomes. rewrite bool_decide_eq_true_2 by done. split; [done|].
    destruct Hc as (rows & cells & Hc). by exists rows, cells.
  - exists f, c. split; [constructor|]. split; [done|]. destruct Hc as [Hc|(-> & rows & text & Hr & Ht)]; [by left|].
    right. exists rows. split; [done|]. left. split; [done|]. by exists text.
Qed.

Lemma columns_fit `{!TablesLaws RB Arr} batch : Forall (fun fc => fits (t_rows batch) fc.1 fc.2) (columns_of batch).
Proof.
  unfold columns_of. generalize (table_fits batch). generalize (s_fields (t_schema batch)) (t_columns batch).
  induction 1; cbn; by constructor.
Qed.

(** A rewritten column fits its field, unless it has a null the field forbids. *)
Lemma becomes_fits column_names n fc fc' :
  fits n fc.1 fc.2 -> column_becomes variant_name column_names fc fc' ->
  fits n fc'.1 fc'.2 \/ (f_name fc.1 ∈ column_names /\ column_refused fc.1 fc.2 PArrow).
Proof.
  intros (Ht & Hl & Hn) Hb. unfold column_becomes in Hb. case_bool_decide as Hin; [|subst; by left].
  destruct Hb as (Hf & rows & cells & Hr & Hla & Hc). destruct Hc as (Hst & _ & Hty & _ & Hnull).
  destruct (decide (f_nullable fc.1 = false /\ invalid_rows (map is_valid cells) <> 0)) as [[Hnn Hz]|Hok].
  - right. split; [done|]. right. exists rows. split; [done|]. right. split_and!; [done..|]. by eapply some_row_null.
  - left. rewrite Hf. unfold fits. cbn [f_type f_nullable]. rewrite Hla. split_and!; [done..|].
    intros Hnn. rewrite Hnull. destruct (decide (invalid_rows (map is_valid cells) = 0)); [done | tauto].
Qed.

Lemma all_fit column_names n cols cols' :
  Forall (fun fc => fits n fc.1 fc.2) cols -> Forall2 (column_becomes variant_name column_names) cols cols' ->
  Forall2 (fits n) cols'.*1 cols'.*2 \/
  exists f c, (f, c) ∈ cols /\ f_name f ∈ column_names /\ column_refused f c PArrow.
Proof.
  intros Hfit Hb. induction Hb as [|[f c] fc' cols cols' Hfc _ IH]; [by left; constructor|].
  apply Forall_cons in Hfit as [Hx Hfit]. destruct (IH Hfit) as [Hall|(f' & c' & Hin & Hr)]; cycle 1.
  { right. exists f', c'. split; [by constructor | done]. }
  destruct (becomes_fits _ _ _ _ Hx Hfc) as [Hok|[Hin Hr]]; [by left; constructor|].
  right. exists f, c. split; [constructor | done].
Qed.

Lemma check_requested_spec s column_names :
  match check_requested s column_names with
  | Ok _ => forall name, name ∈ column_names -> exists i f, index_of s name = Some i /\ s_fields s !! i = Some f /\ f_name f = name
  | Err e => e = column_not_found /\ exists name, name ∈ column_names /\ forall f, f ∈ s_fields s -> f_name f <> name
  end.
Proof.
  unfold check_requested. case_bool_decide as Ha.
  - rewrite Forall_forall in Ha. intros name [i Hi]%Ha. destruct (index_of_Some _ _ _ Hi) as (f & Hf & Hn). by exists i, f.
  - split; [done|]. apply not_Forall_Exists, Exists_exists in Ha as (name & Hin & Hn); [|intros x; apply is_Some_dec].
    exists name. split; [done|]. apply index_of_None. cbn in Hn. destruct (index_of s name); [by destruct Hn | done].
Qed.

Lemma zip_parts (cols : list (Field * Arr)) : zip cols.*1 cols.*2 = cols.
Proof. induction cols as [|[f c] cols IH]; [done|]. cbn. by rewrite IH. Qed.

Lemma unrequested cols : Forall2 (column_becomes variant_name []) cols cols.
Proof. induction cols; constructor; [|done]. unfold column_becomes. rewrite bool_decide_eq_false_2; [done | apply not_elem_of_nil]. Qed.

(** What a new batch holds. *)
Lemma made_columns `{!TablesLaws RB Arr} batch column_names cols b :
  Forall2 (column_becomes variant_name column_names) (columns_of batch) cols -> cols.*2 <> [] ->
  t_try_new (mkSchema cols.*1 (s_metadata (t_schema batch))) cols.*2 = Some b ->
  t_rows b = t_rows batch /\ s_metadata (t_schema b) = s_metadata (t_schema batch) /\
  Forall2 (column_becomes variant_name column_names) (columns_of batch) (columns_of b).
Proof.
  intros Hf Hne Eb. destruct (try_new_ok _ _ _ Eb) as (Hs & Hc & Hr). unfold columns_of at 2. rewrite Hs, Hc. cbn.
  rewrite zip_parts. split_and!; [|done..]. pose proof (columns_fit batch) as Hfit.
  clear Eb Hs Hc. revert Hfit Hf Hne Hr. generalize (columns_of batch). intros before Hfit Hf Hne Hr.
  destruct Hf as [|[f c] [f' c'] ? ? Hfc]; [done|]. apply Forall_cons in Hfit as [(_ & Hl & _) _]. rewrite (Hr c') by constructor.
  unfold column_becomes in Hfc. case_bool_decide; [destruct Hfc as (_ & ? & ? & _ & Hla & _); by rewrite <- Hl | by injection Hfc as -> ->].
Qed.

Lemma transform_to_variant_spec `{!TablesLaws RB Arr} (batch : RB) (column_names : list string) :
  texts_small column_names (columns_of batch) ->
  match transform_to_variant batch column_names with
  | Ok b => t_rows b = t_rows batch /\ s_metadata (t_schema b) = s_metadata (t_schema batch) /\
      Forall2 (column_becomes variant_name column_names) (columns_of batch) (columns_of b)
  | Err e =>
      (e = column_not_found /\ exists name, name ∈ column_names /\ forall f, f ∈ s_fields (t_schema batch) -> f_name f <> name) \/
      (exists f c, (f, c) ∈ columns_of batch /\ f_name f ∈ column_names /\ column_refused f c e)
  end.
Proof.
  intros Hs. unfold transform_to_variant. case_bool_decide as Hn.
  { subst. split_and!; [done..|]. apply unrequested. }
  pose proof (check_requested_spec (t_schema batch) column_names) as Hc.
  destruct (check_requested (t_schema batch) column_names) as [[]|e]; [|by left].
  pose proof (transform_fields_spec column_names (columns_of batch) Hs) as Hf.
  destruct (transform_fields column_names (columns_of batch)) as [cols|e]; [|by right].
  assert (Hne : cols.*2 <> []).
  { destruct column_names as [|name names]; [done|]. destruct (Hc name) as (i & f & _ & Hi & _); [constructor|].
    pose proof (table_fits batch) as Ht. unfold columns_of in Hf.
    destruct (t_columns batch) as [|c cs]; [by inversion Ht as [E|]; rewrite <- E in Hi|].
    inversion Ht as [|f' ? fs ? _ _ E]; subst. rewrite <- E in Hf. inversion Hf; subst. done. }
  destruct (t_try_new (mkSchema cols.*1 (s_metadata (t_schema batch))) cols.*2) as [b|] eqn:Eb; [by eapply made_columns|].
  destruct (all_fit column_names _ _ _ (columns_fit batch) Hf) as [Hfit|Hbad]; [|by right].
  destruct (try_new_total (mkSchema cols.*1 (s_metadata (t_schema batch))) cols.*2 _ Hne Hfit) as [b Hb]. by rewrite Eb in Hb.
Qed.


(** ** The router in front of it *)

Lemma candidate_is_text s name f :
  NoDup (map f_name (s_fields s)) -> is_string_column s name = true -> f ∈ s_fields s -> f_name f = name ->
  f_type f = utf8 \/ f_type f = large_utf8.
Proof.
  unfold is_string_column. intros Hnd Hs Hin Hn. destruct (index_of s name) as [i|] eqn:Ei; [|done].
  destruct (index_of_Some _ _ _ Ei) as (g & Hg & Hgn). rewrite Hg in Hs. apply bool_decide_eq_true in Hs.
  apply list_elem_of_lookup in Hin as [j Hj]. assert (i = j) as <-; [|congruence].
  eapply (NoDup_lookup (map f_name (s_fields s)) i j name Hnd); by rewrite list_lookup_fmap, ?Hg, ?Hj; cbn; f_equal.
Qed.

Lemma columns_of_fields `{!TablesLaws RB Arr} batch f c :
  (f, c) ∈ columns_of batch -> f ∈ s_fields (t_schema batch) /\ arr_type c = f_type f.
Proof.
  intros Hin. pose proof (columns_fit batch) as Hf. rewrite Forall_forall in Hf. destruct (Hf _ Hin) as (Ht & _).
  split; [|done]. unfold columns_of in Hin. apply list_elem_of_In, in_combine_l in Hin. by apply list_elem_of_In.
Qed.

(** The router asks for columns that exist and hold text, so a batch with distinct
    names is refused only for a text that is no JSON or a null that a field forbids. *)
Theorem routed_batch_refusals `{!TablesLaws RB Arr, Sig : !Arrow RB Schema Row} (batch : RB) signal candidates e :
  rb_schema batch = t_schema batch -> NoDup (map f_name (s_fields (t_schema batch))) ->
  texts_small candidates (columns_of batch) ->
  prepare_batch is_string_column transform_to_variant true signal batch candidates = Err e ->
  exists f c rows, (f, c) ∈ columns_of batch /\ f_name f ∈ candidates /\ string_rows c = Some rows /\
    ((e = PVariantEncoding "invalid JSON payload" /\ exists text, Some text ∈ rows /\ text_refused text) \/
     (e = PArrow /\ f_nullable f = false /\ exists row, row ∈ rows /\ row_null row)).
Proof.
  intros Hsch Hnd Hs. unfold prepare_batch. cbn [negb]. rewrite Hsch. set (columns := List.filter _ candidates).
  assert (Hcol : forall name, name ∈ columns -> name ∈ candidates /\ is_string_column (t_schema batch) name = true).
  { intros name Hin. unfold columns in Hin. apply list_elem_of_In, filter_In in Hin as [Hin Hb]. split; [by apply list_elem_of_In | done]. }
  case_bool_decide; [done|]. assert (Hs' : texts_small columns (columns_of batch)).
  { intros f c rows Hin Hn. apply (Hs f c rows Hin). by apply Hcol. }
  pose proof (transform_to_variant_spec batch columns Hs') as Ht. destruct (transform_to_variant batch columns) as [b|e']; [done|].
  intros [= <-]. destruct Ht as [(_ & name & Hin & Hno)|(f & c & Hin & Hn & Hr)].
  - destruct (Hcol name Hin) as [_ Hb]. unfold is_string_column in Hb. destruct (index_of _ name) as [i|] eqn:Ei; [|done].
    destruct (index_of_Some _ _ _ Ei) as (g & Hg & Hgn). destruct (Hno g); [by eapply list_elem_of_lookup_2 | done].
  - destruct (Hcol _ Hn) as [Hc Hb]. destruct (columns_of_fields _ _ _ Hin) as [Hf Hty].
    destruct Hr as [(Hu & Hl & _)|(rows & Hr & Hx)]; [|by exists f, c, rows].
    destruct (candidate_is_text _ _ _ Hnd Hb Hf eq_refl); congruence.
Qed.

End Columns.

(** ** A concrete table *)

Module VariantColumnsDemo.

Inductive TArr : Type :=
| TInts (values : list N)
| TStrings (is_large : bool) (rows : list (option bytes))
| TBinary (values : list bytes)
| TNulls (t : DataType) (n : N)
| TStruct (fields : list Field) (children : list TArr) (nulls : option (list bool)) (len : N).

Definition ta_type (c : TArr) : DataType :=
  match c with
  | TInts _ => Scalar 0 | TStrings is_large _ => Scalar (if is_large then 2 else 1) | TBinary _ => Scalar 3 | TNulls t _ => t
  | TStruct fields _ _ _ => Struct fields
  end.

Definition ta_len (c : TArr) : N :=
  match c with
  | TInts vs => N.of_nat (length vs) | TStrings _ rows => N.of_nat (length rows) | TBinary vs => N.of_nat (length vs) | TNulls _ n => n
  | TStruct _ _ _ len => len
  end.

Definition ta_nulls (c : TArr) : N :=
  match c with
  | TStrings _ rows => N.of_nat (length (List.filter (fun row => bool_decide (row = None)) rows))
  | TStruct _ _ (Some bs) _ => invalid_rows bs
  | TNulls _ n => n
  | _ => 0
  end.

Definition tfits (rows : N) (f : Field) (c : TArr) : Prop :=
  ta_type c = f_type f /\ ta_len c = rows /\ (f_nullable f = false -> ta_nulls c = 0).

Record TBatch := mkTBatch {
  tb_schema : Schema; tb_cols : list TArr; tb_rows : N;
  tb_ok : Forall2 (tfits tb_rows) (s_fields tb_schema) tb_cols }.

Definition tb_new (s : Schema) (cs : list TArr) : option TBatch :=
  match cs with
  | [] => None
  | c :: _ =>
      match decide (Forall2 (tfits (ta_len c)) (s_fields s) cs) with
      | left Hok => Some (mkTBatch s cs (ta_len c) Hok)
      | right _ => None
      end
  end.

#[export] Instance tables : Tables TBatch TArr := {
  arr_type := ta_type; arr_len := ta_len; arr_null_count := ta_nulls;
  new_null_array := TNulls;
  t_schema := tb_schema; t_columns := tb_cols; t_rows := tb_rows;
  t_try_new := tb_new }.

#[export] Instance tables_laws : TablesLaws TBatch TArr.
Proof.
  split; try done; [by intros [] | |].
  - intros s cs b. cbn. unfold tb_new. destruct cs as [|c cs]; [done|]. destruct (decide _) as [Hok|]; [|done].
    intros [= <-]. cbn. split_and!; [done..|]. intros c' Hc'.
    apply list_elem_of_lookup in Hc' as [i Hi]. destruct (Forall2_lookup_r _ _ _ _ _ Hok Hi) as (f & _ & _ & Hl & _). done.
  - intros s cs rows Hne Hfit. cbn. unfold tb_new. destruct cs as [|c cs]; [done|].
    assert (Hl : ta_len c = rows) by (inversion_clear Hfit as [|? ? ? ? Hc _]; by destruct Hc as (_ & Hl & _)).
    rewrite Hl. destruct (decide _) as [Hok|Hn]; [done | by destruct Hn].
Qed.

Definition rows_of (large : bool) (c : TArr) : option (list (option bytes)) :=
  match c with
  | TStrings is_large rows => if Bool.eqb is_large large then Some rows else None
  | TNulls _ n => Some (replicate (N.to_nat n) None)
  | _ => None
  end.

#[export] Instance variant_arrays : VariantArrays TBatch TArr := {
  utf8 := Scalar 1; large_utf8 := Scalar 2; binary := Scalar 3;
  as_string_array := rows_of false; as_large_string_array := rows_of true;
  binary_array := TBinary;
  binary_values := fun c => match c with TBinary vs => vs | _ => [] end;
  struct_array := fun fields children nulls =>
    Some (TStruct fields children nulls (match children with c :: _ => ta_len c | [] => 0 end));
  struct_parts := fun c => match c with TStruct _ children nulls _ => Some (children, nulls) | _ => None end }.

#[export] Instance variant_arrays_laws : VariantArraysLaws TBatch TArr.
Proof.
  split.
  - intros [|[] rows| |t n|]; try done; intros _; cbn; eexists; (split; [done|]); rewrite ?length_replicate; cbn; lia.
  - intros [|[] rows| |t n|]; try done; intros _; cbn; eexists; (split; [done|]); rewrite ?length_replicate; cbn; lia.
  - done.
  - intros fields arrays nulls rows Hne Hf Hb. cbn. eexists. split; [done|]. split_and!; [done | | done..].
    destruct Hf as [|f c ? ? (_ & Hl & _)]; [done | exact Hl].
Qed.

#[local] Existing Instances Variant.Demo.serde Variant.Demo.serde_laws.

(** Three rows, of which the second has no attributes. *)
Definition logs_schema (nullable : bool) : Schema :=
  mkSchema [mkField "id" (Scalar 0) false ∅; mkField "attributes" (Scalar 1) nullable ∅] {[ "k" := "v" ]}%string.

Definition logs (nullable : bool) : option TBatch :=
  tb_new (logs_schema nullable) [TInts [7; 8; 9]; TStrings false [Some Variant.Demo.text; Some null_text; Some [104; 105]]].

Definition batch_of (b : option TBatch) : TBatch :=
  match b with Some b => b | None => mkTBatch (mkSchema [] ∅) [] 0 (List.Forall2_nil _) end.

Definition cells_of (r : result TBatch ParquetSinkError) : option (list (option (bytes * bytes))) :=
  match r with Ok b => match t_columns b with [_; c] => variant_rows c | _ => None end | Err _ => None end.


(** A field that forbids nulls cannot hold the null of a [null] text. *)
Example null_refused : transform_to_variant (batch_of (logs false)) ["attributes"%string] = Err PArrow.
Proof. vm_compute. reflexivity. Qed.

End VariantColumnsDemo.
