(* ===== verification/StarRocks.v ===== *)
(** The StarRocks sink: crates/starrocks-sink/src/lib.rs.

    The stream-load SDK and the cluster behind it are one parameter: the calls
    on labels, over an opaque server state.  Texts are UTF-8 bytes; a table's
    name is the list of its characters. *)

From S2P Require Import Prelude Pipeline Arrow Signal Frame Ring SinkBuffer Text.
Local Open Scope N_scope.

(** ** Labels *)

Definition MAX_STREAM_LOAD_LABEL_LEN : nat := 128.
Definition MAX_ABORTED_LABEL_PROBES_PER_ATTEMPT : nat := 64.
Definition MAX_TRACKED_FALLBACK_LABELS : nat := 1024.

Definition is_ascii_alphanumeric (c : N) : bool :=
  ((48 <=? c) && (c <=? 57)) || ((65 <=? c) && (c <=? 90)) || ((97 <=? c) && (c <=? 122)).

Definition label_char (c : N) : bool := is_ascii_alphanumeric c || (c =? 95) || (c =? 45).

Definition sanitize (table : list N) : bytes := map (fun c => if label_char c then c else 95) table.

Definition label_suffix (id : LeaseId) : bytes :=
  [95] ++ hex_fixed 16 (id_instance id) ++ [95] ++ text (as_str (id_signal id)) ++ [95] ++ decimal (id_first_seq id) ++ [95] ++ decimal (id_last_seq id).

(** [sha256_hex16] is the first 16 hex digits of a table's SHA-256. *)
Definition format_lease_label (sha256_hex16 : list N -> bytes) (table : list N) (id : LeaseId) : bytes :=
  let suffix := label_suffix id in
  let sanitized_table := sanitize table in
  let candidate := text "dl_" ++ sanitized_table ++ suffix in
  if (length candidate <=? MAX_STREAM_LOAD_LABEL_LEN)%nat && bool_decide (sanitized_table = table) then candidate
  else
    let overhead := (3 + 1 + 16 + length suffix)%nat in
    let max_prefix_len := (MAX_STREAM_LOAD_LABEL_LEN - overhead)%nat in
    let prefix_len := Nat.min (length sanitized_table) max_prefix_len in
    text "dl_" ++ take prefix_len sanitized_table ++ [95] ++ sha256_hex16 table ++ suffix.

Definition format_attempt_lease_label (base_label : bytes) (attempt : N) : bytes :=
  let suffix := text "_a" ++ decimal (N.max attempt 1) in
  let max_base_len := (MAX_STREAM_LOAD_LABEL_LEN - length suffix)%nat in
  take (Nat.min (length base_label) max_base_len) base_label ++ suffix.

(** ** Errors *)

Inductive StreamLoadError : Type :=
| SleNetwork | SleIo | SleJson | SleUrlParse
| SleTransaction (msg : bytes)
| SleStarRocksFailure (status message : bytes).

Definition lowercase (s : bytes) : bytes := map to_ascii_lowercase s.

Definition is_label_already_exists (err : StreamLoadError) : bool :=
  match err with
  | SleStarRocksFailure status message =>
      eq_ignore_ascii_case (trim status) (text "Label Already Exists")
      || eq_ignore_ascii_case (trim status) (text "LABEL_ALREADY_EXISTS")
      || bytes_contain (lowercase message) (text "label already exists")
  | SleTransaction msg => bytes_contain (lowercase msg) (text "label already exists")
  | _ => false
  end.

Definition contains_any (s : bytes) (words : list string) : bool := existsb (fun w => bytes_contain s (text w)) words.

Definition fatal_transaction_words : list string :=
  ["access denied"; "unauthorized"; "authentication"; "https scheme requires"; "no configured load urls"]%string.

Definition fatal_failure_words : list string :=
  ["access denied"; "authentication failed"; "permission denied"; "unauthorized"]%string.

Definition transient_failure_words : list string :=
  ["timeout"; "timed out"; "service unavailable"; "too many versions"; "too manyversions"; "memory limit exceeded"; "mem limit exceeded";
   "no alive backend"; "backend not found"; "system busy"; "overload"; "try again"; "rpc failed"; "connection"]%string.

(** The class of an HTTP status code at the head of a failure's status. *)
Definition classify_http_code (reason : string) (code : N) : FailureClass :=
  if (code =? 401) || (code =? 403) then Fatal reason
  else if (code =? 408) || (code =? 429) || ((500 <=? code) && (code <=? 599)) then Transient
  else if (400 <=? code) && (code <=? 499) then Rejected reason
  else Transient.

Definition classify_stream_load_error (to_string : StreamLoadError -> string) (err : StreamLoadError) : FailureClass :=
  let reason := to_string err in
  match err with
  | SleNetwork | SleIo | SleJson => Transient
  | SleUrlParse => Fatal reason
  | SleTransaction msg =>
      let lower := lowercase msg in
      if contains_any lower fatal_transaction_words then Fatal reason
      else if bytes_contain lower (text "invalid ") then Rejected reason
      else Transient
  | SleStarRocksFailure status message =>
      let status_trimmed := trim status in
      match parse_unsigned u16_max (first_word status_trimmed) with
      | Some code => classify_http_code reason code
      | None =>
          let status_lower := lowercase status_trimmed in
          let msg_lower := lowercase message in
          if contains_any msg_lower fatal_failure_words then Fatal reason
          else if bool_decide (status_lower = text "publish timeout") || bool_decide (status_lower = text "internal error")
                  || contains_any msg_lower transient_failure_words
          then Transient
          else Rejected reason
      end
  end.

(** ** Load states *)

Record LoadStatus := mkLoadStatus { ls_status : bytes; ls_state : option bytes; ls_existing_job_status : option bytes }.

Definition is_load_status_ok (status : bytes) : bool :=
  eq_ignore_ascii_case (trim status) (text "Success") || eq_ignore_ascii_case (trim status) (text "OK").

Definition state_is_one_of (names : list string) (state existing_job_status : option bytes) : bool :=
  let matches (val : bytes) := existsb (fun n => eq_ignore_ascii_case (trim val) (text n)) names in
  from_option matches false state || from_option matches false existing_job_status.

Definition is_load_state_committed := state_is_one_of ["VISIBLE"; "COMMITTED"; "FINISHED"]%string.
Definition is_load_state_prepared := state_is_one_of ["PREPARE"; "PREPARED"]%string.
Definition is_load_state_aborted := state_is_one_of ["ABORTED"; "CANCELLED"; "CANCELED"]%string.

Definition committed_status (r : LoadStatus) : bool :=
  is_load_status_ok (ls_status r) && is_load_state_committed (ls_state r) (ls_existing_job_status r).
Definition prepared_status (r : LoadStatus) : bool :=
  is_load_status_ok (ls_status r) && is_load_state_prepared (ls_state r) (ls_existing_job_status r).
Definition aborted_status (r : LoadStatus) : bool := is_load_state_aborted (ls_state r) (ls_existing_job_status r).

(** The stream-load manager's calls. *)
Class StreamLoad (Srv : Type) := {
  send_single_batch : Srv -> bytes -> bytes -> Srv * result unit StreamLoadError;
  get_load_status : Srv -> bytes -> Srv * result LoadStatus StreamLoadError;
  begin_transaction : Srv -> bytes -> Srv * result N StreamLoadError;
  load_transaction_data : Srv -> bytes -> bytes -> Srv * result unit StreamLoadError;
  prepare_transaction : Srv -> bytes -> Srv * result unit StreamLoadError;
  commit_transaction : Srv -> bytes -> Srv * result unit StreamLoadError;
  rollback_transaction : Srv -> bytes -> Srv * result unit StreamLoadError;
  (** [{:?}] of an optional text, in the errors. *)
  debug_text : option bytes -> bytes;
}.

Section Sends.
Context {Srv : Type} `{StreamLoad Srv}.

Definition uncommitted_error (version : string) (label : bytes) (r : LoadStatus) : StreamLoadError :=
  SleTransaction (text "StarRocks " ++ text version ++ text " label '" ++ label ++ text "' already exists in uncommitted state (status='"
    ++ ls_status r ++ text "', state=" ++ debug_text (ls_state r) ++ text ", existing_job_status=" ++ debug_text (ls_existing_job_status r) ++ text ")").

Definition confirm_v1_label_committed (srv : Srv) (label : bytes) : Srv * result bool StreamLoadError :=
  match get_load_status srv label with
  | (srv, Ok r) =>
      if committed_status r then (srv, Ok true)
      else if aborted_status r then (srv, Ok false)
      else (srv, Err (uncommitted_error "V1" label r))
  | (srv, Err e) => (srv, Err e)
  end.

Definition confirm_or_complete_v2_label (srv : Srv) (label : bytes) : Srv * result bool StreamLoadError :=
  match get_load_status srv label with
  | (srv, Ok r) =>
      if committed_status r then (srv, Ok true)
      else if prepared_status r then
        match commit_transaction srv label with
        | (srv, Ok _) => (srv, Ok true)
        | (srv, Err e) =>
            if is_label_already_exists e then
              match get_load_status srv label with
              | (srv, Ok recheck) => if committed_status recheck then (srv, Ok true) else (srv, Err (uncommitted_error "V2" label recheck))
              | (srv, Err e) => (srv, Err e)
              end
            else (srv, Err e)
        end
      else if aborted_status r then (srv, Ok false)
      else
        let '(srv, _) := rollback_transaction srv label in
        (srv, Err (uncommitted_error "V2" label r))
  | (srv, Err e) => (srv, Err e)
  end.

(** The label of an attempt: the lease's own, or a numbered one. *)
Definition attempt_label (label : bytes) (fallback_idx : N) : bytes :=
  if fallback_idx =? 0 then label else format_attempt_lease_label label fallback_idx.

Abbreviation Sent := (Srv * N * result unit StreamLoadError)%type.

(** [send_v1] from the active label on; [more] more probes are allowed. *)
Fixpoint v1_loop (label payload : bytes) (more : nat) (srv : Srv) (fallback_idx : N) (active_label : bytes) : Sent :=
  match send_single_batch srv active_label payload with
  | (srv, Ok _) => (srv, fallback_idx, Ok tt)
  | (srv, Err e) =>
      if is_label_already_exists e then
        match confirm_v1_label_committed srv active_label with
        | (srv, Err e) => (srv, fallback_idx, Err e)
        | (srv, Ok true) => (srv, fallback_idx, Ok tt)
        | (srv, Ok false) =>
            match more with
            | O => (srv, fallback_idx, Err e)
            | S more =>
                let fallback_idx := fallback_idx +u32 1 in
                let next_label := format_attempt_lease_label label fallback_idx in
                if bool_decide (next_label = active_label) then (srv, fallback_idx, Err e)
                else v1_loop label payload more srv fallback_idx next_label
            end
        end
      else (srv, fallback_idx, Err e)
  end.

Definition send_v1 (label : bytes) (srv : Srv) (fallback_idx : N) (payload : bytes) : Sent :=
  v1_loop label payload (pred MAX_ABORTED_LABEL_PROBES_PER_ATTEMPT) srv fallback_idx (attempt_label label fallback_idx).

(** The steps after a transaction has begun. *)
Definition v2_transaction (payload : bytes) (srv : Srv) (fallback_idx : N) (active_label : bytes) : Sent :=
  match load_transaction_data srv active_label payload with
  | (srv, Err e) =>
      let '(srv, _) := rollback_transaction srv active_label in (srv, fallback_idx, Err e)
  | (srv, Ok _) =>
      match prepare_transaction srv active_label with
      | (srv, Err e) =>
          let '(srv, _) := rollback_transaction srv active_label in (srv, fallback_idx, Err e)
      | (srv, Ok _) =>
          match commit_transaction srv active_label with
          | (srv, Ok _) => (srv, fallback_idx, Ok tt)
          | (srv, Err e) =>
              if is_label_already_exists e then
                match confirm_or_complete_v2_label srv active_label with
                | (srv, Err e) => (srv, fallback_idx, Err e)
                | (srv, Ok true) => (srv, fallback_idx, Ok tt)
                | (srv, Ok false) => (srv, fallback_idx, Err e)
                end
              else (srv, fallback_idx, Err e)
          end
      end
  end.

Fixpoint v2_loop (label payload : bytes) (more : nat) (srv : Srv) (fallback_idx : N) (active_label : bytes) : Sent :=
  match begin_transaction srv active_label with
  | (srv, Ok _) => v2_transaction payload srv fallback_idx active_label
  | (srv, Err e) =>
      if is_label_already_exists e then
        match confirm_or_complete_v2_label srv active_label with
        | (srv, Err e) => (srv, fallback_idx, Err e)
        | (srv, Ok true) => (srv, fallback_idx, Ok tt)
        | (srv, Ok false) =>
            match more with
            | O => (srv, fallback_idx, Err e)
            | S more =>
                let fallback_idx := fallback_idx +u32 1 in
                let next_label := format_attempt_lease_label label fallback_idx in
                if bool_decide (next_label = active_label) then (srv, fallback_idx, Err e)
                else v2_loop label payload more srv fallback_idx next_label
            end
        end
      else (srv, fallback_idx, Err e)
  end.

Definition send_v2 (label : bytes) (srv : Srv) (fallback_idx : N) (payload : bytes) : Sent :=
  v2_loop label payload (pred MAX_ABORTED_LABEL_PROBES_PER_ATTEMPT) srv fallback_idx (attempt_label label fallback_idx).

Inductive TransactionMode : Type := V1 | V2.

Definition send_mode (mode : TransactionMode) : bytes -> Srv -> N -> bytes -> Sent :=
  match mode with V1 => send_v1 | V2 => send_v2 end.

End Sends.

(** ** Labels tell leases apart *)

Lemma hex_fixed_free w n c : c = 95 -> c ∉ hex_fixed w n.
Proof.
  intros ->. induction w as [|w IH]; cbn [hex_fixed]; [apply not_elem_of_nil|]. apply not_elem_of_cons. split; [|done].
  intros E. pose proof (hex_digit_range _ (nibble_range (N.shiftr n (4 * N.of_nat w)))). lia.
Qed.

Lemma signal_text_free s : 95 ∉ text (as_str s).
Proof. apply (bool_decide_unpack _). by destruct s. Qed.

Lemma signal_text_inj s s' : text (as_str s) = text (as_str s') -> s = s'.
Proof. by destruct s, s'. Qed.

(** The parts of a label after its table. *)
Lemma label_suffix_inj X Y id id' : id_instance id <= u64_max -> id_instance id' <= u64_max ->
  X ++ label_suffix id = Y ++ label_suffix id' -> id = id'.
Proof.
  intros Hi Hi'. unfold label_suffix. cbn [app]. intros E.
  repeat (rewrite app_comm_cons in E; rewrite app_assoc in E).
  apply app_sep_inj in E as [E Hl]; [|by apply decimal_free; lia..].
  apply app_sep_inj in E as [E Hf]; [|by apply decimal_free; lia..].
  apply app_sep_inj in E as [E Hs]; [|apply signal_text_free..].
  apply app_sep_inj in E as [_ Hx]; [|by apply hex_fixed_free..].
  apply decimal_inj in Hl, Hf. apply signal_text_inj in Hs. apply hex_fixed_inj in Hx; [|unfold u64_max in *; cbn; lia..].
  destruct id, id'. cbn in *. by subst.
Qed.

Section Labels.
Variable sha256_hex16 : list N -> bytes.

Lemma lease_label_suffix table id : exists X, format_lease_label sha256_hex16 table id = X ++ label_suffix id.
Proof.
  unfold format_lease_label. destruct (_ && _); [exists (text "dl_" ++ sanitize table); by rewrite <- app_assoc|].
  set (k := Nat.min _ _). exists (text "dl_" ++ take k (sanitize table) ++ [95] ++ sha256_hex16 table). by rewrite <- !app_assoc.
Qed.

(** The identifiers of a lease are 64-bit. *)
Definition id_in_range (id : LeaseId) : Prop := id_instance id <= u64_max /\ id_first_seq id <= u64_max /\ id_last_seq id <= u64_max.

Hypothesis sha_length : forall t, length (sha256_hex16 t) = 16%nat.
Hypothesis sha_chars : forall t, Forall (fun c => label_char c = true) (sha256_hex16 t).

Lemma label_suffix_length id : id_in_range id -> (length (label_suffix id) <= 67)%nat.
Proof.
  intros (_ & Hf & Hl). unfold label_suffix. rewrite !length_app, length_hex_fixed. cbn [length].
  pose proof (length_decimal (id_first_seq id) 20 ltac:(unfold u64_max in *; cbn; lia) ltac:(lia)).
  pose proof (length_decimal (id_last_seq id) 20 ltac:(unfold u64_max in *; cbn; lia) ltac:(lia)).
  assert (length (text (as_str (id_signal id))) <= 7)%nat by (destruct (id_signal id); cbn; lia). lia.
Qed.

Lemma decimal_label_chars n : Forall (fun c => label_char c = true) (decimal n).
Proof.
  eapply Forall_impl; [apply decimal_digits|]. intros c Hc. cbn in Hc. unfold label_char, is_ascii_alphanumeric.
  rewrite (proj2 (N.leb_le 48 c)), (proj2 (N.leb_le c 57)) by lia. done.
Qed.

Lemma hex_label_chars w n : Forall (fun c => label_char c = true) (hex_fixed w n).
Proof.
  induction w as [|w IH]; cbn [hex_fixed]; constructor; [|done].
  pose proof (hex_digit_range _ (nibble_range (N.shiftr n (4 * N.of_nat w)))) as Hr. set (c := hex_digit _) in *. clearbody c.
  unfold label_char, is_ascii_alphanumeric. destruct Hr.
  - rewrite (proj2 (N.leb_le 48 c)), (proj2 (N.leb_le c 57)) by lia. done.
  - rewrite (proj2 (N.leb_le 97 c)), (proj2 (N.leb_le c 122)) by lia. cbn. by rewrite !orb_true_r.
Qed.

Lemma sanitize_chars table : Forall (fun c => label_char c = true) (sanitize table).
Proof. unfold sanitize. apply List.Forall_map, Forall_forall. intros c _. destruct (label_char c) eqn:E; [by rewrite E | done]. Qed.

Lemma label_suffix_chars id : Forall (fun c => label_char c = true) (label_suffix id).
Proof.
  unfold label_suffix. rewrite !Forall_app. split_and!; try (by repeat constructor); [apply hex_label_chars | | apply decimal_label_chars..].
  destruct (id_signal id); apply (bool_decide_unpack _); reflexivity.
Qed.

(** The label of a lease has at most 128 characters, all of the
    alphabet StarRocks accepts whatever the table's name is, and says which
    lease it is: two leases, of any tables, never have the same label. *)
Theorem lease_labels table id table' id' : id_in_range id -> id_in_range id' ->
  (length (format_lease_label sha256_hex16 table id) <= MAX_STREAM_LOAD_LABEL_LEN)%nat /\
  Forall (fun c => label_char c = true) (format_lease_label sha256_hex16 table id) /\
  (format_lease_label sha256_hex16 table id = format_lease_label sha256_hex16 table' id' -> id = id').
Proof.
  intros Hr Hr'. pose proof (label_suffix_length id Hr) as Hs. split_and!.
  - unfold format_lease_label. destruct (Nat.leb_spec (length (text "dl_" ++ sanitize table ++ label_suffix id)) MAX_STREAM_LOAD_LABEL_LEN) as [Hle|_].
    + case_bool_decide; [exact Hle|]. cbn [andb]. rewrite !length_app, length_take, sha_length. change (length (text "dl_")) with 3%nat. unfold MAX_STREAM_LOAD_LABEL_LEN in *. cbn [length]. lia.
    + cbn [andb]. rewrite !length_app, length_take, sha_length. change (length (text "dl_")) with 3%nat. unfold MAX_STREAM_LOAD_LABEL_LEN in *. cbn [length]. lia.
  - unfold format_lease_label. destruct (_ && _).
    + rewrite !Forall_app. split_and!; [by repeat constructor | apply sanitize_chars | apply label_suffix_chars].
    + cbv zeta. rewrite !Forall_app. split_and!; [by repeat constructor | apply Forall_take, sanitize_chars | by repeat constructor | apply sha_chars | apply label_suffix_chars].
  - destruct (lease_label_suffix table id) as [X ->], (lease_label_suffix table' id') as [Y ->]. apply label_suffix_inj; [apply Hr | apply Hr'].
Qed.

End Labels.

(** The labels of a lease's attempts are all different. *)
Lemma attempt_suffix label i : i <> 0 -> exists X, attempt_label label i = X ++ 95 :: 97 :: decimal i.
Proof.
  intros Hi. unfold attempt_label. destruct (N.eqb_spec i 0); [done|]. unfold format_attempt_lease_label. cbv zeta.
  rewrite N.max_l by lia. eexists. reflexivity.
Qed.

Lemma attempt_label_inj sha table id i i' :
  let label := format_lease_label sha table id in attempt_label label i = attempt_label label i' -> i = i'.
Proof.
  cbv zeta. set (label := format_lease_label sha table id).
  assert (Hfree : forall k, 95 ∉ 97 :: decimal k) by (intros k; apply not_elem_of_cons; split; [done | apply decimal_free; lia]).
  assert (Hbase : exists X d, label = X ++ 95 :: decimal d).
  { destruct (lease_label_suffix sha table id) as [X E]. unfold label. rewrite E. unfold label_suffix. cbn [app]. exists (X ++ 95 :: hex_fixed 16 (id_instance id) ++ 95 :: text (as_str (id_signal id)) ++ 95 :: decimal (id_first_seq id)), (id_last_seq id).
    repeat (cbn [app]; rewrite <- ?app_assoc). done. }
  destruct Hbase as (X & d & Hb). assert (Hne : forall k, k <> 0 -> attempt_label label k <> label).
  { intros k Hk E. destruct (attempt_suffix label k Hk) as [Y Ey]. rewrite Ey, Hb in E. apply app_sep_inj in E as [_ E]; [|done|apply decimal_free; lia].
    pose proof (decimal_digits d) as Hd. rewrite <- E in Hd. inversion Hd. lia. }
  destruct (N.eq_dec i 0) as [->|Hi], (N.eq_dec i' 0) as [->|Hi']; [done | | |].
  - intros E. by destruct (Hne i' Hi').
  - intros E. by destruct (Hne i Hi).
  - destruct (attempt_suffix label i Hi) as [Y ->], (attempt_suffix label i' Hi') as [Y' ->]. intros E.
    apply app_sep_inj in E as [_ E]; [|done..]. injection E as E. by apply decimal_inj.
Qed.

(** ** A lease is committed under one label only *)

Inductive LabelState : Type := Absent | Open | Committed | Aborted.

#[export] Instance LabelState_eq_dec : EqDecision LabelState.
Proof. solve_decision. Defined.

(** What can happen to a label between two readings: an open transaction ends, and
    an aborted one is forgotten. *)
Definition moves (s s' : LabelState) : Prop :=
  s' = s \/ (s = Open /\ (s' = Committed \/ s' = Aborted)) \/ (s = Aborted /\ s' = Absent).

(** The cluster's contract on labels: a transaction is begun under a label that has
    none or whose transaction was aborted, so an aborted label may be used again;
    a committed label stays committed; an answer tells the
    truth about its label.  A call may have any other effect on its own label and still fail,
    and any open transaction may end at any call. *)
Class StreamLoadContract (Srv : Type) `{StreamLoad Srv} := {
  label_state : Srv -> bytes -> LabelState;
  send_contract srv l p : let '(srv', r) := send_single_batch srv l p in
    (forall l', l' <> l -> moves (label_state srv l') (label_state srv' l')) /\
    (label_state srv l = Committed -> label_state srv' l = Committed) /\
    (r = Ok tt -> label_state srv' l = Committed);
  begin_contract srv l : let '(srv', r) := begin_transaction srv l in
    (forall l', l' <> l -> moves (label_state srv l') (label_state srv' l')) /\
    (label_state srv l = Committed -> label_state srv' l = Committed) /\
    (is_ok r = true -> label_state srv l = Absent \/ label_state srv l = Aborted);
  status_contract srv l : let '(srv', r) := get_load_status srv l in
    (forall l', moves (label_state srv l') (label_state srv' l')) /\
    (forall st, r = Ok st -> (committed_status st = true -> label_state srv' l = Committed) /\ (aborted_status st = true -> label_state srv' l = Aborted));
  commit_contract srv l : let '(srv', r) := commit_transaction srv l in
    (forall l', moves (label_state srv l') (label_state srv' l')) /\ (r = Ok tt -> label_state srv' l = Committed);
  load_contract srv l p : forall l', moves (label_state srv l') (label_state (load_transaction_data srv l p).1 l');
  prepare_contract srv l : forall l', moves (label_state srv l') (label_state (prepare_transaction srv l).1 l');
  rollback_contract srv l : forall l', moves (label_state srv l') (label_state (rollback_transaction srv l).1 l');
}.

Lemma moves_committed s s' : moves s s' -> s = Committed -> s' = Committed.
Proof. intros [->|[[-> _]|[-> _]]]; done. Qed.

Section ExactlyOnce.
Context {Srv : Type} `{StreamLoadContract Srv}.
(** The labels of one lease's attempts. *)
Variable label : bytes.
Hypothesis labels_differ : forall i i', attempt_label label i = attempt_label label i' -> i = i'.

Abbreviation chain := (attempt_label label).

Definition idle (s : LabelState) : Prop := s = Absent \/ s = Aborted.

Lemma moves_idle s s' : moves s s' -> idle s -> idle s'.
Proof. unfold idle. intros [->|[[-> _]|[-> ->]]] [E|E]; try discriminate E; auto. Qed.

(** No attempt but the [k]-th has a transaction. *)
Definition only (srv : Srv) (k : N) : Prop := forall i, i <> k -> idle (label_state srv (chain i)).

Lemma only_moves srv srv' k : (forall i, i <> k -> moves (label_state srv (chain i)) (label_state srv' (chain i))) -> only srv k -> only srv' k.
Proof. intros Hm Ho i Hi. eapply moves_idle; [by apply Hm | by apply Ho]. Qed.

(** A call on the label of attempt [k]. *)
Lemma only_opens srv srv' k : (forall l', l' <> chain k -> moves (label_state srv l') (label_state srv' l')) -> only srv k -> only srv' k.
Proof. intros Hm. apply only_moves. intros i Hi. apply Hm. by intros E%labels_differ. Qed.

Lemma only_next srv k : only srv k -> idle (label_state srv (chain k)) -> only srv (k + 1).
Proof. intros Ho Hk i Hi. destruct (N.eq_dec i k) as [->|Hne]; [done | by apply Ho]. Qed.

(** What an attempt leaves: no transaction but under the label it ended with, and a
    success is a commit there. *)
Definition attempt_done (out : Srv * N * result unit StreamLoadError) : Prop :=
  let '(srv', k', r) := out in
  k' <= u32_max /\ only srv' k' /\ (r = Ok tt -> label_state srv' (chain k') = Committed).

(** Confirming the label of attempt [k]. *)
Definition confirmed (k : N) (out : Srv * result bool StreamLoadError) : Prop :=
  let '(srv', r) := out in
  only srv' k /\ (r = Ok true -> label_state srv' (chain k) = Committed) /\ (r = Ok false -> idle (label_state srv' (chain k))).

Lemma confirm_v2_ok srv k : only srv k -> confirmed k (confirm_or_complete_v2_label srv (chain k)).
Proof.
  intros Ho. unfold confirm_or_complete_v2_label. pose proof (status_contract srv (chain k)) as Hs.
  destruct (get_load_status srv (chain k)) as [srv1 [st|e]]; destruct Hs as [Hm Hst];
    (assert (Ho1 : only srv1 k) by (apply (only_moves srv); [intros; apply Hm | done])); [|by split_and!].
  destruct (Hst st eq_refl) as [Hcm Hab].
  destruct (committed_status st); [split_and!; [done | intros _; by apply Hcm | done]|].
  destruct (prepared_status st).
  - pose proof (commit_contract srv1 (chain k)) as Hcc.
    destruct (commit_transaction srv1 (chain k)) as [srv2 [[]|e]]; destruct Hcc as [Hm2 Hok];
      (assert (Ho2 : only srv2 k) by (apply (only_moves srv1); [intros; apply Hm2 | done]));
      [split_and!; [done | intros _; by apply Hok | done]|].
    destruct (is_label_already_exists e); [|by split_and!].
    pose proof (status_contract srv2 (chain k)) as Hs3.
    destruct (get_load_status srv2 (chain k)) as [srv3 [st3|e3]]; destruct Hs3 as [Hm3 Hst3];
      (assert (Ho3 : only srv3 k) by (apply (only_moves srv2); [intros; apply Hm3 | done])); [|by split_and!].
    destruct (Hst3 st3 eq_refl) as [Hcm3 _]. destruct (committed_status st3); split_and!; try done. intros _. by apply Hcm3.
  - destruct (aborted_status st); [split_and!; [done..|]; intros _; right; by apply Hab|].
    pose proof (rollback_contract srv1 (chain k)) as Hr. destruct (rollback_transaction srv1 (chain k)) as [srv2 r2]. cbn in Hr.
    split_and!; [|done..]. apply (only_moves srv1); [intros; apply Hr | done].
Qed.

(** After an aborted label was confirmed, the next one. *)
Lemma next_label_ok (loop : Srv -> N -> bytes -> Srv * N * result unit StreamLoadError) srv k e :
  k <= u32_max -> only srv k -> idle (label_state srv (chain k)) ->
  (k + 1 <= u32_max -> only srv (k + 1) -> attempt_done (loop srv (k + 1) (chain (k + 1)))) ->
  attempt_done (let fallback_idx := k +u32 1 in
    let next_label := format_attempt_lease_label label fallback_idx in
    if bool_decide (next_label = chain k) then (srv, fallback_idx, Err e) else loop srv fallback_idx next_label).
Proof.
  intros Hmax Ho Hi Hl. cbv zeta. pose proof (only_next srv k Ho Hi) as Hn.
  assert (Hformat : forall i, i <> 0 -> format_attempt_lease_label label i = chain i) by (intros i Hi'; unfold attempt_label; by destruct (N.eqb_spec i 0)).
  destruct (N.eq_dec k u32_max) as [E|Hne].
  - unfold sat_add. rewrite N.min_r by lia. rewrite Hformat by done. rewrite bool_decide_true by (by rewrite E). rewrite <- E. by split_and!.
  - unfold sat_add. rewrite N.min_l by lia. rewrite Hformat by lia. case_bool_decide as Eq; [apply labels_differ in Eq; lia|].
    apply Hl; [lia | done].
Qed.

Lemma v2_transaction_ok p srv k : k <= u32_max -> only srv k -> attempt_done (v2_transaction p srv k (chain k)).
Proof.
  intros Hmax Ho. unfold v2_transaction.
  assert (Hrb : forall s e, only s k -> attempt_done (let '(srv', _) := rollback_transaction s (chain k) in (srv', k, Err e))).
  { intros s e Hs. pose proof (rollback_contract s (chain k)) as Hr. destruct (rollback_transaction s (chain k)) as [s' r']. cbn in Hr.
    split_and!; [done | | done]. apply (only_moves s); [intros; apply Hr | done]. }
  pose proof (load_contract srv (chain k) p) as Hl. destruct (load_transaction_data srv (chain k) p) as [srv1 [[]|e]]; cbn in Hl;
    (assert (Ho1 : only srv1 k) by (apply (only_moves srv); [intros; apply Hl | done])); [|by apply Hrb].
  pose proof (prepare_contract srv1 (chain k)) as Hp. destruct (prepare_transaction srv1 (chain k)) as [srv2 [[]|e]]; cbn in Hp;
    (assert (Ho2 : only srv2 k) by (apply (only_moves srv1); [intros; apply Hp | done])); [|by apply Hrb].
  pose proof (commit_contract srv2 (chain k)) as Hcc. destruct (commit_transaction srv2 (chain k)) as [srv3 [[]|e]]; destruct Hcc as [Hm Hok];
    (assert (Ho3 : only srv3 k) by (apply (only_moves srv2); [intros; apply Hm | done])); [split_and!; [done..|by intros _; apply Hok]|].
  destruct (is_label_already_exists e); [|by split_and!].
  pose proof (confirm_v2_ok srv3 k Ho3) as Hcf. destruct (confirm_or_complete_v2_label srv3 (chain k)) as [srv4 [[]|e2]]; destruct Hcf as (Ho4 & Ht & _);
    split_and!; try done. intros _. by apply Ht.
Qed.

Lemma v2_loop_ok p more : forall srv k, k <= u32_max -> only srv k -> attempt_done (v2_loop label p more srv k (chain k)).
Proof.
  induction more as [|more IH]; intros srv k Hmax Ho; cbn [v2_loop];
    (pose proof (begin_contract srv (chain k)) as Hs; destruct (begin_transaction srv (chain k)) as [srv1 [id|e]]; destruct Hs as (Hm & _ & _);
     assert (Ho1 : only srv1 k) by (by apply (only_opens srv)));
    try (by apply v2_transaction_ok);
    (destruct (is_label_already_exists e); [|by split_and!]);
    (pose proof (confirm_v2_ok srv1 k Ho1) as Hcf; destruct (confirm_or_complete_v2_label srv1 (chain k)) as [srv2 [[]|e2]]; destruct Hcf as (Ho2 & Ht & Hf));
    try (by split_and!); try (split_and!; [done..|by intros _; apply Ht]).
  apply (next_label_ok (v2_loop label p more)); [done..|by apply Hf|]. intros Hk Hn. by apply IH.
Qed.

(** The life of a lease in two-phase mode: its attempts, each from the index the last one left,
    and whatever the cluster does in between. *)
Inductive lease_life : Srv -> N -> Prop :=
| life_start srv : (forall i, label_state srv (chain i) = Absent) -> lease_life srv 0
| life_attempt srv k payload srv' k' r : lease_life srv k -> send_mode V2 label srv k payload = (srv', k', r) -> lease_life srv' k'
| life_elsewhere srv k srv' : lease_life srv k -> (forall i, moves (label_state srv (chain i)) (label_state srv' (chain i))) -> lease_life srv' k.

Lemma lease_life_only srv k : lease_life srv k -> k <= u32_max /\ only srv k.
Proof.
  induction 1 as [srv Hs|srv k p srv' k' r _ [Hmax Ho] E|srv k srv' _ [Hmax Ho] Hm].
  - split; [done|]. intros i _. left. apply Hs.
  - pose proof (v2_loop_ok p (pred MAX_ABORTED_LABEL_PROBES_PER_ATTEMPT) srv k Hmax Ho) as Hd.
    cbn [send_mode] in E. unfold send_v2 in E. rewrite E in Hd. destruct Hd as (? & ? & _). done.
  - split; [done|]. apply (only_moves srv); [intros; apply Hm | done].
Qed.

Lemma only_committed srv k i : only srv k -> label_state srv (chain i) = Committed -> i = k.
Proof. intros Ho Hc. destruct (N.eq_dec i k) as [|Hne]; [done|]. destruct (Ho i Hne) as [E|E]; congruence. Qed.

Lemma lease_committed_once srv k : lease_life srv k ->
  (forall i, label_state srv (chain i) = Committed -> i = k) /\
  forall payload srv' k' r, send_mode V2 label srv k payload = (srv', k', r) ->
    (forall i, label_state srv' (chain i) = Committed -> i = k') /\ (r = Ok tt -> label_state srv' (chain k') = Committed).
Proof.
  intros Hl. destruct (lease_life_only srv k Hl) as [Hmax Ho]. split; [intros i; by apply only_committed|].
  intros p srv' k' r E. pose proof (v2_loop_ok p (pred MAX_ABORTED_LABEL_PROBES_PER_ATTEMPT) srv k Hmax Ho) as Hd.
  cbn [send_mode] in E. unfold send_v2 in E. rewrite E in Hd. destruct Hd as (_ & Ho' & Hok). split; [intros i; by apply only_committed | done].
Qed.

End ExactlyOnce.

(** C19 (committed_at_most_once). On a cluster that keeps the contract on labels (a committed
    label stays so and cannot be begun again; an aborted one can), and as
    long as nobody else uses the lease's labels, the attempts of a lease in two-phase mode (V2, the
    mode documented as exactly-once), with answers lost and transactions ended at any point, each attempt
    starting from the index the last one left, commit under at most one label: the one
    the sink's index names.  An attempt that reports success leaves that label committed, and no
    other.  Nothing is claimed of V1, nor of a sink that has lost the index, as it does on a restart or
    when it tracks too many leases. *)
Theorem committed_at_most_once {Srv : Type} `{StreamLoadContract Srv} sha table id (srv : Srv) k :
  let label := format_lease_label sha table id in
  lease_life label srv k ->
  (forall i, label_state srv (attempt_label label i) = Committed -> i = k) /\
  forall payload srv' k' r, send_mode V2 label srv k payload = (srv', k', r) ->
    (forall i, label_state srv' (attempt_label label i) = Committed -> i = k') /\
    (r = Ok tt -> label_state srv' (attempt_label label k') = Committed).
Proof. intros label. apply lease_committed_once. intros i i'. apply attempt_label_inj. Qed.

(** ** Acknowledged leases are committed *)

Section Acked.
Context {Srv : Type} `{StreamLoadContract Srv}.

(** What is committed stays so. *)
Definition keeps (srv srv' : Srv) : Prop := forall l, label_state srv l = Committed -> label_state srv' l = Committed.

#[export] Instance keeps_preorder : PreOrder keeps.
Proof. split; [by intros srv l | intros s1 s2 s3 H12 H23 l Hl; by apply H23, H12]. Qed.

Lemma moves_keep srv srv' : (forall l, moves (label_state srv l) (label_state srv' l)) -> keeps srv srv'.
Proof. intros Hm l. apply moves_committed, Hm. Qed.

Lemma opens_keep srv srv' l : (forall l', l' <> l -> moves (label_state srv l') (label_state srv' l')) ->
  (label_state srv l = Committed -> label_state srv' l = Committed) -> keeps srv srv'.
Proof.
  intros Ho Hs l' Hl'. destruct (decide (l' = l)) as [->|Hne]; [by apply Hs | by eapply moves_committed; [apply Ho|]].
Qed.

Lemma send_keeps srv l p : keeps srv (send_single_batch srv l p).1.
Proof. pose proof (send_contract srv l p) as Hc. destruct (send_single_batch srv l p). destruct Hc as (Ho & Hs & _). by apply (opens_keep _ _ l). Qed.

Lemma begin_keeps srv l : keeps srv (begin_transaction srv l).1.
Proof. pose proof (begin_contract srv l) as Hc. destruct (begin_transaction srv l). destruct Hc as (Ho & Hs & _). by apply (opens_keep _ _ l). Qed.

Lemma status_keeps srv l : keeps srv (get_load_status srv l).1.
Proof. pose proof (status_contract srv l) as Hc. destruct (get_load_status srv l). destruct Hc as [Hm _]. by apply moves_keep. Qed.

Lemma commit_keeps srv l : keeps srv (commit_transaction srv l).1.
Proof. pose proof (commit_contract srv l) as Hc. destruct (commit_transaction srv l). destruct Hc as [Hm _]. by apply moves_keep. Qed.

(** A success for [label] is a commit under one of its attempts' labels. *)
Definition leaves_committed (label : bytes) (srv : Srv) (out : Srv * N * result unit StreamLoadError) : Prop :=
  let '(srv', _, r) := out in keeps srv srv' /\ (r = Ok tt -> exists a, label_state srv' (attempt_label label a) = Committed).

Definition confirms (label : bytes) (srv : Srv) (out : Srv * result bool StreamLoadError) : Prop :=
  let '(srv', r) := out in keeps srv srv' /\ (r = Ok true -> label_state srv' label = Committed).

Lemma confirm_v1_confirms srv l : confirms l srv (confirm_v1_label_committed srv l).
Proof.
  unfold confirm_v1_label_committed. pose proof (status_keeps srv l) as Hk. pose proof (status_contract srv l) as Hs.
  destruct (get_load_status srv l) as [srv1 [st|e]]; [|by split]. destruct Hs as [_ Hst]. destruct (Hst st eq_refl) as [Hcm _].
  destruct (committed_status st); [split; [done | by intros _; apply Hcm]|]. by destruct (aborted_status st); split.
Qed.

Lemma confirm_v2_confirms srv l : confirms l srv (confirm_or_complete_v2_label srv l).
Proof.
  unfold confirm_or_complete_v2_label. pose proof (status_keeps srv l) as Hk. pose proof (status_contract srv l) as Hs.
  destruct (get_load_status srv l) as [srv1 [st|e]]; [|by split]. cbn [fst] in Hk. destruct Hs as [_ Hst]. destruct (Hst st eq_refl) as [Hcm _].
  destruct (committed_status st); [split; [done | by intros _; apply Hcm]|]. destruct (prepared_status st).
  - pose proof (commit_keeps srv1 l) as Hk2. pose proof (commit_contract srv1 l) as Hcc.
    destruct (commit_transaction srv1 l) as [srv2 [[]|e]]; cbn [fst] in Hk2; destruct Hcc as [_ Hok].
    { split; [by transitivity srv1 | by intros _; apply Hok]. }
    destruct (is_label_already_exists e); [|split; [by transitivity srv1 | done]].
    pose proof (status_keeps srv2 l) as Hk3. pose proof (status_contract srv2 l) as Hs3.
    destruct (get_load_status srv2 l) as [srv3 [st3|e3]]; cbn [fst] in Hk3;
      (assert (Hk' : keeps srv srv3) by (transitivity srv1; [done | by transitivity srv2])); [|by split].
    destruct Hs3 as [_ Hst3]. destruct (Hst3 st3 eq_refl) as [Hcm3 _]. destruct (committed_status st3); [split; [done | by intros _; apply Hcm3] | by split].
  - destruct (aborted_status st); [by split|]. pose proof (moves_keep _ _ (rollback_contract srv1 l)) as Hr.
    destruct (rollback_transaction srv1 l) as [srv2 r2]. split; [by transitivity srv1 | done].
Qed.

(** After an aborted label was confirmed, the next one. *)
Lemma next_leaves (loop : Srv -> N -> bytes -> Srv * N * result unit StreamLoadError) label srv0 srv k active e : keeps srv0 srv ->
  (forall k' , k' <> 0 -> leaves_committed label srv (loop srv k' (attempt_label label k'))) ->
  leaves_committed label srv0 (let fallback_idx := k +u32 1 in
    let next_label := format_attempt_lease_label label fallback_idx in
    if bool_decide (next_label = active) then (srv, fallback_idx, Err e) else loop srv fallback_idx next_label).
Proof.
  intros Hk Hl. cbv zeta. case_bool_decide; [by split|]. assert (Hnz : k +u32 1 <> 0) by (unfold sat_add, u32_max; lia).
  specialize (Hl _ Hnz). unfold attempt_label in Hl. destruct (N.eqb_spec (k +u32 1) 0) as [|_]; [done|].
  destruct (loop srv (k +u32 1) (format_attempt_lease_label label (k +u32 1))) as [[srv' k'] r]. destruct Hl as [Hk' Hc]. split; [by transitivity srv | done].
Qed.

Lemma v1_loop_leaves label p more : forall srv k a, leaves_committed label srv (v1_loop label p more srv k (attempt_label label a)).
Proof.
  induction more as [|more IH]; intros srv k a; cbn [v1_loop]; set (active := attempt_label label a);
    (pose proof (send_keeps srv active p) as Hk; pose proof (send_contract srv active p) as Hs;
     destruct (send_single_batch srv active p) as [srv1 [[]|e]]; cbn [fst] in Hk; destruct Hs as (_ & _ & Hok));
    try (split; [done | intros _; exists a; by apply Hok]);
    (destruct (is_label_already_exists e); [|by split]);
    (pose proof (confirm_v1_confirms srv1 active) as Hc; destruct (confirm_v1_label_committed srv1 active) as [srv2 [[]|e2]]; destruct Hc as [Hk2 Ht];
     assert (Hk' : keeps srv srv2) by (by transitivity srv1));
    try (split; [done | intros _; exists a; by apply Ht]); try (by split).
  apply (next_leaves (v1_loop label p more)); [done|]. intros k' _. apply IH.
Qed.

Lemma v2_transaction_leaves label p srv k a : leaves_committed label srv (v2_transaction p srv k (attempt_label label a)).
Proof.
  unfold v2_transaction. set (active := attempt_label label a).
  assert (Hrb : forall s e, keeps srv s -> leaves_committed label srv (let '(srv', _) := rollback_transaction s active in (srv', k, Err e))).
  { intros s e Hk. pose proof (moves_keep _ _ (rollback_contract s active)) as Hr. destruct (rollback_transaction s active). split; [by transitivity s | done]. }
  pose proof (moves_keep _ _ (load_contract srv active p)) as Hk1. destruct (load_transaction_data srv active p) as [srv1 [[]|e]]; [|by apply Hrb].
  pose proof (moves_keep _ _ (prepare_contract srv1 active)) as Hk2. cbn [fst] in Hk1.
  destruct (prepare_transaction srv1 active) as [srv2 [[]|e]]; cbn [fst] in Hk2; (assert (Hk : keeps srv srv2) by (by transitivity srv1)); [|by apply Hrb].
  pose proof (commit_keeps srv2 active) as Hk3. pose proof (commit_contract srv2 active) as Hcc.
  destruct (commit_transaction srv2 active) as [srv3 [[]|e]]; cbn [fst] in Hk3; destruct Hcc as [_ Hok]; (assert (Hk' : keeps srv srv3) by (by transitivity srv2)).
  - split; [done | intros _; exists a; by apply Hok].
  - destruct (is_label_already_exists e); [|by split]. pose proof (confirm_v2_confirms srv3 active) as Hc.
    destruct (confirm_or_complete_v2_label srv3 active) as [srv4 [[]|e2]]; destruct Hc as [Hk4 Ht]; (assert (Hk'' : keeps srv srv4) by (by transitivity srv3)); [|by split..].
    split; [done | intros _; exists a; by apply Ht].
Qed.

Lemma v2_loop_leaves label p more : forall srv k a, leaves_committed label srv (v2_loop label p more srv k (attempt_label label a)).
Proof.
  induction more as [|more IH]; intros srv k a; cbn [v2_loop]; set (active := attempt_label label a);
    (pose proof (begin_keeps srv active) as Hk; destruct (begin_transaction srv active) as [srv1 [id|e]]; cbn [fst] in Hk);
    try (pose proof (v2_transaction_leaves label p srv1 k a) as Hv; fold active in Hv; destruct (v2_transaction p srv1 k active) as [[srv2 k2] r];
         destruct Hv as [Hk2 Hc]; split; [by transitivity srv1 | done]);
    (destruct (is_label_already_exists e); [|by split]);
    (pose proof (confirm_v2_confirms srv1 active) as Hc; destruct (confirm_or_complete_v2_label srv1 active) as [srv2 [[]|e2]]; destruct Hc as [Hk2 Ht];
     assert (Hk' : keeps srv srv2) by (by transitivity srv1));
    try (split; [done | intros _; exists a; by apply Ht]); try (by split).
  apply (next_leaves (v2_loop label p more)); [done|]. intros k' _. apply IH.
Qed.

Lemma send_mode_leaves mode label srv k p : leaves_committed label srv (send_mode mode label srv k p).
Proof. destruct mode; [apply v1_loop_leaves | apply v2_loop_leaves]. Qed.

End Acked.

(** ** The sink *)

Inductive StarRocksFormat : Type := SrIpc | SrJson | SrCsv.

(** Tables are named by their characters. *)
Inductive TableMapping : Type :=
| PerSignal (logs metrics traces : list N)
| Unified (table : list N) (signal_type_column : string).

Definition table_for (m : TableMapping) (signal : SignalType) : list N :=
  match m with
  | PerSignal logs metrics traces => match signal with Metrics => metrics | Traces => traces | Logs => logs end
  | Unified table _ => table
  end.

Definition signal_type_column (m : TableMapping) : option string :=
  match m with Unified _ c => Some c | PerSignal _ _ _ => None end.

(** [fallback_attempts] after a failed send. *)
Definition track_fallback (fallback_attempts : gmap bytes N) (label : bytes) (fallback_idx : N) (class : FailureClass) : gmap bytes N :=
  match class with
  | Transient =>
      if 0 <? fallback_idx then
        let m :=
          if (MAX_TRACKED_FALLBACK_LABELS <=? size fallback_attempts)%nat && negb (bool_decide (is_Some (fallback_attempts !! label)))
          then ∅ else fallback_attempts in
        <[label := fallback_idx]> m
      else delete label fallback_attempts
  | _ => delete label fallback_attempts
  end.

Section Sink.
Context {RB Sch Col Srv : Type} `{Arrow RB Sch Row} `{Crc} `{StreamLoad Srv}.
Variable column_by_name : RB -> string -> option Col.
Variable columns : RB -> list Col.
Variable lexsort_to_indices : list (Col * SortOptions) -> option (list nat).
Variable take_column : Col -> list nat -> option Col.
Variable try_new : Sch -> list Col -> option RB.
Variable concat_batches : Sch -> list RB -> option RB.
(** The schema with a [Utf8] field more, and [n] times a string as an array. *)
Variable schema_with : Sch -> string -> Sch.
Variable string_array : string -> N -> Col.
(** [LineDelimitedWriter] and the CSV writer. *)
Variables json_encode csv_encode : RB -> option bytes.
Variable sha256_hex16 : list N -> bytes.
Variable to_string : StreamLoadError -> string.
Variables (sorter : BatchSorter) (format : StarRocksFormat) (mapping : TableMapping) (mode : TransactionMode) (max_payload_bytes : N).
Variable config : BufferConfig.BufferConfig.

Definition serialize_record_batch (batch : RB) : result bytes PipelineError :=
  match format with
  | SrIpc => ok_or (ipc_encode batch) (Internal "IPC write failed")
  | SrJson => ok_or (json_encode batch) (Internal "JSON write failed")
  | SrCsv => ok_or (csv_encode batch) (Internal "CSV write failed")
  end.

Definition inject_signal_type_column (batch : RB) (column_name signal_type : string) : result RB PipelineError :=
  let discriminator := string_array signal_type (num_rows batch) in
  ok_or (try_new (schema_with (rb_schema batch) column_name) (columns batch ++ [discriminator])) (ArrowErr "try_new").

Definition prepare_payload (signal : SignalType) (batch : RB) : result (option bytes) PipelineError :=
  if num_rows batch =? 0 then Ok None
  else
    let? sorted_batch := Signal.sort column_by_name columns lexsort_to_indices take_column try_new sorter batch signal in
    let? final_batch :=
      match signal_type_column mapping with
      | Some col_name => inject_signal_type_column sorted_batch col_name (as_str signal)
      | None => Ok sorted_batch
      end in
    let? payload := serialize_record_batch final_batch in
    if max_payload_bytes <? N.of_nat (length payload) then Err (Internal "Serialized payload exceeds max_payload_bytes")
    else Ok (Some payload).

(** A lease with the segment files, a panic of its preparation and what the
    calls on it return. *)
Record StarRocksTurn := mkStarRocksTurn {
  st_lease : Lease RB Sch; st_dir : gmap N bytes; st_panic : option string;
  st_ack : result unit PipelineError; st_nack : result unit PipelineError }.

Inductive SrLeaseEnd : Type := SrAcked | SrNacked (class : FailureClass) | SrDropped.

Definition prepared_payload (t : StarRocksTurn) : result (option bytes) PipelineError :=
  match st_panic t with
  | Some e => Err (prepare_join_error e)
  | None => prepare concat_batches config (st_dir t) (st_lease t) (prepare_payload (l_signal (st_lease t)))
  end.

Definition lease_label (t : StarRocksTurn) : bytes :=
  format_lease_label sha256_hex16 (table_for mapping (l_signal (st_lease t))) (l_id (st_lease t)).

Definition starrocks_turn (srv : Srv) (fallback_attempts : gmap bytes N) (t : StarRocksTurn)
  : Srv * gmap bytes N * SrLeaseEnd * result unit PipelineError :=
  if l_num_rows (st_lease t) =? 0 then (srv, fallback_attempts, SrAcked, st_ack t)
  else
    match prepared_payload t with
    | Ok None => (srv, fallback_attempts, SrAcked, st_ack t)
    | Err (Storage e) => (srv, fallback_attempts, SrDropped, Err (Storage e))
    | Err err =>
        if is_prepare_join_error err then (srv, fallback_attempts, SrDropped, Err err)
        else (srv, fallback_attempts, SrNacked (Rejected (pipeline_to_string err)), st_nack t)
    | Ok (Some payload) =>
        let label := lease_label t in
        let fallback_idx := default 0 (fallback_attempts !! label) in
        match send_mode mode label srv fallback_idx payload with
        | (srv, _, Ok _) => (srv, delete label fallback_attempts, SrAcked, st_ack t)
        | (srv, fallback_idx, Err err) =>
            let class := classify_stream_load_error to_string err in
            (srv, track_fallback fallback_attempts label fallback_idx class, SrNacked class, st_nack t)
        end
    end.

(** The leases in order; [closed] is what [next_lease] says after them. *)
Fixpoint starrocks_run (srv : Srv) (fallback_attempts : gmap bytes N) (turns : list StarRocksTurn) (closed : result unit PipelineError)
  : Srv * gmap bytes N * list SrLeaseEnd * result unit PipelineError :=
  match turns with
  | [] => (srv, fallback_attempts, [], closed)
  | t :: turns =>
      match starrocks_turn srv fallback_attempts t with
      | (srv, m, e, Err err) => (srv, m, [e], Err err)
      | (srv, m, e, Ok _) => let '(srv, m, es, r) := starrocks_run srv m turns closed in (srv, m, e :: es, r)
      end
  end.

Lemma size_delete_le {V} (m : gmap bytes V) k : (size (delete k m) <= size m)%nat.
Proof. rewrite map_size_delete. case_match; cbn; lia. Qed.

Lemma size_insert_le {V} (m : gmap bytes V) k v : (size (<[k := v]> m) <= S (size m))%nat.
Proof. rewrite map_size_insert. case_match; cbn; lia. Qed.

(** The sink remembers a bounded number of labels. *)
Lemma track_fallback_bounded m label idx class : (size m <= MAX_TRACKED_FALLBACK_LABELS)%nat ->
  (size (track_fallback m label idx class) <= MAX_TRACKED_FALLBACK_LABELS)%nat.
Proof.
  intros Hm. assert (Hd : (size (delete label m) <= MAX_TRACKED_FALLBACK_LABELS)%nat) by (pose proof (size_delete_le m label); lia).
  unfold track_fallback. destruct class; try done. destruct (0 <? idx); [|done]. cbv zeta.
  destruct (Nat.leb_spec MAX_TRACKED_FALLBACK_LABELS (size m)) as [Hge|Hlt]; cbn [andb]; [case_bool_decide as Hin; cbn [negb]|].
  - rewrite map_size_insert_Some by done. done.
  - rewrite map_size_insert_None by done. rewrite map_size_empty. unfold MAX_TRACKED_FALLBACK_LABELS. lia.
  - pose proof (size_insert_le m label idx). lia.
Qed.

Lemma starrocks_run_bounded turns closed : forall srv m, (size m <= MAX_TRACKED_FALLBACK_LABELS)%nat ->
  let '(_, m', _, _) := starrocks_run srv m turns closed in (size m' <= MAX_TRACKED_FALLBACK_LABELS)%nat.
Proof.
  induction turns as [|t turns IH]; intros srv m Hm; cbn [starrocks_run]; [done|].
  assert (Ht : (size (starrocks_turn srv m t).1.1.2 <= MAX_TRACKED_FALLBACK_LABELS)%nat).
  { unfold starrocks_turn. cbv zeta. repeat case_match; cbn [fst snd]; try done; [|by apply track_fallback_bounded].
    pose proof (size_delete_le m (lease_label t)). lia. }
  destruct (starrocks_turn srv m t) as [[[srv' m'] e] [[]|err]]; cbn [fst snd] in Ht; [|done].
  specialize (IH srv' m' Ht). by destruct (starrocks_run srv' m' turns closed) as [[[? ?] ?] ?].
Qed.

(** *** What the run settles *)

Context `{!StreamLoadContract Srv}.

(** Why a lease ended as it did, in the cluster's state at the end. *)
Definition lease_settled (srv : Srv) (t : StarRocksTurn) (e : SrLeaseEnd) : Prop :=
  match e with
  | SrAcked =>
      l_num_rows (st_lease t) = 0 \/ (exists batch, lease_batch concat_batches config (st_dir t) (st_lease t) batch /\ num_rows batch = 0) \/
      exists a, label_state srv (attempt_label (lease_label t) a) = Committed
  | SrNacked class => (exists err, prepared_payload t = Err err /\ class = Rejected (pipeline_to_string err)) \/ exists err, class = classify_stream_load_error to_string err
  | SrDropped => exists err, prepared_payload t = Err err
  end.

Lemma settled_keeps srv srv' t e : keeps srv srv' -> lease_settled srv t e -> lease_settled srv' t e.
Proof. intros Hk. destruct e; cbn [lease_settled]; try done. intros [?|[?|[a Ha]]]; [by left | by right; left | right; right; exists a; by apply Hk]. Qed.

(** Nothing to send means no rows. *)
Lemma no_payload_no_rows signal batch : prepare_payload signal batch = Ok None -> num_rows batch = 0.
Proof.
  unfold prepare_payload. destruct (N.eqb_spec (num_rows batch) 0) as [|_]; [done|]. destruct (Signal.sort _ _ _ _ _ _ _ _) as [sb|]; [|done]. cbn.
  destruct (match signal_type_column mapping with Some _ => _ | None => _ end) as [fb|]; [|done]. cbn.
  destruct (serialize_record_batch fb) as [payload|]; [|done]. cbn. by case_match.
Qed.

Lemma starrocks_turn_settled srv m t : let '(srv', _, e, r) := starrocks_turn srv m t in
  keeps srv srv' /\ lease_settled srv' t e /\ (e = SrDropped -> is_ok r = false).
Proof.
  unfold starrocks_turn. destruct (N.eqb_spec (l_num_rows (st_lease t)) 0) as [E0|_]; [split_and!; [done | by left | done]|].
  destruct (prepared_payload t) as [[payload|]|err] eqn:Ep.
  - cbv zeta. pose proof (send_mode_leaves mode (lease_label t) srv (default 0 (m !! lease_label t)) payload) as Hl.
    destruct (send_mode mode (lease_label t) srv (default 0 (m !! lease_label t)) payload) as [[srv' k'] [[]|err]]; destruct Hl as [Hk Hc];
      (split_and!; [done | | done]); [right; right; by apply Hc | right; by eexists].
  - split_and!; [done | | done]. right. left. unfold prepared_payload in Ep. destruct (st_panic t); [done|].
    destruct (prepare_inv _ _ _ _ _ _ Ep) as (b & Hb & Hn). exists b. split; [done | by apply no_payload_no_rows in Hn].
  - destruct err; try (rewrite join_error_never_recognised); (split_and!; [done | | done]); cbn [lease_settled]; try (left; by eexists). by eexists.
Qed.

(** C21 (starrocks_run_settles). The StarRocks sink takes its leases in order.  A
    lease is acknowledged only when it has no rows or when, at the end, the
    cluster holds a transaction committed under a label of one of its attempts;
    it is returned with the reason its preparation failed or with the class of
    the error its sending ended with; it is left alone only when the sink stops
    with an error. *)
Theorem starrocks_run_settles turns closed : forall srv m,
  let '(srv', _, ends, r) := starrocks_run srv m turns closed in
  keeps srv srv' /\ exists handled rest, turns = handled ++ rest /\ Forall2 (lease_settled srv') handled ends /\
    (is_ok r = true -> rest = [] /\ is_ok closed = true /\ SrDropped ∉ ends).
Proof.
  induction turns as [|t turns IH]; intros srv m; cbn [starrocks_run].
  - split; [done|]. exists [], []. split_and!; [done | constructor | intros Hc; split_and!; [done..|apply not_elem_of_nil]].
  - pose proof (starrocks_turn_settled srv m t) as Ht. destruct (starrocks_turn srv m t) as [[[srv1 m1] e] [[]|err]]; destruct Ht as (Hk & Hs & Hd).
    + specialize (IH srv1 m1). destruct (starrocks_run srv1 m1 turns closed) as [[[srv2 m2] ends] r]. destruct IH as (Hk2 & handled & rest & -> & Hf & Hok).
      split; [by transitivity srv1|]. exists (t :: handled), rest. split; [done|]. split; [constructor; [by eapply settled_keeps | done]|].
      intros Hr. destruct (Hok Hr) as (-> & Hc & Hn). split_and!; [done..|]. apply not_elem_of_cons. split; [|done]. intros <-. by specialize (Hd eq_refl).
    + split; [done|]. exists [t], turns. split; [done|]. split; [by repeat constructor | done].
Qed.

End Sink.

Module StarRocksDemo.
Import Toy.

(** A small cluster: the states of its labels, whether it takes an aborted label
    again, and what happens to the coming calls: nothing, an answer lost, or an open
    transaction ended before the call or by it. *)
Inductive Fate : Type := Honest | Lost | Killed | Expired.

Record cluster := mkCluster { labels : gmap bytes LabelState; reuse : bool; fates : list Fate }.

Definition state_of (c : cluster) (l : bytes) : LabelState := default Absent (labels c !! l).
Definition fate (c : cluster) : Fate := default Honest (head (fates c)).
Definition put (c : cluster) (l : bytes) (s : LabelState) : cluster := mkCluster (<[l := s]> (labels c)) (reuse c) (tail (fates c)).
Definition keep (c : cluster) : cluster := mkCluster (labels c) (reuse c) (tail (fates c)).

Definition label_exists : StreamLoadError := SleStarRocksFailure (text "Label Already Exists") [].

Definition answered {A} (c : cluster) (a : result A StreamLoadError) : result A StreamLoadError :=
  match fate c with Honest | Expired => a | _ => Err SleNetwork end.

(** Whether a transaction may begin under a label. *)
Definition free (c : cluster) (l : bytes) : bool :=
  match state_of c l with Absent => true | Aborted => reuse c | _ => false end.

Definition ending (c : cluster) : LabelState := match fate c with Killed => Aborted | _ => Committed end.

Definition demo_send (c : cluster) (l p : bytes) : cluster * result unit StreamLoadError :=
  if free c l then (put c l (ending c), answered c (Ok tt)) else (keep c, Err label_exists).

Definition demo_begin (c : cluster) (l : bytes) : cluster * result N StreamLoadError :=
  if free c l then (put c l Open, answered c (Ok 1)) else (keep c, Err label_exists).

Definition demo_status (c : cluster) (l : bytes) : cluster * result LoadStatus StreamLoadError :=
  let c' := match state_of c l, fate c with Open, Expired => put c l Aborted | _, _ => keep c end in
  let state := match state_of c' l with Absent => "UNKNOWN" | Open => "PREPARED" | Committed => "VISIBLE" | Aborted => "ABORTED" end%string in
  (c', answered c (Ok (mkLoadStatus (text "OK") (Some (text state)) None))).

Definition demo_commit (c : cluster) (l : bytes) : cluster * result unit StreamLoadError :=
  match state_of c l with
  | Open => (put c l (ending c), answered c (Ok tt))
  | Committed => (keep c, answered c (Ok tt))
  | _ => (keep c, Err (SleTransaction (text "no such transaction")))
  end.

Definition demo_rollback (c : cluster) (l : bytes) : cluster * result unit StreamLoadError :=
  match state_of c l with
  | Open => (put c l Aborted, answered c (Ok tt))
  | _ => (keep c, Err (SleTransaction (text "no such transaction")))
  end.

#[export] Instance demo_calls : StreamLoad cluster := {|
  send_single_batch := demo_send; get_load_status := demo_status; begin_transaction := demo_begin;
  load_transaction_data c _ _ := (keep c, answered c (Ok tt)); prepare_transaction c _ := (keep c, answered c (Ok tt));
  commit_transaction := demo_commit; rollback_transaction := demo_rollback; debug_text o := default (text "None") o |}.

Lemma state_put c l s l' : state_of (put c l s) l' = if bool_decide (l' = l) then s else state_of c l'.
Proof. unfold state_of, put. cbn. case_bool_decide as E; [by subst; rewrite lookup_insert_eq | by rewrite lookup_insert_ne]. Qed.

Lemma put_moves c l s l' : moves (state_of c l) s -> moves (state_of c l') (state_of (put c l s) l').
Proof. intros Hm. rewrite state_put. case_bool_decide as E; [by subst | by left]. Qed.

Lemma put_other c l s l' : l' <> l -> moves (state_of c l') (state_of (put c l s) l').
Proof. intros Hne. rewrite state_put. rewrite bool_decide_false by done. by left. Qed.

Lemma put_own c l s : state_of (put c l s) l = s.
Proof. rewrite state_put. by rewrite bool_decide_true. Qed.

Lemma keep_moves c l : moves (state_of c l) (state_of (keep c) l).
Proof. by left. Qed.

Lemma open_ends s : s = Committed \/ s = Aborted -> moves Open s.
Proof. intros Hs. right. by left. Qed.

Lemma ending_ends (c : cluster) : ending c = Committed \/ ending c = Aborted.
Proof. unfold ending. destruct (fate c); auto. Qed.

Lemma free_idle (c : cluster) l : free c l = true -> state_of c l = Absent \/ state_of c l = Aborted.
Proof. unfold free. destruct (state_of c l); auto; done. Qed.

#[export] Instance demo_contract : StreamLoadContract cluster.
Proof.
  refine {| label_state := state_of |}.
  - intros c l p. cbn. unfold demo_send. destruct (free c l) eqn:Ef; [|split_and!; [intros; apply keep_moves | done | done]].
    apply free_idle in Ef. rewrite put_own. split_and!; [intros; by apply put_other | by destruct Ef as [-> | ->]|].
    unfold answered, ending. by destruct (fate c).
  - intros c l. cbn. unfold demo_begin. destruct (free c l) eqn:Ef; [|split_and!; [intros; apply keep_moves | done | done]].
    apply free_idle in Ef. split_and!; [intros; by apply put_other | by destruct Ef as [-> | ->] | done].
  - intros c l. cbn. unfold demo_status. set (c' := match state_of c l, fate c with Open, Expired => _ | _, _ => _ end). split.
    + intros l'. unfold c'. destruct (state_of c l) eqn:El; try apply keep_moves. destruct (fate c); try apply keep_moves.
      apply put_moves. rewrite El. apply open_ends; auto.
    + intros st E. unfold answered in E. destruct (fate c); try discriminate E; injection E as <-;
        (destruct (state_of c' l); split; by vm_compute).
  - intros c l. cbn. unfold demo_commit. destruct (state_of c l) eqn:El; try (split; [intros; apply keep_moves | done]).
    split; [intros l'; apply put_moves; rewrite El; apply open_ends, ending_ends; done|]. rewrite put_own. unfold answered, ending. by destruct (fate c).
  - intros. apply keep_moves.
  - intros. apply keep_moves.
  - intros c l. cbn. unfold demo_rollback. destruct (state_of c l) eqn:El; intros l'; try apply keep_moves. apply put_moves. rewrite El. apply open_ends; auto.
Defined.

(** A digest of sixteen digits. *)
Definition sha (t : list N) : bytes := hex_fixed 16 (N.of_nat (length t)).

Definition id1 : LeaseId := mkLeaseId 1 Logs 5 7.
Definition id2 : LeaseId := mkLeaseId 1 Logs 8 9.
Definition long_table : list N := replicate 100 97.

Lemma lease_labels_witness :
  (length (format_lease_label sha long_table id1) <= MAX_STREAM_LOAD_LABEL_LEN)%nat /\
  Forall (fun c => label_char c = true) (format_lease_label sha long_table id1) /\
  (format_lease_label sha long_table id1 = format_lease_label sha (text "logs.raw") id2 -> id1 = id2).
Proof.
  refine (lease_labels sha _ _ long_table id1 (text "logs.raw") id2 _ _); try (split_and!; by vm_compute).
  - intros t. apply length_hex_fixed.
  - intros t. apply hex_label_chars.
Defined.

(** The labels of later attempts do not say which lease they are: a base label
    that fills the 128 characters is cut at its end, where the sequence numbers
    are.  Here the first lease is committed under its second label, the own
    label of the second lease was aborted, and the second lease is then taken
    for committed although none of its rows were. *)
Example attempt_labels_collide :
  id1 <> id2 /\ length (format_lease_label sha long_table id1) = 128%nat /\
  attempt_label (format_lease_label sha long_table id1) 1 = attempt_label (format_lease_label sha long_table id2) 1 /\
  let l1 := attempt_label (format_lease_label sha long_table id1) 1 in
  let l2 := format_lease_label sha long_table id2 in
  let c := mkCluster (<[l1 := Committed]> (<[l2 := Aborted]> ∅)) false [] in
  (send_mode V1 l2 c 0 [1; 2; 3]).1.2 = 1 /\ (send_mode V1 l2 c 0 [1; 2; 3]).2 = Ok tt.
Proof. split_and!; [done | by vm_compute..]. Qed.

(** Three attempts on a cluster that takes aborted labels again: the answer to the first
    begin is lost; the second finds that transaction aborted and commits under the next
    label, but its answer is lost; the third finds the commit. *)
Definition base : bytes := format_lease_label sha (text "logs") id1.
Definition c0 : cluster := mkCluster ∅ true [Lost; Honest; Expired; Honest; Honest; Honest; Lost].
Definition c1 : cluster := (send_mode V2 base c0 0 [1; 2]).1.1.
Definition c2 : cluster := (send_mode V2 base c1 0 [1; 2]).1.1.
Definition c3 : cluster := (send_mode V2 base c2 1 [1; 2]).1.1.

Lemma step c k k' p : lease_life base c k -> (send_mode V2 base c k p).1.2 = k' -> lease_life base (send_mode V2 base c k p).1.1 k'.
Proof. intros Hl <-. apply (life_attempt _ c k p _ _ (send_mode V2 base c k p).2); [done|]. by destruct (send_mode V2 base c k p) as [[? ?] ?]. Qed.

Lemma committed_at_most_once_witness :
  ((send_mode V2 base c0 0 [1; 2]).2 = Err SleNetwork /\ state_of c1 base = Open /\
   (send_mode V2 base c1 0 [1; 2]).2 = Err SleNetwork /\ state_of c2 base = Aborted /\ state_of c2 (attempt_label base 1) = Committed /\
   (send_mode V2 base c2 1 [1; 2]).1.2 = 1 /\ (send_mode V2 base c2 1 [1; 2]).2 = Ok tt) /\
  (forall i, label_state c3 (attempt_label base i) = Committed -> i = 1) /\
  forall payload srv' k' r, send_mode V2 base c3 1 payload = (srv', k', r) ->
    (forall i, label_state srv' (attempt_label base i) = Committed -> i = k') /\
    (r = Ok tt -> label_state srv' (attempt_label base k') = Committed).
Proof.
  split; [split_and!; by vm_compute|]. apply (committed_at_most_once sha (text "logs") id1 c3 1).
  assert (H0 : lease_life base c0 0) by (apply life_start; intros i; change (default Absent ((∅ : gmap bytes LabelState) !! attempt_label base i) = Absent); by rewrite lookup_empty).
  assert (H1 : lease_life base c1 0) by (apply (step _ 0 0 [1; 2] H0); by vm_compute).
  assert (H2 : lease_life base c2 1) by (apply (step _ 0 1 [1; 2] H1); by vm_compute).
  apply (step _ 1 1 [1; 2] H2); by vm_compute.
Defined.

(** Without the index the third attempt begins again under the aborted label, and the
    lease is committed twice. *)
Example forgotten_index_commits_twice :
  let c := (send_mode V2 base c2 0 [1; 2]).1.1 in
  (send_mode V2 base c2 0 [1; 2]).2 = Ok tt /\ state_of c base = Committed /\ state_of c (attempt_label base 1) = Committed.
Proof. by vm_compute. Qed.

(** The sink forgets the indices of all leases when one more than it tracks needs one. *)
Lemma track_fallback_forgets m label idx l : (MAX_TRACKED_FALLBACK_LABELS <= size m)%nat -> m !! label = None -> 0 < idx -> l <> label ->
  track_fallback m label idx Transient !! l = None.
Proof.
  intros Hm Hn Hi Hl. unfold track_fallback. apply N.ltb_lt in Hi. apply Nat.leb_le in Hm. rewrite Hi, Hm, Hn. cbn. by rewrite lookup_insert_ne.
Qed.

Definition lease (id : LeaseId) (b : batch) : Lease batch N := mkLease id [b] [InMemory b] [] (num_rows b) 0 0 0 0.

Definition turn (id : LeaseId) (b : batch) (panic : option string) : StarRocksTurn (RB := batch) (Sch := N) := mkStarRocksTurn (lease id b) ∅ panic (Ok tt) (Ok tt).

(** A batch has one column, its rows; sorting leaves it as it is, and a column
    more is dropped. *)
Definition column_by_name (b : batch) (name : string) : option (list N) := Some b.2.
Definition lexsort (cols : list (list N * SortOptions)) : option (list nat) := match cols with (c, _) :: _ => Some (seq 0 (length c)) | [] => None end.
Definition take_column (c : list N) (idx : list nat) : option (list N) := Some (omap (fun i => c !! i) idx).
Definition try_new (s : N) (cs : list (list N)) : option batch := match cs with c :: _ => Some (s, c) | _ => None end.
Definition to_string (e : StreamLoadError) : string := "load failed".

Definition turns := [turn id1 (7, [1; 2]) None; turn id1 (7, [1; 2]) None; turn id2 (7, [3]) (Some "panic"%string); turn id2 (7, []) None].

Abbreviation run := (starrocks_run column_by_name (fun b => [b.2]) lexsort take_column try_new (fun _ _ => None) (fun s _ => s) (fun _ _ => []) (fun _ => None) (fun _ => None)
  sha to_string (mkBatchSorter Skip [] [] []) SrIpc (PerSignal (text "logs") (text "metrics") (text "traces")) V1 100 BufferConfig.default_config).

Lemma starrocks_run_settles_witness :
  let c := mkCluster ∅ false [Lost] in
  (run c ∅ turns (Ok tt)).1.2 = [SrNacked Transient; SrAcked; SrNacked (Rejected (pipeline_to_string (prepare_join_error "panic"))); SrAcked] /\
  let '(srv', _, ends, r) := run c ∅ turns (Ok tt) in
  keeps c srv' /\ exists handled rest, turns = handled ++ rest /\
    Forall2 (lease_settled column_by_name (fun b => [b.2]) lexsort take_column try_new (fun _ _ => None) (fun s _ => s) (fun _ _ => []) (fun _ => None) (fun _ => None)
      sha to_string (mkBatchSorter Skip [] [] []) SrIpc (PerSignal (text "logs") (text "metrics") (text "traces")) 100 BufferConfig.default_config srv') handled ends /\
    (is_ok r = true -> rest = [] /\ is_ok (E := PipelineError) (Ok tt) = true /\ SrDropped ∉ ends).
Proof. intros c. split; [by vm_compute|]. apply (starrocks_run_settles (Row := N)). Defined.

End StarRocksDemo.
