(* ===== verification/Attributes.v ===== *)
(** OTLP values as text: crates/arrow-codec/src/common.rs.

    A function that appends to a [String] buffer is the function of the bytes it
    appends; texts are UTF-8.  The protobuf messages are generated code of which
    the fields read are kept; [f64] values are their bits.  The hex crate and the
    [Display] of floats are parameters ([Hex], [ShowFloat]).  The JSON the
    attributes are written as is given its meaning by the reader [read_value]. *)

From S2P Require Import Prelude Text.
Local Open Scope N_scope.

(** ** Messages *)

(** [KeyValue], over the type of its value. *)
Record KeyValueOf (V : Type) := mkKeyValue { kv_key : bytes; kv_value : option V }.
Arguments mkKeyValue {V} _ _.
Arguments kv_key {V} _.
Arguments kv_value {V} _.

(** [AnyValue]: [NoValue] is the message whose [value] is absent, [OtherValue]
    one with a variant the code does not name. *)
Inductive AnyValue : Type :=
| NoValue
| StringValue (s : bytes)
| BoolValue (b : bool)
| IntValue (i : Z)
| DoubleValue (bits : N)
| ArrayValue (values : list AnyValue)
| KvlistValue (values : list (KeyValueOf AnyValue))
| BytesValue (bs : bytes)
| OtherValue.

Abbreviation KeyValue := (KeyValueOf AnyValue).

Definition has_value (v : AnyValue) : bool := match v with NoValue => false | _ => true end.

(** [kv.value.as_ref().is_some_and(|v| v.value.is_some())]. *)
Definition is_set (kv : KeyValue) : bool := from_option has_value false (kv_value kv).

(** ** Hex and numbers *)

Class Hex := { hex_encode : bytes -> bytes }.

Class HexLaws `{Hex} := {
  hex_encode_app a b : hex_encode (a ++ b) = hex_encode a ++ hex_encode b;
  hex_encode_length a : length (hex_encode a) = (2 * length a)%nat;
  hex_encode_chars a : Forall (fun c => 48 <= c <= 57 \/ 97 <= c <= 102) (hex_encode a);
}.

(** [{d}] of an [f64]. *)
Class ShowFloat := { show_f64 : N -> bytes }.

(** The exponent of a finite double is not all ones. *)
Definition is_finite (bits : N) : bool := negb (N.land (N.shiftr bits 52) 2047 =? 2047).

Definition show_int (i : Z) : bytes := match i with Zneg p => 45 :: decimal (Npos p) | _ => decimal (Z.to_N i) end.

Definition show_bool (b : bool) : bytes := if b then text "true" else text "false".

(** The double quote and the backslash. *)
Definition quote : N := 34.
Definition backslash : N := 92.

(** ** Escaping *)

Definition needs_escape (b : N) : bool := (b =? quote) || (b =? backslash) || (b <? 32).

Definition escape_char (c : N) : bytes :=
  if c =? quote then [backslash; quote]
  else if c =? backslash then [backslash; backslash]
  else if c =? 10 then backslash :: text "n"
  else if c =? 13 then backslash :: text "r"
  else if c =? 9 then backslash :: text "t"
  else if c =? 8 then backslash :: text "b"
  else if c =? 12 then backslash :: text "f"
  else if c <? 32 then backslash :: text "u" ++ hex_fixed 4 c
  else [c].

(** Every byte of a character above ASCII is pushed as it is. *)
Definition escape_json_str (s : bytes) : bytes :=
  if negb (existsb needs_escape s) then s else concat (map escape_char s).

Section Write.
Context `{Hex} `{ShowFloat}.

(** The chunks of at most [n] bytes. *)
Fixpoint chunks (fuel n : nat) (bs : bytes) : list bytes :=
  match fuel, bs with
  | _, [] | O, _ => []
  | S fuel, _ => take n bs :: chunks fuel n (drop n bs)
  end.

Definition write_hex_to_string (bs : bytes) : bytes := concat (map hex_encode (chunks (length bs) 32 bs)).

(** [to_hex_string], [append_hex_to_builder]: what is appended as a value. *)
Definition to_hex_string (bs : bytes) : bytes := hex_encode bs.
Definition append_hex_to_builder (bs : bytes) : bytes := match bs with [] => [] | _ => hex_encode bs end.

(** ** Attributes as JSON *)

Definition LINEAR_SCAN_THRESHOLD : nat := 32.

(** The pass from the last attribute to the first: which to keep, and the keys
    seen. *)
Fixpoint keep_scan (attrs : list KeyValue) : list bool * gset bytes :=
  match attrs with
  | [] => ([], ∅)
  | attr :: attrs =>
      let '(keep, seen) := keep_scan attrs in
      if is_set attr then
        if bool_decide (kv_key attr ∈ seen) then (false :: keep, seen) else (true :: keep, {[kv_key attr]} ∪ seen)
      else (false :: keep, seen)
  end.

Definition keep_mask (attrs : list KeyValue) : option (list bool) :=
  if (LINEAR_SCAN_THRESHOLD <? length attrs)%nat then Some (keep_scan attrs).1 else None.

(** Whether a later attribute that is set has this key. *)
Definition set_later (key : bytes) (remaining : list KeyValue) : bool :=
  existsb (fun later => bool_decide (kv_key later = key) && is_set later) remaining.

Definition is_overwritten (mask : option (list bool)) (idx : nat) (attr : KeyValue) (remaining : list KeyValue) : bool :=
  match mask with
  | Some keep => negb (default false (keep !! idx))
  | None => set_later (kv_key attr) remaining
  end.

Section Kvlist.
Variable write_value : AnyValue -> bytes.

Definition write_member (key : bytes) (val : AnyValue) (first : bool) : bytes :=
  (if first then [] else text ",") ++ [quote] ++ escape_json_str key ++ [quote] ++ text ":" ++ write_value val.

Fixpoint kvlist_loop (mask : option (list bool)) (attrs : list KeyValue) (idx : nat) (first : bool) : bytes :=
  match attrs with
  | [] => []
  | mkKeyValue key value as attr :: remaining =>
      match value with
      | None => kvlist_loop mask remaining (S idx) first
      | Some val =>
          if negb (has_value val) then kvlist_loop mask remaining (S idx) first
          else if is_overwritten mask idx attr remaining then kvlist_loop mask remaining (S idx) first
          else write_member key val first ++ kvlist_loop mask remaining (S idx) false
      end
  end.

Definition write_kvlist (attrs : list KeyValue) : bytes :=
  match attrs with
  | [] => text "{}"
  | _ => text "{" ++ kvlist_loop (keep_mask attrs) attrs 0 true ++ text "}"
  end.

Fixpoint join_values (values : list AnyValue) (idx : nat) : bytes :=
  match values with
  | [] => []
  | item :: values => (if (0 <? idx)%nat then text "," else []) ++ write_value item ++ join_values values (S idx)
  end.
End Kvlist.

Definition write_double (d : N) : bytes :=
  if is_finite d then
    let s := show_f64 d in
    if existsb (fun b => (b =? 46) || (b =? 101) || (b =? 69)) s then s else s ++ text ".0"
  else text "null".

Fixpoint write_any_value_json (val : AnyValue) : bytes :=
  match val with
  | StringValue s => [quote] ++ escape_json_str s ++ [quote]
  | IntValue i => show_int i
  | DoubleValue d => write_double d
  | BoolValue b => show_bool b
  | BytesValue bs => [quote] ++ write_hex_to_string bs ++ [quote]
  | ArrayValue values => text "[" ++ join_values write_any_value_json values 0 ++ text "]"
  | KvlistValue values => write_kvlist write_any_value_json values
  | NoValue | OtherValue => text "null"
  end.

Definition write_kvlist_json (attrs : list KeyValue) : bytes := write_kvlist write_any_value_json attrs.

(** The buffer is cleared first. *)
Definition write_attributes_json (attrs : list KeyValue) : bytes := write_kvlist_json attrs.
Definition convert_attributes (attrs : list KeyValue) : bytes := write_attributes_json attrs.

(** ** Values as plain text *)

Fixpoint write_any_value_string (val : AnyValue) : bytes :=
  match val with
  | StringValue s => s
  | IntValue i => show_int i
  | DoubleValue d => show_f64 d
  | BoolValue b => show_bool b
  | KvlistValue values => write_kvlist_json values
  | ArrayValue values => text "[" ++ join_values write_any_value_string values 0 ++ text "]"
  | BytesValue bs => write_hex_to_string bs
  | NoValue | OtherValue => []
  end.

Definition any_value_to_string (val : AnyValue) : bytes := write_any_value_string val.

(** [append_any_value_to_builder]: the value appended. *)
Definition append_any_value_to_builder (val : option AnyValue) : bytes :=
  match val with
  | None => []
  | Some NoValue => []
  | Some (StringValue s) => s
  | Some (BoolValue b) => show_bool b
  | Some (BytesValue bs) => append_hex_to_builder bs
  | Some v => write_any_value_string v
  end.

(** ** The service's name *)

Definition SERVICE_NAME : bytes := text "service.name".

(** [rfind]: the last that satisfies. *)
Fixpoint rfind {A} (f : A -> bool) (l : list A) : option A :=
  match l with
  | [] => None
  | x :: l => match rfind f l with Some y => Some y | None => if f x then Some x else None end
  end.

Definition extract_service_name (attributes : list KeyValue) : bytes :=
  match rfind (fun kv => bool_decide (kv_key kv = SERVICE_NAME) && is_set kv) attributes ≫= kv_value with
  | None => text "unknown"
  | Some (StringValue s) => s
  | Some NoValue => text "unknown"
  | Some val => any_value_to_string val
  end.

End Write.

(** ** Timestamps *)

Definition i64_max : N := 9223372036854775807.

Definition timestamp_to_i64 (nanos : N) : result Z PipelineError :=
  if nanos <=? i64_max then Ok (Z.of_N nanos) else Err (Internal "OTLP timestamp exceeds i64::MAX").

(** ** The last value of a key wins *)

Section Winners.
Context {B : Type} (f : AnyValue -> B).

(** The attributes that stay: set, and not set again later. *)
Fixpoint winners (attrs : list KeyValue) : list (bytes * B) :=
  match attrs with
  | [] => []
  | mkKeyValue key value :: remaining =>
      match value with
      | Some val => if has_value val && negb (set_later key remaining) then (key, f val) :: winners remaining else winners remaining
      | None => winners remaining
      end
  end.

End Winners.

#[local] Arguments set_later : simpl never.

Lemma set_later_cons key kv attrs : set_later key (kv :: attrs) = (bool_decide (kv_key kv = key) && is_set kv) || set_later key attrs.
Proof. done. Qed.

Lemma winners_map {B} (f : AnyValue -> B) attrs : winners f attrs = map (prod_map id f) (winners id attrs).
Proof. induction attrs as [|[key [val|]] attrs IH]; cbn; [done | | done]. destruct (_ && _); cbn; by rewrite IH. Qed.

Lemma set_later_spec key attrs : set_later key attrs = true <-> exists kv, kv ∈ attrs /\ kv_key kv = key /\ is_set kv = true.
Proof.
  unfold set_later. rewrite existsb_exists. split.
  - intros (kv & Hin & Hb). apply andb_true_iff in Hb as [Hk Hs]. apply bool_decide_eq_true in Hk. exists kv. split; [by apply list_elem_of_In | done].
  - intros (kv & Hin & Hk & Hs). exists kv. split; [by apply list_elem_of_In|]. by rewrite bool_decide_true, Hs.
Qed.

Lemma winners_keys {B} (f : AnyValue -> B) attrs k : k ∈ map fst (winners f attrs) <-> set_later k attrs = true.
Proof.
  induction attrs as [|[key [val|]] attrs IH]; [split; [by intros ?%not_elem_of_nil | done] | |]; rewrite set_later_cons; cbn; [|by rewrite andb_false_r].
  destruct (has_value val); cbn; [|by rewrite andb_false_r, IH]. rewrite andb_true_r.
  destruct (set_later key attrs) eqn:E; cbn; case_bool_decide as Hk; cbn; rewrite ?elem_of_cons, IH; subst; [|done|naive_solver|].
  - by rewrite E.
  - split; [intros [->|?]; done | naive_solver].
Qed.

Lemma winners_nodup {B} (f : AnyValue -> B) attrs : NoDup (map fst (winners f attrs)).
Proof.
  induction attrs as [|[key [val|]] attrs IH]; cbn; [constructor | | done]. destruct (has_value val && negb (set_later key attrs)) eqn:E; [|done].
  cbn. constructor; [|done]. rewrite winners_keys. apply andb_true_iff in E as [_ E]. by destruct (set_later key attrs).
Qed.

(** The value kept for a key is the last one set. *)
Definition last_set (key : bytes) (attrs : list KeyValue) : option AnyValue :=
  rfind (fun kv => bool_decide (kv_key kv = key) && is_set kv) attrs ≫= kv_value.

Lemma rfind_None key attrs : rfind (fun kv => bool_decide (kv_key kv = key) && is_set kv) attrs = None <-> set_later key attrs = false.
Proof.
  induction attrs as [|kv attrs IH]; [done|]. rewrite set_later_cons. cbn. destruct (rfind _ attrs) eqn:E.
  - split; [done|]. intros [_ Hs]%orb_false_iff. by apply IH in Hs.
  - rewrite (proj1 IH eq_refl), orb_false_r. by destruct (_ && is_set kv).
Qed.

Lemma winners_last attrs key val : (key, val) ∈ winners id attrs <-> last_set key attrs = Some val.
Proof.
  unfold last_set. induction attrs as [|[key' [val'|]] attrs IH]; cbn [winners rfind].
  - split; [by intros ?%not_elem_of_nil | done].
  - destruct (rfind (fun kv => bool_decide (kv_key kv = key) && is_set kv) attrs) as [kv|] eqn:Er; cbn [mbind option_bind] in *.
    + destruct (has_value val' && negb (set_later key' attrs)) eqn:E; [|done]. rewrite elem_of_cons, IH. split; [|naive_solver]. intros [[= -> ->]|?]; [|done].
      apply andb_true_iff in E as [_ E]. destruct (set_later key' attrs) eqn:Es; [done|]. apply rfind_None in Es. by rewrite Es in Er.
    + assert (Hn : set_later key attrs = false) by (by apply rfind_None). cbn [kv_key kv_value is_set from_option].
      destruct (has_value val') eqn:Ev; cbn [andb]; [|by rewrite andb_false_r]. rewrite andb_true_r. case_bool_decide as Hk.
      * subst key'. rewrite Hn. cbn [negb]. rewrite elem_of_cons, IH. cbn. naive_solver.
      * destruct (negb (set_later key' attrs)); [rewrite elem_of_cons|]; rewrite IH; naive_solver.
  - cbn [kv_key is_set kv_value from_option]. rewrite andb_false_r. rewrite IH. by destruct (rfind _ attrs).
Qed.

(** ** The two ways to find the overwritten attributes *)

(** The mask the scan should give. *)
Fixpoint keeps (attrs : list KeyValue) : list bool :=
  match attrs with
  | [] => []
  | attr :: attrs => (is_set attr && negb (set_later (kv_key attr) attrs)) :: keeps attrs
  end.

Lemma keep_scan_spec attrs : (keep_scan attrs).1 = keeps attrs /\ forall k, k ∈ (keep_scan attrs).2 <-> set_later k attrs = true.
Proof.
  induction attrs as [|attr attrs [IHk IHs]]; [by split|]. cbn [keep_scan keeps]. destruct (keep_scan attrs) as [keep seen]. cbn [fst snd] in *. subst keep.
  setoid_rewrite set_later_cons.
  destruct (is_set attr) eqn:Es; cbn [andb].
  - case_bool_decide as Hin; cbn [fst snd].
    + rewrite (proj1 (IHs _) Hin). split; [done|]. intros k. rewrite IHs, orb_true_iff. split; [by right|]. intros [Hk%andb_true_iff|]; [|done].
      destruct Hk as [Hk%bool_decide_eq_true _]. subst k. by apply IHs.
    + rewrite IHs in Hin. destruct (set_later (kv_key attr) attrs) eqn:E; [done|]. split; [done|]. intros k.
      rewrite elem_of_union, elem_of_singleton, IHs, orb_true_iff, andb_true_r, bool_decide_eq_true. naive_solver.
  - split; [done|]. intros k. rewrite andb_false_r. cbn. apply IHs.
Qed.

Section Agree.
Variable write_value : AnyValue -> bytes.

(** The members of an object, one after the other. *)
Fixpoint write_members (members : list (bytes * AnyValue)) (first : bool) : bytes :=
  match members with
  | [] => []
  | (key, val) :: members => write_member write_value key val first ++ write_members members false
  end.

Lemma kvlist_loop_winners mask attrs : forall idx first,
  match mask with Some keep => drop idx keep = keeps attrs | None => True end ->
  kvlist_loop write_value mask attrs idx first = write_members (winners id attrs) first.
Proof.
  induction attrs as [|[key value] attrs IH]; intros idx first Hm; [done|]. cbn [kvlist_loop winners].
  assert (Hnext : match mask with Some keep => drop (S idx) keep = keeps attrs | None => True end).
  { destruct mask as [keep|]; [|done]. replace (S idx) with (idx + 1)%nat by lia. by rewrite <- drop_drop, Hm. }
  destruct value as [val|]; [|by apply IH]. destruct (has_value val) eqn:Ev; cbn [negb andb]; [|by apply IH].
  assert (Ho : is_overwritten mask idx (mkKeyValue key (Some val)) attrs = set_later key attrs).
  { unfold is_overwritten. destruct mask as [keep|]; [|done]. rewrite <- (Nat.add_0_r idx), <- lookup_drop, Hm. cbn. rewrite Ev. cbn. by rewrite negb_involutive. }
  rewrite Ho. destruct (set_later key attrs); cbn [negb]; [by apply IH|]. cbn [write_members]. unfold id at 1. f_equal. by apply IH.
Qed.

Lemma write_kvlist_winners attrs : write_kvlist write_value attrs = text "{" ++ write_members (winners id attrs) true ++ text "}".
Proof.
  unfold write_kvlist. destruct attrs as [|attr attrs]; [done|]. rewrite kvlist_loop_winners; [done|].
  unfold keep_mask. destruct (_ <? _)%nat; [|done]. apply keep_scan_spec.
Qed.
End Agree.

(** ** A reader of JSON

    The meaning of the text: a strict recursive-descent reader of JSON without
    white space.  Numbers are kept as their text; escapes above ASCII are refused,
    as the writer has none. *)

Inductive json : Type :=
| JNull | JBool (b : bool) | JNumber (digits : bytes) | JString (s : bytes) | JArray (items : list json) | JObject (members : list (bytes * json)).

Definition hex_value (c : N) : option N :=
  if (48 <=? c) && (c <=? 57) then Some (c - 48) else if (97 <=? c) && (c <=? 102) then Some (c - 87)
  else if (65 <=? c) && (c <=? 70) then Some (c - 55) else None.

(** What a one-letter escape stands for. *)
Definition unescape (c : N) : option N :=
  if (c =? quote) || (c =? backslash) || (c =? 47) then Some c
  else if c =? 110 then Some 10 else if c =? 114 then Some 13 else if c =? 116 then Some 9
  else if c =? 98 then Some 8 else if c =? 102 then Some 12 else None.

(** The rest of a string after its opening quote. *)
Fixpoint read_string (s : bytes) : option (bytes * bytes) :=
  match s with
  | [] => None
  | c :: s =>
      if c =? quote then Some ([], s)
      else if c =? backslash then
        match s with
        | 117 :: a :: b :: c :: d :: s =>
            match hex_value a, hex_value b, hex_value c, hex_value d with
            | Some 0, Some 0, Some c, Some d =>
                if c <? 8 then match read_string s with Some (r, s) => Some (16 * c + d :: r, s) | None => None end else None
            | _, _, _, _ => None
            end
        | e :: s => match unescape e, read_string s with Some c, Some (r, s) => Some (c :: r, s) | _, _ => None end
        | [] => None
        end
      else if c <? 32 then None
      else match read_string s with Some (r, s) => Some (c :: r, s) | None => None end
  end.

Definition is_digit (c : N) : bool := (48 <=? c) && (c <=? 57).

Fixpoint drop_digits (s : bytes) : bytes :=
  match s with [] => [] | c :: s' => if is_digit c then drop_digits s' else s end.

(** The parts of a number: sign, integer, fraction, exponent. *)
Definition int_part (s : bytes) : option bytes :=
  match s with
  | 48 :: s => Some s
  | c :: s => if is_digit c then Some (drop_digits s) else None
  | [] => None
  end.

Definition digits1 (s : bytes) : option bytes := match s with c :: s => if is_digit c then Some (drop_digits s) else None | [] => None end.

Definition frac_part (s : bytes) : option bytes := match s with 46 :: s => digits1 s | _ => Some s end.

Definition exp_part (s : bytes) : option bytes :=
  match s with
  | c :: s' =>
      if (c =? 101) || (c =? 69) then digits1 (match s' with 43 :: s | 45 :: s => s | _ => s' end) else Some s
  | [] => Some s
  end.

Definition strip_minus (s : bytes) : bytes := match s with c :: s' => if c =? 45 then s' else s | [] => [] end.

Definition is_number (s : bytes) : bool :=
  match int_part (strip_minus s) with
  | Some s => match frac_part s with Some s => match exp_part s with Some [] => true | _ => false end | None => false end
  | None => false
  end.

Definition number_char (c : N) : bool := is_digit c || (c =? 43) || (c =? 45) || (c =? 46) || (c =? 101) || (c =? 69).

(** The longest run of the characters of numbers. *)
Fixpoint number_span (s : bytes) : bytes * bytes :=
  match s with
  | [] => ([], [])
  | c :: s' => if number_char c then let '(n, r) := number_span s' in (c :: n, r) else ([], s)
  end.

Definition read_number (s : bytes) : option (json * bytes) :=
  let '(n, r) := number_span s in if is_number n then Some (JNumber n, r) else None.

Definition read_literal (word : string) (j : json) (s : bytes) : option (json * bytes) :=
  if bytes_prefix (text word) s then Some (j, drop (length (text word)) s) else None.

Fixpoint read_value (fuel : nat) (s : bytes) : option (json * bytes) :=
  match fuel with
  | O => None
  | S fuel =>
      match s with
      | 34 :: s => match read_string s with Some (r, s) => Some (JString r, s) | None => None end
      | 91 :: 93 :: s => Some (JArray [], s)
      | 91 :: s => match read_items fuel s with Some (items, s) => Some (JArray items, s) | None => None end
      | 123 :: 125 :: s => Some (JObject [], s)
      | 123 :: s => match read_members fuel s with Some (members, s) => Some (JObject members, s) | None => None end
      | 110 :: _ => read_literal "null" JNull s
      | 116 :: _ => read_literal "true" (JBool true) s
      | 102 :: _ => read_literal "false" (JBool false) s
      | _ => read_number s
      end
  end
with read_items (fuel : nat) (s : bytes) : option (list json * bytes) :=
  match fuel with
  | O => None
  | S fuel =>
      match read_value fuel s with
      | Some (v, 44 :: s) => match read_items fuel s with Some (vs, s) => Some (v :: vs, s) | None => None end
      | Some (v, 93 :: s) => Some ([v], s)
      | _ => None
      end
  end
with read_members (fuel : nat) (s : bytes) : option (list (bytes * json) * bytes) :=
  match fuel with
  | O => None
  | S fuel =>
      match s with
      | 34 :: s =>
          match read_string s with
          | Some (key, 58 :: s) =>
              match read_value fuel s with
              | Some (v, 44 :: s) => match read_members fuel s with Some (ms, s) => Some ((key, v) :: ms, s) | None => None end
              | Some (v, 125 :: s) => Some ([(key, v)], s)
              | _ => None
              end
          | _ => None
          end
      | _ => None
      end
  end.

(** The whole text. *)
Definition parse_json (s : bytes) : option json :=
  match read_value (S (length s)) s with Some (j, []) => Some j | _ => None end.

(** ** What is written *)

Section Meaning.
Context `{Hex} `{ShowFloat}.

Fixpoint json_of (val : AnyValue) : json :=
  match val with
  | StringValue s => JString s
  | IntValue i => JNumber (show_int i)
  | DoubleValue d => if is_finite d then JNumber (write_double d) else JNull
  | BoolValue b => JBool b
  | BytesValue bs => JString (hex_encode bs)
  | ArrayValue values => JArray (map json_of values)
  | KvlistValue values => JObject (winners json_of values)
  | NoValue | OtherValue => JNull
  end.

(** A float's [Display] is a JSON number. *)
Class ShowFloatLaws := { show_f64_number d : is_finite d = true -> is_number (show_f64 d) = true }.

End Meaning.

(** ** Numbers *)

Lemma drop_digits_app ds t : Forall (fun c => is_digit c = true) ds -> match t with c :: _ => is_digit c = false | [] => True end ->
  drop_digits (ds ++ t) = t.
Proof.
  intros Hd Ht. induction Hd as [|c ds Hc _ IH]; cbn; [|by rewrite Hc]. destruct t as [|c t]; [done|]. cbn. by rewrite Ht.
Qed.

Lemma drop_digits_split s : exists ds, s = ds ++ drop_digits s /\ Forall (fun c => is_digit c = true) ds /\
  match drop_digits s with c :: _ => is_digit c = false | [] => True end.
Proof.
  induction s as [|c s (ds & E & Hd & Ht)]; cbn; [by exists []|]. destruct (is_digit c) eqn:Ec.
  - exists (c :: ds). split; [cbn; by f_equal|]. split; [by constructor | done].
  - exists []. split_and!; [done | constructor | done].
Qed.

Lemma digits_number ds : Forall (fun c => is_digit c = true) ds -> Forall (fun c => number_char c = true) ds.
Proof. intros Hd. eapply Forall_impl; [exact Hd|]. intros c Hc. unfold number_char. by rewrite Hc. Qed.

Lemma digit_cases c : is_digit c = true -> c = 48 \/ c = 49 \/ c = 50 \/ c = 51 \/ c = 52 \/ c = 53 \/ c = 54 \/ c = 55 \/ c = 56 \/ c = 57.
Proof. unfold is_digit. intros [?%N.leb_le ?%N.leb_le]%andb_true_iff. lia. Qed.

(** The digits of an integer part are all of it. *)
Lemma int_part_inv s r : int_part s = Some r -> exists c ds, s = c :: ds ++ r /\ is_digit c = true /\ Forall (fun c => is_digit c = true) ds /\
  (ds = [] \/ c <> 48) /\ (c = 48 \/ match r with c :: _ => is_digit c = false | [] => True end).
Proof.
  unfold int_part. destruct s as [|c s]; [done|]. destruct (decide (c = 48)) as [->|Hne].
  - intros [= ->]. exists 48, []. split_and!; try done; by left.
  - intros E. assert (Hd : is_digit c = true /\ r = drop_digits s).
    { destruct (is_digit c) eqn:Ec; [apply digit_cases in Ec; decompose [or] Ec; subst; try done; injection E as <-; done|].
      exfalso. destruct c as [|p]; [done|]. repeat (destruct p as [p|p|]; try done). }
    destruct Hd as [Hc ->]. destruct (drop_digits_split s) as (ds & Es & Hds & Ht). exists c, ds. split_and!; [by f_equal | done | done | by right | by right].
Qed.

Lemma digits1_inv s r : digits1 s = Some r -> exists ds, s = ds ++ r /\ Forall (fun c => number_char c = true) ds.
Proof.
  destruct s as [|c s]; [done|]. cbn. destruct (is_digit c) eqn:Ec; [|done]. intros [= <-]. destruct (drop_digits_split s) as (ds & Es & Hds & _).
  exists (c :: ds). split; [cbn; by f_equal|]. apply digits_number. by constructor.
Qed.

Lemma frac_part_inv s r : frac_part s = Some r -> exists ds, s = ds ++ r /\ Forall (fun c => number_char c = true) ds /\ (ds = [] \/ head s = Some 46).
Proof.
  unfold frac_part. intros E. destruct s as [|c s]; [injection E as <-; exists []; split_and!; [done | constructor | by left]|].
  destruct (decide (c = 46)) as [->|Hne].
  - apply digits1_inv in E as (ds & -> & Hd). exists (46 :: ds). split_and!; [done | by constructor | by right].
  - assert (r = c :: s) as ->; [|exists []; split_and!; [done | constructor | by left]].
    destruct c as [|p]; [by injection E|]. repeat (destruct p as [p|p|]; try (by injection E); try done).
Qed.

Lemma exp_part_inv s : exp_part s = Some [] -> Forall (fun c => number_char c = true) s /\ (s = [] \/ head s = Some 101 \/ head s = Some 69).
Proof.
  unfold exp_part. destruct s as [|c s]; [by split; [constructor|left]|]. destruct ((c =? 101) || (c =? 69)) eqn:Ec; [|done].
  intros E. assert (Hc : c = 101 \/ c = 69) by (apply orb_true_iff in Ec as [?%N.eqb_eq|?%N.eqb_eq]; auto).
  split; [|right; cbn; destruct Hc as [->| ->]; auto]. constructor; [by destruct Hc as [->| ->]|].
  assert (Hs : forall t, digits1 t = Some [] -> Forall (fun c => number_char c = true) t).
  { intros t Ht. apply digits1_inv in Ht as (ds & -> & Hd). by rewrite app_nil_r. }
  destruct s as [|c' s]; [done|]. destruct (decide (c' = 43)) as [->|]; [constructor; [done | by apply Hs]|].
  destruct (decide (c' = 45)) as [->|]; [constructor; [done | by apply Hs]|]. apply Hs. rewrite <- E.
  destruct c' as [|p]; [done|]. repeat (destruct p as [p|p|]; try done).
Qed.

(** A number: an optional sign, digits, and the rest. *)
Lemma is_number_inv s : is_number s = true -> exists sign c ds r, s = sign ++ c :: ds ++ r /\ (sign = [] \/ sign = [45]) /\ is_digit c = true /\
  Forall (fun c => is_digit c = true) ds /\ (ds = [] \/ c <> 48) /\ Forall (fun c => number_char c = true) r /\
  (r = [] \/ exists c, head r = Some c /\ (c = 46 \/ c = 101 \/ c = 69)).
Proof.
  unfold is_number. intros E. assert (Hs : exists sign t, s = sign ++ t /\ (sign = [] \/ sign = [45]) /\
      match int_part t with Some s => match frac_part s with Some s => match exp_part s with Some [] => true | _ => false end | None => false end | None => false end = true).
  { destruct s as [|c s]; [done|]. destruct (decide (c = 45)) as [->|Hne]; [exists [45], s; split_and!; [done | by right | done]|].
    exists [], (c :: s). split_and!; [done | by left|]. revert E. cbn [strip_minus]. by rewrite (proj2 (N.eqb_neq c 45)). }
  destruct Hs as (sign & t & -> & Hsign & Et). destruct (int_part t) as [r|] eqn:Ei; [|done]. apply int_part_inv in Ei as (c & ds & -> & Hc & Hds & Hz & _).
  destruct (frac_part r) as [r2|] eqn:Ef; [|done]. apply frac_part_inv in Ef as (fs & -> & Hfs & Hh). destruct (exp_part r2) as [[|? ?]|] eqn:Ex; try done.
  apply exp_part_inv in Ex as [Hx Hxh]. exists sign, c, ds, (fs ++ r2). split_and!; try done; [by apply Forall_app|].
  destruct Hh as [->|Hh]; cbn [app] in *; [|right; exists 46; auto]. destruct Hxh as [->|Hxh]; [by left|]. right. destruct Hxh as [Hxh|Hxh]; rewrite Hxh; naive_solver.
Qed.

Lemma number_chars s : is_number s = true -> Forall (fun c => number_char c = true) s.
Proof.
  intros (sign & c & ds & r & -> & Hs & Hc & Hds & _ & Hr & _)%is_number_inv. rewrite Forall_app, Forall_cons, Forall_app.
  split_and!; [by destruct Hs as [->| ->]; repeat constructor | unfold number_char; by rewrite Hc | by apply digits_number | done].
Qed.

(** What may follow a number. *)
Definition ends_number (rest : bytes) : Prop := match rest with c :: _ => number_char c = false | [] => True end.

Lemma number_span_app n rest : Forall (fun c => number_char c = true) n -> ends_number rest -> number_span (n ++ rest) = (n, rest).
Proof.
  intros Hn Hr. induction Hn as [|c n Hc _ IH]; cbn; [|by rewrite Hc, IH]. destruct rest as [|c rest]; [done|]. cbn in *. by rewrite Hr.
Qed.

Lemma read_value_number fuel n rest : is_number n = true -> ends_number rest -> read_value (S fuel) (n ++ rest) = Some (JNumber n, rest).
Proof.
  intros Hn Hr. assert (E : read_value (S fuel) (n ++ rest) = read_number (n ++ rest)).
  { apply is_number_inv in Hn as (sign & c & ds & r & -> & [->| ->] & Hc & _); [|done]. apply digit_cases in Hc. decompose [or] Hc; by subst. }
  rewrite E. unfold read_number. rewrite number_span_app by (done || by apply number_chars). by rewrite Hn.
Qed.

(** An integral text with [".0"] after it. *)
Lemma number_point_zero s : is_number s = true -> existsb (fun b => (b =? 46) || (b =? 101) || (b =? 69)) s = false -> is_number (s ++ text ".0") = true.
Proof.
  intros (sign & c & ds & r & -> & Hs & Hc & Hds & Hz & _ & Hh)%is_number_inv He. assert (r = []) as ->.
  { destruct Hh as [|(x & Hx & Hxc)]; [done|]. destruct r as [|x' r]; [done|]. injection Hx as ->. rewrite !existsb_app in He. cbn in He. rewrite existsb_app in He.
    apply orb_false_iff in He as [_ He]. apply orb_false_iff in He as [_ He]. apply orb_false_iff in He as [_ He]. cbn in He. by destruct Hxc as [->|[->| ->]]. }
  rewrite app_nil_r. clear He Hh. assert (Hi : int_part (c :: ds ++ text ".0") = Some (text ".0")).
  { destruct Hz as [->|Hz]; [|].
    - apply digit_cases in Hc. decompose [or] Hc; by subst.
    - assert (Hd : drop_digits (ds ++ text ".0") = text ".0") by by apply drop_digits_app. apply digit_cases in Hc. decompose [or] Hc; subst; try done; cbn [int_part]; cbn [is_digit]; by rewrite Hd. }
  unfold is_number. rewrite <- app_assoc. cbn [app]. destruct Hs as [->| ->]; cbn [app].
  - replace (strip_minus (c :: ds ++ text ".0")) with (c :: ds ++ text ".0"); [by rewrite Hi|].
    apply digit_cases in Hc. decompose [or] Hc; by subst.
  - change (strip_minus (45 :: c :: ds ++ text ".0")) with (c :: ds ++ text ".0"). by rewrite Hi.
Qed.

(** Integers have no leading zero. *)
Lemma decimal_number n : is_number (decimal n) = true /\ head (decimal n) <> Some 45.
Proof.
  assert (Hd : Forall (fun c => is_digit c = true) (decimal n)).
  { eapply Forall_impl; [apply decimal_digits|]. intros c Hc. cbn in Hc. unfold is_digit. by rewrite (proj2 (N.leb_le 48 c)), (proj2 (N.leb_le c 57)) by lia. }
  assert (Hz : decimal n = [48] \/ exists c ds, decimal n = c :: ds /\ c <> 48).
  { unfold decimal. assert (E : N.to_uint n = Decimal.unorm (N.to_uint n)) by (by rewrite <- DecimalN.Unsigned.to_of, DecimalN.Unsigned.of_to).
    rewrite E. unfold Decimal.unorm. pose proof (DecimalFacts.nzhead_nonzero (N.to_uint n)) as Hnz.
    destruct (Decimal.nzhead (N.to_uint n)) as [|u|u|u|u|u|u|u|u|u|u]; [by left | by destruct (Hnz u) | right; cbn [uint_bytes]; eexists _, _; by split..]. }
  destruct Hz as [->|(c & ds & Ec & Hc)]; [done|]. rewrite Ec in Hd |- *. inversion Hd as [|? ? Hcd Hds]; subst. split; [|intros [= ->]; by vm_compute in Hcd].
  assert (Hi : int_part (c :: ds) = Some []).
  { pose proof (drop_digits_app ds [] Hds I) as E. rewrite app_nil_r in E. apply digit_cases in Hcd. decompose [or] Hcd; subst; try done; cbn [int_part is_digit]; by rewrite E. }
  unfold is_number. replace (strip_minus (c :: ds)) with (c :: ds); [by rewrite Hi|].
  apply digit_cases in Hcd. decompose [or] Hcd; by subst.
Qed.

Lemma show_int_number i : is_number (show_int i) = true.
Proof.
  destruct i as [|p|p]; [done | apply decimal_number |]. cbn [show_int]. destruct (decimal_number (Npos p)) as [Hn Hh]. revert Hn. unfold is_number.
  replace (strip_minus (decimal (Npos p))) with (decimal (Npos p)); [done|].
  destruct (decimal (Npos p)) as [|c ds]; [done|]. cbn in Hh |- *. destruct (N.eqb_spec c 45) as [->|]; done.
Qed.

(** ** Strings *)

Lemma escape_plain c : needs_escape c = false -> escape_char c = [c].
Proof.
  unfold needs_escape, escape_char. intros [[-> ->]%orb_false_iff Hc]%orb_false_iff. rewrite Hc. apply N.ltb_ge in Hc.
  repeat (rewrite (proj2 (N.eqb_neq _ _)) by lia). done.
Qed.

Lemma escape_concat s : escape_json_str s = concat (map escape_char s).
Proof.
  unfold escape_json_str. destruct (existsb needs_escape s) eqn:E; [done|]. cbn [negb]. induction s as [|c s IH]; [done|]. cbn in *.
  apply orb_false_iff in E as [Ec E]. by rewrite escape_plain, <- IH.
Qed.

Definition cons_read (c : N) (r : option (bytes * bytes)) : option (bytes * bytes) := match r with Some (r, s) => Some (c :: r, s) | None => None end.

Lemma read_escaped_char c t : read_string (escape_char c ++ t) = cons_read c (read_string t).
Proof.
  destruct (decide (c < 32)) as [Hlt|Hge].
  - assert (exists n, c = N.of_nat n /\ (n < 32)%nat) as (n & -> & Hn) by (exists (N.to_nat c); lia). do 32 (destruct n as [|n]; [reflexivity|]). lia.
  - destruct (N.eq_dec c quote) as [->|Hq]; [done|]. destruct (N.eq_dec c backslash) as [->|Hb]; [done|].
    rewrite escape_plain; [|unfold needs_escape; rewrite !orb_false_iff, N.eqb_neq, N.eqb_neq, N.ltb_ge; lia].
    cbn [app read_string]. rewrite (proj2 (N.eqb_neq c quote)), (proj2 (N.eqb_neq c backslash)), (proj2 (N.ltb_ge c 32)) by (done || lia). done.
Qed.

Lemma read_escaped_string s rest : read_string (escape_json_str s ++ quote :: rest) = Some (s, rest).
Proof.
  rewrite escape_concat. induction s as [|c s IH]; [done|]. cbn [map concat]. by rewrite <- app_assoc, read_escaped_char, IH.
Qed.

(** ** The text of a value reads back *)

Lemma AnyValue_ind' (P : AnyValue -> Prop) :
  P NoValue -> (forall s, P (StringValue s)) -> (forall b, P (BoolValue b)) -> (forall i, P (IntValue i)) -> (forall d, P (DoubleValue d)) ->
  (forall vs, Forall P vs -> P (ArrayValue vs)) ->
  (forall kvs, Forall (fun kv => forall v, kv_value kv = Some v -> P v) kvs -> P (KvlistValue kvs)) ->
  (forall bs, P (BytesValue bs)) -> P OtherValue -> forall v, P v.
Proof.
  intros Hn Hs Hb Hi Hd Ha Hk Hy Ho. fix IH 1.
  intros [|s|b|i|d|vs|kvs|bs|]; [exact Hn | apply Hs | apply Hb | apply Hi | apply Hd | apply Ha | apply Hk | apply Hy | exact Ho].
  - induction vs as [|v vs IHvs]; constructor; [apply IH | exact IHvs].
  - induction kvs as [|[key [v|]] kvs IHkvs]; constructor; try exact IHkvs; cbn; [intros v' [= <-]; apply IH | intros v' [=]].
Qed.

Lemma winners_from attrs key val : (key, val) ∈ winners id attrs -> exists kv, kv ∈ attrs /\ kv_value kv = Some val.
Proof.
  induction attrs as [|[key' [val'|]] attrs IH]; cbn [winners]; [by intros ?%not_elem_of_nil | |].
  - assert (Htl : (key, val) ∈ winners id attrs -> exists kv, kv ∈ mkKeyValue key' (Some val') :: attrs /\ kv_value kv = Some val).
    { intros (kv & ? & ?)%IH. exists kv. split; [by right | done]. }
    destruct (_ && _); [|done]. intros [[= -> ->]|?]%elem_of_cons; [|auto]. eexists. split; [by left | done].
  - intros (kv & ? & ?)%IH. exists kv. split; [by right | done].
Qed.

Section ReadBack.
Context `{Hex, !HexLaws} `{ShowFloat, !ShowFloatLaws}.

Lemma chunks_concat fuel n bs : (0 < n)%nat -> (length bs <= fuel)%nat -> concat (chunks fuel n bs) = bs.
Proof.
  intros Hn. revert bs. induction fuel as [|fuel IH]; intros [|b bs] Hl; cbn [length] in *; try done; [lia|]. cbn [chunks].
  cbn [concat]. rewrite IH; [apply take_drop|]. rewrite length_drop. cbn [length]. lia.
Qed.

Lemma hex_encode_nil : hex_encode [] = [].
Proof. apply length_zero_iff_nil. by rewrite hex_encode_length. Qed.

(** Encoding in chunks is encoding. *)
Lemma write_hex_encode bs : write_hex_to_string bs = hex_encode bs.
Proof.
  unfold write_hex_to_string. transitivity (hex_encode (concat (chunks (length bs) 32 bs))); [|by rewrite chunks_concat by lia].
  generalize (chunks (length bs) 32 bs). intros cs.
  induction cs as [|c cs IH]; cbn; [by rewrite hex_encode_nil | by rewrite hex_encode_app, IH].
Qed.

Lemma plain_hex a : escape_json_str (hex_encode a) = hex_encode a.
Proof.
  unfold escape_json_str. replace (existsb needs_escape (hex_encode a)) with false; [done|]. symmetry. apply not_true_iff_false. rewrite existsb_exists.
  intros (c & Hin & Hc). pose proof (hex_encode_chars a) as Hf. rewrite List.Forall_forall in Hf. specialize (Hf c Hin). cbn in Hf.
  unfold needs_escape in Hc. rewrite !orb_true_iff, N.ltb_lt, !N.eqb_eq in Hc. unfold quote, backslash in Hc. lia.
Qed.

Lemma write_double_number d : is_finite d = true -> is_number (write_double d) = true.
Proof.
  intros Hf. unfold write_double. rewrite Hf. cbv zeta. destruct (existsb _ (show_f64 d)) eqn:E; [by apply show_f64_number|].
  apply number_point_zero; [by apply show_f64_number | exact E].
Qed.

(** A value's text starts neither an end nor a comma. *)
Lemma write_head v : exists c t, write_any_value_json v = c :: t /\ c <> 93.
Proof.
  assert (Hnum : forall s, is_number s = true -> exists c t, s = c :: t /\ c <> 93).
  { intros s (sign & c & ds & r & -> & [->| ->] & Hc & _)%is_number_inv; [|by eexists _, _]. eexists _, _. split; [done|]. intros ->. done. }
  destruct v as [|s|b|i|d|vs|kvs|bs|]; cbn [write_any_value_json]; try (by eexists _, _).
  - destruct b; by eexists _, _.
  - apply Hnum, show_int_number.
  - unfold write_double. pose proof (write_double_number d) as Hd. unfold write_double in Hd. destruct (is_finite d); [by apply Hnum, Hd | by eexists _, _].
  - rewrite write_kvlist_winners. by eexists _, _.
Qed.

Lemma read_array fuel c s : c <> 93 -> read_value (S fuel) (91 :: c :: s) = match read_items fuel (c :: s) with Some (items, s) => Some (JArray items, s) | None => None end.
Proof. intros Hc. destruct c as [|p]; [done|]. repeat (destruct p as [p|p|]; try done). Qed.

(** What is claimed of a value. *)
Definition reads_back (v : AnyValue) : Prop := forall fuel rest, (length (write_any_value_json v) < fuel)%nat -> ends_number rest ->
  read_value fuel (write_any_value_json v ++ rest) = Some (json_of v, rest).

(** The items after the first, and a member with the members after it. *)
Definition more_items (vs : list AnyValue) : bytes := concat (map (fun v => 44 :: write_any_value_json v) vs).
Definition member_text (key : bytes) (v : AnyValue) : bytes := quote :: escape_json_str key ++ quote :: 58 :: write_any_value_json v.
Definition more_members (ms : list (bytes * AnyValue)) : bytes := concat (map (fun m => 44 :: member_text m.1 m.2) ms).

Lemma join_more vs : forall idx, join_values write_any_value_json vs (S idx) = more_items vs.
Proof. induction vs as [|v vs IH]; intros idx; [done|]. cbn [join_values]. rewrite IH. done. Qed.

Lemma members_more ms : write_members write_any_value_json ms false = more_members ms.
Proof. induction ms as [|[key v] ms IH]; [done|]. cbn [write_members]. rewrite IH. done. Qed.

Lemma read_items_last fuel s v rest : read_value fuel s = Some (v, 93 :: rest) -> read_items (S fuel) s = Some ([v], rest).
Proof. intros E. cbn [read_items]. by rewrite E. Qed.

Lemma read_items_more fuel s v t vs rest : read_value fuel s = Some (v, 44 :: t) -> read_items fuel t = Some (vs, rest) -> read_items (S fuel) s = Some (v :: vs, rest).
Proof. intros E Et. cbn [read_items]. by rewrite E, Et. Qed.

Lemma read_members_last fuel key s v rest : read_value fuel s = Some (v, 125 :: rest) ->
  read_members (S fuel) (quote :: escape_json_str key ++ quote :: 58 :: s) = Some ([(key, v)], rest).
Proof. intros E. unfold quote at 1. cbn [read_members]. by rewrite read_escaped_string, E. Qed.

Lemma read_members_more fuel key s v t ms rest : read_value fuel s = Some (v, 44 :: t) -> read_members fuel t = Some (ms, rest) ->
  read_members (S fuel) (quote :: escape_json_str key ++ quote :: 58 :: s) = Some ((key, v) :: ms, rest).
Proof. intros E Et. unfold quote at 1. cbn [read_members]. by rewrite read_escaped_string, E, Et. Qed.

Lemma items_read_back vs : forall v fuel rest, reads_back v -> Forall reads_back vs ->
  (S (length (write_any_value_json v ++ more_items vs)) < fuel)%nat ->
  read_items fuel (write_any_value_json v ++ more_items vs ++ 93 :: rest) = Some (json_of v :: map json_of vs, rest).
Proof.
  induction vs as [|v' vs IH]; intros v fuel rest Hv Hvs Hl; (destruct fuel as [|fuel]; [lia|]); rewrite length_app in Hl.
  - apply read_items_last, Hv; [lia | done].
  - apply Forall_cons in Hvs as [Hv' Hvs]. change (more_items (v' :: vs)) with ((44 :: write_any_value_json v') ++ more_items vs) in Hl |- *.
    rewrite length_app in Hl. cbn [length] in Hl. rewrite <- app_assoc. cbn [app].
    eapply read_items_more; [apply Hv; [lia | done]|]. apply IH; [done..|]. rewrite length_app. lia.
Qed.

Lemma members_read_back ms : forall key v fuel rest, reads_back v -> Forall (fun m => reads_back m.2) ms ->
  (S (length (member_text key v ++ more_members ms)) < fuel)%nat ->
  read_members fuel (member_text key v ++ more_members ms ++ 125 :: rest) = Some ((key, json_of v) :: map (prod_map id json_of) ms, rest).
Proof.
  assert (Hlen : forall key v, (4 + length (write_any_value_json v) <= S (length (member_text key v)))%nat).
  { intros key v. unfold member_text. cbn [length]. rewrite length_app. cbn [length]. lia. }
  induction ms as [|[key' v'] ms IH]; intros key v fuel rest Hv Hms Hl; (destruct fuel as [|fuel]; [lia|]); rewrite length_app in Hl; specialize (Hlen key v);
    unfold member_text at 1; cbn [app]; rewrite <- app_assoc; cbn [app].
  - apply read_members_last, Hv; [lia | done].
  - apply Forall_cons in Hms as [Hv' Hms]. change (more_members ((key', v') :: ms)) with ((44 :: member_text key' v') ++ more_members ms) in Hl |- *.
    rewrite length_app in Hl. cbn [length] in Hl. rewrite <- app_assoc. cbn [app].
    eapply read_members_more; [apply Hv; [lia | done]|]. apply IH; [done..|]. rewrite length_app. lia.
Qed.

Lemma value_reads_back v : reads_back v.
Proof.
  induction v as [|s|b|i|d|vs Hvs|kvs Hkvs|bs|] using AnyValue_ind'; intros fuel rest Hl Hr; (destruct fuel as [|fuel]; [lia|]); cbn [write_any_value_json json_of] in *.
  - done.
  - cbn [app read_value]. rewrite <- app_assoc. cbn [app]. unfold quote at 1. cbn. by rewrite read_escaped_string.
  - by destruct b.
  - apply read_value_number; [apply show_int_number | done].
  - destruct (is_finite d) eqn:Ef; [by apply read_value_number; [apply write_double_number|]|]. unfold write_double. by rewrite Ef.
  - destruct vs as [|v vs]; [done|]. apply Forall_cons in Hvs as [Hv Hvs]. cbn [join_values] in *. rewrite join_more in Hl |- *. rewrite <- !app_assoc.
    rewrite !length_app in Hl. cbn [Nat.ltb Nat.leb app length] in *. change (length (text "[")) with 1%nat in Hl. change (length (text "]")) with 1%nat in Hl.
    pose proof (items_read_back vs v fuel rest Hv Hvs ltac:(rewrite length_app; lia)) as Hi. destruct (write_head v) as (c & t & E & Hc).
    change (text "]") with [93]. cbn [app]. rewrite E in Hi |- *. cbn [app] in Hi |- *. change (text "[") with [91]. cbn [app]. rewrite read_array by done. by rewrite Hi.
  - rewrite write_kvlist_winners in Hl |- *. rewrite (winners_map json_of).
    assert (Hms : Forall (fun m => reads_back m.2) (winners id kvs)).
    { apply Forall_forall. intros [key v] (kv & Hin & Hv)%winners_from. rewrite Forall_forall in Hkvs. by eapply Hkvs. }
    destruct (winners id kvs) as [|[key v] ms]; [done|]. apply Forall_cons in Hms as [Hv Hms]. cbn [snd] in Hv. cbn [write_members] in *.
    rewrite members_more in Hl |- *. rewrite <- !app_assoc. change (write_member write_any_value_json key v true) with (member_text key v) in Hl |- *.
    rewrite !length_app in Hl. change (length (text "{")) with 1%nat in Hl. change (length (text "}")) with 1%nat in Hl.
    pose proof (members_read_back ms key v fuel rest Hv Hms ltac:(rewrite length_app; lia)) as E.
    change (text "}") with [125]. change (text "{") with [123]. cbn [app]. cbn [member_text app] in E |- *. cbn. cbn in E. by rewrite E.
  - cbn [app read_value]. rewrite <- app_assoc. cbn [app]. unfold quote at 1. cbn. rewrite write_hex_encode, <- plain_hex. by rewrite read_escaped_string, plain_hex.
  - done.
Qed.

(** C18 (attributes_read_back). The JSON text of a list of attributes, written with
    either way of finding the overwritten ones, reads back as an object that has
    each key once, with the last value set under it and no other key. *)
Theorem attributes_read_back attrs :
  parse_json (write_attributes_json attrs) = Some (JObject (winners json_of attrs)) /\
  NoDup (map fst (winners json_of attrs)) /\
  forall key j, (key, j) ∈ winners json_of attrs <-> exists v, last_set key attrs = Some v /\ j = json_of v.
Proof.
  split_and!; [|apply winners_nodup|].
  - unfold parse_json. pose proof (value_reads_back (KvlistValue attrs) (S (length (write_attributes_json attrs))) [] ltac:(cbn; unfold write_attributes_json, write_kvlist_json; lia) I) as E.
    rewrite app_nil_r in E. unfold write_attributes_json, write_kvlist_json in E |- *. cbn [write_any_value_json] in E. by rewrite E.
  - intros key j. rewrite winners_map, list_elem_of_fmap. split.
    + intros ([k v] & [= -> ->] & Hin). exists v. by rewrite <- winners_last.
    + intros (v & Hv & ->). exists (key, v). by rewrite winners_last.
Qed.

(** The name of the service is the text of the value its attribute has in the
    JSON object. *)
Lemma service_name_of attrs : extract_service_name attrs = from_option any_value_to_string (text "unknown") (last_set SERVICE_NAME attrs).
Proof.
  unfold extract_service_name. fold (last_set SERVICE_NAME attrs). destruct (last_set SERVICE_NAME attrs) as [v|] eqn:E; [|done].
  destruct v; try done. apply winners_last in E. exfalso. clear -E.
  induction attrs as [|[key [val|]] attrs IH]; cbn [winners] in E; [by apply not_elem_of_nil in E | | by apply IH].
  destruct (has_value val) eqn:Ev; cbn [andb] in E; [|by apply IH]. destruct (negb _); [|by apply IH].
  apply elem_of_cons in E as [[= _ <-]|]; [done | by apply IH].
Qed.

(** The shortcuts for values that are texts already give the same text. *)
Lemma appended_value val : append_any_value_to_builder val = from_option any_value_to_string [] val.
Proof.
  destruct val as [[]|]; try done. cbn. rewrite write_hex_encode. unfold append_hex_to_builder. destruct bs; [by rewrite hex_encode_nil | done].
Qed.
End ReadBack.

(** ** A concrete hex encoder and float text *)
Module AttributesDemo.

#[export] Instance hex : Hex := {| hex_encode := flat_map (hex_fixed 2) |}.

#[export] Instance hex_laws : HexLaws.
Proof.
  split.
  - intros a b. cbn. apply flat_map_app.
  - intros a. cbn. induction a as [|x a IH]; [done|]. cbn. rewrite IH. lia.
  - intros a. cbn. induction a as [|x a IH]; [constructor|]. change (flat_map (hex_fixed 2) (x :: a)) with (hex_fixed 2 x ++ flat_map (hex_fixed 2) a).
    apply Forall_app. split; [|done]. cbn [hex_fixed]. apply Forall_cons; split; [apply hex_digit_range, nibble_range|]. apply Forall_cons; split; [apply hex_digit_range, nibble_range | constructor].
Qed.

(** The text of 1.5, 2 or any other finite double. *)
#[export] Instance show_float : ShowFloat := {| show_f64 d := if d =? 4609434218613702656 then text "1.5" else text "2" |}.

#[export] Instance show_float_laws : ShowFloatLaws.
Proof. split. intros d _. cbn. by destruct (d =? _). Qed.

Definition attrs : list KeyValue :=
  [mkKeyValue (text "k") (Some (IntValue 1)); mkKeyValue (text "service.name") (Some (StringValue (text "a\b"))); mkKeyValue (text "k") (Some (DoubleValue 4611686018427387904));
   mkKeyValue (text "k") None; mkKeyValue (text "l") (Some (ArrayValue [BoolValue true; BytesValue [1; 255]; KvlistValue []; OtherValue]))].

Lemma attributes_read_back_witness :
  write_attributes_json attrs = text "{" ++ [34] ++ text "service.name" ++ [34] ++ text ":" ++ [34] ++ text "a\\b" ++ [34] ++ text ","
    ++ [34] ++ text "k" ++ [34] ++ text ":2.0," ++ [34] ++ text "l" ++ [34] ++ text ":[true," ++ [34] ++ text "01ff" ++ [34] ++ text ",{},null]}" /\
  parse_json (write_attributes_json attrs) = Some (JObject (winners json_of attrs)) /\
  NoDup (map fst (winners json_of attrs)) /\
  forall key j, (key, j) ∈ winners json_of attrs <-> exists v, last_set key attrs = Some v /\ j = json_of v.
Proof. split; [by vm_compute|]. apply (attributes_read_back attrs). Defined.

End AttributesDemo.
