(* ===== verification/OtlpDecode.v ===== *)
(** OTLP requests as columns: crates/arrow-codec/src/logs.rs, traces.rs and
    metrics.rs.

    An Arrow builder is the list of the values appended to it; its capacity is
    not modelled.  [RecordBatch::try_new] is a parameter that is handed the schema
    and the finished columns.  Of the generated messages the fields read are kept;
    an [f64] is its bits. *)

From S2P Require Import Prelude Text Attributes.
Local Open Scope N_scope.

(** ** Schemas and columns *)

Inductive DataType : Type := TimestampNanosecond | DtInt32 | DtUInt32 | DtUtf8 | DtFloat64.

#[export] Instance DataType_eq_dec : EqDecision DataType.
Proof. solve_decision. Defined.

(** A field, never nullable here. *)
Record Field := mkField { f_name : string; f_type : DataType }.

Definition LOGS_SCHEMA : list Field :=
  [mkField "timestamp" TimestampNanosecond; mkField "observed_timestamp" TimestampNanosecond; mkField "severity_number" DtInt32; mkField "severity_text" DtUtf8;
   mkField "body" DtUtf8; mkField "trace_id" DtUtf8; mkField "span_id" DtUtf8; mkField "flags" DtUInt32; mkField "attributes" DtUtf8; mkField "service_name" DtUtf8;
   mkField "resource_attributes" DtUtf8; mkField "scope_name" DtUtf8; mkField "scope_version" DtUtf8].

Definition TRACES_SCHEMA : list Field :=
  [mkField "trace_id" DtUtf8; mkField "span_id" DtUtf8; mkField "trace_state" DtUtf8; mkField "parent_span_id" DtUtf8; mkField "name" DtUtf8; mkField "kind" DtInt32;
   mkField "timestamp" TimestampNanosecond; mkField "end_time" TimestampNanosecond; mkField "attributes" DtUtf8; mkField "service_name" DtUtf8;
   mkField "resource_attributes" DtUtf8; mkField "scope_name" DtUtf8; mkField "scope_version" DtUtf8; mkField "status_code" DtInt32; mkField "status_message" DtUtf8].

Definition METRICS_SCHEMA : list Field :=
  [mkField "name" DtUtf8; mkField "description" DtUtf8; mkField "unit" DtUtf8; mkField "timestamp" TimestampNanosecond; mkField "value" DtFloat64;
   mkField "attributes" DtUtf8; mkField "service_name" DtUtf8; mkField "resource_attributes" DtUtf8; mkField "scope_name" DtUtf8; mkField "scope_version" DtUtf8].

Inductive Column : Type :=
| TimestampColumn (vs : list Z) | Int32Column (vs : list Z) | UInt32Column (vs : list N) | Utf8Column (vs : list bytes) | Float64Column (vs : list N).

(** ** Messages *)

Record Scope := mkScope { sc_name : bytes; sc_version : bytes }.

(** [ScopeLogs], [ScopeSpans], [ScopeMetrics] and their resource messages, over
    the type of their records; a resource is its attributes. *)
Record ScopeOf (R : Type) := mkScopeOf { so_scope : option Scope; so_records : list R }.
Arguments mkScopeOf {R} _ _.
Arguments so_scope {R} _.
Arguments so_records {R} _.

Record ResourceOf (R : Type) := mkResourceOf { ro_resource : option (list KeyValue); ro_scopes : list (ScopeOf R) }.
Arguments mkResourceOf {R} _ _.
Arguments ro_resource {R} _.
Arguments ro_scopes {R} _.

Record LogRecord := mkLogRecord {
  lr_time_unix_nano : N; lr_observed_time_unix_nano : N; lr_severity_number : Z; lr_severity_text : bytes; lr_body : option AnyValue;
  lr_attributes : list KeyValue; lr_flags : N; lr_trace_id : bytes; lr_span_id : bytes }.

Record Status := mkStatus { st_message : bytes; st_code : Z }.

Record Span := mkSpan {
  sp_trace_id : bytes; sp_span_id : bytes; sp_trace_state : bytes; sp_parent_span_id : bytes; sp_name : bytes; sp_kind : Z;
  sp_start_time_unix_nano : N; sp_end_time_unix_nano : N; sp_attributes : list KeyValue; sp_status : option Status }.

Inductive NumberValue : Type := AsDouble (bits : N) | AsInt (i : Z).

Record NumberDataPoint := mkNumberPoint { np_attributes : list KeyValue; np_time_unix_nano : N; np_value : option NumberValue }.
Record HistogramDataPoint := mkHistogramPoint { hp_attributes : list KeyValue; hp_time_unix_nano : N; hp_count : N; hp_sum : option N }.

(** [OtherData] is an exponential histogram or a summary. *)
Inductive MetricData : Type :=
| Gauge (data_points : list NumberDataPoint) | Sum (data_points : list NumberDataPoint) | Histogram (data_points : list HistogramDataPoint) | OtherData.

Record Metric := mkMetric { m_name : bytes; m_description : bytes; m_unit : bytes; m_data : option MetricData }.

(** ** Integers as doubles *)

(** [i as f64]: the bits of the double nearest to [m], ties to even; 53 bits of
    mantissa, the leading one implied. *)
Definition magnitude_as_f64 (m : N) : N :=
  if m =? 0 then 0
  else
    let e := N.log2 m in
    let '(q, e) :=
      if e <=? 52 then (N.shiftl m (52 - e), e)
      else
        let s := e - 52 in
        let q := N.shiftr m s in
        let r := m - N.shiftl q s in
        let half := N.shiftl 1 (s - 1) in
        let q := if (half <? r) || ((half =? r) && N.odd q) then q + 1 else q in
        if q =? 9007199254740992 then (4503599627370496, e + 1) else (q, e) in
    N.shiftl (e + 1023) 52 + (q - 4503599627370496).

Definition i64_as_f64 (i : Z) : N := magnitude_as_f64 (Z.abs_N i) + (if (i <? 0)%Z then N.shiftl 1 63 else 0).
Definition u64_as_f64 (n : N) : N := magnitude_as_f64 n.

(** ** The shared part of a record *)

(** The service, the resource's attributes and the scope a record is under. *)
Record Context_ := mkContext { cx_service_name : bytes; cx_resource_attributes : bytes; cx_scope_name : bytes; cx_scope_version : bytes }.

(** Walking over a list while it succeeds. *)
Fixpoint for_each {A S} (f : S -> A -> result S PipelineError) (s : S) (l : list A) : result S PipelineError :=
  match l with [] => Ok s | a :: l => let? s := f s a in for_each f s l end.

Section Decode.
Context `{Hex} `{ShowFloat}.

Definition resource_context (resource : option (list KeyValue)) : bytes * bytes :=
  match resource with
  | Some attributes => (extract_service_name attributes, write_attributes_json attributes)
  | None => (text "unknown", text "{}")
  end.

Definition scope_context (scope : option Scope) : bytes * bytes := match scope with Some s => (sc_name s, sc_version s) | None => ([], []) end.

Definition context_of (resource : option (list KeyValue)) (scope : option Scope) : Context_ :=
  let '(service_name, resource_attrs_json) := resource_context resource in
  let '(scope_name, scope_version) := scope_context scope in
  mkContext service_name resource_attrs_json scope_name scope_version.

(** The three nested loops of every decoder, around the body of the innermost. *)
Definition decode_loop {R B} (append : Context_ -> B -> R -> result B PipelineError) (builders : B) (req : list (ResourceOf R)) : result B PipelineError :=
  for_each (fun builders r => for_each (fun builders s => for_each (append (context_of (ro_resource r) (so_scope s))) builders (so_records s)) builders (ro_scopes r))
    builders req.

(** The records counted for the builders' capacity. *)
Definition total_records {R} (records_of : R -> N) (req : list (ResourceOf R)) : N :=
  fold_left (fun total r => fold_left (fun total s => fold_left (fun total x => total +us records_of x) (so_records s) total) (ro_scopes r) total) req 0.

(** ** Logs *)

Record LogBuilders := mkLogBuilders {
  lb_timestamp : list Z; lb_observed_timestamp : list Z; lb_severity_num : list Z; lb_severity_text : list bytes; lb_body : list bytes; lb_trace_id : list bytes;
  lb_span_id : list bytes; lb_flags : list N; lb_attributes : list bytes; lb_service_name : list bytes; lb_resource_attributes : list bytes;
  lb_scope_name : list bytes; lb_scope_version : list bytes }.

Definition new_log_builders : LogBuilders := mkLogBuilders [] [] [] [] [] [] [] [] [] [] [] [] [].

Definition append_log (cx : Context_) (b : LogBuilders) (log : LogRecord) : result LogBuilders PipelineError :=
  let? timestamp := timestamp_to_i64 (lr_time_unix_nano log) in
  let? observed_timestamp := timestamp_to_i64 (lr_observed_time_unix_nano log) in
  Ok (mkLogBuilders (lb_timestamp b ++ [timestamp]) (lb_observed_timestamp b ++ [observed_timestamp]) (lb_severity_num b ++ [lr_severity_number log])
    (lb_severity_text b ++ [lr_severity_text log]) (lb_body b ++ [append_any_value_to_builder (lr_body log)]) (lb_trace_id b ++ [append_hex_to_builder (lr_trace_id log)])
    (lb_span_id b ++ [append_hex_to_builder (lr_span_id log)]) (lb_flags b ++ [lr_flags log]) (lb_attributes b ++ [write_attributes_json (lr_attributes log)])
    (lb_service_name b ++ [cx_service_name cx]) (lb_resource_attributes b ++ [cx_resource_attributes cx]) (lb_scope_name b ++ [cx_scope_name cx])
    (lb_scope_version b ++ [cx_scope_version cx])).

Definition log_columns (b : LogBuilders) : list Column :=
  [TimestampColumn (lb_timestamp b); TimestampColumn (lb_observed_timestamp b); Int32Column (lb_severity_num b); Utf8Column (lb_severity_text b); Utf8Column (lb_body b);
   Utf8Column (lb_trace_id b); Utf8Column (lb_span_id b); UInt32Column (lb_flags b); Utf8Column (lb_attributes b); Utf8Column (lb_service_name b);
   Utf8Column (lb_resource_attributes b); Utf8Column (lb_scope_name b); Utf8Column (lb_scope_version b)].

Section Batches.
Context {RB : Type}.
(** [RecordBatch::try_new]; an error is Arrow's. *)
Variable try_new : list Field -> list Column -> option RB.

Definition decode_logs (req : list (ResourceOf LogRecord)) : result RB PipelineError :=
  let? b := decode_loop append_log new_log_builders req in
  ok_or (try_new LOGS_SCHEMA (log_columns b)) (ArrowErr "try_new").

(** ** Traces *)

Record SpanBuilders := mkSpanBuilders {
  sb_trace_id : list bytes; sb_span_id : list bytes; sb_trace_state : list bytes; sb_parent_span_id : list bytes; sb_name : list bytes; sb_kind : list Z;
  sb_timestamp : list Z; sb_end_time : list Z; sb_attributes : list bytes; sb_service_name : list bytes; sb_resource_attributes : list bytes;
  sb_scope_name : list bytes; sb_scope_version : list bytes; sb_status_code : list Z; sb_status_message : list bytes }.

Definition new_span_builders : SpanBuilders := mkSpanBuilders [] [] [] [] [] [] [] [] [] [] [] [] [] [] [].

Definition append_span (cx : Context_) (b : SpanBuilders) (span : Span) : result SpanBuilders PipelineError :=
  let? timestamp := timestamp_to_i64 (sp_start_time_unix_nano span) in
  let? end_time := timestamp_to_i64 (sp_end_time_unix_nano span) in
  let '(code, message) := match sp_status span with Some status => (st_code status, st_message status) | None => (0%Z, []) end in
  Ok (mkSpanBuilders (sb_trace_id b ++ [append_hex_to_builder (sp_trace_id span)]) (sb_span_id b ++ [append_hex_to_builder (sp_span_id span)])
    (sb_trace_state b ++ [sp_trace_state span]) (sb_parent_span_id b ++ [append_hex_to_builder (sp_parent_span_id span)]) (sb_name b ++ [sp_name span])
    (sb_kind b ++ [sp_kind span]) (sb_timestamp b ++ [timestamp]) (sb_end_time b ++ [end_time]) (sb_attributes b ++ [write_attributes_json (sp_attributes span)])
    (sb_service_name b ++ [cx_service_name cx]) (sb_resource_attributes b ++ [cx_resource_attributes cx]) (sb_scope_name b ++ [cx_scope_name cx])
    (sb_scope_version b ++ [cx_scope_version cx]) (sb_status_code b ++ [code]) (sb_status_message b ++ [message])).

Definition span_columns (b : SpanBuilders) : list Column :=
  [Utf8Column (sb_trace_id b); Utf8Column (sb_span_id b); Utf8Column (sb_trace_state b); Utf8Column (sb_parent_span_id b); Utf8Column (sb_name b); Int32Column (sb_kind b);
   TimestampColumn (sb_timestamp b); TimestampColumn (sb_end_time b); Utf8Column (sb_attributes b); Utf8Column (sb_service_name b); Utf8Column (sb_resource_attributes b);
   Utf8Column (sb_scope_name b); Utf8Column (sb_scope_version b); Int32Column (sb_status_code b); Utf8Column (sb_status_message b)].

Definition decode_traces (req : list (ResourceOf Span)) : result RB PipelineError :=
  let? b := decode_loop append_span new_span_builders req in
  ok_or (try_new TRACES_SCHEMA (span_columns b)) (ArrowErr "try_new").

(** ** Metrics *)

Record MetricsRecordBuilder := mkMetricBuilders {
  mb_name : list bytes; mb_desc : list bytes; mb_unit : list bytes; mb_timestamp : list Z; mb_value : list N; mb_attributes : list bytes; mb_service_name : list bytes;
  mb_resource_attributes : list bytes; mb_scope_name : list bytes; mb_scope_version : list bytes }.

Definition new_metric_builders : MetricsRecordBuilder := mkMetricBuilders [] [] [] [] [] [] [] [] [] [].

Definition append_record (m : Metric) (cx : Context_) (b : MetricsRecordBuilder) (timestamp_unix_nano value : N) (attributes : bytes) : result MetricsRecordBuilder PipelineError :=
  let? timestamp := timestamp_to_i64 timestamp_unix_nano in
  Ok (mkMetricBuilders (mb_name b ++ [m_name m]) (mb_desc b ++ [m_description m]) (mb_unit b ++ [m_unit m]) (mb_timestamp b ++ [timestamp]) (mb_value b ++ [value])
    (mb_attributes b ++ [attributes]) (mb_service_name b ++ [cx_service_name cx]) (mb_resource_attributes b ++ [cx_resource_attributes cx])
    (mb_scope_name b ++ [cx_scope_name cx]) (mb_scope_version b ++ [cx_scope_version cx])).

Definition number_value (v : option NumberValue) : N := match v with Some (AsDouble d) => d | Some (AsInt i) => i64_as_f64 i | None => 0 end.

Definition process_gauge (m : Metric) (cx : Context_) (b : MetricsRecordBuilder) (gauge : list NumberDataPoint) : result MetricsRecordBuilder PipelineError :=
  for_each (fun b dp => append_record m cx b (np_time_unix_nano dp) (number_value (np_value dp)) (write_attributes_json (np_attributes dp))) b gauge.

Definition process_sum (m : Metric) (cx : Context_) (b : MetricsRecordBuilder) (sum : list NumberDataPoint) : result MetricsRecordBuilder PipelineError :=
  for_each (fun b dp => append_record m cx b (np_time_unix_nano dp) (number_value (np_value dp)) (write_attributes_json (np_attributes dp))) b sum.

Definition histogram_value (dp : HistogramDataPoint) : N := default (u64_as_f64 (hp_count dp)) (hp_sum dp).

Definition process_histogram (m : Metric) (cx : Context_) (b : MetricsRecordBuilder) (hist : list HistogramDataPoint) : result MetricsRecordBuilder PipelineError :=
  for_each (fun b dp => append_record m cx b (hp_time_unix_nano dp) (histogram_value dp) (write_attributes_json (hp_attributes dp))) b hist.

Definition append_metric (cx : Context_) (b : MetricsRecordBuilder) (m : Metric) : result MetricsRecordBuilder PipelineError :=
  match m_data m with
  | Some (Gauge gauge) => process_gauge m cx b gauge
  | Some (Sum sum) => process_sum m cx b sum
  | Some (Histogram hist) => process_histogram m cx b hist
  | Some OtherData | None => Ok b
  end.

Definition metric_columns (b : MetricsRecordBuilder) : list Column :=
  [Utf8Column (mb_name b); Utf8Column (mb_desc b); Utf8Column (mb_unit b); TimestampColumn (mb_timestamp b); Float64Column (mb_value b); Utf8Column (mb_attributes b);
   Utf8Column (mb_service_name b); Utf8Column (mb_resource_attributes b); Utf8Column (mb_scope_name b); Utf8Column (mb_scope_version b)].

Definition decode_metrics (req : list (ResourceOf Metric)) : result RB PipelineError :=
  let? b := decode_loop append_metric new_metric_builders req in
  ok_or (try_new METRICS_SCHEMA (metric_columns b)) (ArrowErr "try_new").
End Batches.
End Decode.

(** ** The rows of a request *)

Definition rows_of {R} `{Hex} `{ShowFloat} (req : list (ResourceOf R)) : list (Context_ * R) :=
  concat (map (fun r => concat (map (fun s => map (pair (context_of (ro_resource r) (so_scope s))) (so_records s)) (ro_scopes r))) req).

Section ForEach.
Context {S : Type}.

Lemma for_each_app {A} (f : S -> A -> result S PipelineError) l1 l2 s : for_each f s (l1 ++ l2) = let? s := for_each f s l1 in for_each f s l2.
Proof. revert s. induction l1 as [|a l1 IH]; intros s; [done|]. cbn. destruct (f s a); [apply IH | done]. Qed.

Lemma for_each_map {A B} (f : S -> B -> result S PipelineError) (k : A -> B) l s : for_each f s (map k l) = for_each (fun s a => f s (k a)) s l.
Proof. revert s. induction l as [|a l IH]; intros s; [done|]. cbn. destruct (f s (k a)); [apply IH | done]. Qed.

Lemma for_each_concat {A B} (f : S -> B -> result S PipelineError) (h : A -> list B) l s :
  for_each f s (concat (map h l)) = for_each (fun s a => for_each f s (h a)) s l.
Proof. revert s. induction l as [|a l IH]; intros s; [done|]. cbn. rewrite for_each_app. destruct (for_each f s (h a)); [apply IH | done]. Qed.

Lemma for_each_ext {A} (f g : S -> A -> result S PipelineError) l s : (forall s a, f s a = g s a) -> for_each f s l = for_each g s l.
Proof. intros E. revert s. induction l as [|a l IH]; intros s; [done|]. cbn. rewrite E. destruct (g s a); [apply IH | done]. Qed.

(** A step that pushes unless the record is refused. *)
Lemma for_each_push {A} (f : S -> A -> result S PipelineError) (ok : A -> bool) (push : S -> A -> S) e l s :
  (forall s a, f s a = if ok a then Ok (push s a) else Err e) -> for_each f s l = if forallb ok l then Ok (fold_left push l s) else Err e.
Proof. intros E. revert s. induction l as [|a l IH]; intros s; [done|]. cbn. rewrite E. by destruct (ok a). Qed.
End ForEach.

Section Rows.
Context `{Hex} `{ShowFloat}.

Lemma decode_loop_rows {R B} (append : Context_ -> B -> R -> result B PipelineError) b req :
  decode_loop append b req = for_each (fun b row => append row.1 b row.2) b (rows_of req).
Proof.
  unfold decode_loop, rows_of. rewrite for_each_concat. apply for_each_ext. intros s r. rewrite for_each_concat. apply for_each_ext. intros s' sc. by rewrite for_each_map.
Qed.

Definition timestamp_error : PipelineError := Internal "OTLP timestamp exceeds i64::MAX".
Definition fits (nanos : N) : bool := nanos <=? i64_max.

Lemma timestamp_fits n : timestamp_to_i64 n = if fits n then Ok (Z.of_N n) else Err timestamp_error.
Proof. done. Qed.

Definition log_times_fit (row : Context_ * LogRecord) : bool := fits (lr_time_unix_nano row.2) && fits (lr_observed_time_unix_nano row.2).
Definition span_times_fit (row : Context_ * Span) : bool := fits (sp_start_time_unix_nano row.2) && fits (sp_end_time_unix_nano row.2).

(** The table of log records: a column per field, a row per record. *)
Definition log_table (rows : list (Context_ * LogRecord)) : list Column :=
  [TimestampColumn (map (fun r => Z.of_N (lr_time_unix_nano r.2)) rows); TimestampColumn (map (fun r => Z.of_N (lr_observed_time_unix_nano r.2)) rows);
   Int32Column (map (fun r => lr_severity_number r.2) rows); Utf8Column (map (fun r => lr_severity_text r.2) rows);
   Utf8Column (map (fun r => append_any_value_to_builder (lr_body r.2)) rows); Utf8Column (map (fun r => append_hex_to_builder (lr_trace_id r.2)) rows);
   Utf8Column (map (fun r => append_hex_to_builder (lr_span_id r.2)) rows); UInt32Column (map (fun r => lr_flags r.2) rows);
   Utf8Column (map (fun r => write_attributes_json (lr_attributes r.2)) rows); Utf8Column (map (fun r => cx_service_name r.1) rows);
   Utf8Column (map (fun r => cx_resource_attributes r.1) rows); Utf8Column (map (fun r => cx_scope_name r.1) rows); Utf8Column (map (fun r => cx_scope_version r.1) rows)].

Definition span_table (rows : list (Context_ * Span)) : list Column :=
  [Utf8Column (map (fun r => append_hex_to_builder (sp_trace_id r.2)) rows); Utf8Column (map (fun r => append_hex_to_builder (sp_span_id r.2)) rows);
   Utf8Column (map (fun r => sp_trace_state r.2) rows); Utf8Column (map (fun r => append_hex_to_builder (sp_parent_span_id r.2)) rows);
   Utf8Column (map (fun r => sp_name r.2) rows); Int32Column (map (fun r => sp_kind r.2) rows); TimestampColumn (map (fun r => Z.of_N (sp_start_time_unix_nano r.2)) rows);
   TimestampColumn (map (fun r => Z.of_N (sp_end_time_unix_nano r.2)) rows); Utf8Column (map (fun r => write_attributes_json (sp_attributes r.2)) rows);
   Utf8Column (map (fun r => cx_service_name r.1) rows); Utf8Column (map (fun r => cx_resource_attributes r.1) rows); Utf8Column (map (fun r => cx_scope_name r.1) rows);
   Utf8Column (map (fun r => cx_scope_version r.1) rows); Int32Column (map (fun r => from_option st_code 0%Z (sp_status r.2)) rows);
   Utf8Column (map (fun r => from_option st_message [] (sp_status r.2)) rows)].

(** A metric's data points: time, value and attributes. *)
Definition points_of (m : Metric) : list (N * N * list KeyValue) :=
  match m_data m with
  | Some (Gauge dps) | Some (Sum dps) => map (fun dp => (np_time_unix_nano dp, number_value (np_value dp), np_attributes dp)) dps
  | Some (Histogram dps) => map (fun dp => (hp_time_unix_nano dp, histogram_value dp, hp_attributes dp)) dps
  | Some OtherData | None => []
  end.

Abbreviation PointRow := (Context_ * Metric * (N * N * list KeyValue))%type.

Definition point_rows (req : list (ResourceOf Metric)) : list PointRow := concat (map (fun row => map (pair row) (points_of row.2)) (rows_of req)).

Definition point_time_fits (row : PointRow) : bool := fits row.2.1.1.

Definition metric_table (rows : list PointRow) : list Column :=
  [Utf8Column (map (fun r => m_name r.1.2) rows); Utf8Column (map (fun r => m_description r.1.2) rows); Utf8Column (map (fun r => m_unit r.1.2) rows);
   TimestampColumn (map (fun r => Z.of_N r.2.1.1) rows); Float64Column (map (fun r => r.2.1.2) rows); Utf8Column (map (fun r => write_attributes_json r.2.2) rows);
   Utf8Column (map (fun r => cx_service_name r.1.1) rows); Utf8Column (map (fun r => cx_resource_attributes r.1.1) rows);
   Utf8Column (map (fun r => cx_scope_name r.1.1) rows); Utf8Column (map (fun r => cx_scope_version r.1.1) rows)].

(** The builders with a value more per row. *)
Definition log_builders (b : LogBuilders) (rows : list (Context_ * LogRecord)) : LogBuilders :=
  mkLogBuilders (lb_timestamp b ++ map (fun r => Z.of_N (lr_time_unix_nano r.2)) rows) (lb_observed_timestamp b ++ map (fun r => Z.of_N (lr_observed_time_unix_nano r.2)) rows)
    (lb_severity_num b ++ map (fun r => lr_severity_number r.2) rows) (lb_severity_text b ++ map (fun r => lr_severity_text r.2) rows)
    (lb_body b ++ map (fun r => append_any_value_to_builder (lr_body r.2)) rows) (lb_trace_id b ++ map (fun r => append_hex_to_builder (lr_trace_id r.2)) rows)
    (lb_span_id b ++ map (fun r => append_hex_to_builder (lr_span_id r.2)) rows) (lb_flags b ++ map (fun r => lr_flags r.2) rows)
    (lb_attributes b ++ map (fun r => write_attributes_json (lr_attributes r.2)) rows) (lb_service_name b ++ map (fun r => cx_service_name r.1) rows)
    (lb_resource_attributes b ++ map (fun r => cx_resource_attributes r.1) rows) (lb_scope_name b ++ map (fun r => cx_scope_name r.1) rows)
    (lb_scope_version b ++ map (fun r => cx_scope_version r.1) rows).

Definition span_builders (b : SpanBuilders) (rows : list (Context_ * Span)) : SpanBuilders :=
  mkSpanBuilders (sb_trace_id b ++ map (fun r => append_hex_to_builder (sp_trace_id r.2)) rows) (sb_span_id b ++ map (fun r => append_hex_to_builder (sp_span_id r.2)) rows)
    (sb_trace_state b ++ map (fun r => sp_trace_state r.2) rows) (sb_parent_span_id b ++ map (fun r => append_hex_to_builder (sp_parent_span_id r.2)) rows)
    (sb_name b ++ map (fun r => sp_name r.2) rows) (sb_kind b ++ map (fun r => sp_kind r.2) rows) (sb_timestamp b ++ map (fun r => Z.of_N (sp_start_time_unix_nano r.2)) rows)
    (sb_end_time b ++ map (fun r => Z.of_N (sp_end_time_unix_nano r.2)) rows) (sb_attributes b ++ map (fun r => write_attributes_json (sp_attributes r.2)) rows)
    (sb_service_name b ++ map (fun r => cx_service_name r.1) rows) (sb_resource_attributes b ++ map (fun r => cx_resource_attributes r.1) rows)
    (sb_scope_name b ++ map (fun r => cx_scope_name r.1) rows) (sb_scope_version b ++ map (fun r => cx_scope_version r.1) rows)
    (sb_status_code b ++ map (fun r => from_option st_code 0%Z (sp_status r.2)) rows) (sb_status_message b ++ map (fun r => from_option st_message [] (sp_status r.2)) rows).

Definition metric_builders (b : MetricsRecordBuilder) (rows : list PointRow) : MetricsRecordBuilder :=
  mkMetricBuilders (mb_name b ++ map (fun r => m_name r.1.2) rows) (mb_desc b ++ map (fun r => m_description r.1.2) rows) (mb_unit b ++ map (fun r => m_unit r.1.2) rows)
    (mb_timestamp b ++ map (fun r => Z.of_N r.2.1.1) rows) (mb_value b ++ map (fun r => r.2.1.2) rows) (mb_attributes b ++ map (fun r => write_attributes_json r.2.2) rows)
    (mb_service_name b ++ map (fun r => cx_service_name r.1.1) rows) (mb_resource_attributes b ++ map (fun r => cx_resource_attributes r.1.1) rows)
    (mb_scope_name b ++ map (fun r => cx_scope_name r.1.1) rows) (mb_scope_version b ++ map (fun r => cx_scope_version r.1.1) rows).

(** A step that adds a row unless the record is refused adds all of them. *)
Lemma for_each_rows {A S} (f : S -> A -> result S PipelineError) (ok : A -> bool) (add : S -> list A -> S) e rows : forall s,
  (forall s, add s [] = s) -> (forall s a rows, add s (a :: rows) = add (add s [a]) rows) ->
  (forall s a, f s a = if ok a then Ok (add s [a]) else Err e) -> for_each f s rows = if forallb ok rows then Ok (add s rows) else Err e.
Proof.
  intros s Hn Hc Hf. revert s. induction rows as [|a rows IH]; intros s; cbn; [by rewrite Hn|]. rewrite Hf. destruct (ok a); cbn; [by rewrite IH, (Hc s a rows) | done].
Qed.

Lemma log_rows req : decode_loop append_log new_log_builders req =
  if forallb log_times_fit (rows_of req) then Ok (log_builders new_log_builders (rows_of req)) else Err timestamp_error.
Proof.
  rewrite decode_loop_rows. apply for_each_rows.
  - intros []. unfold log_builders. cbn. by rewrite !app_nil_r.
  - intros s a rows. unfold log_builders. cbn. by rewrite <- !app_assoc.
  - intros s [cx log]. unfold append_log, log_times_fit. rewrite !timestamp_fits. cbn [snd]. by destruct (fits _), (fits _).
Qed.

Lemma span_rows req : decode_loop append_span new_span_builders req =
  if forallb span_times_fit (rows_of req) then Ok (span_builders new_span_builders (rows_of req)) else Err timestamp_error.
Proof.
  rewrite decode_loop_rows. apply for_each_rows.
  - intros []. unfold span_builders. cbn. by rewrite !app_nil_r.
  - intros s a rows. unfold span_builders. cbn. by rewrite <- !app_assoc.
  - intros s [cx span]. unfold append_span, span_times_fit. rewrite !timestamp_fits. cbn [snd]. destruct (fits _), (fits _); cbn; try done. unfold span_builders. cbn. by destruct (sp_status span).
Qed.

Definition append_point (b : MetricsRecordBuilder) (row : PointRow) : result MetricsRecordBuilder PipelineError :=
  append_record row.1.2 row.1.1 b row.2.1.1 row.2.1.2 (write_attributes_json row.2.2).

Lemma append_metric_points cx b m : append_metric cx b m = for_each append_point b (map (pair (cx, m)) (points_of m)).
Proof.
  rewrite for_each_map. unfold append_metric, points_of. destruct (m_data m) as [[dps|dps|dps|]|]; try done; by rewrite for_each_map.
Qed.

Lemma metric_rows req : decode_loop append_metric new_metric_builders req =
  if forallb point_time_fits (point_rows req) then Ok (metric_builders new_metric_builders (point_rows req)) else Err timestamp_error.
Proof.
  rewrite decode_loop_rows. transitivity (for_each append_point new_metric_builders (point_rows req)).
  { unfold point_rows. rewrite for_each_concat. apply for_each_ext. intros s [cx m]. apply append_metric_points. }
  apply for_each_rows.
  - intros []. unfold metric_builders. cbn. by rewrite !app_nil_r.
  - intros s a rows. unfold metric_builders. cbn. by rewrite <- !app_assoc.
  - intros s [[cx m] [[t v] attrs]]. unfold append_point, append_record, point_time_fits. rewrite timestamp_fits. cbn. by destruct (fits t).
Qed.

(** The columns a schema asks for, with [n] values each. *)
Definition column_fits (n : nat) (f : Field) (c : Column) : Prop :=
  match c with
  | TimestampColumn vs => f_type f = TimestampNanosecond /\ length vs = n
  | Int32Column vs => f_type f = DtInt32 /\ length vs = n
  | UInt32Column vs => f_type f = DtUInt32 /\ length vs = n
  | Utf8Column vs => f_type f = DtUtf8 /\ length vs = n
  | Float64Column vs => f_type f = DtFloat64 /\ length vs = n
  end.

Definition table_fits (schema : list Field) (n : nat) (table : list Column) : Prop := Forall2 (column_fits n) schema table.

Lemma tables_fit rows_l rows_s rows_m : table_fits LOGS_SCHEMA (length rows_l) (log_table rows_l) /\
  table_fits TRACES_SCHEMA (length rows_s) (span_table rows_s) /\ table_fits METRICS_SCHEMA (length rows_m) (metric_table rows_m).
Proof. split_and!; unfold table_fits; repeat (constructor; [cbn; by rewrite length_map|]); constructor. Qed.

Section Tables.
Context {RB : Type} (try_new : list Field -> list Column -> option RB).

Abbreviation batch := (fun schema table => ok_or (try_new schema table) (ArrowErr "try_new")).

Lemma decode_logs_table logs : decode_logs try_new logs = if forallb log_times_fit (rows_of logs) then batch LOGS_SCHEMA (log_table (rows_of logs)) else Err timestamp_error.
Proof. unfold decode_logs. rewrite log_rows. by destruct (forallb _ _). Qed.

Lemma decode_traces_table spans : decode_traces try_new spans = if forallb span_times_fit (rows_of spans) then batch TRACES_SCHEMA (span_table (rows_of spans)) else Err timestamp_error.
Proof. unfold decode_traces. rewrite span_rows. by destruct (forallb _ _). Qed.

Lemma decode_metrics_table metrics :
  decode_metrics try_new metrics = if forallb point_time_fits (point_rows metrics) then batch METRICS_SCHEMA (metric_table (point_rows metrics)) else Err timestamp_error.
Proof. unfold decode_metrics. rewrite metric_rows. by destruct (forallb _ _). Qed.
End Tables.

(** The data points of a gauge, a sum or a histogram: time, value and attributes. *)
Inductive has_points : Metric -> list (N * N * list KeyValue) -> Prop :=
| gauge_points m dps : m_data m = Some (Gauge dps) ->
    has_points m (map (fun dp => (np_time_unix_nano dp, number_value (np_value dp), np_attributes dp)) dps)
| sum_points m dps : m_data m = Some (Sum dps) ->
    has_points m (map (fun dp => (np_time_unix_nano dp, number_value (np_value dp), np_attributes dp)) dps)
| histogram_points m dps : m_data m = Some (Histogram dps) ->
    has_points m (map (fun dp => (hp_time_unix_nano dp, histogram_value dp, hp_attributes dp)) dps)
| without_points m : m_data m = None -> has_points m [].

(** No exponential histogram and no summary: the decoder skips those. *)
Definition read_kinds (req : list (ResourceOf Metric)) : Prop := Forall (fun row => m_data row.2 <> Some OtherData) (rows_of req).

(** One row for each data point of each metric, in order. *)
Definition row_per_point (req : list (ResourceOf Metric)) (rows : list PointRow) : Prop :=
  exists groups, Forall2 (fun row points => has_points row.2 points) (rows_of req) groups /\
    rows = concat (zip_with (fun row points => map (pair row) points) (rows_of req) groups).

Lemma point_rows_per_point req : read_kinds req -> row_per_point req (point_rows req).
Proof.
  unfold read_kinds, row_per_point, point_rows. intros Hk. exists (map (fun row => points_of row.2) (rows_of req)). split.
  - induction Hk as [|row rows Hrow _ IH]; constructor; [|exact IH]. unfold points_of.
    destruct (m_data row.2) as [[dps|dps|dps|]|] eqn:E; [by constructor.. | done | by constructor].
  - f_equal. clear Hk. induction (rows_of req) as [|row rows IH]; [done|]. cbn. by f_equal.
Qed.

(** C16 (decode_is_transposition). Each decoder gives the table whose rows are the records
    of the request in order, each under its resource's service name and attributes
    and its scope, or, when a time does not fit 64 signed bits, an error and no
    table; a gauge, a sum or a histogram has a row per data point, for requests without
    exponential histograms and summaries (which the decoder skips, and of which nothing is claimed).
    The table has the schema's types and a value per row in every column. *)
Theorem decode_is_transposition {RB} (try_new : list Field -> list Column -> option RB) logs spans metrics :
  read_kinds metrics ->
  let batch schema table := ok_or (try_new schema table) (ArrowErr "try_new") in
  decode_logs try_new logs = (if forallb log_times_fit (rows_of logs) then batch LOGS_SCHEMA (log_table (rows_of logs)) else Err timestamp_error) /\
  decode_traces try_new spans = (if forallb span_times_fit (rows_of spans) then batch TRACES_SCHEMA (span_table (rows_of spans)) else Err timestamp_error) /\
  table_fits LOGS_SCHEMA (length (rows_of logs)) (log_table (rows_of logs)) /\ table_fits TRACES_SCHEMA (length (rows_of spans)) (span_table (rows_of spans)) /\
  exists points, row_per_point metrics points /\
    decode_metrics try_new metrics = (if forallb point_time_fits points then batch METRICS_SCHEMA (metric_table points) else Err timestamp_error) /\
    table_fits METRICS_SCHEMA (length points) (metric_table points).
Proof.
  intros Hk batch. destruct (tables_fit (rows_of logs) (rows_of spans) (point_rows metrics)) as (Hl & Hs & Hm).
  split_and!; [apply decode_logs_table | apply decode_traces_table | done..|].
  exists (point_rows metrics). split_and!; [by apply point_rows_per_point | apply decode_metrics_table | done].
Qed.
End Rows.

(** ** Integers as doubles are the nearest ones *)

(** The mantissa and the exponent of a finite double's magnitude. *)
Definition f64_parts (bits : N) : N * Z :=
  let e := N.land (N.shiftr bits 52) 2047 in
  let f := N.land bits (N.ones 52) in
  if e =? 0 then (f, (-1074)%Z) else (4503599627370496 + f, (Z.of_N e - 1075)%Z).

Lemma parts_of e q : e <= 1023 -> 4503599627370496 <= q < 9007199254740992 ->
  f64_parts (N.shiftl (e + 1023) 52 + (q - 4503599627370496)) = (q, (Z.of_N e - 52)%Z).
Proof.
  intros He Hq. unfold f64_parts. rewrite N.shiftl_mul_pow2, N.shiftr_div_pow2, N.land_ones. change (2 ^ 52) with 4503599627370496.
  rewrite N.add_comm, N.div_add, N.Div0.mod_add by lia. rewrite N.div_small, N.mod_small by lia. rewrite N.add_0_l.
  change 2047 with (N.ones 11). rewrite N.land_ones. change (2 ^ 11) with 2048. rewrite N.mod_small by lia. rewrite (proj2 (N.eqb_neq (e + 1023) 0)) by lia.
  f_equal; lia.
Qed.

(** An integer cast to a double is exact up to 2^53, and above it
    the double is off by at most half the distance of its neighbours. *)
Theorem int_as_f64_nearest m : m < 2 ^ 64 ->
  let '(q, x) := f64_parts (magnitude_as_f64 m) in
  (m <= 2 ^ 53 -> ((0 <= x)%Z /\ q * 2 ^ Z.to_N x = m) \/ ((x < 0)%Z /\ q = m * 2 ^ Z.to_N (- x))) /\
  (2 ^ 53 < m -> (0 < x)%Z /\ 2 * (q * 2 ^ Z.to_N x - m) <= 2 ^ Z.to_N x /\ 2 * (m - q * 2 ^ Z.to_N x) <= 2 ^ Z.to_N x).
Proof.
  intros Hm. unfold magnitude_as_f64. destruct (N.eqb_spec m 0) as [->|Hnz].
  { cbn. split; [intros _; right; split; [lia|]; by rewrite N.mul_0_l | done]. }
  pose proof (N.log2_spec m ltac:(lia)) as [Hlo Hhi]. assert (He : N.log2 m < 64) by (apply N.log2_lt_pow2; lia).
  set (e := N.log2 m) in *. clearbody e. destruct (N.leb_spec e 52) as [Hle|Hgt].
  - cbv beta iota zeta. rewrite (N.shiftl_mul_pow2 m). assert (Hp : 2 ^ e * 2 ^ (52 - e) = 4503599627370496) by (rewrite <- N.pow_add_r; by replace (e + (52 - e)) with 52 by lia).
    rewrite N.pow_succ_r' in Hhi. assert (Hp0 : 0 < 2 ^ (52 - e)) by (apply N.neq_0_lt_0, N.pow_nonzero; lia). assert (Hq : 4503599627370496 <= m * 2 ^ (52 - e) < 9007199254740992) by (split; nia). rewrite parts_of by (lia || done).
    assert (m < 2 ^ 53). { eapply N.lt_le_trans; [exact Hhi|]. rewrite <- N.pow_succ_r'. apply N.pow_le_mono_r; lia. }
    split; [|lia]. intros _. destruct (N.eq_dec e 52) as [->|Hne]; [left; split; [lia|]; cbn; lia | right; split; [lia|]].
    by replace (Z.to_N (- (Z.of_N e - 52))) with (52 - e) by lia.
  - set (s := e - 52). assert (Hs : e = 52 + s) by lia. assert (Hs0 : 0 < s) by lia. clearbody s. subst e.
    cbv zeta. rewrite (N.shiftr_div_pow2 m), (N.shiftl_mul_pow2 _ s), (N.shiftl_mul_pow2 1). rewrite N.pow_succ_r', N.pow_add_r in Hhi. rewrite N.pow_add_r in Hlo. change (2 ^ 52) with 4503599627370496 in *.
    assert (Hpow : 2 ^ s = 2 * 2 ^ (s - 1)) by (rewrite <- N.pow_succ_r'; f_equal; lia). set (h := 2 ^ (s - 1)) in *. assert (Hh : 0 < h) by (apply N.neq_0_lt_0, N.pow_nonzero; lia).
    pose proof (N.div_mod m (2 ^ s) ltac:(lia)) as Hdm. pose proof (N.mod_lt m (2 ^ s) ltac:(lia)) as Hr. set (q := m / 2 ^ s) in *. set (r := m mod 2 ^ s) in *.
    assert (Hq : 4503599627370496 <= q < 9007199254740992) by (split; [apply N.div_le_lower_bound; lia | apply N.Div0.div_lt_upper_bound; lia]).
    assert (Hrr : m - q * 2 ^ s = r) by lia. rewrite Hrr, N.mul_1_l. clearbody q r. assert (Hbig : 2 ^ 53 <= m). { change (2 ^ 53) with (2 * 4503599627370496). nia. }
    set (up := (h <? r) || ((h =? r) && N.odd q)). assert (Hup : up = true -> h <= r) by (unfold up; intros [?%N.ltb_lt|[?%N.eqb_eq _]%andb_true_iff]%orb_true_iff; lia).
    assert (Hdown : up = false -> r <= h) by (unfold up; intros [?%N.ltb_ge _]%orb_false_iff; lia).
    set (q' := if up then q + 1 else q). assert (Hq' : 2 * (q' * 2 ^ s - m) <= 2 ^ s /\ 2 * (m - q' * 2 ^ s) <= 2 ^ s).
    { unfold q'. destruct up; [specialize (Hup eq_refl) | specialize (Hdown eq_refl)]; nia. }
    assert (Hb : 4503599627370496 <= q' <= 9007199254740992) by (unfold q'; destruct up; lia). clearbody q'. clear Hup Hdown Hdm.
    assert (Hx : Z.to_N (Z.of_N (52 + s) - 52) = s) by lia. destruct (N.eqb_spec q' 9007199254740992) as [->|Hne].
    + rewrite parts_of by lia. replace (Z.to_N (Z.of_N (52 + s + 1) - 52)) with (N.succ s) by lia. rewrite N.pow_succ_r'.
      split; [intros Hm53; assert (m = 2 ^ 53) as Em by lia | intros _; split_and!; lia]. exfalso.
      change (2 ^ 53) with 9007199254740992 in Em. assert (E2 : 2 ^ s = 2) by lia. rewrite E2 in Hq'. lia.
    + rewrite parts_of by lia. rewrite Hx. split; [|intros _; split_and!; lia]. intros Hm53. assert (m = 9007199254740992) as Em by (change (2 ^ 53) with 9007199254740992 in *; lia).
      left. split; [lia|]. assert (E2 : 2 ^ s = 2) by lia. rewrite E2 in Hq' |- *. lia.
Qed.

(** A metric of another kind gives no row. *)
Lemma other_metrics_give_no_row m : m_data m = Some OtherData -> points_of m = [].
Proof. unfold points_of. by intros ->. Qed.

Module OtlpDecodeDemo.

Lemma int_as_f64_nearest_witness :
  f64_parts (magnitude_as_f64 9007199254740995) = (4503599627370498, 1%Z) /\ i64_as_f64 (-3) = 13837309855095848960 /\
  let '(q, x) := f64_parts (magnitude_as_f64 9007199254740995) in
  (9007199254740995 <= 2 ^ 53 -> ((0 <= x)%Z /\ q * 2 ^ Z.to_N x = 9007199254740995) \/ ((x < 0)%Z /\ q = 9007199254740995 * 2 ^ Z.to_N (- x))) /\
  (2 ^ 53 < 9007199254740995 -> (0 < x)%Z /\ 2 * (q * 2 ^ Z.to_N x - 9007199254740995) <= 2 ^ Z.to_N x /\ 2 * (9007199254740995 - q * 2 ^ Z.to_N x) <= 2 ^ Z.to_N x).
Proof. split; [by vm_compute|]. split; [by vm_compute|]. apply (int_as_f64_nearest 9007199254740995). by vm_compute. Defined.

Import AttributesDemo.

(** Two records of one resource and a time that does not fit. *)
Definition log (t : N) (body : string) : LogRecord := mkLogRecord t t 9 (text "INFO") (Some (StringValue (text body))) [] 0 [1; 2] [].

Example demo_logs : decode_logs (fun _ table => Some table)
    [mkResourceOf (Some [mkKeyValue (text "service.name") (Some (StringValue (text "a")))]) [mkScopeOf None [log 1 "x"; log 2 "y"]]; mkResourceOf None []]
  = Ok [TimestampColumn [1; 2]%Z; TimestampColumn [1; 2]%Z; Int32Column [9; 9]%Z; Utf8Column [text "INFO"; text "INFO"]; Utf8Column [text "x"; text "y"];
        Utf8Column [text "0102"; text "0102"]; Utf8Column [[]; []]; UInt32Column [0; 0]; Utf8Column [text "{}"; text "{}"]; Utf8Column [text "a"; text "a"];
        Utf8Column (replicate 2 (write_attributes_json [mkKeyValue (text "service.name") (Some (StringValue (text "a")))])); Utf8Column [[]; []]; Utf8Column [[]; []]].
Proof. by vm_compute. Qed.

Example demo_overflow : decode_logs (fun _ table => Some table) [mkResourceOf None [mkScopeOf None [log 1 "x"; log 9223372036854775808 "y"]]] = Err timestamp_error.
Proof. by vm_compute. Qed.

(** The witness: a gauge with two points and a metric without data. *)
Definition gauge : Metric :=
  mkMetric (text "load") [] [] (Some (Gauge [mkNumberPoint [] 5 (Some (AsInt 3)); mkNumberPoint [] 6 None])).
Definition metrics := [mkResourceOf None [mkScopeOf None [gauge; mkMetric (text "none") [] [] None]]].

Lemma decode_is_transposition_witness :
  read_kinds metrics /\
  exists points, row_per_point metrics points /\
    decode_metrics (fun _ table => Some table) metrics
      = (if forallb point_time_fits points then Ok (metric_table points) else Err timestamp_error) /\
    table_fits METRICS_SCHEMA (length points) (metric_table points).
Proof.
  assert (Hk : read_kinds metrics) by (repeat constructor; discriminate). split; [exact Hk|].
  exact (proj2 (proj2 (proj2 (proj2 (decode_is_transposition (fun _ table => Some table) [] [] metrics Hk))))).
Defined.

End OtlpDecodeDemo.
