(* ===== verification/Receiver.v ===== *)
(** The OTLP receiver: crates/otlp-receiver/src/lib.rs.

    tonic and axum hand a handler its request and send its answer; prost and
    serde_json decode a body.  These are parameters, and so is what a blocking
    task that is cancelled or panics reports.  A channel is what was sent on it
    and whether its receiver lives; a send on a full channel waits, and here has
    waited.  The servers' sockets and shutdown are not modelled. *)

From S2P Require Import Prelude Pipeline Arrow Signal Text Attributes OtlpDecode.
Local Open Scope N_scope.

Definition HTTP_SPAWN_BLOCKING_THRESHOLD_BYTES : N := 64 * 1024.
Definition GRPC_SPAWN_BLOCKING_RECORD_THRESHOLD : N := 512.

(** ** Estimates *)

Definition estimate_logs_records (req : list (ResourceOf LogRecord)) : N :=
  fold_left (fun acc r => acc +us fold_left (fun acc s => acc +us N.of_nat (length (so_records s))) (ro_scopes r) 0) req 0.

Definition estimate_traces_records (req : list (ResourceOf Span)) : N :=
  fold_left (fun acc r => acc +us fold_left (fun acc s => acc +us N.of_nat (length (so_records s))) (ro_scopes r) 0) req 0.

Section Metrics.
(** The data points of an exponential histogram or a summary. *)
Variable other_points : Metric -> N.

Definition dp_count (m : Metric) : N :=
  match m_data m with
  | Some (Gauge dps) | Some (Sum dps) => N.of_nat (length dps)
  | Some (Histogram dps) => N.of_nat (length dps)
  | Some OtherData => other_points m
  | None => 0
  end.

Definition estimate_metrics_records (req : list (ResourceOf Metric)) : N :=
  fold_left (fun acc r => acc +us fold_left (fun acc s => acc +us fold_left (fun acc m => acc +us N.max (dp_count m) 1) (so_records s) 0) (ro_scopes r) 0) req 0.
End Metrics.

(** ** Answers and channels *)

Inductive Status : Type := StInternal (msg : string) | StUnavailable (msg : string).

Inductive StatusCode : Type := BAD_REQUEST | INTERNAL_SERVER_ERROR | SERVICE_UNAVAILABLE.

Section Handlers.
Context {RB Sch Row : Type} `{Arrow RB Sch Row}.

(** The sender's side of a channel of [SignalBatch]es. *)
Record Channel := mkChannel { ch_sent : list (SignalType * RB); ch_open : bool }.

Definition send (ch : Channel) (batch : SignalType * RB) : result unit unit * Channel :=
  if ch_open ch then (Ok tt, mkChannel (ch_sent ch ++ [batch]) true) else (Err tt, ch).

(** [spawn_blocking(f).await]: [lost] is a join error. *)
Definition spawn_blocking {A} (lost : option string) (a : A) : result A string := match lost with Some e => Err e | None => Ok a end.

Section Signal.
Context {Req : Type}.
Variables (signal : SignalType) (estimate : Req -> N) (decode_fn : Req -> result RB PipelineError).

(** [export] of the three gRPC services. *)
Definition export (lost : option string) (ch : Channel) (req : Req) : result unit Status * Channel :=
  let batch_res :=
    if GRPC_SPAWN_BLOCKING_RECORD_THRESHOLD <=? estimate req then
      match spawn_blocking lost (decode_fn req) with Ok r => map_err (fun e => StInternal (pipeline_to_string e)) r | Err e => Err (StInternal ("codec task join error: " +:+ e)) end
    else map_err (fun e => StInternal (pipeline_to_string e)) (decode_fn req) in
  match batch_res with
  | Ok batch =>
      if 0 <? num_rows batch then
        match send ch (signal, batch) with
        | (Ok _, ch) => (Ok tt, ch)
        | (Err _, ch) => (Err (StUnavailable "pipeline downstream closed"), ch)
        end
      else (Ok tt, ch)
  | Err e => (Err e, ch)
  end.

(** ** HTTP *)

(** [T::decode] and [serde_json::from_slice]. *)
Variables (prost_decode json_decode : bytes -> result Req string).

(** The content type, when its header is there and is visible ASCII. *)
Definition decode_http_body (content_type : option bytes) (body : bytes) : result Req string :=
  let content_type := default (text "application/json") content_type in
  if bytes_contain content_type (text "application/x-protobuf")
  then map_err (fun e => "Failed to decode protobuf: " +:+ e)%string (prost_decode body)
  else map_err (fun e => "Failed to decode JSON: " +:+ e)%string (json_decode body).

Definition decode_and_convert (content_type : option bytes) (body : bytes) : result RB StatusCode :=
  match decode_http_body content_type body with
  | Err _ => Err BAD_REQUEST
  | Ok req => map_err (fun _ => INTERNAL_SERVER_ERROR) (decode_fn req)
  end.

Definition decode_and_convert_http (lost : option string) (content_type : option bytes) (body : bytes) : result RB StatusCode :=
  if HTTP_SPAWN_BLOCKING_THRESHOLD_BYTES <? N.of_nat (length body) then
    match spawn_blocking lost (decode_and_convert content_type body) with Ok r => r | Err _ => Err INTERNAL_SERVER_ERROR end
  else decode_and_convert content_type body.

(** [handle_logs], [handle_traces], [handle_metrics]; an [Ok] is the status 200. *)
Definition handle (lost : option string) (ch : Channel) (content_type : option bytes) (body : bytes) : result unit StatusCode * Channel :=
  match decode_and_convert_http lost content_type body with
  | Err e => (Err e, ch)
  | Ok batch =>
      if 0 <? num_rows batch then
        match send ch (signal, batch) with
        | (Ok _, ch) => (Ok tt, ch)
        | (Err _, ch) => (Err SERVICE_UNAVAILABLE, ch)
        end
      else (Ok tt, ch)
  end.

(** ** What an answer says *)

(** The channel after an answer: a success has handed the whole batch on, or the
    batch has no rows; a failure has handed on nothing. *)
Definition answered (req : Req) (ch : Channel) (ok : bool) (ch' : Channel) : Prop :=
  if ok then
    exists batch, decode_fn req = Ok batch /\
      ((num_rows batch = 0 /\ ch' = ch) \/ (ch_open ch = true /\ ch_sent ch' = ch_sent ch ++ [(signal, batch)] /\ ch_open ch' = true))
  else ch' = ch.

Lemma send_batch {E} batch ch (e : E) : let '(r, ch') := (if 0 <? num_rows batch then match send ch (signal, batch) with (Ok _, ch) => (Ok tt, ch) | (Err _, ch) => (Err e, ch) end else (Ok tt, ch)) in
  (is_ok r = true /\ ((num_rows batch = 0 /\ ch' = ch) \/ (ch_open ch = true /\ ch_sent ch' = ch_sent ch ++ [(signal, batch)] /\ ch_open ch' = true))) \/ (is_ok r = false /\ ch' = ch /\ ch_open ch = false).
Proof.
  destruct (N.ltb_spec 0 (num_rows batch)) as [|Hz]; [|left; split; [done|]; left; split; [lia | done]]. unfold send.
  destruct (ch_open ch) eqn:Eo; [left; split; [done | by right] | by right].
Qed.

Lemma export_answered lost ch req : let '(r, ch') := export lost ch req in answered req ch (is_ok r) ch'.
Proof.
  unfold export, answered. assert (Hb : forall r, (exists b, r = Ok b /\ decode_fn req = Ok b) \/ (exists e : Status, r = Err e) ->
    let '(r, ch') := match r with
      | Ok batch => if 0 <? num_rows batch then match send ch (signal, batch) with (Ok _, ch) => (Ok tt, ch) | (Err _, ch) => (Err (StUnavailable "pipeline downstream closed"), ch) end else (Ok tt, ch)
      | Err e => (Err e, ch) end in answered req ch (is_ok r) ch').
  { intros r [(b & -> & Hd)|[e ->]]; [|done]. pose proof (send_batch b ch (StUnavailable "pipeline downstream closed")) as Hs. destruct (if 0 <? num_rows b then _ else _) as [r ch'].
    unfold answered. destruct Hs as [[-> Hc]|(-> & -> & _)]; [by exists b | done]. }
  apply Hb. clear Hb. destruct (_ <=? _); [destruct lost|]; cbn; [right; by eexists | |]; destruct (decode_fn req) as [b|e]; [left; by exists b | right; by eexists | left; by exists b | right; by eexists].
Qed.

(** A body that decodes is answered as the request it holds. *)
Lemma handle_answered lost ch content_type body req : decode_http_body content_type body = Ok req ->
  let '(r, ch') := handle lost ch content_type body in answered req ch (is_ok r) ch'.
Proof.
  intros Hd. unfold handle. assert (Hc : (exists b, decode_and_convert_http lost content_type body = Ok b /\ decode_fn req = Ok b) \/ exists e, decode_and_convert_http lost content_type body = Err e).
  { unfold decode_and_convert_http, decode_and_convert. rewrite Hd. destruct (_ <? _); [destruct lost|]; cbn; [right; by eexists | |]; destruct (decode_fn req) as [b|e]; [left; by exists b | right; by eexists | left; by exists b | right; by eexists]. }
  destruct Hc as [(b & -> & Hb)|[e ->]]; [|done]. pose proof (send_batch b ch SERVICE_UNAVAILABLE) as Hs. destruct (if 0 <? num_rows b then _ else _) as [r ch'].
  unfold answered. destruct Hs as [[-> Hs]|(-> & -> & _)]; [by exists b | done].
Qed.

(** A body that does not is a bad request, or lost with its task. *)
Lemma handle_bad_request lost ch content_type body e : decode_http_body content_type body = Err e ->
  exists code, handle lost ch content_type body = (Err code, ch) /\ (code = BAD_REQUEST \/ lost <> None).
Proof.
  intros Hd. unfold handle, decode_and_convert_http, decode_and_convert. rewrite Hd. destruct (_ <? _); [destruct lost|]; cbn; eexists; (split; [done|]); auto.
Qed.
End Signal.
End Handlers.

Arguments Channel : clear implicits.

(** ** An accepted request is handed on whole *)
Section Accepted.
Context {RB Sch Row : Type} `{Arrow RB Sch Row} `{Hex} `{ShowFloat}.
Variable try_new : list Field -> list Column -> option RB.
(** A record batch has as many rows as its columns have values. *)
Hypothesis try_new_rows : forall schema n table batch, table_fits schema n table -> try_new schema table = Some batch -> num_rows batch = N.of_nat n.

(** The channel after an answer: on success the batch of the whole table of [n]
    rows was sent, or there are no rows; on failure nothing was. *)
Definition handed_on (signal : SignalType) (schema : list Field) (n : nat) (table : list Column) (ch : Channel RB) (ok : bool) (ch' : Channel RB) : Prop :=
  if ok then
    exists batch, try_new schema table = Some batch /\ num_rows batch = N.of_nat n /\
      ((n = 0%nat /\ ch' = ch) \/ (ch_open ch = true /\ ch_sent ch' = ch_sent ch ++ [(signal, batch)]))
  else ch' = ch.

Lemma answered_handed_on {Req} signal (decode_fn : Req -> result RB PipelineError) req schema n table (fit : bool) e ch ok ch' :
  decode_fn req = (if fit then ok_or (try_new schema table) (ArrowErr "try_new") else Err e) -> table_fits schema n table ->
  answered signal decode_fn req ch ok ch' -> handed_on signal schema n table ch ok ch'.
Proof.
  intros Hd Ht. unfold answered, handed_on. destruct ok; [|done]. intros (batch & Hb & Hc). rewrite Hb in Hd. destruct fit; [|done].
  destruct (try_new schema table) as [b|] eqn:En; [|done]. injection Hd as <-. exists batch. pose proof (try_new_rows _ _ _ _ Ht En) as Hn. split_and!; try done.
  destruct Hc as [[Hz ->]|(? & ? & ?)]; [left; split; [lia | done] | by right].
Qed.

Lemma logs_handed_on req ch ok ch' : answered Logs (decode_logs try_new) req ch ok ch' ->
  handed_on Logs LOGS_SCHEMA (length (rows_of req)) (log_table (rows_of req)) ch ok ch'.
Proof. eapply answered_handed_on; [apply decode_logs_table | apply (tables_fit _ [] [])]. Qed.

Lemma traces_handed_on req ch ok ch' : answered Traces (decode_traces try_new) req ch ok ch' ->
  handed_on Traces TRACES_SCHEMA (length (rows_of req)) (span_table (rows_of req)) ch ok ch'.
Proof. eapply answered_handed_on; [apply decode_traces_table | apply (tables_fit [] _ [])]. Qed.

Lemma metrics_handed_on req ch ok ch' : answered Metrics (decode_metrics try_new) req ch ok ch' ->
  handed_on Metrics METRICS_SCHEMA (length (point_rows req)) (metric_table (point_rows req)) ch ok ch'.
Proof. eapply answered_handed_on; [apply decode_metrics_table | apply (tables_fit [] [] _)]. Qed.

(** C15 (accepted_request_handed_on). On both protocols and for each signal, an export
    that is answered with success has put on the pipeline's channel one batch with
    the row of every log record, span or data point of the request, or the request has none;
    an export that fails has put nothing there, so a client may repeat it.  Requests with
    exponential histograms or summaries, whose data points the decoder skips, are not covered. *)
Theorem accepted_request_handed_on lost ch other_points logs spans metrics :
  read_kinds metrics -> exists points, row_per_point metrics points /\
  (let '(r, ch') := export Logs estimate_logs_records (decode_logs try_new) lost ch logs in
   handed_on Logs LOGS_SCHEMA (length (rows_of logs)) (log_table (rows_of logs)) ch (is_ok r) ch') /\
  (let '(r, ch') := export Traces estimate_traces_records (decode_traces try_new) lost ch spans in
   handed_on Traces TRACES_SCHEMA (length (rows_of spans)) (span_table (rows_of spans)) ch (is_ok r) ch') /\
  (let '(r, ch') := export Metrics (estimate_metrics_records other_points) (decode_metrics try_new) lost ch metrics in
   handed_on Metrics METRICS_SCHEMA (length points) (metric_table points) ch (is_ok r) ch') /\
  forall content_type body,
  (forall prost json, decode_http_body prost json content_type body = Ok logs -> let '(r, ch') := handle Logs (decode_logs try_new) prost json lost ch content_type body in
    handed_on Logs LOGS_SCHEMA (length (rows_of logs)) (log_table (rows_of logs)) ch (is_ok r) ch') /\
  (forall prost json, decode_http_body prost json content_type body = Ok spans -> let '(r, ch') := handle Traces (decode_traces try_new) prost json lost ch content_type body in
    handed_on Traces TRACES_SCHEMA (length (rows_of spans)) (span_table (rows_of spans)) ch (is_ok r) ch') /\
  (forall prost json, decode_http_body prost json content_type body = Ok metrics -> let '(r, ch') := handle Metrics (decode_metrics try_new) prost json lost ch content_type body in
    handed_on Metrics METRICS_SCHEMA (length points) (metric_table points) ch (is_ok r) ch').
Proof.
  intros Hk. exists (point_rows metrics). split; [by apply point_rows_per_point|].
  split_and!.
  - pose proof (export_answered Logs estimate_logs_records (decode_logs try_new) lost ch logs) as Ha. destruct (export _ _ _ _ _ _). by apply logs_handed_on.
  - pose proof (export_answered Traces estimate_traces_records (decode_traces try_new) lost ch spans) as Ha. destruct (export _ _ _ _ _ _). by apply traces_handed_on.
  - pose proof (export_answered Metrics (estimate_metrics_records other_points) (decode_metrics try_new) lost ch metrics) as Ha. destruct (export _ _ _ _ _ _). by apply metrics_handed_on.
  - intros content_type body. split_and!; intros prost json Hd.
    + pose proof (handle_answered Logs (decode_logs try_new) prost json lost ch content_type body logs Hd) as Ha. destruct (handle _ _ _ _ _ _ _ _). by apply logs_handed_on.
    + pose proof (handle_answered Traces (decode_traces try_new) prost json lost ch content_type body spans Hd) as Ha. destruct (handle _ _ _ _ _ _ _ _). by apply traces_handed_on.
    + pose proof (handle_answered Metrics (decode_metrics try_new) prost json lost ch content_type body metrics Hd) as Ha. destruct (handle _ _ _ _ _ _ _ _). by apply metrics_handed_on.
Qed.
End Accepted.

(** ** The source: three services and three routes over three channels *)
Section Source.
Context {RB Sch Row : Type} `{Arrow RB Sch Row} `{Hex} `{ShowFloat}.
Variables (try_new : list Field -> list Column -> option RB) (other_points : Metric -> N).

Record OtlpReceiverSource := mkSource { logs_tx : Channel RB; traces_tx : Channel RB; metrics_tx : Channel RB }.

(** [OtlpReceiverSource::new], given the channels in its order. *)
Definition new_source (logs traces metrics : Channel RB) : OtlpReceiverSource := mkSource logs traces metrics.

Definition logs_export (lost : option string) (src : OtlpReceiverSource) (req : list (ResourceOf LogRecord)) : result unit Status * OtlpReceiverSource :=
  let '(r, ch) := export Logs estimate_logs_records (decode_logs try_new) lost (logs_tx src) req in (r, mkSource ch (traces_tx src) (metrics_tx src)).
Definition traces_export (lost : option string) (src : OtlpReceiverSource) (req : list (ResourceOf Span)) : result unit Status * OtlpReceiverSource :=
  let '(r, ch) := export Traces estimate_traces_records (decode_traces try_new) lost (traces_tx src) req in (r, mkSource (logs_tx src) ch (metrics_tx src)).
Definition metrics_export (lost : option string) (src : OtlpReceiverSource) (req : list (ResourceOf Metric)) : result unit Status * OtlpReceiverSource :=
  let '(r, ch) := export Metrics (estimate_metrics_records other_points) (decode_metrics try_new) lost (metrics_tx src) req in (r, mkSource (logs_tx src) (traces_tx src) ch).

(** The decoders of a body, for each signal. *)
Record HttpDecoders := mkDecoders {
  prost_logs : bytes -> result (list (ResourceOf LogRecord)) string; json_logs : bytes -> result (list (ResourceOf LogRecord)) string;
  prost_traces : bytes -> result (list (ResourceOf Span)) string; json_traces : bytes -> result (list (ResourceOf Span)) string;
  prost_metrics : bytes -> result (list (ResourceOf Metric)) string; json_metrics : bytes -> result (list (ResourceOf Metric)) string }.

Definition handle_logs (d : HttpDecoders) (lost : option string) (src : OtlpReceiverSource) (content_type : option bytes) (body : bytes) : result unit StatusCode * OtlpReceiverSource :=
  let '(r, ch) := handle Logs (decode_logs try_new) (prost_logs d) (json_logs d) lost (logs_tx src) content_type body in (r, mkSource ch (traces_tx src) (metrics_tx src)).
Definition handle_traces (d : HttpDecoders) (lost : option string) (src : OtlpReceiverSource) (content_type : option bytes) (body : bytes) : result unit StatusCode * OtlpReceiverSource :=
  let '(r, ch) := handle Traces (decode_traces try_new) (prost_traces d) (json_traces d) lost (traces_tx src) content_type body in (r, mkSource (logs_tx src) ch (metrics_tx src)).
Definition handle_metrics (d : HttpDecoders) (lost : option string) (src : OtlpReceiverSource) (content_type : option bytes) (body : bytes) : result unit StatusCode * OtlpReceiverSource :=
  let '(r, ch) := handle Metrics (decode_metrics try_new) (prost_metrics d) (json_metrics d) lost (metrics_tx src) content_type body in (r, mkSource (logs_tx src) (traces_tx src) ch).

Definition status_code (r : result unit StatusCode) : N :=
  match r with Ok _ => 200 | Err BAD_REQUEST => 400 | Err INTERNAL_SERVER_ERROR => 500 | Err SERVICE_UNAVAILABLE => 503 end.

(** A request to the source; an HTTP request with its method, if that is POST, and
    its path. *)
Inductive SourceRequest : Type :=
| GrpcLogs (req : list (ResourceOf LogRecord)) | GrpcTraces (req : list (ResourceOf Span)) | GrpcMetrics (req : list (ResourceOf Metric))
| Http (post : bool) (path : bytes) (content_type : option bytes) (body : bytes).

Inductive Answer : Type := GrpcAnswer (r : result unit Status) | HttpAnswer (status : N).

Definition serve (d : HttpDecoders) (lost : option string) (src : OtlpReceiverSource) (q : SourceRequest) : Answer * OtlpReceiverSource :=
  let grpc (a : result unit Status * OtlpReceiverSource) := (GrpcAnswer a.1, a.2) in
  let http (post : bool) (a : result unit StatusCode * OtlpReceiverSource) := if post then (HttpAnswer (status_code a.1), a.2) else (HttpAnswer 405, src) in
  match q with
  | GrpcLogs req => grpc (logs_export lost src req)
  | GrpcTraces req => grpc (traces_export lost src req)
  | GrpcMetrics req => grpc (metrics_export lost src req)
  | Http post path content_type body =>
      if bool_decide (path = text "/v1/logs") then http post (handle_logs d lost src content_type body)
      else if bool_decide (path = text "/v1/traces") then http post (handle_traces d lost src content_type body)
      else if bool_decide (path = text "/v1/metrics") then http post (handle_metrics d lost src content_type body)
      else (HttpAnswer 404, src)
  end.

(** [run]: the listener of HTTP is bound first; the two servers then run until both
    have ended or one has failed. *)
Inductive Server : Type := GrpcServer | HttpServer.

Definition server_error (s : Server) (e : string) : PipelineError :=
  Internal (match s with GrpcServer => "gRPC server error: " | HttpServer => "HTTP server error: " end +:+ e).

Fixpoint try_join (ends : list (Server * result unit string)) (grpc_done http_done : bool) : option (result unit PipelineError) :=
  if grpc_done && http_done then Some (Ok tt)
  else
    match ends with
    | [] => None
    | (s, Err e) :: _ => Some (Err (server_error s e))
    | (GrpcServer, Ok _) :: ends => try_join ends true http_done
    | (HttpServer, Ok _) :: ends => try_join ends grpc_done true
    end.

Definition source_run (bind : result unit string) (ends : list (Server * result unit string)) : option (result unit PipelineError) :=
  match bind with Err e => Some (Err (Internal ("Failed to bind HTTP: " +:+ e))) | Ok _ => try_join ends false false end.

(** Each channel carries one signal, under its own tag. *)
Definition one_signal (s : SignalType) (ch : Channel RB) : Prop := Forall (fun b => b.1 = s) (ch_sent ch).
Definition separate (src : OtlpReceiverSource) : Prop := one_signal Logs (logs_tx src) /\ one_signal Traces (traces_tx src) /\ one_signal Metrics (metrics_tx src).

Lemma send_one_signal s b ch : one_signal s ch -> one_signal s (send ch (s, b)).2.
Proof. intros Hc. unfold send. destruct (ch_open ch); [|done]. apply Forall_app. split; [done | by constructor]. Qed.

Lemma export_one_signal {Req} s (estimate : Req -> N) decode_fn lost ch req : one_signal s ch -> one_signal s (export s estimate decode_fn lost ch req).2.
Proof.
  intros Hc. unfold export. cbv zeta. destruct (if _ <=? _ then _ else _) as [b|e]; [|done]. destruct (_ <? _); [|done].
  pose proof (send_one_signal s b ch Hc). by destruct (send ch (s, b)) as [[] ch'].
Qed.

Lemma handle_one_signal {Req} s (decode_fn : Req -> result RB PipelineError) prost json lost ch content_type body :
  one_signal s ch -> one_signal s (handle s decode_fn prost json lost ch content_type body).2.
Proof.
  intros Hc. unfold handle. destruct (decode_and_convert_http _ _ _ _ _ _) as [b|e]; [|done]. destruct (_ <? _); [|done].
  pose proof (send_one_signal s b ch Hc). by destruct (send ch (s, b)) as [[] ch'].
Qed.

(** Whatever is requested, in whatever order. *)
Lemma serve_separate d lost src q : separate src -> separate (serve d lost src q).2.
Proof.
  intros (Hl & Ht & Hm). unfold serve. destruct q as [req|req|req|post path content_type body]; cbv zeta.
  - unfold logs_export. pose proof (export_one_signal Logs estimate_logs_records (decode_logs try_new) lost _ req Hl). by destruct (export _ _ _ _ _ _).
  - unfold traces_export. pose proof (export_one_signal Traces estimate_traces_records (decode_traces try_new) lost _ req Ht). by destruct (export _ _ _ _ _ _).
  - unfold metrics_export. pose proof (export_one_signal Metrics (estimate_metrics_records other_points) (decode_metrics try_new) lost _ req Hm). by destruct (export _ _ _ _ _ _).
  - repeat case_bool_decide; destruct post; try done.
    + unfold handle_logs. pose proof (handle_one_signal Logs (decode_logs try_new) (prost_logs d) (json_logs d) lost _ content_type body Hl). by destruct (handle _ _ _ _ _ _ _ _).
    + unfold handle_traces. pose proof (handle_one_signal Traces (decode_traces try_new) (prost_traces d) (json_traces d) lost _ content_type body Ht). by destruct (handle _ _ _ _ _ _ _ _).
    + unfold handle_metrics. pose proof (handle_one_signal Metrics (decode_metrics try_new) (prost_metrics d) (json_metrics d) lost _ content_type body Hm). by destruct (handle _ _ _ _ _ _ _ _).
Qed.

Lemma source_keeps_signals d requests : forall src, separate src -> separate (fold_left (fun src q => (serve d q.1 src q.2).2) requests src).
Proof. induction requests as [|[lost q] requests IH]; intros src Hs; [done|]. by apply IH, serve_separate. Qed.

(** The source ends well only when it was bound and both servers ended. *)
Lemma try_join_ok ends : forall grpc http, try_join ends grpc http = Some (Ok tt) ->
  (grpc = true \/ (GrpcServer, Ok tt) ∈ ends) /\ (http = true \/ (HttpServer, Ok tt) ∈ ends).
Proof.
  induction ends as [|[s [[]|e]] ends IH]; intros grpc http; cbn [try_join]; destruct (grpc && http) eqn:Eb; try (apply andb_prop in Eb as [-> ->]; intros _; split; by left); try done.
  all: destruct s; intros E; try discriminate E; apply IH in E as [E1 E2]; split; set_solver.
Qed.
End Source.

Module ReceiverDemo.
Import Toy AttributesDemo.

(** A batch of the demonstration is as long as its first column. *)
Definition column_length (c : Column) : nat :=
  match c with TimestampColumn vs | Int32Column vs => length vs | UInt32Column vs | Float64Column vs => length vs | Utf8Column vs => length vs end.

Definition make (schema : list Field) (table : list Column) : option batch :=
  match table with c :: _ => Some (N.of_nat (length schema), repeat 0 (column_length c)) | [] => None end.

Lemma make_rows schema n table b : table_fits schema n table -> make schema table = Some b -> num_rows b = N.of_nat n.
Proof.
  intros Ht. destruct table as [|c table]; [done|]. intros [= <-]. unfold num_rows. cbn. rewrite repeat_length.
  unfold table_fits in Ht. inversion Ht as [|f c' fs cs Hc _]; subst. destruct c; by destruct Hc as [_ <-].
Qed.

Definition log (t : N) : LogRecord := mkLogRecord t t 9 (text "INFO") None [] 0 [] [].
Definition logs := [mkResourceOf None [mkScopeOf None [log 1; log 2]]].
Definition ch : Channel batch := mkChannel [] true.

Lemma accepted_request_handed_on_witness :
  export Logs estimate_logs_records (decode_logs make) None ch logs = (Ok tt, mkChannel [(Logs, (13, [0; 0]))] true) /\
  exists points, row_per_point [] points /\
  (let '(r, ch') := export Logs estimate_logs_records (decode_logs make) None ch logs in
   handed_on make Logs LOGS_SCHEMA (length (rows_of logs)) (log_table (rows_of logs)) ch (is_ok r) ch') /\
  (let '(r, ch') := export Traces estimate_traces_records (decode_traces make) None ch [] in
   handed_on make Traces TRACES_SCHEMA (length (rows_of (R := Span) [])) (span_table (rows_of (R := Span) [])) ch (is_ok r) ch') /\
  (let '(r, ch') := export Metrics (estimate_metrics_records (fun _ => 0)) (decode_metrics make) None ch [] in
   handed_on make Metrics METRICS_SCHEMA (length points) (metric_table points) ch (is_ok r) ch') /\
  forall content_type body,
  (forall prost json, decode_http_body prost json content_type body = Ok logs -> let '(r, ch') := handle Logs (decode_logs make) prost json None ch content_type body in
    handed_on make Logs LOGS_SCHEMA (length (rows_of logs)) (log_table (rows_of logs)) ch (is_ok r) ch') /\
  (forall prost json, decode_http_body prost json content_type body = Ok [] -> let '(r, ch') := handle Traces (decode_traces make) prost json None ch content_type body in
    handed_on make Traces TRACES_SCHEMA (length (rows_of (R := Span) [])) (span_table (rows_of (R := Span) [])) ch (is_ok r) ch') /\
  (forall prost json, decode_http_body prost json content_type body = Ok [] -> let '(r, ch') := handle Metrics (decode_metrics make) prost json None ch content_type body in
    handed_on make Metrics METRICS_SCHEMA (length points) (metric_table points) ch (is_ok r) ch').
Proof. split; [by vm_compute|]. apply (accepted_request_handed_on make make_rows None ch (fun _ => 0) logs [] [] (Forall_nil_2 _)). Defined.

(** A request of summaries only is accepted, and nothing is handed on. *)
Example summaries_accepted : export Metrics (estimate_metrics_records (fun _ => 7)) (decode_metrics make) None ch
    [mkResourceOf None [mkScopeOf None [mkMetric (text "m") [] [] (Some OtherData)]]] = (Ok tt, ch).
Proof. by vm_compute. Qed.

End ReceiverDemo.
