(* ===== verification/Compliance.v ===== *)
(** Semantic-convention compliance: crates/arrow-codec/src/compliance.rs.

    Arrow's schemas, columns and string arrays and serde_json's values are
    parameters ([Batches], [Serde]); an object is a map from keys to values.  The
    mappings are a [HashMap], so a pass over them is a pass over a list in some
    order. *)

From S2P Require Import Prelude Text Attributes.
Local Open Scope N_scope.

Inductive ComplianceMode : Type := Strict | Quarantine | Remap | Off.

#[export] Instance ComplianceMode_eq_dec : EqDecision ComplianceMode.
Proof. solve_decision. Defined.

Inductive ComplianceOutput (RB : Type) : Type := Compliant (b : RB) | Remapped (b : RB) | Quarantined (b : RB).
Arguments Compliant {RB} _.
Arguments Remapped {RB} _.
Arguments Quarantined {RB} _.

(** Record batches, with the names of their fields, and their string columns. *)
Class Batches (RB Sch Col : Type) := {
  schema_of : RB -> Sch;
  columns_of : RB -> list Col;
  field_names : Sch -> list string;
  metadata_get : Sch -> string -> option string;
  metadata_insert : Sch -> string -> string -> Sch;
  try_new : Sch -> list Col -> option RB;
  as_string_array : Col -> option (list (option bytes));
  string_array : list (option bytes) -> Col;
}.

Class BatchesLaws (RB Sch Col : Type) `{Batches RB Sch Col} := {
  metadata_get_insert s k v : metadata_get (metadata_insert s k v) k = Some v;
  field_names_insert s k v : field_names (metadata_insert s k v) = field_names s;
  try_new_parts s cs b : try_new s cs = Some b -> schema_of b = s /\ columns_of b = cs;
  as_string_array_of vs : as_string_array (string_array vs) = Some vs;
}.

Class Serde (Value : Type) := {
  from_str : bytes -> option Value;
  to_string : Value -> bytes;
  as_object : Value -> option (gmap bytes Value);
  (** The value with its object replaced. *)
  set_object : Value -> gmap bytes Value -> Value;
}.

Definition status_key : string := "otel::compliance::status".

Section Engine.
Context {RB Sch Col Value : Type} `{Batches RB Sch Col} `{Serde Value}.
Variables (mode : ComplianceMode) (mappings : list (bytes * bytes)).

(** The first column of that name. *)
Definition column_by_name (batch : RB) (name : string) : option Col :=
  match list_find (fun n => n = name) (field_names (schema_of batch)) with
  | Some (i, _) => columns_of batch !! i
  | None => None
  end.

Definition is_schema_compliant (schema : Sch) : bool := bool_decide (metadata_get schema status_key = Some "verified"%string).

Definition downcast_string_array (col : Col) (col_name : string) : result (list (option bytes)) PipelineError :=
  ok_or (as_string_array col) (Internal ("column '" +:+ col_name +:+ "' is not a Utf8 `StringArray`")).

Definition names_service (val : bytes) : bool :=
  match from_str val with
  | None => false
  | Some json_val => match as_object json_val with None => false | Some m => bool_decide (is_Some (m !! SERVICE_NAME)) end
  end.

Fixpoint check_values (arr : list (option bytes)) : bool :=
  match arr with
  | [] => true
  | None :: _ => false
  | Some val :: arr => if names_service val then check_values arr else false
  end.

Definition check_batch_compliance (batch : RB) : result bool PipelineError :=
  match column_by_name batch "resource_attributes" with
  | None => Ok false
  | Some col => let? arr := downcast_string_array col "resource_attributes" in Ok (check_values arr)
  end.

Definition tag_schema_compliant (schema : Sch) : Sch := metadata_insert schema status_key "verified".

Definition remap_object (m : gmap bytes Value) : gmap bytes Value :=
  fold_left (fun m '(src, target) => match m !! src with Some v => <[target := v]> (delete src m) | None => m end) mappings m.

Definition remap_text (val : bytes) : bytes :=
  match from_str val with
  | None => val
  | Some json_val => to_string (match as_object json_val with Some m => set_object json_val (remap_object m) | None => json_val end)
  end.

Definition is_attribute_column (name : string) : bool := bool_decide (name = "attributes"%string) || bool_decide (name = "resource_attributes"%string).

Fixpoint remap_columns (names : list string) (cols : list Col) : result (list Col) PipelineError :=
  match names, cols with
  | name :: names, col :: cols =>
      let? col :=
        if is_attribute_column name then let? arr := downcast_string_array col name in Ok (string_array (map (option_map remap_text) arr)) else Ok col in
      let? cols := remap_columns names cols in
      Ok (col :: cols)
  | _, _ => Ok []
  end.

Definition execute_remap_rules (batch : RB) : result RB PipelineError :=
  let? new_columns := remap_columns (field_names (schema_of batch)) (columns_of batch) in
  ok_or (try_new (schema_of batch) new_columns) (ArrowErr "try_new").

(** The batch under the tagged schema. *)
Definition tagged (batch : RB) : result RB PipelineError := ok_or (try_new (tag_schema_compliant (schema_of batch)) (columns_of batch)) (ArrowErr "try_new").

Definition assess_and_remap (batch : RB) : result (ComplianceOutput RB) PipelineError :=
  if bool_decide (mode = Off) then Ok (Compliant batch)
  else if is_schema_compliant (schema_of batch) then Ok (Compliant batch)
  else
    match mode with
    | Strict =>
        let? ok := check_batch_compliance batch in
        if ok then let? tagged_batch := tagged batch in Ok (Compliant tagged_batch)
        else Err (Internal "Strict compliance validation failed: missing SERVICE_NAME in resource attributes")
    | Quarantine =>
        let? ok := check_batch_compliance batch in
        if ok then let? tagged_batch := tagged batch in Ok (Compliant tagged_batch) else Ok (Quarantined batch)
    | Remap =>
        let? remapped := execute_remap_rules batch in
        let? ok := check_batch_compliance remapped in
        if ok then let? tagged_batch := tagged remapped in Ok (Remapped tagged_batch) else Ok (Quarantined remapped)
    | Off => Ok (Compliant batch)
    end.

(** ** Verdicts *)

Context `{!BatchesLaws RB Sch Col}.

(** Every resource of the batch names its service. *)
Definition names_every_service (batch : RB) : Prop :=
  exists col arr, column_by_name batch "resource_attributes" = Some col /\ as_string_array col = Some arr /\
    Forall (fun v => exists val, v = Some val /\ names_service val = true) arr.

Lemma check_values_spec arr : check_values arr = true <-> Forall (fun v => exists val, v = Some val /\ names_service val = true) arr.
Proof.
  induction arr as [|[val|] arr IH]; cbn; [done | |].
  - destruct (names_service val) eqn:E; rewrite Forall_cons; [rewrite IH|]; naive_solver.
  - rewrite Forall_cons. naive_solver.
Qed.

Lemma check_batch_spec batch b : check_batch_compliance batch = Ok b -> (b = true <-> names_every_service batch).
Proof.
  unfold check_batch_compliance, names_every_service. destruct (column_by_name batch "resource_attributes") as [col|].
  - unfold downcast_string_array. destruct (as_string_array col) as [arr|] eqn:E; [|done]. cbn. intros [= <-]. rewrite check_values_spec. naive_solver.
  - intros [= <-]. naive_solver.
Qed.

Lemma tagged_spec batch b : tagged batch = Ok b -> is_schema_compliant (schema_of b) = true /\ columns_of b = columns_of batch /\
  field_names (schema_of b) = field_names (schema_of batch).
Proof.
  unfold tagged. destruct (try_new _ _) as [b'|] eqn:E; [|done]. cbn. intros [= <-]. apply try_new_parts in E as [-> ->].
  split_and!; [|done | by apply field_names_insert]. unfold is_schema_compliant, tag_schema_compliant. by rewrite metadata_get_insert, bool_decide_true.
Qed.

(** *** What remapping means *)

(** The value at [src] moves to [target]; every other key keeps its own. *)
Definition renames (src target : bytes) (m m' : gmap bytes Value) : Prop :=
  match m !! src with
  | None => m' = m
  | Some v => forall k, m' !! k = if decide (k = target) then Some v else if decide (k = src) then None else m !! k
  end.

(** One mapping after the other. *)
Inductive renamed : list (bytes * bytes) -> gmap bytes Value -> gmap bytes Value -> Prop :=
| renamed_all m : renamed [] m m
| renamed_next src target rest m m1 m' : renames src target m m1 -> renamed rest m1 m' -> renamed ((src, target) :: rest) m m'.

(** A text that is no JSON stays; an object has its keys renamed. *)
Definition text_remapped (val val' : bytes) : Prop :=
  match from_str val with
  | None => val' = val
  | Some json_val =>
      match as_object json_val with
      | None => val' = to_string json_val
      | Some m => exists m', renamed mappings m m' /\ val' = to_string (set_object json_val m')
      end
  end.

Definition cell_remapped (cell cell' : option bytes) : Prop :=
  match cell, cell' with
  | Some val, Some val' => text_remapped val val'
  | None, None => True
  | _, _ => False
  end.

(** The two columns of attributes are texts and are remapped; any other is kept. *)
Definition column_remapped (name : string) (col col' : Col) : Prop :=
  if decide (name = "attributes" \/ name = "resource_attributes")%string then
    exists arr arr', as_string_array col = Some arr /\ as_string_array col' = Some arr' /\ Forall2 cell_remapped arr arr'
  else col' = col.

Definition fields_of (batch : RB) : list (string * Col) := zip (field_names (schema_of batch)) (columns_of batch).

Definition remapped_from (batch b : RB) : Prop :=
  field_names (schema_of b) = field_names (schema_of batch) /\
  Forall2 (fun field col' => column_remapped field.1 field.2 col') (fields_of batch) (columns_of b).

Lemma remap_object_renamed ms : forall m,
  renamed ms m (fold_left (fun m '(src, target) => match m !! src with Some v => <[target := v]> (delete src m) | None => m end) ms m).
Proof.
  induction ms as [|[src target] ms IH]; intros m; cbn; [constructor|]. eapply renamed_next; [|apply IH].
  unfold renames. destruct (m !! src) as [v|]; [|done]. intros k. rewrite lookup_insert, lookup_delete. repeat case_decide; congruence.
Qed.

Lemma remap_text_remapped val : text_remapped val (remap_text val).
Proof.
  unfold text_remapped, remap_text. destruct (from_str val) as [json_val|]; [|done]. destruct (as_object json_val) as [m|]; [|done].
  eexists. split; [apply remap_object_renamed | done].
Qed.

Lemma attribute_column_iff name : is_attribute_column name = true <-> (name = "attributes" \/ name = "resource_attributes")%string.
Proof. unfold is_attribute_column. rewrite orb_true_iff, !bool_decide_eq_true. done. Qed.

(** An attribute column that holds no text, with the error it is refused with. *)
Definition not_text (batch : RB) (e : PipelineError) : Prop :=
  exists name col, (name, col) ∈ fields_of batch /\ (name = "attributes" \/ name = "resource_attributes")%string /\ as_string_array col = None /\
    e = Internal ("column '" +:+ name +:+ "' is not a Utf8 `StringArray`").

Lemma remap_columns_spec names : forall cols,
  match remap_columns names cols with
  | Ok cols' => Forall2 (fun field col' => column_remapped field.1 field.2 col') (zip names cols) cols'
  | Err e => exists name col, (name, col) ∈ zip names cols /\ (name = "attributes" \/ name = "resource_attributes")%string /\ as_string_array col = None /\
      e = Internal ("column '" +:+ name +:+ "' is not a Utf8 `StringArray`")
  end.
Proof.
  induction names as [|name names IH]; intros [|col cols]; cbn; try constructor. specialize (IH cols).
  assert (Hrest : forall col', column_remapped name col col' ->
    match (let? cols := remap_columns names cols in Ok (col' :: cols)) with
    | Ok cols' => Forall2 (fun field col' => column_remapped field.1 field.2 col') ((name, col) :: zip names cols) cols'
    | Err e => exists name' c, (name', c) ∈ (name, col) :: zip names cols /\ (name' = "attributes" \/ name' = "resource_attributes")%string /\ as_string_array c = None /\
        e = Internal ("column '" +:+ name' +:+ "' is not a Utf8 `StringArray`")
    end).
  { intros col' Hc. destruct (remap_columns names cols); [by constructor|]. destruct IH as (n & c & Hin & Hr). exists n, c. split; [by right | done]. }
  unfold column_remapped in Hrest. destruct (is_attribute_column name) eqn:Ea.
  - apply attribute_column_iff in Ea. unfold downcast_string_array. destruct (as_string_array col) as [arr|] eqn:E; cbn.
    + apply Hrest. rewrite decide_True by done. do 2 eexists. split; [done|]. split; [apply as_string_array_of|].
      clear. induction arr as [|[val|] arr IH]; cbn; constructor; try done. apply remap_text_remapped.
    + exists name, col. split; [left | done].
  - apply Hrest. rewrite decide_False; [done|]. intros Hn%attribute_column_iff. congruence.
Qed.

Lemma column_by_name_field batch name col : column_by_name batch name = Some col -> (name, col) ∈ fields_of batch.
Proof.
  unfold column_by_name, fields_of. destruct (list_find _ _) as [[i n]|] eqn:E; [|done]. intros Hc.
  apply list_find_Some in E as (Hi & -> & _). apply list_elem_of_lookup. exists i. rewrite lookup_zip_with. by rewrite Hi, Hc.
Qed.

(** The check fails on no batch but one whose resources hold no text. *)
Lemma check_batch_error batch e : check_batch_compliance batch = Err e -> not_text batch e.
Proof.
  unfold check_batch_compliance, downcast_string_array. destruct (column_by_name batch _) as [col|] eqn:Ec; [|done].
  destruct (as_string_array col) eqn:E; [done|]. cbn. intros [= <-]. exists "resource_attributes"%string, col.
  split_and!; [by apply column_by_name_field | by right | done..].
Qed.

Lemma remapped_is_text batch b e : remapped_from batch b -> check_batch_compliance b <> Err e.
Proof.
  intros [Hn Hf] (name & col & Hin & Ha & Ht & _)%check_batch_error. apply list_elem_of_lookup in Hin as [i Hi].
  unfold fields_of in Hi. rewrite lookup_zip_with in Hi. destruct (field_names (schema_of b) !! i) as [n|] eqn:En; [|done].
  destruct (columns_of b !! i) as [c|] eqn:Ec; [|done]. injection Hi as -> ->.
  destruct (Forall2_lookup_r _ _ _ _ _ Hf Ec) as ([n' c'] & Hi' & Hr). unfold fields_of in Hi'. rewrite lookup_zip_with, <- Hn, En in Hi'.
  destruct (columns_of batch !! i); [|done]. injection Hi' as <- <-. cbn in Hr. unfold column_remapped in Hr. rewrite decide_True in Hr by done.
  destruct Hr as (arr & arr' & _ & Ht' & _). congruence.
Qed.

(** What an output claims, and why there is none. *)
Definition verdict (batch : RB) (out : result (ComplianceOutput RB) PipelineError) : Prop :=
  match out with
  | Ok (Compliant b) =>
      columns_of b = columns_of batch /\ field_names (schema_of b) = field_names (schema_of batch) /\
      (mode = Off \/ (is_schema_compliant (schema_of b) = true /\ (is_schema_compliant (schema_of batch) = true \/ names_every_service batch)))
  | Ok (Remapped b) => mode = Remap /\ is_schema_compliant (schema_of b) = true /\ remapped_from batch b /\ names_every_service b
  | Ok (Quarantined b) => ~ names_every_service b /\ ((mode = Quarantine /\ b = batch) \/ (mode = Remap /\ remapped_from batch b))
  | Err e =>
      mode <> Off /\ is_schema_compliant (schema_of batch) = false /\
      ((mode = Strict /\ ~ names_every_service batch /\
        e = Internal "Strict compliance validation failed: missing SERVICE_NAME in resource attributes") \/
       not_text batch e \/
       (e = ArrowErr "try_new" /\ exists schema cols, field_names schema = field_names (schema_of batch) /\ try_new schema cols = None))
  end.

Lemma names_service_ext b b' : columns_of b = columns_of b' -> field_names (schema_of b) = field_names (schema_of b') -> names_every_service b -> names_every_service b'.
Proof. intros Hc Hf. unfold names_every_service, column_by_name. by rewrite Hc, Hf. Qed.

Lemma tagged_error batch e : tagged batch = Err e ->
  e = ArrowErr "try_new" /\ exists schema cols, field_names schema = field_names (schema_of batch) /\ try_new schema cols = None.
Proof.
  unfold tagged. destruct (try_new _ _) as [b|] eqn:E; [done|]. cbn. intros [= <-]. split; [done|]. do 2 eexists. split; [|exact E].
  apply field_names_insert.
Qed.

Lemma execute_remap_spec batch :
  match execute_remap_rules batch with
  | Ok r => remapped_from batch r
  | Err e => not_text batch e \/
      (e = ArrowErr "try_new" /\ exists schema cols, field_names schema = field_names (schema_of batch) /\ try_new schema cols = None)
  end.
Proof.
  unfold execute_remap_rules. pose proof (remap_columns_spec (field_names (schema_of batch)) (columns_of batch)) as Hr.
  destruct (remap_columns _ _) as [cs|e]; [|by left]. destruct (try_new _ _) as [r|] eqn:En; cbn.
  - destruct (try_new_parts _ _ _ En) as [Hs Hc]. split; [by rewrite Hs | by rewrite Hc].
  - right. split; [done|]. by do 2 eexists.
Qed.

(** A batch that passes is tagged. *)
Lemma tagged_verdict batch : mode <> Off -> is_schema_compliant (schema_of batch) = false -> names_every_service batch ->
  verdict batch (let? tagged_batch := tagged batch in Ok (Compliant tagged_batch)).
Proof.
  intros Ho Hu Hn. destruct (tagged batch) as [b|e] eqn:Et; cbn.
  - destruct (tagged_spec _ _ Et) as (Ht & Hc & Hf). split_and!; [done..|]. right. split; [done | by right].
  - split_and!; [done..|]. right. right. by apply tagged_error.
Qed.

Lemma remap_verdict batch : mode = Remap -> is_schema_compliant (schema_of batch) = false ->
  verdict batch (let? remapped := execute_remap_rules batch in
    let? ok := check_batch_compliance remapped in
    if ok then let? tagged_batch := tagged remapped in Ok (Remapped tagged_batch) else Ok (Quarantined remapped)).
Proof.
  intros Hm Hu. pose proof (execute_remap_spec batch) as Hr. assert (mode <> Off) by congruence.
  destruct (execute_remap_rules batch) as [r|e]; [|cbn; split_and!; [done..|by right]].
  destruct (check_batch_compliance r) as [ok|e] eqn:Ec; [|by destruct (remapped_is_text _ _ e Hr)].
  pose proof (check_batch_spec _ _ Ec) as Hs. destruct ok.
  - destruct (tagged r) as [b|e] eqn:Et; cbn.
    + destruct (tagged_spec _ _ Et) as (Ht & Hc & Hf). destruct Hr as [Hn Hcols]. split_and!; [done..| |].
      * split; [by rewrite Hf | by rewrite Hc].
      * apply (names_service_ext r); [done | done | by apply Hs].
    + split_and!; [done..|]. right. right. apply tagged_error in Et as (-> & s & cs & Hf & Hn). split; [done|]. exists s, cs. split; [|done].
      rewrite Hf. apply Hr.
  - cbn. split; [intros Hn; by apply Hs in Hn | by right].
Qed.

(** C32 (compliance_verdict). Whatever the mode, the answer is a true statement of its
    batch.  A compliant output has the batch's columns, is tagged, and each of its resources names its service,
    unless checking is off or the batch came tagged.  A remapped one is the batch
    with its attributes remapped, and passes: in the columns of attributes each text that is a JSON object has its keys
    renamed, mapping after mapping, nulls and texts that are no JSON are kept, and so is every other
    column.  One put in quarantine has a resource
    without a name, and is the batch itself or its remapping.  There is no output only for a batch
    that is checked and came untagged: in strict mode when a resource has no name, in any when a column of attributes is no
    text or Arrow refuses the new batch. *)
Theorem compliance_verdict batch : verdict batch (assess_and_remap batch).
Proof.
  unfold assess_and_remap. case_bool_decide as Hoff; [cbn; auto|].
  destruct (is_schema_compliant (schema_of batch)) eqn:Et; [cbn; auto 6|].
  destruct mode eqn:Em; [| |by apply remap_verdict | done]; rewrite <- Em in *;
    (destruct (check_batch_compliance batch) as [ok|e] eqn:Ec; [|cbn; split_and!; [done..|right; left; by apply check_batch_error]]);
    pose proof (check_batch_spec _ _ Ec) as Hs; (destruct ok; [apply tagged_verdict; [done..|by apply Hs]|]).
  - cbn. split_and!; [done..|]. left. split_and!; [done | intros Hn; by apply Hs in Hn | done].
  - cbn. split; [intros Hn; by apply Hs in Hn | by left].
Qed.
End Engine.

(** ** The order of the mappings *)

Section Order.
Context {Value : Type}.

Definition remap_step (m : gmap bytes Value) (st : bytes * bytes) : gmap bytes Value :=
  match m !! st.1 with Some v => <[st.2 := v]> (delete st.1 m) | None => m end.

Lemma remap_object_fold (mappings : list (bytes * bytes)) (m : gmap bytes Value) : remap_object mappings m = fold_left remap_step mappings m.
Proof. unfold remap_object. revert m. induction mappings as [|[s t] mappings IH]; intros m; [done|]. cbn. by rewrite IH. Qed.

(** Two mappings that touch different keys commute. *)
Lemma remap_step_comm (m : gmap bytes Value) (a b : bytes * bytes) : a.1 <> b.1 -> a.2 <> b.2 -> a.1 <> b.2 -> b.1 <> a.2 -> remap_step (remap_step m a) b = remap_step (remap_step m b) a.
Proof.
  destruct a as [s t], b as [s' t']. cbn. intros Hss Htt Hst Hst'. unfold remap_step. cbn.
  destruct (m !! s) as [v|] eqn:E, (m !! s') as [v'|] eqn:E'; cbn; rewrite ?lookup_insert_ne, ?lookup_delete_ne, ?E, ?E' by done; try done.
  apply map_eq. intros k. rewrite !lookup_insert, !lookup_delete, !lookup_insert, !lookup_delete. repeat case_decide; congruence.
Qed.

(** No key is mapped twice, none mapped to twice, and none mapped that is mapped to. *)
Definition unchained (mappings : list (bytes * bytes)) : Prop :=
  NoDup (map fst mappings) /\ NoDup (map snd mappings) /\ forall s t, s ∈ map fst mappings -> t ∈ map snd mappings -> s <> t.

(** The mappings are a hash map, whose order changes from run to
    run: as long as no key is both mapped and mapped to, and none is mapped to
    twice, the remapped attributes are the same in every order. *)
Theorem remap_order_irrelevant (mappings mappings' : list (bytes * bytes)) (m : gmap bytes Value) : unchained mappings -> mappings ≡ₚ mappings' ->
  remap_object mappings m = remap_object mappings' m.
Proof.
  intros Hu Hp. rewrite !remap_object_fold. revert m Hu. induction Hp as [|a l l' _ IH|a b l|l1 l2 l3 H1 IH1 H2 IH2]; intros m (Hf & Hs & Hd); cbn; [done | | |].
  - apply IH. apply NoDup_cons in Hf as [_ Hf], Hs as [_ Hs]. split_and!; [done..|]. intros s t Hi Hj. apply Hd; by right.
  - f_equal. apply NoDup_cons in Hf as [Hf _], Hs as [Hs _]. apply remap_step_comm.
    + intros E. apply Hf. rewrite E. by left.
    + intros E. apply Hs. rewrite E. by left.
    + apply Hd; [by left | by right; left].
    + apply Hd; [by right; left | by left].
  - rewrite IH1 by done. apply IH2. split_and!; [by rewrite <- H1.. |]. intros s t. rewrite <- H1. apply Hd.
Qed.
End Order.

Module ComplianceDemo.

(** A batch of the demonstration is its fields' names, their metadata and columns
    of texts; a JSON value is an object. *)
Definition schema : Type := list string * gmap string string.
Definition batch : Type := schema * list (list (option bytes)).

#[export] Instance batches : Batches batch schema (list (option bytes)) := {|
  schema_of b := b.1; columns_of b := b.2; field_names s := s.1; metadata_get s k := s.2 !! k; metadata_insert s k v := (s.1, <[k := v]> s.2);
  try_new s cs := Some (s, cs); as_string_array c := Some c; string_array c := c |}.

#[export] Instance batches_laws : BatchesLaws batch schema (list (option bytes)).
Proof. split; cbn; [intros; apply lookup_insert_eq | done | by intros s cs b [= <-] | done]. Qed.

(** A value of the demonstration: the text [k] is the object whose only key is [k]. *)
Inductive json : Type := Leaf | Object (members : list (bytes * json)).

#[export] Instance serde : Serde json := {|
  from_str s := if bool_decide (s = text "{}") then Some (Object []) else Some (Object [(s, Leaf)]);
  to_string v := match v with Object [(k, _)] => k | _ => text "{}" end;
  as_object v := match v with Object ms => Some (list_to_map ms) | Leaf => None end;
  set_object _ m := Object (map_to_list m) |}.

Definition engine_mappings : list (bytes * bytes) := [(text "svc", text "service.name"); (text "x", text "y")].

Definition input : batch := ((["resource_attributes"; "body"]%string, ∅), [[Some (text "svc")]; [None]]).

Lemma remap_order_irrelevant_witness :
  remap_object engine_mappings {[text "svc" := 1]} !! text "service.name" = Some 1 /\
  remap_object engine_mappings ({[text "svc" := 1]} : gmap bytes N) = remap_object (rev engine_mappings) {[text "svc" := 1]}.
Proof.
  split; [by vm_compute|]. apply remap_order_irrelevant; [|apply Permutation_rev].
  split_and!; [apply (bool_decide_unpack _); by vm_compute | apply (bool_decide_unpack _); by vm_compute|].
  intros s t Hs Ht. cbn [engine_mappings map fst snd] in Hs, Ht. rewrite !elem_of_cons in Hs, Ht. intros ->.
  destruct Hs as [->|[->|Hs]]; [| |by apply not_elem_of_nil in Hs]; (destruct Ht as [Ht|[Ht|Ht]]; [done..|by apply not_elem_of_nil in Ht]).
Defined.

(** A chain of mappings gives different attributes in different orders. *)
Example chained_mappings_depend_on_order :
  remap_object [(text "a", text "b"); (text "b", text "c")] ({[text "a" := 1]} : gmap bytes N) !! text "c" = Some 1 /\
  remap_object [(text "b", text "c"); (text "a", text "b")] ({[text "a" := 1]} : gmap bytes N) !! text "c" = None.
Proof. split; by vm_compute. Qed.

Lemma compliance_verdict_witness :
  let out : ComplianceOutput batch := Remapped ((["resource_attributes"; "body"]%string, {[status_key := "verified"%string]}), [[Some (text "service.name")]; [None]]) in
  assess_and_remap (Value := json) Remap engine_mappings input = Ok out /\ verdict (Value := json) Remap engine_mappings input (Ok out).
Proof.
  intros out. assert (E : assess_and_remap (Value := json) Remap engine_mappings input = Ok out) by reflexivity.
  split; [exact E|]. rewrite <- E. exact (compliance_verdict (Value := json) Remap engine_mappings input).
Defined.

End ComplianceDemo.
