(* ===== verification/Iceberg.v ===== *)
(** Delivery tokens of the Iceberg sink: crates/storage/src/iceberg.rs, from the
    property keys to [is_lease_already_committed].

    A snapshot's summary is a map of properties; the table's metadata is what the
    code reads of it, its snapshots and the current one. *)

From S2P Require Import Prelude Signal Ring SinkBuffer Text.
Local Open Scope N_scope.

(** ** Keys and tokens *)

Definition snapshot_property_key (signal : SignalType) : bytes :=
  match signal with
  | Logs => text "datalake.lease.logs"
  | Metrics => text "datalake.lease.metrics"
  | Traces => text "datalake.lease.traces"
  end.

Definition lease_snapshot_property_key (signal : SignalType) : bytes := snapshot_property_key signal.

Definition instance_snapshot_property_key (signal : SignalType) (instance_id : N) : bytes :=
  snapshot_property_key signal ++ text "." ++ hex_fixed 16 instance_id.

Definition colon : N := 58.
Definition dash : N := 45.

Definition format_lease_token (id : LeaseId) : bytes :=
  hex_fixed 16 (id_instance id) ++ [colon] ++ decimal (id_first_seq id) ++ [colon] ++ decimal (id_last_seq id).

Definition format_lease_range (id : LeaseId) : bytes :=
  hex_fixed 16 (id_instance id) ++ [colon] ++ decimal (id_first_seq id) ++ [dash] ++ decimal (id_last_seq id).

(** [str::split_once] at a one-byte character. *)
Fixpoint split_once (c : N) (s : bytes) : option (bytes * bytes) :=
  match s with
  | [] => None
  | b :: s => if b =? c then Some ([], s) else option_map (fun '(pre, post) => (b :: pre, post)) (split_once c s)
  end.

(** [char::to_digit(16)]. *)
Definition to_digit16 (c : N) : option N :=
  if (48 <=? c) && (c <=? 57) then Some (c - 48)
  else if (97 <=? c) && (c <=? 102) then Some (c - 87)
  else if (65 <=? c) && (c <=? 70) then Some (c - 55)
  else None.

(** [u64::from_str_radix(_, 16)]. *)
Fixpoint parse_hex_digits (s : bytes) (acc : N) : option N :=
  match s with
  | [] => Some acc
  | c :: s =>
      match to_digit16 c with
      | None => None
      | Some d =>
          match checked_mul u64_max acc 16 with
          | None => None
          | Some acc => match checked_add u64_max acc d with None => None | Some acc => parse_hex_digits s acc end
          end
      end
  end.

Definition from_str_radix16 (s : bytes) : option N :=
  match s with
  | [] => None
  | 43 :: [] => None
  | 43 :: s => parse_hex_digits s 0
  | s => parse_hex_digits s 0
  end.

Definition split_seqs (seq_part : bytes) : option (bytes * bytes) :=
  match split_once colon seq_part with Some p => Some p | None => split_once dash seq_part end.

Definition parse_lease_token (token : bytes) : option (N * N * N) :=
  match split_once colon token with
  | None => None
  | Some (inst_str, seq_part) =>
      match from_str_radix16 inst_str with
      | None => None
      | Some instance_id =>
          if instance_id =? 0 then None
          else
            match split_seqs seq_part with
            | None => None
            | Some (first_str, last_str) =>
                match parse_unsigned u64_max first_str with
                | None => None
                | Some first_seq =>
                    match parse_unsigned u64_max last_str with
                    | None => None
                    | Some last_seq => if first_seq <=? last_seq then Some (instance_id, first_seq, last_seq) else None
                    end
                end
            end
      end
  end.

Definition token_matches_lease (raw : bytes) (id : LeaseId) : bool :=
  match parse_lease_token raw with
  | None => false
  | Some (committed_instance_id, committed_first_seq, committed_last_seq) =>
      (committed_instance_id =? id_instance id) && (committed_first_seq <=? id_first_seq id) && (id_last_seq id <=? committed_last_seq)
  end.

(** ** Ranges *)

Fixpoint cover_loop (intervals : list (N * N)) (covered_through last_seq : N) : bool :=
  match intervals with
  | [] => false
  | (start, stop) :: intervals =>
      if stop <? covered_through then cover_loop intervals covered_through last_seq
      else if covered_through <? start then false
      else if last_seq <=? stop then true
      else cover_loop intervals (sat_add u64_max stop 1) last_seq
  end.

Definition starts_before (a b : N * N) : Prop := a.1 <= b.1.

#[export] Instance starts_before_dec : RelDecision starts_before.
Proof. intros a b. unfold starts_before. apply _. Defined.

(** The order of intervals that start together is unspecified: the result does not depend on it. *)
Definition intervals_cover_range (intervals : list (N * N)) (first_seq last_seq : N) : bool :=
  if (last_seq <? first_seq) || bool_decide (intervals = []) then false
  else cover_loop (merge_sort starts_before intervals) first_seq last_seq.

(** ** Where the tokens are *)

Class SnapshotPropertiesSource (S : Type) := {
  lease_property : S -> bytes -> option bytes;
  has_committed_lease : S -> LeaseId -> bool;
}.

Definition key_matches {S} (property : S -> bytes -> option bytes) (self : S) (id : LeaseId) (key : bytes) : bool :=
  match property self key with Some raw => token_matches_lease raw id | None => false end.

(** The trait's own [has_committed_lease]. *)
Definition default_has_committed_lease {S} (property : S -> bytes -> option bytes) (self : S) (id : LeaseId) : bool :=
  if id_instance id =? 0 then false
  else if key_matches property self id (instance_snapshot_property_key (id_signal id) (id_instance id)) then true
  else key_matches property self id (snapshot_property_key (id_signal id)).

(** A snapshot, and the hash map of its summary's properties. *)
Record Snapshot := mkSnapshot { additional_properties : gmap bytes bytes }.

Record TableMetadata := mkTableMetadata { snapshots : list Snapshot; current_snapshot : option Snapshot }.

#[export] Instance properties_source : SnapshotPropertiesSource (gmap bytes bytes) := {|
  lease_property m key := m !! key;
  has_committed_lease := default_has_committed_lease (fun (m : gmap bytes bytes) key => m !! key) |}.

Definition snapshot_property (s : Snapshot) (key : bytes) : option bytes := additional_properties s !! key.

#[export] Instance snapshot_source : SnapshotPropertiesSource Snapshot := {|
  lease_property := snapshot_property; has_committed_lease := default_has_committed_lease snapshot_property |}.

(** The range a property of the lease's instance gives. *)
Definition token_interval (id : LeaseId) (raw : bytes) : option (N * N) :=
  match parse_lease_token raw with
  | Some (inst, first_seq, last_seq) => if inst =? id_instance id then Some (first_seq, last_seq) else None
  | None => None
  end.

Definition lease_keys (id : LeaseId) : list bytes :=
  [instance_snapshot_property_key (id_signal id) (id_instance id); snapshot_property_key (id_signal id)].

Definition snapshot_intervals (id : LeaseId) (snap : Snapshot) : list (N * N) :=
  omap (fun key => match snapshot_property snap key with Some raw => token_interval id raw | None => None end) (lease_keys id).

Definition metadata_property (md : TableMetadata) (key : bytes) : option bytes :=
  match current_snapshot md with Some snap => snapshot_property snap key | None => None end.

Definition metadata_has_committed_lease (md : TableMetadata) (id : LeaseId) : bool :=
  if id_instance id =? 0 then false
  else if match current_snapshot md with Some curr => has_committed_lease curr id | None => false end then true
  else if existsb (fun snap => has_committed_lease snap id) (snapshots md) then true
  else intervals_cover_range (concat (map (snapshot_intervals id) (snapshots md))) (id_first_seq id) (id_last_seq id).

#[export] Instance metadata_source : SnapshotPropertiesSource TableMetadata := {|
  lease_property := metadata_property; has_committed_lease := metadata_has_committed_lease |}.

Definition is_lease_already_committed {S} `{SnapshotPropertiesSource S} (source : S) (id : LeaseId) : bool := has_committed_lease source id.

(** ** Tokens read back *)

Definition id_in_range (id : LeaseId) : Prop :=
  0 < id_instance id <= u64_max /\ id_first_seq id <= id_last_seq id /\ id_last_seq id <= u64_max.

Lemma to_digit16_hex d : d < 16 -> to_digit16 (hex_digit d) = Some d.
Proof.
  intros Hd. unfold to_digit16, hex_digit. destruct (N.ltb_spec d 10).
  - destruct (N.leb_spec 48 (48 + d)); [|lia]. destruct (N.leb_spec (48 + d) 57); [|lia]. cbn [andb]. f_equal. lia.
  - destruct (N.leb_spec 48 (87 + d)); [|lia]. destruct (N.leb_spec (87 + d) 57); [lia|]. cbn [andb].
    destruct (N.leb_spec 97 (87 + d)); [|lia]. destruct (N.leb_spec (87 + d) 102); [|lia]. cbn [andb]. f_equal. lia.
Qed.

Lemma mod_split n k : n mod 2 ^ (4 * N.succ k) = N.land (N.shiftr n (4 * k)) 15 * 2 ^ (4 * k) + n mod 2 ^ (4 * k).
Proof.
  change 15 with (N.ones 4). rewrite N.land_ones, N.shiftr_div_pow2. change (2 ^ 4) with 16.
  replace (2 ^ (4 * N.succ k)) with (2 ^ (4 * k) * 16) by (rewrite N.mul_succ_r, N.pow_add_r; lia).
  rewrite N.Div0.mod_mul_r. lia.
Qed.

Lemma parse_hex_fixed w n : forall acc, acc * 2 ^ (4 * N.of_nat w) + n mod 2 ^ (4 * N.of_nat w) <= u64_max ->
  parse_hex_digits (hex_fixed w n) acc = Some (acc * 2 ^ (4 * N.of_nat w) + n mod 2 ^ (4 * N.of_nat w)).
Proof.
  induction w as [|w IH]; intros acc Hle; cbn [hex_fixed parse_hex_digits].
  - change (2 ^ (4 * N.of_nat 0)) with 1. rewrite N.mod_1_r. f_equal. lia.
  - rewrite Nat2N.inj_succ in *. rewrite mod_split in *. set (d := N.land (N.shiftr n (4 * N.of_nat w)) 15) in *. pose proof (nibble_range (N.shiftr n (4 * N.of_nat w))) as Hd. fold d in Hd.
    rewrite to_digit16_hex by done. assert (Hp : 2 ^ (4 * N.succ (N.of_nat w)) = 16 * 2 ^ (4 * N.of_nat w)) by (rewrite N.mul_succ_r, N.pow_add_r; lia).
    pose proof (N.pow_nonzero 2 (4 * N.of_nat w)) as Hp0.
    rewrite Hp in *. set (p := 2 ^ (4 * N.of_nat w)) in *. assert (H1p : 1 <= p) by lia.
    clearbody d p. assert (Hb : acc * 16 + d <= u64_max).
    { etransitivity; [|exact Hle]. rewrite N.add_assoc, (N.mul_assoc acc 16 p), <- N.mul_add_distr_r. etransitivity; [|apply N.le_add_r].
      rewrite <- (N.mul_1_r (acc * 16 + d)) at 1. by apply N.mul_le_mono_l. }
    unfold checked_mul. destruct (N.leb_spec (acc * 16) u64_max); [|lia]. unfold checked_add. destruct (N.leb_spec (acc * 16 + d) u64_max); [|lia].
    rewrite IH; [f_equal; lia | lia].
Qed.

Lemma split_once_app c pre post : Forall (fun b => b <> c) pre -> split_once c (pre ++ c :: post) = Some (pre, post).
Proof.
  induction pre as [|b pre IH]; intros Hf; cbn; [by rewrite N.eqb_refl|]. apply Forall_cons in Hf as [Hb Hf].
  destruct (N.eqb_spec b c) as [|_]; [done|]. by rewrite IH.
Qed.

Lemma split_once_none c s : Forall (fun b => b <> c) s -> split_once c s = None.
Proof. induction s as [|b s IH]; intros Hf; cbn; [done|]. apply Forall_cons in Hf as [Hb Hf]. destruct (N.eqb_spec b c) as [|_]; [done|]. by rewrite IH. Qed.

Lemma decimal_not c n : ~ (48 <= c <= 57) -> Forall (fun b => b <> c) (decimal n).
Proof. intros Hc. eapply Forall_impl; [apply decimal_digits|]. intros b Hb ->. done. Qed.

Lemma hex_fixed_range w n : Forall (fun b => 48 <= b <= 57 \/ 97 <= b <= 102) (hex_fixed w n).
Proof. induction w as [|w IH]; cbn; constructor; [apply hex_digit_range, nibble_range | done]. Qed.

Lemma from_hex_fixed n : n <= u64_max -> from_str_radix16 (hex_fixed 16 n) = Some n.
Proof.
  intros Hn. assert (Hp : parse_hex_digits (hex_fixed 16 n) 0 = Some n).
  { assert (Hm : n mod 2 ^ (4 * N.of_nat 16) = n) by (apply N.mod_small; unfold u64_max in Hn; change (2 ^ (4 * N.of_nat 16)) with 18446744073709551616; lia).
    rewrite parse_hex_fixed; rewrite Hm; [f_equal; lia | lia]. }
  unfold from_str_radix16. pose proof (hex_fixed_range 16 n) as Hr. pose proof (length_hex_fixed 16 n) as Hl. destruct (hex_fixed 16 n) as [|c s]; [done|].
  apply Forall_cons in Hr as [Hc _]. repeat case_match; simplify_eq; try done; lia.
Qed.

(** What a token says, given where its two numbers are split. *)
Lemma parse_token id seqs : id_in_range id -> split_seqs seqs = Some (decimal (id_first_seq id), decimal (id_last_seq id)) ->
  parse_lease_token (hex_fixed 16 (id_instance id) ++ colon :: seqs) = Some (id_instance id, id_first_seq id, id_last_seq id).
Proof.
  intros (Hi & Hfl & Hl) Hs. unfold parse_lease_token. rewrite split_once_app.
  - rewrite from_hex_fixed by lia. destruct (N.eqb_spec (id_instance id) 0); [lia|]. rewrite Hs, !parse_unsigned_decimal by lia. destruct (N.leb_spec (id_first_seq id) (id_last_seq id)); [done | lia].
  - eapply Forall_impl; [apply hex_fixed_range|]. unfold colon. intros b Hb ->. lia.
Qed.

Lemma lease_token_parts id : id_in_range id ->
  parse_lease_token (format_lease_token id) = Some (id_instance id, id_first_seq id, id_last_seq id) /\
  parse_lease_token (format_lease_range id) = Some (id_instance id, id_first_seq id, id_last_seq id).
Proof.
  intros Hr. assert (Hn : forall n, Forall (fun b => b <> colon) (decimal n)) by (intros n; apply decimal_not; unfold colon; lia).
  assert (Hd : forall n, Forall (fun b => b <> dash) (decimal n)) by (intros n; apply decimal_not; unfold dash; lia).
  unfold format_lease_token, format_lease_range. split; cbn [app]; (apply parse_token; [exact Hr|]); unfold split_seqs.
  - rewrite split_once_app by apply Hn. reflexivity.
  - rewrite split_once_none; [rewrite split_once_app by apply Hd; reflexivity|]. apply Forall_app. split; [apply Hn|]. constructor; [done | apply Hn].
Qed.

(** The token of a lease, in either of its two forms, reads back as
    the lease's instance and its two sequence numbers. *)
Theorem lease_token_round_trip id : id_in_range id ->
  parse_lease_token (format_lease_token id) = Some (id_instance id, id_first_seq id, id_last_seq id) /\
  parse_lease_token (format_lease_range id) = Some (id_instance id, id_first_seq id, id_last_seq id).
Proof. apply lease_token_parts. Qed.

(** ** Coverage *)

(** Every number of the range lies in one of the intervals. *)
Definition covers (intervals : list (N * N)) (first_seq last_seq : N) : Prop :=
  forall s, first_seq <= s <= last_seq -> exists i, i ∈ intervals /\ i.1 <= s <= i.2.

Lemma cover_loop_spec intervals : forall from last_seq, StronglySorted starts_before intervals -> from <= last_seq -> last_seq <= u64_max ->
  (cover_loop intervals from last_seq = true <-> covers intervals from last_seq).
Proof.
  unfold covers. induction intervals as [|[start stop] intervals IH]; intros from last_seq Hs Hle Hmax; cbn [cover_loop].
  { split; [done|]. intros Hc. destruct (Hc from) as (i & Hi & _); [lia|]. by apply not_elem_of_nil in Hi. }
  apply StronglySorted_inv in Hs as [Hs Hb]. rewrite Forall_forall in Hb.
  destruct (N.ltb_spec stop from) as [Hlt|Hge]; [|destruct (N.ltb_spec from start) as [Hgap|Hst]; [|destruct (N.leb_spec last_seq stop) as [Hend|Hend]]].
  - rewrite IH by done. split; intros Hc s Hr; destruct (Hc s Hr) as (i & Hi & Hin); [exists i; split; [by right | done]|].
    apply elem_of_cons in Hi as [->|Hi]; [cbn in Hin; lia | by exists i].
  - split; [done|]. intros Hc. destruct (Hc from) as (i & Hi & Hin); [lia|]. apply elem_of_cons in Hi as [->|Hi]; [cbn in Hin; lia|].
    apply Hb in Hi. unfold starts_before in Hi. cbn in Hi. lia.
  - split; [|done]. intros _ s Hr. exists (start, stop). split; [by left|]. cbn. lia.
  - rewrite sat_add_exact by lia. rewrite IH by (done || lia). split; intros Hc s Hr.
    + destruct (N.le_gt_cases s stop) as [Hin|Hout]; [exists (start, stop); split; [by left | cbn; lia]|].
      destruct (Hc s) as (i & Hi & Hin); [lia|]. exists i. split; [by right | done].
    + destruct (Hc s) as (i & Hi & Hin); [lia|]. apply elem_of_cons in Hi as [->|Hi]; [cbn in Hin; lia | by exists i].
Qed.

#[export] Instance starts_before_trans : Transitive starts_before.
Proof. unfold starts_before. intros a b c. lia. Qed.

#[export] Instance starts_before_total : Total starts_before.
Proof. unfold starts_before. intros a b. lia. Qed.

Lemma intervals_cover_spec intervals first_seq last_seq : first_seq <= last_seq -> last_seq <= u64_max ->
  (intervals_cover_range intervals first_seq last_seq = true <-> covers intervals first_seq last_seq).
Proof.
  intros Hle Hmax. unfold intervals_cover_range. destruct (N.ltb_spec last_seq first_seq); [lia|]. cbn [orb]. case_bool_decide as He.
  - subst intervals. split; [done|]. intros Hc. destruct (Hc first_seq) as (i & Hi & _); [lia|]. by apply not_elem_of_nil in Hi.
  - rewrite cover_loop_spec; [|apply StronglySorted_merge_sort; apply _ | done | done]. unfold covers. by setoid_rewrite merge_sort_Permutation.
Qed.

(** A property of the table that gives a range of the lease's instance. *)
Definition recorded (md : TableMetadata) (id : LeaseId) (i : N * N) : Prop :=
  exists snap key raw, snap ∈ snapshots md /\ key ∈ lease_keys id /\ snapshot_property snap key = Some raw /\ parse_lease_token raw = Some (id_instance id, i.1, i.2).

Lemma token_interval_spec id raw i : token_interval id raw = Some i <-> parse_lease_token raw = Some (id_instance id, i.1, i.2).
Proof.
  unfold token_interval. destruct (parse_lease_token raw) as [[[inst f] l]|]; [|done]. destruct (N.eqb_spec inst (id_instance id)) as [->|Hne].
  - split; [intros [= <-]; done | intros [= -> ->]; by destruct i].
  - split; [done | intros [= ? ? ?]; done].
Qed.

Lemma elem_of_intervals md id i : i ∈ concat (map (snapshot_intervals id) (snapshots md)) <-> recorded md id i.
Proof.
  rewrite list_elem_of_In, in_concat. setoid_rewrite in_map_iff. unfold recorded. split.
  - intros (l & (snap & <- & Hsnap) & Hi). apply list_elem_of_In in Hi, Hsnap. unfold snapshot_intervals in Hi. apply list_elem_of_omap in Hi as (key & Hk & Hv).
    destruct (snapshot_property snap key) as [raw|] eqn:E; [|done]. apply token_interval_spec in Hv. by exists snap, key, raw.
  - intros (snap & key & raw & Hsnap & Hk & Hp & Ht). exists (snapshot_intervals id snap). split; [exists snap; split; [done | by apply list_elem_of_In]|].
    apply list_elem_of_In. unfold snapshot_intervals. apply list_elem_of_omap. exists key. split; [done|]. rewrite Hp. by apply token_interval_spec.
Qed.

(** A snapshot that answers for the lease has one range that holds it whole. *)
Lemma snapshot_committed_range snap id : has_committed_lease snap id = true -> exists key raw f l, key ∈ lease_keys id /\ snapshot_property snap key = Some raw /\
  parse_lease_token raw = Some (id_instance id, f, l) /\ f <= id_first_seq id /\ id_last_seq id <= l.
Proof.
  cbn. unfold default_has_committed_lease. destruct (N.eqb_spec (id_instance id) 0); [done|].
  assert (Hk : forall key, key ∈ lease_keys id -> key_matches snapshot_property snap id key = true -> exists key raw f l, key ∈ lease_keys id /\ snapshot_property snap key = Some raw /\
    parse_lease_token raw = Some (id_instance id, f, l) /\ f <= id_first_seq id /\ id_last_seq id <= l).
  { intros key Hk Hm. unfold key_matches in Hm. destruct (snapshot_property snap key) as [raw|] eqn:E; [|done]. unfold token_matches_lease in Hm.
    destruct (parse_lease_token raw) as [[[inst f] l]|] eqn:Ep; [|done]. rewrite !andb_true_iff, N.eqb_eq, !N.leb_le in Hm. destruct Hm as [[-> ?] ?]. by exists key, raw, f, l. }
  unfold lease_keys in *. destruct (key_matches _ _ _ (instance_snapshot_property_key _ _)) eqn:E; [intros _; eapply Hk; [|exact E]; by left|].
  intros E2. eapply Hk; [|exact E2]. right. by left.
Qed.

Lemma committed_covered (md : TableMetadata) (id : LeaseId) :
  (forall curr, current_snapshot md = Some curr -> curr ∈ snapshots md) -> id_in_range id ->
  (is_lease_already_committed md id = true <-> forall s, id_first_seq id <= s <= id_last_seq id -> exists i, recorded md id i /\ i.1 <= s <= i.2).
Proof.
  intros Hcurr (Hi & Hle & Hmax). assert (Hsnap : forall snap, snap ∈ snapshots md -> has_committed_lease snap id = true ->
    forall s, id_first_seq id <= s <= id_last_seq id -> exists i, recorded md id i /\ i.1 <= s <= i.2).
  { intros snap Hin Hc s Hs. apply snapshot_committed_range in Hc as (key & raw & f & l & Hk & Hp & Ht & Hf & Hl). exists (f, l). cbn. split; [by exists snap, key, raw | lia]. }
  assert (Hcov : intervals_cover_range (concat (map (snapshot_intervals id) (snapshots md))) (id_first_seq id) (id_last_seq id) = true <->
    forall s, id_first_seq id <= s <= id_last_seq id -> exists i, recorded md id i /\ i.1 <= s <= i.2).
  { rewrite intervals_cover_spec by done. unfold covers. by setoid_rewrite elem_of_intervals. }
  unfold is_lease_already_committed. cbn [has_committed_lease metadata_source]. unfold metadata_has_committed_lease. destruct (N.eqb_spec (id_instance id) 0); [lia|].
  destruct (match current_snapshot md with Some curr => has_committed_lease curr id | None => false end) eqn:Ec.
  { split; [intros _|done]. destruct (current_snapshot md) as [curr|]; [|done]. by apply (Hsnap curr); [apply Hcurr|]. }
  destruct (existsb (fun snap => has_committed_lease snap id) (snapshots md)) eqn:Ee; [|exact Hcov].
  split; [intros _|done]. apply existsb_exists in Ee as (snap & Hin & Hc). apply (Hsnap snap); [by apply list_elem_of_In | done].
Qed.

(** The three ways the metadata of a table can show a lease as
    committed, its current snapshot, any snapshot, or the ranges of several put
    together, come to one: every sequence number of the lease lies in a range
    that some snapshot records for the lease's instance. *)
Theorem committed_iff_covered (md : TableMetadata) (id : LeaseId) :
  (forall curr, current_snapshot md = Some curr -> curr ∈ snapshots md) -> id_in_range id ->
  (is_lease_already_committed md id = true <-> forall s, id_first_seq id <= s <= id_last_seq id -> exists i, recorded md id i /\ i.1 <= s <= i.2).
Proof. apply committed_covered. Qed.

Module IcebergDemo.

Definition lease : LeaseId := mkLeaseId 171 Logs 3 9.

Definition committed (id : LeaseId) : Snapshot :=
  mkSnapshot (<[instance_snapshot_property_key (id_signal id) (id_instance id) := format_lease_token id]> {[snapshot_property_key (id_signal id) := format_lease_token id]}).

(** The lease's numbers, committed in two pieces; the other instance's token is in between. *)
Definition metadata : TableMetadata :=
  mkTableMetadata [committed (mkLeaseId 171 Logs 6 12); committed (mkLeaseId 7 Logs 1 99); committed (mkLeaseId 171 Logs 2 5)] (Some (committed (mkLeaseId 171 Logs 2 5))).

Lemma lease_in_range : id_in_range lease.
Proof. unfold id_in_range, u64_max. cbn. lia. Qed.

Lemma lease_token_round_trip_witness :
  format_lease_token lease = text "00000000000000ab:3:9" /\ parse_lease_token (format_lease_token lease) = Some (171, 3, 9) /\ parse_lease_token (format_lease_range lease) = Some (171, 3, 9).
Proof. split; [by vm_compute|]. exact (lease_token_round_trip lease lease_in_range). Defined.

Lemma committed_iff_covered_witness :
  is_lease_already_committed metadata lease = true /\ has_committed_lease (committed (mkLeaseId 171 Logs 2 5)) lease = false /\
  (is_lease_already_committed metadata lease = true <-> forall s, id_first_seq lease <= s <= id_last_seq lease -> exists i, recorded metadata lease i /\ i.1 <= s <= i.2).
Proof.
  split_and!; [by vm_compute | by vm_compute|]. apply committed_iff_covered; [|exact lease_in_range].
  intros curr [= <-]. right. right. by left.
Defined.

(** Neither a token of another instance, nor a gap, nor instance 0 counts. *)
Example not_committed :
  is_lease_already_committed metadata (mkLeaseId 7 Metrics 3 9) = false /\ is_lease_already_committed metadata (mkLeaseId 171 Logs 3 13) = false /\
  is_lease_already_committed metadata (mkLeaseId 0 Logs 3 4) = false /\ is_lease_already_committed metadata (mkLeaseId 7 Logs 3 9) = true.
Proof. by vm_compute. Qed.

(** The text forms a token may take. *)
Example parsed_tokens :
  parse_lease_token (text "AB:+3:9") = Some (171, 3, 9) /\ parse_lease_token (text "ab:9-3") = None /\ parse_lease_token (text "0:3-9") = None /\
  parse_lease_token (text "10000000000000000:3-9") = None /\ parse_lease_token (text "ab:3") = None.
Proof. by vm_compute. Qed.

End IcebergDemo.
