(* ===== verification/IcebergSink.v ===== *)
(** The Iceberg sink: crates/storage/src/iceberg.rs and crates/storage/src/lib.rs.

    Arrow's columns and kernels, chrono's calendar, the Iceberg crate and the
    catalogue behind it are parameters.  The groups of a partitioned batch come out
    of a [HashMap], in an order that is a parameter too. *)

From S2P Require Import Prelude Pipeline Arrow Signal BufferConfig Ring Frame SinkBuffer Text Iceberg.
Local Open Scope N_scope.

(** ** Configuration *)

Inductive SchemaMode : Type := Fixed | Auto | Catalog.
Inductive PartitionGranularity : Type := Hourly | Daily.
Inductive CatalogType : Type := Rest | Glue | S3Tables.

(** [BatchingConfig]'s fields are those of [LegacyBatchingConfig]. *)
Record BatchingConfig := mkBatchingConfig { bc_max_batch_size_bytes : N; bc_max_batch_interval_sec : N; bc_max_batch_records : option N }.

Definition default_max_batch_size_bytes : N := 134217728.
Definition default_max_batch_interval_sec : N := 60.
Definition default_batching : BatchingConfig := mkBatchingConfig default_max_batch_size_bytes default_max_batch_interval_sec None.

Record IcebergSinkConfig := mkIcebergSinkConfig {
  ic_catalog_type : CatalogType; ic_catalog_uri : string; ic_warehouse : string; ic_table_identifier : string;
  ic_logs_table_identifier : option string; ic_traces_table_identifier : option string; ic_metrics_table_identifier : option string;
  ic_schema_mode : SchemaMode; ic_partition_granularity : PartitionGranularity; ic_log_dropped_fields : bool;
  ic_buffer : option BufferConfig; ic_batching : option BatchingConfig; ic_properties : gmap string string; ic_dry_run : bool; ic_order_by : option SortConfig }.

Definition default_schema_mode : SchemaMode := Fixed.
Definition default_partition_granularity : PartitionGranularity := Hourly.
Definition default_log_dropped_fields : bool := true.

Definition default_sink_config : IcebergSinkConfig :=
  mkIcebergSinkConfig Rest "" "" "" None None None default_schema_mode default_partition_granularity default_log_dropped_fields None None ∅ false None.

Definition resolved_buffer_config (c : IcebergSinkConfig) : result BufferConfig PipelineError :=
  let legacy := option_map (fun b => mkLegacy (bc_max_batch_size_bytes b) (bc_max_batch_records b) (bc_max_batch_interval_sec b)) (ic_batching c) in
  let? resolved := resolve (ic_buffer c) legacy false in
  match ic_buffer c, ic_batching c with
  | None, None =>
      let resolved := ensure_min_buffer_bytes
        (resolved <| max_batch_size_bytes := default_max_batch_size_bytes |> <| max_batch_interval_sec := default_max_batch_interval_sec |>) in
      let? _ := validate resolved in
      Ok resolved
  | _, _ => Ok resolved
  end.

Definition default_buffer_config : BufferConfig :=
  default_config <| max_batch_size_bytes := default_max_batch_size_bytes |> <| max_batch_interval_sec := default_max_batch_interval_sec |>.

Definition default_cfg : SortConfig := {|
  on_missing_column := ErrorOnMissing;
  sc_logs := [Shorthand "service_name ASC"; Shorthand "severity_text ASC"; Shorthand "timestamp ASC"];
  sc_metrics := [Shorthand "service_name ASC"; Shorthand "name ASC"; Shorthand "attributes ASC"; Shorthand "timestamp ASC"];
  sc_traces := [Shorthand "service_name ASC"; Shorthand "name ASC"; Shorthand "timestamp ASC"] |}.

Definition legacy_sorter : BatchSorter := match from_config default_cfg with Ok s => s | Err _ => default_sorter end.

(** The sorter of [IcebergSink::new]. *)
Definition new_sorter (order_by : option SortConfig) : BatchSorter :=
  match order_by with
  | Some sort_cfg => match from_config sort_cfg with Ok s => s | Err _ => legacy_sorter end
  | None => legacy_sorter
  end.

(** The properties [run] connects with: the configured ones override. *)
Definition catalog_props (c : IcebergSinkConfig) : gmap string string :=
  match ic_catalog_type c with
  | Rest => ic_properties c ∪ (<["uri"%string := ic_catalog_uri c]> {["warehouse"%string := ic_warehouse c]})
  | Glue => ic_properties c ∪ {["warehouse"%string := ic_warehouse c]}
  | S3Tables => ic_properties c
  end.

(** Whether [run] has a catalogue: the one it was given, else the one it loads, else, dry, none. *)
Definition open_catalog (load : CatalogType -> string -> gmap string string -> result unit string) (c : IcebergSinkConfig) (catalog_override : bool) : result bool PipelineError :=
  if catalog_override then Ok true
  else if negb (ic_dry_run c) then let? _ := map_err Storage (load (ic_catalog_type c) (ic_table_identifier c) (catalog_props c)) in Ok true
  else Ok false.

(** ** Errors *)

Definition lower_text (s : string) : bytes := map to_ascii_lowercase (text s).

Definition fatal_words : list string :=
  ["401"; "403"; "unauthorized"; "forbidden"; "access denied"; "authentication"; "tablenotfound"; "namespacenotfound"; "featureunsupported"]%string.

Definition classify_iceberg_error (err : PipelineError) : FailureClass :=
  match err with
  | Internal msg => Rejected msg
  | ArrowErr e => Rejected e
  | Configuration e => Fatal e
  | _ =>
      let msg := pipeline_to_string err in
      let lower := lower_text msg in
      if existsb (fun w => bytes_contain lower (text w)) fatal_words then Fatal msg
      else if bytes_contain lower (text "datainvalid") then Rejected msg
      else Transient
  end.

(** ** Columns and times

    Arrow's batches, schemas, fields and columns, chrono's times
    ([Utc.timestamp_opt(_, _).single()] and [strftime]), and the iteration order of
    the hash map of partitions. *)

(** A timestamp column by its type; the array is there when the downcast works. *)
Inductive TimestampColumn : Type :=
| Nanoseconds (arr : option (list (option Z)))
| Microseconds (arr : option (list (option Z)))
| OtherType (debug : string).

Class Kernels (RB Sch Col Fld Ty DateTime : Type) := {
  column_by_name : RB -> string -> option Col;
  columns : RB -> list Col;
  lexsort_to_indices : list (Col * SortOptions) -> option (list nat);
  take_column : Col -> list nat -> option Col;
  try_new : Sch -> list Col -> option RB;
  fields : Sch -> list Fld;
  schema_new : list Fld -> Sch;
  f_name : Fld -> string;
  f_type : Fld -> Ty;
  debug_type : Ty -> string;
  data_type : Col -> Ty;
  cast : Col -> Ty -> option Col;
  timestamp_opt : Z -> N -> option DateTime;
  format : DateTime -> string -> string;
  timestamp_column : Col -> TimestampColumn;
  hash_order : list (string * list N) -> list (string * list N) }.

(** ** The catalogue and the writers

    Every call on the outside threads its state; an error is its text. *)

Class IcebergCalls (Srv Table RB Ident LG W DataFile Tx : Type) := {
  from_strs : string -> result Ident string;
  cat_load_table : Srv -> Ident -> Srv * result Table string;
  table_metadata : Table -> TableMetadata;
  new_location_generator : Table -> result LG string;
  build_writer : Srv -> Table -> LG -> Srv * result W string;
  write : Srv -> W -> RB -> Srv * result W string;
  close : Srv -> W -> Srv * result (list DataFile) string;
  apply_append : Table -> gmap bytes bytes -> list DataFile -> result Tx string;
  commit : Srv -> Tx -> Srv * result unit string }.

(** ** Schema modes *)

Section Prepare.
Context {RB Sch Row : Type} `{Arrow RB Sch Row} {Col Fld Ty Table DateTime : Type} `{EqDecision Ty} `{!Kernels RB Sch Col Fld Ty DateTime}.
(** [schema_to_arrow_schema] of the table's current schema. *)
Variable arrow_schema_of : Table -> result Sch string.

(** [Schema::field_with_name]: the first of that name. *)
Definition field_with_name (schema : Sch) (name : string) : option Fld := List.find (fun f => bool_decide (f_name f = name)) (fields schema).

Fixpoint check_fields (arrow_schema : Sch) (fs : list Fld) : result unit PipelineError :=
  match fs with
  | [] => Ok tt
  | field :: fs =>
      match field_with_name arrow_schema (f_name field) with
      | Some table_field =>
          if negb (bool_decide (f_type field = f_type table_field))
          then Err (Internal ("Schema mismatch for field '" +:+ f_name field +:+ "': batch type " +:+ debug_type (f_type field) +:+
            " is incompatible with table type " +:+ debug_type (f_type table_field)))
          else check_fields arrow_schema fs
      | None => Err (Internal ("Additive schema evolution failed: new column '" +:+ f_name field +:+ "' detected but schema evolution is not supported by the client library"))
      end
  end.

(** The columns and fields kept, cast to the table's types. *)
Fixpoint project_fields (arrow_schema : Sch) (batch : RB) (fs : list Fld) : result (list Col * list Fld) PipelineError :=
  match fs with
  | [] => Ok ([], [])
  | field :: fs =>
      match field_with_name arrow_schema (f_name field) with
      | Some table_field =>
          let? col := ok_or (column_by_name batch (f_name field)) (Internal ("Column " +:+ f_name field +:+ " missing from batch")) in
          let? casted_col := if bool_decide (data_type col = f_type table_field) then Ok col else ok_or (cast col (f_type table_field)) (ArrowErr "cast") in
          let? rest := project_fields arrow_schema batch fs in
          Ok (casted_col :: rest.1, table_field :: rest.2)
      | None => project_fields arrow_schema batch fs
      end
  end.

Definition apply_schema_mode_with_config (batch : RB) (schema_mode : SchemaMode) (table : option Table) : result RB PipelineError :=
  match schema_mode with
  | Fixed => Ok batch
  | Auto =>
      match table with
      | None => Ok batch
      | Some table =>
          let? arrow_schema := map_err Storage (arrow_schema_of table) in
          let? _ := check_fields arrow_schema (fields (rb_schema batch)) in
          Ok batch
      end
  | Catalog =>
      match table with
      | None => Ok batch
      | Some table =>
          let? arrow_schema := map_err Storage (arrow_schema_of table) in
          let? final := project_fields arrow_schema batch (fields (rb_schema batch)) in
          ok_or (try_new (schema_new final.2) final.1) (ArrowErr "try_new")
      end
  end.

(** ** Partitions *)

(** [{:02}] of a text: blanks on the right, the 0 has no meaning for a text. *)
Definition pad_text (width : nat) (s : string) : string := (s +:+ String.string_of_list_ascii (repeat (Ascii.ascii_of_N 32) (width - String.length s)))%string.

Definition get_partition_path (timestamp_nanos : Z) (granularity : PartitionGranularity) : result string PipelineError :=
  let secs := (timestamp_nanos / 1000000000)%Z in
  let nanos := (timestamp_nanos mod 1000000000)%Z in
  let nanos_u32 := if ((0 <=? nanos) && (nanos <=? 4294967295))%Z then Z.to_N nanos else 0 in
  let? datetime := ok_or (timestamp_opt secs nanos_u32) (Internal "Malformed OTLP timestamp") in
  match granularity with
  | Hourly => Ok ("year=" +:+ format datetime "%Y" +:+ "/month=" +:+ pad_text 2 (format datetime "%m") +:+ "/day=" +:+ pad_text 2 (format datetime "%d") +:+
      "/hour=" +:+ pad_text 2 (format datetime "%H") +:+ "/")%string
  | Daily => Ok ("year=" +:+ format datetime "%Y" +:+ "/month=" +:+ pad_text 2 (format datetime "%m") +:+ "/day=" +:+ pad_text 2 (format datetime "%d") +:+ "/")%string
  end.

Definition i64_checked_mul (a b : Z) : option Z :=
  let p := (a * b)%Z in if ((-9223372036854775808 <=? p) && (p <=? 9223372036854775807))%Z then Some p else None.

Definition null_timestamp : PipelineError := Internal "Null timestamp in partition column".

Fixpoint read_nanos (arr : list (option Z)) : result (list Z) PipelineError :=
  match arr with
  | [] => Ok []
  | None :: _ => Err null_timestamp
  | Some v :: arr => let? vs := read_nanos arr in Ok (v :: vs)
  end.

Fixpoint read_micros (arr : list (option Z)) : result (list Z) PipelineError :=
  match arr with
  | [] => Ok []
  | None :: _ => Err null_timestamp
  | Some v :: arr =>
      let? nanos := ok_or (i64_checked_mul v 1000) (Internal "Timestamp overflow") in
      let? vs := read_micros arr in Ok (nanos :: vs)
  end.

Definition timestamps_nanos (ts_col : Col) : result (list Z) PipelineError :=
  match timestamp_column ts_col with
  | Nanoseconds arr => let? arr := ok_or arr (Internal "Invalid TimestampNanosecondArray") in read_nanos arr
  | Microseconds arr => let? arr := ok_or arr (Internal "Invalid TimestampMicrosecondArray") in read_micros arr
  | OtherType debug => Err (Internal ("Unexpected timestamp column datatype: " +:+ debug))
  end.

(** [partitions.entry(path).or_default().push(idx)]. *)
Fixpoint push_index (path : string) (idx : N) (partitions : list (string * list N)) : list (string * list N) :=
  match partitions with
  | [] => [(path, [idx])]
  | (p, idxs) :: partitions => if bool_decide (p = path) then (p, idxs ++ [idx]) :: partitions else (p, idxs) :: push_index path idx partitions
  end.

Fixpoint group_loop (granularity : PartitionGranularity) (vals : list Z) (i : N) (partitions : list (string * list N)) : result (list (string * list N)) PipelineError :=
  match vals with
  | [] => Ok partitions
  | val :: vals =>
      let? path := get_partition_path val granularity in
      let? idx := ok_or (try_from u32_max i) (Internal "out of range integral type conversion attempted") in
      group_loop granularity vals (i + 1) (push_index path idx partitions)
  end.

Definition take_group (batch : RB) (indices : list N) : result RB PipelineError :=
  let? cols := ok_or (mapM (fun c => take_column c (map N.to_nat indices)) (columns batch)) (ArrowErr "take") in
  ok_or (try_new (rb_schema batch) cols) (ArrowErr "try_new").

Fixpoint take_groups (batch : RB) (groups : list (string * list N)) : result (list (string * RB)) PipelineError :=
  match groups with
  | [] => Ok []
  | (path, indices) :: groups =>
      let? sub_batch := take_group batch indices in
      let? rest := take_groups batch groups in
      Ok ((path, sub_batch) :: rest)
  end.

Definition partition_batch (batch : RB) (timestamp_col_name : string) (granularity : PartitionGranularity) : result (list (string * RB)) PipelineError :=
  let? ts_col := ok_or (column_by_name batch timestamp_col_name) (Internal ("Missing " +:+ timestamp_col_name)) in
  let? nanos := timestamps_nanos ts_col in
  let? partitions := group_loop granularity nanos 0 [] in
  take_groups batch (hash_order partitions).

Definition prepare_iceberg_batches (batch : RB) (signal : SignalType) (schema_mode : SchemaMode) (table : option Table) (sorter : BatchSorter) (granularity : PartitionGranularity)
  : result (list (string * RB)) PipelineError :=
  if num_rows batch =? 0 then Ok []
  else
    let? final_batch := apply_schema_mode_with_config batch schema_mode table in
    let? sorted_batch := Signal.sort column_by_name columns lexsort_to_indices take_column try_new sorter final_batch signal in
    partition_batch sorted_batch "timestamp" granularity.

(** ** What a schema mode gives *)

(** The batch and the columns are those [try_new] was given, a cast gives the type
    asked for, and a schema holds its fields. *)
Class SchemaLaws := {
  try_new_parts s cs b : try_new s cs = Some b -> rb_schema b = s /\ columns b = cs;
  fields_new fs : fields (schema_new fs) = fs;
  cast_type c t c' : cast c t = Some c' -> data_type c' = t }.

Lemma check_fields_spec arrow_schema fs : check_fields arrow_schema fs = Ok tt <->
  Forall (fun f => exists table_field, field_with_name arrow_schema (f_name f) = Some table_field /\ f_type f = f_type table_field) fs.
Proof.
  induction fs as [|f fs IH]; cbn [check_fields]; [done|]. rewrite Forall_cons. destruct (field_with_name arrow_schema (f_name f)) as [tf|].
  - case_bool_decide as E; cbn [negb]; [rewrite IH|]; naive_solver.
  - naive_solver.
Qed.

(** The field of the table with a field's name has its type. *)
Definition has_table_type (arrow_schema : Sch) (f : Fld) : Prop :=
  exists table_field, field_with_name arrow_schema (f_name f) = Some table_field /\ f_type f = f_type table_field.

(** The column of the batch with a field's name, cast if it is not of the field's
    type. *)
Definition mapped_from (batch : RB) (col : Col) (table_field : Fld) : Prop :=
  exists source, column_by_name batch (f_name table_field) = Some source /\
    ((data_type source = f_type table_field /\ col = source) \/
     (data_type source <> f_type table_field /\ cast source (f_type table_field) = Some col)).

Lemma mapped_type `{!SchemaLaws} batch col tf : mapped_from batch col tf -> data_type col = f_type tf.
Proof. intros (source & _ & [[Ht ->]|[_ Hc]]); [done | by eapply cast_type]. Qed.

Lemma field_with_name_name schema name f : field_with_name schema name = Some f -> f_name f = name.
Proof. unfold field_with_name. intros Hf. apply find_some in Hf as [_ Hf]. by apply bool_decide_eq_true in Hf. Qed.

Lemma project_fields_spec arrow_schema batch fs cs tfs : project_fields arrow_schema batch fs = Ok (cs, tfs) ->
  tfs = omap (fun f => field_with_name arrow_schema (f_name f)) fs /\ Forall2 (mapped_from batch) cs tfs.
Proof.
  revert cs tfs. induction fs as [|f fs IH]; intros cs tfs; cbn [project_fields]; [intros [= <- <-]; by split|].
  destruct (field_with_name arrow_schema (f_name f)) as [tf|] eqn:Ef; [|intros E; destruct (IH _ _ E) as [-> ?]; split; [cbn; by rewrite Ef | done]].
  destruct (column_by_name batch (f_name f)) as [col|] eqn:Ecol; [|done]. cbn. rewrite <- (field_with_name_name _ _ _ Ef) in Ecol.
  assert (Hc : forall r, r = (if bool_decide (data_type col = f_type tf) then Ok col else ok_or (cast col (f_type tf)) (ArrowErr "cast")) -> forall c, r = Ok c -> mapped_from batch c tf).
  { intros r -> c. case_bool_decide as E; [intros [= <-]; exists col; auto|]. destruct (cast col (f_type tf)) as [c'|] eqn:Ec; [|done]. intros [= <-]. exists col. auto. }
  specialize (Hc _ eq_refl). destruct (if bool_decide (data_type col = f_type tf) then _ else _) as [c|]; [|done].
  destruct (project_fields arrow_schema batch fs) as [[cs' tfs']|]; [|done]. cbn. intros [= <- <-]. destruct (IH cs' tfs' eq_refl) as [-> Hf].
  split; [cbn; by rewrite Ef|]. constructor; [by apply Hc | done].
Qed.

Lemma check_fields_fails arrow_schema fs e : Forall (fun f => is_Some (field_with_name arrow_schema (f_name f))) fs ->
  check_fields arrow_schema fs = Err e -> Exists (fun f => ~ has_table_type arrow_schema f) fs.
Proof.
  induction 1 as [|f fs [tf Htf] _ IH]; cbn [check_fields]; [done|]. rewrite Htf. case_bool_decide as E; cbn [negb].
  - intros Hc. right. by apply IH.
  - intros _. left. intros (tf' & Htf' & Ht). congruence.
Qed.

(** C33 (schema_mode_conforms). A batch that passes a mode that looks at the table's schema has
    the table's types.  In the catalogue mode its
    fields are those of the table that the batch has, in the batch's order, the others being dropped, and
    each column is the batch's column of that name, cast only where the type differs.  In the automatic mode a batch
    whose every field the table has passes unchanged exactly when the types are the table's, and is
    refused otherwise: nothing is cast.  Nothing is claimed of a batch with columns that are new to the table in the
    automatic mode, nor of the fixed mode, where documentation and code differ. *)
Theorem schema_mode_conforms `{!SchemaLaws} batch table arrow_schema : arrow_schema_of table = Ok arrow_schema ->
  (forall b, apply_schema_mode_with_config batch Catalog (Some table) = Ok b ->
    fields (rb_schema b) = omap (fun f => field_with_name arrow_schema (f_name f)) (fields (rb_schema batch)) /\
    Forall2 (mapped_from batch) (columns b) (fields (rb_schema b)) /\
    Forall2 (fun col f => data_type col = f_type f) (columns b) (fields (rb_schema b))) /\
  (Forall (fun f => is_Some (field_with_name arrow_schema (f_name f))) (fields (rb_schema batch)) ->
    match apply_schema_mode_with_config batch Auto (Some table) with
    | Ok b => b = batch /\ Forall (has_table_type arrow_schema) (fields (rb_schema b))
    | Err _ => Exists (fun f => ~ has_table_type arrow_schema f) (fields (rb_schema batch))
    end).
Proof.
  intros Ha. unfold apply_schema_mode_with_config. rewrite Ha; cbn. split.
  - intros b. destruct (project_fields arrow_schema batch (fields (rb_schema batch))) as [[cs tfs]|] eqn:Ep; [|done]. cbn.
    destruct (try_new (schema_new tfs) cs) as [b'|] eqn:En; [|done]. intros [= <-]. destruct (try_new_parts _ _ _ En) as [Hs Hcols].
    destruct (project_fields_spec _ _ _ _ _ Ep) as [Ht Hf]. rewrite Hs, Hcols, fields_new. split_and!; [done..|].
    eapply Forall2_impl; [exact Hf|]. intros col tf. apply mapped_type.
  - intros Hall. destruct (check_fields arrow_schema (fields (rb_schema batch))) as [[]|e] eqn:Ec; [|by eapply check_fields_fails].
    split; [done|]. by apply check_fields_spec.
Qed.

(** ** What a partitioning gives *)

(** What the rows of a batch are: those of its columns, one for each timestamp. *)
Class PartitionLaws := {
  hash_order_perm groups : hash_order groups ≡ₚ groups;
  take_rows batch indices cs b : mapM (fun c => take_column c indices) (columns batch) = Some cs -> try_new (rb_schema batch) cs = Some b ->
    rb_rows b = omap (fun i => rb_rows batch !! i) indices;
  timestamps_rows batch name col nanos : column_by_name batch name = Some col -> timestamps_nanos col = Ok nanos -> length nanos = length (rb_rows batch) }.

(** The place of a group: its path is that of each of its rows. *)
Definition group_ok (granularity : PartitionGranularity) (vals : list Z) (group : string * list N) : Prop :=
  group.2 <> [] /\ StronglySorted N.lt group.2 /\
  Forall (fun i => exists val, vals !! N.to_nat i = Some val /\ get_partition_path val granularity = Ok group.1) group.2.

Definition groups_ok (granularity : PartitionGranularity) (vals : list Z) (n : nat) (groups : list (string * list N)) : Prop :=
  NoDup (map fst groups) /\ concat (map snd groups) ≡ₚ map N.of_nat (seq 0 n) /\ Forall (group_ok granularity vals) groups.

Lemma push_index_keys path idx groups : forall p, p ∈ map fst (push_index path idx groups) <-> p = path \/ p ∈ map fst groups.
Proof.
  induction groups as [|[q idxs] groups IH]; intros p; cbn [push_index map fst]; [rewrite !elem_of_cons; naive_solver|].
  case_bool_decide as E; cbn [map fst]; rewrite !elem_of_cons, ?IH; naive_solver.
Qed.

Lemma push_index_nodup path idx groups : NoDup (map fst groups) -> NoDup (map fst (push_index path idx groups)).
Proof.
  induction groups as [|[q idxs] groups IH]; cbn [push_index map fst]; intros Hn; [apply NoDup_singleton|]. apply NoDup_cons in Hn as [Hq Hn].
  case_bool_decide as E; cbn [map fst]; apply NoDup_cons; split; try done; [|by apply IH]. rewrite push_index_keys. naive_solver.
Qed.

Lemma push_index_flat path idx groups : concat (map snd (push_index path idx groups)) ≡ₚ concat (map snd groups) ++ [idx].
Proof.
  induction groups as [|[q idxs] groups IH]; cbn [push_index map snd concat]; [done|]. case_bool_decide; cbn [map snd concat].
  - rewrite <- !app_assoc. by rewrite (Permutation_app_comm [idx]).
  - by rewrite IH, app_assoc.
Qed.

Lemma StronglySorted_snoc (l : list N) x : StronglySorted N.lt l -> Forall (fun y => y < x) l -> StronglySorted N.lt (l ++ [x]).
Proof.
  induction l as [|y l IH]; cbn; intros Hs Hf; [by repeat constructor|]. apply StronglySorted_inv in Hs as [Hs Hy]. apply Forall_cons in Hf as [Hx Hf].
  constructor; [by apply IH|]. apply Forall_app. split; [done | by repeat constructor].
Qed.

Lemma push_index_groups granularity vals path idx val groups : vals !! N.to_nat idx = Some val -> get_partition_path val granularity = Ok path ->
  Forall (fun g => Forall (fun i => i < idx) g.2) groups -> Forall (group_ok granularity vals) groups -> Forall (group_ok granularity vals) (push_index path idx groups).
Proof.
  intros Hv Hp. assert (Hone : Forall (fun i => exists v, vals !! N.to_nat i = Some v /\ get_partition_path v granularity = Ok path) [idx]) by (constructor; [by exists val | constructor]).
  induction groups as [|[q idxs] groups IH]; cbn [push_index]; intros Hlt Hok.
  - constructor; [|constructor]. split; [done|]. split; [by repeat constructor | done].
  - apply Forall_cons in Hlt as [Hlt Hlts], Hok as [(Hne & Hs & Hf) Hoks]. cbn [fst snd] in *. case_bool_decide as E.
    + subst q. constructor; [|done]. split; cbn [fst snd]; [by destruct idxs|]. split; [by apply StronglySorted_snoc | by apply Forall_app].
    + constructor; [done | by apply IH].
Qed.

Lemma group_loop_spec granularity vals : forall done_ groups groups', groups_ok granularity (done_ ++ vals) (length done_) groups ->
  group_loop granularity vals (N.of_nat (length done_)) groups = Ok groups' -> groups_ok granularity (done_ ++ vals) (length (done_ ++ vals)) groups'.
Proof.
  induction vals as [|val vals IH]; intros done_ groups groups' (Hn & Hp & Hok) E; cbn [group_loop] in E.
  { injection E as <-. rewrite app_nil_r in *. done. }
  destruct (get_partition_path val granularity) as [path|] eqn:Ep; [|done]. cbn in E. destruct (try_from u32_max (N.of_nat (length done_))) as [idx|] eqn:Et; [|done]. cbn in E.
  apply try_from_Some in Et as [-> _]. replace (done_ ++ val :: vals) with ((done_ ++ [val]) ++ vals) in * by (by rewrite <- app_assoc).
  eapply IH; [|replace (N.of_nat (length (done_ ++ [val]))) with (N.of_nat (length done_) + 1) by (rewrite length_app; cbn; lia); exact E].
  split; [by apply push_index_nodup|]. split.
  - rewrite push_index_flat, Hp, length_app, seq_app, map_app. done.
  - apply (push_index_groups _ _ _ _ val); [|done| |done].
    + rewrite Nat2N.id, <- app_assoc. by apply list_lookup_middle.
    + apply Forall_forall. intros g Hg. apply Forall_forall. intros i Hi. assert (Hin : i ∈ concat (map snd groups)).
      { apply list_elem_of_In, in_concat. exists g.2. split; [by apply in_map, list_elem_of_In | by apply list_elem_of_In]. }
      rewrite Hp in Hin. apply list_elem_of_In, in_map_iff in Hin as (k & <- & Hk). apply in_seq in Hk. lia.
Qed.

(** A sub-batch holds the rows of its group. *)
Lemma take_groups_spec `{!PartitionLaws} batch groups : forall subs, take_groups batch groups = Ok subs ->
  Forall2 (fun sub g => sub.1 = g.1 /\ rb_rows sub.2 = omap (fun i => rb_rows batch !! i) (map N.to_nat g.2)) subs groups.
Proof.
  induction groups as [|[path indices] groups IH]; intros subs; cbn [take_groups]; [intros [= <-]; constructor|]. unfold take_group.
  destruct (mapM _ (columns batch)) as [cs|] eqn:Ec; [|done]. cbn. destruct (try_new (rb_schema batch) cs) as [b|] eqn:En; [|done]. cbn.
  destruct (take_groups batch groups) as [rest|]; [|done]. cbn. intros [= <-]. constructor; [|by apply IH]. split; [done|]. by eapply take_rows.
Qed.

Lemma omap_lookup_seq {A} (l : list A) : omap (fun i => l !! i) (seq 0 (length l)) = l.
Proof.
  assert (Hg : forall l pre : list A, omap (fun i => (pre ++ l) !! i) (seq (length pre) (length l)) = l).
  { induction l0 as [|a l' IH]; intros pre; [done|]. cbn. rewrite list_lookup_middle by done. f_equal.
    specialize (IH (pre ++ [a])). rewrite length_app, Nat.add_comm in IH. cbn in IH. rewrite <- app_assoc in IH. exact IH. }
  apply (Hg l []).
Qed.

Lemma omap_concat {A B} (f : A -> option B) (ls : list (list A)) : concat (map (omap f) ls) = omap f (concat ls).
Proof. induction ls as [|l ls IH]; [done|]. cbn. by rewrite IH, omap_app. Qed.

(** C17 (partition_complete). A batch that is partitioned is partitioned whole: the sub-batches
    hold its rows, each once; each of them has its own path and rows, in the
    order of the batch, whose timestamps all give that path. *)
Theorem partition_complete `{!PartitionLaws} batch name granularity subs : partition_batch batch name granularity = Ok subs ->
  concat (map (fun s => rb_rows s.2) subs) ≡ₚ rb_rows batch /\ NoDup (map fst subs) /\
  exists ts_col nanos, column_by_name batch name = Some ts_col /\ timestamps_nanos ts_col = Ok nanos /\
    Forall (fun s => exists indices, group_ok granularity nanos (s.1, indices) /\ rb_rows s.2 = omap (fun i => rb_rows batch !! i) (map N.to_nat indices)) subs.
Proof.
  unfold partition_batch. destruct (column_by_name batch name) as [col|] eqn:Ec; [|done]. cbn. destruct (timestamps_nanos col) as [nanos|] eqn:Et; [|done]. cbn.
  destruct (group_loop granularity nanos 0 []) as [groups|] eqn:Eg; [|done]. cbn. intros Es%take_groups_spec.
  apply (group_loop_spec granularity nanos [] []) in Eg as (Hn & Hp & Hok); [|split; [constructor | by split]]. cbn [app] in *.
  pose proof (hash_order_perm groups) as Ho. set (ordered := hash_order groups) in *. clearbody ordered. split_and!.
  - assert (Hrows : map (fun s => rb_rows s.2) subs = map (omap (fun i => rb_rows batch !! i)) (map (fun g => map N.to_nat g.2) ordered)).
    { clear - Es. induction Es as [|s g subs gs [_ Hr] _ IH]; [done|]. cbn. by rewrite Hr, IH. }
    rewrite Hrows, omap_concat. assert (Hidx : concat (map (fun g => map N.to_nat g.2) ordered) ≡ₚ seq 0 (length nanos)).
    { replace (map (fun g : string * list N => map N.to_nat g.2) ordered) with (map (map N.to_nat) (map snd ordered)) by apply map_map. rewrite <- concat_map, Ho, Hp, map_map.
      rewrite (map_ext _ id) by (intros; apply Nat2N.id). by rewrite map_id. }
    rewrite Hidx, (timestamps_rows _ _ _ _ Ec Et). by rewrite omap_lookup_seq.
  - assert (Hk : map fst subs = map fst ordered) by (clear - Es; induction Es as [|s g subs gs [Hk _] _ IH]; [done|]; cbn; by rewrite Hk, IH). by rewrite Hk, Ho.
  - exists col, nanos. split_and!; [done..|]. rewrite <- Ho in Hok. clear - Es Hok. induction Es as [|s g subs gs [Hk Hr] _ IH]; [done|]. apply Forall_cons in Hok as [Hg Hok].
    constructor; [|by apply IH]. exists g.2. split; [|done]. rewrite Hk. by destruct g.
Qed.

(** ** Committing a lease *)

Context {Srv Ident LG W DataFile Tx : Type} `{!IcebergCalls Srv Table RB Ident LG W DataFile Tx} `{Crc}.
Variable concat_batches : Sch -> list RB -> option RB.
Variables (config : IcebergSinkConfig) (buffer_config : BufferConfig) (sorter : BatchSorter) (has_catalog : bool).

Definition load_table (srv : Srv) (table_name : string) : Srv * result (option Table) PipelineError :=
  if negb has_catalog then (srv, Ok None)
  else
    match from_strs table_name with
    | Err e => (srv, Err (Storage e))
    | Ok table_ident =>
        match cat_load_table srv table_ident with
        | (srv, Err e) => (srv, Err (Storage e))
        | (srv, Ok table) => (srv, Ok (Some table))
        end
    end.

Definition write_batch_to_table (srv : Srv) (table : Table) (batch : RB) : Srv * result (list DataFile) PipelineError :=
  match new_location_generator table with
  | Err e => (srv, Err (Storage e))
  | Ok location_generator =>
      match build_writer srv table location_generator with
      | (srv, Err e) => (srv, Err (Storage e))
      | (srv, Ok data_file_writer) =>
          match write srv data_file_writer batch with
          | (srv, Err e) => (srv, Err (Storage e))
          | (srv, Ok data_file_writer) => match close srv data_file_writer with (srv, r) => (srv, map_err Storage r) end
          end
      end
  end.

Fixpoint write_all (srv : Srv) (table : Table) (sub_batches : list (string * RB)) (all_data_files : list DataFile) : Srv * result (list DataFile) PipelineError :=
  match sub_batches with
  | [] => (srv, Ok all_data_files)
  | (_, sub_batch) :: sub_batches =>
      match write_batch_to_table srv table sub_batch with
      | (srv, Err e) => (srv, Err e)
      | (srv, Ok data_files) => write_all srv table sub_batches (all_data_files ++ data_files)
      end
  end.

(** A lease with the segment files, a panic of its preparation and what the calls on it return. *)
Record IcebergTurn := mkIcebergTurn {
  it_lease : Lease RB Sch; it_dir : gmap N bytes; it_panic : option string; it_ack : result unit PipelineError; it_nack : result unit PipelineError }.

Inductive IcLeaseEnd : Type := IcAcked | IcNacked (class : FailureClass) | IcDropped.

Definition turn_id (t : IcebergTurn) : LeaseId := l_id (it_lease t).

Definition prepared_batches (t : IcebergTurn) (loaded_table : option Table) : result (list (string * RB)) PipelineError :=
  match it_panic t with
  | Some e => Err (prepare_join_error e)
  | None =>
      prepare concat_batches buffer_config (it_dir t) (it_lease t)
        (fun batch => prepare_iceberg_batches batch (l_signal (it_lease t)) (ic_schema_mode config) loaded_table sorter (ic_partition_granularity config))
  end.

(** The lease is returned with the error's class; a fatal one ends the sink. *)
Definition nack_with (srv : Srv) (t : IcebergTurn) (err : PipelineError) : Srv * IcLeaseEnd * result unit PipelineError :=
  let class := classify_iceberg_error err in
  (srv, IcNacked class, match it_nack t with Err e => Err e | Ok _ => match class with Fatal _ => Err err | _ => Ok tt end end).

Definition snapshot_props (id : LeaseId) : gmap bytes bytes :=
  let token := format_lease_token id in
  <[instance_snapshot_property_key (id_signal id) (id_instance id) := token]> {[snapshot_property_key (id_signal id) := token]}.

Definition commit_files (srv : Srv) (t : IcebergTurn) (table : Table) (all_data_files : list DataFile) : Srv * IcLeaseEnd * result unit PipelineError :=
  if negb has_catalog || bool_decide (length all_data_files = 0%nat) then (srv, IcAcked, it_ack t)
  else
    match apply_append table (snapshot_props (turn_id t)) all_data_files with
    | Err e => nack_with srv t (Storage e)
    | Ok tx =>
        match commit srv tx with
        | (srv, Ok _) => (srv, IcAcked, it_ack t)
        | (srv, Err commit_err) =>
            match load_table srv (ic_table_identifier config) with
            | (srv, Ok (Some refreshed)) =>
                if is_lease_already_committed (table_metadata refreshed) (turn_id t) then (srv, IcAcked, it_ack t) else nack_with srv t (Storage commit_err)
            | (srv, _) => nack_with srv t (Storage commit_err)
            end
        end
    end.

Definition commit_batches (srv : Srv) (t : IcebergTurn) (loaded_table : option Table) : Srv * IcLeaseEnd * result unit PipelineError :=
  match prepared_batches t loaded_table with
  | Err (Storage e) => (srv, IcDropped, Err (Storage e))
  | Err err => if is_prepare_join_error err then (srv, IcDropped, Err err) else (srv, IcNacked (Rejected (pipeline_to_string err)), it_nack t)
  | Ok sub_batches =>
      match loaded_table with
      | None => (srv, IcAcked, it_ack t)
      | Some table =>
          match write_all srv table sub_batches [] with
          | (srv, Err err) => nack_with srv t err
          | (srv, Ok all_data_files) => commit_files srv t table all_data_files
          end
      end
  end.

Definition commit_lease (srv : Srv) (t : IcebergTurn) : Srv * IcLeaseEnd * result unit PipelineError :=
  if l_num_rows (it_lease t) =? 0 then (srv, IcAcked, it_ack t)
  else
    match load_table srv (ic_table_identifier config) with
    | (srv, Err err) => nack_with srv t err
    | (srv, Ok loaded_table) =>
        if match loaded_table with Some table => is_lease_already_committed (table_metadata table) (turn_id t) | None => false end
        then (srv, IcAcked, it_ack t)
        else commit_batches srv t loaded_table
    end.

(** The leases in order; [closed] is what [next_lease] says after them. *)
Fixpoint iceberg_run (srv : Srv) (turns : list IcebergTurn) (closed : result unit PipelineError) : Srv * list IcLeaseEnd * result unit PipelineError :=
  match turns with
  | [] => (srv, [], closed)
  | t :: turns =>
      match commit_lease srv t with
      | (srv, e, Err err) => (srv, [e], Err err)
      | (srv, e, Ok _) => let '(srv, es, r) := iceberg_run srv turns closed in (srv, e :: es, r)
      end
  end.

(** *** What the run settles *)

Section Settled.
(** The sink's own instance: the ids of its leases. *)
Variable inst : N.

(** A snapshot without a token of the instance. *)
Definition foreign (snap : Snapshot) : Prop :=
  forall id key raw f l, key ∈ lease_keys id -> snapshot_property snap key = Some raw -> parse_lease_token raw <> Some (inst, f, l).

(** The table is its snapshots, in order; others add theirs at any time and none is
    removed.  A loaded table shows them all; a commit adds one snapshot with the
    properties it was given under the tokens' keys, or, when it fails, may add none. *)
Class IcebergContract := {
  table_log : Srv -> list Snapshot;
  grows srv srv' : Prop := exists others, table_log srv' = table_log srv ++ others /\ Forall foreign others;
  load_grows srv ident srv' r : cat_load_table srv ident = (srv', r) -> grows srv srv';
  load_fresh srv ident srv' table : cat_load_table srv ident = (srv', Ok table) -> forall snap, snap ∈ snapshots (table_metadata table) <-> snap ∈ table_log srv';
  load_current srv ident srv' table curr : cat_load_table srv ident = (srv', Ok table) -> current_snapshot (table_metadata table) = Some curr -> curr ∈ snapshots (table_metadata table);
  build_grows srv table lg srv' r : build_writer srv table lg = (srv', r) -> grows srv srv';
  write_grows srv w batch srv' r : write srv w batch = (srv', r) -> grows srv srv';
  close_grows srv w srv' r : close srv w = (srv', r) -> grows srv srv';
  close_empty srv w batch srv' w' srv'' srv3 : write srv w batch = (srv', Ok w') -> close srv'' w' = (srv3, Ok []) -> num_rows batch = 0;
  commit_appends srv table props files tx srv' r : apply_append table props files = Ok tx -> commit srv tx = (srv', r) ->
    (grows srv srv' /\ is_ok r = false) \/
    exists before new after, table_log srv' = table_log srv ++ before ++ new :: after /\ Forall foreign before /\ Forall foreign after /\
      forall id key, key ∈ lease_keys id -> snapshot_property new key = props !! key }.

Context `{!IcebergContract}.

(** Every number of the lease is in a range some snapshot records for it. *)
Definition covered (log : list Snapshot) (id : LeaseId) : Prop :=
  forall s, id_first_seq id <= s <= id_last_seq id -> exists i, recorded (mkTableMetadata log None) id i /\ i.1 <= s <= i.2.

Definition snapshot_deliveries (snap : Snapshot) : list (SignalType * (N * N)) :=
  omap (fun signal =>
    match snapshot_property snap (instance_snapshot_property_key signal inst) with
    | Some raw => match parse_lease_token raw with Some (i, f, l) => if i =? inst then Some (signal, (f, l)) else None | None => None end
    | None => None
    end) [Logs; Metrics; Traces].

(** The leases of the instance the table has commits of, one for each commit. *)
Definition deliveries (log : list Snapshot) : list (SignalType * (N * N)) := concat (map snapshot_deliveries log).

Lemma covered_extends log log' id : (forall snap, snap ∈ log -> snap ∈ log') -> covered log id -> covered log' id.
Proof. intros Hs Hc s Hr. destruct (Hc s Hr) as (i & (snap & key & raw & Hin & ?) & ?). exists i. split; [|done]. exists snap, key, raw. split; [by apply Hs | done]. Qed.

Lemma deliveries_app log log' : deliveries (log ++ log') = deliveries log ++ deliveries log'.
Proof. unfold deliveries. by rewrite map_app, concat_app. Qed.

Lemma deliveries_foreign log : Forall foreign log -> deliveries log = [].
Proof.
  induction 1 as [|snap log Hf _ IH]; [done|]. change (deliveries (snap :: log)) with (snapshot_deliveries snap ++ deliveries log). rewrite IH, app_nil_r.
  assert (Hd : forall x, x ∉ snapshot_deliveries snap); [|destruct (snapshot_deliveries snap) as [|x ?]; [done | exfalso; apply (Hd x); by left]].
  intros x Hx. unfold snapshot_deliveries in Hx. apply list_elem_of_omap in Hx as (signal & _ & Hx).
  destruct (snapshot_property snap _) as [raw|] eqn:Ep; [|done]. destruct (parse_lease_token raw) as [[[i f] l]|] eqn:Et; [|done].
  destruct (N.eqb_spec i inst) as [->|]; [|done]. refine (Hf (mkLeaseId inst signal 0 0) _ raw f l _ Ep Et). by left.
Qed.

(** A commit of a lease that was delivered is in the table as such. *)
Lemma delivered_recorded log signal f l : (signal, (f, l)) ∈ deliveries log -> forall first last, recorded (mkTableMetadata log None) (mkLeaseId inst signal first last) (f, l).
Proof.
  intros Hd first last. unfold deliveries in Hd. apply list_elem_of_In, in_concat in Hd as (ds & Hds & Hin). apply in_map_iff in Hds as (snap & <- & Hsnap).
  apply list_elem_of_In in Hin, Hsnap. unfold snapshot_deliveries in Hin. apply list_elem_of_omap in Hin as (signal' & _ & Hx).
  destruct (snapshot_property snap _) as [raw|] eqn:Ep; [|done]. destruct (parse_lease_token raw) as [[[i f'] l']|] eqn:Et; [|done].
  destruct (N.eqb_spec i inst) as [->|]; [|done]. injection Hx as -> -> ->. exists snap, (instance_snapshot_property_key signal inst), raw. split_and!; [done | by left | done..].
Qed.

Lemma grows_covered srv srv' id : grows srv srv' -> covered (table_log srv) id -> covered (table_log srv') id.
Proof. intros (o & -> & _). apply covered_extends. intros snap Hs. apply elem_of_app. by left. Qed.

Lemma grows_deliveries srv srv' : grows srv srv' -> deliveries (table_log srv') = deliveries (table_log srv).
Proof. intros (o & -> & Hf). by rewrite deliveries_app, (deliveries_foreign o Hf), app_nil_r. Qed.

Lemma grows_refl srv : grows srv srv.
Proof. exists []. by rewrite app_nil_r. Qed.

Lemma grows_trans srv srv' srv'' : grows srv srv' -> grows srv' srv'' -> grows srv srv''.
Proof. intros (o & E & Hf) (o' & E' & Hf'). exists (o ++ o'). split; [by rewrite E', E, app_assoc | by apply Forall_app]. Qed.

Lemma load_table_grows srv name srv' r : load_table srv name = (srv', r) -> grows srv srv'.
Proof.
  unfold load_table. destruct has_catalog; cbn [negb]; [|intros [= <- _]; apply grows_refl]. destruct (from_strs name); [|intros [= <- _]; apply grows_refl].
  destruct (cat_load_table srv _) as [s [t|e]] eqn:El; intros [= <- _]; by eapply load_grows.
Qed.

(** What a loaded table says of a lease is what the table has. *)
Lemma load_table_covered srv name srv' table id : id_in_range id -> load_table srv name = (srv', Ok (Some table)) ->
  (is_lease_already_committed (table_metadata table) id = true <-> covered (table_log srv') id).
Proof.
  intros Hr. unfold load_table. destruct has_catalog; cbn [negb]; [|done]. destruct (from_strs name); [|done].
  destruct (cat_load_table srv _) as [s [t|e]] eqn:El; intros [= <- <-]. rewrite committed_covered; [|intros curr; by apply (load_current _ _ _ _ _ El) | done].
  pose proof (load_fresh _ _ _ _ El) as Hf. unfold covered, recorded. cbn [snapshots]. by setoid_rewrite Hf.
Qed.

Lemma write_batch_grows srv table batch srv' r : write_batch_to_table srv table batch = (srv', r) -> grows srv srv' /\ (r = Ok [] -> num_rows batch = 0).
Proof.
  unfold write_batch_to_table. destruct (new_location_generator table) as [lg|]; [|intros [= <- <-]; split; [apply grows_refl | done]].
  destruct (build_writer srv table lg) as [s1 [w|]] eqn:E1; pose proof (build_grows _ _ _ _ _ E1) as G1; [|intros [= <- <-]; split; done].
  destruct (write s1 w batch) as [s2 [w'|]] eqn:E2; pose proof (write_grows _ _ _ _ _ E2) as G2; [|intros [= <- <-]; split; [by eapply grows_trans | done]].
  destruct (close s2 w') as [s3 r3] eqn:E3; pose proof (close_grows _ _ _ _ E3) as G3. intros [= <- <-]. split; [eapply grows_trans; [|exact G3]; by eapply grows_trans|].
  destruct r3 as [files|]; [|done]. cbn. intros [= ->]. by eapply close_empty.
Qed.

Lemma write_all_grows table subs : forall srv files srv' r, write_all srv table subs files = (srv', r) ->
  grows srv srv' /\ (r = Ok [] -> files = [] /\ Forall (fun s => num_rows s.2 = 0) subs).
Proof.
  induction subs as [|[path sub] subs IH]; intros srv files srv' r; cbn [write_all]; [intros [= <- <-]; split; [apply grows_refl | intros [= ->]; done]|].
  destruct (write_batch_to_table srv table sub) as [s1 [new|]] eqn:E1; destruct (write_batch_grows _ _ _ _ _ E1) as [G1 Hw1]; [|intros [= <- <-]; split; done].
  intros E. apply IH in E as [G2 Hw2]. split; [by eapply grows_trans|]. intros Hr. destruct (Hw2 Hr) as [[-> ->]%app_eq_nil Hf]. split; [done|]. constructor; [by apply Hw1 | done].
Qed.

Lemma instance_key_inj signal signal' : instance_snapshot_property_key signal inst = instance_snapshot_property_key signal' inst -> signal = signal'.
Proof. intros E. apply (f_equal (fun l => nth 15 l 0)) in E. destruct signal, signal'; cbn in E; done. Qed.

Lemma instance_key_length signal signal' : instance_snapshot_property_key signal inst <> snapshot_property_key signal'.
Proof.
  intros E. apply (f_equal (@length N)) in E. unfold instance_snapshot_property_key in E. rewrite !length_app, length_hex_fixed in E. destruct signal, signal'; vm_compute in E; done.
Qed.

Definition delivery (id : LeaseId) : SignalType * (N * N) := (id_signal id, (id_first_seq id, id_last_seq id)).

(** The snapshot of a commit says which lease it has, and nothing else. *)
Lemma committed_snapshot id new : id_in_range id -> id_instance id = inst ->
  (forall id' key, key ∈ lease_keys id' -> snapshot_property new key = snapshot_props id !! key) ->
  snapshot_deliveries new = [delivery id] /\ forall log, new ∈ log -> covered log id.
Proof.
  intros Hr Hi Hp. destruct (lease_token_parts id Hr) as [Ht _].
  assert (Hk : forall signal, snapshot_property new (instance_snapshot_property_key signal inst) = if bool_decide (signal = id_signal id) then Some (format_lease_token id) else None).
  { intros signal. rewrite (Hp (mkLeaseId inst signal 0 0)) by (by left). unfold snapshot_props. rewrite Hi. case_bool_decide as E.
    - subst signal. apply lookup_insert_eq.
    - rewrite lookup_insert_ne by (intros E'; apply instance_key_inj in E'; done). apply lookup_singleton_ne. intros E'. symmetry in E'. by apply instance_key_length in E'. }
  split.
  - assert (Hd : forall signal, match snapshot_property new (instance_snapshot_property_key signal inst) with
      | Some raw => match parse_lease_token raw with Some (i, f, l) => if i =? inst then Some (signal, (f, l)) else None | None => None end
      | None => None end = if bool_decide (signal = id_signal id) then Some (delivery id) else None).
    { intros signal. rewrite Hk. case_bool_decide as E; [|done]. by rewrite Ht, Hi, N.eqb_refl, E. }
    unfold snapshot_deliveries. cbn [omap list_omap]. rewrite !Hd. generalize (delivery id). intros d. by destruct (id_signal id).
  - intros log Hin s Hs. exists (id_first_seq id, id_last_seq id). split; [|done]. exists new, (instance_snapshot_property_key (id_signal id) inst), (format_lease_token id).
    split_and!; [done | rewrite <- Hi; by left | rewrite Hk; by rewrite bool_decide_true | done].
Qed.

(** ** Why a lease ended as it did *)
Definition lease_settled (srv : Srv) (t : IcebergTurn) (e : IcLeaseEnd) : Prop :=
  match e with
  | IcAcked =>
      l_num_rows (it_lease t) = 0 \/ covered (table_log srv) (turn_id t) \/
      exists table subs, prepared_batches t (Some table) = Ok subs /\ Forall (fun s => num_rows s.2 = 0) subs
  | IcNacked class => exists err, class = classify_iceberg_error err \/ (class = Rejected (pipeline_to_string err) /\ exists table, prepared_batches t table = Err err)
  | IcDropped => exists table err, prepared_batches t table = Err err
  end.

Lemma settled_extends srv srv' t e : (forall snap, snap ∈ table_log srv -> snap ∈ table_log srv') -> lease_settled srv t e -> lease_settled srv' t e.
Proof. intros Hs. destruct e; cbn [lease_settled]; [|done..]. intros [?|[Hc|?]]; [by left | right; left | by right; right]. by eapply covered_extends. Qed.

(** One turn on the table: what it keeps, and what it adds. *)
Definition turn_ok (srv : Srv) (t : IcebergTurn) (srv' : Srv) (e : IcLeaseEnd) (r : result unit PipelineError) : Prop :=
  (exists more, table_log srv' = table_log srv ++ more) /\ (NoDup (deliveries (table_log srv)) -> NoDup (deliveries (table_log srv'))) /\
  lease_settled srv' t e /\ (e = IcDropped -> is_ok r = false).

Lemma grows_ok srv t srv' e r : grows srv srv' -> lease_settled srv' t e -> (e = IcDropped -> is_ok r = false) -> turn_ok srv t srv' e r.
Proof. intros Hg Hs Hd. split; [destruct Hg as (o & E & _); by exists o|]. split; [by rewrite (grows_deliveries _ _ Hg) | done]. Qed.

Lemma nack_ok srv srv' t err s e r : grows srv srv' -> nack_with srv' t err = (s, e, r) -> turn_ok srv t s e r.
Proof. unfold nack_with. intros Hg [= <- <- <-]. apply grows_ok; [done | exists err; by left | done]. Qed.

Lemma turn_trans srv srv1 t srv' e r : grows srv srv1 -> turn_ok srv1 t srv' e r -> turn_ok srv t srv' e r.
Proof.
  intros Hg ((more & E) & Hn & Hs). split; [destruct Hg as (o & E' & _); exists (o ++ more); by rewrite E, E', app_assoc|]. split; [|done].
  intros Hd. apply Hn. by rewrite (grows_deliveries _ _ Hg).
Qed.

(** A commit of a lease the table has no commit of. *)
Lemma commit_files_ok srv t table files s e r : id_in_range (turn_id t) -> id_instance (turn_id t) = inst -> has_catalog = true ->
  delivery (turn_id t) ∉ deliveries (table_log srv) -> (files = [] -> lease_settled srv t IcAcked) ->
  commit_files srv t table files = (s, e, r) -> turn_ok srv t s e r.
Proof.
  intros Hr Hi Hcat Hnew Hempty. unfold commit_files. rewrite Hcat. cbn [negb orb]. case_bool_decide as Hl.
  { intros [= <- <- <-]. apply grows_ok; [apply grows_refl | | done]. apply Hempty. by destruct files. }
  destruct (apply_append table _ files) as [tx|err] eqn:Ea; [|apply nack_ok, grows_refl].
  destruct (commit srv tx) as [srv1 rc] eqn:Ec. destruct (commit_appends _ _ _ _ _ _ _ Ea Ec) as [[Hg Hf]|(before & new & after & Elog & Hb & Hafter & Hp)].
  - destruct rc as [|cerr]; [done|]. destruct (load_table srv1 (ic_table_identifier config)) as [srv2 rl] eqn:El. pose proof (load_table_grows _ _ _ _ El) as Hg2.
    pose proof (grows_trans _ _ _ Hg Hg2) as Hg'. destruct rl as [[refreshed|]|]; [|by apply nack_ok..].
    destruct (is_lease_already_committed (table_metadata refreshed) (turn_id t)) eqn:Ec2; [|by apply nack_ok]. intros [= <- <- <-]. apply grows_ok; [done | | done].
    right. left. by apply (load_table_covered _ _ _ _ _ Hr El).
  - destruct (committed_snapshot _ _ Hr Hi Hp) as [Hd Hc]. assert (Hdel : deliveries (table_log srv1) = deliveries (table_log srv) ++ [delivery (turn_id t)]).
    { rewrite Elog, !deliveries_app, (deliveries_foreign before Hb). change (deliveries (new :: after)) with (snapshot_deliveries new ++ deliveries after). by rewrite Hd, (deliveries_foreign after Hafter). }
    assert (Hcov : covered (table_log srv1) (turn_id t)) by (apply Hc; rewrite Elog, !elem_of_app; right; right; by left).
    assert (Hok1 : forall e r, lease_settled srv1 t e -> (e = IcDropped -> is_ok r = false) -> turn_ok srv t srv1 e r).
    { intros e' r' Hs' He'. split; [by eexists|]. split; [|done]. intros Hn. rewrite Hdel. apply NoDup_app. split_and!; [done | | apply NoDup_singleton].
      intros x Hx ->%list_elem_of_singleton. done. }
    destruct rc as [|cerr]; [intros [= <- <- <-]; apply Hok1; [right; by left | done]|].
    destruct (load_table srv1 (ic_table_identifier config)) as [srv2 rl] eqn:El. pose proof (load_table_grows _ _ _ _ El) as Hg2.
    assert (Hok2 : forall e r, lease_settled srv2 t e -> (e = IcDropped -> is_ok r = false) -> turn_ok srv t srv2 e r).
    { intros e' r' Hs' He'. destruct Hg2 as (o & E2 & Hf2). split; [eexists; by rewrite E2, Elog, <- app_assoc|]. split; [|done].
      intros Hn. rewrite E2, deliveries_app, (deliveries_foreign o Hf2), app_nil_r. apply (Hok1 IcAcked (it_ack t)); [right; by left | done | done]. }
    assert (Hnack : forall err s e r, nack_with srv2 t err = (s, e, r) -> turn_ok srv t s e r) by (unfold nack_with; intros err0 s0 e0 r0 [= <- <- <-]; apply Hok2; [exists err0; by left | done]).
    destruct rl as [[refreshed|]|]; [|by apply Hnack..]. destruct (is_lease_already_committed _ _); [|by apply Hnack].
    intros [= <- <- <-]. apply Hok2; [|done]. right. left. by eapply grows_covered.
Qed.

Lemma commit_lease_ok srv t s e r : id_in_range (turn_id t) -> id_instance (turn_id t) = inst -> has_catalog = true -> commit_lease srv t = (s, e, r) -> turn_ok srv t s e r.
Proof.
  intros Hr Hi Hcat. unfold commit_lease. destruct (N.eqb_spec (l_num_rows (it_lease t)) 0) as [E0|_].
  { intros [= <- <- <-]. apply grows_ok; [apply grows_refl | by left | done]. }
  destruct (load_table srv (ic_table_identifier config)) as [srv1 [loaded|err]] eqn:El; pose proof (load_table_grows _ _ _ _ El) as Hg; [|by apply nack_ok].
  destruct loaded as [table|].
  2: { unfold load_table in El. rewrite Hcat in El. cbn in El. destruct (from_strs _); [|done]. by destruct (cat_load_table _ _) as [? [|]]. }
  pose proof (load_table_covered _ _ _ _ _ Hr El) as Hcov. destruct (is_lease_already_committed (table_metadata table) (turn_id t)).
  { intros [= <- <- <-]. apply grows_ok; [done | right; left; by apply Hcov | done]. }
  assert (Hnew : forall srv2, grows srv1 srv2 -> delivery (turn_id t) ∉ deliveries (table_log srv2)).
  { intros srv2 Hg2 Hin. rewrite (grows_deliveries _ _ Hg2) in Hin. assert (Hc : covered (table_log srv1) (turn_id t)); [|by apply Hcov in Hc].
    intros q Hq. exists (id_first_seq (turn_id t), id_last_seq (turn_id t)). split; [|done].
    pose proof (delivered_recorded _ _ _ _ Hin (id_first_seq (turn_id t)) (id_last_seq (turn_id t))) as Hrec. rewrite <- Hi in Hrec. by destruct (turn_id t). }
  unfold commit_batches. destruct (prepared_batches t (Some table)) as [subs|err] eqn:Ep.
  - destruct (write_all srv1 table subs []) as [srv2 [files|werr]] eqn:Ew; destruct (write_all_grows _ _ _ _ _ _ Ew) as [Hg2 Hz]; [|by apply nack_ok, (grows_trans _ srv1)].
    intros Hc. eapply turn_trans; [by eapply grows_trans|]. apply (commit_files_ok srv2 t table files); [done..|by apply Hnew| |done].
    intros ->. right. right. exists table, subs. split; [done|]. by apply Hz.
  - assert (Hnack : forall s e r, (if is_prepare_join_error err then (srv1, IcDropped, Err err) else (srv1, IcNacked (Rejected (pipeline_to_string err)), it_nack t)) = (s, e, r) -> turn_ok srv t s e r).
    { rewrite join_error_never_recognised. intros ??? [= <- <- <-]. apply grows_ok; [done | exists err; right; split; [done | by eexists] | done]. }
    destruct err; try apply Hnack. intros [= <- <- <-]. apply grows_ok; [done | by exists (Some table); eexists | done].
Qed.

(** C20 (iceberg_commits_once). The Iceberg sink with a catalogue takes its leases in order and no
    lease is committed to the table twice, whatever fails, is lost on the way back
    or is leased again: if no two commits in the table are of the same lease at
    the start, none are at the end.  A lease is acknowledged only when it has no
    rows, when the table's snapshots record all of its sequence numbers, or when
    none of its prepared batches has a row; it is returned with the class of an
    error, and left alone only when its preparation failed and the sink stops. *)
Theorem iceberg_commits_once turns closed : has_catalog = true -> Forall (fun t => id_in_range (turn_id t) /\ id_instance (turn_id t) = inst) turns ->
  forall srv, NoDup (deliveries (table_log srv)) ->
  let '(srv', ends, r) := iceberg_run srv turns closed in
  NoDup (deliveries (table_log srv')) /\ exists handled rest, turns = handled ++ rest /\ Forall2 (lease_settled srv') handled ends /\
    (is_ok r = true -> rest = [] /\ is_ok closed = true /\ IcDropped ∉ ends).
Proof.
  intros Hcat Hturns. assert (Hgen : forall srv, let '(srv', ends, r) := iceberg_run srv turns closed in
    (exists more, table_log srv' = table_log srv ++ more) /\ (NoDup (deliveries (table_log srv)) -> NoDup (deliveries (table_log srv'))) /\
    exists handled rest, turns = handled ++ rest /\ Forall2 (lease_settled srv') handled ends /\ (is_ok r = true -> rest = [] /\ is_ok closed = true /\ IcDropped ∉ ends)).
  2: { intros srv Hn. specialize (Hgen srv). destruct (iceberg_run srv turns closed) as [[srv' ends] r]. destruct Hgen as (_ & Hd & Hs). split; [by apply Hd | done]. }
  induction Hturns as [|t turns [Hr Hi] _ IH]; intros srv; cbn [iceberg_run].
  - split_and!; [exists []; by rewrite app_nil_r | done|]. exists [], []. split_and!; [done | constructor | intros Hc; split_and!; [done..|apply not_elem_of_nil]].
  - destruct (commit_lease srv t) as [[srv1 e] r1] eqn:Ec. destruct (commit_lease_ok _ _ _ _ _ Hr Hi Hcat Ec) as ((more1 & E1) & Hn1 & Hs1 & Hd1).
    destruct r1 as [[]|err]; [|split_and!; [by eexists | done | exists [t], turns; split_and!; [done | by repeat constructor | done]]].
    specialize (IH srv1). destruct (iceberg_run srv1 turns closed) as [[srv2 ends] r]. destruct IH as ((more2 & E2) & Hn2 & handled & rest & -> & Hf & Hok).
    split_and!; [exists (more1 ++ more2); by rewrite E2, E1, app_assoc | intros Hn; by apply Hn2, Hn1|]. exists (t :: handled), rest. split_and!; [done| |].
    + constructor; [|done]. eapply settled_extends; [|exact Hs1]. intros snap Hs. rewrite E2. apply elem_of_app. by left.
    + intros Hr2. destruct (Hok Hr2) as (-> & Hc & Hnd). split_and!; [done..|]. apply not_elem_of_cons. split; [|done]. intros <-. by specialize (Hd1 eq_refl).
Qed.
End Settled.
End Prepare.

Module IcebergSinkDemo.

(** A batch of the demonstration has named and typed columns of numbers; its rows
    are those of its first column. *)
#[local] Existing Instance Toy.crc.

Definition Fld : Type := string * N.
Definition Col : Type := N * list N.
Definition batch : Type := list Fld * list Col.

Definition first_column (cs : list Col) : list N := match cs with [] => [] | c :: _ => c.2 end.

#[export] Instance arrow : Arrow batch (list Fld) N := {|
  rb_rows b := first_column b.2; rb_schema b := b.1; rb_memory_size _ := 0; rb_slice b _ _ := b;
  ipc_encode _ := None; ipc_decode _ := IpcError; ipc_file_encode _ := None; schema_eq_dec := _ |}.

Definition demo_column_by_name (b : batch) (name : string) : option Col :=
  match list_find (fun f => f.1 = name) b.1 with
  | Some (i, _) => match b.2 !! i with Some c => if bool_decide (length c.2 = length (first_column b.2)) then Some c else None | None => None end
  | None => None
  end.
Definition demo_columns (b : batch) : list Col := b.2.
Definition demo_lexsort (cols : list (Col * SortOptions)) : option (list nat) := match cols with (c, _) :: _ => Some (rev (seq 0 (length c.2))) | [] => None end.
Definition demo_take_column (c : Col) (idx : list nat) : option Col := Some (c.1, omap (fun i => c.2 !! i) idx).
Definition demo_try_new (s : list Fld) (cs : list Col) : option batch := match cs with [] => None | _ => Some (s, cs) end.
Definition demo_cast (c : Col) (t : N) : option Col := if t =? 9 then None else Some (t, c.2).
Definition demo_timestamp_column (c : Col) : TimestampColumn := if c.1 =? 1 then Nanoseconds (Some (map (fun v => Some (Z.of_N v)) c.2)) else OtherType "UInt64".
(** The time is its hour; the year, month and day are fixed. *)
Definition demo_timestamp_opt (secs : Z) (nanos : N) : option N := if (0 <=? secs)%Z then Some (Z.to_N (secs / 3600)) else None.
Definition demo_format (hour : N) (f : string) : string := (if bool_decide (f = "%H") then "0" +:+ pretty.pretty hour else if bool_decide (f = "%Y") then "1970" else "01")%string.
Definition demo_hash_order (groups : list (string * list N)) : list (string * list N) := reverse groups.

#[export] Instance kernels : Kernels batch (list Fld) Col Fld N N := {|
  column_by_name := demo_column_by_name; columns := demo_columns; lexsort_to_indices := demo_lexsort; take_column := demo_take_column; try_new := demo_try_new;
  fields := id; schema_new := id; f_name := fst; f_type := snd; debug_type := pretty.pretty; data_type := fst; cast := demo_cast;
  timestamp_opt := demo_timestamp_opt; format := demo_format; timestamp_column := demo_timestamp_column; hash_order := demo_hash_order |}.

(** The catalogue's table is its snapshots; [fates] says what happens to the coming
    calls: nothing, an answer lost, or a call that does not arrive. *)
Inductive Fate : Type := Honest | Lost | Killed.
Record server := mkServer { log : list Snapshot; fates : list Fate }.
Definition tick (s : server) : server := mkServer (log s) (tail (fates s)).
Definition fate (s : server) : Fate := default Honest (head (fates s)).
Definition answer {A} (s : server) (a : A) : server * result A string := (tick s, match fate s with Honest => Ok a | _ => Err "connection reset"%string end).

Definition table : Type := list Snapshot.
Definition table_schema : list Fld := [("body"%string, 2); ("timestamp"%string, 1)].
Definition arrow_schema_of (_ : table) : result (list Fld) string := Ok table_schema.

Definition demo_commit (s : server) (props : gmap bytes bytes) : server * result unit string :=
  match fate s with
  | Honest => (mkServer (log s ++ [mkSnapshot props]) (tail (fates s)), Ok tt)
  | Lost => (mkServer (log s ++ [mkSnapshot props]) (tail (fates s)), Err "connection reset"%string)
  | Killed => (tick s, Err "connection reset"%string)
  end.

#[export] Instance demo_calls : IcebergCalls server table batch string unit (option batch) batch (gmap bytes bytes) := {|
  from_strs := Ok; cat_load_table s _ := answer s (log s); table_metadata t := mkTableMetadata t (last t); new_location_generator _ := Ok tt;
  build_writer s _ _ := (s, Ok None); write s _ b := (s, Ok (if num_rows b =? 0 then None else Some b));
  close s w := (s, Ok (match w with Some b => [b] | None => [] end)); apply_append _ props _ := Ok props; commit := demo_commit |}.

Lemma tick_grows inst s : exists others, log (tick s) = log s ++ others /\ Forall (foreign inst) others.
Proof. exists []. by rewrite app_nil_r. Qed.

#[export] Instance demo_contract inst : IcebergContract inst (RB := batch) (Srv := server) (Table := table).
Proof.
  refine {| table_log := log |}; cbn.
  - intros s ident s' r [= <- _]. apply tick_grows.
  - intros s ident s' t. unfold answer. by destruct (fate s); intros [= <- <-].
  - intros s ident s' t curr _ Hl. by apply last_Some_elem_of in Hl.
  - intros s t lg s' r [= <- _]. exists []. by rewrite app_nil_r.
  - intros s w b s' r [= <- _]. exists []. by rewrite app_nil_r.
  - intros s w s' r [= <- _]. exists []. by rewrite app_nil_r.
  - intros s w b s' w' s'' s3 [= <- <-] [= <- E]. destruct (N.eqb_spec (num_rows b) 0); done.
  - intros s t props files tx s' r [= ->] E. unfold demo_commit in E. destruct (fate s); injection E as <- <-; [right | right | left; split; [apply tick_grows | done]];
      (exists [], (mkSnapshot tx), []; split_and!; [done | constructor | constructor | done]).
Defined.

Definition lease (id : LeaseId) (b : batch) : Lease batch (list Fld) := mkLease id [b] [InMemory b] [] (num_rows b) 0 0 0 0.
Definition turn (id : LeaseId) (b : batch) : IcebergTurn (RB := batch) (Sch := list Fld) := mkIcebergTurn (lease id b) ∅ None (Ok tt) (Ok tt).

Definition hour (n : N) : N := n * 3600 * 1000000000.
Definition records : batch := ([("timestamp", 1); ("extra", 2); ("body", 3)]%string, [(1, [hour 2; hour 1; hour 2 + 5]); (2, [7; 8; 9]); (3, [4; 5; 6])]).

Definition sink_config : IcebergSinkConfig := mkIcebergSinkConfig Rest "" "" "otel.logs" None None None Catalog Hourly true None None ∅ false None.
Definition id1 : LeaseId := mkLeaseId 171 Logs 3 9.
Definition id2 : LeaseId := mkLeaseId 171 Logs 10 12.

#[export] Instance demo_schema_laws : SchemaLaws.
Proof.
  split; cbn.
  - intros s [|c cs] b; cbn; [done|]. by intros [= <-].
  - done.
  - intros c t c'. unfold demo_cast. destruct (t =? 9); [done|]. by intros [= <-].
Qed.

Lemma schema_mode_conforms_witness :
  let r := apply_schema_mode_with_config arrow_schema_of records Catalog (Some []) in
  let b : batch := ([("timestamp", 1); ("body", 2)]%string, [(1, [hour 2; hour 1; hour 2 + 5]); (2, [4; 5; 6])]) in
  r = Ok b /\ fields (rb_schema b) = omap (fun f => field_with_name table_schema (f_name f)) (fields (rb_schema records)) /\
  Forall2 (mapped_from records) (columns b) (fields (rb_schema b)) /\
  Forall2 (fun col f => data_type col = f_type f) (columns b) (fields (rb_schema b)).
Proof.
  intros r b. assert (E : r = Ok b) by reflexivity. split; [exact E|].
  exact (proj1 (schema_mode_conforms arrow_schema_of records [] table_schema eq_refl) b E).
Defined.

#[export] Instance demo_partition_laws : PartitionLaws.
Proof.
  split; cbn.
  - intros groups. apply reverse_Permutation.
  - intros b indices cs b'. unfold demo_columns, demo_try_new. destruct b as [fs bcs]. cbn. destruct bcs as [|c bcs]; cbn.
    + by intros [= <-].
    + destruct (mapM _ bcs) as [cs'|]; cbn; [|done]. intros [= <-] [= <-]. done.
  - intros b name col nanos. unfold demo_column_by_name, timestamps_nanos. destruct (list_find _ _) as [[i f]|]; [|done]. destruct (b.2 !! i) as [c|]; [|done].
    case_bool_decide as El; [|done]. intros [= <-]. cbn. unfold demo_timestamp_column. destruct (c.1 =? 1); [|done]. cbn. rewrite <- El.
    assert (Hl : forall l nanos, read_nanos (map (fun v => Some (Z.of_N v)) l) = Ok nanos -> length nanos = length l).
    { induction l as [|v l IH]; intros ns; cbn; [by intros [= <-]|]. destruct (read_nanos _) as [vs|]; [|done]. intros [= <-]. cbn. f_equal. by apply IH. }
    apply Hl.
Qed.

Lemma partition_complete_witness :
  let subs : list (string * batch) :=
    [("year=1970/month=01/day=01/hour=01/"%string, (records.1, [(1, [hour 1]); (2, [8]); (3, [5])]));
     ("year=1970/month=01/day=01/hour=02/"%string, (records.1, [(1, [hour 2; hour 2 + 5]); (2, [7; 9]); (3, [4; 6])]))] in
  partition_batch records "timestamp" Hourly = Ok subs /\
  concat (map (fun s => rb_rows s.2) subs) ≡ₚ rb_rows records /\ NoDup (map fst subs) /\
  exists ts_col nanos, column_by_name records "timestamp" = Some ts_col /\ timestamps_nanos ts_col = Ok nanos /\
    Forall (fun s => exists indices, group_ok Hourly nanos (s.1, indices) /\ rb_rows s.2 = omap (fun i => rb_rows records !! i) (map N.to_nat indices)) subs.
Proof.
  intros subs. assert (E : partition_batch records "timestamp" Hourly = Ok subs) by reflexivity. split; [exact E|].
  exact (partition_complete records "timestamp" Hourly subs E).
Defined.

(** The first commit's answer is lost and so is the first look at the table; the
    lease is leased again and found there, and the next one is committed. *)
Definition turns := [turn id1 records; turn id1 records; turn id2 records].
Definition srv0 : server := mkServer [] [Honest; Lost; Lost; Honest; Honest; Honest].
Abbreviation run := (iceberg_run (Ident := string) arrow_schema_of (fun _ _ => None) sink_config default_config default_sorter true).

Lemma iceberg_commits_once_witness :
  (let '(srv', ends, r) := run srv0 turns (Ok tt) in
   ends = [IcNacked Transient; IcAcked; IcAcked] /\ r = Ok tt /\ deliveries 171 (log srv') = [(Logs, (3, 9)); (Logs, (10, 12))]) /\
  let '(srv', ends, r) := run srv0 turns (Ok tt) in
  NoDup (deliveries 171 (log srv')) /\ exists handled rest, turns = handled ++ rest /\
    Forall2 (lease_settled (Ident := string) arrow_schema_of (fun _ _ => None) sink_config default_config default_sorter 171 srv') handled ends /\
    (is_ok r = true -> rest = [] /\ is_ok (E := PipelineError) (Ok tt) = true /\ IcDropped ∉ ends).
Proof.
  split; [by vm_compute|].
  refine (iceberg_commits_once arrow_schema_of (fun _ _ => None) sink_config default_config default_sorter true 171 turns (Ok tt) eq_refl _ srv0 _).
  - repeat constructor; vm_compute; done.
  - apply NoDup_nil_2.
Defined.

(** The built-in order is well formed, so that a bad [order_by] never leaves the sink without one. *)
Example legacy_order_parses : is_ok (from_config default_cfg) = true /\ bs_on_missing legacy_sorter = ErrorOnMissing.
Proof. by vm_compute. Qed.

(** The words that make an error fatal are looked for anywhere in its text: a
    connection lost on a file whose name has the digits is one. *)
Example digits_are_fatal :
  classify_iceberg_error (Storage "connection reset while writing part-01974030-9c11.parquet") =
    Fatal "storage error: connection reset while writing part-01974030-9c11.parquet" /\
  classify_iceberg_error (Storage "connection reset while writing part-01970000-9c11.parquet") = Transient.
Proof. by vm_compute. Qed.

End IcebergSinkDemo.
