(* ===== verification/FileDlq.v ===== *)
(** The file dead-letter queue of the binary: [FileDlqSink] in src/main.rs.

    A directory is a map from file names to contents; each send has its own script
    of system calls that fail.  The two counters are the process's. *)

From S2P Require Import Prelude Arrow Signal Text DeadLetter.
Local Open Scope N_scope.

Definition dlq_dir : Type := string * string * string.

Record FileDlqSink := mkFileDlqSink { fd_transformer_id : string; fd_signal : string; fd_role : string }.

(** The components below [dlq]. *)
Definition dlq_dir_of (s : FileDlqSink) : dlq_dir := (fd_transformer_id s, fd_signal s, fd_role s).

Definition unsafe_component (label : string) : string := "DLQ " +:+ label +:+ " contains unsafe path components".

Definition new_file_dlq_sink (transformer_id signal role : string) : result FileDlqSink string :=
  if negb (is_safe_path_component transformer_id) then Err (unsafe_component "transformer_id")
  else if negb (is_safe_path_component signal) then Err (unsafe_component "signal")
  else if negb (is_safe_path_component role) then Err (unsafe_component "role")
  else Ok (mkFileDlqSink transformer_id signal role).

(** The directories, with [DLQ_SEQ] and [DLQ_TMP_COUNTER]. *)
Record DlqState := mkDlqState { dq_dirs : gmap dlq_dir (gmap bytes bytes); dq_seq : N; dq_tmp_counter : N }.

(** What fails: [create_dir_all], the encoding's task, the system calls on the
    temporary file (a failing write leaves some bytes), and the directory's sync. *)
Record SendFaults := mkSendFaults {
  sf_create_dir : option string; sf_join : option string; sf_open : bool; sf_write : option nat; sf_sync : bool; sf_rename : bool; sf_remove : bool; sf_dir_open : bool; sf_dir_sync : bool }.

Definition fetch_add (n : N) : N := (n + 1) mod 18446744073709551616.

Definition arrow_suffix : bytes := text ".arrow".
Definition underscore : N := 95.

Definition dlq_file_name (batch_signal : SignalType) (timestamp seq : N) : bytes :=
  text (as_str batch_signal) ++ [underscore] ++ decimal timestamp ++ underscore :: decimal seq ++ arrow_suffix.

Definition dlq_temp_name (batch_signal : SignalType) (timestamp seq pid tmp_seq : N) : bytes :=
  text ".tmp_" ++ text (as_str batch_signal) ++ [underscore] ++ decimal timestamp ++ [underscore] ++ decimal seq ++ [underscore] ++ decimal pid ++ underscore :: decimal tmp_seq ++ arrow_suffix.

Definition remove_file (f : SendFaults) (name : bytes) (d : gmap bytes bytes) : gmap bytes bytes := if sf_remove f then d else delete name d.

Definition persist_ipc_payload (f : SendFaults) (d : gmap bytes bytes) (file_path temp_file_path buf : bytes) : result unit string * gmap bytes bytes :=
  if sf_open f || bool_decide (is_Some (d !! temp_file_path)) then (Err "open"%string, d)
  else
    match sf_write f with
    | Some n => (Err "write"%string, remove_file f temp_file_path (<[temp_file_path := take n buf]> d))
    | None =>
        let d := <[temp_file_path := buf]> d in
        if sf_sync f then (Err "sync"%string, remove_file f temp_file_path d)
        else if sf_rename f then (Err "rename"%string, remove_file f temp_file_path d)
        else
          let d := <[file_path := buf]> (delete temp_file_path d) in
          if sf_dir_open f then (Err "Failed to open DLQ directory"%string, d)
          else if sf_dir_sync f then (Err "Failed to sync DLQ directory"%string, d)
          else (Ok tt, d)
    end.

Section Send.
Context {RB Sch Row : Type} `{Arrow RB Sch Row}.
Variable pid : N.

Definition send (s : FileDlqSink) (st : DlqState) (f : SendFaults) (now : N) (batch_signal : SignalType) (record_batch : RB) : result unit PipelineError * DlqState :=
  match sf_create_dir f with
  | Some e => (Err (Internal ("Failed to create DLQ directory: " +:+ e)), st)
  | None =>
      let d := default ∅ (dq_dirs st !! dlq_dir_of s) in
      let seq := dq_seq st in
      let st := mkDlqState (<[dlq_dir_of s := d]> (dq_dirs st)) (fetch_add seq) (dq_tmp_counter st) in
      match sf_join f with
      | Some e => (Err (Internal ("DLQ serialization blocking task failed: " +:+ e)), st)
      | None =>
          match ipc_encode record_batch with
          | None => (Err (Internal "Failed to serialize DLQ batch to Arrow IPC"), st)
          | Some buf =>
              let tmp_seq := dq_tmp_counter st in
              let '(r, d) := persist_ipc_payload f d (dlq_file_name batch_signal now seq) (dlq_temp_name batch_signal now seq pid tmp_seq) buf in
              (map_err (fun e => Internal ("Failed to persist DLQ batch: " +:+ e)) r, mkDlqState (<[dlq_dir_of s := d]> (dq_dirs st)) (dq_seq st) (fetch_add tmp_seq))
          end
      end
  end.

(** ** What the directories hold *)

Definition dir_at (st : DlqState) (k : dlq_dir) : gmap bytes bytes := default ∅ (dq_dirs st !! k).

(** A send, by any of the process's sinks. *)
Record DlqSend := mkDlqSend { ds_sink : FileDlqSink; ds_faults : SendFaults; ds_now : N; ds_signal : SignalType; ds_batch : RB }.

Fixpoint send_all (st : DlqState) (sends : list DlqSend) : list (result unit PipelineError) * DlqState :=
  match sends with
  | [] => ([], st)
  | x :: sends =>
      let '(r, st) := send (ds_sink x) st (ds_faults x) (ds_now x) (ds_signal x) (ds_batch x) in
      let '(rs, st) := send_all st sends in (r :: rs, st)
  end.

Definition is_temp (name : bytes) : bool := bytes_prefix (text ".tmp_") name.

Lemma temp_is_temp sig now seq tmp_seq : is_temp (dlq_temp_name sig now seq pid tmp_seq) = true.
Proof. by apply bool_decide_true. Qed.

Lemma file_not_temp sig now seq : is_temp (dlq_file_name sig now seq) = false.
Proof. apply bool_decide_false. by destruct sig. Qed.

Lemma file_name_seq sig now seq sig' now' seq' : dlq_file_name sig now seq = dlq_file_name sig' now' seq' -> seq = seq'.
Proof.
  unfold dlq_file_name. intros E. rewrite !(app_assoc (text _) [underscore]), !(app_assoc (_ ++ [underscore]) (decimal _)) in E.
  apply app_sep_inj in E as [_ E]; [by apply app_inv_tail, decimal_inj in E | |]; (rewrite elem_of_app; intros [Hin|Hin]; [revert Hin; apply decimal_free; unfold underscore; lia | revert Hin; by apply (bool_decide_unpack (underscore ∉ arrow_suffix))]).
Qed.

(** The writing of one file: the other files that are not temporary stay, and the
    file is as it was or holds the whole of what was written. *)
Lemma persist_spec f d file_path temp_file_path buf : is_temp temp_file_path = true -> is_temp file_path = false ->
  let '(r, d') := persist_ipc_payload f d file_path temp_file_path buf in
  (r = Ok tt -> d' !! file_path = Some buf) /\ (d' !! file_path = d !! file_path \/ d' !! file_path = Some buf) /\
  forall name, is_temp name = false -> name <> file_path -> d' !! name = d !! name.
Proof.
  intros Ht Hf. assert (Hother : forall name, is_temp name = false -> temp_file_path <> name) by (intros name Hn <-; by rewrite Ht in Hn).
  assert (Hins : forall c name, is_temp name = false -> (<[temp_file_path := c]> d) !! name = d !! name) by (intros c name Hn; apply lookup_insert_ne; by apply Hother).
  assert (Hrem : forall d0 name, is_temp name = false -> remove_file f temp_file_path d0 !! name = d0 !! name) by (intros d0 name Hn; unfold remove_file; destruct (sf_remove f); [done | apply lookup_delete_ne; by apply Hother]).
  unfold persist_ipc_payload. destruct (sf_open f || _); [split_and!; [done | by left | done]|].
  destruct (sf_write f) as [n|]; [split_and!; [done | left | intros name Hn _]; by rewrite Hrem, Hins|]. cbv zeta.
  destruct (sf_sync f); [split_and!; [done | left | intros name Hn _]; by rewrite Hrem, Hins|]. destruct (sf_rename f); [split_and!; [done | left | intros name Hn _]; by rewrite Hrem, Hins|].
  assert (Hd : (<[file_path := buf]> (delete temp_file_path (<[temp_file_path := buf]> d))) !! file_path = Some buf) by apply lookup_insert_eq.
  assert (Hd' : forall name, is_temp name = false -> name <> file_path -> (<[file_path := buf]> (delete temp_file_path (<[temp_file_path := buf]> d))) !! name = d !! name).
  { intros name Hn Hne. rewrite lookup_insert_ne, lookup_delete_ne by (done || by apply Hother). by apply Hins. }
  destruct (sf_dir_open f), (sf_dir_sync f); (split_and!; [done | by right | exact Hd']).
Qed.

(** A file name of this process from a later sequence number. *)
Definition later_name (seq : N) (name : bytes) : Prop := exists sig now q, seq <= q /\ q <= u64_max /\ name = dlq_file_name sig now q.

(** One send, while the counter does not wrap: its file, the other directories and
    the other files. *)
Lemma send_spec s st f now sig b : dq_seq st < u64_max ->
  let '(r, st') := send s st f now sig b in
  (dq_seq st' = dq_seq st \/ dq_seq st' = dq_seq st + 1) /\
  (r = Ok tt -> dq_seq st' = dq_seq st + 1 /\ exists buf, ipc_encode b = Some buf /\ dir_at st' (dlq_dir_of s) !! dlq_file_name sig now (dq_seq st) = Some buf) /\
  forall k name, is_temp name = false ->
    dir_at st' k !! name = dir_at st k !! name \/
    (k = dlq_dir_of s /\ name = dlq_file_name sig now (dq_seq st) /\ dq_seq st' = dq_seq st + 1 /\ exists buf, ipc_encode b = Some buf /\ dir_at st' k !! name = Some buf).
Proof.
  intros Hseq. assert (Hfa : fetch_add (dq_seq st) = dq_seq st + 1) by (unfold fetch_add, u64_max in *; apply N.mod_small; lia).
  unfold send. destruct (sf_create_dir f) as [e|]; [split_and!; [by left | done | intros; by left]|]. cbv zeta. rewrite Hfa. cbn [dq_seq dq_dirs dq_tmp_counter].
  assert (Hsame : forall k name, dir_at (mkDlqState (<[dlq_dir_of s := default ∅ (dq_dirs st !! dlq_dir_of s)]> (dq_dirs st)) (dq_seq st + 1) (dq_tmp_counter st)) k !! name = dir_at st k !! name).
  { intros k name. unfold dir_at. cbn [dq_dirs]. destruct (decide (k = dlq_dir_of s)) as [->|Hk]; [by rewrite lookup_insert_eq | by rewrite lookup_insert_ne]. }
  destruct (sf_join f) as [e|]; [split_and!; [by right | done | intros; by left]|]. destruct (ipc_encode b) as [buf|] eqn:Eb; [|split_and!; [by right | done | intros; by left]].
  set (d := default ∅ (dq_dirs st !! dlq_dir_of s)). pose proof (persist_spec f d (dlq_file_name sig now (dq_seq st)) (dlq_temp_name sig now (dq_seq st) pid (dq_tmp_counter st)) buf
    (temp_is_temp _ _ _ _) (file_not_temp _ _ _)) as Hp.
  destruct (persist_ipc_payload f d _ _ buf) as [r d']. destruct Hp as (Hok & Hfile & Hother). cbn [dq_seq].
  assert (Hat : forall k, dir_at (mkDlqState (<[dlq_dir_of s := d']> (<[dlq_dir_of s := d]> (dq_dirs st))) (dq_seq st + 1) (fetch_add (dq_tmp_counter st))) k = if decide (k = dlq_dir_of s) then d' else dir_at st k).
  { intros k. unfold dir_at. cbn [dq_dirs]. case_decide as E; [subst k; by rewrite lookup_insert_eq | by rewrite !lookup_insert_ne]. }
  split_and!; [by right | |].
  - destruct r as [[]|]; [intros _|done]. split; [done|]. exists buf. split; [done|]. rewrite Hat, decide_True by done. by apply Hok.
  - intros k name Hn. rewrite Hat. case_decide as E; [|by left]. subst k. change (dir_at st (dlq_dir_of s)) with d. destruct (decide (name = dlq_file_name sig now (dq_seq st))) as [->|Hne].
    + destruct Hfile as [Hfile|Hfile]; [by left | right]. split_and!; [done..|]. by exists buf.
    + left. by apply Hother.
Qed.

(** What a send leaves in the end. *)
Definition send_kept (st' : DlqState) (x : DlqSend) (r : result unit PipelineError) : Prop :=
  is_ok r = true -> exists buf seq, ipc_encode (ds_batch x) = Some buf /\ dir_at st' (dlq_dir_of (ds_sink x)) !! dlq_file_name (ds_signal x) (ds_now x) seq = Some buf.

(** Sends keep the files of earlier sequence numbers, and add whole ones only. *)
Lemma send_all_spec sends : forall st, dq_seq st + N.of_nat (length sends) <= u64_max ->
  let '(rs, st') := send_all st sends in
  Forall2 (send_kept st') sends rs /\
  forall k name, is_temp name = false ->
    dir_at st' k !! name = dir_at st k !! name \/
    (later_name (dq_seq st) name /\ exists x buf, x ∈ sends /\ k = dlq_dir_of (ds_sink x) /\ ipc_encode (ds_batch x) = Some buf /\ dir_at st' k !! name = Some buf).
Proof.
  induction sends as [|x sends IH]; intros st Hs; cbn [send_all]; [split; [constructor | intros; by left]|]. cbn [length] in Hs.
  pose proof (send_spec (ds_sink x) st (ds_faults x) (ds_now x) (ds_signal x) (ds_batch x)) as Hx.
  destruct (send (ds_sink x) st (ds_faults x) (ds_now x) (ds_signal x) (ds_batch x)) as [r st1]. destruct Hx as (Hseq & Hok & Hfiles); [lia|].
  specialize (IH st1). destruct (send_all st1 sends) as [rs st2]. destruct IH as [Hf Hrest]; [lia|].
  split; [constructor; [|done]|].
  - intros Hr. destruct r as [[]|]; [|done]. destruct (Hok eq_refl) as (Hq & buf & Hb & Hat). exists buf, (dq_seq st). split; [done|].
    destruct (Hrest (dlq_dir_of (ds_sink x)) _ (file_not_temp (ds_signal x) (ds_now x) (dq_seq st))) as [->|((sig & now & q & Hle & _ & E) & _)]; [done|].
    apply file_name_seq in E. subst q. lia.
  - intros k name Hn. destruct (Hrest k name Hn) as [->|((sig & now & q & Hle & Hmax & ->) & y & buf & Hy & Hk & Hb & Hat)].
    + destruct (Hfiles k name Hn) as [->|(-> & -> & Hq & buf & Hb & Hat)]; [by left | right]. split; [exists (ds_signal x), (ds_now x), (dq_seq st); split_and!; [lia | lia | done]|].
      exists x, buf. split_and!; [by left | done..].
    + right. split; [exists sig, now, q; split_and!; [lia | done | done]|]. exists y, buf. split_and!; [by right | done..].
Qed.

(** As long as the process has not counted 2^64 sends, whatever system
    calls fail: a batch whose send answered with success is whole in its sink's
    directory at the end, no later send of any sink having replaced it; and a file
    that is not a temporary one is as it was at the start or holds a whole batch
    that was sent to that directory. *)
Theorem file_dlq_keeps sends st rs st' : dq_seq st + N.of_nat (length sends) <= u64_max -> send_all st sends = (rs, st') ->
  Forall2 (send_kept st') sends rs /\
  forall k name contents, is_temp name = false -> dir_at st' k !! name = Some contents ->
    dir_at st k !! name = Some contents \/ exists x, x ∈ sends /\ k = dlq_dir_of (ds_sink x) /\ ipc_encode (ds_batch x) = Some contents.
Proof.
  intros Hs E. pose proof (send_all_spec sends st Hs) as Hall. rewrite E in Hall. destruct Hall as [Hf Hfiles]. split; [done|].
  intros k name contents Hn Hat. destruct (Hfiles k name Hn) as [Hsame|(_ & x & buf & Hx & Hk & Hb & Hat')]; [left; by rewrite <- Hsame|].
  right. exists x. rewrite Hat in Hat'. injection Hat' as ->. done.
Qed.
End Send.

Module FileDlqDemo.
Import Toy.

Definition logs_error : FileDlqSink := mkFileDlqSink "mask" "logs" "error".
Definition no_faults : SendFaults := mkSendFaults None None false None false false false false false.
Definition disk_full : SendFaults := mkSendFaults None None false (Some 1%nat) false false true false false.
Definition dir_unsynced : SendFaults := mkSendFaults None None false None false false false false true.
Definition sends : list (DlqSend (RB := batch)) :=
  [mkDlqSend logs_error no_faults 1700 Logs (7, [1; 2]); mkDlqSend logs_error disk_full 1700 Logs (7, [3]); mkDlqSend logs_error dir_unsynced 1700 Logs (7, [4])].
Definition empty : DlqState := mkDlqState ∅ 0 0.

Lemma file_dlq_keeps_witness :
  let '(rs, st') := send_all 42 empty sends in
  map is_ok rs = [true; false; false] /\
  (dir_at st' (dlq_dir_of logs_error) !! text "logs_1700_0.arrow" = Some [7; 1; 2] /\ dir_at st' (dlq_dir_of logs_error) !! text ".tmp_logs_1700_1_42_1.arrow" = Some [7] /\
   dir_at st' (dlq_dir_of logs_error) !! text "logs_1700_2.arrow" = Some [7; 4]) /\
  Forall2 (send_kept st') sends rs /\
  forall k name contents, is_temp name = false -> dir_at st' k !! name = Some contents ->
    dir_at empty k !! name = Some contents \/ exists x, x ∈ sends /\ k = dlq_dir_of (ds_sink x) /\ ipc_encode (ds_batch x) = Some contents.
Proof.
  destruct (send_all 42 empty sends) as [rs st'] eqn:E. assert (Hrs : rs = (send_all 42 empty sends).1) by (by rewrite E). assert (Hst : st' = (send_all 42 empty sends).2) by (by rewrite E).
  split; [rewrite Hrs; by vm_compute|]. split; [rewrite Hst; by vm_compute|].
  apply (file_dlq_keeps 42 sends empty rs st'); [by vm_compute | exact E].
Defined.

(** No component leaves the directory of the queue. *)
Example unsafe_components : is_ok (new_file_dlq_sink "mask" "logs" "error") = true /\ is_ok (new_file_dlq_sink "../mask" "logs" "error") = false /\ is_ok (new_file_dlq_sink "mask" ".." "error") = false.
Proof. by vm_compute. Qed.
End FileDlqDemo.
