(* ===== verification/CoreConfig.v ===== *)
(** Core configuration: crates/core/src/config.rs ([PipelineConfig]), telemetry.rs
    (validation and log filter) and tls.rs.

    Texts are UTF-8 bytes.  The addresses and their parser are the standard
    library's; which addresses belong to the host, which files exist and which log
    filters parse are parameters. *)

From S2P Require Import Prelude Text.
Local Open Scope N_scope.

(** ** Parts of texts *)

(** [str::split_once] at a literal. *)
Fixpoint split_once_at (sep s : bytes) : option (bytes * bytes) :=
  if bytes_prefix sep s then Some ([], drop (length sep) s)
  else match s with [] => None | b :: s => option_map (fun '(pre, post) => (b :: pre, post)) (split_once_at sep s) end.

(** [str::rsplit_once] at a one-byte character. *)
Fixpoint rsplit_once (c : N) (s : bytes) : option (bytes * bytes) :=
  match s with
  | [] => None
  | b :: s =>
      match rsplit_once c s with
      | Some (pre, post) => Some (b :: pre, post)
      | None => if b =? c then Some ([], s) else None
      end
  end.

(** The first part of [str::split] at some one-byte characters. *)
Fixpoint until (cs : list N) (s : bytes) : bytes :=
  match s with [] => [] | b :: s => if bool_decide (b ∈ cs) then [] else b :: until cs s end.

(** The parts of [str::split] at a one-byte character. *)
Fixpoint split_parts (c : N) (s : bytes) : list bytes :=
  match s with
  | [] => [[]]
  | b :: s =>
      if b =? c then [] :: split_parts c s
      else match split_parts c s with p :: ps => (b :: p) :: ps | [] => [[b]] end
  end.

Definition strip_prefix (p s : bytes) : option bytes := if bytes_prefix p s then Some (drop (length p) s) else None.

(** [trim().is_empty()]. *)
Definition blank (s : bytes) : bool := bool_decide (trim s = []).

(** ** IP addresses *)

Inductive IpAddr : Type := V4 (bits : N) | V6 (bits : N).

#[export] Instance IpAddr_eq_dec : EqDecision IpAddr.
Proof. solve_decision. Defined.

Definition is_loopback (ip : IpAddr) : bool := match ip with V4 b => N.shiftr b 24 =? 127 | V6 b => b =? 1 end.
Definition is_unspecified (ip : IpAddr) : bool := match ip with V4 b | V6 b => b =? 0 end.

(** An IPv6 address that maps an IPv4 one is that one. *)
Definition to_canonical (ip : IpAddr) : IpAddr :=
  match ip with V4 b => V4 b | V6 b => if N.shiftr b 32 =? 65535 then V4 (N.land b 4294967295) else V6 b end.

(** [char::to_digit]. *)
Definition to_digit (radix c : N) : option N :=
  let v := if (48 <=? c) && (c <=? 57) then Some (c - 48) else if (97 <=? c) && (c <=? 122) then Some (c - 87) else if (65 <=? c) && (c <=? 90) then Some (c - 55) else None in
  match v with Some d => if d <? radix then Some d else None | None => None end.

(** The standard library's address parser: [read_number] of an integer whose
    largest value is [mx]. *)
Fixpoint read_digits (radix mx : N) (max_digits : nat) (s : bytes) (result : N) (digit_count : nat) : option (N * nat * bytes) :=
  match s with
  | [] => Some (result, digit_count, [])
  | c :: s' =>
      match to_digit radix c with
      | None => Some (result, digit_count, s)
      | Some d =>
          match checked_mul mx result radix with
          | None => None
          | Some r =>
              match checked_add mx r d with
              | None => None
              | Some r => if (max_digits <? S digit_count)%nat then None else read_digits radix mx max_digits s' r (S digit_count)
              end
          end
      end
  end.

Definition read_number (radix mx : N) (max_digits : nat) (allow_zero_prefix : bool) (s : bytes) : option (N * bytes) :=
  match read_digits radix mx max_digits s 0 0 with
  | None => None
  | Some (r, count, rest) =>
      if (count =? 0)%nat then None
      else if negb allow_zero_prefix && bool_decide (head s = Some 48) && (1 <? count)%nat then None
      else Some (r, rest)
  end.

Definition read_given_char (c : N) (s : bytes) : option bytes := match s with b :: s => if b =? c then Some s else None | [] => None end.

Definition read_octet (s : bytes) : option (N * bytes) := read_number 10 255 3 false s.

Definition read_ipv4 (s : bytes) : option (N * bytes) :=
  '(a, s) ← read_octet s; s ← read_given_char 46 s; '(b, s) ← read_octet s; s ← read_given_char 46 s;
  '(c, s) ← read_octet s; s ← read_given_char 46 s; '(d, s) ← read_octet s;
  Some (((a * 256 + b) * 256 + c) * 256 + d, s).

(** [read_groups]: the groups from index [i], at most [n] of them, and whether an
    IPv4 address ends them. *)
Fixpoint read_groups (i n : nat) (s : bytes) : list N * bool * bytes :=
  match n with
  | O => ([], false, s)
  | S n =>
      let after_sep := if (i =? 0)%nat then Some s else read_given_char 58 s in
      match (if (0 <? n)%nat then s ← after_sep; read_ipv4 s else None) with
      | Some (v4, rest) => ([N.shiftr v4 16; N.land v4 65535], true, rest)
      | None =>
          match s ← after_sep; read_number 16 65535 4 true s with
          | Some (g, rest) => let '(gs, ipv4, rest) := read_groups (S i) n rest in (g :: gs, ipv4, rest)
          | None => ([], false, s)
          end
      end
  end.

Definition ipv6_bits (groups : list N) : N := fold_left (fun acc g => acc * 65536 + g) groups 0.

Definition read_ipv6 (s : bytes) : option (N * bytes) :=
  let '(head, head_ipv4, s) := read_groups 0 8 s in
  if (length head =? 8)%nat then Some (ipv6_bits head, s)
  else if head_ipv4 then None
  else
    s ← read_given_char 58 s; s ← read_given_char 58 s;
    let '(tail, _, s) := read_groups 0 (8 - (length head + 1)) s in
    Some (ipv6_bits (head ++ repeat 0 (8 - length head - length tail) ++ tail), s).

(** [str::parse::<IpAddr>]. *)
Definition parse_ip (s : bytes) : option IpAddr :=
  match read_ipv4 s with
  | Some (v, []) => Some (V4 v)
  | Some _ => None
  | None => match read_ipv6 s with Some (v, []) => Some (V6 v) | _ => None end
  end.

Record SocketAddr := mkSocketAddr { sa_ip : IpAddr; sa_port : N }.

(** ** Telemetry *)

Definition DEFAULT_OTLP_GRPC_PORT : N := 4317.
Definition DEFAULT_HTTPS_PORT : N := 443.

Definition parse_port (s : bytes) : option N := match parse_unsigned 65535 s with Some p => if 0 <? p then Some p else None | None => None end.

Definition parse_host_port (host_port : bytes) (default_port : N) : option (bytes * N) :=
  match strip_prefix (text "[") host_port with
  | Some rest =>
      '(host, remainder) ← split_once_at (text "]") rest;
      match host with
      | [] => None
      | _ =>
          port ← match remainder with [] => Some default_port | _ => port_str ← strip_prefix (text ":") remainder; parse_port port_str end;
          Some (host, port)
      end
  | None =>
      match rsplit_once 58 host_port with
      | Some (host, port_str) =>
          if bool_decide (host = []) || bool_decide (58 ∈ host) then None
          else port ← parse_port port_str; Some (host, port)
      | None => if bool_decide (58 ∈ host_port) then None else Some (host_port, default_port)
      end
  end.

Definition parse_endpoint_host_port (endpoint : bytes) : option (bytes * N) :=
  let trimmed := trim endpoint in
  match trimmed with
  | [] => None
  | _ =>
      '(default_port, without_scheme) ←
        match split_once_at (text "://") trimmed with
        | Some (scheme, rest) =>
            if eq_ignore_ascii_case scheme (text "http") then Some (DEFAULT_OTLP_GRPC_PORT, rest)
            else if eq_ignore_ascii_case scheme (text "https") then Some (DEFAULT_HTTPS_PORT, rest)
            else None
        | None => Some (DEFAULT_OTLP_GRPC_PORT, trimmed)
        end;
      match until [47; 63; 35] without_scheme with
      | [] => None
      | authority =>
          match from_option snd authority (rsplit_once 64 authority) with
          | [] => None
          | host_port => parse_host_port host_port default_port
          end
      end
  end.

Section Endpoint.
(** Whether a socket can be bound to the address. *)
Variable is_local_interface_ip : IpAddr -> bool.

Definition is_self_referential_endpoint (otlp_endpoint : bytes) (grpc_addr http_addr : SocketAddr) : bool :=
  match parse_endpoint_host_port otlp_endpoint with
  | None => false
  | Some (host, port) =>
      let parsed_ip := option_map to_canonical (parse_ip host) in
      let host_is_local := eq_ignore_ascii_case host (text "localhost") || from_option (fun ip => is_loopback ip || is_unspecified ip) false parsed_ip in
      existsb (fun listen_addr =>
        if negb (sa_port listen_addr =? port) then false
        else
          let listen_ip := to_canonical (sa_ip listen_addr) in
          let listen_is_local_or_wildcard := is_loopback listen_ip || is_unspecified listen_ip in
          (host_is_local && listen_is_local_or_wildcard)
          || from_option (fun ip => is_unspecified ip || bool_decide (ip = listen_ip) || (is_unspecified listen_ip && is_local_interface_ip ip)) false parsed_ip)
        [grpc_addr; http_addr]
  end.

Record TelemetryConfig := mkTelemetryConfig { tc_enabled : bool; tc_otlp_endpoint : bytes; tc_service_name : bytes; tc_region : option bytes }.

Definition default_telemetry (region : option bytes) : TelemetryConfig := mkTelemetryConfig false (text "http://localhost:4317") (text "otel-datalake") region.

Definition telemetry_validate (c : TelemetryConfig) : result unit PipelineError :=
  if negb (tc_enabled c) then Ok tt
  else if bool_decide (trim (tc_otlp_endpoint c) = []) then Err (Configuration "telemetry.otlp_endpoint must not be empty when telemetry.enabled is true")
  else if bool_decide (parse_endpoint_host_port (tc_otlp_endpoint c) = None) then Err (Configuration "telemetry.otlp_endpoint is not a valid HTTP/gRPC endpoint URI")
  else if bool_decide (trim (tc_service_name c) = []) then Err (Configuration "telemetry.service_name must not be empty when telemetry.enabled is true")
  else Ok tt.

Definition validate_with_listeners (c : TelemetryConfig) (grpc_addr http_addr : SocketAddr) : result unit PipelineError :=
  let? _ := telemetry_validate c in
  if tc_enabled c && is_self_referential_endpoint (tc_otlp_endpoint c) grpc_addr http_addr
  then Err (Configuration "telemetry.otlp_endpoint resolves to this receiver's own ingestion address")
  else Ok tt.
End Endpoint.

(** *** The log filter *)

Definition SUPPRESSED_TRANSPORT_TARGETS : list (bytes * bytes) :=
  [(text "h2", text "h2=warn"); (text "hyper", text "hyper=warn"); (text "tonic", text "tonic=warn"); (text "tower", text "tower=warn"); (text "opentelemetry", text "opentelemetry=warn")].

Definition comma : N := 44.

Definition has_target (spec target : bytes) : bool :=
  existsb (fun part => match strip_prefix target (trim part) with Some rest => bool_decide (rest = []) || bytes_prefix (text "=") rest | None => false end) (split_parts comma spec).

Definition suppress (spec : bytes) (targets : list (bytes * bytes)) : bytes :=
  fold_left (fun spec '(target, directive) => if has_target spec target then spec else spec ++ comma :: directive) targets spec.

Section Filter.
(** [EnvFilter::try_new] and the variable RUST_LOG. *)
Variables (try_new : bytes -> bool) (rust_log : option bytes).

Definition base_filter (verbosity_override : option bytes) : result bytes PipelineError :=
  match verbosity_override with
  | Some override_str =>
      let trimmed := trim override_str in
      if bool_decide (trimmed = []) then Err (Configuration "Invalid log filter '': filter directive must not be empty")
      else if negb (try_new trimmed) then Err (Configuration "Invalid log filter")
      else Ok trimmed
  | None =>
      match rust_log with
      | Some env_val => let trimmed := trim env_val in if negb (bool_decide (trimmed = [])) && try_new trimmed then Ok trimmed else Ok (text "info")
      | None => Ok (text "info")
      end
  end.

(** The text of the filter. *)
Definition build_env_filter (verbosity_override : option bytes) : result bytes PipelineError :=
  let? base := base_filter verbosity_override in
  let spec := suppress base SUPPRESSED_TRANSPORT_TARGETS in
  if try_new spec then Ok spec else Err (Configuration "Invalid log filter").
End Filter.

(** ** The pipeline *)

Record PipelineConfig := mkPipelineConfig { pc_channel_capacity : N; pc_telemetry : TelemetryConfig }.

Definition default_channel_capacity : N := 64.

Definition pipeline_validate (c : PipelineConfig) : result unit PipelineError :=
  if pc_channel_capacity c =? 0 then Err (Configuration "channel_capacity must be >= 1")
  else let? _ := telemetry_validate (pc_telemetry c) in Ok tt.

(** ** TLS *)

Inductive TlsVerificationMode : Type := Full | Disabled.

Record TlsConfig := mkTlsConfig { tls_ca_cert_path : option string; tls_verification : TlsVerificationMode; tls_insecure_skip_verify : option bool }.

Definition default_tls : TlsConfig := mkTlsConfig None Full None.

Definition is_insecure (c : TlsConfig) : bool :=
  let disabled := match tls_verification c with Disabled => true | Full => false end in
  match tls_insecure_skip_verify c with Some insecure => insecure || disabled | None => disabled end.

Definition tls_validate (is_file : string -> bool) (c : TlsConfig) : result unit PipelineError :=
  if is_insecure c then Err (Configuration "disabling TLS certificate verification is prohibited; configure 'ca_cert_path' with the trusted CA certificate instead")
  else
    match tls_ca_cert_path c with
    | Some path => if negb (is_file path) then Err (Configuration ("CA certificate file not found: '" +:+ path +:+ "'")) else Ok tt
    | None => Ok tt
    end.

(** ** Endpoints as they are written *)

Inductive Host : Type := Name (name : bytes) | Bracketed (literal : bytes).

(** [[scheme://][userinfo@]host[:port][tail]], the tail a path, a query or a
    fragment. *)
Record Endpoint := mkEndpoint { ep_scheme : option bytes; ep_userinfo : option bytes; ep_host : Host; ep_port : option N; ep_tail : bytes }.

Definition host_text (h : Host) : bytes := match h with Name n => n | Bracketed l => l end.
Definition print_host (h : Host) : bytes := match h with Name n => n | Bracketed l => text "[" ++ l ++ text "]" end.
Definition print_port (p : option N) : bytes := match p with Some p => 58 :: decimal p | None => [] end.
Definition print_authority (e : Endpoint) : bytes :=
  match ep_userinfo e with Some u => u ++ [64] | None => [] end ++ print_host (ep_host e) ++ print_port (ep_port e).
Definition print_rest (e : Endpoint) : bytes := print_authority e ++ ep_tail e.
Definition print_endpoint (e : Endpoint) : bytes := match ep_scheme e with Some s => s ++ text "://" | None => [] end ++ print_rest e.

Definition no_byte (cs : list N) (s : bytes) : Prop := Forall (fun b => b ∉ cs) s.

Definition wf_host (h : Host) : Prop :=
  host_text h <> [] /\ no_byte [47; 63; 35; 64] (host_text h) /\
  match h with Name n => no_byte [58; 91] n | Bracketed l => no_byte [93] l end.

Definition wf_endpoint (e : Endpoint) : Prop :=
  match ep_scheme e with
  | Some s => eq_ignore_ascii_case s (text "http") || eq_ignore_ascii_case s (text "https") = true
  | None => split_once_at (text "://") (print_rest e) = None
  end /\
  match ep_userinfo e with Some u => no_byte [47; 63; 35] u | None => True end /\
  wf_host (ep_host e) /\
  match ep_port e with Some p => 0 < p <= 65535 | None => True end /\
  match ep_tail e with [] => True | b :: _ => b ∈ [47; 63; 35] end.

(** The port an endpoint names: its own, or its scheme's. *)
Definition effective_port (e : Endpoint) : N :=
  match ep_port e with
  | Some p => p
  | None => match ep_scheme e with Some s => if eq_ignore_ascii_case s (text "https") then DEFAULT_HTTPS_PORT else DEFAULT_OTLP_GRPC_PORT | None => DEFAULT_OTLP_GRPC_PORT end
  end.

Lemma no_byte_app cs a b : no_byte cs (a ++ b) <-> no_byte cs a /\ no_byte cs b.
Proof. apply Forall_app. Qed.

Lemma no_byte_check cs s : forallb (fun b => negb (existsb (N.eqb b) cs)) s = true -> no_byte cs s.
Proof.
  rewrite forallb_forall. intros Hs. apply Forall_forall. intros b Hb Hin. specialize (Hs b). apply list_elem_of_In in Hb, Hin. apply Hs in Hb.
  apply negb_true_iff in Hb. enough (existsb (N.eqb b) cs = true) by congruence. apply existsb_exists. exists b. by rewrite N.eqb_refl.
Qed.

Lemma decimal_no_byte cs n : Forall (fun c => c < 48 \/ 57 < c) cs -> no_byte cs (decimal n).
Proof.
  intros Hc. eapply Forall_impl; [apply decimal_digits|]. cbn. intros b Hb Hin. eapply Forall_forall in Hc; [|exact Hin]. lia.
Qed.

Lemma until_app cs s t : no_byte cs s -> match t with [] => True | b :: _ => b ∈ cs end -> until cs (s ++ t) = s.
Proof.
  intros Hs Ht. induction Hs as [|b s Hb Hs IH]; cbn.
  - destruct t as [|b t]; cbn; [done | by rewrite bool_decide_true].
  - rewrite bool_decide_false by done. by rewrite IH.
Qed.

Lemma rsplit_once_none c s : no_byte [c] s -> rsplit_once c s = None.
Proof.
  induction 1 as [|b s Hb Hs IH]; cbn; [done|]. rewrite IH. destruct (N.eqb_spec b c) as [->|]; [destruct Hb; by left | done].
Qed.

Lemma rsplit_once_app c s t : no_byte [c] t -> rsplit_once c (s ++ c :: t) = Some (s, t).
Proof.
  intros Ht. induction s as [|b s IH]; cbn; [by rewrite (rsplit_once_none c t Ht), N.eqb_refl | by rewrite IH].
Qed.

Lemma no_byte_weaken cs cs' s : cs' ⊆ cs -> no_byte cs s -> no_byte cs' s.
Proof. intros Hsub Hs. eapply Forall_impl; [exact Hs|]. cbn. set_solver. Qed.

Lemma split_once_bracket s t : no_byte [93] s -> split_once_at (text "]") (s ++ 93 :: t) = Some (s, t).
Proof.
  change (text "]") with [93]. induction 1 as [|b s Hb Hs IH]; cbn; [done|]. unfold bytes_prefix. cbn [length take].
  rewrite bool_decide_false by (intros [= ->]; destruct Hb; by left). by rewrite IH.
Qed.

Lemma split_once_scheme s t : no_byte [58] s -> split_once_at (text "://") (s ++ text "://" ++ t) = Some (s, t).
Proof.
  induction 1 as [|b s Hb Hs IH]; cbn [app]; [done|]. cbn [split_once_at]. unfold bytes_prefix. cbn [length text take].
  rewrite bool_decide_false by (intros [= -> _]; destruct Hb; by left). by rewrite IH.
Qed.

Lemma scheme_no_colon s w : eq_ignore_ascii_case s w = true -> no_byte [58] w -> no_byte [58] s.
Proof.
  unfold eq_ignore_ascii_case. intros E Hw. apply bool_decide_eq_true in E. revert w Hw E. induction s as [|b s IH]; intros [|c w] Hw E; cbn in E; [constructor | done | done|].
  injection E as Eb E. apply Forall_cons in Hw as [Hc Hw]. constructor; [|by eapply IH]. intros Hb. apply list_elem_of_singleton in Hb as ->.
  apply Hc. apply list_elem_of_singleton. unfold to_ascii_lowercase in Eb. cbn in Eb. destruct ((65 <=? c) && (c <=? 90)) eqn:Er; [|done]. apply andb_prop in Er as [Er _]. apply N.leb_le in Er. lia.
Qed.

Lemma parse_port_decimal p : 0 < p <= 65535 -> parse_port (decimal p) = Some p.
Proof. intros Hp. unfold parse_port. rewrite parse_unsigned_decimal by lia. destruct (N.ltb_spec 0 p); [done | lia]. Qed.

Lemma strip_prefix_one c s : strip_prefix [c] (c :: s) = Some s.
Proof. unfold strip_prefix, bytes_prefix. cbn. by rewrite bool_decide_true. Qed.

Lemma parse_host_port_printed h p default_port : wf_host h -> match p with Some p => 0 < p <= 65535 | None => True end ->
  parse_host_port (print_host h ++ print_port p) default_port = Some (host_text h, default default_port p).
Proof.
  intros (Hne & _ & Hh) Hp. unfold parse_host_port. destruct h as [n|l]; cbn [print_host host_text] in *.
  - destruct n as [|b n]; [done|]. assert (Hs : strip_prefix (text "[") ((b :: n) ++ print_port p) = None).
    { unfold strip_prefix, bytes_prefix. cbn. rewrite bool_decide_false; [done|]. intros [= ->]. apply Forall_cons in Hh as [Hb _]. apply Hb. by right; left. }
    rewrite Hs. assert (H58 : no_byte [58] (b :: n)) by (eapply no_byte_weaken; [|exact Hh]; set_solver).
    assert (Hnot : 58 ∉ b :: n) by (intros Hin; eapply Forall_forall in H58; [|exact Hin]; apply H58; by left).
    destruct p as [p|]; cbn [print_port from_option].
    + rewrite rsplit_once_app by (apply decimal_no_byte; repeat constructor; lia). rewrite !bool_decide_false by done. cbn. by rewrite parse_port_decimal.
    + rewrite app_nil_r, rsplit_once_none by done. by rewrite bool_decide_false.
  - change (text "[") with [91]. change (text "]") with [93]. rewrite <- app_assoc, <- app_assoc. cbn [app]. rewrite strip_prefix_one.
    change [93] with (text "]"). rewrite split_once_bracket by done. cbn [mbind option_bind]. destruct l as [|b l]; [done|].
    destruct p as [p|]; cbn [print_port from_option]; [|done]. change (text ":") with [58]. rewrite strip_prefix_one. cbn. by rewrite parse_port_decimal.
Qed.

Lemma print_host_no_byte e : wf_endpoint e -> no_byte [47; 63; 35; 64] (print_host (ep_host e) ++ print_port (ep_port e)).
Proof.
  intros (_ & _ & (_ & Hh & _) & _ & _). apply no_byte_app. split.
  - destruct (ep_host e); cbn [print_host host_text] in *; [done|]. apply no_byte_app. split; [repeat constructor; set_solver|]. apply no_byte_app. split; [done | repeat constructor; set_solver].
  - destruct (ep_port e) as [p|]; cbn; [|constructor]. constructor; [set_solver|]. apply decimal_no_byte. repeat constructor; lia.
Qed.

(** A written endpoint, with blanks around it or not, is read as its host and its
    port. *)
Lemma parse_endpoint_printed e s : wf_endpoint e -> trim s = print_endpoint e -> parse_endpoint_host_port s = Some (host_text (ep_host e), effective_port e).
Proof.
  intros Hwf Hs. pose proof (print_host_no_byte e Hwf) as Hhp. destruct Hwf as (Hscheme & Huser & Hhost & Hport & Htail).
  set (hp := print_host (ep_host e) ++ print_port (ep_port e)) in *.
  assert (Hhpne : hp <> []) by (unfold hp; destruct Hhost as (Hne & _); destruct (ep_host e) as [[|]|]; done).
  assert (Hauth : until [47; 63; 35] (print_rest e) = print_authority e).
  { apply until_app; [|done]. apply no_byte_app. split; [destruct (ep_userinfo e) as [u|]; [|constructor]; apply no_byte_app; split; [done | repeat constructor; set_solver]|].
    eapply no_byte_weaken; [|exact Hhp]. set_solver. }
  assert (Hsplit : from_option snd (print_authority e) (rsplit_once 64 (print_authority e)) = hp).
  { assert (H64 : no_byte [64] hp) by (eapply no_byte_weaken; [|exact Hhp]; set_solver). unfold print_authority. fold hp.
    destruct (ep_userinfo e) as [u|]; [rewrite <- app_assoc; cbn [app]; by rewrite rsplit_once_app | cbn [app]; by rewrite rsplit_once_none]. }
  assert (Hane : print_authority e <> []) by (unfold print_authority; fold hp; intros E; apply app_eq_nil in E as [_ E]; done).
  assert (Hrest : forall d, match until [47; 63; 35] (print_rest e) with [] => None | authority => match from_option snd authority (rsplit_once 64 authority) with [] => None | host_port => parse_host_port host_port d end end
    = Some (host_text (ep_host e), default d (ep_port e))).
  { intros d. rewrite Hauth. destruct (print_authority e) as [|b a]; [done|]. cbv beta iota zeta. rewrite Hsplit.
    pose proof (parse_host_port_printed (ep_host e) (ep_port e) d Hhost Hport) as Hpp. fold hp in Hpp. by destruct hp. }
  unfold parse_endpoint_host_port. rewrite Hs. unfold print_endpoint, effective_port in *.
  assert (Hpne : print_rest e <> []) by (unfold print_rest; destruct (print_authority e); done).
  destruct (ep_scheme e) as [sc|].
  - rewrite <- app_assoc. destruct (sc ++ text "://" ++ print_rest e) as [|x xs] eqn:Ex; [by destruct sc|]. rewrite <- Ex.
    assert (H58 : no_byte [58] sc).
    { apply orb_prop in Hscheme as [E|E]; (eapply scheme_no_colon; [exact E | repeat constructor; set_solver]). }
    rewrite split_once_scheme by done. destruct (eq_ignore_ascii_case sc (text "http")) eqn:Eh.
    + cbn [mbind option_bind]. rewrite Hrest. destruct (eq_ignore_ascii_case sc (text "https")) eqn:Ehs; [|by destruct (ep_port e)].
      unfold eq_ignore_ascii_case in *. apply bool_decide_eq_true in Eh, Ehs. rewrite Eh in Ehs. done.
    + rewrite orb_false_l in Hscheme. rewrite Hscheme. cbn [mbind option_bind]. rewrite Hrest. by destruct (ep_port e).
  - cbn [app]. destruct (print_rest e) as [|x xs] eqn:Ex; [done|]. rewrite Hscheme. cbn [mbind option_bind]. rewrite Hrest. by destruct (ep_port e).
Qed.

(** *** Dotted quads *)

Definition print_quad (a b c d : N) : bytes := decimal a ++ 46 :: decimal b ++ 46 :: decimal c ++ 46 :: decimal d.

Lemma read_digits_app radix mx maxd rest s : forall acc n r k,
  match rest with [] => True | c :: _ => to_digit radix c = None end ->
  read_digits radix mx maxd s acc n = Some (r, k, []) -> read_digits radix mx maxd (s ++ rest) acc n = Some (r, k, rest).
Proof.
  induction s as [|c s IH]; intros acc n r k Hrest; cbn [read_digits app].
  - intros [= <- <-]. destruct rest as [|c rest]; cbn; [done | by rewrite Hrest].
  - destruct (to_digit radix c); [|done]. destruct (checked_mul _ _ _); [|done]. destruct (checked_add _ _ _); [|done]. destruct (_ <? _)%nat; [done|]. by apply IH.
Qed.

(** Every octet, read on its own. *)
Lemma octets_read : forallb (fun n => bool_decide (read_digits 10 255 3 (decimal (N.of_nat n)) 0 0 = Some (N.of_nat n, length (decimal (N.of_nat n)), []))
    && (bool_decide (head (decimal (N.of_nat n)) <> Some 48) || (length (decimal (N.of_nat n)) =? 1)%nat) && (0 <? length (decimal (N.of_nat n)))%nat) (seq 0 256) = true.
Proof. by vm_compute. Qed.

Lemma read_octet_decimal n rest : n <= 255 -> match rest with [] => True | c :: _ => to_digit 10 c = None end -> read_octet (decimal n ++ rest) = Some (n, rest).
Proof.
  intros Hn Hrest. pose proof octets_read as H. rewrite forallb_forall in H. specialize (H (N.to_nat n)). rewrite N2Nat.id in H.
  assert (Hin : In (N.to_nat n) (seq 0 256)) by (apply in_seq; lia). apply H in Hin. apply andb_prop in Hin as [Hin Hpos]. apply andb_prop in Hin as [Hr Hz].
  apply bool_decide_eq_true in Hr. apply Nat.ltb_lt in Hpos. unfold read_octet, read_number. rewrite (read_digits_app _ _ _ rest _ _ _ _ _ Hrest Hr).
  destruct (Nat.eqb_spec (length (decimal n)) 0); [lia|]. apply orb_prop in Hz as [Hz|Hz].
  - apply bool_decide_eq_true in Hz. rewrite bool_decide_false; [done|]. destruct (decimal n); [cbn in Hpos; lia | done].
  - apply Nat.eqb_eq in Hz. rewrite Hz. cbn. by rewrite andb_false_r.
Qed.

(** A dotted quad is read as its address. *)
Lemma parse_quad a b c d : a <= 255 -> b <= 255 -> c <= 255 -> d <= 255 -> parse_ip (print_quad a b c d) = Some (V4 (((a * 256 + b) * 256 + c) * 256 + d)).
Proof.
  intros Ha Hb Hc Hd. unfold parse_ip, read_ipv4, print_quad. rewrite read_octet_decimal by done. cbn [mbind option_bind read_given_char N.eqb Pos.eqb].
  rewrite read_octet_decimal by done. cbn [mbind option_bind read_given_char N.eqb Pos.eqb]. rewrite read_octet_decimal by done. cbn [mbind option_bind read_given_char N.eqb Pos.eqb].
  rewrite <- (app_nil_r (decimal d)), read_octet_decimal by done. done.
Qed.

Example addresses_read :
  parse_ip (text "127.0.0.1") = Some (V4 2130706433) /\ parse_ip (text "::1") = Some (V6 1) /\ option_map to_canonical (parse_ip (text "::ffff:10.0.0.1")) = Some (V4 167772161) /\
  parse_ip (text "fe80::1:2") = Some (V6 (65152 * 2 ^ 112 + 65538)) /\ parse_ip (text "01.2.3.4") = None /\ parse_ip (text "1::2::3") = None /\ parse_ip (text "localhost") = None.
Proof. by vm_compute. Qed.

(** ** The receiver does not send itself its own telemetry *)

(** The addresses a client that is given the host connects to. *)
Inductive denotes (host : bytes) : IpAddr -> Prop :=
  | localhost a : eq_ignore_ascii_case host (text "localhost") = true -> is_loopback a = true -> denotes host a
  | address ip : parse_ip host = Some ip -> denotes host (to_canonical ip)
  | this_host ip a : parse_ip host = Some ip -> is_unspecified (to_canonical ip) = true -> is_loopback a = true -> denotes host a.

(** A listener takes the connections to its address, or to every address of the
    machine. *)
Definition accepts (is_local_interface_ip : IpAddr -> bool) (l : SocketAddr) (a : IpAddr) : Prop :=
  to_canonical (sa_ip l) = a \/ (is_unspecified (to_canonical (sa_ip l)) = true /\ is_local_interface_ip a = true).

(** The decision, with the endpoint read. *)
Lemma self_referential_spec loc s host port grpc http l a : parse_endpoint_host_port s = Some (host, port) -> l = grpc \/ l = http -> sa_port l = port ->
  denotes host a -> accepts loc l a -> is_self_referential_endpoint loc s grpc http = true.
Proof.
  intros Hp Hl Hport Hd Ha. unfold is_self_referential_endpoint. rewrite Hp. cbv zeta. apply existsb_exists. exists l. split; [destruct Hl as [->| ->]; cbn; auto|].
  rewrite Hport, N.eqb_refl. cbn [negb]. inversion Hd as [a' Hh Hlo|ip Hip|ip a' Hip Hun Hlo]; subst; [rewrite Hh | rewrite Hip | rewrite Hip]; cbn [option_map from_option orb].
  - destruct Ha as [Ha|[Ha _]]; [rewrite Ha, Hlo; done|]. rewrite Ha, orb_true_r. done.
  - destruct Ha as [->|[Ha1 Ha2]]; [rewrite (bool_decide_true (to_canonical ip = to_canonical ip)) by done | rewrite Ha1, Ha2; cbn]; by rewrite !orb_true_r.
  - rewrite Hun. cbn. by rewrite orb_true_r.
Qed.

(** C26 (no_feedback_loop). A telemetry configuration that is accepted next to the two
    ingestion listeners does not export to them: however its endpoint is written,
    neither listener has the endpoint's port and takes connections to an address
    its host stands for -- a loopback address for localhost in any case and for an
    unspecified address, the address itself for a literal. *)
Theorem no_feedback_loop loc c e grpc http l a : tc_enabled c = true -> validate_with_listeners loc c grpc http = Ok tt ->
  wf_endpoint e -> trim (tc_otlp_endpoint c) = print_endpoint e -> l = grpc \/ l = http ->
  denotes (host_text (ep_host e)) a -> ~ (sa_port l = effective_port e /\ accepts loc l a).
Proof.
  intros Hen Hok Hwf Hs Hl Hd [Hport Ha]. unfold validate_with_listeners in Hok. destruct (telemetry_validate c) as [[]|]; [|done]. cbn in Hok.
  rewrite Hen, (self_referential_spec loc _ _ _ grpc http l a (parse_endpoint_printed e _ Hwf Hs) Hl Hport Hd Ha) in Hok. done.
Qed.

Module TelemetryDemo.
Definition config : TelemetryConfig := mkTelemetryConfig true (text " HTTP://user:pw@[::ffff:10.0.0.7]/v1 ") (text "otel") None.
Definition endpoint : Endpoint := mkEndpoint (Some (text "HTTP")) (Some (text "user:pw")) (Bracketed (text "::ffff:10.0.0.7")) None (text "/v1").
Definition loc (ip : IpAddr) : bool := bool_decide (ip = V4 167772161).
Definition any_4317 : SocketAddr := mkSocketAddr (V4 0) 4317.
Definition any_4318 : SocketAddr := mkSocketAddr (V6 0) 4318.

Lemma no_feedback_loop_witness :
  validate_with_listeners loc config any_4317 any_4318 = Ok tt /\
  is_ok (validate_with_listeners (fun _ => true) config any_4317 any_4318) = false /\
  ~ (sa_port any_4317 = effective_port endpoint /\ accepts loc any_4317 (V4 167772167)).
Proof.
  split; [by vm_compute|]. split; [by vm_compute|].
  refine (no_feedback_loop loc config endpoint any_4317 any_4318 any_4317 (V4 167772167) _ _ _ _ _ _); [done | by vm_compute | | by vm_compute | by left | exact (address (text "::ffff:10.0.0.7") (V6 281470849515527) eq_refl)].
  unfold wf_endpoint, wf_host. split_and!; try (apply no_byte_check; by vm_compute); try (by vm_compute); by left.
Defined.
End TelemetryDemo.

(** ** The transport's own logs are filtered *)

Lemma split_parts_nonempty c s : split_parts c s <> [].
Proof. destruct s as [|b s]; cbn; [done|]. destruct (b =? c); [done|]. by destruct (split_parts c s). Qed.

Lemma split_parts_app c a b : split_parts c (a ++ c :: b) = split_parts c a ++ split_parts c b.
Proof.
  induction a as [|x a IH]; cbn; [by rewrite N.eqb_refl|]. destruct (x =? c); [by rewrite IH|]. rewrite IH.
  destruct (split_parts c a) as [|p ps] eqn:E; [by destruct (split_parts_nonempty c a)|done].
Qed.

Lemma has_target_app spec directive target : has_target (spec ++ comma :: directive) target = has_target spec target || has_target directive target.
Proof. unfold has_target. by rewrite split_parts_app, existsb_app. Qed.

(** The base filter comes first, and every target is named, by the caller or by its
    own directive. *)
Lemma suppress_spec targets : forall spec, Forall (fun '(target, directive) => has_target directive target = true) targets ->
  (exists added, suppress spec targets = spec ++ added) /\
  (forall target, has_target spec target = true -> has_target (suppress spec targets) target = true) /\
  Forall (fun '(target, _) => has_target (suppress spec targets) target = true) targets.
Proof.
  unfold suppress. induction targets as [|[t d] targets IH]; intros spec Hd; cbn [fold_left].
  - split_and!; [exists []; by rewrite app_nil_r | done | constructor].
  - apply Forall_cons in Hd as [Ht Hd]. set (spec1 := if has_target spec t then spec else spec ++ comma :: d).
    destruct (IH spec1 Hd) as ((added & E) & Hmono & Hall). assert (H1 : has_target spec1 t = true /\ (exists x, spec1 = spec ++ x) /\ forall t', has_target spec t' = true -> has_target spec1 t' = true).
    { unfold spec1. destruct (has_target spec t) eqn:Es; [split_and!; [done | exists []; by rewrite app_nil_r | done]|].
      split_and!; [by rewrite has_target_app, Ht, orb_true_r | by eexists | intros t' Ht'; by rewrite has_target_app, Ht']. }
    destruct H1 as (H1 & (x & Ex) & Hm). split_and!; [exists (x ++ added); rewrite E, Ex, <- app_assoc; done | auto | constructor; auto].
Qed.

(** A filter that is built keeps the directives it was given in front and names
    every transport target. *)
Lemma filter_names_transport try_new rust_log o spec : build_env_filter try_new rust_log o = Ok spec ->
  try_new spec = true /\ (exists base added, base_filter try_new rust_log o = Ok base /\ spec = base ++ added) /\
  Forall (fun '(target, _) => has_target spec target = true) SUPPRESSED_TRANSPORT_TARGETS.
Proof.
  unfold build_env_filter. destruct (base_filter try_new rust_log o) as [base|]; [|done]. cbv zeta beta iota.
  destruct (suppress_spec SUPPRESSED_TRANSPORT_TARGETS base) as ((added & E) & _ & Hall); [repeat constructor; by vm_compute|].
  destruct (try_new _) eqn:Et; [|done]. intros [= <-]. split_and!; [done | exists base, added; done | done].
Qed.

Example filters :
  build_env_filter (fun _ => true) None (Some (text " info, hyper=debug,tonic ")) = Ok (text "info, hyper=debug,tonic,h2=warn,tower=warn,opentelemetry=warn") /\
  build_env_filter (fun _ => true) (Some (text "")) None = Ok (text "info,h2=warn,hyper=warn,tonic=warn,tower=warn,opentelemetry=warn") /\
  is_ok (build_env_filter (fun _ => true) None (Some (text "  "))) = false.
Proof. by vm_compute. Qed.

(** ** TLS is verified *)

(** A TLS configuration that is accepted verifies certificates, with a CA file that
    exists where one is named. *)
Lemma accepted_tls_verifies is_file c : tls_validate is_file c = Ok tt <->
  tls_verification c = Full /\ tls_insecure_skip_verify c <> Some true /\ forall path, tls_ca_cert_path c = Some path -> is_file path = true.
Proof.
  unfold tls_validate. destruct (is_insecure c) eqn:Ei.
  - split; [done|]. intros (Hv & Hs & _). unfold is_insecure in Ei. rewrite Hv in Ei. destruct (tls_insecure_skip_verify c) as [[|]|]; done.
  - assert (Hv : tls_verification c = Full /\ tls_insecure_skip_verify c <> Some true).
    { unfold is_insecure in Ei. destruct (tls_verification c), (tls_insecure_skip_verify c) as [[|]|]; done. }
    destruct Hv as [Hv Hs]. destruct (tls_ca_cert_path c) as [p|]; [destruct (is_file p) eqn:Ef; cbn|]; (split; [intros E; try done; split_and!; try done; intros q [= <-]; done|]; try done).
    intros (_ & _ & Hf). specialize (Hf p eq_refl). congruence.
Qed.
