(* ===== verification/Telemetry.v ===== *)
(** The service's own telemetry: crates/core/src/telemetry.rs, from the
    configuration to the providers and their shutdown.

    The OpenTelemetry SDK and the tracing subscriber are process-wide: what they
    hold is a state ([Globals]), a provider is what it was built from, and a
    provider that was shut down is logged.  Whether an exporter can be built
    for an endpoint is a parameter. *)

From S2P Require Import Prelude Text CoreConfig.
Local Open Scope N_scope.

Definition RESOURCE_SERVICE_NAME_KEY : bytes := text "service.name".
Definition RESOURCE_CLOUD_REGION_KEY : bytes := text "cloud.region".

(** Five seconds, in milliseconds. *)
Definition DEFAULT_EXPORT_TIMEOUT : N := 5000.

(** A provider with its exporter: the endpoint, the timeout and the resource. *)
Record Provider := mkProvider { pr_endpoint : bytes; pr_timeout : N; pr_attributes : list (bytes * bytes) }.

Inductive Instrument : Type := Tracer (p : Provider) | Meter (p : Provider).

(** What the process holds: the subscriber with its filter and whether it
    exports spans, the global providers, and the providers shut down so far. *)
Record Globals := mkGlobals {
  gl_subscriber : option (bytes * bool); gl_tracer : option Provider; gl_meter : option Provider; gl_shut_down : list Instrument }.

Record TelemetryGuard := mkTelemetryGuard { meter_provider : option Provider; tracer_provider : option Provider }.

Definition has_active_providers (g : TelemetryGuard) : bool :=
  match meter_provider g, tracer_provider g with None, None => false | _, _ => true end.

(** Each provider is taken out before it is shut down. *)
Definition shutdown (g : TelemetryGuard) (o : Globals) : TelemetryGuard * Globals :=
  let log := gl_shut_down o in
  let log := match tracer_provider g with Some p => log ++ [Tracer p] | None => log end in
  let log := match meter_provider g with Some p => log ++ [Meter p] | None => log end in
  (mkTelemetryGuard None None, mkGlobals (gl_subscriber o) (gl_tracer o) (gl_meter o) log).

(** The guard's drop. *)
Definition drop_guard (g : TelemetryGuard) (o : Globals) : Globals := (shutdown g o).2.

Section Init.
(** [EnvFilter::try_new] accepts; [SpanExporter] and [MetricExporter] build. *)
Variables (filter_parses span_exporter_builds metric_exporter_builds : bytes -> bool).
Variable rust_log : option bytes.

(** [try_init]: the first subscriber stays. *)
Definition try_init (o : Globals) (filter : bytes) (with_spans : bool) : Globals :=
  match gl_subscriber o with
  | Some _ => o
  | None => mkGlobals (Some (filter, with_spans)) (gl_tracer o) (gl_meter o) (gl_shut_down o)
  end.

Definition resource_attributes (c : TelemetryConfig) : list (bytes * bytes) :=
  (RESOURCE_SERVICE_NAME_KEY, tc_service_name c) ::
  match tc_region c with Some region => [(RESOURCE_CLOUD_REGION_KEY, region)] | None => [] end.

Definition provider_of (c : TelemetryConfig) : Provider :=
  mkProvider (tc_otlp_endpoint c) DEFAULT_EXPORT_TIMEOUT (resource_attributes c).

Definition init_telemetry_with_verbosity (o : Globals) (c : TelemetryConfig) (verbosity_override : option bytes)
  : Globals * result TelemetryGuard PipelineError :=
  match build_env_filter filter_parses verbosity_override rust_log with
  | Err e => (o, Err e)
  | Ok env_filter =>
      if negb (tc_enabled c) then (try_init o env_filter false, Ok (mkTelemetryGuard None None))
      else
        match telemetry_validate c with
        | Err e => (o, Err e)
        | Ok _ =>
            let resource := resource_attributes c in
            if negb (span_exporter_builds (tc_otlp_endpoint c)) then (o, Err (Internal "span exporter"))
            else
              let provider := mkProvider (tc_otlp_endpoint c) DEFAULT_EXPORT_TIMEOUT resource in
              if negb (metric_exporter_builds (tc_otlp_endpoint c)) then (o, Err (Internal "metric exporter"))
              else
                let meter_provider := mkProvider (tc_otlp_endpoint c) DEFAULT_EXPORT_TIMEOUT resource in
                let o := try_init o env_filter true in
                (mkGlobals (gl_subscriber o) (Some provider) (Some meter_provider) (gl_shut_down o),
                 Ok (mkTelemetryGuard (Some meter_provider) (Some provider)))
        end
  end.

Definition init_telemetry (o : Globals) (c : TelemetryConfig) : Globals * result TelemetryGuard PipelineError :=
  init_telemetry_with_verbosity o c None.

(** Why telemetry does not start. *)
Definition telemetry_refused (c : TelemetryConfig) (verbosity_override : option bytes) : Prop :=
  is_ok (build_env_filter filter_parses verbosity_override rust_log) = false \/
  (tc_enabled c = true /\
   (is_ok (telemetry_validate c) = false \/ span_exporter_builds (tc_otlp_endpoint c) = false \/
    metric_exporter_builds (tc_otlp_endpoint c) = false)).

(** A start that fails leaves the process as it was; one that succeeds holds both
    providers, for the configured endpoint and resource, exactly when telemetry is
    enabled, installs them for the process, and keeps a subscriber that was there. *)
Theorem telemetry_starts (o : Globals) (c : TelemetryConfig) (verbosity_override : option bytes) :
  let '(o', r) := init_telemetry_with_verbosity o c verbosity_override in
  match r with
  | Err _ => o' = o /\ telemetry_refused c verbosity_override
  | Ok g =>
      ~ telemetry_refused c verbosity_override /\ has_active_providers g = tc_enabled c /\
      gl_shut_down o' = gl_shut_down o /\ is_Some (gl_subscriber o') /\ (is_Some (gl_subscriber o) -> gl_subscriber o' = gl_subscriber o) /\
      if tc_enabled c
      then g = mkTelemetryGuard (Some (provider_of c)) (Some (provider_of c)) /\
           gl_tracer o' = Some (provider_of c) /\ gl_meter o' = Some (provider_of c)
      else gl_tracer o' = gl_tracer o /\ gl_meter o' = gl_meter o
  end.
Proof.
  assert (Htry : forall f b, is_Some (gl_subscriber (try_init o f b)) /\
    (is_Some (gl_subscriber o) -> gl_subscriber (try_init o f b) = gl_subscriber o) /\
    gl_tracer (try_init o f b) = gl_tracer o /\ gl_meter (try_init o f b) = gl_meter o /\ gl_shut_down (try_init o f b) = gl_shut_down o).
  { intros f b. unfold try_init. destruct (gl_subscriber o) as [s|] eqn:E; cbn; rewrite ?E; split_and!; (done || by intros [? ?]). }
  unfold init_telemetry_with_verbosity, telemetry_refused.
  destruct (build_env_filter _ _ _) as [f|e]; [|split; [done | by left]]. cbn [is_ok].
  destruct (tc_enabled c) eqn:Een; cbn [negb]; cycle 1.
  { destruct (Htry f false) as (H1 & H2 & H3 & H4 & H5). split_and!; try done. by intros [?|[? _]]. }
  destruct (telemetry_validate c) as [[]|e]; [|split; [done | right; by split; [|left]]].
  destruct (span_exporter_builds _); cbn [negb]; [|split; [done | right; split; [done | right; by left]]].
  destruct (metric_exporter_builds _); cbn [negb]; [|split; [done | right; split; [done | right; by right]]].
  destruct (Htry f true) as (H1 & H2 & H3 & H4 & H5). cbn [gl_subscriber gl_shut_down gl_tracer gl_meter]. cbn zeta.
  split_and!; try done. by intros [?|[_ [?|[?|?]]]].
Qed.

End Init.

(** A shutdown ends each provider once: the next one, and the drop behind it, end
    nothing. *)
Theorem shutdown_once (g : TelemetryGuard) (o : Globals) :
  let '(g', o') := shutdown g o in
  has_active_providers g' = false /\ drop_guard g' o' = o' /\
  gl_shut_down o' = gl_shut_down o ++ match tracer_provider g with Some p => [Tracer p] | None => [] end
                                   ++ match meter_provider g with Some p => [Meter p] | None => [] end.
Proof.
  unfold shutdown, drop_guard. cbn. destruct g as [[m|] [t|]]; cbn; rewrite <- ?app_assoc, ?app_nil_r; by destruct o.
Qed.

(** Telemetry for a region, started twice: the first subscriber stays. *)
Example started_twice :
  let c := mkTelemetryConfig true (text "http://otel:4317") (text "lake") (Some (text "eu")) in
  let init o := init_telemetry_with_verbosity (fun _ => true) (fun _ => true) (fun _ => true) None o c in
  let o := (init (mkGlobals None None None []) (Some (text "debug"))).1 in
  is_ok (init o (Some (text "trace"))).2 = true /\ gl_subscriber (init o (Some (text "trace"))).1 = gl_subscriber o.
Proof. vm_compute. by split. Qed.
