(* ===== verification/ElasticsearchConfig.v ===== *)
(** The configuration of the Elasticsearch sink:
    crates/elasticsearch-sink/src/config.rs.

    The URL parser and the file system are parameters; serde's part is the record
    with its defaults. *)

From S2P Require Import Prelude Text BufferConfig Signal Bulk CoreConfig.
Local Open Scope N_scope.

Definition default_max_concurrent_requests : N := 8.
Definition default_max_payload_bytes : N := 20971520.
Definition default_connect_timeout_secs : N := 10.
Definition default_request_timeout_secs : N := 30.
Definition default_max_retries : N := 3.
Definition default_retry_interval_secs : N := 1.
Definition default_true : bool := true.
Definition default_max_batch_size_bytes : N := 10485760.
Definition default_max_batch_interval_sec : N := 10.
Definition default_max_batch_records : N := 50000.

Record DataStreamMapping := mkDataStreams { ds_logs : bytes; ds_metrics : bytes; ds_traces : bytes }.

Record ElasticsearchBatchingConfig := mkEsBatching { eb_max_batch_size_bytes : N; eb_max_batch_interval_sec : N; eb_max_batch_records : N }.
Definition default_batching : ElasticsearchBatchingConfig := mkEsBatching default_max_batch_size_bytes default_max_batch_interval_sec default_max_batch_records.

(** Without the feature aws. *)
Inductive ElasticsearchAuthConfig : Type :=
| NoAuth
| Basic (username : string) (password : option string)
| ApiKey (api_key : string)
| Bearer (token : string).

Record ElasticsearchSinkConfig := mkEsConfig {
  endpoints : list bytes; auth : ElasticsearchAuthConfig; data_streams : DataStreamMapping; tls : TlsConfig;
  unpack_attributes : bool; gzip_compression : bool; max_concurrent_requests : N; max_payload_bytes : N;
  connect_timeout_secs : N; request_timeout_secs : N; max_retries : N; retry_interval_secs : N; validate_on_startup : bool;
  buffer : option BufferConfig; batching : option ElasticsearchBatchingConfig; order_by : option SortConfig }.

(** What serde fills in. *)
Definition with_defaults (eps : list bytes) (streams : DataStreamMapping) : ElasticsearchSinkConfig :=
  mkEsConfig eps NoAuth streams default_tls default_true default_true default_max_concurrent_requests default_max_payload_bytes
    default_connect_timeout_secs default_request_timeout_secs default_max_retries default_retry_interval_secs default_true None None None.

Definition resolved_buffer_config (c : ElasticsearchSinkConfig) : result BufferConfig PipelineError :=
  let legacy := option_map (fun b => mkLegacy (eb_max_batch_size_bytes b) (Some (eb_max_batch_records b)) (eb_max_batch_interval_sec b)) (batching c) in
  let? cfg := resolve (buffer c) legacy true in
  match buffer c with
  | None =>
      let cfg := ensure_min_buffer_bytes (cfg <| max_inflight_leases := max_concurrent_requests c |>) in
      let? _ := BufferConfig.validate cfg in
      Ok cfg
  | Some _ => Ok cfg
  end.

Section Validate.
Variables (url_parses : bytes -> bool) (is_file : string -> bool).

Fixpoint validate_endpoints (eps : list bytes) : result unit ElasticsearchError :=
  match eps with
  | [] => Ok tt
  | ep :: eps =>
      let trimmed := normalise_endpoint ep in
      if bool_decide (trimmed = []) then Err (EsStartupValidation "endpoint URL cannot be empty")
      else if negb (bytes_prefix (text "http://") trimmed) && negb (bytes_prefix (text "https://") trimmed)
      then Err (EsStartupValidation "endpoint must start with http:// or https://")
      else if negb (url_parses trimmed) then Err (EsStartupValidation "endpoint is not a valid URL")
      else validate_endpoints eps
  end.

Definition validate_batching (b : ElasticsearchBatchingConfig) : result unit ElasticsearchError :=
  if eb_max_batch_size_bytes b =? 0 then Err (EsStartupValidation "batching.max_batch_size_bytes must be greater than 0")
  else if eb_max_batch_interval_sec b =? 0 then Err (EsStartupValidation "batching.max_batch_interval_sec must be greater than 0")
  else if eb_max_batch_records b =? 0 then Err (EsStartupValidation "batching.max_batch_records must be greater than 0")
  else Ok tt.

Definition startup_validation {A} (r : result A PipelineError) : result A ElasticsearchError := map_err (fun _ => EsStartupValidation "configuration") r.

Definition validate (c : ElasticsearchSinkConfig) : result unit ElasticsearchError :=
  if bool_decide (endpoints c = []) then Err (EsStartupValidation "at least one endpoint must be configured")
  else
    let? _ := validate_endpoints (endpoints c) in
    if max_concurrent_requests c =? 0 then Err (EsStartupValidation "max_concurrent_requests must be greater than 0")
    else if max_payload_bytes c =? 0 then Err (EsStartupValidation "max_payload_bytes must be greater than 0")
    else if blank (ds_logs (data_streams c)) || blank (ds_metrics (data_streams c)) || blank (ds_traces (data_streams c))
    then Err (EsStartupValidation "data stream names for logs, metrics, and traces must not be empty")
    else
      let? _ := match batching c with Some b => validate_batching b | None => Ok tt end in
      let? _ := startup_validation (tls_validate is_file (tls c)) in
      let? _ := startup_validation (resolved_buffer_config c) in
      Ok tt.

(** *** What is accepted can be started *)

Lemma validate_endpoints_ok eps : validate_endpoints eps = Ok tt <->
  Forall (fun ep => normalise_endpoint ep <> [] /\ (bytes_prefix (text "http://") (normalise_endpoint ep) = true \/ bytes_prefix (text "https://") (normalise_endpoint ep) = true) /\ url_parses (normalise_endpoint ep) = true) eps.
Proof.
  induction eps as [|ep eps IH]; cbn [validate_endpoints]; [split; [constructor | done]|]. rewrite Forall_cons, <- IH. cbv zeta.
  case_bool_decide as Hne; [split; [done | intros [(? & _) _]; done]|]. destruct (bytes_prefix (text "http://") _) eqn:E1, (bytes_prefix (text "https://") _) eqn:E2; cbn [negb andb];
    try (split; [done | intros [(_ & [?|?] & _) _]; done]); (destruct (url_parses _) eqn:E3; cbn [negb]; [|split; [done | intros [(_ & _ & ?) _]; congruence]]); (split; [intros ?; split_and!; auto | by intros [_ ?]]).
Qed.

(** The buffer of an accepted configuration obeys the rules of buffers, and has a
    lease for each request in flight unless it says otherwise. *)
Lemma resolved_valid c cfg : resolved_buffer_config c = Ok cfg -> BufferConfig.validate cfg = Ok tt /\ (buffer c = None -> max_inflight_leases cfg = max_concurrent_requests c).
Proof.
  unfold resolved_buffer_config. cbv zeta. destruct (resolve (buffer c) _ true) as [r|] eqn:Er; [|done]. destruct (buffer c) as [b|] eqn:Eb.
  - intros [= <-]. split; [|done]. unfold resolve in Er. destruct (option_map _ (batching c)); [done|]. destruct (BufferConfig.validate b) as [[]|] eqn:Ev; [|done]. by injection Er as <-.
  - destruct (BufferConfig.validate _) as [[]|] eqn:Ev; [|done]. intros [= <-]. split; [done|]. intros _. unfold ensure_min_buffer_bytes. by case_match.
Qed.

Lemma try_new_endpoints_ok eps : eps <> [] -> Forall (fun ep => normalise_endpoint ep <> []) eps -> is_ok (try_new_endpoints eps false) = true.
Proof.
  intros Hne Hall. unfold try_new_endpoints. rewrite bool_decide_false by done. cbv zeta. destruct (existsb _ _) eqn:E; [|done].
  apply existsb_exists in E as (u & Hu & Eu). apply in_map_iff in Hu as (ep & <- & Hep). apply bool_decide_eq_true in Eu. apply list_elem_of_In in Hep. by eapply Forall_forall in Hep; [|exact Hall].
Qed.

(** An accepted configuration: the client can be made of its endpoints, and its
    buffer obeys the rules. *)
Lemma accepted_starts c : validate c = Ok tt ->
  is_ok (try_new_endpoints (endpoints c) false) = true /\ is_insecure (tls c) = false /\ 0 < max_concurrent_requests c /\
  exists cfg, resolved_buffer_config c = Ok cfg /\ BufferConfig.validate cfg = Ok tt.
Proof.
  unfold validate. case_bool_decide as Hne; [done|]. destruct (validate_endpoints _) as [[]|] eqn:Ee; [|done]. destruct (N.eqb_spec (max_concurrent_requests c) 0); [done|].
  destruct (max_payload_bytes c =? 0); [done|]. destruct (_ || _); [done|]. destruct (match batching c with Some _ => _ | None => _ end) as [[]|]; [|done].
  destruct (tls_validate is_file (tls c)) as [[]|] eqn:Et; [|done]. cbn [startup_validation map_err]. destruct (resolved_buffer_config c) as [cfg|] eqn:Er; [|done]. intros _.
  apply validate_endpoints_ok in Ee. split_and!.
  - apply try_new_endpoints_ok; [done|]. eapply Forall_impl; [exact Ee|]. by intros ep (? & _).
  - unfold tls_validate in Et. by destruct (is_insecure _).
  - lia.
  - exists cfg. split; [done|]. by apply resolved_valid in Er as [? _].
Qed.
End Validate.

Example es_default_accepted :
  let c := with_defaults [text " http://es-1:9200/ "] (mkDataStreams (text "logs-otel") (text "metrics-otel") (text "traces-otel")) in
  validate (fun _ => true) (fun _ => false) c = Ok tt /\
  option_map max_inflight_leases (match resolved_buffer_config c with Ok cfg => Some cfg | Err _ => None end) = Some 8 /\
  is_ok (validate (fun _ => true) (fun _ => false) (with_defaults [text "ftp://es"] (data_streams c))) = false.
Proof. by vm_compute. Qed.
