(* ===== verification/StarRocksConfig.v ===== *)
(** The configuration of the StarRocks sink: crates/starrocks-sink/src/lib.rs.

    The file system is a parameter; serde's part is the record with its defaults. *)

From S2P Require Import Prelude Text BufferConfig Signal StarRocks CoreConfig.
Local Open Scope N_scope.

Definition default_max_payload_bytes : N := 104857600.
Definition default_connect_timeout_secs : N := 10.
Definition default_request_timeout_secs : N := 600.
Definition default_max_retries : N := 3.
Definition default_retry_interval_secs : N := 1.
Definition default_max_batch_size_bytes : N := 52428800.
Definition default_max_batch_interval_sec : N := 30.

Record StarRocksBatchingConfig := mkSrBatching { sb_max_batch_size_bytes : N; sb_max_batch_interval_sec : N; sb_max_batch_records : option N }.

Record StarRocksSinkConfig := mkSrConfig {
  frontend_urls : list bytes; database : bytes; username : bytes; password : option bytes; format : StarRocksFormat; transaction_mode : TransactionMode;
  table_mapping : TableMapping; max_payload_bytes : N; connect_timeout_secs : N; request_timeout_secs : N; max_retries : N; retry_interval_secs : N;
  order_by : option SortConfig; buffer : option BufferConfig; batching : option StarRocksBatchingConfig; tls : TlsConfig }.

Definition resolved_buffer_config (c : StarRocksSinkConfig) : result BufferConfig PipelineError :=
  let legacy := option_map (fun b => mkLegacy (sb_max_batch_size_bytes b) (sb_max_batch_records b) (sb_max_batch_interval_sec b)) (batching c) in
  resolve (buffer c) legacy true.

(** [trim().is_empty()] of a text of characters. *)
Definition is_whitespace (c : N) : bool :=
  ((9 <=? c) && (c <=? 13)) || existsb (N.eqb c) [32; 133; 160; 5760; 8232; 8233; 8239; 8287; 12288] || ((8192 <=? c) && (c <=? 8202)).
Definition blank_chars (s : list N) : bool := forallb is_whitespace s.

Definition validate_mapping (m : TableMapping) : result unit PipelineError :=
  match m with
  | PerSignal logs metrics traces =>
      if blank_chars logs then Err (Internal "StarRocks configuration error: `table_mapping.logs` must not be empty")
      else if blank_chars metrics then Err (Internal "StarRocks configuration error: `table_mapping.metrics` must not be empty")
      else if blank_chars traces then Err (Internal "StarRocks configuration error: `table_mapping.traces` must not be empty")
      else Ok tt
  | Unified table column =>
      if blank_chars table then Err (Internal "StarRocks configuration error: `table_mapping.table` must not be empty")
      else if blank (text column) then Err (Internal "StarRocks configuration error: `table_mapping.signal_type_column` must not be empty")
      else Ok tt
  end.

Definition validate (is_file : string -> bool) (c : StarRocksSinkConfig) : result unit PipelineError :=
  let? _ := tls_validate is_file (tls c) in
  if bool_decide (frontend_urls c = []) then Err (Internal "StarRocks configuration error: `frontend_urls` must contain at least one FE URL")
  else if blank (username c) then Err (Internal "StarRocks configuration error: `username` must not be empty")
  else if blank (database c) then Err (Internal "StarRocks configuration error: `database` must not be empty")
  else
    let? _ := validate_mapping (table_mapping c) in
    let? _ := match order_by c with Some sort_cfg => let? _ := from_config sort_cfg in Ok tt | None => Ok tt end in
    let? _ := resolved_buffer_config c in
    Ok tt.

(** Every signal of an accepted configuration has a table with a name. *)
Lemma accepted_tables_named is_file c signal : validate is_file c = Ok tt -> blank_chars (table_for (table_mapping c) signal) = false.
Proof.
  unfold validate. destruct (tls_validate _ _) as [[]|]; [|done]. case_bool_decide; [done|]. destruct (blank (username c)), (blank (database c)); try done.
  destruct (validate_mapping _) as [[]|] eqn:Em; [|done]. intros _. unfold validate_mapping in Em.
  destruct (table_mapping c) as [logs metrics traces|table column]; cbn [table_for].
  - destruct (blank_chars logs) eqn:?, (blank_chars metrics) eqn:?, (blank_chars traces) eqn:?; try done. by destruct signal.
  - by destruct (blank_chars table).
Qed.

Lemma accepted_buffer is_file c : validate is_file c = Ok tt -> exists cfg, resolved_buffer_config c = Ok cfg /\ BufferConfig.validate cfg = Ok tt.
Proof.
  unfold validate. destruct (tls_validate _ _) as [[]|]; [|done]. case_bool_decide; [done|]. destruct (blank (username c)), (blank (database c)); try done.
  destruct (validate_mapping _) as [[]|]; [|done]. destruct (match order_by c with Some _ => _ | None => _ end) as [[]|]; [|done].
  destruct (resolved_buffer_config c) as [cfg|] eqn:Er; [|done]. intros _. exists cfg. split; [done|]. by apply resolve_validated in Er.
Qed.
