(* ===== verification/ParquetConfig.v ===== *)
(** The configuration of the Parquet sink: crates/parquet-sink/src/config.rs.

    The Zstd levels and the OpenDAL builders are third-party and are parameters; a
    builder is the calls that are made to it, in order. *)

From S2P Require Import Prelude Text ParquetError Bulk CoreConfig.
Local Open Scope N_scope.

Inductive CompressionCodec : Type := Zstd (level : option Z) | Snappy | Lz4Raw | Gzip | Uncompressed.

#[export] Instance CompressionCodec_eq_dec : EqDecision CompressionCodec.
Proof. solve_decision. Defined.

(** The writer's setting, with the Zstd level. *)
Inductive Compression : Type := ZSTD (level : Z) | SNAPPY | LZ4_RAW | GZIP | UNCOMPRESSED.

Definition default_codec : CompressionCodec := Zstd (Some 3%Z).

(** [Deserialize for CompressionCodec], from a text. *)
Definition codec_of_text (s : bytes) : option CompressionCodec :=
  let s := map to_ascii_lowercase s in
  if bool_decide (s = text "zstd") then Some (Zstd (Some 3%Z))
  else if bool_decide (s = text "snappy") || bool_decide (s = text "snap") then Some Snappy
  else if bool_decide (s = text "lz4") || bool_decide (s = text "lz4raw") || bool_decide (s = text "lz4_raw") then Some Lz4Raw
  else if bool_decide (s = text "gzip") || bool_decide (s = text "gz") then Some Gzip
  else if bool_decide (s = text "uncompressed") || bool_decide (s = text "none") then Some Uncompressed
  else None.

Record ParquetSinkConfig := mkPqConfig {
  storage_uri : bytes; node_id : bytes; compression : CompressionCodec; compression_level : option Z;
  max_file_size_bytes : N; max_file_interval_sec : N; max_open_partitions : N; max_concurrent_uploads : N; global_memory_limit_bytes : N;
  variant_encoding : bool; max_records : N; partition_pattern : bytes; storage_options : list (bytes * bytes) }.

Definition default_storage_uri : bytes := text "file://./data".
Definition default_node_id : bytes := text "default-node".
Definition default_compression : CompressionCodec := Zstd (Some 3%Z).
Definition default_max_file_size_bytes : N := 67108864.
Definition default_max_file_interval_sec : N := 60.
Definition default_max_open_partitions : N := 16.
Definition default_max_concurrent_uploads : N := 16.
Definition default_global_memory_limit_bytes : N := 1073741824.
Definition default_variant_encoding : bool := true.
Definition default_max_records : N := 500000.
Definition default_partition_pattern : bytes := text "signal={signal}/date={date}/hour={hour}".

Definition default_config : ParquetSinkConfig :=
  mkPqConfig default_storage_uri default_node_id default_compression None default_max_file_size_bytes default_max_file_interval_sec default_max_open_partitions
    default_max_concurrent_uploads default_global_memory_limit_bytes default_variant_encoding default_max_records default_partition_pattern [].

(** [trim_end_matches('/')]. *)
Definition trim_end_slashes (s : bytes) : bytes := reverse (drop_slashes (reverse s)).

Definition default_atomic_write_dir (path : bytes) : bytes :=
  let trimmed := trim_end_slashes path in
  match trimmed with
  | [] => if bytes_prefix (text "/") path then text "/.tmp" else text ".tmp"
  | _ => trimmed ++ text "/.tmp"
  end.

(** The options are a map: at most one value for a key. *)
Definition option_of (opts : list (bytes * bytes)) (k : bytes) : option bytes := option_map snd (List.find (fun o => bool_decide (o.1 = k)) opts).

Definition resolve_atomic_write_dir (c : ParquetSinkConfig) : option bytes :=
  match option_of (storage_options c) (text "atomic_write_dir") with
  | Some custom => Some custom
  | None =>
      let uri := trim (storage_uri c) in
      match strip_prefix (text "file://") uri with
      | Some path => Some (default_atomic_write_dir path)
      | None => if negb (bytes_contain uri (text "://")) && negb (bool_decide (uri = [])) then Some (default_atomic_write_dir uri) else None
      end
  end.

(** [char::is_control] of some character: U+0000 to U+001F, U+007F to U+009F. *)
Fixpoint has_control (s : bytes) : bool :=
  match s with
  | [] => false
  | b :: s => (b <? 32) || (b =? 127) || (match s with b1 :: _ => (b =? 194) && (128 <=? b1) && (b1 <=? 159) | [] => false end) || has_control s
  end.

(** *** The operator *)

(** A call to a builder: its method and its argument. *)
Definition Call : Type := string * bytes.

Inductive Service : Type := Fs | S3 | Gcs | Azblob | InMemory.

Definition is_true (v : bytes) : bool := eq_ignore_ascii_case v (text "true") || bool_decide (v = text "1").

Definition one_of (k : bytes) (names : list string) : bool := existsb (fun n => bool_decide (k = text n)) names.

(** The call an option makes; none for one that is not recognised. *)
Definition s3_call (o : bytes * bytes) : option Call :=
  let '(k, v) := o in
  if one_of k ["region"; "aws_region"]%string then Some ("region"%string, v)
  else if one_of k ["endpoint"; "aws_endpoint"]%string then Some ("endpoint"%string, v)
  else if one_of k ["access_key_id"; "aws_access_key_id"]%string then Some ("access_key_id"%string, v)
  else if one_of k ["secret_access_key"; "aws_secret_access_key"]%string then Some ("secret_access_key"%string, v)
  else if one_of k ["session_token"; "aws_session_token"; "security_token"]%string then Some ("session_token"%string, v)
  else if one_of k ["role_arn"; "aws_role_arn"]%string then Some ("role_arn"%string, v)
  else if one_of k ["enable_virtual_host_style"]%string then if is_true v then Some ("enable_virtual_host_style"%string, []) else None
  else if one_of k ["allow_anonymous"; "skip_signature"]%string then if is_true v then Some ("skip_signature"%string, []) else None
  else if one_of k ["server_side_encryption"]%string then Some ("server_side_encryption"%string, v)
  else if one_of k ["server_side_encryption_aws_kms_key_id"]%string then Some ("server_side_encryption_aws_kms_key_id"%string, v)
  else None.

Definition gcs_call (o : bytes * bytes) : option Call :=
  let '(k, v) := o in
  if one_of k ["endpoint"; "gcs_endpoint"]%string then Some ("endpoint"%string, v)
  else if one_of k ["credential"; "gcs_credential"; "credentials"]%string then Some ("credential"%string, v)
  else if one_of k ["credential_path"; "gcs_credential_path"]%string then Some ("credential_path"%string, v)
  else if one_of k ["service_account"; "gcs_service_account"]%string then Some ("service_account"%string, v)
  else if one_of k ["allow_anonymous"; "skip_signature"]%string then if is_true v then Some ("skip_signature"%string, []) else None
  else None.

Definition azblob_call (o : bytes * bytes) : option Call :=
  let '(k, v) := o in
  if one_of k ["endpoint"; "azure_endpoint"]%string then Some ("endpoint"%string, v)
  else if one_of k ["account_name"; "azure_account_name"]%string then Some ("account_name"%string, v)
  else if one_of k ["account_key"; "azure_account_key"]%string then Some ("account_key"%string, v)
  else if one_of k ["sas_token"; "azure_sas_token"]%string then Some ("sas_token"%string, v)
  else None.

(** The part before the first slash, and the part from it on. *)
Definition bucket_and_root (s : bytes) : bytes * bytes :=
  let bucket := until [47] s in
  if (length bucket <? length s)%nat then (bucket, drop (length bucket) s) else (s, text "/").

Definition root_call (root : bytes) : list Call := match root with [] => [] | _ => [("root"%string, root)] end.

Section Operator.
(** What [Operator::new] makes of a builder, the levels Zstd has, the level of
    [ZstdLevel::default()], and the feature services-memory. *)
Context {Operator : Type} (operator_new : Service -> list Call -> result Operator ParquetSinkError).
Variables (zstd_level_valid : Z -> bool) (zstd_level_default : Z) (memory_enabled : bool).

Definition to_parquet_compression (c : CompressionCodec) : result Compression ParquetSinkError :=
  match c with
  | Zstd (Some lvl) => if zstd_level_valid lvl then Ok (ZSTD lvl) else Err (PConfig "Invalid Zstd level")
  | Zstd None => Ok (ZSTD zstd_level_default)
  | Snappy => Ok SNAPPY
  | Lz4Raw => Ok LZ4_RAW
  | Gzip => Ok GZIP
  | Uncompressed => Ok UNCOMPRESSED
  end.

Definition effective_compression (c : ParquetSinkConfig) : result CompressionCodec ParquetSinkError :=
  match compression_level c, compression c with
  | Some level, Zstd _ => if zstd_level_valid level then Ok (Zstd (Some level)) else Err (PConfig "Invalid Zstd compression level")
  | _, _ => Ok (compression c)
  end.

Definition fs_calls (c : ParquetSinkConfig) (path : bytes) : list Call :=
  ("root"%string, path) :: match resolve_atomic_write_dir c with Some d => [("atomic_write_dir"%string, d)] | None => [] end.

(** A store with buckets: the bucket's method, and the calls of the options. *)
Definition build_bucket (service : Service) (method : string) (call : bytes * bytes -> option Call) (missing : string) (c : ParquetSinkConfig) (path : bytes) : result Operator ParquetSinkError :=
  let '(bucket, root) := bucket_and_root path in
  match bucket with
  | [] => Err (PConfig missing)
  | _ => operator_new service (((method, bucket) :: root_call root) ++ omap call (storage_options c))
  end.

Definition first_prefix (a b s : bytes) : option bytes := match strip_prefix a s with Some r => Some r | None => strip_prefix b s end.

(** The options are met in the order of the list.  The retry layer is the store's. *)
Definition build_operator (c : ParquetSinkConfig) : result Operator ParquetSinkError :=
  let uri := trim (storage_uri c) in
  if bool_decide (uri = []) then Err (PConfig "storage_uri cannot be empty")
  else
    match strip_prefix (text "file://") uri with
    | Some path => operator_new Fs (fs_calls c path)
    | None =>
    match strip_prefix (text "s3://") uri with
    | Some s3_path => build_bucket S3 "bucket" s3_call "S3 storage URI missing bucket name" c s3_path
    | None =>
    match first_prefix (text "gs://") (text "gcs://") uri with
    | Some gcs_path => build_bucket Gcs "bucket" gcs_call "GCS storage URI missing bucket name" c gcs_path
    | None =>
    match first_prefix (text "azblob://") (text "abfs://") uri with
    | Some abfs_path => build_bucket Azblob "container" azblob_call "Azblob storage URI missing container name" c abfs_path
    | None =>
        if bytes_prefix (text "memory://") uri then
          if memory_enabled then operator_new InMemory [] else Err (PConfig "memory storage service is not enabled")
        else if negb (bytes_contain uri (text "://")) then operator_new Fs (fs_calls c uri)
        else Err (PConfig "unsupported storage URI scheme")
    end end end end.

Definition supported_schemes : list string := ["file://"; "s3://"; "gs://"; "gcs://"; "azblob://"; "abfs://"; "memory://"]%string.

Definition validate_and_build_operator (c : ParquetSinkConfig) : result Operator ParquetSinkError :=
  let? codec := effective_compression c in
  let? _ := to_parquet_compression codec in
  let uri := trim (storage_uri c) in
  let node := trim (node_id c) in
  if bool_decide (uri = []) then Err (PConfig "storage_uri cannot be empty")
  else if bytes_contain uri (text "://") && negb (existsb (fun s => bytes_prefix (text s) uri) supported_schemes) then Err (PConfig "unsupported storage URI scheme")
  else if bool_decide (node = []) then Err (PConfig "node_id cannot be empty")
  else if bytes_contain node (text "/") || bytes_contain node (text "\") || bytes_contain node (text "..") || has_control (node_id c)
  then Err (PConfig "node_id contains invalid path or control characters")
  else if blank (partition_pattern c) then Err (PConfig "partition_pattern cannot be empty")
  else if max_open_partitions c =? 0 then Err (PConfig "max_open_partitions must be greater than 0")
  else build_operator c.

Definition validate (c : ParquetSinkConfig) : result unit ParquetSinkError := let? _ := validate_and_build_operator c in Ok tt.

(** *** The two lists of schemes agree *)

Lemma bytes_prefix_app p s : bytes_prefix p s = true <-> exists r, s = p ++ r.
Proof.
  unfold bytes_prefix. rewrite bool_decide_eq_true. split; [intros E; exists (drop (length p) s); by rewrite <- E at 1; rewrite take_drop | intros [r ->]; apply take_app_length].
Qed.

Lemma strip_prefix_spec p s : strip_prefix p s = None <-> bytes_prefix p s = false.
Proof. unfold strip_prefix. by destruct (bytes_prefix p s). Qed.

Lemma first_prefix_none a b s : first_prefix a b s = None <-> bytes_prefix a s = false /\ bytes_prefix b s = false.
Proof. unfold first_prefix, strip_prefix. destruct (bytes_prefix a s), (bytes_prefix b s); split; intros; try done; try (by destruct H). Qed.

Definition unsupported : ParquetSinkError := PConfig "unsupported storage URI scheme".

Lemma build_bucket_supported service method call missing c path : PConfig missing <> unsupported -> (forall s calls, operator_new s calls <> Err unsupported) ->
  build_bucket service method call missing c path <> Err unsupported.
Proof. intros Hm Hn. unfold build_bucket. destruct (bucket_and_root path) as [[|b bucket] root]; [congruence | apply Hn]. Qed.

(** A storage URI with a scheme is refused for its scheme by the validation exactly
    when the operator's builder has no branch for it. *)
Lemma schemes_agree c : (forall s calls, operator_new s calls <> Err unsupported) -> bytes_contain (trim (storage_uri c)) (text "://") = true ->
  existsb (fun s => bytes_prefix (text s) (trim (storage_uri c))) supported_schemes = true <-> build_operator c <> Err unsupported.
Proof.
  intros Hnew Hc. unfold build_operator. set (uri := trim (storage_uri c)) in *. cbn [supported_schemes existsb].
  rewrite bool_decide_false by (intros E; rewrite E in Hc; done).
  destruct (strip_prefix (text "file://") uri) as [r|] eqn:E1.
  { unfold strip_prefix in E1. destruct (bytes_prefix (text "file://") uri); [|done]. split; [intros _; apply Hnew | done]. }
  apply strip_prefix_spec in E1. rewrite E1. destruct (strip_prefix (text "s3://") uri) as [r|] eqn:E2.
  { unfold strip_prefix in E2. destruct (bytes_prefix (text "s3://") uri); [|done]. split; [intros _; by apply build_bucket_supported | done]. }
  apply strip_prefix_spec in E2. rewrite E2. destruct (first_prefix (text "gs://") (text "gcs://") uri) as [r|] eqn:E3.
  { split; [intros _; by apply build_bucket_supported|]. intros _. unfold first_prefix, strip_prefix in E3. destruct (bytes_prefix (text "gs://") uri), (bytes_prefix (text "gcs://") uri); done. }
  apply first_prefix_none in E3 as [E3 E3']. rewrite E3, E3'. destruct (first_prefix (text "azblob://") (text "abfs://") uri) as [r|] eqn:E4.
  { split; [intros _; by apply build_bucket_supported|]. intros _. unfold first_prefix, strip_prefix in E4. destruct (bytes_prefix (text "azblob://") uri), (bytes_prefix (text "abfs://") uri); done. }
  apply first_prefix_none in E4 as [E4 E4']. rewrite E4, E4', Hc. cbn [negb orb]. destruct (bytes_prefix (text "memory://") uri); [|done].
  split; [intros _; by destruct memory_enabled; [apply Hnew|] | done].
Qed.

(** What an accepted configuration has: a codec the writer takes, and a node name
    that is one path component. *)
Lemma accepted_parquet c : validate c = Ok tt ->
  (exists codec setting, effective_compression c = Ok codec /\ to_parquet_compression codec = Ok setting) /\
  trim (node_id c) <> [] /\ (forall part, part ∈ [text "/"; text "\"; text ".."] -> bytes_contain (trim (node_id c)) part = false) /\ has_control (node_id c) = false /\
  0 < max_open_partitions c /\ exists op, build_operator c = Ok op.
Proof.
  unfold validate, validate_and_build_operator. destruct (effective_compression c) as [codec|]; [|done]. destruct (to_parquet_compression codec) as [setting|] eqn:Es; [|done]. cbv zeta.
  case_bool_decide; [done|]. destruct (_ && negb _); [done|]. case_bool_decide; [done|].
  destruct (bytes_contain _ (text "/")) eqn:E1, (bytes_contain _ (text "\")) eqn:E2, (bytes_contain _ (text "..")) eqn:E3, (has_control _); try done. cbn [orb].
  destruct (blank _); [done|]. destruct (N.eqb_spec (max_open_partitions c) 0); [done|]. destruct (build_operator c) as [op|]; [|done]. intros _.
  split_and!; try done; [by exists codec, setting | | lia | by exists op]. intros part Hp. by repeat (apply elem_of_cons in Hp as [->|Hp]; [done|]); apply elem_of_nil in Hp.
Qed.
End Operator.

(** *** The order of the options *)

Definition calls_of (setter : string) (calls : list Call) : list Call := filter (fun c => c.1 = setter) calls.

Lemma calls_of_perm setter l l' : Permutation l l' -> (length (calls_of setter l) <= 1)%nat -> calls_of setter l = calls_of setter l'.
Proof.
  intros Hp Hl. assert (Hp' : Permutation (calls_of setter l) (calls_of setter l')) by (unfold calls_of; by rewrite Hp).
  destruct (calls_of setter l) as [|x [|y r]]; [by apply Permutation_nil in Hp' | by apply Permutation_length_1_inv in Hp' | cbn in Hl; lia].
Qed.

Lemma omap_perm {A B} (f : A -> option B) l l' : Permutation l l' -> Permutation (omap f l) (omap f l').
Proof. induction 1; cbn; [done | by destruct (f x); [f_equiv|] | destruct (f x), (f y); try done; constructor | by etransitivity]. Qed.

(** Whatever order the map gives its options in, a method that no two options call
    is called with the same argument. *)
Lemma options_order_irrelevant (call : bytes * bytes -> option Call) setter opts opts' : Permutation opts opts' ->
  (length (calls_of setter (omap call opts)) <= 1)%nat -> calls_of setter (omap call opts) = calls_of setter (omap call opts').
Proof. intros Hp. apply calls_of_perm. by apply omap_perm. Qed.

(** Two names of one setting: the argument of the last call depends on the order. *)
Example two_names_of_a_setting :
  let a := (text "region", text "eu-west-1") in let b := (text "aws_region", text "us-east-1") in
  last (calls_of "region" (omap s3_call [a; b])) <> last (calls_of "region" (omap s3_call [b; a])).
Proof. by vm_compute. Qed.

Example staging_directories :
  resolve_atomic_write_dir default_config = Some (text "./data/.tmp") /\
  default_atomic_write_dir (text "///") = text "/.tmp" /\ default_atomic_write_dir [] = text ".tmp" /\
  bucket_and_root (text "bucket/a/b") = (text "bucket", text "/a/b") /\ bucket_and_root (text "bucket") = (text "bucket", text "/").
Proof. by vm_compute. Qed.
