(* ===== verification/Service.v ===== *)
(** The service: src/main.rs, and the pass-through transformer of
    crates/noop-transformer.

    Reading the configuration (figment, clap), the axum servers, the process's
    signals and the spawning of tasks are outside: a configuration is its record,
    and the tasks are known by how they end.  anyhow's errors keep the text that
    names them. *)

From S2P Require Import ElasticsearchConfig StarRocksConfig ParquetConfig IcebergSink Prelude Text Arrow Signal Ring Guard Engine Worker Dispatcher Transformer BufferConfig SinkBuffer ParquetError Bulk StarRocks Kafka FileDlq CoreConfig.
Local Open Scope N_scope.

(** ** The pass-through transformer *)

Section Noop.
Context {RB St : Type} (send : St -> SignalBatch RB -> St * result unit PipelineError).

(** The batches that are received until the channel is closed. *)
Fixpoint noop_transform (st : St) (input : list (SignalBatch RB)) : St * result unit PipelineError :=
  match input with
  | [] => (st, Ok tt)
  | batch :: input =>
      let '(st, r) := send st batch in
      match r with
      | Ok _ => noop_transform st input
      | Err _ => (st, Err DownstreamClosed)
      end
  end.

Fixpoint sends (st : St) (bs : list (SignalBatch RB)) : St :=
  match bs with [] => st | b :: bs => sends (send st b).1 bs end.

(** It forwards every batch as it is and in order, up to the first that is refused. *)
Lemma noop_forwards st input : exists fwd rest, input = fwd ++ rest /\ (noop_transform st input).1 = sends st fwd /\
  match (noop_transform st input).2 with
  | Ok _ => rest = []
  | Err e => e = DownstreamClosed /\ exists fwd' b e', fwd = fwd' ++ [b] /\ (send (sends st fwd') b).2 = Err e'
  end.
Proof.
  revert st. induction input as [|b input IH]; intros st; cbn [noop_transform]; [by exists [], []|].
  destruct (send st b) as [st' [u|e]] eqn:Es.
  - destruct (IH st') as (fwd & rest & -> & E1 & E2). exists (b :: fwd), rest. cbn [sends app]. rewrite Es. split_and!; [done..|].
    destruct (noop_transform st' (fwd ++ rest)).2; [done|]. destruct E2 as (-> & fwd' & b' & e' & -> & Hb). split; [done|]. exists (b :: fwd'), b', e'. cbn [sends app]. by rewrite Es.
  - exists [b], input. cbn. rewrite Es. split_and!; [done..|]. exists [], b, e. cbn. by rewrite Es.
Qed.
End Noop.

(** ** The configuration *)

Record ServerConfig := mkServerConfig { grpc_addr : SocketAddr; http_addr : SocketAddr; admin_addr : option SocketAddr }.

Record AppConfig (J : Type) := mkAppConfig {
  ac_pipeline : PipelineConfig; ac_server : ServerConfig; ac_kafka : option KafkaSinkConfig; ac_iceberg : option IcebergSink.IcebergSinkConfig;
  ac_starrocks : option StarRocksConfig.StarRocksSinkConfig; ac_elasticsearch : option ElasticsearchConfig.ElasticsearchSinkConfig; ac_parquet : option ParquetConfig.ParquetSinkConfig;
  ac_wasm_transformer : option (WasmTransformerConfig J) }.
Arguments mkAppConfig {J}.
Arguments ac_pipeline {J}.
Arguments ac_server {J}.
Arguments ac_kafka {J}.
Arguments ac_iceberg {J}.
Arguments ac_starrocks {J}.
Arguments ac_elasticsearch {J}.
Arguments ac_parquet {J}.
Arguments ac_wasm_transformer {J}.

Record Cli := mkCli { cli_verbose : N; cli_check : bool; cli_grpc_addr : option SocketAddr; cli_http_addr : option SocketAddr; cli_admin_addr : option SocketAddr; cli_dry_run : option bool }.

Definition cli_verbosity_filter (verbose : N) : option string :=
  if verbose =? 0 then None else if verbose =? 1 then Some "debug"%string else Some "trace"%string.

Definition with_dry_run (c : IcebergSink.IcebergSinkConfig) (dry_run : bool) : IcebergSink.IcebergSinkConfig :=
  IcebergSink.mkIcebergSinkConfig (IcebergSink.ic_catalog_type c) (IcebergSink.ic_catalog_uri c) (IcebergSink.ic_warehouse c) (IcebergSink.ic_table_identifier c)
    (IcebergSink.ic_logs_table_identifier c) (IcebergSink.ic_traces_table_identifier c) (IcebergSink.ic_metrics_table_identifier c)
    (IcebergSink.ic_schema_mode c) (IcebergSink.ic_partition_granularity c) (IcebergSink.ic_log_dropped_fields c)
    (IcebergSink.ic_buffer c) (IcebergSink.ic_batching c) (IcebergSink.ic_properties c) dry_run (IcebergSink.ic_order_by c).

Definition with_table (c : IcebergSink.IcebergSinkConfig) (table : string) : IcebergSink.IcebergSinkConfig :=
  IcebergSink.mkIcebergSinkConfig (IcebergSink.ic_catalog_type c) (IcebergSink.ic_catalog_uri c) (IcebergSink.ic_warehouse c) table
    (IcebergSink.ic_logs_table_identifier c) (IcebergSink.ic_traces_table_identifier c) (IcebergSink.ic_metrics_table_identifier c)
    (IcebergSink.ic_schema_mode c) (IcebergSink.ic_partition_granularity c) (IcebergSink.ic_log_dropped_fields c)
    (IcebergSink.ic_buffer c) (IcebergSink.ic_batching c) (IcebergSink.ic_properties c) (IcebergSink.ic_dry_run c) (IcebergSink.ic_order_by c).

(** The table of a signal. *)
Definition iceberg_table (c : IcebergSink.IcebergSinkConfig) (signal : SignalType) : string :=
  default (IcebergSink.ic_table_identifier c)
    match signal with
    | Logs => IcebergSink.ic_logs_table_identifier c
    | Traces => IcebergSink.ic_traces_table_identifier c
    | Metrics => IcebergSink.ic_metrics_table_identifier c
    end.

Definition failed {A E} (r : result A E) : result unit string :=
  match r with Ok _ => Ok tt | Err _ => Err "Configuration validation failed"%string end.

Definition validate_admin (s : ServerConfig) : result unit string :=
  match admin_addr s with
  | Some admin =>
      if is_unspecified (sa_ip admin) then Err "server.admin_addr cannot bind to wildcard/unspecified address"%string
      else if (sa_port admin =? sa_port (http_addr s)) || (sa_port admin =? sa_port (grpc_addr s)) then Err "server.admin_addr port conflicts"%string
      else Ok tt
  | None => Ok tt
  end.

Definition distinct_tables (c : IcebergSink.IcebergSinkConfig) : bool :=
  let l := iceberg_table c Logs in let t := iceberg_table c Traces in let m := iceberg_table c Metrics in
  negb (String.eqb l t || String.eqb l m || String.eqb t m).

(** What the code asks of the machine: its addresses, its files, URLs that parse,
    the stores OpenDAL makes, and Zstd's levels. *)
Record Machine := mkMachine {
  is_local_interface_ip : IpAddr -> bool; is_file : string -> bool; url_parses : bytes -> bool;
  store : Type; operator_new : ParquetConfig.Service -> list ParquetConfig.Call -> result store ParquetSinkError; zstd_level_valid : Z -> bool; zstd_level_default : Z; memory_enabled : bool }.

Section Config.
Context {RB Arr M G J : Type} `{Tables RB Arr} `{Wasm M G} `{Codec RB J} `{Toolchain M}.
Variable mc : Machine.

Abbreviation parquet_validate := (ParquetConfig.validate (operator_new mc) (zstd_level_valid mc) (zstd_level_default mc) (memory_enabled mc)).

(** The checks of the sink that is used: the first that is configured. *)
Definition validate_sink (c : AppConfig J) : result unit string :=
  match ac_iceberg c with
  | Some ic =>
      if negb (distinct_tables ic) then Err "logs, traces, and metrics Iceberg table identifiers must be distinct"%string
      else failed (IcebergSink.resolved_buffer_config ic)
  | None =>
  match ac_elasticsearch c with
  | Some es => failed (ElasticsearchConfig.validate (url_parses mc) (is_file mc) es)
  | None =>
  match ac_starrocks c with
  | Some sr => failed (StarRocksConfig.validate (is_file mc) sr)
  | None =>
  match ac_kafka c with
  | Some k => failed (kafka_validate k)
  | None => match ac_parquet c with Some p => failed (parquet_validate p) | None => Ok tt end
  end end end end.

Definition no_sink (c : AppConfig J) : bool :=
  match ac_kafka c, ac_iceberg c, ac_starrocks c, ac_elasticsearch c, ac_parquet c with None, None, None, None, None => true | _, _, _, _, _ => false end.

Definition validate_config (k : nat) (c : AppConfig J) : result unit string :=
  let? _ := failed (pipeline_validate (ac_pipeline c)) in
  let? _ := failed (validate_with_listeners (is_local_interface_ip mc) (pc_telemetry (ac_pipeline c)) (grpc_addr (ac_server c)) (http_addr (ac_server c))) in
  let? _ := match ac_wasm_transformer c with Some w => failed (Transformer.validate_config k w) | None => Ok tt end in
  if no_sink c then Err "one of [kafka], [iceberg], [starrocks], [elasticsearch], or [parquet] configuration must be provided"%string
  else
    let? _ := validate_sink c in
    validate_admin (ac_server c).

(** The command line's overrides. *)
Definition apply_overrides (cli : Cli) (c : AppConfig J) : AppConfig J :=
  let s := ac_server c in
  let admin := match cli_admin_addr cli with Some a => Some a | None => admin_addr s end in
  let server := mkServerConfig (default (grpc_addr s) (cli_grpc_addr cli)) (default (http_addr s) (cli_http_addr cli)) admin in
  let iceberg := match cli_dry_run cli, ac_iceberg c with Some d, Some ic => Some (with_dry_run ic d) | _, ic => ic end in
  mkAppConfig (ac_pipeline c) server (ac_kafka c) iceberg (ac_starrocks c) (ac_elasticsearch c) (ac_parquet c) (ac_wasm_transformer c).

(** The sink and the buffer that are used. *)
Definition active_sink (c : AppConfig J) : result (string * BufferConfig) PipelineError :=
  match ac_iceberg c with
  | Some ic => let? b := IcebergSink.resolved_buffer_config ic in Ok ("iceberg"%string, b)
  | None =>
  match ac_elasticsearch c with
  | Some es => let? b := ElasticsearchConfig.resolved_buffer_config es in Ok ("elasticsearch"%string, b)
  | None =>
  match ac_starrocks c with
  | Some sr => let? b := StarRocksConfig.resolved_buffer_config sr in Ok ("starrocks"%string, b)
  | None =>
  match ac_kafka c with
  | Some k => let? b := kafka_resolved_buffer_config k in Ok ("kafka"%string, b)
  | None => Ok ("parquet"%string, passthrough)
  end end end end.

(** The configuration of one signal's sink. *)
Definition signal_iceberg (c : IcebergSink.IcebergSinkConfig) (signal : SignalType) : IcebergSink.IcebergSinkConfig := with_table c (iceberg_table c signal).

(** The memory of one signal's Parquet sink. *)
Definition signal_memory_limit (global_memory_limit_bytes : N) : N :=
  if 0 <? global_memory_limit_bytes then N.max (global_memory_limit_bytes / 3) 1 else global_memory_limit_bytes.

(** *** The check is enough *)

Lemma failed_ok {A E} (r : result A E) : failed r = Ok tt <-> exists a, r = Ok a.
Proof. destruct r as [a|e]; cbn; split; [by exists a | done | done | by intros [? ?]]. Qed.

Lemma iceberg_buffer_valid ic b : IcebergSink.resolved_buffer_config ic = Ok b -> BufferConfig.validate b = Ok tt.
Proof.
  unfold IcebergSink.resolved_buffer_config. cbv zeta. destruct (resolve _ _ false) as [r|] eqn:Er; [|done]. apply resolve_validated in Er.
  destruct (IcebergSink.ic_buffer ic), (IcebergSink.ic_batching ic); try (by intros [= <-]). match goal with |- match ?v with _ => _ end = _ -> _ => destruct v as [[]|] eqn:Ev end; [|done].
  intros E. injection E as <-. done.
Qed.

Lemma distinct_tables_spec ic : distinct_tables ic = true -> forall s s', iceberg_table ic s = iceberg_table ic s' -> s = s'.
Proof.
  unfold distinct_tables. cbv zeta. rewrite negb_true_iff, !orb_false_iff, !String.eqb_neq. intros ((Hlt & Hlm) & Htm) [] [] E; try done; congruence.
Qed.

(** A sink that passes has a buffer. *)
Lemma validated_sink c : no_sink c = false -> validate_sink c = Ok tt -> exists name b, active_sink c = Ok (name, b) /\ BufferConfig.validate b = Ok tt.
Proof.
  unfold validate_sink, active_sink. intros _. destruct (ac_iceberg c) as [ic|]; [|destruct (ac_elasticsearch c) as [es|]; [|destruct (ac_starrocks c) as [sr|]; [|destruct (ac_kafka c) as [kc|]]]].
  - destruct (distinct_tables ic); cbn [negb]; [|done]. intros (b & Hb)%failed_ok. rewrite Hb. exists "iceberg"%string, b. split; [done | by apply iceberg_buffer_valid in Hb].
  - intros ([] & Hv)%failed_ok. apply ElasticsearchConfig.accepted_starts in Hv as (_ & _ & _ & b & Hb & Hvb). rewrite Hb. by exists "elasticsearch"%string, b.
  - intros ([] & Hv)%failed_ok. apply StarRocksConfig.accepted_buffer in Hv as (b & Hb & Hvb). rewrite Hb. by exists "starrocks"%string, b.
  - intros ([] & Hv)%failed_ok. unfold kafka_validate in Hv. case_bool_decide; [done|]. destruct (match kc_order_by kc with Some _ => _ | None => _ end) as [[]|]; [|done].
    destruct (kafka_resolved_buffer_config kc) as [b|] eqn:Hb; [|done]. exists "kafka"%string, b. split; [done|]. by apply resolve_validated in Hb.
  - intros _. exists "parquet"%string, passthrough. split; [done|]. by vm_compute.
Qed.

(** The administration listener has an address of its own. *)
Definition isolated_admin (s : ServerConfig) : Prop :=
  forall a, admin_addr s = Some a -> is_unspecified (sa_ip a) = false /\ sa_port a <> sa_port (http_addr s) /\ sa_port a <> sa_port (grpc_addr s).

Lemma validate_admin_isolated s : validate_admin s = Ok tt -> isolated_admin s.
Proof.
  unfold validate_admin, isolated_admin. intros Hv a Ha. rewrite Ha in Hv. destruct (is_unspecified (sa_ip a)); [done|].
  destruct (N.eqb_spec (sa_port a) (sa_port (http_addr s))), (N.eqb_spec (sa_port a) (sa_port (grpc_addr s))); done.
Qed.

(** A configuration as the service needs it, with its sink's buffer. *)
Definition servable (c : AppConfig J) (sink : string) (buf : BufferConfig) : Prop :=
  active_sink c = Ok (sink, buf) /\ BufferConfig.validate buf = Ok tt /\ 0 < pc_channel_capacity (ac_pipeline c) /\ isolated_admin (ac_server c) /\
  (forall ic s s', ac_iceberg c = Some ic -> IcebergSink.ic_table_identifier (signal_iceberg ic s) = IcebergSink.ic_table_identifier (signal_iceberg ic s') -> s = s').

Lemma validated_servable k c : validate_config k c = Ok tt -> exists sink buf, servable c sink buf.
Proof.
  unfold validate_config. destruct (failed (pipeline_validate _)) as [[]|] eqn:Ep; [|done]. destruct (failed (validate_with_listeners _ _ _ _)) as [[]|]; [|done].
  destruct (match ac_wasm_transformer c with Some _ => _ | None => _ end) as [[]|]; [|done]. destruct (no_sink c) eqn:En; [done|].
  destruct (validate_sink c) as [[]|] eqn:Es; [|done]. intros Ha. destruct (validated_sink c En Es) as (sink & buf & Hs & Hb). exists sink, buf. split_and!; [done | done | | by apply validate_admin_isolated |].
  - apply failed_ok in Ep as (u & Ep). unfold pipeline_validate in Ep. destruct (N.eqb_spec (pc_channel_capacity (ac_pipeline c)) 0); [done | lia].
  - intros ic s s' Hic E. unfold validate_sink in Es. rewrite Hic in Es. destruct (distinct_tables ic) eqn:Ed; [|done]. by eapply distinct_tables_spec.
Qed.

(** The same command line with the option --check. *)
Definition with_check (cli : Cli) : Cli := mkCli (cli_verbose cli) true (cli_grpc_addr cli) (cli_http_addr cli) (cli_admin_addr cli) (cli_dry_run cli).

(** The per-signal Parquet budgets fit the configured one, of at least three bytes,
    and none is without a limit unless the configuration is. *)
Lemma signal_memory_fits g : 3 <= g -> 3 * signal_memory_limit g <= g.
Proof. intros Hg. unfold signal_memory_limit. destruct (N.ltb_spec 0 g); [|lia]. pose proof (N.Div0.mul_div_le g 3). pose proof (N.div_le_lower_bound g 3 1). lia. Qed.

Lemma signal_memory_limited g : signal_memory_limit g = 0 <-> g = 0.
Proof. unfold signal_memory_limit. destruct (N.ltb_spec 0 g); split; intros; subst; try lia. Qed.
End Config.

Module ConfigDemo.
Import Guard.Demo WorkerDemo.
#[local] Existing Instances WorkerDemo.wasm WorkerDemo.codec.
#[local] Instance toolchain : Toolchain N := {| read_file _ := Some [2]; sha256_hex b := b; compile b := head b; engine_new _ _ := true |}.

Definition machine : Machine := mkMachine (fun _ => false) (fun _ => true) (fun _ => true) unit (fun _ _ => Ok tt) (fun l => (1 <=? l)%Z && (l <=? 22)%Z) 1 false.
Definition loopback (port : N) : SocketAddr := mkSocketAddr (V4 2130706433) port.
Definition es_config : ElasticsearchConfig.ElasticsearchSinkConfig :=
  ElasticsearchConfig.with_defaults [text "http://es-1:9200"] (ElasticsearchConfig.mkDataStreams (text "logs-otel") (text "metrics-otel") (text "traces-otel")).
Definition config : AppConfig unit :=
  mkAppConfig (mkPipelineConfig default_channel_capacity (default_telemetry None)) (mkServerConfig (loopback 4317) (loopback 4318) None) None None None (Some es_config) (Some ParquetConfig.default_config) None.
Definition cli : Cli := mkCli 1 false None None (Some (loopback 9090)) None.
End ConfigDemo.

(** An address that stands for every IPv4 address is not refused for the
    administration listener when it is written as an IPv6 one. *)
Example mapped_wildcard_admin :
  let s := mkServerConfig (mkSocketAddr (V4 2130706433) 4317) (mkSocketAddr (V4 2130706433) 4318) (Some (mkSocketAddr (V6 281470681743360) 9090)) in
  parse_ip (text "::ffff:0.0.0.0") = Some (V6 281470681743360) /\ is_unspecified (to_canonical (V6 281470681743360)) = true /\ validate_admin s = Ok tt.
Proof. by vm_compute. Qed.

(** ** The transformers *)

Section Transformers.
Context {RB Arr M G J : Type} `{Tables RB Arr} `{Wasm M G} `{Codec RB J} `{Toolchain M}.

(** The queues of a signal's transformer, where its policies reroute. *)
Record Routes := mkRoutes { rt_error : option FileDlqSink; rt_reject : option FileDlqSink }.

Definition reroute (wanted : bool) (id signal role : string) : result (option FileDlqSink) string :=
  if wanted then let? sink := new_file_dlq_sink id signal role in Ok (Some sink) else Ok None.

Definition wants_error_route (p : OnErrorPolicy) : bool := match p with ErrReroute => true | _ => false end.
Definition wants_reject_route (p : OnRejectPolicy) : bool := match p with RejReroute => true | _ => false end.

Definition instantiate_signal_wasm_transformer (k : nat) (cfg : WasmTransformerConfig J) (signal : string) (engine : EngineCache M)
  : EngineCache M * result (M * Routes) string :=
  let signal_cfg := with_signal_env cfg (text signal) in
  match reroute (wants_error_route (wc_on_error signal_cfg)) (string_of_bytes (wc_id signal_cfg)) signal "error" with
  | Err e => (engine, Err e)
  | Ok reroute_error =>
      match reroute (wants_reject_route (wc_on_reject signal_cfg)) (string_of_bytes (wc_id signal_cfg)) signal "reject" with
      | Err e => (engine, Err e)
      | Ok reroute_reject =>
          let '(engine, r) := with_engine k signal_cfg (bool_decide (is_Some reroute_error)) (bool_decide (is_Some reroute_reject)) engine in
          (engine, match r with Ok m => Ok (m, mkRoutes reroute_error reroute_reject) | Err _ => Err "transformer"%string end)
      end
  end.

(** The slots of the engine the three transformers share.  The product is of [usize]s. *)
Definition shared_pool_capacity (concurrency : N) : N := sat_add usize_max ((N.max concurrency 1 * 6) mod (usize_max + 1)) 3.

Inductive Transformers : Type := NoopTransformers | WasmTransformers (logs traces metrics : M * Routes).

Definition initialize_transformers (k : nat) (wasm_transformer : option (WasmTransformerConfig J)) : result (Transformers * option (EngineCache M)) string :=
  match wasm_transformer with
  | None => Ok (NoopTransformers, None)
  | Some wasm_cfg =>
      let max_memory_bytes := default (64 * 1024 * 1024) (parse_byte_size (wc_max_memory wasm_cfg)) in
      if negb (engine_new (pool_slots (shared_pool_capacity (wc_concurrency wasm_cfg))) max_memory_bytes) then Err "engine"%string
      else
        let '(engine, logs) := instantiate_signal_wasm_transformer k wasm_cfg "logs" new_pooling in
        let? logs := logs in
        let '(engine, traces) := instantiate_signal_wasm_transformer (S k) wasm_cfg "traces" engine in
        let? traces := traces in
        let '(engine, metrics) := instantiate_signal_wasm_transformer (S (S k)) wasm_cfg "metrics" engine in
        let? metrics := metrics in
        Ok (WasmTransformers logs traces metrics, Some engine)
  end.

(** The engine has the slots the three transformers would take on their own. *)
Lemma shared_pool_enough concurrency : concurrency <= MAX_CONCURRENCY ->
  exists each, pool_capacity concurrency = Some each /\ shared_pool_capacity concurrency = 3 * each.
Proof.
  intros Hc. unfold MAX_CONCURRENCY in Hc. assert (Hu : 100000 <= u64_max) by (by vm_compute). unfold pool_capacity, shared_pool_capacity, checked_mul, checked_add, sat_add, usize_max.
  destruct (N.leb_spec (N.max concurrency 1 * 2) u64_max); [|lia]. destruct (N.leb_spec (N.max concurrency 1 * 2 + 1) u64_max); [|lia].
  eexists. split; [done|]. rewrite N.mod_small by lia. lia.
Qed.

(** The DLQ directory of a signal and a role, where there is one. *)
Definition route_dirs (r : Routes) : list dlq_dir := map dlq_dir_of (omap id [rt_error r; rt_reject r]).

Lemma instantiate_spec k cfg signal engine engine' m r : instantiate_signal_wasm_transformer k cfg signal engine = (engine', Ok (m, r)) ->
  module engine' = Some m /\ (forall m0, module engine = Some m0 -> m = m0) /\
  Forall (fun '(_, s, _) => s = signal) (route_dirs r) /\ NoDup (route_dirs r) /\
  (wc_on_error cfg = ErrReroute -> is_Some (rt_error r)) /\ (wc_on_reject cfg = RejReroute -> is_Some (rt_reject r)).
Proof.
  unfold instantiate_signal_wasm_transformer. cbv zeta.
  destruct (reroute _ _ signal "error") as [e|] eqn:Ee; [|done]. destruct (reroute _ _ signal "reject") as [j|] eqn:Ej; [|done].
  destruct (with_engine _ _ _ _ engine) as [engine1 [m1|]] eqn:Ew; [|done]. intros [= -> -> <-]. cbn [rt_error rt_reject].
  assert (Hroute : forall wanted role o, reroute wanted (string_of_bytes (wc_id (with_signal_env cfg (text signal)))) signal role = Ok o ->
    match o with Some d => wanted = true /\ exists id, dlq_dir_of d = (id, signal, role) | None => wanted = false end).
  { unfold reroute, new_file_dlq_sink. intros [] role o; [|by intros [= <-]]. repeat (destruct (negb _); [done|]). intros [= <-]. split; [done | by eexists]. }
  apply Hroute in Ee, Ej. split_and!.
  - revert Ew. unfold with_engine. destruct (validate_policies _ _ _); [|done]. destruct (read_file _); [|done]. destruct (negb _); [done|].
    destruct (module engine) as [m0|] eqn:Em; [|unfold compile_module; destruct (compile _) as [m0|]; [|done]]; cbn [map_err]; (destruct (probe_each _ _ _); [|done]); intros [= <- <-]; done.
  - revert Ew. unfold with_engine. destruct (validate_policies _ _ _); [|done]. destruct (read_file _); [|done]. destruct (negb _); [done|].
    intros Ew m0 Em. rewrite Em in Ew. cbv zeta beta iota in Ew. destruct (probe_each _ _ _); [|done]. by injection Ew as _ <-.
  - unfold route_dirs. cbn [rt_error rt_reject]. destruct e as [e|], j as [j|]; cbn; repeat constructor; try (by destruct Ee as (_ & ? & ->)); by destruct Ej as (_ & ? & ->).
  - unfold route_dirs. cbn [rt_error rt_reject]. destruct e as [e|], j as [j|]; cbn; try (by repeat constructor); try apply NoDup_singleton.
    destruct Ee as (_ & i1 & ->), Ej as (_ & i2 & ->). apply NoDup_cons. split; [|apply NoDup_singleton]. by intros ?%list_elem_of_singleton.
  - intros Hp. change (wc_on_error (with_signal_env cfg (text signal))) with (wc_on_error cfg) in Ee. rewrite Hp in Ee. by destruct e; [|].
  - intros Hp. change (wc_on_reject (with_signal_env cfg (text signal))) with (wc_on_reject cfg) in Ej. rewrite Hp in Ej. by destruct j; [|].
Qed.

(** The queues of the three transformers. *)
Definition all_dirs (t : Transformers) : list dlq_dir :=
  match t with NoopTransformers => [] | WasmTransformers l t m => route_dirs l.2 ++ route_dirs t.2 ++ route_dirs m.2 end.

Lemma dirs_disjoint s s' (l l' : list dlq_dir) : s <> s' -> Forall (fun '(_, x, _) => x = s) l -> Forall (fun '(_, x, _) => x = s') l' -> forall d, d ∈ l -> d ∉ l'.
Proof.
  intros Hne Hl Hl' d Hd Hd'. eapply Forall_forall in Hl; [|exact Hd]. eapply Forall_forall in Hl'; [|exact Hd']. destruct d as [[? x] ?]. congruence.
Qed.

(** The transformers run one module, the engine's, and no two of their queues
    are one directory. *)
Lemma transformers_isolated k cfg ts engine : initialize_transformers k cfg = Ok (ts, engine) ->
  NoDup (all_dirs ts) /\
  match ts with
  | NoopTransformers => cfg = None
  | WasmTransformers l t m => exists c, engine = Some c /\ module c = Some l.1 /\ t.1 = l.1 /\ m.1 = l.1
  end.
Proof.
  unfold initialize_transformers. destruct cfg as [cfg|]; [|by intros [= <- <-]; split; [constructor|]]. cbv zeta. destruct (negb _); [done|].
  destruct (instantiate_signal_wasm_transformer k cfg "logs" new_pooling) as [c1 [[l rl]|]] eqn:El; [|done].
  destruct (instantiate_signal_wasm_transformer (S k) cfg "traces" c1) as [c2 [[t rt]|]] eqn:Et; [|done].
  destruct (instantiate_signal_wasm_transformer (S (S k)) cfg "metrics" c2) as [c3 [[m rm]|]] eqn:Em; [|done]. intros [= <- <-].
  apply instantiate_spec in El as (Hl & _ & Fl & Nl & _), Et as (Ht & Hlt & Ft & Nt & _), Em as (Hm & Htm & Fm & Nm & _).
  specialize (Hlt _ Hl). subst t. specialize (Htm _ Ht). subst m. split; [|by exists c3]. cbn.
  apply NoDup_app. split_and!; [done | | apply NoDup_app; split_and!; [done | | done]].
  - intros d Hd [Hd'|Hd']%elem_of_app; revert Hd'; [by apply (dirs_disjoint "logs" "traces" (route_dirs rl)) | by apply (dirs_disjoint "logs" "metrics" (route_dirs rl))].
  - by apply (dirs_disjoint "traces" "metrics").
Qed.

(** *** Reload on SIGHUP *)

(** What the listener meets: the shutdown channel closed or changed to a value, or
    the signal. *)
Inductive SighupEvent : Type := ShutdownClosed | ShutdownChanged (value : bool) | Hangup.

(** [spawn_sighup_reload_task], with the instantiations a reload's probes make. *)
Fixpoint sighup_loop (wasm_cfg : WasmTransformerConfig J) (k : nat) (engine : EngineCache M) (events : list SighupEvent) : EngineCache M :=
  match events with
  | [] | ShutdownClosed :: _ | ShutdownChanged true :: _ => engine
  | ShutdownChanged false :: events => sighup_loop wasm_cfg k engine events
  | Hangup :: events => sighup_loop wasm_cfg (k + length (probe_configs wasm_cfg)) (reload_module k wasm_cfg engine).1 events
  end.

(** The engine always holds a module that was compiled from verified bytes, or the
    one it had. *)
Lemma sighup_keeps_verified wasm_cfg events : forall k engine m, module engine = Some m ->
  exists m', module (sighup_loop wasm_cfg k engine events) = Some m' /\
    (m' = m \/ exists b, read_file (wc_module_path wasm_cfg) = Some b /\ verify_sha256 b (wc_sha256 wasm_cfg) = true /\ compile b = Some m').
Proof.
  induction events as [|[|[]|] events IH]; intros k engine m Hm; cbn [sighup_loop]; try (by exists m; split; [|left]); [by apply IH|].
  assert (Hr : exists m1, module (reload_module k wasm_cfg engine).1 = Some m1 /\
    (m1 = m \/ exists b, read_file (wc_module_path wasm_cfg) = Some b /\ verify_sha256 b (wc_sha256 wasm_cfg) = true /\ compile b = Some m1)).
  { unfold reload_module. destruct (read_file _) as [b|] eqn:Eb; [|exists m; auto]. destruct (verify_sha256 b _) eqn:Ev; cbn [negb]; [|exists m; auto].
    destruct (compile b) as [m1|] eqn:Ec; [|exists m; auto]. destruct (probe_each _ _ _); [|exists m; auto]. exists m1. split; [done|]. right. by exists b. }
  destruct Hr as (m1 & Hm1 & Hor). destruct (IH (k + length (probe_configs wasm_cfg))%nat _ m1 Hm1) as (m' & Hm' & Hor'). exists m'. split; [done|].
  destruct Hor' as [->|Hor']; auto.
Qed.
End Transformers.

(** ** Supervision and shutdown *)

(** How an awaited task ended. *)
Inductive JoinResult : Type := Joined (r : result unit PipelineError) | Panicked.

Inductive Task : Type := TSource | TTransformer (s : SignalType) | TSink (s : SignalType).

#[export] Instance Task_eq_dec : EqDecision Task.
Proof. solve_decision. Defined.

(** The order the code asks for them. *)
Definition signals : list SignalType := [Logs; Traces; Metrics].
Definition tasks : list Task := TSource :: map TTransformer signals ++ map TSink signals.

(** What the process exits with. *)
Inductive ExitError : Type :=
| Stopped (t : Task) (r : JoinResult)
| SinkFailedDuringDrain (s : SignalType) (e : PipelineError)
| SinkPanickedDuringDrain (s : SignalType)
| DrainTimedOut (e : PipelineError).

(** What ends the select: the signal, or a task. *)
Inductive Trigger : Type := ShutdownSignal | TaskEnded (t : Task) (r : JoinResult).

Definition supervise_sink_exit (s : SignalType) (r : JoinResult) : ExitError := Stopped (TSink s) r.

Definition first_error (t : Trigger) : option ExitError :=
  match t with
  | ShutdownSignal => None
  | TaskEnded (TSink s) r => Some (supervise_sink_exit s r)
  | TaskEnded t r => Some (Stopped t r)
  end.

Definition done_at_first (t : Trigger) (x : Task) : bool := match t with ShutdownSignal => false | TaskEnded t _ => bool_decide (t = x) end.

(** The drain.  [ends] is how each task ends before the drain's deadline, if it
    does; the source is awaited before the others are looked at. *)
Record Drain := mkDrain { dr_done : Task -> bool; dr_sinks : SignalType -> option JoinResult; dr_timed_out : bool }.

Definition drain (already : Task -> bool) (ends : Task -> option JoinResult) : Drain :=
  if negb (already TSource) && negb (bool_decide (is_Some (ends TSource))) then mkDrain already (fun _ => None) true
  else
    let finished t := already t || bool_decide (is_Some (ends t)) in
    mkDrain finished (fun s => if already (TSink s) then None else ends (TSink s)) (negb (forallb finished tasks)).

(** The loop over the sinks' results; the first error is kept. *)
Definition keep_drain_error (exit_err : option ExitError) (s : SignalType) (drain_res : option JoinResult) : option ExitError :=
  match exit_err, drain_res with
  | None, Some (Joined (Err e)) => Some (SinkFailedDuringDrain s e)
  | None, Some Panicked => Some (SinkPanickedDuringDrain s)
  | exit_err, _ => exit_err
  end.

(** The tasks that are aborted. *)
Definition aborted (d : Drain) : list Task := if dr_timed_out d then List.filter (fun t => negb (dr_done d t)) tasks else [].

Section Shutdown.
Context {RB Sch : Type} `{Arrow.Arrow RB Sch Row}.

(** From the select on: the exit, and the buffer. *)
Definition shut_down (trigger : Trigger) (ends : Task -> option JoinResult) (b : BufferInner RB Sch) (sync_reply shutdown_reply : result unit PipelineError)
  : option ExitError * BufferInner RB Sch :=
  let exit_err := first_error trigger in
  let d := drain (done_at_first trigger) ends in
  let exit_err := fold_left (fun e s => keep_drain_error e s (dr_sinks d s)) signals exit_err in
  if dr_timed_out d then
    let '(res, b) := finalize_shutdown_timeout_async b sync_reply shutdown_reply in
    (match exit_err, res with None, Err e => Some (DrainTimedOut e) | _, _ => exit_err end, b)
  else (exit_err, b).

(** The answer of the route /readyz. *)
Definition readyz (b : BufferInner RB Sch) (now_ms : N) : N := if is_ready b now_ms then 200 else 503.

Lemma persist_means_disk c : BufferConfig.validate c = Ok tt -> effective_drain_policy c = Persist -> mode c = Disk.
Proof.
  unfold BufferConfig.validate, effective_drain_policy, validate_mode. intros Hv Hp. destruct (mode c); [|done].
  destruct (on_drain_timeout c) as [[]|]; try done. by repeat case_match.
Qed.

(** A timed-out shutdown that succeeds has kept the rings, on a disk. *)
Lemma finalize_ok (b b' : BufferInner RB Sch) r1 r2 u : finalize_shutdown_timeout_async b r1 r2 = (Ok u, b') -> effective_drain_policy (bi_config b) = Persist /\ rings b' = rings b.
Proof.
  unfold finalize_shutdown_timeout_async. destruct (effective_drain_policy (bi_config b)).
  - intros E. split; [done|]. destruct (has_disk b); [|by injection E as _ <-]. destruct (writer_open b) eqn:Ew; [|done].
    apply (f_equal snd) in E. cbn in E. rewrite Ew in E. by rewrite <- E.
  - destruct (discard_remaining_rings b) as [b1 n]. intros E. repeat case_match; simplify_eq/=; done.
Qed.

Lemma keep_drain_error_none e s r : keep_drain_error e s r = None <-> e = None /\ (r = None \/ r = Some (Joined (Ok tt))).
Proof. destruct e, r as [[[[]|]|]|]; cbn; naive_solver. Qed.

(** No error is left exactly when none was there and no sink that was awaited
    failed. *)
Lemma drained_clean e (sinks : SignalType -> option JoinResult) :
  fold_left (fun e s => keep_drain_error e s (sinks s)) signals e = None <-> e = None /\ forall s, sinks s = None \/ sinks s = Some (Joined (Ok tt)).
Proof.
  cbn. rewrite !keep_drain_error_none. split; [intros (((-> & ?) & ?) & ?); split; [done | by intros []] | intros [-> Hs]; by repeat split].
Qed.

Lemma first_error_none t : first_error t = None <-> t = ShutdownSignal.
Proof. by destruct t as [|[]]. Qed.

(** Every task ends before the deadline. *)
Definition all_end (ends : Task -> option JoinResult) : Prop := forall t, ends t <> None.

Lemma drain_cases ends : let d := drain (done_at_first ShutdownSignal) ends in (dr_timed_out d = true /\ ~ all_end ends) \/ (dr_timed_out d = false /\ all_end ends).
Proof.
  unfold drain. cbn [done_at_first negb andb]. destruct (ends TSource) as [r|] eqn:Es; [rewrite bool_decide_true by done | rewrite bool_decide_false by (by intros [? ?])]; cbn [negb andb dr_timed_out].
  2:{ left. split; [done|]. intros Hs. by specialize (Hs TSource). }
  destruct (forallb _ tasks) eqn:Ef; [right | left]; (split; [done|]).
  - intros t. rewrite forallb_forall in Ef. assert (Hin : In t tasks) by (by destruct t as [|[]|[]]; cbn; auto 10). apply Ef in Hin. cbn in Hin. apply bool_decide_eq_true in Hin. by destruct Hin as [? ->].
  - intros Hs. apply not_true_iff_false in Ef. apply Ef. rewrite forallb_forall. intros t _. specialize (Hs t). cbn. apply bool_decide_eq_true. by destruct (ends t).
Qed.

Lemma drain_sinks ends s : dr_sinks (drain (done_at_first ShutdownSignal) ends) s = match ends TSource with Some _ => ends (TSink s) | None => None end.
Proof. unfold drain. cbn [done_at_first negb andb]. by destruct (ends TSource). Qed.

(** C24 (clean_exit). The process exits with success exactly when it was asked to stop -- and
    not by a task's end -- and then either every task ends before the deadline and
    the three sinks end with success, or some task does not, no sink that was
    awaited has failed, and the buffer could be finalized.  With a buffer
    configuration that passed the startup rules the second case happens only on
    disk, and leaves every record in its ring. *)
Theorem clean_exit trigger ends (b : BufferInner RB Sch) r1 r2 :
  ((shut_down trigger ends b r1 r2).1 = None <->
    trigger = ShutdownSignal /\
    ((all_end ends /\ forall s, ends (TSink s) = Some (Joined (Ok tt))) \/
     (~ all_end ends /\ (ends TSource <> None -> forall s, ends (TSink s) = None \/ ends (TSink s) = Some (Joined (Ok tt))) /\
      (finalize_shutdown_timeout_async b r1 r2).1 = Ok tt))) /\
  (BufferConfig.validate (bi_config b) = Ok tt -> (shut_down trigger ends b r1 r2).1 = None ->
    rings (shut_down trigger ends b r1 r2).2 = rings b /\ (~ all_end ends -> mode (bi_config b) = Disk)).
Proof.
  assert (Htr : trigger = ShutdownSignal \/ trigger <> ShutdownSignal) by (destruct trigger; [by left | by right]). destruct Htr as [->|Ht].
  2:{ assert (Hne : (shut_down trigger ends b r1 r2).1 <> None).
      { unfold shut_down. cbv zeta. destruct (fold_left _ signals _) as [e|] eqn:Ef; [|apply drained_clean in Ef as [Ef _]; by apply first_error_none in Ef].
        destruct (dr_timed_out _); [by destruct (finalize_shutdown_timeout_async b r1 r2) | done]. }
      split; [split; [done | by intros [? _]] | done]. }
  unfold shut_down. cbv zeta. pose proof (drained_clean (first_error ShutdownSignal) (dr_sinks (drain (done_at_first ShutdownSignal) ends))) as Hclean.
  assert (Hsinks : forall s, dr_sinks (drain (done_at_first ShutdownSignal) ends) s = None \/ dr_sinks (drain (done_at_first ShutdownSignal) ends) s = Some (Joined (Ok tt)) <->
    (ends TSource <> None -> ends (TSink s) = None \/ ends (TSink s) = Some (Joined (Ok tt)))) by (intros s; rewrite drain_sinks; destruct (ends TSource); naive_solver).
  set (o := fold_left _ signals _) in *. destruct (drain_cases ends) as [[Ed Hend]|[Ed Hend]]; rewrite Ed.
  - destruct (finalize_shutdown_timeout_async b r1 r2) as [res b'] eqn:Ef. cbn [fst snd].
    assert (Ho : match o, res with None, Err e => Some (DrainTimedOut e) | _, _ => o end = None <-> o = None /\ res = Ok tt) by (destruct o, res as [[]|]; naive_solver).
    split; [rewrite Ho; naive_solver|]. intros Hv [_ ->]%Ho. apply finalize_ok in Ef as [Hp Hr]. split; [done|]. intros _. by apply persist_means_disk.
  - cbn [fst snd]. split; [|done]. split; [|naive_solver]. intros [_ Ho]%Hclean. split; [done|]. left. split; [done|].
    intros s. destruct (proj1 (Hsinks s) (Ho s) (Hend TSource)) as [Hn|]; [by apply Hend in Hn | done].
Qed.
End Shutdown.

Module ServiceDemo.
Import Toy.

Definition disk_config : BufferConfig := BufferConfig.default_config <| mode := Disk |> <| disk_path := Some "buf"%string |>.
Definition buffer (c : BufferConfig) : BufferInner batch N := mkBufferInner 7 c (pconst new_ring_state) true true [] None.

(** The metrics sink is still busy at the deadline, and a transformer has failed. *)
Definition ends (t : Task) : option JoinResult :=
  match t with TSink Metrics => None | TTransformer Logs => Some (Joined (Err (Internal "guest trapped"))) | _ => Some (Joined (Ok tt)) end.

Definition memory_config : BufferConfig := BufferConfig.default_config.

Example exits :
  (shut_down ShutdownSignal ends (buffer disk_config) (Ok tt) (Ok tt)).1 = None /\
  (shut_down ShutdownSignal ends (buffer memory_config) (Ok tt) (Ok tt)).1 = Some (DrainTimedOut (Storage "shutdown drain timed out under Discard policy")) /\
  (shut_down (TaskEnded (TTransformer Logs) (Joined (Err (Internal "guest trapped")))) ends (buffer disk_config) (Ok tt) (Ok tt)).1 = Some (Stopped (TTransformer Logs) (Joined (Err (Internal "guest trapped")))) /\
  aborted (drain (done_at_first ShutdownSignal) ends) = [TSink Metrics].
Proof. by vm_compute. Qed.

Lemma clean_exit_witness :
  BufferConfig.validate disk_config = Ok tt /\
  rings (shut_down ShutdownSignal ends (buffer disk_config) (Ok tt) (Ok tt)).2 = rings (buffer disk_config) /\ mode disk_config = Disk.
Proof.
  split; [by vm_compute|].
  destruct (proj2 (clean_exit ShutdownSignal ends (buffer disk_config) (Ok tt) (Ok tt)) ltac:(by vm_compute) ltac:(by vm_compute)) as [Hr Hm].
  split; [exact Hr|]. apply Hm. intros Ha. by apply (Ha (TSink Metrics)).
Defined.
End ServiceDemo.
