(* ===== verification/EsStartup.v ===== *)
(** The startup checks of the Elasticsearch sink and its loop over leases:
    crates/elasticsearch-sink/src/client.rs (authentication, requests, health and
    index templates) and lib.rs ([validate_startup], [run]).

    The HTTP stack and the cluster are one parameter, the answer to the [k]-th
    request; a body is what its parser makes of it.  The feature aws is off. *)

From S2P Require Import Prelude Text Signal Bulk ElasticsearchConfig ElasticsearchSink.
Local Open Scope N_scope.

(** ** Requests *)

Inductive Method : Type := GET | POST.

(** What reqwest puts in the authorization header. *)
Inductive Authorization : Type := BasicAuth (username : string) (password : option string) | BearerAuth (token : string) | HeaderValue (value : string).

Record Request := mkRequest { rq_method : Method; rq_url : string; rq_headers : list (string * string); rq_authorization : option Authorization; rq_body : bytes }.

Definition apply_auth_request (auth : ElasticsearchAuthConfig) (req : Request) : Request :=
  let with_auth a := mkRequest (rq_method req) (rq_url req) (rq_headers req) (Some a) (rq_body req) in
  match auth with
  | NoAuth => req
  | Basic username password => with_auth (BasicAuth username password)
  | ApiKey api_key => with_auth (HeaderValue ("ApiKey " +:+ api_key))
  | Bearer token => with_auth (BearerAuth token)
  end.

(** The request of a bulk payload; [gzip] may fail in either step, or its task
    panic. *)
Inductive Gzip : Type := Compressed (b : bytes) | GzipFailed (e : string) | GzipFinalizeFailed (e : string) | GzipPanicked (e : string).

Definition post_bulk_request (gzip : bytes -> Gzip) (auth : ElasticsearchAuthConfig) (gzip_compression : bool) (endpoint data_stream payload : bytes) : result Request ElasticsearchError :=
  let url := string_of_bytes endpoint +:+ "/" +:+ string_of_bytes data_stream +:+ "/_bulk" in
  let content_type := ("content-type", "application/x-ndjson")%string in
  if gzip_compression && negb (bool_decide (payload = [])) then
    match gzip payload with
    | Compressed body => Ok (apply_auth_request auth (mkRequest POST url [content_type; ("content-encoding", "gzip")%string] None body))
    | GzipFailed e => Err (EsSerialization ("gzip compression failed: " +:+ e))
    | GzipFinalizeFailed e => Err (EsSerialization ("gzip compression finalize failed: " +:+ e))
    | GzipPanicked e => Err (EsSerialization ("gzip compression task panicked: " +:+ e))
    end
  else Ok (apply_auth_request auth (mkRequest POST url [content_type] None payload)).

(** ** What the cluster answers *)

Inductive JsonValue : Type := JNull | JOther.
Definition is_null (v : JsonValue) : bool := match v with JNull => true | JOther => false end.

(** [ClusterInfo], the number of its version. *)
Record ClusterInfo := mkClusterInfo { ci_version : option bytes }.
Record IndexTemplateContent := mkTemplateContent { index_patterns : list bytes; it_data_stream : option JsonValue; priority : option Z }.
Record IndexTemplateItem := mkTemplateItem { it_name : bytes; index_template : option IndexTemplateContent }.
(** [SimulateIndexResponse]: the data stream of the template, and the names of the
    overlapping ones. *)
Record SimulateIndexResponse := mkSimulate { si_template : option (option JsonValue); si_overlapping : list bytes }.

(** An answer: a status with its phrase, the text of the body, and the body. *)
Inductive Reply : Type := SendError (e : string) | Response (status : N) (phrase text : string) (body : bytes).

Class Cluster := {
  answer : nat -> Request -> Reply;
  parse_cluster_info : bytes -> result ClusterInfo string;
  parse_index_templates : bytes -> result (list IndexTemplateItem) string;
  parse_simulate : bytes -> result SimulateIndexResponse string;
  parse_data_streams : bytes -> result (list bytes) string }.

Inductive TemplateCheckError : Type := TAuth (status : N) (message : string) | TTransport (message : string) | TValidation (message : string).

Definition template_message (e : TemplateCheckError) : string := match e with TAuth _ m | TTransport m | TValidation m => m end.

(** [trim_matches('/')]. *)
Definition trim_slashes (s : bytes) : bytes := reverse (drop_slashes (reverse (drop_slashes s))).

(** [str::chars], a character being the number its bytes spell. *)
Fixpoint chars_of (fuel : nat) (s : bytes) : list N :=
  match fuel, s with
  | S fuel, b :: rest => let n := (utf8_step b rest).1 in fold_left (fun acc b => acc * 256 + b) (take n s) 0 :: chars_of fuel (drop n s)
  | _, _ => []
  end.
Definition chars (s : bytes) : list N := chars_of (length s) s.

Definition has_data_stream (o : option JsonValue) : bool := match o with Some v => negb (is_null v) | None => false end.

Definition prio (item : IndexTemplateItem) : Z := default 0%Z (index_template item ≫= priority).

(** [sort_by] is stable: by priority, the highest first. *)
Fixpoint insert_by_priority (x : IndexTemplateItem) (l : list IndexTemplateItem) : list IndexTemplateItem :=
  match l with
  | [] => [x]
  | y :: l' => if (prio y <=? prio x)%Z then x :: l else y :: insert_by_priority x l'
  end.
Definition sort_by_priority (l : list IndexTemplateItem) : list IndexTemplateItem := foldr insert_by_priority [] l.

Definition matches (data_stream : bytes) (item : IndexTemplateItem) : bool :=
  match index_template item with Some content => existsb (fun pat => pattern_matches (chars pat) (chars data_stream)) (index_patterns content) | None => false end.

Section Startup.
Context `{Cluster}.
Variable auth : ElasticsearchAuthConfig.

Abbreviation str := string_of_bytes.
Definition get (url : string) : Request := apply_auth_request auth (mkRequest GET url [] None []).

(** *** The three tiers *)

Definition check_list_index_templates_matching (k : nat) (endpoint data_stream : bytes) : result unit TemplateCheckError :=
  match answer k (get (str endpoint +:+ "/_index_template")) with
  | SendError e => Err (TTransport ("failed to list index templates on '" +:+ str endpoint +:+ "': " +:+ e))
  | Response status phrase text body =>
      if status =? 404 then Err (TValidation ("index template for data stream '" +:+ str data_stream +:+ "' not found (HTTP 404)"))
      else if (status =? 401) || (status =? 403) then Err (TAuth status ("unauthorized to list index templates on '" +:+ str endpoint +:+ "': HTTP " +:+ status_text status phrase))
      else if negb (is_success status) then Err (TTransport ("index template list on '" +:+ str endpoint +:+ "' returned HTTP " +:+ status_text status phrase +:+ ": " +:+ text))
      else
        match parse_index_templates body with
        | Err e => Err (TTransport ("failed to parse index templates list response on '" +:+ str endpoint +:+ "': " +:+ e))
        | Ok items =>
            if bool_decide (items = []) then Err (TValidation ("index template for data stream '" +:+ str data_stream +:+ "' returned empty template list"))
            else
              match sort_by_priority (List.filter (matches data_stream) items) with
              | [] => Err (TValidation ("no index template matches data stream '" +:+ str data_stream +:+ "'"))
              | winning :: _ =>
                  if has_data_stream (index_template winning ≫= it_data_stream) then Ok tt
                  else Err (TValidation ("matching index template '" +:+ str (it_name winning) +:+ "' for data stream '" +:+ str data_stream +:+ "' is not configured as a data-stream template (missing 'data_stream' field)"))
              end
        end
  end.

Definition simulate_request (endpoint data_stream : bytes) : Request :=
  apply_auth_request auth (mkRequest POST (str endpoint +:+ "/_index_template/_simulate_index/" +:+ str data_stream) [("content-type", "application/json")%string] None (text "{}")).

Definition overlapping_info (names : list bytes) : string :=
  match names with [] => "" | _ => "; overlapping templates: " +:+ String.concat ", " (map str names) end.

Definition check_simulate_index_template (k : nat) (endpoint data_stream : bytes) : result unit TemplateCheckError :=
  match answer k (simulate_request endpoint data_stream) with
  | SendError e => Err (TTransport ("failed to simulate index template for '" +:+ str data_stream +:+ "' on '" +:+ str endpoint +:+ "': " +:+ e))
  | Response status phrase text body =>
      if status =? 401 then Err (TAuth status ("unauthorized to simulate index template for '" +:+ str data_stream +:+ "' on '" +:+ str endpoint +:+ "': HTTP 401"))
      else if status =? 403 then Err (TAuth status ("forbidden to simulate index template for '" +:+ str data_stream +:+ "' on '" +:+ str endpoint +:+ "': HTTP 403"))
      else if (status =? 404) || (status =? 405)
      then Err (TValidation ("simulate index template endpoint not supported or not found for '" +:+ str data_stream +:+ "' on '" +:+ str endpoint +:+ "' (HTTP " +:+ status_text status phrase +:+ ")"))
      else if negb (is_success status) then Err (TTransport ("simulate index template for '" +:+ str data_stream +:+ "' on '" +:+ str endpoint +:+ "' returned HTTP " +:+ status_text status phrase +:+ ": " +:+ text))
      else
        match parse_simulate body with
        | Err e => Err (TTransport ("failed to parse simulate index template '" +:+ str data_stream +:+ "' response on '" +:+ str endpoint +:+ "': " +:+ e))
        | Ok parsed =>
            if has_data_stream (mjoin (si_template parsed)) then Ok tt
            else Err (TValidation ("simulated index template for '" +:+ str data_stream +:+ "' on '" +:+ str endpoint +:+ "' is not configured with 'data_stream: {}' (resolved template would create a regular index" +:+ overlapping_info (si_overlapping parsed) +:+ ")"))
        end
  end.

Definition check_data_stream_exists (k : nat) (endpoint data_stream : bytes) : result unit TemplateCheckError :=
  match answer k (get (str endpoint +:+ "/_data_stream/" +:+ str data_stream)) with
  | SendError e => Err (TTransport ("failed to check data stream '" +:+ str data_stream +:+ "' on '" +:+ str endpoint +:+ "': " +:+ e))
  | Response status phrase text body =>
      if status =? 404 then Err (TValidation ("data stream '" +:+ str data_stream +:+ "' does not exist on '" +:+ str endpoint +:+ "'"))
      else if (status =? 401) || (status =? 403) then Err (TAuth status ("unauthorized to check data stream '" +:+ str data_stream +:+ "' on '" +:+ str endpoint +:+ "': HTTP " +:+ status_text status phrase))
      else if negb (is_success status) then Err (TTransport ("check data stream '" +:+ str data_stream +:+ "' on '" +:+ str endpoint +:+ "' returned HTTP " +:+ status_text status phrase +:+ ": " +:+ text))
      else
        match parse_data_streams body with
        | Err e => Err (TTransport ("failed to parse data stream '" +:+ str data_stream +:+ "' response on '" +:+ str endpoint +:+ "': " +:+ e))
        | Ok names =>
            if existsb (fun n => bool_decide (n = data_stream)) names then Ok tt
            else Err (TValidation ("data stream response on '" +:+ str endpoint +:+ "' did not contain data stream '" +:+ str data_stream +:+ "'"))
        end
  end.

(** A transport error that no lower tier may mend. *)
Definition hard_transport (msg : string) : bool := negb (str_contains msg "returned HTTP 404") && negb (str_contains msg "returned HTTP 405").

(** The error a tier ends the check with; the others go on to the next tier. *)
Definition ends_tier1 (e : TemplateCheckError) : bool :=
  match e with TTransport msg => hard_transport msg | TAuth status _ => status =? 401 | TValidation msg => negb (str_contains msg "(HTTP 404)") end.
Definition ends_tier2 (e : TemplateCheckError) : bool :=
  match e with TTransport msg => hard_transport msg | TAuth status _ => status =? 401 | TValidation msg => str_contains msg "is not configured with 'data_stream: {}'" end.
Definition ends_tier3 (e : TemplateCheckError) : bool :=
  match e with TTransport msg => hard_transport msg | TAuth status _ => status =? 401 | TValidation _ => false end.

(** The check on one endpoint, and the requests it has made. *)
Definition check_get_index_template (k : nat) (endpoint data_stream : bytes) : nat * result unit TemplateCheckError :=
  match check_list_index_templates_matching k endpoint data_stream with
  | Ok _ => (S k, Ok tt)
  | Err tier1_err =>
      if ends_tier1 tier1_err then (S k, Err tier1_err)
      else
        match check_simulate_index_template (S k) endpoint data_stream with
        | Ok _ => (S (S k), Ok tt)
        | Err tier2_err =>
            if ends_tier2 tier2_err then (S (S k), Err tier2_err)
            else
              (S (S (S k)),
               match check_data_stream_exists (S (S k)) endpoint data_stream with
               | Ok _ => Ok tt
               | Err tier3_err =>
                   if ends_tier3 tier3_err then Err tier3_err
                   else Err (TValidation ("all validation tiers failed for '" +:+ str data_stream +:+ "' on '" +:+ str endpoint +:+ "': Tier 1 (cluster-wide composable template list): " +:+ template_message tier1_err
                     +:+ "; Tier 2 (index template simulation): " +:+ template_message tier2_err +:+ "; Tier 3 (active data stream check): " +:+ template_message tier3_err))
               end)
        end
  end.

(** *** Health and templates over the endpoints *)

(** The end of a pass over the endpoints without success. *)
Definition startup_failure (auth_marker what : string) (errors : list string) (auth_error : option string) : ElasticsearchError :=
  let failed := EsStartupValidation (what +:+ String.concat "; " errors) in
  match auth_error with
  | None => failed
  | Some msg =>
      if (length errors =? 1)%nat then EsAuthenticationFailed msg
      else if forallb (fun e => str_contains e auth_marker) errors then EsAuthenticationFailed msg else failed
  end.

(** What one endpoint's health is: fine, or its error, with the part that is about
    authentication. *)
Definition health_of (k : nat) (endpoint : bytes) : result unit (string * option string) :=
  match answer k (get (str endpoint +:+ "/")) with
  | SendError e => Err ("failed to connect to cluster endpoint '" +:+ str endpoint +:+ "': " +:+ e, None)
  | Response status phrase text body =>
      if (status =? 401) || (status =? 403) then
        let msg := "health check authentication failed with HTTP " +:+ status_text status phrase in
        Err (str endpoint +:+ ": " +:+ msg, Some msg)
      else if negb (is_success status) then Err ("health check against '" +:+ str endpoint +:+ "' returned HTTP " +:+ status_text status phrase, None)
      else
        match parse_cluster_info body with
        | Err e => Err ("failed to parse cluster info JSON from '" +:+ str endpoint +:+ "': " +:+ e, None)
        | Ok info =>
            match ci_version info with
            | Some n => if bool_decide (trim n = []) then Err ("cluster info from '" +:+ str endpoint +:+ "' did not contain a valid version number", None) else Ok tt
            | None => Err ("cluster info from '" +:+ str endpoint +:+ "' did not contain a valid version number", None)
            end
        end
  end.

Variable clock : nat -> N.

(** [health_check]: the endpoints in order, with the requests made and the
    cooldowns. *)
Fixpoint health_loop (eps : list bytes) (k : nat) (e : Endpoints) (errors : list string) (auth_error : option string) : nat * Endpoints * result unit ElasticsearchError :=
  match eps with
  | [] => (k, e, Err (startup_failure "authentication failed" "all cluster endpoints failed health check: " errors auth_error))
  | endpoint :: eps =>
      match health_of k endpoint with
      | Ok _ => (S k, e, Ok tt)
      | Err (err, auth_err) =>
          health_loop eps (S k) (mark_endpoint_failed (clock k) endpoint e) (errors ++ [err]) (match auth_err with Some m => Some m | None => auth_error end)
      end
  end.

Definition health_check (k : nat) (e : Endpoints) : nat * Endpoints * result unit ElasticsearchError := health_loop (ep_urls e) k e [] None.

Fixpoint template_loop (data_stream : bytes) (eps : list bytes) (k : nat) (e : Endpoints) (errors : list string) (auth_error : option string) : nat * Endpoints * result unit ElasticsearchError :=
  match eps with
  | [] => (k, e, Err (startup_failure "unauthorized" ("all cluster endpoints failed index template validation for '" +:+ str data_stream +:+ "': ") errors auth_error))
  | endpoint :: eps =>
      let '(k', r) := check_get_index_template k endpoint data_stream in
      match r with
      | Ok _ => (k', e, Ok tt)
      | Err (TAuth _ message) => template_loop data_stream eps k' (mark_endpoint_failed (clock k') endpoint e) (errors ++ [str endpoint +:+ ": " +:+ message]) (Some message)
      | Err (TTransport msg) => template_loop data_stream eps k' (mark_endpoint_failed (clock k') endpoint e) (errors ++ [msg]) auth_error
      | Err (TValidation msg) => template_loop data_stream eps k' e (errors ++ [msg]) auth_error
      end
  end.

Definition validate_index_template (data_stream : bytes) (k : nat) (e : Endpoints) : nat * Endpoints * result unit ElasticsearchError :=
  template_loop (trim_slashes data_stream) (ep_urls e) k e [] None.

(** What the sinks of the three signals share. *)
Record SinkShared := mkShared { sh_requests : nat; sh_endpoints : Endpoints; sh_validated : bool }.

Fixpoint validate_templates (streams : list bytes) (k : nat) (e : Endpoints) : nat * Endpoints * result unit ElasticsearchError :=
  match streams with
  | [] => (k, e, Ok tt)
  | ds :: streams =>
      match validate_index_template ds k e with
      | (k, e, Ok _) => validate_templates streams k e
      | other => other
      end
  end.

Definition streams_of (c : ElasticsearchSinkConfig) : list bytes := [ds_logs (data_streams c); ds_metrics (data_streams c); ds_traces (data_streams c)].

Definition validate_startup (c : ElasticsearchSinkConfig) (s : SinkShared) : SinkShared * result unit PipelineError :=
  if negb (validate_on_startup c) || sh_validated s then (s, Ok tt)
  else
    let '(k, e, r) := health_check (sh_requests s) (sh_endpoints s) in
    match r with
    | Err err => (mkShared k e (sh_validated s), Err (es_pipeline_error err))
    | Ok _ =>
        let '(k, e, r) := validate_templates (streams_of c) k e in
        match r with
        | Err err => (mkShared k e (sh_validated s), Err (es_pipeline_error err))
        | Ok _ => (mkShared k e true, Ok tt)
        end
    end.

(** ** What a successful start has seen *)

(** *** The winning template *)

Lemma insert_by_priority_perm x l : Permutation (insert_by_priority x l) (x :: l).
Proof. induction l as [|y l IH]; cbn; [done|]. destruct (prio y <=? prio x)%Z; [done|]. rewrite IH. constructor. Qed.

Lemma sort_by_priority_perm l : Permutation (sort_by_priority l) l.
Proof. induction l as [|x l IH]; cbn; [done|]. by rewrite insert_by_priority_perm, IH. Qed.

(** The first of the sorted list: of the highest priority, and before the others of
    that priority. *)
Definition wins (w : IndexTemplateItem) (l : list IndexTemplateItem) : Prop :=
  exists before after, l = before ++ w :: after /\ Forall (fun y => (prio y < prio w)%Z) before /\ Forall (fun y => (prio y <= prio w)%Z) after.

Lemma sort_head l w rest : sort_by_priority l = w :: rest -> wins w l.
Proof.
  revert w rest. induction l as [|x l IH]; intros w rest; cbn [sort_by_priority foldr]; [done|]. fold (sort_by_priority l).
  destruct (sort_by_priority l) as [|y l'] eqn:Es; cbn [insert_by_priority].
  - intros [= <- <-]. exists [], l. split_and!; [done | constructor|]. pose proof (sort_by_priority_perm l) as Hp. rewrite Es in Hp. apply Permutation_nil in Hp as ->. constructor.
  - specialize (IH y l' eq_refl). destruct IH as (before & after & -> & Hb & Ha). destruct (Z.leb_spec (prio y) (prio x)); intros [= <- <-].
    + exists [], (before ++ y :: after). split_and!; [done | constructor|]. apply Forall_app. split; [eapply Forall_impl; [exact Hb|]; cbn; lia|].
      constructor; [done|]. eapply Forall_impl; [exact Ha|]. cbn. lia.
    + exists (x :: before), after. split_and!; [done | by constructor | done].
Qed.

(** What shows that an endpoint has the data stream, or makes it one. *)
Inductive confirms (endpoint data_stream : bytes) : Prop :=
  | by_template k status phrase text body items w :
      answer k (get (str endpoint +:+ "/_index_template")) = Response status phrase text body -> is_success status = true -> parse_index_templates body = Ok items ->
      wins w (List.filter (matches data_stream) items) -> has_data_stream (index_template w ≫= it_data_stream) = true -> confirms endpoint data_stream
  | by_simulation k status phrase text body parsed :
      answer k (simulate_request endpoint data_stream) = Response status phrase text body -> is_success status = true -> parse_simulate body = Ok parsed ->
      has_data_stream (mjoin (si_template parsed)) = true -> confirms endpoint data_stream
  | by_existence k status phrase text body names :
      answer k (get (str endpoint +:+ "/_data_stream/" +:+ str data_stream)) = Response status phrase text body -> is_success status = true -> parse_data_streams body = Ok names ->
      data_stream ∈ names -> confirms endpoint data_stream.

Lemma check_list_confirms k endpoint ds : check_list_index_templates_matching k endpoint ds = Ok tt -> confirms endpoint ds.
Proof.
  unfold check_list_index_templates_matching. destruct (answer _ _) as [|status phrase txt body] eqn:Ea; [done|]. destruct (status =? 404); [done|]. destruct (_ || _); [done|].
  destruct (is_success status) eqn:Es; [|done]. cbn [negb]. destruct (parse_index_templates body) as [items|] eqn:Ep; [|done]. case_bool_decide; [done|].
  destruct (sort_by_priority _) as [|w rest] eqn:Ew; [done|]. destruct (has_data_stream _) eqn:Eh; [|done]. intros _. eapply by_template; try done. by eapply sort_head.
Qed.

Lemma check_simulate_confirms k endpoint ds : check_simulate_index_template k endpoint ds = Ok tt -> confirms endpoint ds.
Proof.
  unfold check_simulate_index_template. destruct (answer _ _) as [|status phrase txt body] eqn:Ea; [done|]. destruct (status =? 401); [done|]. destruct (status =? 403); [done|]. destruct (_ || _); [done|].
  destruct (is_success status) eqn:Es; [|done]. cbn [negb]. destruct (parse_simulate body) as [parsed|] eqn:Ep; [|done]. destruct (has_data_stream _) eqn:Eh; [|done]. intros _. by eapply by_simulation.
Qed.

Lemma check_exists_confirms k endpoint ds : check_data_stream_exists k endpoint ds = Ok tt -> confirms endpoint ds.
Proof.
  unfold check_data_stream_exists. destruct (answer _ _) as [|status phrase txt body] eqn:Ea; [done|]. destruct (status =? 404); [done|]. destruct (_ || _); [done|].
  destruct (is_success status) eqn:Es; [|done]. cbn [negb]. destruct (parse_data_streams body) as [names|] eqn:Ep; [|done]. destruct (existsb _ names) eqn:Eh; [|done]. intros _.
  apply existsb_exists in Eh as (n & Hn & E). apply bool_decide_eq_true in E as ->. apply list_elem_of_In in Hn. by eapply by_existence.
Qed.

Lemma check_get_confirms k endpoint ds : (check_get_index_template k endpoint ds).2 = Ok tt -> confirms endpoint ds.
Proof.
  unfold check_get_index_template. destruct (check_list_index_templates_matching k endpoint ds) as [[]|e1] eqn:E1; [intros _; by eapply check_list_confirms|]. destruct (ends_tier1 e1); [done|].
  destruct (check_simulate_index_template _ _ _) as [[]|e2] eqn:E2; [intros _; by eapply check_simulate_confirms|]. destruct (ends_tier2 e2); [done|]. cbn [snd].
  destruct (check_data_stream_exists _ _ _) as [[]|e3] eqn:E3; [intros _; by eapply check_exists_confirms|]. by destruct (ends_tier3 e3).
Qed.

Lemma mark_failed_urls now endpoint e : ep_urls (mark_endpoint_failed now endpoint e) = ep_urls e.
Proof. unfold mark_endpoint_failed. by destruct (endpoint_position e endpoint). Qed.

Lemma template_loop_spec ds eps : forall k e errors auth_error k' e' r, template_loop ds eps k e errors auth_error = (k', e', r) ->
  ep_urls e' = ep_urls e /\ (r = Ok tt -> exists ep, ep ∈ eps /\ confirms ep ds).
Proof.
  induction eps as [|ep eps IH]; intros k e errors auth_error k' e' r; cbn [template_loop]; [by intros [= <- <- <-]|].
  pose proof (check_get_confirms k ep ds) as Hc. destruct (check_get_index_template k ep ds) as [k1 [[]|err]]; cbn [snd] in Hc.
  - intros [= <- <- <-]. split; [done|]. intros _. exists ep. split; [by left | by apply Hc].
  - destruct err as [st msg|msg|msg]; intros E; apply IH in E as [Eu Hok]; rewrite ?mark_failed_urls in Eu; (split; [done|]); intros Hr; destruct (Hok Hr) as (x & Hx & Hcx); exists x; (split; [by right | done]).
Qed.

Lemma validate_templates_spec streams : forall k e k' e' r, validate_templates streams k e = (k', e', r) -> r = Ok tt ->
  ep_urls e' = ep_urls e /\ forall ds, ds ∈ streams -> exists ep, ep ∈ ep_urls e /\ confirms ep (trim_slashes ds).
Proof.
  induction streams as [|ds streams IH]; intros k e k' e' r; cbn [validate_templates]; [intros [= <- <- <-] _; split; [done|]; by intros ds ?%elem_of_nil|].
  destruct (validate_index_template ds k e) as [[k1 e1] [[]|err]] eqn:Ev; [|by intros [= <- <- <-]]. unfold validate_index_template in Ev. apply template_loop_spec in Ev as [Eu Hc].
  intros E Hr. destruct (IH _ _ _ _ _ E Hr) as [Eu' Hall]. rewrite Eu in *. split; [done|]. intros x [->|Hx]%elem_of_cons; [by apply Hc | by apply Hall].
Qed.

(** *** Health *)

(** An endpoint that answers with the version of its cluster. *)
Definition healthy (k : nat) (endpoint : bytes) : Prop :=
  exists status phrase text body n, answer k (get (str endpoint +:+ "/")) = Response status phrase text body /\ is_success status = true /\
    parse_cluster_info body = Ok (mkClusterInfo (Some n)) /\ trim n <> [].

Lemma auth_status_fails status : (status =? 401) || (status =? 403) = true -> is_success status = false.
Proof. unfold is_success. intros [->%N.eqb_eq| ->%N.eqb_eq]%orb_prop; done. Qed.

Lemma health_of_iff k endpoint : health_of k endpoint = Ok tt <-> healthy k endpoint.
Proof.
  unfold health_of, healthy. destruct (answer _ _) as [e|status phrase txt body]; [split; [done | by intros (? & ? & ? & ? & ? & ? & _)]|].
  destruct ((status =? 401) || (status =? 403)) eqn:Ea.
  { apply auth_status_fails in Ea. split; [done|]. intros (? & ? & ? & ? & ? & [= <- <- <- <-] & Hs & _). congruence. }
  destruct (is_success status) eqn:Es; cbn [negb]; [|split; [done|]; intros (? & ? & ? & ? & ? & [= <- <- <- <-] & Hs & _); congruence].
  destruct (parse_cluster_info body) as [[v]|e] eqn:Ep; [|split; [done|]; intros (? & ? & ? & ? & ? & [= <- <- <- <-] & _ & Hp & _); congruence]. cbn [ci_version].
  destruct v as [n|]; [case_bool_decide|]; (split; [intros Hx; try done | intros (? & ? & ? & ? & ? & [= <- <- <- <-] & _ & Hp & Hn); rewrite Ep in Hp; simplify_eq; done]).
  by exists status, phrase, txt, body, n.
Qed.

Lemma health_loop_spec eps : forall k e errors auth_error k' e' r, health_loop eps k e errors auth_error = (k', e', r) ->
  ep_urls e' = ep_urls e /\ (r = Ok tt <-> exists i ep, eps !! i = Some ep /\ healthy (k + i) ep).
Proof.
  induction eps as [|ep eps IH]; intros k e errors auth_error k' e' r; cbn [health_loop].
  - intros [= <- <- <-]. split; [done|]. split; [done | by intros (i & ep & Hi & _)].
  - pose proof (health_of_iff k ep) as Hh. destruct (health_of k ep) as [[]|[err auth_err]].
    + intros [= <- <- <-]. split; [done|]. split; [intros _ | done]. exists 0%nat, ep. rewrite Nat.add_0_r. split; [done | by apply Hh].
    + intros E. apply IH in E as [Eu Hok]. rewrite mark_failed_urls in Eu. split; [done|]. rewrite Hok. split.
      * intros (i & x & Hi & Hx). exists (S i), x. by rewrite Nat.add_succ_r.
      * intros ([|i] & x & Hi & Hx); [|exists i, x; by rewrite Nat.add_succ_r in Hx]. injection Hi as <-. rewrite Nat.add_0_r in Hx. by apply Hh in Hx.
Qed.

(** C27 (startup_confirms). A start that is checked and succeeds has had an endpoint answer
    with the version of its cluster, and for each of the three data streams an
    endpoint that makes it one: by its template of the highest priority among
    those that match, by simulation, or by having it.  The checks are then not
    made again, and a start without a healthy endpoint fails. *)
Theorem startup_confirms c s s' r : validate_on_startup c = true -> sh_validated s = false -> validate_startup c s = (s', r) ->
  (r = Ok tt ->
    (exists i ep, ep_urls (sh_endpoints s) !! i = Some ep /\ healthy (sh_requests s + i) ep) /\
    Forall (fun ds => exists ep, ep ∈ ep_urls (sh_endpoints s) /\ confirms ep (trim_slashes ds)) (streams_of c) /\
    validate_startup c s' = (s', Ok tt)) /\
  ((forall i ep, ep_urls (sh_endpoints s) !! i = Some ep -> ~ healthy (sh_requests s + i) ep) -> is_ok r = false /\ sh_validated s' = false).
Proof.
  intros Hon Hval. unfold validate_startup. rewrite Hon, Hval. cbn [negb orb]. unfold health_check.
  destruct (health_loop _ _ _ _ _) as [[k e] rh] eqn:Eh. apply health_loop_spec in Eh as [Eu Hh]. destruct rh as [[]|err].
  - pose proof (proj1 Hh eq_refl) as Hhealthy. destruct (validate_templates (streams_of c) k e) as [[k2 e2] rt] eqn:Et. pose proof (validate_templates_spec _ _ _ _ _ _ Et) as Hspec.
    destruct rt as [[]|err]; intros [= <- <-]; (split; [|intros Hn; destruct Hhealthy as (i & ep & Hi & Hx); by apply (Hn i ep) in Hx]); [|done].
    intros _. destruct (Hspec eq_refl) as [_ Hall]. rewrite Eu in Hall. split_and!; [done | by apply Forall_forall | done].
  - intros [= <- <-]. split; done.
Qed.
End Startup.

(** ** The loop over leases *)

(** A lease's task, [process_lease] of ElasticsearchSink, as it ends. *)
Inductive LeaseTask : Type := LeaseDone (r : result unit PipelineError) | LeasePanicked (msg : string).

Definition task_failed (msg : string) : PipelineError := Internal ("Bulk dispatch task failed: " +:+ msg).
Definition lease_task_error (t : LeaseTask) : option PipelineError :=
  match t with LeaseDone (Ok _) => None | LeaseDone (Err err) => Some err | LeasePanicked msg => Some (task_failed msg) end.

(** What the select meets: the end of the [pick]-th task in flight, or the buffer's
    answer. *)
Inductive EsTurn (L : Type) : Type := TaskEnded (pick : nat) | LeaseReceived (lease : L) | BufferClosed | BufferFailed (e : PipelineError).
Arguments TaskEnded {L}.
Arguments LeaseReceived {L}.
Arguments BufferClosed {L}.
Arguments BufferFailed {L}.

Section Run.
Context {L : Type}.
Variable process : L -> LeaseTask.

(** [JoinSet::join_next]: some task of those in flight. *)
Definition take_task (pick : nat) (tasks : list L) : option (L * list L) :=
  match tasks !! (pick mod length tasks)%nat with Some l => Some (l, take (pick mod length tasks)%nat tasks ++ drop (S (pick mod length tasks)) tasks) | None => None end.

(** The order the tasks in flight end in. *)
Fixpoint ending_order (fuel : nat) (picks : list nat) (tasks : list L) : list L :=
  match fuel with
  | O => []
  | S fuel => match take_task (default 0%nat (head picks)) tasks with Some (l, tasks) => l :: ending_order fuel (tail picks) tasks | None => [] end
  end.

(** Both drains end every task; the first keeps no error. *)
Definition drain_lease_tasks (picks : list nat) (tasks : list L) : list L := ending_order (length tasks) picks tasks.
Definition drain_lease_tasks_propagating (picks : list nat) (tasks : list L) : result unit PipelineError * list L :=
  let order := drain_lease_tasks picks tasks in
  (match omap (fun l => lease_task_error (process l)) order with err :: _ => Err err | [] => Ok tt end, order).

(** The loop, with the leases whose tasks have ended, in that order. *)
Fixpoint es_loop (turns : list (EsTurn L)) (picks : list nat) (lease_tasks ended : list L) : option (result unit PipelineError * list L) :=
  match turns with
  | [] => None
  | TaskEnded pick :: turns =>
      match take_task pick lease_tasks with
      | None => es_loop turns picks lease_tasks ended
      | Some (l, lease_tasks) =>
          match lease_task_error (process l) with
          | None => es_loop turns picks lease_tasks (ended ++ [l])
          | Some err => Some (Err err, ended ++ [l] ++ drain_lease_tasks picks lease_tasks)
          end
      end
  | LeaseReceived l :: turns => es_loop turns picks (lease_tasks ++ [l]) ended
  | BufferClosed :: _ => let '(r, order) := drain_lease_tasks_propagating picks lease_tasks in Some (r, ended ++ order)
  | BufferFailed err :: _ => Some (Err err, ended ++ drain_lease_tasks picks lease_tasks)
  end.

Definition received (turns : list (EsTurn L)) : list L := omap (fun t => match t with LeaseReceived l => Some l | _ => None end) turns.

Lemma take_task_perm pick tasks l rest : take_task pick tasks = Some (l, rest) -> Permutation tasks (l :: rest).
Proof.
  unfold take_task. destruct (tasks !! _) as [x|] eqn:E; [|done]. intros [= -> <-]. rewrite <- (take_drop_middle _ _ _ E) at 1. by rewrite Permutation_middle.
Qed.

Lemma take_task_some pick tasks : tasks <> [] -> is_Some (take_task pick tasks).
Proof.
  intros Hne. unfold take_task. assert (Hl : (pick mod length tasks < length tasks)%nat) by (apply Nat.mod_upper_bound; by destruct tasks).
  apply lookup_lt_is_Some in Hl as [x ->]. by eexists.
Qed.

Lemma ending_order_perm fuel : forall picks tasks, (length tasks <= fuel)%nat -> Permutation (ending_order fuel picks tasks) tasks.
Proof.
  induction fuel as [|fuel IH]; intros picks tasks Hl; cbn [ending_order]; [destruct tasks; [done | cbn in Hl; lia]|].
  destruct (take_task _ tasks) as [[l rest]|] eqn:E.
  - apply take_task_perm in E. rewrite IH; [by rewrite E|]. apply Permutation_length in E. cbn in E. lia.
  - destruct tasks as [|x tasks]; [done|]. destruct (take_task_some (default 0%nat (head picks)) (x :: tasks)) as [? ?]; [done | congruence].
Qed.

Lemma drain_perm picks tasks : Permutation (drain_lease_tasks picks tasks) tasks.
Proof. by apply ending_order_perm. Qed.

(** Every task that has ended did, and none of them with an error but the one of
    the answer. *)
Definition clean (l : L) : Prop := lease_task_error (process l) = None.

Lemma es_loop_spec turns picks : forall lease_tasks ended r out, Forall clean ended -> es_loop turns picks lease_tasks ended = Some (r, out) ->
  exists consumed rest, turns = consumed ++ rest /\ Permutation out (ended ++ lease_tasks ++ received consumed) /\
    match r with
    | Ok _ => Forall clean out /\ exists c, consumed = c ++ [BufferClosed]
    | Err err => (exists l, l ∈ out /\ lease_task_error (process l) = Some err) \/ exists c, consumed = c ++ [BufferFailed err]
    end.
Proof.
  induction turns as [|[pick|l| |err] turns IH]; intros lease_tasks ended r out Hc; cbn [es_loop]; [done|..].
  - destruct (take_task pick lease_tasks) as [[l tasks]|] eqn:Et.
    + apply take_task_perm in Et. destruct (lease_task_error (process l)) as [err|] eqn:El.
      * intros [= <- <-]. exists [TaskEnded pick], turns. split_and!; [done | | left; exists l; split; [set_solver | done]].
        cbn. rewrite app_nil_r, drain_perm. by rewrite Et.
      * intros E. apply IH in E as (consumed & rest & -> & Hp & Hr); [|apply Forall_app; split; [done | by constructor]].
        exists (TaskEnded pick :: consumed), rest. split_and!; [done | | destruct r; [destruct Hr as [? [c ->]]; split; [done | by exists (TaskEnded pick :: c)] | destruct Hr as [?|[c ->]]; [by left | right; by exists (TaskEnded pick :: c)]]].
        cbn. rewrite Hp, Et. by rewrite <- !app_assoc.
    + intros E. apply IH in E as (consumed & rest & -> & Hp & Hr); [|done]. exists (TaskEnded pick :: consumed), rest.
      split_and!; [done | by rewrite Hp | destruct r; [destruct Hr as [? [c ->]]; split; [done | by exists (TaskEnded pick :: c)] | destruct Hr as [?|[c ->]]; [by left | right; by exists (TaskEnded pick :: c)]]].
  - intros E. apply IH in E as (consumed & rest & -> & Hp & Hr); [|done]. exists (LeaseReceived l :: consumed), rest.
    split_and!; [done | | destruct r; [destruct Hr as [? [c ->]]; split; [done | by exists (LeaseReceived l :: c)] | destruct Hr as [?|[c ->]]; [by left | right; by exists (LeaseReceived l :: c)]]].
    cbn. by rewrite Hp, <- app_assoc.
  - unfold drain_lease_tasks_propagating. intros E. exists [BufferClosed], turns. injection E as Er <-. split_and!; [done | cbn; by rewrite app_nil_r, drain_perm|].
    destruct (omap _ _) as [|err errs] eqn:Eo; subst r.
    + split; [|by exists []]. apply Forall_app. split; [done|]. apply Forall_forall. intros l Hl. unfold clean. destruct (lease_task_error (process l)) as [err|] eqn:El; [|done].
      assert (Hin : err ∈ omap (fun l => lease_task_error (process l)) (drain_lease_tasks picks lease_tasks)) by (apply list_elem_of_omap; by exists l). rewrite Eo in Hin. by apply elem_of_nil in Hin.
    + left. assert (Hin : err ∈ omap (fun l => lease_task_error (process l)) (drain_lease_tasks picks lease_tasks)) by (rewrite Eo; by left).
      apply list_elem_of_omap in Hin as (l & Hl & El). exists l. split; [apply elem_of_app; by right | done].
  - intros [= <- <-]. exists [BufferFailed err], turns. split_and!; [done | cbn; by rewrite app_nil_r, drain_perm | right; by exists []].
Qed.

(** [run], after the startup checks. *)
Definition es_run (startup : result unit PipelineError) (turns : list (EsTurn L)) (picks : list nat) : option (result unit PipelineError * list L) :=
  match startup with Err e => Some (Err e, []) | Ok _ => es_loop turns picks [] [] end.

(** When the sink ends after its startup checks, every lease it took
    from the buffer has been processed to its end and once, whatever the tasks
    were doing and whichever ended it; it answers success only when the buffer is
    closed and every lease was processed without an error, and an error is a
    lease's, or the buffer's. *)
Theorem es_run_settles turns picks r out : es_run (Ok tt) turns picks = Some (r, out) ->
  exists consumed rest, turns = consumed ++ rest /\ Permutation out (received consumed) /\
    match r with
    | Ok _ => Forall clean out /\ exists c, consumed = c ++ [BufferClosed]
    | Err err => (exists l, l ∈ out /\ lease_task_error (process l) = Some err) \/ exists c, consumed = c ++ [BufferFailed err]
    end.
Proof. intros E. apply es_loop_spec in E; [done | constructor]. Qed.
End Run.

Module EsStartupDemo.
Definition ok (s : string) : Reply := Response 200 "OK" s (text s).
Definition item (p : Z) (d : option JsonValue) (name pattern : string) : IndexTemplateItem := mkTemplateItem (text name) (Some (mkTemplateContent [text pattern] d (Some p))).

(** Node 1 is down; node 2 lists templates, one of which shadows the logs. *)
Definition answers (shadowed : bool) (k : nat) (req : Request) : Reply :=
  if str_contains (rq_url req) "es-1" then SendError "connection refused"
  else if str_contains (rq_url req) "_index_template" then ok (if shadowed then "shadowed" else "listed") else ok "info".

#[local] Instance cluster (shadowed : bool) : Cluster := {|
  answer := answers shadowed;
  parse_cluster_info _ := Ok (mkClusterInfo (Some (text "8.12.0")));
  parse_index_templates b := Ok ([item 100 (Some JOther) "otel" "*-otel"] ++ if bool_decide (b = text "shadowed") then [item 200 None "plain" "logs-*"] else []);
  parse_simulate _ := Err "no"%string; parse_data_streams _ := Err "no"%string |}.

Definition config : ElasticsearchSinkConfig := with_defaults [] (mkDataStreams (text "logs-otel") (text "/metrics-otel/") (text "traces-otel")).
Definition shared : SinkShared := mkShared 0 (mkEndpoints [text "http://es-1"; text "http://es-2"] [0; 0] 0) false.
Abbreviation start shadowed := (validate_startup (H := cluster shadowed) NoAuth (fun _ => 7) config shared).

Lemma startup_confirms_witness :
  (start false).2 = Ok tt /\ (start false).1 = mkShared 8 (mkEndpoints [text "http://es-1"; text "http://es-2"] [17; 0] 0) true /\ is_ok (start true).2 = false /\
  Forall (fun ds => exists ep, ep ∈ ep_urls (sh_endpoints shared) /\ confirms (H := cluster false) NoAuth ep (trim_slashes ds)) (streams_of config).
Proof.
  split; [by vm_compute|]. split; [by vm_compute|]. split; [by vm_compute|].
  exact (proj1 (proj2 (proj1 (startup_confirms (H := cluster false) NoAuth (fun _ => 7) config shared (start false).1 (start false).2 eq_refl eq_refl (surjective_pairing _)) ltac:(by vm_compute)))).
Defined.

(** Three leases; the second fails while the third is in flight. *)
Definition process (l : nat) : LeaseTask := if (l =? 2)%nat then LeaseDone (Err (Internal "nack")) else LeaseDone (Ok tt).
Definition turns : list (EsTurn nat) := [LeaseReceived 1%nat; LeaseReceived 2%nat; TaskEnded 0; LeaseReceived 3%nat; TaskEnded 0; LeaseReceived 4%nat].

Lemma es_run_settles_witness :
  es_run process (Ok tt) turns [] = Some (Err (Internal "nack"), [1; 2; 3]%nat) /\
  exists consumed rest, turns = consumed ++ rest /\ Permutation [1; 2; 3]%nat (received consumed) /\
    ((exists l, l ∈ [1; 2; 3]%nat /\ lease_task_error (process l) = Some (Internal "nack")) \/ exists c, consumed = c ++ [BufferFailed (Internal "nack")]).
Proof. split; [by vm_compute|]. exact (es_run_settles process turns [] (Err (Internal "nack")) [1; 2; 3]%nat eq_refl). Defined.
End EsStartupDemo.
