(* ===== verification/EsAws.v ===== *)
(** The feature aws of the Elasticsearch client: crates/elasticsearch-sink/src/client.rs,
    the authentication of requests with AWS SigV4.

    The credential chain and the signer are the AWS SDK's ([AwsSdk]); the once
    cell of the client is its state.  Without the feature the authentication is
    [apply_auth_request] of EsStartup. *)

From S2P Require Import Prelude Text Signal Bulk ElasticsearchConfig ElasticsearchSink EsStartup.
Local Open Scope N_scope.

Inductive AwsAuthConfig : Type :=
| Plain (auth : ElasticsearchAuthConfig)
| AwsSigv4 (region service : string).

Definition default_aws_service : string := "es".

Record Credentials := mkCredentials { access_key_id : string; secret_access_key : string; session_token : option string }.

(** What the SDK is asked for: a chain for a region, the credentials of a provider at
    the [k]-th request, and the three steps of a signature with their errors. *)
Class AwsSdk (P : Type) := {
  default_chain : string -> P;
  provide_credentials : nat -> P -> result Credentials string;
  signing_params : nat -> Credentials -> string -> string -> result unit string;
  signable_request : string -> string -> bytes -> result unit string;
  sign : nat -> Credentials -> string -> string -> string -> string -> bytes -> result (list (string * string)) string;
}.

Section Aws.
Context {P : Type} `{AwsSdk P}.

Definition AuthenticationFailed (e : string) : ElasticsearchError := EsAuthenticationFailed e.

(** [apply_aws_sigv4]: the headers of the signature are added to the request. *)
Definition apply_aws_sigv4 (k : nat) (req : Request) (method url : string) (body : bytes) (region service : string) (creds : Credentials)
  : result Request ElasticsearchError :=
  let? _ := map_err (fun e => AuthenticationFailed ("failed to build SigV4 signing params: " +:+ e)) (signing_params k creds region service) in
  let? _ := map_err (fun e => AuthenticationFailed ("failed to create signable request: " +:+ e)) (signable_request method url body) in
  let? headers := map_err (fun e => AuthenticationFailed ("failed to sign SigV4 request: " +:+ e)) (sign k creds region service method url body) in
  Ok (mkRequest (rq_method req) (rq_url req) (rq_headers req ++ headers) (rq_authorization req) (rq_body req)).

(** [get_or_try_init]: the first use makes the chain. *)
Definition get_or_init (cell : option P) (region : string) : P := match cell with Some p => p | None => default_chain region end.

(** [apply_auth_request] with the feature on; the cell it leaves. *)
Definition apply_auth_request_aws (k : nat) (auth : AwsAuthConfig) (cell : option P) (req : Request) (method url : string) (body : bytes)
  : option P * result Request ElasticsearchError :=
  match auth with
  | Plain auth => (cell, Ok (apply_auth_request auth req))
  | AwsSigv4 region service =>
      let provider := get_or_init cell region in
      (Some provider,
       let? creds := map_err (fun e => AuthenticationFailed ("failed to resolve AWS credentials for SigV4: " +:+ e)) (provide_credentials k provider) in
       apply_aws_sigv4 k req method url body region service creds)
  end.

(** [apply_auth], for a GET of the first endpoint. *)
Definition apply_auth (k : nat) (auth : AwsAuthConfig) (cell : option P) (endpoints : list string) (req : Request)
  : option P * result Request ElasticsearchError :=
  let default_url := match endpoints with s :: _ => s | [] => "http://localhost:9200"%string end in
  apply_auth_request_aws k auth cell req "GET" default_url [].

(** [with_credentials_provider]: a fresh cell that is set. *)
Definition with_credentials_provider (provider : P) : option P := Some provider.

(** The requests of the client, each signed for its own method, URL and body. *)
Definition method_name (m : Method) : string := match m with GET => "GET" | POST => "POST" end.

Definition send_signed (k : nat) (auth : AwsAuthConfig) (cell : option P) (req : Request) : option P * result Request ElasticsearchError :=
  apply_auth_request_aws k auth cell req (method_name (rq_method req)) (rq_url req) (rq_body req).

(** [post_bulk_request]: the body is compressed before it is signed. *)
Definition post_bulk_request_aws (k : nat) (gzip : bytes -> Gzip) (auth : AwsAuthConfig) (cell : option P) (gzip_compression : bool)
    (endpoint data_stream payload : bytes) : option P * result Request ElasticsearchError :=
  match post_bulk_request gzip NoAuth gzip_compression endpoint data_stream payload with
  | Err e => (cell, Err e)
  | Ok req => send_signed k auth cell req
  end.

(** ** What is sent *)

(** The request that leaves is the one that was built, with the signature of its own
    method, URL and body: nothing changes after the signature. *)
Definition signed (k : nat) (region service : string) (creds : Credentials) (req sent : Request) : Prop :=
  exists headers, sign k creds region service (method_name (rq_method req)) (rq_url req) (rq_body req) = Ok headers /\
    sent = mkRequest (rq_method req) (rq_url req) (rq_headers req ++ headers) (rq_authorization req) (rq_body req).

(** Why a request is not signed. *)
Definition unsigned (k : nat) (region service : string) (p : P) (req : Request) (e : ElasticsearchError) : Prop :=
  exists m, e = EsAuthenticationFailed m /\
    (is_ok (provide_credentials k p) = false \/
     exists creds, provide_credentials k p = Ok creds /\
       (is_ok (signing_params k creds region service) = false \/
        is_ok (signable_request (method_name (rq_method req)) (rq_url req) (rq_body req)) = false \/
        is_ok (sign k creds region service (method_name (rq_method req)) (rq_url req) (rq_body req)) = false)).

Theorem sent_as_signed k auth cell req :
  match auth with
  | Plain a => send_signed k auth cell req = (cell, Ok (apply_auth_request a req))
  | AwsSigv4 region service =>
      let p := get_or_init cell region in
      (send_signed k auth cell req).1 = Some p /\
      match (send_signed k auth cell req).2 with
      | Ok sent => exists creds, provide_credentials k p = Ok creds /\ signed k region service creds req sent
      | Err e => unsigned k region service p req e
      end
  end.
Proof.
  destruct auth as [a|region service]; [done|]. intros p. split; [done|]. unfold send_signed, apply_auth_request_aws. fold p. cbn [snd].
  unfold unsigned, signed. destruct (provide_credentials k p) as [creds|e] eqn:Ep; cbn [map_err is_ok]; cycle 1.
  { eexists. split; [done | by left]. }
  unfold apply_aws_sigv4. destruct (signing_params k creds region service) as [u|e] eqn:E1; cbn [map_err]; cycle 1.
  { eexists. split; [done|]. right. exists creds. split; [done|]. left. by rewrite E1. }
  destruct (signable_request _ _ _) as [u'|e] eqn:E2; cbn [map_err]; cycle 1.
  { eexists. split; [done|]. right. exists creds. split; [done|]. right. by left. }
  destruct (sign _ _ _ _ _ _ _) as [headers|e] eqn:E3; cbn [map_err]; cycle 1.
  { eexists. split; [done|]. right. exists creds. split; [done|]. right. right. by rewrite E3. }
  exists creds. split; [done|]. by exists headers.
Qed.

(** The chain is made at most once, and never by a client that was given a provider. *)
Theorem one_provider k auth p req : (send_signed k auth (Some p) req).1 = Some p.
Proof. by destruct auth. Qed.

End Aws.
