(* ===== verification/Permits.v ===== *)
(** How the leases of the Elasticsearch sinks share the limit on concurrent
    requests: crates/elasticsearch-sink/src/lib.rs ([dispatch], [drain_join_set],
    the tasks [run] spawns).

    Every lease is a task that walks its chunks; for each it joins what has ended,
    waits for a permit and spawns a request that holds the permit until it ends.
    The three sinks of the binary hold one semaphore, so the tasks of all of them
    are in one list.  A run is a list of events: which task goes on, and which
    request ends, in any order. *)

From S2P Require Import Prelude Bulk Serializer ElasticsearchSink.

(** ** One lease's task *)

(** Where a task stands: at its next chunk, joining what has ended, at the test of the
    permits, waiting for a request of its own, waiting for a permit, draining, at
    the end. *)
Inductive At : Type := AtNext | AtTryJoin | AtCheck | AtJoin | AtAcquire | AtDrain | AtDone.

#[export] Instance At_eq_dec : EqDecision At.
Proof. solve_decision. Defined.

(** The chunks left (the one in work first), the requests that hold a permit, those
    that ended and were not joined, and what was joined. *)
Record LeaseTask := mkLeaseTask { lt_chunks : list BulkChunk; lt_running : list BulkChunk; lt_finished : list ChunkTask; lt_joined : Joined; lt_at : At }.

Definition new_task (chunks : list BulkChunk) : LeaseTask := mkLeaseTask chunks [] [] no_outcomes AtNext.

Definition moved (t : LeaseTask) (at_ : At) : LeaseTask := mkLeaseTask (lt_chunks t) (lt_running t) (lt_finished t) (lt_joined t) at_.

Definition join_set_empty (t : LeaseTask) : bool := match lt_running t, lt_finished t with [], [] => true | _, _ => false end.

(** One join, if a request has ended. *)
Definition join_one (pick : nat) (t : LeaseTask) : option LeaseTask :=
  match join_next pick (lt_finished t) with
  | Some (r, finished) => Some (mkLeaseTask (lt_chunks t) (lt_running t) finished (record_task_result r (lt_joined t)) (lt_at t))
  | None => None
  end.

(** The task's next step with the permits that are available; [None] where it waits. *)
Definition advance (pick permits : nat) (t : LeaseTask) : option (nat * LeaseTask) :=
  match lt_at t with
  | AtNext =>
      match lt_chunks t with
      | [] => Some (permits, moved t AtDrain)
      | chunk :: chunks =>
          if live chunk then Some (permits, moved t AtTryJoin)
          else Some (permits, mkLeaseTask chunks (lt_running t) (lt_finished t) (lt_joined t) AtNext)
      end
  | AtTryJoin => match join_one pick t with Some t => Some (permits, t) | None => Some (permits, moved t AtCheck) end
  | AtCheck => Some (permits, moved t (if (permits =? 0)%nat && negb (join_set_empty t) then AtJoin else AtAcquire))
  | AtJoin =>
      match join_one pick t with
      | Some t => Some (permits, moved t AtCheck)
      | None => if join_set_empty t then Some (permits, moved t AtCheck) else None
      end
  | AtAcquire =>
      match permits, lt_chunks t with
      | S permits, chunk :: chunks => Some (permits, mkLeaseTask chunks (lt_running t ++ [chunk]) (lt_finished t) (lt_joined t) AtNext)
      | _, _ => None
      end
  | AtDrain =>
      match join_one pick t with
      | Some t => Some (permits, t)
      | None => if join_set_empty t then Some (permits, moved t AtDone) else None
      end
  | AtDone => None
  end.

Section Tasks.
(** What a chunk's request ends with. *)
Variable run : BulkChunk -> ChunkTask.

(** The [k]-th request of the task ends. *)
Definition finish (k : nat) (t : LeaseTask) : option LeaseTask :=
  match lt_running t !! k with
  | Some chunk => Some (mkLeaseTask (lt_chunks t) (delete k (lt_running t)) (lt_finished t ++ [run chunk]) (lt_joined t) (lt_at t))
  | None => None
  end.

(** What a task that began with [chunks] keeps true. *)
Definition task_ok (chunks : list BulkChunk) (t : LeaseTask) : Prop :=
  (exists order, lt_joined t = record_all order no_outcomes /\
    (order ++ lt_finished t) ++ map run (lt_running t ++ List.filter live (lt_chunks t)) ≡ₚ map run (List.filter live chunks)) /\
  match lt_at t with
  | AtNext => True
  | AtTryJoin | AtCheck | AtAcquire => exists c cs, lt_chunks t = c :: cs /\ live c = true
  | AtJoin => (exists c cs, lt_chunks t = c :: cs /\ live c = true) /\ join_set_empty t = false
  | AtDrain => lt_chunks t = []
  | AtDone => lt_chunks t = [] /\ join_set_empty t = true
  end.

Definition at_weight (a : At) : nat :=
  match a with AtNext => 5 | AtTryJoin => 4 | AtCheck => 3 | AtJoin => 2 | AtAcquire => 1 | AtDrain => 1 | AtDone => 0 end.

(** The steps a task has before it, at most. *)
Definition weight (t : LeaseTask) : nat := 8 * length (lt_chunks t) + 3 * length (lt_running t) + 2 * length (lt_finished t) + at_weight (lt_at t).

Lemma new_task_ok chunks : task_ok chunks (new_task chunks).
Proof. split; [|done]. exists []. by split. Qed.

Lemma join_one_spec pick t : match join_one pick t with
  | Some t' => exists r finished, lt_finished t ≡ₚ r :: finished /\ t' = mkLeaseTask (lt_chunks t) (lt_running t) finished (record_task_result r (lt_joined t)) (lt_at t)
  | None => lt_finished t = []
  end.
Proof.
  unfold join_one. destruct (join_next pick (lt_finished t)) as [[r fin]|] eqn:E; [by exists r, fin; split; [apply join_next_Permutation in E|]|].
  unfold join_next in E. destruct (lt_finished t) as [|x l] eqn:El; [done|]. exfalso.
  destruct (lookup_lt_is_Some_2 (x :: l) (pick mod length (x :: l))%nat) as [y Hy]; [apply Nat.mod_upper_bound; done | by rewrite Hy in E].
Qed.

(** The join keeps the account: what has ended is joined. *)
Lemma joined_once order r fin (rest all : list ChunkTask) finished : finished ≡ₚ r :: fin -> (order ++ finished) ++ rest ≡ₚ all ->
  ((order ++ [r]) ++ fin) ++ rest ≡ₚ all.
Proof. intros Hf Hp. by rewrite <- Hp, Hf, <- (app_assoc order [r] fin). Qed.

Lemma record_last order r : record_task_result r (record_all order no_outcomes) = record_all (order ++ [r]) no_outcomes.
Proof. by rewrite record_all_app. Qed.
(** A step that joins nothing, and one that joins the request [r]. *)
Ltac kept order := split_and!; [split; [by exists order | done] | unfold weight; cbn; lia | done].
Ltac joins order Hj Hone :=
  let r := fresh "r" in let fin := fresh "fin" in let Hf := fresh "Hf" in let Hl := fresh "Hl" in
  destruct Hone as (r & fin & Hf & ->); cbn; pose proof (Permutation_length Hf) as Hl; cbn in Hl;
  split_and!; [|unfold weight; cbn; lia | done]; split; [|done]; exists (order ++ [r]); rewrite Hj, record_last; split; [done | by eapply joined_once].

(** A step keeps what the task keeps, shortens what is before it, and takes or
    leaves permits as it says. *)
Lemma task_advance_ok chunks pick permits t permits' t' : task_ok chunks t -> advance pick permits t = Some (permits', t') ->
  task_ok chunks t' /\ weight t' < weight t /\ permits' + length (lt_running t') = permits + length (lt_running t).
Proof.
  intros [(order & Hj & Hp) Hat] Hadv. unfold advance in Hadv. pose proof (join_one_spec pick t) as Hone.
  destruct t as [cs rn fin j at_]. cbn in Hj, Hp, Hat, Hone, Hadv. destruct at_; cbn in Hat, Hadv.
  - destruct cs as [|c cs]; [injection Hadv as <- <-; kept order|]. destruct (live c) eqn:El; injection Hadv as <- <-; cbn in Hp; rewrite El in Hp.
    + split_and!; [split; [exists order; cbn; by rewrite El | by exists c, cs] | unfold weight; cbn; lia | done].
    + kept order.
  - destruct (join_one pick _) as [t1|]; injection Hadv as <- <-; [joins order Hj Hone | kept order].
  - injection Hadv as <- <-. destruct (permits =? 0); cbn [andb]; [destruct (join_set_empty _) eqn:Ee|]; kept order.
  - destruct Hat as [Hc He]. destruct (join_one pick _) as [t1|]; [injection Hadv as <- <-; joins order Hj Hone | by rewrite He in Hadv].
  - destruct permits as [|permits]; [done|]. destruct Hat as (c & cs' & -> & El). injection Hadv as <- <-. cbn in Hp. rewrite El in Hp.
    split_and!; [split; [|done] | unfold weight; cbn; rewrite length_app; cbn; lia | cbn; rewrite length_app; cbn; lia].
    exists order. split; [done|]. cbn. by rewrite <- (app_assoc rn).
  - destruct (join_one pick _) as [t1|]; [injection Hadv as <- <-; joins order Hj Hone|].
    destruct (join_set_empty _) eqn:Ee; [|done]. injection Hadv as <- <-. kept order.
  - done.
Qed.

Lemma task_finish_ok chunks k t t' : task_ok chunks t -> finish k t = Some t' ->
  task_ok chunks t' /\ weight t' < weight t /\ length (lt_running t) = S (length (lt_running t')).
Proof.
  intros [(order & Hj & Hp) Hat] Hf. unfold finish in Hf. destruct (lt_running t !! k) as [c|] eqn:Ek; [|done]. injection Hf as <-.
  pose proof (delete_Permutation _ _ _ Ek) as Hd. apply Permutation_length in Hd as Hl. cbn [length] in Hl.
  split_and!; [split | unfold weight; cbn; rewrite length_app; cbn; lia | done].
  - exists order. split; [done|]. cbn. rewrite <- Hp, !map_app, (Permutation_map run Hd). cbn. by solve_Permutation.
  - destruct t as [cs rn fin j []]; cbn in *; try done.
    + split; [apply Hat|]. unfold join_set_empty. cbn. destruct (delete k rn), fin; done.
    + destruct Hat as [_ He]. unfold join_set_empty in He. cbn in He. by destruct rn.
Qed.

(** A task that waits has a request that holds a permit, or waits for one that
    nobody has, or is at its end. *)
Lemma stuck_why chunks pick permits t : task_ok chunks t -> advance pick permits t = None ->
  lt_at t = AtDone \/ lt_running t <> [] \/ (lt_at t = AtAcquire /\ permits = 0).
Proof.
  intros [_ Hat] Hadv. unfold advance in Hadv. pose proof (join_one_spec pick t) as Hone. destruct t as [cs rn fin j at_]; cbn in *. destruct at_; cbn in *.
  - destruct cs as [|c cs]; [done|]. by destruct (live c).
  - by destruct (join_one pick _).
  - done.
  - destruct (join_one pick _); [done|]. subst fin. destruct rn; [done|]. by right; left.
  - destruct permits as [|permits]; [by right; right|]. by destruct Hat as (c & cs' & -> & _).
  - destruct (join_one pick _); [done|]. subst fin. destruct rn; [done|]. by right; left.
  - by left.
Qed.
End Tasks.

(** ** The tasks of all the sinks *)

Record System := mkSystem { sy_permits : nat; sy_tasks : list LeaseTask }.

(** The task [i] goes on (joining, if it joins, what [pick] says), or its [k]-th
    request ends and leaves its permit. *)
Inductive Event : Type := Advance (i pick : nat) | Finish (i k : nat).

Definition opened (permits : nat) (leases : list (list BulkChunk)) : System := mkSystem permits (map new_task leases).

Definition in_flight (s : System) : nat := sum_list_with (fun t => length (lt_running t)) (sy_tasks s).
Definition all_done (s : System) : Prop := Forall (fun t => lt_at t = AtDone) (sy_tasks s).
Definition before (s : System) : nat := sum_list_with weight (sy_tasks s).

Section Permits.
(** What the requests of a lease's chunks end with. *)
Variable run : nat -> BulkChunk -> ChunkTask.

Definition system_step (ev : Event) (s : System) : option System :=
  match ev with
  | Advance i pick =>
      match sy_tasks s !! i with
      | Some t => match advance pick (sy_permits s) t with Some (permits, t) => Some (mkSystem permits (<[i := t]> (sy_tasks s))) | None => None end
      | None => None
      end
  | Finish i k =>
      match sy_tasks s !! i with
      | Some t => match finish (run i) k t with Some t => Some (mkSystem (S (sy_permits s)) (<[i := t]> (sy_tasks s))) | None => None end
      | None => None
      end
  end.

Fixpoint system_run (evs : list Event) (s : System) : option System :=
  match evs with [] => Some s | ev :: evs => match system_step ev s with Some s => system_run evs s | None => None end end.

Record system_ok (permits : nat) (leases : list (list BulkChunk)) (s : System) : Prop := {
  so_length : length (sy_tasks s) = length leases;
  so_tasks : forall i t, sy_tasks s !! i = Some t -> exists chunks, leases !! i = Some chunks /\ task_ok (run i) chunks t;
  so_permits : sy_permits s + in_flight s = permits }.

Lemma sum_list_insert {A} (f : A -> nat) (l : list A) i x y : l !! i = Some x -> sum_list_with f (<[i := y]> l) + f x = sum_list_with f l + f y.
Proof.
  intros Hi. rewrite insert_take_drop by (by eapply lookup_lt_Some). rewrite <- (take_drop_middle l i x Hi) at 3. rewrite !sum_list_with_app. cbn. lia.
Qed.

Lemma opened_ok permits leases : system_ok permits leases (opened permits leases).
Proof.
  split; cbn; [by rewrite length_map| |].
  - intros i t Hi. change (map new_task leases) with (new_task <$> leases) in Hi. rewrite list_lookup_fmap in Hi.
    destruct (leases !! i) as [chunks|]; [|done]. injection Hi as <-. exists chunks. split; [done | apply new_task_ok].
  - unfold in_flight. cbn. induction leases as [|c leases IH]; cbn; lia.
Qed.

(** A task replaced by what it became. *)
Lemma replaced_ok permits leases s i t chunks t' permits' : system_ok permits leases s -> sy_tasks s !! i = Some t -> leases !! i = Some chunks ->
  task_ok (run i) chunks t' -> weight t' < weight t -> permits' + length (lt_running t') = sy_permits s + length (lt_running t) ->
  system_ok permits leases (mkSystem permits' (<[i := t']> (sy_tasks s))) /\ before (mkSystem permits' (<[i := t']> (sy_tasks s))) < before s.
Proof.
  intros [Hl Ht Hp] Hi Hc Hok Hw Hr. split; [split; cbn|].
  - by rewrite length_insert.
  - intros j u Hj. destruct (decide (j = i)) as [->|Hne]; [|rewrite list_lookup_insert_ne in Hj by done; by apply Ht].
    rewrite list_lookup_insert_eq in Hj by (by eapply lookup_lt_Some). injection Hj as <-. by exists chunks.
  - pose proof (sum_list_insert (fun t => length (lt_running t)) _ i t t' Hi). unfold in_flight in *. cbn. lia.
  - pose proof (sum_list_insert weight _ i t t' Hi). unfold before in *. cbn. lia.
Qed.

Lemma system_step_ok permits leases ev s s' : system_ok permits leases s -> system_step ev s = Some s' -> system_ok permits leases s' /\ before s' < before s.
Proof.
  intros Hok Hs. destruct ev as [i pick|i k]; cbn in Hs; destruct (sy_tasks s !! i) as [t|] eqn:Hi; try done; destruct (so_tasks _ _ _ Hok i t Hi) as (chunks & Hc & Ht).
  - destruct (advance pick _ t) as [[p t']|] eqn:Ha; [|done]. injection Hs as <-. destruct (task_advance_ok _ _ _ _ _ _ _ Ht Ha) as (Ht' & Hw & Hp). by eapply replaced_ok.
  - destruct (finish _ k t) as [t'|] eqn:Hf; [|done]. injection Hs as <-. destruct (task_finish_ok _ _ _ _ _ Ht Hf) as (Ht' & Hw & Hp). eapply replaced_ok; try done. lia.
Qed.

Lemma system_run_ok permits leases evs s s' : system_ok permits leases s -> system_run evs s = Some s' -> system_ok permits leases s' /\ length evs + before s' <= before s.
Proof.
  revert s. induction evs as [|ev evs IH]; intros s Hok Hs; cbn in Hs; [injection Hs as <-; split; [done | cbn; lia]|].
  destruct (system_step ev s) as [s1|] eqn:E; [|done]. destruct (system_step_ok _ _ _ _ _ Hok E) as [Hok1 Hb]. destruct (IH s1 Hok1 Hs) as [Hok' Hb']. split; [done | cbn; lia].
Qed.

Lemma none_running s : Forall (fun t => lt_running t = []) (sy_tasks s) -> in_flight s = 0.
Proof. unfold in_flight. induction 1 as [|t ts Ht _ IH]; cbn; [done | by rewrite Ht, IH]. Qed.

(** With a permit at all, something can always go on until all tasks are done. *)
Lemma no_deadlock permits leases s : 0 < permits -> system_ok permits leases s -> all_done s \/ exists ev, is_Some (system_step ev s).
Proof.
  intros Hpos Hok. destruct (decide (Exists (fun t => lt_running t <> []) (sy_tasks s))) as [Hr|Hr].
  - right. apply Exists_exists in Hr as (t & Hin & Hr). apply list_elem_of_lookup in Hin as [i Hi]. exists (Finish i 0). cbn. rewrite Hi. unfold finish.
    destruct (lt_running t); [done | by eexists].
  - assert (Hfree : sy_permits s = permits).
    { pose proof (so_permits _ _ _ Hok) as Hp. rewrite none_running in Hp; [lia|]. apply not_Exists_Forall in Hr; [|apply _].
      eapply Forall_impl; [exact Hr|]. intros t Ht. cbn in Ht. destruct (lt_running t); [done | by destruct Ht]. }
    destruct (decide (all_done s)) as [Hd|Hd]; [by left|]. right. unfold all_done in Hd. apply not_Forall_Exists in Hd; [|intros ?; apply _]. apply Exists_exists in Hd as (t & Hin & Hd).
    apply list_elem_of_lookup in Hin as [i Hi]. exists (Advance i 0). cbn. rewrite Hi. destruct (so_tasks _ _ _ Hok i t Hi) as (chunks & _ & Ht).
    destruct (advance 0 (sy_permits s) t) as [[p t']|] eqn:Ha; [by eexists|]. exfalso. destruct (stuck_why _ _ _ _ _ Ht Ha) as [?|[Hrn|[_ H0]]]; [done | | lia].
    apply Hr, Exists_exists. exists t. split; [by apply list_elem_of_lookup; exists i | done].
Qed.

Lemma done_joined permits leases s i t : system_ok permits leases s -> all_done s -> sy_tasks s !! i = Some t -> exists chunks order,
  leases !! i = Some chunks /\ order ≡ₚ map (run i) (List.filter live chunks) /\ lt_joined t = record_all order no_outcomes.
Proof.
  intros Hok Hd Hi. destruct (so_tasks _ _ _ Hok i t Hi) as (chunks & Hc & [(order & Hj & Hp) Hat]). exists chunks, order.
  rewrite (proj1 (Forall_lookup _ _) Hd i t Hi) in Hat. destruct Hat as [Hcs He]. unfold join_set_empty in He. rewrite Hcs in Hp.
  destruct (lt_running t), (lt_finished t); try done. by rewrite !app_nil_r in Hp.
Qed.
End Permits.

(** ** What the leases get *)

(** Tasks that ended can be joined in any order. *)
Lemma drain_any order : forall js j, order ≡ₚ js -> exists picks, drain_join_set (length js) picks js j = record_all order j.
Proof.
  induction order as [|t order IH]; intros js j Hp; [apply Permutation_nil in Hp as ->; by exists []|].
  destruct (list_elem_of_lookup_1 js t) as [i Hi]; [rewrite <- Hp; apply list_elem_of_here|]. pose proof (delete_Permutation _ _ _ Hi) as Hd.
  assert (Hl : length js = S (length (delete i js))) by (by apply Permutation_length in Hd). assert (Hp' : order ≡ₚ delete i js) by (by rewrite Hd in Hp; apply (inj (cons t)) in Hp).
  destruct (IH (delete i js) (record_task_result t j) Hp') as [picks Hpicks]. exists (i :: picks). rewrite Hl. cbn [drain_join_set]. unfold join_next. cbn [hd tl].
  rewrite Nat.mod_small by (by eapply lookup_lt_Some). rewrite Hi. cbn [record_all foldl]. done.
Qed.

Section Leases.
(** Each lease's sink: the answers to its requests, its clock and endpoints, and the
    tasks that panic. *)
Variables (max_retries : N) (post : nat -> nat -> nat -> bytes -> bytes -> HttpReply) (clock : nat -> nat -> nat -> N) (endpoints : nat -> nat -> Endpoints) (panics : nat -> nat -> option string).

Definition lease_run (i : nat) : BulkChunk -> ChunkTask := run_chunk max_retries (post i) (clock i) (endpoints i) (panics i).

Lemma dispatched_in_order i chunks : forall js j,
  dispatch_all max_retries (post i) (clock i) (endpoints i) (panics i) [] chunks (js, j) = (js ++ map (lease_run i) (List.filter live chunks), j).
Proof.
  induction chunks as [|c chunks IH]; intros js j; cbn [dispatch_all tl hd List.filter map]; [by rewrite app_nil_r|]. unfold dispatch, live at 1. destruct (_ || _); cbn [negb].
  - apply IH.
  - cbn [join_some fst snd]. rewrite IH. cbn [map]. by rewrite <- app_assoc.
Qed.

(** Whatever order the requests of a lease were joined in, it is one that [send_chunks]
    can be run with. *)
Lemma joined_as_sent i chunks order : order ≡ₚ map (lease_run i) (List.filter live chunks) ->
  exists schedule picks, record_all order no_outcomes = send_chunks max_retries (post i) (clock i) (endpoints i) (panics i) schedule picks chunks.
Proof.
  intros Hp. destruct (drain_any order _ no_outcomes Hp) as [picks Hd]. exists [], picks. unfold send_chunks. rewrite dispatched_in_order. cbn [app]. by rewrite Hd.
Qed.

(** C13 (requests_share_limit). However the tasks of all leases of all three signals go on and their
    requests end, the requests in flight and the free permits are the configured
    limit together; with a limit of at least one, some task or request can go on
    until every task is done, and no run has more steps than eight to a chunk and
    five to a lease.  Then every permit is back, and each lease has what it would
    have had alone, its requests ending in some order. *)
Theorem requests_share_limit permits leases evs s : 0 < permits -> system_run lease_run evs (opened permits leases) = Some s ->
  sy_permits s + in_flight s = permits /\
  length evs <= sum_list_with (fun chunks => 8 * length chunks + 5) leases /\
  (all_done s \/ exists ev, is_Some (system_step lease_run ev s)) /\
  (all_done s -> sy_permits s = permits /\ forall i t, sy_tasks s !! i = Some t -> exists chunks schedule picks, leases !! i = Some chunks /\
     lt_joined t = send_chunks max_retries (post i) (clock i) (endpoints i) (panics i) schedule picks chunks).
Proof.
  intros Hpos Hrun. destruct (system_run_ok _ _ _ _ _ _ (opened_ok _ permits leases) Hrun) as [Hok Hlen]. split_and!.
  - apply (so_permits _ _ _ _ Hok).
  - enough (before (opened permits leases) = sum_list_with (fun chunks => 8 * length chunks + 5) leases) by lia.
    unfold before, opened. cbn [sy_tasks]. clear. induction leases as [|c leases IH]; [done|]. cbn [map sum_list_with]. rewrite IH. unfold weight. cbn. lia.
  - by eapply no_deadlock.
  - intros Hd. split.
    + pose proof (so_permits _ _ _ _ Hok) as Hp. rewrite none_running in Hp; [lia|]. apply Forall_lookup. intros i t Hi.
      destruct (so_tasks _ _ _ _ Hok i t Hi) as (chunks & _ & [_ Hat]). rewrite (proj1 (Forall_lookup _ _) Hd i t Hi) in Hat. destruct Hat as [_ He].
      unfold join_set_empty in He. by destruct (lt_running t).
    + intros i t Hi. destruct (done_joined _ _ _ _ _ _ Hok Hd Hi) as (chunks & order & Hc & Hperm & Hj). destruct (joined_as_sent i chunks order Hperm) as (schedule & picks & He).
      exists chunks, schedule, picks. by rewrite Hj.
Qed.
End Leases.

Module PermitsDemo.
Import ElasticsearchSinkDemo.

Definition request : bytes := [123; 125; 10; 123; 125; 10]%N.
Definition chunk (start : nat) : BulkChunk := mkChunk start 1 request.
Definition leases : list (list BulkChunk) := [[chunk 0; mkChunk 1 0 []; chunk 1]; [chunk 0]].
Abbreviation demo_run := (lease_run 3 (fun _ => post) (fun _ _ n => N.of_nat n) (fun _ _ => BulkDemo.endpoints) (fun i k => if (i =? 1)%nat then Some "lost"%string else None)).

(** Tasks go on while they can; only then does a request end. *)
Definition candidates : list Event := [Advance 0 0; Advance 1 0; Finish 0 0; Finish 1 0].
Fixpoint greedy (fuel : nat) (s : System) : list Event :=
  match fuel with
  | O => []
  | S fuel =>
      match List.find (fun ev => bool_decide (is_Some (system_step demo_run ev s))) candidates with
      | Some ev => match system_step demo_run ev s with Some s => ev :: greedy fuel s | None => [] end
      | None => []
      end
  end.

(** One permit for two leases: after twelve steps the first waits for a request of its
    own, the second for the permit; at the end each has its answers. *)
Example one_permit :
  (exists s, system_run demo_run (take 11 (greedy 100 (opened 1 leases))) (opened 1 leases) = Some s /\ sy_permits s = 0 /\ map lt_at (sy_tasks s) = [AtJoin; AtAcquire]) /\
  (exists s, system_run demo_run (greedy 100 (opened 1 leases)) (opened 1 leases) = Some s /\ map lt_at (sy_tasks s) = [AtDone; AtDone] /\
     map (fun t => (length (jd_outcomes (lt_joined t)), bool_decide (jd_join_err (lt_joined t) = None))) (sy_tasks s) = [(2, true); (0, false)]).
Proof. by split; eexists; vm_compute. Qed.

Lemma requests_share_limit_witness : exists s,
  system_run demo_run (greedy 100 (opened 1 leases)) (opened 1 leases) = Some s /\ sy_permits s = 1 /\
  forall i t, sy_tasks s !! i = Some t -> exists chunks schedule picks, leases !! i = Some chunks /\
    lt_joined t = send_chunks 3 post (fun _ n => N.of_nat n) (fun _ => BulkDemo.endpoints) (fun k => if (i =? 1)%nat then Some "lost"%string else None) schedule picks chunks.
Proof.
  destruct (system_run demo_run (greedy 100 (opened 1 leases)) (opened 1 leases)) as [s|] eqn:E; [|by vm_compute in E]. exists s. split; [done|].
  assert (Hd : all_done s) by (vm_compute in E; injection E as <-; repeat constructor).
  pose proof (requests_share_limit 3 (fun _ => post) (fun _ _ n => N.of_nat n) (fun _ _ => BulkDemo.endpoints) (fun i k => if (i =? 1)%nat then Some "lost"%string else None)
    1 leases _ s ltac:(lia) E) as (_ & _ & _ & H). apply (H Hd).
Defined.
End PermitsDemo.
