(* ===== verification/Assembly.v ===== *)
(** How the binary makes its sinks: src/main.rs, the part that spawns the sinks,
    and the constructors it calls (starrocks-sink and elasticsearch-sink: lib.rs,
    client.rs; parquet-sink: sink.rs, partition.rs; storage: iceberg.rs).

    What three signals share is an [Arc]: a cell of a heap, by its number, so that
    sharing is equality of numbers.  The clients of Kafka, StarRocks, HTTP and the
    object store are third-party and are parameters. *)

From S2P Require Import ElasticsearchConfig StarRocksConfig ParquetConfig IcebergSink Prelude Text Pipeline Arrow Signal BufferConfig ParquetError Bulk ElasticsearchSink EsStartup StarRocks Kafka CoreConfig Guard Engine Worker Dispatcher Transformer Service.
Local Open Scope N_scope.

(** ** StarRocks *)

(** What the SDK's builders are given. *)
Record StreamLoadConfig := mkStreamLoadConfig {
  sl_frontend_urls : list bytes; sl_database : bytes; sl_username : bytes; sl_password : bytes; sl_connect_timeout : N; sl_request_timeout : N;
  sl_max_retries : N; sl_retry_interval : N; sl_enable_transaction : bool }.

Inductive DataFormat : Type := ARROW | JSON | CSV.

Record StreamLoadTableProperties := mkTableProperties { tp_table : list N; tp_format : DataFormat }.

Section StarRocks.
Context {Manager : Type} (manager_new : StreamLoadConfig -> StreamLoadTableProperties -> result Manager string).

Definition build_manager (c : StarRocksConfig.StarRocksSinkConfig) (table : list N) : result Manager PipelineError :=
  let sdk_config := mkStreamLoadConfig (frontend_urls c) (database c) (username c) (default [] (password c)) (StarRocksConfig.connect_timeout_secs c) (StarRocksConfig.request_timeout_secs c)
    (StarRocksConfig.max_retries c) (StarRocksConfig.retry_interval_secs c) (match transaction_mode c with StarRocks.V2 => true | StarRocks.V1 => false end) in
  let sdk_format := match StarRocksConfig.format c with SrIpc => ARROW | SrJson => JSON | SrCsv => CSV end in
  map_err (fun e => Internal ("Failed to initialise StarRocks manager: " +:+ e)) (manager_new sdk_config (mkTableProperties table sdk_format)).

Record StarRocksSink := mkStarRocksSink { ss_config : StarRocksConfig.StarRocksSinkConfig; ss_logs_manager : Manager; ss_metrics_manager : Manager; ss_traces_manager : Manager; ss_sorter : BatchSorter }.

Definition order_sorter (order_by : option SortConfig) : result BatchSorter PipelineError :=
  match order_by with Some sort_cfg => from_config sort_cfg | None => Ok default_sorter end.

Definition with_manager (is_file : string -> bool) (c : StarRocksConfig.StarRocksSinkConfig) (manager : Manager) : result StarRocksSink PipelineError :=
  let? _ := StarRocksConfig.validate is_file c in
  let? sorter := order_sorter (StarRocksConfig.order_by c) in
  Ok (mkStarRocksSink c manager manager manager sorter).

Definition manager_for (s : StarRocksSink) (signal : SignalType) : Manager :=
  match signal with Metrics => ss_metrics_manager s | Traces => ss_traces_manager s | Logs => ss_logs_manager s end.

Definition starrocks_try_new (is_file : string -> bool) (c : StarRocksConfig.StarRocksSinkConfig) : result StarRocksSink PipelineError :=
  let? _ := StarRocksConfig.validate is_file c in
  let? sorter := order_sorter (StarRocksConfig.order_by c) in
  match table_mapping c with
  | Unified table _ => let? mgr := build_manager c table in Ok (mkStarRocksSink c mgr mgr mgr sorter)
  | PerSignal logs metrics traces =>
      let? logs_mgr := build_manager c logs in
      let? metrics_mgr := build_manager c metrics in
      let? traces_mgr := build_manager c traces in
      Ok (mkStarRocksSink c logs_mgr metrics_mgr traces_mgr sorter)
  end.

(** The sinks of the three signals: the traces' and the metrics' have the managers of the
    first one. *)
Definition starrocks_sinks (is_file : string -> bool) (c : StarRocksConfig.StarRocksSinkConfig) : result (Signal.PerSignal StarRocksSink) PipelineError :=
  let? primary_sink := starrocks_try_new is_file c in
  let traces_manager := manager_for primary_sink Traces in
  let metrics_manager := manager_for primary_sink Metrics in
  let? traces_sink := with_manager is_file c traces_manager in
  let? metrics_sink := with_manager is_file c metrics_manager in
  Ok (mkPerSignal primary_sink metrics_sink traces_sink).

(** Every signal's sink loads into that signal's table. *)
Lemma starrocks_sinks_spec is_file c : StarRocksConfig.validate is_file c = Ok tt ->
  match starrocks_sinks is_file c with
  | Ok sinks => forall s, ss_config (sget sinks s) = c /\ order_sorter (StarRocksConfig.order_by c) = Ok (ss_sorter (sget sinks s)) /\
      build_manager c (table_for (table_mapping c) s) = Ok (manager_for (sget sinks s) s)
  | Err e => exists s, build_manager c (table_for (table_mapping c) s) = Err e
  end.
Proof.
  intros Hv. unfold starrocks_sinks, starrocks_try_new, with_manager. rewrite Hv.
  assert (Hs : exists sorter, order_sorter (StarRocksConfig.order_by c) = Ok sorter).
  { unfold StarRocksConfig.validate in Hv. destruct (tls_validate _ _) as [[]|]; [|done]. case_bool_decide; [done|]. destruct (blank (username c)), (blank (database c)); try done.
    destruct (validate_mapping _) as [[]|]; [|done]. unfold order_sorter. destruct (StarRocksConfig.order_by c) as [o|]; [|by eexists]. destruct (from_config o); [by eexists | done]. }
  destruct Hs as [sorter ->]. cbv beta iota. destruct (table_mapping c) as [logs metrics traces|table column] eqn:Em; cbn [table_for].
  - destruct (build_manager c logs) as [lm|e] eqn:El; [|by exists Logs]. destruct (build_manager c metrics) as [mm|e] eqn:Emm; [|by exists Metrics].
    destruct (build_manager c traces) as [tm|e] eqn:Et; [|by exists Traces]. by intros [].
  - destruct (build_manager c table) as [m|e] eqn:E; [|by exists Logs]. by intros [].
Qed.
End StarRocks.

(** ** Shared cells *)

Definition Loc : Type := N.

(** An HTTP client of the Elasticsearch sink. *)
Record HttpClient (C : Type) := mkHttpClient { hc_client : C; hc_endpoints : Endpoints; hc_auth : ElasticsearchAuthConfig; hc_gzip_compression : bool; hc_max_retries : N; hc_retry_interval_secs : N }.
Arguments mkHttpClient {C} _ _ _ _ _ _.
Arguments hc_client {C} _.
Arguments hc_endpoints {C} _.
Arguments hc_auth {C} _.
Arguments hc_gzip_compression {C} _.
Arguments hc_max_retries {C} _.
Arguments hc_retry_interval_secs {C} _.

(** The cells: clients, flags, semaphores with their permits, and counters of memory; and
    how many requests the cluster was sent. *)
Record Heap (C : Type) := mkHeap { hp_next : Loc; hp_clients : gmap Loc (HttpClient C); hp_flags : gmap Loc bool; hp_semaphores : gmap Loc N; hp_counters : gmap Loc N; hp_requests : nat }.
Arguments mkHeap {C} _ _ _ _ _ _.
Arguments hp_next {C} _.
Arguments hp_clients {C} _.
Arguments hp_flags {C} _.
Arguments hp_semaphores {C} _.
Arguments hp_counters {C} _.
Arguments hp_requests {C} _.

Section Heap.
Context {C : Type}.

Definition empty_heap : Heap C := mkHeap 0 ∅ ∅ ∅ ∅ 0.

Definition new_client (c : HttpClient C) (h : Heap C) : Loc * Heap C :=
  (hp_next h, mkHeap (hp_next h + 1) (<[hp_next h := c]> (hp_clients h)) (hp_flags h) (hp_semaphores h) (hp_counters h) (hp_requests h)).
Definition new_flag (b : bool) (h : Heap C) : Loc * Heap C :=
  (hp_next h, mkHeap (hp_next h + 1) (hp_clients h) (<[hp_next h := b]> (hp_flags h)) (hp_semaphores h) (hp_counters h) (hp_requests h)).
Definition new_semaphore (permits : N) (h : Heap C) : Loc * Heap C :=
  (hp_next h, mkHeap (hp_next h + 1) (hp_clients h) (hp_flags h) (<[hp_next h := permits]> (hp_semaphores h)) (hp_counters h) (hp_requests h)).
Definition new_counter (n : N) (h : Heap C) : Loc * Heap C :=
  (hp_next h, mkHeap (hp_next h + 1) (hp_clients h) (hp_flags h) (hp_semaphores h) (<[hp_next h := n]> (hp_counters h)) (hp_requests h)).
End Heap.

(** ** Elasticsearch *)

(** Files, certificates and the client of reqwest. *)
Class HttpStack (C : Type) := {
  read_ca : string -> result bytes string;
  Certificate : Type;
  from_pem : bytes -> result Certificate string;
  build_client : N -> N -> option Certificate -> result C string }.

Section Elasticsearch.
Context {C : Type} `{HttpStack C} `{Cluster}.
Variables (url_parses : bytes -> bool) (is_file : string -> bool) (clock : nat -> N).

Definition root_certificate (path : option string) : result (option Certificate) ElasticsearchError :=
  match path with
  | Some ca_path =>
      let? pem_bytes := map_err (fun e => EsStartupValidation ("failed to read CA certificate from '" +:+ ca_path +:+ "': " +:+ e)) (read_ca ca_path) in
      let? cert := map_err EsHttp (from_pem pem_bytes) in
      Ok (Some cert)
  | None => Ok None
  end.

(** [HttpClient::try_new]. *)
Definition http_try_new (c : ElasticsearchConfig.ElasticsearchSinkConfig) : result (HttpClient C) ElasticsearchError :=
  let? endpoints := try_new_endpoints (ElasticsearchConfig.endpoints c) (is_insecure (ElasticsearchConfig.tls c)) in
  let? cert := root_certificate (tls_ca_cert_path (ElasticsearchConfig.tls c)) in
  let? client := map_err EsHttp (build_client (ElasticsearchConfig.connect_timeout_secs c) (ElasticsearchConfig.request_timeout_secs c) cert) in
  Ok (mkHttpClient client endpoints (auth c) (gzip_compression c) (ElasticsearchConfig.max_retries c) (ElasticsearchConfig.retry_interval_secs c)).

Record EsSink := mkEsSink { es_config : ElasticsearchConfig.ElasticsearchSinkConfig; es_client : Loc; es_sorter : BatchSorter; es_semaphore : Loc; es_validated : Loc }.

Definition es_try_new (c : ElasticsearchConfig.ElasticsearchSinkConfig) (h : Heap C) : result (EsSink * Heap C) PipelineError :=
  let? _ := map_err (fun e => Internal (es_to_string e)) (ElasticsearchConfig.validate url_parses is_file c) in
  let? client := map_err es_pipeline_error (http_try_new c) in
  let? sorter := order_sorter (ElasticsearchConfig.order_by c) in
  let '(semaphore, h) := new_semaphore (max_concurrent_requests c) h in
  let '(client, h) := new_client client h in
  let '(validated, h) := new_flag false h in
  Ok (mkEsSink c client sorter semaphore validated, h).

Definition share_state_from (s other : EsSink) : EsSink := mkEsSink (es_config s) (es_client other) (es_sorter s) (es_semaphore other) (es_validated other).

(** [validate_startup], on the cells of the sink. *)
Definition sink_validate_startup (s : EsSink) (h : Heap C) : Heap C * result unit PipelineError :=
  match hp_clients h !! es_client s, hp_flags h !! es_validated s with
  | Some client, Some validated =>
      let '(sh, r) := EsStartup.validate_startup (hc_auth client) clock (es_config s) (mkShared (hp_requests h) (hc_endpoints client) validated) in
      let client := mkHttpClient (hc_client client) (sh_endpoints sh) (hc_auth client) (hc_gzip_compression client) (hc_max_retries client) (hc_retry_interval_secs client) in
      (mkHeap (hp_next h) (<[es_client s := client]> (hp_clients h)) (<[es_validated s := sh_validated sh]> (hp_flags h)) (hp_semaphores h) (hp_counters h) (sh_requests sh), r)
  | _, _ => (h, Ok tt)
  end.

Definition elasticsearch_sinks (c : ElasticsearchConfig.ElasticsearchSinkConfig) (h : Heap C) : result (Signal.PerSignal EsSink * Heap C) string :=
  let? logs := map_err pipeline_to_string (es_try_new c h) in
  let? traces := map_err pipeline_to_string (es_try_new c logs.2) in
  let? metrics := map_err pipeline_to_string (es_try_new c traces.2) in
  let '(h, started) := sink_validate_startup logs.1 metrics.2 in
  let? _ := map_err (fun e => "Elasticsearch startup validation failed: " +:+ pipeline_to_string e) started in
  Ok (mkPerSignal logs.1 (share_state_from metrics.1 logs.1) (share_state_from traces.1 logs.1), h).

Lemma es_try_new_spec c h : ElasticsearchConfig.validate url_parses is_file c = Ok tt ->
  match es_try_new c h with
  | Ok (s, h') => exists client sorter, http_try_new c = Ok client /\ order_sorter (ElasticsearchConfig.order_by c) = Ok sorter /\
      s = mkEsSink c (hp_next h + 1) sorter (hp_next h) (hp_next h + 2) /\
      h' = mkHeap (hp_next h + 3) (<[hp_next h + 1 := client]> (hp_clients h)) (<[hp_next h + 2 := false]> (hp_flags h)) (<[hp_next h := max_concurrent_requests c]> (hp_semaphores h)) (hp_counters h) (hp_requests h)
  | Err e => (exists e', http_try_new c = Err e' /\ e = es_pipeline_error e') \/ order_sorter (ElasticsearchConfig.order_by c) = Err e
  end.
Proof.
  intros Hv. unfold es_try_new. rewrite Hv. cbn [map_err]. destruct (http_try_new c) as [client|e] eqn:Eh; cbn [map_err]; [|left; by exists e].
  destruct (order_sorter _) as [sorter|e] eqn:Es; [|by right]. unfold new_semaphore, new_client, new_flag. cbn [hp_next hp_clients hp_flags hp_semaphores hp_counters hp_requests].
  exists client, sorter. split_and!; try done; rewrite <- !N.add_assoc; done.
Qed.

(** The cells of a sink that has started: the limit, and no check left to make. *)
Definition started (c : ElasticsearchConfig.ElasticsearchSinkConfig) (h : Heap C) (s : EsSink) : Prop :=
  es_config s = c /\ order_sorter (ElasticsearchConfig.order_by c) = Ok (es_sorter s) /\ hp_semaphores h !! es_semaphore s = Some (max_concurrent_requests c) /\
  (exists client, hp_clients h !! es_client s = Some client) /\ sink_validate_startup s h = (h, Ok tt).

(** Why no sink is made of a checked configuration, with the message: the file of its
    certificate, the HTTP client, its order, or, for what these gave, the cluster's
    answers to the startup checks, [requests] of which were made before. *)
Inductive es_refused (c : ElasticsearchConfig.ElasticsearchSinkConfig) (requests : nat) : string -> Prop :=
| certificate_refused e :
    root_certificate (tls_ca_cert_path (ElasticsearchConfig.tls c)) = Err e -> es_refused c requests (pipeline_to_string (es_pipeline_error e))
| client_refused cert m :
    root_certificate (tls_ca_cert_path (ElasticsearchConfig.tls c)) = Ok cert ->
    build_client (ElasticsearchConfig.connect_timeout_secs c) (ElasticsearchConfig.request_timeout_secs c) cert = Err m ->
    es_refused c requests (pipeline_to_string (es_pipeline_error (EsHttp m)))
| order_refused client o e :
    http_try_new c = Ok client -> ElasticsearchConfig.order_by c = Some o -> from_config o = Err e -> es_refused c requests (pipeline_to_string e)
| startup_refused endpoints sh e :
    try_new_endpoints (ElasticsearchConfig.endpoints c) (is_insecure (ElasticsearchConfig.tls c)) = Ok endpoints ->
    EsStartup.validate_startup (auth c) clock c (mkShared requests endpoints false) = (sh, Err e) ->
    es_refused c requests ("Elasticsearch startup validation failed: " +:+ pipeline_to_string e).

Lemma es_try_new_refused c h e : ElasticsearchConfig.validate url_parses is_file c = Ok tt -> es_try_new c h = Err e ->
  es_refused c (hp_requests h) (pipeline_to_string e).
Proof.
  intros Hv. pose proof Hv as (Hok & Hsec & _)%ElasticsearchConfig.accepted_starts. pose proof (es_try_new_spec c h Hv) as Hs. intros E. rewrite E in Hs.
  destruct (http_try_new c) as [client|e'] eqn:Eh.
  - destruct Hs as [(? & ? & _)|Hs]; [done|]. unfold order_sorter in Hs. destruct (ElasticsearchConfig.order_by c) as [o|] eqn:Eo; [|done].
    by eapply order_refused.
  - unfold es_try_new in E. rewrite Hv, Eh in E. cbn in E. injection E as <-.
    unfold http_try_new in Eh. rewrite Hsec in Eh. destruct (try_new_endpoints _ false); [|done].
    destruct (root_certificate _) as [cert|e1] eqn:Ec; [|injection Eh as <-; by apply certificate_refused].
    destruct (build_client _ _ cert) as [cl|m] eqn:Eb; cbn [map_err] in Eh; [done|]. injection Eh as <-. by eapply client_refused.
Qed.

(** The client of a sink has the endpoints and the credentials of its configuration. *)
Lemma http_client_of c client : http_try_new c = Ok client ->
  try_new_endpoints (ElasticsearchConfig.endpoints c) (is_insecure (ElasticsearchConfig.tls c)) = Ok (hc_endpoints client) /\ hc_auth client = auth c.
Proof.
  unfold http_try_new. destruct (try_new_endpoints _ _) as [eps|]; [|done]. destruct (root_certificate _); [|done].
  destruct (build_client _ _ _); [|done]. cbn. by intros [= <-].
Qed.

(** A check that has nothing to do changes no cell. *)
Lemma sink_validate_idle s h client validated : hp_clients h !! es_client s = Some client -> hp_flags h !! es_validated s = Some validated ->
  validate_on_startup (es_config s) = false \/ validated = true -> sink_validate_startup s h = (h, Ok tt).
Proof.
  intros Hc Hf Hidle. unfold sink_validate_startup. rewrite Hc, Hf. unfold EsStartup.validate_startup.
  assert (negb (validate_on_startup (es_config s)) || sh_validated (mkShared (hp_requests h) (hc_endpoints client) validated) = true) as ->
    by (cbn; destruct Hidle as [-> | ->]; by rewrite ?orb_true_r).
  cbn. destruct client, h. cbn in *. by rewrite !insert_id.
Qed.

(** What a check that succeeds leaves in the cells. *)
Lemma sink_validate_done s h h' client validated : hp_clients h !! es_client s = Some client -> hp_flags h !! es_validated s = Some validated ->
  sink_validate_startup s h = (h', Ok tt) -> hp_semaphores h' = hp_semaphores h /\ exists client' validated', hp_clients h' !! es_client s = Some client' /\
  hp_flags h' !! es_validated s = Some validated' /\ (validate_on_startup (es_config s) = false \/ validated' = true).
Proof.
  intros Hc Hf. unfold sink_validate_startup. rewrite Hc, Hf. set (sh0 := mkShared _ _ _).
  assert (Hdone : forall sh, EsStartup.validate_startup (hc_auth client) clock (es_config s) sh0 = (sh, Ok tt) -> validate_on_startup (es_config s) = false \/ sh_validated sh = true).
  { intros sh. unfold EsStartup.validate_startup. destruct (validate_on_startup (es_config s)); [|by left]. cbn [negb orb]. destruct (sh_validated sh0) eqn:Ev; [intros [= <-]; by right|].
    destruct (health_check _ _ _ _) as [[k e] [[]|err]]; [|done]. destruct (validate_templates _ _ _ _ _) as [[k' e'] [[]|err]]; [|done]. intros [= <-]. by right. }
  destruct (EsStartup.validate_startup _ _ _ sh0) as [sh r]. intros [= <- ->]. cbn. split; [done|].
  rewrite !lookup_insert_eq. do 2 eexists. split_and!; [done | done | by apply Hdone].
Qed.

Lemma elasticsearch_sinks_spec c h : ElasticsearchConfig.validate url_parses is_file c = Ok tt ->
  match elasticsearch_sinks c h with
  | Ok (sinks, h') => forall s, started c h' (sget sinks s) /\
      es_client (sget sinks s) = es_client (p_logs sinks) /\ es_semaphore (sget sinks s) = es_semaphore (p_logs sinks) /\ es_validated (sget sinks s) = es_validated (p_logs sinks)
  | Err msg => es_refused c (hp_requests h) msg
  end.
Proof.
  intros Hv. unfold elasticsearch_sinks. pose proof (fun h e => es_try_new_refused c h e Hv) as Hr.
  pose proof (es_try_new_spec c h Hv) as Hl. destruct (es_try_new c h) as [[logs h1]|e] eqn:El; cbn [map_err]; [|by apply Hr].
  destruct Hl as (cl & so & Hcl & Hso & -> & ->).
  match goal with |- context [es_try_new c ?x.2] => pose proof (es_try_new_spec c x.2 Hv) as Ht; destruct (es_try_new c x.2) as [[traces h2]|e] eqn:Et end;
    cbn [map_err]; [|by apply (Hr _ _ Et)].
  destruct Ht as (cl2 & so2 & _ & Hso2 & -> & ->).
  match goal with |- context [es_try_new c ?x.2] => pose proof (es_try_new_spec c x.2 Hv) as Hm; destruct (es_try_new c x.2) as [[metrics h3]|e] eqn:Em end;
    cbn [map_err]; [|by apply (Hr _ _ Em)].
  destruct Hm as (cl3 & so3 & _ & Hso3 & -> & ->). cbn [fst snd].
  set (n := hp_next h). cbn [hp_next hp_clients hp_flags hp_semaphores hp_counters hp_requests]. fold n. set (hm := mkHeap _ _ _ _ _ _). set (logs := mkEsSink c (n + 1) so n (n + 2)).
  assert (Hc : hp_clients hm !! es_client logs = Some cl) by (cbn; rewrite !lookup_insert_ne by lia; apply lookup_insert_eq).
  assert (Hf : hp_flags hm !! es_validated logs = Some false) by (cbn; rewrite !lookup_insert_ne by lia; apply lookup_insert_eq).
  assert (Hs : hp_semaphores hm !! es_semaphore logs = Some (max_concurrent_requests c)) by (cbn; rewrite !lookup_insert_ne by lia; apply lookup_insert_eq).
  destruct (sink_validate_startup logs hm) as [h' [[]|e]] eqn:Ev; cbn [map_err]; cycle 1.
  { destruct (http_client_of _ _ Hcl) as [Hep Ha]. unfold sink_validate_startup in Ev. rewrite Hc, Hf in Ev. rewrite Ha in Ev.
    destruct (EsStartup.validate_startup _ _ _ _) as [sh r] eqn:Es. injection Ev as _ ->. by eapply startup_refused. }
  destruct (sink_validate_done _ _ _ _ _ Hc Hf Ev) as (Esem & cl' & v' & Hc' & Hf' & Hidle). rewrite <- Esem in Hs.
  intros s. split; [|by destruct s]. unfold started.
  destruct s; cbn [sget p_logs p_metrics p_traces share_state_from es_config es_client es_sorter es_semaphore es_validated]; split_and!; try done; try (by exists cl'); by eapply sink_validate_idle.
Qed.
End Elasticsearch.

(** ** Parquet *)

Section Parquet.
Context {C Operator : Type}.
Variable build : ParquetConfig.ParquetSinkConfig -> result Operator ParquetSinkError.

(** The parts of the sink and its partition manager that sharing touches. *)
Record PqSink := mkPqSink { pq_config : ParquetConfig.ParquetSinkConfig; pq_operator : Operator; pq_variant : bool; pq_global_memory_bytes : Loc; pq_upload_semaphore : option Loc }.

Definition parquet_try_new (c : ParquetConfig.ParquetSinkConfig) (h : Heap C) : result (PqSink * Heap C) PipelineError :=
  let? operator := map_err ParquetError.pipeline_error (build c) in
  let '(semaphore, h) := if 0 <? max_concurrent_uploads c then let '(l, h) := new_semaphore (max_concurrent_uploads c) h in (Some l, h) else (None, h) in
  let '(memory, h) := new_counter 0 h in
  Ok (mkPqSink c operator (variant_encoding c) memory semaphore, h).

Definition share_limits_from (s other : PqSink) : PqSink := mkPqSink (pq_config s) (pq_operator other) (pq_variant s) (pq_global_memory_bytes other) (pq_upload_semaphore other).
Definition share_upload_limits_from (s other : PqSink) : PqSink := mkPqSink (pq_config s) (pq_operator other) (pq_variant s) (pq_global_memory_bytes s) (pq_upload_semaphore other).

Definition with_memory_limit (c : ParquetConfig.ParquetSinkConfig) (limit : N) : ParquetConfig.ParquetSinkConfig :=
  mkPqConfig (storage_uri c) (node_id c) (compression c) (compression_level c) (max_file_size_bytes c) (max_file_interval_sec c) (max_open_partitions c) (max_concurrent_uploads c)
    limit (variant_encoding c) (max_records c) (partition_pattern c) (storage_options c).

Definition parquet_sinks (c : ParquetConfig.ParquetSinkConfig) (h : Heap C) : result (Signal.PerSignal PqSink * Heap C) PipelineError :=
  let c := with_memory_limit c (signal_memory_limit (global_memory_limit_bytes c)) in
  let? logs := parquet_try_new c h in
  let? traces := parquet_try_new c logs.2 in
  let? metrics := parquet_try_new c traces.2 in
  Ok (mkPerSignal logs.1 (share_upload_limits_from metrics.1 logs.1) (share_upload_limits_from traces.1 logs.1), metrics.2).

Lemma parquet_try_new_spec c h : match parquet_try_new c h with
  | Ok (s, h') => exists l, build c = Ok (pq_operator s) /\ pq_config s = c /\ pq_global_memory_bytes s = l /\ hp_next h <= l < hp_next h' /\
      match pq_upload_semaphore s with Some sem => hp_semaphores h' !! sem = Some (max_concurrent_uploads c) /\ 0 < max_concurrent_uploads c /\ sem < hp_next h' | None => max_concurrent_uploads c = 0 end /\
      forall k, k < hp_next h -> hp_semaphores h' !! k = hp_semaphores h !! k
  | Err e => exists e', build c = Err e'
  end.
Proof.
  unfold parquet_try_new. destruct (build c) as [op|e] eqn:Eb; cbn [map_err]; [|by exists e]. unfold new_semaphore, new_counter. destruct (N.ltb_spec 0 (max_concurrent_uploads c)); cbn.
  - exists (hp_next h + 1). split_and!; try done; try lia; [by apply lookup_insert_eq|]. intros k Hk. rewrite lookup_insert_ne by lia. done.
  - exists (hp_next h). split_and!; try done; lia.
Qed.

(** The three sinks upload through one store under one limit, and each counts its own
    memory against its share. *)
Lemma parquet_sinks_spec c h : match parquet_sinks c h with
  | Ok (sinks, h') => forall s,
      pq_config (sget sinks s) = with_memory_limit c (signal_memory_limit (global_memory_limit_bytes c)) /\
      build (with_memory_limit c (signal_memory_limit (global_memory_limit_bytes c))) = Ok (pq_operator (sget sinks s)) /\
      pq_upload_semaphore (sget sinks s) = pq_upload_semaphore (p_logs sinks) /\
      match pq_upload_semaphore (sget sinks s) with Some sem => hp_semaphores h' !! sem = Some (max_concurrent_uploads c) | None => max_concurrent_uploads c = 0 end /\
      forall s', pq_global_memory_bytes (sget sinks s) = pq_global_memory_bytes (sget sinks s') -> s = s'
  | Err _ => exists e', build (with_memory_limit c (signal_memory_limit (global_memory_limit_bytes c))) = Err e'
  end.
Proof.
  unfold parquet_sinks. cbv zeta. set (c' := with_memory_limit _ _).
  pose proof (parquet_try_new_spec c' h) as Hl. destruct (parquet_try_new c' h) as [[logs h1]|e]; [|done].
  pose proof (parquet_try_new_spec c' h1) as Ht. cbn [snd]. destruct (parquet_try_new c' h1) as [[traces h2]|e]; [|done].
  pose proof (parquet_try_new_spec c' h2) as Hm. cbn [snd]. destruct (parquet_try_new c' h2) as [[metrics h3]|e]; [|done].
  destruct Hl as (l1 & Hb1 & Hc1 & Hm1 & Hn1 & Hs1 & _), Ht as (l2 & Hb2 & Hc2 & Hm2 & Hn2 & _ & Hk2), Hm as (l3 & Hb3 & Hc3 & Hm3 & Hn3 & _ & Hk3).
  intros s. assert (Hsem : match pq_upload_semaphore logs with Some sem => hp_semaphores h3 !! sem = Some (max_concurrent_uploads c) | None => max_concurrent_uploads c = 0 end).
  { destruct (pq_upload_semaphore logs) as [sem|]; [|done]. destruct Hs1 as (Hs1 & _ & Hlt). rewrite Hk3 by lia. rewrite Hk2 by lia. done. }
  destruct s; cbn [sget p_logs p_metrics p_traces share_upload_limits_from pq_config pq_operator pq_upload_semaphore pq_global_memory_bytes fst]; split_and!; try done;
    intros []; cbn [sget p_logs p_metrics p_traces share_upload_limits_from pq_global_memory_bytes]; intros E; try done; lia.
Qed.
End Parquet.

(** ** Kafka and Iceberg *)

Definition kafka_topic (c : KafkaSinkConfig) (s : SignalType) : string := match s with Logs => kc_logs_topic c | Traces => kc_traces_topic c | Metrics => kc_metrics_topic c end.
Definition kafka_format (c : KafkaSinkConfig) (s : SignalType) : string := match s with Logs => kc_logs_format c | Traces => kc_traces_format c | Metrics => kc_metrics_format c end.
Definition kafka_key (c : KafkaSinkConfig) (s : SignalType) : option string :=
  match s with Logs => kc_logs_partition_key c | Traces => kc_traces_partition_key c | Metrics => kc_metrics_partition_key c end.

Section Kafka.
Context {Producer : Type} (create : gmap string string -> result Producer string).

Definition kafka_signal_sink (c : KafkaSinkConfig) (sorter : BatchSorter) (s : SignalType) : result (KafkaSink Producer) PipelineError :=
  let? format := format_from_str (kafka_format c s) in
  let? sink := kafka_try_new create (kc_brokers c) (kafka_topic c s) format (kc_options c) in
  Ok (with_sorting sink sorter (kafka_key c s)).

Definition kafka_sinks (c : KafkaSinkConfig) : result (Signal.PerSignal (KafkaSink Producer)) PipelineError :=
  let? sorter := order_sorter (kc_order_by c) in
  let? logs_sink := kafka_signal_sink c sorter Logs in
  let? traces_sink := kafka_signal_sink c sorter Traces in
  let? metrics_sink := kafka_signal_sink c sorter Metrics in
  let timed k := match kc_flush_timeout_ms c with Some ms => with_flush_timeout k ms | None => k end in
  Ok (mkPerSignal (timed logs_sink) (timed metrics_sink) (timed traces_sink)).

(** Every signal's sink has its topic, format and key, and the one set of client options. *)
Lemma kafka_sinks_spec c : kafka_validate c = Ok tt ->
  match kafka_sinks c with
  | Ok sinks => exists sorter, order_sorter (kc_order_by c) = Ok sorter /\ forall s, let k := sget sinks s in
      create (client_config (kc_brokers c) (kc_options c)) = Ok (ks_producer k) /\ ks_topic k = kafka_topic c s /\ format_from_str (kafka_format c s) = Ok (ks_format k) /\
      ks_sorter k = sorter /\ ks_partition_key k = kafka_key c s /\ ks_flush_timeout k = default (flush_timeout_of (kc_options c)) (kc_flush_timeout_ms c) /\ 0 < ks_flush_timeout k
  | Err e => (exists s, format_from_str (kafka_format c s) = Err e) \/
      exists m, create (client_config (kc_brokers c) (kc_options c)) = Err m /\ e = Internal ("Failed to create Kafka producer: " +:+ m)
  end.
Proof.
  intros Hv. unfold kafka_validate in Hv. case_bool_decide as Hms; [done|]. unfold kafka_sinks. destruct (order_sorter (kc_order_by c)) as [sorter|e] eqn:Es.
  2: { exfalso. unfold order_sorter in Es. destruct (kc_order_by c); [|done]. by rewrite Es in Hv. }
  assert (Hpos : 0 < default (flush_timeout_of (kc_options c)) (kc_flush_timeout_ms c)).
  { destruct (kc_flush_timeout_ms c) as [ms|]; cbn; [assert (ms <> 0) by congruence; lia|]. unfold flush_timeout_of. cbv zeta. destruct (_ ≫= _) as [ms|]; [|done]. destruct (N.ltb_spec 0 ms); [lia | done]. }
  unfold kafka_signal_sink, kafka_try_new. destruct (format_from_str (kafka_format c Logs)) as [fl|] eqn:El; [|by left; exists Logs].
  destruct (create _) as [p|m] eqn:Ec; cbn [map_err]; [|right; by exists m]. destruct (format_from_str (kafka_format c Traces)) as [ft|] eqn:Et; [|by left; exists Traces].
  destruct (format_from_str (kafka_format c Metrics)) as [fm|] eqn:Em; [|by left; exists Metrics]. exists sorter. split; [done|].
  intros s. cbv zeta. destruct (kc_flush_timeout_ms c), s; done.
Qed.
End Kafka.

(** [IcebergSink::new], on the table of the signal. *)
Record IcSink := mkIcSink { is_config : IcebergSink.IcebergSinkConfig; is_sorter : BatchSorter }.

Definition iceberg_new (c : IcebergSink.IcebergSinkConfig) : IcSink := mkIcSink c (IcebergSink.new_sorter (IcebergSink.ic_order_by c)).

Definition iceberg_sinks (c : IcebergSink.IcebergSinkConfig) : Signal.PerSignal IcSink :=
  mkPerSignal (iceberg_new (signal_iceberg c Logs)) (iceberg_new (signal_iceberg c Metrics)) (iceberg_new (signal_iceberg c Traces)).

(** ** The sinks of a configuration *)

Section Assembly.
Context {RB Arr M G J : Type} `{Tables RB Arr} `{Wasm M G} `{Codec RB J} `{Toolchain M}.
Context {C Producer Manager : Type} `{HttpStack C} `{Cluster}.
Variables (mc : Machine) (clock : nat -> N).
Variable create : gmap string string -> result Producer string.
Variable manager_new : StreamLoadConfig -> StreamLoadTableProperties -> result Manager string.

Abbreviation parquet_operator := (ParquetConfig.validate_and_build_operator (operator_new mc) (zstd_level_valid mc) (zstd_level_default mc) (memory_enabled mc)).

Inductive Sinks : Type :=
| IcebergSinks (sinks : Signal.PerSignal IcSink)
| ElasticsearchSinks (sinks : Signal.PerSignal EsSink)
| StarRocksSinks (sinks : Signal.PerSignal (StarRocksSink (Manager := Manager)))
| KafkaSinks (sinks : Signal.PerSignal (KafkaSink Producer))
| ParquetSinks (sinks : Signal.PerSignal (PqSink (Operator := store mc))).

Definition on_heap {A} (f : A -> Sinks) (h : Heap C) (r : result A PipelineError) : result (Sinks * Heap C) string :=
  match r with Ok sinks => Ok (f sinks, h) | Err e => Err (pipeline_to_string e) end.

(** [main], the sinks that are spawned. *)
Definition make_sinks (c : AppConfig J) (h : Heap C) : result (Sinks * Heap C) string :=
  match ac_iceberg c with
  | Some iceberg_cfg => Ok (IcebergSinks (iceberg_sinks iceberg_cfg), h)
  | None =>
  match ac_elasticsearch c with
  | Some es_cfg => let? r := elasticsearch_sinks (url_parses mc) (is_file mc) clock es_cfg h in Ok (ElasticsearchSinks r.1, r.2)
  | None =>
  match ac_starrocks c with
  | Some starrocks_cfg => on_heap StarRocksSinks h (starrocks_sinks manager_new (is_file mc) starrocks_cfg)
  | None =>
  match ac_kafka c with
  | Some kafka_cfg => on_heap KafkaSinks h (kafka_sinks create kafka_cfg)
  | None =>
  match ac_parquet c with
  | Some parquet_cfg =>
      match parquet_sinks parquet_operator parquet_cfg h with
      | Ok r => Ok (ParquetSinks r.1, r.2)
      | Err e => Err (pipeline_to_string e)
      end
  | None => Err "One of [iceberg], [elasticsearch], [starrocks], [kafka], or [parquet] configuration must be provided"%string
  end end end end end.

(** The task of each signal: its sink, run on the buffer of the same signal. *)
Definition spawn_each {A R} (run : A -> R -> JoinResult) (sinks : Signal.PerSignal A) (rx : Signal.PerSignal R) : Signal.PerSignal JoinResult :=
  mkPerSignal (run (p_logs sinks) (p_logs rx)) (run (p_metrics sinks) (p_metrics rx)) (run (p_traces sinks) (p_traces rx)).

Section Spawn.
Context {R : Type}.
Variables (run_iceberg : IcSink -> R -> JoinResult) (run_es : EsSink -> R -> JoinResult) (run_starrocks : StarRocksSink (Manager := Manager) -> R -> JoinResult)
  (run_kafka : KafkaSink Producer -> R -> JoinResult) (run_parquet : PqSink (Operator := store mc) -> R -> JoinResult).

Definition spawn_sinks (sinks : Sinks) (rx : Signal.PerSignal R) : Signal.PerSignal JoinResult :=
  match sinks with
  | IcebergSinks sinks => spawn_each run_iceberg sinks rx
  | ElasticsearchSinks sinks => spawn_each run_es sinks rx
  | StarRocksSinks sinks => spawn_each run_starrocks sinks rx
  | KafkaSinks sinks => spawn_each run_kafka sinks rx
  | ParquetSinks sinks => spawn_each run_parquet sinks rx
  end.
End Spawn.

(** *** What is made *)

(** The store does not depend on the memory limit. *)
Lemma operator_of_limit c l : parquet_operator (with_memory_limit c l) = parquet_operator c.
Proof. done. Qed.

(** The sinks do, signal by signal, what the configuration says. *)
Definition wired (c : AppConfig J) (h : Heap C) (sinks : Sinks) : Prop :=
  match sinks with
  | IcebergSinks sinks => exists ic, ac_iceberg c = Some ic /\ forall s,
      is_config (sget sinks s) = signal_iceberg ic s /\ is_sorter (sget sinks s) = IcebergSink.new_sorter (IcebergSink.ic_order_by ic) /\
      forall s', IcebergSink.ic_table_identifier (is_config (sget sinks s)) = IcebergSink.ic_table_identifier (is_config (sget sinks s')) -> s = s'
  | ElasticsearchSinks sinks => exists es, ac_elasticsearch c = Some es /\ forall s,
      started clock es h (sget sinks s) /\ 0 < max_concurrent_requests es /\
      es_client (sget sinks s) = es_client (p_logs sinks) /\ es_semaphore (sget sinks s) = es_semaphore (p_logs sinks) /\ es_validated (sget sinks s) = es_validated (p_logs sinks)
  | StarRocksSinks sinks => exists sr, ac_starrocks c = Some sr /\ forall s,
      ss_config (sget sinks s) = sr /\ order_sorter (StarRocksConfig.order_by sr) = Ok (ss_sorter (sget sinks s)) /\
      build_manager manager_new sr (table_for (table_mapping sr) s) = Ok (manager_for (sget sinks s) s)
  | KafkaSinks sinks => exists kc sorter, ac_kafka c = Some kc /\ order_sorter (kc_order_by kc) = Ok sorter /\ forall s, let k := sget sinks s in
      create (client_config (kc_brokers kc) (kc_options kc)) = Ok (ks_producer k) /\ ks_topic k = kafka_topic kc s /\ format_from_str (kafka_format kc s) = Ok (ks_format k) /\
      ks_sorter k = sorter /\ ks_partition_key k = kafka_key kc s /\ ks_flush_timeout k = default (flush_timeout_of (kc_options kc)) (kc_flush_timeout_ms kc) /\ 0 < ks_flush_timeout k
  | ParquetSinks sinks => exists pq, ac_parquet c = Some pq /\ forall s,
      pq_config (sget sinks s) = with_memory_limit pq (signal_memory_limit (global_memory_limit_bytes pq)) /\ parquet_operator pq = Ok (pq_operator (sget sinks s)) /\
      pq_upload_semaphore (sget sinks s) = pq_upload_semaphore (p_logs sinks) /\
      match pq_upload_semaphore (sget sinks s) with Some sem => hp_semaphores h !! sem = Some (max_concurrent_uploads pq) | None => max_concurrent_uploads pq = 0 end /\
      forall s', pq_global_memory_bytes (sget sinks s) = pq_global_memory_bytes (sget sinks s') -> s = s'
  end.

(** Why the sinks of a checked configuration are not made, for the one the binary
    picks and with its message: what lies outside the configuration, or one of two settings
    that the check does not read, the order of Elasticsearch ([order_refused]) and the
    formats of Kafka ([format_refused]). *)
Inductive sink_refused (c : AppConfig J) (h : Heap C) : string -> Prop :=
| elasticsearch_refused es msg :
    ac_iceberg c = None -> ac_elasticsearch c = Some es -> es_refused clock es (hp_requests h) msg -> sink_refused c h msg
| manager_refused sr s e :
    ac_iceberg c = None -> ac_elasticsearch c = None -> ac_starrocks c = Some sr ->
    build_manager manager_new sr (table_for (table_mapping sr) s) = Err e -> sink_refused c h (pipeline_to_string e)
| format_refused kc s e :
    ac_iceberg c = None -> ac_elasticsearch c = None -> ac_starrocks c = None -> ac_kafka c = Some kc ->
    format_from_str (kafka_format kc s) = Err e -> sink_refused c h (pipeline_to_string e)
| producer_refused kc m :
    ac_iceberg c = None -> ac_elasticsearch c = None -> ac_starrocks c = None -> ac_kafka c = Some kc ->
    create (client_config (kc_brokers kc) (kc_options kc)) = Err m ->
    sink_refused c h (pipeline_to_string (Internal ("Failed to create Kafka producer: " +:+ m))).

Lemma checked_sink k c : validate_config mc k c = Ok tt -> no_sink c = false /\ validate_sink mc c = Ok tt.
Proof.
  unfold validate_config. destruct (failed (pipeline_validate _)) as [[]|]; [|done]. destruct (failed (validate_with_listeners _ _ _ _)) as [[]|]; [|done].
  destruct (match ac_wasm_transformer c with Some _ => _ | None => _ end) as [[]|]; [|done]. destruct (no_sink c); [done|]. by destruct (validate_sink mc c) as [[]|].
Qed.

(** A configuration that passes the check makes its sinks, unless a format of
    Kafka or the order of Elasticsearch, which the check does not read, is not
    understood, or something outside refuses: files, clients, the cluster.  The
    sinks are wired: each signal has the table, topic, format, key and store of its
    configuration; the three Elasticsearch sinks share one client, one limit of
    requests and one account of the startup checks, which none makes again; the
    three Parquet sinks share one store and one limit of uploads, and none shares
    its memory. *)
Theorem checked_sinks_made k c (h : Heap C) : validate_config mc k c = Ok tt ->
  match make_sinks c h with Ok (sinks, h') => wired c h' sinks | Err msg => sink_refused c h msg end.
Proof.
  intros [Hno Hv]%checked_sink. unfold make_sinks. unfold validate_sink in Hv. destruct (ac_iceberg c) as [ic|] eqn:Ei.
  { destruct (distinct_tables ic) eqn:Ed; [|done]. exists ic. split; [done|]. intros s. split_and!; [by destruct s | by destruct s|].
    intros s' E. apply (distinct_tables_spec ic Ed). by destruct s, s'. }
  destruct (ac_elasticsearch c) as [es|] eqn:Ee.
  { apply failed_ok in Hv as [[] Hv]. pose proof (elasticsearch_sinks_spec (url_parses mc) (is_file mc) clock es h Hv) as Hs. destruct (elasticsearch_sinks _ _ _ _ _) as [[sinks h']|e].
    - exists es. split; [done|]. intros s. destruct (Hs s) as (? & ? & ? & ?). apply ElasticsearchConfig.accepted_starts in Hv as (_ & _ & ? & _). done.
    - by eapply elasticsearch_refused. }
  destruct (ac_starrocks c) as [sr|] eqn:Es.
  { apply failed_ok in Hv as [[] Hv]. pose proof (starrocks_sinks_spec manager_new (is_file mc) sr Hv) as Hs. destruct (starrocks_sinks _ _ _) as [sinks|e]; cbn; [by exists sr|].
    destruct Hs as [s Hs]. by eapply manager_refused. }
  destruct (ac_kafka c) as [kc|] eqn:Ek.
  { apply failed_ok in Hv as [[] Hv]. pose proof (kafka_sinks_spec create kc Hv) as Hs. destruct (kafka_sinks create kc) as [sinks|e]; cbn; [destruct Hs as (sorter & Hso & Hs); by exists kc, sorter|].
    destruct Hs as [[s Hs]|(m & Hm & ->)]; [by eapply format_refused | by eapply producer_refused]. }
  destruct (ac_parquet c) as [pq|] eqn:Ep; [|unfold no_sink in Hno; by rewrite Ek, Ei, Es, Ee, Ep in Hno].
  apply failed_ok in Hv as [[] Hv]. pose proof (parquet_sinks_spec parquet_operator pq h) as Hs. destruct (parquet_sinks _ pq h) as [[sinks h']|e].
  - by exists pq.
  - destruct Hs as [e' He]. rewrite operator_of_limit in He. unfold ParquetConfig.validate in Hv. by rewrite He in Hv.
Qed.
End Assembly.
Arguments IcebergSinks {_ _ _} _.
Arguments ElasticsearchSinks {_ _ _} _.
Arguments StarRocksSinks {_ _ _} _.
Arguments KafkaSinks {_ _ _} _.
Arguments ParquetSinks {_ _ _} _.

Module AssemblyDemo.
Import Guard.Demo WorkerDemo ConfigDemo.
#[local] Existing Instances WorkerDemo.wasm WorkerDemo.codec ConfigDemo.toolchain.
#[local] Instance stack : HttpStack N := {|
  read_ca _ := Err "no such file"%string; Certificate := unit; from_pem _ := Ok tt; build_client connect request _ := Ok (connect + request) |}.

(** Two nodes, the first of which is down. *)
Definition es (order : option SortConfig) : ElasticsearchConfig.ElasticsearchSinkConfig :=
  let d := ElasticsearchConfig.with_defaults [text "http://es-1:9200/"; text "http://es-2:9200"] (ElasticsearchConfig.mkDataStreams (text "logs-otel") (text "metrics-otel") (text "traces-otel")) in
  mkEsConfig (ElasticsearchConfig.endpoints d) NoAuth (data_streams d) (ElasticsearchConfig.tls d) true true 8 1000 1 1 3 1 true None None order.
Definition kafka (format : string) : KafkaSinkConfig :=
  mkKafkaSinkConfig "broker:9092" "logs" "traces" "metrics" "JSON" format "ipc" (Some "service_name"%string) None None None None None None {["delivery.timeout.ms"%string := "2500"%string]}.
Definition with_sinks (es : option ElasticsearchConfig.ElasticsearchSinkConfig) (kafka : option KafkaSinkConfig) (pq : option ParquetConfig.ParquetSinkConfig) : AppConfig unit :=
  mkAppConfig (ac_pipeline config) (ac_server config) kafka None None es pq None.

Abbreviation valid c := (validate_config (RB := TBatch) (M := N) machine 0 c).
Abbreviation made c := (make_sinks (H3 := stack) (H4 := EsStartupDemo.cluster false) (Producer := gmap string string) (Manager := unit) machine (fun _ => 7) (fun settings => Ok settings) (fun _ _ => Err "down"%string) c empty_heap).

(** Three clients are made and one is used; the cluster was asked once. *)
Example shared_client :
  match made (with_sinks (Some (es None)) None None) with
  | Ok (ElasticsearchSinks s, h) =>
      map es_client [p_logs s; p_metrics s; p_traces s] = [1; 1; 1] /\ map es_semaphore [p_logs s; p_metrics s; p_traces s] = [0; 0; 0] /\
      size (hp_clients h) = 3%nat /\ hp_flags h !! 2 = Some true /\ hp_flags h !! 5 = Some false /\ hp_requests h = 8%nat
  | _ => False
  end.
Proof. by vm_compute. Qed.

Example kafka_flush_timeout :
  match made (with_sinks None (Some (kafka "ipc")) None) with
  | Ok (KafkaSinks s, _) => map ks_topic [p_logs s; p_metrics s; p_traces s] = ["logs"; "metrics"; "traces"]%string /\ map ks_flush_timeout [p_logs s; p_traces s] = [2500; 2500]
  | _ => False
  end.
Proof. by vm_compute. Qed.

(** The check passes what the start does not: a format that is not known, an order that
    is not one. *)
Example check_misses :
  valid (with_sinks None (Some (kafka "avro")) None) = Ok tt /\ is_ok (made (with_sinks None (Some (kafka "avro")) None)) = false /\
  let order := mkSortConfig Skip [Shorthand "timestamp SIDEWAYS"] [] [] in
  valid (with_sinks (Some (es (Some order))) None None) = Ok tt /\ is_ok (made (with_sinks (Some (es (Some order))) None None)) = false.
Proof. by vm_compute. Qed.

Lemma checked_sinks_made_witness :
  valid (with_sinks None None (Some ParquetConfig.default_config)) = Ok tt /\
  match made (with_sinks None None (Some ParquetConfig.default_config)) with
  | Ok (ParquetSinks s, h) => map pq_global_memory_bytes [p_logs s; p_metrics s; p_traces s] = [1; 5; 3] /\ map pq_upload_semaphore [p_logs s; p_metrics s; p_traces s] = [Some 0; Some 0; Some 0] /\
      wired (C := N) (H4 := EsStartupDemo.cluster false) machine (fun _ => 7) (fun settings : gmap string string => Ok settings) (fun _ _ => Err (A := unit) "down"%string) (with_sinks None None (Some ParquetConfig.default_config)) h (ParquetSinks s)
  | _ => False
  end.
Proof.
  split; [by vm_compute|].
  pose proof (checked_sinks_made (RB := TBatch) (M := N) (C := N) (H3 := stack) (H4 := EsStartupDemo.cluster false) (Producer := gmap string string) (Manager := unit) machine (fun _ => 7) (fun settings => Ok settings) (fun _ _ => Err "down"%string)
    0 (with_sinks None None (Some ParquetConfig.default_config)) empty_heap eq_refl) as Hw.
  destruct (made (with_sinks None None (Some ParquetConfig.default_config))) as [[s h]|e] eqn:E; [|by vm_compute in E].
  vm_compute in E. injection E as <- <-. split; [done|]. split; [done|]. exact Hw.
Defined.
End AssemblyDemo.
