(* ===== verification/BufferMetrics.v ===== *)
(** The metrics of a sink buffer: crates/core/src/buffer/metrics.rs, and the
    recording of a recovered buffer in crates/core/src/buffer/mod.rs.

    The OpenTelemetry SDK is what it is told: the calls to its instruments, in
    order.  A counter of the state is a [u64] that wraps; a duration is its
    nanoseconds, without the rounding of an [f64]. *)

From S2P Require Import Prelude Signal Ring BufferConfig.
Local Open Scope N_scope.

Abbreviation Attrs := (list (string * string)).

Definition mode_as_str (m : BufferMode) : string := match m with Memory => "memory" | Disk => "disk" end.

(** Why records are dropped, and how leases are returned. *)
Inductive DropReason : Type := Overflow | DeadLetterDrop | Corruption | ShutdownTimeout.
Inductive NackClass : Type := TransientNack | RejectedNack | FatalNack.

#[export] Instance DropReason_eq_dec : EqDecision DropReason.
Proof. solve_decision. Defined.
#[export] Instance NackClass_eq_dec : EqDecision NackClass.
Proof. solve_decision. Defined.

Definition reason_str (r : DropReason) : string :=
  match r with Overflow => "overflow" | DeadLetterDrop => "dead_letter" | Corruption => "corruption" | ShutdownTimeout => "shutdown_timeout" end.
Definition class_str (c : NackClass) : string := match c with TransientNack => "transient" | RejectedNack => "rejected" | FatalNack => "fatal" end.

(** The texts the code matches on. *)
Definition parse_reason (s : string) : option DropReason := List.find (fun r => String.eqb (reason_str r) s) [Overflow; DeadLetterDrop; Corruption; ShutdownTimeout].
Definition parse_class (s : string) : option NackClass := List.find (fun c => String.eqb (class_str c) s) [TransientNack; RejectedNack; FatalNack].

Record SignalMetricsState := mkSignalMetrics {
  buffered_records : N; buffered_bytes : N; oldest_unix_ms : N; leases_inflight : N; max_bytes : N; max_events : N;
  committed : N; overflow_drops : N; dead_letter_drops : N; corruption_drops : N; shutdown_timeout_drops : N; replayed : N;
  transient_nacks : N; rejected_nacks : N; fatal_nacks : N;
  signal_sink_attrs : Attrs; signal_sink_buffer_mode_attrs : Attrs; signal_sink_mode_attrs : Attrs }.

#[export] Instance SignalMetricsState_eta : RecordEta SignalMetricsState := fun s =>
  mkSignalMetrics (buffered_records s) (buffered_bytes s) (oldest_unix_ms s) (leases_inflight s) (max_bytes s) (max_events s)
    (committed s) (overflow_drops s) (dead_letter_drops s) (corruption_drops s) (shutdown_timeout_drops s) (replayed s)
    (transient_nacks s) (rejected_nacks s) (fatal_nacks s) (signal_sink_attrs s) (signal_sink_buffer_mode_attrs s) (signal_sink_mode_attrs s).

Definition new_signal_metrics (sink_name : string) (signal : SignalType) (config : BufferConfig) : SignalMetricsState :=
  let sink := [("signal", as_str signal); ("sink", sink_name)]%string in
  mkSignalMetrics 0 0 0 0 (per_signal_budget config) (default 0 (max_batch_records config)) 0 0 0 0 0 0 0 0 0
    sink (sink ++ [("buffer_mode", mode_as_str (mode config))%string]) (sink ++ [("mode", mode_as_str (mode config))%string]).

(** A call to an instrument. *)
Inductive Emission : Type :=
| Add (counter : string) (n : N) (attrs : Attrs)
| RecordSeconds (histogram : string) (nanos : N) (attrs : Attrs)
| RecordMillis (histogram : string) (nanos : N) (attrs : Attrs).

Record BufferMetrics := mkBufferMetrics { bm_sink_name : string; bm_mode : BufferMode; bm_signals : PerSignal SignalMetricsState; bm_emitted : list Emission }.

#[export] Instance BufferMetrics_eta : RecordEta BufferMetrics := fun m => mkBufferMetrics (bm_sink_name m) (bm_mode m) (bm_signals m) (bm_emitted m).

Definition new_metrics (sink_name : string) (config : BufferConfig) : BufferMetrics :=
  mkBufferMetrics sink_name (mode config)
    (mkPerSignal (new_signal_metrics sink_name Logs config) (new_signal_metrics sink_name Metrics config) (new_signal_metrics sink_name Traces config)) [].

Definition signal_state (m : BufferMetrics) (s : SignalType) : SignalMetricsState := sget (bm_signals m) s.
Definition with_state (m : BufferMetrics) (s : SignalType) (st : SignalMetricsState) : BufferMetrics := m <| bm_signals := sset (bm_signals m) s st |>.
Definition emit (m : BufferMetrics) (es : list Emission) : BufferMetrics := m <| bm_emitted := bm_emitted m ++ es |>.

(** [AtomicU64::fetch_add]. *)
Definition wrapping (n : N) : N := n mod (u64_max + 1).
Definition bump (old n : N) : N := wrapping (old + n).
#[global] Arguments bump : simpl never.
#[global] Arguments signal_state : simpl never.

(** ** Gauges *)

Inductive Gauge : Type := GRecords | GEvents | GBytes | GMaxEvents | GMaxBytes | GDiskBytes | GDiskMaxBytes | GOldestAge | GLeasesInflight.

Definition gauge_name (g : Gauge) : string :=
  match g with
  | GRecords => "datalake.sink.buffer_records" | GEvents => "datalake.sink.buffer_events" | GBytes => "datalake.sink.buffer_bytes"
  | GMaxEvents => "datalake.sink.buffer_max_events" | GMaxBytes => "datalake.sink.buffer_max_bytes"
  | GDiskBytes => "datalake.sink.buffer_disk_bytes" | GDiskMaxBytes => "datalake.sink.buffer_disk_max_bytes"
  | GOldestAge => "datalake.sink.buffer_oldest_age_seconds" | GLeasesInflight => "datalake.sink.buffer_leases_inflight"
  end.

(** What a callback observes of one signal; the age is in milliseconds. *)
Definition gauge_value (g : Gauge) (m : BufferMode) (now_ms : N) (st : SignalMetricsState) : N * Attrs :=
  match g with
  | GRecords => (buffered_records st, signal_sink_buffer_mode_attrs st)
  | GEvents => (buffered_records st, signal_sink_mode_attrs st)
  | GBytes => (buffered_bytes st, signal_sink_buffer_mode_attrs st)
  | GMaxEvents => (max_events st, signal_sink_mode_attrs st)
  | GMaxBytes => (max_bytes st, signal_sink_mode_attrs st)
  | GDiskBytes => (match m with Disk => buffered_bytes st | Memory => 0 end, signal_sink_mode_attrs st)
  | GDiskMaxBytes => (match m with Disk => max_bytes st | Memory => 0 end, signal_sink_mode_attrs st)
  | GOldestAge => (if oldest_unix_ms st =? 0 then 0 else now_ms -s oldest_unix_ms st, signal_sink_attrs st)
  | GLeasesInflight => (leases_inflight st, signal_sink_attrs st)
  end.

Definition all_signals : list SignalType := [Logs; Metrics; Traces].

Definition observe (g : Gauge) (m : BufferMetrics) (now_ms : N) : list (N * Attrs) :=
  map (fun s => gauge_value g (bm_mode m) now_ms (signal_state m s)) all_signals.

Definition update_gauges (signal : SignalType) (records bytes leases oldest : N) (m : BufferMetrics) : BufferMetrics :=
  let st := signal_state m signal in
  with_state m signal (st <| buffered_records := records |> <| buffered_bytes := bytes |> <| leases_inflight := leases |> <| oldest_unix_ms := oldest |>).

(** ** Counters *)

Definition record_committed (signal : SignalType) (rows duration_nanos : N) (m : BufferMetrics) : BufferMetrics :=
  let st := signal_state m signal in
  emit (with_state m signal (st <| committed := bump (committed st) rows |>))
    [Add "datalake.sink.records_committed_total" rows (signal_sink_attrs st);
     RecordSeconds "datalake.sink.flush_duration_seconds" duration_nanos (signal_sink_attrs st);
     RecordMillis "datalake.sink.buffer_flush_duration_ms" duration_nanos (signal_sink_mode_attrs st)].

Definition drops (r : DropReason) (st : SignalMetricsState) : N :=
  match r with Overflow => overflow_drops st | DeadLetterDrop => dead_letter_drops st | Corruption => corruption_drops st | ShutdownTimeout => shutdown_timeout_drops st end.

Definition add_drops (r : DropReason) (rows : N) (st : SignalMetricsState) : SignalMetricsState :=
  match r with
  | Overflow => st <| overflow_drops := bump (overflow_drops st) rows |>
  | DeadLetterDrop => st <| dead_letter_drops := bump (dead_letter_drops st) rows |>
  | Corruption => st <| corruption_drops := bump (corruption_drops st) rows |>
  | ShutdownTimeout => st <| shutdown_timeout_drops := bump (shutdown_timeout_drops st) rows |>
  end.

Definition drop_attrs (m : BufferMetrics) (signal : SignalType) (r : DropReason) : Attrs :=
  [("signal", as_str signal); ("sink", bm_sink_name m); ("reason", reason_str r)]%string.
Definition drop_mode_attrs (m : BufferMetrics) (signal : SignalType) (r : DropReason) : Attrs :=
  [("signal", as_str signal); ("sink", bm_sink_name m); ("mode", mode_as_str (bm_mode m)); ("reason", reason_str r)]%string.

Definition record_dropped (signal : SignalType) (rows : N) (reason : string) (m : BufferMetrics) : BufferMetrics :=
  if rows =? 0 then m
  else
    match parse_reason reason with
    | None => m
    | Some r =>
        emit (with_state m signal (add_drops r rows (signal_state m signal)))
          [Add "datalake.sink.records_dropped_total" rows (drop_attrs m signal r); Add "datalake.sink.buffer_dropped_records" rows (drop_mode_attrs m signal r)]
    end.

Definition nacks (c : NackClass) (st : SignalMetricsState) : N :=
  match c with TransientNack => transient_nacks st | RejectedNack => rejected_nacks st | FatalNack => fatal_nacks st end.

Definition add_nack (c : NackClass) (st : SignalMetricsState) : SignalMetricsState :=
  match c with
  | TransientNack => st <| transient_nacks := bump (transient_nacks st) 1 |>
  | RejectedNack => st <| rejected_nacks := bump (rejected_nacks st) 1 |>
  | FatalNack => st <| fatal_nacks := bump (fatal_nacks st) 1 |>
  end.

Definition nack_attrs (m : BufferMetrics) (signal : SignalType) (c : NackClass) : Attrs :=
  [("signal", as_str signal); ("sink", bm_sink_name m); ("failure_class", class_str c)]%string.
Definition retry_attrs (m : BufferMetrics) (signal : SignalType) (c : NackClass) : Attrs :=
  [("signal", as_str signal); ("sink", bm_sink_name m); ("mode", mode_as_str (bm_mode m)); ("class", class_str c)]%string.

Definition record_nack (signal : SignalType) (failure_class : string) (m : BufferMetrics) : BufferMetrics :=
  match parse_class failure_class with
  | None => m
  | Some c =>
      emit (with_state m signal (add_nack c (signal_state m signal)))
        [Add "datalake.sink.lease_nacks_total" 1 (nack_attrs m signal c); Add "datalake.sink.buffer_lease_retries" 1 (retry_attrs m signal c)]
  end.

Definition record_replayed (signal : SignalType) (rows : N) (m : BufferMetrics) : BufferMetrics :=
  if rows =? 0 then m
  else
    let st := signal_state m signal in
    emit (with_state m signal (st <| replayed := bump (replayed st) rows |>))
      [Add "datalake.sink.buffer_replayed_records_total" rows (signal_sink_attrs st); Add "datalake.sink.buffer_replayed_records" rows (signal_sink_mode_attrs st)].

(** ** Reading back *)

Definition in_scope (scope : option SignalType) : list SignalType := match scope with Some s => [s] | None => all_signals end.

Definition total (scope : option SignalType) (f : SignalMetricsState -> N) (m : BufferMetrics) : N :=
  fold_left (fun acc s => acc +u64 f (signal_state m s)) (in_scope scope) 0.

Definition dropped_records (scope : option SignalType) (reason : string) (m : BufferMetrics) : N :=
  total scope (fun st => match parse_reason reason with Some r => drops r st | None => 0 end) m.
Definition committed_records (scope : option SignalType) (m : BufferMetrics) : N := total scope committed m.
Definition lease_nacks (scope : option SignalType) (failure_class : string) (m : BufferMetrics) : N :=
  total scope (fun st => match parse_class failure_class with Some c => nacks c st | None => 0 end) m.

(** ** A buffer that is recovered *)

Section Recovered.
Context {RB Sch : Type}.

Definition record_recovered_signal (now : instant) (unix_now : N) (rings : PerSignal (SignalRingState RB Sch)) (m : BufferMetrics) (s : SignalType) : BufferMetrics :=
  let rs := sget rings s in
  let r := ring rs in
  let m := if 0 <? Ring.replayed_records rs then record_replayed s (Ring.replayed_records rs) m else m in
  let m := if 0 <? Ring.corruption_drops rs then record_dropped s (Ring.corruption_drops rs) "corruption" m else m in
  update_gauges s (rows_in_flight r) (bytes_in_flight r) (inflight_leases r) (oldest_enqueued_unix_ms r now unix_now) m.

Definition record_recovered (now : instant) (unix_now : N) (rings : PerSignal (SignalRingState RB Sch)) (m : BufferMetrics) : BufferMetrics :=
  fold_left (record_recovered_signal now unix_now rings) all_signals m.

Definition sync_ring_metrics (now : instant) (unix_now : N) (signal : SignalType) (r : SignalRing RB Sch) (m : BufferMetrics) : BufferMetrics :=
  update_gauges signal (rows_in_flight r) (bytes_in_flight r) (inflight_leases r) (oldest_enqueued_unix_ms r now unix_now) m.
End Recovered.

(** ** What is exported and what is read back agree *)

(** The sum of what a counter was given under some attributes. *)
Definition given (name : string) (attrs : Attrs) (e : Emission) : N :=
  match e with Add n v a => if String.eqb n name && bool_decide (a = attrs) then v else 0 | _ => 0 end.
Definition exported (name : string) (attrs : Attrs) (m : BufferMetrics) : N := fold_right N.add 0 (map (given name attrs) (bm_emitted m)).

Lemma exported_emit name attrs m es : exported name attrs (emit m es) = exported name attrs m + fold_right N.add 0 (map (given name attrs) es).
Proof.
  unfold exported. change (bm_emitted (emit m es)) with (bm_emitted m ++ es). rewrite map_app. induction (map (given name attrs) (bm_emitted m)) as [|x l IH]; cbn; [done|]. rewrite IH. lia.
Qed.

Definition sink_attrs (m : BufferMetrics) (s : SignalType) : Attrs := [("signal", as_str s); ("sink", bm_sink_name m)]%string.
Definition sink_mode_attrs (m : BufferMetrics) (s : SignalType) : Attrs := sink_attrs m s ++ [("mode", mode_as_str (bm_mode m))]%string.

Lemma as_str_inj s s' : as_str s = as_str s' -> s = s'.
Proof. by destruct s, s'. Qed.
Lemma reason_str_inj r r' : reason_str r = reason_str r' -> r = r'.
Proof. by destruct r, r'. Qed.
Lemma class_str_inj c c' : class_str c = class_str c' -> c = c'.
Proof. by destruct c, c'. Qed.

Lemma sink_attrs_inj m s s' : sink_attrs m s = sink_attrs m s' -> s = s'.
Proof. intros [= E]. by apply as_str_inj. Qed.
Lemma sink_mode_attrs_inj m s s' : sink_mode_attrs m s = sink_mode_attrs m s' -> s = s'.
Proof. intros [= E]. by apply as_str_inj. Qed.
Lemma drop_attrs_inj m s s' r r' : drop_attrs m s r = drop_attrs m s' r' -> s = s' /\ r = r'.
Proof. intros E. injection E as E1 E2. split; [by apply as_str_inj | by apply reason_str_inj]. Qed.
Lemma drop_mode_attrs_inj m s s' r r' : drop_mode_attrs m s r = drop_mode_attrs m s' r' -> s = s' /\ r = r'.
Proof. intros E. injection E as E1 E2. split; [by apply as_str_inj | by apply reason_str_inj]. Qed.
Lemma nack_attrs_inj m s s' c c' : nack_attrs m s c = nack_attrs m s' c' -> s = s' /\ c = c'.
Proof. intros E. injection E as E1 E2. split; [by apply as_str_inj | by apply class_str_inj]. Qed.
Lemma retry_attrs_inj m s s' c c' : retry_attrs m s c = retry_attrs m s' c' -> s = s' /\ c = c'.
Proof. intros E. injection E as E1 E2. split; [by apply as_str_inj | by apply class_str_inj]. Qed.

(** The counters of the state are those of the instruments, modulo 2^64. *)
Record agrees (m : BufferMetrics) (s : SignalType) : Prop := mkAgrees {
  ag_sink : signal_sink_attrs (signal_state m s) = sink_attrs m s;
  ag_mode : signal_sink_mode_attrs (signal_state m s) = sink_mode_attrs m s;
  ag_committed : committed (signal_state m s) = wrapping (exported "datalake.sink.records_committed_total" (sink_attrs m s) m);
  ag_replayed : replayed (signal_state m s) = wrapping (exported "datalake.sink.buffer_replayed_records_total" (sink_attrs m s) m) /\
    replayed (signal_state m s) = wrapping (exported "datalake.sink.buffer_replayed_records" (sink_mode_attrs m s) m);
  ag_drops r : drops r (signal_state m s) = wrapping (exported "datalake.sink.records_dropped_total" (drop_attrs m s r) m) /\
    drops r (signal_state m s) = wrapping (exported "datalake.sink.buffer_dropped_records" (drop_mode_attrs m s r) m);
  ag_nacks c : nacks c (signal_state m s) = wrapping (exported "datalake.sink.lease_nacks_total" (nack_attrs m s c) m) /\
    nacks c (signal_state m s) = wrapping (exported "datalake.sink.buffer_lease_retries" (retry_attrs m s c) m) }.

Lemma bump_wrapping a b : bump (wrapping a) b = wrapping (a + b).
Proof. unfold bump, wrapping. apply N.Div0.add_mod_idemp_l. Qed.

Lemma wrapping_0 : wrapping 0 = 0.
Proof. done. Qed.

Lemma agrees_new sink config s : agrees (new_metrics sink config) s.
Proof. split; try (intros []); destruct s; done. Qed.

(** A change of one signal's state with emissions about it. *)
Lemma signal_state_emit m es s : signal_state (emit m es) s = signal_state m s.
Proof. done. Qed.
Lemma signal_state_with m s s' st : signal_state (with_state m s st) s' = if decide (s = s') then st else signal_state m s'.
Proof. unfold signal_state, with_state. cbn. apply sget_sset. Qed.
Lemma exported_with name attrs m s st : exported name attrs (with_state m s st) = exported name attrs m.
Proof. done. Qed.
Lemma attrs_with m s st es : bm_sink_name (emit (with_state m s st) es) = bm_sink_name m /\ bm_mode (emit (with_state m s st) es) = bm_mode m.
Proof. done. Qed.

(** An attribute list given once. *)
Lemma given_same name v attrs : given name attrs (Add name v attrs) = v.
Proof. cbn. by rewrite String.eqb_refl, bool_decide_true. Qed.
Lemma given_attrs name v a attrs : a <> attrs -> given name attrs (Add name v a) = 0.
Proof. intros Hne. cbn. by rewrite (bool_decide_false (a = attrs)), andb_false_r. Qed.
Lemma given_name n name v a attrs : String.eqb n name = false -> given name attrs (Add n v a) = 0.
Proof. intros Hne. cbn. by rewrite Hne. Qed.

(** One operation keeps the agreement. *)
Ltac count_given :=
  repeat (rewrite ?exported_emit, ?exported_with; cbn [map fold_right];
    first [rewrite given_same | rewrite given_name by done | rewrite given_attrs by naive_solver]); rewrite ?N.add_0_r.

Lemma agrees_other m m' s : signal_state m' s = signal_state m s -> bm_sink_name m' = bm_sink_name m -> bm_mode m' = bm_mode m ->
  (forall name attrs, exported name attrs m' = exported name attrs m \/ (attrs <> sink_attrs m s /\ attrs <> sink_mode_attrs m s /\ (forall r, attrs <> drop_attrs m s r /\ attrs <> drop_mode_attrs m s r) /\ (forall c, attrs <> nack_attrs m s c /\ attrs <> retry_attrs m s c))) ->
  agrees m s -> agrees m' s.
Proof.
  intros Hst Hn Hm Hex [A1 A2 A3 [A4 A5] A6 A7].
  assert (E1 : sink_attrs m' s = sink_attrs m s) by (unfold sink_attrs; by rewrite Hn). assert (E2 : sink_mode_attrs m' s = sink_mode_attrs m s) by (unfold sink_mode_attrs; by rewrite E1, Hm).
  assert (E3 : forall r, drop_attrs m' s r = drop_attrs m s r) by (intros r; unfold drop_attrs; by rewrite Hn). assert (E4 : forall r, drop_mode_attrs m' s r = drop_mode_attrs m s r) by (intros r; unfold drop_mode_attrs; by rewrite Hn, Hm).
  assert (E5 : forall c, nack_attrs m' s c = nack_attrs m s c) by (intros c; unfold nack_attrs; by rewrite Hn). assert (E6 : forall c, retry_attrs m' s c = retry_attrs m s c) by (intros c; unfold retry_attrs; by rewrite Hn, Hm).
  assert (X : forall name attrs, (attrs = sink_attrs m s \/ attrs = sink_mode_attrs m s \/ (exists r, attrs = drop_attrs m s r \/ attrs = drop_mode_attrs m s r) \/ exists c, attrs = nack_attrs m s c \/ attrs = retry_attrs m s c) -> exported name attrs m' = exported name attrs m).
  { intros name attrs Ha. destruct (Hex name attrs) as [->|(N1 & N2 & N3 & N4)]; [done|]. destruct Ha as [?|[?|[[r [?|?]]|[c [?|?]]]]]; try done; [by destruct (N3 r).. | by destruct (N4 c) | by destruct (N4 c)]. }
  split; rewrite ?Hst, ?E1, ?E2; try done.
  - rewrite X by eauto. done.
  - rewrite !X by eauto. done.
  - intros r. rewrite E3, E4, !X by eauto 6. apply A6.
  - intros c. rewrite E5, E6, !X by eauto 7. apply A7.
Qed.

(** The signal in a list of attributes. *)
Lemma sets_apart m s s' attrs : s <> s' ->
  (attrs = sink_attrs m s' \/ attrs = sink_mode_attrs m s' \/ (exists r, attrs = drop_attrs m s' r \/ attrs = drop_mode_attrs m s' r) \/ exists c, attrs = nack_attrs m s' c \/ attrs = retry_attrs m s' c) ->
  attrs <> sink_attrs m s /\ attrs <> sink_mode_attrs m s /\ (forall r, attrs <> drop_attrs m s r /\ attrs <> drop_mode_attrs m s r) /\ (forall c, attrs <> nack_attrs m s c /\ attrs <> retry_attrs m s c).
Proof.
  intros Hne Ha. assert (Hhead : head attrs = Some ("signal", as_str s')%string) by (destruct Ha as [->|[->|[[r [->| ->]]|[c [->| ->]]]]]; done).
  assert (Hs : Some ("signal", as_str s')%string <> Some ("signal", as_str s)%string) by (intros [= E]; by apply as_str_inj in E).
  assert (Hne' : forall l, head l = Some ("signal", as_str s)%string -> attrs <> l) by (intros l El ->; by rewrite El in Hhead; injection Hhead as Hh; apply as_str_inj in Hh).
  split_and!; [by apply Hne' | by apply Hne' | intros r; split; by apply Hne' | intros c; split; by apply Hne'].
Qed.

Definition attrs_of (e : Emission) : option Attrs := match e with Add _ _ a => Some a | _ => None end.

Lemma given_apart name attrs es : attrs ∉ omap attrs_of es -> fold_right N.add 0 (map (given name attrs) es) = 0.
Proof.
  induction es as [|e es IH]; cbn; [done|]. intros Hn. destruct e as [n v a|n v a|n v a]; cbn in *; [|by rewrite IH..].
  rewrite bool_decide_false by (intros ->; apply Hn; by left). rewrite andb_false_r, IH; [done|]. intros Hin. apply Hn. by right.
Qed.

(** What an operation on one signal does to the agreement of another. *)
Definition of_signal (m : BufferMetrics) (s : SignalType) (attrs : Attrs) : Prop :=
  attrs = sink_attrs m s \/ attrs = sink_mode_attrs m s \/ (exists r, attrs = drop_attrs m s r \/ attrs = drop_mode_attrs m s r) \/ exists c, attrs = nack_attrs m s c \/ attrs = retry_attrs m s c.

Lemma agrees_apart m s0 st es s : s0 <> s -> Forall (of_signal m s0) (omap attrs_of es) -> agrees m s -> agrees (emit (with_state m s0 st) es) s.
Proof.
  intros Hne Hes Ha. refine (agrees_other m _ s _ _ _ _ Ha).
  - by rewrite signal_state_emit, signal_state_with, decide_False.
  - done.
  - done.
  - intros name attrs. rewrite exported_emit, exported_with. destruct (decide (attrs ∈ omap attrs_of es)) as [Hin|Hn].
    + right. eapply Forall_forall in Hes; [|exact Hin]. apply (sets_apart m s s0); [congruence | exact Hes].
    + left. rewrite given_apart by done. lia.
Qed.

(** Attributes of one signal that differ. *)
Lemma sink_ne_mode m s : sink_attrs m s <> sink_mode_attrs m s.
Proof. done. Qed.
Lemma sink_attrs_ne m s a r c : sink_attrs m s <> drop_attrs m a r /\ sink_attrs m s <> drop_mode_attrs m a r /\ sink_attrs m s <> nack_attrs m a c /\ sink_attrs m s <> retry_attrs m a c.
Proof. done. Qed.

(** The agreement as its emissions see it. *)
Lemma agrees_step m s st es :
  signal_sink_attrs st = sink_attrs m s -> signal_sink_mode_attrs st = sink_mode_attrs m s ->
  let g name attrs := fold_right N.add 0 (map (given name attrs) es) in
  committed st = bump (committed (signal_state m s)) (g "datalake.sink.records_committed_total" (sink_attrs m s)) ->
  (replayed st = bump (replayed (signal_state m s)) (g "datalake.sink.buffer_replayed_records_total" (sink_attrs m s)) /\
   replayed st = bump (replayed (signal_state m s)) (g "datalake.sink.buffer_replayed_records" (sink_mode_attrs m s))) ->
  (forall r, drops r st = bump (drops r (signal_state m s)) (g "datalake.sink.records_dropped_total" (drop_attrs m s r)) /\
   drops r st = bump (drops r (signal_state m s)) (g "datalake.sink.buffer_dropped_records" (drop_mode_attrs m s r))) ->
  (forall c, nacks c st = bump (nacks c (signal_state m s)) (g "datalake.sink.lease_nacks_total" (nack_attrs m s c)) /\
   nacks c st = bump (nacks c (signal_state m s)) (g "datalake.sink.buffer_lease_retries" (retry_attrs m s c))) ->
  agrees m s -> agrees (emit (with_state m s st) es) s.
Proof.
  intros H1 H2 g Hc [Hr1 Hr2] Hd Hn [A1 A2 A3 [A4 A5] A6 A7].
  assert (Est : signal_state (emit (with_state m s st) es) s = st) by (by rewrite signal_state_emit, signal_state_with, decide_True).
  split; rewrite Est; try done; rewrite ?exported_emit, ?exported_with.
  - by rewrite Hc, A3, bump_wrapping.
  - split; [by rewrite Hr1, A4, bump_wrapping | by rewrite Hr2, A5, bump_wrapping].
  - intros r. destruct (Hd r) as [D1 D2], (A6 r) as [B1 B2]. rewrite !exported_emit, !exported_with. split; [by rewrite D1, B1, bump_wrapping | by rewrite D2, B2, bump_wrapping].
  - intros c. destruct (Hn c) as [D1 D2], (A7 c) as [B1 B2]. rewrite !exported_emit, !exported_with. split; [by rewrite D1, B1, bump_wrapping | by rewrite D2, B2, bump_wrapping].
Qed.

Lemma bump_0 m s : agrees m s -> (forall r, bump (drops r (signal_state m s)) 0 = drops r (signal_state m s)) /\ (forall c, bump (nacks c (signal_state m s)) 0 = nacks c (signal_state m s)) /\
  bump (committed (signal_state m s)) 0 = committed (signal_state m s) /\ bump (replayed (signal_state m s)) 0 = replayed (signal_state m s).
Proof.
  intros [_ _ A3 [A4 _] A6 A7]. split_and!; [intros r; rewrite (proj1 (A6 r)) | intros c; rewrite (proj1 (A7 c)) | rewrite A3 | rewrite A4]; by rewrite bump_wrapping, N.add_0_r.
Qed.

(** ** Every history *)

Inductive MetricOp : Type :=
| OpGauges (s : SignalType) (records bytes leases oldest : N)
| OpCommitted (s : SignalType) (rows nanos : N)
| OpDropped (s : SignalType) (rows : N) (reason : string)
| OpNack (s : SignalType) (failure_class : string)
| OpReplayed (s : SignalType) (rows : N).

Definition metric_step (op : MetricOp) (m : BufferMetrics) : BufferMetrics :=
  match op with
  | OpGauges s records bytes leases oldest => update_gauges s records bytes leases oldest m
  | OpCommitted s rows nanos => record_committed s rows nanos m
  | OpDropped s rows reason => record_dropped s rows reason m
  | OpNack s failure_class => record_nack s failure_class m
  | OpReplayed s rows => record_replayed s rows m
  end.

Definition metric_run (ops : list MetricOp) (m : BufferMetrics) : BufferMetrics := fold_left (fun m op => metric_step op m) ops m.

(** Nothing given to a counter leaves it as it was. *)
Ltac nothing_given :=
  cbn; rewrite ?N.add_0_l; repeat match goal with |- _ /\ _ => split | H : forall _, bump _ 0 = _ |- _ => by rewrite H | H : bump _ 0 = _ |- _ => by rewrite H end.

Lemma committed_agrees m s0 rows nanos s : (forall s, agrees m s) -> agrees (record_committed s0 rows nanos m) s.
Proof.
  intros Ha. unfold record_committed. destruct (decide (s0 = s)) as [->|Hne].
  - pose proof (Ha s) as A. destruct (bump_0 m s A) as (Z1 & Z2 & Z3 & Z4). apply agrees_step; try apply A; cbn [map fold_right]; rewrite (ag_sink m s A).
    + rewrite given_same. cbn. by rewrite N.add_0_r.
    + nothing_given.
    + intros r. nothing_given.
    + intros c. nothing_given.
  - apply agrees_apart; [done | | apply Ha]. cbn [omap list_omap attrs_of]. rewrite !Forall_cons, Forall_nil. split; [left; apply Ha | done].
Qed.

Lemma replayed_agrees m s0 rows s : (forall s, agrees m s) -> agrees (record_replayed s0 rows m) s.
Proof.
  intros Ha. unfold record_replayed. destruct (rows =? 0); [apply Ha|]. cbv zeta. destruct (decide (s0 = s)) as [->|Hne].
  - pose proof (Ha s) as A. destruct (bump_0 m s A) as (Z1 & Z2 & Z3 & Z4). apply agrees_step; try apply A; cbn [map fold_right]; rewrite (ag_sink m s A), (ag_mode m s A).
    + nothing_given.
    + rewrite !given_same, !given_name by done. cbn. by rewrite ?N.add_0_l, ?N.add_0_r.
    + intros r. nothing_given.
    + intros c. nothing_given.
  - apply agrees_apart; [done | | apply Ha]. cbn [omap list_omap attrs_of]. rewrite !Forall_cons, Forall_nil. split_and!; [left; apply Ha | right; left; apply Ha | done].
Qed.

Lemma add_drops_same r rows st r' : drops r' (add_drops r rows st) = if decide (r = r') then bump (drops r' st) rows else drops r' st.
Proof. by destruct r, r'. Qed.
Lemma add_nack_same c st c' : nacks c' (add_nack c st) = if decide (c = c') then bump (nacks c' st) 1 else nacks c' st.
Proof. by destruct c, c'. Qed.

Lemma dropped_agrees m s0 rows reason s : (forall s, agrees m s) -> agrees (record_dropped s0 rows reason m) s.
Proof.
  intros Ha. unfold record_dropped. destruct (rows =? 0); [apply Ha|]. destruct (parse_reason reason) as [r0|]; [|apply Ha]. destruct (decide (s0 = s)) as [->|Hne].
  - pose proof (Ha s) as A. destruct (bump_0 m s A) as (Z1 & Z2 & Z3 & Z4).
    assert (Esame : forall st, let st' := add_drops r0 rows st in committed st' = committed st /\ replayed st' = replayed st /\ (forall c, nacks c st' = nacks c st) /\ signal_sink_attrs st' = signal_sink_attrs st /\ signal_sink_mode_attrs st' = signal_sink_mode_attrs st) by (intros st; destruct r0; split_and!; try done; by intros []).
    destruct (Esame (signal_state m s)) as (S1 & S2 & S3 & S4 & S5). apply agrees_step; try exact A; cbn [map fold_right]; rewrite ?S1, ?S2, ?S4, ?S5; try apply A.
    + nothing_given.
    + nothing_given.
    + intros r. rewrite add_drops_same. destruct (decide (r0 = r)) as [->|Hr].
      * rewrite !given_same, !given_name by done. by rewrite ?N.add_0_l, ?N.add_0_r.
      * rewrite !given_attrs by (intros E; first [apply drop_attrs_inj in E | apply drop_mode_attrs_inj in E | discriminate E]; naive_solver). by rewrite ?N.add_0_l, Z1.
    + intros c. rewrite S3. nothing_given.
  - apply agrees_apart; [done | | apply Ha]. cbn [omap list_omap attrs_of]. rewrite !Forall_cons, Forall_nil. split_and!; [right; right; left; exists r0; auto.. | done].
Qed.

Lemma nack_agrees m s0 failure_class s : (forall s, agrees m s) -> agrees (record_nack s0 failure_class m) s.
Proof.
  intros Ha. unfold record_nack. destruct (parse_class failure_class) as [c0|]; [|apply Ha]. destruct (decide (s0 = s)) as [->|Hne].
  - pose proof (Ha s) as A. destruct (bump_0 m s A) as (Z1 & Z2 & Z3 & Z4).
    assert (Esame : forall st, let st' := add_nack c0 st in committed st' = committed st /\ replayed st' = replayed st /\ (forall r, drops r st' = drops r st) /\ signal_sink_attrs st' = signal_sink_attrs st /\ signal_sink_mode_attrs st' = signal_sink_mode_attrs st) by (intros st; destruct c0; split_and!; try done; by intros []).
    destruct (Esame (signal_state m s)) as (S1 & S2 & S3 & S4 & S5). apply agrees_step; try exact A; cbn [map fold_right]; rewrite ?S1, ?S2, ?S4, ?S5; try apply A.
    + nothing_given.
    + nothing_given.
    + intros r. rewrite S3. nothing_given.
    + intros c. rewrite add_nack_same. destruct (decide (c0 = c)) as [->|Hc].
      * rewrite !given_same, !given_name by done. by rewrite ?N.add_0_l, ?N.add_0_r.
      * rewrite !given_attrs by (intros E; first [apply nack_attrs_inj in E | apply retry_attrs_inj in E | discriminate E]; naive_solver). by rewrite ?N.add_0_l, Z2.
  - apply agrees_apart; [done | | apply Ha]. cbn [omap list_omap attrs_of]. rewrite !Forall_cons, Forall_nil. split_and!; [right; right; right; exists c0; auto.. | done].
Qed.

Lemma gauges_agree m s0 a b c d s : (forall s, agrees m s) -> agrees (update_gauges s0 a b c d m) s.
Proof.
  intros Ha. unfold update_gauges. cbv zeta. destruct (Ha s) as [A1 A2 A3 A4 A5 A6].
  assert (Est : let st := signal_state (with_state m s0 ((signal_state m s0) <| buffered_records := a |> <| buffered_bytes := b |> <| leases_inflight := c |> <| oldest_unix_ms := d |>)) s in
    signal_sink_attrs st = signal_sink_attrs (signal_state m s) /\ signal_sink_mode_attrs st = signal_sink_mode_attrs (signal_state m s) /\ committed st = committed (signal_state m s) /\ replayed st = replayed (signal_state m s) /\
    (forall r, drops r st = drops r (signal_state m s)) /\ forall k, nacks k st = nacks k (signal_state m s)).
  { cbv zeta. rewrite signal_state_with. case_decide as E; [subst s0|]; split_and!; try done; intros []; done. }
  cbv zeta in Est. destruct Est as (E1 & E2 & E3 & E4 & E5 & E6). split; rewrite ?E1, ?E2, ?E3, ?E4; try done; [intros r; rewrite E5; apply A5 | intros k; rewrite E6; apply A6].
Qed.

Lemma run_agrees ops : forall m, (forall s, agrees m s) -> forall s, agrees (metric_run ops m) s.
Proof.
  induction ops as [|op ops IH]; intros m Ha; [done|]. cbn. apply IH. intros s. destruct op; cbn [metric_step];
    [by apply gauges_agree | by apply committed_agrees | by apply dropped_agrees | by apply nack_agrees | by apply replayed_agrees].
Qed.

Lemma step_names op m : bm_sink_name (metric_step op m) = bm_sink_name m /\ bm_mode (metric_step op m) = bm_mode m.
Proof.
  destruct op as [| |s rows reason|s class|s rows]; cbn [metric_step]; try done.
  - unfold record_dropped. destruct (rows =? 0); [done|]. by destruct (parse_reason reason).
  - unfold record_nack. by destruct (parse_class class).
  - unfold record_replayed. by destruct (rows =? 0).
Qed.

Lemma run_names ops : forall m, bm_sink_name (metric_run ops m) = bm_sink_name m /\ bm_mode (metric_run ops m) = bm_mode m.
Proof. induction ops as [|op ops IH]; intros m; [done|]. change (metric_run (op :: ops) m) with (metric_run ops (metric_step op m)). destruct (IH (metric_step op m)) as [-> ->]. apply step_names. Qed.

(** What a history says of a signal: the reference the instruments are held to. *)
Definition committed_rows (s : SignalType) (op : MetricOp) : N := match op with OpCommitted s' rows _ => if decide (s' = s) then rows else 0 | _ => 0 end.
Definition dropped_rows (s : SignalType) (r : DropReason) (op : MetricOp) : N :=
  match op with OpDropped s' rows reason => if decide (s' = s /\ reason = reason_str r) then rows else 0 | _ => 0 end.
Definition nacked (s : SignalType) (c : NackClass) (op : MetricOp) : N :=
  match op with OpNack s' class => if decide (s' = s /\ class = class_str c) then 1 else 0 | _ => 0 end.

Definition replayed_rows (s : SignalType) (op : MetricOp) : N := match op with OpReplayed s' rows => if decide (s' = s) then rows else 0 | _ => 0 end.

Definition sum_of (f : MetricOp -> N) (ops : list MetricOp) : N := fold_right N.add 0 (map f ops).

Lemma parse_reason_str reason r : parse_reason reason = Some r <-> reason = reason_str r.
Proof.
  split; [|intros ->; by destruct r]. unfold parse_reason. intros H. apply find_some in H as [_ H]. by apply String.eqb_eq in H.
Qed.
Lemma parse_class_str class c : parse_class class = Some c <-> class = class_str c.
Proof.
  split; [|intros ->; by destruct c]. unfold parse_class. intros H. apply find_some in H as [_ H]. by apply String.eqb_eq in H.
Qed.

Lemma committed_told op m s : (forall s, agrees m s) ->
  exported "datalake.sink.records_committed_total" (sink_attrs m s) (metric_step op m) =
    exported "datalake.sink.records_committed_total" (sink_attrs m s) m + committed_rows s op.
Proof.
  intros Ha. destruct op as [s' a b c d|s' rows nanos|s' rows reason|s' class|s' rows]; cbn [metric_step committed_rows].
  - unfold update_gauges. rewrite exported_with. lia.
  - unfold record_committed. rewrite exported_emit, exported_with, (ag_sink m s' (Ha s')). cbn [map fold_right]. case_decide as E.
    + subst. rewrite given_same. cbn. lia.
    + rewrite given_attrs by (intros X; by apply sink_attrs_inj in X). done.
  - unfold record_dropped. destruct (rows =? 0); [lia|]. destruct (parse_reason reason); [|lia]. rewrite exported_emit, exported_with. cbn. lia.
  - unfold record_nack. destruct (parse_class class); [|lia]. rewrite exported_emit, exported_with. cbn. lia.
  - unfold record_replayed. destruct (rows =? 0); [lia|]. cbv zeta. rewrite exported_emit, exported_with. cbn. lia.
Qed.

(** The two counters of each kind: without the buffer's mode, and with it. *)
Definition drop_counter (with_mode : bool) : string := if with_mode then "datalake.sink.buffer_dropped_records" else "datalake.sink.records_dropped_total".
Definition drop_key (with_mode : bool) (m : BufferMetrics) := if with_mode then drop_mode_attrs m else drop_attrs m.
Definition nack_counter (with_mode : bool) : string := if with_mode then "datalake.sink.buffer_lease_retries" else "datalake.sink.lease_nacks_total".
Definition nack_key (with_mode : bool) (m : BufferMetrics) := if with_mode then retry_attrs m else nack_attrs m.
Definition replay_counter (with_mode : bool) : string := if with_mode then "datalake.sink.buffer_replayed_records" else "datalake.sink.buffer_replayed_records_total".
Definition replay_key (with_mode : bool) (m : BufferMetrics) := if with_mode then sink_mode_attrs m else sink_attrs m.

Lemma drop_key_inj w m s s' r r' : drop_key w m s r = drop_key w m s' r' -> s = s' /\ r = r'.
Proof. destruct w; [intros E; injection E as E1 E2; split; [by apply as_str_inj | by apply reason_str_inj] | apply drop_attrs_inj]. Qed.
Lemma nack_key_inj w m s s' c c' : nack_key w m s c = nack_key w m s' c' -> s = s' /\ c = c'.
Proof. destruct w; [apply retry_attrs_inj | apply nack_attrs_inj]. Qed.
Lemma replay_key_inj w m s s' : replay_key w m s = replay_key w m s' -> s = s'.
Proof. destruct w; [apply sink_mode_attrs_inj | apply sink_attrs_inj]. Qed.

Lemma dropped_told w op m s r :
  exported (drop_counter w) (drop_key w m s r) (metric_step op m) = exported (drop_counter w) (drop_key w m s r) m + dropped_rows s r op.
Proof.
  destruct op as [s' a b c d|s' rows nanos|s' rows reason|s' class|s' rows]; cbn [metric_step dropped_rows].
  - unfold update_gauges. rewrite exported_with. lia.
  - unfold record_committed. rewrite exported_emit, exported_with. destruct w; cbn; lia.
  - unfold record_dropped. destruct (N.eqb_spec rows 0) as [->|Hz]; [case_decide; lia|]. destruct (parse_reason reason) as [r'|] eqn:E.
    + apply parse_reason_str in E as ->. rewrite exported_emit, exported_with. case_decide as D.
      * destruct D as [-> D%reason_str_inj]. subst r'. destruct w; cbn [map fold_right drop_counter drop_key]; rewrite given_same, given_name by done; lia.
      * assert (Hne : drop_key w m s' r' <> drop_key w m s r) by (intros [-> ->]%drop_key_inj; by apply D).
        destruct w; cbn [map fold_right drop_counter drop_key] in *; rewrite given_attrs, given_name by done; lia.
    + case_decide as D; [|lia]. destruct D as [_ D%parse_reason_str]. congruence.
  - unfold record_nack. destruct (parse_class class); [|lia]. rewrite exported_emit, exported_with. destruct w; cbn; lia.
  - unfold record_replayed. destruct (rows =? 0); [lia|]. cbv zeta. rewrite exported_emit, exported_with. destruct w; cbn; lia.
Qed.

Lemma nacked_told w op m s c :
  exported (nack_counter w) (nack_key w m s c) (metric_step op m) = exported (nack_counter w) (nack_key w m s c) m + nacked s c op.
Proof.
  destruct op as [s' a b c' d|s' rows nanos|s' rows reason|s' class|s' rows]; cbn [metric_step nacked].
  - unfold update_gauges. rewrite exported_with. lia.
  - unfold record_committed. rewrite exported_emit, exported_with. destruct w; cbn; lia.
  - unfold record_dropped. destruct (rows =? 0); [lia|]. destruct (parse_reason reason); [|lia]. rewrite exported_emit, exported_with. destruct w; cbn; lia.
  - unfold record_nack. destruct (parse_class class) as [c'|] eqn:E.
    + apply parse_class_str in E as ->. rewrite exported_emit, exported_with. case_decide as D.
      * destruct D as [-> D%class_str_inj]. subst c'. destruct w; cbn [map fold_right nack_counter nack_key]; rewrite given_same, given_name by done; lia.
      * assert (Hne : nack_key w m s' c' <> nack_key w m s c) by (intros [-> ->]%nack_key_inj; by apply D).
        destruct w; cbn [map fold_right nack_counter nack_key] in *; rewrite given_attrs, given_name by done; lia.
    + case_decide as D; [|lia]. destruct D as [_ D%parse_class_str]. congruence.
  - unfold record_replayed. destruct (rows =? 0); [lia|]. cbv zeta. rewrite exported_emit, exported_with. destruct w; cbn; lia.
Qed.

Lemma replayed_told w op m s : (forall s, agrees m s) ->
  exported (replay_counter w) (replay_key w m s) (metric_step op m) = exported (replay_counter w) (replay_key w m s) m + replayed_rows s op.
Proof.
  intros Ha. destruct op as [s' a b c d|s' rows nanos|s' rows reason|s' class|s' rows]; cbn [metric_step replayed_rows].
  - unfold update_gauges. rewrite exported_with. lia.
  - unfold record_committed. rewrite exported_emit, exported_with. destruct w; cbn; lia.
  - unfold record_dropped. destruct (rows =? 0); [lia|]. destruct (parse_reason reason); [|lia]. rewrite exported_emit, exported_with. destruct w; cbn; lia.
  - unfold record_nack. destruct (parse_class class); [|lia]. rewrite exported_emit, exported_with. destruct w; cbn; lia.
  - unfold record_replayed. destruct (N.eqb_spec rows 0) as [->|Hz]; [case_decide; lia|]. cbv zeta.
    rewrite exported_emit, exported_with, (ag_sink m s' (Ha s')), (ag_mode m s' (Ha s')). case_decide as E.
    + subst s'. destruct w; cbn [map fold_right replay_counter replay_key]; rewrite given_same, given_name by done; lia.
    + assert (Hne : replay_key w m s' <> replay_key w m s) by (intros X%replay_key_inj; congruence).
      destruct w; cbn [map fold_right replay_counter replay_key] in *; rewrite given_attrs, given_name by done; lia.
Qed.

Lemma run_told (f : MetricOp -> N) name (attrs : BufferMetrics -> Attrs)
  (step : forall op m, (forall s, agrees m s) -> exported name (attrs m) (metric_step op m) = exported name (attrs m) m + f op)
  (same : forall op m, attrs (metric_step op m) = attrs m) ops : forall m, (forall s, agrees m s) ->
  exported name (attrs m) (metric_run ops m) = exported name (attrs m) m + sum_of f ops.
Proof.
  induction ops as [|op ops IH]; intros m Ha; [cbn; lia|]. change (metric_run (op :: ops) m) with (metric_run ops (metric_step op m)).
  assert (Ha' : forall s, agrees (metric_step op m) s) by (apply (run_agrees [op] m Ha)). specialize (IH _ Ha'). rewrite same, step in IH by done. rewrite IH. cbn. unfold sum_of. lia.
Qed.

Lemma wrapping_max n : wrapping n <= u64_max.
Proof. unfold wrapping. assert (u64_max + 1 <> 0) by (vm_compute; discriminate). pose proof (N.mod_lt n (u64_max + 1)). lia. Qed.

Lemma total_one s f m : f (signal_state m s) <= u64_max -> total (Some s) f m = f (signal_state m s).
Proof. intros Hle. unfold total. cbn. unfold sat_add. lia. Qed.

(** C28 (metrics_agree). A buffer's metrics are its history: after any sequence of
    gauge updates, commits, drops, nacks and replays from a new metrics
    registry, the counters exported by OpenTelemetry, those with the buffer's mode among their
    attributes and those without, hold exactly the rows (or
    leases) that the history names, under the sink, signal and reason (or
    class) they were recorded with; and the reading functions return the same sums
    modulo 2^64.  A drop for a reason, or a nack of a class, that is not one of the code's changes
    nothing, and reading it back gives 0. *)
Theorem metrics_agree (sink : string) (config : BufferConfig) (ops : list MetricOp) (s : SignalType) :
  let m := metric_run ops (new_metrics sink config) in
  let key := [("signal", as_str s); ("sink", sink)]%string in
  let mode := ("mode", mode_as_str (BufferConfig.mode config))%string in
  exported "datalake.sink.records_committed_total" key m = sum_of (committed_rows s) ops /\
  committed_records (Some s) m = wrapping (sum_of (committed_rows s) ops) /\
  exported "datalake.sink.buffer_replayed_records_total" key m = sum_of (replayed_rows s) ops /\
  exported "datalake.sink.buffer_replayed_records" (key ++ [mode]) m = sum_of (replayed_rows s) ops /\
  (forall r, exported "datalake.sink.records_dropped_total" (key ++ [("reason", reason_str r)%string]) m = sum_of (dropped_rows s r) ops /\
  exported "datalake.sink.buffer_dropped_records" (key ++ [mode; ("reason", reason_str r)%string]) m = sum_of (dropped_rows s r) ops /\
  dropped_records (Some s) (reason_str r) m = wrapping (sum_of (dropped_rows s r) ops)) /\
  (forall c, exported "datalake.sink.lease_nacks_total" (key ++ [("failure_class", class_str c)%string]) m = sum_of (nacked s c) ops /\
  exported "datalake.sink.buffer_lease_retries" (key ++ [mode; ("class", class_str c)%string]) m = sum_of (nacked s c) ops /\
  lease_nacks (Some s) (class_str c) m = wrapping (sum_of (nacked s c) ops)) /\
  (forall reason rows, (forall r, reason <> reason_str r) -> metric_step (OpDropped s rows reason) m = m /\ dropped_records None reason m = 0) /\
  (forall class, (forall c, class <> class_str c) -> metric_step (OpNack s class) m = m /\ lease_nacks None class m = 0).
Proof.
  cbv zeta. set (m0 := new_metrics sink config). assert (Ha0 : forall s, agrees m0 s) by (intros; apply agrees_new).
  pose proof (run_agrees ops m0 Ha0 s) as A. destruct (run_names ops m0) as [En Em].
  assert (K : sink_attrs (metric_run ops m0) s = sink_attrs m0 s) by (unfold sink_attrs; by rewrite En).
  assert (K1 : forall r, drop_attrs (metric_run ops m0) s r = drop_attrs m0 s r) by (intros; unfold drop_attrs; by rewrite En).
  assert (K2 : forall c, nack_attrs (metric_run ops m0) s c = nack_attrs m0 s c) by (intros; unfold nack_attrs; by rewrite En).
  assert (C : exported "datalake.sink.records_committed_total" (sink_attrs m0 s) (metric_run ops m0) = sum_of (committed_rows s) ops).
  { apply (run_told (committed_rows s) _ (fun m => sink_attrs m s)); [intros; by apply committed_told | intros op m; unfold sink_attrs; by rewrite (proj1 (step_names op m)) | done]. }
  assert (R : forall w, exported (replay_counter w) (replay_key w m0 s) (metric_run ops m0) = sum_of (replayed_rows s) ops).
  { intros w. apply (run_told (replayed_rows s) _ (fun m => replay_key w m s)); [intros; by apply replayed_told | | done].
    intros op m. destruct (step_names op m) as [X Y]. unfold replay_key, sink_mode_attrs, sink_attrs. by rewrite X, Y. }
  assert (D : forall w r, exported (drop_counter w) (drop_key w m0 s r) (metric_run ops m0) = sum_of (dropped_rows s r) ops).
  { intros w r. apply (run_told (dropped_rows s r) _ (fun m => drop_key w m s r)); [intros; apply dropped_told | | done].
    intros op m. destruct (step_names op m) as [X Y]. unfold drop_key, drop_attrs, drop_mode_attrs. by rewrite X, Y. }
  assert (E : forall w c, exported (nack_counter w) (nack_key w m0 s c) (metric_run ops m0) = sum_of (nacked s c) ops).
  { intros w c. apply (run_told (nacked s c) _ (fun m => nack_key w m s c)); [intros; apply nacked_told | | done].
    intros op m. destruct (step_names op m) as [X Y]. unfold nack_key, nack_attrs, retry_attrs. by rewrite X, Y. }
  split_and!; [exact C | | apply (R false) | apply (R true) | intros r; split_and!; [apply (D false) | apply (D true)|]
    | intros c; split_and!; [apply (E false) | apply (E true)|] | |].
  - unfold committed_records. rewrite total_one; rewrite (ag_committed _ _ A), K, C; [done | apply wrapping_max].
  - destruct (ag_drops _ _ A r) as [D1 _]. rewrite K1 in D1. change (drop_attrs m0) with (drop_key false m0) in D1. rewrite (D false) in D1.
    unfold dropped_records. rewrite (proj2 (parse_reason_str _ r) eq_refl), total_one; rewrite D1; [done | apply wrapping_max].
  - destruct (ag_nacks _ _ A c) as [D1 _]. rewrite K2 in D1. change (nack_attrs m0) with (nack_key false m0) in D1. rewrite (E false) in D1.
    unfold lease_nacks. rewrite (proj2 (parse_class_str _ c) eq_refl), total_one; rewrite D1; [done | apply wrapping_max].
  - intros reason rows Hn. assert (Hr : parse_reason reason = None) by (destruct (parse_reason reason) as [r|] eqn:X; [by apply parse_reason_str, Hn in X | done]).
    unfold dropped_records. cbn [metric_step]. unfold record_dropped. rewrite Hr. by destruct (rows =? 0).
  - intros class Hn. assert (Hr : parse_class class = None) by (destruct (parse_class class) as [c|] eqn:X; [by apply parse_class_str, Hn in X | done]).
    unfold lease_nacks. cbn [metric_step]. unfold record_nack. by rewrite Hr.
Qed.

(** ** A recovered buffer is a history too *)

Lemma record_replayed_0 s n m : (if 0 <? n then record_replayed s n m else m) = record_replayed s n m.
Proof. unfold record_replayed. destruct n; done. Qed.
Lemma record_dropped_0 s n reason m : (if 0 <? n then record_dropped s n reason m else m) = record_dropped s n reason m.
Proof. unfold record_dropped. destruct n; done. Qed.

Definition recovered_ops {RB Sch} (now : instant) (unix_now : N) (rings : PerSignal (SignalRingState RB Sch)) (s : SignalType) : list MetricOp :=
  let rs := sget rings s in
  [OpReplayed s (Ring.replayed_records rs); OpDropped s (Ring.corruption_drops rs) "corruption";
   OpGauges s (rows_in_flight (ring rs)) (bytes_in_flight (ring rs)) (inflight_leases (ring rs)) (oldest_enqueued_unix_ms (ring rs) now unix_now)].

(** So [metrics_agree] speaks of a restarted buffer: what was found damaged on
    disk is counted as dropped once, and what was replayed as replayed. *)
Lemma recovered_history {RB Sch} now unix_now (rings : PerSignal (SignalRingState RB Sch)) m :
  record_recovered now unix_now rings m = metric_run (flat_map (recovered_ops now unix_now rings) all_signals) m.
Proof.
  unfold record_recovered, record_recovered_signal, metric_run. cbn [all_signals fold_left flat_map app recovered_ops metric_step].
  by rewrite !record_replayed_0, !record_dropped_0.
Qed.

Example damaged_and_dropped :
  dropped_records None "corruption" (record_dropped Traces 3 "corruption" (record_dropped Logs 2 "corruption" (record_dropped Logs 9 "elsewhere" (new_metrics "es" default_config)))) = 5.
Proof. reflexivity. Qed.

(** The witness: replays are told twice, and a class the code does not know is not told. *)
Definition demo_ops : list MetricOp := [OpCommitted Logs 3 5; OpReplayed Logs 2; OpReplayed Traces 9; OpNack Logs "fatal"; OpNack Logs "elsewhere"].

Lemma metrics_agree_witness :
  let m := metric_run demo_ops (new_metrics "es" default_config) in
  exported "datalake.sink.buffer_replayed_records_total" [("signal", "logs"); ("sink", "es")]%string m = 2 /\
  exported "datalake.sink.lease_nacks_total" [("signal", "logs"); ("sink", "es"); ("failure_class", "fatal")]%string m = 1 /\
  metric_step (OpNack Logs "elsewhere") m = m /\ lease_nacks None "elsewhere" m = 0.
Proof.
  cbv zeta. destruct (metrics_agree "es" default_config demo_ops Logs) as (_ & _ & R & _ & _ & K & _ & U).
  split; [exact R|]. split; [exact (proj1 (K FatalNack))|]. apply U. by intros [].
Defined.
