(* ===== verification/Upload.v ===== *)
(** Uploads: crates/parquet-sink/src/uploader.rs and writer.rs.

    OpenDAL, the semaphore and the Parquet encoder are parameters.  The encoder's
    thread and the upload task run under a schedule: the task's steps, and the
    fall of the handle, that happen before each send.  What the two share is the
    channel; a step of the task takes one message from it. *)

From S2P Require Import Prelude Arrow Text ParquetError CoreConfig ParquetConfig.
Local Open Scope N_scope.

Definition DEFAULT_CHANNEL_CAPACITY : nat := 8.
Definition OPENDAL_UPLOAD_CHUNK_SIZE : N := 8 * 1024 * 1024.
Definition DEFAULT_CHUNK_BUFFER_SIZE : nat := N.to_nat (256 * 1024).

Inductive UploaderMessage : Type := Chunk (b : bytes) | Finish.

(** An OpenDAL operator: a writer for a path in chunks of a size, its calls, and
    what is left when a [close] is given up while it runs; and the semaphore. *)
Class Opendal (St Wr : Type) := {
  writer_with : St -> bytes -> N -> St * option Wr;
  od_write : St -> Wr -> bytes -> St * Wr * bool;
  od_close : St -> Wr -> St * Wr * bool;
  od_close_dropped : St -> Wr -> St * Wr;
  od_abort : St -> Wr -> St;
  acquire : St -> St * bool }.

(** A write is not seen before the close; a close that fails or is given up has
    published the whole object or nothing; to abort shows nothing. *)
Class OpendalLaws (St Wr : Type) `{Opendal St Wr} := {
  visible : St -> bytes -> option bytes;
  contents : Wr -> bytes;
  target : Wr -> bytes;
  open_new st path size st' w : writer_with st path size = (st', Some w) -> contents w = [] /\ target w = path /\ visible st' path = visible st path;
  open_fails st path size st' : writer_with st path size = (st', None) -> visible st' path = visible st path;
  write_hidden st w b st' w' ok : od_write st w b = (st', w', ok) ->
    target w' = target w /\ visible st' (target w) = visible st (target w) /\ (ok = true -> contents w' = contents w ++ b);
  close_whole st w st' w' ok : od_close st w = (st', w', ok) ->
    target w' = target w /\ (visible st' (target w) = Some (contents w) \/ ok = false /\ visible st' (target w) = visible st (target w));
  close_dropped_whole st w st' w' : od_close_dropped st w = (st', w') ->
    target w' = target w /\ (visible st' (target w) = Some (contents w) \/ visible st' (target w) = visible st (target w));
  abort_hidden st w : visible (od_abort st w) (target w) = visible st (target w);
  acquire_hidden st path : visible (acquire st).1 path = visible st path }.

(** The runtime the caller of a synchronous send is on. *)
Inductive Runtime : Type := CurrentThread | MultiThread | NoRuntime.

Section Upload.
Context {St Wr : Type} `{Opendal St Wr}.
Variables (path : bytes) (has_semaphore : bool) (runtime : Runtime).

(** The task: before its writer is open, in its loop, at the close, at its end. *)
Inductive Task : Type := Opening | Receiving (w : Wr) | Closing (w : Wr) | Ended (r : result unit ParquetSinkError).

(** What happens between two sends: a step of the task, one that is interrupted in
    the close by the fall of the handle, or the fall of the handle. *)
Inductive Event : Type := TaskStep | InterruptedStep | HandleDropped.

Record Uploading := mkUploading {
  u_queue : list UploaderMessage; u_sender_open : bool; u_receiver_open : bool; u_abort : bool; u_task : Task; u_store : St; u_schedule : list (list Event) }.

#[export] Instance Uploading_eta : RecordEta Uploading := fun u =>
  mkUploading (u_queue u) (u_sender_open u) (u_receiver_open u) (u_abort u) (u_task u) (u_store u) (u_schedule u).

Definition acquire_io_permit (st : St) : St * result unit ParquetSinkError :=
  if has_semaphore then
    match acquire st with (st, true) => (st, Ok tt) | (st, false) => (st, Err (PInternal "Upload semaphore closed: semaphore closed")) end
  else (st, Ok tt).

Definition upload_aborted : ParquetSinkError := PInternal ("Upload aborted for path: " +:+ string_of_bytes path).

(** The task returns, and with it falls the receiver. *)
Definition ends (u : Uploading) (st : St) (r : result unit ParquetSinkError) : Uploading :=
  u <| u_task := Ended r |> <| u_store := st |> <| u_receiver_open := false |> <| u_queue := [] |>.

(** A turn of the loop. *)
Definition receive_step (w : Wr) (u : Uploading) : Uploading :=
  if u_abort u then ends u (od_abort (u_store u) w) (Err upload_aborted)
  else
    match u_queue u with
    | Chunk b :: queue =>
        let u := u <| u_queue := queue |> in
        let '(st, permit) := acquire_io_permit (u_store u) in
        match permit with
        | Err e => ends u (od_abort st w) (Err e)
        | Ok _ =>
            let '(st, w, ok) := od_write st w b in
            if ok then u <| u_task := Receiving w |> <| u_store := st |> else ends u (od_abort st w) (Err POpenDal)
        end
    | Finish :: queue => u <| u_task := Closing w |> <| u_queue := queue |>
    | [] => if u_sender_open u then u else ends u (od_abort (u_store u) w) (Err upload_aborted)
    end.

(** The select between the handle's fall and the close. *)
Definition close_step (interrupted : bool) (w : Wr) (u : Uploading) : Uploading :=
  if u_abort u then ends u (od_abort (u_store u) w) (Err upload_aborted)
  else if interrupted then
    let '(st, w) := od_close_dropped (u_store u) w in
    ends (u <| u_abort := true |>) (od_abort st w) (Err upload_aborted)
  else
    let '(st, permit) := acquire_io_permit (u_store u) in
    match permit with
    | Err e => ends u (od_abort st w) (Err e)
    | Ok _ =>
        let '(st, w, ok) := od_close st w in
        if ok then ends u st (Ok tt) else ends u (od_abort st w) (Err POpenDal)
    end.

Definition task_step (interrupted : bool) (u : Uploading) : Uploading :=
  match u_task u with
  | Opening =>
      match writer_with (u_store u) path OPENDAL_UPLOAD_CHUNK_SIZE with
      | (st, Some w) => u <| u_task := Receiving w |> <| u_store := st |>
      | (st, None) => ends u st (Err POpenDal)
      end
  | Receiving w => receive_step w u
  | Closing w => close_step interrupted w u
  | Ended _ => u
  end.

Definition event (u : Uploading) (e : Event) : Uploading :=
  match e with TaskStep => task_step false u | InterruptedStep => task_step true u | HandleDropped => u <| u_abort := true |> end.
Definition events (es : list Event) (u : Uploading) : Uploading := fold_left event es u.

(** [AsyncUploader::start]. *)
Definition start (in_runtime : bool) (st : St) (schedule : list (list Event)) : result Uploading ParquetSinkError :=
  if blank path then Err (PConfig "Storage path cannot be empty")
  else if negb in_runtime then Err (PInternal "AsyncUploader::start must be called within an active Tokio runtime")
  else Ok (mkUploading [] true true false Opening st schedule).

(** ** The sender *)

(** A full channel makes room when the task takes a message, or ends: at the
    second of its steps at the latest. *)
Fixpoint wait_room (fuel : nat) (u : Uploading) : Uploading :=
  match fuel with
  | O => u
  | S fuel => if u_receiver_open u && (DEFAULT_CHANNEL_CAPACITY <=? length (u_queue u))%nat then wait_room fuel (task_step false u) else u
  end.

Definition push (m : UploaderMessage) (u : Uploading) : Uploading := u <| u_queue := u_queue u ++ [m] |>.

Definition current_thread_full : string :=
  "Cannot block in place on a current-thread Tokio runtime when uploader channel is full. Use async methods or execute within a multi-threaded Tokio runtime.".

(** The events due before a send. *)
Definition due (u : Uploading) : Uploading := events (default [] (head (u_schedule u))) (u <| u_schedule := tail (u_schedule u) |>).

Definition send_sync (m : UploaderMessage) (u : Uploading) : Uploading * result unit ParquetSinkError :=
  let u := due u in
  if negb (u_receiver_open u) then (u, Err (PInternal "Uploader channel closed"))
  else if (length (u_queue u) <? DEFAULT_CHANNEL_CAPACITY)%nat then (push m u, Ok tt)
  else
    match runtime with
    | CurrentThread => (u, Err (PInternal current_thread_full))
    | MultiThread | NoRuntime =>
        let u := wait_room 2 u in
        if u_receiver_open u then (push m u, Ok tt) else (u, Err (PInternal "Uploader channel closed: channel closed"))
    end.

Definition sender_send_chunk (b : bytes) (u : Uploading) : Uploading * result unit ParquetSinkError := send_sync (Chunk b) u.

Definition drop_sender (u : Uploading) : Uploading := u <| u_sender_open := false |>.

Definition sender_finish (u : Uploading) : Uploading * result unit ParquetSinkError :=
  let '(u, r) := send_sync Finish u in (drop_sender u, r).

(** The asynchronous sends await room on every runtime. *)
Definition send_async (m : UploaderMessage) (u : Uploading) : Uploading * result unit ParquetSinkError :=
  let u := wait_room 2 (due u) in
  if u_receiver_open u then (push m u, Ok tt) else (u, Err (PInternal "Uploader channel closed: channel closed")).
Definition send_chunk_async (b : bytes) (u : Uploading) : Uploading * result unit ParquetSinkError := send_async (Chunk b) u.
Definition finish_async (u : Uploading) : Uploading * result unit ParquetSinkError := let '(u, r) := send_async Finish u in (drop_sender u, r).

(** ** The handle *)

(** How the task is joined. *)
Inductive Joined : Type := JoinedWith (r : result unit ParquetSinkError) | Cancelled | Panicked (msg : string).

Record UploaderHandle := mkHandle { join_handle : option Joined; completed : bool }.

Definition wait_for_completion (h : UploaderHandle) : UploaderHandle * result unit ParquetSinkError :=
  match join_handle h with
  | None => (h, Err (PInternal "Uploader task already completed"))
  | Some joined =>
      let res := match joined with
        | JoinedWith r => r
        | Cancelled => Err (PInternal "Uploader task was cancelled")
        | Panicked msg => Err (PInternal ("Uploader task panicked: " +:+ msg))
        end in
      (mkHandle None (completed h || is_ok res), res)
  end.

(** [Drop for UploaderHandle]. *)
Definition drop_handle (h : UploaderHandle) (u : Uploading) : Uploading := if completed h then u else event u HandleDropped.

(** ** The channel writer *)

Record ChannelWriter := mkChannelWriter { cw_sender : bool; cw_buffer : bytes; cw_capacity : nat; cw_bytes_written : nat }.

#[export] Instance ChannelWriter_eta : RecordEta ChannelWriter := fun w => mkChannelWriter (cw_sender w) (cw_buffer w) (cw_capacity w) (cw_bytes_written w).

Definition new_channel_writer (buffer_capacity : nat) : ChannelWriter :=
  mkChannelWriter true [] (if (buffer_capacity =? 0)%nat then DEFAULT_CHUNK_BUFFER_SIZE else buffer_capacity) 0.

Definition parquet_to_string (e : ParquetSinkError) : string :=
  match e with
  | POpenDal => "OpenDAL storage error"
  | PParquet => "Parquet writing failure"
  | PArrow => "Arrow array processing error"
  | PVariantEncoding msg => "Variant encoding error: " +:+ msg
  | PConfig msg => "Configuration validation error: " +:+ msg
  | PInternal msg => "Internal pipeline failure: " +:+ msg
  end.

(** An [io::Error] is its text. *)
Definition send_chunk (chunk : bytes) (w : ChannelWriter) (u : Uploading) : Uploading * result unit string :=
  if cw_sender w then
    match sender_send_chunk chunk u with (u, Ok _) => (u, Ok tt) | (u, Err e) => (u, Err (parquet_to_string e)) end
  else (u, Err "uploader sender already closed"%string).

Definition flush_buffer (w : ChannelWriter) (u : Uploading) : ChannelWriter * Uploading * result unit string :=
  match cw_buffer w with
  | [] => (w, u, Ok tt)
  | chunk => let w := w <| cw_buffer := [] |> in let '(u, r) := send_chunk chunk w u in (w, u, r)
  end.

Definition write (buf : bytes) (w : ChannelWriter) (u : Uploading) : ChannelWriter * Uploading * result nat string :=
  match buf with
  | [] => (w, u, Ok 0%nat)
  | _ =>
      let '(w, u, r) :=
        if negb (bool_decide (cw_buffer w = [])) && (cw_capacity w <? length (cw_buffer w) + length buf)%nat then flush_buffer w u else (w, u, Ok tt) in
      match r with
      | Err e => (w, u, Err e)
      | Ok _ =>
          if (cw_capacity w <=? length buf)%nat then
            match send_chunk buf w u with
            | (u, Err e) => (w, u, Err e)
            | (u, Ok _) => (w <| cw_bytes_written := (cw_bytes_written w + length buf)%nat |>, u, Ok (length buf))
            end
          else
            let w := w <| cw_buffer := cw_buffer w ++ buf |> <| cw_bytes_written := (cw_bytes_written w + length buf)%nat |> in
            if (cw_capacity w <=? length (cw_buffer w))%nat then
              match flush_buffer w u with (w, u, Err e) => (w, u, Err e) | (w, u, Ok _) => (w, u, Ok (length buf)) end
            else (w, u, Ok (length buf))
      end
  end.

Definition finish (w : ChannelWriter) (u : Uploading) : ChannelWriter * Uploading * result unit ParquetSinkError :=
  match flush_buffer w u with
  | (w, u, Err e) => (w, u, Err (PInternal e))
  | (w, u, Ok _) =>
      if cw_sender w then let '(u, r) := sender_finish u in (w <| cw_sender := false |>, u, r) else (w, u, Ok tt)
  end.

(** [Drop for ChannelWriter]. *)
Definition drop_writer (w : ChannelWriter) (u : Uploading) : Uploading := if cw_sender w then drop_sender u else u.

(** What an encoder does with its writer, until a call fails. *)
Inductive Output : Type := Bytes (b : bytes) | Flush.

Fixpoint outputs (os : list Output) (w : ChannelWriter) (u : Uploading) : ChannelWriter * Uploading * result unit string :=
  match os with
  | [] => (w, u, Ok tt)
  | Bytes b :: os => match write b w u with (w, u, Ok _) => outputs os w u | (w, u, Err e) => (w, u, Err e) end
  | Flush :: os => match flush_buffer w u with (w, u, Ok _) => outputs os w u | (w, u, Err e) => (w, u, Err e) end
  end.

(** ** The Parquet writer *)

(** The calls to the builder of the properties; the rate is in percent. *)
Inductive WriterProperty : Type :=
| WriterVersion2 | SetCompression (c : Compression) | DictionaryEnabled (b : bool) | PageStatistics
| MaxRowGroupBytes (n : N) | MaxRowGroupRows (n : N)
| BloomEnabled (column : string) (b : bool) | BloomFpp (column : string) (percent : N) | BloomMaxNdv (column : string) (n : N).

Definition BLOOM_FILTER_FPP : N := 1.
Definition BLOOM_FILTER_NDV : N := 1000000.

Variables (zstd_level_valid : Z -> bool) (zstd_level_default : Z).

Definition build_writer_properties (config : ParquetSinkConfig) : result (list WriterProperty) ParquetSinkError :=
  let? codec := effective_compression zstd_level_valid config in
  let? compression := to_parquet_compression zstd_level_valid zstd_level_default codec in
  Ok ([WriterVersion2; SetCompression compression; DictionaryEnabled true; PageStatistics]
    ++ (if 0 <? max_file_size_bytes config then [MaxRowGroupBytes (max_file_size_bytes config)] else [])
    ++ (if 0 <? max_records config then [MaxRowGroupRows (max_records config)] else [])
    ++ flat_map (fun column => [BloomEnabled column true; BloomFpp column BLOOM_FILTER_FPP; BloomMaxNdv column BLOOM_FILTER_NDV]) ["trace_id"; "span_id"]%string).

(** Arrow's writer of a file, over the calls it makes to what it writes to; each
    operation tells whether it succeeds if these do, and [enc_broken] is the state
    after one that did not. *)
Class Encoder (RB Sch Enc : Type) := {
  enc_new : Sch -> list WriterProperty -> list Output * option Enc;
  enc_write : Enc -> RB -> Enc * list Output * bool;
  enc_flush : Enc -> Enc * list Output * bool;
  enc_into_inner : Enc -> list Output * bool;
  enc_broken : Enc -> nat -> Enc;
  enc_bytes_written : Enc -> N;
  enc_in_progress_size : Enc -> N }.

Context {RB Sch Row Enc : Type} `{Arrow RB Sch Row} `{Encoder RB Sch Enc}.

Record PartitionWriter := mkPartitionWriter { pw_enc : Enc; pw_channel : ChannelWriter; records_written : N; bytes_written : N; in_progress_size : N }.

(** [ArrowWriter::try_new] drops its writer when it fails. *)
Definition try_new (schema : Sch) (config : ParquetSinkConfig) (u : Uploading) : Uploading * result PartitionWriter ParquetSinkError :=
  match build_writer_properties config with
  | Err e => (drop_sender u, Err e)
  | Ok props =>
      let '(os, enc) := enc_new schema props in
      let '(w, u, r) := outputs os (new_channel_writer DEFAULT_CHUNK_BUFFER_SIZE) u in
      match r, enc with
      | Ok _, Some enc => (u, Ok (mkPartitionWriter enc w 0 (enc_bytes_written enc) (enc_in_progress_size enc)))
      | _, _ => (drop_writer w u, Err PParquet)
      end
  end.

(** An operation of the encoder, with the sizes it leaves. *)
Definition encode (step : Enc * list Output * bool) (rows : N) (pw : PartitionWriter) (u : Uploading) : PartitionWriter * Uploading * result unit ParquetSinkError :=
  let '(enc, os, ok) := step in
  let '(w, u, r) := outputs os (pw_channel pw) u in
  let ok := ok && is_ok r in
  let enc := if ok then enc else enc_broken enc (cw_bytes_written w) in
  (mkPartitionWriter enc w (if ok then records_written pw + rows else records_written pw) (enc_bytes_written enc) (enc_in_progress_size enc), u,
   if ok then Ok tt else Err PParquet).

Definition write_batch (batch : RB) (pw : PartitionWriter) (u : Uploading) : PartitionWriter * Uploading * result unit ParquetSinkError :=
  encode (enc_write (pw_enc pw) batch) (num_rows batch) pw u.
Definition flush (pw : PartitionWriter) (u : Uploading) : PartitionWriter * Uploading * result unit ParquetSinkError := encode (enc_flush (pw_enc pw)) 0 pw u.

(** [close] consumes the writer. *)
Definition close (pw : PartitionWriter) (u : Uploading) : Uploading * result unit ParquetSinkError :=
  let '(os, ok) := enc_into_inner (pw_enc pw) in
  let '(w, u, r) := outputs os (pw_channel pw) u in
  if ok && is_ok r then let '(w, u, r) := finish w u in (drop_writer w u, r) else (drop_writer w u, Err PParquet).

(** A file, from its first batch to its close; a batch that fails ends it. *)
Fixpoint write_batches (batches : list RB) (pw : PartitionWriter) (u : Uploading) : PartitionWriter * Uploading * result unit ParquetSinkError :=
  match batches with
  | [] => (pw, u, Ok tt)
  | b :: batches => match write_batch b pw u with (pw, u, Ok _) => write_batches batches pw u | (pw, u, Err e) => (pw, u, Err e) end
  end.

Definition write_file (schema : Sch) (config : ParquetSinkConfig) (batches : list RB) (u : Uploading) : Uploading * result unit ParquetSinkError :=
  match try_new schema config u with
  | (u, Err e) => (u, Err e)
  | (u, Ok pw) =>
      match write_batches batches pw u with
      | (pw, u, Err e) => (drop_writer (pw_channel pw) u, Err e)
      | (pw, u, Ok _) => close pw u
      end
  end.

(** ** The object is whole or absent *)

Context `{!OpendalLaws St Wr}.

Section Whole.
Variable before : option bytes.

Abbreviation vis u := (visible (u_store u) path).

Definition chunks_of (bs : list bytes) : list UploaderMessage := map Chunk bs.

(** What the task has made of the messages sent: those it has taken are in its
    writer, in order, and the object is untouched before the close. *)
Definition upload_inv (sent : list UploaderMessage) (u : Uploading) : Prop :=
  match u_task u with
  | Opening => sent = u_queue u /\ vis u = before /\ u_receiver_open u = true
  | Receiving w => exists bs, sent = chunks_of bs ++ u_queue u /\ contents w = concat bs /\ target w = path /\ vis u = before /\ u_receiver_open u = true
  | Closing w => exists bs, sent = chunks_of bs ++ Finish :: u_queue u /\ contents w = concat bs /\ target w = path /\ vis u = before /\ u_receiver_open u = true
  | Ended r => u_receiver_open u = false /\
      (vis u = before /\ is_ok r = false \/ exists bs rest, sent = chunks_of bs ++ Finish :: rest /\ vis u = Some (concat bs))
  end.

Lemma permit_hidden st st' r : acquire_io_permit st = (st', r) -> visible st' path = visible st path.
Proof.
  unfold acquire_io_permit. destruct has_semaphore; [|by intros [= <- <-]]. pose proof (acquire_hidden st path). destruct (acquire st) as [st1 []]; cbn in *; by intros [= <- <-].
Qed.

Lemma ended_before sent u st e : visible st path = before -> upload_inv sent (ends u st (Err e)).
Proof. intros Hv. split; [done|]. by left. Qed.

Lemma abort_shows st w : target w = path -> visible (od_abort st w) path = visible st path.
Proof. intros <-. apply abort_hidden. Qed.

Lemma task_step_inv i sent u : upload_inv sent u -> upload_inv sent (task_step i u).
Proof.
  intros I. unfold task_step. unfold upload_inv in I. destruct (u_task u) as [|w|w|r] eqn:Et; [| | |by unfold upload_inv; rewrite Et].
  - destruct I as (-> & Hv & Ho). destruct (writer_with _ _ _) as [st [w|]] eqn:E.
    + apply open_new in E as (Hc & Ht & Hst). exists []. split_and!; cbn; by rewrite ?Hst.
    + apply open_fails in E. apply ended_before. by rewrite E.
  - destruct I as (bs & Hs & Hc & Ht & Hv & Ho). unfold receive_step. destruct (u_abort u); [apply ended_before; by rewrite abort_shows|].
    destruct (u_queue u) as [|[b|] queue] eqn:Eq.
    + destruct (u_sender_open u); [|apply ended_before; by rewrite abort_shows]. unfold upload_inv. rewrite Et. exists bs. by rewrite Eq.
    + destruct (acquire_io_permit _) as [st [[]|e]] eqn:Ep; apply permit_hidden in Ep; cbn in Ep; [|apply ended_before; by rewrite abort_shows, Ep].
      destruct (od_write st w b) as [[st' w'] ok] eqn:Ew. apply write_hidden in Ew as (Ht' & Hst & Hc'). rewrite Ht in *.
      destruct ok; [|apply ended_before; by rewrite abort_shows, Hst, Ep]. exists (bs ++ [b]). split_and!; cbn; try done.
      * unfold chunks_of in *. rewrite Hs, map_app, <- app_assoc. done.
      * rewrite Hc', Hc, concat_app by done. cbn. by rewrite app_nil_r.
      * by rewrite Hst, Ep.
    + exists bs. by split_and!.
  - destruct I as (bs & Hs & Hc & Ht & Hv & Ho). unfold close_step. destruct (u_abort u); [apply ended_before; by rewrite abort_shows|].
    assert (Hwhole : forall st, visible st path = Some (contents w) -> exists bs rest, sent = chunks_of bs ++ Finish :: rest /\ visible st path = Some (concat bs))
      by (intros st Hst; exists bs, (u_queue u); by rewrite <- Hc).
    destruct i.
    + destruct (od_close_dropped _ _) as [st w'] eqn:Ed. apply close_dropped_whole in Ed as (Ht' & Hst). rewrite Ht in *. split; [done|]. cbn [u_store ends]. change (vis _) with (visible (od_abort st w') path).
      rewrite abort_shows by done. destruct Hst as [Hst|Hst]; [right; by apply Hwhole | left; by rewrite Hst].
    + destruct (acquire_io_permit _) as [st [[]|e]] eqn:Ep; apply permit_hidden in Ep; [|apply ended_before; by rewrite abort_shows, Ep].
      destruct (od_close st w) as [[st' w'] ok] eqn:Ec. apply close_whole in Ec as (Ht' & Hst). rewrite Ht in *.
      destruct ok; (split; [done|]).
      * right. destruct Hst as [Hst|[? _]]; [by apply Hwhole | done].
      * change (vis _) with (visible (od_abort st' w') path). rewrite abort_shows by done. destruct Hst as [Hst|[_ Hst]]; [right; by apply Hwhole | left; by rewrite Hst, Ep].
Qed.

Lemma event_inv sent u e : upload_inv sent u -> upload_inv sent (event u e).
Proof. intros I. destruct e; cbn [event]; [by apply task_step_inv.. | exact I]. Qed.

Lemma events_inv sent es : forall u, upload_inv sent u -> upload_inv sent (events es u).
Proof. induction es as [|e es IH]; intros u I; [exact I|]. by apply IH, event_inv. Qed.

Lemma due_inv sent u : upload_inv sent u -> upload_inv sent (due u).
Proof. intros I. by apply events_inv. Qed.

Lemma wait_room_inv sent fuel : forall u, upload_inv sent u -> upload_inv sent (wait_room fuel u).
Proof. induction fuel as [|fuel IH]; intros u I; [exact I|]. cbn [wait_room]. destruct (_ && _); [by apply IH, task_step_inv | exact I]. Qed.

Lemma push_inv sent m u : u_receiver_open u = true -> upload_inv sent u -> upload_inv (sent ++ [m]) (push m u).
Proof.
  unfold upload_inv, push. cbn. destruct (u_task u) as [|w|w|r]; intros Ho I.
  - destruct I as (-> & I). done.
  - destruct I as (bs & -> & I). exists bs. by rewrite <- app_assoc.
  - destruct I as (bs & -> & I). exists bs. by rewrite <- app_assoc.
  - destruct I as [I _]. congruence.
Qed.

(** A send that succeeds is in the channel, one that fails is nowhere. *)
Definition handed (sent : list UploaderMessage) (m : UploaderMessage) (u : Uploading) (ok : bool) : Prop := upload_inv (if ok then sent ++ [m] else sent) u.

Lemma send_sync_spec sent m u u' r : upload_inv sent u -> send_sync m u = (u', r) -> handed sent m u' (is_ok r).
Proof.
  intros I. unfold send_sync. apply due_inv in I. destruct (u_receiver_open (due u)) eqn:Ho; cbn [negb]; [|by intros [= <- <-]].
  destruct (_ <? _)%nat; [intros [= <- <-]; by apply push_inv|].
  assert (Hw := wait_room_inv _ 2 _ I). destruct runtime; [by intros [= <- <-]|..]; (destruct (u_receiver_open (wait_room 2 (due u))) eqn:Hw'; intros [= <- <-]; [by apply push_inv | done]).
Qed.

Lemma send_async_spec sent m u u' r : upload_inv sent u -> send_async m u = (u', r) -> handed sent m u' (is_ok r).
Proof.
  intros I. unfold send_async. apply due_inv, (wait_room_inv _ 2) in I. destruct (u_receiver_open _) eqn:Ho; intros [= <- <-]; [by apply push_inv | done].
Qed.

Lemma drop_sender_inv sent u : upload_inv sent u -> upload_inv sent (drop_sender u).
Proof. done. Qed.

Lemma finish_spec sent u u' r : upload_inv sent u -> sender_finish u = (u', r) -> handed sent Finish u' (is_ok r).
Proof. intros I. unfold sender_finish. destruct (send_sync Finish u) as [v s] eqn:E. intros [= <- <-]. by apply (send_sync_spec _ _ _ _ _ I) in E. Qed.

(** *** The channel writer *)

(** What was given to the writer is what it has sent, then what it holds; it holds
    less than its capacity. *)
Definition writer_inv (given : bytes) (w : ChannelWriter) (u : Uploading) : Prop :=
  (exists bs, upload_inv (chunks_of bs) u /\ concat bs ++ cw_buffer w = given) /\ cw_bytes_written w = length given /\ (length (cw_buffer w) < cw_capacity w)%nat /\ cw_sender w = true.

(** A writer that failed has sent chunks, and nothing else. *)
Definition writer_failed (w : ChannelWriter) (u : Uploading) : Prop := cw_sender w = true /\ exists bs, upload_inv (chunks_of bs) u.

Lemma chunk_sent bs b u u' r : upload_inv (chunks_of bs) u -> sender_send_chunk b u = (u', r) ->
  upload_inv (chunks_of (if is_ok r then bs ++ [b] else bs)) u'.
Proof. intros I E. apply (send_sync_spec _ _ _ _ _ I) in E. unfold handed in E. destruct (is_ok r); [|done]. unfold chunks_of in *. by rewrite map_app. Qed.

Lemma send_chunk_spec bs b w u u' r : cw_sender w = true -> upload_inv (chunks_of bs) u -> send_chunk b w u = (u', r) ->
  upload_inv (chunks_of (if is_ok r then bs ++ [b] else bs)) u'.
Proof.
  intros Hs I. unfold send_chunk. rewrite Hs. destruct (sender_send_chunk b u) as [v [[]|e]] eqn:E; intros [= <- <-]; by apply (chunk_sent _ _ _ _ _ I) in E.
Qed.

Lemma flush_spec given w u w' u' r : writer_inv given w u -> flush_buffer w u = (w', u', r) ->
  cw_capacity w' = cw_capacity w /\ cw_buffer w' = [] /\ (if is_ok r then writer_inv given w' u' else writer_failed w' u').
Proof.
  intros ((bs & I & Hg) & Hn & Hl & Hs). unfold flush_buffer. destruct (cw_buffer w) as [|c buf] eqn:Eb.
  - intros [= <- <- <-]. split_and!; [done..|]. split_and!; [exists bs; by rewrite Eb | done | by rewrite Eb | done].
  - destruct (send_chunk _ _ _) as [v s] eqn:E. apply (send_chunk_spec bs) in E; [|done..]. intros [= <- <- <-]. split_and!; [done..|].
    destruct (is_ok s); [|split; [done | by exists bs]]. split_and!; [|done | cbn in *; lia | done]. exists (bs ++ [c :: buf]). split; [done|]. cbn. rewrite concat_app. cbn. by rewrite !app_nil_r.
Qed.

Lemma stream_spec given buf w u u' r : writer_inv given w u -> cw_buffer w = [] -> send_chunk buf w u = (u', r) ->
  if is_ok r then writer_inv (given ++ buf) (w <| cw_bytes_written := (cw_bytes_written w + length buf)%nat |>) u' else writer_failed w u'.
Proof.
  intros ((bs & I & Hg) & Hn & Hl & Hs) Hb E. apply (send_chunk_spec bs) in E; [|done..]. destruct (is_ok r); [|split; [done | by exists bs]].
  rewrite Hb, app_nil_r in Hg. split_and!; cbn; [|rewrite length_app; lia | by rewrite Hb in * | done].
  exists (bs ++ [buf]). split; [done|]. rewrite concat_app, Hb, Hg. cbn. by rewrite !app_nil_r.
Qed.

(** Putting bytes in the buffer; a buffer that is full is sent. *)
Lemma buffer_spec given buf w u w' u' r : writer_inv given w u -> (cw_buffer w = [] \/ length (cw_buffer w) + length buf <= cw_capacity w)%nat -> (length buf < cw_capacity w)%nat ->
  let w1 := w <| cw_buffer := cw_buffer w ++ buf |> <| cw_bytes_written := (cw_bytes_written w + length buf)%nat |> in
  (if (cw_capacity w1 <=? length (cw_buffer w1))%nat then flush_buffer w1 u else (w1, u, Ok tt)) = (w', u', r) ->
  cw_capacity w' = cw_capacity w /\ (if is_ok r then writer_inv (given ++ buf) w' u' else writer_failed w' u').
Proof.
  intros ((bs & I & Hg) & Hn & Hl & Hs) Hfit Hbuf w1. destruct (Nat.leb_spec (cw_capacity w1) (length (cw_buffer w1))) as [Hfull|Hroom].
  - unfold flush_buffer. destruct (cw_buffer w1) as [|c b] eqn:Eb; [cbn in Hfull; lia|]. destruct (send_chunk _ _ _) as [v s] eqn:E. apply (send_chunk_spec bs) in E; [|done..].
    intros [= <- <- <-]. split; [done|]. destruct (is_ok s); [|split; [done | by exists bs]]. split_and!; cbn; [|rewrite length_app; lia | lia | done].
    exists (bs ++ [c :: b]). split; [done|]. rewrite concat_app, <- Eb. cbn. by rewrite !app_nil_r, app_assoc, Hg.
  - intros [= <- <- <-]. split; [done|]. split_and!; [exists bs; split; [done|]; cbn; by rewrite app_assoc, Hg | cbn; rewrite length_app; lia | done | done].
Qed.

Lemma write_spec given buf w u w' u' r : writer_inv given w u -> write buf w u = (w', u', r) ->
  cw_capacity w' = cw_capacity w /\ match r with Ok n => n = length buf /\ writer_inv (given ++ buf) w' u' | Err _ => writer_failed w' u' end.
Proof.
  intros I. unfold write. destruct buf as [|c buf]; [intros [= <- <- <-]; by rewrite app_nil_r|]. set (b := c :: buf) in *.
  set (full := negb (bool_decide (cw_buffer w = [])) && _).
  destruct (if full then flush_buffer w u else (w, u, Ok tt)) as [[w1 u1] r1] eqn:E1.
  assert (R1 : cw_capacity w1 = cw_capacity w /\ (if is_ok r1 then writer_inv given w1 u1 /\ (cw_buffer w1 = [] \/ length (cw_buffer w1) + length b <= cw_capacity w1)%nat else writer_failed w1 u1)).
  { destruct full eqn:Ef.
    - apply (flush_spec given) in E1 as (Hc & Hb & Hw); [|done]. split; [done|]. destruct (is_ok r1); [|done]. split; [done | by left].
    - injection E1 as <- <- <-. split; [done|]. split; [done|]. unfold full in Ef. apply andb_false_iff in Ef as [Ef|Ef]; [left | right; by apply Nat.ltb_ge].
      by apply negb_false_iff, bool_decide_eq_true in Ef. }
  destruct R1 as (Hc1 & R1). destruct r1 as [[]|e]; [|intros [= <- <- <-]; done]. cbn [is_ok] in R1. destruct R1 as [I1 Hfit].
  destruct (Nat.leb_spec (cw_capacity w1) (length b)) as [Hbig|Hsmall].
  - destruct (send_chunk b w1 u1) as [u2 r2] eqn:E2. assert (Hb : cw_buffer w1 = []) by (destruct Hfit as [Hb|Hle]; [done|]; destruct (cw_buffer w1); [done | cbn in *; lia]).
    apply (stream_spec given) in E2; [|done..]. destruct r2 as [[]|e]; intros [= <- <- <-]; cbn [is_ok] in E2; done.
  - cbv zeta. pose proof (buffer_spec given b w1 u1) as Hbuf. cbv zeta in Hbuf.
    set (w2 := w1 <| cw_buffer := _ |> <| cw_bytes_written := _ |>) in *.
    destruct (cw_capacity w2 <=? length (cw_buffer w2))%nat eqn:Ecap.
    + destruct (flush_buffer w2 u1) as [[w3 u3] r3] eqn:E3. destruct (Hbuf w3 u3 r3 I1 Hfit Hsmall eq_refl) as [Hc3 R3]. rewrite Hc1 in Hc3.
      destruct r3 as [[]|e]; intros [= <- <- <-]; done.
    + intros [= <- <- <-]. destruct (Hbuf w2 u1 (Ok tt) I1 Hfit Hsmall eq_refl) as [Hc3 R3]. by rewrite Hc1 in Hc3.
Qed.

Definition written (os : list Output) : bytes := concat (map (fun o => match o with Bytes b => b | Flush => [] end) os).

Lemma outputs_spec os : forall given w u w' u' r, writer_inv given w u -> outputs os w u = (w', u', r) ->
  if is_ok r then writer_inv (given ++ written os) w' u' else writer_failed w' u'.
Proof.
  induction os as [|[b|] os IH]; intros given w u w' u' r I; cbn [outputs].
  - intros [= <- <- <-]. cbn. by rewrite app_nil_r.
  - destruct (write b w u) as [[w1 u1] r1] eqn:E. apply (write_spec _ _ _ _ _ _ _ I) in E as [_ E]. destruct r1 as [n|e]; [|intros [= <- <- <-]; done].
    destruct E as [_ E]. intros X. apply (IH _ _ _ _ _ _ E) in X. unfold written in *. cbn. by rewrite app_assoc.
  - destruct (flush_buffer w u) as [[w1 u1] r1] eqn:E. apply (flush_spec _ _ _ _ _ _ I) in E as (_ & _ & E). destruct r1 as [[]|e]; [|intros [= <- <- <-]; done]. cbn [is_ok] in E.
    intros X. by apply (IH _ _ _ _ _ _ E) in X.
Qed.

(** *** A file *)

Lemma encode_spec given enc os ok rows pw u pw' u' r : writer_inv given (pw_channel pw) u -> encode (enc, os, ok) rows pw u = (pw', u', r) ->
  match r with
  | Ok _ => ok = true /\ pw_enc pw' = enc /\ records_written pw' = records_written pw + rows /\ writer_inv (given ++ written os) (pw_channel pw') u'
  | Err _ => writer_failed (pw_channel pw') u'
  end.
Proof.
  intros I. unfold encode. destruct (outputs os (pw_channel pw) u) as [[w1 u1] r1] eqn:E. apply (outputs_spec _ _ _ _ _ _ _ I) in E.
  intros [= <- <- <-]. destruct r1 as [[]|e]; cbn [is_ok] in *; rewrite ?andb_true_r, ?andb_false_r; [|done].
  destruct ok; [done|]. cbn. destruct E as ((bs & Hbs & _) & _ & _ & Hs). split; [done|]. by exists bs.
Qed.

(** What the encoder writes for the batches, were it alone. *)
Definition encoded_end (enc : Enc) : option bytes := let '(os, ok) := enc_into_inner enc in if ok then Some (written os) else None.
Fixpoint encoded_batches (enc : Enc) (batches : list RB) : option bytes :=
  match batches with
  | [] => encoded_end enc
  | b :: batches => let '(enc, os, ok) := enc_write enc b in if ok then app (written os) <$> encoded_batches enc batches else None
  end.
Definition encoded (schema : Sch) (config : ParquetSinkConfig) (batches : list RB) : option bytes :=
  match build_writer_properties config with
  | Ok props => let '(os, enc) := enc_new schema props in enc ≫= fun enc => app (written os) <$> encoded_batches enc batches
  | Err _ => None
  end.

(** The channel's end of an upload: nothing but chunks, or chunks and the mark of
    the end. *)
Definition sent_of (r : option bytes) (u : Uploading) : Prop :=
  u_sender_open u = false /\ match r with Some all => exists bs, upload_inv (chunks_of bs ++ [Finish]) u /\ concat bs = all | None => exists bs, upload_inv (chunks_of bs) u end.

Lemma drop_failed w u : writer_failed w u -> sent_of None (drop_writer w u).
Proof. intros [Hs I]. unfold drop_writer. rewrite Hs. done. Qed.

Lemma writer_dropped given w u : writer_inv given w u -> sent_of None (drop_writer w u).
Proof. intros ((bs & I & _) & _ & _ & Hs). apply drop_failed. split; [done | by exists bs]. Qed.

Lemma finish_writer_spec given w u w' u' r : writer_inv given w u -> finish w u = (w', u', r) -> sent_of (if is_ok r then Some given else None) (drop_writer w' u').
Proof.
  intros I. unfold finish. destruct (flush_buffer w u) as [[w1 u1] r1] eqn:E. apply (flush_spec _ _ _ _ _ _ I) in E as (_ & Hb & E). destruct r1 as [[]|e]; cbn [is_ok] in E.
  - destruct E as ((bs & I1 & Hg) & _ & _ & Hs). rewrite Hs. rewrite Hb, app_nil_r in Hg. destruct (sender_finish u1) as [u2 r2] eqn:Ef. intros [= <- <- <-].
    pose proof (finish_spec _ _ _ _ I1 Ef) as Hh. assert (Hclosed : u_sender_open u2 = false) by (unfold sender_finish in Ef; destruct (send_sync _ _); by injection Ef as <- _).
    unfold handed in Hh. destruct (is_ok r2); (split; [done|]); exists bs; done.
  - intros [= <- <- <-]. by apply drop_failed.
Qed.

Lemma close_spec given pw u u' r : writer_inv given (pw_channel pw) u -> close pw u = (u', r) ->
  match r with Ok _ => exists all, encoded_end (pw_enc pw) = Some all /\ sent_of (Some (given ++ all)) u' | Err _ => sent_of None u' end.
Proof.
  intros I. unfold close, encoded_end. destruct (enc_into_inner (pw_enc pw)) as [os ok]. destruct (outputs os (pw_channel pw) u) as [[w1 u1] r1] eqn:E. apply (outputs_spec _ _ _ _ _ _ _ I) in E.
  destruct r1 as [[]|e]; cbn [is_ok] in *; rewrite ?andb_true_r, ?andb_false_r; [|intros [= <- <-]; by apply drop_failed].
  destruct ok; [|intros [= <- <-]; by eapply writer_dropped]. destruct (finish w1 u1) as [[w2 u2] r2] eqn:Ef. apply (finish_writer_spec _ _ _ _ _ _ E) in Ef. intros [= <- <-].
  destruct r2 as [[]|e]; [by eexists | done].
Qed.

Lemma write_batches_spec batches : forall given pw u pw' u' r, writer_inv given (pw_channel pw) u -> write_batches batches pw u = (pw', u', r) ->
  match r with
  | Ok _ => exists more, writer_inv (given ++ more) (pw_channel pw') u' /\ encoded_batches (pw_enc pw) batches = app more <$> encoded_end (pw_enc pw') /\
      records_written pw' = records_written pw + fold_right N.add 0 (map num_rows batches)
  | Err _ => writer_failed (pw_channel pw') u'
  end.
Proof.
  induction batches as [|b batches IH]; intros given pw u pw' u' r I; cbn [write_batches].
  - intros [= <- <- <-]. exists []. rewrite app_nil_r. split_and!; [done | | cbn; lia]. cbn [encoded_batches]. by destruct (encoded_end (pw_enc pw)).
  - destruct (write_batch b pw u) as [[pw1 u1] r1] eqn:E. unfold write_batch in E. cbn [encoded_batches]. destruct (enc_write (pw_enc pw) b) as [[enc os] ok].
    apply (encode_spec given) in E; [|done]. destruct r1 as [[]|e]; [|intros [= <- <- <-]; done]. destruct E as (-> & Ee & Er & I1).
    intros X. apply (IH _ _ _ _ _ _ I1) in X. destruct r as [[]|e]; [|done]. destruct X as (more & I2 & Eb & Er2). exists (written os ++ more). rewrite app_assoc. split_and!; [done | |].
    + rewrite <- Ee, Eb. destruct (encoded_end (pw_enc pw')); cbn; [by rewrite app_assoc | done].
    + rewrite Er2, Er. cbn. lia.
Qed.

Lemma write_file_spec schema config batches u u' r : upload_inv [] u -> u_sender_open u = true -> write_file schema config batches u = (u', r) ->
  match r with Ok _ => exists all, encoded schema config batches = Some all /\ sent_of (Some all) u' | Err _ => sent_of None u' end.
Proof.
  intros I Hs. unfold write_file, try_new, encoded. destruct (build_writer_properties config) as [props|e]; [|intros [= <- <-]; split; [done | by exists []]].
  destruct (enc_new schema props) as [os enc]. destruct (outputs os _ u) as [[w1 u1] r1] eqn:E.
  assert (I0 : writer_inv [] (new_channel_writer DEFAULT_CHUNK_BUFFER_SIZE) u) by (split_and!; [by exists [] | done | apply Nat.ltb_lt; by vm_compute | done]).
  apply (outputs_spec _ _ _ _ _ _ _ I0) in E. destruct r1 as [[]|e]; cbn [is_ok] in E; [|intros [= <- <-]; by apply drop_failed].
  destruct enc as [enc|]; [|intros [= <- <-]; by eapply writer_dropped]. set (pw := mkPartitionWriter _ _ _ _ _). destruct (write_batches batches pw u1) as [[pw2 u2] r2] eqn:Eb.
  apply (write_batches_spec _ _ _ _ _ _ _ (E : writer_inv _ (pw_channel pw) _)) in Eb. destruct r2 as [[]|e]; [|intros [= <- <-]; by apply drop_failed].
  destruct Eb as (more & I2 & Ee & _). change (pw_enc pw) with enc in Ee. intros Ec. apply (close_spec _ _ _ _ _ I2) in Ec. destruct r as [[]|e]; [|done].
  destruct Ec as (last & El & Hsent). eexists. split; [|exact Hsent]. cbn. rewrite Ee, El. cbn. by rewrite !app_assoc.
Qed.

(** *** The end of the task *)

Definition steps_left (u : Uploading) : nat :=
  match u_task u with Opening => length (u_queue u) + 3 | Receiving _ => length (u_queue u) + 2 | Closing _ => 1 | Ended _ => 0 end.

Lemma task_step_progress i u : u_sender_open u = false -> u_sender_open (task_step i u) = false /\ (steps_left (task_step i u) <= pred (steps_left u))%nat.
Proof.
  intros Hs. unfold task_step, steps_left at 2. destruct (u_task u) as [|w|w|r] eqn:Et.
  - destruct (writer_with _ _ _) as [st [w|]]; (split; [done|]); cbn; lia.
  - unfold receive_step. destruct (u_abort u); [split; [done | cbn; lia]|]. destruct (u_queue u) as [|[b|] queue].
    + rewrite Hs. split; [done | cbn; lia].
    + cbv zeta. destruct (acquire_io_permit _) as [st [[]|e]]; [|split; [done | cbn; lia]]. destruct (od_write st w b) as [[st' w'] []]; (split; [done | cbn; lia]).
    + split; [done | cbn; lia].
  - unfold close_step. destruct (u_abort u); [split; [done | cbn; lia]|]. destruct i; [destruct (od_close_dropped _ _); by split; [|cbn; lia]|].
    destruct (acquire_io_permit _) as [st [[]|e]]; [|by split; [|cbn; lia]]. destruct (od_close st w) as [[st' w'] []]; by split; [|cbn; lia].
  - split; [done|]. unfold steps_left. by rewrite Et.
Qed.

Lemma event_sender u e : u_sender_open u = false -> u_sender_open (event u e) = false.
Proof. intros Hs. destruct e; cbn [event]; [by apply task_step_progress.. | done]. Qed.

Lemma events_sender es : forall u, u_sender_open u = false -> u_sender_open (events es u) = false.
Proof. induction es as [|e es IH]; intros u Hs; [done|]. by apply IH, event_sender. Qed.

Lemma steps_end n : forall u, u_sender_open u = false -> (steps_left u <= n)%nat -> exists r, u_task (events (replicate n TaskStep) u) = Ended r.
Proof.
  induction n as [|n IH]; intros u Hs Hn.
  - unfold steps_left in Hn. destruct (u_task u) as [|?|?|r] eqn:Et; [lia..|]. by exists r.
  - destruct (task_step_progress false u Hs) as [Hs' Hp]. apply (IH (task_step false u)); [done | lia].
Qed.

Lemma chunks_finish_inj bs : forall bs' rest, chunks_of bs ++ [Finish] = chunks_of bs' ++ Finish :: rest -> bs' = bs.
Proof.
  induction bs as [|b bs IH]; intros [|b' bs'] rest; cbn; try done. intros E. injection E as -> E. f_equal. by eapply IH.
Qed.

Lemma chunks_no_finish bs : forall bs' rest, chunks_of bs <> chunks_of bs' ++ Finish :: rest.
Proof. induction bs as [|b bs IH]; intros [|b' bs'] rest; cbn; try done. intros E. injection E as _ E. by eapply IH. Qed.

(** What a sender that is gone leaves to be seen. *)
Lemma sent_none_shows es u : sent_of None u -> vis (events es u) = before /\ u_task (events es u) <> Ended (Ok tt).
Proof.
  intros [_ (bs & I)]. apply (events_inv _ es) in I. unfold upload_inv in I. destruct (u_task (events es u)) as [|w|w|r].
  - split; [apply I | done].
  - destruct I as (? & _ & _ & _ & Hv & _). done.
  - destruct I as (bs' & Hs & _). by apply chunks_no_finish in Hs.
  - destruct I as (_ & [[Hv Hr]|(bs' & rest & Hs & _)]); [split; [done|]; intros [= ->]; done | by apply chunks_no_finish in Hs].
Qed.

Lemma sent_some_shows es u all : sent_of (Some all) u ->
  (vis (events es u) = before \/ vis (events es u) = Some all) /\ (u_task (events es u) = Ended (Ok tt) -> vis (events es u) = Some all).
Proof.
  intros [_ (bs & I & Hall)]. apply (events_inv _ es) in I. unfold upload_inv in I. destruct (u_task (events es u)) as [|w|w|r].
  - split; [by left; apply I | done].
  - destruct I as (? & _ & _ & _ & Hv & _). split; [by left | done].
  - destruct I as (? & _ & _ & _ & Hv & _). split; [by left | done].
  - destruct I as (_ & [[Hv Hr]|(bs' & rest & Hs & Hv)]); [split; [by left | intros [= ->]; done]|].
    apply chunks_finish_inj in Hs as ->. rewrite Hall in Hv. split; [by right | done].
Qed.
End Whole.

Abbreviation object u := (visible (u_store u) path).

(** C23 (upload_whole_or_absent). Whatever the order in which the encoder's thread
    and the upload task run, whenever the handle falls, and whichever calls to
    the storage, the semaphore or the encoder fail: what is seen at the path is
    what was there before, or -- only if the file was closed without an error --
    every byte the encoder wrote for its batches, in order.  An upload that
    reports success is the second case, and every task ends after as many steps
    as the channel holds messages and three. *)
Theorem upload_whole_or_absent in_runtime st schedule u schema config batches u' r es :
  start in_runtime st schedule = Ok u -> write_file schema config batches u = (u', r) ->
  let fin := events es u' in
  (object fin = object u \/ r = Ok tt /\ is_Some (object fin) /\ object fin = encoded schema config batches) /\
  (u_task fin = Ended (Ok tt) -> r = Ok tt /\ is_Some (object fin) /\ object fin = encoded schema config batches) /\
  exists r', u_task (events (replicate (length (u_queue fin) + 3) TaskStep) fin) = Ended r'.
Proof.
  intros Hstart Hfile fin. assert (I : upload_inv (object u) [] u /\ u_sender_open u = true).
  { unfold start in Hstart. destruct (blank path); [done|]. destruct in_runtime; [|done]. by injection Hstart as <-. }
  destruct I as [I Ho]. apply (write_file_spec (object u)) in Hfile; [|done..].
  assert (Hs : u_sender_open u' = false) by (destruct r as [[]|e]; [destruct Hfile as (? & _ & [Hs _]) | destruct Hfile as [Hs _]]; done).
  assert (Hend : exists r', u_task (events (replicate (length (u_queue fin) + 3) TaskStep) fin) = Ended r').
  { apply steps_end; [by apply events_sender|]. unfold steps_left. destruct (u_task fin); lia. }
  destruct r as [[]|e].
  - destruct Hfile as (all & He & Hsent). destruct (sent_some_shows _ es _ _ Hsent) as [[Hv|Hv] Hok]; fold fin in Hv, Hok; rewrite He; split_and!; eauto.
    all: intros Hx; rewrite (Hok Hx); eauto.
  - destruct (sent_none_shows _ es _ Hfile) as [Hv Hok]. fold fin in Hv, Hok. split_and!; [by left | done | done].
Qed.

(** ** An upload that meets no fault completes *)

Section Faultless.
Hypothesis open_ok : forall st, is_Some (writer_with st path OPENDAL_UPLOAD_CHUNK_SIZE).2.
Hypothesis write_ok : forall st w b, (od_write st w b).2 = true.
Hypothesis close_ok : forall st w, (od_close st w).2 = true.
Hypothesis acquire_ok : forall st, (acquire st).2 = true.
Hypothesis blocking : runtime <> CurrentThread.

Definition calm (u : Uploading) : Prop := u_abort u = false /\ Forall (Forall (eq TaskStep)) (u_schedule u).

(** Before the mark of the end, and after it. *)
Definition going (u : Uploading) : Prop :=
  calm u /\ u_sender_open u = true /\ u_receiver_open u = true /\ (exists bs, u_queue u = chunks_of bs) /\ match u_task u with Opening | Receiving _ => True | _ => False end.
Definition finishing (u : Uploading) : Prop :=
  calm u /\ match u_task u with Opening | Receiving _ => exists bs, u_queue u = chunks_of bs ++ [Finish] | Closing _ => True | Ended r => r = Ok tt end.

Lemma permit_ok st : exists st', acquire_io_permit st = (st', Ok tt).
Proof. unfold acquire_io_permit. destruct has_semaphore; [|by eexists]. pose proof (acquire_ok st). destruct (acquire st) as [st' []]; [by eexists | done]. Qed.

Lemma going_step u : going u -> going (task_step false u).
Proof.
  intros (Hc & Hs & Hr & (bs & Hq) & Ht). unfold task_step. destruct (u_task u) as [|w|w|r] eqn:Et; [| |done..].
  - pose proof (open_ok (u_store u)) as [w Hw]. destruct (writer_with _ _ _) as [st o]. cbn in Hw. subst o. split_and!; try done; try apply Hc. by exists bs.
  - unfold receive_step. rewrite (proj1 Hc), Hq. destruct bs as [|b bs]; cbn [chunks_of map].
    + rewrite Hs. split_and!; try done; try apply Hc; [by exists [] | by rewrite Et].
    + destruct (permit_ok (u_store u)) as [st Hp]. cbn. rewrite Hp. pose proof (write_ok st w b) as Hw. destruct (od_write st w b) as [[st' w'] ok]. cbn in Hw. subst ok.
      split_and!; try done; try apply Hc. by exists bs.
Qed.

Lemma finishing_step u : finishing u -> finishing (task_step false u).
Proof.
  intros (Hc & Ht). unfold task_step. destruct (u_task u) as [|w|w|r] eqn:Et.
  - pose proof (open_ok (u_store u)) as [w Hw]. destruct (writer_with _ _ _) as [st o]. cbn in Hw. by subst o.
  - destruct Ht as (bs & Hq). unfold receive_step. rewrite (proj1 Hc), Hq. destruct bs as [|b bs]; cbn [chunks_of map app]; [done|].
    destruct (permit_ok (u_store u)) as [st Hp]. cbn. rewrite Hp. pose proof (write_ok st w b) as Hw. destruct (od_write st w b) as [[st' w'] ok]. cbn in Hw. subst ok.
    split; [done|]. by exists bs.
  - unfold close_step. rewrite (proj1 Hc). destruct (permit_ok (u_store u)) as [st Hp]. rewrite Hp. pose proof (close_ok st w) as Hw. destruct (od_close st w) as [[st' w'] ok]. cbn in Hw. by subst ok.
  - split; [done|]. by rewrite Et.
Qed.

Lemma steps_keep (P : Uploading -> Prop) (step : forall u, P u -> P (task_step false u)) es : forall u, Forall (eq TaskStep) es -> P u -> P (events es u).
Proof. induction es as [|e es IH]; intros u He Hu; [done|]. apply Forall_cons in He as [<- He]. apply IH; [done | by apply step]. Qed.

Lemma due_going u : going u -> going (due u).
Proof.
  intros (Hc & Hu). assert (Hd : Forall (eq TaskStep) (default [] (head (u_schedule u))) /\ Forall (Forall (eq TaskStep)) (tail (u_schedule u))).
  { destruct Hc as [_ Hf]. destruct (u_schedule u); [split; constructor|]. by apply Forall_cons in Hf. }
  apply (steps_keep going going_step); [apply Hd|]. split; [split; [apply Hc | apply Hd] | exact Hu].
Qed.

Lemma wait_going n : forall u, going u -> going (wait_room n u).
Proof. induction n as [|n IH]; intros u Hu; [done|]. cbn [wait_room]. destruct (_ && _); [by apply IH, going_step | done]. Qed.

(** A send blocks until there is room; the channel then takes the message. *)
Lemma send_ok m u : going u -> exists u', send_sync m u = (push m u', Ok tt) /\ going u'.
Proof.
  intros Hu%due_going. unfold send_sync. set (v := due u) in *. assert (Hr : u_receiver_open v = true) by apply Hu. rewrite Hr. cbn [negb].
  destruct (_ <? _)%nat; [by exists v|]. pose proof (wait_going 2 v Hu) as Hw. assert (Hr' : u_receiver_open (wait_room 2 v) = true) by apply Hw.
  destruct runtime; [done|..]; rewrite Hr'; by eexists.
Qed.

Lemma send_chunk_ok b w u : cw_sender w = true -> going u -> exists u', send_chunk b w u = (u', Ok tt) /\ going u'.
Proof.
  intros Hs Hu. unfold send_chunk, sender_send_chunk. rewrite Hs. destruct (send_ok (Chunk b) u Hu) as (u' & -> & Hc & Ho & Hr & (bs & Hq) & Ht). eexists. split; [done|].
  split_and!; try done; try apply Hc. exists (bs ++ [b]). cbn. rewrite Hq. unfold chunks_of. by rewrite map_app.
Qed.

Lemma flush_ok w u : cw_sender w = true -> going u -> exists w' u', flush_buffer w u = (w', u', Ok tt) /\ cw_sender w' = true /\ going u'.
Proof.
  intros Hs Hu. unfold flush_buffer. destruct (cw_buffer w) as [|c b]; [by exists w, u|]. cbv zeta.
  match goal with |- context [send_chunk ?chunk ?w1 u] => destruct (send_chunk_ok chunk w1 u Hs Hu) as (u' & -> & Hu') end. by eexists _, _.
Qed.

Lemma write_goes b w u : cw_sender w = true -> going u -> exists w' u', write b w u = (w', u', Ok (length b)) /\ cw_sender w' = true /\ going u'.
Proof.
  intros Hs Hu. unfold write. destruct b as [|c b]; [by exists w, u|]. set (buf := c :: b).
  assert (Hf : exists w1 u1, (if negb (bool_decide (cw_buffer w = [])) && (cw_capacity w <? length (cw_buffer w) + length buf)%nat then flush_buffer w u else (w, u, Ok tt)) = (w1, u1, Ok tt) /\ cw_sender w1 = true /\ going u1)
    by (destruct (_ && _); [by apply flush_ok | by exists w, u]).
  destruct Hf as (w1 & u1 & -> & Hs1 & Hu1). destruct (_ <=? _)%nat.
  - destruct (send_chunk_ok buf w1 u1 Hs1 Hu1) as (u2 & -> & Hu2). by eexists _, _.
  - cbv zeta. set (w2 := w1 <| cw_buffer := _ |> <| cw_bytes_written := _ |>). destruct (_ <=? _)%nat; [|by exists w2, u1].
    destruct (flush_ok w2 u1 Hs1 Hu1) as (w3 & u3 & -> & Hw3). by exists w3, u3.
Qed.

Lemma outputs_ok os : forall w u, cw_sender w = true -> going u -> exists w' u', outputs os w u = (w', u', Ok tt) /\ cw_sender w' = true /\ going u'.
Proof.
  induction os as [|[b|] os IH]; intros w u Hs Hu; cbn [outputs]; [by exists w, u|..].
  - destruct (write_goes b w u Hs Hu) as (w1 & u1 & -> & Hs1 & Hu1). by apply IH.
  - destruct (flush_ok w u Hs Hu) as (w1 & u1 & -> & Hs1 & Hu1). by apply IH.
Qed.

Lemma batches_ok batches : forall pw u, cw_sender (pw_channel pw) = true -> going u -> is_Some (encoded_batches (pw_enc pw) batches) ->
  exists pw' u', write_batches batches pw u = (pw', u', Ok tt) /\ cw_sender (pw_channel pw') = true /\ going u' /\ is_Some (encoded_end (pw_enc pw')).
Proof.
  induction batches as [|b batches IH]; intros pw u Hs Hu He; cbn [write_batches encoded_batches] in *; [by exists pw, u|].
  unfold write_batch. destruct (enc_write (pw_enc pw) b) as [[enc os] ok]. destruct ok; [|by destruct He]. unfold encode.
  destruct (outputs_ok os (pw_channel pw) u Hs Hu) as (w1 & u1 & -> & Hs1 & Hu1). apply IH; [done..|]. apply fmap_is_Some in He. done.
Qed.

Lemma finish_ok w u : cw_sender w = true -> going u -> exists w' u', finish w u = (w', u', Ok tt) /\ cw_sender w' = false /\ finishing u' /\ u_sender_open u' = false.
Proof.
  intros Hs Hu. unfold finish. destruct (flush_ok w u Hs Hu) as (w1 & u1 & -> & Hs1 & Hu1). rewrite Hs1. unfold sender_finish.
  destruct (send_ok Finish u1 Hu1) as (u2 & -> & Hc & Ho & Hr & (bs & Hq) & Ht). eexists _, _. split; [done|]. split; [done|]. split; [|done]. split; [exact Hc|].
  assert (Hq' : u_queue (drop_sender (push Finish u2)) = chunks_of bs ++ [Finish]) by (unfold drop_sender, push; cbn; by rewrite Hq).
  change (u_task (drop_sender (push Finish u2))) with (u_task u2). destruct (u_task u2); try done; by exists bs.
Qed.

Lemma write_file_ok schema config batches u : going u -> is_Some (encoded schema config batches) ->
  exists u', write_file schema config batches u = (u', Ok tt) /\ finishing u' /\ u_sender_open u' = false.
Proof.
  intros Hu He. unfold write_file, try_new, encoded in *. destruct (build_writer_properties config) as [props|]; [|by destruct He]. destruct (enc_new schema props) as [os [enc|]]; [|by destruct He]. cbn in He.
  destruct (outputs_ok os (new_channel_writer DEFAULT_CHUNK_BUFFER_SIZE) u eq_refl Hu) as (w1 & u1 & -> & Hs1 & Hu1). apply fmap_is_Some in He.
  destruct (batches_ok batches (mkPartitionWriter enc w1 0 (enc_bytes_written enc) (enc_in_progress_size enc)) u1 Hs1 Hu1 He) as (pw & u2 & -> & Hs2 & Hu2 & Hend).
  unfold close, encoded_end in *. destruct (enc_into_inner (pw_enc pw)) as [os' []]; [|by destruct Hend]. destruct (outputs_ok os' (pw_channel pw) u2 Hs2 Hu2) as (w3 & u3 & -> & Hs3 & Hu3).
  cbn. destruct (finish_ok w3 u3 Hs3 Hu3) as (w4 & u4 & -> & Hs4 & Hf & Ho). unfold drop_writer. rewrite Hs4. by exists u4.
Qed.

(** With a runtime that can block, no fault, and a handle that is kept, a file of
    batches the encoder takes is uploaded whole. *)
Lemma faultless_upload_completes st schedule u schema config batches :
  Forall (Forall (eq TaskStep)) schedule -> start true st schedule = Ok u -> is_Some (encoded schema config batches) ->
  exists u', write_file schema config batches u = (u', Ok tt) /\
    let fin := events (replicate (length (u_queue u') + 3) TaskStep) u' in u_task fin = Ended (Ok tt) /\ object fin = encoded schema config batches.
Proof.
  intros Hsched Hstart He. assert (Hu : going u).
  { unfold start in Hstart. destruct (blank path); [done|]. injection Hstart as <-. split_and!; try done. by exists []. }
  destruct (write_file_ok schema config batches u Hu He) as (u' & Hfile & Hf & Hs). exists u'. split; [done|]. cbv zeta.
  set (es := replicate _ _). assert (Hes : Forall (eq TaskStep) es) by (by apply Forall_replicate).
  pose proof (steps_keep finishing finishing_step es u' Hes Hf) as [_ Ht]. destruct (steps_end (length (u_queue u') + 3) u' Hs) as [r Hr]; [unfold steps_left; destruct (u_task u'); lia|].
  fold es in Hr. rewrite Hr in Ht. subst r. split; [done|]. clear Hu.
  assert (I : upload_inv (object u) [] u /\ u_sender_open u = true) by (unfold start in Hstart; destruct (blank path); [done|]; by injection Hstart as <-).
  destruct I as [I Ho]. apply (write_file_spec (object u)) in Hfile; [|done..]. destruct Hfile as (all & -> & Hsent). by apply (sent_some_shows _ es) in Hsent as [_ Hsent]; apply Hsent.
Qed.
End Faultless.
End Upload.

Module UploadDemo.
Import Toy.
(** Objects by path; a writer is its path and what was written.  A close that
    loses its answer has published the object. *)
Abbreviation Store := (gmap bytes bytes).

#[local] Instance opendal (lost : bool) : Opendal Store (bytes * bytes) := {|
  writer_with st path _ := (st, Some (path, []));
  od_write st w b := (st, (w.1, w.2 ++ b), true);
  od_close st w := (<[w.1 := w.2]> st, w, negb lost);
  od_close_dropped st w := (st, w);
  od_abort st _ := st;
  acquire st := (st, true) |}.

#[local] Instance opendal_laws lost : OpendalLaws (H := opendal lost) Store (bytes * bytes).
Proof.
  refine {| visible st p := (st : Store) !! p; contents w := w.2; target w := w.1 |}; cbn; try done.
  - by intros st path _ st' w [= <- <-].
  - intros st w b st' w' ok [= <- <- <-]. done.
  - intros st w st' w' ok [= <- <- _]. split; [done|]. left. by rewrite lookup_insert_eq.
  - intros st w st' w' [= <- <-]. split; [done | by right].
Defined.

(** A file is a mark, the rows of its batches, and the mark. *)
#[local] Instance encoder : Encoder Toy.batch N (list N) := {|
  enc_new _ _ := ([Bytes [80]], Some []);
  enc_write enc b := (enc ++ b.2, [Bytes b.2; Flush], true);
  enc_flush enc := (enc, [Flush], true);
  enc_into_inner enc := ([Bytes [80]], true);
  enc_broken enc _ := enc;
  enc_bytes_written enc := N.of_nat (length enc);
  enc_in_progress_size _ := 0 |}.

Definition path : bytes := text "logs/a.parquet".
Definition batches : list Toy.batch := [(1, [5; 6]); (1, [7])].
Definition schedule : list (list Event) := [[TaskStep]; [TaskStep; TaskStep]; []; [TaskStep]].
Definition begun : Uploading := mkUploading (Wr := bytes * bytes) [] true true false Opening (∅ : Store) schedule.
Definition level_valid (z : Z) : bool := (z <=? 22)%Z.

Abbreviation file lost := (write_file (H := opendal lost) path true MultiThread level_valid 3%Z 1 default_config batches begun).
Abbreviation after lost es := (events (H := opendal lost) path true es (file lost).1).

(** The file is uploaded; when its close loses the answer the object is there all
    the same, and when the handle falls before the close it is not. *)
Lemma upload_whole_or_absent_witness :
  (file false).2 = Ok tt /\ u_task (after false (replicate 4 TaskStep)) = Ended (Ok tt) /\ u_store (after false (replicate 4 TaskStep)) !! path = Some [80; 5; 6; 7; 80] /\
  u_task (after true (replicate 4 TaskStep)) = Ended (Err POpenDal) /\ u_store (after true (replicate 4 TaskStep)) !! path = Some [80; 5; 6; 7; 80] /\
  u_store (after false [TaskStep; HandleDropped; TaskStep; TaskStep]) !! path = None /\
  (u_task (after false (replicate 4 TaskStep)) = Ended (Ok tt) ->
    (file false).2 = Ok tt /\ is_Some (u_store (after false (replicate 4 TaskStep)) !! path) /\
    u_store (after false (replicate 4 TaskStep)) !! path = encoded level_valid 3%Z 1 default_config batches).
Proof.
  split_and!; [by vm_compute..|].
  exact (proj1 (proj2 (upload_whole_or_absent (H := opendal false) path true MultiThread level_valid 3%Z true ∅ schedule begun 1 default_config batches
    (file false).1 (file false).2 (replicate 4 TaskStep) eq_refl (surjective_pairing _)))).
Defined.
End UploadDemo.
