(* ===== verification/Reload.v ===== *)
(** The reload endpoint: crates/wasm-transformer/src/reload.rs, from the request to
    the answer, with its route, and the probe routes of src/main.rs beside it.

    The file system is the outcome of each of its calls; serde_json's decoder and
    the blocking task's panic, which comes before anything is published, are
    parameters. *)

From S2P Require Import Prelude Text CoreConfig Signal Guard Engine Worker Dispatcher Transformer.
Local Open Scope N_scope.

Definition MAX_MODULE_SIZE : N := 64 * 1024 * 1024.
Definition MAX_RELOAD_REQUEST_BYTES : N := 4 * 1024.

Record WasmReloadRequest := mkReloadRequest { rq_expected_sha : option bytes }.
Definition default_reload_request : WasmReloadRequest := mkReloadRequest None.
Record WasmReloadResponse := mkReloadResponse { rs_status : string; rs_path : bytes; rs_generation : N }.

Definition OK : N := 200.
Definition BAD_REQUEST : N := 400.
Definition NOT_FOUND : N := 404.
Definition METHOD_NOT_ALLOWED : N := 405.
Definition PAYLOAD_TOO_LARGE : N := 413.
Definition INTERNAL_SERVER_ERROR : N := 500.
Definition SERVICE_UNAVAILABLE : N := 503.

(** What opening a file gives, its metadata if they can be read, and what is then
    read of it, which may be more or less than they said. *)
Record FileMeta := mkFileMeta { fm_is_file : bool; fm_len : N }.
Inductive Opened : Type := OpenIsDirectory | OpenFailed | OpenedFile (metadata : option FileMeta) (read : option bytes).

Class ModuleFiles := {
  canonicalize : bytes -> option bytes;
  open_file : bytes -> Opened;
  parse_reload_request : bytes -> option WasmReloadRequest }.

(** [AsyncReadExt::take]. *)
Fixpoint take_bytes (n : N) (s : bytes) : bytes := match s with [] => [] | b :: s => if n =? 0 then [] else b :: take_bytes (n - 1) s end.

Definition is_blank_path (path : bytes) : bool :=
  bool_decide (path = []) || match from_utf8 path with Some s => blank s | None => false end.
(** A component of the path is [..]. *)
Definition has_parent_dir (path : bytes) : bool := existsb (fun c => bool_decide (c = text "..")) (split_parts 47 path).

Section Reload.
Context {RB Arr M G J : Type} `{Tables RB Arr} `{Wasm M G} `{Codec RB J} `{Toolchain M} `{ModuleFiles}.

(** [WasmReloadState], but for the engines, which the handler changes. *)
Record WasmReloadState := mkReloadState { st_module_path : bytes; st_configured_sha : option bytes }.

Definition not_blank (s : option bytes) : option bytes := match s with Some s => if blank s then None else Some s | None => None end.

Definition new_multi (module_path : bytes) (configured_sha : option bytes) : WasmReloadState := mkReloadState module_path (not_blank configured_sha).

Definition validate_and_read_module (module_path : bytes) : result bytes N :=
  if is_blank_path module_path then Err BAD_REQUEST
  else if has_parent_dir module_path then Err BAD_REQUEST
  else
    match canonicalize module_path with
    | None => Err INTERNAL_SERVER_ERROR
    | Some canonical_path =>
        match open_file canonical_path with
        | OpenIsDirectory => Err BAD_REQUEST
        | OpenFailed => Err INTERNAL_SERVER_ERROR
        | OpenedFile None _ => Err INTERNAL_SERVER_ERROR
        | OpenedFile (Some meta) read =>
            if negb (fm_is_file meta) then Err BAD_REQUEST
            else if fm_len meta =? 0 then Err BAD_REQUEST
            else if MAX_MODULE_SIZE <? fm_len meta then Err BAD_REQUEST
            else
              match read with
              | None => Err INTERNAL_SERVER_ERROR
              | Some content =>
                  let b := take_bytes (MAX_MODULE_SIZE + 1) content in
                  if bool_decide (b = []) || (MAX_MODULE_SIZE <? N.of_nat (length b)) then Err BAD_REQUEST else Ok b
              end
        end
    end.

(** The digest a module must have: the configured one, which a request may repeat
    but not replace; else the request's. *)
Definition expected_digest (state : WasmReloadState) (payload : WasmReloadRequest) : result (option bytes) N :=
  match st_configured_sha state with
  | Some configured =>
      match not_blank (rq_expected_sha payload) with
      | Some req_sha => if negb (eq_ignore_ascii_case req_sha configured) then Err BAD_REQUEST else Ok (Some configured)
      | None => Ok (Some configured)
      end
  | None => Ok (not_blank (rq_expected_sha payload))
  end.

Definition wasm_reload_handler (panics : bool) (k : nat) (state : WasmReloadState) (body : bytes) (engines : list (EngineCache M)) : list (EngineCache M) * result WasmReloadResponse N :=
  if MAX_RELOAD_REQUEST_BYTES <? N.of_nat (length body) then (engines, Err PAYLOAD_TOO_LARGE)
  else
    match (match body with [] => Some default_reload_request | _ => parse_reload_request body end) with
    | None => (engines, Err BAD_REQUEST)
    | Some payload =>
        if bool_decide (engines = []) then (engines, Err BAD_REQUEST)
        else
          match validate_and_read_module (st_module_path state) with
          | Err status => (engines, Err status)
          | Ok b =>
              match expected_digest state payload with
              | Err status => (engines, Err status)
              | Ok expected_sha =>
                  if panics then (engines, Err INTERNAL_SERVER_ERROR)
                  else
                    match stage_and_publish_module k engines b expected_sha with
                    | (engines, Ok generation) => (engines, Ok (mkReloadResponse "reload successful" (st_module_path state) generation))
                    | (engines, Err _) => (engines, Err BAD_REQUEST)
                    end
              end
          end
    end.

(** ** The administration server *)

Inductive Method : Type := GET | HEAD | POST | OtherMethod.

Definition reload_path : bytes := text "/api/v1/transforms/wasm/reload".

(** A router's answer to a method, a path and a body. *)
Definition Router : Type := Method -> bytes -> bytes -> list (EngineCache M) -> list (EngineCache M) * N.

Definition empty_router : Router := fun _ _ _ engines => (engines, NOT_FOUND).

Definition build_admin_router_multi (panics : bool) (k : nat) (module_path : bytes) (configured_sha : option bytes) : Router := fun m uri_path body engines =>
  if bool_decide (uri_path = reload_path) then
    match m with
    | POST => match wasm_reload_handler panics k (new_multi module_path configured_sha) body engines with (engines, Ok _) => (engines, OK) | (engines, Err status) => (engines, status) end
    | _ => (engines, METHOD_NOT_ALLOWED)
    end
  else (engines, NOT_FOUND).

Definition attach_admin_probe_routes (router : Router) (ready : bool) : Router := fun m uri_path body engines =>
  let probe status := (engines, match m with GET | HEAD => status | _ => METHOD_NOT_ALLOWED end) in
  if bool_decide (uri_path = text "/healthz") then probe OK
  else if bool_decide (uri_path = text "/readyz") then probe (if ready then OK else SERVICE_UNAVAILABLE)
  else router m uri_path body engines.

(** The server of [main]: the reload route is there with a transformer. *)
Definition admin_server (panics : bool) (k : nat) (transformer : option (bytes * option bytes)) (ready : bool) : Router :=
  attach_admin_probe_routes (match transformer with Some (module_path, configured_sha) => build_admin_router_multi panics k module_path configured_sha | None => empty_router end) ready.

(** ** What a reload publishes *)

Lemma take_bytes_length s : forall n, N.of_nat (length (take_bytes n s)) <= n.
Proof. induction s as [|b s IH]; intros n; cbn [take_bytes]; [cbn; lia|]. destruct (N.eqb_spec n 0); [cbn; lia|]. specialize (IH (n - 1)). cbn [length]. lia. Qed.

(** The start of what was read of a regular file without [..] in its path. *)
Definition module_read (path b : bytes) : Prop :=
  has_parent_dir path = false /\ 0 < N.of_nat (length b) <= MAX_MODULE_SIZE /\
  exists canonical len content, canonicalize path = Some canonical /\ open_file canonical = OpenedFile (Some (mkFileMeta true len)) (Some content) /\ b = take_bytes (MAX_MODULE_SIZE + 1) content.

Lemma validate_and_read_spec path : match validate_and_read_module path with Ok b => module_read path b | Err status => status = BAD_REQUEST \/ status = INTERNAL_SERVER_ERROR end.
Proof.
  unfold validate_and_read_module. destruct (is_blank_path path); [by left|]. destruct (has_parent_dir path) eqn:Ep; [by left|].
  destruct (canonicalize path) as [canonical|] eqn:Ec; [|by right]. destruct (open_file canonical) as [| |[[f len]|] read] eqn:Eo; [by left | by right | | by right].
  cbn [fm_is_file fm_len]. destruct f; [|by left]. cbn [negb]. destruct (len =? 0); [by left|]. destruct (MAX_MODULE_SIZE <? len); [by left|]. destruct read as [content|]; [|by right].
  cbv zeta. case_bool_decide as Hb; [by left|]. destruct (N.ltb_spec MAX_MODULE_SIZE (N.of_nat (length (take_bytes (MAX_MODULE_SIZE + 1) content)))) as [|Hle]; [by left|]. cbn [orb].
  split_and!; [done | | exact Hle | by exists canonical, len, content]. destruct (take_bytes _ content); [done | cbn [length]; lia].
Qed.

Lemma eq_ignore_trans a b c : eq_ignore_ascii_case a b = true -> eq_ignore_ascii_case b c = true -> eq_ignore_ascii_case a c = true.
Proof. unfold eq_ignore_ascii_case. rewrite !bool_decide_eq_true. congruence. Qed.
Lemma eq_ignore_sym a b : eq_ignore_ascii_case a b = true -> eq_ignore_ascii_case b a = true.
Proof. unfold eq_ignore_ascii_case. rewrite !bool_decide_eq_true. congruence. Qed.

(** The bytes have both digests, where these are given. *)
Definition has_digests (state : WasmReloadState) (payload : WasmReloadRequest) (b : bytes) : Prop :=
  verify_sha256 b (st_configured_sha state) = true /\ verify_sha256 b (not_blank (rq_expected_sha payload)) = true.

Lemma expected_digest_spec state payload b : match expected_digest state payload with
  | Ok expected => verify_sha256 b expected = true -> has_digests state payload b
  | Err status => status = BAD_REQUEST
  end.
Proof.
  unfold expected_digest, has_digests. destruct (st_configured_sha state) as [configured|]; [|by destruct (not_blank _)].
  destruct (not_blank (rq_expected_sha payload)) as [req|]; [|done]. destruct (eq_ignore_ascii_case req configured) eqn:E; cbn [negb]; [|done].
  cbn. intros Hv. split; [done|]. eapply eq_ignore_trans; [exact Hv | by apply eq_ignore_sym].
Qed.

Lemma reload_endpoint_spec panics k module_path configured_sha body engines :
  let state := new_multi module_path configured_sha in
  match wasm_reload_handler panics k state body engines with
  | (engines', Ok _) => panics = false /\ engines <> [] /\
      exists payload b, module_read module_path b /\ has_digests state payload b /\ (body = [] /\ payload = default_reload_request \/ parse_reload_request body = Some payload) /\
        Forall2 (fun c c' => exists m, compile b = Some m /\ (exists k, probe_candidate k m probe_cfg = Ok tt) /\ holds m c' /\ coherent c' /\
          (ec_generation c < u64_max -> ec_generation c' = ec_generation c + 1)) engines engines'
  | (engines', Err status) => engines' = engines /\ status ∈ [BAD_REQUEST; PAYLOAD_TOO_LARGE; INTERNAL_SERVER_ERROR]
  end.
Proof.
  intros state. unfold wasm_reload_handler. destruct (_ <? _); [split; [done | set_solver]|].
  destruct (match body with [] => _ | _ => _ end) as [payload|] eqn:Ebody; [|split; [done | set_solver]]. case_bool_decide as He; [split; [done | set_solver]|].
  pose proof (validate_and_read_spec (st_module_path state)) as Hread. destruct (validate_and_read_module _) as [b|status]; [|split; [done | destruct Hread as [->| ->]; set_solver]].
  pose proof (expected_digest_spec state payload b) as Hdig. destruct (expected_digest state payload) as [expected|status]; [|split; [done | rewrite Hdig; set_solver]].
  destruct panics; [split; [done | set_solver]|]. pose proof (reload_all_or_nothing k engines b expected) as Hall. destruct (stage_and_publish_module k engines b expected) as [engines' [gen|e]]; [|split; [done | set_solver]].
  split_and!; [done | done|]. exists payload, b. split_and!; [done | | destruct body; [left; by injection Ebody as <- | by right] |].
  - apply Hdig. destruct engines as [|c engines]; [done|]. inversion Hall as [|? ? ? ? (m & Hv & _)]. apply Hv.
  - eapply Forall2_impl; [exact Hall|]. cbn. intros c c' (m & (_ & Hc & Hp) & Hh & Hco & Hg). by exists m.
Qed.

(** C34 (reload_endpoint). A request to reload that is accepted has every engine hold one
    module, under its next generation: read from the configured path, which
    climbs out of no directory, of at most 64 MiB, and with the configured digest
    -- a request cannot replace it -- and the request's own if it names one.  A
    request that is refused leaves every engine as it was. *)
Theorem reload_endpoint panics k module_path configured_sha body engines :
  let state := new_multi module_path configured_sha in
  match wasm_reload_handler panics k state body engines with
  | (engines', Ok _) => panics = false /\ engines <> [] /\
      exists payload b, module_read module_path b /\ has_digests state payload b /\ (body = [] /\ payload = default_reload_request \/ parse_reload_request body = Some payload) /\
        Forall2 (fun c c' => exists m, compile b = Some m /\ (exists k, probe_candidate k m probe_cfg = Ok tt) /\ holds m c' /\ coherent c' /\
          (ec_generation c < u64_max -> ec_generation c' = ec_generation c + 1)) engines engines'
  | (engines', Err status) => engines' = engines /\ status ∈ [BAD_REQUEST; PAYLOAD_TOO_LARGE; INTERNAL_SERVER_ERROR]
  end.
Proof. apply reload_endpoint_spec. Qed.

(** No other request of the administration server touches an engine. *)
Lemma admin_reload_only panics k transformer ready m uri_path body engines engines' status :
  admin_server panics k transformer ready m uri_path body engines = (engines', status) -> engines' <> engines ->
  m = POST /\ uri_path = reload_path /\ is_Some transformer /\ status = OK.
Proof.
  unfold admin_server, attach_admin_probe_routes. cbv zeta. case_bool_decide as H1'; [intros [= <- _] Hn; by destruct Hn|]. case_bool_decide as H2'; [intros [= <- _] Hn; by destruct Hn|].
  destruct transformer as [[p sha]|]; [|intros [= <- _] Hn; by destruct Hn]. unfold build_admin_router_multi. case_bool_decide as Hp; [|intros [= <- _] Hn; by destruct Hn].
  destruct m; try (intros [= <- _] Hn; by destruct Hn). pose proof (reload_endpoint_spec panics k p sha body engines) as Hr. cbv zeta in Hr. destruct (wasm_reload_handler _ _ _ _ _) as [es [r|e]]; intros [= <- <-] Hn; [done|].
  by destruct Hr.
Qed.
End Reload.

Module ReloadDemo.
Import Guard.Demo WorkerDemo.
#[local] Existing Instances WorkerDemo.wasm WorkerDemo.codec TransformerDemo.toolchain.

(** The digest of the demonstration's module [2] is [ab2]. *)
#[local] Instance files : ModuleFiles := {|
  canonicalize p := Some p;
  open_file p := if bool_decide (p = text "dir") then OpenIsDirectory else OpenedFile (Some (mkFileMeta true 1)) (Some [2]);
  parse_reload_request b := match b with 123 :: _ => Some (mkReloadRequest (Some (text "AB2"))) | 91 :: _ => Some (mkReloadRequest (Some (text "ac2"))) | _ => None end |}.

Abbreviation handle path sha body := (wasm_reload_handler (RB := TBatch) (J := unit) false 0 (new_multi path sha) body [new_pooling]).

Example reloads :
  (handle (text "m.wasm") (Some (text "ab2")) []).2 = Ok (mkReloadResponse "reload successful" (text "m.wasm") 1) /\
  (handle (text "m.wasm") (Some (text "ab2")) (text "{")).2 = Ok (mkReloadResponse "reload successful" (text "m.wasm") 1) /\
  (handle (text "m.wasm") (Some (text "ab2")) (text "[")).2 = Err BAD_REQUEST /\ (handle (text "m.wasm") None (text "[")).2 = Err BAD_REQUEST /\
  (handle (text "a/../m.wasm") None []).2 = Err BAD_REQUEST /\ (handle (text "dir") None []).2 = Err BAD_REQUEST /\ (handle (text "m.wasm") None (text "?")).2 = Err BAD_REQUEST.
Proof. by vm_compute. Qed.
End ReloadDemo.
