(* ===== verification/Handles.v ===== *)
(** The handles of a buffer: crates/core/src/buffer/mod.rs, from
    [generate_instance_id] to the constructors of [SinkBuffer], its senders and its
    controller.

    The clock, the process id and the randomly keyed hasher are parameters. *)

From S2P Require Import Prelude Signal BufferConfig Arrow Frame Ring Watermark Writer Recovery SinkBuffer BufferMetrics.
Local Open Scope N_scope.

(** ** Instance ids *)

Definition two64 : N := u64_max + 1.
Definition wrapping_add (a b : N) : N := (a + b) mod two64.
Definition wrapping_mul (a b : N) : N := (a * b) mod two64.
Definition xorshift (k z : N) : N := N.lxor z (N.shiftr z k).

Definition GOLDEN : N := 0x9E3779B97F4A7C15.
Definition MIX1 : N := 0xBF58476D1CE4E5B9.
Definition MIX2 : N := 0x94D049BB133111EB.

(** The rounds over the seed. *)
Definition mix (z : N) : N :=
  let z := wrapping_mul (xorshift 30 z) MIX1 in
  let z := wrapping_mul (xorshift 27 z) MIX2 in
  xorshift 31 z.

(** The seed: what the hasher makes of the time, the process and the counter. *)
Definition seed (hash : N -> N -> N -> N) (nanos pid seq : N) : N := wrapping_add (hash nanos pid seq) (wrapping_mul seq GOLDEN).

Definition generate_instance_id (hash : N -> N -> N -> N) (nanos pid counter : N) : N * N :=
  let seq := counter in
  let out := mix (seed hash nanos pid seq) in
  (if out =? 0 then 1 else out, wrapping_add counter 1).

Lemma shiftr_bits z k i : N.testbit (N.shiftr z k) i = N.testbit z (i + k).
Proof. apply N.shiftr_spec'. Qed.

Lemma bits_above z i : z < two64 -> 64 <= i -> N.testbit z i = false.
Proof.
  intros Hz Hi. destruct (N.eq_dec z 0) as [->|Hn]; [apply N.bits_0|]. apply N.bits_above_log2.
  assert (N.log2 z < 64); [|lia]. apply N.log2_lt_pow2; [lia | exact Hz].
Qed.

(** A number below 2^64 is determined from its highest bits down. *)
Lemma xorshift_inj k a b : 0 < k -> a < two64 -> b < two64 -> xorshift k a = xorshift k b -> a = b.
Proof.
  intros Hk Ha Hb E. assert (Hbits : forall n i, 64 <= i + N.of_nat n * k -> N.testbit a i = N.testbit b i).
  { induction n as [|n IH]; intros i Hi; [rewrite !bits_above by (done || lia); done|].
    assert (Hx : N.testbit (xorshift k a) i = N.testbit (xorshift k b) i) by (by rewrite E). unfold xorshift in Hx. rewrite !N.lxor_spec, !shiftr_bits in Hx.
    rewrite (IH (i + k)) in Hx by lia. destruct (N.testbit a i), (N.testbit b i), (N.testbit b (i + k)); done. }
  apply N.bits_inj. intros i. apply (Hbits 64%nat). lia.
Qed.

Lemma xorshift_bound k z : z < two64 -> xorshift k z < two64.
Proof.
  intros Hz. destruct (N.eq_dec (xorshift k z) 0) as [->|Hn]; [done|]. apply (N.log2_lt_pow2 _ 64); [lia|]. apply N.lt_nge. intros Hle.
  assert (Hb : N.testbit (xorshift k z) (N.log2 (xorshift k z)) = true) by (by apply N.bit_log2). unfold xorshift in Hb at 1.
  rewrite N.lxor_spec, shiftr_bits, !bits_above in Hb by (done || lia). done.
Qed.

Lemma wrapping_mul_inj c inv a b : wrapping_mul c inv = 1 -> a < two64 -> b < two64 -> wrapping_mul a c = wrapping_mul b c -> a = b.
Proof.
  unfold wrapping_mul. intros Hinv Ha Hb E. assert (X : forall z, z < two64 -> (((z * c) mod two64) * inv) mod two64 = z).
  { intros z Hz. rewrite N.Div0.mul_mod_idemp_l, <- N.mul_assoc, <- N.Div0.mul_mod_idemp_r, Hinv, N.mul_1_r. by apply N.mod_small. }
  rewrite <- (X a Ha), <- (X b Hb), E. done.
Qed.

Lemma wrapping_mul_bound a b : wrapping_mul a b < two64.
Proof. by apply N.mod_lt. Qed.

Lemma mix_bound z : z < two64 -> mix z < two64.
Proof. intros Hz. unfold mix. apply xorshift_bound, wrapping_mul_bound. Qed.

(** The mixing is a permutation of the 64-bit numbers: no seed is lost in it. *)
Lemma mix_inj a b : a < two64 -> b < two64 -> mix a = mix b -> a = b.
Proof.
  intros Ha Hb E. unfold mix in E. apply xorshift_inj in E; [|done | apply wrapping_mul_bound..].
  apply (wrapping_mul_inj MIX2 3573116690164977347) in E; [|by vm_compute | apply xorshift_bound, wrapping_mul_bound..].
  apply xorshift_inj in E; [|done | apply wrapping_mul_bound..].
  apply (wrapping_mul_inj MIX1 10871156337175269513) in E; [|by vm_compute | by apply xorshift_bound..].
  by apply xorshift_inj in E.
Qed.

(** An id is never 0, fits in 64 bits, and is shared by two seeds only if the mixing
    sends one of them to 0. *)
Lemma instance_id_unique hash n p q c n' p' q' c' : seed hash n p c <> seed hash n' p' c' ->
  generate_instance_id hash n p c = (q, wrapping_add c 1) -> generate_instance_id hash n' p' c' = (q', wrapping_add c' 1) ->
  0 < q < two64 /\ (q = q' -> q = 1 /\ (mix (seed hash n p c) = 0 \/ mix (seed hash n' p' c') = 0)).
Proof.
  intros Hs. unfold generate_instance_id. intros [= <-] [= <-]. assert (Hb : forall x y z, seed hash x y z < two64) by (intros; by apply N.mod_lt).
  pose proof (mix_bound _ (Hb n p c)). split.
  - destruct (N.eqb_spec (mix (seed hash n p c)) 0); [split; [lia | by vm_compute] | lia].
  - destruct (N.eqb_spec (mix (seed hash n p c)) 0), (N.eqb_spec (mix (seed hash n' p' c')) 0); intros E; [by split; [|left].. | by split; [|right] |].
    exfalso. apply Hs. by apply mix_inj.
Qed.

(** ** Construction *)

Section Handles.
Context {RB Sch Row : Type} `{Arrow RB Sch Row} `{Crc}.

Abbreviation inner_t := (BufferInner RB Sch).

(** What is live of a buffer: its state, its metrics, and the scopes of its
    senders. *)
Record BufferHandles := mkHandles { bh_inner : inner_t; bh_metrics : BufferMetrics; bh_senders : list (option SignalType) }.

(** The receiving end, [SinkBuffer]. *)
Record SinkBufferHandle := mkSinkBuffer { sb_scope : option SignalType; sb_cursor : N }.

(** [BufferInner::new]: the outcome of opening the dead-letter store is given. *)
Definition inner_new (env : RecoveryEnv) (disk : gmap N bytes) (dead_letter : result unit PipelineError) (now : instant) (unix_now generated_id : N)
  (sink_name : string) (config : BufferConfig) : option (result (inner_t * BufferMetrics) PipelineError) :=
  let finish (b : inner_t) :=
    let? _ := dead_letter in Ok (b, record_recovered now unix_now (rings b) (new_metrics sink_name config)) in
  match mode config with
  | Disk =>
      match open_and_recover env config now disk (pconst new_ring_state) with
      | None => None
      | Some (Err e) => Some (Err e)
      | Some (Ok (w, recovered)) => Some (finish (new_disk_buffer config w recovered))
      end
  | Memory => Some (finish (new_memory_buffer config generated_id))
  end.

(** [BufferInner::new_passthrough], which cannot fail: the fallback is an empty
    store. *)
Definition inner_new_passthrough (generated_id : N) : inner_t * BufferMetrics :=
  (new_memory_buffer passthrough generated_id, new_metrics "passthrough" passthrough).

Definition new_sender (scope : option SignalType) (h : BufferHandles) : BufferHandles :=
  mkHandles (increment_senders (bh_inner h) scope) (bh_metrics h) (bh_senders h ++ [scope]).

Definition sink_buffer_pair (inner : inner_t * BufferMetrics) : BufferHandles * SinkBufferHandle :=
  (new_sender None (mkHandles inner.1 inner.2 []), mkSinkBuffer None 0).

Definition sink_buffer_new (env : RecoveryEnv) (disk : gmap N bytes) (dead_letter : result unit PipelineError) (now : instant) (unix_now generated_id : N)
  (sink_name : string) (config : BufferConfig) : option (result (BufferHandles * SinkBufferHandle) PipelineError) :=
  match validate config with
  | Err e => Some (Err e)
  | Ok _ => option_map (fun r => match r with Ok inner => Ok (sink_buffer_pair inner) | Err e => Err e end) (inner_new env disk dead_letter now unix_now generated_id sink_name config)
  end.

Definition passthrough_pair (generated_id : N) : BufferHandles * SinkBufferHandle := sink_buffer_pair (inner_new_passthrough generated_id).

(** [new_signal_triad]: a sender and a receiver for each signal, over one state. *)
Definition sink_buffer_triad (inner : inner_t * BufferMetrics) : BufferHandles * list SinkBufferHandle :=
  (foldl (fun h sig => new_sender (Some sig) h) (mkHandles inner.1 inner.2 []) SinkBuffer.all_signals, map (fun sig => mkSinkBuffer (Some sig) (as_u8 sig)) SinkBuffer.all_signals).

Definition new_signal_triad (env : RecoveryEnv) (disk : gmap N bytes) (dead_letter : result unit PipelineError) (now : instant) (unix_now generated_id : N)
  (sink_name : string) (config : BufferConfig) : option (result (BufferHandles * list SinkBufferHandle) PipelineError) :=
  match validate config with
  | Err e => Some (Err e)
  | Ok _ => option_map (fun r => match r with Ok inner => Ok (sink_buffer_triad inner) | Err e => Err e end) (inner_new env disk dead_letter now unix_now generated_id sink_name config)
  end.

(** *** Cloning and dropping senders *)

Definition clone_sender (i : nat) (h : BufferHandles) : BufferHandles := match bh_senders h !! i with Some scope => new_sender scope h | None => h end.

Definition drop_sender (i : nat) (h : BufferHandles) : BufferHandles :=
  match bh_senders h !! i with
  | Some scope => mkHandles (decrement_senders (bh_inner h) scope) (bh_metrics h) (take i (bh_senders h) ++ drop (S i) (bh_senders h))
  | None => h
  end.

Inductive HandleOp : Type := CloneSender (i : nat) | DropSender (i : nat).
Definition handle_op (h : BufferHandles) (op : HandleOp) : BufferHandles := match op with CloneSender i => clone_sender i h | DropSender i => drop_sender i h end.
Definition handle_ops (ops : list HandleOp) (h : BufferHandles) : BufferHandles := fold_left handle_op ops h.

(** *** What the handles read *)

Definition shutdown_timeout_drops (h : BufferHandles) (sb : SinkBufferHandle) : N := scoped_counter (bh_inner h) (sb_scope sb) Ring.shutdown_timeout_drops.
Definition dead_letter_drops (h : BufferHandles) (sb : SinkBufferHandle) : N := scoped_counter (bh_inner h) (sb_scope sb) Ring.dead_letter_drops.
Definition replayed_records (h : BufferHandles) (sb : SinkBufferHandle) : N := scoped_counter (bh_inner h) (sb_scope sb) Ring.replayed_records.
Definition sb_dropped_records (h : BufferHandles) (sb : SinkBufferHandle) (reason : string) : N := dropped_records (sb_scope sb) reason (bh_metrics h).
Definition overflow_drops (h : BufferHandles) (sb : SinkBufferHandle) : N := sb_dropped_records h sb "overflow".
Definition sb_committed_records (h : BufferHandles) (sb : SinkBufferHandle) : N := committed_records (sb_scope sb) (bh_metrics h).
Definition sb_lease_nacks (h : BufferHandles) (sb : SinkBufferHandle) (failure_class : string) : N := lease_nacks (sb_scope sb) failure_class (bh_metrics h).

(** ** A ring is closed when no sender is left for its signal *)

Definition covers (s : SignalType) (scope : option SignalType) : bool := match scope with Some s' => bool_decide (s' = s) | None => true end.
Definition live (s : SignalType) (senders : list (option SignalType)) : nat := length (List.filter (covers s) senders).

(** The count of a ring is that of its live senders, and it is closed when they are
    gone -- not before the first came. *)
Definition counted (h : BufferHandles) : Prop := forall s,
  let rs := sget (rings (bh_inner h)) s in
  active_senders rs = N.of_nat (live s (bh_senders h)) /\ closed (ring rs) = bool_decide (live s (bh_senders h) = 0%nat).

(** A count before the first sender. *)
Definition unopened (b : inner_t) : Prop := forall s, active_senders (sget (rings b) s) = 0 /\ closed (ring (sget (rings b) s)) = false.

Lemma live_app s l l' : live s (l ++ l') = (live s l + live s l')%nat.
Proof. unfold live. by rewrite List.filter_app, length_app. Qed.

Lemma live_one s scope : live s [scope] = if covers s scope then 1%nat else 0%nat.
Proof. unfold live. cbn. by destruct (covers s scope). Qed.

Lemma live_le s l : (live s l <= length l)%nat.
Proof. unfold live. apply filter_length_le. Qed.

Lemma scope_covers s scope : s ∈ scope_signals scope <-> covers s scope = true.
Proof. destruct scope as [s'|]; cbn; [rewrite bool_decide_eq_true; set_solver | destruct s; cbn; set_solver]. Qed.

Lemma scope_nodup scope : NoDup (scope_signals scope).
Proof. destruct scope; cbn; [apply NoDup_singleton|]. by apply (bool_decide_eq_true_1 (NoDup SinkBuffer.all_signals)). Qed.

(** A change of the rings of some signals, one after the other. *)
Lemma fold_rings (f : SignalRingState RB Sch -> SignalRingState RB Sch) sigs : NoDup sigs -> forall (b : inner_t) s,
  sget (rings (foldl (fun b sig => upd_ring_state b sig (f (sget (rings b) sig))) b sigs)) s = if bool_decide (s ∈ sigs) then f (sget (rings b) s) else sget (rings b) s.
Proof.
  induction 1 as [|x l Hx Hl IH]; intros b s; cbn [foldl]; [done|]. rewrite IH. unfold upd_ring_state. cbn. rewrite sget_sset. case_decide as E.
  - subst x. rewrite bool_decide_false by done. by rewrite bool_decide_true by set_solver.
  - destruct (decide (s ∈ l)); [rewrite !bool_decide_true by set_solver | rewrite !bool_decide_false by set_solver]; done.
Qed.

Lemma increment_rings (b : inner_t) scope s : sget (rings (increment_senders b scope)) s =
  let rs := sget (rings b) s in if covers s scope then rs <| active_senders := (active_senders rs + 1) mod (u64_max + 1) |> else rs.
Proof.
  unfold increment_senders. rewrite (fold_rings (fun rs => rs <| active_senders := (active_senders rs + 1) mod (u64_max + 1) |>)) by apply scope_nodup.
  destruct (covers s scope) eqn:E; [rewrite bool_decide_true by by apply scope_covers | rewrite bool_decide_false by (rewrite scope_covers; congruence)]; done.
Qed.

Lemma decrement_rings (b : inner_t) scope s : sget (rings (decrement_senders b scope)) s =
  let rs := sget (rings b) s in
  let rs' := rs <| active_senders := (active_senders rs + u64_max) mod (u64_max + 1) |> in
  if covers s scope then (if active_senders rs =? 1 then rs' <| ring := (ring rs') <| closed := true |> |> else rs') else rs.
Proof.
  unfold decrement_senders.
  rewrite (fold_rings (fun rs => let rs' := rs <| active_senders := (active_senders rs + u64_max) mod (u64_max + 1) |> in
    if active_senders rs =? 1 then rs' <| ring := (ring rs') <| closed := true |> |> else rs')) by apply scope_nodup.
  destruct (covers s scope) eqn:E; [rewrite bool_decide_true by by apply scope_covers | rewrite bool_decide_false by (rewrite scope_covers; congruence)]; done.
Qed.

(** A new sender: of a ring that has none yet, or of one that has. *)
Lemma new_sender_counted scope h : N.of_nat (length (bh_senders h)) < u64_max ->
  (forall s, covers s scope = true -> let rs := sget (rings (bh_inner h)) s in active_senders rs = N.of_nat (live s (bh_senders h)) /\ closed (ring rs) = false) ->
  (forall s, covers s scope = false -> let rs := sget (rings (bh_inner h)) s in active_senders rs = N.of_nat (live s (bh_senders h)) /\ closed (ring rs) = bool_decide (live s (bh_senders h) = 0%nat)) ->
  counted (new_sender scope h).
Proof.
  intros Hlen Hin Hout s. unfold new_sender. cbn [bh_inner bh_senders]. rewrite increment_rings. cbv zeta. pose proof (live_le s (bh_senders h)) as Hle.
  rewrite live_app, live_one. destruct (covers s scope) eqn:E.
  - destruct (Hin s E) as [Ha Hc]. split; [cbn; rewrite Ha, N.mod_small by lia; lia|]. rewrite bool_decide_false by lia. exact Hc.
  - rewrite Nat.add_0_r. by apply Hout.
Qed.

Lemma live_take_drop s l i scope : l !! i = Some scope -> live s l = (live s (take i l ++ drop (S i) l) + if covers s scope then 1 else 0)%nat.
Proof.
  intros Hi. rewrite <- (take_drop_middle _ _ _ Hi) at 1. rewrite !live_app. change (live s (scope :: drop (S i) l)) with (live s ([scope] ++ drop (S i) l)). rewrite live_app, live_one.
  destruct (covers s scope); lia.
Qed.

Lemma drop_sender_counted i h : N.of_nat (length (bh_senders h)) <= u64_max -> counted h -> counted (drop_sender i h).
Proof.
  intros Hlen Hc. unfold drop_sender. destruct (bh_senders h !! i) as [scope|] eqn:Ei; [|done]. intros s. cbn [bh_inner bh_senders]. rewrite decrement_rings. cbv zeta.
  destruct (Hc s) as [Ha Hcl]. pose proof (live_take_drop s _ _ _ Ei) as Hl. pose proof (live_le s (bh_senders h)) as Hle. destruct (covers s scope); [|rewrite Nat.add_0_r in Hl; by rewrite <- Hl].
  assert (Hn : active_senders (sget (rings (bh_inner h)) s) = N.of_nat (live s (take i (bh_senders h) ++ drop (S i) (bh_senders h))) + 1) by lia.
  assert (Hm : (active_senders (sget (rings (bh_inner h)) s) + u64_max) mod (u64_max + 1) = N.of_nat (live s (take i (bh_senders h) ++ drop (S i) (bh_senders h)))).
  { rewrite Hn. replace (_ + 1 + u64_max) with (N.of_nat (live s (take i (bh_senders h) ++ drop (S i) (bh_senders h))) + 1 * (u64_max + 1)) by lia.
    rewrite N.Div0.mod_add. apply N.mod_small. lia. }
  destruct (N.eqb_spec (active_senders (sget (rings (bh_inner h)) s)) 1) as [E1|E1]; cbn; (split; [exact Hm|]).
  - by rewrite bool_decide_true by lia.
  - rewrite Hcl, !bool_decide_false by lia. done.
Qed.

Lemma clone_sender_counted i h : N.of_nat (length (bh_senders h)) < u64_max -> counted h -> counted (clone_sender i h).
Proof.
  intros Hlen Hc. unfold clone_sender. destruct (bh_senders h !! i) as [scope|] eqn:Ei; [|done]. apply new_sender_counted; [done | | intros s _; apply Hc].
  intros s Hs. destruct (Hc s) as [Ha Hcl]. split; [done|]. rewrite Hcl. apply bool_decide_false. pose proof (live_take_drop s _ _ _ Ei) as Hl. rewrite Hs in Hl. lia.
Qed.

Lemma handle_op_length h op : (length (bh_senders (handle_op h op)) <= S (length (bh_senders h)))%nat.
Proof.
  destruct op as [i|i]; cbn [handle_op]; [unfold clone_sender | unfold drop_sender]; destruct (bh_senders h !! i); cbn; rewrite ?length_app, ?length_take, ?length_drop; cbn; lia.
Qed.

Lemma handle_ops_counted ops : forall h, N.of_nat (length (bh_senders h) + length ops) <= u64_max -> counted h -> counted (handle_ops ops h).
Proof.
  induction ops as [|op ops IH]; intros h Hlen Hc; [done|]. cbn [handle_ops fold_left]. cbn [length] in Hlen. apply IH.
  - pose proof (handle_op_length h op). lia.
  - destruct op as [i|i]; cbn [handle_op]; [apply clone_sender_counted; [lia | done] | apply drop_sender_counted; [lia | done]].
Qed.

(** *** Before the first sender *)

(** Recovery touches neither the count nor the flag. *)
Definition same_opening (rings0 rings1 : PerSignal (SignalRingState RB Sch)) : Prop := forall s,
  active_senders (sget rings1 s) = active_senders (sget rings0 s) /\ closed (ring (sget rings1 s)) = closed (ring (sget rings0 s)).

Lemma same_opening_trans a b c : same_opening a b -> same_opening b c -> same_opening a c.
Proof. intros Hab Hbc s. destruct (Hab s), (Hbc s). split; congruence. Qed.

Lemma same_opening_sset a sig rs : active_senders rs = active_senders (sget a sig) -> closed (ring rs) = closed (ring (sget a sig)) -> same_opening a (sset a sig rs).
Proof. intros Ha Hc s. rewrite sget_sset. case_decide; [by subst | done]. Qed.

Lemma load_same_opening env rs w rs' : load_initial_watermark env rs = Ok (w, rs') -> same_opening rs rs'.
Proof.
  unfold load_initial_watermark. destruct (match env_watermark_file env with Some (Some _) => _ | _ => _ end) as [w0|]; [|done]. cbn.
  destruct (if _ =? 0 then _ else _) as [w1|]; [|done]. intros [= <- <-]. intros s. by destruct s.
Qed.

Lemma scan_same_opening fuel num seg mx w now : forall offset sc sc', scan_loop fuel num seg mx w now offset sc = Some (Ok sc') -> same_opening (sc_rings sc) (sc_rings sc').
Proof.
  induction fuel as [|fuel IH]; intros offset sc sc'; cbn [scan_loop]; [done|]. destruct (decode_frame _ _).1 as [[[header batch]|]|e].
  - destruct (record_recovered_frame _ _ _ _ _ _ _ _) as [rs unacked] eqn:Er. intros E. eapply same_opening_trans; [|by eapply IH]. cbn [sc_rings].
    unfold record_recovered_frame in Er. destruct (_ <=? _); injection Er as <- <-; by apply same_opening_sset.
  - by intros [= <-].
  - destruct e.
    all: try (destruct (sf_truncate_ok seg); [by intros [= <-] | done]).
    all: try (intros E; eapply same_opening_trans; [|by eapply IH]; cbn [sc_rings]; unfold record_corrupted_frame; destruct (_ <? _); by apply same_opening_sset).
    all: try done.
    all: intros [= <-]; by apply (same_opening_sset _ Logs).
Qed.

Lemma recover_each_same_opening segs mx w now : forall max_id sealed obsolete truncated rs m s' o t rs',
  recover_each segs mx w now max_id sealed obsolete truncated rs = Some (Ok (m, s', o, t, rs')) -> same_opening rs rs'.
Proof.
  induction segs as [|[num seg] segs IH]; intros max_id sealed obsolete truncated rs m s' o t rs'; cbn [recover_each]; [by intros [= _ _ _ _ <-]|].
  unfold recover_single_segment. destruct (negb (sf_open_ok seg)); [done|]. destruct (scan_loop _ _ _ _ _ _ _ _) as [[sc|]|] eqn:Es; try done. apply scan_same_opening in Es. cbn in Es.
  intros E. apply (same_opening_trans _ _ _ Es). destruct (_ <? _) in E; by eapply IH.
Qed.

Lemma open_same_opening env config now disk rs w rs' : open_and_recover env config now disk rs = Some (Ok (w, rs')) -> same_opening rs rs'.
Proof.
  unfold open_and_recover. destruct (disk_path config); [|done]. destruct (negb _); [done|]. destruct (negb _); [done|]. destruct (load_initial_watermark env rs) as [[w0 rs0]|] eqn:El; [|done].
  destruct (recover_segments _ _ _ _ _) as [[rc|]|] eqn:Er; try done. destruct (negb _); [done|]. intros [= _ <-]. apply load_same_opening in El. apply (same_opening_trans _ _ _ El).
  unfold recover_segments in Er. destruct (env_segments env) as [segs|]; [|done]. destruct (recover_each _ _ _ _ _ _ _ _ _) as [[[[[[m s'] o] t] rs1]|]|] eqn:Ee; try done. apply recover_each_same_opening in Ee.
  destruct (merge_monotonic _ _) as [recovered changed]. destruct (_ && _); [done|]. injection Er as <-. cbn [rc_rings]. apply (same_opening_trans _ _ _ Ee).
  intros sig. unfold advance_ring_state, advance_watermark. destruct sig; cbn; destruct (release_evicted _ _ _ _); done.
Qed.

Lemma fresh_unopened s : active_senders (sget (pconst (new_ring_state : SignalRingState RB Sch)) s) = 0 /\ closed (ring (sget (pconst (new_ring_state : SignalRingState RB Sch)) s)) = false.
Proof. by destruct s. Qed.

Lemma inner_new_unopened env disk dl now unix_now id name config b m : inner_new env disk dl now unix_now id name config = Some (Ok (b, m)) -> unopened b.
Proof.
  unfold inner_new. cbv zeta. destruct (mode config).
  - destruct dl; cbn; [|done]. intros [= <- _] s. apply fresh_unopened.
  - destruct (open_and_recover _ _ _ _ _) as [[[w rs]|]|] eqn:Eo; try done. destruct dl; cbn; [|done]. intros [= <- _] s. destruct (open_same_opening _ _ _ _ _ _ _ Eo s) as [X Y]. unfold new_disk_buffer. cbn [rings]. rewrite X, Y. apply fresh_unopened.
Qed.

Lemma pair_counted inner : unopened inner.1 -> counted (sink_buffer_pair inner).1.
Proof.
  intros Hu. unfold sink_buffer_pair. cbn [fst]. apply new_sender_counted; [by vm_compute | | done]. intros s _. apply Hu.
Qed.

Lemma triad_counted inner : unopened inner.1 -> counted (sink_buffer_triad inner).1.
Proof.
  intros Hu s. unfold sink_buffer_triad, new_sender. cbn [fst foldl SinkBuffer.all_signals bh_inner bh_senders bh_metrics app]. rewrite !increment_rings. cbv zeta. destruct (Hu s) as [Ha Hc]. generalize dependent (sget (rings inner.1) s). intros rs Ha Hc.
  assert (Hl : live s [Some Logs; Some Metrics; Some Traces] = 1%nat) by by destruct s. rewrite Hl.
  assert (Hcov : forall x, covers s (Some x) = bool_decide (x = s)) by done. rewrite !Hcov. destruct s; repeat first [rewrite bool_decide_true by done | rewrite bool_decide_false by done]; cbn; rewrite Ha; (split; [by vm_compute | exact Hc]).
Qed.

(** How a buffer comes to be. *)
Inductive constructed : BufferHandles -> Prop :=
| by_new env disk dl now unix_now id name config h sb : sink_buffer_new env disk dl now unix_now id name config = Some (Ok (h, sb)) -> constructed h
| by_triad env disk dl now unix_now id name config h sbs : new_signal_triad env disk dl now unix_now id name config = Some (Ok (h, sbs)) -> constructed h
| by_passthrough id : constructed (passthrough_pair id).1.

Lemma constructed_counted h : constructed h -> counted h /\ (length (bh_senders h) <= 3)%nat.
Proof.
  intros [env disk dl now unix_now id name config h' sb E|env disk dl now unix_now id name config h' sbs E|id].
  - unfold sink_buffer_new in E. destruct (validate config); [|done]. destruct (inner_new _ _ _ _ _ _ _ _) as [[[b m]|]|] eqn:Ei; try done. cbn in E. injection E as <- _.
    split; [|cbn; lia]. apply (pair_counted (b, m)). by eapply inner_new_unopened.
  - unfold new_signal_triad in E. destruct (validate config); [|done]. destruct (inner_new _ _ _ _ _ _ _ _) as [[[b m]|]|] eqn:Ei; try done. cbn [option_map] in E. injection E as <- _.
    split; [|cbn; lia]. apply (triad_counted (b, m)). by eapply inner_new_unopened.
  - split; [|cbn; lia]. apply pair_counted. intros s. apply fresh_unopened.
Qed.

(** However a buffer was constructed -- alone, for each
    signal, in memory, or recovered from disk -- and however its senders were then
    cloned and dropped, each ring counts the senders that can still send to it,
    and says that it is drained, upon which its sink ends, only when none can. *)
Theorem drained_without_senders h ops s : constructed h -> N.of_nat (length ops) + 3 <= u64_max ->
  let h' := handle_ops ops h in
  counted h' /\ (signal_drained (ring (sget (rings (bh_inner h')) s)) = true -> Forall (fun scope => covers s scope = false) (bh_senders h')).
Proof.
  intros Hc Hlen h'. destruct (constructed_counted h Hc) as [Hcount Hl]. assert (Hc' : counted h') by (apply handle_ops_counted; [lia | done]). split; [done|].
  unfold signal_drained. intros [[Hcl _]%andb_prop _]%andb_prop. destruct (Hc' s) as [_ E]. rewrite Hcl in E. symmetry in E. apply bool_decide_eq_true in E.
  apply Forall_forall. intros scope Hin. destruct (covers s scope) eqn:Es; [|done]. apply list_elem_of_lookup in Hin as [i Hi]. pose proof (live_take_drop s _ _ _ Hi) as Hx. rewrite Es in Hx. lia.
Qed.
End Handles.

Module HandlesDemo.
Import Toy.

Definition env : RecoveryEnv := mkRecoveryEnv true true None 7 true (Some []) true true.
Definition triad (m : BufferConfig) : option (result (BufferHandles * list SinkBufferHandle) PipelineError) := new_signal_triad (RB := batch) env ∅ (Ok tt) 0 0 99 "es" m.
Definition opened : BufferHandles := match triad default_config with Some (Ok (h, _)) => h | _ => (passthrough_pair 1).1 end.
Definition ops : list HandleOp := [CloneSender 0; DropSender 0; DropSender 0].

(** Three senders; that of the logs is cloned and dropped, that of the metrics
    dropped: the metrics alone are drained. *)
Lemma drained_without_senders_witness :
  map (fun s => signal_drained (ring (sget (rings (bh_inner (handle_ops ops opened))) s))) [Logs; Metrics; Traces] = [false; true; false] /\
  (counted (handle_ops ops opened) /\
   (signal_drained (ring (sget (rings (bh_inner (handle_ops ops opened))) Metrics)) = true -> Forall (fun scope => covers Metrics scope = false) (bh_senders (handle_ops ops opened)))).
Proof.
  split; [by vm_compute|]. apply (drained_without_senders opened ops Metrics); [|by vm_compute].
  eapply (by_triad env ∅ (Ok tt) 0 0 99 "es" default_config). by vm_compute.
Defined.

(** The generator of splitmix64, but for its 0. *)
Example instance_ids : map (fun c => (generate_instance_id (fun _ _ _ => 0) 0 0 c).1) [0; 1; 2] = [1; 16294208416658607535; 7960286522194355700].
Proof. by vm_compute. Qed.
End HandlesDemo.
