(* ===== verification/Main.v ===== *)
(** The process: [main] of src/main.rs, from the command line to the exit, over the
    parts the other files model.

    What the machine answers is a record ([World]): the filter and exporters of
    telemetry, the buffer's directory, the clock, the addresses that can be
    bound, the heap of shared handles, and what running makes of the buffer --
    the event that ends the select, the ends of the tasks, and the state the
    buffer is left in.  Reading the configuration is figment's; the SIGHUP task
    and the administration server, which the end of [main] waits for, decide
    nothing. *)

From S2P Require Import ElasticsearchConfig StarRocksConfig ParquetConfig IcebergSink Prelude Text Pipeline Arrow Signal BufferConfig Ring Recovery SinkBuffer BufferMetrics Handles ParquetError Bulk ElasticsearchSink EsStartup StarRocks Kafka CoreConfig Telemetry Guard Engine Worker Dispatcher Transformer Service Assembly.
Local Open Scope N_scope.

Section Main.
Context {RB Arr M G J Sch Row : Type} `{Tables RB Arr} `{Wasm M G} `{Codec RB J} `{Toolchain M} `{Arrow.Arrow RB Sch Row} `{Arrow.Crc}.
Context {C Producer Manager : Type} `{HttpStack C} `{Cluster}.
Variables (mc : Machine) (clock : nat -> N).
Variable create : gmap string string -> result Producer string.
Variable manager_new : StreamLoadConfig -> StreamLoadTableProperties -> result Manager string.

Abbreviation sinks_t := (Sinks (Producer := Producer) (Manager := Manager) mc).

Record World := mkWorld {
  wd_rust_log : option bytes;
  wd_filter_parses : bytes -> bool;
  wd_span_exporter : bytes -> bool;
  wd_metric_exporter : bytes -> bool;
  wd_recovery : RecoveryEnv;
  wd_disk : gmap N bytes;
  wd_dead_letter : result unit PipelineError;
  wd_now : instant;
  wd_unix_now : N;
  wd_generated_id : N;
  wd_attempts : nat;
  wd_binds : SocketAddr -> bool;
  wd_heap : Heap C;
  wd_run : BufferHandles (RB := RB) (Sch := Sch) -> sinks_t -> Trigger * (Task -> option JoinResult) * BufferInner RB Sch;
  wd_sync_reply : result unit PipelineError;
  wd_shutdown_reply : result unit PipelineError;
}.

Inductive MainError : Type :=
| Invalid (msg : string)
| NoTelemetry (e : PipelineError)
| NoBuffer (e : PipelineError)
| NoTransformer (msg : string)
| NoAdmin
| NoSink (msg : string)
| Ran (e : ExitError).

(** The administration listener, where one is configured. *)
Definition bind_admin (w : World) (c : AppConfig J) : result unit MainError :=
  match admin_addr (ac_server c) with
  | Some a => if wd_binds w a then Ok tt else Err NoAdmin
  | None => Ok tt
  end.

(** From the buffer on: the parts in the order they are made, the run, and the
    shutdown.  [None] is a panic of the recovery. *)
Definition serve (c : AppConfig J) (w : World) : option (result (option ExitError * BufferInner RB Sch) MainError) :=
  match active_sink c with
  | Err e => Some (Err (NoBuffer e))
  | Ok (active_sink_name, sink_buffer_config) =>
      match new_signal_triad (wd_recovery w) (wd_disk w) (wd_dead_letter w) (wd_now w) (wd_unix_now w) (wd_generated_id w)
              active_sink_name sink_buffer_config with
      | None => None
      | Some (Err e) => Some (Err (NoBuffer e))
      | Some (Ok (handles, _)) =>
          Some (
            let? transformers := map_err NoTransformer (initialize_transformers (wd_attempts w) (ac_wasm_transformer c)) in
            let? _ := bind_admin w c in
            let? sinks := map_err NoSink (make_sinks mc clock create manager_new c (wd_heap w)) in
            let '(trigger, ends, b) := wd_run w handles sinks.1 in
            Ok (shut_down trigger ends b (wd_sync_reply w) (wd_shutdown_reply w)))
      end
  end.

Definition init_service_telemetry (cli : Service.Cli) (c : AppConfig J) (w : World) (o : Globals) : Globals * result TelemetryGuard PipelineError :=
  init_telemetry_with_verbosity (wd_filter_parses w) (wd_span_exporter w) (wd_metric_exporter w) (wd_rust_log w) o
    (pc_telemetry (ac_pipeline c)) (option_map text (cli_verbosity_filter (cli_verbose cli))).

(** The exit of the process, with what it leaves of the telemetry. *)
Definition main (k : nat) (cli : Service.Cli) (config : AppConfig J) (w : World) (o : Globals) : Globals * option (result unit MainError) :=
  let c := apply_overrides cli config in
  match validate_config mc k c with
  | Err e => (o, Some (Err (Invalid e)))
  | Ok _ =>
      if cli_check cli then (o, Some (Ok tt))
      else
        match init_service_telemetry cli c w o with
        | (o, Err e) => (o, Some (Err (NoTelemetry e)))
        | (o, Ok guard) =>
            match serve c w with
            | None => (drop_guard guard o, None)
            | Some (Err e) => (drop_guard guard o, Some (Err e))
            | Some (Ok (exit_err, _)) =>
                let '(guard, o) := shutdown guard o in
                (drop_guard guard o, Some (match exit_err with Some e => Err (Ran e) | None => Ok tt end))
            end
        end
  end.

(** ** What a configuration that passes the check can still meet *)

(** Why a configuration that passed the check is refused: its buffer's store, a module
    that no longer starts, an address that is taken, or what its sinks are refused
    for. *)
Definition refused_late (c : AppConfig J) (w : World) (e : MainError) : Prop :=
  match e with
  | NoBuffer e => exists name buf, active_sink c = Ok (name, buf) /\ BufferConfig.validate buf = Ok tt /\
      inner_new (wd_recovery w) (wd_disk w) (wd_dead_letter w) (wd_now w) (wd_unix_now w) (wd_generated_id w) name buf = Some (Err e)
  | NoTransformer msg => initialize_transformers (wd_attempts w) (ac_wasm_transformer c) = Err msg
  | NoAdmin => exists a, admin_addr (ac_server c) = Some a /\ wd_binds w a = false
  | NoSink msg => sink_refused clock create manager_new c (wd_heap w) msg
  | _ => False
  end.

(** The service ran, on a buffer of its own and on sinks wired to their signals,
    and ended with that exit and buffer. *)
Definition ran (c : AppConfig J) (w : World) (exit_err : option ExitError) (b : BufferInner RB Sch) : Prop :=
  exists name buf handles receivers transformers sinks heap,
    active_sink c = Ok (name, buf) /\ BufferConfig.validate buf = Ok tt /\
    new_signal_triad (wd_recovery w) (wd_disk w) (wd_dead_letter w) (wd_now w) (wd_unix_now w) (wd_generated_id w) name buf = Some (Ok (handles, receivers)) /\
    initialize_transformers (wd_attempts w) (ac_wasm_transformer c) = Ok transformers /\ bind_admin w c = Ok tt /\
    make_sinks mc clock create manager_new c (wd_heap w) = Ok (sinks, heap) /\ wired mc clock create manager_new c heap sinks /\
    shut_down (wd_run w handles sinks).1.1 (wd_run w handles sinks).1.2 (wd_run w handles sinks).2 (wd_sync_reply w) (wd_shutdown_reply w) = (exit_err, b).

(** A panic of the recovery. *)
Definition recovery_panics (c : AppConfig J) (w : World) : Prop :=
  exists name buf, active_sink c = Ok (name, buf) /\
    inner_new (wd_recovery w) (wd_disk w) (wd_dead_letter w) (wd_now w) (wd_unix_now w) (wd_generated_id w) name buf = None.

Lemma serve_spec k c w : validate_config mc k c = Ok tt ->
  match serve c w with
  | None => recovery_panics c w
  | Some (Err e) => refused_late c w e
  | Some (Ok (exit_err, b)) => ran c w exit_err b
  end.
Proof.
  intros Hv. destruct (validated_servable mc k c Hv) as (name & buf & Ha & Hb & _). unfold serve. rewrite Ha. unfold new_signal_triad. rewrite Hb.
  destruct (inner_new _ _ _ _ _ _ _ _) as [[inner|e]|] eqn:Ei; cbn [option_map]; [| by exists name, buf | by exists name, buf].
  destruct (sink_buffer_triad inner) as [handles receivers] eqn:Et.
  destruct (initialize_transformers _ _) as [transformers|msg] eqn:Ew; cbn [map_err]; [|exact Ew].
  destruct (bind_admin w c) as [[]|e] eqn:Eb; cycle 1.
  { unfold bind_admin in Eb. destruct (admin_addr (ac_server c)) as [a|] eqn:Ead; [|done]. destruct (wd_binds w a) eqn:Ebi; [done|].
    injection Eb as <-. cbn. by exists a. }
  pose proof (checked_sinks_made mc clock create manager_new k c (wd_heap w) Hv) as Hs.
  destruct (make_sinks _ _ _ _ _ _) as [[sinks heap]|msg] eqn:Em; cbn [map_err fst]; [|exact Hs].
  destruct (wd_run w handles sinks) as [[trigger ends] b] eqn:Er.
  destruct (shut_down trigger ends b _ _) as [exit_err b'] eqn:Esd.
  exists name, buf, handles, receivers, transformers, sinks, heap. rewrite Er. unfold new_signal_triad. rewrite Hb, Ei. cbn [option_map]. by rewrite Et.
Qed.

(** What the process flushed, when its telemetry was started: the tracer and the
    meter, each once. *)
Definition flushed (c : TelemetryConfig) : list Instrument :=
  if tc_enabled c then [Tracer (provider_of c); Meter (provider_of c)] else [].

Lemma init_flushed cli c w o : let t := pc_telemetry (ac_pipeline c) in
  match init_service_telemetry cli c w o with
  | (o', Err _) => o' = o /\ telemetry_refused (wd_filter_parses w) (wd_span_exporter w) (wd_metric_exporter w) (wd_rust_log w) t
      (option_map text (cli_verbosity_filter (cli_verbose cli)))
  | (o', Ok g) => gl_shut_down (drop_guard g o') = gl_shut_down o ++ flushed t
  end.
Proof.
  intros t. unfold init_service_telemetry. fold t.
  pose proof (telemetry_starts (wd_filter_parses w) (wd_span_exporter w) (wd_metric_exporter w) (wd_rust_log w) o t
    (option_map text (cli_verbosity_filter (cli_verbose cli)))) as Ht.
  destruct (init_telemetry_with_verbosity _ _ _ _ o t _) as [o' [g|e]]; [|exact Ht].
  destruct Ht as (_ & Hact & Hlog & _ & _ & Hcase). unfold flushed, drop_guard, shutdown. rewrite Hlog. cbn.
  destruct (tc_enabled t); [destruct Hcase as [-> _]; cbn; by rewrite <- app_assoc|].
  destruct g as [[m|] [tr|]]; try done. cbn. by rewrite app_nil_r.
Qed.

Lemma serve_not_invalid c w msg : serve c w <> Some (Err (Invalid msg)).
Proof.
  unfold serve. destruct (active_sink c) as [[name buf]|]; [|done]. destruct (new_signal_triad _ _ _ _ _ _ _ _) as [[[handles r]|]|]; [|done..].
  destruct (initialize_transformers _ _); cbn [map_err]; [|done]. unfold bind_admin. destruct (admin_addr _) as [addr|]; [destruct (wd_binds w addr); [|done]|];
    (destruct (make_sinks _ _ _ _ _ _) as [sinks|]; cbn [map_err]; [|done]; by destruct (wd_run w handles sinks.1) as [[? ?] ?]).
Qed.

(** The process refuses its configuration only when it is not valid, and leaves
    everything as it was. *)
Lemma main_invalid k cli config w o :
  match validate_config mc k (apply_overrides cli config) with
  | Err e => main k cli config w o = (o, Some (Err (Invalid e)))
  | Ok _ => forall msg, (main k cli config w o).2 <> Some (Err (Invalid msg))
  end.
Proof.
  unfold main. destruct (validate_config _ _ _) as [[]|e]; [|done]. intros msg. destruct (cli_check cli); [done|].
  destruct (init_service_telemetry _ _ _ _) as [o1 [g|e]]; [|done]. pose proof (serve_not_invalid (apply_overrides cli config) w msg) as Hs.
  destruct (serve _ w) as [[[exit_err b]|e]|]; [|cbn; congruence|done].
  destruct (shutdown g o1) as [g' o2]. by destruct exit_err.
Qed.

(** C25 (check_tells). The option --check touches nothing and ends in one of two ways.  It
    refuses, exactly when the service started on the same command line and
    configuration refuses its configuration, with the same message, and the service then has
    touched nothing either; or it accepts, and the service has, whichever sink is configured, a
    buffer that obeys the startup rules, a channel that holds something, an
    administration listener on an address and a port of its own, and for Iceberg a
    table of its own for each signal.  An accepted configuration may still be refused
    after that ([process_outcome]). *)
Theorem check_tells (k : nat) (cli : Service.Cli) (config : AppConfig J) (w : World) (o : Globals) :
  cli_check cli = false ->
  let checked := main k (with_check cli) config w o in
  let '(o', r) := main k cli config w o in
  checked.1 = o /\
  ((exists msg, checked.2 = Some (Err (Invalid msg))) \/ checked.2 = Some (Ok tt)) /\
  (forall msg, checked.2 = Some (Err (Invalid msg)) <-> r = Some (Err (Invalid msg))) /\
  (forall msg, r = Some (Err (Invalid msg)) -> o' = o) /\
  (checked.2 = Some (Ok tt) -> exists sink buf, servable (apply_overrides cli config) sink buf).
Proof.
  intros Hcheck. unfold main at 1. change (apply_overrides (with_check cli) config) with (apply_overrides cli config).
  pose proof (main_invalid k cli config w o) as Hm. destruct (main k cli config w o) as [o' r] eqn:Em. cbv zeta.
  destruct (validate_config mc k (apply_overrides cli config)) as [[]|e] eqn:Ev; cbn [cli_check with_check fst snd].
  - split; [done|]. split; [by right|]. cbn [snd] in Hm. split; [|split; [by intros msg Hr%Hm|]].
    + intros msg. split; [done|]. by intros Hr%Hm.
    + intros _. by apply (validated_servable mc k).
  - injection Hm as -> ->. split; [done|]. split; [left; by exists e|]. split_and!; done.
Qed.


End Main.

Module MainDemo.
Import Guard.Demo WorkerDemo ConfigDemo AssemblyDemo.
#[local] Existing Instances WorkerDemo.wasm WorkerDemo.codec ConfigDemo.toolchain AssemblyDemo.stack.

#[local] Instance rows : Arrow.Arrow TBatch N N := {|
  rb_rows _ := []; rb_schema _ := 0; rb_memory_size _ := 0; rb_slice b _ _ := b;
  ipc_encode _ := None; ipc_decode _ := IpcError; ipc_file_encode _ := None |}.

Definition with_telemetry (endpoint : bytes) : AppConfig unit :=
  mkAppConfig (mkPipelineConfig default_channel_capacity (mkTelemetryConfig true endpoint (text "lake") None)) (ac_server config)
    None None None None (Some ParquetConfig.default_config) None.

Definition recovery : RecoveryEnv := mkRecoveryEnv true true None 7 true (Some []) true true.

(** A machine on which only the administration listener's port may be taken, and
    a run that was asked to stop and drained. *)
Definition world (port_free : bool) : World (RB := TBatch) (Sch := N) (C := N) (Producer := gmap string string) (Manager := unit) machine :=
  mkWorld (RB := TBatch) (Sch := N) (C := N) machine None (fun _ => true) (fun _ => true) (fun _ => true) recovery ∅ (Ok tt) 0 0 9 0 (fun _ => port_free) empty_heap
    (fun handles _ => (ShutdownSignal, fun _ => Some (Joined (Ok tt)), bh_inner handles)) (Ok tt) (Ok tt).

#[local] Existing Instance Toy.crc.

Definition run_main (port_free : bool) (endpoint : bytes) : Globals * option (result unit MainError) :=
  main (RB := TBatch) (M := N) (H5 := stack) (H6 := EsStartupDemo.cluster false) machine (fun _ => 7) (fun settings => Ok settings)
    (fun _ _ => Err "down"%string) 0 cli (with_telemetry endpoint) (world port_free) (mkGlobals None None None []).


(** A configuration that is accepted, and one whose administration listener would be open
    to every address. *)
Abbreviation check_demo cli config := (main (RB := TBatch) (M := N) (H5 := stack) (H6 := EsStartupDemo.cluster false) machine (fun _ => 7) (fun settings => Ok settings)
  (fun _ _ => Err "down"%string) 0 cli config (world true) (mkGlobals None None None [])).

Lemma check_tells_witness :
  (check_demo (with_check (mkCli 0 false None None (Some (mkSocketAddr (V4 0) 9090)) None)) ConfigDemo.config).2 <> Some (Ok tt) /\
  (check_demo (with_check cli) ConfigDemo.config).2 = Some (Ok tt) /\
  exists sink buf, servable (apply_overrides cli ConfigDemo.config) sink buf.
Proof.
  split; [by vm_compute|]. assert (E : (check_demo (with_check cli) ConfigDemo.config).2 = Some (Ok tt)) by (by vm_compute). split; [exact E|].
  pose proof (check_tells (RB := TBatch) (M := N) (H5 := stack) (H6 := EsStartupDemo.cluster false) machine (fun _ => 7) (fun settings => Ok settings)
    (fun _ _ => Err "down"%string) 0 cli ConfigDemo.config (world true) (mkGlobals None None None []) eq_refl) as T. cbv zeta in T.
  destruct (check_demo cli ConfigDemo.config) as [o' r]. destruct T as (_ & _ & _ & _ & T). exact (T E).
Defined.

(** The service's own receiver is refused before anything is started. *)
Example own_receiver_refused : exists msg, run_main true (text "http://localhost:4317") = (mkGlobals None None None [], Some (Err (Invalid msg))).
Proof. eexists. vm_compute. reflexivity. Qed.

End MainDemo.
